(* ===== verification/_CoqProject ===== *)
-Q . S2P
Prelude.v
Bits.v
Text.v
Utf8.v
StdFloat.v
Query.v
QueryText.v
QueryWords.v
QueryPrepare.v
QueryFacts.v
QueryScores.v
QueryNarrow.v
Page.v
PageFacts.v
Generation.v
Items.v
PageSession.v
PageSessionFacts.v
View.v
Launcher.v
LauncherFacts.v
Calculator.v
CalculatorGrammar.v
CalculatorFacts.v
Ranking.v
RankingFacts.v
RankingBound.v
QueryAgree.v
Debounce.v
Configuration.v
LegacyDispatch.v
SchedulerTypes.v
Scheduler.v
SchedulerInv.v
SchedulerQuery.v
SchedulerTick.v
SchedulerFacts.v
SchedulerClaims.v
SchedulerFlights.v
Aggregator.v
AggregatorFacts.v
Catalog.v
CatalogIndex.v
CatalogMerge.v
CatalogPlan.v
CatalogSearch.v
CatalogFacts.v
Search.v
SearchTop.v
Service.v
ServicePublish.v
ServiceInv.v
ServiceQuery.v
ServiceClaims.v
Intake.v
IntakeInv.v
IntakeDrain.v
IntakeFacts.v
Concurrency.v
Manifest.v
ManifestFacts.v
Resolve.v
ResolveFacts.v
Supervisor.v
SupervisorFacts.v
Wire.v
WireFacts.v
Message.v
MessageFacts.v
MessageRoundtrip.v
Convert.v
Frame.v
Pipeline.v
PipelineInv.v
PipelineOps.v
PipelineSteps.v
PipelineView.v
PipelineRegistry.v
PipelineFacts.v
PipelineGate.v
