(* ===== verification/Prelude.v ===== *)
(** * CriKey: a verification library of the launcher's core

    CriKey is a keyboard launcher.  Every keystroke starts a new query
    generation; plugins are asked for results under per-plugin scheduling
    policies; their batches come back over a framed binary protocol, pass a
    bounded intake boundary and are merged into the list on screen; a
    supervisor tracks the health of every plugin worker and a budget bounds its
    concurrency; a view model decides what the window shows, and plugins may
    open pages of their own in it.  This library models these parts as executable functions
    (stateful code as state passing, panics as [None], [Result] as [result],
    machine integers as [Z] with their widths written out) and proves what makes
    them correct.

    ** Parts and files

    - [Prelude] (this file): record update, results, machine integers, automation
      ([split_tests], [reflect_bools], the hint databases [crikey], [crikey_rw])
      and lemmas on lists, sums and maps.  [Text]: Rust's strings as characters,
      with printing and parsing of integers and of binary64 numbers.  [Bits]: the
      bits of masks and words.  [Utf8]: strings as the characters they decode to.
      [StdFloat]: binary32 arithmetic.
    - Query generations: [Generation] models [GenerationTracker] of
      [crikey-core/src/generation.rs].  Items and identities: [Items] models
      [crikey-core/src/item.rs] and [action.rs].
    - Debouncing: [Debounce] models [Debouncer] of
      [crikey-input-scheduler/src/debounce.rs].  Legacy plugins:
      [LegacyDispatch] models [ObsoleteWorkManager] ([legacy.rs]) and the
      profiles ([profile.rs]).
    - The query scheduler ([crikey-input-scheduler/src/runtime.rs]):
      [SchedulerTypes] holds its policies, diagnostics and gating, [Scheduler]
      the state of [QueryScheduler] and one definition per method (long methods
      such as [process_query_for_plugin] and [tick] are split at their
      phases).  [SchedulerInv], [SchedulerQuery] and [SchedulerTick] prove what
      each operation does up to the diagnostics (the relation [erase]),
      [SchedulerFacts] the invariant over every sequence of calls, and
      [SchedulerClaims] the properties.
    - Results ([crikey-result-aggregator/src]): [Aggregator] models
      [MemoryResultAggregator] ([lib.rs]) and states the trait
      [ResultAggregator] as a class, with the law [AtomicAggregator] its clients
      rely on; [AggregatorFacts] proves the refinement of a reference that keeps
      only the list.  [Intake] models [InboundResultQueue] ([intake.rs]) against
      any aggregator; [IntakeInv], [IntakeDrain] and [IntakeFacts] prove its
      invariant, its operations and its properties.
    - Supervision ([crikey-plugin-supervisor/src]): [Concurrency] models
      [ConcurrencyBudget] ([concurrency.rs]) one atomic access at a time, as an
      interleaving machine; [Supervisor] and [SupervisorFacts] model
      [MemorySupervisor] ([lib.rs]) and relate it to the history of accepted
      events.
    - The native protocol ([crikey-native-protocol/src]): [Wire] and [WireFacts]
      model the field codecs and the decode budget ([wire.rs]), [Frame] the
      framing ([frame.rs]) against the classes [Reader] and [Writer].  [Message] models the messages ([message.rs]), one module for
      each with its fields, encoder and decoder, the envelope, and the sizing of
      batches; the class [Message] is what they share.  [MessageFacts] proves the
      decoders total and how each kind of field is read back (the relation
      [merges], the class [Faithful]), [MessageRoundtrip] gives an instance per
      message and the properties.  [Convert] models the conversions between
      messages and the types of the host ([convert.rs]) and proves that items and
      pages arrive.
    - Plugin manifests ([crikey-plugin-model/src]): [Configuration] models settings schemas ([configuration.rs]),
      [Manifest] the manifest, its permissions and the resolution and validation
      of its scheduling policy ([manifest.rs], [permissions.rs],
      [scheduling.rs]); [ManifestFacts] proves what an accepted manifest
      guarantees.
    - The query engine ([crikey-query/src/lib.rs]): [Query] models normalisation, aliases, presence masks,
      prepared labels, the candidate filters, the matcher with its scores and
      highlights.  [QueryText], [QueryWords] and [QueryPrepare]
      prove the facts on text, on the ways of matching, on the word-prefix grid
      and on the maps back to the raw label; [QueryFacts] and [QueryScores] the
      properties, [QueryNarrow] what appending to a query does to its tokens and
      matches, [QueryAgree] that a match and its summary score alike.
    - Ranking ([crikey-ranking/src/lib.rs]): [Ranking] models the selection
      history and the default ranker, term by term; [RankingFacts] proves the
      properties of the history and of the scores, and
      [RankingBound] the bound on the score of a match, with the rounding lemmas
      of [StdFloat].
    - The catalog ([crikey-catalog/src/lib.rs]): [Catalog] models [MemoryCatalog]
      with its per-plugin slices, the bit postings of characters and of ordered
      pairs and the prefix index; [CatalogIndex], [CatalogMerge], [CatalogPlan],
      [CatalogSearch] and [CatalogFacts] prove the invariant, each operation and
      the properties.  The class [CatalogCache] states the trait of the
      persistent cache over its storage.
    - The search service ([crikey-app/src/lib.rs]): [Search] models the startup
      stages and [select_best] with its heaps; [SearchTop]
      proves that it selects the strongest matches.  [Service] models
      [SearchService]: publication, the cached catalog, queries, merging and
      history; [ServicePublish] follows an answer through the aggregator,
      [ServiceInv] holds the invariant [service_ok] and its preservation,
      [ServiceQuery] what a query and a merge do, [ServiceClaims] the properties.
    - The query pipeline ([crikey-app/src/query_pipeline.rs]): [Pipeline] models
      [QueryPipeline], one definition per method, on top of the models of the
      scheduler, the intake boundary, the aggregator, the supervisor and the
      budgets; the budgets live in a store, because the pipeline shares them with
      other dispatch sites ([foreign_acquire], [foreign_release]).
      [SchedulerFlights] tracks the requests in flight through every scheduler
      operation.  [PipelineInv] holds the facts on slots and guards and the
      invariant [pinv], [PipelineOps], [PipelineSteps],
      [PipelineView] and [PipelineRegistry] the specification of each operation,
      [PipelineFacts] the properties over every sequence of calls, and
      [PipelineGate] the agreement of the scheduler's gate with the manifest.

    - Plugin pages: [Page] models the frames a plugin draws and every rule a
      frame must obey ([crikey-core/src/page.rs]), [PageFacts] proves what an
      accepted frame guarantees.  [PageSession] models a page's thread and its
      caller ([crikey-app/src/plugin_page.rs]) as an interleaving machine,
      [PageSessionFacts] what either of them sees under every interleaving.
    - The user interface ([crikey-ui/src/lib.rs]): [View] holds the rows, pages
      and frames of the view model, [Launcher] the state of [LauncherViewModel]
      and one definition per method, [LauncherFacts] the invariant and the
      properties over every sequence of calls.

    - The calculator ([crikey-cli/src/calculator.rs]): [Calculator] models the
      tokenizer, the parser, the rendering of values and the row a query earns;
      [CalculatorGrammar] states the documented grammar and proves the parser
      sound and complete for it, [CalculatorFacts] the properties.

    - The dependency resolver of the package manager
      ([crikey-package-manager/src/resolve.rs], with names of [index.rs] and the
      validation of [lockfile.rs]): [Resolve] models versions, their order,
      requirements and the choice among the versions of an index; [ResolveFacts]
      proves the order total, names canonical, and what is locked the best.

    ** How the parts interact

    The scheduler owns the generation tracker and hands out requests;
    [record_result_batch] decides which batches are still wanted.  A transport
    reads frames ([Frame]), decodes the envelopes in them ([Message]), converts
    what they carry ([Convert]) and submits batches to the boundary ([Intake]), which drains them into the aggregator through the
    class [ResultAggregator]: [drain_merges_accepted] is proved against the
    class and [memory_atomic] discharges it.  The supervisor's health record
    embeds the refusal counters of the budgets.  The pipeline ties them together:
    a keystroke opens a generation in the scheduler, the boundary and the
    aggregator; a tick admits the scheduler's dispatches against the budgets; a
    delivery passes the active-request check and the boundary; a presentation
    drains the boundary and shows the aggregator's list; each step carries the
    counters of the components into the supervisor.  The rows of a presentation
    and the updates of a page session are what the view model publishes under
    the generation it was told of; its effects (a query, a closed page, an
    executed row) are what the other parts are called with.

    ** What the theorems show

    - Scheduler: what a query change does to every plugin, alone and together;
      what a tick dispatches, in closed form; that no plugin starves, no limit
      is exceeded, no stale result is admitted, wake-ups are exact, shutdown is
      final, memory is bounded and nothing panics.
    - Debouncer and legacy manager: exact deadlines, the maximum wait, newest
      query wins, refinement of the log machine, no overlapping callbacks.
    - Aggregator and intake: refinement of the reference list, stability of the
      list, retirement, coalesced repaints; atomic submission, exact
      backpressure, drains that hand over live prefixes within their budgets.
    - Supervision: budgets hold under every interleaving, refusals are counted,
      calls end; the circuit breaker is exact, suspension lasts until the
      deadline, diagnostics and latency means match the history, refused calls
      change nothing.
    - Manifests: an accepted manifest resolves to a policy within every bound;
      settings are accepted exactly when they obey their declared rules, refusals
      name the first broken rule and never reveal a secret value; a declaration
      is accepted exactly when names are usable and unique and defaults valid.
    - Query engine: the filters that prune candidates never lose a match, typing
      on only narrows the candidates, the word-prefix grid finds exactly the
      decompositions there are, stronger methods always outscore weaker ones,
      highlights are ordered ranges of whole characters, matching never panics.
    - Ranking: the history stays within its caps and forgets the least used,
      snapshots lose nothing, affinities count every continuation of a query;
      scores are finite and totally ordered whatever the signals, and absent
      history changes nothing.
    - Pipeline: after any sequence of calls, with any iteration order of the hash
      maps and any use of the shared budgets by others, no call panics, the
      registries of the five components agree and every running request holds
      exactly one slot of its plugin's budget; what a keystroke, a tick, a
      delivery, a presentation, an abort, a registration and a health report do;
      the scheduler's gate is the manifest's.
    - Catalog: no call panics, updates do exactly what they say or nothing, the
      indexes find exactly what a scan would and hide no match.
    - Search service: after any sequence of calls the answer to a query is the
      ranking of all matches, computed from scratch; the bound that prunes is a
      bound in binary32 arithmetic; merged items are ranked with the rest;
      publications are all or nothing; refused persistence is honoured; startup
      goes in order.  All this holds whatever is typed; only the exact answer is
      under hypotheses the theorem names: the query does not open with a blank
      unless no query of blanks alone came before, no label opens with a blank,
      the icon references and metadata of an item fit in its share of a batch,
      quotas are positive; for the first two the theorems
      [blank_query_hides_results] and [padded_label_hidden] show what happens
      otherwise.
    - Pages: a frame is accepted exactly when it can be drawn, the Tab ring is
      exact; under every interleaving of caller and thread no event is lost or
      doubled, a page ends once and says so last, and a closing page ends.
    - User interface: only results of the generation begun last are shown, the screen
      is current, Cancel always gets out, and the state never contradicts itself.
    - Calculator: queries are answered exactly as the grammar says, the text shown
      is the nearest decimal, a row answers the expression it shows.
    - Protocol: every envelope is read back as it was written unless it exceeds
      the frame or the budget, decoding is total and charges no more than its
      budget, the batches a producer sizes can be decoded, fields of a newer peer
      pass through; published items and pages arrive; frames survive
      fragmentation and timeouts.
    - Dependency resolution: a lockfile holds one package for each required name,
      the most preferred of those of the index that satisfy every clause, and
      there is one whenever each name can be met; release candidates, names
      beyond ASCII and combined suffixes are where the code falls short.

    ** Fuel and bounds

    Loops that are not structural run on fuel, always with a proof that the
    fuel given is enough: a plugin's turn in [tick] by the length of its queue,
    the loops of the intake by the entries they pop, varints by their ten bytes,
    [read_message] and the loops over the fields of a message ([merge_loop],
    [map_entry_loop]) by the length of their input, the calculator's parser by six
    times the tokens left and a rank of its method, and the receiving host by the
    bytes and deliveries to come ([receive_all]), [present_drained] by the
    number of rounds the code itself allows, which is never what stops it.  [read_frame] may loop for a
    reader that is interrupted for ever, so its fuel is explicit.  Counters
    saturate or are checked as in the code; [usize] is 64 bits wide.

    ** Parameters

    The functions of a float whose precision Rust leaves to the platform are the
    class [Libm] of the calculator, without laws.

    The clock, the answers of the plugin and the time they take are labels of
    the steps of a page session; a send between the last update of a session and
    the end of its thread counts as refused; failure messages are values of a
    type.

    Unicode lower-casing and compiled activation patterns (third-party code) are
    arguments of the scheduler's definitions; whether an allocation succeeds and
    the sizes of elements are the class [Memory] of the decoders (the round
    trips assume [Ample] memory and sizes below 2^32, totality only sizes that
    are not negative); the TOML deserialiser and the display of a
    binary64 number are arguments of the manifest's definitions, with the one
    hypothesis that a deserialised manifest is within its integer types
    ([typed]).  The Unicode tables of the query engine (compatibility folding,
    general categories, case, white space) are the class [Unicode], with the
    documented facts its theorems rely on in the class [UnicodeLaws]; tables
    restricted to ASCII are an instance of both.  Hash maps whose iteration order the code does not expose are
    finite maps; where the pipeline iterates over one, the order is an argument
    (any permutation).  The order in
    which a binary heap is iterated is the class [HeapOrder] (any permutation);
    the persistent catalog cache is the class [CatalogCache], without laws.  The icon resolver, which may answer differently each
    time it is asked, is an argument of the presentation.

    ** What is not modelled

    Rendering (the native renderer, themes, fonts, the web engine), the
    operating-system back ends, the plugin hosts and the sandbox, configuration
    and package files, the command line and the rest of the application glue:
    their logic is input and output through third-party or system interfaces.
    Of the package manager only the resolver is modelled; reading indexes and
    lockfiles, signatures and installation are the file system and third-party
    crates.  Left out as well are the transports of the native protocol (sockets, pipes,
    threads), [Display] of errors and serialisation derives.  A vector of the
    decoders is as long as its list and has the capacity its growth gives it;
    what the allocator adds to a request is not modelled, and all NaNs are one
    where a float is a [spec_float] ([Convert]). *)

From stdpp Require Export base tactics strings numbers sorting gmap list.

#[global] Open Scope Z_scope.

(** * Record update

    The sources mutate one field of a struct at a time.  [r <| field := v |>]
    and [r <| field ::= f |>] are that assignment as a function; an [Eta]
    instance per record (its constructor applied to its projections) is all a
    record has to provide. *)

Class Eta (R : Type) := eta : R -> R.

Class Update {R T : Type} (field : R -> T) := update : (T -> T) -> R -> R.
Arguments update {R T} field {_} _ _ : simpl nomatch.

Ltac derive_update :=
  match goal with
  | |- @Update ?R ?T ?field =>
      let f := fresh "f" in
      let r := fresh "r" in
      intros f r;
      let whole := eval hnf in (@eta R _ r) in
      let abs := eval pattern (field r) in whole in
      match abs with
      | ?k _ => let body := eval cbv beta in (k (f (field r))) in exact body
      end
  end.
#[export] Hint Extern 1 (Update _) => derive_update : typeclass_instances.

Declare Scope record_scope.
Notation "r <| field ::= f |>" := (update field f r)
  (at level 12, field at next level, left associativity) : record_scope.
Notation "r <| field := v |>" := (update field (fun _ => v) r)
  (at level 12, field at next level, left associativity) : record_scope.
#[global] Open Scope record_scope.

(** * Results

    [result A E] is Rust's [Result<A, E>].  A panic ([expect], an arithmetic
    underflow, an index out of range) is [None] of the option monad. *)

Inductive result (A E : Type) : Type :=
| Ok (a : A)
| Err (e : E).
Arguments Ok {A E} a.
Arguments Err {A E} e.

Definition is_ok {A E} (r : result A E) : bool :=
  match r with Ok _ => true | Err _ => false end.

Declare Scope result_scope.
Notation "'let?' x ':=' e 'in' k" :=
  (match e with Ok x => k | Err err => Err err end)
  (at level 10, x pattern, e at level 100, k at level 200) : result_scope.
#[global] Open Scope result_scope.

(** * Machine integers

    Every fixed-width unsigned integer is a [Z] in the range of its type, and
    the operations write the width out.  [usize] is 64 bits wide, as on every
    platform the launcher supports. *)

Definition u8_max : Z := 255.
Definition u32_max : Z := 4294967295.
Definition u64_max : Z := 18446744073709551615.
Definition u128_max : Z := 340282366920938463463374607431768211455.
Definition usize_max : Z := u64_max.

Definition in_range (max z : Z) : Prop := 0 <= z <= max.

Definition saturating_add (max x y : Z) : Z := Z.min (x + y) max.
Definition saturating_mul (max x y : Z) : Z := Z.min (x * y) max.
Definition saturating_sub (x y : Z) : Z := Z.max 0 (x - y).
Definition checked_add (max x y : Z) : option Z :=
  if x + y <=? max then Some (x + y) else None.
Definition checked_mul (max x y : Z) : option Z :=
  if x * y <=? max then Some (x * y) else None.
Definition checked_sub (x y : Z) : option Z :=
  if y <=? x then Some (x - y) else None.

(** The length of a [Vec], [VecDeque] or [String] as a [usize]. *)
Definition len {A : Type} (l : list A) : Z := Z.of_nat (length l).

(** [Option::map_or], [Option::is_some_and]. *)
Definition map_or {A B : Type} (o : option A) (d : B) (f : A -> B) : B :=
  match o with Some a => f a | None => d end.
Definition is_some_and {A : Type} (o : option A) (p : A -> bool) : bool :=
  map_or o false p.
Definition is_some {A : Type} (o : option A) : bool := is_some_and o (fun _ => true).
Definition is_none {A : Type} (o : option A) : bool := negb (is_some o).

(** * Automation

    [crikey] collects the facts the components share; [crikey_rw] the
    projections of updated states that [autorewrite] normalises away. *)

Create HintDb crikey discriminated.
Create Rewrite HintDb crikey_rw.

(** Splits every boolean test of the goal and simplifies. *)
Ltac split_tests := repeat (case_match; simplify_eq/=).

(** Splits a conjunction of invariants and keeps going until nothing changes. *)
Ltac split_and_all := repeat match goal with |- _ /\ _ => split end.

(** Turns boolean tests of hypotheses and goal into propositions. *)
Ltac reflect_bools :=
  repeat match goal with
  | H : (_ && _) = true |- _ => apply andb_true_iff in H; destruct H
  | H : (_ && _) = false |- _ => apply andb_false_iff in H
  | H : (_ || _) = true |- _ => apply orb_true_iff in H
  | H : (_ || _) = false |- _ => apply orb_false_iff in H; destruct H
  | H : negb _ = true |- _ => apply negb_true_iff in H
  | H : negb _ = false |- _ => apply negb_false_iff in H
  | H : bool_decide _ = true |- _ => apply bool_decide_eq_true in H
  | H : bool_decide _ = false |- _ => apply bool_decide_eq_false in H
  | H : (_ <? _) = true |- _ => apply Z.ltb_lt in H
  | H : (_ <? _) = false |- _ => apply Z.ltb_ge in H
  | H : (_ <=? _) = true |- _ => apply Z.leb_le in H
  | H : (_ <=? _) = false |- _ => apply Z.leb_gt in H
  | H : (_ =? _) = true |- _ => apply Z.eqb_eq in H
  | H : (_ =? _) = false |- _ => apply Z.eqb_neq in H
  end.

(** * Arithmetic facts *)

Lemma u64_max_pos : 0 < u64_max.
Proof. reflexivity. Qed.

Lemma usize_max_pos : 0 < usize_max.
Proof. reflexivity. Qed.

Lemma saturating_add_range max x y :
  0 <= x -> 0 <= y -> 0 <= max -> in_range max (saturating_add max x y).
Proof. unfold in_range, saturating_add. lia. Qed.

Lemma saturating_add_mono max x y : 0 <= y -> x <= max -> x <= saturating_add max x y.
Proof. unfold saturating_add. lia. Qed.

Lemma saturating_add_exact max x y : x + y <= max -> saturating_add max x y = x + y.
Proof. unfold saturating_add. lia. Qed.

Lemma is_some_true {A} (o : option A) : is_some o = true <-> is_Some o.
Proof. destruct o; cbn; split; [eauto | done | done | by intros [? ?]]. Qed.

Lemma checked_add_Some max x y z :
  checked_add max x y = Some z <-> z = x + y /\ x + y <= max.
Proof. unfold checked_add. case_match; reflect_bools; split; intros; simplify_eq; lia || (f_equal; lia). Qed.

Lemma checked_sub_Some x y z :
  checked_sub x y = Some z <-> z = x - y /\ y <= x.
Proof. unfold checked_sub. case_match; reflect_bools; split; intros; simplify_eq; lia || (f_equal; lia). Qed.

Lemma checked_sub_le x y : y <= x -> checked_sub x y = Some (x - y).
Proof. intros. by apply checked_sub_Some. Qed.

#[export] Hint Resolve saturating_add_range u64_max_pos usize_max_pos : crikey.

(** * Lists *)

Lemma len_nil {A} : len (@nil A) = 0.
Proof. reflexivity. Qed.

Lemma len_cons {A} (x : A) l : len (x :: l) = len l + 1.
Proof. unfold len. simpl. lia. Qed.

Lemma len_app {A} (l k : list A) : len (l ++ k) = len l + len k.
Proof. unfold len. rewrite length_app. lia. Qed.

Lemma len_snoc {A} (l : list A) x : len (l ++ [x]) = len l + 1.
Proof. by rewrite len_app. Qed.

Lemma len_nonneg {A} (l : list A) : 0 <= len l.
Proof. unfold len. lia. Qed.

Lemma len_zero {A} (l : list A) : len l = 0 -> l = [].
Proof. destruct l; [done|]. rewrite len_cons. pose proof (len_nonneg l). lia. Qed.

Lemma len_tail {A} (l : list A) : l <> [] -> len (tail l) = len l - 1.
Proof. destruct l as [|x l]; [done|]. intros _. rewrite len_cons. simpl. lia. Qed.

Lemma len_filter {A} (P : A -> Prop) `{!forall x, Decision (P x)} (l : list A) :
  len (filter P l) <= len l.
Proof. unfold len. pose proof (length_filter P l). lia. Qed.

Lemma len_map {A B} (f : A -> B) l : len (map f l) = len l.
Proof. unfold len. by rewrite length_map. Qed.

(** Sums over lists. *)
Lemma foldr_nonneg {A} (f : A -> Z) l : (forall x, 0 <= f x) -> 0 <= foldr (fun x n => f x + n) 0 l.
Proof. intros Hf. induction l as [|x l IH]; cbn; [done|]. specialize (Hf x). lia. Qed.

Lemma foldr_sum_app {A} (f : A -> Z) l k :
  foldr (fun x n => f x + n) 0 (l ++ k) = foldr (fun x n => f x + n) 0 l + foldr (fun x n => f x + n) 0 k.
Proof. induction l as [|x l IH]; cbn; [done|]. lia. Qed.

Lemma last_cons_default {A} (x d : A) l : List.last (x :: l) d = List.last l x.
Proof.
  revert x d. induction l as [|y l IH]; intros x d; [done|].
  change (List.last (y :: l) d = List.last (y :: l) x). by rewrite !IH.
Qed.

#[export] Hint Rewrite @len_nil @len_cons @len_app @len_map : crikey_rw.
#[export] Hint Resolve len_nonneg len_filter : crikey.

(** * Sums over finite maps *)

Section MapSum.
Context {K : Type} `{Countable K} {V : Type}.

Definition map_sum (f : V -> Z) (m : gmap K V) : Z := map_fold (fun _ v acc => f v + acc) 0 m.

Lemma map_sum_empty f : map_sum f ∅ = 0.
Proof. unfold map_sum. by rewrite map_fold_empty. Qed.

Lemma map_sum_insert_None f m k v : m !! k = None -> map_sum f (<[k := v]> m) = f v + map_sum f m.
Proof. intros Hk. unfold map_sum. rewrite map_fold_insert_L; [done| intros; lia | done]. Qed.

Lemma map_sum_delete f m k v : m !! k = Some v -> map_sum f m = f v + map_sum f (delete k m).
Proof.
  intros Hk. rewrite <- (map_sum_insert_None f (delete k m) k v); [|by rewrite lookup_delete_eq].
  by rewrite insert_delete_id.
Qed.

Lemma map_sum_insert f m k v v' :
  m !! k = Some v -> map_sum f (<[k := v']> m) = map_sum f m - f v + f v'.
Proof.
  intros Hk. rewrite <- insert_delete_eq, map_sum_insert_None by (by rewrite lookup_delete_eq).
  rewrite (map_sum_delete f m k v Hk). lia.
Qed.

Lemma map_sum_nonneg f m : (forall v, 0 <= f v) -> 0 <= map_sum f m.
Proof.
  intros Hf. induction m as [|k v m Hk IH] using map_ind; [by rewrite map_sum_empty|].
  rewrite map_sum_insert_None by done. specialize (Hf v). lia.
Qed.

Lemma map_sum_lookup_le f m k v : (forall v, 0 <= f v) -> m !! k = Some v -> f v <= map_sum f m.
Proof.
  intros Hf Hk. rewrite (map_sum_delete f m k v Hk). pose proof (map_sum_nonneg f (delete k m) Hf). lia.
Qed.

Lemma map_sum_ext f g m : (forall k v, m !! k = Some v -> f v = g v) -> map_sum f m = map_sum g m.
Proof.
  induction m as [|k v m Hk IH] using map_ind; intros Hfg; [by rewrite !map_sum_empty|].
  rewrite !map_sum_insert_None, (Hfg k v), IH; [done | | by rewrite lookup_insert_eq | done..].
  intros k' v' Hk'. apply (Hfg k'). rewrite lookup_insert_ne; [done | congruence].
Qed.

Lemma map_sum_le f g m : (forall v, f v <= g v) -> map_sum f m <= map_sum g m.
Proof.
  intros Hfg. induction m as [|k v m Hk IH] using map_ind; [by rewrite !map_sum_empty|].
  rewrite !map_sum_insert_None by done. specialize (Hfg v). lia.
Qed.

(** A saturating accumulation over a map is the saturated sum. *)
Lemma map_fold_saturating max f (m : gmap K V) :
  0 <= max -> (forall v, 0 <= f v) ->
  map_fold (fun _ v total => saturating_add max total (f v)) 0 m = Z.min (map_sum f m) max.
Proof.
  intros Hmax Hf. induction m as [|k v m Hk IH] using map_ind.
  - rewrite map_fold_empty, map_sum_empty. lia.
  - rewrite map_fold_insert_L, IH, map_sum_insert_None; [|done| |done].
    + unfold saturating_add. pose proof (Hf v). pose proof (map_sum_nonneg f m Hf). lia.
    + intros j1 j2 z1 z2 y _ _ _. unfold saturating_add. pose proof (Hf z1). pose proof (Hf z2). lia.
Qed.
End MapSum.

Lemma map_sum_fmap {K} `{Countable K} {V W} (f : W -> Z) (h : V -> W) (m : gmap K V) :
  map_sum f (h <$> m) = map_sum (fun v => f (h v)) m.
Proof.
  induction m as [|k v m Hk IH] using map_ind; [by rewrite fmap_empty, !map_sum_empty|].
  rewrite fmap_insert, !map_sum_insert_None, IH; [done | done | by rewrite lookup_fmap, Hk].
Qed.

(** * Altering finite maps *)

Lemma alter_Some {K} `{Countable K} {V} (f : V -> V) (m : gmap K V) k v :
  m !! k = Some v -> alter f k m = <[k := f v]> m.
Proof.
  intros Hk. apply map_eq. intros j. rewrite lookup_alter, lookup_insert.
  case_decide; simplify_eq; by rewrite ?Hk.
Qed.

Lemma alter_None {K} `{Countable K} {V} (f : V -> V) (m : gmap K V) k :
  m !! k = None -> alter f k m = m.
Proof.
  intros Hk. apply map_eq. intros j. rewrite lookup_alter. case_decide; simplify_eq; by rewrite ?Hk.
Qed.

(** * Strings and sorting *)

(** [str::len]: the bytes of a string. *)
Definition str_len (s : string) : Z := Z.of_nat (String.length s).

(** A relation given by a boolean test. *)
Definition by_test {A} (le : A -> A -> bool) (x y : A) : Prop := le x y = true.
#[export] Instance by_test_dec {A} (le : A -> A -> bool) : RelDecision (by_test le).
Proof. intros x y. unfold by_test. apply _. Defined.

Definition sort_by {A} (le : A -> A -> bool) (l : list A) : list A := merge_sort (by_test le) l.

Lemma sort_by_perm {A} (le : A -> A -> bool) l : sort_by le l ≡ₚ l.
Proof. apply merge_sort_Permutation. Qed.

Lemma sort_by_sorted {A} (le : A -> A -> bool) l :
  (forall x y, le x y = true \/ le y x = true) -> (forall x y z, le x y = true -> le y z = true -> le x z = true) ->
  StronglySorted (by_test le) (sort_by le l).
Proof.
  intros Ht Hr. apply StronglySorted_merge_sort; [by intros x y z; apply Hr | by intros x y; apply Ht].
Qed.

(** * Folds that may fail *)

(** A loop whose body may panic. *)
Fixpoint ofold {A S} (f : S -> A -> option S) (s : S) (l : list A) : option S :=
  match l with [] => Some s | x :: l' => s' ← f s x; ofold f s' l' end.

Lemma ofold_app {A S} (f : S -> A -> option S) s l l' : ofold f s (l ++ l') = s' ← ofold f s l; ofold f s' l'.
Proof. revert s. induction l as [|x l IH]; intros s; cbn; [done|]. destruct (f s x); cbn; [apply IH | done]. Qed.

(** A loop whose every step preserves an invariant ends in it. *)
Lemma ofold_inv {A S} (f : S -> A -> option S) (P : list A -> S -> Prop) l s :
  P [] s -> (forall done_ x s, x ∈ l -> P done_ s -> exists s', f s x = Some s' /\ P (done_ ++ [x]) s') ->
  exists s', ofold f s l = Some s' /\ P l s'.
Proof.
  intros H0 Hstep. induction l as [|x l IH] using rev_ind; [by exists s|].
  destruct IH as (s1 & E1 & H1); [intros; apply Hstep; [set_solver | done]|].
  destruct (Hstep l x s1) as (s2 & E2 & H2); [set_solver | done|].
  exists s2. rewrite ofold_app, E1. cbn. by rewrite E2.
Qed.

Lemma ofold_preserves {A S} (f : S -> A -> option S) (P : S -> Prop) l s s' :
  P s -> (forall x s s', P s -> f s x = Some s' -> P s') -> ofold f s l = Some s' -> P s'.
Proof.
  intros H0 Hstep. revert s H0. induction l as [|x l IH]; intros s H0; cbn; [by intros [= <-]|].
  intros (s1 & E1 & E)%bind_Some. eauto.
Qed.
