(* ===== verification/Bits.v ===== *)
(** Dense bit sets in 64-bit words: the loop that takes the set bits of a word
    from the lowest up, and vectors of words as sets of positions.

    The loop visits exactly the set bits in ascending order ([set_bits_filter]),
    so code that runs it is a filter over positions. *)

From S2P Require Import Prelude.

(** * The bits of a word *)

Fixpoint pos_trailing_zeros (p : positive) : nat :=
  match p with xO q => S (pos_trailing_zeros q) | _ => O end.

(** [u64::trailing_zeros]. *)
Definition trailing_zeros (w : Z) : nat := match w with Zpos p => pos_trailing_zeros p | _ => 64%nat end.

(** [while w != 0 { bit = w.trailing_zeros(); w &= w - 1; .. }]: the bits in the
    order of the loop. *)
Fixpoint drain_bits (fuel : nat) (w : Z) : list nat :=
  match fuel with
  | O => []
  | S fuel => if w =? 0 then [] else trailing_zeros w :: drain_bits fuel (Z.land w (w - 1))
  end.

(** A word has at most 64 of them. *)
Definition set_bits (w : Z) : list nat := drain_bits 64 w.

Definition has_bit (w : Z) (n : nat) : bool := Z.testbit w (Z.of_nat n).

(** [1u64 << n]. *)
Definition bit (n : nat) : Z := Z.shiftl 1 (Z.of_nat n).

Lemma land_pred_odd w : 0 <= w -> Z.land (2 * w + 1) (2 * w + 1 - 1) = 2 * w.
Proof.
  intros Hw. replace (2 * w + 1 - 1) with (2 * w) by lia. apply Z.bits_inj'. intros n Hn.
  rewrite Z.land_spec. destruct (Z.eq_dec n 0) as [->|].
  - rewrite Z.testbit_odd_0, Z.testbit_even_0. done.
  - replace n with (Z.succ (n - 1)) by lia. rewrite Z.testbit_odd_succ, Z.testbit_even_succ by lia.
    by rewrite andb_diag.
Qed.

Lemma land_pred_even w : 0 < w -> Z.land (2 * w) (2 * w - 1) = 2 * Z.land w (w - 1).
Proof.
  intros Hw. replace (2 * w - 1) with (2 * (w - 1) + 1) by lia. apply Z.bits_inj'. intros n Hn.
  rewrite Z.land_spec. destruct (Z.eq_dec n 0) as [->|].
  - by rewrite !Z.testbit_even_0.
  - replace n with (Z.succ (n - 1)) by lia.
    by rewrite Z.testbit_odd_succ, !Z.testbit_even_succ, Z.land_spec by lia.
Qed.

Lemma trailing_zeros_even w : 0 < w -> trailing_zeros (2 * w) = S (trailing_zeros w).
Proof. by destruct w. Qed.

Lemma trailing_zeros_odd w : 0 <= w -> trailing_zeros (2 * w + 1) = O.
Proof. by destruct w. Qed.

Lemma drain_even fuel w : 0 <= w -> drain_bits fuel (2 * w) = map S (drain_bits fuel w).
Proof.
  revert w. induction fuel as [|fuel IH]; intros w Hw; cbn [drain_bits]; [done|].
  destruct (Z.eqb_spec w 0) as [->|Hne]; [done|]. rewrite (proj2 (Z.eqb_neq (2 * w) 0)) by lia.
  rewrite trailing_zeros_even, land_pred_even by lia. cbn [map]. f_equal. apply IH. apply Z.land_nonneg. lia.
Qed.

Lemma filter_seq_S (p : nat -> bool) n :
  List.filter p (seq 0 (S n)) = (if p O then [O] else []) ++ map S (List.filter (fun i => p (S i)) (seq 0 n)).
Proof.
  cbn [seq List.filter]. rewrite <- seq_shift.
  assert (E : List.filter p (map S (seq 0 n)) = map S (List.filter (fun i => p (S i)) (seq 0 n))).
  { generalize (seq 0 n). induction l as [|x l IH]; cbn; [done|]. destruct (p (S x)); cbn; by rewrite IH. }
  rewrite E. by destruct (p O).
Qed.

Lemma drain_bits_filter n fuel w :
  (n <= fuel)%nat -> 0 <= w < 2 ^ Z.of_nat n -> drain_bits fuel w = List.filter (has_bit w) (seq 0 n).
Proof.
  revert fuel w. induction n as [|n IH]; intros fuel w Hf Hw.
  { assert (w = 0) as -> by (cbn in Hw; lia). by destruct fuel. }
  rewrite Nat2Z.inj_succ, Z.pow_succ_r in Hw by lia. rewrite filter_seq_S.
  assert (Hh : forall i, has_bit w (S i) = has_bit (w / 2) i).
  { intros i. unfold has_bit. rewrite <- Z.div2_div, Z.div2_spec, Z.shiftr_spec by lia. f_equal. lia. }
  rewrite (filter_ext _ _ Hh). destruct (Z.Even_or_Odd w) as [[v ->]|[v ->]].
  - assert (Hd : 2 * v / 2 = v) by (rewrite Z.mul_comm; apply Z.div_mul; lia). rewrite Hd in *.
    unfold has_bit at 1. change (Z.of_nat 0) with 0. rewrite Z.testbit_even_0. rewrite drain_even by lia. cbn [app]. f_equal. apply IH; lia.
  - assert (Hd : (2 * v + 1) / 2 = v) by (symmetry; apply Z.div_unique with 1; lia). rewrite Hd in *.
    unfold has_bit at 1. change (Z.of_nat 0) with 0. rewrite Z.testbit_odd_0. destruct fuel as [|fuel]; [lia|].
    cbn [drain_bits]. rewrite (proj2 (Z.eqb_neq (2 * v + 1) 0)) by lia. rewrite trailing_zeros_odd, land_pred_odd by lia.
    rewrite drain_even by lia. cbn [app]. do 2 f_equal. apply IH; lia.
Qed.

Definition word (w : Z) : Prop := 0 <= w < 18446744073709551616.

Lemma set_bits_filter w : word w -> set_bits w = List.filter (has_bit w) (seq 0 64).
Proof. intros Hw. by apply drain_bits_filter. Qed.

(** * Vectors of words *)

(** Membership of a position; words past the end are empty. *)
Definition bit_at (l : list Z) (i : nat) : bool := has_bit (default 0 (l !! (i / 64)%nat)) (i mod 64)%nat.

(** [posting.resize(word + 1, 0)] where the word is missing. *)
Definition grow (l : list Z) (word : nat) : list Z := if Nat.leb (length l) word then resize (S word) 0 l else l.

Definition set_at (l : list Z) (i : nat) : list Z := alter (fun w => Z.lor w (bit (i mod 64)%nat)) (i / 64)%nat l.
Definition clear_at (l : list Z) (i : nat) : list Z := alter (fun w => Z.land w (Z.lnot (bit (i mod 64)%nat))) (i / 64)%nat l.

Definition words (l : list Z) : Prop := Forall word l.

Lemma has_bit_bit n m : has_bit (bit n) m = bool_decide (n = m).
Proof.
  unfold has_bit, bit. rewrite Z.shiftl_1_l. case_bool_decide as E; [subst; apply Z.pow2_bits_true; lia|].
  apply Z.pow2_bits_false. lia.
Qed.

Lemma has_bit_lor w n m : has_bit (Z.lor w (bit n)) m = has_bit w m || bool_decide (n = m).
Proof. rewrite <- has_bit_bit. apply Z.lor_spec. Qed.

Lemma has_bit_clear w n m : has_bit (Z.land w (Z.lnot (bit n))) m = has_bit w m && negb (bool_decide (n = m)).
Proof. rewrite <- has_bit_bit. unfold has_bit. by rewrite Z.land_spec, Z.lnot_spec by lia. Qed.

Lemma has_bit_0 n : has_bit 0 n = false.
Proof. apply Z.testbit_0_l. Qed.

Lemma pos_split i j : (i / 64 = j / 64 -> i mod 64 = j mod 64 -> i = j)%nat.
Proof. intros H1 H2. rewrite (Nat.div_mod_eq i 64), (Nat.div_mod_eq j 64). lia. Qed.

Lemma bit_at_grow l w i : bit_at (grow l w) i = bit_at l i.
Proof.
  unfold bit_at, grow. destruct (Nat.leb_spec (length l) w) as [H|]; [|done]. f_equal.
  destruct (decide (i / 64 < length l)%nat) as [Hi|Hi].
  - rewrite lookup_resize by lia. done.
  - rewrite (lookup_ge_None_2 l) by lia. destruct (decide (i / 64 < S w)%nat).
    + by rewrite lookup_resize_new by lia.
    + by rewrite lookup_resize_old by lia.
Qed.

Lemma length_grow l w : length (grow l w) = Nat.max (length l) (S w).
Proof.
  unfold grow. destruct (Nat.leb_spec (length l) w); [rewrite length_resize|]; lia.
Qed.

Lemma bit_at_set l i j : (i / 64 < length l)%nat -> bit_at (set_at l i) j = bit_at l j || bool_decide (i = j).
Proof.
  intros Hi. unfold bit_at, set_at. destruct (decide (i / 64 = j / 64)%nat) as [E|E].
  - rewrite <- E, list_lookup_alter_eq. destruct (lookup_lt_is_Some_2 l (i / 64)%nat Hi) as [w ->]. cbn [fmap option_fmap option_map default from_option id]. rewrite has_bit_lor.
    f_equal. apply bool_decide_ext. split; [intros; by apply pos_split | by intros ->].
  - rewrite list_lookup_alter_ne by done. rewrite (bool_decide_eq_false_2 (i = j)) by (by intros ->). by rewrite orb_false_r.
Qed.

Lemma bit_at_clear l i j : bit_at (clear_at l i) j = bit_at l j && negb (bool_decide (i = j)).
Proof.
  unfold bit_at, clear_at. destruct (decide (i / 64 = j / 64)%nat) as [E|E].
  - rewrite <- E, list_lookup_alter_eq. destruct (l !! (i / 64)%nat) as [w|]; cbn; [|by rewrite !has_bit_0]. rewrite has_bit_clear.
    do 2 f_equal. apply bool_decide_ext. split; [intros; by apply pos_split | by intros ->].
  - rewrite list_lookup_alter_ne by done. rewrite (bool_decide_eq_false_2 (i = j)) by (by intros ->). by rewrite andb_true_r.
Qed.

Lemma word_bits w : 0 <= w -> word w <-> forall n, 64 <= n -> Z.testbit w n = false.
Proof.
  intros Hw. unfold word. change 18446744073709551616 with (2 ^ 64). split.
  - intros [_ H] n Hn. rewrite <- (Z.mod_small w (2 ^ 64)) by lia. by apply Z.mod_pow2_bits_high.
  - intros H. split; [done|]. destruct (decide (w = 0)) as [->|]; [lia|]. apply Z.log2_lt_pow2; [lia|].
    destruct (Z.lt_ge_cases (Z.log2 w) 64) as [|Hge]; [done|]. specialize (H _ Hge). by rewrite Z.bit_log2 in H by lia.
Qed.

Lemma word_lor x y : word x -> word y -> word (Z.lor x y).
Proof.
  intros Hx Hy. assert (0 <= x /\ 0 <= y) as [? ?] by (unfold word in *; lia).
  apply word_bits; [by apply Z.lor_nonneg|]. intros n Hn.
  rewrite Z.lor_spec, (proj1 (word_bits x ltac:(lia)) Hx n Hn), (proj1 (word_bits y ltac:(lia)) Hy n Hn). done.
Qed.

Lemma word_land x y : word x -> word (Z.land x y).
Proof.
  intros Hx. assert (0 <= x) by (unfold word in *; lia).
  apply word_bits; [apply Z.land_nonneg; by left|]. intros n Hn.
  by rewrite Z.land_spec, (proj1 (word_bits x ltac:(lia)) Hx n Hn).
Qed.

Lemma word_bit n : (n < 64)%nat -> word (bit n).
Proof.
  intros Hn. unfold word, bit. rewrite Z.shiftl_1_l. split; [lia|]. change 18446744073709551616 with (2 ^ 64).
  apply Z.pow_lt_mono_r; lia.
Qed.

Lemma mod_64 i : (i mod 64 < 64)%nat.
Proof. apply Nat.mod_upper_bound. lia. Qed.

Lemma words_grow l w : words l -> words (grow l w).
Proof. intros Hl. unfold grow. case_match; [|done]. by apply Forall_resize. Qed.

Lemma words_set l i : words l -> words (set_at l i).
Proof.
  intros Hl. unfold words, set_at. apply Forall_alter; [done|]. intros w _ Hw. apply word_lor; [done | apply word_bit, mod_64].
Qed.

Lemma words_clear l i : words l -> words (clear_at l i).
Proof. intros Hl. unfold words, clear_at. apply Forall_alter; [done|]. intros w _ Hw. by apply word_land. Qed.

Lemma words_lookup l i : words l -> word (default 0 (l !! i)).
Proof. intros Hl. destruct (l !! i) as [w|] eqn:E; cbn; [by eapply Forall_lookup_1 in E | done]. Qed.
