(* ===== verification/Text.v ===== *)
(** Text as Rust's [str] and [String] are used by the program: a list of Unicode
    scalar values, with the standard library's whitespace, trimming, splitting
    and prefix tests, UTF-8, comparison that ignores ASCII case, decimal printing
    and parsing of integers, and parsing of [f64].

    Case folding needs the Unicode tables of the Rust standard library; the
    definitions that use it take it as an argument.  A [f64] is a [spec_float] of
    the Standard Library at binary64 precision; a decimal literal is rounded to
    nearest, ties to even, from its exact value.  Printed integers are read back
    as they were ([parse_i64_display]). *)

From Stdlib Require Import SpecFloat.
From S2P Require Import Prelude.

(** A [String] or [&str] as its sequence of [char]s. *)
Definition text : Type := list Z.

(** [char::is_whitespace]: the Unicode [White_Space] property, in full. *)
Definition is_whitespace (c : Z) : bool :=
  ((9 <=? c) && (c <=? 13)) || (c =? 32) || (c =? 133) || (c =? 160)
  || (c =? 5760) || ((8192 <=? c) && (c <=? 8202)) || (c =? 8232) || (c =? 8233)
  || (c =? 8239) || (c =? 8287) || (c =? 12288).

Fixpoint trim_start (t : text) : text :=
  match t with
  | [] => []
  | c :: rest => if is_whitespace c then trim_start rest else t
  end.

Definition trim_end (t : text) : text := reverse (trim_start (reverse t)).

(** [str::trim]. *)
Definition trim (t : text) : text := trim_end (trim_start t).

Fixpoint take_word (t : text) : text :=
  match t with
  | [] => []
  | c :: rest => if is_whitespace c then [] else c :: take_word rest
  end.

(** [str::split_whitespace().next()]. *)
Definition first_word (t : text) : option text :=
  match trim_start t with
  | [] => None
  | t' => Some (take_word t')
  end.

(** [str::starts_with] on a [&str] pattern. *)
Fixpoint starts_with (t prefix : text) {struct prefix} : bool :=
  match prefix, t with
  | [], _ => true
  | p :: prefix', c :: t' => (p =? c) && starts_with t' prefix'
  | _ :: _, [] => false
  end.

(** [take_while] and what is left. *)
Fixpoint span (test : Z -> bool) (t : list Z) : list Z * list Z :=
  match t with
  | [] => ([], [])
  | c :: rest => if test c then let (front, back) := span test rest in (c :: front, back) else ([], t)
  end.

(** [str::split_once] on one character. *)
Fixpoint split_once (c : Z) (t : text) : option (text * text) :=
  match t with
  | [] => None
  | x :: rest =>
      if x =? c then Some ([], rest)
      else p ← split_once c rest; Some (x :: p.1, p.2)
  end.

(** [str::split] on one character. *)
Fixpoint split (c : Z) (t : text) : list text :=
  match t with
  | [] => [[]]
  | x :: rest =>
      match split c rest with
      | piece :: pieces => if x =? c then [] :: piece :: pieces else (x :: piece) :: pieces
      | [] => []
      end
  end.

(** [str::strip_prefix]. *)
Fixpoint strip_text_prefix (prefix t : text) : option text :=
  match prefix, t with
  | [], _ => Some t
  | p :: prefix, x :: t => if p =? x then strip_text_prefix prefix t else None
  | _ :: _, [] => None
  end.

(** Equality of strings. *)
Definition text_eqb (x y : text) : bool := bool_decide (x = y).

(** ASCII text literals, for concrete inputs. *)
Fixpoint ascii (s : string) : text :=
  match s with
  | EmptyString => []
  | String c s' => Z.of_nat (Ascii.nat_of_ascii c) :: ascii s'
  end.

(** [char::to_lowercase] restricted to ASCII: a concrete case folding. *)
Definition ascii_lowercase (t : text) : text :=
  map (fun c => if (65 <=? c) && (c <=? 90) then c + 32 else c) t.

Lemma starts_with_spec (t prefix : text) :
  starts_with t prefix = true <-> exists rest, t = prefix ++ rest.
Proof.
  revert t. induction prefix as [|p prefix IH]; intros t; simpl.
  - split; [intros _; by exists t | by intros _].
  - destruct t as [|c t]; simpl.
    + split; [done | intros [rest ?]; discriminate].
    + rewrite andb_true_iff, Z.eqb_eq, IH. split.
      * intros [-> [rest ->]]. by exists rest.
      * intros [rest [= -> ->]]. eauto.
Qed.

Lemma trim_start_app_nonempty (t u : text) :
  trim_start t <> [] -> trim_start (t ++ u) = trim_start t ++ u.
Proof. induction t as [|c t IH]; simpl; [done|]. case_match; auto. Qed.

Lemma trim_start_idemp (t : text) : trim_start (trim_start t) = trim_start t.
Proof. induction t as [|c t IH]; simpl; [done|]. case_match eqn:E; simpl; rewrite ?E; done. Qed.

(** * UTF-8 *)

Definition utf8_char (c : Z) : list Z :=
  if c <? 128 then [c]
  else if c <? 2048 then [192 + c / 64; 128 + c mod 64]
  else if c <? 65536 then [224 + c / 4096; 128 + (c / 64) mod 64; 128 + c mod 64]
  else [240 + c / 262144; 128 + (c / 4096) mod 64; 128 + (c / 64) mod 64; 128 + c mod 64].

(** [str::as_bytes]; its length is [str::len]. *)
Definition utf8 (t : text) : list Z := mbind utf8_char t.

(** * ASCII case *)

Definition ascii_lower (c : Z) : Z := if (65 <=? c) && (c <=? 90) then c + 32 else c.

(** [<[u8]>::eq_ignore_ascii_case]. *)
Definition eq_ignore_ascii_case (x y : list Z) : bool := bool_decide (map ascii_lower x = map ascii_lower y).

Definition is_ascii_digit (c : Z) : bool := (48 <=? c) && (c <=? 57).

Definition is_ascii_alphanumeric (c : Z) : bool :=
  is_ascii_digit c || ((65 <=? c) && (c <=? 90)) || ((97 <=? c) && (c <=? 122)).

(** * Integers *)

Definition i64_max : Z := 9223372036854775807.
Definition i64_min : Z := -9223372036854775808.

Fixpoint decimal_loop (fuel : nat) (n : Z) : text :=
  match fuel with
  | O => []
  | S fuel => if n <? 10 then [48 + n] else decimal_loop fuel (n / 10) ++ [48 + n mod 10]
  end.

(** The digits of a non-negative number, by repeated division. *)
Definition decimal_digits (n : Z) : text := decimal_loop (S (Z.to_nat (Z.log2 n))) n.

(** [Display] of an integer. *)
Definition display (n : Z) : text := if n <? 0 then 45 :: decimal_digits (- n) else decimal_digits n.

Fixpoint digits_value (acc : Z) (t : text) : option Z :=
  match t with
  | [] => Some acc
  | c :: rest => if is_ascii_digit c then digits_value (acc * 10 + (c - 48)) rest else None
  end.

(** A non-empty run of digits. *)
Definition parse_digits (t : text) : option Z :=
  match t with [] => None | _ => digits_value 0 t end.

(** [i64::from_str]: an optional sign, digits, and a value in range. *)
Definition parse_i64 (t : text) : option Z :=
  n ← match t with
      | 45 :: rest => Z.opp <$> parse_digits rest
      | 43 :: rest => parse_digits rest
      | _ => parse_digits t
      end;
  if (i64_min <=? n) && (n <=? i64_max) then Some n else None.

(** [u64::from_str]: an optional plus, digits, and a value in range. *)
Definition parse_u64 (t : text) : option Z :=
  n ← match t with 43 :: rest => parse_digits rest | _ => parse_digits t end;
  if n <=? u64_max then Some n else None.

(** * Floats *)

Abbreviation f64 := spec_float (only parsing).
Definition f64_precision : Z := 53.
Definition f64_emax : Z := 1024.

Definition f64_is_finite (x : f64) : bool :=
  match x with S754_zero _ | S754_finite _ _ _ => true | _ => false end.

(** [as f64] of an integer: rounded to nearest, ties to even. *)
Definition f64_of_integer (n : Z) : f64 := binary_normalize f64_precision f64_emax n 0 false.

Definition f64_lt (x y : f64) : bool :=
  match SFcompare x y with Some Lt => true | _ => false end.

(** The nearest [f64] of [mantissa * 10 ^ exponent]: an integer, or a quotient
    of two integers, rounded once. *)
Definition f64_of_decimal (negative : bool) (mantissa exponent : Z) : f64 :=
  match mantissa with
  | Zpos m =>
      if 0 <=? exponent
      then binary_normalize f64_precision f64_emax
             ((if negative then -1 else 1) * (mantissa * 10 ^ exponent)) 0 negative
      else SFdiv f64_precision f64_emax (S754_finite negative m 0)
             (S754_finite false (Z.to_pos (10 ^ (- exponent))) 0)
  | _ => S754_zero negative
  end.

Fixpoint span_digits (t : text) : text * text :=
  match t with
  | c :: rest => if is_ascii_digit c then let (d, r) := span_digits rest in (c :: d, r) else ([], t)
  | [] => ([], [])
  end.

(** The exponent part, up to the end of the literal. *)
Definition parse_exponent (t : text) : option Z :=
  match t with
  | [] => Some 0
  | c :: rest =>
      if (c =? 101) || (c =? 69) then
        match rest with
        | 45 :: digits => Z.opp <$> parse_digits digits
        | 43 :: digits => parse_digits digits
        | _ => parse_digits rest
        end
      else None
  end.

Definition parse_decimal (negative : bool) (t : text) : option f64 :=
  let (whole, rest) := span_digits t in
  let (fraction, rest) :=
    match rest with 46 :: after => span_digits after | _ => ([], rest) end in
  if len whole + len fraction =? 0 then None
  else
    exponent ← parse_exponent rest;
    mantissa ← digits_value 0 (whole ++ fraction);
    Some (f64_of_decimal negative mantissa (exponent - len fraction)).

(** [f64::from_str]. *)
Definition parse_f64 (t : text) : option f64 :=
  let (negative, rest) :=
    match t with 45 :: r => (true, r) | 43 :: r => (false, r) | _ => (false, t) end in
  if eq_ignore_ascii_case rest (ascii "inf") || eq_ignore_ascii_case rest (ascii "infinity")
  then Some (S754_infinity negative)
  else if eq_ignore_ascii_case rest (ascii "nan") then Some S754_nan
  else parse_decimal negative rest.

(** [<[String]>::join]. *)
Fixpoint join (separator : text) (l : list text) : text :=
  match l with
  | [] => []
  | [t] => t
  | t :: rest => t ++ separator ++ join separator rest
  end.

(** * Facts *)

Definition is_ascii (t : text) : Prop := Forall (fun c => in_range 127 c) t.

Lemma utf8_ascii t : is_ascii t -> utf8 t = t.
Proof.
  induction 1 as [|c t Hc _ IH]; [done|]. unfold utf8, in_range in *. cbn [mbind list_bind].
  unfold utf8_char. destruct (c <? 128) eqn:E; reflect_bools; [|lia]. simpl. by f_equal.
Qed.

Lemma trim_start_ascii t : is_ascii t -> is_ascii (trim_start t).
Proof. induction 1 as [|c t Hc Ht IH]; [constructor|]. cbn. case_match; [done | by constructor]. Qed.

Lemma trim_ascii t : is_ascii t -> is_ascii (trim t).
Proof.
  intros H. unfold trim, trim_end. apply Forall_reverse, trim_start_ascii, Forall_reverse. by apply trim_start_ascii.
Qed.

Lemma ascii_lower_idemp c : ascii_lower (ascii_lower c) = ascii_lower c.
Proof. unfold ascii_lower. repeat case_match; reflect_bools; lia. Qed.

Lemma digits_value_app acc t u :
  digits_value acc (t ++ u) = n ← digits_value acc t; digits_value n u.
Proof. revert acc. induction t as [|c t IH]; intros acc; simpl; [done|]. case_match; [apply IH | done]. Qed.

Lemma is_digit_of n : 0 <= n < 10 -> is_ascii_digit (48 + n) = true.
Proof. unfold is_ascii_digit. intros. apply andb_true_iff. lia. Qed.

Lemma decimal_loop_value fuel n :
  0 <= n -> n < 2 ^ Z.of_nat (S fuel) ->
  digits_value 0 (decimal_loop (S fuel) n) = Some n /\ decimal_loop (S fuel) n <> [].
Proof.
  revert n. induction fuel as [|fuel IH]; intros n Hn Hf; cbn [decimal_loop];
    (destruct (n <? 10) eqn:E; reflect_bools;
     [cbn [digits_value]; rewrite is_digit_of by lia; split; [f_equal; lia | done] |]).
  - change (2 ^ Z.of_nat 1) with 2 in Hf. lia.
  - rewrite Nat2Z.inj_succ, Z.pow_succ_r in Hf by lia.
    destruct (IH (n / 10)) as [IH' _]; [apply Z.div_pos; lia | apply Z.div_lt_upper_bound; lia |].
    rewrite digits_value_app. cbn [decimal_loop] in IH'. rewrite IH'. cbn [mbind option_bind digits_value].
    rewrite is_digit_of by (apply Z.mod_pos_bound; lia).
    split; [f_equal; pose proof (Z.div_mod n 10 ltac:(lia)); lia | intros Hnil; by apply app_nil in Hnil as [_ ?]].
Qed.

Lemma decimal_digits_value n : 0 <= n -> parse_digits (decimal_digits n) = Some n.
Proof.
  intros Hn. unfold decimal_digits. destruct (decimal_loop_value (Z.to_nat (Z.log2 n)) n) as [Hv Hne]; [done| |].
  - rewrite Nat2Z.inj_succ, Z2Nat.id by apply Z.log2_nonneg.
    destruct (decide (n = 0)) as [->|]; [done|]. apply Z.log2_spec. lia.
  - unfold parse_digits. by destruct (decimal_loop _ _).
Qed.

Lemma decimal_digits_head n c rest : 0 <= n -> decimal_digits n = c :: rest -> is_ascii_digit c = true.
Proof.
  intros Hn Hd. pose proof (decimal_digits_value n Hn) as H. rewrite Hd in H. cbn [parse_digits digits_value] in H.
  by destruct (is_ascii_digit c).
Qed.

(** Without a sign, the digits are parsed from the start. *)
Lemma parse_i64_unsigned c rest n :
  is_ascii_digit c = true -> parse_digits (c :: rest) = Some n -> n <= i64_max -> 0 <= n ->
  parse_i64 (c :: rest) = Some n.
Proof.
  intros Hc Hd Hn H0. unfold parse_i64, i64_min, i64_max in *.
  destruct (decide (c = 45)) as [->|H45]; [done|]. destruct (decide (c = 43)) as [->|H43]; [done|].
  assert (Hm : forall A (x y z : A), match c with 45 => x | 43 => y | _ => z end = z).
  { intros A x y z. repeat case_match; subst; done. }
  rewrite Hm, Hd. cbn [mbind option_bind].
  destruct (_ && _) eqn:E; [done|]. reflect_bools. lia.
Qed.

(** An integer is read back as it was printed. *)
Lemma parse_i64_display n : i64_min <= n <= i64_max -> parse_i64 (display n) = Some n.
Proof.
  intros Hn. unfold display. destruct (n <? 0) eqn:E; reflect_bools.
  - unfold parse_i64. rewrite decimal_digits_value by lia.
    cbn [mbind option_bind fmap option_fmap option_map]. rewrite Z.opp_involutive.
    destruct (_ && _) eqn:E'; [done|]. reflect_bools. lia.
  - pose proof (decimal_digits_value n E) as Hv. destruct (decimal_digits n) as [|c rest] eqn:Ed; [done|].
    apply parse_i64_unsigned; [eauto using decimal_digits_head | done | lia | done].
Qed.

Example parse_f64_tenth : parse_f64 (ascii "0.1") = Some (S754_finite false 7205759403792794 (-56)).
Proof. vm_compute. reflexivity. Qed.

Example parse_f64_exponent : parse_f64 (ascii "-12.5e1") = Some (f64_of_integer (-125)).
Proof. vm_compute. reflexivity. Qed.

Example parse_f64_partial : parse_f64 (ascii "1e") = None /\ parse_f64 (ascii ".") = None
  /\ parse_f64 (ascii "5.") = Some (f64_of_integer 5).
Proof. vm_compute. done. Qed.
