(* ===== verification/Utf8.v ===== *)
(** UTF-8 as Rust's standard library checks and decodes it, and strings as
    their bytes.

    A Rust [String] is kept as its bytes (a [string]) where only its identity
    matters and as its scalar values (a [text]) where it is searched;
    [from_utf8] relates the two views: it accepts exactly the encodings of
    texts of scalar values ([from_utf8_iff]). *)

From S2P Require Import Prelude Text.

(** * Bytes of a string *)

Definition as_bytes (s : string) : list Z := ascii s.

Fixpoint string_of_bytes (b : list Z) : string :=
  match b with
  | [] => EmptyString
  | x :: b' => String (Ascii.ascii_of_nat (Z.to_nat x)) (string_of_bytes b')
  end.

Definition bytes (b : list Z) : Prop := Forall (in_range 255) b.

Lemma as_bytes_bytes s : bytes (as_bytes s).
Proof.
  induction s as [|a s IH]; constructor; [|exact IH]. pose proof (Ascii.nat_ascii_bounded a). unfold in_range. lia.
Qed.

Lemma string_of_as_bytes s : string_of_bytes (as_bytes s) = s.
Proof.
  induction s as [|a s IH]; [done|]. cbn. rewrite Nat2Z.id, Ascii.ascii_nat_embedding. by f_equal.
Qed.

Lemma as_bytes_of_bytes b : bytes b -> as_bytes (string_of_bytes b) = b.
Proof.
  induction 1 as [|x b Hx _ IH]; [done|]. unfold in_range in Hx. cbn -[Z.of_nat].
  rewrite Ascii.nat_ascii_embedding by lia. f_equal; [lia | exact IH].
Qed.

Lemma len_as_bytes s : len (as_bytes s) = Z.of_nat (String.length s).
Proof. unfold len. f_equal. induction s as [|a s IH]; [done|]. cbn. f_equal. exact IH. Qed.

(** * Decoding *)

Definition scalar (c : Z) : bool := (0 <=? c) && (c <? 55296) || (57344 <=? c) && (c <? 1114112).

Definition between (lo hi x : Z) : bool := (lo <=? x) && (x <=? hi).
Definition continuation (x : Z) : bool := between 128 191 x.

(** The second byte of a three-byte sequence: no overlong forms, no surrogates. *)
Definition second_of_three (b0 b1 : Z) : bool :=
  if b0 =? 224 then between 160 191 b1
  else if b0 =? 237 then between 128 159 b1
  else between 225 239 b0 && continuation b1.

(** The second byte of a four-byte sequence: no overlong forms, nothing past
    the last code point. *)
Definition second_of_four (b0 b1 : Z) : bool :=
  if b0 =? 240 then between 144 191 b1
  else if b0 =? 244 then between 128 143 b1
  else between 241 243 b0 && continuation b1.

(** [String::from_utf8]. *)
Fixpoint from_utf8 (b : list Z) : option text :=
  match b with
  | [] => Some []
  | b0 :: r0 =>
      if b0 <? 128 then cons b0 <$> from_utf8 r0
      else if b0 <? 224 then
        match r0 with
        | b1 :: r1 =>
            if between 194 223 b0 && continuation b1
            then cons ((b0 - 192) * 64 + (b1 - 128)) <$> from_utf8 r1
            else None
        | _ => None
        end
      else if b0 <? 240 then
        match r0 with
        | b1 :: b2 :: r2 =>
            if second_of_three b0 b1 && continuation b2
            then cons ((b0 - 224) * 4096 + (b1 - 128) * 64 + (b2 - 128)) <$> from_utf8 r2
            else None
        | _ => None
        end
      else
        match r0 with
        | b1 :: b2 :: b3 :: r3 =>
            if second_of_four b0 b1 && continuation b2 && continuation b3
            then cons ((b0 - 240) * 262144 + (b1 - 128) * 4096 + (b2 - 128) * 64 + (b3 - 128)) <$> from_utf8 r3
            else None
        | _ => None
        end
  end.

Definition scalars (t : text) : Prop := Forall (fun c => scalar c = true) t.

Lemma utf8_cons c t : utf8 (c :: t) = utf8_char c ++ utf8 t.
Proof. done. Qed.

(** Decides the comparisons of the goal by arithmetic. *)
Ltac decide_tests :=
  unfold continuation, between;
  repeat match goal with
  | |- context [?a <? ?b] => first [rewrite (proj2 (Z.ltb_lt a b)) by lia | rewrite (proj2 (Z.ltb_ge a b)) by lia]
  | |- context [?a <=? ?b] => first [rewrite (proj2 (Z.leb_le a b)) by lia | rewrite (proj2 (Z.leb_gt a b)) by lia]
  | |- context [?a =? ?b] => first [rewrite (proj2 (Z.eqb_eq a b)) by lia | rewrite (proj2 (Z.eqb_neq a b)) by lia]
  end.

Lemma decode_char c rest t :
  scalar c = true -> from_utf8 rest = Some t -> from_utf8 (utf8_char c ++ rest) = Some (c :: t).
Proof.
  intros Hc Hr. unfold scalar in Hc. rewrite orb_true_iff, !andb_true_iff, !Z.leb_le, !Z.ltb_lt in Hc.
  unfold utf8_char. destruct (Z.ltb_spec c 128); [|destruct (Z.ltb_spec c 2048); [|destruct (Z.ltb_spec c 65536)]].
  - cbn [app from_utf8]. decide_tests. by rewrite Hr.
  - assert (E : c = c / 64 * 64 + c mod 64) by (pose proof (Z.div_mod c 64 ltac:(lia)); lia).
    pose proof (Z.mod_pos_bound c 64 ltac:(lia)). generalize dependent (c / 64). generalize dependent (c mod 64).
    intros y Hy x E. cbn [app from_utf8]. decide_tests. cbn [andb]. rewrite Hr. cbn. do 2 f_equal. lia.
  - assert (E : c = c / 4096 * 4096 + (c / 64) mod 64 * 64 + c mod 64).
    { change 4096 with (64 * 64). rewrite <- Z.div_div by lia.
      pose proof (Z.div_mod c 64 ltac:(lia)). pose proof (Z.div_mod (c / 64) 64 ltac:(lia)). lia. }
    pose proof (Z.mod_pos_bound c 64 ltac:(lia)). pose proof (Z.mod_pos_bound (c / 64) 64 ltac:(lia)).
    generalize dependent (c / 4096). generalize dependent ((c / 64) mod 64). generalize dependent (c mod 64).
    intros z Hz y Hy x E.
    assert (second_of_three (224 + x) (128 + y) = true) as Hs.
    { unfold second_of_three. destruct (Z.eqb_spec (224 + x) 224), (Z.eqb_spec (224 + x) 237); decide_tests; done || lia. }
    cbn [app from_utf8]. rewrite Hs. decide_tests. cbn [andb]. rewrite Hr. cbn. do 2 f_equal. lia.
  - assert (E : c = c / 262144 * 262144 + (c / 4096) mod 64 * 4096 + (c / 64) mod 64 * 64 + c mod 64).
    { change 262144 with (64 * (64 * 64)). change 4096 with (64 * 64). rewrite <- !Z.div_div by lia.
      pose proof (Z.div_mod c 64 ltac:(lia)). pose proof (Z.div_mod (c / 64) 64 ltac:(lia)).
      pose proof (Z.div_mod (c / 64 / 64) 64 ltac:(lia)). lia. }
    pose proof (Z.mod_pos_bound c 64 ltac:(lia)). pose proof (Z.mod_pos_bound (c / 64) 64 ltac:(lia)).
    pose proof (Z.mod_pos_bound (c / 4096) 64 ltac:(lia)).
    generalize dependent (c / 262144). generalize dependent ((c / 4096) mod 64).
    generalize dependent ((c / 64) mod 64). generalize dependent (c mod 64).
    intros w Hw z Hz y Hy x E.
    assert (second_of_four (240 + x) (128 + y) = true) as Hs.
    { unfold second_of_four. destruct (Z.eqb_spec (240 + x) 240), (Z.eqb_spec (240 + x) 244); decide_tests; done || lia. }
    cbn [app from_utf8]. rewrite Hs. decide_tests. cbn [andb]. rewrite Hr. cbn. do 2 f_equal. lia.
Qed.

Lemma from_utf8_encoded t : scalars t -> from_utf8 (utf8 t) = Some t.
Proof. induction 1 as [|c t Hc _ IH]; [done|]. rewrite utf8_cons. by apply decode_char. Qed.

(** ** Nothing but encodings is accepted *)

Lemma encode_two b0 b1 :
  between 194 223 b0 && continuation b1 = true ->
  let c := (b0 - 192) * 64 + (b1 - 128) in scalar c = true /\ utf8_char c = [b0; b1].
Proof.
  intros H c. unfold continuation, between in H. rewrite !andb_true_iff, !Z.leb_le in H.
  assert (Hq : c / 64 = b0 - 192) by (symmetry; apply Z.div_unique with (b1 - 128); lia).
  assert (Hr : c mod 64 = b1 - 128) by (symmetry; apply Z.mod_unique with (b0 - 192); lia).
  unfold scalar, utf8_char. rewrite Hq, Hr. clear Hq Hr. subst c. decide_tests. cbn. split; [done|].
  repeat f_equal; lia.
Qed.

Lemma encode_three b0 b1 b2 :
  b0 < 240 -> second_of_three b0 b1 && continuation b2 = true ->
  let c := (b0 - 224) * 4096 + (b1 - 128) * 64 + (b2 - 128) in scalar c = true /\ utf8_char c = [b0; b1; b2].
Proof.
  intros Hb H c.
  assert (Hs : 224 <= b0 <= 239 /\ 128 <= b1 <= 191 /\ 128 <= b2 <= 191 /\ (2048 <= c < 55296 \/ 57344 <= c < 65536)).
  { subst c. unfold second_of_three, continuation, between in H.
    destruct (Z.eqb_spec b0 224), (Z.eqb_spec b0 237); rewrite !andb_true_iff, !Z.leb_le in H; lia. }
  assert (Hq : c / 4096 = b0 - 224) by (symmetry; apply Z.div_unique with ((b1 - 128) * 64 + (b2 - 128)); lia).
  assert (Hm : c / 64 = (b0 - 224) * 64 + (b1 - 128)) by (symmetry; apply Z.div_unique with (b2 - 128); lia).
  assert (Hr : c mod 64 = b2 - 128) by (symmetry; apply Z.mod_unique with ((b0 - 224) * 64 + (b1 - 128)); lia).
  assert (Hn : ((b0 - 224) * 64 + (b1 - 128)) mod 64 = b1 - 128) by (symmetry; apply Z.mod_unique with (b0 - 224); lia).
  unfold utf8_char. rewrite Hq, Hm, Hr, Hn. clear Hq Hm Hr Hn. split.
  - unfold scalar. apply orb_true_iff. rewrite !andb_true_iff, !Z.leb_le, !Z.ltb_lt. lia.
  - decide_tests. repeat f_equal; lia.
Qed.

Lemma encode_four b0 b1 b2 b3 :
  second_of_four b0 b1 && continuation b2 && continuation b3 = true ->
  let c := (b0 - 240) * 262144 + (b1 - 128) * 4096 + (b2 - 128) * 64 + (b3 - 128) in
  scalar c = true /\ utf8_char c = [b0; b1; b2; b3].
Proof.
  intros H c.
  assert (Hs : 240 <= b0 <= 244 /\ 128 <= b1 <= 191 /\ 128 <= b2 <= 191 /\ 128 <= b3 <= 191 /\ 65536 <= c < 1114112).
  { subst c. unfold second_of_four, continuation, between in H.
    destruct (Z.eqb_spec b0 240), (Z.eqb_spec b0 244); rewrite !andb_true_iff, !Z.leb_le in H; lia. }
  set (hi := (b0 - 240) * 64 + (b1 - 128)). set (mid := hi * 64 + (b2 - 128)).
  assert (Hm : c / 64 = mid) by (symmetry; apply Z.div_unique with (b3 - 128); lia).
  assert (Hr : c mod 64 = b3 - 128) by (symmetry; apply Z.mod_unique with mid; lia).
  assert (Hh : c / 4096 = hi) by (symmetry; apply Z.div_unique with ((b2 - 128) * 64 + (b3 - 128)); lia).
  assert (Hq : c / 262144 = b0 - 240)
    by (symmetry; apply Z.div_unique with ((b1 - 128) * 4096 + (b2 - 128) * 64 + (b3 - 128)); lia).
  assert (Hn : mid mod 64 = b2 - 128) by (symmetry; apply Z.mod_unique with hi; lia).
  assert (Ho : hi mod 64 = b1 - 128) by (symmetry; apply Z.mod_unique with (b0 - 240); lia).
  unfold utf8_char. rewrite Hq, Hh, Hm, Hr, Hn, Ho. clear Hq Hh Hm Hr Hn Ho. split.
  - unfold scalar. apply orb_true_iff. rewrite !andb_true_iff, !Z.leb_le, !Z.ltb_lt. lia.
  - decide_tests. repeat f_equal; lia.
Qed.

Lemma encoded_cons (chunk rest b : list Z) c o t :
  scalar c = true /\ utf8_char c = chunk -> (forall u, o = Some u -> scalars u /\ utf8 u = rest) ->
  b = chunk ++ rest -> cons c <$> o = Some t -> scalars t /\ utf8 t = b.
Proof.
  intros [Hc <-] Ho -> H. destruct o as [u|]; [|done]. cbn in H. injection H as <-.
  destruct (Ho u eq_refl) as [Hu <-]. split; [by constructor | apply utf8_cons].
Qed.

Lemma from_utf8_sound b t : bytes b -> from_utf8 b = Some t -> scalars t /\ utf8 t = b.
Proof.
  assert (Hgen : forall n b t, (length b <= n)%nat -> bytes b -> from_utf8 b = Some t -> scalars t /\ utf8 t = b).
  { clear b t. induction n as [|n IH]; intros b t Hn Hb.
    { destruct b; [|cbn in Hn; lia]. intros [= <-]. by split; [constructor|]. }
    destruct b as [|b0 r0]; [intros [= <-]; by split; [constructor|]|].
    apply Forall_cons in Hb as [H0 Hb]. cbn [from_utf8]. cbn [length] in Hn.
    destruct (Z.ltb_spec b0 128); [|destruct (Z.ltb_spec b0 224); [|destruct (Z.ltb_spec b0 240)]].
    - apply (encoded_cons [b0] r0); [|intros u; apply IH; [lia | done] | done].
      unfold in_range in H0. unfold scalar, utf8_char. by decide_tests.
    - destruct r0 as [|b1 r1]; [done|]. apply Forall_cons in Hb as [_ Hb]. cbn [length] in Hn.
      destruct (between 194 223 b0 && continuation b1) eqn:E; [|done].
      apply (encoded_cons [b0; b1] r1); [by apply encode_two | intros u; apply IH; [lia | done] | done].
    - destruct r0 as [|b1 [|b2 r2]]; [done..|]. apply Forall_cons in Hb as [_ [_ Hb]%Forall_cons]. cbn [length] in Hn.
      destruct (second_of_three b0 b1 && continuation b2) eqn:E; [|done].
      apply (encoded_cons [b0; b1; b2] r2); [by apply encode_three | intros u; apply IH; [lia | done] | done].
    - destruct r0 as [|b1 [|b2 [|b3 r3]]]; [done..|].
      apply Forall_cons in Hb as [_ [_ [_ Hb]%Forall_cons]%Forall_cons]. cbn [length] in Hn.
      destruct (second_of_four b0 b1 && continuation b2 && continuation b3) eqn:E; [|done].
      apply (encoded_cons [b0; b1; b2; b3] r3); [by apply encode_four | intros u; apply IH; [lia | done] | done]. }
  by apply (Hgen (length b)).
Qed.

(** Decoding accepts exactly the encodings of texts of scalar values. *)
Lemma from_utf8_iff b t : bytes b -> from_utf8 b = Some t <-> scalars t /\ utf8 t = b.
Proof. intros Hb. split; [by apply from_utf8_sound|]. intros [Ht <-]. by apply from_utf8_encoded. Qed.

(** * Strings *)

(** Every Rust [String] is valid UTF-8. *)
Definition utf8_string (s : string) : Prop := is_Some (from_utf8 (as_bytes s)).

(** [str::chars]. *)
Definition chars (s : string) : text := default [] (from_utf8 (as_bytes s)).

Lemma chars_scalars s : scalars (chars s).
Proof.
  unfold chars. destruct (from_utf8 (as_bytes s)) as [t|] eqn:E; cbn; [|constructor].
  by apply from_utf8_sound in E as [? _]; [|apply as_bytes_bytes].
Qed.

Lemma chars_inj s s' : utf8_string s -> utf8_string s' -> chars s = chars s' -> s = s'.
Proof.
  intros [t Ht] [t' Ht'] H. unfold chars in H. rewrite Ht, Ht' in H. cbn in H. subst t'.
  apply from_utf8_sound in Ht as [_ Ht]; [|apply as_bytes_bytes].
  apply from_utf8_sound in Ht' as [_ Ht']; [|apply as_bytes_bytes].
  rewrite <- (string_of_as_bytes s), <- (string_of_as_bytes s'). congruence.
Qed.

Example chars_sample : chars "caf" = ascii "caf" /\ from_utf8 [195; 169] = Some [233] /\ from_utf8 [192; 128] = None
  /\ from_utf8 [237; 160; 128] = None /\ from_utf8 [240; 159; 152; 128] = Some [128512].
Proof. vm_compute. done. Qed.
