(* ===== verification/StdFloat.v ===== *)
(** Rust's [f32]: the [spec_float] of the Standard Library at binary32
    precision, rounded to nearest, ties to even; the operations of the query
    engine on it; and the facts its theorems need: the order is total on
    numbers, clamping stays within its bounds, sums of small numbers do not
    overflow, and rounding is monotone.

    For the last a float is read as an integer, its value in units of the
    smallest positive number; a mantissa with the bits shifted out of it is read
    as one integer too, two bits longer. *)

From Stdlib Require Import SpecFloat.
From S2P Require Import Prelude.

(** * Operations *)

Abbreviation f32 := spec_float (only parsing).
Definition f32_precision : Z := 24.
Definition f32_emax : Z := 128.

Definition f32_add (x y : f32) : f32 := SFadd f32_precision f32_emax x y.
Definition f32_sub (x y : f32) : f32 := SFsub f32_precision f32_emax x y.
Definition f32_mul (x y : f32) : f32 := SFmul f32_precision f32_emax x y.
Definition f32_div (x y : f32) : f32 := SFdiv f32_precision f32_emax x y.
Definition f32_lt (x y : f32) : bool := SFltb x y.
Definition f32_le (x y : f32) : bool := SFleb x y.
Definition f32_eq (x y : f32) : bool := SFeqb x y.

(** [as f32] of an unsigned integer. *)
Definition f32_of_integer (n : Z) : f32 := binary_normalize f32_precision f32_emax n 0 false.

(** The literal [m / 10 ^ digits], rounded once. *)
Definition f32_literal (m : positive) (digits : Z) : f32 :=
  SFdiv f32_precision f32_emax (S754_finite false m 0) (S754_finite false (Z.to_pos (10 ^ digits)) 0).

Definition f32_zero : f32 := S754_zero false.
Definition f32_one : f32 := f32_of_integer 1.
Definition f32_neg_infinity : f32 := S754_infinity true.

Definition f32_is_finite (x : f32) : bool :=
  match x with S754_zero _ | S754_finite _ _ _ => true | _ => false end.

Definition f32_is_nan (x : f32) : bool := match x with S754_nan => true | _ => false end.

(** [f32::clamp]. *)
Definition f32_clamp (x lo hi : f32) : f32 :=
  let x := if f32_lt x lo then lo else x in
  if f32_lt hi x then hi else x.

(** [f32::max]. *)
Definition f32_max (x y : f32) : f32 := if f32_is_nan x || f32_lt x y then y else x.

Definition f32_abs (x : f32) : f32 := SFabs x.

Example f32_tenths : f32_literal 6 1 = S754_finite false 10066330 (-24).
Proof. vm_compute. reflexivity. Qed.

Example f32_sum : f32_add (f32_of_integer 3) (f32_literal 5 1) = f32_literal 35 1.
Proof. vm_compute. reflexivity. Qed.

(** * The order *)

(** A number as a triple that is ordered lexicographically. *)
Definition f32_key (x : f32) : Z * Z * Z :=
  match x with
  | S754_infinity s => (if s then -2 else 2, 0, 0)
  | S754_finite s m e => if s then (-1, - e, - Zpos m) else (1, e, Zpos m)
  | _ => (0, 0, 0)
  end.

Definition key_lt (a b : Z * Z * Z) : Prop :=
  a.1.1 < b.1.1 \/ (a.1.1 = b.1.1 /\ (a.1.2 < b.1.2 \/ (a.1.2 = b.1.2 /\ a.2 < b.2))).

Lemma SFcompare_key x y :
  f32_is_nan x = false -> f32_is_nan y = false ->
  match SFcompare x y with
  | Some Lt => key_lt (f32_key x) (f32_key y)
  | Some Eq => f32_key x = f32_key y
  | Some Gt => key_lt (f32_key y) (f32_key x)
  | None => False
  end.
Proof.
  unfold key_lt.
  destruct x as [sx|sx| |sx mx ex], y as [sy|sy| |sy my ey]; cbn; try done; intros _ _;
    try (destruct sx, sy; cbn; (done || lia)); try (destruct sx; cbn; (done || lia)); try (destruct sy; cbn; (done || lia)).
  change (Pos.compare_cont Eq mx my) with (Pos.compare mx my).
  destruct sx, sy; cbn; try lia; destruct (Z.compare_spec ex ey); subst; cbn; try lia;
    destruct (Pos.compare_spec mx my); subst; cbn; (done || lia).
Qed.

Lemma f32_lt_key x y :
  f32_lt x y = true <-> f32_is_nan x = false /\ f32_is_nan y = false /\ key_lt (f32_key x) (f32_key y).
Proof.
  unfold f32_lt, SFltb. split.
  - destruct (f32_is_nan x) eqn:Ex; [by destruct x|]. destruct (f32_is_nan y) eqn:Ey; [by destruct x, y|].
    pose proof (SFcompare_key x y Ex Ey) as H. by destruct (SFcompare x y) as [[]|].
  - intros (Hx & Hy & H). pose proof (SFcompare_key x y Hx Hy) as H'.
    destruct (SFcompare x y) as [[]|]; try done; unfold key_lt in *; [rewrite H' in H|]; lia.
Qed.

Lemma f32_le_key x y :
  f32_le x y = true <-> f32_is_nan x = false /\ f32_is_nan y = false /\ ~ key_lt (f32_key y) (f32_key x).
Proof.
  unfold f32_le, SFleb. split.
  - destruct (f32_is_nan x) eqn:Ex; [by destruct x|]. destruct (f32_is_nan y) eqn:Ey; [by destruct x, y|].
    pose proof (SFcompare_key x y Ex Ey) as H. destruct (SFcompare x y) as [[]|]; try done;
      intros _; (split_and!; [done..|]); unfold key_lt in *; [rewrite H|]; lia.
  - intros (Hx & Hy & H). pose proof (SFcompare_key x y Hx Hy) as H'. by destruct (SFcompare x y) as [[]|].
Qed.

Lemma f32_lt_irrefl x : f32_lt x x = false.
Proof. apply not_true_is_false. rewrite f32_lt_key. unfold key_lt. lia. Qed.

Lemma f32_le_refl x : f32_is_nan x = false -> f32_le x x = true.
Proof. intros H. apply f32_le_key. unfold key_lt. split_and!; [done | done | lia]. Qed.

Lemma f32_lt_le x y : f32_lt x y = true -> f32_le x y = true.
Proof. rewrite f32_lt_key, f32_le_key. unfold key_lt. intros (? & ? & ?). split_and!; [done | done | lia]. Qed.

Lemma f32_le_lt_trans x y z : f32_le x y = true -> f32_lt y z = true -> f32_lt x z = true.
Proof.
  rewrite f32_le_key, !f32_lt_key. unfold key_lt. intros (? & ? & ?) (? & ? & ?). split_and!; [done | done | lia].
Qed.

Lemma f32_lt_le_trans x y z : f32_lt x y = true -> f32_le y z = true -> f32_lt x z = true.
Proof.
  rewrite f32_le_key, !f32_lt_key. unfold key_lt. intros (? & ? & ?) (? & ? & ?). split_and!; [done | done | lia].
Qed.

Lemma f32_le_trans x y z : f32_le x y = true -> f32_le y z = true -> f32_le x z = true.
Proof. rewrite !f32_le_key. unfold key_lt. intros (? & ? & ?) (? & ? & ?). split_and!; [done | done | lia]. Qed.

Lemma f32_not_lt_le x y : f32_is_nan x = false -> f32_is_nan y = false -> f32_lt x y = false -> f32_le y x = true.
Proof.
  intros Hx Hy H. apply f32_le_key. split_and!; [done..|]. intros Hlt. by rewrite (proj2 (f32_lt_key x y)) in H.
Qed.

Lemma f32_clamp_range x lo hi :
  f32_is_nan x = false -> f32_le lo hi = true ->
  f32_le lo (f32_clamp x lo hi) = true /\ f32_le (f32_clamp x lo hi) hi = true.
Proof.
  intros Hx Hle. pose proof Hle as H. apply f32_le_key in H as (Hlo & Hhi & _). unfold f32_clamp.
  destruct (f32_lt x lo) eqn:E1.
  - assert (f32_lt hi lo = false) as ->; [|by rewrite f32_le_refl].
    apply not_true_is_false. intros H. pose proof (f32_le_lt_trans _ _ _ Hle H) as H'. by rewrite f32_lt_irrefl in H'.
  - destruct (f32_lt hi x) eqn:E2; [by rewrite f32_le_refl|]. split; by apply f32_not_lt_le.
Qed.

(** * Results that are numbers *)

Lemma iter_pos_ind {A} (P : A -> Prop) (f : A -> A) n x : (forall y, P y -> P (f y)) -> P x -> P (SpecFloat.iter_pos f n x).
Proof. intros Hf. revert x. induction n as [n IH|n IH|]; intros x Hx; cbn; auto. Qed.

Lemma shr_nonneg prec emax m e l mrs e' : 0 <= m -> shr_fexp prec emax m e l = (mrs, e') -> 0 <= shr_m mrs.
Proof.
  intros Hm. unfold shr_fexp, shr.
  assert (H0 : 0 <= shr_m (shr_record_of_loc m l)) by (destruct l as [|[]]; done).
  destruct (_ - e) as [|n|n]; intros [= <- <-]; [done | | done].
  apply (iter_pos_ind (fun r => 0 <= shr_m r)); [|done].
  intros [[|[p|p|]|[p|p|]] r s]; cbn; lia.
Qed.

Lemma round_nearest_even_nonneg m l : 0 <= m -> 0 <= round_nearest_even m l.
Proof. intros. destruct l as [|[]]; cbn; [lia | destruct (Z.even m); lia | lia | lia]. Qed.

Lemma round_aux_number prec emax s m e l : 0 <= m -> f32_is_nan (binary_round_aux prec emax s m e l) = false.
Proof.
  intros Hm. unfold binary_round_aux. destruct (shr_fexp prec emax m e l) as [mrs e'] eqn:E1.
  apply shr_nonneg in E1; [|done].
  destruct (shr_fexp prec emax (round_nearest_even _ _) e' loc_Exact) as [mrs' e''] eqn:E2.
  apply shr_nonneg in E2; [|by apply round_nearest_even_nonneg].
  destruct (shr_m mrs'); [done | by destruct (_ <=? _) | lia].
Qed.

Lemma round_number prec emax s m e : f32_is_nan (binary_round prec emax s m e) = false.
Proof. unfold binary_round. destruct (shl_align _ _ _). by apply round_aux_number. Qed.

Lemma normalize_number prec emax m e s : f32_is_nan (binary_normalize prec emax m e s) = false.
Proof. destruct m; cbn; [done | apply round_number..]. Qed.

Lemma f32_mul_number x y : f32_is_finite x = true -> f32_is_finite y = true -> f32_is_nan (f32_mul x y) = false.
Proof. destruct x, y; cbn; try done. intros _ _. by apply round_aux_number. Qed.

Lemma f32_add_number x y : f32_is_finite x = true -> f32_is_nan y = false -> f32_is_nan (f32_add x y) = false.
Proof. destruct x as [[]| | |], y as [[]| | |]; cbn; try done; intros _ _; apply normalize_number. Qed.

(** * Sums of small numbers do not overflow *)

(** Finite and below [2 ^ k] in magnitude. *)
Definition small (k : Z) (x : f32) : Prop :=
  match x with
  | S754_zero _ => True
  | S754_finite _ m e => e <= k /\ Zpos m < 2 ^ (k - e)
  | _ => False
  end.

Lemma small_finite k x : small k x -> f32_is_finite x = true.
Proof. by destruct x. Qed.

Lemma small_weaken k k' x : k <= k' -> small k x -> small k' x.
Proof.
  intros Hk. destruct x as [| | |s m e]; cbn; try done. intros [He Hm]. split; [lia|].
  eapply Z.lt_le_trans; [exact Hm|]. apply Z.pow_le_mono_r; lia.
Qed.

Lemma digits2_log2 m : Zpos (digits2_pos m) = Z.log2 (Zpos m) + 1.
Proof.
  induction m as [m IH|m IH|]; [| |done].
  - change (Zpos (digits2_pos m~1)) with (Zpos (Pos.succ (digits2_pos m))).
    rewrite Pos2Z.inj_succ, IH, Pos2Z.inj_xI, Z.log2_succ_double by lia. lia.
  - change (Zpos (digits2_pos m~0)) with (Zpos (Pos.succ (digits2_pos m))).
    rewrite Pos2Z.inj_succ, IH, Pos2Z.inj_xO, Z.log2_double by lia. lia.
Qed.

Lemma digits2_bound m j : 0 <= j -> 0 <= m < 2 ^ j -> Zdigits2 m <= j.
Proof.
  intros Hj [H0 H]. destruct m as [|m|m]; cbn; [lia | | lia]. rewrite digits2_log2.
  assert (Z.log2 (Zpos m) < j) by (apply Z.log2_lt_pow2; lia). lia.
Qed.

Lemma fexp32 x : fexp f32_precision f32_emax x = Z.max (x - 24) (-149).
Proof. done. Qed.

Lemma iter_pos_nat {A} (f : A -> A) n x : SpecFloat.iter_pos f n x = Nat.iter (Pos.to_nat n) f x.
Proof.
  revert x. induction n as [n IH|n IH|]; intros x; [| |done]; cbn [SpecFloat.iter_pos]; rewrite !IH, <- Nat.iter_add.
  - rewrite Pos2Nat.inj_xI. replace (S (2 * Pos.to_nat n)) with ((Pos.to_nat n + Pos.to_nat n) + 1)%nat by lia.
    by rewrite (Nat.iter_add (_ + _) 1).
  - rewrite Pos2Nat.inj_xO. f_equal. lia.
Qed.

(** Shifting to the right divides. *)
Lemma shr_1_half r : 0 <= shr_m r -> shr_m (shr_1 r) = shr_m r / 2.
Proof.
  destruct r as [[|[p|p|]|p] r s]; cbn; intros; try lia; try done.
  - rewrite Pos2Z.inj_xI, Z.add_comm, (Z.mul_comm 2), Z.div_add by lia. done.
  - rewrite Pos2Z.inj_xO, (Z.mul_comm 2), Z.div_mul by lia. done.
Qed.

Lemma shr_iter n r : 0 <= shr_m r -> shr_m (Nat.iter n shr_1 r) = shr_m r / 2 ^ Z.of_nat n.
Proof.
  intros Hr. induction n as [|n IH]; cbn [Nat.iter nat_rect]; [by rewrite Z.div_1_r|].
  change (nat_rect _ _ _ n) with (Nat.iter n shr_1 r).
  assert (0 <= shr_m (Nat.iter n shr_1 r)) by (rewrite IH; apply Z.div_pos; lia).
  rewrite shr_1_half, IH, Z.div_div by lia. f_equal. rewrite Nat2Z.inj_succ, Z.pow_succ_r by lia. lia.
Qed.

Lemma shr_record_m m l : shr_m (shr_record_of_loc m l) = m.
Proof. by destruct l as [|[]]. Qed.

Lemma div_pow_bound m a n : 0 <= n <= a -> m < 2 ^ a -> m / 2 ^ n < 2 ^ (a - n).
Proof.
  intros Hn Hm. apply Z.div_lt_upper_bound; [lia|]. rewrite <- Z.pow_add_r by lia. by replace (n + (a - n)) with a by lia.
Qed.

Lemma shr_fexp_bound k m e l mrs e' :
  0 <= k -> e <= k -> 0 <= m < 2 ^ (k - e) -> shr_fexp f32_precision f32_emax m e l = (mrs, e') ->
  0 <= shr_m mrs < 2 ^ (k - e') /\ e' <= k /\ e' <= Z.max e (Z.max (k - 24) (-149)).
Proof.
  intros Hk He Hm. unfold shr_fexp, shr. pose proof (digits2_bound m (k - e) ltac:(lia) Hm) as Hd.
  rewrite fexp32. destruct (Z.max _ _ - e) as [|n|n] eqn:En; intros [= <- <-]; rewrite ?shr_record_m;
    [split_and!; lia | | split_and!; lia].
  rewrite iter_pos_nat, shr_iter by (rewrite shr_record_m; lia). rewrite shr_record_m, positive_nat_Z.
  assert (Hn : 0 <= Zpos n <= k - e) by lia. split_and!; [apply Z.div_pos; lia | | lia | lia].
  replace (k - (e + Zpos n)) with (k - e - Zpos n) by lia. apply div_pow_bound; lia.
Qed.

Lemma round_aux_small k s m e l :
  0 <= k <= 100 -> e <= k -> e <= 100 -> 0 <= m < 2 ^ (k - e) ->
  small (k + 1) (binary_round_aux f32_precision f32_emax s m e l).
Proof.
  intros Hk He He' Hm. unfold binary_round_aux.
  destruct (shr_fexp f32_precision f32_emax m e l) as [r1 e1] eqn:E1.
  apply (shr_fexp_bound k) in E1 as (H1 & Hk1 & Hmax1); [|lia..].
  assert (Hr : 0 <= round_nearest_even (shr_m r1) (loc_of_shr_record r1) < 2 ^ (k + 1 - e1)).
  { split; [apply round_nearest_even_nonneg; lia|]. replace (k + 1 - e1) with (Z.succ (k - e1)) by lia.
    rewrite Z.pow_succ_r by lia. destruct (loc_of_shr_record r1) as [|[]]; cbn; [| destruct (Z.even _) | |]; lia. }
  destruct (shr_fexp f32_precision f32_emax (round_nearest_even _ _) e1 loc_Exact) as [r2 e2] eqn:E2.
  apply (shr_fexp_bound (k + 1)) in E2 as (H2 & Hk2 & Hmax2); [|lia..].
  destruct (shr_m r2) as [|m2|m2] eqn:Em; [done | | lia].
  destruct (Z.leb_spec e2 (f32_emax - f32_precision)) as [_|Hbad].
  - cbn. split; lia.
  - unfold f32_emax, f32_precision in Hbad. lia.
Qed.

Lemma iter_xO m n : Zpos (Pos.iter xO m n) = Zpos m * 2 ^ Zpos n.
Proof.
  revert m. induction n as [|n IH] using Pos.peano_ind; intros m; [change (Zpos (Pos.iter xO m 1)) with (Zpos m~0); lia|].
  rewrite Pos.iter_succ, Pos2Z.inj_xO, IH, Pos2Z.inj_succ, Z.pow_succ_r by lia. lia.
Qed.

Lemma shl_align_value m e e' m' e'' :
  shl_align m e e' = (m', e'') -> e'' = Z.min e e' /\ Zpos m' = Zpos m * 2 ^ (e - e'').
Proof.
  unfold shl_align. destruct (e' - e) as [|n|n] eqn:E; intros [= <- <-].
  - split; [lia|]. rewrite Z.sub_diag. lia.
  - split; [lia|]. rewrite Z.sub_diag. lia.
  - split; [lia|]. rewrite iter_xO. do 2 f_equal. lia.
Qed.

Lemma shifted_bound k m e e' : e' <= e -> e <= k -> m < 2 ^ (k - e) -> m * 2 ^ (e - e') < 2 ^ (k - e').
Proof.
  intros H1 H2 Hm. replace (k - e') with ((k - e) + (e - e')) by lia. rewrite Z.pow_add_r by lia.
  apply Z.mul_lt_mono_pos_r; [lia | done].
Qed.

Lemma round_small k s m e :
  0 <= k <= 100 -> e <= k -> Zpos m < 2 ^ (k - e) -> small (k + 1) (binary_round f32_precision f32_emax s m e).
Proof.
  intros Hk He Hm. unfold binary_round. destruct (shl_align _ _ _) as [m' e'] eqn:E.
  apply shl_align_value in E as [He' Hm']. apply round_aux_small; [done | lia | lia |].
  rewrite Hm'. split; [lia|]. apply shifted_bound; lia.
Qed.

Lemma normalize_small k m e s :
  0 <= k <= 100 -> e <= k -> Z.abs m < 2 ^ (k - e) -> small (k + 1) (binary_normalize f32_precision f32_emax m e s).
Proof. intros Hk He Hm. destruct m; cbn; [done | by apply round_small..]. Qed.

Lemma aligned_bound k m e ez : ez <= e -> e <= k -> Zpos m < 2 ^ (k - e) -> Zpos (shl_align m e ez).1 < 2 ^ (k - ez).
Proof.
  intros H1 H2 Hm. destruct (shl_align m e ez) as [m' e'] eqn:E. apply shl_align_value in E as [He' Hm']. cbn.
  rewrite Hm'. replace e' with ez by lia. by apply shifted_bound.
Qed.

Lemma f32_add_small k x y : 0 <= k <= 99 -> small k x -> small k y -> small (k + 2) (f32_add x y).
Proof.
  intros Hk Hx Hy. destruct x as [sx| | |sx mx ex], y as [sy| | |sy my ey]; try done.
  - by destruct sx, sy.
  - by apply (small_weaken k); [lia|].
  - by apply (small_weaken k); [lia|].
  - destruct Hx as [Hex Hmx], Hy as [Hey Hmy]. cbn. replace (k + 2) with (k + 1 + 1) by lia.
    apply normalize_small; [lia | lia|].
    pose proof (aligned_bound k mx ex (Z.min ex ey) ltac:(lia) Hex Hmx) as H1.
    pose proof (aligned_bound k my ey (Z.min ex ey) ltac:(lia) Hey Hmy) as H2.
    replace (k + 1 - Z.min ex ey) with (Z.succ (k - Z.min ex ey)) by lia. rewrite Z.pow_succ_r by lia.
    revert H1 H2. generalize (shl_align mx ex (Z.min ex ey)).1, (shl_align my ey (Z.min ex ey)).1. intros p1 p2 H1 H2.
    unfold cond_Zopp. destruct sx, sy; lia.
Qed.

Lemma f32_sub_small k x y : 0 <= k <= 99 -> small k x -> small k y -> small (k + 2) (f32_sub x y).
Proof.
  intros Hk Hx Hy. destruct x as [sx| | |sx mx ex], y as [sy| | |sy my ey]; try done.
  - by destruct sx, sy.
  - apply (small_weaken k); [lia|]. exact Hy.
  - by apply (small_weaken k); [lia|].
  - destruct Hx as [Hex Hmx], Hy as [Hey Hmy]. cbn. replace (k + 2) with (k + 1 + 1) by lia.
    apply normalize_small; [lia | lia|].
    pose proof (aligned_bound k mx ex (Z.min ex ey) ltac:(lia) Hex Hmx) as H1.
    pose proof (aligned_bound k my ey (Z.min ex ey) ltac:(lia) Hey Hmy) as H2.
    replace (k + 1 - Z.min ex ey) with (Z.succ (k - Z.min ex ey)) by lia. rewrite Z.pow_succ_r by lia.
    revert H1 H2. generalize (shl_align mx ex (Z.min ex ey)).1, (shl_align my ey (Z.min ex ey)).1. intros p1 p2 H1 H2.
    unfold cond_Zopp. destruct sx, sy; lia.
Qed.

Lemma f32_of_integer_small k n : 0 <= k <= 100 -> 0 <= n < 2 ^ k -> small (k + 1) (f32_of_integer n).
Proof. intros Hk Hn. apply normalize_small; [done | lia|]. rewrite Z.sub_0_r. lia. Qed.

(** A number minus itself is zero. *)
Lemma f32_sub_diag x : f32_is_finite x = true -> f32_sub x x = f32_zero.
Proof. destruct x as [[]| | |s m e]; cbn; try done. intros _. by rewrite Z.sub_diag. Qed.

(** * Mantissas with their rest *)

(** Two more bits: the first one shifted out, and whether any later one was set. *)
Definition code (r : shr_record) : Z := 4 * shr_m r + 2 * Z.b2z (shr_r r) + Z.b2z (shr_s r).

Definition step (c : Z) : Z := 2 * (c / 4) + if c mod 4 =? 0 then 0 else 1.

Definition rne (c : Z) : Z :=
  let m := c / 4 in
  if c mod 4 <=? 1 then m else if (c mod 4 =? 2) && Z.even m then m else m + 1.

Lemma code_split m r s : (4 * m + 2 * Z.b2z r + Z.b2z s) / 4 = m /\ (4 * m + 2 * Z.b2z r + Z.b2z s) mod 4 = 2 * Z.b2z r + Z.b2z s.
Proof.
  assert (H : 0 <= 2 * Z.b2z r + Z.b2z s < 4) by (destruct r, s; cbn; lia). split.
  - symmetry. apply (Z.div_unique _ _ _ (2 * Z.b2z r + Z.b2z s)); lia.
  - symmetry. apply (Z.mod_unique _ _ m); lia.
Qed.

Lemma shr_1_code r : 0 <= shr_m r -> code (shr_1 r) = step (code r).
Proof.
  destruct r as [m r s]. cbn [shr_m]. intros Hm. unfold code, step. cbn [shr_m shr_r shr_s].
  destruct (code_split m r s) as [-> ->].
  assert (E : (if 2 * Z.b2z r + Z.b2z s =? 0 then 0 else 1) = Z.b2z (r || s)) by by destruct r, s.
  rewrite E. destruct m as [|[p|p|]|p]; cbn [shr_1 shr_m shr_r shr_s]; cbn [Z.b2z]; lia.
Qed.

Lemma round_code r : round_nearest_even (shr_m r) (loc_of_shr_record r) = rne (code r).
Proof.
  destruct r as [m r s]. unfold code, rne. cbn [shr_m shr_r shr_s]. destruct (code_split m r s) as [-> ->].
  destruct r, s; cbn; [done | by destruct (Z.even m) | done | done].
Qed.

Lemma step_mono c c' : 0 <= c <= c' -> step c <= step c'.
Proof.
  intros H. unfold step. pose proof (Z.div_mod c 4 ltac:(lia)). pose proof (Z.div_mod c' 4 ltac:(lia)).
  pose proof (Z.mod_pos_bound c 4 ltac:(lia)). pose proof (Z.mod_pos_bound c' 4 ltac:(lia)).
  destruct (Z.eqb_spec (c mod 4) 0), (Z.eqb_spec (c' mod 4) 0); lia.
Qed.

Lemma step_nonneg c : 0 <= c -> 0 <= step c.
Proof. intros H. unfold step. pose proof (Z.div_pos c 4). destruct (_ =? _); lia. Qed.

Lemma step_double c : step (2 * c) = c.
Proof.
  unfold step. pose proof (Z.div_mod (2 * c) 4 ltac:(lia)). pose proof (Z.mod_pos_bound (2 * c) 4 ltac:(lia)).
  destruct (Z.eqb_spec ((2 * c) mod 4) 0); lia.
Qed.

Lemma step_quarter c : 0 <= c -> step c / 4 = c / 4 / 2.
Proof.
  intros H. unfold step. set (a := c / 4). pose proof (Z.div_mod a 2 ltac:(lia)). pose proof (Z.mod_pos_bound a 2 ltac:(lia)).
  symmetry. apply (Z.div_unique_pos _ _ _ (2 * (a mod 2) + if c mod 4 =? 0 then 0 else 1)); destruct (c mod 4 =? 0); lia.
Qed.

Lemma rne_mono c c' : 0 <= c <= c' -> rne c <= rne c'.
Proof.
  intros H. unfold rne. pose proof (Z.div_mod c 4 ltac:(lia)). pose proof (Z.div_mod c' 4 ltac:(lia)).
  pose proof (Z.mod_pos_bound c 4 ltac:(lia)). pose proof (Z.mod_pos_bound c' 4 ltac:(lia)).
  assert (Hcase : c / 4 < c' / 4 \/ (c / 4 = c' / 4 /\ c mod 4 <= c' mod 4)) by lia. destruct Hcase as [Hlt|[Heq Hle]].
  - destruct (c mod 4 <=? 1), (c' mod 4 <=? 1), ((c mod 4 =? 2) && Z.even (c / 4)), ((c' mod 4 =? 2) && Z.even (c' / 4)); lia.
  - rewrite Heq. destruct (Z.leb_spec (c mod 4) 1), (Z.leb_spec (c' mod 4) 1), (Z.eqb_spec (c mod 4) 2), (Z.eqb_spec (c' mod 4) 2),
      (Z.even (c' / 4)); cbn [andb]; lia.
Qed.

Lemma rne_bounds c : 0 <= c -> c / 4 <= rne c <= c / 4 + 1.
Proof. intros H. unfold rne. destruct (c mod 4 <=? 1), ((c mod 4 =? 2) && Z.even (c / 4)); lia. Qed.

Lemma rne_exact m : rne (4 * m) = m.
Proof. unfold rne. rewrite Z.mul_comm, Z.div_mul, Z.mod_mul by lia. done. Qed.

(** ** Several steps *)

Definition steps (k : Z) (c : Z) : Z := Nat.iter (Z.to_nat k) step c.

Lemma iter_S {A} n (f : A -> A) x : Nat.iter (S n) f x = f (Nat.iter n f x).
Proof. done. Qed.

Lemma steps_nonneg k c : 0 <= c -> 0 <= steps k c.
Proof. intros H. unfold steps. induction (Z.to_nat k) as [|n IH]; [done|]. rewrite iter_S. by apply step_nonneg. Qed.

Lemma steps_mono k c c' : 0 <= c <= c' -> steps k c <= steps k c'.
Proof.
  intros H. pose proof (fun n => steps_nonneg (Z.of_nat n) c ltac:(lia)) as Hn. unfold steps in *.
  induction (Z.to_nat k) as [|n IH]; [cbn; lia|]. rewrite !iter_S. apply step_mono. split; [|done].
  specialize (Hn n). by rewrite Nat2Z.id in Hn.
Qed.

Lemma steps_quarter k c : 0 <= k -> 0 <= c -> steps k c / 4 = c / 4 / 2 ^ k.
Proof.
  intros Hk Hc. rewrite <- (Z2Nat.id k Hk) at 2. unfold steps. pose proof (fun n => steps_nonneg (Z.of_nat n) c Hc) as Hn. unfold steps in Hn.
  induction (Z.to_nat k) as [|n IH]; [by rewrite Z.div_1_r|]. specialize (Hn n). rewrite Nat2Z.id in Hn.
  rewrite iter_S, step_quarter, IH, Nat2Z.inj_succ, Z.pow_succ_r, Z.div_div by lia. f_equal. lia.
Qed.

Lemma steps_scaled k j c : 0 <= j -> 0 <= k -> steps (k + j) (c * 2 ^ j) = steps k c.
Proof.
  intros Hj Hk. unfold steps. rewrite Z2Nat.inj_add by lia. rewrite <- (Z2Nat.id j) at 2 by lia.
  induction (Z.to_nat j) as [|n IH]; [by rewrite Nat.add_0_r, Z.mul_1_r|].
  rewrite <- IH. rewrite Nat2Z.inj_succ, Z.pow_succ_r by lia.
  replace (Z.to_nat k + S n)%nat with ((Z.to_nat k + n) + 1)%nat by lia. rewrite (Nat.iter_add _ 1). f_equal. cbn.
  replace (c * (2 * 2 ^ Z.of_nat n)) with (2 * (c * 2 ^ Z.of_nat n)) by lia. apply step_double.
Qed.

Lemma shr_iter_code n r : 0 <= shr_m r -> code (Nat.iter n shr_1 r) = Nat.iter n step (code r).
Proof.
  intros Hr. induction n as [|n IH]; [done|]. rewrite !iter_S, <- IH. apply shr_1_code.
  rewrite shr_iter by done. apply Z.div_pos; lia.
Qed.

(** * Values *)

Definition normal_pair (m e : Z) : Prop := -149 <= e <= 104 /\ 0 < m < 2 ^ 24 /\ (e = -149 \/ 2 ^ 23 <= m).

(** What the operations return: a number in normal form. *)
Definition number (x : f32) : Prop :=
  match x with S754_zero _ | S754_infinity _ => True | S754_nan => False | S754_finite _ m e => normal_pair (Zpos m) e end.

(** Above every finite value. *)
Definition TOP : Z := 2 ^ 277.

Definition signed (s : bool) (v : Z) : Z := if s then - v else v.

(** In units of the smallest positive number. *)
Definition val (x : f32) : Z :=
  match x with
  | S754_zero _ | S754_nan => 0
  | S754_infinity s => signed s TOP
  | S754_finite s m e => signed s (Zpos m * 2 ^ (e + 149))
  end.

Lemma pow_pos n : 0 <= n -> 0 < 2 ^ n.
Proof. intros. by apply Z.pow_pos_nonneg. Qed.

Lemma pair_top m e : normal_pair m e -> 0 < m * 2 ^ (e + 149) < TOP.
Proof.
  intros ([He1 He2] & Hm & _). pose proof (pow_pos (e + 149) ltac:(lia)). split; [nia|]. unfold TOP.
  change (2 ^ 277) with (2 ^ 24 * 2 ^ 253).
  assert (2 ^ (e + 149) <= 2 ^ 253) by (apply Z.pow_le_mono_r; lia). nia.
Qed.

Lemma pair_lt m e m' e' :
  normal_pair m e -> normal_pair m' e' ->
  (e < e' \/ (e = e' /\ m < m')) <-> m * 2 ^ (e + 149) < m' * 2 ^ (e' + 149).
Proof.
  assert (Hlt : forall m e m' e', normal_pair m e -> normal_pair m' e' -> e < e' -> m * 2 ^ (e + 149) < m' * 2 ^ (e' + 149)).
  { clear. intros m e m' e' (He & Hm & _) (He' & Hm' & Hn) H. pose proof (pow_pos (e + 149) ltac:(lia)).
    replace (e' + 149) with ((e + 149) + (1 + (e' - e - 1))) by lia. rewrite (Z.pow_add_r 2 (e + 149)), (Z.pow_add_r 2 1) by lia.
    pose proof (pow_pos (e' - e - 1) ltac:(lia)). assert (2 ^ 23 <= m') by lia.
    apply Z.lt_le_trans with (2 ^ 24 * 2 ^ (e + 149)); [nia|]. transitivity (2 ^ 23 * (2 ^ (e + 149) * (2 ^ 1 * 1))); [lia|].
    apply Z.mul_le_mono_nonneg; [lia | done | nia | apply Z.mul_le_mono_nonneg_l; nia]. }
  intros H H'. split; [intros [E|[-> E]]; [by apply Hlt|]|].
  - pose proof (pow_pos (e' + 149) ltac:(destruct H; lia)). nia.
  - intros Hv. destruct (Z.lt_trichotomy e e') as [E|[E|E]]; [by left | | ].
    + subst. right. split; [done|]. pose proof (pow_pos (e' + 149) ltac:(destruct H; lia)). nia.
    + specialize (Hlt _ _ _ _ H' H E). lia.
Qed.

Lemma number_nan x : number x -> f32_is_nan x = false.
Proof. by destruct x. Qed.

(** The order of numbers is the order of their values. *)
Lemma key_lt_val x y : number x -> number y -> key_lt (f32_key x) (f32_key y) <-> val x < val y.
Proof.
  assert (Hpos : forall m e, normal_pair (Zpos m) e -> 0 < Zpos m * 2 ^ (e + 149) < TOP) by (intros; by apply pair_top).
  unfold key_lt. destruct x as [?|[]| |[] m e], y as [?|[]| |[] m' e']; cbn [number f32_key val signed fst snd]; intros Hx Hy; try done;
    try (pose proof (Hpos _ _ Hx)); try (pose proof (Hpos _ _ Hy)); try (unfold TOP in *; lia).
  - pose proof (pair_lt _ _ _ _ Hy Hx). lia.
  - pose proof (pair_lt _ _ _ _ Hx Hy). lia.
Qed.

Lemma le_val x y : number x -> number y -> f32_le x y = true <-> val x <= val y.
Proof.
  intros Hx Hy. rewrite f32_le_key, (key_lt_val y x) by done. pose proof (number_nan x Hx). pose proof (number_nan y Hy).
  split; [intros (_ & _ & ?); lia | intros; split_and!; [done.. | lia]].
Qed.

(** * Rounding, as a function of values *)

Definition rexp (c e : Z) : Z := Z.max (Zdigits2 (c / 4) + e - 24) (-149).
Definition aligned (c e : Z) : Prop := e <= rexp c e.
Definition nearest (c e : Z) : Z := rne (steps (rexp c e - e) c).
Definition rounded (c e : Z) : Z := Z.min (nearest c e * 2 ^ (rexp c e + 149)) TOP.

Lemma digits_low m : 0 < m -> 2 ^ (Zdigits2 m - 1) <= m < 2 ^ Zdigits2 m.
Proof.
  destruct m as [|p|p]; [done | | done]. intros _. cbn [Zdigits2]. rewrite digits2_log2.
  pose proof (Z.log2_spec (Zpos p) ltac:(lia)) as H. replace (_ + 1 - 1) with (Z.log2 (Zpos p)) by lia.
  by replace (Z.succ _) with (Z.log2 (Zpos p) + 1) in H by lia.
Qed.

Lemma digits_nonneg m : 0 <= m -> 0 <= Zdigits2 m.
Proof. destruct m; cbn; lia. Qed.

Lemma digits_below m : 0 <= m -> m < 2 ^ Zdigits2 m.
Proof. intros H. destruct (Z.eq_dec m 0) as [->|]; [done|]. apply digits_low. lia. Qed.

(** The rounded mantissa fits, and is full unless the exponent is the lowest. *)
Lemma nearest_range c e :
  0 <= c -> aligned c e -> 0 <= nearest c e <= 2 ^ 24 /\ (rexp c e = -149 \/ 2 ^ 23 <= nearest c e).
Proof.
  intros Hc Ha. unfold aligned in Ha. unfold nearest. set (q := rexp c e) in *. pose proof (steps_nonneg (q - e) c Hc) as Hs.
  pose proof (rne_bounds _ Hs) as Hb. rewrite steps_quarter in Hb by lia. set (m := c / 4) in *.
  assert (Hm : 0 <= m) by (apply Z.div_pos; lia). pose proof (digits_below m Hm) as Hd. pose proof (pow_pos (q - e) ltac:(lia)) as Hp.
  assert (Hq : Zdigits2 m + e - 24 <= q) by (unfold q, rexp; fold m; lia).
  assert (m / 2 ^ (q - e) < 2 ^ 24).
  { apply Z.div_lt_upper_bound; [done|]. rewrite <- Z.pow_add_r by lia. eapply Z.lt_le_trans; [exact Hd|]. apply Z.pow_le_mono_r; lia. }
  pose proof (Z.div_pos m (2 ^ (q - e)) Hm Hp). split; [lia|].
  destruct (Z.eq_dec q (-149)) as [|Hne]; [by left|]. right. assert (Hq' : Zdigits2 m + e - 24 = q) by (unfold q, rexp in *; fold m; fold m in Hne; lia).
  destruct (Z.eq_dec m 0) as [E0|]; [rewrite E0 in Hq'; cbn in Hq'; lia|].
  transitivity (m / 2 ^ (q - e)); [|lia]. apply Z.div_le_lower_bound; [done|]. rewrite <- Z.pow_add_r by lia.
  transitivity (2 ^ (Zdigits2 m - 1)); [|apply digits_low; lia]. apply Z.pow_le_mono_r; lia.
Qed.

Lemma shr_fexp_aligned m e l :
  let c := code (shr_record_of_loc m l) in
  0 <= m -> aligned c e ->
  exists r, shr_fexp f32_precision f32_emax m e l = (r, rexp c e) /\ 0 <= shr_m r /\ code r = steps (rexp c e - e) c.
Proof.
  intros c Hm Ha. assert (Hc : c / 4 = m).
  { unfold c, code. rewrite shr_record_m. apply (proj1 (code_split m (shr_r (shr_record_of_loc m l)) (shr_s (shr_record_of_loc m l)))). }
  unfold shr_fexp, shr. rewrite fexp32. unfold aligned in Ha. unfold rexp in *. rewrite Hc in *.
  set (q := Z.max (Zdigits2 m + e - 24) (-149)) in *. unfold steps. destruct (q - e) as [|n|n] eqn:En; [| |lia].
  - exists (shr_record_of_loc m l). split_and!; [f_equal; lia | by rewrite shr_record_m | done].
  - exists (Nat.iter (Z.to_nat (Zpos n)) shr_1 (shr_record_of_loc m l)). split_and!.
    + rewrite iter_pos_nat, Z2Nat.inj_pos. f_equal. lia.
    + rewrite shr_iter by (by rewrite shr_record_m). apply Z.div_pos; [by rewrite shr_record_m | lia].
    + apply shr_iter_code. by rewrite shr_record_m.
Qed.

(** The second pass only moves a full mantissa that overflowed by one. *)
Lemma renormalize n q r e :
  0 <= n <= 2 ^ 24 -> -149 <= q -> q = -149 \/ 2 ^ 23 <= n -> shr_fexp f32_precision f32_emax n q loc_Exact = (r, e) ->
  shr_m r * 2 ^ (e + 149) = n * 2 ^ (q + 149) /\ 0 <= shr_m r < 2 ^ 24 /\ -149 <= e /\ (e = -149 \/ 2 ^ 23 <= shr_m r).
Proof.
  intros Hn Hq Hf. unfold shr_fexp, shr. rewrite fexp32. destruct (Z.eq_dec n (2 ^ 24)) as [->|Hne].
  - replace (Z.max (Zdigits2 (2 ^ 24) + q - 24) (-149) - q) with 1 by (change (Zdigits2 (2 ^ 24)) with 25; lia).
    cbn [SpecFloat.iter_pos shr_record_of_loc]. intros [= <- <-]. cbn. replace (q + 1 + 149) with ((q + 149) + 1) by lia.
    rewrite Z.pow_add_r by lia. lia.
  - assert (Hd : Zdigits2 n <= 24) by (apply digits2_bound; lia).
    assert (E : Z.max (Zdigits2 n + q - 24) (-149) - q = 0).
    { destruct Hf as [->|Hf]; [lia|]. pose proof (digits_low n ltac:(lia)) as [_ Hlt].
      assert (23 < Zdigits2 n) by (pose proof (digits_nonneg n); apply (Z.pow_lt_mono_r_iff 2); lia). lia. }
    rewrite E. intros [= <- <-]. cbn. lia.
Qed.

Lemma round_aux_val s m e l :
  let c := code (shr_record_of_loc m l) in
  0 <= m -> aligned c e ->
  number (binary_round_aux f32_precision f32_emax s m e l) /\ val (binary_round_aux f32_precision f32_emax s m e l) = signed s (rounded c e).
Proof.
  intros c Hm Ha. unfold binary_round_aux. destruct (shr_fexp_aligned m e l Hm Ha) as (r1 & -> & Hr1 & Hcode). fold c in Hcode |- *.
  rewrite round_code, Hcode. fold (nearest c e). assert (Hc : 0 <= c) by (unfold c, code; rewrite shr_record_m; destruct (shr_r _), (shr_s _); cbn; lia).
  destruct (nearest_range c e Hc Ha) as [Hn Hfull].
  destruct (shr_fexp _ _ (nearest c e) _ _) as [r2 e2] eqn:E2.
  apply renormalize in E2 as (Hv & Hm2 & He2 & Hf2); [|done | unfold rexp; lia | done].
  unfold rounded. rewrite <- Hv. destruct (shr_m r2) as [|m2|m2]; [| |lia].
  - split; [done|]. cbn. unfold TOP. by destruct s.
  - change (f32_emax - f32_precision) with 104. destruct (Z.leb_spec e2 104) as [Hle|Hgt].
    + assert (Hp : normal_pair (Zpos m2) e2) by (split_and!; [lia.. | done]). split; [done|]. cbn [val].
      f_equal. pose proof (pair_top _ _ Hp). lia.
    + split; [done|]. cbn [val]. f_equal. symmetry. apply Z.min_r. unfold TOP. change (2 ^ 277) with (2 ^ 23 * 2 ^ 254).
      assert (2 ^ 254 <= 2 ^ (e2 + 149)) by (apply Z.pow_le_mono_r; lia). nia.
Qed.

(** * Rounding is monotone *)

Lemma below_next c : 0 <= c -> c < 4 * 2 ^ Zdigits2 (c / 4).
Proof.
  intros H. pose proof (digits_below (c / 4) ltac:(apply Z.div_pos; lia)). pose proof (Z.div_mod c 4 ltac:(lia)).
  pose proof (Z.mod_pos_bound c 4 ltac:(lia)). lia.
Qed.

(** A larger value is not rounded on a finer grid. *)
Lemma rexp_mono c e c' e' b :
  0 <= c -> 0 <= c' -> aligned c e -> b <= e -> b <= e' -> c * 2 ^ (e - b) <= c' * 2 ^ (e' - b) -> rexp c e <= rexp c' e'.
Proof.
  intros Hc Hc' Ha Hb Hb' Hle. apply Z.nlt_ge. intros Hlt. pose proof (below_next c' Hc') as Hup.
  unfold aligned in Ha. unfold rexp in *. set (m := c / 4) in *. set (d' := Zdigits2 (c' / 4)) in *.
  assert (Hd' : 0 <= d') by (apply digits_nonneg, Z.div_pos; lia).
  assert (Hm : 0 < m).
  { assert (0 <= m) by (apply Z.div_pos; lia). destruct (Z.eq_dec m 0) as [E|]; [|lia]. rewrite E in *. cbn [Zdigits2] in *. lia. }
  pose proof (digits_low m Hm) as [Hlow _]. set (d := Zdigits2 m) in *.
  assert (Hd : 1 <= d) by (destruct m; cbn in d; [lia | lia | lia]).
  assert (Hcm : 4 * m <= c) by (unfold m; pose proof (Z.mul_div_le c 4); lia).
  assert (H1 : 4 * 2 ^ (d - 1 + (e - b)) <= c * 2 ^ (e - b)).
  { rewrite Z.pow_add_r, Z.mul_assoc by lia. apply Z.mul_le_mono_nonneg_r; [apply Z.lt_le_incl, pow_pos; lia | lia]. }
  assert (H2 : c' * 2 ^ (e' - b) < 4 * 2 ^ (d' + (e' - b))).
  { rewrite Z.pow_add_r, Z.mul_assoc by lia. apply Z.mul_lt_mono_pos_r; [apply pow_pos; lia | done]. }
  assert (2 ^ (d' + (e' - b)) <= 2 ^ (d - 1 + (e - b))) by (apply Z.pow_le_mono_r; lia). lia.
Qed.

Lemma rounded_mono c e c' e' b :
  0 <= c -> 0 <= c' -> aligned c e -> aligned c' e' -> b <= e -> b <= e' ->
  c * 2 ^ (e - b) <= c' * 2 ^ (e' - b) -> rounded c e <= rounded c' e'.
Proof.
  intros Hc Hc' Ha Ha' Hb Hb' Hle. pose proof (rexp_mono c e c' e' b Hc Hc' Ha Hb Hb' Hle) as Hq.
  unfold rounded. apply Z.min_le_compat_r. destruct (nearest_range c e Hc Ha) as [Hn _]. destruct (nearest_range c' e' Hc' Ha') as [Hn' Hf'].
  destruct (Z.eq_dec (rexp c e) (rexp c' e')) as [E|Hne].
  - unfold aligned in *. unfold nearest. rewrite <- (steps_scaled (rexp c e - e) (e - b)), <- (steps_scaled (rexp c' e' - e') (e' - b)) by lia.
    replace (rexp c e - e + (e - b)) with (rexp c' e' - b) by lia. replace (rexp c' e' - e' + (e' - b)) with (rexp c' e' - b) by lia.
    rewrite E. pose proof (pow_pos (e - b) ltac:(lia)).
    apply Z.mul_le_mono_nonneg_r; [apply Z.lt_le_incl, pow_pos; unfold rexp; lia|]. apply rne_mono. split; [apply steps_nonneg; nia|].
    apply steps_mono. nia.
  - assert (Hlow : -149 <= rexp c e) by (unfold rexp; lia). destruct Hf' as [?|Hf']; [lia|].
    transitivity (2 ^ 24 * 2 ^ (rexp c e + 149)); [apply Z.mul_le_mono_nonneg_r; [apply Z.lt_le_incl, pow_pos|]; lia|].
    transitivity (2 ^ 23 * 2 ^ (rexp c' e' + 149)); [|apply Z.mul_le_mono_nonneg_r; [apply Z.lt_le_incl, pow_pos|]; lia].
    rewrite <- !Z.pow_add_r by lia. apply Z.pow_le_mono_r; lia.
Qed.

Lemma rounded_eq c e c' e' b :
  0 <= c -> 0 <= c' -> aligned c e -> aligned c' e' -> b <= e -> b <= e' ->
  c * 2 ^ (e - b) = c' * 2 ^ (e' - b) -> rounded c e = rounded c' e'.
Proof. intros. apply Z.le_antisymm; apply (rounded_mono _ _ _ _ b); done || lia. Qed.

Lemma rounded_nonneg c e : 0 <= c -> aligned c e -> 0 <= rounded c e.
Proof.
  intros Hc Ha. destruct (nearest_range c e Hc Ha) as [[H0 _] _]. unfold rounded, TOP.
  apply Z.min_glb; [|done]. apply Z.mul_nonneg_nonneg; [done|]. apply Z.lt_le_incl, pow_pos. unfold rexp. lia.
Qed.

(** * Integer values *)

Definition RN (v : Z) : Z := rounded (4 * v) (-149).
Definition RZ (v : Z) : Z := if v <? 0 then - RN (- v) else RN v.

Lemma aligned_low c : aligned c (-149).
Proof. unfold aligned, rexp. lia. Qed.

Lemma RN_mono v v' : 0 <= v <= v' -> RN v <= RN v'.
Proof. intros H. apply (rounded_mono _ _ _ _ (-149)); try apply aligned_low; rewrite ?Z.sub_diag; lia. Qed.

Lemma RN_nonneg v : 0 <= v -> 0 <= RN v.
Proof. intros H. apply rounded_nonneg; [lia | apply aligned_low]. Qed.

Lemma RZ_mono v v' : v <= v' -> RZ v <= RZ v'.
Proof.
  intros H. unfold RZ. destruct (Z.ltb_spec v 0), (Z.ltb_spec v' 0).
  - pose proof (RN_mono (- v') (- v)). lia.
  - pose proof (RN_nonneg (- v)). pose proof (RN_nonneg v'). lia.
  - lia.
  - apply RN_mono. lia.
Qed.

Lemma quarter m : 4 * m / 4 = m.
Proof. rewrite Z.mul_comm. by apply Z.div_mul. Qed.

Lemma digits_shift p k : 0 <= k -> Zdigits2 (Zpos p * 2 ^ k) = Zdigits2 (Zpos p) + k.
Proof.
  intros Hk. pose proof (pow_pos k Hk) as Hp. destruct (Zpos p * 2 ^ k) as [|x|x] eqn:E; [lia | | lia]. cbn [Zdigits2].
  rewrite !digits2_log2, <- E, Z.log2_mul_pow2 by lia. lia.
Qed.

Lemma RN_number m e : normal_pair m e -> RN (m * 2 ^ (e + 149)) = m * 2 ^ (e + 149).
Proof.
  intros Hp. pose proof (pair_top m e Hp) as Ht. destruct Hp as (He & Hm & Hf). unfold RN, rounded, nearest, rexp. rewrite quarter.
  destruct m as [|p|p]; [lia | | lia]. rewrite digits_shift by lia.
  assert (Hd : Zdigits2 (Zpos p) <= 24) by (apply digits2_bound; lia).
  assert (Hq : Z.max (Zdigits2 (Zpos p) + (e + 149) + -149 - 24) (-149) = e).
  { destruct Hf as [->|Hf]; [lia|]. pose proof (digits_low (Zpos p) ltac:(lia)) as [_ Hlt]. pose proof (digits_nonneg (Zpos p)).
    assert (23 < Zdigits2 (Zpos p)) by (apply (Z.pow_lt_mono_r_iff 2); lia). lia. }
  rewrite Hq. replace (e - -149) with (0 + (e + 149)) by lia. rewrite Z.mul_assoc, steps_scaled by lia.
  change (steps 0 ?c) with c. rewrite rne_exact. lia.
Qed.

Lemma round_val s p e :
  -149 <= e ->
  number (binary_round f32_precision f32_emax s p e) /\
  val (binary_round f32_precision f32_emax s p e) = signed s (RN (Zpos p * 2 ^ (e + 149))).
Proof.
  intros He. unfold binary_round. rewrite fexp32. set (q := Z.max (Zpos (digits2_pos p) + e - 24) (-149)).
  destruct (shl_align p e q) as [mz ez] eqn:E. apply shl_align_value in E as [Hez Hmz].
  assert (Hez' : -149 <= ez) by lia.
  assert (Hc : code (shr_record_of_loc (Zpos mz) loc_Exact) = 4 * Zpos mz) by (unfold code; cbn; lia).
  assert (Ha : aligned (4 * Zpos mz) ez).
  { unfold aligned, rexp. rewrite quarter, Hmz, digits_shift by lia. cbn [Zdigits2]. lia. }
  destruct (round_aux_val s (Zpos mz) ez loc_Exact) as [Hn Hv]; [lia | by rewrite Hc|]. split; [done|]. rewrite Hv, Hc. f_equal.
  apply (rounded_eq _ _ _ _ (-149)); [lia | pose proof (pow_pos (e + 149)); lia | done | apply aligned_low | lia | lia|].
  rewrite Hmz. replace (e + 149) with ((e - ez) + (ez - -149)) by lia. rewrite (Z.pow_add_r 2 (e - ez)) by lia. cbn [Z.sub Z.opp Z.add Z.pos_sub]. lia.
Qed.

Lemma normalize_val m e s :
  -149 <= e ->
  number (binary_normalize f32_precision f32_emax m e s) /\
  val (binary_normalize f32_precision f32_emax m e s) = RZ (m * 2 ^ (e + 149)).
Proof.
  intros He. pose proof (pow_pos (e + 149) ltac:(lia)) as Hp. unfold RZ. destruct m as [|p|p]; cbn [binary_normalize].
  - split; [done|]. done.
  - destruct (round_val false p e He) as [Hn ->]. split; [done|]. destruct (Z.ltb_spec (Zpos p * 2 ^ (e + 149)) 0); [lia | done].
  - destruct (round_val true p e He) as [Hn ->]. split; [done|]. destruct (Z.ltb_spec (Zneg p * 2 ^ (e + 149)) 0); [|lia].
    cbn [signed]. do 2 f_equal. lia.
Qed.

(** * The operations *)

Definition finite (x : f32) : Prop := number x /\ f32_is_finite x = true.

Lemma RZ_val x : finite x -> RZ (val x) = val x.
Proof.
  intros [Hn Hf]. destruct x as [s| | |[] m e]; try done; cbn [val signed]; pose proof (pair_top _ _ Hn) as Ht; unfold RZ.
  - destruct (Z.ltb_spec (- (Zpos m * 2 ^ (e + 149))) 0); [|lia]. by rewrite Z.opp_involutive, (RN_number _ _ Hn).
  - destruct (Z.ltb_spec (Zpos m * 2 ^ (e + 149)) 0); [lia|]. exact (RN_number _ _ Hn).
Qed.

Lemma signed_shift s m e ez :
  ez <= e -> -149 <= ez -> cond_Zopp s (Zpos (shl_align m e ez).1) * 2 ^ (ez + 149) = signed s (Zpos m * 2 ^ (e + 149)).
Proof.
  intros H H'. destruct (shl_align m e ez) as [m' e'] eqn:E. apply shl_align_value in E as [He Hm]. cbn [fst]. rewrite Hm.
  replace e' with ez by lia. replace (e + 149) with ((e - ez) + (ez + 149)) by lia. rewrite (Z.pow_add_r 2 (e - ez)) by lia.
  destruct s; cbn [cond_Zopp signed]; lia.
Qed.

Lemma add_val x y : finite x -> finite y -> number (f32_add x y) /\ val (f32_add x y) = RZ (val x + val y).
Proof.
  intros Hx Hy. destruct x as [sx| | |sx mx ex] eqn:Ex, y as [sy| | |sy my ey] eqn:Ey; try by destruct Hx, Hy.
  - split; by destruct sx, sy.
  - split; [apply Hy|]. change (val (S754_zero sx)) with 0. rewrite Z.add_0_l, RZ_val by done. done.
  - split; [apply Hx|]. change (val (S754_zero sy)) with 0. rewrite Z.add_0_r, RZ_val by done. done.
  - destruct Hx as [([Hex _] & _) _], Hy as [([Hey _] & _) _]. unfold f32_add, SFadd.
    destruct (normalize_val (cond_Zopp sx (Zpos (shl_align mx ex (Z.min ex ey)).1)
      + cond_Zopp sy (Zpos (shl_align my ey (Z.min ex ey)).1)) (Z.min ex ey) false) as [Hn Hv]; [lia|].
    split; [exact Hn|]. rewrite Hv, Z.mul_add_distr_r, !signed_shift by lia. done.
Qed.

Lemma add_mono x y z : finite x -> finite y -> finite z -> val x <= val y -> val (f32_add x z) <= val (f32_add y z).
Proof. intros Hx Hy Hz H. destruct (add_val x z Hx Hz) as [_ ->], (add_val y z Hy Hz) as [_ ->]. apply RZ_mono. lia. Qed.

Lemma add_mono_both x y z w :
  finite x -> finite y -> finite z -> finite w -> val x <= val y -> val z <= val w -> val (f32_add x z) <= val (f32_add y w).
Proof. intros Hx Hy Hz Hw H H'. destruct (add_val x z Hx Hz) as [_ ->], (add_val y w Hy Hw) as [_ ->]. apply RZ_mono. lia. Qed.

(** Adding something that is not negative does not make a number smaller. *)
Lemma add_above x z : finite x -> finite z -> 0 <= val z -> val x <= val (f32_add x z).
Proof. intros Hx Hz H. destruct (add_val x z Hx Hz) as [_ ->]. rewrite <- (RZ_val x Hx) at 1. apply RZ_mono. lia. Qed.

(** A sum is finite if a finite number is above its value and another one below. *)
Lemma finite_between x : number x -> - TOP < val x < TOP -> finite x.
Proof. intros Hn Hv. split; [done|]. destruct x as [|[]| |]; cbn in *; unfold TOP in *; try done; lia. Qed.

(** ** Products *)

(** A full mantissa. *)
Definition full (x : f32) : Prop := match x with S754_finite false m e => normal_pair (Zpos m) e /\ 2 ^ 23 <= Zpos m | _ => False end.

Lemma digits_full m : 2 ^ 23 <= m -> 24 <= Zdigits2 m.
Proof.
  intros H. pose proof (digits_low m ltac:(lia)) as [_ Hlt]. pose proof (digits_nonneg m ltac:(lia)).
  assert (23 < Zdigits2 m) by (apply (Z.pow_lt_mono_r_iff 2); lia). lia.
Qed.

Definition product (m e m' e' : Z) : Z := rounded (4 * (m * m')) (e + e').

Lemma product_aligned m e m' e' : 2 ^ 23 <= m -> 0 < m' -> aligned (4 * (m * m')) (e + e').
Proof. intros Hm Hm'. pose proof (digits_full (m * m') ltac:(nia)). unfold aligned, rexp. rewrite quarter. lia. Qed.

Lemma mul_val c x : full c -> finite x -> 0 <= val x ->
  number (f32_mul c x) /\
  val (f32_mul c x) = match c, x with S754_finite _ m e, S754_finite _ m' e' => product (Zpos m) e (Zpos m') e' | _, _ => 0 end.
Proof.
  intros Hc [Hx Hf] Hv. destruct c as [| | |[] m e]; try done. destruct Hc as [Hc Hm].
  destruct x as [s| | |s m' e']; try done. pose proof (pair_top _ _ Hx) as Ht.
  assert (s = false) as -> by (destruct s; [cbn [val signed] in Hv; lia | done]). unfold f32_mul, SFmul. cbn [xorb].
  assert (E : code (shr_record_of_loc (Zpos (m * m')) loc_Exact) = 4 * (Zpos m * Zpos m')) by (unfold code; cbn; lia).
  destruct (round_aux_val false (Zpos (m * m')) (e + e') loc_Exact) as [Hn Hv']; [lia | rewrite E; by apply product_aligned|].
  split; [done|]. rewrite Hv', E. done.
Qed.

Lemma mul_nonneg c x : full c -> finite x -> 0 <= val x -> 0 <= val (f32_mul c x).
Proof.
  intros Hc Hx Hv. destruct (mul_val c x Hc Hx Hv) as [_ ->]. destruct c as [| | |s m e]; try done. destruct x as [| | |s' m' e']; try done.
  destruct s; [done|]. destruct Hc as [_ Hm]. apply rounded_nonneg; [lia | by apply product_aligned].
Qed.

Lemma mul_mono c x y : full c -> finite x -> finite y -> 0 <= val x <= val y -> val (f32_mul c x) <= val (f32_mul c y).
Proof.
  intros Hc Hx Hy [Hv Hle]. pose proof (mul_nonneg c y Hc Hy ltac:(lia)) as H0.
  destruct (mul_val c x Hc Hx Hv) as [_ Ex]. destruct (mul_val c y Hc Hy ltac:(lia)) as [_ Ey]. rewrite Ex.
  destruct c as [| | |[] m e]; try done. destruct Hc as [_ Hm]. destruct x as [| | |s1 m1 e1]; try done. rewrite Ey.
  destruct Hx as [Hx _], Hy as [Hy Hfy]. pose proof (pair_top _ _ Hx) as Hp1. destruct y as [| | |s2 m2 e2].
  - cbn [val] in Hle. destruct s1; cbn [val signed] in *; lia.
  - done.
  - done.
  - pose proof (pair_top _ _ Hy) as Hp2.
    assert (s1 = false /\ s2 = false) as [-> ->] by (destruct s1, s2; cbn [val signed] in *; split; done || lia).
    destruct Hx as ([He1 _] & _), Hy as ([He2 _] & _). apply (rounded_mono _ _ _ _ (e - 149)); [lia | lia | by apply product_aligned.. | lia | lia|].
    replace (e + e1 - (e - 149)) with (e1 + 149) by lia. replace (e + e2 - (e - 149)) with (e2 + 149) by lia. cbn [val signed] in Hle.
    rewrite !(Z.mul_assoc 4), <- !Z.mul_assoc. apply Z.mul_le_mono_nonneg_l; [lia|]. apply Z.mul_le_mono_nonneg_l; lia.
Qed.

(** ** Quotients *)

Lemma new_location_code q d r :
  0 < d -> 0 <= r < d -> 0 <= q ->
  let c := code (shr_record_of_loc q (new_location d r)) in
  c / 4 = q /\ 4 * q <= c <= 4 * q + 3 /\ (r = 0 -> c = 4 * q).
Proof.
  intros Hd Hr Hq c. assert (Hc : exists u v, c = 4 * q + 2 * Z.b2z u + Z.b2z v).
  { unfold c, code. rewrite shr_record_m. eauto. }
  split; [|split].
  - destruct Hc as (u & v & ->). apply code_split.
  - destruct Hc as (u & v & ->). destruct u, v; cbn; lia.
  - intros ->. unfold c, new_location, new_location_even, new_location_odd. destruct (Z.even d); unfold code; cbn; lia.
Qed.

(** The quotient has as many digits as rounding needs. *)
Lemma quotient_digits p k m2 : 0 <= k -> 0 < m2 -> Zdigits2 (Zpos p) + k - Zdigits2 m2 <= Zdigits2 (Zpos p * 2 ^ k / m2).
Proof.
  intros Hk Hm2. pose proof (pow_pos k Hk) as Hpk. set (j := Zdigits2 (Zpos p) + k - Zdigits2 m2).
  assert (Hq : 0 <= Zpos p * 2 ^ k / m2) by (apply Z.div_pos; lia).
  destruct (Z.leb_spec j 0); [pose proof (digits_nonneg _ Hq); lia|].
  pose proof (digits_low (Zpos p) ltac:(lia)) as [Hl _]. pose proof (digits_low m2 Hm2) as [_ Hm]. pose proof (digits_nonneg m2 ltac:(lia)) as Hd2.
  assert (Hge : 2 ^ (j - 1) <= Zpos p * 2 ^ k / m2).
  { apply Z.div_le_lower_bound; [done|]. transitivity (2 ^ Zdigits2 m2 * 2 ^ (j - 1)); [apply Z.mul_le_mono_nonneg_r; [apply Z.lt_le_incl, pow_pos|]; lia|].
    rewrite <- Z.pow_add_r by lia. transitivity (2 ^ (Zdigits2 (Zpos p) - 1) * 2 ^ k); [|apply Z.mul_le_mono_nonneg_r; lia].
    assert (0 < Zdigits2 (Zpos p)) by (cbn; lia). rewrite <- Z.pow_add_r by lia. apply Z.pow_le_mono_r; lia. }
  pose proof (digits_below _ Hq) as Hlt. pose proof (digits_nonneg _ Hq).
  assert (j - 1 < Zdigits2 (Zpos p * 2 ^ k / m2)) by (apply (Z.pow_lt_mono_r_iff 2); lia). lia.
Qed.

(** The quotient of two mantissas: aligned, and at most [2 ^ k] if the first is at most [2 ^ k] times the second. *)
Lemma div_core m1 e1 m2 e2 q e l k :
  0 <= k -> SFdiv_core_binary f32_precision f32_emax (Zpos m1) e1 (Zpos m2) e2 = (q, e, l) ->
  let c := code (shr_record_of_loc q l) in
  0 <= q /\ aligned c e /\ (-149 <= e1 -> -149 <= e2 -> Zpos m1 * 2 ^ (e1 + 149) <= 2 ^ k * (Zpos m2 * 2 ^ (e2 + 149)) -> e <= k /\ c <= 4 * 2 ^ (k - e)).
Proof.
  intros Hk. unfold SFdiv_core_binary. rewrite fexp32. set (d := Zdigits2 (Zpos m1) + e1 - (Zdigits2 (Zpos m2) + e2)).
  set (e' := Z.min (Z.max (d - 24) (-149)) (e1 - e2)). set (s := e1 - e2 - e').
  assert (Hs : 0 <= s) by lia.
  assert (Em : match s with 0 => Zpos m1 | Zpos _ => Z.shiftl (Zpos m1) s | Zneg _ => 0 end = Zpos m1 * 2 ^ s).
  { destruct s as [|n|n] eqn:E; [lia | by rewrite Z.shiftl_mul_pow2 | lia]. }
  rewrite Em. pose proof (Z_div_mod (Zpos m1 * 2 ^ s) (Zpos m2) ltac:(lia)) as Hdm.
  pose proof (quotient_digits m1 s (Zpos m2) Hs ltac:(lia)) as Hdig. unfold Z.div in Hdig.
  destruct (Z.div_eucl (Zpos m1 * 2 ^ s) (Zpos m2)) as [q' r] eqn:Eq. destruct Hdm as [Hsplit Hr]. intros [= <- <- <-].
  pose proof (pow_pos s Hs) as Hps. assert (Hq : 0 <= q') by nia.
  destruct (new_location_code q' (Zpos m2) r ltac:(lia) Hr Hq) as (Hc4 & Hcb & Hc0). split; [done|]. split.
  - unfold aligned, rexp. rewrite Hc4. unfold d in *. lia.
  - intros He1 He2 Hle. assert (Hd : d <= k).
    { apply Z.nlt_ge. intros Hd. pose proof (digits_low (Zpos m1) ltac:(lia)) as [Hl _]. pose proof (digits_low (Zpos m2) ltac:(lia)) as [_ Hu].
      assert (0 < Zdigits2 (Zpos m1) /\ 0 < Zdigits2 (Zpos m2)) as [Hd1 Hd2] by (cbn; lia).
      assert (2 ^ (Zdigits2 (Zpos m1) - 1) * 2 ^ (e1 + 149) < 2 ^ k * (2 ^ Zdigits2 (Zpos m2) * 2 ^ (e2 + 149))).
      { eapply Z.le_lt_trans; [|eapply Z.le_lt_trans; [exact Hle|]].
        - apply Z.mul_le_mono_nonneg_r; [apply Z.lt_le_incl, pow_pos; lia | done].
        - apply Z.mul_lt_mono_pos_l; [by apply pow_pos|]. apply Z.mul_lt_mono_pos_r; [apply pow_pos; lia | done]. }
      rewrite <- !Z.pow_add_r in H by lia. apply Z.pow_lt_mono_r_iff in H; [|lia..]. unfold d in Hd. lia. }
    assert (He' : e' <= k) by lia. split; [done|].
    assert (Hle' : Zpos m1 * 2 ^ s <= Zpos m2 * 2 ^ (k - e')).
    { apply (Z.mul_le_mono_pos_r _ _ (2 ^ (e2 + 149 + 1000 + e'))); [apply pow_pos; unfold e'; lia|].
      assert (Hx : 0 <= e2 + 149 + 1000 + e') by (unfold e'; lia).
      rewrite <- !Z.mul_assoc, <- !Z.pow_add_r by lia. replace (s + (e2 + 149 + 1000 + e')) with ((e1 + 149) + 1000) by lia.
      replace (k - e' + (e2 + 149 + 1000 + e')) with (k + (e2 + 149) + 1000) by lia.
      rewrite (Z.pow_add_r 2 (e1 + 149)), (Z.pow_add_r 2 (k + _)), (Z.pow_add_r 2 k), !Z.mul_assoc by lia.
      apply Z.mul_le_mono_nonneg_r; [apply Z.lt_le_incl, pow_pos; lia|]. lia. }
    generalize dependent (2 ^ (k - e')). intros. destruct (Z.eq_dec r 0) as [->|Hr0]; [rewrite (Hc0 eq_refl); nia|].
    assert (q' < z) by (apply (Z.mul_lt_mono_pos_l (Zpos m2)); lia). lia.
Qed.

Lemma val_one : val f32_one = 2 ^ 149.
Proof. vm_compute. reflexivity. Qed.

Lemma finite_one : finite f32_one.
Proof. split; [|done]. vm_compute. intuition discriminate. Qed.

Lemma RN_power k : 0 <= k <= 100 -> RN (2 ^ (149 + k)) = 2 ^ (149 + k).
Proof.
  intros Hk. replace (149 + k) with (23 + (k - 23 + 149)) by lia. rewrite Z.pow_add_r by lia. apply RN_number. split_and!; lia.
Qed.

Lemma rounded_power c e k : 0 <= k <= 100 -> 0 <= c -> aligned c e -> e <= k -> c <= 4 * 2 ^ (k - e) -> rounded c e <= 2 ^ (149 + k).
Proof.
  intros Hk Hc Ha He Hle. rewrite <- RN_power by done.
  apply (rounded_mono _ _ _ _ (Z.min e (-149))); [done | lia | done | apply aligned_low | lia | lia|].
  set (b := Z.min e (-149)).
  transitivity (4 * 2 ^ (k - e) * 2 ^ (e - b)); [apply Z.mul_le_mono_nonneg_r; [apply Z.lt_le_incl, pow_pos; lia | done]|].
  rewrite <- !Z.mul_assoc, <- !Z.pow_add_r by lia. replace (k - e + (e - b)) with (149 + k + (-149 - b)) by lia. lia.
Qed.

(** A quotient is a number, unless the operands have none. *)
Lemma div_number x y : number (f32_div x y) \/ f32_is_nan (f32_div x y) = true.
Proof.
  destruct x as [| | |sx mx ex], y as [| | |sy my ey]; try (by left); try (by right). left. unfold f32_div, SFdiv.
  destruct (SFdiv_core_binary f32_precision f32_emax (Zpos mx) ex (Zpos my) ey) as [[q e] l] eqn:E.
  destruct (div_core _ _ _ _ _ _ _ 0 ltac:(lia) E) as (Hq & Ha & _). by apply round_aux_val.
Qed.

(** The size and the sign of a quotient. *)
Lemma div_val x y k :
  0 <= k <= 100 -> finite x -> finite y -> val y <> 0 ->
  number (f32_div x y) /\ (Z.abs (val x) <= 2 ^ k * Z.abs (val y) -> Z.abs (val (f32_div x y)) <= 2 ^ (149 + k)) /\
  (0 <= val x -> 0 < val y -> 0 <= val (f32_div x y)).
Proof.
  intros Hk [Hx Hfx] [Hy Hfy] Hne. destruct y as [sy| | |sy my ey]; try done.
  destruct x as [sx| | |sx mx ex]; try done; [split_and!; [done | cbn; intros; apply Z.lt_le_incl, pow_pos; lia | done]|].
  unfold f32_div, SFdiv. destruct (SFdiv_core_binary f32_precision f32_emax (Zpos mx) ex (Zpos my) ey) as [[q e] l] eqn:E.
  destruct (div_core _ _ _ _ _ _ _ k ltac:(lia) E) as (Hq & Ha & Hone). destruct (round_aux_val (xorb sx sy) q e l Hq Ha) as [Hn ->].
  assert (Hc : 0 <= code (shr_record_of_loc q l)) by (unfold code; rewrite shr_record_m; destruct (shr_r _), (shr_s _); cbn; lia).
  pose proof (rounded_nonneg _ _ Hc Ha) as H0. pose proof (pair_top _ _ Hx) as Hpx. pose proof (pair_top _ _ Hy) as Hpy.
  split; [done|]. split.
  - intros Hle. assert (Hle' : Zpos mx * 2 ^ (ex + 149) <= 2 ^ k * (Zpos my * 2 ^ (ey + 149))).
    { replace (Z.abs (val (S754_finite sx mx ex))) with (Zpos mx * 2 ^ (ex + 149)) in Hle by (destruct sx; cbn [val signed]; lia).
      by replace (Z.abs (val (S754_finite sy my ey))) with (Zpos my * 2 ^ (ey + 149)) in Hle by (destruct sy; cbn [val signed]; lia). }
    destruct Hx as ([Hex _] & _), Hy as ([Hey _] & _). destruct (Hone Hex Hey Hle') as [H1 H2].
    pose proof (rounded_power _ _ k Hk Hc Ha H1 H2). destruct (xorb sx sy); cbn [signed]; lia.
  - intros H1 H2. destruct sx, sy; cbn [val signed xorb] in *; lia.
Qed.

Lemma of_integer_val n : Z.abs n < 2 ^ 100 -> finite (f32_of_integer n) /\ val (f32_of_integer n) = RZ (n * 2 ^ 149).
Proof.
  intros Hn. destruct (normalize_val n 0 false ltac:(lia)) as [Hnum Hv]. split; [|exact Hv]. split; [exact Hnum|].
  apply (small_finite 101). apply (normalize_small 100); [lia | lia|]. by rewrite Z.sub_0_r.
Qed.

Lemma of_integer_nonneg n : 0 <= n < 2 ^ 100 -> finite (f32_of_integer n) /\ 0 <= val (f32_of_integer n).
Proof.
  intros Hn. destruct (of_integer_val n ltac:(lia)) as [Hf ->]. split; [done|]. unfold RZ.
  destruct (Z.ltb_spec (n * 2 ^ 149) 0); [lia|]. apply RN_nonneg. lia.
Qed.

(** ** Clamping *)

Lemma val_lt x y : number x -> number y -> f32_lt x y = true <-> val x < val y.
Proof.
  intros Hx Hy. rewrite f32_lt_key, (key_lt_val x y) by done. pose proof (number_nan x Hx). pose proof (number_nan y Hy). tauto.
Qed.

Lemma clamp_val x lo hi :
  number x -> number lo -> number hi -> val lo <= val hi ->
  number (f32_clamp x lo hi) /\ val (f32_clamp x lo hi) = Z.max (val lo) (Z.min (val x) (val hi)).
Proof.
  intros Hx Hl Hh Hle. unfold f32_clamp. pose proof (val_lt x lo Hx Hl) as H1. destruct (f32_lt x lo) eqn:E1.
  - pose proof (val_lt hi lo Hh Hl) as H2. destruct (f32_lt hi lo) eqn:E2; [assert (val hi < val lo) by (by apply H2); lia|].
    split; [done|]. assert (val x < val lo) by (by apply H1). lia.
  - assert (~ val x < val lo) by (rewrite <- H1; done). pose proof (val_lt hi x Hh Hx) as H2. destruct (f32_lt hi x) eqn:E2.
    + split; [done|]. assert (val hi < val x) by (by apply H2). lia.
    + split; [done|]. assert (~ val hi < val x) by (rewrite <- H2; done). lia.
Qed.
