(* ===== verification/Query.v ===== *)
(** The query engine of [crikey-query/src/lib.rs]: normalisation and aliases,
    presence masks, prepared labels with their offset map and word ranges, the
    word-prefix decomposition, and the matcher with its scores and highlights.

    Strings are lists of scalar values; a position is a byte offset, and slicing
    at a byte offset succeeds exactly on a character boundary ([split_at]).  A
    slice that would panic is [None] in the functions that take one.  Scores are
    binary32 numbers.

    Normalisation (NFKC and full case folding) and the general category of a
    character come from third-party crates, the classification of characters
    from the Unicode tables of the standard library; they are the fields of the
    class [Unicode].  The grid of the word-prefix decomposition, one flat buffer
    in the code, is the list of its rows. *)

From Stdlib Require Import SpecFloat.
From S2P Require Import Prelude Text StdFloat.

(** * Strings by byte offsets *)

Definition char_width (c : Z) : Z := len (utf8_char c).

(** [str::len]. *)
Definition byte_len (t : text) : Z := len (utf8 t).

(** The two parts of a string at a byte offset, if it is a boundary. *)
Fixpoint split_at (t : text) (n : Z) : option (text * text) :=
  if n =? 0 then Some ([], t)
  else
    match t with
    | [] => None
    | c :: t' =>
        if n <? char_width c then None
        else '(before, after) ← split_at t' (n - char_width c); Some (c :: before, after)
    end.

(** [str::get(a..b)]. *)
Definition str_get (t : text) (a b : Z) : option text :=
  '(_, rest) ← split_at t a; fst <$> split_at rest (b - a).

(** [str::find]: what comes before the first occurrence. *)
Fixpoint str_find (t pattern : text) : option text :=
  if starts_with t pattern then Some []
  else match t with [] => None | c :: t' => cons c <$> str_find t' pattern end.

Definition contains (t pattern : text) : bool := is_some (str_find t pattern).

(** [str::char_indices], from a byte offset on. *)
Fixpoint char_indices (from : Z) (t : text) : list (Z * Z) :=
  match t with [] => [] | c :: t' => (from, c) :: char_indices (from + char_width c) t' end.

Definition nonempty (t : text) : list text := match t with [] => [] | _ => [t] end.

(** [str::split_whitespace], with the characters of the word being read. *)
Fixpoint split_words (current t : text) : list text :=
  match t with
  | [] => nonempty current
  | c :: t' => if is_whitespace c then nonempty current ++ split_words [] t' else split_words (current ++ [c]) t'
  end.

Definition split_whitespace (t : text) : list text := split_words [] t.

Definition ascii_only (t : text) : bool := forallb (fun c => c <? 128) t.

Definition as_u32 (n : Z) : Z := n mod 4294967296.

(** * Unicode *)

Class Unicode := {
  (** [nfkc().case_fold().nfkc()]. *)
  normalize_text : text -> text;
  (** General categories [Mn], [Mc] and [Me]. *)
  general_mark : Z -> bool;
  is_alphanumeric : Z -> bool;
  is_alphabetic : Z -> bool;
  is_numeric : Z -> bool;
  is_lowercase : Z -> bool;
  is_uppercase : Z -> bool;
}.

(** * Data *)

Record NormalizedQuery := mkQueryText { raw : text; normalized : text; tokens : list text }.

Inductive MatchMethod : Type := ExactPrefix | Prefix | Substring | Fuzzy | WordPrefix | Keyword.
#[export] Instance MatchMethod_eq_dec : EqDecision MatchMethod.
Proof. solve_decision. Defined.

Inductive MatchPolicy : Type := Strict | Subsequence.
#[export] Instance MatchPolicy_eq_dec : EqDecision MatchPolicy.
Proof. solve_decision. Defined.

Abbreviation Span := (Z * Z)%type (only parsing).

Record MatchOutcome := mkOutcome { o_score : f32; o_method : MatchMethod; highlights : list Span }.

Record MatchSummary := mkSummary { s_score : f32; s_method : MatchMethod; match_position : option Z }.

(** The fields of [Item] the matcher reads. *)
Record SearchItem := mkSearchItem { label : text; description : text; search_terms : list text }.

Definition precedence (m : MatchMethod) : Z :=
  match m with
  | ExactPrefix => 0 | Prefix => 1 | WordPrefix => 2 | Substring => 3 | Keyword => 4 | Fuzzy => 5
  end.

(** One normalised character and the bytes it came from. *)
Record Mark := mkMark { norm : Z; src_start : Z; src_end : Z }.
#[export] Instance Mark_eq_dec : EqDecision Mark.
Proof. solve_decision. Defined.

Inductive OffsetMap : Type := Marks (marks : list Mark) (mapped_end : Z) | Unavailable.
#[export] Instance OffsetMap_eq_dec : EqDecision OffsetMap.
Proof. solve_decision. Defined.

Record PreparedLabel := mkPrepared {
  p_text : text;
  label_bytes : Z;
  p_map : option OffsetMap;
  char_len : Z;
  p_words : list (Z * Z);
}.
#[export] Instance PreparedLabel_eq_dec : EqDecision PreparedLabel.
Proof. solve_decision. Defined.

Definition MAX_RUN_BYTES : Z := 128.
Definition MAX_WORD_PREFIX_WORDS : Z := 8.
Definition MAX_WORD_PREFIX_TOKEN : Z := 12.
Definition WORD_SKIP_PENALTY : f32 := f32_literal 6 1.

Section Normalisation.
Context {U : Unicode}.

(** * Normalisation and aliases *)

Definition normalize (raw : text) : NormalizedQuery :=
  let normalized := normalize_text raw in
  mkQueryText raw normalized (split_whitespace normalized).

Definition push_normalized (raw out : text) : text := out ++ normalize_text raw.

(** An item field; ASCII is lowercased directly. *)
Definition normalize_field (raw : text) : text :=
  if ascii_only raw
  then if existsb (fun c => (65 <=? c) && (c <=? 90)) raw then map ascii_lower raw else raw
  else normalize_text raw.

(** The [BTreeMap] of the aliases. *)
Record AliasTable := mkAliases { alias_entries : gmap text (list text) }.

(** The entry a pair of texts makes, if it can ever fire. *)
Definition alias_entry (pair : text * text) : option (text * list text) :=
  match split_whitespace (normalize_text pair.1) with
  | [name] =>
      match split_whitespace (normalize_text pair.2) with
      | [] => None
      | tokens => Some (name, tokens)
      end
  | _ => None
  end.

(** Collecting into the map: a later entry of the same name wins. *)
Definition new_aliases (pairs : list (text * text)) : AliasTable :=
  mkAliases (foldl (fun m entry => <[entry.1 := entry.2]> m) ∅ (omap alias_entry pairs)).

Definition alias_is_empty (t : AliasTable) : bool := bool_decide (alias_entries t = ∅).
Definition alias_len (t : AliasTable) : Z := Z.of_nat (size (alias_entries t)).

Definition expand (t : AliasTable) (q : NormalizedQuery) : NormalizedQuery :=
  if alias_is_empty t || bool_decide (tokens q = []) then q
  else if negb (existsb (fun token => is_some (alias_entries t !! token)) (tokens q)) then q
  else
    let tokens :=
      mbind (fun token => match alias_entries t !! token with Some expansion => expansion | None => [token] end)
        (tokens q) in
    mkQueryText (raw q) (join [32] tokens) tokens.

(** * Presence masks *)

Definition DEDICATED_BITS : Z := 36.
Definition SHARED_BITS : Z := 64 - DEDICATED_BITS.

Definition wrapping_mul (x y : Z) : Z := (x * y) mod 4294967296.

Definition scramble (code : Z) : Z :=
  let hash := Z.lxor code 2654435769 in
  let hash := wrapping_mul hash 2246822507 in
  let hash := Z.lxor hash (Z.shiftr hash 13) in
  let hash := wrapping_mul hash 3266489909 in
  Z.lxor hash (Z.shiftr hash 16).

Definition char_bit (c : Z) : Z :=
  if (97 <=? c) && (c <=? 122) then Z.shiftl 1 (c - 97)
  else if (48 <=? c) && (c <=? 57) then Z.shiftl 1 (c - 48 + 26)
  else if is_whitespace c then 0
  else Z.shiftl 1 (DEDICATED_BITS + scramble c mod SHARED_BITS).

Definition presence_mask (t : text) : Z :=
  if ascii_only t
  then foldl (fun mask c => Z.lor mask (char_bit (ascii_lower c))) 0 t
  else foldl (fun mask c => Z.lor mask (char_bit c)) 0 (normalize_text t).

Definition push_searchable_field (out raw : text) : text :=
  match raw with
  | [] => out
  | _ =>
      let out := match out with [] => out | _ => out ++ [32] end in
      if ascii_only raw then out ++ normalize_field raw else push_normalized raw out
  end.

Definition searchable_text_with_label (item : SearchItem) : text * Z :=
  let out := push_searchable_field [] (label item) in
  let label_bytes := byte_len out in
  let out := push_searchable_field out (description item) in
  (foldl push_searchable_field out (search_terms item), label_bytes).

Definition searchable_text (item : SearchItem) : text := (searchable_text_with_label item).1.

(** * Words of a label *)

Definition is_mark (c : Z) : bool := negb (c <? 128) && general_mark c.

Definition is_word_char (c : Z) : bool := is_alphanumeric c || is_mark c.

Definition opens_word (previous : option Z) (current : Z) (next : option Z) : bool :=
  if negb (is_alphanumeric current) then false
  else
    match previous with
    | None => true
    | Some previous =>
        negb (is_word_char previous)
        || (is_lowercase previous && is_uppercase current)
        || (is_alphabetic previous && is_numeric current)
        || (is_numeric previous && is_alphabetic current)
        || (is_uppercase previous && is_uppercase current && is_some_and next is_lowercase)
    end.

(** One spare slot beyond the cap. *)
Definition word_capacity : Z := MAX_WORD_PREFIX_WORDS + 1.

(** How far a word goes on after its first character (ASCII). *)
Fixpoint word_extent (previous : Z) (t : text) : Z :=
  match t with
  | [] => 0
  | c :: t' =>
      if negb (is_alphanumeric c) || opens_word (Some previous) c (head t') then 0
      else 1 + word_extent c t'
  end.

(** The loop over an ASCII label; [skip] characters belong to the word recorded
    last. *)
Fixpoint ascii_words (label_len skip : Z) (previous : option Z) (index : Z) (t : text)
    (ranges : list (Z * Z)) : list (Z * Z) :=
  match t with
  | [] => ranges
  | c :: t' =>
      if 0 <? skip then ascii_words label_len (skip - 1) (Some c) (index + 1) t' ranges
      else if word_capacity <=? len ranges then ranges
      else if opens_word previous c (head t') then
        let stop := index + 1 + word_extent c t' in
        ascii_words label_len (stop - index - 1) (Some c) (index + 1) t'
          (if stop <=? label_len then ranges ++ [(as_u32 index, as_u32 stop)] else ranges)
      else ascii_words label_len 0 (Some c) (index + 1) t' ranges
  end.

Definition close_word (ranges : list (Z * Z)) (open : option Z) (stop : Z) : list (Z * Z) :=
  match open with Some start => ranges ++ [(start, stop)] | None => ranges end.

(** The first character of the raw text a mark came from; a bad range panics. *)
Definition mark_char (raw : text) (m : Mark) : option (option Z) :=
  slice ← str_get raw (src_start m) (src_end m); Some (head slice).

(** The loop over the marks of a label whose offsets were mapped. *)
Fixpoint marked_words (raw : text) (mapped_end : Z) (l : list Mark) (open previous : option Z)
    (ranges : list (Z * Z)) : option (list (Z * Z) * option Z) :=
  match l with
  | [] => Some (ranges, open)
  | m :: l' =>
      if mapped_end <=? norm m then Some (ranges, open)
      else
        current ← mark_char raw m;
        match current with
        | None => marked_words raw mapped_end l' open previous ranges
        | Some current =>
            next ← match l' with [] => Some None | following :: _ => mark_char raw following end;
            let norm_end := match l' with [] => mapped_end | following :: _ => norm following end in
            let opened := opens_word previous current next in
            let closing := opened || negb (is_word_char current) in
            let ranges := if closing then close_word ranges open (norm m) else ranges in
            if opened && (word_capacity <=? len ranges) then Some (ranges, None)
            else
              let open := if opened then Some (norm m) else if closing then None else open in
              match l' with
              | [] => marked_words raw mapped_end l' None (Some current) (close_word ranges open norm_end)
              | _ => marked_words raw mapped_end l' open (Some current) ranges
              end
        end
  end.

(** The loop over the folded text of a label too large to map. *)
Fixpoint folded_words (l : list (Z * Z)) (label_len : Z) (open : option Z) (ranges : list (Z * Z))
    : list (Z * Z) :=
  match l with
  | [] => match open with Some start => ranges ++ [(as_u32 start, as_u32 label_len)] | None => ranges end
  | (offset, current) :: l' =>
      if is_word_char current then
        folded_words l' label_len (match open with None => Some offset | _ => open end) ranges
      else
        match open with
        | Some start =>
            let ranges := ranges ++ [(as_u32 start, as_u32 offset)] in
            if word_capacity <=? len ranges then ranges else folded_words l' label_len None ranges
        | None => folded_words l' label_len None ranges
        end
  end.

Definition word_ranges (raw label : text) (map : option OffsetMap) : option (list (Z * Z)) :=
  ranges ←
    match map with
    | None => Some (ascii_words (byte_len label) 0 None 0 raw [])
    | Some (Marks marks mapped_end) =>
        '(ranges, open) ← marked_words raw mapped_end marks None None [];
        Some (if len ranges <? word_capacity then close_word ranges open mapped_end else ranges)
    | Some Unavailable => Some (folded_words (char_indices 0 label) (byte_len label) None [])
    end;
  Some (take (Z.to_nat word_capacity) ranges).

(** * Prepared labels *)

(** The loop of [align_marks].  The run that is open is [run], from byte
    [run_start] up to [index] of the raw text; [rest] is the normalised text from
    byte [cursor] on. *)
Fixpoint align_loop (run : text) (run_start index : Z) (rest : text) (cursor : Z) (marks : list Mark)
    (raw : text) : list Mark * Z :=
  match raw with
  | [] => (marks, as_u32 cursor)
  | c :: raw' =>
      let run_end := index + char_width c in
      let run := run ++ [c] in
      let scratch := push_normalized run [] in
      if starts_with rest scratch then
        let resolved :=
          map (fun ic => mkMark (as_u32 (cursor + ic.1)) (as_u32 run_start) (as_u32 run_end)) (char_indices 0 scratch) in
        align_loop [] run_end run_end (drop (length scratch) rest) (cursor + byte_len scratch) (marks ++ resolved) raw'
      else if MAX_RUN_BYTES <=? run_end - run_start then (marks, as_u32 cursor)
      else align_loop run run_start run_end rest cursor marks raw'
  end.

Definition align_marks (raw normalized : text) : list Mark * Z := align_loop [] 0 0 normalized 0 [] raw.

(** The constructor proper, for an offset that is a boundary. *)
Definition prepare (raw text_ : text) (bytes : Z) (label : text) : option PreparedLabel :=
  let map :=
    if ascii_only raw then None
    else if (byte_len raw <=? u32_max) && (byte_len label <=? u32_max)
    then let (marks, mapped_end) := align_marks raw label in Some (Marks marks mapped_end)
    else Some Unavailable in
  words ← word_ranges raw label map;
  Some (mkPrepared text_ bytes map (len label) words).

Definition new_prepared (raw : text) : option PreparedLabel :=
  let text_ := normalize_field raw in
  prepare raw text_ (byte_len text_) text_.

Definition from_searchable_text (raw text_ : text) (bytes : Z) : option PreparedLabel :=
  match split_at text_ bytes with
  | Some (label, _) => prepare raw text_ bytes label
  | None => new_prepared raw
  end.

(** [text[..label_bytes]]. *)
Definition normalized_label (p : PreparedLabel) : option text := fst <$> split_at (p_text p) (label_bytes p).

Definition keywords (p : PreparedLabel) : option text :=
  '(_, rest) ← split_at (p_text p) (label_bytes p);
  Some (match rest with 32 :: stripped => stripped | _ => rest end).

(** [partition_point]: the number of marks before an offset. *)
Fixpoint marks_before (l : list Mark) (offset : Z) : nat :=
  match l with [] => O | m :: l' => if norm m <? offset then S (marks_before l' offset) else O end.

Definition to_raw (p : PreparedLabel) (start stop : Z) : option Span :=
  if stop <=? start then None
  else
    match p_map p with
    | None => Some (start, stop)
    | Some Unavailable => None
    | Some (Marks marks mapped_end) =>
        if mapped_end <? stop then None
        else
          let first := marks_before marks start in
          let past := marks_before marks stop in
          if Nat.leb past first then None
          else
            from ← marks !! first;
            to ← marks !! (past - 1)%nat;
            if src_start from <? src_end to then Some (src_start from, src_end to) else None
    end.

(** * The word-prefix decomposition *)

(** [chars().by_ref().any(..)]: what follows the first occurrence. *)
Fixpoint seek (needle : Z) (haystack : text) : option text :=
  match haystack with [] => None | c :: rest => if c =? needle then Some rest else seek needle rest end.

Fixpoint is_ordered_subsequence (label token : text) : bool :=
  match token with
  | [] => true
  | needle :: token' =>
      match seek needle label with Some rest => is_ordered_subsequence rest token' | None => false end
  end.

Definition word_text (label : text) (range : Z * Z) : text := default [] (str_get label range.1 range.2).

Fixpoint second_later (words : list (Z * Z)) (label : text) (first second : Z) : bool :=
  match words with
  | [] => false
  | w :: ws =>
      if starts_with (word_text label w) [first]
      then existsb (fun w => starts_with (word_text label w) [second]) ws
      else second_later ws label first second
  end.

Definition may_decompose (words : list (Z * Z)) (label token : text) : bool :=
  match token with
  | first :: second :: _ =>
      existsb (fun w => match word_text label w with a :: b :: _ => (a =? first) && (b =? second) | _ => false end) words
      || second_later words label first second
  | _ => false
  end.

Fixpoint common_bytes (left right : list Z) : nat :=
  match left, right with
  | x :: left', y :: right' => if x =? y then S (common_bytes left' right') else O
  | _, _ => O
  end.

(** The largest boundary of [left] that is at most [length]. *)
Fixpoint floor_boundary (left : text) (length : nat) : Z :=
  match length with
  | O => 0
  | S length' => if is_some (split_at left (Z.of_nat length)) then Z.of_nat length else floor_boundary left length'
  end.

Definition common_prefix_len (left right : text) : Z := floor_boundary left (common_bytes (utf8 left) (utf8 right)).

(** Cell [n] of a row of the grid. *)
Definition cell (row : list f32) (n : Z) : f32 := default f32_neg_infinity (row !! Z.to_nat n).

Definition is_neg_infinity (x : f32) : bool := f32_eq x f32_neg_infinity.

(** The value of a chunk of [length] bytes and what follows it. *)
Definition chunk_value (word : text) (length : Z) (rest : f32) : f32 :=
  let whole_word := if length =? byte_len word then f32_one else f32_zero in
  f32_add (f32_add (f32_of_integer length) whole_word) rest.

Definition better (word : text) (next : list f32) (offset : Z) (best : f32) (length : Z) : f32 :=
  let rest := cell next (offset + length) in
  if is_neg_infinity rest then best
  else let value := chunk_value word length rest in if f32_lt best value then value else best.

(** The lengths [1..=reach]. *)
Definition lengths (reach : Z) : list Z := map Z.of_nat (seq 1 (Z.to_nat reach)).

(** The best value covering [token[offset..]] from this word on. *)
Definition grid_cell (token word : text) (next : list f32) (offset : Z) : f32 :=
  if offset =? byte_len token then f32_zero
  else
    match split_at token offset with
    | None => f32_neg_infinity
    | Some (_, rest) =>
        let skipped := cell next offset in
        let best := if is_neg_infinity skipped then f32_neg_infinity else f32_sub skipped WORD_SKIP_PENALTY in
        foldl (better word next offset) best (lengths (common_prefix_len rest word))
    end.

Definition offsets (token : text) : list Z := map Z.of_nat (seq 0 (S (Z.to_nat (byte_len token)))).

Definition base_row (token : text) : list f32 :=
  map (fun offset => if offset =? byte_len token then f32_zero else f32_neg_infinity) (offsets token).

(** One row per word and the base row. *)
Fixpoint grid_rows (token : text) (words : list text) : list (list f32) :=
  match words with
  | [] => [base_row token]
  | w :: ws =>
      let rows := grid_rows token ws in
      map (grid_cell token w (default [] (head rows))) (offsets token) :: rows
  end.

Definition word_prefix_into (words : list (Z * Z)) (label token : text) : option (list (list f32) * f32 * Z) :=
  let word_count := len words in
  if (byte_len token =? 0) || (word_count =? 0) || (MAX_WORD_PREFIX_WORDS <? word_count) then None
  else if MAX_WORD_PREFIX_TOKEN <? len token then None
  else
    let rows := grid_rows token (map (word_text label) words) in
    let value := cell (default [] (head rows)) 0 in
    if is_neg_infinity value then None else Some (rows, value, word_count).

(** * Scores *)

Definition band (m : MatchMethod) : f32 * f32 :=
  match m with
  | ExactPrefix => (f32_literal 90 2, f32_literal 100 2)
  | Prefix => (f32_literal 75 2, f32_literal 88 2)
  | WordPrefix => (f32_literal 60 2, f32_literal 73 2)
  | Substring => (f32_literal 45 2, f32_literal 58 2)
  | Keyword => (f32_literal 30 2, f32_literal 43 2)
  | Fuzzy => (f32_literal 5 2, f32_literal 17 2)
  end.

Definition unit_quality (value : f32) : f32 :=
  if f32_is_finite value then f32_clamp value f32_zero f32_one else f32_zero.

Definition ratio (numerator denominator : Z) : f32 :=
  if denominator =? 0 then f32_zero
  else unit_quality (f32_div (f32_of_integer numerator) (f32_of_integer denominator)).

Definition score_for (m : MatchMethod) (quality : f32) : f32 :=
  let (low, high) := band m in
  f32_clamp (f32_add low (f32_mul (f32_sub high low) (unit_quality quality))) low high.

Definition half : f32 := f32_literal 5 1.
Definition TOLERANCE : f32 := f32_literal 1 4.

(** [a * 0.5 + b * 0.5]. *)
Definition even_mix (a b : f32) : f32 := f32_add (f32_mul half a) (f32_mul half b).

(** * Highlights *)

Definition raw_character_position (label : text) (byte_offset : Z) : option Z :=
  '(prefix, _) ← split_at label byte_offset; Some (Z.min (len prefix) u32_max).

Definition valid_span (label : text) (s : Span) : bool := (s.1 <? s.2) && is_some (str_get label s.1 s.2).

Definition retain_valid_spans (label : text) (spans : list Span) : list Span := List.filter (valid_span label) spans.

Definition push_span (spans : list Span) (s : option Span) : list Span :=
  match s with Some s => spans ++ [s] | None => spans end.

(** The order of pairs. *)
Definition span_leb (a b : Span) : bool := (a.1 <? b.1) || ((a.1 =? b.1) && (a.2 <=? b.2)).
Definition span_le (a b : Span) : Prop := span_leb a b = true.
#[global] Instance span_le_dec : RelDecision span_le.
Proof. intros a b. unfold span_le. apply _. Defined.

(** [dedup_by] with the closure of [merge_spans]; [previous] is the element
    kept last. *)
Fixpoint coalesce (previous : Span) (l : list Span) : list Span :=
  match l with
  | [] => [previous]
  | current :: l' =>
      if previous.2 <? current.1 then previous :: coalesce current l'
      else coalesce (previous.1, if previous.2 <? current.2 then current.2 else previous.2) l'
  end.

Definition merge_spans (spans : list Span) : list Span :=
  match spans with
  | [] | [_] => spans
  | _ => match merge_sort span_le spans with [] => [] | first :: rest => coalesce first rest end
  end.

(** * Matching a token *)

(** The replay of the choices of the grid: how far the token is covered, the
    number of chunks, and the spans. *)
Fixpoint replay (p : PreparedLabel) (text_ token : text) (words : list (Z * Z)) (rows : list (list f32))
    (offset chunks : Z) (spans : list Span) : option (Z * Z * list Span) :=
  match words, rows with
  | (start, stop) :: words', row :: rows' =>
      if offset =? byte_len token then Some (offset, chunks, spans)
      else
        let word := word_text text_ (start, stop) in
        let expected := cell row offset in
        '(_, remaining) ← split_at token offset;
        let taken :=
          List.find
            (fun length =>
               let rest := cell (default [] (head rows')) (offset + length) in
               if is_neg_infinity rest then false
               else f32_lt (f32_abs (f32_sub (chunk_value word length rest) expected)) TOLERANCE)
            (lengths (common_prefix_len remaining word)) in
        match taken with
        | None => replay p text_ token words' rows' offset chunks spans
        | Some taken =>
            replay p text_ token words' rows' (offset + taken) (chunks + 1)
              (push_span spans (to_raw p start (start + taken)))
        end
  | _, _ => Some (offset, chunks, spans)
  end.

(** Every step returns the spans and the reading found; a panic is [None]. *)
Definition word_prefix_quality (p : PreparedLabel) (text_ token : text) (spans : list Span)
    : option (list Span * option f32) :=
  match word_prefix_into (p_words p) text_ token with
  | None => Some (spans, None)
  | Some (rows, value, word_count) =>
      '(offset, chunks, found) ← replay p text_ token (p_words p) rows 0 0 spans;
      if negb (offset =? byte_len token) || (chunks <? 2) then Some (spans, None)
      else
        let ideal := f32_add (f32_of_integer (len token)) (f32_of_integer word_count) in
        Some (found, Some (unit_quality (f32_div (f32_max value f32_zero) ideal)))
  end.

Definition match_label (p : PreparedLabel) (text_ token : text) (spans : list Span)
    : option (list Span * option (MatchMethod * f32)) :=
  let token_chars := len token in
  if starts_with text_ token then
    Some (push_span spans (to_raw p 0 (byte_len token)), Some (Prefix, ratio token_chars (char_len p)))
  else
    '(spans, words) ←
      (if may_decompose (p_words p) text_ token then word_prefix_quality p text_ token spans else Some (spans, None));
    match words with
    | Some quality => Some (spans, Some (WordPrefix, quality))
    | None =>
        match str_find text_ token with
        | Some before =>
            let at_ := byte_len before in
            let spans := push_span spans (to_raw p at_ (saturating_add usize_max at_ (byte_len token))) in
            let coverage := ratio token_chars (char_len p) in
            let position := f32_div f32_one (f32_of_integer (saturating_add usize_max (len before) 1)) in
            Some (spans, Some (Substring, even_mix coverage position))
        | None => Some (spans, None)
        end
    end.

(** The keyword fields, folded; the code folds them at most once per query. *)
Definition keyword_fields (item : SearchItem) : list text :=
  map normalize_field (search_terms item)
  ++ match description item with [] => [] | d => [normalize_field d] end.

Definition keyword_step (token : text) (state : f32 * bool) (field : text) : f32 * bool :=
  match str_find field token with
  | None => state
  | Some before =>
      let coverage := ratio (len token) (len field) in
      let quality :=
        if 0 <? byte_len before then f32_mul half coverage
        else if byte_len token =? byte_len field then f32_one
        else f32_add half (f32_mul half coverage) in
      (if f32_lt state.1 quality then quality else state.1, true)
  end.

Definition keyword_quality (fields : list text) (token : text) : option f32 :=
  let (best, found) := foldl (keyword_step token) (f32_zero, false) fields in
  if found : bool then Some best else None.

(** The haystack iterator: each character with its ordinal and byte offset. *)
Fixpoint ordinals (n : Z) (l : list (Z * Z)) : list (Z * (Z * Z)) :=
  match l with [] => [] | x :: l' => (n, x) :: ordinals (n + 1) l' end.

Fixpoint next_hit (needle : Z) (haystack : list (Z * (Z * Z)))
    : option ((Z * (Z * Z)) * list (Z * (Z * Z))) :=
  match haystack with
  | [] => None
  | x :: rest => if x.2.2 =? needle then Some (x, rest) else next_hit needle rest
  end.

Fixpoint subsequence_hits (p : PreparedLabel) (haystack : list (Z * (Z * Z))) (token : text)
    (first last matched : Z) (spans : list Span) : option (Z * Z * Z * list Span) :=
  match token with
  | [] => Some (first, last, matched, spans)
  | needle :: token' =>
      match next_hit needle haystack with
      | None => None
      | Some ((ordinal, (index, c)), haystack) =>
          subsequence_hits p haystack token' (if matched =? 0 then ordinal else first) ordinal (matched + 1)
            (push_span spans (to_raw p index (index + char_width c)))
      end
  end.

Definition subsequence_quality (p : PreparedLabel) (text_ token : text) (spans : list Span)
    : list Span * option f32 :=
  if len token <? 2 then (spans, None)
  else
    match subsequence_hits p (ordinals 0 (char_indices 0 text_)) token 0 0 0 spans with
    | None => (spans, None)
    | Some (first, last, matched, found) =>
        let compactness := ratio matched (saturating_add usize_max (last - first) 1) in
        let earliness := f32_div f32_one (f32_of_integer (saturating_add usize_max first 1)) in
        (found, Some (even_mix compactness earliness))
    end.

Definition match_token (p : PreparedLabel) (item : SearchItem) (policy : MatchPolicy) (token : text)
    (spans : list Span) : option (list Span * option (MatchMethod * f32)) :=
  match token with
  | [] => Some (spans, None)
  | _ =>
      text_ ← normalized_label p;
      '(spans, found) ← match_label p text_ token spans;
      match found with
      | Some found => Some (spans, Some found)
      | None =>
          retained ← keywords p;
          match (if contains retained token then keyword_quality (keyword_fields item) token else None) with
          | Some quality => Some (spans, Some (Keyword, quality))
          | None =>
              match policy with
              | Subsequence =>
                  let (spans, quality) := subsequence_quality p text_ token spans in
                  Some (spans, pair Fuzzy <$> quality)
              | Strict => Some (spans, None)
              end
          end
      end
  end.

(** * Matching an item *)

(** [tokens] must be the words of [normalized]. *)
Definition well_formed_query (q : NormalizedQuery) : bool :=
  negb (bool_decide (tokens q = [])) && bool_decide (split_whitespace (normalized q) = tokens q).

(** The loop over the tokens: the weakest method, the sum of the qualities. *)
Fixpoint match_tokens (p : PreparedLabel) (item : SearchItem) (policy : MatchPolicy) (l : list text)
    (weakest : MatchMethod) (total : f32) (spans : list Span) : option (list Span * option (MatchMethod * f32)) :=
  match l with
  | [] => Some (spans, Some (weakest, total))
  | token :: l' =>
      '(spans, found) ← match_token p item policy token spans;
      match found with
      | None => Some (spans, None)
      | Some (method, quality) =>
          match_tokens p item policy l' (if precedence weakest <? precedence method then method else weakest)
            (f32_add total (unit_quality quality)) spans
      end
  end.

Definition minimum (l : list Z) : option Z :=
  match l with [] => None | x :: l' => Some (foldl Z.min x l') end.

Definition score_prepared (policy : MatchPolicy) (q : NormalizedQuery) (item : SearchItem) (p : PreparedLabel)
    : option (list Span * option MatchSummary) :=
  if negb (well_formed_query q) then Some ([], None)
  else
    text_ ← normalized_label p;
    let trimmed := trim text_ in
    let phrase := trim (normalized q) in
    if negb (bool_decide (trimmed = [])) && bool_decide (phrase = trimmed) then
      let start := byte_len text_ - byte_len (trim_start text_) in
      let span := to_raw p start (start + byte_len trimmed) in
      Some ([], Some (mkSummary (score_for ExactPrefix f32_one) ExactPrefix
                        (s ← span; raw_character_position (label item) s.1)))
    else if starts_with text_ phrase then
      let span := to_raw p 0 (byte_len phrase) in
      let quality := ratio (len phrase) (char_len p) in
      Some (retain_valid_spans (label item) (push_span [] span),
            Some (mkSummary (score_for Prefix quality) Prefix
                    (s ← span; raw_character_position (label item) s.1)))
    else
      '(spans, found) ← match_tokens p item policy (tokens q) ExactPrefix f32_zero [];
      match found with
      | None => Some (spans, None)
      | Some (weakest, total) =>
          let spans := retain_valid_spans (label item) spans in
          let position := minimum (omap (fun s => raw_character_position (label item) s.1) spans) in
          let quality := f32_div total (f32_of_integer (len (tokens q))) in
          Some (spans, Some (mkSummary (score_for weakest quality) weakest position))
      end.

Definition exact_label_match (q : NormalizedQuery) (p : PreparedLabel) : option (option MatchOutcome) :=
  text_ ← normalized_label p;
  let trimmed := trim text_ in
  if bool_decide (trimmed = []) || negb (bool_decide (trim (normalized q) = trimmed)) then Some None
  else
    let start := byte_len text_ - byte_len (trim_start text_) in
    Some (Some (mkOutcome (score_for ExactPrefix f32_one) ExactPrefix
                  (push_span [] (to_raw p start (start + byte_len trimmed))))).

Definition match_prepared_unchecked (policy : MatchPolicy) (q : NormalizedQuery) (item : SearchItem)
    (p : PreparedLabel) : option (option MatchOutcome) :=
  '(spans, summary) ← score_prepared policy q item p;
  match summary with
  | None => Some None
  | Some summary =>
      if bool_decide (s_method summary = ExactPrefix) then
        exact ← exact_label_match q p;
        match exact with
        | None => Some None
        | Some o => Some (Some (mkOutcome (o_score o) (o_method o) (retain_valid_spans (label item) (highlights o))))
        end
      else
        Some (Some (mkOutcome (s_score summary) (s_method summary)
                      (merge_spans (retain_valid_spans (label item) spans))))
  end.

(** The label an item is prepared with when it enters the catalog. *)
Definition prepare_item (item : SearchItem) : option PreparedLabel :=
  let (text_, bytes) := searchable_text_with_label item in
  from_searchable_text (label item) text_ bytes.

Definition match_item (policy : MatchPolicy) (q : NormalizedQuery) (item : SearchItem)
    : option (option MatchOutcome) :=
  p ← prepare_item item; match_prepared_unchecked policy q item p.

Definition match_prepared (policy : MatchPolicy) (q : NormalizedQuery) (item : SearchItem) (p : PreparedLabel)
    : option (option MatchOutcome) :=
  canonical ← prepare_item item;
  let p := if bool_decide (p = canonical) then p else canonical in
  match_prepared_unchecked policy q item p.

(** * The candidate filter *)

Definition token_may_match (p : PreparedLabel) (text_ retained token : text) (policy : MatchPolicy) : bool :=
  match token with
  | [] => false
  | _ =>
      (contains text_ token || contains retained token)
      || (is_ordered_subsequence text_ token
          && (may_decompose (p_words p) text_ token
              || (bool_decide (policy = Subsequence) && (2 <=? len token))))
  end.

Definition may_match_with (p : PreparedLabel) (q : NormalizedQuery) (policy : MatchPolicy) : option bool :=
  if negb (well_formed_query q) then Some false
  else
    text_ ← normalized_label p;
    retained ← keywords p;
    Some (forallb (fun token => token_may_match p text_ retained token policy) (tokens q)).

Definition may_match (p : PreparedLabel) (q : NormalizedQuery) : option bool := may_match_with p q Strict.

End Normalisation.

(** * A concrete instance *)

(** ASCII only. *)
#[local] Instance ascii_unicode : Unicode := {|
  normalize_text := map ascii_lower;
  general_mark := fun _ => false;
  is_alphanumeric := is_ascii_alphanumeric;
  is_alphabetic := fun c => ((65 <=? c) && (c <=? 90)) || ((97 <=? c) && (c <=? 122));
  is_numeric := is_ascii_digit;
  is_lowercase := fun c => (97 <=? c) && (c <=? 122);
  is_uppercase := fun c => (65 <=? c) && (c <=? 90);
|}.

Definition code_editor : SearchItem := mkSearchItem (ascii "Visual Studio Code") (ascii "Editor") [].

Example vscode_splits :
  (o ← match_item Strict (normalize (ascii "vscode")) code_editor; o ← o; Some (o_method o, highlights o))
  = Some (WordPrefix, [(0, 1); (7, 8); (14, 18)]).
Proof. vm_compute. reflexivity. Qed.

Example manic_does_not :
  match_item Strict (normalize (ascii "manic")) (mkSearchItem (ascii "Memory Diagnostic Tool") [] []) = Some None.
Proof. vm_compute. reflexivity. Qed.

Example editor_is_a_keyword :
  (o ← match_item Strict (normalize (ascii "edit code")) code_editor; o ← o; Some (o_method o, highlights o))
  = Some (Keyword, [(14, 18)]).
Proof. vm_compute. reflexivity. Qed.
