(* ===== verification/QueryText.v ===== *)
(** Strings by byte offsets: what slicing, searching and splitting at blanks
    return, subsequences, and that UTF-8 is a prefix code, so that a common
    prefix of bytes that ends on a boundary is a common prefix of characters.

    The second half sets the matcher against its candidate filters: words are
    disjoint parts of the label in order, so whatever reading the matcher
    credits, the filters let the item through. *)

From Stdlib Require Import SpecFloat.
From S2P Require Import Prelude Text StdFloat Query.

(** * Bytes *)

Definition valid_char (c : Z) : Prop := 0 <= c < 1114112.
Definition valid_text (t : text) : Prop := Forall valid_char t.

(** Checked by evaluation on concrete texts. *)
Lemma valid_text_check t : forallb (fun c => (0 <=? c) && (c <? 1114112)) t = true -> valid_text t.
Proof.
  rewrite forallb_forall. intros H. apply Forall_forall. intros c Hc%list_elem_of_In%H. unfold valid_char. lia.
Qed.

Lemma char_width_pos c : 1 <= char_width c.
Proof. unfold char_width, utf8_char. repeat case_match; unfold len; simpl; lia. Qed.

Lemma byte_len_nil : byte_len [] = 0.
Proof. done. Qed.

Lemma byte_len_cons c t : byte_len (c :: t) = char_width c + byte_len t.
Proof. unfold byte_len, utf8, char_width. cbn. by rewrite len_app. Qed.

Lemma byte_len_app a b : byte_len (a ++ b) = byte_len a + byte_len b.
Proof. unfold byte_len, utf8. by rewrite bind_app, len_app. Qed.

Lemma byte_len_nonneg t : 0 <= byte_len t.
Proof. apply len_nonneg. Qed.

Lemma byte_len_zero t : byte_len t = 0 -> t = [].
Proof.
  destruct t as [|c t]; [done|]. rewrite byte_len_cons.
  pose proof (char_width_pos c). pose proof (byte_len_nonneg t). lia.
Qed.

Lemma len_byte_len t : len t <= byte_len t.
Proof.
  induction t as [|c t IH]; [done|]. rewrite len_cons, byte_len_cons. pose proof (char_width_pos c). lia.
Qed.

(** Two prefixes of a text are ordered as their lengths in bytes. *)
Lemma prefixes_ordered (a b a' b' : text) :
  a ++ b = a' ++ b' -> byte_len a <= byte_len a' -> exists u, a' = a ++ u /\ b = u ++ b'.
Proof.
  revert a'. induction a as [|c a IH]; intros a' E Hle.
  { exists a'. split; [done | exact E]. }
  destruct a' as [|c' a'].
  { exfalso. rewrite byte_len_cons, byte_len_nil in Hle.
    pose proof (char_width_pos c). pose proof (byte_len_nonneg a). lia. }
  injection E as -> E. rewrite !byte_len_cons in Hle.
  destruct (IH a' E) as (u & -> & ->); [lia|]. by exists u.
Qed.

Lemma prefixes_equal (a b a' b' : text) :
  a ++ b = a' ++ b' -> byte_len a = byte_len a' -> a = a' /\ b = b'.
Proof.
  intros E Hlen. destruct (prefixes_ordered a b a' b' E) as (u & -> & ->); [lia|].
  rewrite byte_len_app in Hlen. assert (u = []) as -> by (apply byte_len_zero; lia). by rewrite app_nil_r.
Qed.

(** * Slices *)

Lemma split_at_Some t n a b : split_at t n = Some (a, b) -> t = a ++ b /\ byte_len a = n.
Proof.
  revert n a b. induction t as [|c t IH]; intros n a b; cbn.
  - destruct (Z.eqb_spec n 0); [|done]. intros [= <- <-]. by subst.
  - destruct (Z.eqb_spec n 0); [intros [= <- <-]; by subst|]. destruct (_ <? _); [done|].
    intros H. apply bind_Some in H as ([a' b'] & H & [= <- <-]). apply IH in H as [-> H].
    rewrite byte_len_cons, H. split; [done | lia].
Qed.

Lemma split_at_app a b : split_at (a ++ b) (byte_len a) = Some (a, b).
Proof.
  induction a as [|c a IH]; cbn.
  - by destruct b.
  - rewrite byte_len_cons. pose proof (char_width_pos c). pose proof (byte_len_nonneg a).
    destruct (Z.eqb_spec (char_width c + byte_len a) 0); [lia|].
    destruct (Z.ltb_spec (char_width c + byte_len a) (char_width c)); [lia|].
    replace (char_width c + byte_len a - char_width c) with (byte_len a) by lia. by rewrite IH.
Qed.

Lemma split_at_iff t n a b : split_at t n = Some (a, b) <-> t = a ++ b /\ byte_len a = n.
Proof. split; [apply split_at_Some|]. intros [-> <-]. apply split_at_app. Qed.

Lemma split_at_zero t : split_at t 0 = Some ([], t).
Proof. by destruct t. Qed.

Lemma split_at_all t : split_at t (byte_len t) = Some (t, []).
Proof. apply split_at_iff. by rewrite app_nil_r. Qed.

Lemma str_get_Some t a b s :
  str_get t a b = Some s <-> exists x y, t = x ++ s ++ y /\ byte_len x = a /\ byte_len s = b - a.
Proof.
  unfold str_get. rewrite bind_Some. split.
  - intros ([x r] & H & Hs). apply split_at_iff in H as [-> <-].
    apply fmap_Some in Hs as ([s' y] & Hs & ->). apply split_at_iff in Hs as [-> Hs]. eauto.
  - intros (x & y & -> & <- & Hs). exists (x, s ++ y). rewrite split_at_app. split; [done|].
    apply fmap_Some. exists (s, y). by rewrite split_at_iff.
Qed.

(** * Searching *)

Lemma str_find_Some t pattern before :
  str_find t pattern = Some before -> exists after, t = before ++ pattern ++ after.
Proof.
  revert before. induction t as [|c t IH]; intros before; cbn; destruct (starts_with _ pattern) eqn:E.
  - intros [= <-]. by apply starts_with_spec in E.
  - done.
  - intros [= <-]. by apply starts_with_spec in E.
  - intros (b & H & ->)%fmap_Some. apply IH in H as [after ->]. by exists after.
Qed.

Lemma str_find_app a pattern b : is_Some (str_find (a ++ pattern ++ b) pattern).
Proof.
  assert (Hs : forall t, starts_with (pattern ++ t) pattern = true).
  { intros t. apply starts_with_spec. by exists t. }
  induction a as [|c a IH]; cbn.
  - destruct (pattern ++ b) eqn:E; cbn; rewrite <- E, Hs; eauto.
  - destruct (starts_with (c :: _) pattern); [eauto|]. by apply fmap_is_Some.
Qed.

Lemma contains_iff t pattern : contains t pattern = true <-> exists a b, t = a ++ pattern ++ b.
Proof.
  unfold contains. rewrite is_some_true. split.
  - intros [a H]. apply str_find_Some in H as [b ->]. eauto.
  - intros (a & b & ->). apply str_find_app.
Qed.

Lemma contains_trans t u v : contains t u = true -> contains u v = true -> contains t v = true.
Proof.
  rewrite !contains_iff. intros (a & b & ->) (c & d & ->). exists (a ++ c), (d ++ b). by rewrite <- !app_assoc.
Qed.

(** * Subsequences *)

Lemma seek_Some needle h rest : seek needle h = Some rest -> exists a, h = a ++ needle :: rest.
Proof.
  revert rest. induction h as [|c h IH]; intros rest; cbn; [done|].
  destruct (Z.eqb_spec c needle); [intros [= <-]; subst; by exists []|].
  intros H. apply IH in H as [a ->]. by exists (c :: a).
Qed.

Lemma seek_first needle a b : exists z, seek needle (a ++ needle :: b) = Some (z ++ b).
Proof.
  induction a as [|c a IH]; cbn.
  - rewrite Z.eqb_refl. by exists [].
  - destruct (Z.eqb_spec c needle) as [->|]; [|done]. exists (a ++ [needle]). by rewrite <- app_assoc.
Qed.

Lemma ordered_subsequence_iff t u : is_ordered_subsequence t u = true <-> sublist u t.
Proof.
  revert t. induction u as [|needle u IH]; intros t; cbn.
  { split; intros; [apply sublist_nil_l | done]. }
  rewrite sublist_cons_l. split.
  - destruct (seek needle t) as [rest|] eqn:E; [|done]. rewrite IH. apply seek_Some in E as [a ->]. eauto.
  - intros (a & b & -> & H). destruct (seek_first needle a b) as [z ->]. apply IH. by apply sublist_inserts_l.
Qed.

Lemma infix_sublist (a b c : text) : sublist b (a ++ b ++ c).
Proof. apply sublist_inserts_l. by apply sublist_inserts_r. Qed.

(** * Blanks *)

Definition blank (t : text) : Prop := Forall (fun c => is_whitespace c = true) t.
Definition word (t : text) : Prop := t <> [] /\ Forall (fun c => is_whitespace c = false) t.

Lemma trim_start_spec t : exists a, t = a ++ trim_start t /\ blank a.
Proof.
  induction t as [|c t IH]; cbn; [by exists []; repeat constructor|].
  destruct (is_whitespace c) eqn:E; [|by exists []; repeat constructor].
  destruct IH as (a & E' & Ha). exists (c :: a). cbn. rewrite <- E'. split; [done | by constructor].
Qed.

Lemma trim_spec t : exists a b, t = a ++ trim t ++ b /\ blank a /\ blank b.
Proof.
  destruct (trim_start_spec t) as (a & Ea & Ha).
  destruct (trim_start_spec (reverse (trim_start t))) as (b & Eb & Hb).
  exists a, (reverse b). split; [|split; [done | by apply Forall_reverse]].
  rewrite Ea at 1. f_equal. unfold trim, trim_end.
  rewrite <- (reverse_involutive (trim_start t)) at 1. by rewrite Eb at 1; rewrite reverse_app.
Qed.

Lemma split_words_infix current t w :
  w ∈ split_words current t -> exists a b, current ++ t = a ++ w ++ b.
Proof.
  assert (Hne : forall u, w ∈ nonempty u -> w = u).
  { intros u. destruct u; cbn; [by intros ?%elem_of_nil | by intros ->%list_elem_of_singleton]. }
  revert current. induction t as [|c t IH]; intros current; cbn.
  - intros H. apply Hne in H as ->. by exists [], [].
  - destruct (is_whitespace c).
    + rewrite elem_of_app. intros [H | H].
      * apply Hne in H as ->. by exists [], (c :: t).
      * apply IH in H as (a & b & H). cbn in H. exists (current ++ c :: a), b.
        rewrite <- app_assoc. cbn. by rewrite <- H.
    + intros H. apply IH in H as (a & b & H). exists a, b. rewrite <- H. by rewrite <- app_assoc.
Qed.

Lemma nonempty_word u : Forall (fun c => is_whitespace c = false) u -> Forall word (nonempty u).
Proof. destruct u; intros; [constructor|]. apply Forall_singleton. by split. Qed.

Lemma split_words_words current t :
  Forall (fun c => is_whitespace c = false) current -> Forall word (split_words current t).
Proof.
  revert current. induction t as [|c t IH]; intros current Hc; cbn; [by apply nonempty_word|].
  destruct (is_whitespace c) eqn:E.
  - apply Forall_app. split; [by apply nonempty_word | by apply IH; constructor].
  - apply IH. apply Forall_app. split; [done | by apply Forall_singleton].
Qed.

Lemma split_words_blank_r current t b :
  blank b -> split_words current (t ++ b) = split_words current t.
Proof.
  intros Hb. revert current. induction t as [|c t IH]; intros current; cbn.
  - revert current. induction Hb as [|c b Hc Hb IH]; intros current; cbn; [done|].
    rewrite Hc, IH. by rewrite app_nil_r.
  - by destruct (is_whitespace c); rewrite IH.
Qed.

Lemma split_words_blank_l a t : blank a -> split_words [] (a ++ t) = split_words [] t.
Proof. induction 1 as [|c a Hc Ha IH]; cbn; [done|]. by rewrite Hc. Qed.

Lemma split_whitespace_trim t : split_whitespace t = split_whitespace (trim t).
Proof.
  destruct (trim_spec t) as (a & b & E & Ha & Hb). unfold split_whitespace. rewrite E at 1.
  by rewrite split_words_blank_l, split_words_blank_r.
Qed.

(** The tokens of a text are words and parts of the trimmed text. *)
Lemma token_infix t w : w ∈ split_whitespace t -> word w /\ contains (trim t) w = true.
Proof.
  rewrite split_whitespace_trim. intros H. split.
  - pose proof (split_words_words [] (trim t) (Forall_nil_2 _)) as Hall. rewrite Forall_forall in Hall. by apply Hall.
  - apply contains_iff. by apply split_words_infix in H.
Qed.

(** A word followed by a blank or by the end is read back. *)
Lemma split_words_word current w t :
  Forall (fun c => is_whitespace c = false) w -> split_words current (w ++ t) = split_words (current ++ w) t.
Proof.
  revert current. induction w as [|c w IH]; intros current Hw; cbn; [by rewrite app_nil_r|].
  apply Forall_cons in Hw as [Hc Hw]. by rewrite Hc, IH, <- app_assoc.
Qed.

(** Splitting what was joined by blanks. *)
Lemma split_join l : Forall word l -> split_whitespace (join [32] l) = l.
Proof.
  induction 1 as [|w l [Hne Hw] Hl IH]; [done|]. destruct l as [|w' l].
  - unfold split_whitespace. cbn. rewrite <- (app_nil_r w) at 1. rewrite split_words_word by done. cbn. by destruct w.
  - change (join [32] (w :: w' :: l)) with (w ++ [32] ++ join [32] (w' :: l)).
    unfold split_whitespace in *. rewrite split_words_word by done.
    change ([] ++ w) with w. change ([32] ++ ?x) with (32 :: x). cbn [split_words]. change (is_whitespace 32) with true.
    cbn [andb]. rewrite IH. by destruct w.
Qed.

(** * UTF-8 is a prefix code *)

(** The first byte determines how many follow, and the bytes the character. *)
Lemma utf8_char_inj c d x y :
  valid_char c -> valid_char d -> utf8_char c ++ x = utf8_char d ++ y -> c = d /\ x = y.
Proof.
  unfold valid_char, utf8_char. intros Hc Hd.
  destruct (Z.ltb_spec c 128), (Z.ltb_spec c 2048), (Z.ltb_spec c 65536); try lia;
    destruct (Z.ltb_spec d 128), (Z.ltb_spec d 2048), (Z.ltb_spec d 65536); try lia;
    cbn [app]; intros E; simplify_eq; Z.to_euclidean_division_equations; try lia; split; done || lia.
Qed.

Lemma utf8_prefix a t :
  valid_text a -> valid_text t -> (exists r, utf8 t = utf8 a ++ r) -> exists b, t = a ++ b.
Proof.
  intros Ha. revert t. induction Ha as [|c a Hc Ha IH]; intros t Ht [r E]; [by exists t|].
  destruct t as [|d t].
  - pose proof (char_width_pos c) as H. unfold char_width in H. cbn in E.
    destruct (utf8_char c); [by rewrite len_nil in H | done].
  - apply Forall_cons in Ht as [Hd Ht]. unfold utf8 in E. cbn in E. rewrite <- app_assoc in E.
    apply utf8_char_inj in E as [-> E]; [|done..]. destruct (IH t Ht) as [b ->]; [by exists r|]. by exists b.
Qed.

Lemma common_bytes_take x y k : (k <= common_bytes x y)%nat -> take k x = take k y.
Proof.
  revert y k. induction x as [|b x IH]; intros [|b' y] k; cbn; try (intros; by assert (k = 0)%nat as -> by lia).
  destruct (Z.eqb_spec b b') as [->|]; [|intros; by assert (k = 0)%nat as -> by lia].
  destruct k; [done|]. intros H. cbn. f_equal. apply IH. lia.
Qed.

Lemma common_bytes_le x y : (common_bytes x y <= length x /\ common_bytes x y <= length y)%nat.
Proof. revert y. induction x as [|b x IH]; intros [|b' y]; cbn; try lia. destruct (b =? b'); [|lia]. specialize (IH y). lia. Qed.

Lemma floor_boundary_range t n : 0 <= floor_boundary t n <= Z.of_nat n.
Proof. induction n; cbn -[split_at]; [lia|]. destruct (is_some _); lia. Qed.

Lemma common_prefix_range t u : 0 <= common_prefix_len t u <= byte_len t.
Proof.
  unfold common_prefix_len. pose proof (floor_boundary_range t (common_bytes (utf8 t) (utf8 u))).
  pose proof (common_bytes_le (utf8 t) (utf8 u)). unfold byte_len, len. lia.
Qed.

(** A part of [t] within the common prefix is a prefix of both. *)
Lemma common_prefix_Some t u a b :
  valid_text t -> valid_text u -> t = a ++ b -> byte_len a <= common_prefix_len t u -> exists r, u = a ++ r.
Proof.
  intros Ht Hu -> Hle. pose proof (floor_boundary_range (a ++ b) (common_bytes (utf8 (a ++ b)) (utf8 u))) as Hf.
  unfold common_prefix_len in Hle. apply Forall_app in Ht as [Ha _].
  assert (Hk : (length (utf8 a) <= common_bytes (utf8 (a ++ b)) (utf8 u))%nat) by (unfold byte_len, len in *; lia).
  apply common_bytes_take in Hk. apply utf8_prefix; [done..|]. exists (drop (length (utf8 a)) (utf8 u)).
  rewrite <- (take_drop (length (utf8 a)) (utf8 u)) at 1. rewrite <- Hk. unfold utf8. by rewrite bind_app, take_app_length.
Qed.

(** The longest common prefix of characters is reached. *)
Lemma floor_boundary_ge a b n : byte_len a <= Z.of_nat n -> byte_len a <= floor_boundary (a ++ b) n.
Proof.
  induction n as [|n IH]; cbn -[split_at]; [lia|]. intros H.
  destruct (is_some (split_at (a ++ b) (Z.of_nat (S n)))) eqn:E; [lia|].
  apply IH. destruct (Z.eq_dec (byte_len a) (Z.of_nat (S n))) as [E'|]; [|lia].
  by rewrite <- E', split_at_app in E.
Qed.

Lemma common_bytes_app x y z : (length x <= common_bytes (x ++ y) (x ++ z))%nat.
Proof. induction x as [|b x IH]; cbn; [lia|]. rewrite Z.eqb_refl. lia. Qed.

Lemma common_prefix_ge a b c : byte_len a <= common_prefix_len (a ++ b) (a ++ c).
Proof.
  unfold common_prefix_len. apply floor_boundary_ge. unfold utf8. rewrite !bind_app.
  pose proof (common_bytes_app (utf8 a) (utf8 b) (utf8 c)). unfold byte_len, len, utf8 in *. lia.
Qed.

(** What the engine relies on of the Unicode crates: full case folding with NFKC
    agrees with lowercasing on ASCII, is idempotent, leaves every part of a
    normalised text alone, and never combines characters across a space. *)
Class UnicodeLaws {U : Unicode} : Prop := {
  normalize_valid t : valid_text t -> valid_text (normalize_text t);
  normalize_ascii t : valid_text t -> ascii_only t = true -> normalize_text t = map ascii_lower t;
  normalize_idem t : normalize_text (normalize_text t) = normalize_text t;
  normalize_infix a b c : normalize_text (a ++ b ++ c) = a ++ b ++ c -> normalize_text b = b;
  normalize_space a b : normalize_text (a ++ 32 :: b) = normalize_text a ++ 32 :: normalize_text b;
}.
#[global] Arguments UnicodeLaws : clear implicits.

(** * Words in order *)

(** Non-empty ranges that follow each other from an offset on. *)
Fixpoint ascending (from : Z) (l : list (Z * Z)) : Prop :=
  match l with [] => True | (a, b) :: l' => from <= a /\ a < b /\ ascending b l' end.

(** The end of the last range. *)
Definition last_end (from : Z) (l : list (Z * Z)) : Z := match last l with Some r => r.2 | None => from end.

Lemma ascending_snoc from l a b :
  ascending from (l ++ [(a, b)]) <-> ascending from l /\ last_end from l <= a /\ a < b.
Proof.
  unfold last_end. revert from. induction l as [|[x y] l IH]; intros from; cbn [app ascending].
  - cbn. tauto.
  - rewrite IH. rewrite last_cons. destruct (last l); cbn; tauto.
Qed.

Lemma last_end_snoc from l a b : last_end from (l ++ [(a, b)]) = b.
Proof. unfold last_end. by rewrite last_snoc. Qed.

Lemma ascending_take from l n : ascending from l -> ascending from (take n l).
Proof. revert from n. induction l as [|[x y] l IH]; intros from [|n]; cbn; try done. naive_solver. Qed.

Lemma ascending_weaken from from' l : from' <= from -> ascending from l -> ascending from' l.
Proof. destruct l as [|[a b] l]; cbn; [done|]. intros ? (? & ? & ?). repeat split; [lia | done | done]. Qed.

(** The texts of ascending ranges, one after the other, are a subsequence. *)
Lemma words_sublist label l from pre rest :
  ascending from l -> label = pre ++ rest -> byte_len pre <= from ->
  sublist (mjoin (map (word_text label) l)) rest.
Proof.
  revert from pre rest. induction l as [|[a b] l IH]; intros from pre rest H E Hpre; [apply sublist_nil_l|].
  destruct H as (Ha & Hab & Hl). cbn. destruct (str_get label a b) as [w|] eqn:G.
  - replace (word_text label (a, b)) with w by (unfold word_text; cbn; by rewrite G).
    apply str_get_Some in G as (x & y & G & Hx & Hw). rewrite E in G.
    destruct (prefixes_ordered pre rest x (w ++ y) G) as (u & -> & ->); [lia|].
    apply sublist_inserts_l, sublist_app; [done|].
    apply (IH b ((pre ++ u) ++ w) y Hl); [by rewrite E, <- !app_assoc|].
    rewrite byte_len_app. lia.
  - replace (word_text label (a, b)) with (@nil Z) by (unfold word_text; cbn; by rewrite G).
    apply (IH b pre rest Hl E). lia.
Qed.

(** * Chunks *)

Lemma elem_of_lengths k n : k ∈ lengths n -> 1 <= k <= n.
Proof. unfold lengths. rewrite list_elem_of_fmap. intros (i & -> & H). apply elem_of_seq in H. lia. Qed.

Lemma word_text_valid label r : valid_text label -> valid_text (word_text label r).
Proof.
  intros H. unfold word_text. destruct (str_get label r.1 r.2) as [w|] eqn:G; cbn; [|constructor].
  apply str_get_Some in G as (x & y & -> & _). apply Forall_app in H as [_ H]. by apply Forall_app in H as [H _].
Qed.

Section Replay.
Context {U : Unicode}.

(** A replay that covers the token has found its chunks in the words, in order;
    the rest of the token from any offset it went through is what is left. *)
Lemma replay_covers p text_ token words rows offset chunks spans chunks' spans' :
  valid_text text_ -> valid_text token ->
  replay p text_ token words rows offset chunks spans = Some (byte_len token, chunks', spans') ->
  exists a b, split_at token offset = Some (a, b) /\ sublist b (mjoin (map (word_text text_) words)).
Proof.
  intros Ht Hk. revert rows offset chunks spans.
  assert (Hend : exists a b, split_at token (byte_len token) = Some (a, b) /\
                   sublist b (mjoin (map (word_text text_) words))).
  { exists token, []. split; [apply split_at_all | apply sublist_nil_l]. }
  induction words as [|[start stop] words IH]; intros rows offset chunks spans; cbn [replay].
  { intros [= -> _ _]. exact Hend. }
  destruct rows as [|row rows]; [by intros [= -> _ _]|].
  destruct (Z.eqb_spec offset (byte_len token)) as [->|]; [by intros _|].
  intros H. apply bind_Some in H as ([a b] & E & H). exists a, b. split; [done|].
  assert (Hend' : exists a b, split_at token (byte_len token) = Some (a, b) /\
                   sublist b (mjoin (map (word_text text_) words))).
  { exists token, []. split; [apply split_at_all | apply sublist_nil_l]. }
  change (mjoin (map (word_text text_) ((start, stop) :: words)))
    with (word_text text_ (start, stop) ++ mjoin (map (word_text text_) words)).
  destruct (List.find _ _) as [k|] eqn:F in H.
  - apply List.find_some in F as [Hin _]. apply list_elem_of_In, elem_of_lengths in Hin.
    apply (IH Hend') in H as (a' & b' & E' & Hsub). apply split_at_iff in E as [E Ha], E' as [E' Ha'].
    rewrite E in E'. destruct (prefixes_ordered a b a' b' E') as (u & -> & ->); [lia|].
    rewrite byte_len_app in Ha'. rewrite E in Hk. apply Forall_app in Hk as [_ Hb].
    destruct (common_prefix_Some (u ++ b') (word_text text_ (start, stop)) u b' Hb
                (word_text_valid text_ (start, stop) Ht) eq_refl) as [r ->]; [lia|].
    rewrite <- app_assoc. apply sublist_app; [done|]. by apply sublist_inserts_l.
  - apply (IH Hend') in H as (a' & b' & E' & Hsub). rewrite E in E'. injection E' as <- <-.
    by apply sublist_inserts_l.
Qed.

(** A word-prefix reading is a subsequence of the label. *)
Lemma word_prefix_sublist p text_ token spans spans' quality :
  valid_text text_ -> valid_text token -> ascending 0 (p_words p) ->
  word_prefix_quality p text_ token spans = Some (spans', Some quality) -> sublist token text_.
Proof.
  intros Ht Hk Hasc. unfold word_prefix_quality.
  destruct (word_prefix_into _ _ _) as [[[rows value] count]|]; [|done].
  intros H. apply bind_Some in H as ([[offset chunks] found] & E & H).
  destruct (Z.eqb_spec offset (byte_len token)) as [->|]; [|done].
  destruct (replay_covers _ _ _ _ _ _ _ _ _ _ Ht Hk E) as (a & b & Es & Hsub).
  rewrite split_at_zero in Es. injection Es as <- <-. etrans; [exact Hsub|].
  by apply (words_sublist text_ (p_words p) 0 [] text_).
Qed.

(** * Subsequences *)

Lemma next_hit_Some needle hay x rest :
  next_hit needle hay = Some (x, rest) -> exists skipped, hay = skipped ++ x :: rest /\ x.2.2 = needle.
Proof.
  induction hay as [|y hay IH]; cbn; [done|]. destruct (Z.eqb_spec y.2.2 needle).
  - intros [= <- <-]. by exists [].
  - intros H. apply IH in H as (s & -> & ?). by exists (y :: s).
Qed.

Lemma subsequence_hits_sublist p hay token first last matched spans result :
  subsequence_hits p hay token first last matched spans = Some result -> sublist token (map (fun x => x.2.2) hay).
Proof.
  revert hay first last matched spans. induction token as [|needle token IH]; intros hay first last matched spans;
    cbn; [intros; apply sublist_nil_l|].
  destruct (next_hit needle hay) as [[[ordinal [index c]] rest]|] eqn:E; [|done]. intros H. apply IH in H.
  apply next_hit_Some in E as (s & -> & Hc). cbn in Hc. subst. rewrite map_app. cbn.
  apply sublist_inserts_l. by constructor.
Qed.

Lemma ordinals_chars n from t : map (fun x => x.2.2) (ordinals n (char_indices from t)) = t.
Proof. revert n from. induction t as [|c t IH]; intros n from; cbn; [done|]. by rewrite IH. Qed.

Lemma subsequence_quality_sublist p text_ token spans spans' quality :
  subsequence_quality p text_ token spans = (spans', Some quality) -> 2 <= len token /\ sublist token text_.
Proof.
  unfold subsequence_quality. destruct (Z.ltb_spec (len token) 2); [done|].
  destruct (subsequence_hits _ _ _ _ _ _ _) as [[[[f l] m] found]|] eqn:E; [|done]. intros _.
  split; [lia|]. apply subsequence_hits_sublist in E. by rewrite ordinals_chars in E.
Qed.

(** * The filter lets every match through *)

Lemma match_label_may p text_ retained token spans spans' found policy :
  valid_text text_ -> valid_text token -> ascending 0 (p_words p) -> token <> [] ->
  match_label p text_ token spans = Some (spans', Some found) ->
  token_may_match p text_ retained token policy = true.
Proof.
  intros Ht Hk Hasc Hne. unfold match_label, token_may_match. destruct token as [|c token]; [done|].
  set (tok := c :: token) in *. destruct (starts_with text_ tok) eqn:Es.
  { intros _. apply starts_with_spec in Es as [rest ->].
    assert (contains (tok ++ rest) tok = true) as -> by (apply contains_iff; by exists [], rest). done. }
  intros H. apply bind_Some in H as ([spans1 words] & E & H).
  destruct words as [quality|].
  - destruct (may_decompose (p_words p) text_ tok) eqn:Ed; [|by injection E].
    apply word_prefix_sublist in E; [|done..]. apply ordered_subsequence_iff in E. rewrite E.
    by rewrite orb_true_r.
  - destruct (str_find text_ tok) as [before|] eqn:F; [|done].
    assert (contains text_ tok = true) as -> by (unfold contains; by rewrite F). done.
Qed.

Lemma match_token_may p item policy token spans spans' found text_ retained :
  normalized_label p = Some text_ -> keywords p = Some retained ->
  valid_text text_ -> valid_text token -> ascending 0 (p_words p) ->
  match_token p item policy token spans = Some (spans', Some found) ->
  token_may_match p text_ retained token policy = true.
Proof.
  intros Hn Hr Ht Hk Hasc. unfold match_token. destruct token as [|c token]; [done|]. set (tok := c :: token) in *.
  rewrite Hn, Hr. cbn [mbind option_bind]. intros H. apply bind_Some in H as ([spans1 label_found] & E & H).
  destruct label_found as [r|]; [by eapply match_label_may|].
  destruct (contains retained tok) eqn:Ec.
  { unfold token_may_match, tok. fold tok. by rewrite Ec, orb_true_r. }
  destruct policy; [done|].
  destruct (subsequence_quality p text_ tok spans1) as [s q] eqn:Eq. destruct q as [q|]; [|done].
  apply subsequence_quality_sublist in Eq as [H2 Hs]. apply ordered_subsequence_iff in Hs.
  unfold token_may_match, tok. fold tok. rewrite Hs, (bool_decide_eq_true_2 (Subsequence = Subsequence)) by done.
  rewrite (proj2 (Z.leb_le 2 (len tok)) H2). by rewrite !orb_true_r.
Qed.

Lemma match_tokens_may p item policy l weakest total spans spans' found text_ retained :
  normalized_label p = Some text_ -> keywords p = Some retained ->
  valid_text text_ -> Forall valid_text l -> ascending 0 (p_words p) ->
  match_tokens p item policy l weakest total spans = Some (spans', Some found) ->
  forallb (fun token => token_may_match p text_ retained token policy) l = true.
Proof.
  intros Hn Hr Ht Hl Hasc. revert weakest total spans. induction Hl as [|token l Hk Hl IH]; intros weakest total spans;
    cbn [match_tokens forallb]; [done|].
  intros H. apply bind_Some in H as ([spans1 r] & E & H). destruct r as [[method quality]|]; [|done].
  rewrite (match_token_may _ _ _ _ _ _ _ _ _ Hn Hr Ht Hk Hasc E). by eapply IH.
Qed.
End Replay.
