(* ===== verification/QueryWords.v ===== *)
(** The word-prefix decomposition: the grid finds a partition of a token into
    prefixes of words exactly when there is one, its numbers never overflow, and
    replaying its choices covers the whole token. *)

From Stdlib Require Import SpecFloat.
From S2P Require Import Prelude Text StdFloat Query QueryText.

(** The reference: a text cut into non-empty chunks, each a prefix of a word of
    its own, words taken from left to right. *)
Inductive decomposes : list text -> text -> Prop :=
  | DecomposesEnd : decomposes [] []
  | DecomposesSkip w ws t : decomposes ws t -> decomposes (w :: ws) t
  | DecomposesChunk w ws chunk t :
      chunk <> [] -> chunk `prefix_of` w -> decomposes ws t -> decomposes (w :: ws) (chunk ++ t).

Lemma decomposes_nil ws : decomposes ws [].
Proof. induction ws; by constructor. Qed.

(** * Cells *)

Lemma cell_offsets (f : Z -> f32) token n :
  0 <= n <= byte_len token -> cell (map f (offsets token)) n = f n.
Proof.
  intros Hn. unfold cell, offsets. rewrite map_map, list_lookup_fmap, lookup_seq_lt by lia. cbn. f_equal. lia.
Qed.

Lemma cell_outside (f : Z -> f32) token n : byte_len token < n -> cell (map f (offsets token)) n = f32_neg_infinity.
Proof.
  intros Hn. unfold cell, offsets. pose proof (byte_len_nonneg token).
  rewrite lookup_ge_None_2; [done|]. rewrite !length_map, length_seq. lia.
Qed.

Lemma neg_infinity_small k x : small k x -> is_neg_infinity x = false.
Proof. by destruct x. Qed.

(** A cell that is reachable: a small number exactly when [P] holds. *)
Definition reach (k : Z) (P : Prop) (x : f32) : Prop := (x = f32_neg_infinity /\ ~ P) \/ (small k x /\ P).

Lemma reach_iff k P Q x : (P <-> Q) -> reach k P x -> reach k Q x.
Proof. unfold reach. tauto. Qed.

Lemma penalty_small : small 7 WORD_SKIP_PENALTY.
Proof. vm_compute. split; [discriminate | reflexivity]. Qed.

Lemma chunk_small k word length rest :
  9 <= k <= 90 -> 0 <= length < 64 -> small k rest -> small (k + 2) (chunk_value word length rest).
Proof.
  intros Hk Hl Hr. unfold chunk_value. apply f32_add_small; [lia | | done]. apply (small_weaken 9); [lia|].
  apply (f32_add_small 7); [lia | apply (f32_of_integer_small 6); lia|]. destruct (_ =? _); [|done].
  apply (small_weaken 1); [lia|]. vm_compute. split; [discriminate | reflexivity].
Qed.

(** * One cell *)

Section Cells.
Context (token word : text) (next : list f32) (offset k : Z) (P : Z -> Prop).
Hypothesis Hk : 9 <= k <= 90.
Hypothesis Hnext : forall n, 0 <= n -> reach k (P n) (cell next n).
Hypothesis Hoff : 0 <= offset.

Lemma better_reach Q best length :
  0 <= length < 64 -> reach (k + 2) Q best ->
  reach (k + 2) (Q \/ P (offset + length)) (better word next offset best length).
Proof.
  intros Hl Hb. unfold better. destruct (Hnext (offset + length)) as [[-> Hp] | [Hs Hp]]; [lia | |].
  - cbn. eapply reach_iff; [|exact Hb]. tauto.
  - rewrite (neg_infinity_small _ _ Hs). pose proof (chunk_small k word length _ Hk Hl Hs) as Hv.
    destruct Hb as [[-> Hq] | [Hb Hq]].
    + right. split; [|by right]. assert (f32_lt f32_neg_infinity (chunk_value word length (cell next (offset + length))) = true) as ->; [|done].
      destruct (chunk_value _ _ _); try done.
    + right. split; [by destruct (f32_lt _ _) | by left].
Qed.

Lemma foldl_better_reach l Q best :
  Forall (fun length => 0 <= length < 64) l -> reach (k + 2) Q best ->
  reach (k + 2) (Q \/ exists length, length ∈ l /\ P (offset + length)) (foldl (better word next offset) best l).
Proof.
  intros Hl. revert Q best. induction Hl as [|n l Hn Hl IH]; intros Q best Hb; cbn.
  - eapply reach_iff; [|exact Hb]. set_solver.
  - eapply reach_iff; [|apply IH, better_reach; [done | exact Hb]]. set_solver.
Qed.

(** A value that one of the chunk lengths gave. *)
Definition credited (lengths_ : list Z) (value : f32) : Prop :=
  exists length, length ∈ lengths_ /\ small k (cell next (offset + length)) /\
    value = chunk_value word length (cell next (offset + length)).

Lemma foldl_better_credited all l best :
  Forall (fun length => 0 <= length < 64) l -> l ⊆ all ->
  (best = f32_neg_infinity \/ credited all best) ->
  (best = f32_neg_infinity -> exists length, length ∈ l /\ P (offset + length)) ->
  credited all (foldl (better word next offset) best l).
Proof.
  revert best. induction l as [|n l IH]; intros best Hl Hin Hbest Hleft; cbn.
  { destruct Hbest as [Hb|?]; [|done]. by destruct (Hleft Hb) as (? & ?%elem_of_nil & _). }
  apply Forall_cons in Hl as [Hn Hl]. unfold better at 2.
  destruct (Hnext (offset + n)) as [[-> Hno] | [Hsm Hyes]]; [lia | |]; (apply IH; [done | set_solver | |]).
  - done.
  - intros Hb. destruct (Hleft Hb) as (j & [->|Hj]%elem_of_cons & Hcov); [done | eauto].
  - rewrite (neg_infinity_small _ _ Hsm). destruct (f32_lt _ _); [right; exists n; set_solver | done].
  - rewrite (neg_infinity_small _ _ Hsm). pose proof (chunk_small k word n _ Hk Hn Hsm) as Hv. intros Hb. exfalso.
    destruct (f32_lt best _) eqn:El; [by rewrite Hb in Hv|]. subst best. by destruct (chunk_value word n _).
Qed.

Lemma skip_reach :
  reach (k + 2) (P offset)
    (if is_neg_infinity (cell next offset) then f32_neg_infinity else f32_sub (cell next offset) WORD_SKIP_PENALTY).
Proof.
  destruct (Hnext offset Hoff) as [[-> Hp] | [Hs Hp]]; [by left|]. rewrite (neg_infinity_small _ _ Hs). right.
  split; [|done]. apply f32_sub_small; [lia | done|]. apply (small_weaken 7); [lia | apply penalty_small].
Qed.
End Cells.

Lemma lengths_bound n : n < 64 -> Forall (fun length => 0 <= length < 64) (lengths n).
Proof. intros Hn. apply Forall_forall. intros j Hj%elem_of_lengths. lia. Qed.

Lemma elem_of_lengths_2 j n : 1 <= j <= n -> j ∈ lengths n.
Proof.
  intros Hj. unfold lengths. apply list_elem_of_fmap. exists (Z.to_nat j). split; [lia|]. apply elem_of_seq. lia.
Qed.

(** The part of the token from an offset on decomposes. *)
Definition covers_from (token : text) (ws : list text) (offset : Z) : Prop :=
  exists a b, split_at token offset = Some (a, b) /\ decomposes ws b.

Lemma decomposes_cons w ws t :
  decomposes (w :: ws) t <->
  decomposes ws t \/ exists chunk t', t = chunk ++ t' /\ chunk <> [] /\ chunk `prefix_of` w /\ decomposes ws t'.
Proof.
  split.
  - inversion 1; subst; [by left | right; eauto 10].
  - intros [? | (c & t' & -> & ? & ? & ?)]; by constructor.
Qed.

(** Covering with one more word: skip it, or take one of its prefixes. *)
Lemma covers_from_cons token w ws offset a b :
  valid_text token -> valid_text w -> split_at token offset = Some (a, b) ->
  covers_from token (w :: ws) offset <->
  covers_from token ws offset \/
  exists length, length ∈ lengths (common_prefix_len b w) /\ covers_from token ws (offset + length).
Proof.
  intros Ht Hw Hs. pose proof Hs as [E Ha]%split_at_iff. unfold covers_from. split.
  - intros (a' & b' & H & Hd). rewrite Hs in H. injection H as <- <-. apply decomposes_cons in Hd as [Hd | Hd]; [by left; eauto|].
    destruct Hd as (chunk & t & -> & Hne & [r ->] & Hd). right. exists (byte_len chunk). split.
    + apply elem_of_lengths_2. split; [|apply common_prefix_ge].
      pose proof (byte_len_nonneg chunk). destruct (Z.eq_dec (byte_len chunk) 0); [by apply byte_len_zero in e | lia].
    + exists (a ++ chunk), t. split; [|done]. apply split_at_iff. rewrite E, <- app_assoc, byte_len_app. split; [done | lia].
  - intros [(a' & b' & H & Hd) | (length & Hin & a' & b' & H & Hd)].
    + exists a', b'. split; [done | by constructor].
    + apply elem_of_lengths in Hin. apply split_at_iff in H as [E' Ha']. rewrite E in E'.
      destruct (prefixes_ordered a b a' b' E') as (chunk & -> & ->); [lia|]. exists a, (chunk ++ b'). split; [done|].
      rewrite byte_len_app in Ha'. rewrite E in Ht. apply Forall_app in Ht as [_ Ht].
      destruct (common_prefix_Some (chunk ++ b') w chunk b' Ht Hw eq_refl) as [r ->]; [lia|].
      constructor; [|by exists r | done]. intros ->. rewrite byte_len_nil in Ha'. lia.
Qed.

(** * The grid *)

Lemma covers_from_end token ws : covers_from token ws (byte_len token).
Proof. exists token, []. split; [apply split_at_all | apply decomposes_nil]. Qed.

Lemma covers_from_outside token ws n : byte_len token < n -> ~ covers_from token ws n.
Proof.
  intros Hn (a & b & H & _). apply split_at_iff in H as [-> H]. rewrite byte_len_app in Hn.
  pose proof (byte_len_nonneg b). lia.
Qed.

(** The first row of the grid of some words. *)
Definition top_row (token : text) (ws : list text) : list f32 := default [] (head (grid_rows token ws)).

Lemma grid_cell_reach token w ws k offset :
  valid_text token -> valid_text w -> byte_len token < 64 -> 9 <= k <= 90 -> 0 <= offset <= byte_len token ->
  (forall n, 0 <= n -> reach k (covers_from token ws n) (cell (top_row token ws) n)) ->
  reach (k + 2) (covers_from token (w :: ws) offset) (grid_cell token w (top_row token ws) offset).
Proof.
  intros Ht Hw Hb Hk Ho IH. unfold grid_cell. destruct (Z.eqb_spec offset (byte_len token)) as [->|].
  { right. split; [done | apply covers_from_end]. }
  destruct (split_at token offset) as [[a b]|] eqn:Es.
  - eapply reach_iff; [symmetry; by eapply covers_from_cons|].
    eapply foldl_better_reach; [done | exact IH | lia | | by eapply skip_reach; [exact Hk | exact IH | lia]].
    apply lengths_bound. pose proof (common_prefix_range b w). apply split_at_iff in Es as [-> _].
    rewrite byte_len_app in Hb. pose proof (byte_len_nonneg a). lia.
  - left. split; [done|]. intros (a & b & H & _). by rewrite Es in H.
Qed.

Lemma grid_reach token ws :
  valid_text token -> Forall valid_text ws -> byte_len token < 64 -> len ws <= 8 ->
  forall n, 0 <= n -> reach (9 + 2 * len ws) (covers_from token ws n) (cell (top_row token ws) n).
Proof.
  intros Ht Hws Hb. induction Hws as [|w ws Hw Hws IH]; intros Hlen n Hn.
  - change (top_row token []) with (base_row token). unfold base_row.
    destruct (Z.le_gt_cases n (byte_len token)).
    + rewrite cell_offsets by lia. destruct (Z.eqb_spec n (byte_len token)) as [->|Hne].
      * right. split; [done | apply covers_from_end].
      * left. split; [done|]. intros (a & b & H' & Hd). inversion Hd; subst. apply split_at_iff in H' as [E Ha].
        rewrite app_nil_r in E. by subst.
    + rewrite cell_outside by lia. left. split; [done | by apply covers_from_outside].
  - rewrite len_cons in *. pose proof (len_nonneg ws).
    replace (9 + 2 * (len ws + 1)) with (9 + 2 * len ws + 2) by lia.
    change (top_row token (w :: ws)) with (map (grid_cell token w (top_row token ws)) (offsets token)).
    destruct (Z.le_gt_cases n (byte_len token)).
    + rewrite cell_offsets by lia. apply grid_cell_reach; [done | done | done | lia | lia|]. apply IH. lia.
    + rewrite cell_outside by lia. left. split; [done | by apply covers_from_outside].
Qed.

(** * The decomposition *)

(** The sizes the grid is built for. *)
Definition decomposable_size (words : list (Z * Z)) (token : text) : Prop :=
  token <> [] /\ len words <= MAX_WORD_PREFIX_WORDS /\ len token <= MAX_WORD_PREFIX_TOKEN.

Lemma char_width_le c : char_width c <= 4.
Proof. unfold char_width, utf8_char, len. repeat case_match; simpl; lia. Qed.

Lemma byte_len_le t : byte_len t <= 4 * len t.
Proof.
  induction t as [|c t IH]; [done|]. rewrite byte_len_cons, len_cons. pose proof (char_width_le c). lia.
Qed.

Lemma token_fits words token : decomposable_size words token -> byte_len token < 64.
Proof. intros (_ & _ & H). pose proof (byte_len_le token). unfold MAX_WORD_PREFIX_TOKEN in H. lia. Qed.

Lemma word_texts_valid label_ words : valid_text label_ -> Forall valid_text (map (word_text label_) words).
Proof. intros H. apply Forall_map, Forall_forall. intros r _. by apply word_text_valid. Qed.

Lemma words_reach words label_ token :
  valid_text label_ -> valid_text token -> decomposable_size words token ->
  forall n, 0 <= n -> reach (9 + 2 * len words) (covers_from token (map (word_text label_) words) n)
    (cell (top_row token (map (word_text label_) words)) n).
Proof.
  intros Hl Ht Hs n Hn. rewrite <- (len_map (word_text label_) words). apply grid_reach; try done.
  - by apply word_texts_valid.
  - by eapply token_fits.
  - rewrite len_map. apply Hs.
Qed.

Lemma covers_from_start token ws : covers_from token ws 0 <-> decomposes ws token.
Proof.
  unfold covers_from. setoid_rewrite split_at_zero. split; [by intros (a & b & [= <- <-] & H) | eauto].
Qed.

Lemma word_prefix_into_iff words label_ token rows value count :
  valid_text label_ -> valid_text token ->
  word_prefix_into words label_ token = Some (rows, value, count) <->
  decomposable_size words token /\ decomposes (map (word_text label_) words) token /\
  rows = grid_rows token (map (word_text label_) words) /\
  value = cell (top_row token (map (word_text label_) words)) 0 /\ count = len words.
Proof.
  intros Hl Ht. unfold word_prefix_into. cbv zeta. fold (top_row token (map (word_text label_) words)).
  assert (Hne : (byte_len token =? 0) || (len words =? 0) || (MAX_WORD_PREFIX_WORDS <? len words) = false ->
                (MAX_WORD_PREFIX_TOKEN <? len token) = false -> decomposable_size words token).
  { rewrite !orb_false_iff, Z.eqb_neq, !Z.ltb_ge. intros [[H1 _] H2] H3. split_and!; [by intros -> | done | done]. }
  assert (Hw : decomposes (map (word_text label_) words) token -> token <> [] -> words <> []).
  { intros Hd ? ->. cbn in Hd. by inversion Hd. }
  split.
  - destruct (_ || _) eqn:E1; [done|]. destruct (MAX_WORD_PREFIX_TOKEN <? _) eqn:E2; [done|].
    destruct (is_neg_infinity _) eqn:E3; [done|]. intros [= <- <- <-]. specialize (Hne eq_refl eq_refl).
    split_and!; [done | | done | done | done]. apply covers_from_start.
    destruct (words_reach words label_ token Hl Ht Hne 0 ltac:(lia)) as [[H _] | [_ H]]; [by rewrite H in E3 | done].
  - intros (Hs & Hd & -> & -> & ->). destruct Hs as (H1 & H2 & H3).
    assert (byte_len token <> 0) by (intros ?%byte_len_zero; done). specialize (Hw Hd H1).
    assert (len words <> 0) by (intros ?%len_zero; done).
    assert ((byte_len token =? 0) || (len words =? 0) || (MAX_WORD_PREFIX_WORDS <? len words) = false) as ->
      by (rewrite !orb_false_iff, !Z.eqb_neq, Z.ltb_ge; done).
    rewrite (proj2 (Z.ltb_ge _ _) H3).
    destruct (words_reach words label_ token Hl Ht (conj H1 (conj H2 H3)) 0 ltac:(lia)) as [[_ Hn] | [Hsm _]].
    + by apply covers_from_start in Hd.
    + by rewrite (neg_infinity_small _ _ Hsm).
Qed.

(** * The replay *)

(** The chunk that gave a cell its value is found again. *)
Lemma replay_finds token w ws k offset a b :
  valid_text token -> valid_text w -> byte_len token < 64 -> 9 <= k <= 90 ->
  split_at token offset = Some (a, b) -> offset <> byte_len token ->
  (forall n, 0 <= n -> reach k (covers_from token ws n) (cell (top_row token ws) n)) ->
  covers_from token (w :: ws) offset -> ~ covers_from token ws offset ->
  List.find (fun length =>
      let rest := cell (top_row token ws) (offset + length) in
      if is_neg_infinity rest then false
      else f32_lt (f32_abs (f32_sub (chunk_value w length rest) (grid_cell token w (top_row token ws) offset))) TOLERANCE)
    (lengths (common_prefix_len b w)) <> None.
Proof.
  intros Ht Hw Hb Hk Hs Hne Hr Hc Hskip Hf. pose proof Hs as [E Ha]%split_at_iff.
  assert (Ho : 0 <= offset) by (rewrite <- Ha; apply byte_len_nonneg).
  set (l := lengths (common_prefix_len b w)) in *.
  assert (Hl : Forall (fun length => 0 <= length < 64) l).
  { apply lengths_bound. pose proof (common_prefix_range b w). rewrite E, byte_len_app in Hb.
    pose proof (byte_len_nonneg a). lia. }
  assert (Hcell : credited w (top_row token ws) offset k l (grid_cell token w (top_row token ws) offset)).
  { unfold grid_cell. destruct (Z.eqb_spec offset (byte_len token)) as [|_]; [done|]. rewrite Hs. cbv zeta.
    destruct (Hr offset Ho) as [[-> _] | [_ ?]]; [|done]. change (is_neg_infinity f32_neg_infinity) with true.
    cbv iota. fold l. eapply foldl_better_credited; [done | exact Hr | done | done | done | by left|]. intros _.
    by apply (covers_from_cons token w ws offset a b Ht Hw Hs) in Hc as [?|?]. }
  destruct Hcell as (length & Hin & Hsm & Heq). apply list_elem_of_In in Hin.
  pose proof (List.find_none _ _ Hf length Hin) as Hno. cbn in Hno. rewrite (neg_infinity_small _ _ Hsm), Heq in Hno.
  rewrite f32_sub_diag in Hno; [by vm_compute in Hno|]. eapply small_finite, (chunk_small k); [done | | done].
  rewrite Forall_forall in Hl. apply Hl. by apply list_elem_of_In.
Qed.

Lemma replay_complete p text_ token words offset chunks spans :
  valid_text text_ -> valid_text token -> byte_len token < 64 -> len words <= 8 ->
  covers_from token (map (word_text text_) words) offset ->
  exists chunks' spans',
    replay p text_ token words (grid_rows token (map (word_text text_) words)) offset chunks spans
    = Some (byte_len token, chunks', spans').
Proof.
  intros Hv Ht Hb. revert offset chunks spans. induction words as [|[start stop] words IH];
    intros offset chunks spans Hlen Hc; cbn [map replay grid_rows].
  { destruct Hc as (a & b & Hs & Hd). inversion Hd; subst. apply split_at_iff in Hs as [E <-].
    rewrite app_nil_r in E. subst. eauto. }
  rewrite len_cons in Hlen. pose proof (len_nonneg words).
  set (w := word_text text_ (start, stop)). set (ws := map (word_text text_) words) in *.
  assert (Hr : forall n, 0 <= n -> reach (9 + 2 * len words) (covers_from token ws n) (cell (top_row token ws) n)).
  { intros n Hn. rewrite <- (len_map (word_text text_) words). apply grid_reach; try done.
    - by apply word_texts_valid.
    - subst ws. rewrite len_map. lia. }
  destruct (Z.eqb_spec offset (byte_len token)) as [->|Hne]; [eauto|].
  pose proof Hc as (a & b & Hs & _). rewrite Hs. cbn [mbind option_bind].
  pose proof Hs as [E Ha]%split_at_iff.
  assert (Ho : 0 <= offset <= byte_len token).
  { rewrite <- Ha, E, byte_len_app. pose proof (byte_len_nonneg a). pose proof (byte_len_nonneg b). lia. }
  change (default [] (head (grid_rows token ws))) with (top_row token ws). rewrite cell_offsets by done.
  destruct (List.find _ _) as [n|] eqn:F.
  - apply List.find_some in F as [Hin%list_elem_of_In%elem_of_lengths Hf]. cbv zeta in Hf.
    apply IH; [lia|]. destruct (Hr (offset + n)) as [[Hz _] | [_ ?]]; [lia | by rewrite Hz in Hf | done].
  - apply IH; [lia|]. destruct (Hr offset) as [[_ Hno] | [_ ?]]; [lia | | done]. exfalso.
    eapply (replay_finds token w ws (9 + 2 * len words) offset a b); try done; [|lia].
    apply (word_text_valid text_ (start, stop) Hv).
Qed.

(** The decomposition is exact.  The grid reports a decomposition of a token
    over the words of a label exactly when, within its size limits, the token
    can be cut into non-empty chunks that are prefixes of different words taken
    from left to right; no sum overflows on the way.  Replaying the choices of
    the grid, rounding of the scores notwithstanding, then covers the whole
    token. *)
Theorem word_prefix_exact words text_ token :
  valid_text text_ -> valid_text token ->
  (is_Some (word_prefix_into words text_ token) <->
   decomposable_size words token /\ decomposes (map (word_text text_) words) token) /\
  (forall rows value count, word_prefix_into words text_ token = Some (rows, value, count) ->
   forall p spans, exists chunks spans',
     replay p text_ token words rows 0 0 spans = Some (byte_len token, chunks, spans')).
Proof.
  intros Hv Ht. split.
  - split; [intros [[[rows value] count] H%word_prefix_into_iff]; naive_solver|]. intros [Hs Hd].
    eexists (_, _, _). by apply word_prefix_into_iff.
  - intros rows value count H p spans. apply word_prefix_into_iff in H as (Hs & Hd & -> & _); [|done..].
    apply replay_complete; [done | done | by eapply token_fits | apply Hs | by apply covers_from_start].
Qed.

Lemma word_prefix_exact_witness :
  decomposable_size [(0, 6); (7, 13); (14, 18)] (ascii "vscode") /\
  decomposes (map (word_text (ascii "visual studio code")) [(0, 6); (7, 13); (14, 18)]) (ascii "vscode").
Proof.
  apply (proj1 (word_prefix_exact [(0, 6); (7, 13); (14, 18)] (ascii "visual studio code") (ascii "vscode")
    (valid_text_check (ascii "visual studio code") eq_refl) (valid_text_check (ascii "vscode") eq_refl))).
  vm_compute. eexists. reflexivity.
Defined.
