(* ===== verification/QueryPrepare.v ===== *)
(** Preparing a label: it never fails, its words are ascending ranges of the
    folded label, its marks point at whole characters of the raw label, and the
    folded label is the first part of the searchable text. *)

From Stdlib Require Import SpecFloat.
From S2P Require Import Prelude Text StdFloat Query QueryText.

Lemma as_u32_small n : 0 <= n <= u32_max -> as_u32 n = n.
Proof. unfold as_u32, u32_max. intros. apply Z.mod_small. lia. Qed.

(** Appending a range after the last one. *)
Lemma ascending_push from l a b :
  ascending from l -> last_end from l <= a -> a < b -> ascending from (l ++ [(a, b)]).
Proof. intros. by apply ascending_snoc. Qed.

Section Prepare.
Context {U : Unicode}.

(** * Words of an ASCII label *)

Lemma word_extent_range previous t : 0 <= word_extent previous t <= len t.
Proof.
  revert previous. induction t as [|c t IH]; intros previous; cbn; rewrite ?len_cons; [unfold len; simpl; lia|].
  destruct (_ || _); [pose proof (len_nonneg t); lia|]. specialize (IH c). lia.
Qed.

Lemma ascii_words_ascending label_len skip previous index t ranges :
  0 <= skip -> 0 <= index -> index + len t <= u32_max ->
  ascending 0 ranges -> last_end 0 ranges <= index + skip ->
  ascending 0 (ascii_words label_len skip previous index t ranges).
Proof.
  revert skip previous index ranges. induction t as [|c t IH]; intros skip previous index ranges Hs Hi Hlen Hr Hl;
    cbn [ascii_words]; [done|].
  rewrite len_cons in Hlen. destruct (Z.ltb_spec 0 skip); [apply IH; try done; lia|].
  destruct (_ <=? _); [done|]. destruct (opens_word _ _ _); [|apply IH; try done; lia].
  pose proof (word_extent_range c t). cbv zeta.
  destruct (_ <=? label_len).
  - rewrite !as_u32_small by (pose proof (len_nonneg t); lia).
    apply IH; [lia.. | |]; [apply ascending_push; [done | lia | lia]|]. rewrite last_end_snoc. lia.
  - apply IH; [lia.. | done | lia].
Qed.

(** * Marks *)

(** Marks at strictly increasing offsets within a range. *)
Fixpoint marks_within (lo : Z) (l : list Mark) (hi : Z) : Prop :=
  match l with [] => lo <= hi | m :: l' => lo <= norm m /\ marks_within (norm m + 1) l' hi end.

Lemma marks_within_app lo l1 mid l2 hi :
  marks_within lo l1 mid -> marks_within mid l2 hi -> marks_within lo (l1 ++ l2) hi.
Proof.
  revert lo. induction l1 as [|m l1 IH]; intros lo; cbn.
  - intros H1 H2. destruct l2 as [|m l2]; cbn in *; [lia|]. destruct H2. split; [lia | done].
  - intros [? ?] ?. split; [done | by apply IH].
Qed.

(** The range a mark came from is a slice of the raw label. *)
Definition mark_ok (raw : text) (m : Mark) : Prop := is_Some (str_get raw (src_start m) (src_end m)).

Lemma resolved_marks cursor from s e t :
  0 <= cursor + from -> cursor + from + byte_len t <= u32_max ->
  marks_within (cursor + from) (map (fun ic => mkMark (as_u32 (cursor + ic.1)) s e) (char_indices from t))
    (cursor + from + byte_len t).
Proof.
  revert from. induction t as [|c t IH]; intros from H1 H2; cbn [char_indices map marks_within].
  { rewrite byte_len_nil. lia. }
  rewrite byte_len_cons in *. pose proof (char_width_pos c). pose proof (byte_len_nonneg t). cbn [norm fst].
  rewrite as_u32_small by lia. split; [lia|].
  specialize (IH (from + char_width c)). replace (cursor + from + (char_width c + byte_len t))
    with (cursor + (from + char_width c) + byte_len t) by lia.
  assert (Hw : forall l lo lo' hi, lo' <= lo -> marks_within lo l hi -> marks_within lo' l hi).
  { intros [|m l] lo lo' hi ?; cbn; [lia|]. intros []. split; [lia | done]. }
  eapply Hw; [|apply IH]; lia.
Qed.

Lemma align_loop_spec all before run rest label_ done_ marks raw ms e :
  all = before ++ run ++ raw -> byte_len all <= u32_max -> label_ = done_ ++ rest -> byte_len label_ <= u32_max ->
  align_loop run (byte_len before) (byte_len (before ++ run)) rest (byte_len done_) marks raw = (ms, e) ->
  exists extra, ms = marks ++ extra /\ marks_within (byte_len done_) extra e /\ e <= byte_len label_ /\
    Forall (mark_ok all) extra.
Proof.
  intros Hall Hfit. revert before run rest done_ marks Hall. induction raw as [|c raw IH];
    intros before run rest done_ marks Hall Hl Hlfit; cbn [align_loop].
  - intros [= <- <-]. exists []. rewrite app_nil_r. pose proof (byte_len_nonneg done_).
    subst label_. rewrite byte_len_app in *. pose proof (byte_len_nonneg rest). rewrite as_u32_small by lia.
    split_and!; [done | cbn; lia | lia | constructor].
  - assert (Hend : byte_len (before ++ run) + char_width c = byte_len (before ++ run ++ [c])).
    { rewrite !byte_len_app, byte_len_cons, byte_len_nil. lia. }
    rewrite Hend. unfold push_normalized. cbn [app].
    set (scratch := normalize_text (run ++ [c])). destruct (starts_with rest scratch) eqn:Es.
    + apply starts_with_spec in Es as [rest' ->]. rewrite drop_app_length. rewrite <- byte_len_app.
      replace (byte_len (before ++ run ++ [c])) with (byte_len ((before ++ run ++ [c]) ++ [])) at 2
        by (by rewrite app_nil_r).
      intros H. apply IH in H; cycle 1.
      { rewrite Hall. by rewrite <- !app_assoc. } { rewrite Hl. by rewrite <- app_assoc. } { done. }
      destruct H as (extra & -> & Hin & He & Hok). eexists. rewrite <- app_assoc. split; [reflexivity|].
      assert (Hb : 0 <= byte_len done_ /\ byte_len (done_ ++ scratch) <= u32_max /\
                   0 <= byte_len before <= u32_max /\ byte_len (before ++ run ++ [c]) <= u32_max).
      { rewrite Hl, !byte_len_app in Hlfit. rewrite Hall, !byte_len_app, byte_len_cons in Hfit.
        rewrite !byte_len_app, byte_len_cons, byte_len_nil.
        pose proof (byte_len_nonneg done_). pose proof (byte_len_nonneg before). pose proof (byte_len_nonneg run).
        pose proof (byte_len_nonneg raw). pose proof (byte_len_nonneg rest'). pose proof (char_width_pos c). lia. }
      split_and!; [|done|].
      * eapply marks_within_app; [|exact Hin]. pose proof (resolved_marks (byte_len done_) 0
          (as_u32 (byte_len before)) (as_u32 (byte_len (before ++ run ++ [c]))) scratch) as Hr.
        rewrite Z.add_0_r, <- byte_len_app in Hr. apply Hr; lia.
      * apply Forall_app. split; [|done]. apply Forall_map, Forall_forall. intros ic _. unfold mark_ok. cbn.
        rewrite !as_u32_small; [| pose proof (byte_len_nonneg (before ++ run ++ [c])); lia | lia].
        exists (run ++ [c]). apply str_get_Some. exists before, raw. rewrite Hall, !byte_len_app.
        split_and!; [by rewrite <- app_assoc | done | lia].
    + destruct (_ <=? _).
      * intros [= <- <-]. exists []. rewrite app_nil_r. pose proof (byte_len_nonneg done_).
        rewrite Hl, byte_len_app in *. pose proof (byte_len_nonneg rest). rewrite as_u32_small by lia.
        split_and!; [done | cbn; lia | lia | constructor].
      * intros H. apply (IH before (run ++ [c])) in H; [done | | done | done]. rewrite Hall. by rewrite <- app_assoc.
Qed.

Lemma align_marks_spec raw label_ marks mapped_end :
  byte_len raw <= u32_max -> byte_len label_ <= u32_max -> align_marks raw label_ = (marks, mapped_end) ->
  marks_within 0 marks mapped_end /\ mapped_end <= byte_len label_ /\ Forall (mark_ok raw) marks.
Proof.
  intros Hr Hl H. unfold align_marks in H.
  destruct (align_loop_spec raw [] [] label_ label_ [] [] raw marks mapped_end) as (extra & -> & H1 & H2 & H3); try done.
Qed.

(** * Words of a mapped label *)

(** What holds of the ranges found so far and the word that is open, when the
    next mark is at [lo] or later. *)
Definition word_state (ranges : list (Z * Z)) (open : option Z) (lo mapped_end : Z) : Prop :=
  ascending 0 ranges /\
  match open with
  | Some s => last_end 0 ranges <= s /\ s < lo /\ s < mapped_end
  | None => last_end 0 ranges <= lo
  end.

Lemma word_state_later ranges open lo lo' e :
  lo <= lo' -> word_state ranges open lo e -> word_state ranges open lo' e.
Proof. intros Hle [H1 H2]. split; [done|]. destruct open; lia. Qed.

Lemma close_word_state ranges open lo e stop :
  word_state ranges open lo e -> lo <= stop -> word_state (close_word ranges open stop) None stop e.
Proof.
  intros [Hr Ho] Hle. unfold close_word, word_state. destruct open as [s|]; [|split; [done | lia]].
  rewrite last_end_snoc. split; [apply ascending_push; [done | lia | lia] | lia].
Qed.

Lemma word_state_open ranges open lo e stop :
  word_state ranges open lo e -> lo <= stop -> stop < e ->
  word_state (close_word ranges open stop) (Some stop) (stop + 1) e.
Proof. intros H Hle He. destruct (close_word_state _ _ _ _ _ H Hle) as [H1 H2]. split; [done | lia]. Qed.

Lemma marked_words_total raw mapped_end l open previous ranges lo :
  Forall (mark_ok raw) l -> marks_within lo l mapped_end -> word_state ranges open lo mapped_end ->
  exists ranges' open', marked_words raw mapped_end l open previous ranges = Some (ranges', open') /\
    ascending 0 ranges' /\ forall s, open' = Some s -> last_end 0 ranges' <= s /\ s < mapped_end.
Proof.
  intros Hok. revert lo open previous ranges. induction Hok as [|m l Hm Hok IH]; intros lo open previous ranges Hin Hst;
    cbn [marked_words].
  { exists ranges, open. destruct Hst as [? Hst]. split_and!; [done..|]. intros s ->. lia. }
  destruct Hin as [Hlo Hin].
  destruct (Z.leb_spec mapped_end (norm m)).
  { exists ranges, open. destruct Hst as [? Hst]. split_and!; [done..|]. intros s ->. lia. }
  destruct Hm as [slice Hm]. assert (mark_char raw m = Some (head slice)) as -> by (unfold mark_char; by rewrite Hm).
  cbn [mbind option_bind].
  destruct (head slice) as [current|]; [|apply (IH (norm m + 1)); [done | by eapply word_state_later; [|exact Hst]; lia]].
  assert (exists next, match l with [] => Some None | following :: _ => mark_char raw following end = Some next)
    as [next ->].
  { destruct l as [|f l]; [by eexists|]. apply Forall_cons in Hok as [[s Hs] _]. unfold mark_char. rewrite Hs. by eexists. }
  cbn [mbind option_bind]. cbv zeta.
  assert (Hclosed : word_state (close_word ranges open (norm m)) None (norm m + 1) mapped_end).
  { eapply word_state_later; [|by eapply close_word_state]; lia. }
  assert (Hopened : word_state (close_word ranges open (norm m)) (Some (norm m)) (norm m + 1) mapped_end)
    by (eapply word_state_open; [exact Hst | lia | lia]).
  assert (Hkept : word_state ranges open (norm m + 1) mapped_end) by (eapply word_state_later; [|exact Hst]; lia).
  destruct (opens_word previous current next); cbn [orb andb].
  - destruct (word_capacity <=? _).
    { exists (close_word ranges open (norm m)), None. split_and!; [done | apply Hclosed | done]. }
    destruct l as [|f l]; [|by apply (IH (norm m + 1))].
    eexists _, _. split; [done|]. split; [|done].
    apply (close_word_state _ _ _ _ mapped_end Hopened). lia.
  - destruct (negb (is_word_char current)); cbn [orb].
    + destruct l as [|f l]; [|by apply (IH (norm m + 1))].
      eexists _, _. split; [done|]. split; [|done]. apply Hclosed.
    + destruct l as [|f l]; [|by apply (IH (norm m + 1))].
      eexists _, _. split; [done|]. split; [|done].
      apply (close_word_state _ _ _ _ mapped_end Hkept). lia.
Qed.

(** * Preparing *)

(** Whatever was given, preparing returns; with a label that can be addressed
    the words are ascending. *)
Lemma prepare_total raw_ text_ bytes label_ :
  exists p, prepare raw_ text_ bytes label_ = Some p /\ p_text p = text_ /\ label_bytes p = bytes /\
    (byte_len raw_ <= u32_max -> byte_len label_ <= u32_max -> ascending 0 (p_words p)).
Proof.
  unfold prepare. destruct (ascii_only raw_) eqn:Ha.
  - unfold word_ranges. cbn [mbind option_bind]. eexists. split; [reflexivity|]. split_and!; [done..|].
    intros Hr _. cbn [p_words]. pose proof (len_byte_len raw_).
    apply ascending_take, ascii_words_ascending; [lia | lia | lia | done | done].
  - destruct ((byte_len raw_ <=? u32_max) && (byte_len label_ <=? u32_max)) eqn:Hfit.
    + apply andb_true_iff in Hfit as [Hr%Z.leb_le Hl%Z.leb_le].
      destruct (align_marks raw_ label_) as [marks mapped_end] eqn:E.
      apply align_marks_spec in E as (Hin & He & Hok); [|done..].
      destruct (marked_words_total raw_ mapped_end marks None None [] 0 Hok Hin) as (ranges & open & E & Hasc & Hopen).
      { split; [done|]. cbn. lia. }
      unfold word_ranges. rewrite E. cbn [mbind option_bind]. eexists. split; [reflexivity|]. split_and!; [done..|].
      intros _ _. cbn [p_words]. apply ascending_take. destruct (_ <? _); [|done].
      destruct open as [s|]; [|done]. apply ascending_push; [done | by apply Hopen..].
    + unfold word_ranges. cbn [mbind option_bind]. eexists. split; [reflexivity|]. split_and!; [done..|].
      intros Hr%Z.leb_le Hl%Z.leb_le. by rewrite Hr, Hl in Hfit.
Qed.

(** * The searchable text *)

Lemma push_field_app out raw_ : exists more, push_searchable_field out raw_ = out ++ more.
Proof.
  unfold push_searchable_field, push_normalized. destruct raw_; [by exists []; rewrite app_nil_r|].
  destruct (ascii_only _), out; rewrite <- ?app_assoc; eexists; reflexivity.
Qed.

Lemma push_fields_app out l : exists more, foldl push_searchable_field out l = out ++ more.
Proof.
  revert out. induction l as [|f l IH]; intros out; cbn; [exists []; by rewrite app_nil_r|].
  destruct (push_field_app out f) as [m ->]. destruct (IH (out ++ m)) as [m' ->]. exists (m ++ m').
  by rewrite <- app_assoc.
Qed.

Lemma push_field_label raw_ : push_searchable_field [] raw_ = normalize_field raw_.
Proof. destruct raw_; [done|]. unfold push_searchable_field, push_normalized, normalize_field. by destruct (ascii_only _). Qed.

Lemma searchable_split item :
  exists rest, searchable_text_with_label item
               = (normalize_field (label item) ++ rest, byte_len (normalize_field (label item))).
Proof.
  unfold searchable_text_with_label. rewrite push_field_label.
  destruct (push_field_app (normalize_field (label item)) (description item)) as [m1 ->].
  destruct (push_fields_app (normalize_field (label item) ++ m1) (search_terms item)) as [m2 ->].
  exists (m1 ++ m2). by rewrite <- app_assoc.
Qed.

(** A label whose raw and folded forms can be addressed by 32 bits. *)
Definition addressable (item : SearchItem) : Prop :=
  byte_len (label item) <= u32_max /\ byte_len (normalize_field (label item)) <= u32_max.

Lemma prepare_item_total item :
  exists p rest, prepare_item item = Some p /\ p_text p = normalize_field (label item) ++ rest /\
    searchable_text item = p_text p /\
    label_bytes p = byte_len (normalize_field (label item)) /\
    normalized_label p = Some (normalize_field (label item)) /\
    (exists retained, keywords p = Some retained /\ exists blank_, rest = blank_ ++ retained) /\
    (addressable item -> ascending 0 (p_words p)).
Proof.
  destruct (searchable_split item) as [rest E]. unfold prepare_item, searchable_text. rewrite E.
  unfold from_searchable_text. rewrite split_at_app.
  destruct (prepare_total (label item) (normalize_field (label item) ++ rest)
              (byte_len (normalize_field (label item))) (normalize_field (label item))) as (p & -> & Ht & Hb & Hasc).
  exists p, rest. unfold normalized_label, keywords. rewrite Ht, Hb, split_at_app. cbn [mbind option_bind fmap option_fmap option_map fst].
  split_and!; try done; [|by intros [? ?]; apply Hasc].
  eexists. split; [reflexivity|]. destruct rest as [|c rest]; [by exists []|].
  destruct (Z.eq_dec c 32) as [->|]; [by exists [32]|].
  exists []. cbn [app]. repeat case_match; by simplify_eq.
Qed.

End Prepare.
