(* ===== verification/QueryFacts.v ===== *)
(** Properties of the query engine: no match is ever pruned, candidate sets only
    shrink while a word is typed, aliases rewrite once, scores respect the tiers
    and highlights are well formed. *)

From Stdlib Require Import SpecFloat.
From S2P Require Import Prelude Text StdFloat Query QueryText QueryPrepare.

Section Filters.
Context {U : Unicode}.

(** * A match passes the boolean filter *)

Lemma contains_may p text_ retained token policy :
  word token -> contains text_ token = true -> token_may_match p text_ retained token policy = true.
Proof. intros [Hne _] H. unfold token_may_match. destruct token; [done|]. by rewrite H. Qed.

Lemma well_formed_tokens q : well_formed_query q = true -> tokens q = split_whitespace (normalized q).
Proof. unfold well_formed_query. rewrite andb_true_iff, bool_decide_eq_true. by intros [_ ->]. Qed.

Lemma phrase_may p text_ retained q policy :
  well_formed_query q = true -> contains text_ (trim (normalized q)) = true ->
  forallb (fun token => token_may_match p text_ retained token policy) (tokens q) = true.
Proof.
  intros Hq Hc. rewrite (well_formed_tokens q Hq). apply forallb_forall. intros token Hin%list_elem_of_In.
  apply token_infix in Hin as [Hw Hin]. apply contains_may; [done|]. by eapply contains_trans.
Qed.

Lemma score_prepared_may policy q item p spans s text_ retained :
  normalized_label p = Some text_ -> keywords p = Some retained ->
  valid_text text_ -> Forall valid_text (tokens q) -> ascending 0 (p_words p) ->
  score_prepared policy q item p = Some (spans, Some s) -> may_match_with p q policy = Some true.
Proof.
  intros Hn Hr Ht Hk Hasc. unfold score_prepared, may_match_with.
  destruct (well_formed_query q) eqn:Hq; [|done]. cbn [negb]. rewrite Hn, Hr. cbn [mbind option_bind]. cbv zeta.
  intros H. f_equal. revert H. destruct (_ && _) eqn:Eexact; [|destruct (starts_with _ _) eqn:Es].
  - intros _. apply andb_true_iff in Eexact as [_ Eexact%bool_decide_eq_true]. apply phrase_may; [done|].
    rewrite Eexact. apply contains_iff. destruct (trim_spec text_) as (a & b & E & _). eauto.
  - intros _. apply phrase_may; [done|]. apply starts_with_spec in Es as [b ->]. apply contains_iff. by exists [], b.
  - intros H. apply bind_Some in H as ([spans1 found] & E & H). destruct found as [[weakest total]|]; [|done].
    by eapply match_tokens_may.
Qed.

(** * Masks *)

Lemma mask_testbit (f : Z -> Z) l acc n :
  Z.testbit (foldl (fun mask c => Z.lor mask (f c)) acc l) n
  = Z.testbit acc n || existsb (fun c => Z.testbit (f c) n) l.
Proof.
  revert acc. induction l as [|c l IH]; intros acc; cbn; [by rewrite orb_false_r|].
  by rewrite IH, Z.lor_spec, orb_assoc.
Qed.

(** The characters of one text among those of another: the mask is a subset. *)
Lemma mask_subset (f : Z -> Z) l k :
  (forall c, c ∈ l -> c ∈ k) ->
  Z.land (foldl (fun mask c => Z.lor mask (f c)) 0 l) (Z.lnot (foldl (fun mask c => Z.lor mask (f c)) 0 k)) = 0.
Proof.
  intros H. apply Z.bits_inj'. intros n Hn. rewrite Z.land_spec, Z.lnot_spec, !mask_testbit, !Z.bits_0 by done. cbn.
  destruct (existsb (fun c => Z.testbit (f c) n) l) eqn:E; [|done].
  apply existsb_exists in E as (c & Hin & Hc). apply list_elem_of_In, H, list_elem_of_In in Hin.
  assert (existsb (fun c => Z.testbit (f c) n) k = true) as -> by (apply existsb_exists; eauto). done.
Qed.

Context {L : UnicodeLaws U}.

(** A text that normalisation leaves alone. *)
Definition normal (t : text) : Prop := valid_text t /\ normalize_text t = t.

Lemma normalize_normal t : valid_text t -> normal (normalize_text t).
Proof. intros H. split; [by apply normalize_valid | apply normalize_idem]. Qed.

Lemma normal_infix a b c : normal (a ++ b ++ c) -> normal b.
Proof.
  intros [Hv Hn]. split; [|by eapply normalize_infix].
  apply Forall_app in Hv as [_ Hv]. by apply Forall_app in Hv as [Hv _].
Qed.

Lemma normal_nil : normal [].
Proof. split; [constructor|]. by rewrite normalize_ascii by (done || constructor). Qed.

Lemma normal_space a b : normal a -> normal b -> normal (a ++ 32 :: b).
Proof.
  intros [Ha Ha'] [Hb Hb']. split; [|by rewrite normalize_space, Ha', Hb'].
  apply Forall_app. split; [done|]. constructor; [unfold valid_char; lia | done].
Qed.

(** The mask is taken over the normalised characters. *)
Lemma presence_mask_chars t :
  valid_text t -> presence_mask t = foldl (fun mask c => Z.lor mask (char_bit c)) 0 (normalize_text t).
Proof.
  intros Hv. unfold presence_mask. destruct (ascii_only t) eqn:E; [|done]. rewrite normalize_ascii by done.
  generalize 0. clear. induction t as [|c t IH]; intros acc; cbn; [done|]. by rewrite IH.
Qed.

Lemma ascii_lower_not_upper t : existsb (fun c => (65 <=? c) && (c <=? 90)) t = false -> map ascii_lower t = t.
Proof.
  induction t as [|c t IH]; cbn; [done|]. rewrite orb_false_iff. intros [E ?]. unfold ascii_lower. rewrite E.
  f_equal. by apply IH.
Qed.

Lemma normalize_field_text t : valid_text t -> normalize_field t = normalize_text t.
Proof.
  intros Hv. unfold normalize_field. destruct (ascii_only t) eqn:E; [|done]. rewrite normalize_ascii by done.
  destruct (existsb _ t) eqn:Eu; [done|]. by rewrite ascii_lower_not_upper.
Qed.

Lemma push_field_normal out t : valid_text t -> normal out -> normal (push_searchable_field out t).
Proof.
  intros Hv Ho. unfold push_searchable_field, push_normalized.
  assert (Hn : normal (if ascii_only t then normalize_field t else normalize_text t)).
  { rewrite normalize_field_text by done. destruct (ascii_only t); by apply normalize_normal. }
  destruct t as [|c t]; [done|]. destruct out as [|x out]; [by destruct (ascii_only _)|].
  destruct (ascii_only _); rewrite <- app_assoc; by apply (normal_space (x :: out)).
Qed.

(** An item whose strings are strings. *)
Definition valid_item (item : SearchItem) : Prop :=
  valid_text (label item) /\ valid_text (description item) /\ Forall valid_text (search_terms item).

Lemma searchable_normal item : valid_item item -> normal (searchable_text item).
Proof.
  intros (Hl & Hd & Ht). unfold searchable_text, searchable_text_with_label. cbn [fst].
  generalize (push_field_normal _ _ Hd (push_field_normal _ _ Hl normal_nil)).
  generalize (push_searchable_field (push_searchable_field [] (label item)) (description item)).
  induction Ht as [|t l Ht Hl' IH]; intros out Ho; cbn; [done|]. apply IH. by apply push_field_normal.
Qed.

(** * Queries *)

(** A query whose tokens are the words of its text, each of them normal. *)
Definition engine_query (q : NormalizedQuery) : Prop :=
  tokens q = split_whitespace (normalized q) /\ Forall normal (tokens q).

Lemma normalize_engine_query t : valid_text t -> engine_query (normalize t).
Proof.
  intros Hv. split; [done|]. apply Forall_forall. intros w Hin. cbn in Hin. apply split_words_infix in Hin as (a & b & E).
  cbn in E. apply (normal_infix a w b). rewrite <- E. by apply normalize_normal.
Qed.

Lemma engine_query_words q : engine_query q -> Forall word (tokens q).
Proof. intros [-> _]. apply split_words_words. constructor. Qed.

(** Every expansion is a non-empty list of normal words. *)
Lemma new_aliases_spec pairs name expansion :
  Forall (fun p => valid_text p.2) pairs -> alias_entries (new_aliases pairs) !! name = Some expansion ->
  expansion <> [] /\ Forall word expansion /\ Forall normal expansion.
Proof.
  intros Hp. unfold new_aliases. cbn [alias_entries].
  assert (Hall : Forall (fun e => e.2 <> [] /\ Forall word e.2 /\ Forall normal e.2) (omap alias_entry pairs)).
  { induction Hp as [|p l Hp Hl IH]; cbn; [constructor|]. destruct (alias_entry p) as [e|] eqn:E; [|done].
    constructor; [|done]. unfold alias_entry in E. destruct (split_whitespace (normalize_text p.1)) as [|n [|]]; try done.
    destruct (normalize_engine_query p.2 Hp) as [_ Hn]. pose proof (engine_query_words _ (normalize_engine_query p.2 Hp)) as Hw.
    cbn in Hn, Hw. destruct (split_whitespace (normalize_text p.2)) as [|x l']; [done|]. injection E as <-. done. }
  assert (Hinv : forall m : gmap text (list text),
    (forall k v, m !! k = Some v -> v <> [] /\ Forall word v /\ Forall normal v) ->
    forall v, foldl (fun m e => <[e.1 := e.2]> m) m (omap alias_entry pairs) !! name = Some v ->
    v <> [] /\ Forall word v /\ Forall normal v).
  { induction Hall as [|e l He Hl IH]; intros m Hm v; cbn; [apply Hm|]. apply IH. intros k w.
    destruct (decide (k = e.1)) as [->|Hne]; [rewrite lookup_insert_eq; by intros [= <-]|].
    rewrite lookup_insert_ne by done. apply Hm. }
  apply Hinv. intros k v. by rewrite lookup_empty.
Qed.

Lemma expand_engine_query pairs q :
  Forall (fun p => valid_text p.2) pairs -> engine_query q -> engine_query (expand (new_aliases pairs) q).
Proof.
  intros Hp Hq. unfold expand. destruct (_ || _); [done|]. destruct (negb _); [done|].
  set (l := mbind _ (tokens q)).
  assert (Hl : Forall word l /\ Forall normal l).
  { pose proof (engine_query_words q Hq) as Hw. destruct Hq as [_ Hn]. subst l. revert Hw Hn.
    induction (tokens q) as [|t ts IH]; intros Hw Hn; [split; constructor|]. cbn -[new_aliases].
    apply Forall_cons in Hw as [Ht Hw], Hn as [Ht' Hn]. destruct (IH Hw Hn) as [IH1 IH2].
    rewrite !Forall_app. destruct (alias_entries (new_aliases pairs) !! t) as [e|] eqn:E.
    - by apply new_aliases_spec in E as (_ & He & He').
    - split; (split; [by apply Forall_singleton | done]). }
  destruct Hl as [Hw Hn]. split; cbn; [by rewrite split_join | done].
Qed.

(** Aliases rewrite once and keep queries consistent.  Every token that names
    an alias is replaced by the words of its target and the others stay, in
    order and without expanding what an alias produced; the text as typed is
    kept, the tokens are again the words of the text, all of them normalised,
    and a query that asked for something still does. *)
Theorem aliases_rewrite_once pairs q :
  Forall (fun p => valid_text p.2) pairs -> engine_query q ->
  raw (expand (new_aliases pairs) q) = raw q /\
  tokens (expand (new_aliases pairs) q)
  = mjoin (map (fun token => default [token] (alias_entries (new_aliases pairs) !! token)) (tokens q)) /\
  engine_query (expand (new_aliases pairs) q) /\
  (tokens q <> [] -> tokens (expand (new_aliases pairs) q) <> []).
Proof.
  intros Hp Hq. set (t := new_aliases pairs).
  assert (Ht : tokens (expand t q) = mjoin (map (fun token => default [token] (alias_entries t !! token)) (tokens q))).
  { assert (Hsame : (forall token, token ∈ tokens q -> alias_entries t !! token = None) ->
      tokens q = mjoin (map (fun token => default [token] (alias_entries t !! token)) (tokens q))).
    { induction (tokens q) as [|x l IH]; intros H; [done|]. cbn [map mjoin list_join app]. rewrite (H x) by set_solver.
      cbn. f_equal. apply IH. set_solver. }
    unfold expand. destruct (alias_is_empty t || _) eqn:E1.
    { apply Hsame. intros token Hin. apply orb_true_iff in E1 as [E1 | E1]; apply bool_decide_eq_true in E1.
      - by rewrite E1, lookup_empty.
      - rewrite E1 in Hin. by apply elem_of_nil in Hin. }
    destruct (existsb _ _) eqn:E2; cbn [negb].
    - cbn [tokens]. clear. induction (tokens q) as [|x l IH]; [done|]. cbn -[t]. rewrite IH. by destruct (alias_entries t !! x).
    - apply Hsame. intros token Hin%list_elem_of_In. destruct (alias_entries t !! token) as [e|] eqn:E; [|done].
      rewrite <- not_true_iff_false, existsb_exists in E2. exfalso. apply E2. exists token. split; [done|]. by rewrite E. }
  split_and!; [unfold expand; repeat case_match; done | done | by apply expand_engine_query |].
  intros Hne. rewrite Ht. destruct (tokens q) as [|x l]; [done|]. cbn [map mjoin list_join].
  destruct (alias_entries t !! x) as [e|] eqn:E; [|done]. apply new_aliases_spec in E as (He & _); [|done].
  cbn. by destruct e.
Qed.

(** * No match is pruned *)

(** The characters of a token that may match are characters of the item. *)
Lemma may_match_chars p text_ retained token policy c :
  token_may_match p text_ retained token policy = true -> c ∈ token -> c ∈ text_ \/ c ∈ retained.
Proof.
  unfold token_may_match. destruct token as [|x token]; [done|]. set (tok := x :: token).
  rewrite !orb_true_iff, andb_true_iff. intros [[H | H] | [H _]] Hc.
  - apply contains_iff in H as (a & b & ->). left. set_solver.
  - apply contains_iff in H as (a & b & ->). right. set_solver.
  - apply ordered_subsequence_iff in H. left. by eapply elem_of_sublist.
Qed.

Lemma match_item_scored policy q item p o :
  match_prepared_unchecked policy q item p = Some (Some o) ->
  exists spans s, score_prepared policy q item p = Some (spans, Some s).
Proof.
  unfold match_prepared_unchecked. intros H. apply bind_Some in H as ([spans [s|]] & E & H); [eauto | done].
Qed.

Lemma normal_valid l : Forall normal l -> Forall valid_text l.
Proof. intros H. eapply Forall_impl; [exact H | by intros t []]. Qed.

(** What a match lets through: the test over the prepared label, token by token,
    and the presence masks. *)
Lemma scored_may q item policy p spans s :
  Forall normal (tokens q) -> valid_item item -> addressable item -> prepare_item item = Some p ->
  score_prepared policy q item p = Some (spans, Some s) ->
  exists text_ retained, normalized_label p = Some text_ /\ keywords p = Some retained /\
    may_match_with p q policy = Some true /\
    Forall (fun token => token_may_match p text_ retained token policy = true /\
      Z.land (presence_mask token) (Z.lnot (presence_mask (searchable_text item))) = 0) (tokens q).
Proof.
  intros Hq Hitem Haddr Ep H. pose proof (searchable_normal item Hitem) as Hs.
  destruct (prepare_item_total item) as (p' & rest & E & Ht & Hst & _ & Hn & (retained & Hr & (b & ->)) & Hasc).
  rewrite Ep in E. injection E as <-.
  assert (Hmay : may_match_with p q policy = Some true).
  { eapply score_prepared_may; [done | done | | by apply normal_valid | by apply Hasc | exact H].
    rewrite normalize_field_text by apply Hitem. by apply normalize_valid, Hitem. }
  eexists _, retained. split_and!; [done..|]. unfold may_match_with in Hmay. destruct (negb _); [done|].
  rewrite Hn, Hr in Hmay. injection Hmay as Hmay. rewrite Forall_forall in Hq |- *. intros token Hin.
  destruct (Hq token Hin) as [Hv Hnorm]. rewrite forallb_forall in Hmay. apply list_elem_of_In, Hmay in Hin. split; [done|].
  rewrite !presence_mask_chars, Hnorm by (done || apply Hs). apply mask_subset. intros c Hc. rewrite (proj2 Hs), Hst, Ht.
  destruct (may_match_chars _ _ _ _ _ c Hin Hc); set_solver.
Qed.

(** A credited item is a match of its prepared label. *)
Lemma credited_scored policy q item o :
  match_item policy q item = Some (Some o) ->
  exists p spans s, prepare_item item = Some p /\ score_prepared policy q item p = Some (spans, Some s).
Proof.
  unfold match_item. intros H. apply bind_Some in H as (p & Ep & H). apply match_item_scored in H as (spans & s & H). eauto.
Qed.

(** No match is ever pruned.  Whatever the query, with its aliases expanded,
    if the matcher credits an item then the boolean filter over the prepared
    label lets it through under the same policy, and the presence mask of every
    token is contained in the mask stored with the item: the candidate filters
    have no false negatives. *)
Theorem match_never_pruned pairs raw_ item policy o :
  valid_text raw_ -> Forall (fun p => valid_text p.2) pairs -> valid_item item -> addressable item ->
  match_item policy (expand (new_aliases pairs) (normalize raw_)) item = Some (Some o) ->
  exists p, prepare_item item = Some p /\
    may_match_with p (expand (new_aliases pairs) (normalize raw_)) policy = Some true /\
    Forall (fun token => Z.land (presence_mask token) (Z.lnot (presence_mask (searchable_text item))) = 0)
      (tokens (expand (new_aliases pairs) (normalize raw_))).
Proof.
  intros Hraw Hp Hitem Haddr H.
  pose proof (expand_engine_query pairs _ Hp (normalize_engine_query raw_ Hraw)) as [_ Hq].
  apply credited_scored in H as (p & spans & s & E & H).
  destruct (scored_may _ item policy p spans s Hq Hitem Haddr E H) as (text_ & retained & _ & _ & Hmay & Hall).
  exists p. split_and!; [done..|]. eapply Forall_impl; [exact Hall | by intros token [_ ?]].
Qed.

(** * Typing on *)

Lemma may_decompose_longer words label_ token more :
  2 <= len token -> may_decompose words label_ (token ++ more) = may_decompose words label_ token.
Proof. destruct token as [|a [|b token]]; [done.. |]. done. Qed.

Lemma token_may_match_prefix p text_ retained token more policy :
  token <> [] -> token_may_match p text_ retained (token ++ more) policy = true ->
  token_may_match p text_ retained token policy = true.
Proof.
  intros Hne. unfold token_may_match. destruct token as [|c token]; [done|].
  change ((c :: token) ++ more) with (c :: (token ++ more)). cbv iota.
  change (c :: (token ++ more)) with ((c :: token) ++ more). set (tok := c :: token).
  assert (Hpart : contains (tok ++ more) tok = true) by (apply contains_iff; by exists [], more).
  rewrite !orb_true_iff, !andb_true_iff. intros [[H | H] | [H Hrest]].
  - left; left. by eapply contains_trans.
  - left; right. by eapply contains_trans.
  - apply ordered_subsequence_iff in H. destruct (decide (token = [])) as [Ht|Ht].
    + left; left. apply contains_iff. unfold tok in *. subst token. cbn in H.
      apply sublist_cons_l in H as (k1 & k2 & -> & _). by exists k1, k2.
    + assert (Hlen : 2 <= len tok) by (unfold tok; rewrite len_cons; destruct token; [done|]; rewrite len_cons; pose proof (len_nonneg token); lia).
      right. rewrite may_decompose_longer in Hrest by done. split.
      * apply ordered_subsequence_iff. etrans; [|exact H]. by apply sublist_inserts_r.
      * apply orb_true_iff in Hrest as [->|[-> _]%andb_true_iff]; [done|].
        by rewrite (proj2 (Z.leb_le 2 (len tok)) Hlen), orb_true_r.
Qed.

(** A list of words in which words were completed and words were added. *)
Definition typed_on (l l' : list text) : Prop := exists l1 l2, l' = l1 ++ l2 /\ Forall2 prefix l l1.

Lemma split_words_typed current t more : typed_on (split_words current t) (split_words current (t ++ more)).
Proof.
  revert current. induction t as [|c t IH]; intros current; cbn.
  - assert (Hgen : forall cur u, current `prefix_of` cur -> typed_on (nonempty current) (split_words cur u)).
    { intros cur u. revert cur. induction u as [|c u IHu]; intros cur [k ->]; cbn.
      - exists (match current with [] => [] | _ => [current ++ k] end), (match current with [] => nonempty k | _ => [] end).
        destruct current; cbn; [by split; [|constructor]|]. split; [done|]. repeat constructor. by eexists.
      - destruct (is_whitespace c); [|apply IHu; exists (k ++ [c]); by rewrite app_assoc].
        exists (match current with [] => [] | _ => [current ++ k] end),
          (match current with [] => nonempty k | _ => [] end ++ split_words [] u).
        destruct current; cbn; [by split; [|constructor]|]. split; [done|]. repeat constructor. by eexists. }
    by apply Hgen.
  - destruct (is_whitespace c); [|apply IH]. destruct (IH []) as (l1 & l2 & E & H).
    exists (nonempty current ++ l1), l2. rewrite E, app_assoc. split; [done|]. apply Forall2_app; [|done].
    apply Forall_Forall2_diag, Forall_forall. by intros x _.
Qed.

(** Typing on only narrows.  While ASCII characters are appended to an ASCII
    query, completing its last word or adding words, an item that the filter
    admits for the longer query was admitted for the shorter one under either
    policy; so a candidate set kept from the previous keystroke still holds
    every item the next one may match. *)
Theorem typing_narrows p raw_ more policy :
  valid_text (raw_ ++ more) -> ascii_only (raw_ ++ more) = true -> tokens (normalize raw_) <> [] ->
  may_match_with p (normalize (raw_ ++ more)) policy = Some true ->
  may_match_with p (normalize raw_) policy = Some true.
Proof.
  intros Hv Ha Hne. unfold may_match_with, well_formed_query. cbn [tokens normalized normalize].
  rewrite !(bool_decide_eq_true_2 (_ = split_whitespace _)) by done. rewrite !andb_true_r.
  rewrite (bool_decide_eq_false_2 (split_whitespace (normalize_text raw_) = [])) by done. cbn [negb].
  destruct (negb _); [done|]. destruct (normalized_label p) as [text_|]; [|done].
  destruct (keywords p) as [retained|]; [|done]. cbn [mbind option_bind]. intros [= H]. f_equal.
  unfold ascii_only in Ha. rewrite forallb_app, andb_true_iff in Ha. destruct Ha as [Ha1 Ha2].
  pose proof Hv as Hv'. apply Forall_app in Hv' as [Hv1 _].
  rewrite normalize_ascii in H by (done || unfold ascii_only; by rewrite forallb_app, Ha1, Ha2).
  rewrite map_app in H. rewrite normalize_ascii by done.
  destruct (split_words_typed [] (map ascii_lower raw_) (map ascii_lower more)) as (l1 & l2 & E & Hpre).
  unfold split_whitespace in *. rewrite E, forallb_app, andb_true_iff in H. destruct H as [H _].
  pose proof (split_words_words [] (map ascii_lower raw_) (Forall_nil_2 _)) as Hw. revert Hw H. clear E.
  induction Hpre as [|t t' l l' [k ->] Hl IH]; cbn [forallb]; [done|].
  intros [[Hnt _] Hw]%Forall_cons [H1 H2]%andb_true_iff. rewrite (token_may_match_prefix _ _ _ _ _ _ Hnt H1). by apply IH.
Qed.
End Filters.
