(* ===== verification/QueryScores.v ===== *)
(** Scores and highlights: the method of a match fixes its band, so a stronger
    reading always outscores a weaker one; highlights are ordered, separate,
    non-empty ranges of whole characters that cover exactly what matched. *)

From Stdlib Require Import SpecFloat.
From S2P Require Import Prelude Text StdFloat Query QueryText QueryWords QueryPrepare QueryFacts.

(** * Bands *)

Lemma unit_quality_finite x : f32_is_finite (unit_quality x) = true.
Proof.
  unfold unit_quality, f32_clamp. destruct (f32_is_finite x) eqn:E; [|done].
  destruct (f32_lt x f32_zero); destruct (f32_lt f32_one _); done.
Qed.

Lemma score_in_band m x :
  f32_le (band m).1 (score_for m x) = true /\ f32_le (score_for m x) (band m).2 = true.
Proof.
  unfold score_for. destruct (band m) as [low high] eqn:E. cbn [fst snd].
  assert (Hb : f32_is_finite low = true /\ f32_is_finite (f32_sub high low) = true /\ f32_le low high = true).
  { destruct m; injection E as <- <-; vm_compute; done. }
  destruct Hb as (Hl & Hd & Hle). apply f32_clamp_range; [|done].
  apply f32_add_number; [done|]. apply f32_mul_number; [done | apply unit_quality_finite].
Qed.

Lemma bands_apart m m' : precedence m < precedence m' -> f32_lt (band m').2 (band m).1 = true.
Proof. destruct m, m'; cbn; intros; try lia; vm_compute; reflexivity. Qed.

Lemma band_within m : f32_lt f32_zero (band m).1 = true /\ f32_le (band m).2 f32_one = true.
Proof. destruct m; vm_compute; done. Qed.

(** The gap that the position bonus of the ranking is calibrated against. *)
Lemma band_gaps m m' : precedence m' = precedence m + 1 -> f32_le (f32_literal 19 3) (f32_sub (band m).1 (band m').2) = true.
Proof. destruct m, m'; cbn; intros; try lia; vm_compute; reflexivity. Qed.

Section Outcomes.
Context {U : Unicode}.

Lemma summary_scored policy q item p spans s :
  score_prepared policy q item p = Some (spans, Some s) -> exists x, s_score s = score_for (s_method s) x.
Proof.
  unfold score_prepared. destruct (negb _); [done|]. intros H. apply bind_Some in H as (text_ & _ & H). cbv zeta in H.
  destruct (_ && _); [injection H as <- <-; by eexists|].
  destruct (starts_with _ _); [injection H as <- <-; by eexists|].
  apply bind_Some in H as ([spans1 found] & _ & H). destruct found as [[weakest total]|]; [|done].
  injection H as <- <-. by eexists.
Qed.

Lemma exact_scored q p o : exact_label_match q p = Some (Some o) -> o_score o = score_for (o_method o) f32_one.
Proof.
  unfold exact_label_match. intros H. apply bind_Some in H as (text_ & _ & H). cbv zeta in H.
  destruct (_ || _); [done|]. by injection H as <-.
Qed.

Lemma outcome_scored policy q item o :
  match_item policy q item = Some (Some o) -> exists x, o_score o = score_for (o_method o) x.
Proof.
  unfold match_item, match_prepared_unchecked. intros H. apply bind_Some in H as (p & _ & H).
  apply bind_Some in H as ([spans s] & E & H). destruct s as [s|]; [|done]. case_bool_decide.
  - apply bind_Some in H as (exact & Ex & H). destruct exact as [o'|]; [|done]. injection H as <-.
    apply exact_scored in Ex. eauto.
  - injection H as <-. by eapply summary_scored.
Qed.

(** C28: the tier decides first.  Whatever the queries and the items, a match by a
    stronger method scores higher than any match by a weaker one, and every
    score lies above zero and at most at one. *)
Theorem stronger_method_outscores policy q item o policy' q' item' o' :
  match_item policy q item = Some (Some o) -> match_item policy' q' item' = Some (Some o') ->
  f32_lt f32_zero (o_score o) = true /\ f32_le (o_score o) f32_one = true /\
  (precedence (o_method o) < precedence (o_method o') -> f32_lt (o_score o') (o_score o) = true).
Proof.
  intros [x H]%outcome_scored [x' H']%outcome_scored. rewrite H, H'.
  destruct (score_in_band (o_method o) x) as [Hlo Hhi], (score_in_band (o_method o') x') as [Hlo' Hhi'].
  destruct (band_within (o_method o)) as [Hpos Hone]. split_and!.
  - by eapply f32_lt_le_trans.
  - by eapply f32_le_trans.
  - intros Hp. eapply f32_le_lt_trans; [exact Hhi'|]. eapply f32_lt_le_trans; [by apply bands_apart | done].
Qed.
End Outcomes.

(** * Spans *)

(** Ranges in order with a gap between them. *)
Fixpoint separate (l : list (Z * Z)) : Prop :=
  match l with
  | [] => True
  | s :: l' => s.1 < s.2 /\ match l' with [] => True | t :: _ => s.2 < t.1 end /\ separate l'
  end.

(** The bytes some range covers. *)
Definition covered (l : list (Z * Z)) (n : Z) : Prop := exists s, s ∈ l /\ s.1 <= n < s.2.

Lemma covered_cons s l n : covered (s :: l) n <-> s.1 <= n < s.2 \/ covered l n.
Proof. unfold covered. set_solver. Qed.

Lemma coalesce_head previous l : exists e l', coalesce previous l = (previous.1, e) :: l' /\ previous.2 <= e.
Proof.
  revert previous. induction l as [|s l IH]; intros [a b]; cbn; [exists b, []; split; [done | lia]|].
  destruct (Z.ltb_spec b s.1); [exists b, (coalesce s l); split; [done | lia]|].
  destruct (IH (a, if b <? s.2 then s.2 else b)) as (e & l' & -> & He). cbn in *. exists e, l'. split; [done|].
  destruct (Z.ltb_spec b s.2); lia.
Qed.

(** Coalescing sorted non-empty ranges: what it covers, and how. *)
Lemma coalesce_spec previous l :
  previous.1 < previous.2 -> Forall (fun s => s.1 < s.2 /\ previous.1 <= s.1) l -> StronglySorted span_le l ->
  separate (coalesce previous l) /\ forall n, covered (coalesce previous l) n <-> covered (previous :: l) n.
Proof.
  revert previous. induction l as [|s l IH]; intros [a b] Hne Hall Hsort; cbn [coalesce fst snd] in *.
  { split; [cbn; lia | done]. }
  apply Forall_cons in Hall as [[Hs Has] Hall]. inversion Hsort as [|? ? Hsort' Hle]; subst.
  assert (Hlater : Forall (fun t => t.1 < t.2 /\ s.1 <= t.1) l).
  { rewrite Forall_forall in Hall, Hle |- *. intros t Ht. split; [by apply Hall|].
    specialize (Hle t Ht). unfold span_le, span_leb in Hle. lia. }
  destruct (Z.ltb_spec b s.1).
  - destruct (IH s Hs Hlater Hsort') as [H1 H2]. destruct (coalesce_head s l) as (e & l' & E & _). split.
    + cbn. rewrite E in *. cbn. split; [done|]. split; [done|]. exact H1.
    + intros n. by rewrite covered_cons, H2, (covered_cons (a, b)).
  - destruct (IH (a, if b <? s.2 then s.2 else b)) as [H1 H2]; cbn [fst snd].
    + destruct (Z.ltb_spec b s.2); lia.
    + eapply Forall_impl; [exact Hlater|]. cbn. lia.
    + done.
    + split; [exact H1|]. intros n. rewrite H2, !covered_cons. cbn. destruct (Z.ltb_spec b s.2);
      (split; [intros [?|?]; [destruct (decide (n < b)); [left; lia | right; left; lia] | right; right; done]
              | intros [?|[?|?]]; [left; lia | left; lia | by right]]).
Qed.

#[global] Instance span_le_total : Total span_le.
Proof. intros a b. unfold span_le, span_leb. lia. Qed.
#[global] Instance span_le_trans : Transitive span_le.
Proof. intros a b c. unfold span_le, span_leb. lia. Qed.

(** Merging non-empty spans keeps what they cover. *)
Lemma merge_spans_spec l :
  Forall (fun s => s.1 < s.2) l ->
  separate (merge_spans l) /\ forall n, covered (merge_spans l) n <-> covered l n.
Proof.
  intros Hne. destruct l as [|a [|b l]]; [done | |].
  { rewrite Forall_singleton in Hne. split; [exact (conj Hne (conj I I)) | done]. }
  unfold merge_spans. set (all := a :: b :: l) in *.
  pose proof (merge_sort_Permutation span_le all) as Hp. pose proof (StronglySorted_merge_sort span_le all) as Hs.
  destruct (merge_sort span_le all) as [|first rest]; [by apply Permutation_nil_l in Hp|].
  assert (Hne' : Forall (fun s => s.1 < s.2) (first :: rest)) by (by rewrite Hp).
  apply Forall_cons in Hne' as [Hf Hr]. inversion Hs as [|? ? Hs' Hle]; subst.
  destruct (coalesce_spec first rest Hf) as [H1 H2]; [|done|].
  - rewrite Forall_forall in Hr, Hle |- *. intros t Ht. split; [by apply Hr|].
    specialize (Hle t Ht). unfold span_le, span_leb in Hle. lia.
  - split; [done|]. intros n. rewrite H2. unfold covered. by setoid_rewrite Hp.
Qed.

(** * Highlights *)

Lemma span_bounds label_ s : valid_span label_ s = true <->
  s.1 < s.2 /\ is_Some (split_at label_ s.1) /\ is_Some (split_at label_ s.2).
Proof.
  unfold valid_span. rewrite andb_true_iff, Z.ltb_lt, is_some_true. split.
  - intros [Hlt [w H]]. apply str_get_Some in H as (x & y & -> & Hx & Hw). split_and!; [done| |].
    + exists (x, w ++ y). by apply split_at_iff.
    + exists (x ++ w, y). apply split_at_iff. rewrite <- app_assoc, byte_len_app. split; [done | lia].
  - intros (Hlt & [[x1 y1] H1] & [[x2 y2] H2]). split; [done|].
    apply split_at_iff in H1 as [E1 H1], H2 as [E2 H2]. rewrite E1 in E2.
    destruct (prefixes_ordered x1 y1 x2 y2 E2) as (w & -> & ->); [lia|]. exists w. apply str_get_Some.
    exists x1, y2. rewrite byte_len_app in H2. split_and!; [done | done | lia].
Qed.

Lemma coalesce_bounds (P : Z -> Prop) previous l :
  P previous.1 -> P previous.2 -> Forall (fun s => P s.1 /\ P s.2) l ->
  Forall (fun s => P s.1 /\ P s.2) (coalesce previous l).
Proof.
  intros H1 H2 Hl. revert previous H1 H2. induction Hl as [|s l [Hs1 Hs2] Hl IH]; intros previous H1 H2; cbn.
  { by apply Forall_singleton. }
  destruct (_ <? _); [constructor; [done | by apply IH]|]. apply IH; [done|]. cbn. by destruct (_ <? _).
Qed.

Lemma merge_spans_bounds (P : Z -> Prop) l :
  Forall (fun s => P s.1 /\ P s.2) l -> Forall (fun s => P s.1 /\ P s.2) (merge_spans l).
Proof.
  intros Hl. destruct l as [|a [|b l]]; [done..|]. unfold merge_spans. set (all := a :: b :: l) in *.
  pose proof (merge_sort_Permutation span_le all) as Hp.
  destruct (merge_sort span_le all) as [|first rest]; [constructor|]. rewrite <- Hp in Hl.
  apply Forall_cons in Hl as [[] Hl]. by apply coalesce_bounds.
Qed.

Lemma separate_nonempty l : separate l -> Forall (fun s => s.1 < s.2) l.
Proof. induction l as [|s l IH]; intros H; constructor; cbn in H; [lia | apply IH, H]. Qed.

Lemma merge_spans_valid label_ l :
  Forall (fun s => valid_span label_ s = true) l -> Forall (fun s => valid_span label_ s = true) (merge_spans l).
Proof.
  intros Hl. destruct (merge_spans_spec l) as [Hsep _].
  { eapply Forall_impl; [exact Hl|]. by intros s [? _]%span_bounds. }
  apply separate_nonempty in Hsep.
  assert (Hb : Forall (fun s => is_Some (split_at label_ s.1) /\ is_Some (split_at label_ s.2)) (merge_spans l)).
  { apply (merge_spans_bounds (fun n => is_Some (split_at label_ n))). eapply Forall_impl; [exact Hl|].
    by intros s [_ ?]%span_bounds. }
  rewrite Forall_forall in Hsep, Hb |- *. intros s Hs. apply span_bounds. split; [by apply Hsep | by apply Hb].
Qed.

Lemma retain_valid label_ l : Forall (fun s => valid_span label_ s = true) (retain_valid_spans label_ l).
Proof. apply Forall_forall. intros s Hs. by apply list_elem_of_In, List.filter_In in Hs as [_ Hs]. Qed.

Section Highlights.
Context {U : Unicode}.

Lemma separate_few l : (length l <= 1)%nat -> Forall (fun s => s.1 < s.2) l -> separate l.
Proof.
  destruct l as [|s [|]]; cbn; intros ? H; [done | rewrite Forall_singleton in H; done | lia].
Qed.

Lemma exact_highlights q p o : exact_label_match q p = Some (Some o) -> (length (highlights o) <= 1)%nat.
Proof.
  unfold exact_label_match. intros H. apply bind_Some in H as (text_ & _ & H). cbv zeta in H.
  destruct (_ || _); [done|]. injection H as <-. cbn. unfold push_span. destruct (to_raw _ _ _); cbn; lia.
Qed.

Lemma valid_nonempty label_ l : Forall (fun s => valid_span label_ s = true) l -> Forall (fun s => s.1 < s.2) l.
Proof. intros H. eapply Forall_impl; [exact H|]. by intros s [? _]%span_bounds. Qed.

(** Highlights are fit for the screen.  The highlights of every match are
    non-empty ranges of whole characters of the item's own label, in order and
    with a gap between them; and merging the spans of the tokens covers exactly
    the bytes they covered. *)
Theorem highlights_well_formed policy q item o :
  match_item policy q item = Some (Some o) ->
  separate (highlights o) /\ Forall (fun s => is_Some (str_get (label item) s.1 s.2)) (highlights o) /\
  (o_method o <> ExactPrefix -> exists p spans summary,
     prepare_item item = Some p /\ score_prepared policy q item p = Some (spans, Some summary) /\
     forall n, covered (highlights o) n <-> covered (retain_valid_spans (label item) spans) n).
Proof.
  unfold match_item, match_prepared_unchecked. intros H. apply bind_Some in H as (p & Hp & H).
  apply bind_Some in H as ([spans s] & E & H). destruct s as [s|]; [|done].
  assert (Hstr : forall l, Forall (fun s => valid_span (label item) s = true) l ->
                   Forall (fun s => is_Some (str_get (label item) s.1 s.2)) l).
  { intros l Hl. eapply Forall_impl; [exact Hl|]. intros x [_ Hx]%andb_true_iff. by apply is_some_true. }
  case_bool_decide as Hm.
  - apply bind_Some in H as (exact_ & Ex & H). destruct exact_ as [o'|]; [|done]. injection H as <-. cbn [highlights o_method].
    pose proof (retain_valid (label item) (highlights o')) as Hv. split_and!; [| by apply Hstr|].
    + apply separate_few; [|by eapply valid_nonempty]. apply exact_highlights in Ex.
      unfold retain_valid_spans. pose proof (List.filter_length_le (valid_span (label item)) (highlights o')). lia.
    + unfold exact_label_match in Ex. apply bind_Some in Ex as (text_ & _ & Ex). cbv zeta in Ex.
      destruct (_ || _); [done|]. by injection Ex as <-.
  - injection H as <-. cbn [highlights o_method]. pose proof (retain_valid (label item) spans) as Hv.
    destruct (merge_spans_spec _ (valid_nonempty _ _ Hv)) as [Hsep Hcov]. split_and!; [done | | by intros _; exists p, spans, s].
    by apply Hstr, merge_spans_valid.
Qed.

(** * Matching never fails *)

Lemma match_label_total p text_ token spans :
  valid_text text_ -> valid_text token -> is_Some (match_label p text_ token spans).
Proof.
  intros Hv Ht. unfold match_label. destruct (starts_with _ _); [eauto|].
  assert (Hw : is_Some (if may_decompose (p_words p) text_ token then word_prefix_quality p text_ token spans
                        else Some (spans, None))).
  { destruct (may_decompose _ _ _); [|eauto]. unfold word_prefix_quality.
    destruct (word_prefix_into _ _ _) as [[[rows value] count]|] eqn:E; [|eauto].
    apply word_prefix_into_iff in E as (Hs & Hd & -> & _); [|done..].
    destruct (replay_complete p text_ token (p_words p) 0 0 spans) as (chunks & spans' & ->); [done | done | | | |].
    - by eapply token_fits.
    - apply Hs.
    - by apply covers_from_start.
    - cbn [mbind option_bind]. destruct (_ || _); eauto. }
  destruct Hw as [[spans' found] ->]. cbn [mbind option_bind]. destruct found; [eauto|].
  destruct (str_find _ _); eauto.
Qed.

Lemma match_token_total p item policy token spans text_ :
  normalized_label p = Some text_ -> is_Some (keywords p) -> valid_text text_ -> valid_text token ->
  is_Some (match_token p item policy token spans).
Proof.
  intros Hn [retained Hr] Hv Ht. unfold match_token. destruct token as [|c token]; [eauto|]. rewrite Hn, Hr.
  cbn [mbind option_bind]. destruct (match_label_total p text_ (c :: token) spans Hv Ht) as [[spans' found] ->].
  cbn [mbind option_bind]. destruct found; [eauto|]. destruct (if contains _ _ then _ else _); [eauto|].
  destruct policy; [eauto|]. destruct (subsequence_quality _ _ _ _); eauto.
Qed.

Lemma match_tokens_total p item policy l weakest total spans text_ :
  normalized_label p = Some text_ -> is_Some (keywords p) -> valid_text text_ -> Forall valid_text l ->
  is_Some (match_tokens p item policy l weakest total spans).
Proof.
  intros Hn Hr Hv Hl. revert weakest total spans. induction Hl as [|t l Ht Hl IH]; intros weakest total spans;
    cbn [match_tokens]; [eauto|].
  destruct (match_token_total p item policy t spans text_ Hn Hr Hv Ht) as [[spans' found] ->]. cbn [mbind option_bind].
  destruct found as [[m x]|]; [apply IH | eauto].
Qed.

Lemma score_prepared_total policy q item p text_ :
  normalized_label p = Some text_ -> is_Some (keywords p) -> valid_text text_ -> Forall valid_text (tokens q) ->
  is_Some (score_prepared policy q item p).
Proof.
  intros Hn Hr Hv Hq. unfold score_prepared. destruct (negb _); [eauto|]. rewrite Hn. cbn [mbind option_bind]. cbv zeta.
  destruct (_ && _); [eauto|]. destruct (starts_with _ _); [eauto|].
  destruct (match_tokens_total p item policy (tokens q) ExactPrefix f32_zero [] text_ Hn Hr Hv Hq) as [[spans' found] ->].
  cbn [mbind option_bind]. destruct found as [[m x]|]; eauto.
Qed.

Lemma match_unchecked_total policy q item p text_ :
  normalized_label p = Some text_ -> is_Some (keywords p) -> valid_text text_ -> Forall valid_text (tokens q) ->
  is_Some (match_prepared_unchecked policy q item p).
Proof.
  intros Hn Hr Hv Hq. unfold match_prepared_unchecked.
  destruct (score_prepared_total policy q item p text_ Hn Hr Hv Hq) as [[spans found] ->]. cbn [mbind option_bind].
  destruct found as [s|]; [|eauto]. case_bool_decide; [|eauto]. unfold exact_label_match. rewrite Hn. cbn [mbind option_bind].
  cbv zeta. destruct (_ || _); eauto.
Qed.

(** Matching never panics, and a prepared label cannot mislead it.  On every
    item and every query a result is returned: slicing stays on character
    boundaries whatever the text and however normalisation changes lengths.
    Matching with a label that was prepared for another item gives the same
    result as matching the item itself. *)
Theorem matching_total {L : UnicodeLaws U} policy q item p :
  valid_item item -> Forall valid_text (tokens q) ->
  exists r, match_item policy q item = Some r /\ match_prepared policy q item p = Some r.
Proof.
  intros Hi Hq. unfold match_item, match_prepared.
  destruct (prepare_item_total item) as (c & rest & -> & _ & _ & _ & Hn & (retained & Hr & _) & _). cbn [mbind option_bind].
  destruct (match_unchecked_total policy q item c (normalize_field (label item)) Hn) as [r Hm].
  - rewrite Hr. eauto.
  - rewrite normalize_field_text by apply Hi. by apply normalize_valid, Hi.
  - done.
  - exists r. split; [done|]. case_bool_decide; [by subst | done].
Qed.
End Highlights.

(** * Witnesses *)

#[local] Existing Instance ascii_unicode.

#[local] Instance ascii_laws : UnicodeLaws ascii_unicode.
Proof.
  assert (Hidem : forall t, map ascii_lower (map ascii_lower t) = map ascii_lower t).
  { intros t. rewrite map_map. apply map_ext, ascii_lower_idemp. }
  constructor; cbn -[ascii_lower].
  - intros t Ht. apply Forall_map. eapply Forall_impl; [exact Ht|]. unfold valid_char, ascii_lower. intros c.
    destruct (_ && _) eqn:E; lia.
  - done.
  - apply Hidem.
  - intros a b c H. rewrite !map_app in H. apply app_inj_1 in H as [_ H]; [|by rewrite length_map].
    by apply app_inj_1 in H as [H _]; [|by rewrite length_map].
  - intros a b. by rewrite map_app.
Qed.

Definition editor_pairs : list (text * text) := [(ascii "vsc", ascii "Visual Studio Code")].

Lemma code_editor_valid : valid_item code_editor.
Proof. split_and!; [by apply valid_text_check.. | constructor]. Qed.

Definition editor_label : PreparedLabel := default (mkPrepared [] 0 None 0 []) (prepare_item code_editor).

(** The outcome of a query on the sample item. *)
Definition editor_outcome (q : NormalizedQuery) : MatchOutcome :=
  match match_item Strict q code_editor with Some (Some o) => o | _ => mkOutcome f32_zero ExactPrefix [] end.

Lemma match_never_pruned_witness :
  exists p, prepare_item code_editor = Some p /\
    may_match_with p (expand (new_aliases editor_pairs) (normalize (ascii "vsc edit"))) Strict = Some true.
Proof.
  destruct (match_never_pruned editor_pairs (ascii "vsc edit") code_editor Strict
    (editor_outcome (expand (new_aliases editor_pairs) (normalize (ascii "vsc edit"))))) as (p & H1 & H2 & _).
  - by apply valid_text_check.
  - apply Forall_singleton. by apply valid_text_check.
  - apply code_editor_valid.
  - split; vm_compute; discriminate.
  - vm_compute. reflexivity.
  - exists p. split; [exact H1 | exact H2].
Defined.

Lemma typing_narrows_witness : may_match_with editor_label (normalize (ascii "vs")) Strict = Some true.
Proof.
  apply (typing_narrows editor_label (ascii "vs") (ascii "code") Strict).
  - by apply valid_text_check.
  - reflexivity.
  - discriminate.
  - vm_compute. reflexivity.
Defined.

Lemma aliases_rewrite_once_witness :
  tokens (expand (new_aliases editor_pairs) (normalize (ascii "vsc edit")))
  = mjoin (map (fun token => default [token] (alias_entries (new_aliases editor_pairs) !! token))
      (tokens (normalize (ascii "vsc edit")))).
Proof.
  refine (proj1 (proj2 (aliases_rewrite_once editor_pairs (normalize (ascii "vsc edit")) _ _))).
  - apply Forall_singleton. by apply valid_text_check.
  - apply normalize_engine_query. by apply valid_text_check.
Defined.

Lemma stronger_method_outscores_witness :
  f32_lt (o_score (editor_outcome (normalize (ascii "edit")))) (o_score (editor_outcome (normalize (ascii "visual")))) = true.
Proof.
  refine (proj2 (proj2 (stronger_method_outscores Strict (normalize (ascii "visual")) code_editor
    (editor_outcome (normalize (ascii "visual"))) Strict (normalize (ascii "edit")) code_editor
    (editor_outcome (normalize (ascii "edit"))) _ _)) _); vm_compute; reflexivity.
Defined.

Lemma highlights_well_formed_witness : separate (highlights (editor_outcome (normalize (ascii "vscode")))).
Proof.
  refine (proj1 (highlights_well_formed Strict (normalize (ascii "vscode")) code_editor
    (editor_outcome (normalize (ascii "vscode"))) _)). vm_compute. reflexivity.
Defined.

Lemma matching_total_witness :
  exists r, match_item Strict (normalize (ascii "code")) code_editor = Some r /\
    match_prepared Strict (normalize (ascii "code")) code_editor (mkPrepared [] 0 None 0 []) = Some r.
Proof.
  apply (matching_total Strict (normalize (ascii "code")) code_editor (mkPrepared [] 0 None 0 [])).
  - apply code_editor_valid.
  - apply Forall_singleton. by apply valid_text_check.
Defined.
