(* ===== verification/QueryNarrow.v ===== *)
(** When the matcher credits an item, token by token, and that typing on only
    narrows: what matches a longer query matches every shorter one it continues. *)

From Stdlib Require Import SpecFloat.
From S2P Require Import Prelude Text StdFloat Query QueryText QueryWords QueryPrepare QueryFacts QueryScores.

(** * One token *)

Lemma keyword_fold token fields best found :
  (foldl (keyword_step token) (best, found) fields).2 = found || existsb (fun f => contains f token) fields.
Proof.
  revert best found. induction fields as [|f fields IH]; intros best found; cbn; [by rewrite orb_false_r|].
  unfold keyword_step at 2, contains at 1. destruct (str_find f token) as [before|]; cbn [is_some orb]; [|by rewrite IH].
  by rewrite IH, orb_true_l, orb_true_r.
Qed.

Lemma keyword_quality_iff fields token : is_Some (keyword_quality fields token) <-> existsb (fun f => contains f token) fields = true.
Proof.
  unfold keyword_quality. pose proof (keyword_fold token fields f32_zero false) as H. cbn [orb] in H.
  destruct (foldl _ _ fields) as [best found]. cbn [snd] in H. rewrite H. destruct (existsb _ _); [by split; eauto | split; [by intros [] | done]].
Qed.

Section Tokens.
Context {U : Unicode}.

(** A replay that took no chunk covered nothing; one chunk is a prefix of one word. *)
Lemma replay_chunks p text_ token words rows offset chunks spans n chunks' spans' :
  valid_text text_ -> valid_text token ->
  replay p text_ token words rows offset chunks spans = Some (n, chunks', spans') ->
  chunks <= chunks' /\ (chunks' = chunks -> n = offset) /\
  (chunks' = chunks + 1 -> n = byte_len token -> exists a b, split_at token offset = Some (a, b) /\
     exists r, In r words /\ b `prefix_of` word_text text_ r).
Proof.
  intros Ht Hk. revert rows offset chunks spans. induction words as [|[start stop] words IH]; intros rows offset chunks spans; cbn [replay].
  { intros [= -> -> _]. split_and!; lia. }
  destruct rows as [|row rows]; [intros [= -> -> _]; split_and!; lia|].
  destruct (Z.eqb_spec offset (byte_len token)) as [->|Hne]; [intros [= -> -> _]; split_and!; lia|].
  intros H. apply bind_Some in H as ([a b] & E & H). destruct (List.find _ _) as [k|] eqn:F in H.
  - apply List.find_some in F as [Hin _]. apply list_elem_of_In, elem_of_lengths in Hin.
    apply IH in H as (H1 & H2 & H3). split_and!; [lia | lia|]. intros Ec En. exists a, b. split; [done|]. exists (start, stop). split; [by left|].
    rewrite H2 in En by lia. apply split_at_iff in E as [E Ha]. rewrite E in En. rewrite byte_len_app in En.
    rewrite E in Hk. apply Forall_app in Hk as [_ Hb].
    destruct (common_prefix_Some b (word_text text_ (start, stop)) b [] Hb (word_text_valid text_ _ Ht)) as [r Hr]; [by rewrite app_nil_r | lia|].
    exists r. exact Hr.
  - apply IH in H as (H1 & H2 & H3). split_and!; [done | done|]. intros Ec En. destruct (H3 Ec En) as (a' & b' & E' & r & Hr & Hp).
    exists a', b'. split; [done|]. exists r. split; [by right | done].
Qed.

Lemma word_text_contained text_ r b : b `prefix_of` word_text text_ r -> b <> [] -> contains text_ b = true.
Proof.
  intros [k Hk] Hne. unfold word_text in Hk. destruct (str_get text_ r.1 r.2) as [w|] eqn:G; cbn in Hk; [|by destruct b].
  apply str_get_Some in G as (x & y & -> & _). apply contains_iff. exists x, (k ++ y). by rewrite Hk, <- app_assoc.
Qed.

(** The token splits over the words of the label. *)
Definition splits (p : PreparedLabel) (text_ token : text) : Prop :=
  may_decompose (p_words p) text_ token = true /\ decomposable_size (p_words p) token /\
  decomposes (map (word_text text_) (p_words p)) token.

(** Why a token is credited. *)
Definition token_credited (p : PreparedLabel) (item : SearchItem) (text_ retained : text) (policy : MatchPolicy) (token : text) : Prop :=
  contains text_ token = true \/ splits p text_ token \/
  (contains retained token = true /\ existsb (fun f => contains f token) (keyword_fields item) = true) \/
  (policy = Subsequence /\ 2 <= len token /\ sublist token text_).

Lemma word_reading p text_ token spans :
  valid_text text_ -> valid_text token -> token <> [] ->
  (forall spans' quality, word_prefix_quality p text_ token spans = Some (spans', Some quality) ->
     decomposable_size (p_words p) token /\ decomposes (map (word_text text_) (p_words p)) token) /\
  (decomposable_size (p_words p) token -> decomposes (map (word_text text_) (p_words p)) token ->
   (exists spans' quality, word_prefix_quality p text_ token spans = Some (spans', Some quality)) \/ contains text_ token = true).
Proof.
  intros Hv Ht Hne. unfold word_prefix_quality. split.
  - intros spans' quality H. destruct (word_prefix_into _ _ _) as [[[rows value] count]|] eqn:E; [|done].
    by apply word_prefix_into_iff in E as (Hs & Hd & _).
  - intros Hs Hd. pose proof (word_prefix_into_iff (p_words p) text_ token (grid_rows token (map (word_text text_) (p_words p)))
      (cell (top_row token (map (word_text text_) (p_words p))) 0) (len (p_words p)) Hv Ht) as Hiff.
    rewrite (proj2 Hiff) by done. pose proof (token_fits _ _ Hs) as Hfit.
    destruct (replay_complete p text_ token (p_words p) 0 0 spans Hv Ht Hfit) as (chunks & spans' & Er); [by apply Hs | by apply covers_from_start|].
    rewrite Er. cbn [mbind option_bind]. rewrite Z.eqb_refl. cbn [negb orb]. destruct (Z.ltb_spec chunks 2); [|left; by do 2 eexists].
    right. apply replay_chunks in Er as (H0 & Hz & H1); [|done..].
    assert (Hlen : 0 < byte_len token) by (destruct token as [|c token]; [done|]; rewrite byte_len_cons; pose proof (char_width_pos c); pose proof (byte_len_nonneg token); lia).
    destruct (Z.eq_dec chunks 0) as [->|]; [specialize (Hz eq_refl); lia|].
    destruct (H1 ltac:(lia) eq_refl) as (a & b & Es & r & _ & Hp). rewrite split_at_zero in Es. injection Es as <- <-. by eapply word_text_contained.
Qed.

Lemma subsequence_quality_iff p text_ token spans :
  (exists spans' quality, subsequence_quality p text_ token spans = (spans', Some quality)) <-> 2 <= len token /\ sublist token text_.
Proof.
  split; [intros (s & q & H); by apply subsequence_quality_sublist in H|]. intros [Hl Hs]. unfold subsequence_quality.
  rewrite (proj2 (Z.ltb_ge _ _)) by lia. assert (Hgen : forall hay first last matched found, sublist token (map (fun x => x.2.2) hay) ->
    is_Some (subsequence_hits p hay token first last matched found)).
  { clear. induction token as [|c token IH]; intros hay first last matched found H; cbn [subsequence_hits]; [eauto|].
    assert (Hhit : exists x rest, next_hit c hay = Some (x, rest) /\ sublist token (map (fun x => x.2.2) rest)).
    { clear -H. induction hay as [|y hay IHh]; cbn in *; [by apply sublist_nil_r in H|]. destruct (Z.eqb_spec y.2.2 c) as [<-|Hne].
      - exists y, hay. split; [done|]. inversion H; subst; [done|]. etrans; [|done]. by constructor.
      - apply IHh. inversion H; subst; done. }
    destruct Hhit as ([ordinal [index d]] & rest & -> & Hr). by apply IH. }
  destruct (Hgen (ordinals 0 (char_indices 0 text_)) 0 0 0 spans) as [[[[f l] m] found] E]; [by rewrite ordinals_chars|]. rewrite E. eauto.
Qed.

Lemma contains_find t u : contains t u = true <-> exists before, str_find t u = Some before.
Proof. unfold contains. destruct (str_find t u); cbn; [by split; eauto | split; [done | by intros []]]. Qed.

Lemma starts_contains t u : starts_with t u = true -> contains t u = true.
Proof. intros [rest ->]%starts_with_spec. apply contains_iff. by exists [], rest. Qed.

(** A token is matched exactly when it is credited for one of the reasons. *)
Lemma match_token_iff p item policy token spans text_ retained :
  normalized_label p = Some text_ -> keywords p = Some retained -> valid_text text_ -> valid_text token -> token <> [] ->
  (exists spans' found, match_token p item policy token spans = Some (spans', Some found)) <->
  token_credited p item text_ retained policy token.
Proof.
  intros Hn Hr Hv Ht Hne. unfold match_token. destruct token as [|c token]; [done|]. set (tok := c :: token) in *. rewrite Hn, Hr.
  cbn [mbind option_bind]. destruct (match_label_total p text_ tok spans Hv Ht) as [[spans1 found] El]. rewrite El. cbn [mbind option_bind].
  assert (Hlabel : is_Some found <-> contains text_ tok = true \/ splits p text_ tok).
  { unfold match_label in El. destruct (starts_with text_ tok) eqn:Es; [injection El as <- <-; split; [left; by apply starts_contains | eauto]|].
    destruct (word_reading p text_ tok spans Hv Ht Hne) as [Hw1 Hw2]. unfold splits. apply bind_Some in El as ([spans2 words] & Ew & El).
    destruct words as [quality|].
    - injection El as <- <-. destruct (may_decompose (p_words p) text_ tok) eqn:Ed; [|by injection Ew]. split; [|eauto].
      intros _. right. split; [done|]. by eapply Hw1.
    - assert (Hno : ~ (may_decompose (p_words p) text_ tok = true /\ decomposable_size (p_words p) tok /\
          decomposes (map (word_text text_) (p_words p)) tok) \/ contains text_ tok = true).
      { destruct (may_decompose (p_words p) text_ tok) eqn:Ed; [|left; by intros [? _]]. destruct (contains text_ tok) eqn:Ec; [by right|].
        left. intros (_ & H1 & H2). destruct (Hw2 H1 H2) as [(s' & q & E')|?]; [|congruence]. rewrite E' in Ew. done. }
      destruct (str_find text_ tok) as [before|] eqn:F; injection El as <- <-.
      + split; [|eauto]. left. apply contains_find. eauto.
      + split; [by intros []|]. assert (contains text_ tok <> true) by (rewrite contains_find, F; by intros []). tauto. }
  unfold token_credited. destruct found as [r|].
  - split; [|eauto]. intros _. destruct (proj1 Hlabel ltac:(eauto)) as [?|?]; tauto.
  - assert (Hno : ~ contains text_ tok = true /\ ~ splits p text_ tok) by (split; intros H; by destruct (proj2 Hlabel ltac:(tauto))).
    pose proof (keyword_quality_iff (keyword_fields item) tok) as Hkw.
    destruct (contains retained tok) eqn:Ec; [destruct (keyword_quality (keyword_fields item) tok) as [quality|] eqn:Ek|].
    + split; [|eauto]. intros _. right; right; left. split; [done|]. by apply Hkw.
    + assert (Hnk : existsb (fun f => contains f tok) (keyword_fields item) <> true) by (rewrite <- Hkw; by intros []).
      destruct policy; [split; [by intros (? & ? & ?) | intuition congruence]|].
      pose proof (subsequence_quality_iff p text_ tok spans1) as Hsub. destruct (subsequence_quality p text_ tok spans1) as [s2 [q|]]; cbn.
      * split; [|eauto]. intros _. right; right; right. split; [done|]. apply Hsub. eauto.
      * split; [by intros (? & ? & ?)|]. intros [?|[?|[[_ ?]|[_ H]]]]; [tauto.. |]. apply Hsub in H as (? & ? & ?). done.
    + destruct policy; [split; [by intros (? & ? & ?) | intuition congruence]|].
      pose proof (subsequence_quality_iff p text_ tok spans1) as Hsub. destruct (subsequence_quality p text_ tok spans1) as [s2 [q|]]; cbn.
      * split; [|eauto]. intros _. right; right; right. split; [done|]. apply Hsub. eauto.
      * split; [by intros (? & ? & ?)|]. intros [?|[?|[[? _]|[_ H]]]]; [tauto | tauto | done|]. apply Hsub in H as (? & ? & ?). done.
Qed.

(** ** Typing on *)

Lemma decomposes_prefix ws t more : decomposes ws (t ++ more) -> decomposes ws t.
Proof.
  revert t. induction ws as [|w ws IH]; intros t H.
  - assert (E : t ++ more = []) by (by inversion H). apply app_eq_nil in E as [-> _]. constructor.
  - apply decomposes_cons in H as [H|(chunk & t' & E & Hne & [r Hr] & H)]; [apply DecomposesSkip; by apply IH|].
    apply app_eq_app in E as (l & [[-> ->]|[-> ->]]).
    + apply DecomposesChunk; [done | by eexists | by apply IH].
    + destruct t as [|c t]; [apply decomposes_nil|]. rewrite <- (app_nil_r (c :: t)).
      apply DecomposesChunk; [done | | apply decomposes_nil]. exists (l ++ r). by rewrite Hr, <- app_assoc.
Qed.

Lemma decomposes_sublist ws t : decomposes ws t -> sublist t (mjoin ws).
Proof.
  induction 1 as [|w ws t _ IH|w ws chunk t _ [r ->] _ IH]; [constructor | by apply sublist_inserts_l|].
  change (mjoin ((chunk ++ r) :: ws)) with ((chunk ++ r) ++ mjoin ws). rewrite <- app_assoc. apply sublist_app; [done|]. by apply sublist_inserts_l.
Qed.

Lemma single_contained (c : Z) (t : text) : sublist [c] t -> contains t [c] = true.
Proof. intros H. apply sublist_cons_l in H as (k1 & k2 & -> & _). apply contains_iff. by exists k1, k2. Qed.

Lemma credited_prefix p item text_ retained policy token more :
  ascending 0 (p_words p) -> token <> [] ->
  token_credited p item text_ retained policy (token ++ more) -> token_credited p item text_ retained policy token.
Proof.
  intros Hasc Hne H. assert (Hpart : contains (token ++ more) token = true) by (apply contains_iff; by exists [], more).
  assert (Hlen : len token <= len (token ++ more)) by (rewrite len_app; pose proof (len_nonneg more); lia).
  assert (Hshort : 2 <= len token \/ exists c, token = [c]).
  { destruct token as [|c [|d token]]; [done | eauto | left]. rewrite !len_cons. pose proof (len_nonneg token). lia. }
  assert (Hsub : sublist (token ++ more) text_ -> sublist token text_) by (intros; etrans; [|done]; by apply sublist_inserts_r).
  destruct H as [H|[(Hmay & (_ & Hw & Hl) & Hd)|[[Hr Hf]|(-> & _ & Hs)]]].
  - left. by eapply contains_trans.
  - pose proof (decomposes_sublist _ _ Hd) as Hs. apply (words_sublist text_ (p_words p) 0 [] text_) in Hasc; [|done..].
    destruct Hshort as [H2|[c ->]]; [|left; apply single_contained, Hsub; by etrans]. right; left. split_and!.
    + by rewrite may_decompose_longer in Hmay.
    + split_and!; [done | done | lia].
    + by eapply decomposes_prefix.
  - right; right; left. split; [by eapply contains_trans|]. apply existsb_exists in Hf as (f & Hin & Hc). apply existsb_exists. exists f.
    split; [done|]. by eapply contains_trans.
  - destruct Hshort as [H2|[c ->]]; [|left; apply single_contained; by apply Hsub]. right; right; right. split_and!; [done | done | by apply Hsub].
Qed.
End Tokens.

(** * A whole query *)

Section Queries.
Context {U : Unicode}.

Definition matched (policy : MatchPolicy) (q : NormalizedQuery) (item : SearchItem) (p : PreparedLabel) : Prop :=
  exists spans s, score_prepared policy q item p = Some (spans, Some s).

Lemma match_tokens_iff p item policy l weakest total spans text_ retained :
  normalized_label p = Some text_ -> keywords p = Some retained -> valid_text text_ -> Forall (fun t => valid_text t /\ t <> []) l ->
  (exists spans' found, match_tokens p item policy l weakest total spans = Some (spans', Some found)) <->
  Forall (token_credited p item text_ retained policy) l.
Proof.
  intros Hn Hr Hv Hl. revert weakest total spans. induction Hl as [|t l [Ht Hne] Hl IH]; intros weakest total spans; cbn [match_tokens].
  { split; [by constructor | eauto]. }
  pose proof (match_token_iff p item policy t spans text_ retained Hn Hr Hv Ht Hne) as Hiff. rewrite Forall_cons, <- Hiff.
  destruct (match_token p item policy t spans) as [[spans1 [[m x]|]]|] eqn:E; cbn [mbind option_bind].
  - rewrite IH. split; [intros; split; [eauto | done] | tauto].
  - split; [by intros (? & ? & ?) | by intros [(? & ? & ?) _]].
  - split; [by intros (? & ? & ?) | by intros [(? & ? & ?) _]].
Qed.

Lemma query_tokens q :
  well_formed_query q = true -> Forall valid_text (tokens q) -> Forall (fun t => valid_text t /\ t <> []) (tokens q) /\
  Forall (fun t => contains (trim (normalized q)) t = true) (tokens q).
Proof.
  unfold well_formed_query. intros [_ H]%andb_true_iff Hv. apply bool_decide_eq_true in H. rewrite Forall_forall in Hv.
  split; apply Forall_forall; intros t Ht; pose proof Ht as Hs; rewrite <- H in Hs; apply token_infix in Hs as [[Hne _] Hc]; [split; [by apply Hv | done] | done].
Qed.

(** A query matches exactly when each of its tokens is credited. *)
Lemma matched_iff policy q item p text_ retained :
  normalized_label p = Some text_ -> keywords p = Some retained -> valid_text text_ -> Forall valid_text (tokens q) ->
  matched policy q item p <-> well_formed_query q = true /\ Forall (token_credited p item text_ retained policy) (tokens q).
Proof.
  intros Hn Hr Hv Hq. unfold matched, score_prepared. destruct (well_formed_query q) eqn:Hwf; cbn [negb].
  2:{ split; [by intros (? & ? & ?) | by intros [? _]]. }
  destruct (query_tokens q Hwf Hq) as [Htok Hin]. rewrite Hn. cbn [mbind option_bind]. cbv zeta.
  assert (Hphrase : contains text_ (trim (normalized q)) = true -> Forall (token_credited p item text_ retained policy) (tokens q)).
  { intros Hc. eapply Forall_impl; [exact Hin|]. intros t Ht. left. by eapply contains_trans. }
  destruct (_ && _) eqn:Ex; [split; [|intros; by do 2 eexists]|].
  { intros _. split; [done|]. apply Hphrase. apply andb_true_iff in Ex as [_ Ex]. apply bool_decide_eq_true in Ex. rewrite Ex.
    destruct (trim_spec text_) as (a & b & E & _ & _). apply contains_iff. by exists a, b. }
  destruct (starts_with _ _) eqn:Es; [split; [|intros; by do 2 eexists]|].
  { intros _. split; [done|]. by apply Hphrase, starts_contains. }
  pose proof (match_tokens_iff p item policy (tokens q) ExactPrefix f32_zero [] text_ retained Hn Hr Hv Htok) as Hiff. rewrite <- Hiff.
  destruct (match_tokens _ _ _ _ _ _ _) as [[spans [[m x]|]]|]; cbn [mbind option_bind].
  - split; [intros; split; eauto | intros; by do 2 eexists].
  - split; [by intros (? & ? & ?) | by intros [_ (? & ? & ?)]].
  - split; [by intros (? & ? & ?) | by intros [_ (? & ? & ?)]].
Qed.

(** What matches a query matched every query it continues. *)
Lemma matched_narrows policy q q' more item p text_ retained :
  normalized_label p = Some text_ -> keywords p = Some retained -> valid_text text_ -> ascending 0 (p_words p) ->
  Forall valid_text (tokens q) -> Forall valid_text (tokens q') -> well_formed_query q = true ->
  normalized q' = normalized q ++ more -> matched policy q' item p -> matched policy q item p.
Proof.
  intros Hn Hr Hv Hasc Hq Hq' Hwf E H. rewrite (matched_iff policy q' item p text_ retained Hn Hr Hv Hq') in H.
  apply (matched_iff policy q item p text_ retained Hn Hr Hv Hq). split; [done|]. destruct H as [Hwf' H].
  destruct (query_tokens q Hwf Hq) as [Htok _].
  unfold well_formed_query in Hwf, Hwf'. apply andb_true_iff in Hwf as [_ Ht], Hwf' as [_ Ht']. apply bool_decide_eq_true in Ht, Ht'.
  rewrite <- Ht', E in H. rewrite <- Ht in Htok |- *. unfold split_whitespace in *.
  destruct (split_words_typed [] (normalized q) more) as (l1 & l2 & E' & Hpre). rewrite E' in H. apply Forall_app in H as [H _].
  revert Htok H. clear -Hpre Hasc. induction Hpre as [|t t' l l' [k ->] _ IH]; [constructor|].
  intros [[_ Hne] Hl]%Forall_cons [H1 H2]%Forall_cons. constructor; [by eapply credited_prefix | by apply IH].
Qed.
End Queries.

(** * Anything but a prefix *)

Lemma trim_start_head t c r : trim_start t = c :: r -> is_whitespace c = false.
Proof. induction t as [|d t IH]; cbn; [done|]. destruct (is_whitespace d) eqn:E; [done|]. by intros [= <- _]. Qed.

Lemma trim_part t : exists b, trim_start t = trim t ++ b /\ blank b.
Proof.
  destruct (trim_start_spec (reverse (trim_start t))) as (b & E & Hb). exists (reverse b).
  split; [|by apply Forall_reverse]. unfold trim, trim_end. rewrite <- reverse_app, <- E. by rewrite reverse_involutive.
Qed.

Lemma first_word_prefix current t w l :
  split_words current t = w :: l -> (current <> [] \/ forall c r, t = c :: r -> is_whitespace c = false) -> starts_with (current ++ t) w = true.
Proof.
  revert current. induction t as [|c t IH]; intros current; cbn [split_words].
  - intros H _. apply starts_with_spec. exists []. destruct current; [done|]. injection H as <- _. done.
  - destruct (is_whitespace c) eqn:E.
    + intros H [Hne|Hc]; [|by rewrite (Hc c t eq_refl) in E]. destruct current as [|x current]; [done|]. injection H as <- _.
      apply starts_with_spec. by eexists.
    + intros H _. replace (current ++ c :: t) with ((current ++ [c]) ++ t) by (by rewrite <- app_assoc). apply IH; [done|]. left. by destruct current.
Qed.

(** The first token opens the phrase. *)
Lemma first_token_opens q token rest :
  well_formed_query q = true -> tokens q = token :: rest -> starts_with (trim (normalized q)) token = true.
Proof.
  unfold well_formed_query. intros [_ H]%andb_true_iff E. apply bool_decide_eq_true in H. rewrite split_whitespace_trim, E in H.
  apply (first_word_prefix [] _ _ _ H). right. intros c r Ht. destruct (trim_part (normalized q)) as (b & Eb & _).
  rewrite Ht in Eb. by eapply trim_start_head.
Qed.

Lemma starts_trans t u v : starts_with t u = true -> starts_with u v = true -> starts_with t v = true.
Proof. rewrite !starts_with_spec. intros [r ->] [r' ->]. exists (r' ++ r). by rewrite <- app_assoc. Qed.

Section NonPrefix.
Context {U : Unicode}.

Lemma match_tokens_weakest p item policy l weakest total spans spans' m x :
  match_tokens p item policy l weakest total spans = Some (spans', Some (m, x)) -> precedence weakest <= precedence m.
Proof.
  revert weakest total spans. induction l as [|t l IH]; intros weakest total spans; cbn [match_tokens]; [by intros [= _ -> _]|].
  intros H. apply bind_Some in H as ([spans1 found] & _ & H). destruct found as [[m' x']|]; [|done]. apply IH in H.
  destruct (Z.ltb_spec (precedence weakest) (precedence m')); lia.
Qed.

Lemma match_token_weaker p item policy token spans spans' m x text_ :
  normalized_label p = Some text_ -> starts_with text_ token = false ->
  match_token p item policy token spans = Some (spans', Some (m, x)) -> precedence WordPrefix <= precedence m.
Proof.
  intros Hn Hs. unfold match_token. destruct token as [|c token]; [done|]. rewrite Hn. cbn [mbind option_bind].
  unfold match_label. rewrite Hs. intros H. apply bind_Some in H as ([spans1 found] & El & H).
  destruct found as [[m1 x1]|].
  - injection H as _ -> _. apply bind_Some in El as ([spans2 words] & _ & El). destruct words; [by injection El as _ <- _|].
    destruct (str_find _ _); [by injection El as _ <- _ | done].
  - apply bind_Some in H as (retained & _ & H). destruct (if contains _ _ then _ else _); [by injection H as _ <- _|].
    destruct policy; [done|]. destruct (subsequence_quality _ _ _ _) as [s2 [q|]]; [|done]. by injection H as _ <- _.
Qed.

(** A label that the first token does not open is matched by words at best. *)
Lemma non_prefix_method policy q item p spans s text_ token rest :
  normalized_label p = Some text_ -> tokens q = token :: rest -> trim_start text_ = text_ -> starts_with text_ token = false ->
  score_prepared policy q item p = Some (spans, Some s) -> precedence WordPrefix <= precedence (s_method s).
Proof.
  intros Hn Et Htrim Hs. unfold score_prepared. destruct (well_formed_query q) eqn:Hwf; [|done]. cbn [negb]. rewrite Hn. cbn [mbind option_bind].
  pose proof (first_token_opens q token rest Hwf Et) as Hopen. cbv zeta. destruct (_ && _) eqn:Ex.
  { apply andb_true_iff in Ex as [_ Ex]. apply bool_decide_eq_true in Ex. destruct (trim_part text_) as (b & Eb & _). rewrite Htrim in Eb.
    rewrite Ex in Hopen. assert (starts_with text_ token = true); [|congruence]. eapply starts_trans; [|exact Hopen].
    apply starts_with_spec. by exists b. }
  destruct (starts_with text_ (trim (normalized q))) eqn:Ep; [by rewrite (starts_trans _ _ _ Ep Hopen) in Hs|].
  intros H. apply bind_Some in H as ([spans1 found] & El & H). destruct found as [[m x]|]; [|done]. injection H as <- <-. cbn [s_method].
  rewrite Et in El. cbn [match_tokens] in El. apply bind_Some in El as ([spans2 found] & El1 & El). destruct found as [[m' x']|]; [|done].
  apply match_token_weaker with (text_ := text_) in El1; [|done..]. apply match_tokens_weakest in El.
  destruct (Z.ltb_spec (precedence ExactPrefix) (precedence m')); lia.
Qed.
End NonPrefix.
