(* ===== verification/Page.v ===== *)
(** Plugin pages, [crikey-core/src/page.rs]: display lists and web surfaces, and
    what the host refuses before any of a frame reaches the renderer. *)

From Stdlib Require Import SpecFloat.
From S2P Require Import Prelude Text StdFloat Utf8.

(** * Bounds *)

Definition MAX_PAGE_NODES : Z := 4096.
Definition MAX_NODE_TEXT_BYTES : Z := 8192.
Definition MIN_PAGE_REDRAW_MS : Z := 16.
Definition MAX_PAGE_IMAGE_BYTES : Z := 1024 * 1024.
Definition MAX_PAGE_IMAGE_TOTAL_BYTES : Z := 4 * 1024 * 1024.
Definition MAX_PAGE_IMAGE_EDGE : Z := 1024.
Definition MAX_PAGE_EDGE : f32 := f32_of_integer 4096.

(** * Nodes *)

Inductive NodeShape : Type := ShapeNone | ShapeRect | ShapeText | ShapeLine | ShapeCircle | ShapeImage.
Inductive NodeRole : Type := RoleNone | RoleButton | RoleLabel | RoleHeading | RoleTextField | RoleCheckbox.

#[export] Instance NodeShape_eq_dec : EqDecision NodeShape.
Proof. solve_decision. Defined.
#[export] Instance NodeRole_eq_dec : EqDecision NodeRole.
Proof. solve_decision. Defined.

Record PageImage := mkImage { pixel_width : Z; pixel_height : Z; image_rgba : list Z }.

(** [expected_bytes]. *)
Definition expected_bytes (i : PageImage) : option Z :=
  pixels ← checked_mul usize_max (pixel_width i) (pixel_height i);
  checked_mul usize_max pixels 4.

Definition is_interactive (r : NodeRole) : bool :=
  match r with RoleButton | RoleTextField | RoleCheckbox => true | _ => false end.

Definition is_announced (r : NodeRole) : bool := match r with RoleNone => false | _ => true end.

Record PageColor := rgba_color { color_r : Z; color_g : Z; color_b : Z; color_a : Z }.

Definition TRANSPARENT : PageColor := rgba_color 0 0 0 0.

(** [0xRRGGBBAA]. *)
Definition to_u32 (c : PageColor) : Z :=
  Z.lor (Z.lor (Z.lor (Z.shiftl (color_r c) 24) (Z.shiftl (color_g c) 16)) (Z.shiftl (color_b c) 8)) (color_a c).

(** [as u8]. *)
Definition as_u8 (v : Z) : Z := Z.land v 255.

Definition from_u32 (v : Z) : PageColor :=
  rgba_color (as_u8 (Z.shiftr v 24)) (as_u8 (Z.shiftr v 16)) (as_u8 (Z.shiftr v 8)) (as_u8 v).

Definition color_is_visible (c : PageColor) : bool := negb (color_a c =? 0).

Record PagePalette := mkPalette { surface : PageColor; palette_text : PageColor; accent : PageColor; muted : PageColor }.

Record PageNode := mkNode {
  shape : NodeShape;
  node_x : f32;
  node_y : f32;
  node_width : f32;
  node_height : f32;
  fill : PageColor;
  stroke : PageColor;
  stroke_width : f32;
  rounding : f32;
  node_text : string;
  text_size : f32;
  role : NodeRole;
  node_label : string;
  node_id : Z;
  focus_order : Z;
  checked : bool;
  image : option PageImage;
}.
#[export] Instance eta_PageNode : Eta PageNode := fun n =>
  mkNode (shape n) (node_x n) (node_y n) (node_width n) (node_height n) (fill n) (stroke n) (stroke_width n) (rounding n)
    (node_text n) (text_size n) (role n) (node_label n) (node_id n) (focus_order n) (checked n) (image n).

(** [Default for PageNode]. *)
Definition default_node : PageNode :=
  mkNode ShapeNone f32_zero f32_zero f32_zero f32_zero TRANSPARENT TRANSPARENT f32_zero f32_zero "" f32_zero RoleNone "" 0 0 false None.

Definition accessible_name (n : PageNode) : option string :=
  if negb (is_announced (role n)) then None
  else
    let name := if String.eqb (node_label n) "" then node_text n else node_label n in
    if String.eqb name "" then None else Some name.

Definition is_focusable (n : PageNode) : bool := is_interactive (role n) && negb (node_id n =? 0).

(** * Frames *)

Inductive PageError : Type :=
| TooManyNodes (nodes : Z)
| TextTooLong (index : nat) (bytes : Z)
| NonFiniteGeometry (index : nat)
| GeometryOutOfRange (index : nat)
| DuplicateNodeId (node_id : Z)
| ImageShapeMismatch (index : nat)
| ImageSizeMismatch (index : nat) (expected actual : Z)
| ImageTooLarge (index : nat) (bytes : Z)
| ImageEdgeOutOfRange (index : nat) (width height : Z)
| ImageTotalTooLarge (bytes : Z)
| WebSurfaceWithNodes (nodes : Z)
| WebSurfaceUrlTooLong (bytes : Z)
| WebSurfaceSchemeRefused (scheme : text)
| WebSurfaceInvalidUrl
| WebSurfaceWithFocusNode (node_id : Z)
| WebSurfaceWithRedraw (redraw_after_ms : Z).

Inductive WebStorage : Type := Ephemeral | Persistent.

Record PageWebSurface := mkWebSurface { url : string; web_storage : WebStorage }.

(** [str::split(..).next()]: up to the first separator. *)
Fixpoint before (stop : Z -> bool) (t : text) : text :=
  match t with
  | [] => []
  | x :: t' => if stop x then [] else x :: before stop t'
  end.

(** [str::rsplit(c).next()]: after the last separator. *)
Definition after_last (c : Z) (t : text) : text := reverse (before (fun x => x =? c) (reverse t)).

(** [char::is_control]: the general category [Cc]. *)
Definition is_control (c : Z) : bool := ((0 <=? c) && (c <? 32)) || ((127 <=? c) && (c <? 160)).

(** The host of an authority, without user information and port. *)
Definition authority_host (authority : text) : option text :=
  let host_and_port := after_last 64 authority in
  match host_and_port with
  | 91 :: bracketed => fst <$> split_once 93 bracketed
  | _ => Some (before (fun x => x =? 58) host_and_port)
  end.

Definition validate_web_surface_url (u : string) : result unit PageError :=
  let t := chars u in
  if MAX_NODE_TEXT_BYTES <? str_len u then Err (WebSurfaceUrlTooLong (str_len u))
  else
    let (scheme, remainder) := default ([], []) (split_once 58 t) in
    if negb (eq_ignore_ascii_case scheme (ascii "http")) && negb (eq_ignore_ascii_case scheme (ascii "https"))
    then Err (WebSurfaceSchemeRefused (map ascii_lower scheme))
    else if existsb is_control t then Err WebSurfaceInvalidUrl
    else
      match remainder with
      | 47 :: 47 :: authority_and_path =>
          let authority := before (fun x => (x =? 47) || (x =? 63) || (x =? 35)) authority_and_path in
          if existsb is_whitespace authority then Err WebSurfaceInvalidUrl
          else
            match authority_host authority with
            | None | Some [] => Err WebSurfaceInvalidUrl
            | Some _ => Ok ()
            end
      | _ => Err WebSurfaceInvalidUrl
      end.

(** [PageWebSurface::validate]. *)
Definition validate_surface (w : PageWebSurface) : result unit PageError :=
  if String.eqb (url w) "" then Ok () else validate_web_surface_url (url w).

Record PageFrame := mkFrame {
  frame_generation : Z;
  title : string;
  nodes : list PageNode;
  focus_node : Z;
  redraw_after_ms : Z;
  close : bool;
  web : option PageWebSurface;
}.
#[export] Instance eta_PageFrame : Eta PageFrame := fun f =>
  mkFrame (frame_generation f) (title f) (nodes f) (focus_node f) (redraw_after_ms f) (close f) (web f).

(** [Default for PageFrame]. *)
Definition default_frame : PageFrame := mkFrame 0 "" [] 0 0 false None.

Definition geometry (n : PageNode) : list f32 :=
  [node_x n; node_y n; node_width n; node_height n; stroke_width n; rounding n; text_size n].

(** A raster within its bounds: the bytes it adds to the frame. *)
Definition validate_image (index : nat) (i : PageImage) : result Z PageError :=
  if (pixel_width i =? 0) || (pixel_height i =? 0) || (MAX_PAGE_IMAGE_EDGE <? pixel_width i) || (MAX_PAGE_IMAGE_EDGE <? pixel_height i)
  then Err (ImageEdgeOutOfRange index (pixel_width i) (pixel_height i))
  else
    match expected_bytes i with
    | None => Err (ImageEdgeOutOfRange index (pixel_width i) (pixel_height i))
    | Some expected =>
        if negb (len (image_rgba i) =? expected) then Err (ImageSizeMismatch index expected (len (image_rgba i)))
        else if MAX_PAGE_IMAGE_BYTES <? expected then Err (ImageTooLarge index expected)
        else Ok expected
    end.

(** One node, given the identities claimed and the raster bytes before it. *)
Definition validate_node (state : gset Z * Z) (index : nat) (n : PageNode) : result (gset Z * Z) PageError :=
  let (claimed, raster_bytes) := state in
  if MAX_NODE_TEXT_BYTES <? str_len (node_text n) then Err (TextTooLong index (str_len (node_text n)))
  else if existsb (fun v => negb (f32_is_finite v)) (geometry n) then Err (NonFiniteGeometry index)
  else if existsb (fun v => f32_lt MAX_PAGE_EDGE (f32_abs v)) (geometry n) then Err (GeometryOutOfRange index)
  else if negb (node_id n =? 0) && bool_decide (node_id n ∈ claimed) then Err (DuplicateNodeId (node_id n))
  else
    let claimed := if node_id n =? 0 then claimed else {[node_id n]} ∪ claimed in
    match shape n, image n with
    | ShapeImage, Some i =>
        let? expected := validate_image index i in
        let raster_bytes := saturating_add usize_max raster_bytes expected in
        if MAX_PAGE_IMAGE_TOTAL_BYTES <? raster_bytes then Err (ImageTotalTooLarge raster_bytes)
        else Ok (claimed, raster_bytes)
    | ShapeImage, None | _, Some _ => Err (ImageShapeMismatch index)
    | _, None => Ok (claimed, raster_bytes)
    end.

Fixpoint validate_nodes (state : gset Z * Z) (index : nat) (l : list PageNode) : result unit PageError :=
  match l with
  | [] => Ok ()
  | n :: l' => let? state := validate_node state index n in validate_nodes state (S index) l'
  end.

(** [PageFrame::validate]. *)
Definition validate_frame (f : PageFrame) : result unit PageError :=
  match web f with
  | Some w =>
      if negb (bool_decide (length (nodes f) = 0%nat)) then Err (WebSurfaceWithNodes (len (nodes f)))
      else if negb (focus_node f =? 0) then Err (WebSurfaceWithFocusNode (focus_node f))
      else if negb (redraw_after_ms f =? 0) then Err (WebSurfaceWithRedraw (redraw_after_ms f))
      else validate_surface w
  | None =>
      if MAX_PAGE_NODES <? len (nodes f) then Err (TooManyNodes (len (nodes f)))
      else validate_nodes (∅, 0) 0 (nodes f)
  end.

(** ** Focus *)

(** The key [(order, index)] the ring is sorted by. *)
Definition ring_leb (l r : Z * nat * Z) : bool :=
  (l.1.1 <? r.1.1) || ((l.1.1 =? r.1.1) && (l.1.2 <=? r.1.2)%nat).

(** [sort_by_key]. *)
Definition ring_sort (l : list (Z * nat * Z)) : list (Z * nat * Z) := sort_by ring_leb l.

Definition focus_ring (f : PageFrame) : list Z :=
  map snd (ring_sort (omap (fun x : nat * PageNode => if is_focusable x.2 then Some (focus_order x.2, x.1, node_id x.2) else None)
                       (imap pair (nodes f)))).

Definition page_node (f : PageFrame) (id : Z) : option PageNode :=
  if negb (id =? 0) then List.find (fun n => node_id n =? id) (nodes f) else None.

Definition unlabelled_interactive (f : PageFrame) : list Z :=
  map node_id (List.filter (fun n => is_focusable n && is_none (accessible_name n)) (nodes f)).

(** * Input *)

Inductive PageInputKind : Type :=
  Unspecified | Opened | PointerMoved | PointerPressed | PointerReleased | KeyPressed | TextInput | Activated | FocusChanged | Closed.

Record PageInput := mkInput {
  input_kind : PageInputKind;
  input_x : f32;
  input_y : f32;
  input_key : string;
  input_text : string;
  input_node_id : Z;
  ctrl : bool;
  shift : bool;
  alt : bool;
}.

(** [PageInput::new]. *)
Definition new_input (kind : PageInputKind) : PageInput := mkInput kind f32_zero f32_zero "" "" 0 false false false.
