(* ===== verification/PageFacts.v ===== *)
(** What an accepted page frame guarantees: the bounds of a display list, the
    form of a web address, the focus ring, and the wire form of a colour. *)

From Stdlib Require Import SpecFloat.
From S2P Require Import Prelude Text StdFloat Utf8 Page.

(** * Nodes *)

(** A raster whose buffer is exactly its pixels, within the bounds of a node. *)
Definition raster_ok (i : PageImage) : Prop :=
  1 <= pixel_width i <= MAX_PAGE_IMAGE_EDGE /\ 1 <= pixel_height i <= MAX_PAGE_IMAGE_EDGE /\
  len (image_rgba i) = pixel_width i * pixel_height i * 4 /\ len (image_rgba i) <= MAX_PAGE_IMAGE_BYTES.

(** A coordinate the renderer can use. *)
Definition coordinate_ok (v : f32) : Prop := f32_is_finite v = true /\ f32_lt MAX_PAGE_EDGE (f32_abs v) = false.

Definition node_ok (n : PageNode) : Prop :=
  str_len (node_text n) <= MAX_NODE_TEXT_BYTES /\ Forall coordinate_ok (geometry n) /\
  match image n with Some i => shape n = ShapeImage /\ raster_ok i | None => shape n <> ShapeImage end.

(** The raster bytes of a node. *)
Definition raster_bytes (n : PageNode) : Z := match image n with Some i => len (image_rgba i) | None => 0 end.
Definition frame_raster_bytes (l : list PageNode) : Z := foldr (fun n acc => raster_bytes n + acc) 0 l.

(** The identities input can be addressed to. *)
Definition addressed (l : list PageNode) : list Z := List.filter (fun id => negb (id =? 0)) (map node_id l).

(** The dimensions of a raster are [u32]s. *)
Definition node_typed (n : PageNode) : Prop :=
  match image n with Some i => in_range u32_max (pixel_width i) /\ in_range u32_max (pixel_height i) | None => True end.

Lemma validate_image_iff index i :
  in_range u32_max (pixel_width i) -> in_range u32_max (pixel_height i) ->
  (raster_ok i -> validate_image index i = Ok (len (image_rgba i))) /\ (forall n, validate_image index i = Ok n -> raster_ok i /\ n = len (image_rgba i)).
Proof.
  intros Hw Hh. unfold validate_image, raster_ok, expected_bytes, checked_mul, in_range, u32_max, MAX_PAGE_IMAGE_EDGE, MAX_PAGE_IMAGE_BYTES, usize_max, u64_max in *.
  destruct (_ || _) eqn:E1; rewrite ?orb_true_iff, ?orb_false_iff, ?Z.eqb_eq, ?Z.eqb_neq, ?Z.ltb_lt, ?Z.ltb_ge in E1.
  { split; [intros; exfalso; lia | done]. }
  assert (Hp : 0 <= pixel_width i * pixel_height i <= 1024 * 1024) by nia.
  rewrite (proj2 (Z.leb_le _ _)) by lia. cbn [mbind option_bind]. rewrite (proj2 (Z.leb_le _ _)) by lia.
  destruct (Z.eqb_spec (len (image_rgba i)) (pixel_width i * pixel_height i * 4)) as [El|El]; cbn [negb]; [|split; [intros; exfalso; lia | done]].
  destruct (Z.ltb_spec (1024 * 1024) (pixel_width i * pixel_height i * 4)); (split; [intros; first [exfalso; lia | by rewrite El] |]); [done|].
  intros n [= <-]. split; [lia | done].
Qed.

Lemma raster_bytes_bound n : node_ok n -> 0 <= raster_bytes n <= MAX_PAGE_IMAGE_BYTES.
Proof.
  intros (_ & _ & Hi). unfold raster_bytes. destruct (image n) as [i|]; [|unfold MAX_PAGE_IMAGE_BYTES; lia]. destruct Hi as (_ & _ & _ & _ & ?).
  pose proof (len_nonneg (image_rgba i)). lia.
Qed.

Lemma geometry_iff n :
  Forall coordinate_ok (geometry n) <->
  existsb (fun v => negb (f32_is_finite v)) (geometry n) = false /\ existsb (fun v => f32_lt MAX_PAGE_EDGE (f32_abs v)) (geometry n) = false.
Proof.
  induction (geometry n) as [|v l IH]; cbn; [by split|]. rewrite Forall_cons, IH, !orb_false_iff. unfold coordinate_ok.
  rewrite negb_false_iff. tauto.
Qed.

(** What the validation of one node comes to. *)
Lemma validate_node_iff claimed bytes index n s :
  node_typed n -> 0 <= bytes <= MAX_PAGE_IMAGE_TOTAL_BYTES ->
  validate_node (claimed, bytes) index n = Ok s <->
  node_ok n /\ (node_id n = 0 \/ ~ (node_id n ∈ claimed)) /\ bytes + raster_bytes n <= MAX_PAGE_IMAGE_TOTAL_BYTES /\
  s = (if node_id n =? 0 then claimed else {[node_id n]} ∪ claimed, bytes + raster_bytes n).
Proof.
  intros Ht Hb. unfold validate_node. pose proof (geometry_iff n) as Hg. unfold node_ok, raster_bytes.
  destruct (Z.ltb_spec MAX_NODE_TEXT_BYTES (str_len (node_text n))); [split; [done | intros ((? & _) & _); lia]|].
  destruct (existsb (fun v => negb _) _); [split; [done | intros ((_ & Hf & _) & _); by apply Hg in Hf as []]|].
  destruct (existsb (fun v => f32_lt _ _) _); [split; [done | intros ((_ & Hf & _) & _); by apply Hg in Hf as []]|].
  assert (Hgeo : Forall coordinate_ok (geometry n)) by (by apply Hg). clear Hg.
  destruct (negb (node_id n =? 0) && bool_decide (node_id n ∈ claimed)) eqn:Ed.
  { apply andb_true_iff in Ed as [E1%negb_true_iff%Z.eqb_neq E2%bool_decide_eq_true]. split; [done | intros (_ & [?|?] & _); done]. }
  assert (Hid : node_id n = 0 \/ ~ (node_id n ∈ claimed)).
  { apply andb_false_iff in Ed as [E%negb_false_iff%Z.eqb_eq|E%bool_decide_eq_false]; tauto. }
  set (c' := if node_id n =? 0 then claimed else _). unfold node_typed in Ht. destruct (image n) as [i|].
  - destruct (decide (shape n = ShapeImage)) as [Es|Es]; [|destruct (shape n); try done; (split; [done | by intros ((_ & _ & ? & _) & _)])].
    rewrite Es. destruct Ht as [Hw Hh]. destruct (validate_image_iff index i Hw Hh) as [H1 H2].
    destruct (validate_image index i) as [k|e]; [|split; [done | intros ((_ & _ & _ & Hr) & _); apply H1 in Hr; done]].
    destruct (H2 k eq_refl) as [Hr ->]. pose proof Hr as (_ & _ & _ & Hk). pose proof (len_nonneg (image_rgba i)).
    unfold saturating_add, usize_max, u64_max, MAX_PAGE_IMAGE_TOTAL_BYTES, MAX_PAGE_IMAGE_BYTES in *. rewrite Z.min_l by lia.
    destruct (Z.ltb_spec (4 * 1024 * 1024) (bytes + len (image_rgba i))).
    + split; [done | intros (_ & _ & ? & _); lia].
    + split; [intros [= <-]; split_and!; done | by intros (_ & _ & _ & ->)].
  - rewrite Z.add_0_r. destruct (shape n); (split; [try done; intros [= <-]; split_and!; (done || lia) | intros ((_ & _ & ?) & _ & _ & ->); done]).
Qed.

Lemma frame_raster_nonneg l : Forall node_ok l -> 0 <= frame_raster_bytes l.
Proof. induction 1 as [|n l Hn _ IH]; cbn; [lia|]. pose proof (raster_bytes_bound n Hn). unfold frame_raster_bytes in IH. lia. Qed.

Lemma addressed_cons n l : addressed (n :: l) = (if node_id n =? 0 then [] else [node_id n]) ++ addressed l.
Proof. unfold addressed. cbn. by destruct (node_id n =? 0). Qed.

Lemma validate_nodes_iff l claimed bytes index :
  Forall node_typed l -> 0 <= bytes <= MAX_PAGE_IMAGE_TOTAL_BYTES ->
  validate_nodes (claimed, bytes) index l = Ok () <->
  Forall node_ok l /\ NoDup (addressed l) /\ (forall id, id ∈ addressed l -> ~ (id ∈ claimed)) /\
  bytes + frame_raster_bytes l <= MAX_PAGE_IMAGE_TOTAL_BYTES.
Proof.
  intros Ht. revert claimed bytes index. induction Ht as [|n l Hn Ht IH]; intros claimed bytes index Hb.
  { cbn. split; [|done]. intros _. split_and!; [constructor | constructor | set_solver | lia]. }
  cbn [validate_nodes]. pose proof (validate_node_iff claimed bytes index n) as Hv. rewrite addressed_cons, Forall_cons.
  change (frame_raster_bytes (n :: l)) with (raster_bytes n + frame_raster_bytes l).
  destruct (validate_node (claimed, bytes) index n) as [s|e].
  - destruct (proj1 (Hv s Hn Hb) eq_refl) as (Hok & Hid & Hsum & ->). pose proof (raster_bytes_bound n Hok). rewrite IH by lia. clear Hv IH.
    destruct (Z.eqb_spec (node_id n) 0) as [E|E]; cbn [app]; [split; intros; destruct_and!; split_and!; (done || lia)|].
    rewrite NoDup_cons. split; intros Hx; destruct_and!; split_and!; try done; try lia; try set_solver.
  - split; [done|]. intros ((Hok & Hl) & Hnd & Hc & Hsum). pose proof (frame_raster_nonneg l Hl).
    assert (Hid : node_id n = 0 \/ ~ (node_id n ∈ claimed)).
    { destruct (Z.eqb_spec (node_id n) 0) as [E|E]; [by left|]. right. apply Hc, elem_of_app. left. by apply list_elem_of_singleton. }
    pose proof (proj2 (Hv _ Hn Hb) (conj Hok (conj Hid (conj (ltac:(lia) : bytes + raster_bytes n <= MAX_PAGE_IMAGE_TOTAL_BYTES) eq_refl)))). done.
Qed.

(** * Web addresses *)

(** The two schemes, whatever the case they are written in. *)
Definition web_scheme (scheme : text) : Prop := map ascii_lower scheme ∈ [ascii "http"; ascii "https"].

(** An address that names a host: a scheme, [//], an authority with optional
    user information and port around a host, and the rest. *)
Inductive navigable : text -> Prop :=
| Navigable (scheme authority tail : text) :
    web_scheme scheme -> authority_ok authority ->
    match tail with [] => True | c :: _ => c ∈ ascii "/?#" end ->
    navigable (scheme ++ ascii "://" ++ authority ++ tail)
with authority_ok : text -> Prop :=
| AuthorityOk (user host_port : text) :
    (user = [] \/ exists u, user = u ++ ascii "@") -> ~ (64 ∈ host_port) -> host_port_ok host_port ->
    Forall (fun c => is_whitespace c = false /\ ~ (c ∈ ascii "/?#")) (user ++ host_port) -> authority_ok (user ++ host_port)
with host_port_ok : text -> Prop :=
| Bracketed (host rest : text) : host <> [] -> ~ (93 ∈ host) -> host_port_ok (ascii "[" ++ host ++ ascii "]" ++ rest)
| Plain (host port : text) :
    host <> [] -> head host <> Some 91 -> ~ (58 ∈ host) -> match port with [] => True | c :: _ => c = 58 end -> host_port_ok (host ++ port).

Lemma split_once_Some c t a b : split_once c t = Some (a, b) <-> t = a ++ c :: b /\ ~ (c ∈ a).
Proof.
  revert a. induction t as [|x t IH]; intros a; cbn [split_once].
  - split; [done|]. by intros [?%app_cons_not_nil _].
  - destruct (Z.eqb_spec x c) as [->|Hx].
    + split; [intros [= <- <-]; split; [done | set_solver]|]. intros [E Ha]. destruct a as [|y a]; cbn in E; [by injection E as ->|].
      injection E as <- _. set_solver.
    + destruct (split_once c t) as [[a' b']|] eqn:Es; cbn [mbind option_bind].
      * split; [intros [= <- <-]; destruct (proj1 (IH a') eq_refl) as [-> ?]; split; [done | set_solver]|].
        intros [E Ha]. destruct a as [|y a]; cbn in E; [congruence|]. injection E as <- E. 
        assert (Es2 : Some (a', b') = Some (a, b)) by (apply IH; split; [done | set_solver]). by simplify_eq.
      * split; [done|]. intros [E Ha]. destruct a as [|y a]; cbn in E; [congruence|]. injection E as <- E.
        assert (Es2 : None = Some (a, b)) by (apply IH; split; [done | set_solver]). done.
Qed.

Lemma before_spec stop t :
  exists rest, t = before stop t ++ rest /\ Forall (fun c => stop c = false) (before stop t) /\ match rest with [] => True | c :: _ => stop c = true end.
Proof.
  induction t as [|x t (rest & E & Hf & Hr)]; cbn; [by exists []|]. destruct (stop x) eqn:Ex; [by exists (x :: t)|].
  exists rest. split_and!; [cbn; by f_equal | by constructor | done].
Qed.

Lemma before_app stop a rest :
  Forall (fun c => stop c = false) a -> match rest with [] => True | c :: _ => stop c = true end -> before stop (a ++ rest) = a.
Proof.
  induction 1 as [|x a Hx _ IH]; intros Hr; cbn; [destruct rest as [|c rest]; [done|]; cbn; by rewrite Hr|]. rewrite Hx. f_equal. by apply IH.
Qed.

Lemma not_elem_Forall (c : Z) (a : text) : ~ (c ∈ a) <-> Forall (fun x => (x =? c) = false) a.
Proof. rewrite Forall_forall. setoid_rewrite Z.eqb_neq. split; [intros H x Hx -> | intros H Hx; by apply (H c)]; done. Qed.

Lemma after_last_spec c t : exists user, t = user ++ after_last c t /\ ~ (c ∈ after_last c t) /\ (user = [] \/ exists u, user = u ++ [c]).
Proof.
  unfold after_last. destruct (before_spec (fun x => x =? c) (reverse t)) as (rest & E & Hf & Hr).
  exists (reverse rest). split_and!.
  - rewrite <- reverse_app, <- E. by rewrite reverse_involutive.
  - rewrite elem_of_reverse. by apply not_elem_Forall.
  - destruct rest as [|x rest]; [by left|]. right. apply Z.eqb_eq in Hr as ->. exists (reverse rest). by rewrite reverse_cons.
Qed.

Lemma after_last_app c user t : ~ (c ∈ t) -> (user = [] \/ exists u, user = u ++ [c]) -> after_last c (user ++ t) = t.
Proof.
  intros Ht Hu. unfold after_last. rewrite reverse_app, before_app; [apply reverse_involutive | apply not_elem_Forall; by rewrite elem_of_reverse|].
  destruct Hu as [->|[u ->]]; [done|]. rewrite reverse_app. cbn. apply Z.eqb_refl.
Qed.

Lemma unbracketed {A} (t : text) (f : text -> A) (d : A) : head t <> Some 91 -> (match t with 91 :: r => f r | _ => d end) = d.
Proof.
  intros H. destruct t as [|c t]; [done|]. assert (Hc : c <> 91) by (intros ->; done). clear H. destruct c as [|c|c]; [done| |done].
  do 7 (destruct c as [c|c|]; try done).
Qed.

Lemma host_port_iff t :
  match (match t with 91 :: bracketed => fst <$> split_once 93 bracketed | _ => Some (before (fun x => x =? 58) t) end) with
  | None | Some [] => False | Some _ => True end <-> host_port_ok t.
Proof.
  split.
  - intros H. destruct (decide (head t = Some 91)) as [Eh|Eh].
    + destruct t as [|c t]; [done|]. injection Eh as ->. cbn in H. destruct (split_once 93 t) as [[a b]|] eqn:E; cbn in H; [|done].
      apply split_once_Some in E as [-> Ha]. apply (Bracketed a b); [by destruct a | done].
    + rewrite (unbracketed t (fun r => fst <$> split_once 93 r)) in H by done.
      assert (H' : before (fun x => x =? 58) t <> []) by (intros E; by rewrite E in H).
      destruct (before_spec (fun x => x =? 58) t) as (rest & E & Hf & Hr). rewrite E. apply Plain; [done | | by apply not_elem_Forall | ].
      * destruct (before _ t) as [|x l] eqn:Eb; [done|]. cbn. intros [= ->]. rewrite E in Eh. done.
      * destruct rest as [|x rest]; [done|]. by apply Z.eqb_eq in Hr.
  - intros [host rest Hne Hno|host port Hne Hh Hno Hp].
    + change (ascii "[") with [91]. change (ascii "]") with [93]. cbn [app]. assert (E : split_once 93 (host ++ 93 :: rest) = Some (host, rest)) by (by apply split_once_Some). rewrite E. by destruct host.
    + assert (E : before (fun x => x =? 58) (host ++ port) = host).
      { apply before_app; [by apply not_elem_Forall|]. destruct port as [|x port]; [done|]. subst x. done. }
      rewrite (unbracketed (host ++ port) (fun r => fst <$> split_once 93 r)), E by (by destruct host). by destruct host.
Qed.

Lemma existsb_Forall {A} (f : A -> bool) l : existsb f l = false <-> Forall (fun x => f x = false) l.
Proof. induction l as [|x l IH]; cbn; [by split|]. by rewrite orb_false_iff, Forall_cons, IH. Qed.

Definition path_start (x : Z) : bool := (x =? 47) || (x =? 63) || (x =? 35).

Lemma path_start_iff c : path_start c = true <-> c ∈ ascii "/?#".
Proof. unfold path_start. rewrite !orb_true_iff, !Z.eqb_eq. change (ascii "/?#") with [47; 63; 35]. set_solver. Qed.

Lemma path_start_false c : path_start c = false <-> ~ (c ∈ ascii "/?#").
Proof. rewrite <- path_start_iff. destruct (path_start c); naive_solver. Qed.

Lemma authority_iff t :
  Forall (fun c => path_start c = false) t ->
  (existsb is_whitespace t = false /\ match authority_host t with None | Some [] => False | Some _ => True end) <-> authority_ok t.
Proof.
  intros Hp. split.
  - intros [Hw%existsb_Forall H]. destruct (after_last_spec 64 t) as (user & E & Hno & Hu). unfold authority_host in H. apply host_port_iff in H.
    rewrite E. apply AuthorityOk; [exact Hu | done | done |]. rewrite <- E. eapply Forall_impl; [apply Forall_and; split; [exact Hw | exact Hp]|].
    intros c [Hc1 Hc2]. split; [done | by apply path_start_false].
  - intros [user hp Hu Hno Hh Hf]. split; [apply existsb_Forall; eapply Forall_impl; [exact Hf | by intros c []]|].
    unfold authority_host. rewrite (after_last_app 64 user hp) by done. by apply host_port_iff.
Qed.

Lemma web_scheme_iff scheme :
  negb (eq_ignore_ascii_case scheme (ascii "http")) && negb (eq_ignore_ascii_case scheme (ascii "https")) = false <-> web_scheme scheme.
Proof.
  unfold eq_ignore_ascii_case, web_scheme. rewrite andb_false_iff, !negb_false_iff, !bool_decide_eq_true.
  change (map ascii_lower (ascii "http")) with (ascii "http"). change (map ascii_lower (ascii "https")) with (ascii "https").
  rewrite !elem_of_cons, elem_of_nil. tauto.
Qed.

Lemma web_scheme_no_colon scheme : web_scheme scheme -> ~ (58 ∈ scheme).
Proof.
  intros H Hin. apply (list_elem_of_fmap_2 ascii_lower) in Hin. change (ascii_lower 58) with 58 in Hin. unfold web_scheme in H. change (map ascii_lower scheme) with (ascii_lower <$> scheme) in H.
  rewrite !elem_of_cons in H. destruct H as [H|[H|H]]; [| |set_solver]; rewrite H in Hin; vm_compute in Hin;
    repeat (apply elem_of_cons in Hin as [?|Hin]; [done|]); by apply elem_of_nil in Hin.
Qed.

Lemma no_slashes {A} (t : text) (f : text -> A) (d : A) : (forall r, t <> 47 :: 47 :: r) -> (match t with 47 :: 47 :: r => f r | _ => d end) = d.
Proof.
  intros H. destruct t as [|c t]; [done|]. destruct (decide (c = 47)) as [->|Hc].
  - destruct t as [|c t]; [done|]. assert (Hc : c <> 47) by (intros ->; by eapply H). destruct c as [|c|c]; [done| |done].
    do 6 (destruct c as [c|c|]; try done).
  - destruct c as [|c|c]; [done| |done]. do 6 (destruct c as [c|c|]; try done).
Qed.

(** The text of an accepted address, from its two parts. *)
Lemma url_accepted_iff u :
  validate_web_surface_url u = Ok () <->
  str_len u <= MAX_NODE_TEXT_BYTES /\ Forall (fun c => is_control c = false) (chars u) /\ navigable (chars u).
Proof.
  unfold validate_web_surface_url. set (t := chars u). destruct (Z.ltb_spec MAX_NODE_TEXT_BYTES (str_len u)); [split; [done | intros; lia]|].
  split.
  - destruct (split_once 58 t) as [[scheme r]|] eqn:E; cbn [default from_option id]; cbv iota beta; [|done]. apply split_once_Some in E as [E Hs].
    destruct (negb (eq_ignore_ascii_case scheme (ascii "http")) && negb (eq_ignore_ascii_case scheme (ascii "https"))) eqn:Ew; [done|]. apply web_scheme_iff in Ew. destruct (existsb is_control t) eqn:Ec; [done|]. apply existsb_Forall in Ec.
    destruct (decide (take 2 r = [47; 47])) as [Er2|Hn].
    2: { rewrite no_slashes; [done|]. by intros r' ->. }
    destruct r as [|c1 [|c2 r']]; try done. injection Er2 as -> ->.
    destruct (before_spec path_start r') as (tail & Er & Hf & Htail).
    change (fun x => (x =? 47) || (x =? 63) || (x =? 35)) with path_start. destruct (existsb is_whitespace (before path_start r')) eqn:Ew2; [done|].
    intros Hok. split_and!; [done..|]. rewrite E, Er. apply (Navigable scheme (before path_start r') tail); [done | |].
    + apply authority_iff; [done|]. split; [done|]. by destruct (authority_host _) as [[|]|].
    + destruct tail as [|c tail]; [done|]. by apply path_start_iff.
  - intros (_ & Hc & Hn). fold t in Hn. remember t as t' eqn:Et. clear Et t. destruct Hn as [scheme authority tail Hs Ha Ht].
    change (scheme ++ ascii "://" ++ authority ++ tail) with (scheme ++ 58 :: 47 :: 47 :: (authority ++ tail)) in *.
    assert (E : split_once 58 (scheme ++ 58 :: 47 :: 47 :: (authority ++ tail)) = Some (scheme, 47 :: 47 :: (authority ++ tail)))
      by (apply split_once_Some; split; [done | by apply web_scheme_no_colon]).
    rewrite E. cbn [default from_option id]. cbv iota beta. rewrite (proj2 (web_scheme_iff scheme) Hs), (proj2 (existsb_Forall _ _) Hc).
    change (fun x => (x =? 47) || (x =? 63) || (x =? 35)) with path_start.
    assert (Hp : Forall (fun c => path_start c = false) authority).
    { destruct Ha as [user hp _ _ _ Hf]. eapply Forall_impl; [exact Hf|]. intros c [_ Hx]. by apply path_start_false. }
    rewrite before_app; [|done|]. 2: { destruct tail as [|c tail]; [done|]. by apply path_start_iff. }
    apply (authority_iff authority Hp) in Ha as [-> Hh]. by destruct (authority_host authority) as [[|c h]|].
Qed.

(** * Frames *)

(** What the renderer may rely on. *)
Definition drawable (f : PageFrame) : Prop :=
  match web f with
  | Some w =>
      nodes f = [] /\ focus_node f = 0 /\ redraw_after_ms f = 0 /\
      (url w = ""%string \/ str_len (url w) <= MAX_NODE_TEXT_BYTES /\ Forall (fun c => is_control c = false) (chars (url w)) /\ navigable (chars (url w)))
  | None =>
      len (nodes f) <= MAX_PAGE_NODES /\ Forall node_ok (nodes f) /\ NoDup (addressed (nodes f)) /\
      frame_raster_bytes (nodes f) <= MAX_PAGE_IMAGE_TOTAL_BYTES
  end.

Lemma page_accepted_drawable f : Forall node_typed (nodes f) -> validate_frame f = Ok () <-> drawable f.
Proof.
  intros Ht. unfold validate_frame, drawable. destruct (web f) as [w|].
  - destruct (nodes f) as [|n l]; cbn [length]; [|by split; [|intros [? _]]]. rewrite bool_decide_eq_true_2 by done. cbn [negb].
    destruct (Z.eqb_spec (focus_node f) 0); cbn [negb]; [|by split; [|intros (_ & ? & _)]].
    destruct (Z.eqb_spec (redraw_after_ms f) 0); cbn [negb]; [|by split; [|intros (_ & _ & ? & _)]].
    unfold validate_surface. destruct (String.eqb_spec (url w) ""); [naive_solver|].
    rewrite url_accepted_iff. naive_solver.
  - destruct (Z.ltb_spec MAX_PAGE_NODES (len (nodes f))); [split; [done | intros; lia]|].
    rewrite validate_nodes_iff by (done || (unfold MAX_PAGE_IMAGE_TOTAL_BYTES; lia)). split; intros Hx; destruct_and!; split_and!; (done || lia || set_solver).
Qed.


(** ** The focus ring *)

Lemma ring_order_total x y : ring_leb x y = true \/ ring_leb y x = true.
Proof. unfold ring_leb. destruct (Z.ltb_spec x.1.1 y.1.1), (Z.ltb_spec y.1.1 x.1.1), (Z.eqb_spec x.1.1 y.1.1), (Z.eqb_spec y.1.1 x.1.1); cbn; try tauto; try lia. rewrite !Nat.leb_le. lia. Qed.

Lemma ring_order_trans x y z : ring_leb x y = true -> ring_leb y z = true -> ring_leb x z = true.
Proof. unfold ring_leb. rewrite !orb_true_iff, !andb_true_iff, !Z.ltb_lt, !Z.eqb_eq, !Nat.leb_le. lia. Qed.

(** The focusable nodes with their place in the ring. *)
Definition focusable (f : PageFrame) : list (Z * nat * Z) :=
  omap (fun x : nat * PageNode => if is_focusable x.2 then Some (focus_order x.2, x.1, node_id x.2) else None) (imap pair (nodes f)).

Lemma elem_of_focusable f o i id : (o, i, id) ∈ focusable f <-> exists n, nodes f !! i = Some n /\ is_focusable n = true /\ focus_order n = o /\ node_id n = id.
Proof.
  unfold focusable. rewrite list_elem_of_omap. split.
  - intros ([j n] & Hj & E). apply elem_of_lookup_imap in Hj as (k & m & [= -> ->] & Hk). cbn in E. destruct (is_focusable m) eqn:Ef; [|done]. injection E as <- <- <-. eauto.
  - intros (n & Hn & Hf & <- & <-). exists (i, n). split; [apply elem_of_lookup_imap; eauto | cbn; by rewrite Hf].
Qed.

Lemma NoDup_omap_places f : NoDup (focusable f).
Proof.
  unfold focusable. set (g := fun x : nat * PageNode => _). enough (H : forall l k, NoDup (omap g (imap (fun i n => (k + i, n)%nat) l)) /\
    forall x, x ∈ omap g (imap (fun i n => (k + i, n)%nat) l) -> (k <= x.1.2)%nat) by exact (proj1 (H (nodes f) 0%nat)).
  induction l as [|n l IH]; intros k; [split; [constructor | intros x Hx; by apply elem_of_nil in Hx]|]. rewrite imap_cons.
  replace (imap ((fun i m => (k + i, m)%nat) ∘ S) l) with (imap (fun i m => (S k + i, m)%nat) l) by (apply imap_ext; intros; cbn; f_equal; lia).
  destruct (IH (S k)) as [Hnd Hk]. cbn [omap list_omap]. rewrite Nat.add_0_r.
  assert (Eg : g (k, n) = if is_focusable n then Some (focus_order n, k, node_id n) else None) by done. rewrite Eg. destruct (is_focusable n).
  - split; [constructor; [|done] | intros x [->|Hx]%elem_of_cons; [cbn; lia | specialize (Hk x Hx); lia]].
    intros Hx%Hk. cbn in Hx. lia.
  - split; [done | intros x Hx%Hk; lia].
Qed.

Lemma focusable_addressed l : NoDup (addressed l) -> forall i j n m, l !! i = Some n -> l !! j = Some m -> node_id n = node_id m -> node_id n <> 0 -> i = j.
Proof.
  induction l as [|x l IH]; intros Hnd i j n m Hi Hj E Hne; [done|]. rewrite addressed_cons in Hnd.
  assert (Hin : forall k y, l !! k = Some y -> node_id y <> 0 -> node_id y ∈ addressed l).
  { intros k y Hk Hy. unfold addressed. apply list_elem_of_In, filter_In. split; [|by apply negb_true_iff, Z.eqb_neq]. apply list_elem_of_In, list_elem_of_fmap_2. by eapply list_elem_of_lookup_2. }
  assert (Hx : node_id x <> 0 -> ~ (node_id x ∈ addressed l) /\ NoDup (addressed l)).
  { intros H0. rewrite (proj2 (Z.eqb_neq _ _) H0) in Hnd. by apply NoDup_cons in Hnd. }
  destruct i as [|i], j as [|j]; cbn in Hi, Hj; [done| | |].
  - injection Hi as ->. exfalso. apply (proj1 (Hx Hne)). rewrite E. apply (Hin j); [done | congruence].
  - injection Hj as ->. exfalso. apply (proj1 (Hx ltac:(congruence))). rewrite <- E. by apply (Hin i).
  - f_equal. eapply IH; try done. by apply NoDup_app in Hnd as (_ & _ & ?).
Qed.

Lemma page_node_lookup f i n : NoDup (addressed (nodes f)) -> nodes f !! i = Some n -> node_id n <> 0 -> page_node f (node_id n) = Some n.
Proof.
  intros Hnd Hi Hne. unfold page_node. rewrite (proj2 (Z.eqb_neq _ _) Hne). cbn [negb].
  destruct (List.find _ _) as [m|] eqn:E.
  - apply find_some in E as [Hm%list_elem_of_In E%Z.eqb_eq]. apply list_elem_of_lookup in Hm as [j Hj]. 
    assert (j = i) as -> by (eapply focusable_addressed; try done; congruence). congruence.
  - pose proof (find_none _ _ E n ltac:(apply list_elem_of_In; by eapply list_elem_of_lookup_2)) as Hx. cbn in Hx. by rewrite Z.eqb_refl in Hx.
Qed.

(** The Tab ring.  On an accepted frame the ring visits exactly the nodes that
    are interactive and have an identity, each once, by their declared order and
    then in document order; and every identity on it names its own node. *)
Theorem focus_ring_exact f :
  Forall node_typed (nodes f) -> validate_frame f = Ok () ->
  (exists ring, focus_ring f = map snd ring /\ StronglySorted (by_test ring_leb) ring /\
     forall o i id, (o, i, id) ∈ ring <-> exists n, nodes f !! i = Some n /\ is_focusable n = true /\ focus_order n = o /\ node_id n = id) /\
  NoDup (focus_ring f) /\
  forall id, id ∈ focus_ring f <-> exists n, page_node f id = Some n /\ is_focusable n = true.
Proof.
  intros Ht Hv. apply page_accepted_drawable in Hv; [|done]. assert (Hnd : NoDup (addressed (nodes f))).
  { unfold drawable in Hv. destruct (web f) as [w|]; [|by destruct Hv as (_ & _ & ? & _)]. destruct Hv as [-> _]. constructor. }
  assert (Hring : forall o i id, (o, i, id) ∈ ring_sort (focusable f) <-> exists n, nodes f !! i = Some n /\ is_focusable n = true /\ focus_order n = o /\ node_id n = id).
  { intros o i id. unfold ring_sort. rewrite (sort_by_perm ring_leb (focusable f)). apply elem_of_focusable. }
  assert (Hids : NoDup (focus_ring f)).
  { change (focus_ring f) with (map snd (ring_sort (focusable f))). unfold ring_sort. rewrite (Permutation_map snd (sort_by_perm ring_leb (focusable f))).
    change (map snd) with (fmap (M := list) (@snd (Z * nat) Z)). apply NoDup_fmap_2_strong.
    - intros [[o i] id] [[o' i'] id'] (n & Hn & Hf & <- & <-)%elem_of_focusable (m & Hm & Hf' & <- & <-)%elem_of_focusable E. cbn in E.
      apply andb_true_iff in Hf as [_ Hne%negb_true_iff%Z.eqb_neq].
      assert (i = i') as <- by (by eapply focusable_addressed). congruence.
    - unfold focusable. apply NoDup_omap_places. }
  split_and!; [exists (ring_sort (focusable f)); split_and!; [done | | exact Hring] | done |].
  - apply sort_by_sorted; [apply ring_order_total | apply ring_order_trans].
  - intros id. change (focus_ring f) with (map snd (ring_sort (focusable f))). rewrite list_elem_of_fmap. split.
    + intros ([[o i] id'] & -> & (n & Hn & Hf & _ & <-)%Hring). cbn. exists n. pose proof Hf as [_ Hne%negb_true_iff%Z.eqb_neq]%andb_true_iff.
      split; [by eapply page_node_lookup | done].
    + intros (n & E & Hf). unfold page_node in E. destruct (negb (id =? 0)) eqn:E0; [|done]. apply find_some in E as [Hm%list_elem_of_In Eid%Z.eqb_eq].
      apply list_elem_of_lookup in Hm as [i Hi]. exists (focus_order n, i, id). split; [done|]. apply Hring. eauto.
Qed.

(** ** Colours *)

Definition channel (c : Z) : Prop := 0 <= c < 256.

Lemma byte_bits c n : channel c -> 8 <= n -> Z.testbit c n = false.
Proof.
  intros Hc Hn. destruct (Z.eq_dec c 0) as [->|H0]; [apply Z.bits_0|]. apply Z.bits_above_log2; [unfold channel in Hc; lia|].
  apply Z.log2_lt_pow2; [unfold channel in Hc; lia|]. unfold channel in Hc. pose proof (Z.pow_le_mono_r 2 8 n ltac:(lia) Hn). lia.
Qed.

Lemma mask_bits n : 0 <= n -> Z.testbit 255 n = (n <? 8).
Proof. intros Hn. change 255 with (Z.ones 8). destruct (Z.ltb_spec n 8); [apply Z.ones_spec_low; lia | apply Z.ones_spec_high; lia]. Qed.

(** The wire form keeps a colour, and every 32-bit value is one. *)
Lemma color_roundtrip c :
  channel (color_r c) -> channel (color_g c) -> channel (color_b c) -> channel (color_a c) -> from_u32 (to_u32 c) = c.
Proof.
  destruct c as [r g b a]. cbn. intros Hr Hg Hb Ha. unfold from_u32, to_u32, as_u8. cbn [color_r color_g color_b color_a].
  f_equal; apply Z.bits_inj'; intros n Hn; rewrite Z.land_spec, mask_bits, ?Z.shiftr_spec, !Z.lor_spec, !Z.shiftl_spec by lia;
    (destruct (Z.ltb_spec n 8) as [Hl|Hl]; [rewrite andb_true_r | rewrite andb_false_r; by rewrite byte_bits]);
    rewrite ?Z.add_simpl_r; rewrite ?(byte_bits r), ?(byte_bits g), ?(byte_bits b), ?(byte_bits a), ?(Z.testbit_neg_r _ (_ - _)), ?orb_false_r by (done || lia); cbn [orb];
    try (f_equal; lia); rewrite ?(byte_bits _ (n + _)), ?orb_false_r by (done || lia); try done.
Qed.

(** * Witnesses *)

Definition sample_page : PageFrame :=
  mkFrame 3 "Form"
    [default_node <| shape := ShapeText |> <| node_text := "Name"%string |>;
     default_node <| role := RoleButton |> <| node_id := 2 |> <| focus_order := 1 |> <| node_label := "Save"%string |>;
     default_node <| role := RoleTextField |> <| node_id := 1 |> <| node_label := "Name"%string |> <| node_x := f32_of_integer 40 |>;
     default_node <| shape := ShapeImage |> <| image := Some (mkImage 1 2 [0; 0; 0; 255; 9; 9; 9; 255]) |>] 1 0 false None.

Lemma sample_page_typed : Forall node_typed (nodes sample_page).
Proof. repeat constructor; cbn; unfold u32_max; lia. Qed.


Lemma focus_ring_exact_witness : focus_ring sample_page = [1; 2] /\ NoDup (focus_ring sample_page).
Proof.
  destruct (focus_ring_exact sample_page sample_page_typed) as (_ & Hnd & _); [vm_compute; reflexivity|].
  split; [vm_compute; reflexivity | exact Hnd].
Defined.

Example userinfo_is_no_host : validate_web_surface_url "https://user@:443/" = Err WebSurfaceInvalidUrl.
Proof. reflexivity. Qed.

Example address_accepted : validate_web_surface_url "HTTPS://user@[::1]:443/a b" = Ok ().
Proof. reflexivity. Qed.

Fixpoint repeat_char (n : nat) : string := match n with O => EmptyString | S n' => String (Ascii.ascii_of_nat 120) (repeat_char n') end.

(** The bound on the text of a node is not a bound on what the node carries: a
    label of any length is accepted. *)
Lemma label_unbounded n : validate_frame (default_frame <| nodes := [default_node <| node_label := repeat_char n |>] |>) = Ok ().
Proof. reflexivity. Qed.

Lemma repeat_char_len n : str_len (repeat_char n) = Z.of_nat n.
Proof. unfold str_len. f_equal. induction n as [|n IH]; [done|]. cbn. by f_equal. Qed.
