(* ===== verification/Generation.v ===== *)
(** Query generations: [crikey-core/src/generation.rs].

    A generation is a [u64]; the tracker is one atomic counter.  Each method
    of the tracker is a single atomic access (a load, or a [fetch_update] that
    either commits or leaves the counter alone), so a concurrent execution is
    a sequence of the steps below. *)

From S2P Require Import Prelude.

(** [Generation(u64)], ordered and compared as the integer. *)
Abbreviation Generation := Z (only parsing).

Definition ZERO : Generation := 0.

(** [CoreError], the variants the tracker produces. *)
Inductive CoreError : Type :=
| StaleGeneration (got current : Z)
| CapacityExceeded (what : string).

Module GenerationTracker.

Record GenerationTracker := mk { counter : Z }.

Definition new : GenerationTracker := mk 0.

Definition current (t : GenerationTracker) : Generation := counter t.

(** [fetch_update] with [checked_add(1)]: commits the successor, or fails and
    leaves the counter as it was. *)
Definition try_advance (t : GenerationTracker) : GenerationTracker * result Generation CoreError :=
  match checked_add u64_max (counter t) 1 with
  | Some next => (mk next, Ok next)
  | None => (t, Err (CapacityExceeded "query generations"))
  end.

(** [advance] panics where [try_advance] reports exhaustion. *)
Definition advance (t : GenerationTracker) : option (GenerationTracker * Generation) :=
  match try_advance t with
  | (t', Ok g) => Some (t', g)
  | (_, Err _) => None
  end.

Definition is_current (t : GenerationTracker) (g : Generation) : bool := g =? current t.

Definition is_stale (t : GenerationTracker) (g : Generation) : bool := negb (is_current t g).

Definition ensure_current (t : GenerationTracker) (g : Generation) : result unit CoreError :=
  if g =? current t then Ok tt else Err (StaleGeneration g (current t)).

(** A run of [n] allocations and the generations they returned. *)
Fixpoint mint (n : nat) (t : GenerationTracker) : GenerationTracker * list Generation :=
  match n with
  | O => (t, [])
  | S n' =>
      match try_advance t with
      | (t', Ok g) => let (t'', gs) := mint n' t' in (t'', g :: gs)
      | (t', Err _) => mint n' t'
      end
  end.

(** The counter is a [u64]. *)
Definition wf (t : GenerationTracker) : Prop := in_range u64_max (counter t).

Lemma advance_spec t t' g :
  advance t = Some (t', g) -> g = counter t + 1 /\ counter t' = g /\ g <= u64_max.
Proof.
  unfold advance, try_advance. destruct (checked_add _ _ _) eqn:E; intros; simplify_eq/=.
  apply checked_add_Some in E. lia.
Qed.

Lemma advance_wf t t' g : wf t -> advance t = Some (t', g) -> wf t'.
Proof. unfold wf, in_range. intros ? [-> [-> ?]]%advance_spec. lia. Qed.

Lemma advance_total t : counter t < u64_max -> exists t', advance t = Some (t', counter t + 1).
Proof.
  intros H. unfold advance, try_advance, checked_add.
  destruct (Z.leb_spec (counter t + 1) u64_max); [eauto | lia].
Qed.

Lemma mint_S_inv n t t' gs :
  mint (S n) t = (t', gs) ->
  (counter t + 1 <= u64_max /\
   exists gs', gs = counter t + 1 :: gs' /\ mint n (mk (counter t + 1)) = (t', gs')) \/
  mint n t = (t', gs).
Proof.
  simpl. unfold try_advance. destruct (checked_add _ _ _) as [next|] eqn:E; [|by right].
  apply checked_add_Some in E as [-> ?]. destruct (mint n _) as [t'' gs'] eqn:Hn.
  intros [= <- <-]. eauto.
Qed.

Lemma mint_bounds n t t' gs :
  mint n t = (t', gs) -> counter t <= u64_max ->
  Forall (fun g => counter t < g <= counter t') gs /\
  counter t <= counter t' <= u64_max.
Proof.
  revert t gs. induction n as [|n IH]; intros t gs Hm Ht.
  - simplify_eq/=. split; [constructor | lia].
  - apply mint_S_inv in Hm as [[? (gs' & -> & Hm)]|Hm]; [|eauto].
    apply IH in Hm as [Hall ?]; simpl in *; [|lia]. split; [constructor; [lia|] | lia].
    eapply Forall_impl; [exact Hall|]. simpl. lia.
Qed.

Lemma mint_sorted n t t' gs :
  mint n t = (t', gs) -> counter t <= u64_max -> StronglySorted Z.lt gs.
Proof.
  revert t gs. induction n as [|n IH]; intros t gs Hm Ht; [simplify_eq/=; constructor|].
  apply mint_S_inv in Hm as [[? (gs' & -> & Hm)]|Hm]; [|eauto].
  constructor; [eapply IH; [exact Hm | done]|].
  apply mint_bounds in Hm as [Hall _]; [|done].
  eapply Forall_impl; [exact Hall|]. simpl. lia.
Qed.

Lemma mint_last n t t' gs : mint n t = (t', gs) -> counter t' = List.last gs (counter t).
Proof.
  revert t gs. induction n as [|n IH]; intros t gs Hm; [by simplify_eq/=|].
  apply mint_S_inv in Hm as [[? (gs' & -> & Hm)]|Hm]; [|eauto].
  by rewrite last_cons_default, (IH _ _ Hm).
Qed.

(** However many times the tracker is asked, the generations it hands out
    are strictly increasing, all newer than the one that was current, never
    wrap around [u64::MAX], and the last one is the current one. *)
Theorem minted_strictly_increasing n t t' gs :
  wf t -> mint n t = (t', gs) ->
  StronglySorted Z.lt gs /\
  Forall (fun g => current t < g <= u64_max) gs /\
  current t' = List.last gs (current t).
Proof.
  unfold wf, in_range, current. intros [_ Ht] Hm.
  split_and_all; eauto using mint_sorted, mint_last.
  apply mint_bounds in Hm as [Hall ?]; [|done]. eapply Forall_impl; [exact Hall|]. simpl. lia.
Qed.

Lemma minted_strictly_increasing_witness :
  StronglySorted Z.lt [u64_max - 1; u64_max] /\
  Forall (fun g => u64_max - 2 < g <= u64_max) [u64_max - 1; u64_max] /\ u64_max = u64_max.
Proof.
  exact (minted_strictly_increasing 5 (mk (u64_max - 2)) (mk u64_max) [u64_max - 1; u64_max]
    ltac:(vm_compute; split; discriminate) ltac:(reflexivity)).
Defined.

End GenerationTracker.
