(* ===== verification/Items.v ===== *)
(** The item model of [crikey-core]: [item.rs] and [action.rs].

    A Rust [String] is its UTF-8 bytes, a [string]; a category is the
    enumeration of the source, with its two encodings: the injective wire tag
    and the length-prefixed derived identity. *)

From Stdlib Require Import Ascii DecimalString DecimalN.
From S2P Require Import Prelude.

(** [PluginId(String)] and [ItemId(String)], compared as their bytes. *)
Abbreviation PluginId := string (only parsing).
Abbreviation ItemId := string (only parsing).

(** * Categories *)

Inductive Category : Type :=
| Application | File | Directory | Url | Command | Expression | Keyword | Contact | ClipboardItem
| PluginDefined (name : string).
#[export] Instance Category_eq_dec : EqDecision Category.
Proof. solve_decision. Defined.

Definition PLUGIN_DEFINED_PREFIX : string := "plugin-defined:".

Definition category_as_str (c : Category) : string :=
  match c with
  | Application => "application"
  | File => "file"
  | Directory => "directory"
  | Url => "url"
  | Command => "command"
  | Expression => "expression"
  | Keyword => "keyword"
  | Contact => "contact"
  | ClipboardItem => "clipboard-item"
  | PluginDefined name => name
  end.

Definition wire_tag (c : Category) : string :=
  match c with
  | PluginDefined name => PLUGIN_DEFINED_PREFIX +:+ name
  | builtin => category_as_str builtin
  end.

(** [str::strip_prefix]. *)
Fixpoint strip_prefix (prefix s : string) : option string :=
  match prefix, s with
  | EmptyString, _ => Some s
  | String a p, String b s' => if Ascii.eqb a b then strip_prefix p s' else None
  | String _ _, EmptyString => None
  end.

Definition from_wire_tag (tag : string) : Category :=
  match strip_prefix PLUGIN_DEFINED_PREFIX tag with
  | Some name => PluginDefined name
  | None =>
      if String.eqb tag "application" then Application
      else if String.eqb tag "file" then File
      else if String.eqb tag "directory" then Directory
      else if String.eqb tag "url" then Url
      else if String.eqb tag "command" then Command
      else if String.eqb tag "expression" then Expression
      else if String.eqb tag "keyword" then Keyword
      else if String.eqb tag "contact" then Contact
      else if String.eqb tag "clipboard-item" then ClipboardItem
      else PluginDefined tag
  end.

(** * Derived identities *)

(** [usize] as [{}] prints it. *)
Definition decimal (n : nat) : string := NilEmpty.string_of_uint (N.to_uint (N.of_nat n)).

(** One component: its byte length, a colon, its bytes. *)
Definition encode_component (component : string) : string :=
  decimal (String.length component) +:+ ":" +:+ component.

Definition category_parts (c : Category) : string * string :=
  match c with
  | PluginDefined name => ("plugin-defined", name)
  | builtin => (category_as_str builtin, "")
  end%string.

Definition derived (plugin : PluginId) (category : Category) (target : string) : ItemId :=
  let (category_tag, category_value) := category_parts category in
  foldl (fun encoded component => encoded +:+ encode_component component) ""
    ["crikey-derived-item-v1"; plugin; category_tag; category_value; target]%string.

(** * Items *)

Inductive ArgumentPolicy : Type := ArgForbidden | ArgOptional | ArgRequired.
Inductive HitPolicy : Type := HitRecorded | HitIgnored.
Inductive ExecutionPolicy : Type := HostMediated | ExecPlugin.

Record Action := mkAction {
  action_id : string;
  action_label : string;
  action_description : string;
  applicable_categories : list Category;
  action_icon_reference : option string;
  execution_policy : ExecutionPolicy;
}.

(** [metadata] is a [BTreeMap]: an association list in key order. *)
Record Item := mkItem {
  stable_id : ItemId;
  plugin_id : PluginId;
  category : Category;
  item_label : string;
  item_description : string;
  item_target : string;
  search_terms : list string;
  icon_reference : option string;
  argument_policy : ArgumentPolicy;
  hit_policy : HitPolicy;
  score_hint : Z;
  metadata : list (string * string);
  actions : list Action;
}.

(** An item of which only the identity matters. *)
Definition plain_item (plugin : PluginId) (id : ItemId) (label : string) : Item :=
  {| stable_id := id; plugin_id := plugin; category := Application; item_label := label;
     item_description := ""; item_target := ""; search_terms := []; icon_reference := None;
     argument_policy := ArgForbidden; hit_policy := HitRecorded; score_hint := 0; metadata := [];
     actions := [] |}%string.

(** * Encodings are injective *)

Lemma strip_prefix_app p s : strip_prefix p (p +:+ s) = Some s.
Proof. induction p as [|a p IH]; simpl; [done|]. by rewrite Ascii.eqb_refl. Qed.

(** Parsing the wire tag of a category gives the category back, so no two
    categories share a tag and a plugin-defined name never decodes to a
    built-in category. *)
Theorem wire_tag_roundtrip c : from_wire_tag (wire_tag c) = c.
Proof. destruct c; [reflexivity..|]. unfold wire_tag, from_wire_tag. by rewrite strip_prefix_app. Qed.

(** Strings without a separator. *)
Fixpoint no_colon (s : string) : bool :=
  match s with
  | EmptyString => true
  | String a s' => negb (Ascii.eqb a ":"%char) && no_colon s'
  end.

Lemma uint_no_colon d : no_colon (NilEmpty.string_of_uint d) = true.
Proof. by induction d. Qed.

Lemma decimal_no_colon n : no_colon (decimal n) = true.
Proof. apply uint_no_colon. Qed.

Lemma decimal_inj n m : decimal n = decimal m -> n = m.
Proof.
  unfold decimal. intros H. apply (f_equal NilEmpty.uint_of_string) in H. rewrite !NilEmpty.usu in H.
  injection H as H. apply DecimalN.Unsigned.to_uint_inj in H. lia.
Qed.

Lemma no_colon_split a b x y :
  no_colon a = true -> no_colon b = true -> a +:+ ":" +:+ x = b +:+ ":" +:+ y -> a = b /\ x = y.
Proof.
  revert b. induction a as [|c a IH]; intros [|d b] Ha Hb; simpl in *; intros H; simplify_eq; try done.
  all: apply andb_true_iff in Ha as [? Ha] || idtac; apply andb_true_iff in Hb as [? Hb] || idtac; try done.
  destruct (IH b) as [-> ->]; done.
Qed.

Lemma string_app_inj a b x y :
  String.length a = String.length b -> a +:+ x = b +:+ y -> a = b /\ x = y.
Proof.
  revert b. induction a as [|c a IH]; intros [|d b] Hl H; simpl in *; simplify_eq; [done|].
  destruct (IH b) as [-> ->]; done.
Qed.

Lemma string_app_assoc a b c : (a +:+ b) +:+ c = a +:+ (b +:+ c).
Proof.
  induction a as [|x a IH]; [done|].
  change (String x ((a +:+ b) +:+ c) = String x (a +:+ (b +:+ c))). by rewrite IH.
Qed.

(** A component is self-delimiting. *)
Lemma encode_component_inj a b x y :
  encode_component a +:+ x = encode_component b +:+ y -> a = b /\ x = y.
Proof.
  unfold encode_component. rewrite !string_app_assoc. intros H.
  apply no_colon_split in H as [Hl H]; [|apply decimal_no_colon..].
  apply decimal_inj in Hl. by apply string_app_inj in H.
Qed.

Lemma category_parts_inj c c' : category_parts c = category_parts c' -> c = c'.
Proof. destruct c, c'; simpl; intros H; simplify_eq; done. Qed.

(** The derived identity of an item is injective in the owner, the
    category and the target, whatever separators the three contain, and a
    plugin-defined category never collides with a built-in one. *)
Theorem derived_identity_injective p c t p' c' t' :
  derived p c t = derived p' c' t' <-> p = p' /\ c = c' /\ t = t'.
Proof.
  split; [|by intros (-> & -> & ->)]. unfold derived.
  destruct (category_parts c) as [g v] eqn:E, (category_parts c') as [g' v'] eqn:E'. simpl.
  rewrite !string_app_assoc. intros H.
  apply encode_component_inj in H as [_ H]. apply encode_component_inj in H as [-> H].
  apply encode_component_inj in H as [-> H]. apply encode_component_inj in H as [-> H].
  assert (Ht : encode_component t +:+ "" = encode_component t' +:+ "") by by rewrite H.
  apply encode_component_inj in Ht as [-> _]. split_and!; [done | | done].
  apply category_parts_inj. by rewrite E, E'.
Qed.
