(* ===== verification/PageSession.v ===== *)
(** Page sessions, [crikey-app/src/plugin_page.rs]: the thread that asks a plugin
    for frames, and the caller that sends it commands and takes its updates.

    The two share a channel and a mailbox, so a session is an interleaving
    machine: a step is one access of the caller to the session, or one of the
    driver thread between two of its accesses to the channel, the clock and the
    plugin ([step]).  What the plugin answers, how long it takes and what the
    clock shows are part of the label of the step.  Instants and durations are
    nanoseconds; the messages of failures are values of a type. *)

From Stdlib Require Import SpecFloat.
From S2P Require Import Prelude Generation Page.

Definition MAX_PENDING_PAGE_EVENTS : Z := 256.

Record PageUpdate := mkUpdate { update_frame : PageFrame; closed : bool }.

Record PageDraw := mkDraw {
  draw_page_id : string;
  draw_generation : Z;
  draw_width : Z;
  draw_height : Z;
  events : list PageInput;
  draw_palette : PagePalette;
}.

Definition from_millis (ms : Z) : Z := ms * 1000000.
Definition as_millis (d : Z) : Z := d / 1000000.

Record PageDeadlines := mkDeadlines { soft : Z; hard : Z }.

(** [Default for PageDeadlines]. *)
Definition default_deadlines : PageDeadlines := mkDeadlines (from_millis 100) (from_millis 2000).

Inductive PageCommand : Type :=
| CommandInput (input : PageInput)
| CommandResize (width height : Z)
| CommandClose.

Inductive Failure : Type :=
| DrawFailed (reason : string)
| TooSlow (elapsed_ms : Z) (page_id : string) (limit_ms : Z)
| Overrun_ (page_id : string).

(** What opening a page takes; the plugin is the session's alone. *)
Record PageOpen := mkOpen {
  open_page_id : string; open_width : Z; open_height : Z; open_deadlines : PageDeadlines; open_palette : PagePalette }.

(** * The driver *)

Record PageDriver := mkDriver {
  d_page_id : string;
  d_width : Z;
  d_height : Z;
  d_deadlines : PageDeadlines;
  d_palette : PagePalette;
  d_generation : Z;
  pending : list PageInput;
  last_frame : PageFrame;
  redraw_at : option Z;
}.
#[export] Instance eta_PageDriver : Eta PageDriver := fun d =>
  mkDriver (d_page_id d) (d_width d) (d_height d) (d_deadlines d) (d_palette d) (d_generation d) (pending d) (last_frame d) (redraw_at d).

Inductive Drained : Type := Open | DrainClosed | DrainOverrun.

(** Where the thread is in [run]. *)
Inductive Pc : Type :=
| Draining                  (** about to take what is queued *)
| Deciding                  (** nothing is queued; is a request due? *)
| Waiting                   (** asleep on the channel *)
| Drawing (draw : PageDraw) (** in a frame request *)
| Notifying                 (** in the request that carries [Closed] *)
| Ended.

(** The channel, the mailbox and the diagnostics both sides see. *)
Record PageSession := mkSession {
  driver : PageDriver;
  pc : Pc;
  queued : list PageCommand;
  connected : bool;
  mailbox_update : option PageUpdate;
  mailbox_last : PageFrame;
  failure : option Failure;
  soft_timeouts : Z;
}.
#[export] Instance eta_PageSession : Eta PageSession := fun s =>
  mkSession (driver s) (pc s) (queued s) (connected s) (mailbox_update s) (mailbox_last s) (failure s) (soft_timeouts s).

(** What is seen of the thread: requests to the plugin, the closing notification,
    and updates published. *)
Inductive Output : Type :=
| Requested (draw : PageDraw)
| Notified (draw : PageDraw)
| Published (update : PageUpdate).

(** [PageSession::open]. *)
Definition open (o : PageOpen) : PageSession :=
  mkSession (mkDriver (open_page_id o) (open_width o) (open_height o) (open_deadlines o) (open_palette o) 0 [new_input Opened] default_frame None)
    Draining [] true None default_frame None 0.

Definition redraw_delay (redraw_after_ms : Z) : option Z :=
  if negb (redraw_after_ms =? 0) then Some (from_millis (Z.max redraw_after_ms MIN_PAGE_REDRAW_MS)) else None.

Definition is_pointer_move (i : PageInput) : bool := match input_kind i with PointerMoved => true | _ => false end.

(** [PageDriver::apply], with the instant a resize asks for a redraw at. *)
Definition apply (d : PageDriver) (now : Z) (command : PageCommand) : PageDriver * Drained :=
  match command with
  | CommandInput input =>
      if is_pointer_move input && is_some_and (last (pending d)) is_pointer_move
      then (d <| pending ::= fun l => removelast l ++ [input] |>, Open)
      else if MAX_PENDING_PAGE_EVENTS <=? len (pending d) then (d, DrainOverrun)
      else (d <| pending ::= fun l => l ++ [input] |>, Open)
  | CommandResize width height => (d <| d_width := width |> <| d_height := height |> <| redraw_at := Some now |>, Open)
  | CommandClose => (d, DrainClosed)
  end.

Definition due (d : PageDriver) (now : Z) : bool :=
  (d_generation d =? 0) || negb (bool_decide (length (pending d) = 0%nat)) || is_some_and (redraw_at d) (fun at_ => at_ <=? now).

(** The next request, with the events given. *)
Definition request (d : PageDriver) (l : list PageInput) : PageDriver * PageDraw :=
  let d := d <| d_generation ::= fun g => saturating_add u64_max g 1 |> <| pending := [] |> in
  (d, mkDraw (d_page_id d) (d_generation d) (d_width d) (d_height d) l (d_palette d)).

Definition publish (s : PageSession) (f : PageFrame) (c : bool) : PageSession * list Output :=
  (s <| mailbox_last := f |> <| mailbox_update := Some (mkUpdate f c) |>, [Published (mkUpdate f c)]).

(** [fail]: the reason, then the closing update, and the thread returns. *)
Definition fail (s : PageSession) (reason : Failure) : PageSession * list Output :=
  publish (s <| failure := Some reason |> <| pc := Ended |>) (last_frame (driver s)) true.

(** [notify_closed], up to the answer of the plugin. *)
Definition notify_closed (s : PageSession) : PageSession * list Output :=
  let (d, draw) := request (driver s) (pending (driver s) ++ [new_input Closed]) in
  (s <| driver := d |> <| pc := Notifying |>, [Notified draw]).

(** What [drain] and a command taken in [wait] lead to. *)
Definition after_apply (s : PageSession) (r : PageDriver * Drained) : PageSession * list Output :=
  let s := s <| driver := r.1 |> in
  match r.2 with
  | Open => (s <| pc := Draining |>, [])
  | DrainClosed => notify_closed s
  | DrainOverrun => fail s (Overrun_ (d_page_id r.1))
  end.

(** A finished frame request: the answer, how long it took, and the clock. *)
Definition answered (s : PageSession) (draw : PageDraw) (outcome : result PageFrame string) (elapsed now : Z) : PageSession * list Output :=
  let d := driver s in
  let s := if soft (d_deadlines d) <? elapsed then s <| soft_timeouts ::= fun n => (n + 1) mod (u32_max + 1) |> else s in
  match outcome with
  | Err reason => fail s (DrawFailed reason)
  | Ok frame =>
      if hard (d_deadlines d) <? elapsed
      then fail s (TooSlow (as_millis elapsed) (d_page_id d) (as_millis (hard (d_deadlines d))))
      else if negb (frame_generation frame =? 0) && (frame_generation frame <? d_generation d) then (s <| pc := Draining |>, [])
      else
        let redraw := if close frame then None else delay ← redraw_delay (redraw_after_ms frame); Some (now + delay) in
        publish (s <| driver := d <| redraw_at := redraw |> <| last_frame := frame |> |> <| pc := if close frame then Ended else Draining |>)
          frame (close frame)
  end.

(** * Steps *)

Inductive Label : Type :=
| Send (command : PageCommand)                                        (** [send_input], [resize], or the send of [close] *)
| Poll                                                                (** [poll] *)
| HangUp                                                              (** the caller's session is dropped *)
| TryRecv (now : Z)                                                   (** one [try_recv] of [drain] *)
| Decide (now : Z)                                                    (** [due] *)
| Recv (now : Z)                                                      (** a command ends the sleep *)
| Wake                                                                (** the timeout ends it *)
| Answer (outcome : result PageFrame string) (elapsed now : Z)        (** the plugin answers a frame request *)
| Acknowledge.                                                        (** it answers the closing notification *)

Definition is_ended (s : PageSession) : bool := match pc s with Ended => true | _ => false end.

(** One step; [None] where the step is not possible.  A send to a thread that has
    returned is refused and changes nothing. *)
Definition step (s : PageSession) (l : Label) : option (PageSession * list Output) :=
  match l, pc s with
  | Send command, Ended => Some (s, [])
  | Send command, _ => if connected s then Some (s <| queued ::= fun q => q ++ [command] |>, []) else None
  | Poll, _ => Some (s <| mailbox_update := None |>, [])
  | HangUp, _ => Some (s <| connected := false |>, [])
  | TryRecv now, Draining =>
      match queued s with
      | command :: rest => Some (after_apply (s <| queued := rest |>) (apply (driver s) now command))
      | [] =>
          if connected s then Some (s <| pc := Deciding |>, [])
          else match pending (driver s) with
               | [] => Some (notify_closed s)
               | _ => Some (s <| pc := Deciding |>, [])
               end
      end
  | Decide now, Deciding =>
      if due (driver s) now then
        let (d, draw) := request (driver s) (pending (driver s)) in
        Some (s <| driver := d |> <| pc := Drawing draw |>, [Requested draw])
      else Some (s <| pc := Waiting |>, [])
  | Recv now, Waiting =>
      match queued s with
      | command :: rest => Some (after_apply (s <| queued := rest |>) (apply (driver s) now command))
      | [] => if connected s then None else Some (notify_closed s)
      end
  | Wake, Waiting =>
      match queued s, redraw_at (driver s) with
      | [], Some _ => Some (s <| pc := Draining |>, [])
      | _, _ => None
      end
  | Answer outcome elapsed now, Drawing draw => Some (answered s draw outcome elapsed now)
  | Acknowledge, Notifying => Some (publish (s <| pc := Ended |>) (last_frame (driver s)) true)
  | _, _ => None
  end.

(** [send_input] reports whether the session still runs. *)
Definition send_input (s : PageSession) (input : PageInput) : option (PageSession * result unit unit) :=
  '(s', _) ← step s (Send (CommandInput input)); Some (s', if is_ended s then Err () else Ok ()).

(** [poll]: the newest update, taken. *)
Definition poll (s : PageSession) : option PageUpdate := mailbox_update s.

(** [close]: what the caller is told at once, without waiting for the thread. *)
Definition close_session (s : PageSession) : option (PageSession * PageUpdate) :=
  '(s', _) ← step s (Send CommandClose); '(s', _) ← step s' HangUp; Some (s', mkUpdate (mailbox_last s') true).

Fixpoint run (s : PageSession) (ls : list Label) : option (PageSession * list Output) :=
  match ls with
  | [] => Some (s, [])
  | l :: ls' => '(s, out) ← step s l; '(s, out') ← run s ls'; Some (s, out ++ out')
  end.
