(* ===== verification/PageSessionFacts.v ===== *)
(** A page session under every interleaving of the caller, the driver thread, the
    plugin and the clock: which events the plugin sees, how its requests are
    numbered, what is published, and that a closing session ends. *)

From Stdlib Require Import SpecFloat.
From S2P Require Import Prelude Generation Page PageSession.

(** * Traces *)

(** A session with what it has put out and the inputs its caller has sent. *)
Record Trace := mkTrace { t_session : PageSession; t_out : list Output; t_sent : list PageInput }.

Definition accepted (s : PageSession) (l : Label) : list PageInput :=
  match l with Send (CommandInput i) => if is_ended s then [] else [i] | _ => [] end.

Definition trace_step (t : Trace) (l : Label) : option Trace :=
  '(s, out) ← step (t_session t) l; Some (mkTrace s (t_out t ++ out) (t_sent t ++ accepted (t_session t) l)).

Definition trace (o : PageOpen) (ls : list Label) : option Trace := ofold trace_step (mkTrace (open o) [] []) ls.

(** ** Reading a trace *)

Definition input_of (c : PageCommand) : option PageInput := match c with CommandInput i => Some i | _ => None end.
Definition inputs_of (q : list PageCommand) : list PageInput := omap input_of q.

(** The caller's events that reached the plugin. *)
Definition events_of (o : Output) : list PageInput :=
  match o with Requested d => events d | Notified d => removelast (events d) | Published _ => [] end.
Definition delivered (out : list Output) : list PageInput := out ≫= events_of.

Definition draw_of (o : Output) : option PageDraw := match o with Requested d | Notified d => Some d | Published _ => None end.
Definition requests (out : list Output) : list PageDraw := omap draw_of out.

(** Pointer moves directly followed by another move may be left out; everything else
    is kept, in order. *)
Inductive thinned : list PageInput -> list PageInput -> Prop :=
| thinned_nil : thinned [] []
| thinned_keep i l l' : thinned l l' -> thinned (i :: l) (i :: l')
| thinned_drop i j l l' : is_pointer_move i = true -> is_pointer_move j = true -> thinned (j :: l) l' -> thinned (i :: j :: l) l'.
#[local] Hint Constructors thinned : core.

Lemma thinned_refl l : thinned l l.
Proof. induction l; eauto. Qed.
#[local] Hint Resolve thinned_refl : core.

Lemma thinned_app l l' k : thinned l l' -> thinned (l ++ k) (l' ++ k).
Proof. induction 1; cbn in *; eauto. Qed.

Lemma thinned_prefix k l l' : thinned l l' -> thinned (k ++ l) (k ++ l').
Proof. induction k; cbn; eauto. Qed.

(** What opens a thinned list opens with a move if the original does. *)
Lemma thinned_head l j l' : thinned l (j :: l') -> is_pointer_move j = true -> exists i k, l = i :: k /\ is_pointer_move i = true.
Proof. intros H Hj. inversion H; subst; eauto. Qed.

Lemma thinned_trans l m n : thinned l m -> thinned m n -> thinned l n.
Proof.
  intros H. revert n. induction H as [|i l m H IH|i j l m Hi Hj H IH]; intros n Hn; [done | |auto].
  inversion Hn as [|? ? n' Hn'|? j m' ? Hi Hj Hn']; subst; [by constructor; apply IH|].
  destruct (thinned_head _ _ _ H Hj) as (i' & k & -> & Hi'). apply thinned_drop; [done..|]. by apply IH.
Qed.

Lemma thinned_moves k i j l : is_pointer_move i = true -> is_pointer_move j = true -> thinned (k ++ i :: j :: l) (k ++ j :: l).
Proof. intros Hi Hj. by apply thinned_prefix, thinned_drop. Qed.

(** * The invariant *)

Definition open_output (o : Output) : Prop :=
  match o with Requested _ => True | Published u => closed u = false | Notified _ => False end.

(** The requests, the notification and the last update come in that order. *)
Definition ordered (p : Pc) (out : list Output) : Prop :=
  match p with
  | Notifying => exists init d, out = init ++ [Notified d] /\ Forall open_output init
  | Ended => exists init note f, out = init ++ note ++ [Published (mkUpdate f true)] /\ Forall open_output init /\ (note = [] \/ exists d, note = [Notified d])
  | _ => Forall open_output out
  end.

Definition overrun (s : PageSession) : bool := match failure s with Some (Overrun_ _) => true | _ => false end.

(** The number of the [n]th request, counting from one. *)
Definition numbered (n : nat) : Z := Z.min (Z.of_nat n) u64_max.

Definition last_published (out : list Output) : option PageUpdate :=
  last (omap (fun o => match o with Published u => Some u | _ => None end) out).

Record session_ok (s : PageSession) (out : list Output) : Prop := {
  so_pending : len (pending (driver s)) <= MAX_PENDING_PAGE_EVENTS;
  so_requests : Forall (fun d => len (events d) <= MAX_PENDING_PAGE_EVENTS + 1) (requests out);
  so_numbers : map draw_generation (requests out) = map numbered (seq 1 (length (requests out)));
  so_generation : d_generation (driver s) = numbered (length (requests out));
  so_ordered : ordered (pc s) out;
  so_last : mailbox_last s = map_or (last_published out) default_frame update_frame;
  so_driver : last_frame (driver s) = mailbox_last s;
  so_mailbox : mailbox_update s = None \/ mailbox_update s = last_published out;
  so_running : pc s <> Ended -> failure s = None;
}.

(** Every event sent is delivered, waiting with the driver or waiting in the
    channel. *)
Definition events_kept (s : PageSession) (out : list Output) (sent : list PageInput) : Prop :=
  thinned (new_input Opened :: sent) (delivered out ++ pending (driver s) ++ inputs_of (queued s)).

Definition trace_ok (t : Trace) : Prop :=
  session_ok (t_session t) (t_out t) /\ (overrun (t_session t) = false -> events_kept (t_session t) (t_out t) (t_sent t)).

Lemma open_ok o : trace_ok (mkTrace (open o) [] []).
Proof. split; [split; cbn; try done; by left | intros _; apply thinned_refl]. Qed.

(** ** Pieces of a step *)

Lemma requests_app a b : requests (a ++ b) = requests a ++ requests b.
Proof. apply omap_app. Qed.

Lemma delivered_app a b : delivered (a ++ b) = delivered a ++ delivered b.
Proof. apply bind_app. Qed.

Lemma last_published_app a u : last_published (a ++ [Published u]) = Some u.
Proof. unfold last_published. rewrite omap_app. cbn. apply last_snoc. Qed.

Lemma last_published_draw a o : is_some (draw_of o) = true -> last_published (a ++ [o]) = last_published a.
Proof. unfold last_published. rewrite omap_app. destruct o; cbn; try done; by rewrite app_nil_r. Qed.

Lemma numbered_S n : saturating_add u64_max (numbered n) 1 = numbered (S n).
Proof. unfold saturating_add, numbered. lia. Qed.

Lemma numbers_snoc (l : list PageDraw) d :
  map draw_generation l = map numbered (seq 1 (length l)) -> draw_generation d = numbered (S (length l)) ->
  map draw_generation (l ++ [d]) = map numbered (seq 1 (length (l ++ [d]))).
Proof. intros Hl Hd. rewrite map_app, Hl, length_app, seq_app, map_app. cbn. by rewrite Hd. Qed.

(** Running states share the form of their output. *)
Definition running (p : Pc) : Prop := match p with Notifying | Ended => False | _ => True end.

Lemma running_open p out : running p -> ordered p out -> Forall open_output out.
Proof. by destruct p. Qed.

Lemma open_running p out : running p -> Forall open_output out -> ordered p out.
Proof. by destruct p. Qed.

(** A change of the program counter alone. *)
Lemma move_ok s out p : session_ok s out -> running (pc s) -> running p -> session_ok (s <| pc := p |>) out.
Proof.
  intros [H1 H2 H3 H4 H5 H6 H7 H8 H9] Hr Hp. split; cbn; try done; [apply open_running; [done | by apply (running_open (pc s))]|].
  intros _. apply H9. intros E. by rewrite E in Hr.
Qed.

(** A request: the next number, every waiting event, and nothing left waiting. *)
Lemma request_ok s out l o p :
  session_ok s out -> running (pc s) -> len l <= MAX_PENDING_PAGE_EVENTS + 1 -> p <> Ended ->
  let (d, draw) := request (driver s) l in
  draw_of o = Some draw -> ordered p (out ++ [o]) -> session_ok (s <| driver := d |> <| pc := p |>) (out ++ [o]).
Proof.
  intros [H1 H2 H3 H4 H5 H6 H7 H8 H9] Hr Hl Hp. unfold request. intros Ho Hord.
  assert (Hreq : requests (out ++ [o]) = requests out ++ [mkDraw (d_page_id (driver s)) (saturating_add u64_max (d_generation (driver s)) 1)
    (d_width (driver s)) (d_height (driver s)) l (d_palette (driver s))]) by (rewrite requests_app; cbn; by rewrite Ho).
  split; cbn.
  - unfold MAX_PENDING_PAGE_EVENTS. rewrite len_nil. lia.
  - rewrite Hreq. apply Forall_app. split; [done | by repeat constructor].
  - rewrite Hreq. apply numbers_snoc; [done|]. cbn. by rewrite H4, numbered_S.
  - rewrite Hreq, length_app, Nat.add_1_r, H4. apply numbered_S.
  - done.
  - rewrite last_published_draw; [done | by rewrite Ho].
  - done.
  - rewrite last_published_draw; [done | by rewrite Ho].
  - intros _. apply H9. intros E. by rewrite E in Hr.
Qed.

(** A publication by a driver with the same requests behind it. *)
Lemma session_publish_ok s s' out f c :
  session_ok s out -> pending (driver s') = pending (driver s) -> d_generation (driver s') = d_generation (driver s) ->
  last_frame (driver s') = f -> ordered (pc s') (out ++ [Published (mkUpdate f c)]) -> (pc s' <> Ended -> failure s' = None) ->
  session_ok (publish s' f c).1 (out ++ (publish s' f c).2).
Proof.
  intros [H1 H2 H3 H4 H5 H6 H7 H8 H9] Hp Hg Hf Hord Hfail.
  assert (Hreq : requests (out ++ [Published (mkUpdate f c)]) = requests out) by (rewrite requests_app; apply app_nil_r).
  unfold publish. cbn [fst snd]. split; cbn; rewrite ?Hreq, ?last_published_app, ?Hp, ?Hg; try done. by right.
Qed.

Lemma ended_after out f : Forall open_output out -> ordered Ended (out ++ [Published (mkUpdate f true)]).
Proof. intros Ho. exists out, [], f. split_and!; [done | done | by left]. Qed.

Lemma fail_ok s s' out reason :
  session_ok s out -> running (pc s) -> pending (driver s') = pending (driver s) -> d_generation (driver s') = d_generation (driver s) ->
  session_ok (fail s' reason).1 (out ++ (fail s' reason).2).
Proof.
  intros Hs Hr Hp Hg. unfold fail. eapply (session_publish_ok s); try done. apply ended_after. eapply running_open; [exact Hr | apply Hs].
Qed.

(** [apply]: what is waiting afterwards, and what is left as it was. *)
Lemma session_apply_spec d now c q :
  len (pending d) <= MAX_PENDING_PAGE_EVENTS ->
  let (d', r) := apply d now c in
  d_generation d' = d_generation d /\ last_frame d' = last_frame d /\ len (pending d') <= MAX_PENDING_PAGE_EVENTS /\
  match r with
  | Open => thinned (pending d ++ inputs_of (c :: q)) (pending d' ++ inputs_of q)
  | DrainClosed => pending d' = pending d /\ inputs_of (c :: q) = inputs_of q
  | DrainOverrun => pending d' = pending d
  end.
Proof.
  intros Hlen. destruct c as [i|w h|]; cbn [apply]; try (split_and!; done).
  destruct (is_pointer_move i) eqn:Ei; cbn [andb].
  - destruct (last (pending d)) as [j|] eqn:El; cbn [is_some_and].
    + apply last_Some in El as [l El]. change (is_some_and (Some j) is_pointer_move) with (is_pointer_move j). destruct (is_pointer_move j) eqn:Ej.
      * assert (Er : removelast (pending d) = l) by (rewrite El; apply removelast_last). 
        change (pending (d <| pending ::= fun k => removelast k ++ [i] |>)) with (removelast (pending d) ++ [i]). rewrite Er. split_and!; [done..| |].
        -- rewrite El, len_snoc in Hlen. by rewrite len_snoc.
        -- rewrite El, <- !app_assoc. cbn. by apply thinned_moves.
      * destruct (Z.leb_spec MAX_PENDING_PAGE_EVENTS (len (pending d))); [done|]. cbn. split_and!; [done..| |]; [rewrite len_snoc; lia|].
        rewrite <- app_assoc. apply thinned_refl.
    + destruct (Z.leb_spec MAX_PENDING_PAGE_EVENTS (len (pending d))); [done|]. cbn. split_and!; [done..| |]; [rewrite len_snoc; lia|].
      rewrite <- app_assoc. apply thinned_refl.
  - destruct (Z.leb_spec MAX_PENDING_PAGE_EVENTS (len (pending d))); [done|]. cbn. split_and!; [done..| |]; [rewrite len_snoc; lia|].
    rewrite <- app_assoc. apply thinned_refl.
Qed.

(** The notification takes every waiting event with it. *)
Lemma notify_ok s out sent :
  session_ok s out -> running (pc s) -> events_kept s out sent ->
  session_ok (notify_closed s).1 (out ++ (notify_closed s).2) /\ events_kept (notify_closed s).1 (out ++ (notify_closed s).2) sent.
Proof.
  intros Hs Hr He. unfold notify_closed. pose proof (running_open _ _ Hr (so_ordered _ _ Hs)) as Ho. set (l := pending (driver s) ++ [new_input Closed]).
  assert (Hl : len l <= MAX_PENDING_PAGE_EVENTS + 1) by (unfold l; rewrite len_snoc; pose proof (so_pending _ _ Hs); lia).
  pose proof (fun draw => request_ok s out l (Notified draw) Notifying Hs Hr Hl ltac:(done)) as Hq. unfold request in *. cbn [fst snd] in *. split.
  - eapply Hq; [done|]. eexists out, _. split; [done | done].
  - unfold events_kept in *. rewrite delivered_app. cbn. unfold l. rewrite removelast_last, !app_nil_r, <- app_assoc. exact He.
Qed.

(** A command taken from the channel. *)
Lemma after_apply_ok s out sent c q now :
  session_ok s out -> running (pc s) -> queued s = c :: q -> events_kept s out sent ->
  let r := after_apply (s <| queued := q |>) (apply (driver s) now c) in
  session_ok r.1 (out ++ r.2) /\ (overrun r.1 = false -> events_kept r.1 (out ++ r.2) sent).
Proof.
  intros Hs Hr Hq He r. pose proof (session_apply_spec (driver s) now c q (so_pending _ _ Hs)) as Ha. unfold r, after_apply. clear r.
  destruct (apply (driver s) now c) as [d' res]. destruct Ha as (Hg & Hf & Hlen & Hres). cbn [fst snd]. unfold events_kept in He. rewrite Hq in He.
  set (s1 := s <| queued := q |> <| driver := d' |>). assert (H1 : session_ok s1 out).
  { destruct Hs as [K1 K2 K3 K4 K5 K6 K7 K8 K9]. split; cbn; try done; congruence. }
  destruct res.
  - rewrite app_nil_r. split; [by apply move_ok|]. intros _. unfold events_kept. cbn. eapply thinned_trans; [exact He|]. by apply thinned_prefix.
  - destruct Hres as [Hp Hi]. assert (He1 : events_kept s1 out sent) by (unfold events_kept; change (queued s1) with q; change (driver s1) with d'; rewrite Hp, <- Hi; exact He).
    destruct (notify_ok s1 out sent H1 Hr He1) as [K1 K2]. split; [exact K1 | by intros _].
  - split; [by apply (fail_ok s1)|]. unfold fail, publish. by cbn.
Qed.

(** The answer of the plugin. *)
Lemma session_answered_ok s out sent draw outcome elapsed now :
  session_ok s out -> running (pc s) -> events_kept s out sent ->
  let r := answered s draw outcome elapsed now in
  session_ok r.1 (out ++ r.2) /\ (overrun r.1 = false -> events_kept r.1 (out ++ r.2) sent).
Proof.
  intros Hs Hr He r. unfold r, answered. clear r. set (s1 := if soft (d_deadlines (driver s)) <? elapsed then _ else s).
  assert (H1 : session_ok s1 out /\ driver s1 = driver s /\ queued s1 = queued s /\ pc s1 = pc s).
  { unfold s1. destruct (_ <? _); [|done]. destruct Hs as [K1 K2 K3 K4 K5 K6 K7 K8 K9]. by split; [split|]. }
  destruct H1 as (H1 & Ed & Eq & Ep). rewrite <- Ep in Hr. clearbody s1.
  assert (Hpub : forall s' f c, pending (driver s') = pending (driver s1) -> queued s' = queued s1 -> events_kept (publish s' f c).1 (out ++ (publish s' f c).2) sent).
  { intros s' f c E1 E2. unfold events_kept, publish in *. cbn. rewrite delivered_app. cbn. rewrite app_nil_r, E1, E2, Ed, Eq. exact He. }
  assert (Hfail : forall reason, session_ok (fail s1 reason).1 (out ++ (fail s1 reason).2) /\ (overrun (fail s1 reason).1 = false -> events_kept (fail s1 reason).1 (out ++ (fail s1 reason).2) sent)).
  { intros reason. split; [by apply (fail_ok s1) | intros _; by apply Hpub]. }
  destruct outcome as [frame|reason]; [|apply Hfail]. destruct (hard _ <? elapsed); [apply Hfail|]. destruct (_ && _).
  - rewrite app_nil_r. split; [by apply move_ok|]. intros _. unfold events_kept in *. cbn. by rewrite Ed, Eq.
  - pose proof (running_open _ _ Hr (so_ordered _ _ H1)) as Ho. split; [|intros _; apply Hpub; cbn; by rewrite ?Ed].
    eapply (session_publish_ok s1); cbn; rewrite ?Ed; try done.
    + destruct (close frame) eqn:Ec; [by apply ended_after|]. apply open_running; [done|]. apply Forall_app. split; [done | repeat constructor].
    + intros _. apply H1. intros E. by rewrite E in Hr.
Qed.

Lemma trace_step_ok t l t' : trace_ok t -> trace_step t l = Some t' -> trace_ok t'.
Proof.
  intros [Hs He] E. unfold trace_step in E. apply bind_Some in E as ([s' o] & E & [= <-]). destruct t as [s out sent]. cbn [t_session t_out t_sent] in *.
  assert (Hkeep : o = [] -> session_ok s' out -> driver s' = driver s -> accepted s l = [] -> inputs_of (queued s') = inputs_of (queued s) -> failure s' = failure s ->
    trace_ok (mkTrace s' (out ++ o) (sent ++ accepted s l))).
  { intros -> Hs' Ed Ea Eq Ef. rewrite Ea, !app_nil_r. split; [done|]. cbn. unfold overrun. rewrite Ef. intros Ho. specialize (He Ho). unfold events_kept in *. by rewrite Ed, Eq. }
  assert (Hrun : running (pc s) -> overrun s = false).
  { intros Hr. unfold overrun. rewrite (so_running _ _ Hs); [done|]. intros Ep. by rewrite Ep in Hr. }
  destruct l as [c| | |now|now|now| |outcome elapsed now|].
  - assert (Hsend : pc s <> Ended -> o = [] -> s' = s <| queued ::= fun q => q ++ [c] |> -> trace_ok (mkTrace s' (out ++ o) (sent ++ accepted s (Send c)))).
    { intros Hp -> ->. rewrite app_nil_r. split; [destruct Hs; by split|]. cbn [t_session t_out t_sent]. intros Ho. specialize (He Ho). unfold events_kept in *.
      assert (Ea : accepted s (Send c) = inputs_of [c]) by (destruct c; cbn; try done; unfold is_ended; by destruct (pc s)).
      change (queued (s <| queued ::= fun q => q ++ [c] |>)) with (queued s ++ [c]). change (driver (s <| queued ::= fun q => q ++ [c] |>)) with (driver s).
      unfold inputs_of in *. rewrite omap_app, Ea, !app_assoc. apply (thinned_app (new_input Opened :: sent)). by rewrite !app_assoc in He. }
    unfold step in E. destruct (pc s) eqn:Ep; try (destruct (connected s); [|done]; injection E as <- <-; by apply Hsend).
    injection E as <- <-. apply Hkeep; try done. cbn. unfold is_ended. rewrite Ep. by destruct c.
  - cbn [step] in E. assert (E' : s' = s <| mailbox_update := None |> /\ o = []) by (destruct (pc s); by injection E as <- <-). destruct E' as [-> ->]. apply Hkeep; try done.
    destruct Hs; split; try done. by left.
  - cbn [step] in E. assert (E' : s' = s <| connected := false |> /\ o = []) by (destruct (pc s); by injection E as <- <-). destruct E' as [-> ->]. apply Hkeep; try done. by destruct Hs.
  - cbn [step] in E. destruct (pc s) eqn:Ep; try done. assert (Hr : running (pc s)) by by rewrite Ep. specialize (He (Hrun I)).
    assert (Hn : notify_closed s = (s', o) -> trace_ok (mkTrace s' (out ++ o) (sent ++ accepted s (TryRecv now)))).
    { intros En. destruct (notify_ok s out sent Hs Hr He) as [K1 K2]. rewrite En in K1, K2. rewrite app_nil_r. split; [exact K1 | by intros _]. }
    destruct (queued s) as [|c q] eqn:Eq.
    + destruct (connected s); [injection E as <- <-; apply Hkeep; try done; first [by apply move_ok | cbn; by rewrite Eq]|].
      destruct (pending (driver s)); [by apply Hn, Some_inj|]. injection E as <- <-. apply Hkeep; try done; first [by apply move_ok | cbn; by rewrite Eq].
    + apply Some_inj in E. rewrite app_nil_r. pose proof (after_apply_ok s out sent c q now Hs Hr Eq He) as K. cbn zeta in K. by rewrite E in K.
  - cbn [step] in E. destruct (pc s) eqn:Ep; try done. assert (Hr : running (pc s)) by by rewrite Ep. specialize (He (Hrun I)).
    destruct (due (driver s) now); [|injection E as <- <-; apply Hkeep; try done; first [by apply move_ok | cbn; by rewrite Eq]]. injection E as <- <-. rewrite app_nil_r.
    pose proof (running_open _ _ Hr (so_ordered _ _ Hs)) as Ho. split.
    + pose proof (fun p o => request_ok s out (pending (driver s)) o p Hs Hr) as K. unfold request in K. cbn [fst snd] in K.
      eapply K; [pose proof (so_pending _ _ Hs); lia | done | done|]. apply Forall_app. split; [done | repeat constructor].
    + intros _. cbn [t_session t_out t_sent]. unfold events_kept in *. rewrite delivered_app. cbn. by rewrite app_nil_r, <- app_assoc.
  - cbn [step] in E. destruct (pc s) eqn:Ep; try done. assert (Hr : running (pc s)) by by rewrite Ep. specialize (He (Hrun I)).
    destruct (queued s) as [|c q] eqn:Eq.
    + destruct (connected s); [done|]. apply Some_inj in E. destruct (notify_ok s out sent Hs Hr He) as [K1 K2]. rewrite E in K1, K2. rewrite app_nil_r. split; [exact K1 | by intros _].
    + apply Some_inj in E. rewrite app_nil_r. pose proof (after_apply_ok s out sent c q now Hs Hr Eq He) as K. cbn zeta in K. by rewrite E in K.
  - cbn [step] in E. destruct (pc s) eqn:Ep; try done. destruct (queued s) eqn:Eq; [|done]. destruct (redraw_at (driver s)); [|done]. injection E as <- <-.
    apply Hkeep; try done; first [apply move_ok; [done | by rewrite Ep | done] | cbn; by rewrite Eq].
  - cbn [step] in E. destruct (pc s) eqn:Ep; try done. assert (Hr : running (pc s)) by by rewrite Ep. specialize (He (Hrun I)). apply Some_inj in E. rewrite app_nil_r.
    pose proof (session_answered_ok s out sent draw outcome elapsed now Hs Hr He) as K. cbn zeta in K. by rewrite E in K.
  - cbn [step] in E. destruct (pc s) eqn:Ep; try done. injection E as <- <-. rewrite app_nil_r. pose proof (so_ordered _ _ Hs) as Hord. rewrite Ep in Hord.
    destruct Hord as (init & d & -> & Hinit). assert (Hov : overrun s = false) by (unfold overrun; by rewrite (so_running _ _ Hs) by by rewrite Ep).
    specialize (He Hov). split.
    + eapply (session_publish_ok s); try done. exists init, [Notified d], (last_frame (driver s)). split_and!; [by rewrite <- app_assoc | done | eauto].
    + intros _. cbn [t_session t_out t_sent]. unfold events_kept in *. rewrite delivered_app. cbn. by rewrite app_nil_r.
Qed.

Lemma trace_preserved o ls t : trace o ls = Some t -> trace_ok t.
Proof. apply (ofold_preserves trace_step trace_ok); [apply open_ok | intros l t0 t'; apply trace_step_ok]. Qed.

(** * What the plugin sees *)

(** C11: no event is lost, doubled or reordered.  Under every interleaving, the
    events of the requests made so far, those waiting with the driver and those in
    the channel are, in this order, the opening event and everything the caller
    sent, except pointer moves directly followed by another move; requests are
    numbered 1, 2, 3 and so on, and none carries more than the bound of events.
    Only a page that overran that bound may lose events, and it has failed. *)
Theorem page_events_delivered o ls t :
  trace o ls = Some t ->
  (overrun (t_session t) = false ->
   thinned (new_input Opened :: t_sent t) (delivered (t_out t) ++ pending (driver (t_session t)) ++ inputs_of (queued (t_session t)))) /\
  (overrun (t_session t) = true -> pc (t_session t) = Ended) /\
  map draw_generation (requests (t_out t)) = map numbered (seq 1 (length (requests (t_out t)))) /\
  Forall (fun d => len (events d) <= MAX_PENDING_PAGE_EVENTS + 1) (requests (t_out t)) /\
  len (pending (driver (t_session t))) <= MAX_PENDING_PAGE_EVENTS.
Proof.
  intros E. destruct (trace_preserved o ls t E) as [Hs He]. split_and!; try apply Hs; [exact He|]. unfold overrun. intros Ho.
  assert (Hp : pc (t_session t) = Ended \/ pc (t_session t) <> Ended) by (destruct (pc (t_session t)); auto). destruct Hp as [|Hp]; [done|].
  by rewrite (so_running _ _ Hs Hp) in Ho.
Qed.

(** * What the caller sees *)

Lemma ended_steps s ls s' out : pc s = Ended -> run s ls = Some (s', out) -> pc s' = Ended /\ out = [] /\ mailbox_last s' = mailbox_last s.
Proof.
  intros Ep. revert s Ep out. induction ls as [|l ls IH]; intros s Ep out; cbn [run]; [by intros [= <- <-]|].
  intros ([s1 o1] & E1 & ([s2 o2] & E2 & [= <- <-])%bind_Some)%bind_Some.
  assert (H1 : pc s1 = Ended /\ o1 = [] /\ mailbox_last s1 = mailbox_last s).
  { unfold step in E1. rewrite Ep in E1. destruct l; try done; injection E1 as <- <-; by cbn. }
  destruct H1 as (H1 & -> & H2). destruct (IH s1 H1 o2 E2) as (? & -> & ?). split_and!; [done | done | congruence].
Qed.

(** A page ends once, and says so last.  Until the thread has returned no
    update says the page is closed; when it has, the last thing it put out is the
    one closing update, after at most one closing notification and nothing else
    between; whatever happens then, nothing more is published or asked.  The
    mailbox holds the newest update or, once it was polled, none; and closing
    reports the frame published last. *)
Theorem page_ends_once o ls t :
  trace o ls = Some t ->
  ordered (pc (t_session t)) (t_out t) /\
  (mailbox_update (t_session t) = None \/ mailbox_update (t_session t) = last_published (t_out t)) /\
  (forall s' u, close_session (t_session t) = Some (s', u) -> u = mkUpdate (map_or (last_published (t_out t)) default_frame update_frame) true) /\
  (pc (t_session t) = Ended -> forall ls' s' out, run (t_session t) ls' = Some (s', out) -> pc s' = Ended /\ out = []).
Proof.
  intros E. destruct (trace_preserved o ls t E) as [Hs _]. split_and!; try apply Hs.
  - intros s' u Ec. unfold close_session in Ec. apply bind_Some in Ec as ([s1 o1] & E1 & Ec). apply bind_Some in Ec as ([s2 o2] & E2 & [= <- <-]).
    f_equal. rewrite <- (so_last _ _ Hs). assert (H1 : mailbox_last s1 = mailbox_last (t_session t)).
    { cbn [step] in E1. destruct (pc (t_session t)); try (destruct (connected (t_session t)); [|done]); by injection E1 as <- <-. }
    rewrite <- H1. cbn [step] in E2. by destruct (pc s1); injection E2 as <- <-.
  - intros Ep ls' s' out Er. by destruct (ended_steps _ _ _ _ Ep Er) as (? & ? & _).
Qed.

(** * Closing *)

(** Closing was asked for, or the caller is gone. *)
Definition closing (s : PageSession) : Prop :=
  match pc s with Notifying | Ended => True | _ => CommandClose ∈ queued s \/ connected s = false end.

Definition is_driver (l : Label) : bool := match l with Send _ | Poll | HangUp => false | _ => true end.

(** How many commands are taken until the close, or all. *)
Fixpoint distance (q : list PageCommand) : nat :=
  match q with [] => 0%nat | CommandClose :: _ => 1%nat | _ :: q' => S (distance q') end.

Definition idle (s : PageSession) : bool := match queued s, pending (driver s) with [], [] => true | _, _ => false end.

(** A bound on the steps the driver still takes. *)
Definition steps_left (s : PageSession) : nat :=
  match pc s with
  | Ended => 0
  | Notifying => 1
  | Draining => 2 + distance (queued s) + (if idle s then 0 else 4)
  | Drawing _ => 3 + distance (queued s) + (if idle s then 0 else 4)
  | Waiting => 7 + distance (queued s)
  | Deciding => match queued s, pending (driver s) with [], _ :: _ => 4 | _, _ => 8 + distance (queued s) end
  end%nat.

Lemma distance_send q c : CommandClose ∈ q -> distance (q ++ [c]) = distance q.
Proof.
  induction q as [|x q IH]; intros H; [by apply elem_of_nil in H|]. apply elem_of_cons in H as [<-|H]; [done|]. cbn. destruct x; try done; by rewrite IH.
Qed.

(** Taking a command brings the close nearer. *)
Lemma after_apply_closer s c q now :
  queued s = c :: q -> (CommandClose ∈ queued s \/ connected s = false) ->
  let s' := (after_apply (s <| queued := q |>) (apply (driver s) now c)).1 in closing s' /\ (steps_left s' < 6 + distance (queued s))%nat.
Proof.
  intros Eq Hc s'. unfold s', after_apply. clear s'. assert (Hnext : c <> CommandClose -> CommandClose ∈ q \/ connected s = false).
  { intros Hne. destruct Hc as [H|]; [|by right]. rewrite Eq in H. apply elem_of_cons in H as [<-|]; [done | by left]. }
  destruct c as [i|w h|]; cbn [apply].
  - assert (Hd : distance (queued s) = S (distance q)) by by rewrite Eq. rewrite Hd. repeat case_match; cbn [fst snd]; unfold closing, steps_left, idle, fail, publish; cbn;
      (split; [by (apply Hnext || done) | repeat case_match; lia]).
  - assert (Hd : distance (queued s) = S (distance q)) by by rewrite Eq. rewrite Hd. cbn [fst snd]. unfold closing, steps_left, idle. cbn. split; [by apply Hnext | repeat case_match; lia].
  - cbn. split; [done | unfold steps_left; cbn; lia].
Qed.

Lemma notify_closer s : closing (notify_closed s).1 /\ steps_left (notify_closed s).1 = 1%nat.
Proof. by unfold notify_closed, request, closing, steps_left. Qed.

Lemma driver_closer s l s' out :
  closing s -> is_driver l = true -> step s l = Some (s', out) -> closing s' /\ (steps_left s' < steps_left s)%nat.
Proof.
  intros Hc Hl E. destruct l as [c| | |now|now|now| |outcome elapsed now|]; try done; cbn [step] in E; destruct (pc s) eqn:Ep; try done; unfold closing in Hc; rewrite Ep in Hc;
    unfold steps_left at 2; rewrite Ep.
  - destruct (queued s) as [|c q] eqn:Eq.
    + destruct Hc as [H|Hc]; [by apply elem_of_nil in H|]. rewrite Hc in E. destruct (pending (driver s)) as [|i l] eqn:El; apply Some_inj in E.
      * destruct (notify_closer s) as [H1 H2]. rewrite E in H1, H2. split; [exact H1|]. cbn [fst] in H2. rewrite H2. lia.
      * injection E as <- <-. unfold closing, steps_left, idle. cbn. rewrite Eq, El. split; [by right | lia].
    + apply Some_inj in E. rewrite <- Eq in Hc. destruct (after_apply_closer s c q now Eq Hc) as [H1 H2]. rewrite E in H1, H2. cbn [fst] in H1, H2.
      split; [exact H1|]. unfold idle. rewrite Eq in *. lia.
  - destruct (due (driver s) now) eqn:Ed; cbn [request] in E; injection E as <- <-; (split; [unfold closing; cbn; exact Hc|]); unfold steps_left, idle; cbn.
    + destruct (queued s) eqn:Eq, (pending (driver s)); cbn; lia.
    + destruct (queued s) eqn:Eq, (pending (driver s)) eqn:El; cbn; try lia. exfalso. revert Ed. unfold due. rewrite El. cbn. by rewrite orb_true_r.
  - destruct (queued s) as [|c q] eqn:Eq.
    + destruct Hc as [H|Hc]; [by apply elem_of_nil in H|]. rewrite Hc in E. apply Some_inj in E. destruct (notify_closer s) as [H1 H2]. rewrite E in H1, H2.
      split; [exact H1|]. cbn [fst] in H2. rewrite H2. lia.
    + apply Some_inj in E. rewrite <- Eq in Hc. destruct (after_apply_closer s c q now Eq Hc) as [H1 H2]. rewrite E in H1, H2. cbn [fst] in H1, H2.
      split; [exact H1|]. rewrite Eq in *. lia.
  - destruct (queued s) eqn:Eq; [|done]. destruct (redraw_at (driver s)); [|done]. injection E as <- <-. unfold closing, steps_left, idle. cbn. rewrite Eq.
    split; [exact Hc|]. destruct (pending (driver s)); cbn; lia.
  - apply Some_inj in E. unfold answered in E. set (s1 := if soft (d_deadlines (driver s)) <? elapsed then _ else s) in E.
    assert (H1 : driver s1 = driver s /\ queued s1 = queued s /\ connected s1 = connected s) by (unfold s1; by destruct (_ <? _)). destruct H1 as (H1 & H2 & H3). clearbody s1.
    assert (Hfail : forall reason, closing (fail s1 reason).1 /\ steps_left (fail s1 reason).1 = 0%nat) by done.
    assert (Hfail' : forall reason, fail s1 reason = (s', out) -> closing s' /\ (steps_left s' < 3 + distance (queued s) + (if idle s then 0 else 4))%nat).
    { intros reason Ef. destruct (Hfail reason) as [K1 K2]. rewrite Ef in K1, K2. cbn [fst] in K1, K2. split; [exact K1 | rewrite K2; lia]. }
    assert (Hdrain : forall s2, pc s2 = Draining -> queued s2 = queued s -> connected s2 = connected s -> pending (driver s2) = pending (driver s) ->
      closing s2 /\ (steps_left s2 < 3 + distance (queued s) + (if idle s then 0 else 4))%nat).
    { intros s2 K1 K2 K3 K4. unfold closing, steps_left, idle. rewrite K1, K2, K3, K4. split; [exact Hc | lia]. }
    destruct outcome as [frame|reason]; [|by apply (Hfail' (DrawFailed reason))]. destruct (hard _ <? elapsed); [by eapply Hfail'|].
    destruct (_ && _); [injection E as <- <-; by apply Hdrain; cbn; rewrite ?H1|].
    destruct (close frame) eqn:Ecl; unfold publish in E; injection E as <- <-; [by cbn; split; [|unfold steps_left; cbn; lia]|]. by apply Hdrain; cbn; rewrite ?H1.
  - injection E as <- <-. unfold closing, steps_left. cbn. split; [done | lia].
Qed.

(** The caller cannot put the end off. *)
Lemma caller_closer s l s' out :
  closing s -> is_driver l = false -> step s l = Some (s', out) -> closing s' /\ (steps_left s' <= steps_left s)%nat.
Proof.
  intros Hc Hl E. destruct l as [c| | |now|now|now| |outcome elapsed now|]; try done; cbn [step] in E; unfold closing in Hc.
  - destruct (pc s) eqn:Ep; try (destruct (connected s) eqn:Econ; [|done]); injection E as <- <-; unfold closing, steps_left, idle; cbn; rewrite ?Ep; try done;
      (destruct Hc as [Hc|Hc]; [|done]); (split; [left; set_solver|]); rewrite (distance_send _ _ Hc);
      destruct (queued s) as [|x q] eqn:Eq; try (by apply elem_of_nil in Hc); cbn; lia.
  - destruct (pc s) eqn:Ep; injection E as <- <-; unfold closing, steps_left, idle; cbn; rewrite ?Ep; (split; [done | lia]).
  - destruct (pc s) eqn:Ep; injection E as <- <-; unfold closing, steps_left, idle; cbn; rewrite ?Ep; (split; [by (done || right) | lia]).
Qed.

(** C33: a closing page ends.  Once closing was asked for, or the caller is gone,
    the thread takes at most a fixed number of further steps, whatever the caller
    does in between: one or two for each command queued before the close, and the
    request under way; and it is stuck in none of them, so it ends as soon as the
    plugin answers what it was asked. *)
Theorem closing_page_ends o ls t ls' s' out :
  trace o ls = Some t -> closing (t_session t) -> run (t_session t) ls' = Some (s', out) ->
  (length (List.filter is_driver ls') + steps_left s' <= steps_left (t_session t))%nat /\
  (pc s' = Ended \/ exists l, is_driver l = true /\ is_Some (step s' l)).
Proof.
  intros _. generalize (t_session t) as s. clear t. intros s Hc Er.
  assert (H : (length (List.filter is_driver ls') + steps_left s' <= steps_left s)%nat /\ closing s').
  { revert s Hc out Er. induction ls' as [|l ls' IH]; intros s Hc out; cbn [run]; [intros [= <- <-]; split; [cbn; lia | done]|].
    intros ([s1 o1] & E1 & ([s2 o2] & E2 & [= <- <-])%bind_Some)%bind_Some. cbn [List.filter]. destruct (is_driver l) eqn:El.
    - destruct (driver_closer s l s1 o1 Hc El E1) as [Hc1 H1]. destruct (IH s1 Hc1 o2 E2) as [H2 ?]. split; [cbn; lia | done].
    - destruct (caller_closer s l s1 o1 Hc El E1) as [Hc1 H1]. destruct (IH s1 Hc1 o2 E2) as [H2 ?]. split; [lia | done]. }
  destruct H as [H Hc']. split; [exact H|]. unfold closing in Hc'. destruct (pc s') eqn:Ep; [right.. | by left].
  - exists (TryRecv 0). split; [done|]. cbn. rewrite Ep. destruct (queued s'), (connected s'), (pending (driver s')); eexists; reflexivity.
  - exists (Decide 0). split; [done|]. cbn. rewrite Ep. destruct (due _ _); eexists; reflexivity.
  - exists (Recv 0). split; [done|]. cbn. rewrite Ep. destruct (queued s') as [|c q]; [|eexists; reflexivity]. destruct Hc' as [Hx| ->]; [by apply elem_of_nil in Hx | eexists; reflexivity].
  - exists (Answer (Err ""%string) 0 0). split; [done|]. cbn. rewrite Ep. eexists. reflexivity.
  - exists Acknowledge. split; [done|]. cbn. rewrite Ep. eexists. reflexivity.
Qed.

(** * Witnesses *)

Definition sample_open : PageOpen := mkOpen "form" 400 300 default_deadlines (mkPalette TRANSPARENT TRANSPARENT TRANSPARENT TRANSPARENT).
Definition drawn (g : Z) : PageFrame := default_frame <| frame_generation := g |>.
Definition move_to (x : Z) : PageInput := mkInput PointerMoved (S754_finite false (Z.to_pos x) 0) (S754_zero false) "" "" 0 false false false.
Definition key (k : string) : PageInput := mkInput KeyPressed (S754_zero false) (S754_zero false) k "" 0 false false false.

(** Moves and a key arrive while the first request is under way. *)
Definition sample_labels : list Label :=
  [TryRecv 0; Decide 0; Send (CommandInput (move_to 1)); Send (CommandInput (move_to 2)); Send (CommandInput (key "Enter")); Answer (Ok (drawn 1)) 5 5;
   TryRecv 6; TryRecv 6; TryRecv 6; TryRecv 6; Decide 7; Answer (Ok (drawn 2)) 5 12].

Definition sample_trace : Trace := default (mkTrace (open sample_open) [] []) (trace sample_open sample_labels).

Lemma sample_trace_runs : trace sample_open sample_labels = Some sample_trace.
Proof. vm_compute. reflexivity. Qed.

Lemma page_events_delivered_witness : delivered (t_out sample_trace) = [new_input Opened; move_to 2; key "Enter"] /\
  thinned (new_input Opened :: t_sent sample_trace) (delivered (t_out sample_trace) ++ pending (driver (t_session sample_trace)) ++ inputs_of (queued (t_session sample_trace))).
Proof.
  destruct (page_events_delivered sample_open sample_labels sample_trace sample_trace_runs) as (H & _).
  split; [vm_compute; reflexivity|]. apply H. vm_compute. reflexivity.
Defined.

Lemma page_ends_once_witness : mailbox_update (t_session sample_trace) = Some (mkUpdate (drawn 2) false) /\
  (mailbox_update (t_session sample_trace) = None \/ mailbox_update (t_session sample_trace) = last_published (t_out sample_trace)).
Proof.
  destruct (page_ends_once sample_open sample_labels sample_trace sample_trace_runs) as (_ & H & _). split; [vm_compute; reflexivity | exact H].
Defined.

(** The caller closes during a request: the answer, the close, the notification. *)
Definition closing_labels : list Label := [TryRecv 0; Decide 0; Send (CommandInput (key "x")); Send CommandClose].

Lemma closing_page_ends_witness :
  exists t s' out, trace sample_open closing_labels = Some t /\
    run (t_session t) [Answer (Ok (drawn 1)) 5 5; TryRecv 6; TryRecv 6; Acknowledge] = Some (s', out) /\ (4 + steps_left s' <= steps_left (t_session t))%nat.
Proof.
  set (t := default (mkTrace (open sample_open) [] []) (trace sample_open closing_labels)).
  set (r := default (t_session t, []) (run (t_session t) [Answer (Ok (drawn 1)) 5 5; TryRecv 6; TryRecv 6; Acknowledge])).
  exists t, r.1, r.2. split; [vm_compute; reflexivity|]. split; [vm_compute; reflexivity|].
  destruct (closing_page_ends sample_open closing_labels t [Answer (Ok (drawn 1)) 5 5; TryRecv 6; TryRecv 6; Acknowledge] r.1 r.2) as [H _];
    [vm_compute; reflexivity | left; right; left | vm_compute; reflexivity | exact H].
Defined.

(** * Pacing *)

(** An answer that is older than its request is dropped with the redraw that was
    due still due.  After a resize, a plugin that keeps answering with an old
    number is asked again at once: any number of requests at one instant, however
    long the redraw interval. *)
Definition resized_labels (t : Z) : list Label := [TryRecv t; Decide t; Answer (Ok (drawn 1)) 0 t; Send (CommandResize 10 10); TryRecv t].
Definition stale_round (t : Z) : list Label := [TryRecv t; Decide t; Answer (Ok (drawn 1)) 0 t].

Lemma session_run_app s a b : run s (a ++ b) = '(s1, o1) ← run s a; '(s2, o2) ← run s1 b; Some (s2, o1 ++ o2).
Proof.
  revert s. induction a as [|l a IH]; intros s; cbn [run app mbind option_bind]; [by destruct (run s b) as [[s2 o2]|]|].
  destruct (step s l) as [[s1 o1]|]; cbn [mbind option_bind]; [|done]. rewrite IH. destruct (run s1 a) as [[s2 o2]|]; cbn [mbind option_bind]; [|done].
  destruct (run s2 b) as [[s3 o3]|]; cbn [mbind option_bind]; [by rewrite app_assoc | done].
Qed.

(** A state in which the redraw is due and the plugin is behind. *)
Definition behind (t : Z) (s : PageSession) : Prop :=
  pc s = Draining /\ queued s = [] /\ connected s = true /\ pending (driver s) = [] /\ redraw_at (driver s) = Some t /\ 1 <= d_generation (driver s) /\
  soft (d_deadlines (driver s)) = from_millis 100 /\ hard (d_deadlines (driver s)) = from_millis 2000.

Lemma stale_round_repeats t s : behind t s -> exists s' d, run s (stale_round t) = Some (s', [Requested d]) /\ events d = [] /\ behind t s'.
Proof.
  intros (H1 & H2 & H3 & H4 & H5 & H6 & H7 & H8). destruct s as [[pi w h dl pal g pen lf ra] p q con mu ml fa so]. cbn in *. subst p q con pen ra.
  unfold stale_round. cbn [run step pc queued connected]. cbn -[Z.leb Z.ltb Z.eqb Z.min]. unfold due. cbn -[Z.leb Z.ltb Z.eqb Z.min]. rewrite Z.leb_refl, orb_true_r. cbn -[Z.leb Z.ltb Z.eqb Z.min].
  unfold answered. cbn -[Z.leb Z.ltb Z.eqb Z.min]. rewrite H7, H8. change (from_millis 100 <? 0) with false. change (from_millis 2000 <? 0) with false.
  cbn -[Z.leb Z.ltb Z.eqb Z.min]. assert (Hlt : (1 <? saturating_add u64_max g 1) = true) by (apply Z.ltb_lt; unfold saturating_add, u64_max; lia). rewrite Hlt.
  cbn -[Z.leb Z.ltb Z.eqb Z.min]. eexists _, _. split; [reflexivity|]. split; [reflexivity|]. split_and!; try done. cbn. apply Z.ltb_lt in Hlt. lia.
Qed.

Lemma stale_answers_unpaced t n :
  exists s out, run (open sample_open) (resized_labels t ++ concat (replicate n (stale_round t))) = Some (s, out) /\
    length (requests out) = S n /\ Forall (fun d => events d = []) (tail (requests out)).
Proof.
  rewrite session_run_app. assert (H0 : exists s out, run (open sample_open) (resized_labels t) = Some (s, out) /\ behind t s /\ length (requests out) = 1%nat).
  { eexists _, _. split; [reflexivity|]. split; [|reflexivity]. split_and!; try done. }
  destruct H0 as (s & out & -> & Hb & Hlen). cbn [mbind option_bind].
  assert (H : forall n s, behind t s -> exists s' o, run s (concat (replicate n (stale_round t))) = Some (s', o) /\ length (requests o) = n /\ Forall (fun d => events d = []) (requests o)).
  { clear. induction n as [|n IH]; intros s Hb; [eexists s, []; split; [reflexivity | split; [reflexivity | constructor]]|].
    destruct (stale_round_repeats t s Hb) as (s1 & d & E1 & Hd & Hb1). destruct (IH s1 Hb1) as (s2 & o & E2 & Hl & Hf). exists s2, (Requested d :: o).
    cbn [replicate concat]. rewrite session_run_app, E1. cbn [mbind option_bind]. rewrite E2. cbn [mbind option_bind app]. split; [done|]. cbn [requests omap list_omap draw_of].
    split; [cbn; f_equal; exact Hl | by constructor]. }
  destruct (H n s Hb) as (s' & o & -> & Hl & Hf). cbn [mbind option_bind]. eexists _, _. split; [reflexivity|]. rewrite requests_app, length_app, Hlen, Hl. split; [done|].
  destruct (requests out) as [|d [|? ?]]; done.
Qed.
