(* ===== verification/View.v ===== *)
(** What the launcher draws, [crikey-ui/src/lib.rs]: rows, settings, the page of a
    plugin and the frame that carries them to the renderer. *)

From Stdlib Require Import SpecFloat.
From S2P Require Import Prelude Text StdFloat Generation Items Page.

(** [crikey-platform/src/icon.rs]. *)
Record IconImage := mkIcon { width : Z; height : Z; rgba : list Z; content_id : Z }.

(** [crikey-ui/src/lib.rs]. *)
Record ResultRow := mkRow {
  row_item : ItemId;
  row_label : string;
  row_description : string;
  row_icon_reference : option string;
  row_icon : option IconImage;
  row_category : string;
  row_plugin_name : string;
  row_highlights : list (Z * Z);
  row_argument_hint : option string;
  row_status : option string;
  row_default_action : option Action;
  row_alternate_actions : list Action;
}.
#[export] Instance eta_ResultRow : Eta ResultRow := fun r =>
  mkRow (row_item r) (row_label r) (row_description r) (row_icon_reference r) (row_icon r) (row_category r)
    (row_plugin_name r) (row_highlights r) (row_argument_hint r) (row_status r) (row_default_action r)
    (row_alternate_actions r).

(** * Settings *)

Inductive SettingControl : Type := ControlText | ControlToggle (on : bool).

Record SettingRow := mkSetting {
  setting_key : string;
  setting_label : string;
  setting_value : string;
  setting_source : string;
  setting_control : SettingControl;
}.

#[export] Instance SettingControl_eq_dec : EqDecision SettingControl.
Proof. solve_decision. Defined.
#[export] Instance SettingRow_eq_dec : EqDecision SettingRow.
Proof. solve_decision. Defined.

(** * Web surfaces *)

Record WebSurfaceFrame := mkWebFrame {
  surface_id : Z;
  web_frame_generation : Z;
  web_pixel_width : Z;
  web_pixel_height : Z;
  rgba8 : list Z;
}.

(** [is_valid]. *)
Definition web_frame_valid (f : WebSurfaceFrame) : bool :=
  negb (surface_id f =? 0) && negb (web_frame_generation f =? 0) && negb (web_pixel_width f =? 0) && negb (web_pixel_height f =? 0)
  && bool_decide ((pixels ← checked_mul usize_max (web_pixel_width f) (web_pixel_height f); checked_mul usize_max pixels 4)
                  = Some (len (rgba8 f))).

Inductive WebSurfaceInput : Type :=
| WebKey (surface timestamp_ms : Z) (pressed : bool) (keysym hardware_keycode : Z) (repeat : bool) (modifiers : Z)
| WebPointerMove (surface timestamp_ms : Z) (x y : f32) (modifiers : Z)
| WebPointerButton (surface timestamp_ms : Z) (x y : f32) (button : Z) (pressed : bool) (press_count modifiers : Z)
| WebScroll (surface timestamp_ms : Z) (x y delta_x delta_y : f32) (precise : bool) (modifiers : Z) (stop : bool)
| WebFocus (surface : Z) (focused : bool).

Inductive WebImeEvent : Type :=
| Preedit (surface : Z) (marked : string) (cursor : option (Z * Z))
| Commit (surface : Z) (committed : string).

(** * Pages *)

(** [Arc]: a value and the identity of its allocation. *)
Record Arc (A : Type) := mkArc { arc_ptr : Z; arc_value : A }.
Arguments mkArc {A}.
Arguments arc_ptr {A}.
Arguments arc_value {A}.

Record PageSurface := mkSurface {
  page_plugin : PluginId;
  page_id : string;
  page_plugin_name : string;
  page_frame : Arc PageFrame;
  stale : bool;
  answered : bool;
  web_surface_id : option Z;
  web_frame : option WebSurfaceFrame;
  web_generation : Z;
  web_caret_area : option (f32 * f32 * f32 * f32);
}.
#[export] Instance eta_PageSurface : Eta PageSurface := fun p =>
  mkSurface (page_plugin p) (page_id p) (page_plugin_name p) (page_frame p) (stale p) (answered p) (web_surface_id p) (web_frame p)
    (web_generation p) (web_caret_area p).

(** * Frames *)

Record ViewModel := mkView {
  v_generation : Generation;
  v_query : text;
  v_rows : list ResultRow;
  v_selected : Z;
  v_pending_plugins : bool;
  v_actions_open : bool;
  v_settings_open : bool;
  v_settings : list SettingRow;
  v_settings_focus : option string;
  v_show_hints : bool;
  v_rounded_corners : bool;
  v_page : option PageSurface;
}.
