(* ===== verification/Launcher.v ===== *)
(** The launcher's state machine without its renderer, [LauncherViewModel] of
    [crikey-ui/src/lib.rs].

    Every method is a definition of the method's name; a method that answers a
    boolean or an effect returns it beside the state.  [Arc]s whose identity the
    code never compares are their values; the frame of a page keeps its identity,
    which [update_page] compares. *)

From Stdlib Require Import SpecFloat.
From S2P Require Import Prelude Text StdFloat Utf8 Generation Items Page View.

Definition PAGE_SIZE : Z := 8.

Inductive UiCommand : Type :=
| SetQuery (typed : text)
| SelectNext
| SelectPrevious
| PageDown
| PageUp
| Complete
| ShowActions
| ExecuteDefault
| ExecuteAlternate (index : nat)
| Cancel
| Dismiss
| OpenSettings
| CloseSettings
| CommandPageInput (input : PageInput)
| CommandWebInput (input : WebSurfaceInput)
| CommandWebIme (event : WebImeEvent)
| CommandClosePage
| CommandResizePage (width height : Z)
| CommandSetSetting (key value : string)
| CommandQuit.

Inductive UiEffect : Type :=
| EffectQuery (typed : text)
| Execute (item : ItemId) (action : string)
| Dismissed
| EffectSetSetting (key value : string)
| EffectPageInput (input : PageInput)
| EffectWebInput (input : WebSurfaceInput)
| EffectWebIme (event : WebImeEvent)
| EffectClosePage
| EffectResizePage (width height : Z)
| EffectQuit.

Module LauncherViewModel.

Record LauncherViewModel := mk {
  visible : bool;
  dirty : bool;
  query : text;
  rows : list ResultRow;
  selected : Z;
  navigated : bool;
  actions_open : bool;
  pending_plugins : bool;
  settings_open : bool;
  settings : list SettingRow;
  settings_focus : option string;
  page : option PageSurface;
  show_hints : bool;
  rounded_corners : bool;
  floor : option Generation;
  active : option Generation;
  published : option Generation;
}.
#[export] Instance eta_launcher : Eta LauncherViewModel := fun m =>
  mk (visible m) (dirty m) (query m) (rows m) (selected m) (navigated m) (actions_open m) (pending_plugins m) (settings_open m)
    (settings m) (settings_focus m) (page m) (show_hints m) (rounded_corners m) (floor m) (active m) (published m).

Implicit Type m : LauncherViewModel.

Definition new : LauncherViewModel :=
  mk false false [] [] 0 false false false false [] None None true true None None None.

Definition activate m : LauncherViewModel :=
  if visible m then m else m <| visible := true |> <| dirty := true |>.

Definition dismiss m : LauncherViewModel :=
  if negb (visible m) then m
  else
    m <| visible := false |> <| dirty := false |> <| query := [] |> <| rows := [] |> <| selected := 0 |> <| navigated := false |>
      <| actions_open := false |> <| pending_plugins := false |> <| settings_open := false |> <| settings_focus := None |>
      <| page := None |> <| active := None |> <| published := None |>.

Definition begin_generation m (generation : Generation) : LauncherViewModel :=
  if negb (visible m) || (generation =? ZERO) || is_some_and (floor m) (fun f => generation <=? f) then m
  else
    m <| floor := Some generation |> <| navigated := false |> <| active := Some generation |> <| pending_plugins := true |>
      <| dirty := true |>.

(** [position] of the row of an item. *)
Fixpoint position (item : ItemId) (l : list ResultRow) : option Z :=
  match l with
  | [] => None
  | r :: l' => if String.eqb (row_item r) item then Some 0 else Z.succ <$> position item l'
  end.

Definition row_at (l : list ResultRow) (i : Z) : option ResultRow := l !! Z.to_nat i.

Definition resolve_selection m (incoming : list ResultRow) (generation : Generation) : Z :=
  match checked_sub (len incoming) 1 with
  | None => 0
  | Some last_ =>
      if negb (bool_decide (published m = Some generation)) then 0
      else if negb (navigated m) then 0
      else
        match row_at (rows m) (selected m) with
        | None => 0
        | Some anchor => default (Z.min (selected m) last_) (position (row_item anchor) incoming)
        end
  end.

Definition publish m (generation : Generation) (incoming : list ResultRow) (pending : bool) : LauncherViewModel :=
  if negb (visible m) || negb (bool_decide (active m = Some generation)) then m
  else
    let incoming := match query m with [] => [] | _ => incoming end in
    m <| selected := resolve_selection m incoming generation |> <| rows := incoming |> <| actions_open := false |>
      <| pending_plugins := pending |> <| published := Some generation |> <| dirty := true |>.

Definition frame m : LauncherViewModel * option ViewModel :=
  if negb (visible m) || negb (dirty m) then (m, None)
  else
    (m <| dirty := false |>,
     Some {| v_generation := default ZERO (active m); v_query := query m; v_rows := rows m; v_selected := selected m;
             v_pending_plugins := pending_plugins m; v_actions_open := actions_open m; v_settings_open := settings_open m;
             v_settings := settings m; v_settings_focus := settings_focus m; v_show_hints := show_hints m;
             v_rounded_corners := rounded_corners m; v_page := page m |}).

Definition retype m (typed : text) : LauncherViewModel * option UiEffect :=
  if text_eqb (query m) typed then (m, None)
  else
    let m := m <| query := typed |> in
    let m := match query m with
             | [] => m <| rows := [] |> <| selected := 0 |> <| navigated := false |> <| actions_open := false |>
             | _ => m
             end in
    (m <| dirty := true |>, Some (EffectQuery typed)).

Definition complete m : LauncherViewModel * option UiEffect :=
  match row_at (rows m) (selected m) with
  | None => (m, None)
  | Some row =>
      if text_eqb (query m) (chars (row_label row)) then (m, None)
      else (m <| query := chars (row_label row) |> <| dirty := true |>, Some (EffectQuery (chars (row_label row))))
  end.

Definition set_selected_status m (status : string) : LauncherViewModel * bool :=
  match row_at (rows m) (selected m) with
  | None => (m, false)
  | Some row =>
      if bool_decide (row_status row = Some status) then (m, true)
      else (m <| rows ::= alter (fun r => r <| row_status := Some status |>) (Z.to_nat (selected m)) |> <| dirty := true |>, true)
  end.

Definition set_settings m (l : list SettingRow) : LauncherViewModel :=
  if bool_decide (settings m = l) then m else m <| settings := l |> <| dirty ::= fun d => d || visible m |>.

Definition set_show_hints m (show : bool) : LauncherViewModel * bool :=
  if Bool.eqb (show_hints m) show then (m, false)
  else (m <| show_hints := show |> <| dirty ::= fun d => d || visible m |>, true).

Definition set_rounded_corners m (rounded : bool) : LauncherViewModel * bool :=
  if Bool.eqb (rounded_corners m) rounded then (m, false)
  else (m <| rounded_corners := rounded |> <| dirty ::= fun d => d || visible m |>, true).

Definition open_settings m (focus : option string) : LauncherViewModel * bool :=
  if settings_open m && bool_decide (settings_focus m = focus) then (m, false)
  else
    (m <| page := None |> <| settings_open := true |> <| settings_focus := focus |> <| dirty ::= fun d => d || visible m |>,
     is_some (page m)).

Definition close_settings m : LauncherViewModel :=
  if negb (settings_open m) then m
  else m <| settings_open := false |> <| settings_focus := None |> <| dirty ::= fun d => d || visible m |>.

Definition open_page m (surface : PageSurface) : LauncherViewModel * bool :=
  if negb (visible m) then (m, false)
  else (m <| settings_open := false |> <| settings_focus := None |> <| page := Some surface |> <| dirty := true |>, true).

Definition update_page m (f : Arc PageFrame) (stale_ : bool) : LauncherViewModel * bool :=
  match page m with
  | None => (m, false)
  | Some p =>
      if frame_generation (arc_value f) <? frame_generation (arc_value (page_frame p)) then (m, false)
      else if Bool.eqb (stale p) stale_ && (arc_ptr (page_frame p) =? arc_ptr f) then (m, false)
      else
        let changed := negb (Bool.eqb (is_some (web (arc_value (page_frame p)))) (is_some (web (arc_value f)))) in
        let p := p <| page_frame := f |> <| stale := stale_ |> <| answered := true |> in
        let p := if changed
                 then p <| web_surface_id := None |> <| web_frame := None |> <| web_generation := 0 |> <| web_caret_area := None |>
                 else p in
        (m <| page := Some p |> <| dirty := true |>, true)
  end.

Definition declare_web_surface m (surface_id : Z) : LauncherViewModel * bool :=
  match page m with
  | None => (m, false)
  | Some p =>
      if (surface_id =? 0) || is_none (web (arc_value (page_frame p))) then (m, false)
      else if bool_decide (web_surface_id p = Some surface_id) then (m, false)
      else
        let p := p <| web_surface_id := Some surface_id |> <| web_frame := None |> <| web_generation := 0 |> <| web_caret_area := None |> in
        (m <| page := Some p |> <| dirty := true |>, true)
  end.

Definition update_web_frame m (f : WebSurfaceFrame) : LauncherViewModel * bool :=
  match page m with
  | None => (m, false)
  | Some p =>
      if negb (web_frame_valid f) || is_none (web (arc_value (page_frame p))) || negb (bool_decide (web_surface_id p = Some (surface_id f)))
         || (web_frame_generation f <=? web_generation p)
      then (m, false)
      else
        let p := p <| web_generation := web_frame_generation f |> <| web_frame := Some f |> in
        (m <| page := Some p |> <| dirty := true |>, true)
  end.

Definition clear_web_frame m (surface_id : Z) : LauncherViewModel * bool :=
  match page m with
  | None => (m, false)
  | Some p =>
      if negb (bool_decide (web_surface_id p = Some surface_id)) then (m, false)
      else
        let changed := is_some (web_frame p) || is_some (web_caret_area p) in
        let m := m <| page := Some (p <| web_frame := None |> <| web_caret_area := None |>) |> in
        if negb changed then (m, false) else (m <| dirty := true |>, true)
  end.

(** The equality of caret rectangles is that of their numbers. *)
Definition area_eqb (l r : f32 * f32 * f32 * f32) : bool :=
  f32_eq l.1.1.1 r.1.1.1 && f32_eq l.1.1.2 r.1.1.2 && f32_eq l.1.2 r.1.2 && f32_eq l.2 r.2.

Definition update_web_caret_area m (surface_id : Z) (x y width height : f32) : LauncherViewModel * bool :=
  match page m with
  | None => (m, false)
  | Some p =>
      let area := (x, y, width, height) in
      if negb (bool_decide (web_surface_id p = Some surface_id))
         || negb (forallb f32_is_finite [x; y; width; height])
         || negb (f32_is_finite (f32_add x width)) || negb (f32_is_finite (f32_add y height))
         || f32_lt width f32_zero || f32_lt height f32_zero
         || is_some_and (web_caret_area p) (fun a => area_eqb a area)
      then (m, false)
      else (m <| page := Some (p <| web_caret_area := Some area |>) |> <| dirty := true |>, true)
  end.

Definition close_page m : LauncherViewModel * bool :=
  if is_none (page m) then (m, false)
  else (m <| page := None |> <| dirty ::= fun d => d || visible m |>, true).

Definition open_actions m : LauncherViewModel :=
  if actions_open m then m
  else if negb (is_some_and (row_at (rows m) (selected m)) (fun r => negb (bool_decide (row_alternate_actions r = [])))) then m
  else m <| actions_open := true |> <| dirty := true |>.

Definition close_actions m : LauncherViewModel :=
  if negb (actions_open m) then m else m <| actions_open := false |> <| dirty := true |>.

Definition select m (target : Z) : LauncherViewModel :=
  match checked_sub (len (rows m)) 1 with
  | None => m
  | Some last_ =>
      let target := Z.min target last_ in
      if target =? selected m then m
      else m <| selected := target |> <| navigated := true |> <| actions_open := false |> <| dirty := true |>
  end.

Definition execute (row : ResultRow) (action : Action) : UiEffect := Execute (row_item row) (action_id action).

(** Running an action of the selected row. *)
Definition execute_selected m (choose : ResultRow -> option Action) : LauncherViewModel * option UiEffect :=
  match (row ← row_at (rows m) (selected m); action ← choose row; Some (execute row action)) with
  | None => (m, None)
  | Some effect => (close_actions m, Some effect)
  end.

(** One rung of the ladder [Cancel] backs out of. *)
Definition cancel m : LauncherViewModel * option UiEffect :=
  if is_some (page m) then ((close_page m).1, Some EffectClosePage)
  else if settings_open m then (close_settings m, None)
  else if actions_open m then (close_actions m, None)
  else match query m with
       | [] => (dismiss m, Some Dismissed)
       | _ => retype m []
       end.

Definition is_close_page (c : UiCommand) : bool := match c with CommandClosePage => true | _ => false end.

Definition apply m (command : UiCommand) : LauncherViewModel * option UiEffect :=
  if negb (visible m) && negb (is_close_page command) then (m, None)
  else
    match command with
    | SetQuery typed => retype m typed
    | SelectNext => (select m (saturating_add usize_max (selected m) 1), None)
    | SelectPrevious => (select m (saturating_sub (selected m) 1), None)
    | PageDown => (select m (saturating_add usize_max (selected m) PAGE_SIZE), None)
    | PageUp => (select m (saturating_sub (selected m) PAGE_SIZE), None)
    | Complete => complete m
    | ShowActions => (open_actions m, None)
    | ExecuteDefault => execute_selected m row_default_action
    | ExecuteAlternate index => execute_selected m (fun row => row_alternate_actions row !! index)
    | OpenSettings => let (m, evicted) := open_settings m None in (m, if evicted then Some EffectClosePage else None)
    | CloseSettings => (close_settings m, None)
    | CommandPageInput input => (m, Some (EffectPageInput input))
    | CommandWebInput input => (m, Some (EffectWebInput input))
    | CommandWebIme event => (m, Some (EffectWebIme event))
    | CommandResizePage width height => (m, if is_some (page m) then Some (EffectResizePage width height) else None)
    | CommandClosePage => ((close_page m).1, Some EffectClosePage)
    | CommandSetSetting key value => (m, Some (EffectSetSetting key value))
    | CommandQuit => (m, Some EffectQuit)
    | Cancel => cancel m
    | Dismiss => (dismiss m, Some Dismissed)
    end.

End LauncherViewModel.
