(* ===== verification/LauncherFacts.v ===== *)
(** The launcher over every sequence of calls: its invariant, what is shown and
    when, and which results can reach it. *)

From Stdlib Require Import SpecFloat.
From S2P Require Import Prelude Text StdFloat Utf8 Generation Items Page View Launcher.

Module L := LauncherViewModel.
Import LauncherViewModel.

(** * Calls *)

Inductive LauncherCall : Type :=
| CallActivate
| CallDismiss
| CallBegin (g : Generation)
| CallPublish (g : Generation) (incoming : list ResultRow) (pending : bool)
| CallFrame
| CallApply (command : UiCommand)
| CallStatus (status : string)
| CallSettings (l : list SettingRow)
| CallHints (show : bool)
| CallCorners (rounded : bool)
| CallOpenSettings (focus : option string)
| CallCloseSettings
| CallOpenPage (surface : PageSurface)
| CallUpdatePage (f : Arc PageFrame) (stale : bool)
| CallDeclare (surface_id : Z)
| CallWebFrame (f : WebSurfaceFrame)
| CallClearWeb (surface_id : Z)
| CallCaret (surface_id : Z) (x y width height : f32)
| CallClosePage.

Definition call (m : LauncherViewModel) (c : LauncherCall) : LauncherViewModel :=
  match c with
  | CallActivate => activate m
  | CallDismiss => dismiss m
  | CallBegin g => begin_generation m g
  | CallPublish g incoming pending => publish m g incoming pending
  | CallFrame => (frame m).1
  | CallApply command => (apply m command).1
  | CallStatus status => (set_selected_status m status).1
  | CallSettings l => set_settings m l
  | CallHints show => (set_show_hints m show).1
  | CallCorners rounded => (set_rounded_corners m rounded).1
  | CallOpenSettings focus => (open_settings m focus).1
  | CallCloseSettings => close_settings m
  | CallOpenPage surface => (open_page m surface).1
  | CallUpdatePage f stale => (update_page m f stale).1
  | CallDeclare id => (declare_web_surface m id).1
  | CallWebFrame f => (update_web_frame m f).1
  | CallClearWeb id => (clear_web_frame m id).1
  | CallCaret id x y w h => (update_web_caret_area m id x y w h).1
  | CallClosePage => (close_page m).1
  end.

Definition calls (m : LauncherViewModel) (cs : list LauncherCall) : LauncherViewModel := foldl call m cs.

(** * The invariant *)

(** The web half of a page: the pixels on show belong to the surface that was
    declared last, are complete, and are the newest accepted. *)
Definition surface_ok (p : PageSurface) : Prop :=
  match web_frame p with
  | Some f => web_surface_id p = Some (surface_id f) /\ web_frame_valid f = true /\ web_frame_generation f = web_generation p /\
              is_some (web (arc_value (page_frame p))) = true
  | None => True
  end.

Record launcher_ok (m : LauncherViewModel) : Prop := {
  lo_hidden : visible m = false ->
    dirty m = false /\ query m = [] /\ rows m = [] /\ navigated m = false /\ actions_open m = false /\ pending_plugins m = false /\
    page m = None /\ active m = None /\ published m = None;
  lo_surfaces : settings_open m = true -> page m = None;
  lo_focus : is_some (settings_focus m) = true -> settings_open m = true;
  lo_selected : 0 <= selected m /\ (rows m = [] -> selected m = 0) /\ (rows m <> [] -> selected m < len (rows m));
  lo_actions : actions_open m = true -> exists r, row_at (rows m) (selected m) = Some r /\ row_alternate_actions r <> [];
  lo_active : forall g, active m = Some g -> floor m = Some g;
  lo_published : forall g, published m = Some g -> exists f, floor m = Some f /\ g <= f;
  lo_page : forall p, page m = Some p -> surface_ok p;
}.

(** The host opens pages that show nothing of an engine yet, or what it admitted. *)
Definition call_ok (c : LauncherCall) : Prop :=
  match c with CallOpenPage surface => surface_ok surface | _ => True end.

Lemma new_ok : launcher_ok new.
Proof. split; cbn; try done; try (split_and!; done || lia). Qed.

Lemma launcher_position_Some item l i : position item l = Some i -> 0 <= i < len l /\ exists r, row_at l i = Some r /\ row_item r = item.
Proof.
  revert i. induction l as [|r l IH]; intros i; cbn [position]; [done|]. destruct (String.eqb_spec (row_item r) item) as [E|E].
  - intros [= <-]. rewrite len_cons. pose proof (len_nonneg l). split; [lia|]. exists r. by split.
  - destruct (position item l) as [j|]; cbn; [|done]. intros [= <-]. destruct (IH j eq_refl) as (Hj & r' & Hr & Ei). rewrite len_cons. split; [lia|].
    exists r'. split; [|done]. unfold row_at in *. replace (Z.to_nat (Z.succ j)) with (S (Z.to_nat j)) by lia. done.
Qed.

Lemma resolve_range m incoming g :
  0 <= selected m -> 0 <= resolve_selection m incoming g /\ (incoming = [] -> resolve_selection m incoming g = 0) /\
  (incoming <> [] -> resolve_selection m incoming g < len incoming).
Proof.
  intros Hs. unfold resolve_selection, checked_sub. destruct incoming as [|r l].
  - cbn. split_and!; (done || lia).
  - rewrite len_cons. pose proof (len_nonneg l) as Hl. rewrite (proj2 (Z.leb_le _ _)) by lia. repeat case_match; try (split_and!; [lia | done | intros _; lia]).
    destruct (position (row_item _) (r :: l)) as [i|] eqn:E; cbn [default from_option id].
    + apply launcher_position_Some in E as [Hi _]. rewrite len_cons in Hi. split_and!; [lia | done | intros _; lia].
    + split_and!; [lia | done | intros _; lia].
Qed.

(** A change that touches neither the rows nor the selection keeps what depends on
    them. *)
Ltac keeps_by H := destruct H as [Hhid Hsurf Hfoc Hsel Hact Hactv Hpub Hpage]; split; cbn in *; try done; try (intros Hv; specialize (Hhid Hv); tauto).

Section Preserved.
Context (m : LauncherViewModel) (Hm : launcher_ok m).

Lemma launcher_activate_ok : launcher_ok (activate m).
Proof. unfold activate. destruct (visible m) eqn:E; [done|]. keeps_by Hm. Qed.

Lemma dismiss_ok : launcher_ok (dismiss m).
Proof. unfold dismiss. destruct (visible m) eqn:E; cbn [negb]; [|done]. keeps_by Hm; split_and!; (done || lia). Qed.

Lemma begin_ok g : launcher_ok (begin_generation m g).
Proof.
  unfold begin_generation. destruct (_ || _) eqn:E; [done|]. rewrite !orb_false_iff in E. destruct E as [[Hv _] Hf]. apply negb_false_iff in Hv.
  keeps_by Hm; [intros Hx; congruence|]. intros g' Hg'. destruct (Hpub g' Hg') as (f & Ef & Hle). rewrite Ef in Hf. cbn in Hf. apply Z.leb_gt in Hf. exists g. split; [done | lia].
Qed.

Lemma launcher_publish_ok g incoming pending : launcher_ok (publish m g incoming pending).
Proof.
  unfold publish. destruct (negb (visible m)) eqn:Hv; cbn [orb]; [done|]. apply negb_false_iff in Hv. case_bool_decide as Ha; cbn [negb]; [|done].
  pose proof (resolve_range m (match query m with [] => [] | _ => incoming end) g (proj1 (lo_selected m Hm))) as Hr.
  keeps_by Hm; [congruence|]. intros g' [= <-]. exists g. split; [by apply Hactv | lia].
Qed.

Lemma frame_ok_ : launcher_ok (frame m).1.
Proof. unfold frame. destruct (_ || _) eqn:E; [done|]. apply orb_false_iff in E as [Hv _]. apply negb_false_iff in Hv. keeps_by Hm; congruence. Qed.

Lemma retype_ok typed : visible m = true -> launcher_ok (retype m typed).1.
Proof.
  intros Hv. unfold retype. destruct (text_eqb _ _); [done|]. cbn [fst]. destruct typed; cbn; keeps_by Hm; try congruence; split_and!; (done || lia).
Qed.

Lemma launcher_complete_ok : visible m = true -> launcher_ok (complete m).1.
Proof. intros Hv. unfold complete. destruct (row_at _ _); [|done]. destruct (text_eqb _ _); [done|]. keeps_by Hm; congruence. Qed.

Lemma status_ok status : launcher_ok (set_selected_status m status).1.
Proof.
  unfold set_selected_status. destruct (row_at (rows m) (selected m)) as [r|] eqn:Er; [|done]. case_bool_decide; [done|].
  assert (Hv : visible m = true).
  { destruct (visible m) eqn:Ev; [done|]. destruct (lo_hidden m Hm Ev) as (_ & _ & Hr & _). by rewrite Hr in Er. }
  assert (Hlen : len (alter (fun r => r <| row_status := Some status |>) (Z.to_nat (selected m)) (rows m)) = len (rows m)) by (unfold len; by rewrite length_alter).
  keeps_by Hm; [congruence | |].
  - rewrite Hlen. destruct (rows m) eqn:E; [done|]. split_and!; [tauto | | by intros _; apply Hsel]. intros E'. rewrite E' in Hlen. rewrite len_cons, len_nil in Hlen. pose proof (len_nonneg l). lia.
  - intros Ha. destruct (Hact Ha) as (r' & Hr' & Halt). exists (r' <| row_status := Some status |>). unfold row_at in *. rewrite list_lookup_alter_eq, Hr'. done.
Qed.

Lemma dirty_or (a : bool) : visible m = false -> dirty m = false -> a = false -> dirty m || a = false.
Proof. by intros _ -> ->. Qed.

Lemma settings_ok l : launcher_ok (set_settings m l).
Proof. unfold set_settings. case_bool_decide; [done|]. keeps_by Hm. intros Hv. specialize (Hhid Hv). rewrite Hv. destruct Hhid as (-> & ?). done. Qed.

Lemma hints_ok show : launcher_ok (set_show_hints m show).1.
Proof. unfold set_show_hints. destruct (Bool.eqb _ _); [done|]. keeps_by Hm. intros Hv. specialize (Hhid Hv). rewrite Hv. destruct Hhid as (-> & ?). done. Qed.

Lemma corners_ok rounded : launcher_ok (set_rounded_corners m rounded).1.
Proof. unfold set_rounded_corners. destruct (Bool.eqb _ _); [done|]. keeps_by Hm. intros Hv. specialize (Hhid Hv). rewrite Hv. destruct Hhid as (-> & ?). done. Qed.

Lemma open_settings_ok focus : launcher_ok (open_settings m focus).1.
Proof.
  unfold open_settings. destruct (_ && _); [done|]. keeps_by Hm. intros Hv. specialize (Hhid Hv). rewrite Hv. destruct Hhid as (-> & ?). tauto.
Qed.

Lemma close_settings_ok : launcher_ok (close_settings m).
Proof. unfold close_settings. destruct (negb _); [done|]. keeps_by Hm. intros Hv. specialize (Hhid Hv). rewrite Hv. destruct Hhid as (-> & ?). done. Qed.

Lemma open_page_ok surface : surface_ok surface -> launcher_ok (open_page m surface).1.
Proof. intros Hs. unfold open_page. destruct (visible m) eqn:Hv; cbn [negb]; [|done]. keeps_by Hm; try congruence. Qed.

(** A change of the page that keeps its web half sound. *)
Lemma page_ok p p' : page m = Some p -> (surface_ok p -> surface_ok p') -> launcher_ok (m <| page := Some p' |> <| dirty := true |>).
Proof.
  intros Hp Hs. assert (Hv : visible m = true) by (destruct (visible m) eqn:Ev; [done|]; destruct (lo_hidden m Hm Ev) as (_ & _ & _ & _ & _ & _ & ? & _); congruence).
  keeps_by Hm; try congruence.
  - intros Ho. specialize (Hsurf Ho). congruence.
  - intros q [= <-]. auto.
Qed.

Lemma update_page_ok f stale_ : launcher_ok (update_page m f stale_).1.
Proof.
  unfold update_page. destruct (page m) as [p|] eqn:Ep; [|done]. destruct (_ <? _); [done|]. destruct (_ && _); [done|]. cbn [fst]. eapply page_ok; [exact Ep|].
  unfold surface_ok. destruct (Bool.eqb _ _) eqn:Eb; cbn; [|done]. apply eqb_prop in Eb. rewrite <- Eb. done.
Qed.

Lemma declare_ok id : launcher_ok (declare_web_surface m id).1.
Proof. unfold declare_web_surface. destruct (page m) as [p|] eqn:Ep; [|done]. destruct (_ || _); [done|]. case_bool_decide; [done|]. cbn [fst]. by eapply page_ok. Qed.

Lemma web_frame_ok f : launcher_ok (update_web_frame m f).1.
Proof.
  unfold update_web_frame. destruct (page m) as [p|] eqn:Ep; [|done]. destruct (_ || _) eqn:E; [done|]. cbn [fst]. eapply page_ok; [exact Ep|].
  rewrite !orb_false_iff, !negb_false_iff, bool_decide_eq_true in E. destruct E as [[[Hv Hw] Hid] _]. intros _. unfold surface_ok. cbn. split_and!; try done.
  unfold is_none in Hw. by apply negb_false_iff in Hw.
Qed.

Lemma clear_web_ok id : launcher_ok (clear_web_frame m id).1.
Proof.
  unfold clear_web_frame. destruct (page m) as [p|] eqn:Ep; [|done]. destruct (negb (bool_decide _)); [done|].
  destruct (is_some (web_frame p) || is_some (web_caret_area p)) eqn:E; cbn [negb fst]; [by eapply page_ok|].
  apply orb_false_iff in E as [E1 E2]. replace (m <| page := _ |>) with m; [done|].
  destruct m as [v d q r s n a pd so st sf pg sh rc fl ac pu]. cbn in *. subst pg. unfold update. cbn. do 2 f_equal.
  destruct p as [pp pi pn pf ps pa pw pwf pg pc]. cbn in *. destruct pwf, pc; done.
Qed.

Lemma caret_ok id x y w h : launcher_ok (update_web_caret_area m id x y w h).1.
Proof. unfold update_web_caret_area. destruct (page m) as [p|] eqn:Ep; [|done]. destruct (_ || _); [done|]. cbn [fst]. by eapply page_ok. Qed.

Lemma close_page_ok : launcher_ok (close_page m).1.
Proof.
  unfold close_page. destruct (page m) as [p|] eqn:Ep; cbn [is_none]; [|done].
  assert (Hv : visible m = true) by (destruct (visible m) eqn:Ev; [done|]; destruct (lo_hidden m Hm Ev) as (_ & _ & _ & _ & _ & _ & ? & _); congruence).
  cbn. keeps_by Hm; congruence.
Qed.

Lemma open_actions_ok : visible m = true -> launcher_ok (open_actions m).
Proof.
  intros Hv. unfold open_actions. destruct (actions_open m); [done|]. destruct (row_at (rows m) (selected m)) as [r|] eqn:Er; cbn; [|done].
  case_bool_decide as Ha; cbn; [done|]. keeps_by Hm; [congruence|]. intros _. by exists r.
Qed.

Lemma close_actions_ok : launcher_ok (close_actions m).
Proof.
  unfold close_actions. destruct (actions_open m) eqn:Ea; cbn [negb]; [|done].
  assert (Hv : visible m = true) by (destruct (visible m) eqn:Ev; [done|]; destruct (lo_hidden m Hm Ev) as (_ & _ & _ & _ & ? & _); congruence).
  keeps_by Hm; congruence.
Qed.

Lemma select_ok target : 0 <= target -> visible m = true -> launcher_ok (select m target).
Proof.
  intros Ht Hv. unfold select, checked_sub. destruct (Z.leb_spec 1 (len (rows m))) as [Hl|Hl]; [|done]. destruct (_ =? _); [done|].
  keeps_by Hm; [congruence|]. split_and!; [lia | | intros _; lia]. intros E. rewrite E, len_nil in Hl. lia.
Qed.
End Preserved.

Lemma execute_ok m choose : launcher_ok m -> launcher_ok (execute_selected m choose).1.
Proof. intros Hm. unfold execute_selected. destruct (_ ≫= _); [by apply close_actions_ok | done]. Qed.

Lemma cancel_ok m : launcher_ok m -> visible m = true -> launcher_ok (cancel m).1.
Proof.
  intros Hm Hv. unfold cancel. destruct (is_some (page m)); [by apply close_page_ok|]. destruct (settings_open m); [by apply close_settings_ok|].
  destruct (actions_open m); [by apply close_actions_ok|]. destruct (query m); [by apply dismiss_ok | by apply retype_ok].
Qed.

Lemma apply_ok m c : launcher_ok m -> launcher_ok (apply m c).1.
Proof.
  intros Hm. unfold apply. destruct (visible m) eqn:Hv; cbn [negb andb].
  - pose proof (lo_selected m Hm) as (Hs & _). assert (Hadd : forall k, 0 <= k -> 0 <= saturating_add usize_max (selected m) k).
    { intros k Hk. unfold saturating_add, usize_max, u64_max. lia. }
    assert (Hsub : forall k, 0 <= saturating_sub (selected m) k) by (intros k; unfold saturating_sub; lia).
    destruct c; cbn [fst]; try done; try (apply select_ok; (done || (apply Hadd; unfold PAGE_SIZE; lia) || apply Hsub)); try (by apply execute_ok).
    + by apply retype_ok.
    + by apply launcher_complete_ok.
    + by apply open_actions_ok.
    + by apply cancel_ok.
    + by apply dismiss_ok.
    + pose proof (open_settings_ok m Hm None) as Ho. by destruct (open_settings m None).
    + by apply close_settings_ok.
    + by apply close_page_ok.
  - destruct (is_close_page c) eqn:Ec; [|done]. destruct c; try done. cbn. by apply close_page_ok.
Qed.

Lemma call_preserves m c : launcher_ok m -> call_ok c -> launcher_ok (call m c).
Proof.
  intros Hm Hc. destruct c; cbn [call].
  - by apply launcher_activate_ok.
  - by apply dismiss_ok.
  - by apply begin_ok.
  - by apply launcher_publish_ok.
  - by apply frame_ok_.
  - by apply apply_ok.
  - by apply status_ok.
  - by apply settings_ok.
  - by apply hints_ok.
  - by apply corners_ok.
  - by apply open_settings_ok.
  - by apply close_settings_ok.
  - by apply open_page_ok.
  - by apply update_page_ok.
  - by apply declare_ok.
  - by apply web_frame_ok.
  - by apply clear_web_ok.
  - by apply caret_ok.
  - by apply close_page_ok.
Qed.

Lemma calls_ok m cs : launcher_ok m -> Forall call_ok cs -> launcher_ok (calls m cs).
Proof. intros Hm Hcs. revert m Hm. induction Hcs as [|c cs Hc _ IH]; intros m Hm; cbn; [done|]. by apply IH, call_preserves. Qed.

(** * Which results are shown *)

(** Rows change only by a publication of the active generation, and by what hides
    or clears them. *)
Lemma floor_grows m c f : floor m = Some f -> exists f', floor (call m c) = Some f' /\ f <= f'.
Proof.
  intros Hf. assert (Hsame : floor (call m c) = floor m -> exists f', floor (call m c) = Some f' /\ f <= f') by (intros ->; exists f; split; [done | lia]).
  destruct c; cbn [call] in *; try (apply Hsame; unfold activate, dismiss, publish, frame, set_selected_status, set_settings, set_show_hints, set_rounded_corners,
    open_settings, close_settings, open_page, update_page, declare_web_surface, update_web_frame, clear_web_frame, update_web_caret_area, close_page; repeat case_match; done).
  - unfold begin_generation in *. destruct (_ || _) eqn:E; [by apply Hsame|]. rewrite !orb_false_iff in E. destruct E as [_ Hg]. rewrite Hf in Hg. cbn in Hg.
    apply Z.leb_gt in Hg. exists g. split; [done | lia].
  - apply Hsame. unfold apply, retype, complete, open_actions, execute_selected, open_settings, close_settings, close_page, cancel, dismiss, select, close_actions.
    destruct command; repeat (case_match; simplify_eq/=); try done; repeat (unfold retype, close_page, close_settings, close_actions, dismiss, select; repeat case_match; simplify_eq/=); done.
Qed.

(** A generation that is not the active one although a newer or equal one was
    begun. *)
Definition retired (m : LauncherViewModel) (g : Generation) : Prop := active m <> Some g /\ exists f, floor m = Some f /\ g <= f.

(** The active generation after a call is the one before, none, or a newer one. *)
Lemma active_after m c : active (call m c) = active m \/ active (call m c) = None \/
  exists g, c = CallBegin g /\ active (call m c) = Some g /\ (forall f, floor m = Some f -> f < g).
Proof.
  destruct c; cbn [call]; try (left; unfold activate, publish, frame, set_selected_status, set_settings, set_show_hints, set_rounded_corners,
    open_settings, close_settings, open_page, update_page, declare_web_surface, update_web_frame, clear_web_frame, update_web_caret_area, close_page; repeat case_match; done).
  - unfold dismiss. destruct (negb _); [by left | by right; left].
  - unfold begin_generation. destruct (_ || _) eqn:E; [by left|]. rewrite !orb_false_iff in E. destruct E as [_ Hg]. right. right. exists g. split_and!; [done..|].
    intros f Ef. rewrite Ef in Hg. by apply Z.leb_gt in Hg.
  - unfold apply, retype, complete, open_actions, execute_selected, open_settings, close_settings, close_page, cancel, dismiss, select, close_actions.
    destruct command; repeat (case_match; simplify_eq/=); try (by left); try (by right; left);
      repeat (unfold retype, close_page, close_settings, close_actions, dismiss, select; repeat case_match; simplify_eq/=); (by left) || (by right; left).
Qed.

Lemma retired_call m c g : retired m g -> retired (call m c) g.
Proof.
  intros [Ha (f & Ef & Hle)]. destruct (floor_grows m c f Ef) as (f' & Ef' & Hf'). split; [|exists f'; split; [done | lia]].
  destruct (active_after m c) as [->|[->|(h & -> & -> & Hh)]]; [done..|]. intros [= ->]. specialize (Hh f Ef). lia.
Qed.

Lemma retired_calls m cs g : retired m g -> retired (calls m cs) g.
Proof. revert m. induction cs as [|c cs IH]; intros m Hr; cbn; [done|]. by apply IH, retired_call. Qed.

(** The active generation is the one begun last, while the launcher was showing,
    above every one begun before, and active ever since. *)
Definition begun_last (cs : list LauncherCall) (g : Generation) : Prop :=
  exists before_ after, cs = before_ ++ CallBegin g :: after /\ visible (calls new before_) = true /\
    (forall f, floor (calls new before_) = Some f -> f < g) /\
    forall a1 a2, after = a1 ++ a2 -> active (calls new (before_ ++ CallBegin g :: a1)) = Some g.

Lemma calls_snoc m cs c : calls m (cs ++ [c]) = call (calls m cs) c.
Proof. unfold calls. by rewrite foldl_app. Qed.

Lemma active_begun cs g : Forall call_ok cs -> active (calls new cs) = Some g -> begun_last cs g.
Proof.
  induction cs as [|c cs IH] using rev_ind; [done|]. intros [Hcs Hc]%Forall_app. pose proof (calls_ok new cs new_ok Hcs) as Hm. intros Ha.
  pose proof Ha as Ha'. rewrite calls_snoc in Ha'. destruct (active_after (calls new cs) c) as [E|[E|(h & -> & E & Hf)]]; rewrite E in Ha'; [|done|].
  - destruct (IH Hcs Ha') as (before_ & after & -> & Hv & Hf & Hall). exists before_, (after ++ [c]). split_and!; [by rewrite <- app_assoc | done..|].
    intros a1 a2 Hsplit. destruct a2 as [|x a2 _] using rev_ind; [rewrite app_nil_r in Hsplit; subst a1; by rewrite <- app_assoc in Ha|].
    rewrite app_assoc in Hsplit. apply app_inj_tail in Hsplit as [-> _]. by eapply Hall.
  - injection Ha' as ->. exists cs, []. split_and!; [done | |done|].
    + destruct (visible (calls new cs)) eqn:Hv; [done|]. cbn [call] in E. unfold begin_generation in E. rewrite Hv in E. cbn [negb orb] in E.
      destruct (lo_hidden _ Hm Hv) as (_ & _ & _ & _ & _ & _ & _ & Hn & _). congruence.
    + intros a1 a2 Hsplit. symmetry in Hsplit. apply app_eq_nil in Hsplit as [-> _]. exact Ha.
Qed.

(** C12: results never come late.  On every launcher a sequence of calls leaves,
    only the active generation publishes: results of any other generation, begun
    before, never begun or still to come, change nothing.  The active generation
    is the one begun last, while the launcher was showing and above all begun
    before it, and it has been active ever since; once a call made another
    generation active or dismissed the launcher, no sequence of calls makes the
    retired generation active, or publish, again. *)
Theorem late_results_discarded cs g :
  Forall call_ok cs ->
  (active (calls new cs) <> Some g -> forall incoming pending, publish (calls new cs) g incoming pending = calls new cs) /\
  (active (calls new cs) = Some g -> begun_last cs g) /\
  (forall before_ c after, cs = before_ ++ c :: after -> active (calls new before_) = Some g -> active (calls new (before_ ++ [c])) <> Some g ->
     active (calls new cs) <> Some g).
Proof.
  intros Hok. split_and!.
  - intros Ha incoming pending. unfold publish. rewrite bool_decide_eq_false_2 by done. cbn [negb]. by rewrite orb_true_r.
  - by apply active_begun.
  - intros before_ c after -> Ha Hr. apply Forall_app in Hok as [Hb _]. pose proof (calls_ok new before_ new_ok Hb) as Hm.
    rewrite calls_snoc in Hr. unfold calls at 1. rewrite foldl_app. cbn [foldl]. apply (retired_calls (call (calls new before_) c) after g).
    split; [done|]. destruct (floor_grows (calls new before_) c g (lo_active _ Hm g Ha)) as (f & Ef & Hle). eauto.
Qed.

(** * What is on screen *)

(** The frame that shows the state. *)
Definition shown (m : LauncherViewModel) : ViewModel :=
  {| v_generation := default ZERO (active m); v_query := query m; v_rows := rows m; v_selected := selected m;
     v_pending_plugins := pending_plugins m; v_actions_open := actions_open m; v_settings_open := settings_open m;
     v_settings := settings m; v_settings_focus := settings_focus m; v_show_hints := show_hints m;
     v_rounded_corners := rounded_corners m; v_page := page m |}.

(** The launcher and the newest frame it handed out. *)
Definition watch (s : LauncherViewModel * option ViewModel) (c : LauncherCall) : LauncherViewModel * option ViewModel :=
  (call s.1 c, match c with CallFrame => match (frame s.1).2 with Some v => Some v | None => s.2 end | _ => s.2 end).

(** A call that leaves a clean visible launcher found it clean and visible, and
    changed nothing that is shown. *)
Definition quiet (m m' : LauncherViewModel) : Prop :=
  visible m' = true -> dirty m' = false -> visible m = true /\ dirty m = false /\ shown m' = shown m.

Lemma launcher_quiet_refl m : quiet m m.
Proof. by intros Hv Hd. Qed.

Lemma quiet_dirty m m' : dirty m' = true -> quiet m m'.
Proof. intros E _ E'. congruence. Qed.

Lemma quiet_or m m' : visible m' = visible m -> dirty m' = dirty m || visible m -> quiet m m'.
Proof. intros E1 E2 Hv Hd. rewrite E1 in Hv. rewrite E2, Hv, orb_true_r in Hd. done. Qed.

Lemma quiet_hidden m m' : visible m' = false -> quiet m m'.
Proof. intros E Hv. congruence. Qed.

Ltac quiet_solve := first [by apply launcher_quiet_refl | by apply quiet_dirty | by apply quiet_hidden | by apply quiet_or].

Lemma retype_quiet m typed : quiet m (retype m typed).1.
Proof. unfold retype. destruct (text_eqb _ _); [quiet_solve|]. destruct typed; quiet_solve. Qed.

Lemma close_page_quiet m : quiet m (close_page m).1.
Proof. unfold close_page. destruct (is_none _); quiet_solve. Qed.

Lemma close_settings_quiet m : quiet m (close_settings m).
Proof. unfold close_settings. destruct (negb _); quiet_solve. Qed.

Lemma close_actions_quiet m : quiet m (close_actions m).
Proof. unfold close_actions. destruct (negb _); quiet_solve. Qed.

Lemma dismiss_quiet m : quiet m (dismiss m).
Proof. unfold dismiss. destruct (negb _) eqn:E; quiet_solve. Qed.

Lemma select_quiet m t : quiet m (select m t).
Proof. unfold select. destruct (checked_sub _ _); [|quiet_solve]. destruct (_ =? _); quiet_solve. Qed.

Lemma open_settings_quiet m focus : quiet m (open_settings m focus).1.
Proof. unfold open_settings. destruct (_ && _); quiet_solve. Qed.

Lemma clear_web_quiet m id : quiet m (clear_web_frame m id).1.
Proof.
  unfold clear_web_frame. destruct (page m) as [p|] eqn:Ep; [|quiet_solve]. destruct (negb (bool_decide _)); [quiet_solve|].
  destruct (is_some (web_frame p) || is_some (web_caret_area p)) eqn:E; cbn [negb fst]; [quiet_solve|].
  apply orb_false_iff in E as [E1 E2]. intros Hv Hd. split_and!; [done..|]. unfold shown. cbn. rewrite Ep. do 2 f_equal.
  destruct p as [pp pi pn pf ps pa pw pwf pg pc]. cbn in *. unfold update. cbn. by destruct pwf, pc.
Qed.

Lemma apply_quiet m c : quiet m (apply m c).1.
Proof.
  unfold apply. destruct (negb (visible m) && _); [quiet_solve|]. destruct c; cbn [fst]; try quiet_solve; try apply select_quiet.
  - apply retype_quiet.
  - unfold complete. destruct (row_at _ _); [|quiet_solve]. destruct (text_eqb _ _); quiet_solve.
  - unfold open_actions. destruct (actions_open m); [quiet_solve|]. destruct (negb _); quiet_solve.
  - unfold execute_selected. destruct (_ ≫= _); [apply close_actions_quiet | quiet_solve].
  - unfold execute_selected. destruct (_ ≫= _); [apply close_actions_quiet | quiet_solve].
  - unfold cancel. destruct (is_some (page m)); [apply close_page_quiet|]. destruct (settings_open m); [apply close_settings_quiet|].
    destruct (actions_open m); [apply close_actions_quiet|]. destruct (query m); [apply dismiss_quiet | apply retype_quiet].
  - apply dismiss_quiet.
  - pose proof (open_settings_quiet m None) as Hq. by destruct (open_settings m None).
  - apply close_settings_quiet.
  - apply close_page_quiet.
Qed.

Lemma call_quiet m c : c <> CallFrame -> quiet m (call m c).
Proof.
  intros Hne. destruct c; cbn [call]; try done.
  - unfold activate. destruct (visible m); quiet_solve.
  - apply dismiss_quiet.
  - unfold begin_generation. destruct (_ || _); quiet_solve.
  - unfold publish. destruct (_ || _); quiet_solve.
  - apply apply_quiet.
  - unfold set_selected_status. destruct (row_at _ _); [|quiet_solve]. case_bool_decide; quiet_solve.
  - unfold set_settings. case_bool_decide; quiet_solve.
  - unfold set_show_hints. destruct (Bool.eqb _ _); quiet_solve.
  - unfold set_rounded_corners. destruct (Bool.eqb _ _); quiet_solve.
  - apply open_settings_quiet.
  - apply close_settings_quiet.
  - unfold open_page. destruct (negb _); quiet_solve.
  - unfold update_page. destruct (page m); [|quiet_solve]. destruct (_ <? _); [quiet_solve|]. destruct (_ && _); quiet_solve.
  - unfold declare_web_surface. destruct (page m); [|quiet_solve]. destruct (_ || _); [quiet_solve|]. case_bool_decide; quiet_solve.
  - unfold update_web_frame. destruct (page m); [|quiet_solve]. destruct (_ || _); quiet_solve.
  - apply clear_web_quiet.
  - unfold update_web_caret_area. destruct (page m); [|quiet_solve]. destruct (_ || _); quiet_solve.
  - apply close_page_quiet.
Qed.

Lemma watch_quiet s c : (visible s.1 = true -> dirty s.1 = false -> s.2 = Some (shown s.1)) ->
  visible (watch s c).1 = true -> dirty (watch s c).1 = false -> (watch s c).2 = Some (shown (watch s c).1).
Proof.
  intros Hs. assert (c = CallFrame \/ c <> CallFrame) as [->|Hc] by (destruct c; auto).
  - cbn. unfold frame. destruct (negb (visible s.1) || negb (dirty s.1)) eqn:E; cbn; [|done]. exact Hs.
  - intros Hv Hd. destruct (call_quiet s.1 c Hc Hv Hd) as (Hv' & Hd' & E). cbn in *. rewrite E. rewrite <- Hs by done. by destruct c.
Qed.

(** C16: the screen is current.  After any sequence of calls, a launcher that is
    showing and has nothing new for the renderer looks exactly like the newest
    frame it handed out; otherwise the next frame is the state as it is.  A
    hidden launcher hands out nothing, and no frame is handed out twice. *)
Theorem screen_current cs :
  let (m, last_frame) := foldl watch (new, None) cs in
  m = calls new cs /\
  (visible m = true -> dirty m = false -> last_frame = Some (shown m)) /\
  (frame m).2 = (if visible m && dirty m then Some (shown m) else None) /\
  (frame (frame m).1).2 = None.
Proof.
  assert (H : forall s, (visible s.1 = true -> dirty s.1 = false -> s.2 = Some (shown s.1)) ->
    (foldl watch s cs).1 = calls s.1 cs /\ (visible (foldl watch s cs).1 = true -> dirty (foldl watch s cs).1 = false -> (foldl watch s cs).2 = Some (shown (foldl watch s cs).1))).
  { induction cs as [|c cs IH]; intros s Hs; [done|]. cbn [foldl calls]. destruct (IH (watch s c) (watch_quiet s c Hs)) as [-> ?]. done. }
  destruct (H (new, None)) as [E Hq]; [done|]. destruct (foldl watch (new, None) cs) as [m last_frame]. cbn in E, Hq. split_and!; [done | done | |].
  - unfold frame. destruct (visible m), (dirty m); done.
  - unfold frame. destruct (visible m) eqn:Ev, (dirty m) eqn:Ed; cbn; rewrite ?Ev, ?Ed; try done; cbn; by rewrite Ev.
Qed.

(** * Backing out *)

(** What [Cancel] has to back out of. *)
Definition rungs (m : LauncherViewModel) : nat :=
  ((if is_some (page m) || settings_open m then 1 else 0) + (if actions_open m then 1 else 0) + match query m with [] => 0 | _ => 1 end)%nat.

Definition cancels (n : nat) (m : LauncherViewModel) : LauncherViewModel := Nat.iter n (fun m => (apply m Cancel).1) m.

Lemma apply_cancel m : visible m = true -> apply m Cancel = cancel m.
Proof. intros Hv. unfold apply. by rewrite Hv. Qed.

Lemma cancel_rung m : launcher_ok m -> visible m = true ->
  match rungs m with
  | O => visible (cancel m).1 = false /\ (cancel m).2 = Some Dismissed
  | S n => visible (cancel m).1 = true /\ rungs (cancel m).1 = n
  end.
Proof.
  intros Hm Hv. pose proof (lo_surfaces m Hm) as Hs. destruct m as [v d q r s n a pd so st sf pg sh rc fl ac pu]. cbn in Hv, Hs. subst v.
  unfold rungs, cancel, close_page, close_settings, close_actions, retype, dismiss. cbn [page settings_open actions_open query visible].
  destruct pg as [p|]; cbn [is_some is_some_and is_none negb orb].
  - destruct so; [specialize (Hs eq_refl); congruence|]. cbn. split; [done | by destruct a, q].
  - destruct so; [cbn; split; [done | by destruct a, q]|]. destruct a; [cbn; split; [done | by destruct q]|]. destruct q; done.
Qed.

(** C34: Escape always gets out.  From every visible launcher a sequence of calls
    leaves, pressing Cancel backs out one open thing at a time, page or settings
    first, then the action list, then the query, and closes the launcher with
    the press after that: at most four presses, and not one earlier. *)
Theorem cancel_gets_out cs :
  Forall call_ok cs -> visible (calls new cs) = true ->
  let m := calls new cs in
  (rungs m <= 3)%nat /\ (forall k, (k <= rungs m)%nat -> visible (cancels k m) = true /\ rungs (cancels k m) = (rungs m - k)%nat) /\
  visible (cancels (S (rungs m)) m) = false /\ (apply (cancels (rungs m) m) Cancel).2 = Some Dismissed.
Proof.
  intros Hcs Hv m. assert (Hm : launcher_ok m) by (apply calls_ok; [apply new_ok | done]). change (visible m = true) in Hv. clearbody m. clear Hcs cs.
  split; [unfold rungs; destruct (_ || _), (actions_open m), (query m); lia|].
  assert (H : forall k, (k <= rungs m)%nat -> launcher_ok (cancels k m) /\ visible (cancels k m) = true /\ rungs (cancels k m) = (rungs m - k)%nat).
  { induction k as [|k IH]; intros Hk; [split_and!; [done | done | cbn; lia]|]. destruct IH as (Ho & Hvk & Hrk); [lia|].
    change (cancels (S k) m) with (apply (cancels k m) Cancel).1. split; [by apply apply_ok|]. pose proof (cancel_rung _ Ho Hvk) as Hc. rewrite apply_cancel by done.
    rewrite Hrk in Hc. destruct (rungs m - k)%nat as [|n] eqn:En; [lia|]. destruct Hc as [? ->]. split; [done | lia]. }
  split; [intros k Hk; split; by apply (H k)|]. destruct (H (rungs m) ltac:(lia)) as (Ho & Hvk & Hrk). pose proof (cancel_rung _ Ho Hvk) as Hc. rewrite Hrk, Nat.sub_diag in Hc.
  change (cancels (S (rungs m)) m) with (apply (cancels (rungs m) m) Cancel).1. rewrite apply_cancel by done. done.
Qed.

(** * Consistency *)

(** C15: the launcher never contradicts itself.  After any sequence of calls: a
    hidden launcher holds no query, rows, page or pending results (its settings may
    have been opened ahead of its next appearance); settings and a
    page are never both open; the selection is on a row whenever there is one; an
    open action list belongs to the selected row and is not empty; pixels on show
    are complete, belong to the engine surface declared last and are the newest
    accepted.  And no command drops a page without the effect that ends the
    plugin's session. *)
Theorem launcher_consistent cs :
  Forall call_ok cs ->
  launcher_ok (calls new cs) /\
  forall command, page (calls new cs) <> None -> page (apply (calls new cs) command).1 = None ->
    (apply (calls new cs) command).2 = Some EffectClosePage \/ (apply (calls new cs) command).2 = Some Dismissed.
Proof.
  intros Hcs. assert (Hm : launcher_ok (calls new cs)) by (apply calls_ok; [apply new_ok | done]). split; [done|]. generalize dependent (calls new cs). clear.
  intros m Hm command Hp Hn. assert (Hv : visible m = true) by (destruct (visible m) eqn:Ev; [done|]; destruct (lo_hidden m Hm Ev) as (_ & _ & _ & _ & _ & _ & ? & _); congruence).
  destruct (page m) as [p|] eqn:Ep; [|done]. revert Hn. unfold apply. rewrite Hv. cbn [negb andb].
  assert (Hact : page (close_actions m) = page m) by (unfold close_actions; by destruct (negb _)).
  assert (Hsel : forall t, page (select m t) = page m) by (intros t; unfold select; destruct (checked_sub _ _); [destruct (_ =? _)|]; done).
  destruct command; cbn [fst snd]; rewrite ?Hsel; try congruence; try (by auto).
  - unfold retype. destruct (text_eqb _ _); cbn [fst]; [congruence|]. destruct typed; cbn; congruence.
  - unfold complete. destruct (row_at _ _); [|cbn; congruence]. destruct (text_eqb _ _); cbn; congruence.
  - unfold open_actions. destruct (actions_open m); [congruence|]. destruct (negb _); cbn; congruence.
  - unfold execute_selected. destruct (_ ≫= _); cbn [fst]; congruence.
  - unfold execute_selected. destruct (_ ≫= _); cbn [fst]; congruence.
  - unfold cancel. rewrite Ep. cbn. auto.
  - unfold open_settings. pose proof (lo_surfaces m Hm) as Hs. destruct (settings_open m); [specialize (Hs eq_refl); congruence|]. cbn. rewrite Ep. cbn. auto.
  - unfold close_settings. destruct (negb _); cbn; congruence.
Qed.

(** * Witnesses *)

Definition sample_row (id : ItemId) (label : string) : ResultRow :=
  mkRow id label "" None None "application" "apps" [] None None
    (Some (mkAction "open" "Open" "" [] None HostMediated)) [mkAction "reveal" "Reveal" "" [] None HostMediated]%string.

Definition typed_once : list LauncherCall :=
  [CallActivate; CallApply (SetQuery (ascii "fi")); CallBegin 1;
   CallPublish 1 [sample_row "files" "Files"; sample_row "fire" "Firefox"]%string true; CallApply SelectNext; CallApply ShowActions].

Lemma launcher_consistent_witness : launcher_ok (calls new typed_once).
Proof. refine (proj1 (launcher_consistent typed_once _)). repeat constructor. Defined.

(** The second generation is begun, and the launcher dismissed and shown again. *)
Definition reopened : list LauncherCall := typed_once ++ [CallBegin 2; CallDismiss; CallActivate].

Lemma late_results_discarded_witness :
  publish (calls new reopened) 1 [sample_row "late" "Late"] false = calls new reopened /\ active (calls new reopened) <> Some 1 /\
  begun_last (typed_once ++ [CallBegin 2]) 2.
Proof.
  assert (Hok : forall cs, Forall call_ok (typed_once ++ cs) <-> Forall call_ok cs) by (intros cs; rewrite Forall_app; split; [tauto | split; [repeat constructor | done]]).
  destruct (late_results_discarded reopened 1) as (H1 & _ & H3); [apply Hok; repeat constructor|].
  assert (Ha : active (calls new reopened) <> Some 1) by (apply (H3 typed_once (CallBegin 2) [CallDismiss; CallActivate]); [reflexivity | reflexivity | discriminate]).
  split; [exact (H1 Ha _ _)|]. split; [exact Ha|].
  destruct (late_results_discarded (typed_once ++ [CallBegin 2]) 2) as (_ & H2 & _); [apply Hok; repeat constructor|]. apply H2. reflexivity.
Defined.

Lemma cancel_gets_out_witness : rungs (calls new typed_once) = 2%nat /\ visible (cancels 3 (calls new typed_once)) = false.
Proof.
  destruct (cancel_gets_out typed_once) as (_ & _ & H & _); [repeat constructor | reflexivity|]. split; [reflexivity | exact H].
Defined.

(** Completing from a row without a label empties the query but not the list, and
    Enter still runs the row: an edit to the empty query drops the rows, this one
    does not. *)
Lemma completing_unlabelled_row :
  let m := calls new [CallActivate; CallApply (SetQuery (ascii "fi")); CallBegin 1; CallPublish 1 [sample_row "files" ""]%string false; CallApply Complete] in
  query m = [] /\ rows m = [sample_row "files" ""]%string /\ (apply m ExecuteDefault).2 = Some (Execute "files" "open")%string.
Proof. by vm_compute. Qed.
