(* ===== verification/Calculator.v ===== *)
(** The built-in calculator, [crikey-cli/src/calculator.rs]: a tokenizer on bytes,
    a recursive-descent parser that evaluates as it goes, the rendering of a
    value, and the row a query earns.

    The methods of the parser call each other on ever fewer tokens; they run on
    fuel, [None] when it is used up, and [evaluate] gives them enough.  An [f64]
    is a [spec_float] at binary64 precision.  The functions whose precision Rust
    leaves to the platform ([powf], the logarithms, [exp], [cbrt] and the
    trigonometric functions) are the class [Libm]. *)

From Stdlib Require Import SpecFloat.
From S2P Require Import Prelude Text StdFloat Utf8 Generation Items Page View.

(** * Arithmetic of [f64] *)

Definition f64_add (x y : f64) : f64 := SFadd f64_precision f64_emax x y.
Definition f64_sub (x y : f64) : f64 := SFsub f64_precision f64_emax x y.
Definition f64_mul (x y : f64) : f64 := SFmul f64_precision f64_emax x y.
Definition f64_div (x y : f64) : f64 := SFdiv f64_precision f64_emax x y.
Definition f64_sqrt (x : f64) : f64 := SFsqrt f64_precision f64_emax x.
Definition f64_zero : f64 := S754_zero false.

Definition signed (negative : bool) (n : Z) : Z := if negative then - n else n.

(** The float of [n * 2 ^ e], with the sign a zero keeps. *)
Definition f64_of_scaled (negative : bool) (n e : Z) : f64 := binary_normalize f64_precision f64_emax (signed negative n) e negative.

(** [%]: the remainder of the truncated quotient, with the sign of the dividend;
    it is exact. *)
Definition f64_rem (x y : f64) : f64 :=
  match x, y with
  | S754_nan, _ | _, S754_nan | S754_infinity _, _ | _, S754_zero _ => S754_nan
  | S754_zero _, _ | _, S754_infinity _ => x
  | S754_finite s mx ex, S754_finite _ my ey =>
      let e := Z.min ex ey in
      let r := (Z.pos mx * 2 ^ (ex - e)) mod (Z.pos my * 2 ^ (ey - e)) in
      if r =? 0 then S754_zero s else f64_of_scaled s r e
  end.

(** Rounding to an integer: [round] maps the magnitude [m / 2 ^ k]. *)
Definition f64_round_with (round : bool -> Z -> Z -> Z) (x : f64) : f64 :=
  match x with
  | S754_finite s m e => if 0 <=? e then x else f64_of_scaled s (round s (Z.pos m) (- e)) 0
  | _ => x
  end.

Definition round_down (m k : Z) : Z := m / 2 ^ k.
Definition round_up (m k : Z) : Z := - ((- m) / 2 ^ k).

Definition f64_floor : f64 -> f64 := f64_round_with (fun negative => if negative then round_up else round_down).
Definition f64_ceil : f64 -> f64 := f64_round_with (fun negative => if negative then round_down else round_up).
(** Half-way cases away from zero. *)
Definition f64_round : f64 -> f64 := f64_round_with (fun _ m k => (2 * m + 2 ^ k) / 2 ^ (k + 1)).

(** The functions of unspecified precision. *)
Class Libm := {
  powf : f64 -> f64 -> f64;
  cbrt : f64 -> f64;
  ln : f64 -> f64;
  log10 : f64 -> f64;
  log2 : f64 -> f64;
  exp : f64 -> f64;
  sin : f64 -> f64;
  cos : f64 -> f64;
  tan : f64 -> f64;
  asin : f64 -> f64;
  acos : f64 -> f64;
  atan : f64 -> f64;
}.

(** [std::f64::consts]. *)
Definition PI : f64 := f64_of_decimal false 314159265358979323846264338327950288 (-35).
Definition E : f64 := f64_of_decimal false 271828182845904523536028747135266250 (-35).
Definition TAU : f64 := f64_of_decimal false 628318530717958647692528676655900577 (-35).

(** * Data *)

Definition CALCULATOR_PLUGIN : string := "builtin.crikey.calculator".
Definition COPY_ACTION_ID : string := "crikey.calculator.copy".
Definition FRACTION_DIGITS : Z := 10.

Inductive CalculationError : Type :=
| Empty
| UnexpectedCharacter
| ExpectedOperand
| UnbalancedParentheses
| TrailingInput
| MalformedNumber
| DivisionByZero
| NotFinite
| NotACalculation.

Record Calculation := mkCalculation { value : f64; implied_closers : nat }.

Inductive Token : Type :=
| Number (v : f64)
| Identifier (name : text)
| Plus
| Minus
| Star
| Slash
| Percent
| Caret
| OpenParenthesis
| CloseParenthesis
| Comma.

(** [finite]. *)
Definition finite (v : f64) : result f64 CalculationError := if f64_is_finite v then Ok v else Err NotFinite.

(** * Tokens *)

Definition is_identifier_start (b : Z) : bool := between 97 122 b || between 65 90 b || (b =? 95).
Definition is_identifier_byte (b : Z) : bool := is_identifier_start b || is_ascii_digit b.

(** The bytes of a numeric literal, and the rest. *)
Definition number_literal (bytes : list Z) : result (list Z * list Z) CalculationError :=
  let (whole, rest) := span is_ascii_digit bytes in
  match rest with
  | c :: after =>
      if c =? 46 then
        let (fraction, rest) := span is_ascii_digit after in
        if bool_decide (fraction = []) then Err MalformedNumber else Ok (whole ++ c :: fraction, rest)
      else Ok (whole, rest)
  | [] => Ok (whole, [])
  end.

Definition number_token (bytes : list Z) : result (Token * list Z) CalculationError :=
  let? (literal, rest) := number_literal bytes in
  match parse_f64 literal with
  | None => Err MalformedNumber
  | Some v => let? v := finite v in Ok (Number v, rest)
  end.

(** One turn of the loop of [tokenize] at the byte [b]: the token, unless the
    byte is a blank, and the bytes after it. *)
Definition next_token (b : Z) (rest : list Z) : result (option Token * list Z) CalculationError :=
  if (b =? 32) || (b =? 9) then Ok (None, rest)
  else if is_identifier_start b then
    let (name, rest) := span is_identifier_byte rest in Ok (Some (Identifier (map ascii_lower (b :: name))), rest)
  else if b =? 43 then Ok (Some Plus, rest)
  else if b =? 45 then Ok (Some Minus, rest)
  else if b =? 42 then
    match rest with
    | c :: after => if c =? 42 then Ok (Some Caret, after) else Ok (Some Star, rest)
    | [] => Ok (Some Star, [])
    end
  else if b =? 47 then Ok (Some Slash, rest)
  else if b =? 37 then Ok (Some Percent, rest)
  else if b =? 94 then Ok (Some Caret, rest)
  else if b =? 40 then Ok (Some OpenParenthesis, rest)
  else if b =? 41 then Ok (Some CloseParenthesis, rest)
  else if b =? 44 then Ok (Some Comma, rest)
  else if is_ascii_digit b || (b =? 46) then
    let? (token, rest) := number_token (b :: rest) in Ok (Some token, rest)
  else Err UnexpectedCharacter.

Fixpoint tokenize_loop (fuel : nat) (bytes : list Z) : option (result (list Token) CalculationError) :=
  match fuel, bytes with
  | _, [] => Some (Ok [])
  | O, _ => None
  | S fuel, b :: rest =>
      match next_token b rest with
      | Err e => Some (Err e)
      | Ok (token, rest) =>
          tokens ← tokenize_loop fuel rest;
          Some (let? tokens := tokens in Ok (option_list token ++ tokens))
      end
  end.

Definition tokenize (query : string) : option (result (list Token) CalculationError) :=
  tokenize_loop (length (as_bytes query)) (as_bytes query).

(** * The parser *)

Record Parser := mkParser {
  position : nat;
  binary_operations : nat;
  informative_atom : bool;
  p_implied_closers : nat;
}.
#[export] Instance eta_Parser : Eta Parser := fun p =>
  mkParser (position p) (binary_operations p) (informative_atom p) (p_implied_closers p).

Definition advance (p : Parser) : Parser := p <| position ::= S |>.
Definition binary (p : Parser) : Parser := advance p <| binary_operations ::= S |>.

Definition constant (name : text) : option f64 :=
  if text_eqb name (ascii "pi") then Some PI
  else if text_eqb name (ascii "e") then Some E
  else if text_eqb name (ascii "tau") then Some TAU
  else None.

Section parser.
Context {M : Libm}.

Definition functions : list (string * (f64 -> f64)) :=
  [("sqrt", f64_sqrt); ("cbrt", cbrt); ("abs", SFabs); ("ln", ln); ("log", log10); ("log2", log2); ("exp", exp);
   ("floor", f64_floor); ("ceil", f64_ceil); ("round", f64_round); ("sin", sin); ("cos", cos); ("tan", tan);
   ("asin", asin); ("acos", acos); ("atan", atan)]%string.

(** The [match] on the name of a function. *)
Definition function_named (name : text) : option (f64 -> f64) :=
  snd <$> List.find (fun f => text_eqb name (ascii f.1)) functions.

Definition multiply (operator : Token) (v right : f64) : result f64 CalculationError :=
  match operator with
  | Star => Ok (f64_mul v right)
  | Slash => if SFeqb right f64_zero then Err DivisionByZero else Ok (f64_div v right)
  | _ => if SFeqb right f64_zero then Err DivisionByZero else Ok (f64_rem v right)
  end.

Variable tokens : list Token.

Definition peek (p : Parser) : option Token := tokens !! position p.

Definition close_group (p : Parser) : result Parser CalculationError :=
  match peek p with
  | Some CloseParenthesis => Ok (advance p)
  | None => Ok (p <| p_implied_closers ::= S |>)
  | Some _ => Err UnbalancedParentheses
  end.

(** What a method of the parser returns. *)
Abbreviation parsed := (option (result (f64 * Parser) CalculationError)).

(** [?] inside a method. *)
Definition and_then (r : parsed) (k : f64 -> Parser -> parsed) : parsed :=
  match r with Some (Ok (v, p)) => k v p | _ => r end.

Definition closed (v : f64) (p : Parser) : parsed := Some (let? p := close_group p in Ok (v, p)).

(** The end of a function call: its [close_group], and the function's value. *)
Definition call_function (name : text) (argument : f64) (p : Parser) : parsed :=
  Some (let? p := close_group p in
        match function_named name with
        | None => Err UnexpectedCharacter
        | Some f => let? v := finite (f argument) in Ok (v, p <| informative_atom := true |>)
        end).

Fixpoint expression (fuel : nat) (p : Parser) : parsed :=
  match fuel with
  | O => None
  | S fuel => and_then (term fuel p) (expression_loop fuel)
  end
with expression_loop (fuel : nat) (v : f64) (p : Parser) : parsed :=
  match fuel with
  | O => None
  | S fuel =>
      let operation f :=
        and_then (term fuel (binary p)) (fun right p => match finite (f v right) with Ok v => expression_loop fuel v p | Err e => Some (Err e) end) in
      match peek p with
      | Some Plus => operation f64_add
      | Some Minus => operation f64_sub
      | _ => Some (Ok (v, p))
      end
  end
with term (fuel : nat) (p : Parser) : parsed :=
  match fuel with
  | O => None
  | S fuel => and_then (unary fuel p) (term_loop fuel)
  end
with term_loop (fuel : nat) (v : f64) (p : Parser) : parsed :=
  match fuel with
  | O => None
  | S fuel =>
      match peek p with
      | Some (Star | Slash | Percent) as operator =>
          and_then (unary fuel (binary p)) (fun right p =>
            match (let? v := multiply (default Star operator) v right in finite v) with
            | Ok v => term_loop fuel v p
            | Err e => Some (Err e)
            end)
      | _ => Some (Ok (v, p))
      end
  end
with unary (fuel : nat) (p : Parser) : parsed :=
  match fuel with
  | O => None
  | S fuel =>
      match peek p with
      | Some Minus => and_then (unary fuel (advance p)) (fun v p => Some (Ok (SFopp v, p)))
      | Some Plus => unary fuel (advance p)
      | _ => power fuel p
      end
  end
with power (fuel : nat) (p : Parser) : parsed :=
  match fuel with
  | O => None
  | S fuel =>
      and_then (atom fuel p) (fun base p =>
        match peek p with
        | Some Caret => and_then (unary fuel (binary p)) (fun exponent p => Some (let? v := finite (powf base exponent) in Ok (v, p)))
        | _ => Some (Ok (base, p))
        end)
  end
with atom (fuel : nat) (p : Parser) : parsed :=
  match fuel with
  | O => None
  | S fuel =>
      match peek p with
      | Some (Number v) => Some (Ok (v, advance p))
      | Some OpenParenthesis => and_then (expression fuel (advance p)) closed
      | Some (Identifier name) =>
          let p := advance p in
          match constant name with
          | Some v => Some (Ok (v, p <| informative_atom := true |>))
          | None =>
              match peek p with
              | Some OpenParenthesis => and_then (expression fuel (advance p)) (call_function name)
              | _ => Some (Err UnexpectedCharacter)
              end
          end
      | _ => Some (Err ExpectedOperand)
      end
  end.

End parser.

(** * Evaluation *)

Section calculator.
Context {M : Libm}.

(** Enough for any parse of [n] tokens. *)
Definition parse_fuel (n : nat) : nat := 6 * n + 5.

Definition new_parser : Parser := mkParser 0 0 false 0.

(** [evaluate] after the tokenizer. *)
Definition evaluate_tokens (tokens : list Token) : option (result Calculation CalculationError) :=
  match tokens with
  | [] => Some (Err Empty)
  | _ =>
      outcome ← expression tokens (parse_fuel (length tokens)) new_parser;
      Some (let? (v, p) := outcome in
            match tokens !! position p with
            | Some CloseParenthesis => Err UnbalancedParentheses
            | Some _ => Err TrailingInput
            | None =>
                if (binary_operations p =? 0)%nat && negb (informative_atom p) then Err NotACalculation
                else let? v := finite v in Ok (mkCalculation v (p_implied_closers p))
            end)
  end.

Definition evaluate (query : string) : option (result Calculation CalculationError) :=
  tokens ← tokenize query;
  match tokens with Ok tokens => evaluate_tokens tokens | Err e => Some (Err e) end.

(** ** Rendering *)

(** The nearest integer to [n / d], ties to even. *)
Definition div_nearest (n d : Z) : Z :=
  let q := n / d in
  let r := n mod d in
  if (2 * r <? d) || ((2 * r =? d) && Z.even q) then q else q + 1.

(** The digits after the point: [n] in [width] places. *)
Fixpoint fixed_digits (width : nat) (n : Z) : text :=
  match width with
  | O => []
  | S width => fixed_digits width (n / 10) ++ [48 + n mod 10]
  end.

(** The magnitude of a finite float in units of the last digit kept. *)
Definition scaled_magnitude (m e : Z) : Z :=
  if 0 <=? e then m * 2 ^ e * 10 ^ FRACTION_DIGITS else div_nearest (m * 10 ^ FRACTION_DIGITS) (2 ^ (- e)).

(** [format!("{:.10}")]. *)
Definition format_fixed (v : f64) : text :=
  let render negative n :=
    (if negative : bool then [45] else []) ++ decimal_digits (n / 10 ^ FRACTION_DIGITS) ++ 46
      :: fixed_digits (Z.to_nat FRACTION_DIGITS) (n mod 10 ^ FRACTION_DIGITS) in
  match v with
  | S754_nan => ascii "NaN"
  | S754_infinity negative => (if negative then [45] else []) ++ ascii "inf"
  | S754_zero negative => render negative 0
  | S754_finite negative m e => render negative (scaled_magnitude (Z.pos m) e)
  end.

Fixpoint drop_leading (c : Z) (t : text) : text :=
  match t with
  | c' :: rest => if c' =? c then drop_leading c rest else t
  | [] => []
  end.

(** [str::trim_end_matches] of a character. *)
Definition trim_end_matches (c : Z) (t : text) : text := reverse (drop_leading c (reverse t)).

Definition format_value (v : f64) : text :=
  let v := if SFeqb v f64_zero then f64_zero else v in
  trim_end_matches 46 (trim_end_matches 48 (format_fixed v)).

(** ** The calculator *)

Record PublishedResult := mkPublished { generation : Generation; item : ItemId; result_text : string }.

(** The trait [Clipboard], reduced to what is asked of it: what a transfer answers. *)
Record Calculator := mkCalculator {
  owner : PluginId;
  clipboard : option (string -> result unit string);
  published : option PublishedResult;
}.
#[export] Instance eta_Calculator : Eta Calculator := fun c => mkCalculator (owner c) (clipboard c) (published c).

Definition new_calculator (c : option (string -> result unit string)) : Calculator := mkCalculator CALCULATOR_PLUGIN c None.

Definition copy_action : Action := {|
  action_id := COPY_ACTION_ID;
  action_label := "Copy result";
  action_description := "Copies the result to the clipboard";
  applicable_categories := [Expression];
  action_icon_reference := None;
  execution_policy := HostMediated;
|}%string.

(** [str::trim] of a string. *)
Definition trim_string (s : string) : string := string_of_bytes (utf8 (trim (chars s))).

Definition closers (n : nat) : string := string_of_bytes (replicate n 41).

(** [Calculator::rows]; [None] only if the fuel of [evaluate] were used up. *)
Definition rows (c : Calculator) (g : Generation) (query : string) : option (Calculator * list ResultRow) :=
  let typed := trim_string query in
  outcome ← evaluate typed;
  match outcome with
  | Err _ => Some (c <| published := None |>, [])
  | Ok calculation =>
      let echo := (typed +:+ closers (implied_closers calculation)) in
      let rendered := string_of_bytes (format_value (value calculation)) in
      let id := derived (owner c) Expression echo in
      Some (c <| published := Some (mkPublished g id rendered) |>,
            [{| row_item := id; row_label := rendered; row_description := echo; row_icon_reference := None; row_icon := None;
                row_category := category_as_str Expression; row_plugin_name := owner c; row_highlights := [];
                row_argument_hint := None; row_status := None; row_default_action := Some copy_action;
                row_alternate_actions := [] |}])
  end.

(** [Calculator::resolve]. *)
Definition resolve (c : Calculator) (g : Generation) (id : ItemId) : option string :=
  p ← published c;
  if bool_decide (generation p = g) && bool_decide (item p = id) then Some (result_text p) else None.

(** [Calculator::copy]. *)
Definition copy (c : Calculator) (t : string) : result unit string :=
  match clipboard c with
  | None => Err "this session has no clipboard service"%string
  | Some write_text => write_text t
  end.

End calculator.
