(* ===== verification/CalculatorGrammar.v ===== *)
(** The grammar of the calculator, and that its parser accepts it: an inductive
    definition of the documented grammar with the value of an expression; every
    method of the parser returns, accepts only expressions of its kind
    ([methods_sound]) and reads every one of them up to what follows
    ([methods_complete]), open groups being closed by the end of the input. *)

From Stdlib Require Import SpecFloat.
From S2P Require Import Prelude Text StdFloat Utf8 Generation Items Page View Calculator.

(** * The grammar *)

Inductive Expr : Type :=
| Literal (v : f64)
| Constant (v : f64)
| Call (name : text) (argument : Expr)
| Negate (e : Expr)
| Operate (operator : Token) (l r : Expr).

Inductive Nonterminal : Type := NExpression | NTerm | NUnary | NPower | NAtom.

(** The documented grammar, on the tokens: sums and products group to the left,
    powers to the right, and a power binds tighter than the sign before it. *)
Inductive derives : Nonterminal -> list Token -> Expr -> Prop :=
| expression_term w e : derives NTerm w e -> derives NExpression w e
| expression_operation w1 w2 op e1 e2 :
    op ∈ [Plus; Minus] -> derives NExpression w1 e1 -> derives NTerm w2 e2 -> derives NExpression (w1 ++ op :: w2) (Operate op e1 e2)
| term_unary w e : derives NUnary w e -> derives NTerm w e
| term_operation w1 w2 op e1 e2 :
    op ∈ [Star; Slash; Percent] -> derives NTerm w1 e1 -> derives NUnary w2 e2 -> derives NTerm (w1 ++ op :: w2) (Operate op e1 e2)
| unary_minus w e : derives NUnary w e -> derives NUnary (Minus :: w) (Negate e)
| unary_plus w e : derives NUnary w e -> derives NUnary (Plus :: w) e
| unary_power w e : derives NPower w e -> derives NUnary w e
| power_atom w e : derives NAtom w e -> derives NPower w e
| power_operation w1 w2 e1 e2 : derives NAtom w1 e1 -> derives NUnary w2 e2 -> derives NPower (w1 ++ Caret :: w2) (Operate Caret e1 e2)
| atom_number v : derives NAtom [Number v] (Literal v)
| atom_group w e : derives NExpression w e -> derives NAtom (OpenParenthesis :: w ++ [CloseParenthesis]) e
| atom_constant name v : constant name = Some v -> derives NAtom [Identifier name] (Constant v)
| atom_call name w e :
    constant name = None -> derives NExpression w e ->
    derives NAtom (Identifier name :: OpenParenthesis :: w ++ [CloseParenthesis]) (Call name e).

(** How many binary operators an expression has, and whether it has a constant or
    a call: the two things that make it a calculation. *)
Fixpoint operations (e : Expr) : nat :=
  match e with
  | Literal _ | Constant _ => 0
  | Call _ e | Negate e => operations e
  | Operate _ l r => S (operations l + operations r)
  end.

Fixpoint has_name (e : Expr) : bool :=
  match e with
  | Literal _ => false
  | Constant _ | Call _ _ => true
  | Negate e => has_name e
  | Operate _ l r => has_name l || has_name r
  end.

Definition informative (e : Expr) : bool := negb (operations e =? 0)%nat || has_name e.

Section calculator.
Context {M : Libm}.

Definition apply_operator (op : Token) (a b : f64) : result f64 CalculationError :=
  match op with
  | Plus => finite (f64_add a b)
  | Minus => finite (f64_sub a b)
  | Caret => finite (powf a b)
  | _ => let? v := multiply op a b in finite v
  end.

(** The value of an expression: operands from left to right, the first error. *)
Fixpoint eval (e : Expr) : result f64 CalculationError :=
  match e with
  | Literal v | Constant v => Ok v
  | Call name e =>
      let? v := eval e in
      match function_named name with Some f => finite (f v) | None => Err UnexpectedCharacter end
  | Negate e => let? v := eval e in Ok (SFopp v)
  | Operate op l r => let? a := eval l in let? b := eval r in apply_operator op a b
  end.

(** * Parsing *)

Section parsing.
Variable tokens : list Token.

Abbreviation parsed := (option (result (f64 * Parser) CalculationError)).

Definition remaining (p : Parser) : nat := length tokens - position p.

(** The tokens to come when [k] groups are left for the end of input to close. *)
Definition ahead (k : nat) (p : Parser) : list Token :=
  drop (position p) tokens ++ replicate (k - p_implied_closers p) CloseParenthesis.

(** Groups are closed by the end of input only there. *)
Definition at_end_if_implied (p : Parser) : Prop := (p_implied_closers p = 0 \/ length tokens <= position p)%nat.

(** How the methods are called, by what they parse. *)
Definition parse (n : Nonterminal) : nat -> Parser -> parsed :=
  match n with
  | NExpression => expression tokens
  | NTerm => term tokens
  | NUnary => unary tokens
  | NPower => power tokens
  | NAtom => atom tokens
  end.

Definition rank (n : Nonterminal) : nat := match n with NExpression => 5 | NTerm => 4 | NUnary => 3 | NPower => 2 | NAtom => 1 end.

(** ** The equations of the methods *)

Lemma expression_S fuel p : expression tokens (S fuel) p = and_then (term tokens fuel p) (expression_loop tokens fuel).
Proof. reflexivity. Qed.

Lemma term_S fuel p : term tokens (S fuel) p = and_then (unary tokens fuel p) (term_loop tokens fuel).
Proof. reflexivity. Qed.

Definition sum_step (fuel : nat) (f : f64 -> f64 -> f64) (v : f64) (p : Parser) : parsed :=
  and_then (term tokens fuel (binary p)) (fun right p =>
    match finite (f v right) with Ok v => expression_loop tokens fuel v p | Err e => Some (Err e) end).

Lemma expression_loop_S fuel v p :
  expression_loop tokens (S fuel) v p =
  match peek tokens p with Some Plus => sum_step fuel f64_add v p | Some Minus => sum_step fuel f64_sub v p | _ => Some (Ok (v, p)) end.
Proof. reflexivity. Qed.

Definition product_step (fuel : nat) (op : Token) (v : f64) (p : Parser) : parsed :=
  and_then (unary tokens fuel (binary p)) (fun right p =>
    match (let? v := multiply op v right in finite v) with Ok v => term_loop tokens fuel v p | Err e => Some (Err e) end).

Lemma term_loop_S fuel v p :
  term_loop tokens (S fuel) v p =
  match peek tokens p with Some (Star | Slash | Percent) as op => product_step fuel (default Star op) v p | _ => Some (Ok (v, p)) end.
Proof. reflexivity. Qed.

Lemma term_loop_operator fuel op v p :
  op ∈ [Star; Slash; Percent] -> peek tokens p = Some op -> term_loop tokens (S fuel) v p = product_step fuel op v p.
Proof. intros Hop Ep. rewrite term_loop_S, Ep. rewrite !elem_of_cons in Hop. by destruct Hop as [->|[->|[->|?%elem_of_nil]]]. Qed.

Lemma unary_S fuel p :
  unary tokens (S fuel) p =
  match peek tokens p with
  | Some Minus => and_then (unary tokens fuel (advance p)) (fun v p => Some (Ok (SFopp v, p)))
  | Some Plus => unary tokens fuel (advance p)
  | _ => power tokens fuel p
  end.
Proof. reflexivity. Qed.

Definition power_step (fuel : nat) (base : f64) (p : Parser) : parsed :=
  match peek tokens p with
  | Some Caret => and_then (unary tokens fuel (binary p)) (fun exponent p => Some (let? v := finite (powf base exponent) in Ok (v, p)))
  | _ => Some (Ok (base, p))
  end.

Lemma power_S fuel p : power tokens (S fuel) p = and_then (atom tokens fuel p) (power_step fuel).
Proof. reflexivity. Qed.

Lemma atom_S fuel p :
  atom tokens (S fuel) p =
  match peek tokens p with
  | Some (Number v) => Some (Ok (v, advance p))
  | Some OpenParenthesis => and_then (expression tokens fuel (advance p)) (closed tokens)
  | Some (Identifier name) =>
      match constant name with
      | Some v => Some (Ok (v, advance p <| informative_atom := true |>))
      | None =>
          match peek tokens (advance p) with
          | Some OpenParenthesis => and_then (expression tokens fuel (advance (advance p))) (call_function tokens name)
          | _ => Some (Err UnexpectedCharacter)
          end
      end
  | _ => Some (Err ExpectedOperand)
  end.
Proof. reflexivity. Qed.

(** ** The state of the parser *)

(** From [p] to [p'] over the tokens [w], among them [o] binary operators, with or
    without a name. *)
Record passes (p : Parser) (w : list Token) (o : nat) (i : bool) (p' : Parser) : Prop := {
  ps_ahead k : (p_implied_closers p' <= k)%nat -> ahead k p = w ++ ahead k p';
  ps_implied : (p_implied_closers p <= p_implied_closers p')%nat;
  ps_position : (position p <= position p')%nat;
  ps_end : at_end_if_implied p -> at_end_if_implied p';
  ps_binary : binary_operations p' = (binary_operations p + o)%nat;
  ps_informative : informative_atom p' = informative_atom p || i;
}.

Lemma passes_app p w1 o1 i1 p1 w2 o2 i2 p2 :
  passes p w1 o1 i1 p1 -> passes p1 w2 o2 i2 p2 -> passes p (w1 ++ w2) (o1 + o2) (i1 || i2) p2.
Proof.
  intros [] []. split; [|lia|lia|auto|lia|rewrite orb_assoc; congruence].
  intros k Hk. rewrite <- app_assoc, <- ps_ahead1 by done. apply ps_ahead0. lia.
Qed.

Lemma passes_advance p t : peek tokens p = Some t -> passes p [t] 0 false (advance p).
Proof.
  intros Hp. split; cbn; [|lia|lia|unfold at_end_if_implied; cbn; lia|lia|by rewrite orb_false_r].
  intros k _. unfold ahead. cbn. by rewrite (drop_S _ _ _ Hp).
Qed.

Lemma passes_binary p t : peek tokens p = Some t -> passes p [t] 1 false (binary p).
Proof. intros Hp%passes_advance. destruct Hp. split; try done. cbn. lia. Qed.

Lemma passes_close p p' : close_group tokens p = Ok p' -> passes p [CloseParenthesis] 0 false p'.
Proof.
  unfold close_group. destruct (peek tokens p) as [t|] eqn:Hp.
  - destruct t; try done. intros [= <-]. by apply passes_advance.
  - intros [= <-]. apply lookup_ge_None in Hp. split; cbn; [|lia|lia|by right|lia|by rewrite orb_false_r].
    intros k Hk. unfold ahead. cbn. rewrite drop_ge by done. cbn.
    by replace (k - p_implied_closers p)%nat with (S (k - S (p_implied_closers p))) by lia.
Qed.

Lemma remaining_step p t : peek tokens p = Some t -> (remaining (advance p) < remaining p)%nat.
Proof. intros Hp%lookup_lt_Some. unfold remaining. cbn. lia. Qed.

Lemma remaining_binary p t : peek tokens p = Some t -> (remaining (binary p) < remaining p)%nat.
Proof. apply remaining_step. Qed.

Lemma remaining_passes p w o i p' : passes p w o i p' -> (remaining p' <= remaining p)%nat.
Proof. intros []. unfold remaining. lia. Qed.

(** ** What the methods accept is in the grammar *)

(** The call returns, and what it accepts after [p] is an expression [Q] with its value. *)
Definition accepts (p : Parser) (Q : list Token -> Expr -> Prop) (r : parsed) : Prop :=
  exists o, r = Some o /\
    forall v p', o = Ok (v, p') -> exists w e, Q w e /\ eval e = Ok v /\ passes p w (operations e) (has_name e) p'.

Lemma accepts_err p Q x : accepts p Q (Some (Err x)).
Proof. by exists (Err x). Qed.

Lemma accepts_ok p (Q : list Token -> Expr -> Prop) w e v p' :
  Q w e -> eval e = Ok v -> passes p w (operations e) (has_name e) p' -> accepts p Q (Some (Ok (v, p'))).
Proof. intros ???. eexists. split; [done|]. intros ? ? [= <- <-]. eauto. Qed.

Lemma accepts_then q Q r p R k :
  accepts q Q r ->
  (forall v q' w e, Q w e -> eval e = Ok v -> passes q w (operations e) (has_name e) q' -> accepts p R (k v q')) ->
  accepts p R (and_then r k).
Proof.
  intros ([[v q']|x] & -> & Ho) Hk; cbn; [|apply accepts_err].
  destruct (Ho v q' eq_refl) as (w & e & HQ & He & Hq). exact (Hk v q' w e HQ He Hq).
Qed.

Lemma passes_shape p w w' o o' i i' p' : passes p w o i p' -> w = w' -> o = o' -> i = i' -> passes p w' o' i' p'.
Proof. by intros ? -> -> ->. Qed.

(** All methods are sound on every fuel that is enough for the tokens left. *)
Definition sound_upto (fuel : nat) : Prop :=
  (forall n p, (6 * remaining p + rank n <= fuel)%nat -> accepts p (derives n) (parse n fuel p)) /\
  (forall p0 p w e v, (6 * remaining p + 1 <= fuel)%nat -> derives NExpression w e -> eval e = Ok v ->
     passes p0 w (operations e) (has_name e) p -> accepts p0 (derives NExpression) (expression_loop tokens fuel v p)) /\
  (forall p0 p w e v, (6 * remaining p + 1 <= fuel)%nat -> derives NTerm w e -> eval e = Ok v ->
     passes p0 w (operations e) (has_name e) p -> accepts p0 (derives NTerm) (term_loop tokens fuel v p)).

Lemma expression_sound fuel p : sound_upto fuel -> (6 * remaining p + 5 <= S fuel)%nat -> accepts p (derives NExpression) (expression tokens (S fuel) p).
Proof.
  intros (IH & IHe & _) Hf. rewrite expression_S. apply (accepts_then p (derives NTerm)); [apply (IH NTerm); cbn; lia|].
  intros v q w e Hd He Hq. pose proof (remaining_passes _ _ _ _ _ Hq). apply (IHe p q w e v); [lia | by constructor | done | done].
Qed.

Lemma term_sound fuel p : sound_upto fuel -> (6 * remaining p + 4 <= S fuel)%nat -> accepts p (derives NTerm) (term tokens (S fuel) p).
Proof.
  intros (IH & _ & IHt) Hf. rewrite term_S. apply (accepts_then p (derives NUnary)); [apply (IH NUnary); cbn; lia|].
  intros v q w e Hd He Hq. pose proof (remaining_passes _ _ _ _ _ Hq). apply (IHt p q w e v); [lia | by constructor | done | done].
Qed.

Lemma unary_sound fuel p : sound_upto fuel -> (6 * remaining p + 3 <= S fuel)%nat -> accepts p (derives NUnary) (unary tokens (S fuel) p).
Proof.
  intros (IH & _) Hf. rewrite unary_S. assert (Hpow : accepts p (derives NUnary) (power tokens fuel p)).
  { destruct (IH NPower p) as (o & Eo & Ho); [cbn; lia|]. exists o. split; [exact Eo|]. intros v q E. destruct (Ho v q E) as (w & e & ? & ? & ?).
    exists w, e. split; [by constructor | done]. }
  destruct (peek tokens p) as [[]|] eqn:Ep; try exact Hpow; pose proof (remaining_step _ _ Ep).
  - destruct (IH NUnary (advance p)) as (o & Eo & Ho); [cbn; lia|]. exists o. split; [exact Eo|]. intros v q E.
    destruct (Ho v q E) as (w & e & ? & ? & Hq). exists (Plus :: w), e. split; [by constructor | split; [done|]].
    exact (passes_app _ _ _ _ _ _ _ _ _ (passes_advance _ _ Ep) Hq).
  - apply (accepts_then (advance p) (derives NUnary)); [apply (IH NUnary); cbn; lia|]. intros v q w e Hd He Hq.
    apply (accepts_ok p _ (Minus :: w) (Negate e)); [by constructor | cbn [eval]; by rewrite He |].
    exact (passes_app _ _ _ _ _ _ _ _ _ (passes_advance _ _ Ep) Hq).
Qed.

Lemma power_sound fuel p : sound_upto fuel -> (6 * remaining p + 2 <= S fuel)%nat -> accepts p (derives NPower) (power tokens (S fuel) p).
Proof.
  intros (IH & _) Hf. rewrite power_S. apply (accepts_then p (derives NAtom)); [apply (IH NAtom); cbn; lia|].
  intros v q w e Hd He Hq. pose proof (remaining_passes _ _ _ _ _ Hq). unfold power_step.
  assert (Hat : accepts p (derives NPower) (Some (Ok (v, q)))) by (apply (accepts_ok p _ w e); [by constructor | done..]).
  destruct (peek tokens q) as [[]|] eqn:Ep; try exact Hat. pose proof (remaining_binary _ _ Ep).
  apply (accepts_then (binary q) (derives NUnary)); [apply (IH NUnary); cbn [rank]; lia|].
  intros v2 q2 w2 e2 Hd2 He2 Hq2. destruct (finite (powf v v2)) as [x|x] eqn:Ex; [|apply accepts_err].
  apply (accepts_ok p _ (w ++ Caret :: w2) (Operate Caret e e2)); [by apply power_operation | cbn [eval]; by rewrite He, He2 |].
  eapply passes_shape; [exact (passes_app _ _ _ _ _ _ _ _ _ Hq (passes_app _ _ _ _ _ _ _ _ _ (passes_binary _ _ Ep) Hq2))|done|cbn; lia|done].
Qed.

Lemma passes_informative p w o i p' : passes p w o i p' -> passes p w o true (p' <| informative_atom := true |>).
Proof. intros []. split; try done. cbn. by rewrite orb_true_r. Qed.

Lemma call_sound p q name w e v :
  peek tokens p = Some (Identifier name) -> peek tokens (advance p) = Some OpenParenthesis -> constant name = None ->
  derives NExpression w e -> eval e = Ok v -> passes (advance (advance p)) w (operations e) (has_name e) q ->
  accepts p (derives NAtom) (call_function tokens name v q).
Proof.
  intros Ep Ep2 Ec Hd He Hq. unfold call_function.
  destruct (close_group tokens q) as [q'|x] eqn:Eq; [|apply accepts_err]. destruct (function_named name) as [f|] eqn:Ef; [|apply accepts_err].
  destruct (finite (f v)) as [y|y] eqn:Ey; [|apply accepts_err].
  apply (accepts_ok p _ (Identifier name :: OpenParenthesis :: w ++ [CloseParenthesis]) (Call name e)); [by constructor | cbn [eval]; by rewrite He, Ef|].
  apply (passes_informative p _ _ (false || (false || (has_name e || false)))).
  eapply passes_shape; [exact (passes_app _ _ _ _ _ _ _ _ _ (passes_advance _ _ Ep) (passes_app _ _ _ _ _ _ _ _ _ (passes_advance _ _ Ep2) (passes_app _ _ _ _ _ _ _ _ _ Hq (passes_close _ _ Eq))))|done|cbn; lia|done].
Qed.

Lemma atom_sound fuel p : sound_upto fuel -> (6 * remaining p + 1 <= S fuel)%nat -> accepts p (derives NAtom) (atom tokens (S fuel) p).
Proof.
  intros (IH & _) Hf. rewrite atom_S. destruct (peek tokens p) as [[v|name| | | | | | | | |]|] eqn:Ep; try apply accepts_err; pose proof (remaining_step _ _ Ep).
  - apply (accepts_ok p _ [Number v] (Literal v)); [constructor | done | by apply passes_advance].
  - destruct (constant name) as [v|] eqn:Ec.
    + apply (accepts_ok p _ [Identifier name] (Constant v)); [by constructor | done|]. eapply passes_informative, (passes_advance _ _ Ep).
    + destruct (peek tokens (advance p)) as [[]|] eqn:Ep2; try apply accepts_err. pose proof (remaining_step _ _ Ep2).
      apply (accepts_then (advance (advance p)) (derives NExpression)); [apply (IH NExpression); cbn [rank]; lia|].
      intros v q w e. by apply call_sound.
  - apply (accepts_then (advance p) (derives NExpression)); [apply (IH NExpression); cbn [rank]; lia|]. intros v q w e Hd He Hq. unfold closed.
    destruct (close_group tokens q) as [q'|x] eqn:Eq; [|apply accepts_err].
    apply (accepts_ok p _ (OpenParenthesis :: w ++ [CloseParenthesis]) e); [by constructor | done|].
    eapply passes_shape; [exact (passes_app _ _ _ _ _ _ _ _ _ (passes_advance _ _ Ep) (passes_app _ _ _ _ _ _ _ _ _ Hq (passes_close _ _ Eq)))|done|lia|by rewrite orb_false_r].
Qed.

Lemma sum_step_sound fuel p0 p w e v op f :
  sound_upto fuel -> (6 * remaining p + 1 <= S fuel)%nat -> derives NExpression w e -> eval e = Ok v ->
  passes p0 w (operations e) (has_name e) p -> op ∈ [Plus; Minus] -> (forall a b, apply_operator op a b = finite (f a b)) ->
  peek tokens p = Some op -> accepts p0 (derives NExpression) (sum_step fuel f v p).
Proof.
  intros (IH & IHe & _) Hf Hd He Hp Hin Hap Ep. pose proof (remaining_binary _ _ Ep). apply (accepts_then (binary p) (derives NTerm)).
  { apply (IH NTerm). cbn [rank]. lia. }
  intros v2 q2 w2 e2 Hd2 He2 Hq2. destruct (finite (f v v2)) as [y|y] eqn:Ey; [|apply accepts_err]. pose proof (remaining_passes _ _ _ _ _ Hq2).
  apply (IHe p0 q2 (w ++ op :: w2) (Operate op e e2) y); [lia | by apply expression_operation | cbn [eval]; by rewrite He, He2; cbn; rewrite Hap |].
  eapply passes_shape; [exact (passes_app _ _ _ _ _ _ _ _ _ Hp (passes_app _ _ _ _ _ _ _ _ _ (passes_binary _ _ Ep) Hq2))|done|cbn; lia|done].
Qed.

Lemma apply_product op v b : op ∈ [Star; Slash; Percent] -> apply_operator op v b = (let? u := multiply op v b in finite u).
Proof. rewrite !elem_of_cons. by intros [->|[->|[->|?%elem_of_nil]]]. Qed.

Lemma product_step_sound fuel p0 p w e v op :
  sound_upto fuel -> (6 * remaining p + 1 <= S fuel)%nat -> derives NTerm w e -> eval e = Ok v ->
  passes p0 w (operations e) (has_name e) p -> op ∈ [Star; Slash; Percent] ->
  peek tokens p = Some op -> accepts p0 (derives NTerm) (product_step fuel op v p).
Proof.
  intros (IH & _ & IHt) Hf Hd He Hp Hin Ep. pose proof (remaining_binary _ _ Ep). apply (accepts_then (binary p) (derives NUnary)).
  { apply (IH NUnary). cbn [rank]. lia. }
  intros v2 q2 w2 e2 Hd2 He2 Hq2. destruct (let? v := multiply op v v2 in finite v) as [y|y] eqn:Ey; [|apply accepts_err].
  pose proof (remaining_passes _ _ _ _ _ Hq2).
  apply (IHt p0 q2 (w ++ op :: w2) (Operate op e e2) y); [lia | by apply term_operation | cbn [eval]; by rewrite He, He2, <- Ey, apply_product |].
  eapply passes_shape; [exact (passes_app _ _ _ _ _ _ _ _ _ Hp (passes_app _ _ _ _ _ _ _ _ _ (passes_binary _ _ Ep) Hq2))|done|cbn; lia|done].
Qed.

Lemma methods_sound fuel : sound_upto fuel.
Proof.
  induction fuel as [|fuel IH]; [split_and!; intros; try destruct n; cbn in *; lia|]. split_and!.
  - intros n p Hf. destruct n; cbn [parse rank] in *;
      [by apply expression_sound | by apply term_sound | by apply unary_sound | by apply power_sound | by apply atom_sound].
  - intros p0 p w e v Hf Hd He Hp. rewrite expression_loop_S.
    assert (Hat : accepts p0 (derives NExpression) (Some (Ok (v, p)))) by (by apply (accepts_ok p0 _ w e)).
    destruct (peek tokens p) as [[]|] eqn:Ep; try exact Hat;
      [apply (sum_step_sound fuel p0 p w e v Plus) | apply (sum_step_sound fuel p0 p w e v Minus)]; (done || set_solver).
  - intros p0 p w e v Hf Hd He Hp. rewrite term_loop_S.
    assert (Hat : accepts p0 (derives NTerm) (Some (Ok (v, p)))) by (by apply (accepts_ok p0 _ w e)).
    destruct (peek tokens p) as [[]|] eqn:Ep; try exact Hat; apply (product_step_sound fuel p0 p w e v); (done || set_solver).
Qed.

(** ** What is in the grammar is accepted *)

(** The operators that would carry an expression of each kind on, past its loop. *)
Definition continues (n : Nonterminal) : list Token :=
  match n with NExpression => [Star; Slash; Percent; Caret] | NTerm | NUnary | NPower => [Caret] | NAtom => [] end.

Definition stops (l : list Token) (rest : list Token) : Prop := forall t, head rest = Some t -> t ∉ l.

(** What is left of a method when its expression is parsed. *)
Definition loop_of (n : Nonterminal) (fuel : nat) (v : f64) (p : Parser) : parsed :=
  match n with
  | NExpression => expression_loop tokens fuel v p
  | NTerm => term_loop tokens fuel v p
  | _ => Some (Ok (v, p))
  end.

Record ready (k : nat) (p : Parser) (l : list Token) : Prop := {
  rd_ahead : ahead k p = l;
  rd_implied : (p_implied_closers p <= k)%nat;
  rd_end : at_end_if_implied p;
}.

(** The method reads [w] and goes on as [loop_of], or fails as the expression does. *)
Definition reads (n : Nonterminal) (w : list Token) (e : Expr) : Prop :=
  forall k fuel p rest, ready k p (w ++ rest) -> (6 * remaining p + rank n <= fuel)%nat -> stops (continues n) rest ->
    match eval e with
    | Err x => parse n fuel p = Some (Err x)
    | Ok v => exists fuel' p', (6 * remaining p' + 1 <= fuel')%nat /\ parse n fuel p = loop_of n fuel' v p' /\
        passes p w (operations e) (has_name e) p' /\ ready k p' rest
    end.

Lemma ready_passes k p w o i p' rest : ready k p (w ++ rest) -> passes p w o i p' -> (p_implied_closers p' <= k)%nat -> ready k p' rest.
Proof.
  intros [Ha Hi He] Hp Hk. pose proof Hp as []. split; [|done|auto]. rewrite ps_ahead0 in Ha by done. by apply app_inv_head in Ha.
Qed.

Lemma ready_peek k p t rest : ready k p (t :: rest) -> t <> CloseParenthesis -> peek tokens p = Some t /\ ready k (advance p) rest.
Proof.
  intros Hr Ht. assert (Hp : peek tokens p = Some t).
  { destruct Hr as [Ha _ _]. unfold ahead, peek in *. destruct (drop (position p) tokens) as [|t' l] eqn:E.
    - destruct (k - _)%nat; cbn in Ha; congruence.
    - injection Ha as -> _. by rewrite <- (Nat.add_0_r (position p)), <- lookup_drop, E. }
  split; [done|]. apply (ready_passes k p [t] 0 false); [done | by apply passes_advance | by destruct Hr].
Qed.

Lemma ready_head k p rest t : ready k p rest -> peek tokens p = Some t -> head rest = Some t.
Proof. intros [<- _ _] Hp. unfold ahead. by rewrite (drop_S _ _ _ Hp). Qed.

Lemma ready_close k p rest : ready k p (CloseParenthesis :: rest) ->
  exists p', close_group tokens p = Ok p' /\ passes p [CloseParenthesis] 0 false p' /\ ready k p' rest.
Proof.
  intros Hr. pose proof Hr as [Ha Hi _]. assert (H : exists p', close_group tokens p = Ok p' /\ (p_implied_closers p' <= k)%nat).
  { unfold close_group. destruct (peek tokens p) as [t|] eqn:Hp.
    - pose proof (ready_head _ _ _ _ Hr Hp) as [= <-]. eauto.
    - eexists. split; [done|]. cbn. unfold ahead, peek in *. apply lookup_ge_None in Hp. rewrite drop_ge in Ha by done. cbn in Ha.
      destruct (k - p_implied_closers p)%nat eqn:E; [done|lia]. }
  destruct H as (p' & Ec & Hk). exists p'. pose proof (passes_close _ _ Ec). split_and!; [done | done|].
  by apply (ready_passes k p [CloseParenthesis] 0 false).
Qed.

Lemma stops_cons l t rest : t ∉ l -> stops l (t :: rest).
Proof. by intros Ht ? [= <-]. Qed.

Lemma stops_sub l l' rest : stops l rest -> (forall t, t ∈ l' -> t ∈ l) -> stops l' rest.
Proof. intros Hs Hl t Ht Hin. by apply (Hs t Ht), Hl. Qed.

(** A loop that is not carried on is done. *)
Lemma expression_loop_done k fuel v p rest :
  ready k p rest -> stops [Plus; Minus] rest -> (1 <= fuel)%nat -> expression_loop tokens fuel v p = Some (Ok (v, p)).
Proof.
  intros Hr Hs Hf. destruct fuel as [|fuel]; [lia|]. rewrite expression_loop_S. destruct (peek tokens p) as [t|] eqn:Ep; [|done].
  pose proof (Hs t (ready_head _ _ _ _ Hr Ep)) as Ht. destruct t; (done || set_solver).
Qed.

Lemma term_loop_done k fuel v p rest :
  ready k p rest -> stops [Star; Slash; Percent] rest -> (1 <= fuel)%nat -> term_loop tokens fuel v p = Some (Ok (v, p)).
Proof.
  intros Hr Hs Hf. destruct fuel as [|fuel]; [lia|]. rewrite term_loop_S. destruct (peek tokens p) as [t|] eqn:Ep; [|done].
  pose proof (Hs t (ready_head _ _ _ _ Hr Ep)) as Ht. destruct t; (done || set_solver).
Qed.

Lemma reads_term_unary w e : reads NUnary w e -> reads NTerm w e.
Proof.
  intros H k fuel p rest Hr Hf Hs. destruct fuel as [|fuel]; [cbn in Hf; lia|]. specialize (H k fuel p rest Hr ltac:(cbn in *; lia) Hs).
  cbn [parse loop_of] in *. rewrite term_S. destruct (eval e) as [v|x]; [|by rewrite H].
  destruct H as (fuel' & p' & _ & -> & Hp & Hr'). exists fuel, p'. pose proof (remaining_passes _ _ _ _ _ Hp). split_and!; [cbn in Hf; lia | done..].
Qed.

Lemma reads_expression_term w e : reads NTerm w e -> reads NExpression w e.
Proof.
  intros H k fuel p rest Hr Hf Hs. destruct fuel as [|fuel]; [cbn in Hf; lia|].
  specialize (H k fuel p rest Hr ltac:(cbn in *; lia) ltac:(eapply stops_sub; [exact Hs | cbn; set_solver])).
  cbn [parse loop_of] in *. rewrite expression_S. destruct (eval e) as [v|x]; [|by rewrite H].
  destruct H as (fuel' & p' & Hf' & -> & Hp & Hr'). exists fuel, p'. pose proof (remaining_passes _ _ _ _ _ Hp).
  rewrite (term_loop_done k fuel' v p' rest) by (done || lia || (eapply stops_sub; [exact Hs | cbn; set_solver])).
  split_and!; [cbn in Hf; lia | done..].
Qed.

(** One turn of the loop of sums. *)
Lemma sum_turn k fuel v p w e op f rest :
  op ∈ [Plus; Minus] -> (forall a b, apply_operator op a b = finite (f a b)) -> reads NTerm w e ->
  ready k p (op :: w ++ rest) -> (6 * remaining p + 1 <= S fuel)%nat -> stops (continues NExpression) rest ->
  match (let? b := eval e in apply_operator op v b) with
  | Err x => sum_step fuel f v p = Some (Err x)
  | Ok v' => exists p', (6 * remaining p' + 1 <= fuel)%nat /\ sum_step fuel f v p = expression_loop tokens fuel v' p' /\
      passes p (op :: w) (S (operations e)) (has_name e) p' /\ ready k p' rest
  end.
Proof.
  intros Hop Hap H Hr Hf Hs. destruct (ready_peek k p op (w ++ rest) Hr) as [Ep Hr1]; [by intros ->; set_solver|].
  pose proof (remaining_binary _ _ Ep) as Hlt. assert (Hb : ready k (binary p) (w ++ rest)) by (by destruct Hr1).
  specialize (H k fuel (binary p) rest Hb ltac:(cbn [rank]; lia) ltac:(eapply stops_sub; [exact Hs | cbn; set_solver])).
  unfold sum_step. cbn [parse loop_of] in H. destruct (eval e) as [b|x]; [|by rewrite H]. destruct H as (fuel' & p' & Hf' & -> & Hp & Hr').
  rewrite (term_loop_done k fuel' b p' rest) by (done || lia || (eapply stops_sub; [exact Hs | cbn; set_solver])). cbn [and_then]. rewrite Hap.
  destruct (finite (f v b)) as [v'|x]; [|done]. exists p'. pose proof (remaining_passes _ _ _ _ _ Hp).
  split_and!; [lia | done | exact (passes_app _ _ _ _ _ _ _ _ _ (passes_binary _ _ Ep) Hp) | done].
Qed.

(** One turn of the loop of products. *)
Lemma product_turn k fuel v p w e op rest :
  op ∈ [Star; Slash; Percent] -> reads NUnary w e ->
  ready k p (op :: w ++ rest) -> (6 * remaining p + 1 <= S fuel)%nat -> stops (continues NTerm) rest ->
  match (let? b := eval e in apply_operator op v b) with
  | Err x => product_step fuel op v p = Some (Err x)
  | Ok v' => exists p', (6 * remaining p' + 1 <= fuel)%nat /\ product_step fuel op v p = term_loop tokens fuel v' p' /\
      passes p (op :: w) (S (operations e)) (has_name e) p' /\ ready k p' rest
  end.
Proof.
  intros Hop H Hr Hf Hs. destruct (ready_peek k p op (w ++ rest) Hr) as [Ep Hr1]; [by intros ->; set_solver|].
  pose proof (remaining_binary _ _ Ep) as Hlt. assert (Hb : ready k (binary p) (w ++ rest)) by (by destruct Hr1).
  specialize (H k fuel (binary p) rest Hb ltac:(cbn [rank]; lia) Hs).
  unfold product_step. cbn [parse loop_of] in H. destruct (eval e) as [b|x]; [|by rewrite H]. destruct H as (fuel' & p' & _ & -> & Hp & Hr').
  cbn [and_then]. rewrite apply_product by done. destruct (let? u := multiply op v b in finite u) as [v'|x]; [|done]. exists p'.
  pose proof (remaining_passes _ _ _ _ _ Hp).
  split_and!; [lia | done | exact (passes_app _ _ _ _ _ _ _ _ _ (passes_binary _ _ Ep) Hp) | done].
Qed.

Lemma reads_sum w1 w2 op e1 e2 :
  op ∈ [Plus; Minus] -> reads NExpression w1 e1 -> reads NTerm w2 e2 -> reads NExpression (w1 ++ op :: w2) (Operate op e1 e2).
Proof.
  intros Hop H1 H2 k fuel p rest Hr Hf Hs. rewrite <- app_assoc in Hr.
  specialize (H1 k fuel p _ Hr Hf ltac:(apply stops_cons; set_solver)). cbn [eval]. destruct (eval e1) as [v|x]; [|done].
  destruct H1 as (fuel1 & p1 & Hf1 & -> & Hp1 & Hr1). destruct fuel1 as [|fuel1]; [lia|]. cbn [loop_of]. rewrite expression_loop_S.
  destruct (ready_peek k p1 op _ Hr1) as [-> _]; [intros ->; set_solver|].
  assert (exists f, (forall a b, apply_operator op a b = finite (f a b)) /\
    match op with Plus => sum_step fuel1 f64_add v p1 | Minus => sum_step fuel1 f64_sub v p1 | _ => Some (Ok (v, p1)) end = sum_step fuel1 f v p1) as (f & Hap & ->).
  { rewrite !elem_of_cons in Hop. destruct Hop as [->|[->|?%elem_of_nil]]; [by exists f64_add | by exists f64_sub | done]. }
  pose proof (sum_turn k fuel1 v p1 w2 e2 op f rest Hop Hap H2 Hr1 Hf1 Hs) as Ht.
  destruct (let? b := eval e2 in apply_operator op v b) as [v'|x]; [|done]. destruct Ht as (p' & Hf' & -> & Hp' & Hr').
  exists fuel1, p'. split_and!; [done | done | | done].
  eapply passes_shape; [exact (passes_app _ _ _ _ _ _ _ _ _ Hp1 Hp') | done | cbn; lia | done].
Qed.

Lemma reads_product w1 w2 op e1 e2 :
  op ∈ [Star; Slash; Percent] -> reads NTerm w1 e1 -> reads NUnary w2 e2 -> reads NTerm (w1 ++ op :: w2) (Operate op e1 e2).
Proof.
  intros Hop H1 H2 k fuel p rest Hr Hf Hs. rewrite <- app_assoc in Hr.
  specialize (H1 k fuel p _ Hr Hf ltac:(apply stops_cons; set_solver)). cbn [eval]. destruct (eval e1) as [v|x]; [|done].
  destruct H1 as (fuel1 & p1 & Hf1 & -> & Hp1 & Hr1). destruct fuel1 as [|fuel1]; [lia|]. cbn [loop_of]. 
  destruct (ready_peek k p1 op _ Hr1) as [Ep _]; [intros ->; set_solver|]. rewrite (term_loop_operator _ op) by done.
  pose proof (product_turn k fuel1 v p1 w2 e2 op rest Hop H2 Hr1 Hf1 Hs) as Ht.
  destruct (let? b := eval e2 in apply_operator op v b) as [v'|x]; [|done]. destruct Ht as (p' & Hf' & -> & Hp' & Hr').
  exists fuel1, p'. split_and!; [done | done | | done].
  eapply passes_shape; [exact (passes_app _ _ _ _ _ _ _ _ _ Hp1 Hp') | done | cbn; lia | done].
Qed.

Lemma reads_sign w e : reads NUnary w e -> reads NUnary (Minus :: w) (Negate e).
Proof.
  intros H k fuel p rest Hr Hf Hs. destruct fuel as [|fuel]; [cbn in Hf; lia|]. destruct (ready_peek k p Minus _ Hr) as [Ep Hr1]; [done|].
  pose proof (remaining_step _ _ Ep). specialize (H k fuel (advance p) rest Hr1 ltac:(cbn in *; lia) Hs).
  cbn [parse loop_of eval] in *. rewrite unary_S, Ep. destruct (eval e) as [v|x]; [|by rewrite H].
  destruct H as (fuel' & p' & Hf' & -> & Hp & Hr'). exists fuel', p'.
  split_and!; [done | done | exact (passes_app _ _ _ _ _ _ _ _ _ (passes_advance _ _ Ep) Hp) | done].
Qed.

Lemma reads_plus w e : reads NUnary w e -> reads NUnary (Plus :: w) e.
Proof.
  intros H k fuel p rest Hr Hf Hs. destruct fuel as [|fuel]; [cbn in Hf; lia|]. destruct (ready_peek k p Plus _ Hr) as [Ep Hr1]; [done|].
  pose proof (remaining_step _ _ Ep). specialize (H k fuel (advance p) rest Hr1 ltac:(cbn in *; lia) Hs).
  cbn [parse loop_of] in *. rewrite unary_S, Ep. destruct (eval e) as [v|x]; [|done].
  destruct H as (fuel' & p' & Hf' & -> & Hp & Hr'). exists fuel', p'.
  split_and!; [done | done | exact (passes_app _ _ _ _ _ _ _ _ _ (passes_advance _ _ Ep) Hp) | done].
Qed.

(** What an operand begins with. *)
Definition opens (t : Token) : bool := match t with Number _ | Identifier _ | OpenParenthesis => true | _ => false end.

Lemma atom_opens w e : derives NAtom w e -> exists t w', w = t :: w' /\ opens t = true.
Proof. intros H. inversion H; subst; eauto. Qed.

Lemma power_opens w e : derives NPower w e -> exists t w', w = t :: w' /\ opens t = true.
Proof.
  intros H. inversion H as [| | | | | | |? ? Ha|? w2 ? ? Ha| | | |]; subst; apply atom_opens in Ha as (t & w' & -> & ?); [eauto|].
  exists t, (w' ++ Caret :: w2). done.
Qed.

Lemma reads_power w e : derives NPower w e -> reads NPower w e -> reads NUnary w e.
Proof.
  intros Hd H k fuel p rest Hr Hf Hs. destruct fuel as [|fuel]; [cbn in Hf; lia|]. destruct (power_opens _ _ Hd) as (t & w' & -> & Ht).
  destruct (ready_peek k p t _ Hr) as [Ep _]; [by intros ->|]. specialize (H k fuel p rest Hr ltac:(cbn in *; lia) Hs).
  cbn [parse loop_of] in *. rewrite unary_S, Ep. by destruct t.
Qed.

Lemma reads_atom w e : reads NAtom w e -> reads NPower w e.
Proof.
  intros H k fuel p rest Hr Hf Hs. destruct fuel as [|fuel]; [cbn in Hf; lia|]. specialize (H k fuel p rest Hr ltac:(cbn in *; lia) ltac:(by intros ? _ ?%elem_of_nil)).
  cbn [parse loop_of] in *. rewrite power_S. destruct (eval e) as [v|x]; [|by rewrite H].
  destruct H as (fuel' & p' & Hf' & -> & Hp & Hr'). exists fuel', p'. split_and!; [done | | done | done]. cbn [and_then]. unfold power_step.
  destruct (peek tokens p') as [t|] eqn:Ep; [|done]. pose proof (Hs t (ready_head _ _ _ _ Hr' Ep)). destruct t; (done || set_solver).
Qed.

Lemma reads_caret w1 w2 e1 e2 : reads NAtom w1 e1 -> reads NUnary w2 e2 -> reads NPower (w1 ++ Caret :: w2) (Operate Caret e1 e2).
Proof.
  intros H1 H2 k fuel p rest Hr Hf Hs. rewrite <- app_assoc in Hr. destruct fuel as [|fuel]; [cbn in Hf; lia|].
  specialize (H1 k fuel p _ Hr ltac:(cbn in *; lia) ltac:(by intros ? _ ?%elem_of_nil)). cbn [parse loop_of eval] in *. rewrite power_S.
  destruct (eval e1) as [v|x]; [|by rewrite H1]. destruct H1 as (fuel1 & p1 & _ & -> & Hp1 & Hr1). cbn [and_then]. unfold power_step.
  destruct (ready_peek k p1 Caret _ Hr1) as [Ep Hr2]; [done|]. rewrite Ep. pose proof (remaining_binary _ _ Ep). pose proof (remaining_passes _ _ _ _ _ Hp1).
  assert (Hb : ready k (binary p1) (w2 ++ rest)) by (by destruct Hr2). specialize (H2 k fuel (binary p1) rest Hb ltac:(cbn in *; lia) Hs). cbn [parse loop_of] in H2.
  destruct (eval e2) as [b|x]; [|by rewrite H2]. destruct H2 as (fuel2 & p2 & Hf2 & -> & Hp2 & Hr3). cbn [and_then apply_operator].
  destruct (finite (powf v b)) as [y|y]; [|done]. exists fuel2, p2. split_and!; [done | done | | done].
  eapply passes_shape; [exact (passes_app _ _ _ _ _ _ _ _ _ Hp1 (passes_app _ _ _ _ _ _ _ _ _ (passes_binary _ _ Ep) Hp2)) | done | cbn; lia | done].
Qed.

Lemma reads_number v : reads NAtom [Number v] (Literal v).
Proof.
  intros k fuel p rest Hr Hf _. destruct fuel as [|fuel]; [cbn in Hf; lia|]. destruct (ready_peek k p _ _ Hr) as [Ep Hr1]; [done|].
  cbn [parse loop_of eval]. rewrite atom_S, Ep. exists (S (6 * remaining (advance p))), (advance p). split_and!; [lia | done | by apply passes_advance | done].
Qed.

Lemma ready_informative k p l : ready k p l -> ready k (p <| informative_atom := true |>) l.
Proof. by intros []. Qed.

Lemma reads_constant name v : constant name = Some v -> reads NAtom [Identifier name] (Constant v).
Proof.
  intros Ec k fuel p rest Hr Hf _. destruct fuel as [|fuel]; [cbn in Hf; lia|]. destruct (ready_peek k p _ _ Hr) as [Ep Hr1]; [done|].
  cbn [parse loop_of eval]. rewrite atom_S, Ep, Ec. exists (S (6 * remaining (advance p))), (advance p <| informative_atom := true |>).
  split_and!; [change (6 * remaining (advance p) + 1 <= S (6 * remaining (advance p)))%nat; lia | done | eapply passes_informative, passes_advance, Ep | by apply ready_informative].
Qed.

(** The inside of a group, up to what closes it. *)
Lemma reads_inside w e k fuel p rest :
  reads NExpression w e -> ready k p (w ++ CloseParenthesis :: rest) -> (6 * remaining p + 5 <= fuel)%nat ->
  match eval e with
  | Err x => expression tokens fuel p = Some (Err x)
  | Ok v => exists p1 p', expression tokens fuel p = Some (Ok (v, p1)) /\ close_group tokens p1 = Ok p' /\
      passes p (w ++ [CloseParenthesis]) (operations e) (has_name e) p' /\ ready k p' rest
  end.
Proof.
  intros H Hr Hf. specialize (H k fuel p _ Hr Hf ltac:(apply stops_cons; set_solver)). cbn [parse loop_of] in H. destruct (eval e) as [v|x]; [|done].
  destruct H as (fuel' & p1 & Hf' & -> & Hp & Hr1). rewrite (expression_loop_done k fuel' v p1 _ Hr1) by (lia || (apply stops_cons; set_solver)).
  destruct (ready_close k p1 rest Hr1) as (p' & Ec & Hp' & Hr'). exists p1, p'. split_and!; [done | done | | done].
  eapply passes_shape; [exact (passes_app _ _ _ _ _ _ _ _ _ Hp Hp') | done | lia | by rewrite orb_false_r].
Qed.

Lemma reads_group w e : reads NExpression w e -> reads NAtom (OpenParenthesis :: w ++ [CloseParenthesis]) e.
Proof.
  intros H k fuel p rest Hr Hf _. cbn [app] in Hr. rewrite <- app_assoc in Hr. destruct fuel as [|fuel]; [cbn in Hf; lia|].
  destruct (ready_peek k p _ _ Hr) as [Ep Hr1]; [done|]. pose proof (remaining_step _ _ Ep).
  pose proof (reads_inside w e k fuel (advance p) rest H Hr1 ltac:(cbn in *; lia)) as Hin.
  cbn [parse loop_of]. rewrite atom_S, Ep. destruct (eval e) as [v|x]; [|by rewrite Hin]. destruct Hin as (p1 & p' & -> & Ec & Hp & Hr').
  cbn [and_then]. unfold closed. rewrite Ec. exists (S (6 * remaining p')), p'. split_and!; [lia | done | | done].
  exact (passes_app _ _ _ _ _ _ _ _ _ (passes_advance _ _ Ep) Hp).
Qed.

Lemma reads_call name w e :
  constant name = None -> reads NExpression w e -> reads NAtom (Identifier name :: OpenParenthesis :: w ++ [CloseParenthesis]) (Call name e).
Proof.
  intros Ec H k fuel p rest Hr Hf _. cbn [app] in Hr. rewrite <- app_assoc in Hr. destruct fuel as [|fuel]; [cbn in Hf; lia|].
  destruct (ready_peek k p _ _ Hr) as [Ep Hr1]; [done|]. pose proof (remaining_step _ _ Ep).
  destruct (ready_peek k (advance p) _ _ Hr1) as [Ep2 Hr2]; [done|]. pose proof (remaining_step _ _ Ep2).
  pose proof (reads_inside w e k fuel (advance (advance p)) rest H Hr2 ltac:(cbn in *; lia)) as Hin.
  cbn [parse loop_of eval]. rewrite atom_S, Ep, Ec, Ep2. destruct (eval e) as [v|x]; [|by rewrite Hin]. destruct Hin as (p1 & p' & -> & Eq & Hp & Hr').
  cbn [and_then]. unfold call_function. rewrite Eq. destruct (function_named name) as [f|]; [|done]. destruct (finite (f v)) as [y|y]; [|done].
  exists (S (6 * remaining p')), (p' <| informative_atom := true |>).
  split_and!; [change (6 * remaining p' + 1 <= S (6 * remaining p'))%nat; lia | done | | by apply ready_informative].
  eapply passes_informative, (passes_app _ _ _ _ _ _ _ _ _ (passes_advance _ _ Ep) (passes_app _ _ _ _ _ _ _ _ _ (passes_advance _ _ Ep2) Hp)).
Qed.

#[local] Hint Resolve reads_expression_term reads_sum reads_term_unary reads_product reads_sign reads_plus reads_power reads_atom reads_caret
  reads_number reads_group reads_constant reads_call : core.

Lemma methods_complete n w e : derives n w e -> reads n w e.
Proof. induction 1; eauto. Qed.

End parsing.

End calculator.
