(* ===== verification/CalculatorFacts.v ===== *)
(** What the calculator promises: a query is answered exactly when it is a
    sentence of the documented grammar, groups open at its end closed, that
    computes something; the value is the one the grammar gives it; the text shown
    is the nearest decimal of ten places; and a row shows the expression it
    answers. *)

From Stdlib Require Import SpecFloat.
From S2P Require Import Prelude Text StdFloat Utf8 Generation Items Page View Calculator CalculatorGrammar.

Section calculator.
Context {M : Libm}.

(** * Evaluating *)

Lemma derives_opens n w e : derives n w e -> exists t w', w = t :: w' /\ t <> CloseParenthesis.
Proof.
  induction 1; try (by eauto); try (by eexists _, _); destruct IHderives1 as (t & w' & -> & Ht); eexists _, _; done.
Qed.

(** Literals the tokenizer accepts are finite, and so is every value. *)
Definition token_finite (t : Token) : bool := match t with Number v => f64_is_finite v | _ => true end.

Lemma finite_ok v v' : finite v = Ok v' <-> v' = v /\ f64_is_finite v = true.
Proof. unfold finite. destruct (f64_is_finite v); split; [intros [= ->] | intros [-> _] | done | intros [_ ?]]; done. Qed.

Lemma constant_finite name v : constant name = Some v -> f64_is_finite v = true.
Proof.
  unfold constant. destruct (text_eqb _ _); [|destruct (text_eqb _ _); [|destruct (text_eqb _ _); [|done]]]; intros H%Some_inj; rewrite <- H; vm_compute; reflexivity.
Qed.

Lemma apply_operator_finite op a b v : apply_operator op a b = Ok v -> f64_is_finite v = true.
Proof.
  assert (H : forall x, finite x = Ok v -> f64_is_finite v = true) by (by intros x [-> ?]%finite_ok).
  unfold apply_operator. destruct op; try apply H; (destruct (multiply _ a b); [apply H | done]).
Qed.

Lemma eval_finite n w e v : derives n w e -> Forall (fun t => token_finite t = true) w -> eval e = Ok v -> f64_is_finite v = true.
Proof.
  intros Hd. revert v. induction Hd; intros u Hf; cbn [eval]; rewrite ?Forall_app, ?Forall_cons, ?Forall_app in Hf;
    try (destruct (eval e1); [|done]; destruct (eval e2); [|done]; apply apply_operator_finite); try (by apply IHHd).
  - destruct (eval e) as [a|]; [|done]. intros [= <-]. assert (f64_is_finite a = true) by (apply IHHd; [tauto | done]). by destruct a.
  - apply IHHd. tauto.
  - intros [= <-]. by destruct Hf.
  - apply IHHd. tauto.
  - intros [= <-]. by eapply constant_finite.
  - destruct (eval e) as [a|]; [|done]. destruct (function_named name); [|done]. by intros [-> ?]%finite_ok.
Qed.

(** A query whose last groups are open, with [k] of them closed. *)
Definition sentence (tokens : list Token) (k : nat) (e : Expr) : Prop :=
  derives NExpression (tokens ++ replicate k CloseParenthesis) e.

Lemma sentence_nonempty tokens k e : sentence tokens k e -> tokens <> [].
Proof.
  intros Hd ->. apply derives_opens in Hd as (t & w' & E & Ht). destruct k; [done|]. cbn in E. congruence.
Qed.

Lemma evaluate_tokens_eq tokens : tokens <> [] -> evaluate_tokens tokens =
  (outcome ← expression tokens (parse_fuel (length tokens)) new_parser;
   Some (let? (v, p) := outcome in
         match tokens !! position p with
         | Some CloseParenthesis => Err UnbalancedParentheses
         | Some _ => Err TrailingInput
         | None =>
             if (binary_operations p =? 0)%nat && negb (informative_atom p) then Err NotACalculation
             else let? v := finite v in Ok (mkCalculation v (p_implied_closers p))
         end)).
Proof. by destruct tokens. Qed.

Lemma enough_fuel tokens : (6 * remaining tokens new_parser + 5 <= parse_fuel (length tokens))%nat.
Proof. unfold remaining, parse_fuel. cbn [position new_parser]. lia. Qed.

Lemma informative_flags e p w o p' : passes w new_parser p (operations e) (has_name e) p' -> o = operations e ->
  (binary_operations p' =? 0)%nat && negb (informative_atom p') = negb (informative e).
Proof. intros [_ _ _ _ Hb Hi] _. rewrite Hb, Hi. unfold informative. cbn. by destruct (operations e), (has_name e). Qed.

(** Every sentence is answered as the expression it is. *)
Lemma evaluate_sentence tokens k e :
  sentence tokens k e -> Forall (fun t => token_finite t = true) tokens ->
  evaluate_tokens tokens = Some match eval e with
    | Err x => Err x
    | Ok v => if informative e then Ok (mkCalculation v k) else Err NotACalculation
    end.
Proof.
  intros Hd Hfin. rewrite evaluate_tokens_eq by (by eapply sentence_nonempty).
  pose proof (methods_complete tokens _ _ _ Hd k (parse_fuel (length tokens)) new_parser []) as H.
  specialize (H ltac:(split; [unfold ahead; cbn; by rewrite Nat.sub_0_r, app_nil_r | cbn; lia | by left]) (enough_fuel tokens) ltac:(done)).
  cbn [parse loop_of] in H. destruct (eval e) as [v|x] eqn:Ev; [|by rewrite H]. destruct H as (fuel' & p' & Hf' & -> & Hp & Hr).
  rewrite (expression_loop_done tokens k fuel' v p' [] Hr) by (done || lia). cbn [mbind option_bind].
  destruct Hr as [Ha Hi _]. apply app_eq_nil in Ha as [Ha Hk]. rewrite (lookup_ge_None_2 tokens (position p')) by (apply (f_equal length) in Ha; rewrite length_drop in Ha; cbn in Ha; lia).
  rewrite (informative_flags _ _ _ _ _ Hp eq_refl). destruct (informative e); cbn [negb]; [|done].
  assert (f64_is_finite v = true) as Hv by (eapply eval_finite; [exact Hd | apply Forall_app; split; [done | by apply Forall_replicate] | done]).
  unfold finite. rewrite Hv. assert (p_implied_closers p' = k) as -> by (apply (f_equal length) in Hk; rewrite length_replicate in Hk; cbn in Hk; lia). done.
Qed.

(** Every query is answered, and an answer is that of a sentence. *)
Lemma evaluate_answers tokens :
  exists r, evaluate_tokens tokens = Some r /\
    forall c, r = Ok c -> exists e, sentence tokens (implied_closers c) e /\ informative e = true /\ eval e = Ok (value c).
Proof.
  assert (Ht : tokens = [] \/ tokens <> []) by (destruct tokens; auto). destruct Ht as [->|Ht]; [eexists; split; [done|]; done|].
  rewrite evaluate_tokens_eq by done. destruct (methods_sound tokens (parse_fuel (length tokens))) as (H & _ & _).
  destruct (H NExpression new_parser (enough_fuel tokens)) as (o & E & Ho). cbn [parse] in E. rewrite E. cbn [mbind option_bind].
  eexists. split; [done|]. intros c. destruct o as [[v p']|x]; [|done]. destruct (Ho v p' eq_refl) as (w & e & Hd & He & Hp).
  destruct (tokens !! position p') as [t|] eqn:El; [by destruct t|]. rewrite (informative_flags _ _ _ _ _ Hp eq_refl).
  destruct (informative e) eqn:Ei; cbn [negb]; [|done]. destruct (finite v) as [v'|] eqn:Ev; [|done]. apply finite_ok in Ev as [-> _]. intros [= <-].
  exists e. split_and!; [|done | done]. cbn [implied_closers]. unfold sentence. destruct Hp as [Hp _ _ _ _ _].
  specialize (Hp (p_implied_closers p') ltac:(lia)). unfold ahead in Hp. cbn in Hp. apply lookup_ge_None in El.
  change (drop 0 tokens) with tokens in Hp.
  rewrite Nat.sub_0_r, Nat.sub_diag, drop_ge, !app_nil_r in Hp by done. by rewrite Hp.
Qed.

(** * Tokens *)

Lemma span_app p l front back : span p l = (front, back) -> l = front ++ back.
Proof.
  revert front. induction l as [|b l IH]; intros front; cbn; [by intros [= <- <-]|]. destruct (p b); [|by intros [= <- <-]].
  destruct (span p l) as [f r]. intros [= <- <-]. cbn. f_equal. by apply IH.
Qed.

Lemma span_closers p l n front back :
  p 41 = false -> span p l = (front, back) -> span p (l ++ replicate n 41) = (front, back ++ replicate n 41).
Proof.
  intros Hp. revert front. induction l as [|b l IH]; intros front; cbn.
  - intros [= <- <-]. destruct n; cbn; by rewrite ?Hp.
  - destruct (p b); [|by intros [= <- <-]]. destruct (span p l) as [f r]. intros [= <- <-]. by rewrite (IH f eq_refl).
Qed.

Lemma number_literal_shorter b rest literal after :
  is_ascii_digit b || (b =? 46) = true -> number_literal (b :: rest) = Ok (literal, after) -> (length after <= length rest)%nat.
Proof.
  intros Hb. unfold number_literal. destruct (span is_ascii_digit (b :: rest)) as [whole r] eqn:E.
  assert (Hr : (length r <= length rest)%nat \/ r = b :: rest /\ b = 46).
  { cbn [span] in E. destruct (is_ascii_digit b); [|right; injection E as _ <-; split; [done | by apply Z.eqb_eq in Hb]].
    left. destruct (span is_ascii_digit rest) as [f r'] eqn:E'. injection E as _ <-. apply span_app in E' as ->. rewrite length_app. lia. }
  destruct r as [|c after']; [intros [= _ <-]; cbn; lia|]. destruct (Z.eqb_spec c 46) as [->|Hc].
  - destruct (span is_ascii_digit after') as [fraction r'] eqn:E2. apply span_app in E2 as ->. case_bool_decide; [done|]. intros [= _ <-].
    destruct Hr as [Hr|[Hr _]]; [cbn in Hr | injection Hr as _ <-]; rewrite length_app in *; lia.
  - intros [= _ <-]. destruct Hr as [Hr|[[= -> _] ->]]; done.
Qed.

Lemma next_token_shorter b rest token after : next_token b rest = Ok (token, after) -> (length after <= length rest)%nat.
Proof.
  unfold next_token. destruct ((b =? 32) || (b =? 9)); [intros [= _ <-]; cbn; lia|].
  destruct (is_identifier_start b).
  { destruct (span is_identifier_byte rest) as [name r] eqn:E. apply span_app in E as ->. intros [= _ <-]. rewrite length_app. lia. }
  repeat (destruct (b =? _); [first [solve [intros [= _ <-]; lia] | destruct rest as [|c rest]; [|destruct (c =? 42)]; intros [= _ <-]; cbn; lia]|]).
  destruct (is_ascii_digit b || _) eqn:Ed; [|done]. unfold number_token. destruct (number_literal (b :: rest)) as [[literal r]|] eqn:El; [|done].
  apply number_literal_shorter in El; [|done]. destruct (parse_f64 literal) as [v|]; [|done]. destruct (finite v); [|done]. intros [= _ <-]. lia.
Qed.

Lemma tokenize_returns fuel b : (length b <= fuel)%nat -> is_Some (tokenize_loop fuel b).
Proof.
  revert b. induction fuel as [|fuel IH]; intros [|c b] Hf; cbn in *; try (by eexists); [lia|].
  destruct (next_token c b) as [[token r]|x] eqn:E; [|by eexists]. apply next_token_shorter in E. destruct (IH r ltac:(lia)) as [ts ->]. by eexists.
Qed.

Lemma number_literal_closers l n literal after :
  number_literal l = Ok (literal, after) -> number_literal (l ++ replicate n 41) = Ok (literal, after ++ replicate n 41).
Proof.
  unfold number_literal. destruct (span is_ascii_digit l) as [whole r] eqn:E. rewrite (span_closers _ _ n _ _ eq_refl E).
  destruct r as [|c r]; cbn [app].
  - intros [= <- <-]. destruct n; done.
  - destruct (c =? 46); [|by intros [= <- <-]]. destruct (span is_ascii_digit r) as [fraction r'] eqn:E2.
    rewrite (span_closers _ _ n _ _ eq_refl E2). case_bool_decide; [done|]. by intros [= <- <-].
Qed.

Lemma next_token_closers b rest n token after :
  next_token b rest = Ok (token, after) -> next_token b (rest ++ replicate n 41) = Ok (token, after ++ replicate n 41).
Proof.
  unfold next_token. destruct ((b =? 32) || (b =? 9)); [by intros [= <- <-]|].
  destruct (is_identifier_start b).
  { destruct (span is_identifier_byte rest) as [name r] eqn:E. rewrite (span_closers _ _ n _ _ eq_refl E). by intros [= <- <-]. }
  repeat (destruct (b =? _); [first [by intros [= <- <-] | destruct rest as [|c rest]; cbn [app];
    [intros [= <- <-]; by destruct n | destruct (c =? 42); by intros [= <- <-]]]|]).
  destruct (is_ascii_digit b || _) eqn:Ed; [|done]. unfold number_token. rewrite app_comm_cons. destruct (number_literal (b :: rest)) as [[literal r]|] eqn:El; [|done].
  rewrite (number_literal_closers _ n _ _ El). destruct (parse_f64 literal) as [v|]; [|done]. destruct (finite v); [|done]. by intros [= <- <-].
Qed.

(** Closing parentheses after a query are tokens after its tokens. *)
Lemma tokenize_closers fuel b n ts :
  tokenize_loop fuel b = Some (Ok ts) ->
  tokenize_loop (fuel + n) (b ++ replicate n 41) = Some (Ok (ts ++ replicate n CloseParenthesis)).
Proof.
  revert b ts. induction fuel as [|fuel IH]; intros [|c b] ts; try done.
  1-2: intros [= <-]; cbn [app].
  - induction n as [|n IHn]; [done|]. cbn in *. by rewrite IHn.
  - clear IH. generalize (S fuel) as m. intros m. induction n as [|n IHn]; [by rewrite Nat.add_0_r; destruct m|].
    rewrite Nat.add_succ_r. cbn in *. by rewrite IHn.
  - cbn [Nat.add app tokenize_loop]. destruct (next_token c b) as [[token r]|] eqn:E; [|done]. rewrite (next_token_closers _ _ n _ _ E).
    intros (o & Eo & Es)%bind_Some. destruct o as [ts'|]; [|done]. rewrite (IH r ts' Eo). cbn. injection Es as <-. by rewrite app_assoc.
Qed.

Lemma tokenize_finite fuel b ts : tokenize_loop fuel b = Some (Ok ts) -> Forall (fun t => token_finite t = true) ts.
Proof.
  revert b ts. induction fuel as [|fuel IH]; intros [|c b] ts; try done; try (intros [= <-]; constructor).
  cbn [tokenize_loop]. destruct (next_token c b) as [[token r]|] eqn:E; [|done]. intros (o & Eo & Es)%bind_Some. destruct o as [ts'|]; [|done].
  injection Es as <-. apply Forall_app. split; [|by apply (IH r)]. destruct token as [t|]; [|constructor]. repeat constructor.
  revert E. unfold next_token. destruct ((c =? 32) || (c =? 9)); [done|]. destruct (is_identifier_start c); [destruct (span _ _); by intros [= <- _]|].
  repeat (destruct (c =? _); [first [by intros [= <- _] | destruct b as [|d b]; [|destruct (d =? 42)]; by intros [= <- _]]|]).
  destruct (is_ascii_digit c || _); [|done]. unfold number_token. destruct (number_literal _) as [[literal r']|]; [|done].
  destruct (parse_f64 literal) as [v|]; [|done]. destruct (finite v) as [v'|] eqn:Ev; [|done]. apply finite_ok in Ev as [-> Hv]. by intros [= <- _].
Qed.

(** ** From the query to the answer *)

Lemma tokenize_total query : is_Some (tokenize query).
Proof. by apply tokenize_returns. Qed.

(** C21: the calculator answers exactly what its grammar says.  Every query is
    answered; the answer to a query that is a sentence of the documented grammar
    once [k] groups open at its end are closed is the value of the expression,
    with [k] implied closers, or the first error in evaluating it, or a refusal
    where there is neither an operator nor a name; and no other query gets a
    value.  A value is always finite. *)
Theorem evaluate_exact query :
  exists r, evaluate query = Some r /\
    (forall tokens k e, tokenize query = Some (Ok tokens) -> sentence tokens k e ->
       r = match eval e with Err x => Err x | Ok v => if informative e then Ok (mkCalculation v k) else Err NotACalculation end) /\
    (forall c, r = Ok c -> f64_is_finite (value c) = true /\
       exists tokens e, tokenize query = Some (Ok tokens) /\ sentence tokens (implied_closers c) e /\ informative e = true /\ eval e = Ok (value c)).
Proof.
  unfold evaluate. destruct (tokenize_total query) as [o Eo]. rewrite Eo. cbn [mbind option_bind]. destruct o as [ts|x]; [|exists (Err x); done].
  pose proof (tokenize_finite _ _ _ Eo) as Hfin. destruct (evaluate_answers ts) as (r & Er & Hr). exists r. split_and!; [done | |].
  - intros tokens k e [= <-] Hs. pose proof (evaluate_sentence ts k e Hs Hfin) as H. rewrite Er in H. by apply Some_inj in H.
  - intros c Hc. destruct (Hr c Hc) as (e & Hs & Hi & He). split; [|by exists ts, e].
    eapply eval_finite; [exact Hs | apply Forall_app; split; [done | by apply Forall_replicate] | done].
Qed.

Lemma ascii_app s t : ascii (s +:+ t) = ascii s ++ ascii t.
Proof. induction s as [|a s IH]; [done|]. change (String a s +:+ t) with (String a (s +:+ t)). cbn [ascii app]. by rewrite IH. Qed.

Lemma string_app_nil s : s +:+ ""%string = s.
Proof. induction s as [|a s IH]; [done|]. change (String a (s +:+ ""%string) = String a s). by rewrite IH. Qed.

Lemma closers_bytes n : as_bytes (closers n) = replicate n 41.
Proof. apply as_bytes_of_bytes. by apply Forall_replicate. Qed.

(** Typing the closers the answer assumed leaves none to assume. *)
Lemma evaluate_closed query c :
  evaluate query = Some (Ok c) -> evaluate (query +:+ closers (implied_closers c)) = Some (Ok (mkCalculation (value c) 0)).
Proof.
  unfold evaluate. intros (o & Eo & Er)%bind_Some. destruct o as [ts|x]; [|done].
  destruct (evaluate_answers ts) as (r & Er' & Hr). rewrite Er in Er'. apply Some_inj in Er' as <-. destruct (Hr c eq_refl) as (e & Hs & Hi & He).
  assert (Et : tokenize (query +:+ closers (implied_closers c)) = Some (Ok (ts ++ replicate (implied_closers c) CloseParenthesis))).
  { unfold tokenize, as_bytes. rewrite ascii_app. change (ascii (closers _)) with (as_bytes (closers (implied_closers c))).
    rewrite closers_bytes, length_app, length_replicate. by apply tokenize_closers. }
  rewrite Et. cbn [mbind option_bind]. rewrite (evaluate_sentence _ 0 e), He, Hi; [done | |].
  - unfold sentence. by rewrite app_nil_r.
  - apply Forall_app. split; [by apply (tokenize_finite _ _ _ Eo) | by apply Forall_replicate].
Qed.

(** * Trimming *)

Definition no_blank_end (c : option Z) : Prop := forall b, c = Some b -> is_whitespace b = false.

Lemma trim_start_suffix t : exists a, t = a ++ trim_start t.
Proof. induction t as [|c t [a Ha]]; [by exists []|]. cbn. destruct (is_whitespace c); [exists (c :: a); by rewrite Ha at 1 | by exists []]. Qed.

Lemma trim_start_no_blank t : no_blank_end (head (trim_start t)).
Proof. induction t as [|c t IH]; [done|]. cbn. destruct (is_whitespace c) eqn:E; [done|]. by intros b [= <-]. Qed.

Lemma trim_start_id t : no_blank_end (head t) -> trim_start t = t.
Proof. destruct t as [|c t]; [done|]. intros H. cbn. by rewrite (H c eq_refl). Qed.

Lemma trim_end_prefix t : exists b, t = trim_end t ++ b.
Proof.
  destruct (trim_start_suffix (reverse t)) as [a Ha]. exists (reverse a). unfold trim_end. rewrite <- reverse_app, <- Ha. by rewrite reverse_involutive.
Qed.

Lemma trim_end_no_blank t : no_blank_end (last (trim_end t)).
Proof. unfold trim_end. rewrite last_reverse. apply trim_start_no_blank. Qed.

Lemma trim_no_blank t : no_blank_end (head (trim t)) /\ no_blank_end (last (trim t)).
Proof.
  split; [|apply trim_end_no_blank]. pose proof (trim_start_no_blank t) as H. unfold trim. destruct (trim_end_prefix (trim_start t)) as [b Hb].
  destruct (trim_end (trim_start t)) as [|c u]; [done|]. rewrite Hb in H. exact H.
Qed.

Lemma trim_id t : no_blank_end (head t) -> no_blank_end (last t) -> trim t = t.
Proof.
  intros Hh Hl. unfold trim. rewrite (trim_start_id t Hh). unfold trim_end. rewrite trim_start_id; [apply reverse_involutive|]. by rewrite head_reverse.
Qed.

Lemma trim_closed t n : trim (trim t ++ replicate n 41) = trim t ++ replicate n 41.
Proof.
  destruct (trim_no_blank t) as [Hh Hl]. apply trim_id.
  - destruct (trim t) as [|c u]; [|exact Hh]. destruct n; [done|]. by intros b [= <-].
  - destruct n as [|n]; [by rewrite app_nil_r|]. rewrite replicate_S_end, app_assoc, last_snoc. by intros b [= <-].
Qed.

Lemma trim_infix t : exists a b, t = a ++ trim t ++ b.
Proof.
  destruct (trim_start_suffix t) as [a Ha]. destruct (trim_end_prefix (trim_start t)) as [b Hb]. exists a, b. unfold trim. by rewrite <- Hb.
Qed.

Lemma string_of_bytes_app l k : string_of_bytes (l ++ k) = string_of_bytes l +:+ string_of_bytes k.
Proof. induction l as [|x l IH]; [done|]. cbn [app string_of_bytes]. by rewrite IH. Qed.

Lemma utf8_app t u : utf8 (t ++ u) = utf8 t ++ utf8 u.
Proof. unfold utf8. apply bind_app. Qed.

(** The string of a query, trimmed, with closers typed after it, is not trimmed further. *)
Lemma trim_string_closed query n : utf8_string query -> trim_string (trim_string query +:+ closers n) = trim_string query +:+ closers n.
Proof.
  intros [t Et]. unfold trim_string, chars. rewrite Et. cbn [default from_option id].
  pose proof Et as [Hsc Hb]%from_utf8_sound; [|apply as_bytes_bytes]. destruct (trim_infix t) as (a & b & Eab).
  assert (Hu : utf8 (replicate n 41) = replicate n 41) by (apply utf8_ascii; by apply Forall_replicate).
  assert (E : string_of_bytes (utf8 (trim t)) +:+ closers n = string_of_bytes (utf8 (trim t ++ replicate n 41))).
  { unfold closers. by rewrite utf8_app, Hu, string_of_bytes_app. }
  rewrite E. rewrite as_bytes_of_bytes.
  - rewrite from_utf8_encoded; [|apply Forall_app; split; [|by apply Forall_replicate]].
    + cbn [default from_option id]. by rewrite trim_closed.
    + rewrite Eab in Hsc. unfold scalars in Hsc. rewrite !Forall_app in Hsc. tauto.
  - unfold bytes. rewrite utf8_app, Hu. apply Forall_app. split; [|by apply Forall_replicate].
    pose proof (as_bytes_bytes query) as Hq. rewrite <- Hb, Eab, !utf8_app in Hq. unfold bytes in Hq. rewrite !Forall_app in Hq. tauto.
Qed.

(** * Rows *)

(** A row is the expression it answers.  A query earns at most one row; what
    the calculator then resolves is that row, for the generation it was
    published under, to the text it shows; and the expression the row shows,
    implied parentheses included, is answered with the very same row when it is
    typed out. *)
Theorem rows_exact c g query :
  utf8_string query ->
  exists c' l, rows c g query = Some (c', l) /\ (length l <= 1)%nat /\
    (forall g' i t, resolve c' g' i = Some t <-> g' = g /\ exists row, row ∈ l /\ i = row_item row /\ t = row_label row) /\
    (forall row, row ∈ l -> rows c' g (row_description row) = Some (c', [row])).
Proof.
  intros Hq. unfold rows at 1. destruct (evaluate_exact (trim_string query)) as (r & Er & _ & _). rewrite Er. cbn [mbind option_bind].
  destruct r as [calc|x].
  - match goal with |- exists c' l, Some (?s, [?r]) = _ /\ _ => set (c' := s); set (row := r) end. exists c', [row]. split; [done|]. split; [done|]. split.
    + intros g' i t. unfold resolve. change (published c') with (Some (mkPublished g (row_item row) (row_label row))).
      cbn [mbind option_bind generation item result_text]. clearbody row. split.
      * destruct (bool_decide_reflect (g = g')) as [->|]; [|done]. destruct (bool_decide_reflect (row_item row = i)) as [<-|]; [|done]. intros [= <-].
        split; [done|]. exists row. split; [by apply list_elem_of_singleton | split; reflexivity].
      * intros (-> & r & ->%list_elem_of_singleton & -> & ->). by rewrite !bool_decide_true by done.
    + intros r ->%list_elem_of_singleton. unfold rows. change (row_description row) with (trim_string query +:+ closers (implied_closers calc)).
      rewrite trim_string_closed by done. rewrite (evaluate_closed _ _ Er). cbn [mbind option_bind implied_closers value].
      change (closers 0) with ""%string. rewrite string_app_nil. reflexivity.
  - eexists _, []. split; [reflexivity|]. split; [cbn; lia|]. split; [|by intros row ?%elem_of_nil].
    intros g' i t. unfold resolve. cbn. split; [done|]. by intros (_ & row & ?%elem_of_nil & _).
Qed.

End calculator.

(** * The text of a value *)

(** A decimal of at most ten places, in units of the last place. *)
Definition read_units (t : text) : option Z :=
  let (negative, rest) := match t with c :: r => if c =? 45 then (true, r) else (false, t) | [] => (false, []) end in
  let (whole, rest) := span is_ascii_digit rest in
  w ← parse_digits whole;
  match rest with
  | [] => Some (signed negative (w * 10 ^ FRACTION_DIGITS))
  | c :: fraction =>
      if (c =? 46) && (len fraction <=? FRACTION_DIGITS)
      then f ← parse_digits fraction; Some (signed negative (w * 10 ^ FRACTION_DIGITS + f * 10 ^ (FRACTION_DIGITS - len fraction)))
      else None
  end.

(** The value is [n] units of the last place, to the nearest; half-way cases go to
    the even one.  Both sides are scaled by the power of two of the float. *)
Definition nearest_units (v : f64) (n : Z) : Prop :=
  match v with
  | S754_finite s m e =>
      let distance := 2 * Z.abs (n * 2 ^ Z.max 0 (- e) - signed s (Z.pos m) * 10 ^ FRACTION_DIGITS * 2 ^ Z.max 0 e) in
      distance < 2 ^ Z.max 0 (- e) \/ distance = 2 ^ Z.max 0 (- e) /\ Z.even n = true
  | _ => n = 0
  end.

Lemma div_nearest_spec n d : 0 < d ->
  2 * Z.abs (div_nearest n d * d - n) < d \/ 2 * Z.abs (div_nearest n d * d - n) = d /\ Z.even (div_nearest n d) = true.
Proof.
  intros Hd. unfold div_nearest. pose proof (Z.div_mod n d ltac:(lia)) as En. pose proof (Z.mod_pos_bound n d Hd) as Hr.
  set (q := n / d) in *. set (r := n mod d) in *. destruct (Z.ltb_spec (2 * r) d); cbn [orb]; [left; nia|].
  destruct (Z.eqb_spec (2 * r) d); cbn [andb]; [|left; nia]. right.
  destruct (Z.even q) eqn:E; [split; [nia | done]|]. split; [nia|]. rewrite Z.even_add, E. done.
Qed.

Lemma signed_nearest s m e : nearest_units (S754_finite s m e) (signed s (scaled_magnitude (Z.pos m) e)).
Proof.
  unfold nearest_units, scaled_magnitude. destruct (Z.leb_spec 0 e) as [He|He].
  - rewrite (Z.max_l 0 (- e)), (Z.max_r 0 e) by lia. left. destruct s; cbn [signed]; rewrite Z.pow_0_r, Z.mul_1_r;
      match goal with |- 2 * Z.abs ?x < _ => replace x with 0 by ring end; done.
  - rewrite (Z.max_r 0 (- e)), (Z.max_l 0 e) by lia. rewrite Z.pow_0_r, Z.mul_1_r.
    pose proof (div_nearest_spec (Z.pos m * 10 ^ FRACTION_DIGITS) (2 ^ (- e)) ltac:(apply Z.pow_pos_nonneg; lia)) as H.
    destruct s; cbn [signed]; [|exact H]. rewrite Z.even_opp.
    match goal with |- 2 * Z.abs ?x < _ \/ _ => replace (Z.abs x) with (Z.abs (div_nearest (Z.pos m * 10 ^ FRACTION_DIGITS) (2 ^ (- e)) * 2 ^ (- e) - Z.pos m * 10 ^ FRACTION_DIGITS)) by lia end.
    exact H.
Qed.

(** ** Digits *)

Lemma digits_value_digits acc t n : digits_value acc t = Some n -> Forall (fun c => is_ascii_digit c = true) t.
Proof. revert acc. induction t as [|c t IH]; intros acc; [constructor|]. cbn. destruct (is_ascii_digit c) eqn:E; [|done]. intros H. constructor; [done | by eapply IH]. Qed.

Lemma fixed_digits_spec width n acc : 0 <= n < 10 ^ Z.of_nat width ->
  digits_value acc (fixed_digits width n) = Some (acc * 10 ^ Z.of_nat width + n) /\ length (fixed_digits width n) = width.
Proof.
  revert n. induction width as [|width IH]; intros n Hn; [cbn in *; split; [f_equal; lia | done]|].
  rewrite Nat2Z.inj_succ, Z.pow_succ_r in * by lia. cbn [fixed_digits]. rewrite digits_value_app, length_app.
  destruct (IH (n / 10)) as [-> ->]; [split; [apply Z.div_pos; lia | apply Z.div_lt_upper_bound; lia]|].
  pose proof (Z.mod_pos_bound n 10 ltac:(lia)). pose proof (Z.div_mod n 10 ltac:(lia)) as En. cbn [mbind option_bind digits_value].
  rewrite is_digit_of by lia. split; [f_equal; lia | cbn; lia].
Qed.

Lemma digits_value_zeros acc k : digits_value acc (replicate k 48) = Some (acc * 10 ^ Z.of_nat k).
Proof.
  revert acc. induction k as [|k IH]; intros acc; [cbn; f_equal; lia|]. rewrite Nat2Z.inj_succ, Z.pow_succ_r by lia.
  cbn [replicate digits_value]. change (is_ascii_digit 48) with true. cbn match. rewrite IH. f_equal. lia.
Qed.

Lemma span_digits_all t rest : Forall (fun c => is_ascii_digit c = true) t -> (forall c, head rest = Some c -> is_ascii_digit c = false) ->
  span is_ascii_digit (t ++ rest) = (t, rest).
Proof.
  intros Ht Hr. induction Ht as [|c t Hc _ IH]; cbn [app span].
  - destruct rest as [|c rest]; [done|]. cbn. by rewrite (Hr c eq_refl).
  - by rewrite Hc, IH.
Qed.

(** ** Trimming zeros *)

Lemma drop_leading_replicate c k t : drop_leading c (replicate k c ++ t) = drop_leading c t.
Proof. induction k as [|k IH]; [done|]. cbn. by rewrite Z.eqb_refl. Qed.

Lemma trim_end_matches_app c t k : last t <> Some c -> trim_end_matches c (t ++ replicate k c) = t.
Proof.
  intros Hl. unfold trim_end_matches. rewrite reverse_app, reverse_replicate, drop_leading_replicate.
  destruct t as [|x t _] using rev_ind; [done|]. rewrite last_snoc in Hl. rewrite reverse_snoc. cbn [drop_leading].
  destruct (Z.eqb_spec x c) as [->|_]; [done|]. by rewrite <- reverse_snoc, reverse_involutive.
Qed.

Lemma split_trailing c (t : text) : exists t' k, t = t' ++ replicate k c /\ last t' <> Some c.
Proof.
  induction t as [|x t (t' & k & -> & Hl)] using rev_ind; [by exists [], 0%nat|]. destruct (decide (x = c)) as [->|Hx].
  - exists t', (S k). split; [|done]. by rewrite replicate_S_end, app_assoc.
  - exists ((t' ++ replicate k c) ++ [x]), 0%nat. split; [by rewrite app_nil_r | rewrite last_snoc; congruence].
Qed.

Lemma last_digit t x : Forall (fun c => is_ascii_digit c = true) t -> last t = Some x -> is_ascii_digit x = true.
Proof. intros Ht Hl. rewrite Forall_forall in Ht. apply Ht. by apply last_Some_elem_of. Qed.

Lemma trim_fixed x fraction :
  Forall (fun c => is_ascii_digit c = true) fraction -> (exists d, last x = Some d /\ is_ascii_digit d = true) ->
  exists front k, fraction = front ++ replicate k 48 /\ last front <> Some 48 /\
    trim_end_matches 46 (trim_end_matches 48 (x ++ 46 :: fraction)) = x ++ match front with [] => [] | _ => 46 :: front end.
Proof.
  intros Hd (d & Hx & Hdig). destruct (split_trailing 48 fraction) as (front & k & -> & Hl). exists front, k. split_and!; [done | done |].
  apply Forall_app in Hd as [Hd _]. rewrite app_comm_cons, app_assoc, trim_end_matches_app.
  - destruct front as [|y front].
    + rewrite app_nil_r. apply (trim_end_matches_app 46 x 1). rewrite Hx. intros [= ->]. done.
    + pose proof (trim_end_matches_app 46 (x ++ 46 :: y :: front) 0) as H. cbn [replicate] in H. rewrite app_nil_r in H. apply H. rewrite last_app.
      destruct (last (46 :: y :: front)) as [z|] eqn:E; [|by rewrite last_None in E]. rewrite last_cons_cons in E.
      pose proof (last_digit _ _ Hd E) as Hz. intros [= ->]. done.
  - rewrite last_app. destruct front as [|y front]; [done|]. rewrite last_cons_cons. destruct (last (y :: front)) eqn:E; [done | by rewrite last_None in E].
Qed.

Lemma read_units_eq (negative : bool) whole rest :
  Forall (fun c => is_ascii_digit c = true) whole -> whole <> [] -> (forall c, head rest = Some c -> is_ascii_digit c = false) ->
  read_units ((if negative then [45] else []) ++ whole ++ rest) =
  (w ← parse_digits whole;
   match rest with
   | [] => Some (signed negative (w * 10 ^ FRACTION_DIGITS))
   | c :: fraction =>
       if (c =? 46) && (len fraction <=? FRACTION_DIGITS)
       then f ← parse_digits fraction; Some (signed negative (w * 10 ^ FRACTION_DIGITS + f * 10 ^ (FRACTION_DIGITS - len fraction)))
       else None
   end).
Proof.
  intros Hd Hne Hr. pose proof (span_digits_all whole rest Hd Hr) as E. unfold read_units. destruct negative; cbn [app].
  - change (45 =? 45) with true. cbn match. by rewrite E.
  - destruct whole as [|c whole]; [done|]. cbn [app] in E |- *. inversion Hd as [|? ? Hc]; subst.
    destruct (Z.eqb_spec c 45) as [->|]; [done|]. by rewrite E.
Qed.

(** What the rendering of a number of units reads as. *)
Lemma render_units (negative : bool) n :
  0 <= n ->
  let shown := trim_end_matches 46 (trim_end_matches 48 ((if negative then [45] else []) ++ decimal_digits (n / 10 ^ FRACTION_DIGITS) ++ 46
      :: fixed_digits (Z.to_nat FRACTION_DIGITS) (n mod 10 ^ FRACTION_DIGITS))) in
  read_units shown = Some (signed negative n) /\ (46 ∈ shown -> last shown <> Some 48) /\ last shown <> Some 46.
Proof.
  intros Hn. pose proof (Z.div_mod n (10 ^ FRACTION_DIGITS) ltac:(by cbv)) as En. set (w := n / 10 ^ FRACTION_DIGITS) in *. set (f := n mod 10 ^ FRACTION_DIGITS) in *.
  assert (Hw : 0 <= w) by (apply Z.div_pos; [done | by cbv]). assert (Hf : 0 <= f < 10 ^ FRACTION_DIGITS) by (apply Z.mod_pos_bound; by cbv).
  pose proof (decimal_digits_value w Hw) as Ew. assert (Hne : decimal_digits w <> []) by (intros E; by rewrite E in Ew).
  assert (Hdw : Forall (fun c => is_ascii_digit c = true) (decimal_digits w)).
  { unfold parse_digits in Ew. destruct (decimal_digits w) as [|c t]; [constructor|]. by eapply digits_value_digits. }
  destruct (fixed_digits_spec (Z.to_nat FRACTION_DIGITS) f 0 ltac:(rewrite Z2Nat.id; [exact Hf | by cbv])) as [Ef Hlen].
  rewrite Z.mul_0_l, Z.add_0_l in Ef. pose proof (digits_value_digits _ _ _ Ef) as Hdf.
  assert (Hl : exists d, last ((if negative then [45] else []) ++ decimal_digits w) = Some d /\ is_ascii_digit d = true).
  { rewrite last_app. destruct (last (decimal_digits w)) as [d|] eqn:E; [|destruct Hne; by apply last_None]. exists d. split; [done | exact (last_digit _ _ Hdw E)]. }
  destruct (trim_fixed _ (fixed_digits (Z.to_nat FRACTION_DIGITS) f) Hdf Hl) as (front & k & Efr & Hlast & Etrim).
  rewrite <- app_assoc in Etrim. cbv zeta. rewrite Etrim. clear Etrim. rewrite Efr in Ef, Hlen, Hdf. clear Efr. destruct Hl as (d & Hl & Hdd).
  destruct front as [|y front].
  - rewrite app_nil_r. cbn [app] in Ef. rewrite digits_value_zeros in Ef. assert (f = 0) as Hf0 by (apply Some_inj in Ef; lia). split_and!.
    + rewrite <- (app_nil_r (decimal_digits w)). rewrite read_units_eq by done. rewrite Ew. cbn [mbind option_bind]. do 2 f_equal. lia.
    + intros [Hin|Hin]%elem_of_app; exfalso; [destruct negative; [by apply list_elem_of_singleton in Hin | by apply elem_of_nil in Hin]|].
      rewrite Forall_forall in Hdw. by specialize (Hdw _ Hin).
    + rewrite Hl. intros [= ->]. done.
  - apply Forall_app in Hdf as [Hdf _]. rewrite digits_value_app in Ef. destruct (digits_value 0 (y :: front)) as [g|] eqn:Eg; [|done].
    cbn [mbind option_bind] in Ef. rewrite digits_value_zeros in Ef. apply Some_inj in Ef.
    assert (Hlen' : Z.of_nat k = FRACTION_DIGITS - len (y :: front)).
    { rewrite length_app, length_replicate in Hlen. unfold len. change FRACTION_DIGITS with (Z.of_nat (Z.to_nat FRACTION_DIGITS)). lia. }
    assert (Elast : last (46 :: y :: front) = last (y :: front)) by apply last_cons_cons. split_and!.
    + rewrite <- app_assoc, read_units_eq; [|done | done | by intros c [= <-]]. rewrite Ew. cbn [mbind option_bind]. change (46 =? 46) with true.
      rewrite (proj2 (Z.leb_le (len (y :: front)) FRACTION_DIGITS)) by lia. cbn [andb]. change (parse_digits (y :: front)) with (digits_value 0 (y :: front)).
      rewrite Eg. cbn [mbind option_bind]. rewrite <- Hlen'. do 2 f_equal. lia.
    + intros _. rewrite last_app, Elast. destruct (last (y :: front)) eqn:E; [congruence | by apply last_None in E].
    + rewrite last_app, Elast. destruct (last (y :: front)) as [z|] eqn:E; [|by apply last_None in E]. intros [= ->]. by pose proof (last_digit _ _ Hdf E).
Qed.

Lemma format_fixed_units v : f64_is_finite v = true -> SFeqb v f64_zero = false ->
  exists (negative : bool) n, 0 <= n /\ nearest_units v (signed negative n) /\
    format_fixed v = (if negative then [45] else []) ++ decimal_digits (n / 10 ^ FRACTION_DIGITS) ++ 46
      :: fixed_digits (Z.to_nat FRACTION_DIGITS) (n mod 10 ^ FRACTION_DIGITS).
Proof.
  destruct v as [s|s| |s m e]; try done. intros _ _. exists s, (scaled_magnitude (Z.pos m) e). split_and!; [|apply signed_nearest | done].
  unfold scaled_magnitude. destruct (0 <=? e) eqn:E; reflect_bools.
  - apply Z.mul_nonneg_nonneg; [apply Z.mul_nonneg_nonneg; [done | apply Z.pow_nonneg; lia] | by cbv].
  - unfold div_nearest. assert (0 <= Z.pos m * 10 ^ FRACTION_DIGITS / 2 ^ (- e)) by (apply Z.div_pos; [done | apply Z.pow_pos_nonneg; lia]).
    destruct (_ || _); lia.
Qed.

(** C39: the text is the value.  Every finite value is shown as a decimal of at
    most ten places that is the nearest there is to it, half-way cases to the even
    digit, without a trailing zero after the point and without a trailing point. *)
Theorem format_value_nearest v :
  f64_is_finite v = true ->
  exists n, read_units (format_value v) = Some n /\ nearest_units v n /\
    (46 ∈ format_value v -> last (format_value v) <> Some 48) /\ last (format_value v) <> Some 46.
Proof.
  intros Hv. unfold format_value. destruct (SFeqb v f64_zero) eqn:Ez.
  - exists 0. destruct (render_units false 0) as (Hr & Hz & Hp); [done|]. split; [exact Hr|]. split; [|by split].
    by destruct v as [s|s| |[] m e].
  - destruct (format_fixed_units v Hv Ez) as (negative & n & Hn & Hnear & ->). exists (signed negative n).
    destruct (render_units negative n Hn) as (Hr & Hz & Hp). done.
Qed.

(** * Examples and witnesses *)

(** Powers with small natural exponents, by multiplication; the other functions
    are not needed by the examples. *)
Definition small_power (base exponent : f64) : f64 :=
  match List.find (fun n => SFeqb exponent (f64_of_integer (Z.of_nat n))) (seq 0 32) with
  | Some n => Nat.iter n (f64_mul base) (f64_of_integer 1)
  | None => S754_nan
  end.

Definition sample_libm : Libm :=
  let undefined _ := S754_nan in Build_Libm small_power undefined undefined undefined undefined undefined undefined undefined undefined
    undefined undefined undefined.

Definition answer (query : string) : option (result Z CalculationError) :=
  r ← evaluate (M := sample_libm) query;
  match r with
  | Ok c => n ← read_units (format_value (value c)); Some (Ok n)
  | Err e => Some (Err e)
  end.

Definition units (n : Z) : option (result Z CalculationError) := Some (Ok (n * 10 ^ FRACTION_DIGITS)).

Example precedence : answer "2+3*4" = units 14 /\ answer "2*3+4" = units 10 /\ answer "10-3-2" = units 5 /\ answer "16/4/2" = units 2.
Proof. split_and!; vm_compute; reflexivity. Qed.

Example powers : answer "2^3^2" = units 512 /\ answer "2**3**2" = units 512 /\ answer "-2^2" = units (-4) /\ answer "7%-4" = units 3.
Proof. split_and!; vm_compute; reflexivity. Qed.

Example names : answer "floor(-2.5)" = units (-3) /\ answer "ROUND(2.5" = units 3 /\ answer "ceil(-0.5)" = units 0 /\ answer "sqrt(abs(-16))" = units 4.
Proof. split_and!; vm_compute; reflexivity. Qed.

Example refusals :
  answer "" = Some (Err Empty) /\ answer "42" = Some (Err NotACalculation) /\ answer "2+2 apples" = Some (Err TrailingInput) /\
  answer "2+2)" = Some (Err UnbalancedParentheses) /\ answer "1/0" = Some (Err DivisionByZero) /\ answer "1.+2" = Some (Err MalformedNumber) /\
  answer "2+" = Some (Err ExpectedOperand) /\ answer "budget.ods" = Some (Err MalformedNumber) /\ answer "report" = Some (Err UnexpectedCharacter).
Proof. split_and!; vm_compute; reflexivity. Qed.

Example tenths : format_value (f64_add (f64_of_decimal false 1 (-1)) (f64_of_decimal false 2 (-1))) = ascii "0.3".
Proof. vm_compute. reflexivity. Qed.

(** A small negative value is shown as [-0], which the comment of [format_value]
    says no value is. *)
Lemma small_negative_shown : format_value (f64_of_decimal true 1 (-11)) = ascii "-0".
Proof. vm_compute. reflexivity. Qed.

Lemma evaluate_exact_witness : evaluate (M := sample_libm) "2+3*(4" = Some (Ok (mkCalculation (f64_of_integer 14) 1)).
Proof.
  destruct (evaluate_exact (M := sample_libm) "2+3*(4") as (r & -> & H & _).
  pose (n (k : Z) := Number (f64_of_integer k)). pose (e := Operate Plus (Literal (f64_of_integer 2)) (Operate Star (Literal (f64_of_integer 3)) (Literal (f64_of_integer 4)))).
  rewrite (H [n 2; Plus; n 3; Star; OpenParenthesis; n 4] 1%nat e).
  - vm_compute. reflexivity.
  - vm_compute. reflexivity.
  - apply (expression_operation [n 2] [n 3; Star; OpenParenthesis; n 4; CloseParenthesis] Plus); [set_solver | repeat constructor |].
    apply (term_operation [n 3] [OpenParenthesis; n 4; CloseParenthesis] Star); [set_solver | repeat constructor |].
    apply unary_power, power_atom, (atom_group [n 4]). repeat constructor.
Defined.

Lemma rows_exact_witness :
  exists c' row, rows (M := sample_libm) (new_calculator None) 7 " 2*(3" = Some (c', [row]) /\ row_label row = "6"%string /\
    rows (M := sample_libm) c' 7 "2*(3)" = Some (c', [row]).
Proof.
  destruct (rows_exact (M := sample_libm) (new_calculator None) 7 " 2*(3") as (c' & l & E & _ & _ & H); [exists (ascii " 2*(3"); vm_compute; reflexivity|].
  assert (Es : (fun x => map (fun r => (row_label r, row_description r)) x.2) <$> rows (M := sample_libm) (new_calculator None) 7 " 2*(3" = Some [("6", "2*(3)")]%string)
    by (vm_compute; reflexivity).
  rewrite E in Es |- *. cbn [fmap option_fmap option_map snd] in Es. destruct l as [|row [|row' l]]; [done| |done]. injection Es as Hl Hd.
  exists c', row. split; [done|]. split; [done|]. rewrite <- Hd. apply H. by apply list_elem_of_singleton.
Defined.

Lemma format_value_nearest_witness :
  exists n, read_units (format_value (f64_of_decimal false 1 (-1))) = Some n /\ nearest_units (f64_of_decimal false 1 (-1)) n.
Proof. destruct (format_value_nearest (f64_of_decimal false 1 (-1))) as (n & Hr & Hn & _); [vm_compute; reflexivity|]. exists n. split; [exact Hr | exact Hn]. Defined.
