(* ===== verification/Ranking.v ===== *)
(** Ranking, [crikey-ranking/src/lib.rs]: the bounded record of selections and
    the default ranker.

    A [BTreeMap] is a finite map that is iterated in the order of its keys
    ([in_order]); strings are compared by their bytes.  The ranker's curves are
    binary32 computations, term by term as in the code. *)

From Stdlib Require Import SpecFloat.
From S2P Require Import Prelude Text StdFloat Items Query.

(** * Orders *)

(** [Ord] of strings: by bytes. *)
Fixpoint str_leb (a b : string) : bool :=
  match a, b with
  | EmptyString, _ => true
  | String _ _, EmptyString => false
  | String x a', String y b' =>
      let x := Ascii.nat_of_ascii x in let y := Ascii.nat_of_ascii y in
      Nat.ltb x y || (Nat.eqb x y && str_leb a' b')
  end.

(** [Ord] of tuples: the first components decide, then the rest. *)
Definition pair_leb {A B} (eqa : A -> A -> bool) (lea : A -> A -> bool) (leb_ : B -> B -> bool) (x y : A * B) : bool :=
  (lea x.1 y.1 && negb (eqa x.1 y.1)) || (eqa x.1 y.1 && leb_ x.2 y.2).

(** [Ord] of [Option<u64>]: [None] first. *)
Definition option_leb (x y : option Z) : bool :=
  match x, y with None, _ => true | Some _, None => false | Some a, Some b => a <=? b end.

Definition ItemKey : Type := PluginId * ItemId.
Definition QueryKey : Type := string * ItemKey.

Definition item_key_leb : ItemKey -> ItemKey -> bool := pair_leb String.eqb str_leb str_leb.
Definition query_key_leb : QueryKey -> QueryKey -> bool := pair_leb String.eqb str_leb item_key_leb.

(** * The selection history *)

Record HistoryEntry := mkHistoryEntry { frequency : Z; last_selected_secs : option Z }.
#[export] Instance eta_HistoryEntry : Eta HistoryEntry := fun e => mkHistoryEntry (frequency e) (last_selected_secs e).

Record SelectionHistory := mkHistory {
  entries : gmap ItemKey HistoryEntry;
  query_counts : gmap QueryKey Z;
}.
#[export] Instance eta_SelectionHistory : Eta SelectionHistory := fun h => mkHistory (entries h) (query_counts h).

Definition MAX_ITEM_RECORDS : Z := 4096.
Definition MAX_QUERY_AFFINITIES : Z := 8192.
Definition MAX_AFFINITY_KEY_BYTES : Z := 512.
Definition MAX_ITEM_KEY_BYTES : Z := 256.

Record SelectionRecord := mkSelection {
  record_plugin : PluginId; record_item : ItemId; record_frequency : Z; record_last : option Z }.

Record QueryAffinityRecord := mkAffinity {
  affinity_plugin : PluginId; affinity_item : ItemId; affinity_query : string; affinity_count : Z }.

Record SelectionHistorySnapshot := mkHistorySnapshot {
  selections : list SelectionRecord; query_affinities : list QueryAffinityRecord }.

Definition item_key_fits (plugin : PluginId) (item : ItemId) : bool :=
  saturating_add usize_max (str_len plugin) (str_len item) <=? MAX_ITEM_KEY_BYTES.

Definition affinity_key_fits (plugin : PluginId) (item : ItemId) (query : string) : bool :=
  item_key_fits plugin item
  && (saturating_add usize_max (saturating_add usize_max (str_len plugin) (str_len item)) (str_len query)
      <=? MAX_AFFINITY_KEY_BYTES).

(** A map in the order of its keys. *)
Definition in_order {K V} `{Countable K} (le : K -> K -> bool) (m : gmap K V) : list (K * V) :=
  sort_by (fun x y => le x.1 y.1) (map_to_list m).

(** The keys of the records to drop, least used first: [excess] of them. *)
Definition evict {K V R} `{Countable K} (cap : Z) (rank : K * V -> R * K) (le : R * K -> R * K -> bool) (m : gmap K V)
    : gmap K V :=
  if cap <? Z.of_nat (size m) then
    let target := cap - cap / 8 in
    let ranked := sort_by le (map rank (map_to_list m)) in
    let excess := Z.of_nat (size m) - target in
    foldl (fun m r => delete r.2 m) m (take (Z.to_nat excess) ranked)
  else m.

Definition rank_entry (kv : ItemKey * HistoryEntry) : (Z * option Z) * ItemKey :=
  ((frequency kv.2, last_selected_secs kv.2), kv.1).

Definition rank_entry_leb : (Z * option Z) * ItemKey -> (Z * option Z) * ItemKey -> bool :=
  pair_leb (fun x y => bool_decide (x = y)) (pair_leb Z.eqb Z.leb option_leb) item_key_leb.

Definition rank_count (kv : QueryKey * Z) : Z * QueryKey := (kv.2, kv.1).

Definition rank_count_leb : Z * QueryKey -> Z * QueryKey -> bool := pair_leb Z.eqb Z.leb query_key_leb.

Definition evict_to_capacity (h : SelectionHistory) : SelectionHistory :=
  let h := h <| entries ::= evict MAX_ITEM_RECORDS rank_entry rank_entry_leb |> in
  h <| query_counts ::= evict MAX_QUERY_AFFINITIES rank_count rank_count_leb |>.

(** [entry(key).or_default()], then an update. *)
Definition upsert {K V} `{Countable K} (d : V) (f : V -> V) (k : K) (m : gmap K V) : gmap K V :=
  <[k := f (default d (m !! k))]> m.

(** [record]; the query is its normalised text. *)
Definition record_selection (h : SelectionHistory) (plugin : PluginId) (item : ItemId) (query : string)
    (now_secs : Z) : SelectionHistory :=
  if negb (item_key_fits plugin item) then h
  else
    let h := h <| entries ::=
      upsert (mkHistoryEntry 0 None)
        (fun e => mkHistoryEntry (saturating_add u32_max (frequency e) 1) (Some now_secs)) (plugin, item) |> in
    let h :=
      if affinity_key_fits plugin item query
      then h <| query_counts ::= upsert 0 (fun n => saturating_add u32_max n 1) (query, (plugin, item)) |>
      else h in
    evict_to_capacity h.

Fixpoint take_while {A} (p : A -> bool) (l : list A) : list A :=
  match l with [] => [] | x :: l' => if p x then x :: take_while p l' else [] end.

(** [QueryAffinity]: the totals per item. *)
Definition affinities_for (h : SelectionHistory) (query : string) : gmap ItemKey Z :=
  if String.eqb query "" then ∅
  else
    let start : QueryKey := (query, ("", ""))%string in
    let range := List.filter (fun kv => query_key_leb start kv.1) (in_order query_key_leb (query_counts h)) in
    foldl (fun totals kv => upsert 0 (fun total => saturating_add u32_max total kv.2) kv.1.2 totals) ∅
      (take_while (fun kv => String.prefix query kv.1.1) range).

Definition clear (h : SelectionHistory) : SelectionHistory := mkHistory ∅ ∅.

Definition snapshot (h : SelectionHistory) : SelectionHistorySnapshot :=
  mkHistorySnapshot
    (map (fun kv => mkSelection kv.1.1 kv.1.2 (frequency kv.2) (last_selected_secs kv.2))
       (in_order item_key_leb (entries h)))
    (map (fun kv => mkAffinity kv.1.2.1 kv.1.2.2 kv.1.1 kv.2) (in_order query_key_leb (query_counts h))).

Definition restore_selection (m : gmap ItemKey HistoryEntry) (r : SelectionRecord) : gmap ItemKey HistoryEntry :=
  if item_key_fits (record_plugin r) (record_item r)
  then <[(record_plugin r, record_item r) := mkHistoryEntry (record_frequency r) (record_last r)]> m
  else m.

Definition restore_affinity (m : gmap QueryKey Z) (r : QueryAffinityRecord) : gmap QueryKey Z :=
  if affinity_key_fits (affinity_plugin r) (affinity_item r) (affinity_query r)
  then <[(affinity_query r, (affinity_plugin r, affinity_item r)) := affinity_count r]> m
  else m.

Definition from_snapshot (s : SelectionHistorySnapshot) : SelectionHistory :=
  evict_to_capacity
    (mkHistory (foldl restore_selection ∅ (selections s)) (foldl restore_affinity ∅ (query_affinities s))).

(** * The ranker *)

Definition W_MATCH_QUALITY : f32 := f32_one.
Definition W_EXACT_PREFIX : f32 := f32_literal 35 2.
Definition W_MATCH_POSITION : f32 := f32_literal 2 2.
Definition W_CATEGORY : f32 := f32_literal 25 2.
Definition W_PLUGIN_HINT : f32 := f32_literal 2 1.
Definition W_FREQUENCY : f32 := f32_literal 3 1.
Definition W_RECENCY : f32 := f32_literal 25 2.
Definition W_QUERY_HISTORY : f32 := f32_literal 2 1.
Definition W_CONTEXT : f32 := f32_literal 15 2.
Definition W_USER_PREFERENCE : f32 := f32_literal 2 1.

Definition MIN_SCORE : f32 := SFopp W_PLUGIN_HINT.
Definition MAX_SCORE : f32 :=
  foldl f32_add W_MATCH_QUALITY
    [W_EXACT_PREFIX; W_MATCH_POSITION; W_CATEGORY; W_PLUGIN_HINT; W_FREQUENCY; W_RECENCY; W_QUERY_HISTORY;
     W_CONTEXT; W_USER_PREFERENCE].

Definition POSITION_HALF_LIFE : f32 := f32_of_integer 4.
Definition FREQUENCY_HALF_LIFE : f32 := f32_of_integer 8.
Definition RECENCY_HALF_LIFE_SECS : f32 := f32_of_integer 86400.
Definition HINT_HALF_SCALE : f32 := f32_of_integer 100.

Record RankingSignals := mkSignals {
  match_quality : f32;
  exact_prefix : bool;
  signal_position : option Z;
  category_preference : f32;
  plugin_score_hint : Z;
  selection_frequency : Z;
  selection_recency_secs : option Z;
  query_history : f32;
  context_match : bool;
  user_preference : f32;
}.
#[export] Instance eta_RankingSignals : Eta RankingSignals := fun s =>
  mkSignals (match_quality s) (exact_prefix s) (signal_position s) (category_preference s) (plugin_score_hint s)
    (selection_frequency s) (selection_recency_secs s) (query_history s) (context_match s) (user_preference s).

Definition default_signals : RankingSignals :=
  mkSignals f32_zero false None f32_zero 0 0 None f32_zero false f32_zero.

Definition sanitize (value lo hi : f32) : f32 := if f32_is_nan value then lo else f32_clamp value lo hi.

Definition saturating_rise (value half : f32) : f32 := f32_div value (f32_add value half).
Definition saturating_decay (value half : f32) : f32 := f32_div half (f32_add value half).
Definition bounded_signed (value half : f32) : f32 :=
  let scaled := f32_div value half in f32_div scaled (f32_add f32_one (f32_abs scaled)).

(** [Score]: finite, with one zero. *)
Definition new_score (value : f32) : f32 :=
  if f32_is_finite value then if f32_eq value f32_zero then f32_zero else value else f32_zero.

(** [total_cmp] of the values a score holds. *)
Definition score_compare (x y : f32) : comparison := default Eq (SFcompare x y).

(** [affinity.count_for(item)] is the lookup in the totals. *)
Definition augment (h : SelectionHistory) (item : Item) (affinity : gmap ItemKey Z) (now_secs : Z)
    (foreground_category : option Category) (signals : RankingSignals) : RankingSignals :=
  let signals :=
    match entries h !! (plugin_id item, stable_id item) with
    | Some e =>
        signals <| selection_frequency := frequency e |>
                <| selection_recency_secs :=
                     (fun selected => saturating_sub now_secs selected) <$> last_selected_secs e |>
    | None => signals
    end in
  signals <| query_history :=
               match affinity !! (plugin_id item, stable_id item) with
               | Some count => saturating_rise (f32_of_integer count) FREQUENCY_HALF_LIFE
               | None => f32_zero
               end |>
          <| context_match := is_some_and foreground_category (fun c => bool_decide (c = category item)) |>.

(** The running total after each group of terms. *)
Definition textual_total (s : RankingSignals) : f32 :=
  let total := f32_mul W_MATCH_QUALITY (sanitize (match_quality s) f32_zero f32_one) in
  let total := if exact_prefix s then f32_add total W_EXACT_PREFIX else total in
  let total :=
    match signal_position s with
    | Some position =>
        f32_add total (f32_mul W_MATCH_POSITION (saturating_decay (f32_of_integer position) POSITION_HALF_LIFE))
    | None => total
    end in
  let total := f32_add total (f32_mul W_CATEGORY (sanitize (category_preference s) f32_zero f32_one)) in
  f32_add total (f32_mul W_PLUGIN_HINT (bounded_signed (f32_of_integer (plugin_score_hint s)) HINT_HALF_SCALE)).

Definition history_total (s : RankingSignals) (total : f32) : f32 :=
  let total :=
    f32_add total (f32_mul W_FREQUENCY (saturating_rise (f32_of_integer (selection_frequency s)) FREQUENCY_HALF_LIFE)) in
  let total :=
    match selection_recency_secs s with
    | Some age => f32_add total (f32_mul W_RECENCY (saturating_decay (f32_of_integer age) RECENCY_HALF_LIFE_SECS))
    | None => total
    end in
  f32_add total (f32_mul W_QUERY_HISTORY (sanitize (query_history s) f32_zero f32_one)).

(** [DefaultRanker] carries only whether history counts. *)
Definition score_signals (history_enabled : bool) (s : RankingSignals) : f32 :=
  let total := textual_total s in
  let total := if history_enabled then history_total s total else total in
  let total := if context_match s then f32_add total W_CONTEXT else total in
  let total := f32_add total (f32_mul W_USER_PREFERENCE (sanitize (user_preference s) f32_zero f32_one)) in
  new_score (sanitize total MIN_SCORE MAX_SCORE).

Definition category_weight (c : Category) : f32 :=
  match c with
  | Application => f32_one
  | Items.Keyword => f32_literal 9 1
  | Command => f32_literal 85 2
  | Expression => f32_literal 8 1
  | Contact => f32_literal 7 1
  | Url => f32_literal 65 2
  | Directory => f32_literal 6 1
  | File => f32_literal 55 2
  | ClipboardItem => f32_literal 5 1
  | PluginDefined _ => f32_literal 5 1
  end.

(** The label is given as its characters. *)
Definition earliest_highlight (label : text) (spans : list Span) : option Z :=
  earliest ← minimum (omap (fun s => if valid_span label s then Some s.1 else None) spans);
  let before := take_while (fun ic => ic.1 <? earliest) (char_indices 0 label) in
  Some (Z.min (len before) u32_max).

Definition score_match_with_signals (history_enabled : bool) (item : Item) (summary : MatchSummary)
    (signals : RankingSignals) : f32 :=
  score_signals history_enabled
    (signals <| match_quality := s_score summary |> <| exact_prefix := bool_decide (s_method summary = ExactPrefix) |>
             <| signal_position := match_position summary |> <| category_preference := category_weight (category item) |>
             <| plugin_score_hint := score_hint item |>).

Definition score_outcome_with_signals (history_enabled : bool) (item : Item) (label : text) (outcome : MatchOutcome)
    (signals : RankingSignals) : f32 :=
  score_signals history_enabled
    (signals <| match_quality := o_score outcome |> <| exact_prefix := bool_decide (o_method outcome = ExactPrefix) |>
             <| signal_position := earliest_highlight label (highlights outcome) |>
             <| category_preference := category_weight (category item) |> <| plugin_score_hint := score_hint item |>).

Definition score_match (history_enabled : bool) (item : Item) (summary : MatchSummary) : f32 :=
  score_match_with_signals history_enabled item summary default_signals.

(** [Ranker::score]. *)
Definition score_outcome (history_enabled : bool) (item : Item) (label : text) (outcome : MatchOutcome) : f32 :=
  score_outcome_with_signals history_enabled item label outcome default_signals.

Definition non_prefix_upper_bound (history_enabled : bool) (item : Item) : f32 :=
  score_signals history_enabled
    (mkSignals (f32_literal 73 2) false (Some 0) (category_weight (category item)) (score_hint item) u32_max (Some 0)
       f32_one true f32_one).
