(* ===== verification/RankingFacts.v ===== *)
(** Properties of the selection history: it is bounded whatever is recorded or
    loaded, eviction keeps what is used most, snapshots are lossless, and the
    affinities of a query are exactly the selections made for it or for any
    continuation of it.

    And of the ranker, whatever a plugin feeds it: scores are finite and within
    their bounds, they are compared by a total order, and history that is absent
    or switched off contributes nothing. *)

From Stdlib Require Import SpecFloat.
From S2P Require Import Prelude Text StdFloat Query Items Ranking.

(** * Orders *)

(** A test that orders totally. *)
Record total_order {A} (le : A -> A -> bool) : Prop := {
  to_total x y : le x y = true \/ le y x = true;
  to_trans x y z : le x y = true -> le y z = true -> le x z = true;
  to_antisym x y : le x y = true -> le y x = true -> x = y;
}.

Lemma nat_of_ascii_inj a b : Ascii.nat_of_ascii a = Ascii.nat_of_ascii b -> a = b.
Proof. intros H. by rewrite <- (Ascii.ascii_nat_embedding a), <- (Ascii.ascii_nat_embedding b), H. Qed.

Lemma str_order : total_order str_leb.
Proof.
  split.
  - induction x as [|a x IH]; intros [|b y]; cbn -[Nat.ltb Nat.eqb]; auto. specialize (IH y).
    destruct (Nat.ltb_spec (Ascii.nat_of_ascii a) (Ascii.nat_of_ascii b)), (Nat.ltb_spec (Ascii.nat_of_ascii b) (Ascii.nat_of_ascii a)); auto.
    assert (Ascii.nat_of_ascii a = Ascii.nat_of_ascii b) as -> by lia.
    rewrite Nat.eqb_refl. exact IH.
  - induction x as [|a x IH]; intros [|b y] [|c z]; cbn -[Nat.ltb Nat.eqb]; auto; try done.
    rewrite !orb_true_iff, !andb_true_iff, !Nat.ltb_lt, !Nat.eqb_eq.
    intros [?|[? ?]] [?|[? ?]]; [left; lia | left; lia | left; lia | right; split; [lia | by eapply IH]].
  - induction x as [|a x IH]; intros [|b y]; cbn -[Nat.ltb Nat.eqb]; auto; try done.
    rewrite !orb_true_iff, !andb_true_iff, !Nat.ltb_lt, !Nat.eqb_eq.
    intros [?|[E ?]] [?|[? ?]]; try lia. apply nat_of_ascii_inj in E as ->. f_equal. by apply IH.
Qed.

Lemma pair_order {A B} (eqa : A -> A -> bool) lea (leb_ : B -> B -> bool) :
  (forall x y, eqa x y = true <-> x = y) -> total_order lea -> total_order leb_ -> total_order (pair_leb eqa lea leb_).
Proof.
  intros Heq [ta ra aa] [tb rb ab]. unfold pair_leb.
  assert (Hlt : forall x y, lea x y && negb (eqa x y) = true <-> lea x y = true /\ x <> y).
  { intros x y. rewrite andb_true_iff, negb_true_iff. split; intros [? H]; (split; [done|]).
    - intros E. apply Heq in E. congruence.
    - apply not_true_is_false. by rewrite Heq. }
  split.
  - intros [x1 x2] [y1 y2]. rewrite !orb_true_iff, !Hlt, !andb_true_iff, !Heq. cbn.
    destruct (eqa x1 y1) eqn:E.
    + apply Heq in E as ->. destruct (tb x2 y2); auto.
    + assert (x1 <> y1) by (intros ?%Heq; congruence). destruct (ta x1 y1); auto.
  - intros [x1 x2] [y1 y2] [z1 z2]. rewrite !orb_true_iff, !Hlt, !andb_true_iff, !Heq. cbn.
    intros [[? ?]|[-> ?]] [[? ?]|[-> ?]]; [left | by left | by left | right; eauto].
    split; [eauto|]. intros ->. eauto.
  - intros [x1 x2] [y1 y2]. rewrite !orb_true_iff, !Hlt, !andb_true_iff, !Heq. cbn.
    intros [[? ?]|[E ?]] [[? ?]|[? ?]]; subst; try done; [exfalso; eauto|]. f_equal. by apply ab.
Qed.

Lemma item_key_order : total_order item_key_leb.
Proof. apply pair_order; [apply String.eqb_eq | apply str_order..]. Qed.

Lemma query_key_order : total_order query_key_leb.
Proof. apply pair_order; [apply String.eqb_eq | apply str_order | apply item_key_order]. Qed.

Lemma Z_order : total_order Z.leb.
Proof. split; intros *; rewrite ?Z.leb_le; lia. Qed.

Lemma option_order : total_order option_leb.
Proof.
  split.
  - intros [x|] [y|]; cbn; rewrite ?Z.leb_le; auto; lia.
  - intros [x|] [y|] [z|]; cbn; rewrite ?Z.leb_le; auto; try done; lia.
  - intros [x|] [y|]; cbn; rewrite ?Z.leb_le; auto; try done. intros. f_equal. lia.
Qed.

Lemma rank_entry_order : total_order rank_entry_leb.
Proof.
  apply pair_order; [intros; apply bool_decide_eq_true | | apply item_key_order].
  apply pair_order; [apply Z.eqb_eq | apply Z_order | apply option_order].
Qed.

Lemma rank_count_order : total_order rank_count_leb.
Proof. apply pair_order; [apply Z.eqb_eq | apply Z_order | apply query_key_order]. Qed.

Lemma in_order_perm {K V} `{Countable K} (le : K -> K -> bool) (m : gmap K V) : in_order le m ≡ₚ map_to_list m.
Proof. apply sort_by_perm. Qed.

(** * Eviction *)

Section Eviction.
Context {K V R : Type} `{Countable K}.

Lemma foldl_delete_Some (l : list (R * K)) (m : gmap K V) k v :
  foldl (fun m r => delete r.2 m) m l !! k = Some v <-> m !! k = Some v /\ (k ∉ map snd l).
Proof.
  revert m. induction l as [|r l IH]; intros m; cbn; [set_solver|].
  rewrite IH, lookup_delete_Some. set_solver.
Qed.

Lemma foldl_delete_size (l : list (R * K)) (m : gmap K V) :
  NoDup (map snd l) -> (forall r, r ∈ l -> is_Some (m !! r.2)) ->
  (size (foldl (fun m r => delete r.2 m) m l) + length l = size m)%nat.
Proof.
  revert m. induction l as [|r l IH]; intros m Hnd Hin; cbn [foldl length]; [lia|].
  cbn [map] in Hnd. apply NoDup_cons in Hnd as [Hr Hnd].
  specialize (IH (delete r.2 m) Hnd). destruct (Hin r) as [v Hv]; [set_solver|].
  pose proof (map_size_delete_Some r.2 m (ex_intro _ v Hv)) as Hs. assert (size m <> 0)%nat.
  { intros ->%map_size_empty_inv. by rewrite lookup_empty in Hv. }
  rewrite <- plus_n_Sm, IH; [lia|]. intros x Hx. rewrite lookup_delete_ne; [apply Hin; set_solver|].
  intros E. apply Hr. rewrite E. by apply list_elem_of_fmap_2.
Qed.

Context (cap : Z) (rank : K * V -> R * K) (le : R * K -> R * K -> bool).
Hypothesis Hrank : forall kv, (rank kv).2 = kv.1.
Hypothesis Hle : total_order le.
Hypothesis Hcap : 8 <= cap.

Lemma ranked_keys (m : gmap K V) : map snd (sort_by le (map rank (map_to_list m))) ≡ₚ map fst (map_to_list m).
Proof.
  rewrite sort_by_perm, map_map. by rewrite (map_ext _ fst).
Qed.

Lemma sorted_split {A} (test : A -> A -> bool) (l : list A) n x y :
  StronglySorted (by_test test) l -> x ∈ take n l -> y ∈ drop n l -> test x y = true.
Proof.
  intros Hs. revert n. induction Hs as [|a l Hl IH Ha]; intros [|n]; cbn; [set_solver..|].
  rewrite elem_of_cons. intros [->|Hx] Hy; [|by eapply IH]. rewrite Forall_forall in Ha. apply Ha.
  by eapply elem_of_sublist, sublist_drop.
Qed.

(** Over capacity, an eighth is reclaimed; the records that stay are among the
    old ones, and rank at least as high as every record that goes. *)
Definition evicted (m m' : gmap K V) : Prop :=
  Z.of_nat (size m') = (if cap <? Z.of_nat (size m) then cap - cap / 8 else Z.of_nat (size m)) /\
  (forall k v, m' !! k = Some v -> m !! k = Some v) /\
  (forall k v k' v', m' !! k = Some v -> m !! k' = Some v' -> m' !! k' = None ->
     le (rank (k', v')) (rank (k, v)) = true).

Lemma evict_spec (m : gmap K V) : evicted m (evict cap rank le m).
Proof.
  unfold evicted, evict. destruct (Z.ltb_spec cap (Z.of_nat (size m))) as [Hbig|]; [|split_and!; naive_solver congruence]. cbv zeta.
  set (ranked := sort_by le (map rank (map_to_list m))). set (n := Z.to_nat _).
  assert (Hkeys : map snd ranked ≡ₚ map fst (map_to_list m)) by apply ranked_keys.
  assert (Hnd : NoDup (map snd (take n ranked))).
  { assert (Hall : NoDup (map snd ranked)) by (rewrite Hkeys; apply NoDup_fst_map_to_list).
    rewrite <- (take_drop n ranked), map_app in Hall. by apply NoDup_app in Hall as [Hall _]. }
  assert (Hlen : length ranked = size m).
  { unfold ranked. rewrite (sort_by_perm le), length_map. apply length_map_to_list. }
  assert (Hn : (n <= size m)%nat) by (subst n; Z.to_euclidean_division_equations; lia).
  assert (Hmem : forall k v, m !! k = Some v -> rank (k, v) ∈ ranked).
  { intros k v Hk. unfold ranked. rewrite sort_by_perm. apply list_elem_of_fmap_2. by apply elem_of_map_to_list. }
  split_and!.
  - assert (Hsize : (size (foldl (fun m r => delete r.2 m) m (take n ranked)) + length (take n ranked) = size m)%nat).
    { apply foldl_delete_size; [done|]. intros r Hr. assert (Hk : r.2 ∈ map fst (map_to_list m)).
      { rewrite <- Hkeys. apply list_elem_of_fmap_2. eapply elem_of_sublist; [exact Hr | apply sublist_take]. }
      apply list_elem_of_fmap in Hk as ([k v] & -> & Hk). apply elem_of_map_to_list in Hk. eauto. }
    rewrite length_take in Hsize. subst n. Z.to_euclidean_division_equations. lia.
  - intros k v [? _]%foldl_delete_Some. done.
  - intros k v k' v' [Hk Hkeep]%foldl_delete_Some Hk' Hgone.
    assert (Hdrop : k' ∈ map snd (take n ranked)).
    { destruct (decide (k' ∈ map snd (take n ranked))) as [?|Hno]; [done|].
      rewrite (proj2 (foldl_delete_Some _ _ k' v')) in Hgone by done. done. }
    apply list_elem_of_fmap in Hdrop as (r & Er & Hr).
    assert (r = rank (k', v')) as ->.
    { pose proof Hr as Hin. eapply elem_of_sublist in Hin; [|apply sublist_take]. unfold ranked in Hin.
      rewrite sort_by_perm in Hin. apply list_elem_of_fmap in Hin as ([k1 v1] & -> & H1).
      apply elem_of_map_to_list in H1. rewrite Hrank in Er. cbn in Er. subst. congruence. }
    eapply (sorted_split le ranked n); [|exact Hr|].
    + apply sort_by_sorted; apply Hle.
    + pose proof (Hmem k v Hk) as Hin. rewrite <- (take_drop n ranked), elem_of_app in Hin.
      destruct Hin as [Hin|?]; [|done]. exfalso. apply Hkeep. replace k with (rank (k, v)).2 by apply Hrank.
      by apply list_elem_of_fmap_2.
Qed.
End Eviction.

(** * The history is bounded *)

Definition history_ok (h : SelectionHistory) : Prop :=
  Z.of_nat (size (entries h)) <= MAX_ITEM_RECORDS /\ Z.of_nat (size (query_counts h)) <= MAX_QUERY_AFFINITIES /\
  (forall k v, entries h !! k = Some v -> item_key_fits k.1 k.2 = true) /\
  (forall k v, query_counts h !! k = Some v -> affinity_key_fits k.2.1 k.2.2 k.1 = true).

(** What is done with a history. *)
Inductive HistoryOp : Type :=
  | DoRecord (plugin : PluginId) (item : ItemId) (query : string) (now_secs : Z)
  | DoLoad (s : SelectionHistorySnapshot)
  | DoClear.

Definition history_step (h : SelectionHistory) (o : HistoryOp) : SelectionHistory :=
  match o with
  | DoRecord plugin item query now => record_selection h plugin item query now
  | DoLoad s => from_snapshot s
  | DoClear => clear h
  end.

Definition default_history : SelectionHistory := mkHistory ∅ ∅.

Lemma evict_entries_spec m :
  evicted MAX_ITEM_RECORDS rank_entry rank_entry_leb m (evict MAX_ITEM_RECORDS rank_entry rank_entry_leb m).
Proof. by apply evict_spec; [| apply rank_entry_order |]. Qed.

Lemma evict_counts_spec m :
  evicted MAX_QUERY_AFFINITIES rank_count rank_count_leb m (evict MAX_QUERY_AFFINITIES rank_count rank_count_leb m).
Proof. by apply evict_spec; [| apply rank_count_order |]. Qed.

Lemma evicted_ok h :
  (forall k v, entries h !! k = Some v -> item_key_fits k.1 k.2 = true) ->
  (forall k v, query_counts h !! k = Some v -> affinity_key_fits k.2.1 k.2.2 k.1 = true) ->
  history_ok (evict_to_capacity h).
Proof.
  intros He Hq. destruct h as [e q]. cbn in *. unfold evict_to_capacity. cbn.
  destruct (evict_entries_spec e) as (Hs & Hsub & _), (evict_counts_spec q) as (Hs' & Hsub' & _).
  unfold history_ok. cbn. rewrite Hs, Hs'. split_and!; [| |naive_solver..].
  - destruct (Z.ltb_spec MAX_ITEM_RECORDS (Z.of_nat (size e))); [done | lia].
  - destruct (Z.ltb_spec MAX_QUERY_AFFINITIES (Z.of_nat (size q))); [done | lia].
Qed.

Lemma upsert_lookup {K V} `{Countable K} (d : V) f k (m : gmap K V) j v :
  upsert d f k m !! j = Some v -> j = k \/ m !! j = Some v.
Proof. unfold upsert. intros [[-> _]|[_ ?]]%lookup_insert_Some; auto. Qed.

Lemma record_ok h plugin item query now : history_ok h -> history_ok (record_selection h plugin item query now).
Proof.
  intros Hh. pose proof Hh as (_ & _ & He & Hq). unfold record_selection. destruct (item_key_fits plugin item) eqn:Hfit; [|done]. cbn [negb].
  apply evicted_ok; intros k v.
  - destruct (affinity_key_fits plugin item query); cbn -[upsert]; (intros [->|Hk]%upsert_lookup; [done | by eapply He]).
  - destruct (affinity_key_fits plugin item query) eqn:Hfit'; cbn -[upsert]; [|by apply Hq].
    intros [->|Hk]%upsert_lookup; [done | by eapply Hq].
Qed.

Lemma restored_ok {R K V} `{Countable K} (P : K -> Prop) (f : gmap K V -> R -> gmap K V) l m :
  (forall m r, (forall k v, m !! k = Some v -> P k) -> forall k v, f m r !! k = Some v -> P k) ->
  (forall k v, m !! k = Some v -> P k) -> forall k v, foldl f m l !! k = Some v -> P k.
Proof. intros Hf. revert m. induction l as [|r l IH]; intros m Hm; cbn; [done|]. apply IH. by apply Hf. Qed.

Lemma from_snapshot_ok s : history_ok (from_snapshot s).
Proof.
  apply evicted_ok; cbn; intros k v.
  - apply (restored_ok (fun k => item_key_fits k.1 k.2 = true)); [|by intros ? ? ?%lookup_empty_Some].
    intros m r Hm k' v'. unfold restore_selection. destruct (item_key_fits _ _) eqn:E; [|apply Hm].
    intros [[<- _]|[_ ?]]%lookup_insert_Some; [done | by eapply Hm].
  - apply (restored_ok (fun k => affinity_key_fits k.2.1 k.2.2 k.1 = true)); [|by intros ? ? ?%lookup_empty_Some].
    intros m r Hm k' v'. unfold restore_affinity. destruct (affinity_key_fits _ _ _) eqn:E; [|apply Hm].
    intros [[<- _]|[_ ?]]%lookup_insert_Some; [done | by eapply Hm].
Qed.

Lemma history_reachable_ok ops : history_ok (foldl history_step default_history ops).
Proof.
  assert (Hgen : forall h, history_ok h -> history_ok (foldl history_step h ops)).
  { induction ops as [|o ops IH]; intros h Hh; cbn; [done|]. apply IH. destruct o; cbn.
    - by apply record_ok.
    - apply from_snapshot_ok.
    - unfold history_ok, clear. cbn. rewrite !map_size_empty. split_and!; [done | done | |]; by intros ? ? ?%lookup_empty_Some. }
  apply Hgen. unfold history_ok. cbn. rewrite !map_size_empty. split_and!; [done | done | |]; by intros ? ? ?%lookup_empty_Some.
Qed.

(** The history stays small and forgets the least used.  After any sequence of
    selections, loads of arbitrary snapshots and clears, both tables are within
    their caps and hold no oversized key.  When recording a selection makes room,
    every item it drops was picked at most as often as every item it keeps. *)
Theorem history_bounded ops plugin item query now :
  let h := foldl history_step default_history ops in
  let e := upsert (mkHistoryEntry 0 None)
             (fun x => mkHistoryEntry (saturating_add u32_max (frequency x) 1) (Some now)) (plugin, item) (entries h) in
  let h' := record_selection h plugin item query now in
  history_ok h /\ history_ok h' /\
  (item_key_fits plugin item = true ->
   (forall k v, entries h' !! k = Some v -> e !! k = Some v) /\
   (forall k v k' v', entries h' !! k = Some v -> e !! k' = Some v' -> entries h' !! k' = None ->
      frequency v' <= frequency v)).
Proof.
  intros h e h'. pose proof (history_reachable_ok ops) as Hh. fold h in Hh.
  split_and!; [done | by apply record_ok|]. intros Hfit.
  assert (He : entries h' = evict MAX_ITEM_RECORDS rank_entry rank_entry_leb e).
  { subst h'. unfold record_selection. rewrite Hfit. cbn [negb]. destruct (affinity_key_fits plugin item query); done. }
  rewrite He. destruct (evict_entries_spec e) as (_ & Hsub & Hbest). split; [exact Hsub|].
  intros k v k' v' H1 H2 H3. specialize (Hbest k v k' v' H1 H2 H3). unfold rank_entry_leb, rank_entry, pair_leb in Hbest.
  cbn in Hbest. rewrite !orb_true_iff, !andb_true_iff, orb_true_iff, !andb_true_iff, bool_decide_eq_true, !Z.leb_le, !Z.eqb_eq in Hbest.
  destruct Hbest as [[[[? _]|[? _]] _]|[? _]]; [done | lia | simplify_eq; lia].
Qed.

(** * Snapshots *)

Lemma restore_in_order {K V R} `{Countable K} (m0 m : gmap K V) (l : list (K * V)) (f : gmap K V -> R -> gmap K V) (g : K * V -> R) :
  (forall m k v, (k, v) ∈ l -> f m (g (k, v)) = <[k := v]> m) ->
  foldl f m0 (map g l) = foldl (fun m kv => <[kv.1 := kv.2]> m) m0 l.
Proof.
  revert m0. induction l as [|[k v] l IH]; intros m0 Hf; cbn; [done|]. rewrite Hf by set_solver. apply IH.
  intros. apply Hf. set_solver.
Qed.

Lemma foldl_insert_lookup {K V} `{Countable K} (l : list (K * V)) (m : gmap K V) k :
  NoDup (map fst l) ->
  foldl (fun m kv => <[kv.1 := kv.2]> m) m l !! k
  = match list_to_map (M := gmap K V) l !! k with Some v => Some v | None => m !! k end.
Proof.
  revert m. induction l as [|[j v] l IH]; intros m Hnd; [by cbn; rewrite lookup_empty|].
  cbn [map fst] in Hnd. apply NoDup_cons in Hnd as [Hj Hnd]. cbn [foldl list_to_map foldr fst snd].
  rewrite IH by done. destruct (decide (k = j)) as [->|Hne].
  - rewrite lookup_insert_eq. cbn. rewrite not_elem_of_list_to_map_1 by done. by rewrite !lookup_insert_eq.
  - cbn. by rewrite !lookup_insert_ne by done.
Qed.

Lemma foldl_insert_all {K V} `{Countable K} (le : K -> K -> bool) (m : gmap K V) :
  foldl (fun m kv => <[kv.1 := kv.2]> m) ∅ (in_order le m) = m.
Proof.
  apply map_eq. intros k. pose proof (in_order_perm le m) as Hp.
  assert (Hnd : NoDup (map fst (in_order le m))) by (rewrite Hp; apply NoDup_fst_map_to_list).
  rewrite foldl_insert_lookup by done. rewrite (list_to_map_proper _ (map_to_list m)) by done.
  rewrite list_to_map_to_list. rewrite lookup_empty. by destruct (m !! k).
Qed.

Lemma evict_none {K V R} `{Countable K} cap (rank : K * V -> R * K) le (m : gmap K V) :
  Z.of_nat (size m) <= cap -> evict cap rank le m = m.
Proof. intros Hs. unfold evict. by rewrite (proj2 (Z.ltb_ge _ _) Hs). Qed.

(** Snapshots are lossless.  The history that comes back from the snapshot of a
    history is that history, record for record, so a restart changes no ranking
    signal. *)
Theorem snapshot_lossless ops :
  from_snapshot (snapshot (foldl history_step default_history ops)) = foldl history_step default_history ops.
Proof.
  pose proof (history_reachable_ok ops) as (Hs & Hs' & He & Hq). destruct (foldl history_step default_history ops) as [e q].
  cbn [entries query_counts] in *. unfold from_snapshot, snapshot. cbn [entries query_counts selections query_affinities].
  assert (E1 : foldl restore_selection ∅ (map (fun kv => mkSelection kv.1.1 kv.1.2 (frequency kv.2) (last_selected_secs kv.2))
                 (in_order item_key_leb e)) = e).
  { rewrite (restore_in_order ∅ ∅); [apply foldl_insert_all|]. intros m [p i] v Hin. rewrite in_order_perm in Hin.
    apply elem_of_map_to_list in Hin. pose proof (He _ _ Hin) as Hf. unfold restore_selection.
    cbn -[item_key_fits] in *. rewrite Hf. by destruct v. }
  assert (E2 : foldl restore_affinity ∅ (map (fun kv => mkAffinity kv.1.2.1 kv.1.2.2 kv.1.1 kv.2)
                 (in_order query_key_leb q)) = q).
  { rewrite (restore_in_order ∅ ∅); [apply foldl_insert_all|]. intros m [t [p i]] v Hin. rewrite in_order_perm in Hin.
    apply elem_of_map_to_list in Hin. pose proof (Hq _ _ Hin) as Hf. unfold restore_affinity.
    cbn -[affinity_key_fits] in *. by rewrite Hf. }
  rewrite E1, E2.
  change (mkHistory (evict MAX_ITEM_RECORDS rank_entry rank_entry_leb e) (evict MAX_QUERY_AFFINITIES rank_count rank_count_leb q)
    = mkHistory e q). by rewrite !evict_none.
Qed.

(** * Affinities *)

Lemma prefix_order q x : String.prefix q x = true -> str_leb q x = true.
Proof.
  revert x. induction q as [|a q IH]; intros [|b x]; cbn -[Nat.ltb Nat.eqb]; auto.
  destruct (Ascii.ascii_dec a b) as [->|]; [|done]. intros H. rewrite Nat.eqb_refl, IH by done. by rewrite orb_true_r.
Qed.

(** The strings with a given prefix are an interval of the order. *)
Lemma prefix_convex q x y :
  str_leb q x = true -> str_leb x y = true -> String.prefix q y = true -> String.prefix q x = true.
Proof.
  revert x y. induction q as [|a q IH]; intros [|b x] [|c y]; cbn -[Nat.ltb Nat.eqb]; auto; try done.
  destruct (Ascii.ascii_dec a c) as [->|]; [|done].
  rewrite !orb_true_iff, !andb_true_iff, !Nat.ltb_lt, !Nat.eqb_eq.
  intros [?|[E1 ?]] [?|[E2 ?]] ?; try lia. apply nat_of_ascii_inj in E1 as ->.
  destruct (Ascii.ascii_dec b b); [by eapply IH | done].
Qed.

Definition continues (query : string) (kv : QueryKey * Z) : bool := String.prefix query kv.1.1.

Lemma range_start query (kv : QueryKey * Z) : query_key_leb (query, ("", "")%string) kv.1 = str_leb query kv.1.1.
Proof.
  destruct kv as [[x [p i]] v]. unfold query_key_leb, item_key_leb, pair_leb. cbn.
  destruct (String.eqb_spec query x) as [->|]; cbn; [|by rewrite andb_true_r, orb_false_r].
  rewrite andb_false_r. destruct (to_total str_leb str_order x x) as [H|H]; rewrite H; by destruct p.
Qed.

Lemma key_order_query k k' : query_key_leb k k' = true -> str_leb k.1 k'.1 = true.
Proof.
  unfold query_key_leb, pair_leb. rewrite orb_true_iff, !andb_true_iff. intros [[? _]|[E _]]; [done|].
  apply String.eqb_eq in E as ->. by destruct (to_total str_leb str_order k'.1 k'.1).
Qed.

Lemma take_while_none {A} (p : A -> bool) l : (forall x, x ∈ l -> p x = false) -> take_while p l = [].
Proof. intros H. destruct l as [|x l]; cbn; [done|]. by rewrite H by set_solver. Qed.

(** On the sorted records the scan of the range finds every continuation. *)
Lemma range_scan query l :
  StronglySorted (by_test (fun x y : QueryKey * Z => query_key_leb x.1 y.1)) l ->
  take_while (continues query) (List.filter (fun kv => query_key_leb (query, ("", "")%string) kv.1) l)
  = List.filter (continues query) l.
Proof.
  induction 1 as [|kv l Hl IH Hkv]; cbn [List.filter take_while]; [done|]. rewrite range_start.
  destruct (continues query kv) eqn:Hc.
  - rewrite prefix_order by exact Hc. cbn [take_while]. by rewrite Hc, IH.
  - destruct (str_leb query kv.1.1) eqn:Hq; [|by rewrite IH]. cbn [take_while]. rewrite Hc.
    destruct (List.filter (continues query) l) as [|y r] eqn:Hf; [done|].
    assert (Hy : In y (List.filter (continues query) l)) by (rewrite Hf; left; done).
    apply filter_In in Hy as [Hy Hp]. rewrite Forall_forall in Hkv. apply list_elem_of_In in Hy.
    pose proof (key_order_query _ _ (Hkv _ Hy)) as Hle.
    unfold continues in Hc. by rewrite (prefix_convex query kv.1.1 y.1.1) in Hc.
Qed.

Definition total_up (totals : gmap ItemKey Z) (kv : QueryKey * Z) : gmap ItemKey Z :=
  upsert 0 (fun total => saturating_add u32_max total kv.2) kv.1.2 totals.

Definition of_item (k : ItemKey) (kv : QueryKey * Z) : bool := bool_decide (kv.1.2 = k).

Definition sum_counts (l : list (QueryKey * Z)) : Z := foldr (fun kv s => kv.2 + s) 0 l.

Definition capped_sum (l : list (QueryKey * Z)) : option Z :=
  match l with [] => None | _ => Some (Z.min u32_max (sum_counts l)) end.

Lemma sum_counts_nonneg l : Forall (fun kv => 0 <= kv.2) l -> 0 <= sum_counts l.
Proof. induction 1; cbn [sum_counts foldr]; [done|]. fold (sum_counts l). lia. Qed.

Lemma totals_lookup l totals k :
  Forall (fun kv => 0 <= kv.2) l ->
  foldl total_up totals l !! k
  = match List.filter (of_item k) l with
    | [] => totals !! k
    | own => Some (Z.min u32_max (default 0 (totals !! k) + sum_counts own))
    end.
Proof.
  intros Hl. revert totals. induction Hl as [|kv l Hkv Hl IH]; intros totals; cbn [foldl List.filter]; [done|].
  rewrite IH. unfold total_up, upsert at 1 2. destruct (of_item k kv) eqn:E; unfold of_item in E;
    [apply bool_decide_eq_true in E | apply bool_decide_eq_false in E].
  - subst k. rewrite lookup_insert_eq. cbn [default].
    assert (Hs : 0 <= sum_counts (List.filter (of_item kv.1.2) l)).
    { apply sum_counts_nonneg. rewrite Forall_forall in Hl |- *. intros x Hx. apply list_elem_of_In, filter_In in Hx as [Hx _].
      apply Hl. by apply list_elem_of_In. }
    destruct (List.filter (of_item kv.1.2) l) as [|y r];
      unfold sum_counts, saturating_add in *; cbn [foldr default] in *; f_equal; cbn; lia.
  - rewrite lookup_insert_ne by done. done.
Qed.

Lemma filter_filter_and {A} (p q : A -> bool) l :
  List.filter p (List.filter q l) = List.filter (fun x => q x && p x) l.
Proof. induction l as [|x l IH]; cbn; [done|]. destruct (q x); cbn; [destruct (p x)|]; by rewrite IH. Qed.

#[global] Instance capped_sum_perm : Proper ((≡ₚ) ==> eq) capped_sum.
Proof.
  intros l l' Hp. assert (Hs : sum_counts l = sum_counts l').
  { induction Hp; cbn [sum_counts foldr] in *; unfold sum_counts in *; lia. }
  unfold capped_sum. rewrite Hs. pose proof (Permutation_length Hp). by destruct l, l'.
Qed.

#[global] Instance list_filter_perm {A} (p : A -> bool) : Proper ((≡ₚ) ==> (≡ₚ)) (List.filter p).
Proof.
  intros l l' Hp. induction Hp as [|x l l' _ IH|x y l| l1 l2 l3 _ IH1 _ IH2]; cbn; [done| | |by rewrite IH1].
  - destruct (p x); by rewrite IH.
  - destruct (p x), (p y); [apply Permutation_swap | done..].
Qed.

(** What was typed on the way to a selection counts.  The affinity of an item for
    a query is the sum, capped at the counter's width, of the counts recorded for
    the item under that query and under every continuation of it; an item never
    picked under any of them has no entry.  The empty query has no affinities. *)
Theorem affinities_sum_continuations h query k :
  (forall j n, query_counts h !! j = Some n -> 0 <= n <= u32_max) ->
  affinities_for h query !! k
  = if String.eqb query "" then None
    else capped_sum (List.filter (fun kv => continues query kv && of_item k kv) (map_to_list (query_counts h))).
Proof.
  intros Hn. unfold affinities_for. destruct (String.eqb query ""); [apply lookup_empty|].
  set (l := in_order query_key_leb (query_counts h)).
  assert (Hl : StronglySorted (by_test (fun x y : QueryKey * Z => query_key_leb x.1 y.1)) l).
  { destruct query_key_order as [ht hr _]. apply sort_by_sorted; eauto. }
  change (take_while _ _) with
    (take_while (continues query) (List.filter (fun kv => query_key_leb (query, ("", "")%string) kv.1) l)).
  rewrite (range_scan query l Hl). change (foldl _ ∅ ?r) with (foldl total_up ∅ r).
  rewrite totals_lookup.
  - rewrite lookup_empty, filter_filter_and. rewrite <- (in_order_perm query_key_leb (query_counts h)). fold l.
    by destruct (List.filter _ l).
  - apply Forall_forall. intros [j n] Hin. apply list_elem_of_In, filter_In in Hin as [Hin _].
    apply list_elem_of_In in Hin. unfold l in Hin. rewrite in_order_perm in Hin.
    apply elem_of_map_to_list in Hin. cbn. by apply Hn in Hin as [? _].
Qed.

Definition sample_history : SelectionHistory :=
  foldl history_step default_history
    [DoRecord "apps" "chrome" "chr" 10; DoRecord "apps" "chrome" "chrome" 20; DoRecord "apps" "calc" "calc" 30].

Lemma affinities_sum_continuations_witness :
  affinities_for sample_history "ch" !! ("apps", "chrome")%string = Some 2.
Proof.
  refine (eq_trans (affinities_sum_continuations sample_history "ch" ("apps", "chrome")%string _) _).
  - intros j n Hj. apply elem_of_map_to_list in Hj. revert Hj.
    replace (map_to_list (query_counts sample_history)) with
      [(("calc", ("apps", "calc")), 1); (("chrome", ("apps", "chrome")), 1); (("chr", ("apps", "chrome")), 1)]%string
      by (vm_compute; reflexivity).
    rewrite !elem_of_cons. intros [E|[E|[E|E%elem_of_nil]]]; [simplify_eq; by split..].
  - vm_compute. reflexivity.
Defined.

Lemma sanitize_range x lo hi :
  f32_le lo hi = true -> f32_le lo (sanitize x lo hi) = true /\ f32_le (sanitize x lo hi) hi = true.
Proof.
  intros Hle. unfold sanitize. destruct (f32_is_nan x) eqn:Hx; [|by apply f32_clamp_range].
  split; [|done]. apply f32_le_refl. by apply f32_le_key in Hle as [? _].
Qed.

Lemma between_finite x lo hi :
  f32_is_finite lo = true -> f32_is_finite hi = true -> f32_le lo x = true -> f32_le x hi = true -> f32_is_finite x = true.
Proof.
  rewrite !f32_le_key. unfold key_lt. intros Hlo Hhi (_ & Hx & H1) (_ & _ & H2).
  destruct x as [| [] | |]; try done; exfalso.
  - destruct lo as [| | |[]]; cbn in *; try done; lia.
  - destruct hi as [| | |[]]; cbn in *; try done; lia.
Qed.

Definition is_zero (x : f32) : bool := match x with S754_zero _ => true | _ => false end.

Lemma f32_eq_zero x : f32_eq x f32_zero = is_zero x.
Proof. by destruct x as [[]|[]| |[]]. Qed.

(** What a score holds: a finite value, with one zero. *)
Definition score_value (x : f32) : Prop := f32_is_finite x = true /\ x <> S754_zero true.

Lemma new_score_value x : score_value (new_score x).
Proof.
  unfold new_score, score_value. destruct (f32_is_finite x) eqn:Hx; [|done].
  rewrite f32_eq_zero. destruct (is_zero x) eqn:Hz; [done|]. split; [done|]. by intros ->.
Qed.

Lemma new_score_between x lo hi :
  f32_is_finite lo = true -> f32_is_finite hi = true -> f32_le lo x = true -> f32_le x hi = true ->
  f32_le lo (new_score x) = true /\ f32_le (new_score x) hi = true.
Proof.
  intros Hlo Hhi H1 H2. unfold new_score. rewrite (between_finite x lo hi), f32_eq_zero by done.
  by destruct x as [[]| | |].
Qed.

Lemma score_value_number x : score_value x -> f32_is_nan x = false.
Proof. intros [H _]. by destruct x. Qed.

Lemma score_key_inj x y : score_value x -> score_value y -> f32_key x = f32_key y -> x = y.
Proof.
  intros [Hx Hx'] [Hy Hy'].
  destruct x as [[]| | |[] m e], y as [[]| | |[] m' e']; try done; cbn; intros [=]; f_equal; lia.
Qed.

Lemma score_compare_spec x y :
  score_value x -> score_value y ->
  match score_compare x y with
  | Lt => key_lt (f32_key x) (f32_key y)
  | Eq => x = y
  | Gt => key_lt (f32_key y) (f32_key x)
  end.
Proof.
  intros Hx Hy. pose proof (SFcompare_key x y (score_value_number x Hx) (score_value_number y Hy)) as H.
  unfold score_compare. destruct (SFcompare x y) as [[]|]; cbn; try done. by apply score_key_inj.
Qed.

(** Hostile signals cannot spoil the order.  Whatever the ten signals are, NaN and
    infinities included, the score is a finite number between the lowest and the
    highest score and never the negative zero; and scores are totally ordered: equal
    only if they are the same value, antisymmetric and transitive. *)
Theorem scores_finite_and_ordered enabled s s' s'' :
  let x := score_signals enabled s in
  let y := score_signals enabled s' in
  let z := score_signals enabled s'' in
  (score_value x /\ f32_le MIN_SCORE x = true /\ f32_le x MAX_SCORE = true) /\
  (score_compare x y = Eq <-> x = y) /\ score_compare y x = CompOpp (score_compare x y) /\
  (score_compare x y = Lt -> score_compare y z = Lt -> score_compare x z = Lt).
Proof.
  intros x y z.
  assert (Hv : forall s, score_value (score_signals enabled s)) by (intros; apply new_score_value).
  pose proof (score_compare_spec x y (Hv _) (Hv _)) as Hxy. pose proof (score_compare_spec y x (Hv _) (Hv _)) as Hyx.
  pose proof (score_compare_spec y z (Hv _) (Hv _)) as Hyz. pose proof (score_compare_spec x z (Hv _) (Hv _)) as Hxz.
  pose proof (score_compare_spec x x (Hv _) (Hv _)) as Hxx.
  split; [split; [apply Hv|]|].
  - apply new_score_between; try done; by apply sanitize_range.
  - unfold key_lt in *. split_and!.
    + split; [intros E; by rewrite E in Hxy|]. intros E. rewrite <- E. destruct (score_compare x x); [done | lia..].
    + destruct (score_compare x y), (score_compare y x); cbn; try done; subst; exfalso; try lia.
      all: try (rewrite Hxy in Hyx; lia). all: try (rewrite Hyx in Hxy; lia).
    + intros E E'. rewrite E in Hxy. rewrite E' in Hyz. destruct (score_compare x z); [|done|]; [rewrite Hxz in Hxy|]; lia.
Qed.

(** * Switching history off *)

(** Equal but for the sign of a zero. *)
Definition same_value (x y : f32) : Prop := x = y \/ (is_zero x = true /\ is_zero y = true).

#[global] Instance same_value_equiv : Equivalence same_value.
Proof.
  split; unfold same_value; [by left | |].
  - intros x y [->|[? ?]]; auto.
  - intros x y z [->|[? ?]] [->|[? ?]]; auto.
Qed.

#[global] Instance f32_add_same : Proper (same_value ==> same_value ==> same_value) f32_add.
Proof.
  intros x x' Hx y y' Hy. unfold same_value in *.
  destruct Hx as [->|[Hx Hx']], Hy as [->|[Hy Hy']]; auto.
  - destruct y as [[]| | |], y' as [[]| | |]; try done; destruct x' as [[]| | |]; cbn; auto.
  - destruct x as [[]| | |], x' as [[]| | |]; try done; destruct y' as [[]| | |]; cbn; auto.
  - destruct x as [[]| | |], x' as [[]| | |]; try done; destruct y as [[]| | |], y' as [[]| | |]; cbn; auto; done.
Qed.

Lemma f32_add_zero x y : is_zero y = true -> same_value (f32_add x y) x.
Proof. destruct y as [[]| | |]; try done; intros _; destruct x as [[]| | |]; cbn; (by left) || (by right). Qed.

Lemma new_score_same x y lo hi :
  is_zero lo = false -> is_zero hi = false -> same_value x y -> new_score (sanitize x lo hi) = new_score (sanitize y lo hi).
Proof.
  intros Hlo Hhi [->|[Hx Hy]]; [done|].
  assert (E : forall v, is_zero v = true ->
    sanitize v lo hi = (let w := if f32_lt f32_zero lo then lo else v in if f32_lt hi w then hi else w)).
  { intros [[]| | |]; try done; intros _; unfold sanitize, f32_clamp; cbn; by destruct lo as [|[]| |[]]. }
  rewrite !E by done. cbv zeta. destruct (f32_lt f32_zero lo); [done|].
  destruct x as [[]| | |], y as [[]| | |]; try done; destruct hi as [|[]| |[]]; done.
Qed.

(** A query affinity that is not positive, or no number, counts as none. *)
Lemma no_affinity x : f32_lt f32_zero x = false -> is_zero (f32_mul W_QUERY_HISTORY (sanitize x f32_zero f32_one)) = true.
Proof. by destruct x as [[]|[]| |[]]. Qed.

(** An item without history ranks the same under either policy.  When an item was
    never selected, and has no affinity to the query, its score with history enabled
    is its score with history disabled; and the disabled score never depends on the
    history signals. *)
Theorem absent_history_neutral s :
  selection_frequency s = 0 -> selection_recency_secs s = None -> f32_lt f32_zero (query_history s) = false ->
  score_signals true s = score_signals false s /\
  forall n age affinity,
    score_signals false (s <| selection_frequency := n |> <| selection_recency_secs := age |> <| query_history := affinity |>)
    = score_signals false s.
Proof.
  intros Hf Hr Hq. split; [|done]. unfold score_signals. cbv zeta.
  assert (Hh : same_value (history_total s (textual_total s)) (textual_total s)).
  { unfold history_total. rewrite Hf, Hr. rewrite f32_add_zero by (by apply no_affinity). by rewrite f32_add_zero. }
  apply new_score_same; [done | done|]. destruct (context_match s); by rewrite Hh.
Qed.

Lemma absent_history_neutral_witness :
  score_signals true (default_signals <| match_quality := f32_literal 5 1 |>) =
  score_signals false (default_signals <| match_quality := f32_literal 5 1 |>).
Proof. by refine (proj1 (absent_history_neutral (default_signals <| match_quality := f32_literal 5 1 |>) _ _ _)). Defined.

(** The curves that are described as approaching one reach it: the largest count is
    so far above the half-life that the sum rounds to the count itself. *)
Theorem rise_reaches_one : saturating_rise (f32_of_integer u32_max) FREQUENCY_HALF_LIFE = f32_one.
Proof. vm_compute. reflexivity. Qed.
