(* ===== verification/RankingBound.v ===== *)
(** The upper bound that lets a search skip items: no match by anything weaker
    than a prefix scores above [non_prefix_upper_bound], whatever the history and
    the context, with the binary32 rounding of every term taken into account. *)

From Stdlib Require Import SpecFloat.
From S2P Require Import Prelude StdFloat Text Items Query QueryText QueryScores QueryNarrow.
From S2P Require Import Ranking RankingFacts.

(** * Sizes *)

Definition within (k : Z) (x : f32) : Prop := finite x /\ Z.abs (val x) <= 2 ^ (149 + k).

Lemma RZ_within v k : 0 <= k <= 100 -> Z.abs v <= 2 ^ (149 + k) -> Z.abs (RZ v) <= 2 ^ (149 + k).
Proof.
  intros Hk Hv. pose proof (RN_power k Hk) as Hp. unfold RZ. destruct (Z.ltb_spec v 0).
  - pose proof (RN_mono (- v) (2 ^ (149 + k)) ltac:(lia)). pose proof (RN_nonneg (- v) ltac:(lia)). lia.
  - pose proof (RN_mono v (2 ^ (149 + k)) ltac:(lia)). pose proof (RN_nonneg v ltac:(lia)). lia.
Qed.

Lemma power_top k : 0 <= k <= 100 -> 2 ^ (149 + k) < TOP.
Proof. intros Hk. apply Z.pow_lt_mono_r; lia. Qed.

Lemma within_number k x : 0 <= k <= 100 -> number x -> Z.abs (val x) <= 2 ^ (149 + k) -> within k x.
Proof. intros Hk Hn Hv. split; [|done]. pose proof (power_top k Hk). apply finite_between; [done | lia]. Qed.

Lemma within_weaken k k' x : 0 <= k <= k' -> within k x -> within k' x.
Proof. intros Hk [Hf Hv]. split; [done|]. etransitivity; [exact Hv|]. apply Z.pow_le_mono_r; lia. Qed.

Lemma add_within k x y : 0 <= k <= 99 -> within k x -> within k y -> within (k + 1) (f32_add x y).
Proof.
  intros Hk [Hx Hvx] [Hy Hvy]. destruct (add_val x y Hx Hy) as [Hn Hv]. apply within_number; [lia | done|]. rewrite Hv.
  apply RZ_within; [lia|]. replace (149 + (k + 1)) with (Z.succ (149 + k)) by lia. rewrite Z.pow_succ_r by lia. lia.
Qed.

(** Two running totals, the second at least the first. *)
Definition below (k : Z) (x y : f32) : Prop := within k x /\ within k y /\ val x <= val y.

Lemma below_refl k x : within k x -> below k x x.
Proof. intros H. by split_and!. Qed.

Lemma below_weaken k k' x y : 0 <= k <= k' -> below k x y -> below k' x y.
Proof. intros Hk (Hx & Hy & H). split_and!; [by eapply within_weaken.. | done]. Qed.

Lemma below_add k x y z w : 0 <= k <= 99 -> below k x y -> below k z w -> below (k + 1) (f32_add x z) (f32_add y w).
Proof.
  intros Hk (Hx & Hy & H) (Hz & Hw & H'). split_and!; [by apply add_within.. |]. apply add_mono_both; [apply Hx | apply Hy | apply Hz | apply Hw | done | done].
Qed.

Lemma below_above k x y w : 0 <= k <= 99 -> below k x y -> within k w -> 0 <= val w -> below (k + 1) x (f32_add y w).
Proof.
  intros Hk (Hx & Hy & H) Hw H0. split_and!; [apply (within_weaken k); [lia | done] | by apply add_within|].
  etransitivity; [exact H|]. by apply add_above; [apply Hy | apply Hw |].
Qed.

(** * Terms *)

Definition unit_value (x : f32) : Prop := finite x /\ 0 <= val x <= val f32_one.

Definition weight (c : f32) : Prop := full c /\ val (f32_mul c f32_one) <= val f32_one.

Lemma weighted c x : weight c -> unit_value x -> within 0 (f32_mul c x) /\ 0 <= val (f32_mul c x).
Proof.
  intros [Hc H1] [Hx Hv]. pose proof (mul_nonneg c x Hc Hx (proj1 Hv)) as H0. split; [|done].
  apply within_number; [lia | by apply mul_val; [..|lia]|].
  pose proof (mul_mono c x f32_one Hc Hx finite_one Hv). rewrite val_one in *. change (149 + 0) with 149. lia.
Qed.

Lemma below_weighted c x y : weight c -> unit_value x -> unit_value y -> val x <= val y -> below 0 (f32_mul c x) (f32_mul c y).
Proof.
  intros Hc Hx Hy H. split_and!; [by apply weighted.. |]. apply mul_mono; [apply Hc | apply Hx | apply Hy|]. split; [apply Hx | done].
Qed.

Lemma number_zero : number f32_zero.
Proof. done. Qed.

Lemma sanitize_unit x : number x \/ f32_is_nan x = true ->
  unit_value (sanitize x f32_zero f32_one) /\ val (sanitize x f32_zero f32_one) = if f32_is_nan x then 0 else Z.max 0 (Z.min (val x) (val f32_one)).
Proof.
  intros Hx. unfold sanitize. destruct (f32_is_nan x) eqn:E; [split; [split; [done | rewrite val_one; cbn; lia] | done]|].
  destruct Hx as [Hx|?]; [|done].
  destruct (clamp_val x f32_zero f32_one Hx number_zero (proj1 finite_one)) as [Hn Hv]; [rewrite val_one; cbn; lia|]. cbn [val f32_zero] in Hv.
  rewrite Hv. split; [|done]. split; [|rewrite Hv, val_one; lia]. apply finite_between; [done|]. rewrite Hv, val_one. unfold TOP. lia.
Qed.

(** [x / (x + h)] and [h / (x + h)]. *)
Lemma share_unit n x h :
  finite n -> finite x -> finite h -> within 65 (f32_add x h) -> 0 <= val x -> 0 < val h -> 0 <= val n ->
  val n <= val x \/ val n <= val h -> unit_value (f32_div n (f32_add x h)).
Proof.
  intros Hn Hx Hh [Hs _] H0 H1 Hn0 Hle. destruct (add_val x h Hx Hh) as [_ Hv].
  assert (Hxs : val x <= val (f32_add x h)) by (apply add_above; [done | done | lia]).
  assert (Hhs : val h <= val (f32_add x h)) by (rewrite Hv, <- (RZ_val h Hh) at 1; apply RZ_mono; lia).
  destruct (div_val n (f32_add x h) 0 ltac:(lia) Hn Hs ltac:(lia)) as (Hnum & Hone & Hpos).
  assert (Hb : Z.abs (val (f32_div n (f32_add x h))) <= 2 ^ (149 + 0)) by (apply Hone; rewrite Z.mul_1_l; lia).
  split; [by apply (within_number 0); [lia|..]|]. rewrite val_one. change (149 + 0) with 149 in Hb. specialize (Hpos Hn0 ltac:(lia)). lia.
Qed.

Lemma of_integer_within n k : 0 <= k <= 90 -> Z.abs n <= 2 ^ k -> within k (f32_of_integer n).
Proof.
  intros Hk Hn. assert (Hb : Z.abs n < 2 ^ 100) by (assert (2 ^ k < 2 ^ 100) by (apply Z.pow_lt_mono_r; lia); lia).
  destruct (of_integer_val n Hb) as [Hf Hv]. split; [done|]. rewrite Hv. apply RZ_within; [lia|].
  rewrite Z.abs_mul, Z.add_comm, Z.pow_add_r by lia. apply Z.mul_le_mono_nonneg_r; lia.
Qed.

Lemma rise_unit n h k : 0 <= n <= 2 ^ 64 -> within 64 h -> 0 < val h -> k = saturating_rise (f32_of_integer n) h -> unit_value k.
Proof.
  intros Hn Hh H0 ->. pose proof (of_integer_within n 64 ltac:(lia) ltac:(lia)) as Hw.
  destruct (of_integer_nonneg n ltac:(lia)) as [Hf Hnn]. apply share_unit; [done | done | apply Hh | by apply (add_within 64) | done | done | done | by left].
Qed.

Lemma decay_unit n h k : 0 <= n <= 2 ^ 64 -> within 64 h -> 0 < val h -> k = saturating_decay (f32_of_integer n) h -> unit_value k.
Proof.
  intros Hn Hh H0 ->. pose proof (of_integer_within n 64 ltac:(lia) ltac:(lia)) as Hw.
  destruct (of_integer_nonneg n ltac:(lia)) as [Hf Hnn]. apply share_unit; [apply Hh | done | apply Hh | by apply (add_within 64) | done | done | lia | by right].
Qed.

(** ** The constants *)

Ltac by_value := vm_compute; intuition discriminate.

Lemma weights :
  weight W_MATCH_QUALITY /\ weight W_MATCH_POSITION /\ weight W_CATEGORY /\ weight W_FREQUENCY /\ weight W_RECENCY /\
  weight W_QUERY_HISTORY /\ weight W_USER_PREFERENCE.
Proof. by_value. Qed.

Lemma half_lives :
  (within 64 POSITION_HALF_LIFE /\ 0 < val POSITION_HALF_LIFE) /\ (within 64 FREQUENCY_HALF_LIFE /\ 0 < val FREQUENCY_HALF_LIFE) /\
  (within 64 RECENCY_HALF_LIFE_SECS /\ 0 < val RECENCY_HALF_LIFE_SECS).
Proof. by_value. Qed.

Lemma context_within : within 0 W_CONTEXT /\ 0 <= val W_CONTEXT.
Proof. by_value. Qed.

Lemma category_unit c : unit_value (category_weight c) /\ number (category_weight c).
Proof. destruct c; by_value. Qed.

(** ** The plugin's hint *)

(** The product with the absolute value, up to its sign. *)
Lemma mul_abs c x : full c -> f32_mul c (f32_abs x) = f32_abs (f32_mul c x).
Proof.
  destruct c as [| | |[] m e]; try done. intros _. destruct x as [[]|[]| |s m' e']; try done. unfold f32_mul, f32_abs, SFabs, SFmul. cbn [xorb].
  unfold binary_round_aux. destruct (shr_fexp _ _ _ _ _) as [r1 e1]. destruct (shr_fexp _ _ _ e1 _) as [r2 e2].
  destruct (shr_m r2); [done | by destruct (_ <=? _) | done].
Qed.

Lemma abs_val x : number x -> number (f32_abs x) /\ val (f32_abs x) = Z.abs (val x).
Proof.
  intros Hx. split; [by destruct x|]. destruct x as [|[]| |s m e]; try done. pose proof (pair_top _ _ Hx).
  destruct s; cbn [f32_abs SFabs val signed]; lia.
Qed.

Lemma mul_signed_within c x : full c -> val (f32_mul c f32_one) <= val f32_one -> within 0 x -> within 0 (f32_mul c x).
Proof.
  intros Hc H1 [[Hx Hf] Hv]. destruct (abs_val x Hx) as [Ha Hva].
  assert (Hu : unit_value (f32_abs x)) by (split; [split; [done | by destruct x]|]; rewrite Hva, val_one; change (149 + 0) with 149 in Hv; lia).
  destruct (weighted c (f32_abs x) (conj Hc H1) Hu) as [[[Hn Hfin] Hw] _]. rewrite mul_abs in Hn, Hfin, Hw by done.
  assert (Hnum : number (f32_mul c x)) by (by destruct (f32_mul c x)).
  destruct (abs_val _ Hnum) as [_ E]. rewrite E, Z.abs_idemp in Hw. by apply within_number.
Qed.

Definition i32 (n : Z) : Prop := -2147483648 <= n <= 2147483647.

Lemma signed_within n : i32 n -> within 0 (f32_mul W_PLUGIN_HINT (bounded_signed (f32_of_integer n) HINT_HALF_SCALE)).
Proof.
  intros Hn. unfold i32 in Hn. unfold bounded_signed. pose proof (of_integer_within n 31 ltac:(lia) ltac:(lia)) as [Hf Hv].
  assert (Hh : finite HINT_HALF_SCALE /\ val HINT_HALF_SCALE = 100 * 2 ^ 149) by by_value. destruct Hh as [Hh Hvh].
  destruct (div_val (f32_of_integer n) HINT_HALF_SCALE 31 ltac:(lia) Hf Hh) as (Hnum & Hsize & _); [rewrite Hvh; lia|].
  set (scaled := f32_div (f32_of_integer n) HINT_HALF_SCALE) in *.
  assert (Hs : within 31 scaled) by (by apply within_number; [lia | done | apply Hsize; rewrite Hvh; lia]). clear Hsize.
  destruct (abs_val scaled (proj1 (proj1 Hs))) as [Hna Hva].
  assert (Ha : within 31 (f32_abs scaled)) by (apply within_number; [lia | done|]; rewrite Hva, Z.abs_idemp; apply Hs).
  assert (H1 : within 31 f32_one) by (split; [apply finite_one | rewrite val_one; lia]).
  pose proof (add_within 31 _ _ ltac:(lia) H1 Ha) as Hsum. destruct (add_val f32_one (f32_abs scaled) (proj1 H1) (proj1 Ha)) as [_ Hvs].
  assert (Hge : Z.abs (val scaled) <= val (f32_add f32_one (f32_abs scaled))).
  { rewrite Hvs, <- Hva, <- (RZ_val (f32_abs scaled)) at 1 by apply Ha. apply RZ_mono. rewrite val_one. lia. }
  assert (Hpos : 2 ^ 149 <= val (f32_add f32_one (f32_abs scaled))).
  { rewrite <- val_one, Hvs, <- (RZ_val f32_one finite_one) at 1. apply RZ_mono. lia. }
  destruct (div_val scaled (f32_add f32_one (f32_abs scaled)) 0 ltac:(lia) (proj1 Hs) (proj1 Hsum)) as (Hq & Hqs & _); [lia|].
  apply mul_signed_within; [by_value | by_value|]. apply within_number; [lia | done|]. apply Hqs. rewrite Z.mul_1_l. lia.
Qed.

(** * The totals *)

(** What the history and the context contribute. *)
Record sane (s : RankingSignals) : Prop := {
  sane_frequency : 0 <= selection_frequency s <= u32_max;
  sane_recency : forall age, selection_recency_secs s = Some age -> 0 <= age <= u64_max;
  sane_affinity : number (query_history s) \/ f32_is_nan (query_history s) = true;
  sane_preference : number (user_preference s) \/ f32_is_nan (user_preference s) = true;
}.

Definition BOUND_QUALITY : f32 := f32_literal 73 2.

(** The signals of the bound for an item. *)
Definition bound_signals (item : Item) : RankingSignals :=
  mkSignals BOUND_QUALITY false (Some 0) (category_weight (category item)) (score_hint item) u32_max (Some 0) f32_one true f32_one.

Section Bound.
Context (item : Item) (Hhint : i32 (score_hint item)).
Context (s : RankingSignals) (Hs : sane s).
Context (Hprefix : exact_prefix s = false) (Hq : number (match_quality s)) (Hle : val (match_quality s) <= val BOUND_QUALITY).
Context (Hpos : forall p, signal_position s = Some p -> 0 <= p <= u32_max).
Context (Hcat : category_preference s = category_weight (category item)) (Hsame : plugin_score_hint s = score_hint item).

Lemma sanitize_above x : number x \/ f32_is_nan x = true -> val (sanitize x f32_zero f32_one) <= val f32_one.
Proof. intros Hx. destruct (sanitize_unit x Hx) as [Hu _]. apply Hu. Qed.

Lemma textual_below : below 4 (textual_total s) (textual_total (bound_signals item)).
Proof.
  pose proof weights as (W1 & W2 & W3 & _). pose proof half_lives as ([Hh Hh0] & _).
  unfold textual_total. rewrite Hprefix, Hcat, Hsame. cbn [match_quality exact_prefix signal_position category_preference plugin_score_hint bound_signals].
  set (t0 := f32_mul W_MATCH_QUALITY (sanitize (match_quality s) f32_zero f32_one)).
  set (u0 := f32_mul W_MATCH_QUALITY (sanitize BOUND_QUALITY f32_zero f32_one)).
  assert (Hb : number BOUND_QUALITY) by by_value.
  assert (H0 : below 0 t0 u0).
  { destruct (sanitize_unit _ (or_introl Hq)) as [Hu1 Hv1]. destruct (sanitize_unit _ (or_introl Hb)) as [Hu2 Hv2].
    apply below_weighted; [done | done | done|]. rewrite Hv1, Hv2, (number_nan _ Hq), (number_nan _ Hb). lia. }
  assert (H1 : below 1 (match signal_position s with
      | Some position => f32_add t0 (f32_mul W_MATCH_POSITION (saturating_decay (f32_of_integer position) POSITION_HALF_LIFE))
      | None => t0 end) (f32_add u0 (f32_mul W_MATCH_POSITION (saturating_decay (f32_of_integer 0) POSITION_HALF_LIFE)))).
  { pose proof (decay_unit 0 POSITION_HALF_LIFE _ ltac:(lia) Hh Hh0 eq_refl) as Hu0.
    destruct (signal_position s) as [p|]; [|by apply (below_above 0); [lia | done | apply weighted..]].
    assert (Hu : unit_value (saturating_decay (f32_of_integer p) POSITION_HALF_LIFE)).
    { eapply decay_unit; [|exact Hh | exact Hh0 | done]. specialize (Hpos p eq_refl). unfold u32_max in Hpos. lia. }
    apply (below_add 0); [lia | done|]. apply below_weighted; [done..|].
    assert (E : val (saturating_decay (f32_of_integer 0) POSITION_HALF_LIFE) = val f32_one) by by_value. rewrite E. apply Hu. }
  set (t1 := match signal_position s with None => t0 | _ => _ end) in *. clearbody t1.
  destruct (category_unit (category item)) as [_ Hcn]. destruct (sanitize_unit _ (or_introl Hcn)) as [Hu _].
  assert (H2 := below_add 1 _ _ _ _ ltac:(lia) H1 (below_weaken 0 1 _ _ ltac:(lia) (below_refl 0 _ (proj1 (weighted _ _ W3 Hu))))).
  pose proof (signed_within _ Hhint) as Hsg.
  apply (below_weaken 3); [lia|]. exact (below_add 2 _ _ _ _ ltac:(lia) H2 (below_weaken 0 2 _ _ ltac:(lia) (below_refl 0 _ Hsg))).
Qed.

Lemma history_below x y : below 4 x y -> below 7 (history_total s x) (history_total (bound_signals item) y).
Proof.
  intros H0. pose proof weights as (_ & _ & _ & W4 & W5 & W6 & _). pose proof half_lives as (_ & [Hf Hf0] & [Hr Hr0]).
  unfold history_total. cbn [selection_frequency selection_recency_secs query_history bound_signals].
  assert (Huf : forall n, 0 <= n <= u32_max -> unit_value (saturating_rise (f32_of_integer n) FREQUENCY_HALF_LIFE)).
  { intros n Hn. eapply rise_unit; [|exact Hf | exact Hf0 | done]. unfold u32_max in Hn. lia. }
  assert (Ef : val (saturating_rise (f32_of_integer u32_max) FREQUENCY_HALF_LIFE) = val f32_one) by by_value.
  assert (H1 := below_add 4 _ _ _ _ ltac:(lia) H0 (below_weaken 0 4 _ _ ltac:(lia)
    (below_weighted _ _ _ W4 (Huf _ (sane_frequency s Hs)) (Huf u32_max ltac:(unfold u32_max; lia))
       ltac:(rewrite Ef; apply (Huf _ (sane_frequency s Hs)))))).
  set (t1 := f32_add x _) in *. set (u1 := f32_add y _) in *. clearbody t1 u1.
  assert (Hur : forall n, 0 <= n <= u64_max -> unit_value (saturating_decay (f32_of_integer n) RECENCY_HALF_LIFE_SECS)).
  { intros n Hn. eapply decay_unit; [|exact Hr | exact Hr0 | done]. unfold u64_max in Hn. lia. }
  pose proof (Hur 0 ltac:(unfold u64_max; lia)) as Hur0.
  assert (H2 : below 6 (match selection_recency_secs s with
      | Some age => f32_add t1 (f32_mul W_RECENCY (saturating_decay (f32_of_integer age) RECENCY_HALF_LIFE_SECS)) | None => t1 end)
      (f32_add u1 (f32_mul W_RECENCY (saturating_decay (f32_of_integer 0) RECENCY_HALF_LIFE_SECS)))).
  { destruct (weighted _ _ W5 Hur0) as [Hw0 Hwn]. destruct (selection_recency_secs s) as [age|] eqn:Ea.
    - pose proof (Hur age (sane_recency s Hs age Ea)) as Hu. apply (below_add 5); [lia | done|]. apply (below_weaken 0); [lia|].
      apply below_weighted; [done..|]. assert (E : val (saturating_decay (f32_of_integer 0) RECENCY_HALF_LIFE_SECS) = val f32_one) by by_value.
      rewrite E. apply Hu.
    - apply (below_above 5); [lia | done | by apply (within_weaken 0); [lia|] | done]. }
  set (t2 := match selection_recency_secs s with None => t1 | _ => _ end) in *. set (u2 := f32_add u1 _) in *. clearbody t2 u2.
  destruct (sanitize_unit _ (sane_affinity s Hs)) as [Hua _]. destruct (sanitize_unit f32_one (or_introl (proj1 finite_one))) as [Hu1 _].
  apply (below_add 6); [lia | done|]. apply (below_weaken 0); [lia|]. apply below_weighted; [done..|].
  assert (E : val (sanitize f32_one f32_zero f32_one) = val f32_one) by by_value. rewrite E. apply Hua.
Qed.

Lemma clamp_mono k x y lo hi :
  below k x y -> number lo -> number hi -> val lo <= val hi -> val (sanitize x lo hi) <= val (sanitize y lo hi) /\ number (sanitize x lo hi) /\ number (sanitize y lo hi).
Proof.
  intros (Hx & Hy & H) Hl Hh Hlh. destruct Hx as [[Hx _] _], Hy as [[Hy _] _]. unfold sanitize. rewrite (number_nan x Hx), (number_nan y Hy).
  destruct (clamp_val x lo hi Hx Hl Hh Hlh) as [? ->]. destruct (clamp_val y lo hi Hy Hl Hh Hlh) as [? ->]. split_and!; [lia | done | done].
Qed.

Lemma new_score_val x : number x -> number (new_score x) /\ (f32_is_finite x = true -> val (new_score x) = val x).
Proof.
  intros Hx. unfold new_score. destruct (f32_is_finite x) eqn:E; [|done]. rewrite f32_eq_zero. destruct (is_zero x) eqn:Ez; [|done].
  split; [done|]. intros _. by destruct x.
Qed.

Lemma signals_below enabled : f32_le (score_signals enabled s) (score_signals enabled (bound_signals item)) = true.
Proof.
  unfold score_signals. pose proof textual_below as Ht.
  assert (H1 : below 7 (if enabled then history_total s (textual_total s) else textual_total s)
                 (if enabled then history_total (bound_signals item) (textual_total (bound_signals item)) else textual_total (bound_signals item))).
  { destruct enabled; [by apply history_below | by apply (below_weaken 4); [lia|]]. }
  set (t1 := if enabled then _ else _) in *. set (u1 := if enabled then _ else textual_total (bound_signals item)) in *. clearbody t1 u1.
  destruct context_within as [Hc0 Hcn]. pose proof weights as (_ & _ & _ & _ & _ & _ & W7).
  assert (H2 : below 8 (if context_match s then f32_add t1 W_CONTEXT else t1) (f32_add u1 W_CONTEXT)).
  { assert (within 7 W_CONTEXT) by (by apply (within_weaken 0); [lia|]). destruct (context_match s).
    - apply (below_add 7); [lia | done | by apply below_refl].
    - by apply (below_above 7); [lia|..]. }
  set (t2 := if context_match s then _ else _) in *. clearbody t2.
  cbn [context_match bound_signals user_preference]. set (u2 := f32_add u1 W_CONTEXT) in *. clearbody u2.
  destruct (sanitize_unit _ (sane_preference s Hs)) as [Hua _]. destruct (sanitize_unit f32_one (or_introl (proj1 finite_one))) as [Hu1 _].
  assert (E : val (sanitize f32_one f32_zero f32_one) = val f32_one) by by_value.
  assert (H3 := below_add 8 _ _ _ _ ltac:(lia) H2 (below_weaken 0 8 _ _ ltac:(lia) (below_weighted _ _ _ W7 Hua Hu1 ltac:(rewrite E; apply Hua)))).
  assert (Hm : number MIN_SCORE /\ number MAX_SCORE /\ val MIN_SCORE <= val MAX_SCORE /\ f32_is_finite MIN_SCORE = true /\ f32_is_finite MAX_SCORE = true /\ f32_le MIN_SCORE MAX_SCORE = true) by by_value.
  destruct Hm as (Hm1 & Hm2 & Hm3 & Hm4 & Hm5 & Hm6).
  destruct (clamp_mono _ _ _ _ _ H3 Hm1 Hm2 Hm3) as (Hv & Hn & Hn').
  destruct (new_score_val _ Hn) as [Hs1 Hv1]. destruct (new_score_val _ Hn') as [Hs2 Hv2].
  apply le_val; [done | done|]. rewrite Hv1, Hv2; [done | |].
  - destruct (sanitize_range (f32_add u2 (f32_mul W_USER_PREFERENCE (sanitize f32_one f32_zero f32_one))) MIN_SCORE MAX_SCORE Hm6). apply (between_finite _ MIN_SCORE MAX_SCORE); assumption.
  - destruct (sanitize_range (f32_add t2 (f32_mul W_USER_PREFERENCE (sanitize (user_preference s) f32_zero f32_one))) MIN_SCORE MAX_SCORE Hm6). apply (between_finite _ MIN_SCORE MAX_SCORE); assumption.
Qed.
End Bound.

(** * The scores of matches *)

Definition number_or_nan (x : f32) : Prop := number x \/ f32_is_nan x = true.

Lemma unit_quality_unit x : number_or_nan x -> unit_value (unit_quality x).
Proof.
  intros Hx. unfold unit_quality. destruct (f32_is_finite x) eqn:E; [|split; [done | rewrite val_one; cbn; lia]].
  destruct (sanitize_unit x Hx) as [Hu _]. unfold sanitize in Hu. destruct x; try done.
Qed.

Lemma score_for_number m x : number_or_nan x -> number (score_for m x).
Proof.
  intros Hx. unfold score_for. pose proof (unit_quality_unit x Hx) as Hu. destruct (band m) as [low high] eqn:E.
  assert (Hb : within 0 low /\ number high /\ val low <= val high /\ weight (f32_sub high low)) by (destruct m; injection E as <- <-; by_value).
  destruct Hb as (Hl & Hh & Hle & Hw). destruct (weighted _ _ Hw Hu) as [Hm _]. pose proof (add_within 0 _ _ ltac:(lia) Hl Hm) as [[Ha _] _].
  apply clamp_val; [done | apply Hl | done | done].
Qed.

Lemma ratio_number n d : number_or_nan (ratio n d).
Proof. unfold ratio. destruct (d =? 0); [by left|]. left. apply (unit_quality_unit _ (div_number _ _)). Qed.

Section Matches.
Context {U : Unicode}.

Lemma summary_number policy q item p spans s : score_prepared policy q item p = Some (spans, Some s) -> number (s_score s).
Proof.
  unfold score_prepared. destruct (negb _); [done|]. intros H. apply bind_Some in H as (text_ & _ & H). cbv zeta in H.
  destruct (_ && _); [injection H as <- <-; apply score_for_number; left; apply finite_one|].
  destruct (starts_with _ _); [injection H as <- <-; apply score_for_number, ratio_number|].
  apply bind_Some in H as ([spans1 found] & _ & H). destruct found as [[weakest total]|]; [|done].
  injection H as <- <-. apply score_for_number, div_number.
Qed.

Lemma raw_position_range label_ n x : raw_character_position label_ n = Some x -> 0 <= x <= u32_max.
Proof.
  unfold raw_character_position. intros H. apply bind_Some in H as ([prefix rest] & _ & [= <-]). pose proof (len_nonneg prefix). unfold u32_max. lia.
Qed.

Lemma minimum_range l x : Forall (fun n => 0 <= n <= u32_max) l -> minimum l = Some x -> 0 <= x <= u32_max.
Proof.
  destruct l as [|a l]; [done|]. intros [Ha Hl]%Forall_cons. cbn. intros [= <-]. revert a Ha.
  induction Hl as [|b l Hb Hl IH]; intros a Ha; cbn; [done|]. apply IH. lia.
Qed.

Lemma summary_position policy q item p spans s x :
  score_prepared policy q item p = Some (spans, Some s) -> match_position s = Some x -> 0 <= x <= u32_max.
Proof.
  unfold score_prepared. destruct (negb _); [done|]. intros H. apply bind_Some in H as (text_ & _ & H). cbv zeta in H.
  destruct (_ && _); [injection H as <- <-; cbn [match_position]; intros (sp & _ & H)%bind_Some; by eapply raw_position_range|].
  destruct (starts_with _ _); [injection H as <- <-; cbn [match_position]; intros (sp & _ & H)%bind_Some; by eapply raw_position_range|].
  apply bind_Some in H as ([spans1 found] & _ & H). destruct found as [[weakest total]|]; [|done].
  injection H as <- <-. cbn [match_position]. apply minimum_range. apply Forall_forall. intros n (sp & _ & Hn)%list_elem_of_omap. by eapply raw_position_range.
Qed.

(** The score of a match of an item whose label the first token does not open. *)
Lemma non_prefix_score enabled policy q item sitem p spans s text_ token rest signals :
  i32 (score_hint item) -> sane signals ->
  normalized_label p = Some text_ -> tokens q = token :: rest -> trim_start text_ = text_ -> starts_with text_ token = false ->
  score_prepared policy q sitem p = Some (spans, Some s) ->
  f32_le (score_match_with_signals enabled item s signals) (non_prefix_upper_bound enabled item) = true.
Proof.
  intros Hh Hs Hn Et Htrim Hno H. pose proof (non_prefix_method _ _ _ _ _ _ _ _ _ Hn Et Htrim Hno H) as Hm.
  pose proof (summary_number _ _ _ _ _ _ H) as Hnum. change (non_prefix_upper_bound enabled item) with (score_signals enabled (bound_signals item)).
  unfold score_match_with_signals. apply signals_below; [done | | | done | | | done | done].
  - destruct Hs. by split.
  - cbn. apply bool_decide_eq_false. intros E. rewrite E in Hm. cbn in Hm. lia.
  - cbn [match_quality]. destruct (summary_scored _ _ _ _ _ _ H) as [x Hx].
    assert (Hb : number BOUND_QUALITY) by by_value. apply (le_val _ _ Hnum Hb). eapply f32_le_trans; [rewrite Hx; apply score_in_band|].
    destruct (s_method s); cbn in Hm; try lia; vm_compute; reflexivity.
  - cbn. intros x Hx. by eapply summary_position.
Qed.
End Matches.
