(* ===== verification/QueryAgree.v ===== *)
(** The two readings of a match: the summary that selection ranks by and the
    outcome that the answer shows have the same score, method and position. *)

From Stdlib Require Import SpecFloat.
From S2P Require Import Prelude Text StdFloat Query QueryText QueryWords QueryPrepare QueryFacts QueryScores.
From S2P Require Import QueryNarrow Items Ranking.

(** * Positions *)

Lemma indices_before a b from n :
  byte_len a + from = n -> length (take_while (fun ic => ic.1 <? n) (char_indices from (a ++ b))) = length a.
Proof.
  revert from. induction a as [|c a IH]; intros from H; cbn [app char_indices take_while].
  - rewrite byte_len_nil in H. destruct b as [|c b]; [done|]. cbn [char_indices take_while fst]. by rewrite (proj2 (Z.ltb_ge _ _)) by lia.
  - rewrite byte_len_cons in H. pose proof (char_width_pos c). pose proof (byte_len_nonneg a). cbn [fst].
    rewrite (proj2 (Z.ltb_lt _ _)) by lia. cbn [length]. f_equal. apply IH. lia.
Qed.

(** The number of characters before a boundary. *)
Lemma position_before label_ n a b :
  split_at label_ n = Some (a, b) -> raw_character_position label_ n = Some (Z.min (len a) u32_max) /\
  len (take_while (fun ic => ic.1 <? n) (char_indices 0 label_)) = len a.
Proof.
  intros H. unfold raw_character_position. rewrite H. split; [done|]. apply split_at_iff in H as [-> H]. unfold len.
  rewrite (indices_before a b 0 n) by lia. done.
Qed.

Lemma position_mono label_ m n x y :
  raw_character_position label_ m = Some x -> raw_character_position label_ n = Some y -> m <= n -> x <= y.
Proof.
  unfold raw_character_position. intros ([a b] & Ha & [= <-])%bind_Some ([a' b'] & Hb & [= <-])%bind_Some Hle.
  apply split_at_iff in Ha as [-> Ha], Hb as [E Hb]. destruct (prefixes_ordered _ _ _ _ E) as (u & -> & _); [lia|].
  unfold len. rewrite length_app. lia.
Qed.

(** The least of some numbers. *)
Lemma minimum_Some l x : minimum l = Some x <-> x ∈ l /\ Forall (Z.le x) l.
Proof.
  destruct l as [|y l]; cbn; [split; [done | intros [? _]; set_solver]|].
  assert (Hm : forall l y, foldl Z.min y l ∈ y :: l /\ Forall (Z.le (foldl Z.min y l)) (y :: l)).
  { clear. intros l. induction l as [|z l IH]; intros y; cbn; [split; [set_solver | repeat constructor; lia]|].
    destruct (IH (Z.min y z)) as [Hin Hall]. apply Forall_cons in Hall as [Hle Hall]. split.
    - apply elem_of_cons in Hin as [->|Hin]; [|set_solver]. destruct (Z.min_spec y z) as [[_ ->]|[_ ->]]; set_solver.
    - constructor; [lia|]. constructor; [lia | done]. }
  destruct (Hm l y) as [Hin Hall]. split; [by intros [= <-]|]. intros [Hx Hle]. f_equal. rewrite Forall_forall in Hall, Hle.
  apply Z.le_antisymm; auto.
Qed.

Lemma minimum_None l : minimum l = None -> l = [].
Proof. by destruct l. Qed.

Lemma omap_valid {B} label_ (f : Span -> B) l :
  Forall (fun s => valid_span label_ s = true) l -> omap (fun s => if valid_span label_ s then Some (f s) else None) l = map f l.
Proof. induction 1 as [|s l Hs Hl IH]; cbn; [done|]. rewrite Hs. by f_equal. Qed.

(** The position of valid spans: the characters before the earliest. *)
Lemma earliest_position label_ l :
  Forall (fun s => valid_span label_ s = true) l ->
  earliest_highlight label_ l = minimum (omap (fun s => raw_character_position label_ s.1) l).
Proof.
  intros Hv. unfold earliest_highlight. rewrite (omap_valid label_ fst l Hv).
  assert (Hp : forall s, s ∈ l -> exists a b, split_at label_ s.1 = Some (a, b)).
  { intros s Hs. rewrite Forall_forall in Hv. apply Hv, span_bounds in Hs as (_ & [[a b] ?] & _). eauto. }
  destruct (minimum (map fst l)) as [n|] eqn:E.
  - cbn [mbind option_bind]. apply minimum_Some in E as [Hin Hle]. apply list_elem_of_In, in_map_iff in Hin as (s & <- & Hin%list_elem_of_In).
    destruct (Hp s Hin) as (a & b & Hab). destruct (position_before _ _ _ _ Hab) as [Hpos ->]. symmetry. apply minimum_Some. split.
    + apply list_elem_of_omap. eauto.
    + apply Forall_forall. intros y (t & Ht & Hy)%list_elem_of_omap. eapply position_mono; [exact Hpos | exact Hy|].
      rewrite Forall_forall in Hle. apply Hle, list_elem_of_In, in_map_iff. exists t. split; [done | by apply list_elem_of_In].
  - apply minimum_None in E. by destruct l.
Qed.

(** Merging keeps the earliest start. *)
Lemma merge_earliest label_ l :
  Forall (fun s => valid_span label_ s = true) l -> earliest_highlight label_ (merge_spans l) = earliest_highlight label_ l.
Proof.
  intros Hv. unfold earliest_highlight. rewrite (omap_valid label_ fst l Hv), (omap_valid label_ fst _ (merge_spans_valid _ _ Hv)).
  replace (minimum (map fst (merge_spans l))) with (minimum (map fst l)); [done|].
  destruct l as [|a [|b l]]; [done..|]. unfold merge_spans. set (all := a :: b :: l) in *.
  pose proof (merge_sort_Permutation span_le all) as Hp. pose proof (StronglySorted_merge_sort span_le all) as Hs.
  destruct (merge_sort span_le all) as [|first rest]; [by apply Permutation_nil_l in Hp|].
  assert (Hmin : minimum (map fst all) = Some first.1).
  { apply minimum_Some. change (map fst all) with (fst <$> all). rewrite <- Hp. cbn. split; [set_solver|]. constructor; [lia|].
    inversion Hs as [|? ? _ Hle]; subst. apply Forall_fmap. eapply Forall_impl; [exact Hle|]. intros s. unfold span_le, span_leb. cbn. lia. }
  rewrite Hmin. symmetry. apply minimum_Some.
  assert (Hs2 : Forall (fun s => s.1 < s.2) (first :: rest)) by (rewrite Hp; by apply (valid_nonempty label_)).
  apply Forall_cons in Hs2 as [Hf Hr]. inversion Hs as [|? ? Hs' Hle]; subst.
  destruct (coalesce_head first rest) as (e & l' & E & _). rewrite E. cbn. split; [set_solver|]. constructor; [lia|].
  destruct (coalesce_spec first rest Hf) as [Hsep _]; [|done|].
  { rewrite Forall_forall in Hr, Hle |- *. intros t Ht. split; [by apply Hr|]. specialize (Hle t Ht). unfold span_le, span_leb in Hle. lia. }
  rewrite E in Hsep. apply Forall_map. clear -Hsep. revert Hsep. generalize (first.1) as x. revert e. induction l' as [|s l' IH]; intros e x Hsep; [constructor|].
  cbn in Hsep. destruct s as [s1 s2]. cbn in *. constructor; [cbn; lia|]. destruct Hsep as (? & ? & Hsep).
  eapply Forall_impl; [eapply (IH s2 s1)|]; cbn; [done | lia].
Qed.

(** * Highlights of a prepared label *)

Section Agree.
Context {U : Unicode} {L : UnicodeLaws U}.

Lemma prepared_map item p :
  prepare_item item = Some p ->
  match p_map p with
  | None => ascii_only (label item) = true
  | Some (Marks marks _) => Forall (mark_ok (label item)) marks
  | Some Unavailable => True
  end.
Proof.
  unfold prepare_item. destruct (searchable_split item) as [rest E]. rewrite E. unfold from_searchable_text. rewrite split_at_app.
  unfold prepare. intros H. apply bind_Some in H as (words & _ & [= <-]). cbn [p_map]. destruct (ascii_only (label item)); [done|].
  destruct (_ && _) eqn:Hfit; [|done]. apply andb_true_iff in Hfit as [Hr%Z.leb_le Hl%Z.leb_le].
  destruct (align_marks _ _) as [marks e] eqn:Em. by apply align_marks_spec in Em as (_ & _ & ?).
Qed.

Lemma ascii_width t : valid_text t -> ascii_only t = true -> byte_len t = len t.
Proof.
  induction 1 as [|c t Hc Ht IH]; cbn; [done|]. intros [Hlt Ha]%andb_true_iff. rewrite byte_len_cons, len_cons, IH by done.
  unfold char_width, utf8_char. rewrite (proj2 (Z.ltb_lt c 128)) by lia. unfold len. cbn [length]. lia.
Qed.

Lemma ascii_boundary t n : valid_text t -> ascii_only t = true -> 0 <= n <= byte_len t -> is_Some (split_at t n).
Proof.
  intros Hv Ha Hn. exists (take (Z.to_nat n) t, drop (Z.to_nat n) t). apply split_at_iff. split; [by rewrite take_drop|].
  rewrite ascii_width in * by done. unfold ascii_only in *. rewrite ascii_width.
  - unfold len in *. rewrite length_take. lia.
  - by apply Forall_take.
  - unfold ascii_only. rewrite forallb_forall in *. intros c Hc. apply Ha. rewrite <- (take_drop (Z.to_nat n) t). apply in_or_app. by left.
Qed.

Lemma ascii_same_length t : valid_text t -> ascii_only t = true -> byte_len (normalize_field t) = byte_len t.
Proof.
  intros Hv Ha. rewrite normalize_field_text, normalize_ascii by done. rewrite (ascii_width t) by done.
  rewrite ascii_width; [unfold len; by rewrite length_map | |].
  - rewrite <- normalize_ascii by done. by apply normalize_valid.
  - unfold ascii_only in *. rewrite forallb_forall in *. intros c (d & <- & Hd)%in_map_iff. specialize (Ha d Hd). unfold ascii_lower. destruct (_ && _) eqn:E; lia.
Qed.

Lemma mark_bounds raw m : mark_ok raw m -> is_Some (split_at raw (src_start m)) /\ is_Some (split_at raw (src_end m)).
Proof.
  intros [s (x & y & -> & Hx & Hs)%str_get_Some]. split.
  - exists (x, s ++ y). by apply split_at_iff.
  - exists (x ++ s, y). apply split_at_iff. rewrite <- app_assoc, byte_len_app. split; [done | lia].
Qed.

(** Where a range of the folded label came from is a range of whole characters. *)
Lemma to_raw_valid item p start stop s :
  valid_item item -> prepare_item item = Some p -> 0 <= start -> stop <= byte_len (normalize_field (label item)) ->
  to_raw p start stop = Some s -> valid_span (label item) s = true.
Proof.
  intros Hv Hp H0 Hstop H. apply prepared_map in Hp. unfold to_raw in H. destruct (Z.leb_spec stop start); [done|]. apply span_bounds.
  destruct (p_map p) as [[marks e|]|].
  - destruct (_ <? _); [done|]. destruct (Nat.leb _ _); [done|]. apply bind_Some in H as (from & Hf & H). apply bind_Some in H as (to_ & Ht & H).
    destruct (Z.ltb_spec (src_start from) (src_end to_)); [|done]. injection H as <-. rewrite Forall_lookup in Hp. split_and!; [done| |].
    + by destruct (mark_bounds _ _ (Hp _ _ Hf)).
    + by destruct (mark_bounds _ _ (Hp _ _ Ht)).
  - done.
  - injection H as <-. cbn. rewrite ascii_same_length in Hstop by (apply Hv || done). split_and!; [done| |]; apply ascii_boundary; (apply Hv || done || lia).
Qed.

(** ** Summary and outcome *)

Lemma exact_bounds t : let start := byte_len t - byte_len (trim_start t) in 0 <= start /\ start + byte_len (trim t) <= byte_len t.
Proof.
  cbn. destruct (trim_start_spec t) as (a & Ha & _). destruct (trim_spec t) as (x & y & Ht & _ & _).
  destruct (trim_part t) as (b & Hb & _). pose proof (f_equal byte_len Hb) as Hlb. rewrite byte_len_app in Hlb. pose proof (byte_len_nonneg b).
  pose proof (f_equal byte_len Ha) as Hl. rewrite byte_len_app in Hl. pose proof (byte_len_nonneg a). lia.
Qed.

Lemma push_valid item p start stop :
  valid_item item -> prepare_item item = Some p -> 0 <= start -> stop <= byte_len (normalize_field (label item)) ->
  retain_valid_spans (label item) (push_span [] (to_raw p start stop)) = push_span [] (to_raw p start stop) /\
  earliest_highlight (label item) (push_span [] (to_raw p start stop)) = (s ← to_raw p start stop; raw_character_position (label item) s.1).
Proof.
  intros Hv Hp H0 H1. destruct (to_raw p start stop) as [s|] eqn:E; [|done]. pose proof (to_raw_valid item p start stop s Hv Hp H0 H1 E) as Hs.
  cbn [push_span app mbind option_bind]. split; [by cbn; rewrite Hs|]. rewrite earliest_position by (by apply Forall_singleton).
  cbn. by destruct (raw_character_position (label item) s.1).
Qed.

Lemma retain_twice label_ l : retain_valid_spans label_ (retain_valid_spans label_ l) = retain_valid_spans label_ l.
Proof. unfold retain_valid_spans. induction l as [|s l IH]; cbn; [done|]. destruct (valid_span label_ s) eqn:E; cbn; [rewrite E; by f_equal | done]. Qed.

Lemma token_not_exact p item policy token spans spans' m x :
  match_token p item policy token spans = Some (spans', Some (m, x)) -> precedence ExactPrefix < precedence m.
Proof.
  unfold match_token. destruct token as [|c token]; [done|]. intros H. apply bind_Some in H as (text_ & _ & H).
  apply bind_Some in H as ([spans1 found] & El & H). unfold match_label in El. destruct (starts_with _ _).
  { injection El as <- <-. by injection H as _ <- _. }
  destruct found as [[m1 x1]|].
  - injection H as _ -> _. apply bind_Some in El as ([spans2 words] & _ & El). destruct words; [by injection El as _ <- _|].
    destruct (str_find _ _); [by injection El as _ <- _ | done].
  - apply bind_Some in H as (retained & _ & H). destruct (if contains _ _ then _ else _); [by injection H as _ <- _|].
    destruct policy; [done|]. destruct (subsequence_quality _ _ _ _) as [s2 [q|]]; [|done]. by injection H as _ <- _.
Qed.

Lemma tokens_not_exact q p item policy total spans spans' m x :
  negb (well_formed_query q) = false -> match_tokens p item policy (tokens q) ExactPrefix total spans = Some (spans', Some (m, x)) -> m <> ExactPrefix.
Proof.
  intros Hwf. destruct (tokens q) as [|token rest] eqn:Et.
  { unfold well_formed_query in Hwf. by rewrite Et in Hwf. }
  cbn [match_tokens]. intros H. apply bind_Some in H as ([spans1 found] & E1 & H). destruct found as [[m' x']|]; [|done].
  apply token_not_exact in E1. apply match_tokens_weakest in H. rewrite (proj2 (Z.ltb_lt _ _) E1) in H. intros ->. lia.
Qed.

(** What is selected materialises, with the same score, method and position. *)
Lemma outcome_of_summary policy q item p spans summary :
  valid_item item -> prepare_item item = Some p -> score_prepared policy q item p = Some (spans, Some summary) ->
  exists o, match_prepared policy q item p = Some (Some o) /\ o_score o = s_score summary /\ o_method o = s_method summary /\
    earliest_highlight (label item) (highlights o) = match_position summary.
Proof.
  intros Hv Hp E. unfold match_prepared. rewrite Hp. cbn [mbind option_bind]. rewrite bool_decide_eq_true_2 by done.
  unfold match_prepared_unchecked. rewrite E. cbn [mbind option_bind]. revert E.
  destruct (prepare_item_total item) as (p' & rest & Ep & _ & _ & _ & Hn & _). rewrite Hp in Ep. injection Ep as <-.
  unfold score_prepared, exact_label_match. rewrite Hn. cbn [mbind option_bind]. set (text_ := normalize_field (label item)) in *.
  destruct (negb (well_formed_query q)) eqn:Hwf; [done|]. destruct (_ && _) eqn:Ex.
  - intros [= <- <-]. cbn [s_method]. rewrite bool_decide_eq_true_2 by done. apply andb_true_iff in Ex as [Et Eq].
    rewrite Eq. apply negb_true_iff in Et. rewrite Et. cbn [orb negb mbind option_bind]. destruct (exact_bounds text_) as [B1 B2].
    destruct (push_valid item p _ _ Hv Hp B1 B2) as [Hk Hpos]. eexists. split; [done|]. cbn [o_score o_method highlights s_score match_position].
    rewrite Hk, Hpos. done.
  - destruct (starts_with text_ (trim (normalized q))) eqn:Es.
    + intros [= <- <-]. cbn [s_method]. rewrite bool_decide_eq_false_2 by done. apply starts_with_spec in Es as [more Es].
      assert (B2 : byte_len (trim (normalized q)) <= byte_len text_) by (rewrite Es, byte_len_app; pose proof (byte_len_nonneg more); lia).
      destruct (push_valid item p 0 _ Hv Hp ltac:(lia) B2) as [Hk Hpos]. eexists. split; [done|]. cbn [o_score o_method highlights s_score match_position].
      rewrite retain_twice, merge_earliest by apply retain_valid. rewrite Hk, Hpos. done.
    + intros H. apply bind_Some in H as ([spans0 found] & Em & H). destruct found as [[weakest total]|]; [|done]. injection H as <- <-. cbn [s_method].
      apply tokens_not_exact in Em; [|done]. rewrite bool_decide_eq_false_2 by done. eexists. split; [done|].
      cbn [o_score o_method highlights s_score match_position]. rewrite retain_twice, merge_earliest by apply retain_valid.
      by rewrite earliest_position by apply retain_valid.
Qed.

(** Both paths of the ranker give a match the same score. *)
Lemma scores_agree history item label_ o summary signals :
  o_score o = s_score summary -> o_method o = s_method summary -> earliest_highlight label_ (highlights o) = match_position summary ->
  score_outcome_with_signals history item label_ o signals = score_match_with_signals history item summary signals.
Proof. intros E1 E2 E3. unfold score_outcome_with_signals, score_match_with_signals. by rewrite E1, E2, E3. Qed.

End Agree.
