(* ===== verification/Debounce.v ===== *)
(** The modern plugins' debouncer: [crikey-input-scheduler/src/debounce.rs].

    State and operations of [Debouncer]; time is the caller's monotonic
    milliseconds, a [u64] with saturating deadlines.  The theorems say when a
    retained query is dispatched: exactly at the deadline that was announced,
    never later than the maximum wait, always the newest one. *)

From S2P Require Import Prelude Generation.

Abbreviation Millis := Z (only parsing).

Record DebouncePolicy := mkDebouncePolicy {
  debounce_ms : Millis;
  maximum_wait_ms : option Millis;
  leading_edge : bool;
  trailing_edge : bool;
  minimum_query_length : Z;
}.
#[export] Instance eta_DebouncePolicy : Eta DebouncePolicy := fun r =>
  mkDebouncePolicy (debounce_ms r) (maximum_wait_ms r) (leading_edge r) (trailing_edge r)
    (minimum_query_length r).

Definition default_debounce_policy : DebouncePolicy :=
  {| debounce_ms := 50; maximum_wait_ms := Some 200; leading_edge := true;
     trailing_edge := true; minimum_query_length := 0 |}.

Inductive Dispatch : Type :=
| Now (g : Generation)
| At (at_ms : Millis)
| Idle.

Module Debouncer.

Record Debouncer := mk {
  policy : DebouncePolicy;
  pending : option Generation;
  burst_started : option Millis;
  last_change : Millis;
  last_dispatch : option Millis;
  last_observed : option Millis;
}.
#[export] Instance eta_Debouncer : Eta Debouncer := fun r =>
  mk (policy r) (pending r) (burst_started r) (last_change r) (last_dispatch r) (last_observed r).

Definition new (p : DebouncePolicy) : Debouncer :=
  {| policy := p; pending := None; burst_started := None; last_change := 0;
     last_dispatch := None; last_observed := None |}.

(** [observe]: the clock as this debouncer has seen it, never backwards. *)
Definition observe (d : Debouncer) (now : Millis) : Debouncer * Millis :=
  let now := map_or (last_observed d) now (fun last => Z.max last now) in
  (d <| last_observed := Some now |>, now).

Definition reset (d : Debouncer) : Debouncer :=
  d <| pending := None |> <| burst_started := None |> <| last_dispatch := None |>.

(** [dispatch]: [None] is the panic of [expect("dispatch requires a pending
    query")]. *)
Definition dispatch (d : Debouncer) (now : Millis) (reset_burst : bool)
    : option (Debouncer * Dispatch) :=
  g ← pending d;
  let d := d <| pending := None |> in
  let d := if reset_burst then d <| burst_started := None |> else d in
  Some (d <| last_dispatch := Some now |>, Now g).

(** A quiet gap after a leading dispatch ends the burst. *)
Definition end_quiet_burst (d : Debouncer) (now : Millis) : Debouncer :=
  if is_none (pending d) && is_some (burst_started d)
     && is_some_and (last_dispatch d)
          (fun last => debounce_ms (policy d) <=? saturating_sub now last)
  then d <| burst_started := None |> else d.

Definition on_query (d : Debouncer) (now : Millis) (generation : Generation) (query_len : Z)
    : option (Debouncer * Dispatch) :=
  let (d, now) := observe d now in
  if query_len <? minimum_query_length (policy d) then Some (reset d, Idle)
  else if negb (leading_edge (policy d)) && negb (trailing_edge (policy d)) then
    Some (d <| pending := None |> <| burst_started := None |>, Idle)
  else if negb (trailing_edge (policy d)) && is_some (last_dispatch d) then
    Some (d <| pending := None |>, Idle)
  else
    let d := end_quiet_burst d now in
    let d := d <| pending := Some generation |> <| last_change := now |> in
    let burst_start := map_or (burst_started d) now (fun b => b) in
    let d := d <| burst_started := Some burst_start |> in
    let newly_relevant := is_none (last_dispatch d) in
    if leading_edge (policy d) && newly_relevant then dispatch d now false
    else if negb (trailing_edge (policy d)) then Some (d <| pending := None |>, Idle)
    else
      let trailing_at := saturating_add u64_max now (debounce_ms (policy d)) in
      let deadline :=
        match maximum_wait_ms (policy d) with
        | Some max_wait => Z.min trailing_at (saturating_add u64_max burst_start max_wait)
        | None => trailing_at
        end in
      Some (d, At deadline).

Definition on_timer (d : Debouncer) (now : Millis) : option (Debouncer * Dispatch) :=
  let (d, now) := observe d now in
  if negb (trailing_edge (policy d)) then Some (d <| pending := None |>, Idle)
  else
    match pending d with
    | None => Some (d, Idle)
    | Some _ =>
        let trailing_at := saturating_add u64_max (last_change d) (debounce_ms (policy d)) in
        let trailing_ready := trailing_at <=? now in
        let max_wait_ready :=
          match maximum_wait_ms (policy d), burst_started d with
          | Some max_wait, Some start => saturating_add u64_max start max_wait <=? now
          | _, _ => false
          end in
        if trailing_ready || max_wait_ready then dispatch d now true
        else
          let deadline :=
            match maximum_wait_ms (policy d), burst_started d with
            | Some max_wait, Some start =>
                Z.min trailing_at (saturating_add u64_max start max_wait)
            | _, _ => trailing_at
            end in
          Some (d, At deadline)
    end.

(** What the host does to a debouncer. *)
Inductive event : Type :=
| EvQuery (now : Millis) (g : Generation) (query_len : Z)
| EvTimer (now : Millis)
| EvReset.

Definition step (d : Debouncer) (e : event) : option (Debouncer * Dispatch) :=
  match e with
  | EvQuery now g n => on_query d now g n
  | EvTimer now => on_timer d now
  | EvReset => Some (reset d, Idle)
  end.

(** The states a host can bring a fresh debouncer to. *)
Inductive reachable (p : DebouncePolicy) : Debouncer -> Prop :=
| reach_new : reachable p (new p)
| reach_step d e d' out : reachable p d -> step d e = Some (d', out) -> reachable p d'.

(** A run of events from a state, with everything it answered. *)
Fixpoint run (d : Debouncer) (es : list event) : option (Debouncer * list Dispatch) :=
  match es with
  | [] => Some (d, [])
  | e :: es' =>
      '(d1, out) ← step d e;
      '(d2, outs) ← run d1 es';
      Some (d2, out :: outs)
  end.

(** The newest query of a history, if it had one. *)
Definition newest_query (es : list event) : option Generation :=
  foldl (fun acc e => match e with EvQuery _ g _ => Some g | _ => acc end) None es.

(** The announced deadline of the retained request. *)
Definition deadline (d : Debouncer) : Millis :=
  let trailing_at := saturating_add u64_max (last_change d) (debounce_ms (policy d)) in
  match maximum_wait_ms (policy d), burst_started d with
  | Some max_wait, Some start => Z.min trailing_at (saturating_add u64_max start max_wait)
  | _, _ => trailing_at
  end.

Definition is_deferral (out : Dispatch) : bool := match out with At _ => true | _ => false end.

(** A debouncer that sent its leading query at 0 and retained query 7 at 10. *)
Definition sample_before : Debouncer :=
  {| policy := default_debounce_policy; pending := None; burst_started := Some 0;
     last_change := 0; last_dispatch := Some 0; last_observed := Some 0 |}.
Definition sample_retained : Debouncer :=
  {| policy := default_debounce_policy; pending := Some 7; burst_started := Some 0;
     last_change := 10; last_dispatch := Some 0; last_observed := Some 10 |}.

(** What a debouncer never forgets: a retained request can be woken (the
    trailing edge is on) and belongs to a burst that began no later than its
    newest change, which the clock has seen. *)
Definition inv (d : Debouncer) : Prop :=
  match pending d with
  | None => True
  | Some _ =>
      trailing_edge (policy d) = true /\
      exists start seen, burst_started d = Some start /\ last_observed d = Some seen /\
        start <= last_change d <= seen
  end /\
  match burst_started d, last_observed d with
  | Some start, Some seen => start <= seen
  | Some _, None => False
  | None, _ => True
  end.

Lemma observe_spec d now d' now' :
  observe d now = (d', now') ->
  now <= now' /\ last_observed d' = Some now' /\ policy d' = policy d /\
  pending d' = pending d /\ burst_started d' = burst_started d /\
  last_change d' = last_change d /\ last_dispatch d' = last_dispatch d /\
  (forall seen, last_observed d = Some seen -> seen <= now').
Proof.
  unfold observe. intros [= <- <-]. cbn. destruct (last_observed d); cbn; split_and_all;
    try done; try lia; intros; simplify_eq; lia.
Qed.

(** The debouncer with the newest query retained, before it is dispatched or
    deferred. *)
Definition retain (d : Debouncer) (now : Millis) (g : Generation) : Debouncer :=
  d <| pending := Some g |> <| last_change := now |>
    <| burst_started := Some (map_or (burst_started d) now (fun b => b)) |>.

Lemma end_quiet_burst_spec d now :
  let d' := end_quiet_burst d now in
  policy d' = policy d /\ last_observed d' = last_observed d /\
  last_dispatch d' = last_dispatch d /\ pending d' = pending d /\
  (burst_started d' = None \/ burst_started d' = burst_started d) /\
  (is_some (pending d) = true -> burst_started d' = burst_started d).
Proof.
  unfold end_quiet_burst. destruct (pending d) eqn:E; cbn; [|case_match]; cbn; rewrite ?E;
    split_and_all; auto; done.
Qed.

Lemma dispatch_retain d now g rb :
  dispatch (retain d now g) now rb =
  Some (retain d now g <| pending := None |>
          <| burst_started ::= fun b => if rb then None else b |> <| last_dispatch := Some now |>, Now g).
Proof. unfold dispatch, retain. by destruct rb. Qed.

(** The three ways [on_query] ends: nothing is retained; the leading edge
    dispatches the query; the query is retained under its deadline. *)
Lemma on_query_cases d now g n d' out :
  on_query d now g n = Some (d', out) ->
  exists d1 now1, observe d now = (d1, now1) /\
  let d2 := end_quiet_burst d1 now1 in
  (out = Idle /\ pending d' = None /\ policy d' = policy d1 /\
     last_observed d' = last_observed d1 /\ last_dispatch d' = None /\ burst_started d' = None) \/
  (out = Idle /\ pending d' = None /\ policy d' = policy d1 /\
     last_observed d' = last_observed d1 /\ last_dispatch d' = last_dispatch d1 /\
     (trailing_edge (policy d1) = false) /\
     (burst_started d' = None \/ burst_started d' = burst_started d1)) \/
  (out = Now g /\ leading_edge (policy d1) = true /\ last_dispatch d1 = None /\
     d' = retain d2 now1 g <| pending := None |> <| last_dispatch := Some now1 |>) \/
  (out = At (deadline d') /\ trailing_edge (policy d1) = true /\ d' = retain d2 now1 g).
Proof.
  unfold on_query. destruct (observe d now) as [d1 now1] eqn:Ho. intros Hs. exists d1, now1.
  split; [done|].
  destruct (end_quiet_burst_spec d1 now1) as (Hpol & Hobs & Hdis & _ & _ & _).
  destruct (_ <? _); [simplify_eq; left; done|].
  change (update burst_started (fun _ => Some _) _) with (retain (end_quiet_burst d1 now1) now1 g) in Hs.
  simpl in Hs. rewrite Hpol, Hdis in Hs.
  destruct (leading_edge (policy d1)) eqn:El, (trailing_edge (policy d1)) eqn:Et,
    (last_dispatch d1) eqn:Ed; simpl in Hs; rewrite ?dispatch_retain in Hs;
    simplify_eq; eauto 12; do 3 right; unfold deadline; cbn; rewrite Hpol;
    destruct (maximum_wait_ms (policy d1)); done.
Qed.

Lemma inv_pending d g : inv d -> pending d = Some g -> trailing_edge (policy d) = true.
Proof. intros [H _] E. rewrite E in H. by destruct H. Qed.

Lemma observe_inv d now d' now' : inv d -> observe d now = (d', now') -> inv d'.
Proof.
  intros [Hp Hb] Ho. apply observe_spec in Ho as (_ & Hs & Hpol & Hpe & Hbu & Hlc & _ & Hseen).
  unfold inv. rewrite Hs, Hpol, Hpe, Hbu, Hlc. split.
  - destruct (pending d); [|done]. destruct Hp as (? & start & seen & Hst & Hse & ? & ?).
    specialize (Hseen _ Hse). split; [done|]. exists start, now'. eauto with lia.
  - destruct (burst_started d), (last_observed d); try done. specialize (Hseen _ eq_refl). lia.
Qed.

(** [on_timer] on a retained request: dispatched from its deadline on, and
    otherwise asked for again at the same deadline. *)
Lemma on_timer_pending d now g :
  pending d = Some g -> trailing_edge (policy d) = true ->
  let now' := map_or (last_observed d) now (fun last => Z.max last now) in
  exists d',
    on_timer d now = Some (d', if deadline d <=? now' then Now g else At (deadline d)) /\
    policy d' = policy d /\ last_observed d' = Some now' /\
    pending d' = (if deadline d <=? now' then None else Some g) /\
    (now' < deadline d -> burst_started d' = burst_started d /\ last_change d' = last_change d) /\
    (deadline d <= now' -> burst_started d' = None).
Proof.
  intros Hp Ht now'. unfold on_timer, observe, deadline. cbn. rewrite Hp, Ht. cbn.
  destruct (maximum_wait_ms (policy d)) as [w|], (burst_started d) as [b|] eqn:Eb; cbn;
    fold now'; unfold dispatch; cbn; rewrite ?Hp; cbn;
    repeat match goal with |- context [?x <=? ?y] => destruct (Z.leb_spec x y) end; cbn; try lia;
    eexists; split_and_all; try reflexivity; cbn; auto; lia.
Qed.

Lemma on_timer_idle d now d' out :
  pending d = None \/ trailing_edge (policy d) = false ->
  on_timer d now = Some (d', out) ->
  out = Idle /\ pending d' = None /\ policy d' = policy d /\
  exists d1 now1, observe d now = (d1, now1) /\ burst_started d' = burst_started d1 /\
    last_observed d' = last_observed d1.
Proof.
  intros H. unfold on_timer. destruct (observe d now) as [d1 now1] eqn:Ho.
  pose proof (observe_spec _ _ _ _ Ho) as (_ & _ & Hpol & Hpe & _). rewrite Hpol, Hpe.
  intros Hs. destruct H as [H|H]; rewrite H in Hs; simpl in Hs.
  - destruct (negb _); simplify_eq/=; split_and_all; eauto; congruence.
  - simplify_eq/=. split_and_all; eauto.
Qed.

Lemma on_query_inv d now g n d' out : inv d -> on_query d now g n = Some (d', out) -> inv d'.
Proof.
  intros Hinv (d1 & now1 & Ho & H)%on_query_cases.
  pose proof (observe_inv _ _ _ _ Hinv Ho) as [_ Hb].
  apply observe_spec in Ho as (_ & Hseen & _). rewrite Hseen in Hb. cbn in H.
  destruct (end_quiet_burst_spec d1 now1) as (Hpol & Hobs & _ & _ & Hbur & _).
  assert (Hb2 : map_or (burst_started (end_quiet_burst d1 now1)) now1 (fun b => b) <= now1).
  { destruct Hbur as [-> | ->]; cbn; [lia|]. destruct (burst_started d1); cbn; lia. }
  unfold inv.
  destruct H as [(_ & -> & _ & _ & _ & ->) | [(_ & -> & _ & Hl & _ & _ & Hbu) | [(_ & _ & _ & ->) | (_ & Ht & ->)]]]; cbn.
  - done.
  - rewrite Hl, Hseen. by destruct Hbu as [-> | ->].
  - by rewrite Hobs, Hseen.
  - rewrite Hobs, Hseen, Hpol, Ht. split; [|done]. split; [done|]. eauto 8 with lia.
Qed.

Lemma on_timer_inv d now d' out : inv d -> on_timer d now = Some (d', out) -> inv d'.
Proof.
  intros Hinv Ht. unfold inv. destruct (pending d) as [g|] eqn:Ep.
  - destruct Hinv as [Hp _]. rewrite Ep in Hp. destruct Hp as (Htr & start & seen & Hst & Hse & Hle).
    destruct (on_timer_pending d now g Ep Htr) as (d'' & Hd & Hpol & Hobs & Hpe & Hlt & Hge).
    rewrite Ht in Hd. simplify_eq. rewrite Hse in *. simpl in *. rewrite Hpe, Hobs, Hpol, Htr.
    destruct (Z.leb_spec (deadline d) (Z.max seen now)) as [Hle'|Hlt'].
    + by rewrite (Hge Hle').
    + destruct (Hlt Hlt') as [-> ->]. rewrite Hst. split; [|lia]. split; [done|]. eauto 8 with lia.
  - apply on_timer_idle in Ht as (_ & -> & _ & d1 & now1 & Ho & -> & ->); [|by left].
    split; [done|]. by apply (observe_inv _ _ _ _ Hinv) in Ho as [_ ?].
Qed.

Lemma step_inv d e d' out : inv d -> step d e = Some (d', out) -> inv d'.
Proof.
  destruct e; simpl; eauto using on_query_inv, on_timer_inv. by intros _ [= <- <-].
Qed.

Lemma step_total d e : exists d' out, step d e = Some (d', out).
Proof.
  destruct e as [now g n | now |]; simpl; [| |eauto].
  - unfold on_query. destruct (observe d now). split_tests; eauto.
  - unfold on_timer. destruct (observe d now).
    repeat case_match; eauto; unfold dispatch;
      match goal with H : pending _ = Some _ |- _ => rewrite H end; simpl; eauto.
Qed.

Lemma debouncer_reachable_inv p d : reachable p d -> inv d.
Proof. induction 1; [done | eauto using step_inv]. Qed.

(** [run] on a history extended by one event. *)
Lemma run_snoc d es e d' outs :
  run d (es ++ [e]) = Some (d', outs) ->
  exists d1 outs1 out, run d es = Some (d1, outs1) /\ step d1 e = Some (d', out) /\
    outs = outs1 ++ [out].
Proof.
  revert d outs. induction es as [|e' es IH]; intros d outs; simpl.
  - destruct (step d e) as [[d1 out]|] eqn:E; intros; simplify_eq/=. eauto 8.
  - destruct (step d e') as [[d1 out]|] eqn:E; simpl; [|done].
    destruct (run d1 (es ++ [e])) as [[d2 outs2]|] eqn:Er; simpl; intros; simplify_eq.
    apply IH in Er as (d3 & outs3 & out3 & -> & ? & ->). simpl. eauto 8.
Qed.

Lemma run_app d es d1 outs1 es' d2 outs2 :
  run d es = Some (d1, outs1) -> run d1 es' = Some (d2, outs2) ->
  run d (es ++ es') = Some (d2, outs1 ++ outs2).
Proof.
  revert d outs1. induction es as [|e es IH]; intros d outs1 H1 H2; simpl in *; [by simplify_eq|].
  destruct (step d e) as [[d0 out]|]; simpl in *; [|done].
  destruct (run d0 es) as [[d3 outs3]|] eqn:Er; simpl in *; [|done]. simplify_eq.
  by rewrite (IH _ _ Er H2).
Qed.

Lemma newest_query_snoc es e :
  newest_query (es ++ [e]) =
  match e with EvQuery _ g _ => Some g | _ => newest_query es end.
Proof. unfold newest_query. by rewrite foldl_snoc. Qed.

Lemma step_newest d e d' out newest :
  inv d -> (forall g, pending d = Some g -> newest = Some g) -> step d e = Some (d', out) ->
  let newest' := match e with EvQuery _ g _ => Some g | _ => newest end in
  (forall g, pending d' = Some g -> newest' = Some g) /\
  (forall g, out = Now g -> newest' = Some g).
Proof.
  intros Hinv Hn Hs. destruct e as [now g n | now |]; simpl in *.
  - apply on_query_cases in Hs as (d1 & now1 & Ho & H). cbn in H.
    destruct H as [(-> & -> & _) | [(-> & -> & _) | [(-> & _ & _ & ->) | (-> & _ & ->)]]]; cbn;
      split; intros; simplify_eq; done.
  - destruct (pending d) as [g|] eqn:Ep.
    + pose proof (inv_pending _ _ Hinv Ep) as Htr.
      destruct (on_timer_pending d now g Ep Htr) as (d'' & Hd & _ & _ & Hpe & _).
      rewrite Hs in Hd. simplify_eq. rewrite Hpe. case_match; split; intros; simplify_eq; auto.
    + apply on_timer_idle in Hs as (-> & -> & _); [|by left]. by split.
  - by simplify_eq/=.
Qed.

Lemma run_invariants p es d outs :
  run (new p) es = Some (d, outs) ->
  reachable p d /\ (forall g, pending d = Some g -> newest_query es = Some g).
Proof.
  revert d outs. induction es as [|e es IH] using rev_ind; intros d outs H.
  - simplify_eq/=. split; [constructor|done].
  - apply run_snoc in H as (d1 & outs1 & out & Hr & Hs & _).
    apply IH in Hr as [Hre Hn]. split; [by econstructor|].
    rewrite newest_query_snoc. eapply step_newest; eauto using debouncer_reachable_inv.
Qed.

(** Whatever the host does, a debouncer answers without panicking, a
    retained request can always be woken (its trailing edge is enabled), and
    its burst began no later than its newest change. *)
Theorem debouncer_sound p d e :
  reachable p d ->
  inv d /\ exists d' out, step d e = Some (d', out) /\ inv d'.
Proof.
  intros H%debouncer_reachable_inv. split; [done|].
  destruct (step_total d e) as (d' & out & Hs). eauto using step_inv.
Qed.

Lemma debouncer_sound_witness : inv (new default_debounce_policy).
Proof.
  exact (proj1 (debouncer_sound default_debounce_policy (new default_debounce_policy) EvReset
    (reach_new _))).
Defined.

(** A deferred query announces the exact time at which it will be sent: a
    timer at or after it dispatches exactly that query, and any earlier timer
    repeats the same deadline and keeps the query. *)
Theorem deadline_exact d now g n d' t later :
  on_query d now g n = Some (d', At t) ->
  let seen := map_or (last_observed d') later (fun last => Z.max last later) in
  exists d'', on_timer d' later = Some (d'', if t <=? seen then Now g else At t) /\
    pending d'' = (if t <=? seen then None else Some g) /\
    (seen < t -> deadline d'' = t).
Proof.
  intros (d1 & now1 & Ho & H)%on_query_cases seen. cbn in H.
  destruct H as [([=] & _) | [([=] & _) | [([=] & _) | ([= ->] & Ht & Hd)]]].
  destruct (end_quiet_burst_spec d1 now1) as (Hpol & _).
  assert (Hp : pending d' = Some g) by by rewrite Hd.
  assert (Htr : trailing_edge (policy d') = true) by (rewrite Hd; cbn; by rewrite Hpol).
  destruct (on_timer_pending d' later g Hp Htr) as (d'' & Ht' & Hpol' & _ & Hpe & Hlt & _).
  exists d''. split_and_all; [done..|]. intros Hseen. destruct (Hlt Hseen) as [Hb Hl].
  unfold deadline. by rewrite Hpol', Hb, Hl.
Qed.

Lemma deadline_exact_witness :
  exists d'', on_timer sample_retained 59 = Some (d'', At 60) /\ pending d'' = Some 7.
Proof.
  pose proof (deadline_exact sample_before 10 7 3 sample_retained 60 59
    ltac:(vm_compute; reflexivity)) as (d'' & Ht & Hp & _).
  exists d''. split; [exact Ht | exact Hp].
Defined.

(** A deferral never moves the start of the burst. *)
Lemma step_deferral d e d' out b :
  inv d -> is_some (pending d) = true -> burst_started d = Some b ->
  step d e = Some (d', out) -> is_deferral out = true ->
  is_some (pending d') = true /\ burst_started d' = Some b /\ policy d' = policy d.
Proof.
  intros Hinv Hp Hb Hs Ho. destruct e as [now g n | now |]; simpl in Hs.
  - apply on_query_cases in Hs as (d1 & now1 & Hob & H). cbn in H.
    apply observe_spec in Hob as (_ & _ & Hpol & Hpe & Hbu & _).
    destruct (end_quiet_burst_spec d1 now1) as (Hpol2 & _ & _ & _ & _ & Hk).
    rewrite Hpe, Hbu in Hk. specialize (Hk Hp).
    destruct H as [(-> & _) | [(-> & _) | [(-> & _) | (_ & _ & ->)]]]; try done.
    cbn. by rewrite Hk, Hb, Hpol2, Hpol.
  - destruct (pending d) as [g|] eqn:Ep; [|done].
    pose proof (inv_pending _ _ Hinv Ep) as Htr.
    destruct (on_timer_pending d now g Ep Htr) as (d'' & Hd & Hpol & _ & Hpe & Hlt & _).
    rewrite Hs in Hd. simplify_eq. rewrite Hpe.
    destruct (Z.leb_spec (deadline d) (map_or (last_observed d) now (λ last : Z, last `max` now)));
      [done|]. destruct (Hlt H) as [-> _]. done.
  - by simplify_eq/=.
Qed.

Lemma run_deferrals d es d' outs b :
  inv d -> is_some (pending d) = true -> burst_started d = Some b ->
  run d es = Some (d', outs) -> Forall (fun out => is_deferral out = true) outs ->
  inv d' /\ is_some (pending d') = true /\ burst_started d' = Some b /\ policy d' = policy d.
Proof.
  revert d outs. induction es as [|e es IH]; intros d outs Hinv Hp Hb Hr Ho; simpl in Hr.
  - by simplify_eq.
  - destruct (step d e) as [[d1 out]|] eqn:Hs; simpl in Hr; [|done].
    destruct (run d1 es) as [[d2 outs2]|] eqn:Hr2; simpl in Hr; [|done]. simplify_eq.
    inversion Ho as [|? ? Hd Hds]; subst.
    destruct (step_deferral _ _ _ _ _ Hinv Hp Hb Hs Hd) as (Hp1 & Hb1 & Hpol).
    rewrite <- Hpol. eauto using step_inv.
Qed.

(** Continuous typing postpones a retained query at most by the maximum
    wait.  However many queries and timers only defer it, the first timer at or
    after the start of the burst plus the maximum wait dispatches the newest
    query. *)
Theorem maximum_wait_dispatches p es d outs b w es' d' outs' now :
  run (new p) es = Some (d, outs) ->
  is_some (pending d) = true -> burst_started d = Some b ->
  maximum_wait_ms (policy d) = Some w ->
  run d es' = Some (d', outs') -> Forall (fun out => is_deferral out = true) outs' ->
  saturating_add u64_max b w <= now ->
  exists d'' g, on_timer d' now = Some (d'', Now g) /\ newest_query (es ++ es') = Some g.
Proof.
  intros Hr Hp Hb Hw Hr' Ho Hnow.
  pose proof (run_invariants _ _ _ _ Hr) as [Hinv%debouncer_reachable_inv _].
  destruct (run_deferrals _ _ _ _ _ Hinv Hp Hb Hr' Ho) as (Hinv' & Hp' & Hb' & Hpol).
  assert (Hnew : forall g, pending d' = Some g -> newest_query (es ++ es') = Some g).
  { exact (proj2 (run_invariants _ _ _ _ (run_app _ _ _ _ _ _ _ Hr Hr'))). }
  destruct (pending d') as [g|] eqn:Ep; [|done].
  pose proof (inv_pending _ _ Hinv' Ep) as Htr.
  destruct (on_timer_pending d' now g Ep Htr) as (d'' & Ht & _).
  assert (Hdl : deadline d' <= now).
  { unfold deadline. rewrite Hpol, Hw, Hb'. lia. }
  rewrite (proj2 (Z.leb_le _ _)) in Ht; [eauto|].
  destruct (last_observed d'); simpl; lia.
Qed.

Lemma maximum_wait_dispatches_witness :
  exists d'' g,
    on_timer (sample_retained <| pending := Some 8 |> <| last_change := 190 |>
                <| last_observed := Some 190 |>) 200 = Some (d'', Now g) /\ Some 8 = Some g.
Proof.
  exact (maximum_wait_dispatches default_debounce_policy
    [EvQuery 0 6 2; EvQuery 10 7 3] sample_retained [Now 6; At 60] 0 200
    [EvTimer 20; EvQuery 190 8 4] _ [At 60; At 200] 200
    ltac:(vm_compute; reflexivity) ltac:(reflexivity) ltac:(reflexivity) ltac:(reflexivity)
    ltac:(vm_compute; reflexivity) ltac:(repeat constructor) ltac:(vm_compute; discriminate)).
Defined.

(** Every query a debouncer sends is the newest one it was given. *)
Theorem newest_query_wins p es e d outs g :
  run (new p) (es ++ [e]) = Some (d, outs ++ [Now g]) -> newest_query (es ++ [e]) = Some g.
Proof.
  intros H. apply run_snoc in H as (d1 & outs1 & out & Hr & Hs & Heq).
  apply app_inj_tail in Heq as [_ <-].
  apply run_invariants in Hr as [Hre Hn]. rewrite newest_query_snoc.
  by eapply step_newest; eauto using debouncer_reachable_inv.
Qed.

Lemma newest_query_wins_witness :
  newest_query [EvQuery 0 6 2; EvQuery 10 7 3; EvQuery 20 8 4; EvTimer 70] = Some 8.
Proof.
  exact (newest_query_wins default_debounce_policy
    [EvQuery 0 6 2; EvQuery 10 7 3; EvQuery 20 8 4] (EvTimer 70)
    _ [Now 6; At 60; At 70] 8 ltac:(vm_compute; reflexivity)).
Defined.

End Debouncer.
