(* ===== verification/Configuration.v ===== *)
(** The [[configuration]] section of a plugin manifest:
    [crikey-plugin-model/src/configuration.rs].

    A plugin declares the settings it reads; [validate] accepts a value or names
    the declared rule that refuses it.  The properties say which values are
    accepted and under which rule a value is refused, that a refusal of a secret
    field carries nothing of the value, and what a validated declaration is
    worth. *)

From Stdlib Require Import SpecFloat.
From S2P Require Import Prelude Text.

(** The value of a TOML key, as the [toml] crate represents it; a date-time by
    the text it prints as. *)
#[warnings="-register-all"]
Inductive TomlValue : Type :=
| TomlString (t : text)
| TomlInteger (n : Z)
| TomlFloat (x : f64)
| TomlBoolean (b : bool)
| TomlDatetime (stamp : text)
| TomlArray (l : list TomlValue)
| TomlTable (l : list (text * TomlValue)).

Inductive ConfigurationKind : Type := KindString | KindInteger | KindFloat | KindBoolean | KindPath.
#[export] Instance ConfigurationKind_eq_dec : EqDecision ConfigurationKind.
Proof. solve_decision. Defined.

Definition kind_as_str (k : ConfigurationKind) : string :=
  match k with
  | KindString => "string"
  | KindInteger => "integer"
  | KindFloat => "float"
  | KindBoolean => "boolean"
  | KindPath => "path"
  end.

Record ConfigurationField := mkField {
  name : text;
  kind : ConfigurationKind;
  default_value : option TomlValue;
  description : text;
  secret : bool;
  requires_restart : bool;
  platforms : list text;
  required : bool;
  minimum : option Z;
  maximum : option Z;
  max_length : option Z;
  allowed : list text;
}.
#[export] Instance eta_ConfigurationField : Eta ConfigurationField := fun f =>
  mkField (name f) (kind f) (default_value f) (description f) (secret f) (requires_restart f) (platforms f)
    (required f) (minimum f) (maximum f) (max_length f) (allowed f).

Record ConfigurationSection := mkConfiguration { fields : list ConfigurationField }.

Record FieldViolation := mkViolation { violation_field : text; rule : string; detail : text }.

Definition RULE_TYPE : string := "type".
Definition RULE_MINIMUM : string := "minimum".
Definition RULE_MAXIMUM : string := "maximum".
Definition RULE_MAX_LENGTH : string := "max-length".
Definition RULE_ALLOWED : string := "allowed".
Definition RULE_FIELD_NAME : string := "field-name".
Definition RULE_DUPLICATE_FIELD : string := "duplicate-field".
Definition RULE_DEFAULT : string := "default".
Definition REDACTED : text := ascii "<redacted>".

(** [Display] of a violation. *)
Definition violation_display (v : FieldViolation) : text :=
  ascii "field `" ++ violation_field v ++ ascii "` violates its `" ++ ascii (rule v) ++ ascii "` rule: " ++ detail v.

Definition is_empty (s : ConfigurationSection) : bool := bool_decide (fields s = []).

Definition field (s : ConfigurationSection) (n : text) : option ConfigurationField :=
  List.find (fun f => text_eqb (name f) n) (fields s).

Definition applies_to (f : ConfigurationField) (os : text) : bool :=
  bool_decide (platforms f = []) || existsb (fun p => text_eqb p os) (platforms f).

Definition quote (f : ConfigurationField) (value : text) : text :=
  if secret f then REDACTED else ascii "`" ++ value ++ ascii "`".

Inductive Numeric : Type := NumInteger (n : Z) | NumFloat (x : f64).

Definition integer_as_float (n : Z) : f64 := f64_of_integer n.

Definition is_below (x : Numeric) (min : Z) : bool :=
  match x with
  | NumInteger n => n <? min
  | NumFloat x => f64_lt x (integer_as_float min)
  end.

Definition is_above (x : Numeric) (max : Z) : bool :=
  match x with
  | NumInteger n => max <? n
  | NumFloat x => f64_lt (integer_as_float max) x
  end.

(** The [match self.kind] at the head of [validate]: the value as a number, if
    its kind is numeric. *)
Definition parse_kind (f : ConfigurationField) (value : text) : result (option Numeric) FieldViolation :=
  let refuse why := Err (mkViolation (name f) RULE_TYPE (quote f value ++ ascii why)) in
  match kind f with
  | KindString | KindPath => Ok None
  | KindInteger =>
      match parse_i64 (trim value) with
      | Some n => Ok (Some (NumInteger n))
      | None => refuse " is not an integer"
      end
  | KindFloat =>
      match parse_f64 (trim value) with
      | Some x => if f64_is_finite x then Ok (Some (NumFloat x)) else refuse " is not a finite number"
      | None => refuse " is not a number"
      end
  | KindBoolean =>
      if text_eqb (trim value) (ascii "true") || text_eqb (trim value) (ascii "false") then Ok None
      else refuse " is not `true` or `false`"
  end%string.

Definition check_minimum (f : ConfigurationField) (value : text) (numeric : option Numeric)
    : result unit FieldViolation :=
  match numeric, minimum f with
  | Some number, Some min =>
      if is_below number min then
        Err (mkViolation (name f) RULE_MINIMUM
               (quote f value ++ ascii " is below the declared minimum " ++ display min))
      else Ok ()
  | _, _ => Ok ()
  end.

Definition check_maximum (f : ConfigurationField) (value : text) (numeric : option Numeric)
    : result unit FieldViolation :=
  match numeric, maximum f with
  | Some number, Some max =>
      if is_above number max then
        Err (mkViolation (name f) RULE_MAXIMUM
               (quote f value ++ ascii " is above the declared maximum " ++ display max))
      else Ok ()
  | _, _ => Ok ()
  end.

Definition check_length (f : ConfigurationField) (value : text) : result unit FieldViolation :=
  match max_length f with
  | Some limit =>
      if limit <? len value then
        Err (mkViolation (name f) RULE_MAX_LENGTH
               (ascii "is " ++ display (len value) ++ ascii " characters, above the declared max-length "
                ++ display limit))
      else Ok ()
  | None => Ok ()
  end.

Definition check_allowed (f : ConfigurationField) (value : text) : result unit FieldViolation :=
  if negb (bool_decide (allowed f = [])) && negb (existsb (fun c => text_eqb c value) (allowed f)) then
    let choices :=
      if secret f then ascii "one of the " ++ display (len (allowed f)) ++ ascii " declared values"
      else ascii "one of the declared values: " ++ join (ascii ", ") (allowed f) in
    Err (mkViolation (name f) RULE_ALLOWED (quote f value ++ ascii " is not " ++ choices))
  else Ok ().

Definition validate (f : ConfigurationField) (value : text) : result unit FieldViolation :=
  let? numeric := parse_kind f value in
  let? _ := check_minimum f value numeric in
  let? _ := check_maximum f value numeric in
  let? _ := check_length f value in
  check_allowed f value.

Definition is_usable_field_name (n : text) : bool :=
  negb (bool_decide (n = [])) && forallb (fun c => is_ascii_alphanumeric c || (c =? 45) || (c =? 95)) n.

Section Declarations.

(** [Display] of an [f64]: the shortest decimal that reads back as it. *)
Variable show_float : f64 -> text.

Definition default_text (f : ConfigurationField) : result (option text) FieldViolation :=
  match default_value f with
  | None => Ok None
  | Some (TomlString t) => Ok (Some t)
  | Some (TomlInteger n) => Ok (Some (display n))
  | Some (TomlFloat x) => Ok (Some (show_float x))
  | Some (TomlBoolean b) => Ok (Some (ascii (if b then "true" else "false")%string))
  | Some (TomlDatetime stamp) => Ok (Some stamp)
  | Some (TomlArray _) | Some (TomlTable _) =>
      Err (mkViolation (name f) RULE_DEFAULT
             (ascii "a default must be a scalar (string, integer, float, boolean or datetime)"))
  end.

(** The default of one field against its own rules. *)
Definition validate_default (f : ConfigurationField) : result unit FieldViolation :=
  let? default := default_text f in
  match default with
  | None => Ok ()
  | Some value =>
      match validate f value with
      | Ok _ => Ok ()
      | Err v =>
          Err (mkViolation (violation_field v) RULE_DEFAULT
                 (ascii "the declared default breaks its own `" ++ ascii (rule v) ++ ascii "` rule: " ++ detail v))
      end
  end.

(** One field of the declaration, given the ones before it. *)
Definition validate_field (earlier : list ConfigurationField) (f : ConfigurationField)
    : result unit FieldViolation :=
  if negb (is_usable_field_name (name f)) then
    Err (mkViolation (name f) RULE_FIELD_NAME
           (ascii "a field name must be non-empty and contain only letters, digits, `-` or `_`"))
  else if existsb (fun e => text_eqb (name e) (name f)) earlier then
    Err (mkViolation (name f) RULE_DUPLICATE_FIELD (ascii "declared more than once"))
  else validate_default f.

Fixpoint validate_fields (earlier rest : list ConfigurationField) : result unit FieldViolation :=
  match rest with
  | [] => Ok ()
  | f :: rest' =>
      let? _ := validate_field earlier f in
      validate_fields (earlier ++ [f]) rest'
  end.

Definition validate_declaration (s : ConfigurationSection) : result unit FieldViolation :=
  validate_fields [] (fields s).

End Declarations.

(** * What the rules mean *)

(** The value of a numeric field as a number. *)
Definition numeric_value (f : ConfigurationField) (value : text) : option Numeric :=
  match kind f with
  | KindInteger => NumInteger <$> parse_i64 (trim value)
  | KindFloat => NumFloat <$> parse_f64 (trim value)
  | _ => None
  end.

(** The rules in the order they are checked. *)
Definition rules : list string := [RULE_TYPE; RULE_MINIMUM; RULE_MAXIMUM; RULE_MAX_LENGTH; RULE_ALLOWED].

Definition well_typed (f : ConfigurationField) (value : text) : Prop :=
  match kind f with
  | KindString | KindPath => True
  | KindInteger => exists n, parse_i64 (trim value) = Some n
  | KindFloat => exists x, parse_f64 (trim value) = Some x /\ f64_is_finite x = true
  | KindBoolean => trim value = ascii "true" \/ trim value = ascii "false"
  end.

(** [f] holds the value to rule [r], and it obeys. *)
Definition obeys (f : ConfigurationField) (value : text) (r : string) : Prop :=
  (r = RULE_TYPE -> well_typed f value)
  /\ (r = RULE_MINIMUM -> forall x m, numeric_value f value = Some x -> minimum f = Some m -> is_below x m = false)
  /\ (r = RULE_MAXIMUM -> forall x m, numeric_value f value = Some x -> maximum f = Some m -> is_above x m = false)
  /\ (r = RULE_MAX_LENGTH -> forall m, max_length f = Some m -> len value <= m)
  /\ (r = RULE_ALLOWED -> allowed f <> [] -> value ∈ allowed f).

Lemma obeys_type f v : obeys f v RULE_TYPE <-> well_typed f v.
Proof. unfold obeys. naive_solver. Qed.
Lemma obeys_minimum f v :
  obeys f v RULE_MINIMUM <-> forall x m, numeric_value f v = Some x -> minimum f = Some m -> is_below x m = false.
Proof. unfold obeys. naive_solver. Qed.
Lemma obeys_maximum f v :
  obeys f v RULE_MAXIMUM <-> forall x m, numeric_value f v = Some x -> maximum f = Some m -> is_above x m = false.
Proof. unfold obeys. naive_solver. Qed.
Lemma obeys_length f v : obeys f v RULE_MAX_LENGTH <-> forall m, max_length f = Some m -> len v <= m.
Proof. unfold obeys. naive_solver. Qed.
Lemma obeys_allowed f v : obeys f v RULE_ALLOWED <-> (allowed f <> [] -> v ∈ allowed f).
Proof. unfold obeys. naive_solver. Qed.

(** A check of one rule: it accepts just the values that obey the rule, and a
    refusal names the field and the rule. *)
Definition checks {A} (f : ConfigurationField) (v : text) (r : string) (outcome : result A FieldViolation) : Prop :=
  match outcome with
  | Ok _ => obeys f v r
  | Err e => ~ obeys f v r /\ violation_field e = name f /\ rule e = r
  end.

Lemma checks_intro {A} f v r (P : Prop) (o : result A FieldViolation) :
  (obeys f v r <-> P) ->
  match o with Ok _ => P | Err e => ~ P /\ violation_field e = name f /\ rule e = r end ->
  checks f v r o.
Proof. intros HP. unfold checks. destruct o; by rewrite HP. Qed.

Lemma existsb_text_eqb (v : text) l : existsb (fun c => text_eqb c v) l = true <-> v ∈ l.
Proof.
  rewrite existsb_exists, list_elem_of_In. unfold text_eqb. split.
  - intros (x & Hx & E%bool_decide_eq_true). by subst.
  - intros Hv. exists v. by rewrite bool_decide_eq_true.
Qed.

Lemma parse_kind_checks f v : checks f v RULE_TYPE (parse_kind f v).
Proof.
  apply (checks_intro _ _ _ _ _ (obeys_type f v)). unfold parse_kind, text_eqb, well_typed.
  destruct (kind f); [done | | | | done].
  - destruct (parse_i64 (trim v)) eqn:E; [eauto | naive_solver].
  - destruct (parse_f64 (trim v)) as [x|] eqn:E; [|naive_solver].
    destruct (f64_is_finite x) eqn:Ex; [eauto|]. split; [intros (y & [= <-] & ?); congruence | done].
  - destruct (bool_decide (trim v = ascii "true") || bool_decide (trim v = ascii "false")) eqn:E;
      reflect_bools; [destruct E; reflect_bools; auto | naive_solver].
Qed.

Lemma parse_kind_numeric f v numeric : parse_kind f v = Ok numeric -> numeric = numeric_value f v.
Proof. unfold parse_kind, numeric_value. intros H. destruct (kind f); repeat case_match; by simplify_eq/=. Qed.

Lemma check_minimum_checks f v : checks f v RULE_MINIMUM (check_minimum f v (numeric_value f v)).
Proof.
  apply (checks_intro _ _ _ _ _ (obeys_minimum f v)). unfold check_minimum.
  destruct (numeric_value f v) as [x|], (minimum f) as [m|]; try naive_solver.
  destruct (is_below x m) eqn:E; [|naive_solver]. split; [|done]. intros H. by rewrite (H x m) in E.
Qed.

Lemma check_maximum_checks f v : checks f v RULE_MAXIMUM (check_maximum f v (numeric_value f v)).
Proof.
  apply (checks_intro _ _ _ _ _ (obeys_maximum f v)). unfold check_maximum.
  destruct (numeric_value f v) as [x|], (maximum f) as [m|]; try naive_solver.
  destruct (is_above x m) eqn:E; [|naive_solver]. split; [|done]. intros H. by rewrite (H x m) in E.
Qed.

Lemma check_length_checks f v : checks f v RULE_MAX_LENGTH (check_length f v).
Proof.
  apply (checks_intro _ _ _ _ _ (obeys_length f v)). unfold check_length. destruct (max_length f) as [m|]; [|naive_solver].
  destruct (m <? len v) eqn:E; reflect_bools; [|naive_solver]. split; [|done]. intros H. specialize (H m eq_refl). lia.
Qed.

Lemma check_allowed_checks f v : checks f v RULE_ALLOWED (check_allowed f v).
Proof.
  apply (checks_intro _ _ _ _ _ (obeys_allowed f v)). unfold check_allowed.
  destruct (bool_decide (allowed f = [])) eqn:E; reflect_bools; cbn [negb andb]; [by intros ?|].
  destruct (existsb _ _) eqn:Ev; cbn [negb].
  - by apply existsb_text_eqb in Ev.
  - split; [|done]. intros H. apply H, existsb_text_eqb in E. congruence.
Qed.

(** Checks in sequence: the first rule of the list that is broken is named. *)
Definition names_first (f : ConfigurationField) (v : text) (rs : list string) (outcome : result unit FieldViolation)
    : Prop :=
  match outcome with
  | Ok _ => Forall (obeys f v) rs
  | Err e => violation_field e = name f
             /\ exists before after, rs = before ++ rule e :: after /\ Forall (obeys f v) before /\ ~ obeys f v (rule e)
  end.

Lemma names_first_cons {A} f v r rs (o : result A FieldViolation) (k : A -> result unit FieldViolation) :
  checks f v r o -> (forall a, o = Ok a -> names_first f v rs (k a)) ->
  names_first f v (r :: rs) (let? a := o in k a).
Proof.
  intros Ho Hk. destruct o as [a|e]; simpl in Ho.
  - specialize (Hk a eq_refl). destruct (k a) as [u|e]; simpl in *; [by constructor|].
    destruct Hk as (Hf & before & after & -> & Hb & He). split; [done|].
    exists (r :: before), after. split_and!; [done | by constructor | done].
  - destruct Ho as (Hb & Hf & <-). simpl. split; [done|]. by exists [], rs.
Qed.

Lemma validate_names_first f v : names_first f v rules (validate f v).
Proof.
  unfold validate, rules. apply names_first_cons; [apply parse_kind_checks|].
  intros numeric ->%parse_kind_numeric.
  apply names_first_cons; [apply check_minimum_checks | intros _ _].
  apply names_first_cons; [apply check_maximum_checks | intros _ _].
  apply names_first_cons; [apply check_length_checks | intros _ _].
  pose proof (check_allowed_checks f v) as H. unfold checks, names_first in *.
  destruct (check_allowed f v) as [u|e]; [by constructor|]. destruct H as (Hb & Hf & Hr).
  split; [done|]. exists [], []. by rewrite Hr.
Qed.

(** A value is accepted exactly when it obeys every declared rule of its
    field: it parses as the declared type, lies within the bounds (compared as
    integers for integer fields), is not too long, and is one of the allowed
    values.  A refusal names the field and the first broken rule in the order
    type, minimum, maximum, length, membership. *)
Theorem validate_exact f v :
  (validate f v = Ok () <-> Forall (obeys f v) rules)
  /\ (forall e, validate f v = Err e ->
      violation_field e = name f
      /\ exists before after, rules = before ++ rule e :: after
         /\ Forall (obeys f v) before /\ ~ obeys f v (rule e)).
Proof.
  pose proof (validate_names_first f v) as H. split.
  - destruct (validate f v) as [[]|e]; simpl in H; [done|]. split; [done|].
    destruct H as (_ & before & after & -> & _ & Hb). rewrite Forall_app, Forall_cons. by intros (_ & Hr & _).
  - intros e He. by rewrite He in H.
Qed.

(** * Secrets *)

(** What a reader of diagnostics may know of a field: not its default, and of
    the allowed values only how many there are. *)
Record PublicView := mkPublicView {
  public_name : text;
  public_minimum : option Z;
  public_maximum : option Z;
  public_max_length : option Z;
  public_allowed : Z;
}.

Definition public_view (f : ConfigurationField) : PublicView :=
  mkPublicView (name f) (minimum f) (maximum f) (max_length f) (len (allowed f)).

(** Every message about a value of a secret field: they are made of the public
    view, and one mentions the length of the value. *)
Definition redacted_messages (p : PublicView) (length : Z) : list FieldViolation :=
  let say r t := mkViolation (public_name p) r t in
  [say RULE_TYPE (REDACTED ++ ascii " is not an integer");
   say RULE_TYPE (REDACTED ++ ascii " is not a number");
   say RULE_TYPE (REDACTED ++ ascii " is not a finite number");
   say RULE_TYPE (REDACTED ++ ascii " is not `true` or `false`");
   say RULE_ALLOWED (REDACTED ++ ascii " is not " ++ ascii "one of the " ++ display (public_allowed p)
                     ++ ascii " declared values")]
  ++ (match public_minimum p with
      | Some m => [say RULE_MINIMUM (REDACTED ++ ascii " is below the declared minimum " ++ display m)]
      | None => []
      end)
  ++ (match public_maximum p with
      | Some m => [say RULE_MAXIMUM (REDACTED ++ ascii " is above the declared maximum " ++ display m)]
      | None => []
      end)
  ++ (match public_max_length p with
      | Some m => [say RULE_MAX_LENGTH (ascii "is " ++ display length
                     ++ ascii " characters, above the declared max-length " ++ display m)]
      | None => []
      end).

(** How a violation by a default is reported. *)
Definition as_default (v : FieldViolation) : FieldViolation :=
  mkViolation (violation_field v) RULE_DEFAULT
    (ascii "the declared default breaks its own `" ++ ascii (rule v) ++ ascii "` rule: " ++ detail v).

Lemma quote_secret f v : secret f = true -> quote f v = REDACTED.
Proof. unfold quote. by intros ->. Qed.

Lemma bind_err {A B E} (o : result A E) (k : A -> result B E) e :
  (let? a := o in k a) = Err e -> o = Err e \/ exists a, o = Ok a /\ k a = Err e.
Proof. destruct o as [a|e']; [right; eauto | intros [= ->]; by left]. Qed.

(** One step of a membership proof in a list of messages. *)
Ltac in_messages := rewrite list_elem_of_In; simpl; rewrite ?in_app_iff; simpl; tauto.

Section Redaction.
Context (f : ConfigurationField) (v : text) (Hs : secret f = true).

Lemma parse_kind_redacted e : parse_kind f v = Err e -> e ∈ redacted_messages (public_view f) (len v).
Proof.
  unfold parse_kind. rewrite (quote_secret f v Hs). intros H.
  destruct (kind f); repeat case_match; simplify_eq; in_messages.
Qed.

Lemma check_minimum_redacted n e :
  check_minimum f v n = Err e -> e ∈ redacted_messages (public_view f) (len v).
Proof.
  unfold check_minimum, redacted_messages, public_view. cbn [public_minimum]. rewrite (quote_secret f v Hs).
  destruct n, (minimum f); try done. destruct (is_below _ _); [|done]. intros [= <-]. in_messages.
Qed.

Lemma check_maximum_redacted n e :
  check_maximum f v n = Err e -> e ∈ redacted_messages (public_view f) (len v).
Proof.
  unfold check_maximum, redacted_messages, public_view. cbn [public_maximum]. rewrite (quote_secret f v Hs).
  destruct n, (maximum f); try done. destruct (is_above _ _); [|done]. intros [= <-]. in_messages.
Qed.

Lemma check_length_redacted e : check_length f v = Err e -> e ∈ redacted_messages (public_view f) (len v).
Proof.
  unfold check_length, redacted_messages, public_view. cbn [public_max_length].
  destruct (max_length f); [|done]. destruct (_ <? _); [|done]. intros [= <-]. in_messages.
Qed.

Lemma check_allowed_redacted e : check_allowed f v = Err e -> e ∈ redacted_messages (public_view f) (len v).
Proof.
  unfold check_allowed. rewrite (quote_secret f v Hs), Hs.
  destruct (_ && _); [|done]. intros [= <-]. in_messages.
Qed.

Lemma validate_redacted e : validate f v = Err e -> e ∈ redacted_messages (public_view f) (len v).
Proof.
  unfold validate. intros [H|(n & _ & H)]%bind_err; [by apply parse_kind_redacted|].
  apply bind_err in H as [H|(? & _ & H)]; [by eapply check_minimum_redacted|].
  apply bind_err in H as [H|(? & _ & H)]; [by eapply check_maximum_redacted|].
  apply bind_err in H as [H|(? & _ & H)]; [by eapply check_length_redacted|].
  by apply check_allowed_redacted.
Qed.
End Redaction.

(** No diagnostic reveals a value of a secret field.  A refused value is
    reported by one of a few messages made of the public part of the field and
    of the length of the value; the allowed values, which are values of the
    field too, show only in their number; and a default that breaks its own
    rules is reported through the same messages. *)
Theorem secret_values_redacted show_float f v e :
  secret f = true ->
  (validate f v = Err e -> e ∈ redacted_messages (public_view f) (len v))
  /\ (default_text show_float f = Ok (Some v) -> validate_default show_float f = Err e ->
      e ∈ map as_default (redacted_messages (public_view f) (len v))).
Proof.
  intros Hs. split; [by apply validate_redacted|]. unfold validate_default. intros -> H.
  destruct (validate f v) as [[]|e'] eqn:Hv; [done|]. simplify_eq.
  apply list_elem_of_In, in_map_iff. exists e'. split; [done|]. apply list_elem_of_In.
  by apply validate_redacted.
Qed.

Definition sample_token : ConfigurationField :=
  {| name := ascii "api-key"; kind := KindString; default_value := Some (TomlString (ascii "hunter2"));
     description := []; secret := true; requires_restart := false; platforms := []; required := true;
     minimum := None; maximum := None; max_length := Some 5; allowed := [] |}.

Definition sample_refusal : FieldViolation :=
  mkViolation (ascii "api-key") RULE_MAX_LENGTH (ascii "is 7 characters, above the declared max-length 5").

Lemma secret_values_redacted_witness :
  secret sample_token = true
  /\ validate sample_token (ascii "hunter2") = Err sample_refusal
  /\ sample_refusal ∈ redacted_messages (public_view sample_token) (len (ascii "hunter2"))
  /\ as_default sample_refusal ∈ map as_default (redacted_messages (public_view sample_token) (len (ascii "hunter2"))).
Proof.
  split; [reflexivity|]. split; [vm_compute; reflexivity|]. split.
  - apply (secret_values_redacted (fun _ => []) sample_token (ascii "hunter2") sample_refusal);
      vm_compute; reflexivity.
  - apply (secret_values_redacted (fun _ => []) sample_token (ascii "hunter2") (as_default sample_refusal));
      vm_compute; reflexivity.
Defined.

(** * Declarations *)

Section DeclarationFacts.
Context (show_float : f64 -> text).

(** The default, if any, is a scalar that its own field accepts. *)
Definition default_usable (f : ConfigurationField) : Prop :=
  match default_text show_float f with
  | Ok None => True
  | Ok (Some v) => validate f v = Ok ()
  | Err _ => False
  end.

Lemma validate_default_iff f : validate_default show_float f = Ok () <-> default_usable f.
Proof.
  unfold validate_default, default_usable. destruct (default_text show_float f) as [[v|]|e]; [|done..].
  by destruct (validate f v) as [[]|e].
Qed.

Lemma validate_field_iff earlier f :
  validate_field show_float earlier f = Ok () <->
  is_usable_field_name (name f) = true /\ (name f ∉ map name earlier) /\ default_usable f.
Proof.
  unfold validate_field. rewrite <- validate_default_iff.
  assert (He : existsb (fun e => text_eqb (name e) (name f)) earlier = true <-> name f ∈ map name earlier).
  { rewrite existsb_exists, list_elem_of_In, in_map_iff. unfold text_eqb.
    setoid_rewrite bool_decide_eq_true. naive_solver. }
  destruct (is_usable_field_name (name f)); cbn [negb]; [|naive_solver].
  destruct (existsb _ _); naive_solver.
Qed.

Lemma validate_fields_iff earlier rest :
  validate_fields show_float earlier rest = Ok () <->
  Forall (fun f => is_usable_field_name (name f) = true /\ default_usable f) rest
  /\ NoDup (map name rest) /\ (forall f, f ∈ rest -> name f ∉ map name earlier).
Proof.
  revert earlier. induction rest as [|f rest IH]; intros earlier; cbn [validate_fields map].
  { split; [intros _|done]. split_and!; [constructor | constructor | intros ? H; inversion H]. }
  assert (Hb : validate_field show_float earlier f = Ok () \/ exists e, validate_field show_float earlier f = Err e).
  { destruct (validate_field show_float earlier f) as [[]|]; eauto. }
  rewrite NoDup_cons, Forall_cons. setoid_rewrite elem_of_cons.
  destruct Hb as [Hf|[e Hf]]; rewrite Hf.
  - rewrite IH. apply validate_field_iff in Hf as (Hu & Hn & Hd). rewrite map_app. cbn [map].
    setoid_rewrite not_elem_of_app. setoid_rewrite not_elem_of_cons. split.
    + intros (HF & HN & HE). split_and!; [done | done | done | | done | naive_solver].
      intros Hin%list_elem_of_In%in_map_iff. destruct Hin as (g & Hg & Hin%list_elem_of_In).
      destruct (HE g Hin) as (_ & Hne & _). by rewrite Hg in Hne.
    + intros ((_ & HF) & (HN & HND) & HE). split_and!; [done | done |]. intros g Hg.
      split; [naive_solver|]. split; [|apply not_elem_of_nil]. intros Heq. apply HN.
      apply list_elem_of_In, in_map_iff. exists g. by rewrite <- list_elem_of_In.
  - split; [done|]. intros (((Hu & Hd) & _) & _ & HE).
    assert (validate_field show_float earlier f = Ok ()); [|congruence].
    apply validate_field_iff. naive_solver.
Qed.

(** A declaration is accepted exactly when every field name can be part of
    a configuration key, no two fields share a name, and every declared default
    is a scalar that its own field accepts.  In an accepted declaration every
    field is found under its name. *)
Theorem declaration_valid_iff s :
  (validate_declaration show_float s = Ok () <->
   Forall (fun f => is_usable_field_name (name f) = true /\ default_usable f) (fields s)
   /\ NoDup (map name (fields s)))
  /\ (validate_declaration show_float s = Ok () -> forall f, f ∈ fields s -> field s (name f) = Some f).
Proof.
  assert (Hiff : validate_declaration show_float s = Ok () <->
    Forall (fun f => is_usable_field_name (name f) = true /\ default_usable f) (fields s)
    /\ NoDup (map name (fields s))).
  { unfold validate_declaration. rewrite validate_fields_iff. split; [naive_solver|].
    intros [HF HN]. split_and!; [done | done |]. intros f _. apply not_elem_of_nil. }
  split; [done|]. intros [_ HN]%Hiff. clear Hiff. unfold field, text_eqb. induction (fields s) as [|g l IH]; intros f Hf; [inversion Hf|].
  cbn [map] in HN. apply NoDup_cons in HN as [Hg HN]. cbn [List.find].
  case_bool_decide as E.
  - apply elem_of_cons in Hf as [->|Hf]; [done|]. exfalso. apply Hg.
    rewrite E. apply list_elem_of_In, in_map, list_elem_of_In, Hf.
  - apply elem_of_cons in Hf as [->|Hf]; [done|]. by apply IH.
Qed.

End DeclarationFacts.

(** A field that names its result limit, in range, and the section of both. *)
Definition sample_limit : ConfigurationField :=
  {| name := ascii "result-limit"; kind := KindInteger; default_value := Some (TomlInteger 20);
     description := []; secret := false; requires_restart := false; platforms := []; required := false;
     minimum := Some 1; maximum := Some 200; max_length := None; allowed := [] |}.

Definition sample_section : ConfigurationSection :=
  mkConfiguration [sample_token <| max_length := None |>; sample_limit].

Lemma validate_exact_witness :
  Forall (obeys sample_limit (ascii " 20 ")) rules
  /\ violation_field (mkViolation (ascii "result-limit") RULE_MAXIMUM
       (ascii "`201` is above the declared maximum 200")) = name sample_limit.
Proof.
  split.
  - apply (validate_exact sample_limit (ascii " 20 ")). vm_compute. reflexivity.
  - apply (validate_exact sample_limit (ascii "201")). vm_compute. reflexivity.
Defined.

Lemma declaration_valid_iff_witness :
  validate_declaration (fun _ => []) sample_section = Ok ()
  /\ field sample_section (ascii "result-limit") = Some sample_limit.
Proof.
  split; [vm_compute; reflexivity|].
  change (ascii "result-limit") with (name sample_limit).
  apply (proj2 (declaration_valid_iff (fun _ => []) sample_section)); [vm_compute; reflexivity|].
  right. left.
Defined.
