(* ===== verification/LegacyDispatch.v ===== *)
(** Obsolete-work replacement for unchanged legacy plugins:
    [crikey-input-scheduler/src/legacy.rs] and [profile.rs].

    [ObsoleteWorkManager] is refined against an abstract machine that only
    remembers which callback runs and what was asked of the plugin since it
    started; serial callbacks follow from the same invariant. *)

From S2P Require Import Prelude Generation.

Inductive SchedulingProfile : Type := LegacyStrict | LegacyOptimized | Modern.
#[export] Instance SchedulingProfile_eq_dec : EqDecision SchedulingProfile.
Proof. solve_decision. Defined.

Definition allows_time_debounce (p : SchedulingProfile) : bool :=
  match p with LegacyStrict => false | _ => true end.

Definition allows_host_gating (p : SchedulingProfile) : bool :=
  match p with LegacyStrict => false | _ => true end.

Definition allows_dynamic_result_cache (p : SchedulingProfile) : bool :=
  match p with LegacyStrict => false | _ => true end.

Definition profile_as_str (p : SchedulingProfile) : string :=
  match p with
  | LegacyStrict => "legacy-strict"
  | LegacyOptimized => "legacy-optimized"
  | Modern => "modern"
  end.

Inductive LegacyDispatch : Type :=
| LegacyNow (g : Generation)
| QueuedBehindRunning (obsolete queued : Generation)
| LegacyIdle.

Module ObsoleteWorkManager.

Inductive State : Type :=
| StIdle
| StRunning (generation : Generation) (obsolete : bool).

Record ObsoleteWorkManager := mk { state : State; pending : option Generation }.
#[export] Instance eta_ObsoleteWorkManager : Eta ObsoleteWorkManager := fun r =>
  mk (state r) (pending r).

Definition new : ObsoleteWorkManager := {| state := StIdle; pending := None |}.

Definition on_query (m : ObsoleteWorkManager) (generation : Generation)
    : ObsoleteWorkManager * LegacyDispatch :=
  match state m with
  | StIdle =>
      (m <| state := StRunning generation false |> <| pending := None |>, LegacyNow generation)
  | StRunning running _ =>
      (m <| state := StRunning running true |> <| pending := Some generation |>,
       QueuedBehindRunning running generation)
  end.

Definition on_callback_finished (m : ObsoleteWorkManager)
    : ObsoleteWorkManager * LegacyDispatch :=
  let m := m <| state := StIdle |> in
  match pending m with
  | Some generation =>
      (m <| pending := None |> <| state := StRunning generation false |>, LegacyNow generation)
  | None => (m, LegacyIdle)
  end.

Definition should_terminate (m : ObsoleteWorkManager) : bool :=
  match state m with StRunning _ true => true | _ => false end.

Definition invalidate (m : ObsoleteWorkManager) : ObsoleteWorkManager :=
  let m :=
    match state m with
    | StRunning generation _ => m <| state := StRunning generation true |>
    | StIdle => m
    end in
  m <| pending := None |>.

Definition running_generation (m : ObsoleteWorkManager) : option Generation :=
  match state m with StRunning generation _ => Some generation | StIdle => None end.

(** The calls a host makes. *)
Inductive call : Type :=
| Query (g : Generation)
| CallbackFinished
| Invalidate.

Definition step (m : ObsoleteWorkManager) (c : call) : ObsoleteWorkManager * LegacyDispatch :=
  match c with
  | Query g => on_query m g
  | CallbackFinished => on_callback_finished m
  | Invalidate => (invalidate m, LegacyIdle)
  end.

Fixpoint run (m : ObsoleteWorkManager) (cs : list call)
    : ObsoleteWorkManager * list LegacyDispatch :=
  match cs with
  | [] => (m, [])
  | c :: cs' => let (m1, out) := step m c in let (m2, outs) := run m1 cs' in (m2, out :: outs)
  end.

(** The contract of spec 3.6, 8.4 and 14.5: the plugin runs at most one
    callback; the host keeps what it was asked since that callback started.
    [None] is an idle plugin. *)
Definition spec_state : Type := option (Generation * list call).

Definition newest (log : list call) : option Generation :=
  match last log with Some (Query g) => Some g | _ => None end.

Definition spec_step (a : spec_state) (c : call) : spec_state * LegacyDispatch :=
  match a, c with
  | None, Query g => (Some (g, []), LegacyNow g)
  | None, _ => (None, LegacyIdle)
  | Some (r, log), Query g => (Some (r, log ++ [Query g]), QueuedBehindRunning r g)
  | Some (r, log), Invalidate => (Some (r, log ++ [Invalidate]), LegacyIdle)
  | Some (r, log), CallbackFinished =>
      match newest log with
      | Some g => (Some (g, []), LegacyNow g)
      | None => (None, LegacyIdle)
      end
  end.

Fixpoint spec_run (a : spec_state) (cs : list call) : spec_state * list LegacyDispatch :=
  match cs with
  | [] => (a, [])
  | c :: cs' =>
      let (a1, out) := spec_step a c in let (a2, outs) := spec_run a1 cs' in (a2, out :: outs)
  end.

(** The abstraction relation. *)
Definition refines (m : ObsoleteWorkManager) (a : spec_state) : Prop :=
  match a with
  | None => state m = StIdle /\ pending m = None
  | Some (r, log) =>
      state m = StRunning r (match log with [] => false | _ => true end) /\
      pending m = newest log
  end.

(** Callbacks started, and callbacks whose completion the host reported. *)
Definition started (outs : list LegacyDispatch) : Z :=
  len (List.filter (fun o => match o with LegacyNow _ => true | _ => false end) outs).

(** One completion per running callback: the host reports a callback as
    finished only while one is running. *)
Fixpoint completed (m : ObsoleteWorkManager) (cs : list call) : Z :=
  match cs with
  | [] => 0
  | c :: cs' =>
      (match c, state m with CallbackFinished, StRunning _ _ => 1 | _, _ => 0 end)
      + completed (step m c).1 cs'
  end.

Lemma refines_step m a c :
  refines m a ->
  refines (step m c).1 (spec_step a c).1 /\ (step m c).2 = (spec_step a c).2.
Proof.
  destruct m as [st pe]. destruct a as [[r log]|]; simpl; intros [-> ->]; destruct c as [g| |];
    unfold on_query, on_callback_finished, invalidate; simpl; try done.
  - split; [|done]. unfold newest. rewrite last_snoc. by destruct log.
  - unfold newest. by destruct (last log) as [[g| |]|].
  - split; [|done]. unfold newest. rewrite last_snoc. by destruct log.
Qed.

Lemma refines_run m a cs :
  refines m a ->
  refines (run m cs).1 (spec_run a cs).1 /\ (run m cs).2 = (spec_run a cs).2.
Proof.
  revert m a. induction cs as [|c cs IH]; intros m a Hr; simpl; [done|].
  destruct (refines_step _ _ c Hr) as [Hr' Ho].
  destruct (step m c) as [m1 out], (spec_step a c) as [a1 out']. simpl in *.
  destruct (IH _ _ Hr') as [Hr'' Hos].
  destruct (run m1 cs) as [m2 outs], (spec_run a1 cs) as [a2 outs']. simpl in *.
  by subst.
Qed.

(** The manager implements the log machine: from the initial state it
    answers every sequence of calls exactly as the machine that only remembers
    the running callback and what was asked since it started; running work is
    told to stop exactly when something was asked since; and the retained
    request is the newest of those. *)
Theorem manager_refines_log cs :
  let m := (run new cs).1 in
  let a := (spec_run None cs).1 in
  (run new cs).2 = (spec_run None cs).2 /\
  running_generation m = fst <$> a /\
  should_terminate m = match a with Some (_, _ :: _) => true | _ => false end /\
  pending m = match a with Some (_, log) => newest log | None => None end.
Proof.
  destruct (refines_run new None cs) as [Hr Ho]; [done|]. split; [done|].
  destruct (run new cs) as [[st pe] outs], (spec_run None cs) as [[[r log]|] outs']; simpl in *;
    destruct Hr as [-> ->]; simpl; by try destruct log.
Qed.

Lemma started_cons o outs :
  started (o :: outs) = (match o with LegacyNow _ => 1 | _ => 0 end) + started outs.
Proof. unfold started. destruct o; simpl; rewrite ?len_cons; lia. Qed.

Lemma serial_gen m cs :
  (exists a, refines m a) ->
  (match state m with StRunning _ _ => 1 | StIdle => 0 end) + started (run m cs).2 - completed m cs
  = match state (run m cs).1 with StRunning _ _ => 1 | StIdle => 0 end.
Proof.
  revert m. induction cs as [|c cs IH]; intros m [a Hr]; simpl; [by destruct (state m)|].
  destruct (refines_step _ _ c Hr) as [Hr' _].
  specialize (IH (step m c).1 ltac:(eauto)).
  destruct (step m c) as [m1 out] eqn:Hs. simpl in *.
  destruct (run m1 cs) as [m2 outs]. simpl in *. rewrite started_cons, <- IH.
  clear IH Hr'. destruct m as [st pe]. destruct a as [[r log]|]; simpl in Hr; destruct Hr as [-> ->];
    destruct c as [g| |]; unfold step, on_query, on_callback_finished, invalidate in Hs; simpl in *;
    repeat case_match; simplify_eq/=; try lia.
Qed.

(** Callbacks of one plugin never overlap: after any sequence of calls,
    the callbacks the manager started exceed the ones reported finished by
    exactly the one that is running, if one is. *)
Theorem callbacks_never_overlap cs :
  started (run new cs).2 - completed new cs =
  match running_generation (run new cs).1 with Some _ => 1 | None => 0 end.
Proof.
  pose proof (serial_gen new cs ltac:(by exists None)) as H. simpl in H.
  unfold running_generation. by destruct (state (run new cs).1).
Qed.

End ObsoleteWorkManager.
