(* ===== verification/SchedulerTypes.v ===== *)
(** Data of the query scheduler: [crikey-input-scheduler/src/runtime.rs], its
    policies, diagnostics, trace events and per-plugin state, and the pure
    functions over them (policy normalisation, effective limits, gating). *)

From S2P Require Import Prelude Text Generation Items Debounce LegacyDispatch.

(** * Policies *)

(** One compiled activation pattern.  The compiled program is the [regex]
    crate's; a pattern carries the set of queries its program admits. *)
Record ActivationPattern := mkActivationPattern {
  pattern_source : text;
  pattern_matcher : text -> bool;
}.

Definition is_match (p : ActivationPattern) (query : text) : bool := pattern_matcher p query.

Record ActivationPolicy := mkActivationPolicy {
  supports_empty_query : bool;
  prefixes : list text;
  keywords : list text;
  patterns : list ActivationPattern;
}.
#[export] Instance eta_ActivationPolicy : Eta ActivationPolicy := fun r =>
  mkActivationPolicy (supports_empty_query r) (prefixes r) (keywords r) (patterns r).

Definition default_activation : ActivationPolicy :=
  {| supports_empty_query := false; prefixes := []; keywords := []; patterns := [] |}.

Inductive QueuePolicy : Type := ReplaceOldest | RejectNewest | DropOldest.
#[export] Instance QueuePolicy_eq_dec : EqDecision QueuePolicy.
Proof. solve_decision. Defined.

Record PluginPolicy := mkPluginPolicy {
  profile : SchedulingProfile;
  debounce : DebouncePolicy;
  activation : ActivationPolicy;
  max_concurrent_requests : Z;
  queue_policy : QueuePolicy;
  queue_capacity : Z;
}.
#[export] Instance eta_PluginPolicy : Eta PluginPolicy := fun r =>
  mkPluginPolicy (profile r) (debounce r) (activation r) (max_concurrent_requests r)
    (queue_policy r) (queue_capacity r).

Definition legacy_strict : PluginPolicy :=
  {| profile := LegacyStrict;
     debounce := {| debounce_ms := 0; maximum_wait_ms := None; leading_edge := true;
                    trailing_edge := true; minimum_query_length := 0 |};
     activation := default_activation <| supports_empty_query := true |>;
     max_concurrent_requests := 1;
     queue_policy := ReplaceOldest;
     queue_capacity := 1 |}.

Definition legacy_optimized : PluginPolicy :=
  {| profile := LegacyOptimized;
     debounce := default_debounce_policy;
     activation := default_activation;
     max_concurrent_requests := 1;
     queue_policy := ReplaceOldest;
     queue_capacity := 1 |}.

Definition modern : PluginPolicy :=
  {| profile := Modern;
     debounce := default_debounce_policy;
     activation := default_activation;
     max_concurrent_requests := 1;
     queue_policy := ReplaceOldest;
     queue_capacity := 1 |}.

Record SchedulerConfig := mkSchedulerConfig {
  request_queue_capacity : Z;
  result_queue_capacity : Z;
  per_plugin_dispatch_budget : Z;
  dispatch_budget_per_tick : Z;
  trace_capacity : Z;
}.
#[export] Instance eta_SchedulerConfig : Eta SchedulerConfig := fun r =>
  mkSchedulerConfig (request_queue_capacity r) (result_queue_capacity r)
    (per_plugin_dispatch_budget r) (dispatch_budget_per_tick r) (trace_capacity r).

Definition default_config : SchedulerConfig :=
  {| request_queue_capacity := 64; result_queue_capacity := 64; per_plugin_dispatch_budget := 1;
     dispatch_budget_per_tick := 16; trace_capacity := 1024 |}.

(** * Decisions and outcomes *)

Inductive GateReason : Type :=
| GateDisabled | MinimumQueryLength | EmptyQueryUnsupported
| PrefixMismatch | KeywordMismatch | PatternMismatch.

Inductive DebounceDecision : Type :=
| LeadingEdge
| Deferred (until : Millis)
| Coalesced (superseded : Generation)
| TrailingEdge
| MaximumWait
| Gated (reason : GateReason).

Inductive CancelReason : Type :=
| QueryChanged | NoLongerRelevant | Reconfigured | ProfileChanged | CancelDisabled | CancelShutdown.

Inductive CompletionOutcome : Type := CompletionAccepted | CompletionStale | CompletionUnknown.

Inductive BatchCompletion : Type := BatchPartial | BatchFinal | BatchCancelled | BatchFailed.

Inductive BatchAdmission : Type := BatchAccepted | StaleRejected | RejectedResultQueueFull.

Record DispatchedRequest := mkDispatched {
  dispatched_plugin : PluginId;
  dispatched_generation : Generation;
  dispatched_query : text;
  dispatched_time : Millis;
}.

Record CancelledRequest := mkCancelled {
  cancelled_plugin : PluginId;
  cancelled_generation : Generation;
  cancelled_reason : CancelReason;
  cancelled_at : Millis;
}.

Inductive QueryTraceEvent : Type :=
| TKeystroke (at_ : Millis) (generation : Generation) (query_length : Z)
| TDebounce (at_ : Millis) (plugin : PluginId) (generation : Generation) (decision : DebounceDecision)
| TLegacyDispatch (at_ : Millis) (plugin : PluginId) (generation : Generation) (decision : LegacyDispatch)
| TDispatched (at_ : Millis) (plugin : PluginId) (generation : Generation)
| TRequestDropped (at_ : Millis) (plugin : PluginId) (generation : Generation) (policy : QueuePolicy)
| TCancelled (at_ : Millis) (plugin : PluginId) (generation : Generation) (reason : CancelReason)
| TFirstResult (at_ : Millis) (plugin : PluginId) (generation : Generation) (latency_ms : Millis)
| TFinalResult (at_ : Millis) (plugin : PluginId) (generation : Generation) (latency_ms : Millis)
| TResultBatch (at_ : Millis) (plugin : PluginId) (generation : Generation) (items : Z)
    (completion : BatchCompletion)
| TStaleResultRejected (at_ : Millis) (plugin : PluginId) (generation : Generation)
| TRanking (at_ : Millis) (generation : Generation) (ranked_items : Z)
| TPresentation (at_ : Millis) (generation : Generation) (visible_items : Z).

(** * Diagnostics *)

Record SchedulerDiagnostics := mkSchedulerDiagnostics {
  queued_requests : Z;
  in_flight_requests : Z;
  peak_queue_depth : Z;
  coalesced_requests : Z;
  dropped_obsolete_requests : Z;
  cancelled_requests : Z;
  dropped_cancellation_notifications : Z;
  rejected_stale_results : Z;
  rejected_plugin_queue_full : Z;
  rejected_global_queue_full : Z;
  dispatched_requests : Z;
  trace_events_dropped : Z;
  counters_saturated : bool;
}.
#[export] Instance eta_SchedulerDiagnostics : Eta SchedulerDiagnostics := fun r =>
  mkSchedulerDiagnostics (queued_requests r) (in_flight_requests r) (peak_queue_depth r)
    (coalesced_requests r) (dropped_obsolete_requests r) (cancelled_requests r)
    (dropped_cancellation_notifications r) (rejected_stale_results r)
    (rejected_plugin_queue_full r) (rejected_global_queue_full r) (dispatched_requests r)
    (trace_events_dropped r) (counters_saturated r).

Definition default_diagnostics : SchedulerDiagnostics :=
  mkSchedulerDiagnostics 0 0 0 0 0 0 0 0 0 0 0 0 false.

Definition rejected_requests (d : SchedulerDiagnostics) : Z :=
  saturating_add u64_max (rejected_plugin_queue_full d) (rejected_global_queue_full d).

Definition discarded_requests (d : SchedulerDiagnostics) : Z :=
  saturating_add u64_max
    (saturating_add u64_max (coalesced_requests d) (dropped_obsolete_requests d))
    (rejected_requests d).

(** [add_diagnostic_counter]: saturating, and the first saturation is flagged. *)
Definition add_diagnostic_counter (field : SchedulerDiagnostics -> Z) `{!Update field}
    (amount : Z) (d : SchedulerDiagnostics) : SchedulerDiagnostics :=
  let previous := field d in
  let next := saturating_add u64_max previous amount in
  let d := d <| field := next |> in
  if negb (previous =? u64_max) && (next =? u64_max) then d <| counters_saturated := true |> else d.

Record PluginDiagnostics := mkPluginDiagnostics {
  plugin_queued_requests : Z;
  plugin_in_flight_requests : Z;
  plugin_peak_queue_depth : Z;
  plugin_dispatched_requests : Z;
  plugin_coalesced_requests : Z;
  plugin_dropped_obsolete_requests : Z;
  plugin_rejected_queue_full : Z;
  plugin_cancelled_requests : Z;
  plugin_rejected_stale_results : Z;
  last_dispatched_at : option Millis;
  plugin_should_terminate : bool;
}.
#[export] Instance eta_PluginDiagnostics : Eta PluginDiagnostics := fun r =>
  mkPluginDiagnostics (plugin_queued_requests r) (plugin_in_flight_requests r)
    (plugin_peak_queue_depth r) (plugin_dispatched_requests r) (plugin_coalesced_requests r)
    (plugin_dropped_obsolete_requests r) (plugin_rejected_queue_full r)
    (plugin_cancelled_requests r) (plugin_rejected_stale_results r) (last_dispatched_at r)
    (plugin_should_terminate r).

Definition default_plugin_diagnostics : PluginDiagnostics :=
  mkPluginDiagnostics 0 0 0 0 0 0 0 0 0 None false.

(** [counter.saturating_add(n)] on a per-plugin [u64] counter. *)
Definition bump (n : Z) : Z -> Z := fun c => saturating_add u64_max c n.

(** * Per-plugin state *)

Inductive DueReason : Type := DueTrailingEdge | DueMaximumWait.

Record PendingRequest := mkPending {
  p_generation : Generation;
  p_query : text;
  p_ready : bool;
  p_due_at : option Millis;
  p_due_reason : option DueReason;
}.
#[export] Instance eta_PendingRequest : Eta PendingRequest := fun r =>
  mkPending (p_generation r) (p_query r) (p_ready r) (p_due_at r) (p_due_reason r).

Record InFlightRequest := mkInFlight {
  f_generation : Generation;
  f_dispatched_at : Millis;
  f_cancel_reason : option CancelReason;
  f_first_result_recorded : bool;
  f_final_result_recorded : bool;
}.
#[export] Instance eta_InFlightRequest : Eta InFlightRequest := fun r =>
  mkInFlight (f_generation r) (f_dispatched_at r) (f_cancel_reason r)
    (f_first_result_recorded r) (f_final_result_recorded r).

Record PluginState := mkPluginState {
  policy : PluginPolicy;
  enabled : bool;
  relevant : bool;
  burst_started : option Millis;
  queue : list PendingRequest;
  in_flight : list InFlightRequest;
  pdiag : PluginDiagnostics;
}.
#[export] Instance eta_PluginState : Eta PluginState := fun r =>
  mkPluginState (policy r) (enabled r) (relevant r) (burst_started r) (queue r) (in_flight r)
    (pdiag r).

Definition new_plugin_state (p : PluginPolicy) : PluginState :=
  {| policy := p; enabled := true; relevant := false; burst_started := None; queue := [];
     in_flight := []; pdiag := default_plugin_diagnostics |}.

Inductive PreparedRequest : Type :=
| PreparedLegacy (decision : LegacyDispatch)
| PreparedModern (ready : bool) (due_at : option Millis) (due_reason : option DueReason)
    (decision : DebounceDecision).

Inductive EitherDecision : Type :=
| DecisionLegacy (d : LegacyDispatch)
| DecisionModern (d : DebounceDecision).

(** * Normalisation and effective limits *)

Definition normalize_config (c : SchedulerConfig) : SchedulerConfig :=
  {| request_queue_capacity := Z.max (request_queue_capacity c) 1;
     result_queue_capacity := Z.max (result_queue_capacity c) 1;
     per_plugin_dispatch_budget := Z.max (per_plugin_dispatch_budget c) 1;
     dispatch_budget_per_tick := Z.max (dispatch_budget_per_tick c) 1;
     trace_capacity := Z.max (trace_capacity c) 1 |}.

Section Normalisation.

(** [str::to_lowercase]: the Unicode case tables of the standard library. *)
Variable to_lowercase : text -> text.

(** [retain_mut] with [trim().to_lowercase()], dropping what becomes empty. *)
Definition normalize_terms (terms : list text) : list text :=
  List.filter (fun t => match t with [] => false | _ => true end)
    (map (fun t => to_lowercase (trim t)) terms).

Definition normalize_policy (p : PluginPolicy) : PluginPolicy :=
  if decide (profile p = LegacyStrict) then legacy_strict
  else
    let p := p <| max_concurrent_requests ::= fun n => Z.max n 1 |>
               <| queue_capacity ::= fun n => Z.max n 1 |> in
    let p :=
      if negb (leading_edge (debounce p)) && negb (trailing_edge (debounce p))
      then p <| debounce ::= fun d => d <| trailing_edge := true |> |> else p in
    p <| activation ::= fun a =>
           a <| prefixes ::= normalize_terms |> <| keywords ::= normalize_terms |> |>.

End Normalisation.

Definition effective_concurrency_limit (p : PluginPolicy) : Z :=
  if decide (profile p = LegacyStrict) then 1 else max_concurrent_requests p.

Definition effective_queue_policy (p : PluginPolicy) : QueuePolicy :=
  if decide (profile p = LegacyStrict) then ReplaceOldest else queue_policy p.

Definition effective_queue_capacity (p : PluginPolicy) : Z :=
  if decide (profile p = LegacyStrict) then 1 else queue_capacity p.

Definition gate_reason (st : PluginState) (normalized : text) : option GateReason :=
  if negb (enabled st) then Some GateDisabled
  else if negb (allows_host_gating (profile (policy st))) then None
  else
    match normalized with
    | [] =>
        if negb (supports_empty_query (activation (policy st))) then Some EmptyQueryUnsupported
        else None
    | _ =>
        if len normalized <? minimum_query_length (debounce (policy st)) then Some MinimumQueryLength
        else
          let a := activation (policy st) in
          match prefixes a, keywords a, patterns a with
          | [], [], [] => None
          | _, _, _ =>
              let prefix_matches := existsb (starts_with normalized) (prefixes a) in
              let keyword_matches :=
                is_some_and (first_word normalized)
                  (fun first => existsb (text_eqb first) (keywords a)) in
              let pattern_matches := existsb (fun p => is_match p normalized) (patterns a) in
              if prefix_matches || keyword_matches || pattern_matches then None
              else
                match prefixes a, keywords a with
                | _ :: _, _ => Some PrefixMismatch
                | [], _ :: _ => Some KeywordMismatch
                | [], [] => Some PatternMismatch
                end
          end
    end.
