(* ===== verification/Scheduler.v ===== *)
(** The query scheduler's state and operations:
    [crikey-input-scheduler/src/runtime.rs], [QueryScheduler].

    Every public method is one definition over the whole state, composed from
    the same private helpers as the code.  [None] is a panic; the only reachable
    one is the exhaustion of the generation counter. *)

From S2P Require Import Prelude Text Generation Items Debounce LegacyDispatch SchedulerTypes.

Record QueryScheduler := mkQueryScheduler {
  config : SchedulerConfig;
  generations : GenerationTracker.GenerationTracker;
  plugins : gmap PluginId PluginState;
  plugin_order : list PluginId;
  round_robin_cursor : Z;
  diag : SchedulerDiagnostics;
  trace : list QueryTraceEvent;
  cancellations : list CancelledRequest;
  result_queue_depth : Z;
  is_shutdown : bool;
  last_now : option Millis;
}.
#[export] Instance eta_QueryScheduler : Eta QueryScheduler := fun r =>
  mkQueryScheduler (config r) (generations r) (plugins r) (plugin_order r) (round_robin_cursor r)
    (diag r) (trace r) (cancellations r) (result_queue_depth r) (is_shutdown r) (last_now r).

Definition new (c : SchedulerConfig) : QueryScheduler :=
  {| config := normalize_config c;
     generations := GenerationTracker.new;
     plugins := ∅;
     plugin_order := [];
     round_robin_cursor := 0;
     diag := default_diagnostics;
     trace := [];
     cancellations := [];
     result_queue_depth := 0;
     is_shutdown := false;
     last_now := None |}.

(** * Private helpers *)

Definition observe_now (s : QueryScheduler) (now : Millis) : QueryScheduler * Millis :=
  let now := map_or (last_now s) now (fun last => Z.max last now) in
  (s <| last_now := Some now |>, now).

(** [add_diagnostic_counter] on one of the scheduler's own counters. *)
Definition count (field : SchedulerDiagnostics -> Z) `{!Update field} (amount : Z)
    (s : QueryScheduler) : QueryScheduler :=
  s <| diag ::= add_diagnostic_counter field amount |>.

(** [if let Some(state) = self.plugins.get_mut(plugin) { ... }]. *)
Definition with_plugin (p : PluginId) (f : PluginState -> PluginState) (s : QueryScheduler)
    : QueryScheduler :=
  s <| plugins ::= alter f p |>.

(** Saturating bump of one of the plugin's own counters. *)
Definition count_plugin (p : PluginId) (field : PluginDiagnostics -> Z) `{!Update field}
    (amount : Z) : QueryScheduler -> QueryScheduler :=
  with_plugin p (fun st => st <| pdiag ::= update field (bump amount) |>).

Definition push_trace (s : QueryScheduler) (event : QueryTraceEvent) : QueryScheduler :=
  if trace_capacity (config s) =? 0 then count trace_events_dropped 1 s
  else
    let s :=
      if len (trace s) =? trace_capacity (config s)
      then count trace_events_dropped 1 (s <| trace ::= tail |>) else s in
    s <| trace ::= fun t => t ++ [event] |>.

Definition current_generation (s : QueryScheduler) : Generation :=
  GenerationTracker.current (generations s).

Definition total_queued (s : QueryScheduler) : Z :=
  map_fold (fun _ st total => saturating_add usize_max total (len (queue st))) 0 (plugins s).

(** Values of a map rewritten in place ([values_mut]). *)
Definition record_explicit_queue_peaks (s : QueryScheduler) : QueryScheduler :=
  let explicit st := negb (bool_decide (effective_queue_policy (policy st) = ReplaceOldest)) in
  let has_explicit := map_fold (fun _ st b => b || explicit st) false (plugins s) in
  let explicit_depth := total_queued s in
  let s := s <| plugins ::= fmap (fun st =>
    if explicit st
    then st <| pdiag ::= fun d => d <| plugin_peak_queue_depth ::= fun n => Z.max n (len (queue st)) |> |>
    else st) |> in
  if has_explicit
  then s <| diag ::= fun d => d <| peak_queue_depth ::= fun n => Z.max n explicit_depth |> |>
  else s.

Definition record_remaining_queue_peaks (s : QueryScheduler) : QueryScheduler :=
  let depth := total_queued s in
  let s := s <| plugins ::= fmap (fun st =>
    st <| pdiag ::= fun d => d <| plugin_peak_queue_depth ::= fun n => Z.max n (len (queue st)) |> |>) |> in
  s <| diag ::= fun d => d <| peak_queue_depth ::= fun n => Z.max n depth |> |>.

Definition emit_cancellation (s : QueryScheduler) (plugin : PluginId) (generation : Generation)
    (reason : CancelReason) (now : Millis) (newly_cancelled : bool) : QueryScheduler :=
  if negb newly_cancelled then s
  else
    let s := count cancelled_requests 1 s in
    let s := count_plugin plugin plugin_cancelled_requests 1 s in
    let s :=
      if len (cancellations s) =? request_queue_capacity (config s)
      then count dropped_cancellation_notifications 1 (s <| cancellations ::= tail |>) else s in
    let s := s <| cancellations ::= fun c => c ++ [mkCancelled plugin generation reason now] |> in
    push_trace s (TCancelled now plugin generation reason).

(** Emits one cancellation per record, in order. *)
Definition emit_cancellations (s : QueryScheduler) (plugin : PluginId) (reason : CancelReason)
    (now : Millis) (records : list (Generation * bool)) : QueryScheduler :=
  foldl (fun s r => emit_cancellation s plugin r.1 reason now r.2) s records.

(** The in-flight half of an invalidation: every request that is considered
    gets a reason if it had none; the records say which ones are new. *)
Fixpoint cancel_in_flight (reason : CancelReason) (include_already_cancelled : bool)
    (l : list InFlightRequest) : list InFlightRequest * list (Generation * bool) :=
  match l with
  | [] => ([], [])
  | r :: l' =>
      let (l'', records) := cancel_in_flight reason include_already_cancelled l' in
      let live := is_none (f_cancel_reason r) in
      if include_already_cancelled || live then
        ((if live then r <| f_cancel_reason := Some reason |> else r) :: l'',
         (f_generation r, live) :: records)
      else (r :: l'', records)
  end.

Definition invalidate_plugin (s : QueryScheduler) (plugin : PluginId) (reason : CancelReason)
    (now : Millis) (include_already_cancelled : bool) : QueryScheduler * list Generation :=
  match plugins s !! plugin with
  | None => (s, [])
  | Some st =>
      let (flights, records) := cancel_in_flight reason include_already_cancelled (in_flight st) in
      let records := records ++ map (fun r => (p_generation r, true)) (queue st) in
      let st := st <| in_flight := flights |> <| queue := [] |> <| relevant := false |>
                   <| burst_started := None |> in
      let s := s <| plugins ::= insert plugin st |> in
      (emit_cancellations s plugin reason now records, map fst records)
  end.

(** One plugin's share of [reclaim_obsolete_queued]. *)
Definition reclaim_plugin (current : Generation) (now : Millis) (include_replace_oldest : bool)
    (s : QueryScheduler) (plugin : PluginId) : QueryScheduler :=
  match plugins s !! plugin with
  | None => s
  | Some st =>
      let pol := effective_queue_policy (policy st) in
      if negb include_replace_oldest && bool_decide (pol = ReplaceOldest) then s
      else
        let obsolete :=
          map p_generation (List.filter (fun r => negb (p_generation r =? current)) (queue st)) in
        match obsolete with
        | [] => s
        | _ =>
            let dropped := len obsolete in
            let st := st <| queue ::= List.filter (fun r => p_generation r =? current) |>
                         <| pdiag ::= update plugin_dropped_obsolete_requests (bump dropped) |> in
            let s := s <| plugins ::= insert plugin st |> in
            let s := count dropped_obsolete_requests dropped s in
            foldl (fun s g => push_trace s (TRequestDropped now plugin g pol)) s obsolete
        end
  end.

Definition reclaim_obsolete_queued (s : QueryScheduler) (current : Generation) (now : Millis)
    (include_replace_oldest : bool) : QueryScheduler :=
  foldl (reclaim_plugin current now include_replace_oldest) s (plugin_order s).

(** * Registration and policy *)

Section Operations.

Variable to_lowercase : text -> text.

Definition plugin_policy (s : QueryScheduler) (p : PluginId) : option PluginPolicy :=
  policy <$> plugins s !! p.

Definition register_plugin (s : QueryScheduler) (p : PluginId) (pol : PluginPolicy)
    : QueryScheduler :=
  let pol := normalize_policy to_lowercase pol in
  let s := if is_none (plugins s !! p) then s <| plugin_order ::= fun o => o ++ [p] |> else s in
  s <| plugins ::= insert p (new_plugin_state pol) |>.

Definition set_policy (s : QueryScheduler) (p : PluginId) (pol : PluginPolicy) (now : Millis)
    : QueryScheduler :=
  let (s, now) := observe_now s now in
  match plugins s !! p with
  | None => s
  | Some st =>
      let reason :=
        if decide (profile (policy st) = profile pol) then Reconfigured else ProfileChanged in
      let (s, _) := invalidate_plugin s p reason now true in
      let pol := normalize_policy to_lowercase pol in
      with_plugin p (fun st =>
        st <| policy := pol |> <| relevant := false |> <| burst_started := None |>) s
  end.

Definition disable_plugin (s : QueryScheduler) (p : PluginId) (now : Millis) : QueryScheduler :=
  let (s, now) := observe_now s now in
  let (s, _) := invalidate_plugin s p CancelDisabled now true in
  with_plugin p (fun st =>
    st <| enabled := false |> <| relevant := false |> <| burst_started := None |>
       <| in_flight := [] |>) s.

Definition enable_plugin (s : QueryScheduler) (p : PluginId) (now : Millis) : QueryScheduler :=
  let (s, _) := observe_now s now in
  with_plugin p (fun st =>
    st <| enabled := true |> <| relevant := false |> <| burst_started := None |>) s.

Definition unregister_plugin (s : QueryScheduler) (p : PluginId) : QueryScheduler * bool :=
  match plugins s !! p with
  | None => (s, false)
  | Some _ =>
      let s := s <| plugins ::= delete p |> in
      let s := s <| plugin_order ::= List.filter (fun q => negb (bool_decide (q = p))) |> in
      let s := s <| round_robin_cursor := 
        match plugin_order s with
        | [] => 0
        | _ => Z.min (round_robin_cursor s) (len (plugin_order s) - 1)
        end |> in
      (s <| cancellations ::= List.filter (fun c => negb (bool_decide (cancelled_plugin c = p))) |>,
       true)
  end.

(** * Query changes *)

(** A quiet gap after a dispatch starts a fresh burst. *)
Definition end_quiet_burst (st : PluginState) (now : Millis) : PluginState :=
  if (match queue st with [] => true | _ => false end) && is_some (burst_started st)
     && is_some_and (last_dispatched_at (pdiag st))
          (fun last => debounce_ms (debounce (policy st)) <=? saturating_sub now last)
  then st <| burst_started := None |> else st.

(** What the scheduler decides for a relevant plugin, and the plugin's burst
    and relevance after it. *)
Definition prepare_request (st : PluginState) (generation : Generation) (now : Millis)
    : PluginState * option PreparedRequest :=
  let st := end_quiet_burst st now in
  let was_relevant := relevant st in
  let st := st <| relevant := true |> in
  let db := debounce (policy st) in
  if negb (allows_time_debounce (profile (policy st))) then
    let decision :=
      match in_flight st, queue st with
      | running :: _, _ => QueuedBehindRunning (f_generation running) generation
      | [], pending :: _ => QueuedBehindRunning (p_generation pending) generation
      | [], [] => LegacyNow generation
      end in
    (st, Some (PreparedLegacy decision))
  else if negb was_relevant && leading_edge db then
    (st <| burst_started := Some now |>, Some (PreparedModern true None None LeadingEdge))
  else if trailing_edge db then
    let burst := map_or (burst_started st) now (fun b => b) in
    let st := st <| burst_started := Some burst |> in
    let trailing_at := saturating_add u64_max now (debounce_ms db) in
    let maximum_at := (fun wait => saturating_add u64_max burst wait) <$> maximum_wait_ms db in
    let due_at := map_or maximum_at trailing_at (fun maximum => Z.min trailing_at maximum) in
    let due_reason :=
      if is_some_and maximum_at (fun maximum => maximum <? trailing_at)
      then DueMaximumWait else DueTrailingEdge in
    (st, Some (PreparedModern false (Some due_at) (Some due_reason) (Deferred due_at)))
  else (st, None).

(** Places an admitted request in the plugin's queue under its policy: the new
    queue, the request it superseded and the one it evicted. *)
Definition place_request (pol : QueuePolicy) (capacity : Z) (q : list PendingRequest)
    (request : PendingRequest) : list PendingRequest * option Generation * option Generation :=
  match pol with
  | ReplaceOldest => ([request], p_generation <$> last q, None)
  | RejectNewest => (q ++ [request], None, None)
  | DropOldest =>
      if capacity <=? len q
      then (tail q ++ [request], None, p_generation <$> head q)
      else (q ++ [request], None, None)
  end.

Definition enqueue_request (s : QueryScheduler) (plugin : PluginId) (generation : Generation)
    (query : text) (prepared : PreparedRequest) (now : Millis) : option QueryScheduler :=
  st ← plugins s !! plugin;
  let pol := effective_queue_policy (policy st) in
  let capacity := effective_queue_capacity (policy st) in
  let '(ready, due_at, due_reason, decision) :=
    match prepared with
    | PreparedLegacy decision => (true, None, None, DecisionLegacy decision)
    | PreparedModern ready due_at due_reason decision =>
        (ready, due_at, due_reason, DecisionModern decision)
    end in
  let '(q, superseded, evicted) :=
    place_request pol capacity (queue st) (mkPending generation query ready due_at due_reason) in
  let s := s <| plugins ::= insert plugin (st <| queue := q |>) |> in
  let '(s, decision) :=
    match superseded with
    | None => (s, decision)
    | Some old =>
        let s := count coalesced_requests 1 s in
        let s := count_plugin plugin plugin_coalesced_requests 1 s in
        let s := push_trace s (TRequestDropped now plugin old ReplaceOldest) in
        (s, match decision with
            | DecisionModern _ => DecisionModern (Coalesced old)
            | DecisionLegacy _ => decision
            end)
    end in
  let s :=
    match evicted with
    | None => s
    | Some old =>
        let s := count dropped_obsolete_requests 1 s in
        let s := count_plugin plugin plugin_dropped_obsolete_requests 1 s in
        push_trace s (TRequestDropped now plugin old DropOldest)
    end in
  Some match decision with
       | DecisionLegacy d => push_trace s (TLegacyDispatch now plugin generation d)
       | DecisionModern d => push_trace s (TDebounce now plugin generation d)
       end.

(** Overflow decisions: the global bound unless a slot is reused, then the
    plugin's own bound. *)
Definition admit_request (s : QueryScheduler) (plugin : PluginId) (generation : Generation)
    (query : text) (prepared : PreparedRequest) (now : Millis) : option QueryScheduler :=
  st ← plugins s !! plugin;
  let pol := effective_queue_policy (policy st) in
  let capacity := effective_queue_capacity (policy st) in
  let queue_len := len (queue st) in
  let can_reuse_slot :=
    match pol with
    | ReplaceOldest => 0 <? queue_len
    | DropOldest => (0 <? capacity) && (capacity <=? queue_len)
    | RejectNewest => false
    end in
  if (request_queue_capacity (config s) <=? total_queued s) && negb can_reuse_slot then
    let s := count rejected_global_queue_full 1 s in
    let s := count_plugin plugin plugin_rejected_queue_full 1 s in
    Some (push_trace s (TRequestDropped now plugin generation pol))
  else if (capacity =? 0) || (bool_decide (pol = RejectNewest) && (capacity <=? queue_len)) then
    let s := count rejected_plugin_queue_full 1 s in
    let s := count_plugin plugin plugin_rejected_queue_full 1 s in
    Some (push_trace s (TRequestDropped now plugin generation pol))
  else enqueue_request s plugin generation query prepared now.

Definition process_query_for_plugin (s : QueryScheduler) (plugin : PluginId)
    (generation : Generation) (query normalized : text) (now : Millis) : option QueryScheduler :=
  match plugins s !! plugin with
  | None => Some s
  | Some st =>
      let gate := gate_reason st normalized in
      let cancellation_reason := if is_some gate then NoLongerRelevant else QueryChanged in
      let (flights, cancelled) := cancel_in_flight cancellation_reason false (in_flight st) in
      let gated_out := map (fun r => (p_generation r, true)) (queue st) in
      let st := st <| in_flight := flights |> in
      let '(st, cancelled) :=
        if is_some gate
        then (st <| queue := [] |> <| relevant := false |> <| burst_started := None |>,
              cancelled ++ gated_out)
        else (st, cancelled) in
      let s := s <| plugins ::= insert plugin st |> in
      let s := emit_cancellations s plugin cancellation_reason now cancelled in
      match gate with
      | Some reason => Some (push_trace s (TDebounce now plugin generation (Gated reason)))
      | None =>
          st ← plugins s !! plugin;
          let (st, prepared) := prepare_request st generation now in
          let s := s <| plugins ::= insert plugin st |> in
          match prepared with
          | None => Some s
          | Some prepared => admit_request s plugin generation query prepared now
          end
      end
  end.

(** Runs a fallible step over a list of plugins. *)
Fixpoint for_each {A : Type} (f : QueryScheduler -> A -> option QueryScheduler)
    (s : QueryScheduler) (l : list A) : option QueryScheduler :=
  match l with
  | [] => Some s
  | x :: l' => s' ← f s x; for_each f s' l'
  end.

(** Whether a plugin's newest-wins slot holds a stale request. *)
Definition reclaims_replace_slot (s : QueryScheduler) (generation : Generation) (p : PluginId)
    : bool :=
  is_some_and (plugins s !! p) (fun st =>
    bool_decide (effective_queue_policy (policy st) = ReplaceOldest)
    && existsb (fun r => negb (p_generation r =? generation)) (queue st)).

Definition submit_query (s : QueryScheduler) (query : text) (now : Millis)
    : option (QueryScheduler * Generation) :=
  let (s, now) := observe_now s now in
  '(tracker, generation) ← GenerationTracker.advance (generations s);
  let s := s <| generations := tracker |> in
  let normalized := to_lowercase (trim query) in
  let s := s <| result_queue_depth := 0 |> in
  let s := push_trace s (TKeystroke now generation (len normalized)) in
  if is_shutdown s then Some (s, generation)
  else
    let s := reclaim_obsolete_queued s generation now false in
    let order := plugin_order s in
    let flags := map (reclaims_replace_slot s generation) order in
    let pass reclaiming_first s :=
      for_each (fun s (x : PluginId * bool) =>
        if Bool.eqb x.2 reclaiming_first
        then process_query_for_plugin s x.1 generation query normalized now
        else Some s) s (zip order flags) in
    s ← pass true s;
    s ← pass false s;
    Some (s, generation).

(** * Queries on the state *)

Definition pending (s : QueryScheduler) (p : PluginId) : option Generation :=
  st ← plugins s !! p; p_generation <$> last (queue st).

Definition queued (s : QueryScheduler) (p : PluginId) : Z :=
  map_or (plugins s !! p) 0 (fun st => len (queue st)).

Definition in_flight_count (s : QueryScheduler) (p : PluginId) : Z :=
  map_or (plugins s !! p) 0 (fun st => len (in_flight st)).

Definition state_should_terminate (st : PluginState) : bool :=
  bool_decide (profile (policy st) = LegacyStrict)
  && existsb (fun r => is_some (f_cancel_reason r)) (in_flight st).

Definition should_terminate (s : QueryScheduler) (p : PluginId) : bool :=
  is_some_and (plugins s !! p) state_should_terminate.

(** Deadlines of the requests that are not ready, over all enabled plugins. *)
Definition wakeups (s : QueryScheduler) : list Millis :=
  map_fold (fun _ st acc =>
    (if enabled st
     then omap (fun r => if p_ready r then None else p_due_at r) (queue st) else []) ++ acc)
    [] (plugins s).

Definition minimum (l : list Z) : option Z :=
  match l with [] => None | x :: l' => Some (foldl Z.min x l') end.

Definition next_wakeup (s : QueryScheduler) : option Millis :=
  if is_shutdown s then None else minimum (wakeups s).

(** * Dispatch *)

(** Requests whose deadline has elapsed become ready; each reports the edge
    that released it. *)
Fixpoint ripen (now : Millis) (q : list PendingRequest)
    : list PendingRequest * list (Generation * DueReason) :=
  match q with
  | [] => ([], [])
  | r :: q' =>
      let (q'', due) := ripen now q' in
      if negb (p_ready r) && is_some_and (p_due_at r) (fun deadline => deadline <=? now) then
        (r <| p_ready := true |> <| p_due_at := None |> <| p_due_reason := None |> :: q'',
         match p_due_reason r with
         | Some reason => (p_generation r, reason) :: due
         | None => due
         end)
      else (r :: q'', due)
  end.

Definition due_decision (reason : DueReason) : DebounceDecision :=
  match reason with DueTrailingEdge => TrailingEdge | DueMaximumWait => MaximumWait end.

Definition apply_deadlines (now : Millis) (s : QueryScheduler) (plugin : PluginId)
    : QueryScheduler :=
  match plugins s !! plugin with
  | None => s
  | Some st =>
      let (q, due) := ripen now (queue st) in
      let st := st <| queue := q |> in
      let st := match due with [] => st | _ => st <| burst_started := None |> end in
      let s := s <| plugins ::= insert plugin st |> in
      foldl (fun s d => push_trace s (TDebounce now plugin d.1 (due_decision d.2))) s due
  end.

(** One dispatch: the plugin's front request, if it is ready and the plugin is
    below its concurrency limit. *)
Definition take_ready (s : QueryScheduler) (plugin : PluginId) (now : Millis)
    : option (QueryScheduler * DispatchedRequest) :=
  st ← plugins s !! plugin;
  if effective_concurrency_limit (policy st) <=? len (in_flight st) then None
  else
    match queue st with
    | [] => None
    | request :: rest =>
        if negb (p_ready request) then None
        else
          let st := st <| queue := rest |>
                       <| in_flight ::= fun l => l ++ [mkInFlight (p_generation request) now None false false] |>
                       <| pdiag ::= fun d => d <| plugin_dispatched_requests ::= bump 1 |>
                                               <| last_dispatched_at := Some now |> |> in
          let s := s <| plugins ::= insert plugin st |> in
          let s := count dispatched_requests 1 s in
          let s := push_trace s (TDispatched now plugin (p_generation request)) in
          Some (s, mkDispatched plugin (p_generation request) (p_query request) now)
    end.

(** The [while] loop of one plugin's turn.  Each iteration removes a queued
    request, so the queue's length bounds the number of iterations. *)
Fixpoint serve_plugin (fuel : nat) (s : QueryScheduler) (plugin : PluginId) (index : Z)
    (now : Millis) (own_budget : Z) (dispatched : list DispatchedRequest) (last_served : option Z)
    : QueryScheduler * list DispatchedRequest * option Z :=
  match fuel with
  | O => (s, dispatched, last_served)
  | S fuel' =>
      if (own_budget <? per_plugin_dispatch_budget (config s))
         && (len dispatched <? dispatch_budget_per_tick (config s)) then
        match take_ready s plugin now with
        | None => (s, dispatched, last_served)
        | Some (s', request) =>
            serve_plugin fuel' s' plugin index now (own_budget + 1) (dispatched ++ [request])
              (Some index)
        end
      else (s, dispatched, last_served)
  end.

Definition turn_fuel (s : QueryScheduler) (plugin : PluginId) : nat :=
  S (map_or (plugins s !! plugin) 0%nat (fun st => length (queue st))).

(** The [for] loop over the plugins, from the rotating cursor. *)
Fixpoint serve_round (offsets : list nat) (order : list PluginId) (start : Z) (now : Millis)
    (s : QueryScheduler) (dispatched : list DispatchedRequest) (last_served : option Z)
    : option (QueryScheduler * list DispatchedRequest * option Z) :=
  match offsets with
  | [] => Some (s, dispatched, last_served)
  | offset :: offsets' =>
      if dispatch_budget_per_tick (config s) <=? len dispatched
      then Some (s, dispatched, last_served)
      else
        let index := (start + Z.of_nat offset) mod len order in
        plugin ← order !! Z.to_nat index;
        let '(s, dispatched, last_served) :=
          serve_plugin (turn_fuel s plugin) s plugin index now 0 dispatched last_served in
        serve_round offsets' order start now s dispatched last_served
  end.

Definition tick (s : QueryScheduler) (now : Millis)
    : option (QueryScheduler * list DispatchedRequest) :=
  let (s, now) := observe_now s now in
  if is_shutdown s then Some (s, [])
  else
    let s := reclaim_obsolete_queued s (current_generation s) now true in
    let order := plugin_order s in
    let s := foldl (apply_deadlines now) s order in
    let s := record_explicit_queue_peaks s in
    let plugin_count := len order in
    if (plugin_count =? 0) || (dispatch_budget_per_tick (config s) =? 0)
       || (per_plugin_dispatch_budget (config s) =? 0)
    then Some (record_remaining_queue_peaks s, [])
    else
      let start := round_robin_cursor s mod plugin_count in
      '(s, dispatched, last_served) ← serve_round (seq 0 (length order)) order start now s [] None;
      let s := s <| round_robin_cursor :=
        match last_served with
        | Some index => (index + 1) mod plugin_count
        | None => (start + 1) mod plugin_count
        end |> in
      Some (record_remaining_queue_peaks s, dispatched).

(** * Results *)

(** [iter().position(..)]. *)
Fixpoint position {A : Type} (f : A -> bool) (l : list A) : option nat :=
  match l with
  | [] => None
  | x :: l' => if f x then Some 0%nat else S <$> position f l'
  end.

(** [position(..)] followed by [remove(position)]. *)
Fixpoint remove_first {A : Type} (f : A -> bool) (l : list A) : option (A * list A) :=
  match l with
  | [] => None
  | x :: l' => if f x then Some (x, l') else '(y, rest) ← remove_first f l'; Some (y, x :: rest)
  end.

Definition complete (s : QueryScheduler) (plugin : PluginId) (generation : Generation)
    (now : Millis) : QueryScheduler * CompletionOutcome :=
  let (s, now) := observe_now s now in
  match plugins s !! plugin with
  | None => (s, CompletionUnknown)
  | Some st =>
      match remove_first (fun r => f_generation r =? generation) (in_flight st) with
      | None => (s, CompletionUnknown)
      | Some (request, rest) =>
          let s := s <| plugins ::= insert plugin (st <| in_flight := rest |>) |> in
          if is_some (f_cancel_reason request) || negb (generation =? current_generation s)
          then (s, CompletionStale)
          else
            let s :=
              if negb (f_final_result_recorded request)
              then push_trace s (TFinalResult now plugin generation
                                   (saturating_sub now (f_dispatched_at request)))
              else s in
            (s, CompletionAccepted)
      end
  end.

Definition cancel_plugin (s : QueryScheduler) (plugin : PluginId) (reason : CancelReason)
    (now : Millis) : QueryScheduler * list Generation :=
  let (s, now) := observe_now s now in invalidate_plugin s plugin reason now true.

Definition drain_cancellations (s : QueryScheduler) : QueryScheduler * list CancelledRequest :=
  (s <| cancellations := [] |>, cancellations s).

Definition shutdown (s : QueryScheduler) (now : Millis) : QueryScheduler :=
  let (s, now) := observe_now s now in
  if is_shutdown s then s
  else
    let s :=
      foldl (fun s plugin =>
        let (s, _) := invalidate_plugin s plugin CancelShutdown now false in
        with_plugin plugin (fun st =>
          st <| in_flight := [] |> <| queue := [] |> <| relevant := false |>
             <| burst_started := None |>) s) s (plugin_order s) in
    s <| result_queue_depth := 0 |> <| is_shutdown := true |>.

(** Whether an in-flight request may still contribute results. *)
Definition usable (st : PluginState) (generation : Generation) : bool :=
  existsb (fun r => (f_generation r =? generation) && is_none (f_cancel_reason r)) (in_flight st).

Definition record_result_batch (s : QueryScheduler) (plugin : PluginId) (generation : Generation)
    (items : Z) (completion : BatchCompletion) (now : Millis)
    : option (QueryScheduler * BatchAdmission) :=
  let (s, now) := observe_now s now in
  let current := generation =? current_generation s in
  if negb current || negb (is_some_and (plugins s !! plugin) (fun st => usable st generation)) then
    let s := count rejected_stale_results 1 s in
    let s := count_plugin plugin plugin_rejected_stale_results 1 s in
    Some (push_trace s (TStaleResultRejected now plugin generation), StaleRejected)
  else if result_queue_capacity (config s) <=? result_queue_depth s then
    Some (s, RejectedResultQueueFull)
  else
    let s := s <| result_queue_depth ::= fun n => saturating_add usize_max n 1 |> in
    st ← plugins s !! plugin;
    i ← position (fun r => f_generation r =? generation) (in_flight st);
    request ← in_flight st !! i;
    let first := negb (f_first_result_recorded request) in
    let is_final := match completion with BatchPartial => false | _ => true end in
    let final_result := is_final && negb (f_final_result_recorded request) in
    let request' := request <| f_first_result_recorded := true |>
                            <| f_final_result_recorded ::= fun b => b || is_final |> in
    let latency := saturating_sub now (f_dispatched_at request) in
    let s := s <| plugins ::= insert plugin (st <| in_flight ::= insert i request' |>) |> in
    let s := if first then push_trace s (TFirstResult now plugin generation latency) else s in
    let s := push_trace s (TResultBatch now plugin generation items completion) in
    let s := if final_result then push_trace s (TFinalResult now plugin generation latency) else s in
    Some (s, BatchAccepted).

Definition record_ranking (s : QueryScheduler) (generation : Generation) (ranked_items : Z)
    (now : Millis) : QueryScheduler :=
  let (s, now) := observe_now s now in
  push_trace (s <| result_queue_depth := 0 |>) (TRanking now generation ranked_items).

Definition record_presentation (s : QueryScheduler) (generation : Generation) (visible_items : Z)
    (now : Millis) : QueryScheduler :=
  let (s, now) := observe_now s now in
  push_trace (s <| result_queue_depth := 0 |>) (TPresentation now generation visible_items).

Definition diagnostics (s : QueryScheduler) : SchedulerDiagnostics :=
  diag s <| queued_requests := total_queued s |>
         <| in_flight_requests :=
              map_fold (fun _ st total => total + len (in_flight st)) 0 (plugins s) |>.

Definition plugin_diagnostics (s : QueryScheduler) (p : PluginId) : option PluginDiagnostics :=
  st ← plugins s !! p;
  Some (pdiag st <| plugin_queued_requests := len (queue st) |>
                 <| plugin_in_flight_requests := len (in_flight st) |>
                 <| plugin_should_terminate := state_should_terminate st |>).

(** * Executions *)

(** A call of any state-changing method. *)
Inductive op : Type :=
| OpRegister (p : PluginId) (pol : PluginPolicy)
| OpUnregister (p : PluginId)
| OpSetPolicy (p : PluginId) (pol : PluginPolicy) (now : Millis)
| OpDisable (p : PluginId) (now : Millis)
| OpEnable (p : PluginId) (now : Millis)
| OpSubmit (query : text) (now : Millis)
| OpTick (now : Millis)
| OpComplete (p : PluginId) (g : Generation) (now : Millis)
| OpCancel (p : PluginId) (reason : CancelReason) (now : Millis)
| OpDrain
| OpShutdown (now : Millis)
| OpBatch (p : PluginId) (g : Generation) (items : Z) (c : BatchCompletion) (now : Millis)
| OpRanking (g : Generation) (n : Z) (now : Millis)
| OpPresentation (g : Generation) (n : Z) (now : Millis).

Definition apply (s : QueryScheduler) (o : op) : option QueryScheduler :=
  match o with
  | OpRegister p pol => Some (register_plugin s p pol)
  | OpUnregister p => Some (unregister_plugin s p).1
  | OpSetPolicy p pol now => Some (set_policy s p pol now)
  | OpDisable p now => Some (disable_plugin s p now)
  | OpEnable p now => Some (enable_plugin s p now)
  | OpSubmit query now => fst <$> submit_query s query now
  | OpTick now => fst <$> tick s now
  | OpComplete p g now => Some (complete s p g now).1
  | OpCancel p reason now => Some (cancel_plugin s p reason now).1
  | OpDrain => Some (drain_cancellations s).1
  | OpShutdown now => Some (shutdown s now)
  | OpBatch p g items c now => fst <$> record_result_batch s p g items c now
  | OpRanking g n now => Some (record_ranking s g n now)
  | OpPresentation g n now => Some (record_presentation s g n now)
  end.

(** The states reachable from a fresh scheduler. *)
Inductive reachable (c : SchedulerConfig) : QueryScheduler -> Prop :=
| reach_new : reachable c (new c)
| reach_apply s o s' : reachable c s -> apply s o = Some s' -> reachable c s'.

End Operations.
