(* ===== verification/SchedulerInv.v ===== *)
(** The query scheduler's invariants.

    Tracing, counting and cancellation notices do not influence scheduling:
    [sim] identifies states up to them, and every helper that only reports is
    [sim]-neutral.  The invariant is split accordingly into the part that
    depends on the scheduling state only ([core_inv]) and the bounds of the
    reporting buffers ([log_inv]). *)

From S2P Require Import Prelude Text Generation Items Debounce LegacyDispatch SchedulerTypes Scheduler.

(** * States up to reporting *)

(** A plugin's state without its counters (the time of its last dispatch is
    read by the debounce logic and stays). *)
Definition erase (st : PluginState) : PluginState :=
  st <| pdiag ::= fun d => default_plugin_diagnostics <| last_dispatched_at := last_dispatched_at d |> |>.
Arguments erase : simpl never.

Record sim (s s' : QueryScheduler) : Prop := {
  sim_config : config s = config s';
  sim_generations : generations s = generations s';
  sim_plugins : erase <$> plugins s = erase <$> plugins s';
  sim_order : plugin_order s = plugin_order s';
  sim_cursor : round_robin_cursor s = round_robin_cursor s';
  sim_depth : result_queue_depth s = result_queue_depth s';
  sim_shutdown : is_shutdown s = is_shutdown s';
  sim_now : last_now s = last_now s';
}.

#[export] Instance sim_equivalence : Equivalence sim.
Proof.
  split.
  - intros s. by split.
  - intros s s' []. by split.
  - intros s1 s2 s3 [] []. split; by etrans.
Qed.

(** * The invariant *)

(** What every plugin's state satisfies, [g] being the current generation:
    usable limits, at most one retained request, no request from the future, a
    wake-up time for every request that waits, and no work while disabled. *)
Record plugin_inv (g : Generation) (st : PluginState) : Prop := {
  pi_capacity : 1 <= effective_queue_capacity (policy st);
  pi_concurrency : 1 <= effective_concurrency_limit (policy st);
  pi_one : len (queue st) <= 1;
  pi_queue_gen : Forall (fun r => p_generation r <= g) (queue st);
  pi_flight_gen : Forall (fun r => f_generation r <= g) (in_flight st);
  pi_wakeup : Forall (fun r => p_ready r = false -> is_some (p_due_at r) = true) (queue st);
  pi_disabled : enabled st = false -> queue st = [] /\ in_flight st = [];
}.

Definition queued_total (m : gmap PluginId PluginState) : Z := map_sum (fun st => len (queue st)) m.

Record core_inv (s : QueryScheduler) : Prop := {
  ci_order_nodup : NoDup (plugin_order s);
  ci_order_dom : forall p, p ∈ plugin_order s <-> is_Some (plugins s !! p);
  ci_config : config s = normalize_config (config s);
  ci_capacity : request_queue_capacity (config s) <= usize_max;
  ci_generation : GenerationTracker.wf (generations s);
  ci_plugins : map_Forall (fun _ st => plugin_inv (current_generation s) st) (plugins s);
  ci_total : queued_total (plugins s) <= request_queue_capacity (config s);
  ci_depth : 0 <= result_queue_depth s <= result_queue_capacity (config s);
  ci_cursor : 0 <= round_robin_cursor s;
}.

Record log_inv (s : QueryScheduler) : Prop := {
  li_config : config s = normalize_config (config s);
  li_trace : len (trace s) <= trace_capacity (config s);
  li_cancellations : len (cancellations s) <= request_queue_capacity (config s);
}.

(** * Frame lemmas *)

Lemma erase_plugin_inv g st : plugin_inv g (erase st) <-> plugin_inv g st.
Proof. split; intros []; by split. Qed.

Lemma sim_lookup s s' p :
  sim s s' -> erase <$> plugins s !! p = erase <$> plugins s' !! p.
Proof. intros H. pose proof (sim_plugins _ _ H) as Hp. by rewrite <- !lookup_fmap, Hp. Qed.

Lemma sim_lookup_Some s s' p st :
  sim s s' -> plugins s !! p = Some st -> exists st', plugins s' !! p = Some st' /\ erase st = erase st'.
Proof.
  intros Hs Hp. pose proof (sim_lookup _ _ p Hs) as H. rewrite Hp in H. cbn in H.
  destruct (plugins s' !! p) as [st'|]; cbn in H; [|done]. apply (inj Some) in H. eauto.
Qed.

(** Two states with the same erasure agree on everything but counters. *)
Lemma erase_fields st st' :
  erase st = erase st' ->
  policy st = policy st' /\ enabled st = enabled st' /\ relevant st = relevant st' /\
  burst_started st = burst_started st' /\ queue st = queue st' /\ in_flight st = in_flight st' /\
  last_dispatched_at (pdiag st) = last_dispatched_at (pdiag st').
Proof. destruct st, st'. unfold erase. cbn. intros. by simplify_eq. Qed.

Lemma erase_intro st st' :
  policy st = policy st' -> enabled st = enabled st' -> relevant st = relevant st' ->
  burst_started st = burst_started st' -> queue st = queue st' -> in_flight st = in_flight st' ->
  last_dispatched_at (pdiag st) = last_dispatched_at (pdiag st') -> erase st = erase st'.
Proof. destruct st, st'. cbn. intros. subst. unfold erase, update. cbn. congruence. Qed.

Lemma queued_total_erase m : queued_total m = queued_total (erase <$> m).
Proof. unfold queued_total. by rewrite map_sum_fmap. Qed.

Lemma core_inv_sim s s' : sim s s' -> core_inv s -> core_inv s'.
Proof.
  intros Hs H. destruct Hs as [Hc Hg Hp Ho Hcur Hd Hsh Hn], H.
  assert (Hlk : forall p, is_Some (plugins s !! p) <-> is_Some (plugins s' !! p)).
  { intros p. pose proof (f_equal (lookup p) Hp) as He. rewrite !lookup_fmap in He.
    rewrite <- (fmap_is_Some erase (plugins s !! p)), He. apply fmap_is_Some. }
  split; rewrite <- ?Hc, <- ?Hg, <- ?Ho, <- ?Hcur, <- ?Hd; try done.
  - intros p. by rewrite <- Hlk.
  - intros p st Hst. apply erase_plugin_inv.
    assert (He : (erase <$> plugins s) !! p = Some (erase st)) by by rewrite Hp, lookup_fmap, Hst.
    rewrite lookup_fmap in He. apply fmap_Some in He as (st0 & Hst0 & ->).
    apply erase_plugin_inv. unfold current_generation. rewrite <- Hg. by apply (ci_plugins0 p).
  - by rewrite queued_total_erase, <- Hp, <- queued_total_erase.
Qed.

#[export] Instance core_inv_proper : Proper (sim ==> iff) core_inv.
Proof. intros s s' Hs. split; apply core_inv_sim; [done | by symmetry]. Qed.

Lemma count_sim field `{!Update field} n s : sim (count field n s) s.
Proof. by split. Qed.

Lemma count_log field `{!Update field} n s : log_inv (count field n s) <-> log_inv s.
Proof. split; intros []; by split. Qed.

Lemma with_plugin_sim p f s : (forall st, erase (f st) = erase st) -> sim (with_plugin p f s) s.
Proof.
  intros Hf. split; try done. cbn. apply map_eq. intros q. rewrite !lookup_fmap, lookup_alter.
  case_decide; [|done]. subst. destruct (plugins s !! q); simpl; by rewrite ?Hf.
Qed.

Lemma push_trace_sim s e : sim (push_trace s e) s.
Proof. unfold push_trace. repeat case_match; by split. Qed.

Lemma tail_len {A} (l : list A) : len (tail l) <= len l.
Proof. destruct l; simpl; rewrite ?len_cons; lia. Qed.

Lemma normalized_config c :
  c = normalize_config c ->
  1 <= request_queue_capacity c /\ 1 <= result_queue_capacity c /\
  1 <= per_plugin_dispatch_budget c /\ 1 <= dispatch_budget_per_tick c /\ 1 <= trace_capacity c.
Proof. destruct c. unfold normalize_config. cbn. intros [= -> -> -> -> ->]. lia. Qed.

Lemma push_bounded {A} cap (l : list A) x :
  1 <= cap -> len l <= cap -> len ((if len l =? cap then tail l else l) ++ [x]) <= cap.
Proof.
  intros Hc Hl. rewrite len_snoc. destruct (Z.eqb_spec (len l) cap) as [E|E]; [|lia].
  rewrite len_tail; [lia|]. intros ->. rewrite len_nil in E. lia.
Qed.

Lemma push_trace_log s e : log_inv s -> log_inv (push_trace s e).
Proof.
  intros [Hc Ht Hl]. pose proof (normalized_config _ Hc) as (_ & _ & _ & _ & ?).
  pose proof (push_bounded _ _ e ltac:(done) Ht) as Hb. unfold push_trace.
  destruct (Z.eqb_spec (trace_capacity (config s)) 0); [lia|].
  destruct (len (trace s) =? trace_capacity (config s)); by split.
Qed.

Lemma foldl_push_trace_sim {A} (f : A -> QueryTraceEvent) s l :
  sim (foldl (fun s x => push_trace s (f x)) s l) s.
Proof. revert s. induction l as [|x l IH]; intros s; simpl; [done|]. by rewrite IH, push_trace_sim. Qed.

Lemma foldl_log {A} (f : QueryScheduler -> A -> QueryScheduler) s l :
  (forall s x, log_inv s -> log_inv (f s x)) -> log_inv s -> log_inv (foldl f s l).
Proof. intros Hf. revert s. induction l; simpl; eauto. Qed.

(** Anything that leaves the buffers alone preserves their bounds. *)
Lemma log_inv_same s s' :
  config s' = config s -> trace s' = trace s -> cancellations s' = cancellations s ->
  log_inv s -> log_inv s'.
Proof. intros Hc Ht Hl []. split; by rewrite ?Hc, ?Ht, ?Hl. Qed.

Lemma count_plugin_sim p field `{!Update field} n s :
  (forall f st, erase (st <| pdiag ::= update field f |>) = erase st) ->
  sim (count_plugin p field n s) s.
Proof. intros Hf. by apply with_plugin_sim. Qed.

Lemma emit_cancellation_sim s p g reason now b : sim (emit_cancellation s p g reason now b) s.
Proof.
  unfold emit_cancellation. destruct b; simpl; [|done]. rewrite push_trace_sim.
  transitivity (count_plugin p plugin_cancelled_requests 1 (count cancelled_requests 1 s));
    [case_match; by split | by rewrite count_plugin_sim, count_sim].
Qed.

Lemma emit_cancellation_log s p g reason now b :
  log_inv s -> log_inv (emit_cancellation s p g reason now b).
Proof.
  unfold emit_cancellation. destruct b; simpl; [|done]. intros [Hc Ht Hl]. apply push_trace_log.
  pose proof (normalized_config _ Hc) as (? & _).
  pose proof (push_bounded _ _ (mkCancelled p g reason now) ltac:(done) Hl) as Hb.
  cbn. destruct (len (cancellations s) =? request_queue_capacity (config s)); by split.
Qed.

Lemma emit_cancellations_sim s p reason now rs : sim (emit_cancellations s p reason now rs) s.
Proof.
  unfold emit_cancellations. revert s. induction rs as [|r rs IH]; intros s; simpl; [done|].
  by rewrite IH, emit_cancellation_sim.
Qed.

Lemma emit_cancellations_log s p reason now rs :
  log_inv s -> log_inv (emit_cancellations s p reason now rs).
Proof. apply foldl_log. eauto using emit_cancellation_log. Qed.

(** Replacing one registered plugin's state. *)
Definition set_plugin (p : PluginId) (st : PluginState) (s : QueryScheduler) : QueryScheduler :=
  s <| plugins ::= insert p st |>.

Lemma with_plugin_Some p f s st :
  plugins s !! p = Some st -> with_plugin p f s = set_plugin p (f st) s.
Proof.
  intros Hp. unfold with_plugin, set_plugin, update. by rewrite (alter_Some _ _ _ _ Hp).
Qed.

Lemma with_plugin_None p f s : plugins s !! p = None -> with_plugin p f s = s.
Proof.
  intros Hp. unfold with_plugin, update. rewrite (alter_None _ _ _ Hp). by destruct s.
Qed.

Lemma set_plugin_log p st s : log_inv s -> log_inv (set_plugin p st s).
Proof. by apply log_inv_same. Qed.

Lemma with_plugin_log p f s : log_inv s -> log_inv (with_plugin p f s).
Proof. by apply log_inv_same. Qed.

Lemma set_plugin_sim p st st' s s' :
  sim s s' -> erase st = erase st' -> sim (set_plugin p st s) (set_plugin p st' s').
Proof.
  intros [] He. split; try done. cbn. rewrite !fmap_insert. congruence.
Qed.

Lemma set_plugin_set_plugin p st st' s : set_plugin p st (set_plugin p st' s) = set_plugin p st s.
Proof. unfold set_plugin, update. cbn. by rewrite insert_insert_eq. Qed.

Lemma set_plugin_inv p st st' s :
  core_inv s -> plugins s !! p = Some st -> plugin_inv (current_generation s) st' ->
  queued_total (plugins s) - len (queue st) + len (queue st') <= request_queue_capacity (config s) ->
  core_inv (set_plugin p st' s).
Proof.
  intros [] Hp Hi Ht. split; cbn; try done.
  - intros q. rewrite lookup_insert. case_decide; [subst|done].
    rewrite ci_order_dom0, Hp. by split.
  - apply map_Forall_insert_2; done.
  - unfold queued_total in *. by rewrite (map_sum_insert _ _ _ _ _ Hp).
Qed.

(** The common case: the plugin's queue does not grow. *)
Lemma set_plugin_inv_le p st st' s :
  core_inv s -> plugins s !! p = Some st -> plugin_inv (current_generation s) st' ->
  len (queue st') <= len (queue st) -> core_inv (set_plugin p st' s).
Proof. intros Hi Hp Hst Hl. eapply set_plugin_inv; eauto. pose proof (ci_total _ Hi). lia. Qed.

(** * Invalidation *)

Lemma cancel_in_flight_generations reason b l :
  map f_generation (cancel_in_flight reason b l).1 = map f_generation l.
Proof.
  induction l as [|r l IH]; simpl; [done|].
  destruct (cancel_in_flight reason b l). simpl in *.
  destruct (b || _); simpl; [|by rewrite IH]. destruct (is_none _); simpl; by rewrite IH.
Qed.

Lemma cancel_in_flight_all reason b l :
  Forall (fun r => is_some (f_cancel_reason r) = true) (cancel_in_flight reason b l).1.
Proof.
  induction l as [|r l IH]; simpl; [constructor|].
  destruct (cancel_in_flight reason b l). simpl in *.
  destruct (f_cancel_reason r) eqn:E; destruct b; simpl; constructor; simpl; rewrite ?E; done.
Qed.

Lemma Forall_map_generation P (l l' : list InFlightRequest) :
  map f_generation l = map f_generation l' ->
  Forall (fun r => P (f_generation r)) l -> Forall (fun r => P (f_generation r)) l'.
Proof.
  intros Hm Hl. apply (List.Forall_map f_generation P). rewrite <- Hm. by apply List.Forall_map.
Qed.

(** A plugin's state after [invalidate_plugin]. *)
Definition invalidated (reason : CancelReason) (b : bool) (st : PluginState) : PluginState :=
  st <| in_flight := (cancel_in_flight reason b (in_flight st)).1 |> <| queue := [] |>
     <| relevant := false |> <| burst_started := None |>.

Lemma invalidate_plugin_Some s p reason now b st :
  plugins s !! p = Some st ->
  sim (invalidate_plugin s p reason now b).1 (set_plugin p (invalidated reason b st) s).
Proof.
  intros Hp. unfold invalidate_plugin, invalidated. rewrite Hp.
  destruct (cancel_in_flight reason b (in_flight st)). simpl. apply emit_cancellations_sim.
Qed.

Lemma invalidate_plugin_None s p reason now b :
  plugins s !! p = None -> (invalidate_plugin s p reason now b).1 = s.
Proof. intros Hp. unfold invalidate_plugin. by rewrite Hp. Qed.

Lemma invalidate_plugin_log s p reason now b :
  log_inv s -> log_inv (invalidate_plugin s p reason now b).1.
Proof.
  intros Hl. unfold invalidate_plugin. destruct (plugins s !! p); [|done].
  destruct (cancel_in_flight _ _ _). simpl. by apply emit_cancellations_log, set_plugin_log.
Qed.

Lemma invalidated_inv g reason b st : plugin_inv g st -> plugin_inv g (invalidated reason b st).
Proof.
  intros []. split; cbn; try done; try lia.
  - apply (Forall_map_generation (fun x => x <= g) (in_flight st)); [|done].
    symmetry. apply cancel_in_flight_generations.
  - intros He. split; [done|]. apply pi_disabled0 in He as [_ ->]. done.
Qed.

Lemma invalidate_plugin_inv s p reason now b :
  core_inv s -> core_inv (invalidate_plugin s p reason now b).1.
Proof.
  intros Hi. destruct (plugins s !! p) as [st|] eqn:Hp; [|by rewrite invalidate_plugin_None].
  rewrite invalidate_plugin_Some by done.
  eapply set_plugin_inv_le; eauto using invalidated_inv; [|apply len_nonneg].
  apply invalidated_inv. by apply (ci_plugins _ Hi p).
Qed.

(** * Time *)

Lemma observe_now_inv s now : core_inv s -> core_inv (observe_now s now).1.
Proof. intros []. by split. Qed.

Lemma observe_now_log s now : log_inv s -> log_inv (observe_now s now).1.
Proof. by apply log_inv_same. Qed.

(** * Reclaiming obsolete requests *)

(** The queue after obsolete requests have been dropped. *)
Definition reclaimed (current : Generation) (st : PluginState) : PluginState :=
  st <| queue ::= List.filter (fun r => p_generation r =? current) |>.

Lemma filter_all_true {A} (f : A -> bool) l : List.filter (fun x => negb (f x)) l = [] -> List.filter f l = l.
Proof.
  induction l as [|x l IH]; simpl; [done|]. destruct (f x); simpl; [|done]. intros H. by rewrite IH.
Qed.

Lemma len_list_filter {A} (f : A -> bool) l : len (List.filter f l) <= len l.
Proof. induction l as [|x l IH]; simpl; [done|]. destruct (f x); rewrite ?len_cons; lia. Qed.

Lemma Forall_list_filter {A} (P : A -> Prop) f l : Forall P l -> Forall P (List.filter f l).
Proof. induction 1; simpl; [constructor|]. case_match; [by constructor | done]. Qed.

(** Whether [reclaim_plugin] looks at a plugin's queue. *)
Definition reclaims (include_replace_oldest : bool) (st : PluginState) : bool :=
  include_replace_oldest || negb (bool_decide (effective_queue_policy (policy st) = ReplaceOldest)).

Lemma reclaimed_id g st :
  List.filter (fun r => negb (p_generation r =? g)) (queue st) = [] -> reclaimed g st = st.
Proof. intros H%filter_all_true. unfold reclaimed, update. rewrite H. by destruct st. Qed.

Lemma reclaim_plugin_Some g now b s p st :
  plugins s !! p = Some st ->
  sim (reclaim_plugin g now b s p)
      (set_plugin p (if reclaims b st then reclaimed g st else st) s).
Proof.
  intros Hp. unfold reclaim_plugin, reclaims. rewrite Hp.
  assert (Hid : set_plugin p st s = s).
  { unfold set_plugin, update. rewrite insert_id by done. by destruct s. }
  destruct b, (bool_decide _); simpl; rewrite ?Hid; try done.
  all: destruct (map p_generation _) as [|g' gs] eqn:Eo.
  1, 3, 5: apply map_eq_nil in Eo; by rewrite (reclaimed_id _ _ Eo), Hid.
  all: etrans; [exact (foldl_push_trace_sim
    (fun g => TRequestDropped now p g (effective_queue_policy (policy st))) _ _)|].
  all: rewrite count_sim; by apply set_plugin_sim.
Qed.

Lemma reclaim_plugin_None g now b s p : plugins s !! p = None -> reclaim_plugin g now b s p = s.
Proof. intros Hp. unfold reclaim_plugin. by rewrite Hp. Qed.

Lemma reclaim_plugin_log g now b s p : log_inv s -> log_inv (reclaim_plugin g now b s p).
Proof.
  intros Hl. unfold reclaim_plugin. repeat case_match; try done.
  apply foldl_log; [intros; by apply push_trace_log|]. by apply count_log, set_plugin_log.
Qed.

Lemma reclaimed_inv g g' st : plugin_inv g st -> plugin_inv g (reclaimed g' st).
Proof.
  intros []. split; cbn; try done; eauto using Forall_list_filter.
  - pose proof (len_list_filter (fun r => p_generation r =? g') (queue st)). lia.
  - intros He. by apply pi_disabled0 in He as [-> ->].
Qed.

Lemma reclaim_plugin_inv g now b s p : core_inv s -> core_inv (reclaim_plugin g now b s p).
Proof.
  intros Hi. destruct (plugins s !! p) as [st|] eqn:Hp; [|by rewrite reclaim_plugin_None].
  rewrite reclaim_plugin_Some by done. pose proof (ci_plugins _ Hi p st Hp).
  eapply set_plugin_inv_le; eauto; case_match; eauto using reclaimed_inv, len_list_filter;
    [apply len_list_filter | done].
Qed.

Lemma foldl_core_inv {A} (f : QueryScheduler -> A -> QueryScheduler) s l :
  (forall s x, core_inv s -> core_inv (f s x)) -> core_inv s -> core_inv (foldl f s l).
Proof. intros Hf. revert s. induction l; simpl; eauto. Qed.

Lemma reclaim_inv s g now b : core_inv s -> core_inv (reclaim_obsolete_queued s g now b).
Proof. apply foldl_core_inv. eauto using reclaim_plugin_inv. Qed.

Lemma reclaim_log s g now b : log_inv s -> log_inv (reclaim_obsolete_queued s g now b).
Proof. apply foldl_log. eauto using reclaim_plugin_log. Qed.

(** * Registration *)

Lemma normalize_policy_limits lower p :
  1 <= effective_queue_capacity (normalize_policy lower p) /\
  1 <= effective_concurrency_limit (normalize_policy lower p).
Proof.
  unfold normalize_policy, effective_queue_capacity, effective_concurrency_limit.
  destruct (decide (profile p = LegacyStrict)) as [E|E]; cbn; [done|].
  repeat case_decide; cbn; repeat case_match; cbn in *; try done; lia.
Qed.

Lemma new_plugin_inv lower g p : plugin_inv g (new_plugin_state (normalize_policy lower p)).
Proof.
  destruct (normalize_policy_limits lower p). split; cbn; try done; rewrite ?len_nil; try done; lia.
Qed.

Lemma register_plugin_inv lower s p pol : core_inv s -> core_inv (register_plugin lower s p pol).
Proof.
  intros Hi. unfold register_plugin. destruct (plugins s !! p) as [st|] eqn:Hp; cbn.
  - eapply set_plugin_inv_le; eauto using new_plugin_inv. apply len_nonneg.
  - destruct Hi. split; cbn; try done.
    + apply NoDup_app. split; [done|]. split; [|apply NoDup_singleton].
      intros q Hq ->%list_elem_of_singleton. apply ci_order_dom0 in Hq. rewrite Hp in Hq. by destruct Hq.
    + intros q. rewrite elem_of_app, list_elem_of_singleton, ci_order_dom0, lookup_insert.
      case_decide; [subst; split; eauto; by right|]. split; [by intros [? | ->] | by left].
    + apply map_Forall_insert_2; eauto using new_plugin_inv.
    + unfold queued_total in *. rewrite map_sum_insert_None by done.
      simpl queue. rewrite len_nil. lia.
Qed.

Lemma with_plugin_inv p f s :
  (forall st, plugin_inv (current_generation s) st ->
    plugin_inv (current_generation s) (f st) /\ len (queue (f st)) <= len (queue st)) ->
  core_inv s -> core_inv (with_plugin p f s).
Proof.
  intros Hf Hi. destruct (plugins s !! p) as [st|] eqn:Hp; [|by rewrite with_plugin_None].
  rewrite (with_plugin_Some _ _ _ _ Hp). destruct (Hf st); [by apply (ci_plugins _ Hi p)|].
  by eapply set_plugin_inv_le.
Qed.

Lemma invalidate_plugin_generations s p reason now b :
  generations (invalidate_plugin s p reason now b).1 = generations s.
Proof.
  destruct (plugins s !! p) as [st|] eqn:Hp; [|by rewrite invalidate_plugin_None].
  by rewrite (sim_generations _ _ (invalidate_plugin_Some s p reason now b st Hp)).
Qed.

(** After an invalidation the plugin's queue is empty. *)
Lemma invalidate_plugin_queue s p reason now b st :
  plugins (invalidate_plugin s p reason now b).1 !! p = Some st -> queue st = [].
Proof.
  intros Hp. destruct (plugins s !! p) as [st0|] eqn:Hp0; [|rewrite invalidate_plugin_None in Hp by done; congruence].
  pose proof (sim_lookup_Some _ _ _ _ (invalidate_plugin_Some s p reason now b st0 Hp0) Hp) as (st' & Hst' & He).
  cbn in Hst'. rewrite lookup_insert_eq in Hst'. apply (inj Some) in Hst'. subst st'.
  apply erase_fields in He as (_ & _ & _ & _ & -> & _). done.
Qed.

Lemma set_policy_inv lower s p pol now : core_inv s -> core_inv (set_policy lower s p pol now).
Proof.
  intros Hi. unfold set_policy. destruct (observe_now s now) as [s1 now1] eqn:Ho.
  apply (observe_now_inv _ now) in Hi. rewrite Ho in Hi. simpl in Hi. clear Ho.
  destruct (plugins s1 !! p) as [st|] eqn:Hp; [|done].
  remember (if decide _ then _ else _) as reason eqn:E. clear E.
  pose proof (invalidate_plugin_inv s1 p reason now1 true Hi) as Hi2.
  pose proof (invalidate_plugin_queue s1 p reason now1 true) as Hq.
  destruct (invalidate_plugin s1 p reason now1 true) as [s2 gs]. simpl in *.
  destruct (plugins s2 !! p) as [st2|] eqn:Hp2; [|by rewrite with_plugin_None].
  rewrite (with_plugin_Some _ _ _ _ Hp2). specialize (Hq st2 eq_refl).
  destruct (normalize_policy_limits lower pol). pose proof (ci_plugins _ Hi2 p st2 Hp2) as [].
  eapply set_plugin_inv_le; eauto; [|done]. by split.
Qed.

Lemma disable_plugin_inv s p now : core_inv s -> core_inv (disable_plugin s p now).
Proof.
  intros Hi. unfold disable_plugin. destruct (observe_now s now) as [s1 now1] eqn:Ho.
  apply (observe_now_inv _ now) in Hi. rewrite Ho in Hi. simpl in Hi. clear Ho.
  pose proof (invalidate_plugin_inv s1 p CancelDisabled now1 true Hi) as Hi2.
  pose proof (invalidate_plugin_queue s1 p CancelDisabled now1 true) as Hq.
  destruct (invalidate_plugin s1 p CancelDisabled now1 true) as [s2 gs]. simpl in *.
  destruct (plugins s2 !! p) as [st2|] eqn:Hp2; [|by rewrite with_plugin_None].
  rewrite (with_plugin_Some _ _ _ _ Hp2). specialize (Hq st2 eq_refl).
  pose proof (ci_plugins _ Hi2 p st2 Hp2) as [].
  eapply set_plugin_inv_le; eauto; [|done]. by split.
Qed.

Lemma enable_plugin_inv s p now : core_inv s -> core_inv (enable_plugin s p now).
Proof.
  intros Hi. unfold enable_plugin. destruct (observe_now s now) as [s1 now1] eqn:Ho.
  apply (observe_now_inv _ now) in Hi. rewrite Ho in Hi. simpl in Hi.
  apply with_plugin_inv; [|done]. intros st []. by split.
Qed.

Lemma NoDup_list_filter {A} (f : A -> bool) (l : list A) : NoDup l -> NoDup (List.filter f l).
Proof.
  induction 1 as [|x l Hx Hl IH]; simpl; [constructor|]. case_match; [|done].
  constructor; [|done]. rewrite list_elem_of_In, filter_In. rewrite list_elem_of_In in Hx. naive_solver.
Qed.

Lemma unregister_plugin_inv s p : core_inv s -> core_inv (unregister_plugin s p).1.
Proof.
  intros Hi. unfold unregister_plugin. destruct (plugins s !! p) as [st|] eqn:Hp; [|done].
  destruct Hi. split; cbn; try done.
  - by apply NoDup_list_filter.
  - intros q. rewrite list_elem_of_In, filter_In, <- list_elem_of_In, ci_order_dom0, lookup_delete.
    case_decide; subst; rewrite ?bool_decide_eq_true_2, ?bool_decide_eq_false_2 by done; simpl;
      [split; [naive_solver | by intros [? ?]] | naive_solver].
  - by apply map_Forall_delete.
  - unfold queued_total in *. rewrite (map_sum_delete _ _ _ _ Hp) in ci_total0.
    pose proof (len_nonneg (queue st)). lia.
  - case_match; [done|]. rewrite len_cons. pose proof (len_nonneg l). lia.
Qed.

(** * One step per plugin

    Several operations walk the registration order and rewrite each plugin's
    state, reporting as they go.  Up to reporting, such a walk is one map over
    the registered plugins. *)

Definition map_plugins (h : PluginState -> PluginState) (s : QueryScheduler) : QueryScheduler :=
  s <| plugins ::= fmap h |>.

Section PerPlugin.

Variables (f : QueryScheduler -> PluginId -> QueryScheduler) (h : PluginState -> PluginState).

Hypothesis f_Some : forall s p st, plugins s !! p = Some st -> sim (f s p) (set_plugin p (h st) s).
Hypothesis h_erase : forall st st', erase st = erase st' -> erase (h st) = erase (h st').

Definition on_plugins (L : list PluginId) (s : QueryScheduler) : QueryScheduler :=
  s <| plugins ::= map_imap (fun p st => Some (if bool_decide (p ∈ L) then h st else st)) |>.

Lemma on_plugins_lookup L s p :
  plugins (on_plugins L s) !! p = (fun st => if bool_decide (p ∈ L) then h st else st) <$> plugins s !! p.
Proof. cbn. rewrite map_lookup_imap. by destruct (plugins s !! p). Qed.

Lemma on_plugins_sim L s s' : sim s s' -> sim (on_plugins L s) (on_plugins L s').
Proof.
  intros Hs. pose proof (fun p => sim_lookup s s' p Hs) as Hlk. destruct Hs.
  split; try done. apply map_eq. intros p. rewrite !lookup_fmap, !on_plugins_lookup.
  pose proof (Hlk p) as He. destruct (plugins s !! p), (plugins s' !! p); try done.
  cbn in *. apply (inj Some) in He. f_equal. case_match; [by apply h_erase | done].
Qed.

Lemma foldl_on_plugins s L :
  NoDup L -> (forall p, p ∈ L -> is_Some (plugins s !! p)) -> sim (foldl f s L) (on_plugins L s).
Proof.
  revert s. induction L as [|p L IH]; intros s Hnd Hreg; simpl.
  - split; try done. apply map_eq. intros q. rewrite !lookup_fmap, on_plugins_lookup.
    by destruct (plugins s !! q).
  - apply NoDup_cons in Hnd as [Hp Hnd].
    destruct (Hreg p) as [st Hst]; [by left|]. pose proof (f_Some _ _ _ Hst) as Hf.
    rewrite IH; [|done|].
    + rewrite (on_plugins_sim _ _ _ Hf). split; try done. apply map_eq. intros q.
      rewrite !lookup_fmap, !on_plugins_lookup. cbn. rewrite lookup_insert.
      case_decide as E; [subst q; rewrite Hst|]; cbn.
      * rewrite bool_decide_eq_false_2, bool_decide_eq_true_2 by (done || by left). done.
      * destruct (plugins s !! q); cbn; [|done]. do 2 f_equal.
        destruct (decide (q ∈ L)); [rewrite !bool_decide_eq_true_2 by (done || by right); done|].
        rewrite !bool_decide_eq_false_2; [done | | done].
        by intros [-> | ?]%elem_of_cons.
    + intros q Hq. destruct (Hreg q) as [st' Hst']; [by right|].
      pose proof (sim_lookup _ _ q Hf) as He. cbn in He. rewrite lookup_insert_ne, Hst' in He by congruence.
      apply fmap_Some in He as (? & ? & _). eauto.
Qed.

Lemma foldl_map_plugins s : core_inv s -> sim (foldl f s (plugin_order s)) (map_plugins h s).
Proof.
  intros Hi. rewrite foldl_on_plugins.
  - split; try done. apply map_eq. intros q. rewrite !lookup_fmap, on_plugins_lookup. cbn.
    rewrite lookup_fmap. destruct (plugins s !! q) eqn:Hq; [|done]. cbn.
    rewrite bool_decide_eq_true_2; [done|]. apply (ci_order_dom _ Hi). eauto.
  - apply (ci_order_nodup _ Hi).
  - intros p. apply (ci_order_dom _ Hi).
Qed.

End PerPlugin.

Lemma erase_eq_mk st st' :
  erase st = erase st' ->
  exists d', st' = st <| pdiag := d' |> /\ last_dispatched_at d' = last_dispatched_at (pdiag st).
Proof.
  intros (Hp & He & Hr & Hb & Hq & Hf & Hd)%erase_fields. exists (pdiag st').
  destruct st, st'; cbn in *; by subst.
Qed.

Lemma reclaim_map_plugins s g now b :
  core_inv s ->
  sim (reclaim_obsolete_queued s g now b)
      (map_plugins (fun st => if reclaims b st then reclaimed g st else st) s).
Proof.
  intros Hi. apply foldl_map_plugins; [| |done].
  - intros. by apply reclaim_plugin_Some.
  - intros st st' (d' & -> & Hd)%erase_eq_mk.
    change (reclaims b (st <| pdiag := d' |>)) with (reclaims b st).
    case_match; unfold erase, reclaimed, update; cbn; by rewrite Hd.
Qed.

Lemma map_plugins_lookup h s p : plugins (map_plugins h s) !! p = h <$> plugins s !! p.
Proof. cbn. apply lookup_fmap. Qed.
