(* ===== verification/SchedulerQuery.v ===== *)
(** A query change, plugin by plugin.

    [after_query] is what one query change does to one plugin's state; the
    scheduler's [process_query_for_plugin] is that function up to reporting,
    and [submit_query] applies it to every registered plugin exactly once. *)

From S2P Require Import Prelude Text Generation Items Debounce LegacyDispatch SchedulerTypes Scheduler SchedulerInv.

(** The queue entry a decision produces. *)
Definition pending_of (generation : Generation) (query : text) (pr : PreparedRequest)
    : PendingRequest :=
  match pr with
  | PreparedLegacy _ => mkPending generation query true None None
  | PreparedModern ready due_at due_reason _ => mkPending generation query ready due_at due_reason
  end.

(** Whether an arrival is admitted, [full] being the global bound. *)
Definition admits (full : bool) (st : PluginState) : bool :=
  let pol := effective_queue_policy (policy st) in
  let capacity := effective_queue_capacity (policy st) in
  let queue_len := len (queue st) in
  let can_reuse_slot :=
    match pol with
    | ReplaceOldest => 0 <? queue_len
    | DropOldest => (0 <? capacity) && (capacity <=? queue_len)
    | RejectNewest => false
    end in
  negb (full && negb can_reuse_slot)
  && negb ((capacity =? 0) || (bool_decide (pol = RejectNewest) && (capacity <=? queue_len))).

Definition placed (st : PluginState) (r : PendingRequest) : PluginState :=
  st <| queue := (place_request (effective_queue_policy (policy st))
                    (effective_queue_capacity (policy st)) (queue st) r).1.1 |>.

Definition cancelled_flights (reason : CancelReason) (st : PluginState) : PluginState :=
  st <| in_flight := (cancel_in_flight reason false (in_flight st)).1 |>.

Definition after_query (full : bool) (generation : Generation) (query normalized : text)
    (now : Millis) (st : PluginState) : PluginState :=
  match gate_reason st normalized with
  | Some _ => invalidated NoLongerRelevant false st
  | None =>
      let (st, prepared) := prepare_request (cancelled_flights QueryChanged st) generation now in
      match prepared with
      | None => st
      | Some pr => if admits full st then placed st (pending_of generation query pr) else st
      end
  end.

(** The global bound, as the admission test reads it. *)
Definition is_full (s : QueryScheduler) : bool :=
  request_queue_capacity (config s) <=? total_queued s.

Lemma total_queued_eq s : total_queued s = Z.min (queued_total (plugins s)) usize_max.
Proof.
  unfold total_queued, queued_total. apply (map_fold_saturating usize_max (fun st => len (queue st))).
  - done.
  - intros st. apply len_nonneg.
Qed.

Lemma total_queued_sim s s' : sim s s' -> total_queued s = total_queued s'.
Proof. intros [_ _ Hp _ _ _ _ _]. by rewrite !total_queued_eq, !(queued_total_erase (plugins _)), Hp. Qed.

Lemma is_full_sim s s' : sim s s' -> is_full s = is_full s'.
Proof. intros H. unfold is_full. by rewrite (total_queued_sim _ _ H), (sim_config _ _ H). Qed.

(** Replacing a plugin's state by one with as long a queue changes no total. *)
Lemma is_full_set_plugin s p st st' :
  plugins s !! p = Some st -> len (queue st') = len (queue st) ->
  is_full (set_plugin p st' s) = is_full s.
Proof.
  intros Hp Hl. unfold is_full. rewrite !total_queued_eq. unfold queued_total. cbn.
  rewrite (map_sum_insert _ _ _ _ _ Hp), Hl. do 2 f_equal. lia.
Qed.

Lemma end_quiet_burst_pdiag st now d' :
  last_dispatched_at d' = last_dispatched_at (pdiag st) ->
  end_quiet_burst (st <| pdiag := d' |>) now = end_quiet_burst st now <| pdiag := d' |>.
Proof. intros Hd. unfold end_quiet_burst. cbn. rewrite Hd. by case_match. Qed.

Lemma end_quiet_burst_fields st now :
  let st' := end_quiet_burst st now in
  policy st' = policy st /\ enabled st' = enabled st /\ queue st' = queue st /\
  in_flight st' = in_flight st /\ relevant st' = relevant st /\ pdiag st' = pdiag st /\
  (burst_started st' = None \/ burst_started st' = burst_started st).
Proof. unfold end_quiet_burst. case_match; cbn; auto 10. Qed.

Lemma prepare_request_erase st st' g now :
  erase st = erase st' ->
  erase (prepare_request st g now).1 = erase (prepare_request st' g now).1 /\
  (prepare_request st g now).2 = (prepare_request st' g now).2.
Proof.
  intros (d' & -> & Hd)%erase_eq_mk. unfold prepare_request.
  rewrite end_quiet_burst_pdiag by done.
  destruct (end_quiet_burst_fields st now) as (_ & _ & _ & _ & _ & Hpd & _).
  destruct (end_quiet_burst st now) as [pol en re bu qu fl d]. cbn in *. subst d.
  repeat case_match; simpl; simplify_eq; split; try done; unfold erase, update; cbn; by rewrite Hd.
Qed.

Lemma prepare_request_fields st g now :
  let st' := (prepare_request st g now).1 in
  policy st' = policy st /\ enabled st' = enabled st /\ queue st' = queue st /\
  in_flight st' = in_flight st /\ relevant st' = true.
Proof.
  unfold prepare_request. destruct (end_quiet_burst_fields st now) as (? & ? & ? & ? & _).
  repeat case_match; simpl; simplify_eq; done.
Qed.

(** * One plugin *)

Lemma set_plugin_id p st s : plugins s !! p = Some st -> set_plugin p st s = s.
Proof. intros Hp. unfold set_plugin, update. rewrite insert_id by done. by destruct s. Qed.

Lemma enqueue_request_sim s p st g q pr now :
  plugins s !! p = Some st ->
  exists s', enqueue_request s p g q pr now = Some s' /\
    sim s' (set_plugin p (placed st (pending_of g q pr)) s).
Proof.
  intros Hp. unfold enqueue_request, placed. rewrite Hp. simpl.
  destruct pr as [d | ready due reason d]; simpl;
    destruct (place_request _ _ _ _) as [[q' sup] ev]; simpl;
    (destruct sup as [old|], ev as [old'|]; eexists; (split; [reflexivity|]); rewrite push_trace_sim,
      ?(push_trace_sim _ (TRequestDropped now p _ DropOldest)), ?count_plugin_sim, ?count_sim,
      ?push_trace_sim, ?count_plugin_sim, ?count_sim; done).
Qed.

Lemma admit_request_sim s p st g q pr now :
  plugins s !! p = Some st ->
  exists s', admit_request s p g q pr now = Some s' /\
    sim s' (set_plugin p (if admits (is_full s) st then placed st (pending_of g q pr) else st) s).
Proof.
  intros Hp. unfold admit_request, admits, is_full. rewrite Hp. simpl.
  destruct (_ && negb _); simpl; [|destruct (_ || _); simpl; [|by apply enqueue_request_sim]];
    eexists; (split; [reflexivity|]);
    by rewrite push_trace_sim, count_plugin_sim, count_sim, set_plugin_id.
Qed.

Lemma process_query_sim s p st g q n now :
  plugins s !! p = Some st ->
  exists s', process_query_for_plugin s p g q n now = Some s' /\
    sim s' (set_plugin p (after_query (is_full s) g q n now st) s).
Proof.
  intros Hp. unfold process_query_for_plugin, after_query. rewrite Hp.
  destruct (gate_reason st n) as [reason|] eqn:Eg; simpl.
  - unfold invalidated. destruct (cancel_in_flight _ _ _) as [fl rs]. simpl. eexists. split; [done|].
    rewrite push_trace_sim. apply emit_cancellations_sim.
  - unfold cancelled_flights. destruct (cancel_in_flight _ _ _) as [fl rs]. simpl.
    set (st1 := st <| in_flight := fl |>).
    set (s1 := emit_cancellations (set_plugin p st1 s) p QueryChanged now rs).
    assert (Hs1 : sim s1 (set_plugin p st1 s)) by apply emit_cancellations_sim.
    destruct (sim_lookup_Some (set_plugin p st1 s) s1 p st1 ltac:(by symmetry))
      as (st1' & Hp1 & He); [apply lookup_insert_eq|].
    change (emit_cancellations _ _ _ _ _) with s1. rewrite Hp1. simpl.
    destruct (prepare_request_erase st1 st1' g now He) as [Hpe Hpr].
    destruct (prepare_request_fields st1 g now) as (_ & _ & Hq & _).
    destruct (prepare_request st1 g now) as [st2 pr], (prepare_request st1' g now) as [st2' pr'].
    simpl in *. subst pr'. change (s1 <| plugins ::= _ |>) with (set_plugin p st2' s1).
    assert (Hs2 : sim (set_plugin p st2' s1) (set_plugin p st2 s)).
    { rewrite (set_plugin_sim p st2' st2 s1 (set_plugin p st1 s)), set_plugin_set_plugin; done. }
    destruct pr as [pr|]; [|eauto].
    destruct (admit_request_sim (set_plugin p st2' s1) p st2' g q pr now) as (s' & Ha & Hsim);
      [apply lookup_insert_eq|].
    exists s'. split; [done|]. rewrite Hsim, set_plugin_set_plugin.
    assert (Hf : is_full (set_plugin p st2' s1) = is_full s).
    { rewrite (is_full_sim _ _ Hs2). eapply is_full_set_plugin; [done|]. by rewrite Hq. }
    rewrite Hf. rewrite (set_plugin_sim p _ (if admits (is_full s) st2 then placed st2 (pending_of g q pr) else st2)
      s1 (set_plugin p st1 s)), set_plugin_set_plugin; [done..|].
    apply erase_eq_mk in Hpe as (d' & -> & Hd).
    change (admits (is_full s) (st2 <| pdiag := d' |>)) with (admits (is_full s) st2).
    destruct (admits (is_full s) st2); unfold placed, erase, update; cbn; by rewrite Hd.
Qed.

(** A plugin whose next request can only find an empty queue or replace. *)
Definition ready_slot (st : PluginState) : Prop :=
  effective_queue_policy (policy st) = ReplaceOldest \/ queue st = [].

Lemma pending_of_wakeup st g now st' pr q :
  prepare_request st g now = (st', Some pr) ->
  p_ready (pending_of g q pr) = false -> is_some (p_due_at (pending_of g q pr)) = true.
Proof. unfold prepare_request. intros H Hr. repeat case_match; simplify_eq/=; done. Qed.

Lemma pending_of_generation g q pr : p_generation (pending_of g q pr) = g.
Proof. by destruct pr. Qed.

(** In a ready slot, placing a request leaves exactly that request. *)
Lemma placed_ready st r :
  ready_slot st -> 1 <= effective_queue_capacity (policy st) -> queue (placed st r) = [r].
Proof.
  unfold placed, place_request. cbn. intros [-> | ->] Hc; [done|].
  destruct (effective_queue_policy _); cbn; [done..|].
  destruct (Z.leb_spec (effective_queue_capacity (policy st)) (len (@nil PendingRequest)));
    rewrite ?len_nil in *; [lia | done].
Qed.

(** An empty queue admits unless the global bound is reached. *)
Lemma admits_empty full st :
  queue st = [] -> 1 <= effective_queue_capacity (policy st) -> admits full st = negb full.
Proof.
  intros Hq Hc. unfold admits. rewrite Hq. change (len (@nil PendingRequest)) with 0.
  rewrite (proj2 (Z.eqb_neq _ 0)), (proj2 (Z.leb_gt _ 0)), !andb_false_r by lia.
  destruct full, (effective_queue_policy (policy st)); done.
Qed.

(** What [after_query] leaves queued: nothing, the same queue, or exactly the
    new request, the last two only where the plugin is enabled. *)
Lemma after_query_queue full g q n now st :
  ready_slot st -> 1 <= effective_queue_capacity (policy st) ->
  let st' := after_query full g q n now st in
  policy st' = policy st /\ enabled st' = enabled st /\
  map f_generation (in_flight st') = map f_generation (in_flight st) /\
  (queue st' = [] \/ (enabled st = true /\ (queue st' = queue st \/
     exists pr, (prepare_request (cancelled_flights QueryChanged st) g now).2 = Some pr /\
       queue st' = [pending_of g q pr] /\ (queue st = [] -> full = false)))).
Proof.
  intros Hr Hc. unfold after_query. destruct (gate_reason st n) as [reason|] eqn:Eg; cbn.
  { rewrite cancel_in_flight_generations. auto. }
  assert (Hen : enabled st = true).
  { unfold gate_reason in Eg. by destruct (enabled st). }
  destruct (prepare_request_fields (cancelled_flights QueryChanged st) g now) as (Hpol & He & Hq & Hf & _).
  destruct (prepare_request (cancelled_flights QueryChanged st) g now) as [st2 pr] eqn:Epr. cbn in *.
  destruct pr as [pr|]; [|rewrite Hpol, He, Hq, Hf, cancel_in_flight_generations; by auto 10].
  destruct (admits full st2) eqn:Ea; [|rewrite Hpol, He, Hq, Hf, cancel_in_flight_generations; by auto 10].
  assert (Hr2 : ready_slot st2) by (destruct Hr as [? | ?]; [left | right]; congruence).
  rewrite (placed_ready st2 _ Hr2) by by rewrite Hpol.
  cbn. rewrite Hpol, He, Hf, cancel_in_flight_generations. split_and_all; try done.
  right. split; [done|]. right. exists pr. split_and_all; [done..|].
  intros Hnil. rewrite admits_empty in Ea by congruence. by apply negb_true_iff.
Qed.

Lemma after_query_flights full g q n now st :
  in_flight (after_query full g q n now st) =
  (cancel_in_flight (if is_some (gate_reason st n) then NoLongerRelevant else QueryChanged) false
     (in_flight st)).1.
Proof.
  unfold after_query. destruct (gate_reason st n); [done|].
  destruct (prepare_request_fields (cancelled_flights QueryChanged st) g now) as (_ & _ & _ & Hf & _).
  destruct (prepare_request _ g now) as [st2 pr]. cbn in *.
  destruct pr; [|done]. destruct (admits full st2); done.
Qed.

Lemma after_query_inv full g q n now st :
  plugin_inv g st -> ready_slot st -> plugin_inv g (after_query full g q n now st).
Proof.
  intros [Hcap Hcon Hone Hqg Hfg Hwk Hdi] Hr.
  destruct (after_query_queue full g q n now st Hr Hcap) as (Hpol & He & Hf & Hq).
  assert (Hdis : enabled st = false -> queue (after_query full g q n now st) = []).
  { intros E. destruct Hq as [? | [E' _]]; [done | congruence]. }
  split; rewrite ?Hpol, ?He; try done.
  - destruct Hq as [-> | [_ [-> | (pr & _ & -> & _)]]]; rewrite ?len_nil, ?len_cons, ?len_nil; lia.
  - destruct Hq as [-> | [_ [-> | (pr & _ & -> & _)]]]; try done.
    apply Forall_singleton. by rewrite pending_of_generation.
  - by apply (Forall_map_generation (fun x => x <= g) (in_flight st)).
  - destruct Hq as [-> | [_ [-> | (pr & Hpr & -> & _)]]]; try done.
    apply Forall_singleton. destruct (prepare_request _ g now) as [st2 pr'] eqn:E. simpl in Hpr. subst.
    eapply pending_of_wakeup; eauto.
  - intros E. split; [auto|]. apply Hdi in E as [_ E].
    rewrite E in Hf. by apply map_eq_nil in Hf.
Qed.

Lemma gate_reason_erase st st' n : erase st = erase st' -> gate_reason st n = gate_reason st' n.
Proof. intros (d' & -> & _)%erase_eq_mk. done. Qed.

Lemma after_query_erase full g q n now st st' :
  erase st = erase st' ->
  erase (after_query full g q n now st) = erase (after_query full g q n now st').
Proof.
  intros He. unfold after_query. rewrite (gate_reason_erase _ _ n He).
  destruct (gate_reason st' n).
  - apply erase_eq_mk in He as (d' & -> & Hd). unfold erase, invalidated, update. cbn. by rewrite Hd.
  - assert (He2 : erase (cancelled_flights QueryChanged st) = erase (cancelled_flights QueryChanged st')).
    { apply erase_eq_mk in He as (d' & -> & Hd). unfold erase, cancelled_flights, update. cbn. by rewrite Hd. }
    destruct (prepare_request_erase _ _ g now He2) as [Hp1 Hp2].
    destruct (prepare_request (cancelled_flights QueryChanged st) g now) as [st2 pr],
      (prepare_request (cancelled_flights QueryChanged st') g now) as [st2' pr']. simpl in *. subst pr'.
    destruct pr as [pr|]; [|done]. apply erase_eq_mk in Hp1 as (d' & -> & Hd).
    change (admits full (st2 <| pdiag := d' |>)) with (admits full st2).
    destruct (admits full st2); unfold placed, erase, update; cbn; by rewrite Hd.
Qed.

Lemma ready_slot_erase st st' : erase st = erase st' -> ready_slot st -> ready_slot st'.
Proof. intros (d' & -> & _)%erase_eq_mk. done. Qed.

(** Queues hold at most one request each, so an empty one leaves room as long
    as the bound is not below the number of plugins. *)
Lemma queued_total_le (m : gmap PluginId PluginState) :
  (forall p st, m !! p = Some st -> len (queue st) <= 1) -> queued_total m <= Z.of_nat (size m).
Proof.
  unfold queued_total. induction m as [|p st m Hp IH] using map_ind; intros H.
  - by rewrite map_sum_empty, map_size_empty.
  - rewrite map_sum_insert_None, map_size_insert_None by done.
    pose proof (H p st (lookup_insert_eq _ _ _)).
    specialize (IH ltac:(intros q st' Hq; apply (H q); rewrite lookup_insert_ne; [done | congruence])). lia.
Qed.

Lemma order_size s : core_inv s -> len (plugin_order s) = Z.of_nat (size (plugins s)).
Proof.
  intros Hi. unfold len. f_equal. rewrite <- size_dom.
  rewrite <- (size_list_to_set (C := gset PluginId)) by apply (ci_order_nodup _ Hi).
  f_equal. apply set_eq. intros p. rewrite elem_of_list_to_set, elem_of_dom. apply (ci_order_dom _ Hi).
Qed.

Lemma not_full_empty s p st :
  core_inv s -> plugins s !! p = Some st -> queue st = [] ->
  len (plugin_order s) <= request_queue_capacity (config s) -> is_full s = false.
Proof.
  intros Hi Hp Hq Hl. unfold is_full. rewrite total_queued_eq. apply Z.leb_gt.
  assert (Ht : queued_total (plugins s) = queued_total (delete p (plugins s))).
  { unfold queued_total. rewrite (map_sum_delete _ _ _ _ Hp), Hq. done. }
  assert (Hd : queued_total (delete p (plugins s)) <= Z.of_nat (size (delete p (plugins s)))).
  { apply queued_total_le. intros p' st' Hp'. apply lookup_delete_Some in Hp' as [_ Hp'].
    by apply (pi_one _ _ (ci_plugins _ Hi p' st' Hp')). }
  pose proof (map_size_delete_Some _ _ (ex_intro _ st Hp)) as Hsz.
  pose proof (order_size s Hi). pose proof (normalized_config _ (ci_config _ Hi)) as (? & _).
  assert (size (plugins s) ≠ 0%nat) by (intros E; apply map_size_empty_iff in E; by rewrite E in Hp).
  lia.
Qed.

Lemma process_query_inv s p st g q n now :
  core_inv s -> g = current_generation s -> plugins s !! p = Some st -> ready_slot st ->
  core_inv (set_plugin p (after_query (is_full s) g q n now st) s).
Proof.
  intros Hi -> Hp Hr. pose proof (ci_plugins _ Hi p st Hp) as Hpi.
  eapply set_plugin_inv; eauto using after_query_inv.
  destruct (after_query_queue (is_full s) (current_generation s) q n now st Hr (pi_capacity _ _ Hpi))
    as (_ & _ & _ & Hq).
  pose proof (ci_total _ Hi). pose proof (ci_capacity _ Hi). pose proof (len_nonneg (queue st)).
  destruct Hq as [-> | [_ [-> | (pr & _ & -> & Hfull)]]]; rewrite ?len_nil, ?len_cons, ?len_nil; try lia.
  destruct (queue st) as [|r rest] eqn:Eq; [|rewrite len_cons in *; pose proof (len_nonneg rest); lia].
  specialize (Hfull eq_refl). unfold is_full in Hfull. rewrite total_queued_eq in Hfull.
  apply Z.leb_gt in Hfull. rewrite len_nil. lia.
Qed.

Lemma enqueue_request_log s p g q pr now s' :
  log_inv s -> enqueue_request s p g q pr now = Some s' -> log_inv s'.
Proof.
  intros Hl. unfold enqueue_request. destruct (plugins s !! p) as [st|]; simpl; [|done].
  destruct pr as [d | ready due reason d]; simpl;
    destruct (place_request _ _ _ _) as [[q' sup] ev]; destruct sup, ev; intros [= <-];
    repeat (apply push_trace_log || apply with_plugin_log || apply count_log || apply set_plugin_log); done.
Qed.

Lemma admit_request_log s p g q pr now s' :
  log_inv s -> admit_request s p g q pr now = Some s' -> log_inv s'.
Proof.
  intros Hl. unfold admit_request. destruct (plugins s !! p) as [st|]; simpl; [|done].
  destruct (_ && negb _); [|destruct (_ || _); [|by apply enqueue_request_log]]; intros [= <-];
    by apply push_trace_log, with_plugin_log, count_log.
Qed.

Lemma process_query_log s p g q n now s' :
  log_inv s -> process_query_for_plugin s p g q n now = Some s' -> log_inv s'.
Proof.
  intros Hl. unfold process_query_for_plugin. destruct (plugins s !! p) as [st|]; [|by intros [= <-]].
  destruct (cancel_in_flight _ _ _) as [fl rs]. destruct (gate_reason st n) as [reason|]; simpl.
  - intros [= <-]. by apply push_trace_log, emit_cancellations_log, set_plugin_log.
  - match goal with |- context [emit_cancellations ?s0 ?p0 ?r0 ?n0 ?l0] =>
      assert (Hl1 : log_inv (emit_cancellations s0 p0 r0 n0 l0))
        by (by apply emit_cancellations_log, set_plugin_log);
      remember (emit_cancellations s0 p0 r0 n0 l0) as s1 eqn:E; clear E
    end.
    destruct (plugins s1 !! p) as [st1|]; simpl; [|done].
    destruct (prepare_request st1 g now) as [st2 [pr|]].
    + intros H. eapply admit_request_log; [|exact H]. by apply set_plugin_log.
    + intros [= <-]. by apply set_plugin_log.
Qed.

(** * Every plugin *)

Section Pass.

Variables (g : Generation) (q n : text) (now : Millis).

(** One pass over distinct plugins applies [after_query] once to each. *)
Lemma for_each_process s L :
  core_inv s -> log_inv s -> g = current_generation s -> NoDup L ->
  (forall p, p ∈ L -> exists st, plugins s !! p = Some st /\ ready_slot st) ->
  exists s', for_each (fun s p => process_query_for_plugin s p g q n now) s L = Some s' /\
    core_inv s' /\ log_inv s' /\
    config s' = config s /\ generations s' = generations s /\ plugin_order s' = plugin_order s /\
    is_shutdown s' = is_shutdown s /\ result_queue_depth s' = result_queue_depth s /\
    (forall p, p ∉ L -> erase <$> plugins s' !! p = erase <$> plugins s !! p) /\
    (forall p st, p ∈ L -> plugins s !! p = Some st ->
      exists full, erase <$> plugins s' !! p = Some (erase (after_query full g q n now st)) /\
        (queue st = [] -> len (plugin_order s) <= request_queue_capacity (config s) -> full = false)).
Proof.
  revert s. induction L as [|p L IH]; intros s Hi Hl Hg Hnd Hreg.
  { exists s. split_and_all; try done. by intros ?? ?%elem_of_nil. }
  apply NoDup_cons in Hnd as [Hp Hnd].
  destruct (Hreg p) as (st & Hst & Hr); [by left|].
  destruct (process_query_sim s p st g q n now Hst) as (s1 & Hs1 & Hsim).
  pose proof (process_query_inv s p st g q n now Hi Hg Hst Hr) as Hi1. rewrite <- Hsim in Hi1.
  pose proof (process_query_log _ _ _ _ _ _ _ Hl Hs1) as Hl1.
  assert (Hother : forall p', p' <> p -> erase <$> plugins s1 !! p' = erase <$> plugins s !! p').
  { intros p' Hne. rewrite (sim_lookup _ _ p' Hsim). cbn. by rewrite lookup_insert_ne. }
  pose proof Hsim as [Hc Hge _ Ho _ Hd Hsh _]. cbn in *.
  destruct (IH s1) as (s' & Hs' & Hi' & Hl' & Hc' & Hg' & Ho' & Hsh' & Hd' & Hout & Hin); try done.
  { unfold current_generation. by rewrite Hge. }
  { intros p' Hp'. destruct (Hreg p') as (st' & Hst' & Hr'); [by right|].
    assert (Hne : p' <> p) by congruence. specialize (Hother p' Hne). rewrite Hst' in Hother.
    apply fmap_Some in Hother as (st1 & Hst1 & He). exists st1. split; [done|].
    by eapply ready_slot_erase. }
  exists s'. rewrite Hs1. simpl. split; [done|]. rewrite Hc', Hg', Ho', Hsh', Hd', Hc, Hge, Ho, Hsh, Hd.
  split_and_all; try done.
  - intros p' [Hne Hn]%not_elem_of_cons. by rewrite Hout, Hother.
  - intros p' st' [-> | Hp']%elem_of_cons Hst'.
    + simplify_eq. rewrite (Hout p Hp), (sim_lookup _ _ p Hsim). cbn. rewrite lookup_insert_eq.
      eexists. split; [done|]. intros Hnil Hlen. by eapply not_full_empty.
    + assert (Hne : p' <> p) by congruence. pose proof (Hother p' Hne) as Hoth. rewrite Hst' in Hoth.
      apply fmap_Some in Hoth as (st1 & Hst1 & He).
      destruct (Hin p' st1 Hp' Hst1) as (full & Hf & Hnf). exists full. split.
      * rewrite Hf. f_equal. symmetry. by apply after_query_erase.
      * apply erase_fields in He as (_ & _ & _ & _ & He & _). rewrite He, <- Ho, <- Hc. done.
Qed.

End Pass.

(** The pass over the plugins that carry a flag is a pass over a sublist. *)
Lemma for_each_flagged f (flag : PluginId -> bool) b s L :
  for_each (fun s (x : PluginId * bool) => if Bool.eqb x.2 b then f s x.1 else Some s) s
    (zip L (map flag L)) =
  for_each f s (List.filter (fun p => Bool.eqb (flag p) b) L).
Proof.
  revert s. induction L as [|p L IH]; intros s; simpl; [done|].
  destruct (Bool.eqb (flag p) b); simpl; [|done]. destruct (f s p); simpl; eauto.
Qed.

(** A new generation keeps every plugin's invariant: nothing is newer. *)
Lemma plugin_inv_mono g g' st : g <= g' -> plugin_inv g st -> plugin_inv g' st.
Proof.
  intros Hg [? ? ? Hq Hf ? ?]. split; try done.
  - eapply Forall_impl; [exact Hq|]. simpl. lia.
  - eapply Forall_impl; [exact Hf|]. simpl. lia.
Qed.

Lemma advance_inv s t g :
  core_inv s -> GenerationTracker.advance (generations s) = Some (t, g) ->
  let s' := s <| generations := t |> <| result_queue_depth := 0 |> in
  core_inv s' /\ current_generation s' = g /\ g = current_generation s + 1.
Proof.
  intros Hi Ha. pose proof (GenerationTracker.advance_wf _ _ _ (ci_generation _ Hi) Ha) as Hwf.
  apply GenerationTracker.advance_spec in Ha as (Hg & Ht & Hlt).
  pose proof (normalized_config _ (ci_config _ Hi)) as (_ & ? & _).
  cbv zeta. split_and_all; [|done..]. destruct Hi. split; cbn; try done; try lia.
  eapply map_Forall_impl; [eassumption|]. intros p st Hst. cbn.
  eapply plugin_inv_mono; [|exact Hst]. unfold current_generation, GenerationTracker.current. cbn. lia.
Qed.

(** A plugin's state when the new query reaches it: an explicit queue has been
    emptied of the obsolete request, a newest-wins slot still holds it. *)
Definition freed (st : PluginState) : PluginState :=
  if bool_decide (effective_queue_policy (policy st) = ReplaceOldest) then st
  else st <| queue := [] |>.

Lemma freed_ready st : ready_slot (freed st).
Proof.
  unfold freed, ready_slot. case_bool_decide; [by left | by right].
Qed.

Lemma reclaimed_stale g g' st :
  plugin_inv g st -> g < g' -> (if reclaims false st then reclaimed g' st else st) = freed st.
Proof.
  intros Hi Hg. unfold freed, reclaims. case_bool_decide; simpl; [done|].
  unfold reclaimed, update. f_equal.
  pose proof (pi_queue_gen _ _ Hi) as Hq. induction Hq as [|r q Hr Hq IH]; [done|]. simpl.
  destruct (Z.eqb_spec (p_generation r) g'); [lia | done].
Qed.

(** Time as the scheduler reads it: it never runs backwards. *)
Definition clock (s : QueryScheduler) (now : Millis) : Millis :=
  map_or (last_now s) now (fun last => Z.max last now).

Section Submit.

Variable to_lowercase : text -> text.
Variables (query : text) (now : Millis).

Let n := to_lowercase (trim query).

(** The state in which the plugins are visited. *)
Definition submitted (s : QueryScheduler) (t : GenerationTracker.GenerationTracker) (g : Generation)
    : QueryScheduler :=
  push_trace (s <| last_now := Some (clock s now) |> <| generations := t |> <| result_queue_depth := 0 |>)
    (TKeystroke (clock s now) g (len n)).

Lemma submitted_inv s t g :
  core_inv s -> log_inv s -> GenerationTracker.advance (generations s) = Some (t, g) ->
  core_inv (submitted s t g) /\ log_inv (submitted s t g) /\
  current_generation (submitted s t g) = g /\ g = current_generation s + 1.
Proof.
  intros Hi Hl Ha. unfold submitted.
  destruct (advance_inv (observe_now s now).1 t g (observe_now_inv _ _ Hi) Ha) as (Hi1 & Hg & Hg').
  split_and_all.
  - by rewrite push_trace_sim.
  - apply push_trace_log. revert Hl. by apply log_inv_same.
  - unfold current_generation. by rewrite (sim_generations _ _ (push_trace_sim _ _)).
  - done.
Qed.

(** The plugins' states after the obsolete requests have been reclaimed. *)
Lemma reclaimed_submitted s t g :
  core_inv s -> log_inv s -> GenerationTracker.advance (generations s) = Some (t, g) ->
  let s1 := reclaim_obsolete_queued (submitted s t g) g (clock s now) false in
  core_inv s1 /\ log_inv s1 /\ config s1 = config s /\ generations s1 = t /\
  plugin_order s1 = plugin_order s /\ is_shutdown s1 = is_shutdown s /\ result_queue_depth s1 = 0 /\
  forall p, erase <$> plugins s1 !! p = erase <$> (freed <$> plugins s !! p).
Proof.
  intros Hi Hl Ha s1. destruct (submitted_inv s t g Hi Hl Ha) as (Hi1 & Hl1 & Hg & Hg').
  pose proof (reclaim_map_plugins (submitted s t g) g (clock s now) false Hi1) as Hsim.
  pose proof (push_trace_sim (s <| last_now := Some (clock s now) |> <| generations := t |>
    <| result_queue_depth := 0 |>) (TKeystroke (clock s now) g (len n))) as Hp.
  change (push_trace _ _) with (submitted s t g) in Hp.
  split; [by apply reclaim_inv|]. split; [by apply reclaim_log|].
  pose proof Hsim as [Hc1 Hg1 _ Ho1 _ Hd1 Hs1 _]. pose proof Hp as [Hc2 Hg2 _ Ho2 _ Hd2 Hs2 _].
  cbn in Hc1, Hg1, Ho1, Hd1, Hs1, Hc2, Hg2, Ho2, Hd2, Hs2.
  subst s1. rewrite Hc1, Hg1, Ho1, Hd1, Hs1, Hc2, Hg2, Ho2, Hd2, Hs2. split_and_all; try done.
  intros p. rewrite (sim_lookup _ _ p Hsim), map_plugins_lookup.
  pose proof (sim_lookup _ _ p Hp) as Hlk. cbn in Hlk.
  destruct (plugins s !! p) as [st|] eqn:Hst; cbn in Hlk; [|by apply fmap_None in Hlk as ->].
  apply fmap_Some in Hlk as (st' & Hst' & He). rewrite Hst'. cbn -[reclaims reclaimed]. f_equal.
  rewrite (reclaimed_stale (current_generation s)); [| |lia].
  - apply erase_eq_mk in He as (d' & -> & Hd). unfold freed. cbn. unfold erase, update.
    case_match; cbn; by rewrite Hd.
  - apply erase_plugin_inv. rewrite <- He. apply erase_plugin_inv. by apply (ci_plugins _ Hi p).
Qed.

Lemma admits_room full st :
  ready_slot st -> 1 <= effective_queue_capacity (policy st) -> (queue st = [] -> full = false) ->
  admits full st = true.
Proof.
  intros Hr Hc Hf. destruct (queue st) as [|r q] eqn:Hq.
  - by rewrite admits_empty, Hf.
  - destruct Hr as [Hp | Hp]; [|congruence]. unfold admits. rewrite Hp, Hq, len_cons. simpl.
    pose proof (len_nonneg q). rewrite (proj2 (Z.ltb_lt 0 _)), (proj2 (Z.eqb_neq _ 0)) by lia.
    by rewrite andb_false_r.
Qed.

(** The two passes visit every registered plugin exactly once. *)
Lemma flagged_NoDup (flag : PluginId -> bool) b L :
  NoDup L -> NoDup (List.filter (fun p => Bool.eqb (flag p) b) L).
Proof. apply NoDup_list_filter. Qed.

Lemma elem_of_flagged (flag : PluginId -> bool) b L p :
  p ∈ List.filter (fun p => Bool.eqb (flag p) b) L <-> p ∈ L /\ flag p = b.
Proof. rewrite list_elem_of_In, filter_In, <- list_elem_of_In. by rewrite eqb_true_iff. Qed.

Lemma two_passes s (flag : PluginId -> bool) g :
  core_inv s -> log_inv s -> g = current_generation s ->
  (forall p st, plugins s !! p = Some st -> ready_slot st) ->
  forall at_,
  let f s p := process_query_for_plugin s p g query n at_ in
  let L b := List.filter (fun p => Bool.eqb (flag p) b) (plugin_order s) in
  exists s1 s', for_each f s (L true) = Some s1 /\ for_each f s1 (L false) = Some s' /\
    core_inv s' /\ log_inv s' /\
    config s' = config s /\ generations s' = generations s /\ plugin_order s' = plugin_order s /\
    is_shutdown s' = is_shutdown s /\ result_queue_depth s' = result_queue_depth s /\
    (forall p st, plugins s !! p = Some st ->
      exists full, erase <$> plugins s' !! p = Some (erase (after_query full g query n at_ st)) /\
        (queue st = [] -> len (plugin_order s) <= request_queue_capacity (config s) -> full = false)).
Proof.
  intros Hi Hl Hg Hr at_ f L.
  pose proof (ci_order_nodup _ Hi) as Hnd. pose proof (ci_order_dom _ Hi) as Hdom.
  assert (Hreg : forall p, p ∈ plugin_order s -> exists st, plugins s !! p = Some st /\ ready_slot st).
  { intros p Hp. apply Hdom in Hp as [st Hst]. eauto. }
  destruct (for_each_process g query n at_ s (L true)) as
    (s1 & E1 & Hi1 & Hl1 & Hc1 & Hg1 & Ho1 & Hs1 & Hd1 & Hout1 & Hin1);
    eauto using flagged_NoDup.
  { intros p [Hp _]%elem_of_flagged. eauto. }
  destruct (for_each_process g query n at_ s1 (L false)) as
    (s2 & E2 & Hi2 & Hl2 & Hc2 & Hg2 & Ho2 & Hs2 & Hd2 & Hout2 & Hin2);
    eauto using flagged_NoDup.
  { unfold current_generation. by rewrite Hg1. }
  { intros p [Hp Hf]%elem_of_flagged. destruct (Hreg p Hp) as (st & Hst & Hrs).
    pose proof (Hout1 p ltac:(intros [_ ?]%elem_of_flagged; congruence)) as Hst1. rewrite Hst in Hst1.
    apply fmap_Some in Hst1 as (st1 & Hst1 & He).
    exists st1. split; [done|]. by eapply ready_slot_erase. }
  exists s1, s2. split; [exact E1|]. split; [exact E2|].
  rewrite Hc2, Hc1, Hg2, Hg1, Ho2, Ho1, Hs2, Hs1, Hd2, Hd1. split_and_all; try done.
  intros p st Hst. assert (Hp : p ∈ plugin_order s) by (apply Hdom; eauto).
  destruct (flag p) eqn:Hf.
  - destruct (Hin1 p st) as (full & He & Hfull); [by apply elem_of_flagged | done|].
    exists full. split; [|done]. rewrite Hout2; [done|]. intros [_ ?]%elem_of_flagged. congruence.
  - pose proof (Hout1 p ltac:(intros [_ ?]%elem_of_flagged; congruence)) as Hst1. rewrite Hst in Hst1.
    apply fmap_Some in Hst1 as (st1 & Hst1 & He).
    destruct (Hin2 p st1) as (full & He2 & Hfull); [by apply elem_of_flagged | done|].
    exists full. rewrite He2. split; [by rewrite (after_query_erase _ _ _ _ _ _ _ He)|].
    apply erase_fields in He as (_ & _ & _ & _ & He & _). rewrite He, <- Ho1, <- Hc1. done.
Qed.

(** What a query change does to a plugin when the global bound leaves room for
    every plugin: a gated plugin loses all its work, any other has its running
    requests cancelled and holds exactly the request the debounce decided on. *)
Definition after_submit (g : Generation) (at_ : Millis) (st : PluginState) : PluginState :=
  match gate_reason st n with
  | Some _ => invalidated NoLongerRelevant false st
  | None =>
      let (st, prepared) := prepare_request (cancelled_flights QueryChanged st) g at_ in
      match prepared with
      | None => st
      | Some pr => st <| queue := [pending_of g query pr] |>
      end
  end.

Lemma after_query_room full g at_ st :
  ready_slot st -> 1 <= effective_queue_capacity (policy st) -> (queue st = [] -> full = false) ->
  after_query full g query n at_ st = after_submit g at_ st.
Proof.
  intros Hr Hc Hf. unfold after_query, after_submit. destruct (gate_reason st n); [done|].
  destruct (prepare_request_fields (cancelled_flights QueryChanged st) g at_) as (Hpol & _ & Hq & _).
  destruct (prepare_request _ g at_) as [st2 pr]. cbn in Hpol, Hq. destruct pr as [pr|]; [|done].
  assert (Hr2 : ready_slot st2) by (unfold ready_slot; by rewrite Hpol, Hq).
  rewrite admits_room by (rewrite ?Hpol, ?Hq; done).
  rewrite <- (placed_ready st2 (pending_of g query pr)) by by rewrite ?Hpol. done.
Qed.

Lemma submit_query_spec s :
  core_inv s -> log_inv s -> current_generation s < u64_max ->
  exists s', submit_query to_lowercase s query now = Some (s', current_generation s + 1) /\
    let g := current_generation s + 1 in
    core_inv s' /\ log_inv s' /\ config s' = config s /\ current_generation s' = g /\
    plugin_order s' = plugin_order s /\ is_shutdown s' = is_shutdown s /\ result_queue_depth s' = 0 /\
    (is_shutdown s = false -> forall p st, plugins s !! p = Some st ->
      exists full,
        erase <$> plugins s' !! p =
          Some (erase (after_query full g query n (clock s now) (freed st))) /\
        (queue (freed st) = [] -> len (plugin_order s) <= request_queue_capacity (config s) ->
         full = false)).
Proof.
  intros Hi Hl Hg. destruct (GenerationTracker.advance_total (generations s) Hg) as (t & Ha).
  fold (GenerationTracker.current (generations s)) in Ha. fold (current_generation s) in Ha.
  unfold submit_query, observe_now. fold (clock s now). cbv zeta.
  change (generations (s <| last_now := Some (clock s now) |>)) with (generations s). rewrite Ha.
  cbn [mbind option_bind]. change (to_lowercase (trim query)) with n.
  change (push_trace _ _) with (submitted s t (current_generation s + 1)).
  destruct (submitted_inv s t _ Hi Hl Ha) as (Hi0 & Hl0 & Hg0 & _).
  pose proof (push_trace_sim (s <| last_now := Some (clock s now) |> <| generations := t |>
    <| result_queue_depth := 0 |>) (TKeystroke (clock s now) (current_generation s + 1) (len n))) as Hp.
  change (push_trace _ _) with (submitted s t (current_generation s + 1)) in Hp.
  rewrite (sim_shutdown _ _ Hp). cbn [is_shutdown update]. destruct (is_shutdown s) eqn:Es.
  { eexists. split; [done|]. cbv zeta. destruct Hp as [Hc _ _ Ho _ Hd Hs _].
    split_and_all; try done. by rewrite Hs. }
  clear Hp. destruct (reclaimed_submitted s t _ Hi Hl Ha) as (Hi1 & Hl1 & Hc1 & Hg1 & Ho1 & Hs1 & Hd1 & Hlk).
  set (s1 := reclaim_obsolete_queued _ _ _ _) in *.
  set (flag := reclaims_replace_slot s1 (current_generation s + 1)) in *.
  pose proof (fun b s2 => for_each_flagged (fun s0 p => process_query_for_plugin s0 p
    (current_generation s1) query n (clock s now)) flag b s2 (plugin_order s1)) as Hflag.
  assert (Hgen : current_generation s1 = current_generation s + 1).
  { apply GenerationTracker.advance_spec in Ha as (_ & Ht & _).
    unfold current_generation at 1. by rewrite Hg1. }
  destruct (two_passes s1 flag _ Hi1 Hl1 eq_refl) with (at_ := clock s now)
    as (s2 & s' & E1 & E2 & Hi' & Hl' & Hc' & Hg' & Ho' & Hs' & Hd' & Hall).
  { intros p st Hst. specialize (Hlk p). rewrite Hst in Hlk. symmetry in Hlk.
    apply fmap_Some in Hlk as (st1 & Hst1 & He). apply fmap_Some in Hst1 as (st0 & _ & ->).
    eapply ready_slot_erase; [symmetry; exact He | apply freed_ready]. }
  rewrite Hgen in *. exists s'.
  rewrite Hflag, E1. cbn [mbind option_bind]. rewrite Hflag, E2. split; [done|].
  cbv zeta. rewrite Hc', Hc1, Ho', Ho1, Hs', Hs1, Hd', Hd1.
  split_and_all; try done. { unfold current_generation at 1. by rewrite Hg'. }
  intros _ p st Hst. specialize (Hlk p). rewrite Hst in Hlk.
  apply fmap_Some in Hlk as (st1 & Hst1 & He).
  destruct (Hall p st1 Hst1) as (full & Hf & Hroom). exists full. rewrite Hf.
  rewrite <- (after_query_erase full _ query n (clock s now) _ _ He). split; [done|].
  apply erase_fields in He as (_ & _ & _ & _ & He & _). cbn in He. rewrite He, <- Ho1, <- Hc1. done.
Qed.

End Submit.
