(* ===== verification/SchedulerTick.v ===== *)
(** A dispatch turn of the scheduler.

    [tick] drops obsolete requests, ripens the ones whose deadline has passed
    and then serves the plugins in rotation.  This file reduces the nested
    loops to their closed form: the requests a tick dispatches are the first
    [dispatch_budget_per_tick] offers of the plugins in rotation order, and
    exactly the plugins served change state. *)

From S2P Require Import Prelude Text Generation Items Debounce LegacyDispatch SchedulerTypes Scheduler.
From S2P Require Import SchedulerInv SchedulerQuery.

(** * Deadlines *)

(** One plugin's state after the deadlines up to [now] have been applied. *)
Definition ripened (now : Millis) (st : PluginState) : PluginState :=
  let (q, due) := ripen now (queue st) in
  let st := st <| queue := q |> in
  match due with [] => st | _ => st <| burst_started := None |> end.

Lemma apply_deadlines_Some now s p st :
  plugins s !! p = Some st -> sim (apply_deadlines now s p) (set_plugin p (ripened now st) s).
Proof.
  intros Hp. unfold apply_deadlines, ripened. rewrite Hp. destruct (ripen now (queue st)) as [q due].
  exact (foldl_push_trace_sim
    (fun d : Generation * DueReason => TDebounce now p d.1 (due_decision d.2)) _ due).
Qed.

Lemma apply_deadlines_log now s p : log_inv s -> log_inv (apply_deadlines now s p).
Proof.
  intros Hl. unfold apply_deadlines. destruct (plugins s !! p) as [st|]; [|done].
  destruct (ripen now (queue st)) as [q due].
  apply foldl_log; [intros; by apply push_trace_log | by apply set_plugin_log].
Qed.

Lemma ripen_generations now q : map p_generation (ripen now q).1 = map p_generation q.
Proof.
  induction q as [|r q IH]; simpl; [done|]. destruct (ripen now q). simpl in *.
  case_match; simpl; by rewrite IH.
Qed.

Lemma ripened_fields now st :
  let st' := ripened now st in
  policy st' = policy st /\ enabled st' = enabled st /\ in_flight st' = in_flight st /\
  relevant st' = relevant st /\ pdiag st' = pdiag st /\ queue st' = (ripen now (queue st)).1.
Proof. unfold ripened. destruct (ripen now (queue st)) as [q [|d due]]; done. Qed.

Lemma ripen_waiting now q :
  Forall (fun r => p_ready r = false -> is_some (p_due_at r) = true) q ->
  Forall (fun r => p_ready r = false -> exists d, p_due_at r = Some d /\ now < d) (ripen now q).1.
Proof.
  induction 1 as [|r q Hr Hq IH]; simpl; [constructor|]. destruct (ripen now q). simpl in *.
  destruct (p_ready r) eqn:E1; simpl; [constructor; simpl; [congruence | done]|].
  destruct (p_due_at r) as [d|] eqn:E2; [|by specialize (Hr eq_refl)].
  cbn. destruct (Z.leb_spec d now); constructor; cbn; eauto. congruence.
Qed.

Lemma ripened_inv g now st : plugin_inv g st -> plugin_inv g (ripened now st).
Proof.
  intros [Hcap Hcon Hone Hqg Hfg Hwk Hdi].
  destruct (ripened_fields now st) as (Hpol & Hen & Hfl & _ & _ & Hq).
  pose proof (ripen_generations now (queue st)) as Hm.
  split; rewrite ?Hpol, ?Hen, ?Hfl, ?Hq; try done.
  - apply (f_equal len) in Hm. rewrite !len_map in Hm. lia.
  - apply (List.Forall_map p_generation (fun x => x <= g)). rewrite Hm. by apply List.Forall_map.
  - eapply Forall_impl; [by apply (ripen_waiting now)|]. simpl. intros r H E.
    destruct (H E) as (d & -> & _). done.
  - intros E. by destruct (Hdi E) as [-> ->].
Qed.

Lemma ripened_erase now st st' :
  erase st = erase st' -> erase (ripened now st) = erase (ripened now st').
Proof.
  intros (d' & -> & Hd)%erase_eq_mk. unfold ripened. cbn. destruct (ripen now (queue st)) as [q [|x due]];
    unfold erase, update; cbn; by rewrite Hd.
Qed.

Lemma deadlines_map_plugins now s :
  core_inv s -> sim (foldl (apply_deadlines now) s (plugin_order s)) (map_plugins (ripened now) s).
Proof. apply foldl_map_plugins; eauto using apply_deadlines_Some, ripened_erase. Qed.

(** * Peaks *)

Lemma fmap_pdiag_erase (m : gmap PluginId PluginState) (h : PluginState -> PluginState) :
  (forall st, erase (h st) = erase st) -> erase <$> (h <$> m) = erase <$> m.
Proof. intros Hh. rewrite <- map_fmap_compose. apply map_fmap_ext. intros. apply Hh. Qed.

Lemma explicit_peaks_sim s : sim (record_explicit_queue_peaks s) s.
Proof.
  unfold record_explicit_queue_peaks. cbv zeta. case_match; split; try done; cbn; apply fmap_pdiag_erase;
    intros st; by case_match.
Qed.

Lemma remaining_peaks_sim s : sim (record_remaining_queue_peaks s) s.
Proof. unfold record_remaining_queue_peaks. split; try done. cbn. by apply fmap_pdiag_erase. Qed.

Lemma explicit_peaks_log s : log_inv s -> log_inv (record_explicit_queue_peaks s).
Proof. unfold record_explicit_queue_peaks. cbv zeta. case_match; by apply log_inv_same. Qed.

Lemma remaining_peaks_log s : log_inv s -> log_inv (record_remaining_queue_peaks s).
Proof. by apply log_inv_same. Qed.

(** * One plugin's turn *)

(** The request a plugin would hand over now. *)
Definition offer_of (now : Millis) (p : PluginId) (st : PluginState) : option DispatchedRequest :=
  if effective_concurrency_limit (policy st) <=? len (in_flight st) then None
  else
    match queue st with
    | request :: _ =>
        if p_ready request
        then Some (mkDispatched p (p_generation request) (p_query request) now) else None
    | [] => None
    end.

Definition offer (s : QueryScheduler) (now : Millis) (p : PluginId) : option DispatchedRequest :=
  st ← plugins s !! p; offer_of now p st.

(** A plugin's state after it has handed over its front request. *)
Definition dispatched_state (now : Millis) (st : PluginState) : PluginState :=
  match queue st with
  | [] => st
  | request :: rest =>
      st <| queue := rest |>
         <| in_flight ::= fun l => l ++ [mkInFlight (p_generation request) now None false false] |>
         <| pdiag ::= fun d => d <| last_dispatched_at := Some now |> |>
  end.

Lemma offer_of_erase now p st st' : erase st = erase st' -> offer_of now p st = offer_of now p st'.
Proof. intros (d' & -> & _)%erase_eq_mk. done. Qed.

Lemma offer_sim s s' now p : sim s s' -> offer s now p = offer s' now p.
Proof.
  intros Hs. pose proof (sim_lookup _ _ p Hs) as H. unfold offer.
  destruct (plugins s !! p), (plugins s' !! p); cbn in *; try done.
  apply (inj Some) in H. by apply offer_of_erase.
Qed.

Lemma dispatched_erase now st st' :
  erase st = erase st' -> erase (dispatched_state now st) = erase (dispatched_state now st').
Proof.
  intros (d' & -> & Hd)%erase_eq_mk. unfold dispatched_state. cbn.
  destruct (queue st); [|done]. unfold erase, update. cbn. by rewrite Hd.
Qed.

Lemma offer_plugin s now p r : offer s now p = Some r -> dispatched_plugin r = p.
Proof.
  unfold offer, offer_of. destruct (plugins s !! p); cbn; [|done]. intros. repeat case_match; by simplify_eq.
Qed.

Lemma take_ready_None s p now : offer s now p = None -> take_ready s p now = None.
Proof.
  unfold offer, offer_of, take_ready. destruct (plugins s !! p) as [st|]; cbn; [|done].
  case_match; [done|]. destruct (queue st) as [|r q]; [done|]. by destruct (p_ready r).
Qed.

Lemma take_ready_Some s p now r :
  offer s now p = Some r ->
  exists st s', plugins s !! p = Some st /\ take_ready s p now = Some (s', r) /\
    sim s' (set_plugin p (dispatched_state now st) s) /\ (log_inv s -> log_inv s').
Proof.
  unfold offer, offer_of, take_ready. destruct (plugins s !! p) as [st|]; cbn; [|done].
  case_match; [done|]. destruct (queue st) as [|req q] eqn:Hq; [done|].
  destruct (p_ready req); [|done]. intros [= <-]. simpl. do 2 eexists. split; [done|]. split; [done|].
  split.
  - unfold dispatched_state. rewrite push_trace_sim, count_sim, Hq. apply (set_plugin_sim p _ _ s s); [done|reflexivity].
  - intros Hl. by apply push_trace_log, count_log, set_plugin_log.
Qed.

(** Handing over a request keeps the plugin's invariant and empties its slot. *)
Lemma dispatched_inv g now st :
  plugin_inv g st -> enabled st = true -> plugin_inv g (dispatched_state now st).
Proof.
  intros [Hcap Hcon Hone Hqg Hfg Hwk Hdi] He. unfold dispatched_state.
  destruct (queue st) as [|r q] eqn:Hq; [split; rewrite ?Hq; done|].
  apply Forall_cons in Hqg as [Hr Hqg]. apply Forall_cons in Hwk as [_ Hwk].
  rewrite len_cons in Hone. split; cbn; try done; [lia| |congruence].
  apply Forall_app. split; [done|]. by apply Forall_singleton.
Qed.

Lemma dispatched_queue g now st : plugin_inv g st -> queue (dispatched_state now st) = [].
Proof.
  intros Hi. pose proof (pi_one _ _ Hi) as Hone. unfold dispatched_state.
  destruct (queue st) as [|r q] eqn:Hq; [done|]. cbn. apply len_zero.
  rewrite len_cons in Hone. pose proof (len_nonneg q). lia.
Qed.

Lemma offer_enabled s now p r st :
  core_inv s -> offer s now p = Some r -> plugins s !! p = Some st -> enabled st = true.
Proof.
  intros Hi Ho Hp. unfold offer, offer_of in Ho. rewrite Hp in Ho. cbn in Ho.
  destruct (enabled st) eqn:E; [done|]. destruct (pi_disabled _ _ (ci_plugins _ Hi p st Hp) E) as [Hq _].
  rewrite Hq in Ho. by case_match.
Qed.

Lemma take_ready_inv s p now r s' :
  core_inv s -> offer s now p = Some r -> take_ready s p now = Some (s', r) ->
  core_inv s' /\ offer s' now p = None.
Proof.
  intros Hi Ho Ht. destruct (take_ready_Some s p now r Ho) as (st & s'' & Hp & Ht' & Hsim & _).
  rewrite Ht in Ht'. injection Ht' as <-. pose proof (ci_plugins _ Hi p st Hp) as Hpi.
  pose proof (dispatched_queue _ now st Hpi) as Hq. split.
  - rewrite Hsim. eapply set_plugin_inv_le; eauto.
    + apply dispatched_inv; [done|]. by eapply offer_enabled.
    + rewrite Hq. apply len_nonneg.
  - rewrite (offer_sim _ _ _ _ Hsim). unfold offer, offer_of. cbn. rewrite lookup_insert_eq. cbn.
    rewrite Hq. by case_match.
Qed.

(** The [while] loop of a turn: the slot holds at most one request, so one
    iteration serves it, and any fuel above the queue's length is enough. *)
Lemma serve_plugin_turn fuel s p i now d ls :
  core_inv s -> (turn_fuel s p <= fuel)%nat ->
  serve_plugin fuel s p i now 0 d ls =
  if len d <? dispatch_budget_per_tick (config s)
  then match take_ready s p now with
       | Some (s', r) => (s', d ++ [r], Some i)
       | None => (s, d, ls)
       end
  else (s, d, ls).
Proof.
  intros Hi Hf. destruct fuel as [|fuel]; [unfold turn_fuel in Hf; lia|]. cbn [serve_plugin].
  pose proof (normalized_config _ (ci_config _ Hi)) as (_ & _ & Hb & _).
  rewrite (proj2 (Z.ltb_lt 0 _)) by lia. cbn [andb].
  destruct (len d <? dispatch_budget_per_tick (config s)); [|done].
  destruct (offer s now p) as [r|] eqn:Ho; [|by rewrite take_ready_None].
  destruct (take_ready_Some s p now r Ho) as (st & s' & Hp & Ht & Hsim & _). rewrite Ht.
  destruct (take_ready_inv s p now r s' Hi Ho Ht) as [Hi' Ho'].
  unfold turn_fuel in Hf. rewrite Hp in Hf. cbn in Hf.
  destruct fuel as [|fuel].
  - unfold offer, offer_of in Ho. rewrite Hp in Ho. cbn in Ho. destruct (queue st); [|simpl in Hf; lia].
    by case_match.
  - cbn [serve_plugin]. rewrite (take_ready_None _ _ _ Ho'). by case_match.
Qed.

(** * A round *)

(** What serving some plugins in order dispatches, at most [budget] requests. *)
Definition round (s : QueryScheduler) (now : Millis) (budget : Z) (ps : list PluginId)
    : list DispatchedRequest := take (Z.to_nat budget) (omap (offer s now) ps).

Lemma omap_ext_in {A B} (f g : A -> option B) (l : list A) :
  (forall x, x ∈ l -> f x = g x) -> omap f l = omap g l.
Proof.
  induction l as [|x l IH]; intros H; cbn; [done|]. rewrite (H x) by by left.
  rewrite IH; [done|]. intros. apply H. by right.
Qed.

Lemma offer_other s p st s' now p' :
  sim s' (set_plugin p st s) -> p' <> p -> offer s' now p' = offer s now p'.
Proof. intros Hs Hne. rewrite (offer_sim _ _ _ _ Hs). unfold offer. cbn. by rewrite lookup_insert_ne. Qed.

Lemma round_plugins s now b ps :
  forall p, p ∈ map dispatched_plugin (round s now b ps) -> p ∈ ps.
Proof.
  intros p (r & -> & Hr)%list_elem_of_fmap. apply (subseteq_take _ _ r) in Hr.
  apply list_elem_of_omap in Hr as (p & Hp & Ho). by rewrite (offer_plugin _ _ _ _ Ho).
Qed.

Lemma round_cons_None s now b p ps :
  offer s now p = None -> round s now b (p :: ps) = round s now b ps.
Proof. intros Ho. unfold round. cbn. by rewrite Ho. Qed.

Lemma round_cons_Some s now b p ps r :
  offer s now p = Some r -> 0 < b -> round s now b (p :: ps) = r :: round s now (b - 1) ps.
Proof.
  intros Ho Hb. unfold round. cbn. rewrite Ho.
  replace (Z.to_nat b) with (S (Z.to_nat (b - 1))) by lia. done.
Qed.

Lemma round_none s now b ps : b <= 0 -> round s now b ps = [].
Proof. intros Hb. unfold round. by replace (Z.to_nat b) with 0%nat by lia. Qed.

Lemma round_nil s now b : round s now b [] = [].
Proof. unfold round. simpl omap. apply take_nil. Qed.

(** Serving [p] and then [L] is serving both. *)
Lemma on_plugins_cons h p L st s s1 s2 :
  (forall st st', erase st = erase st' -> erase (h st) = erase (h st')) ->
  plugins s !! p = Some st -> p ∉ L ->
  sim s1 (set_plugin p (h st) s) -> sim s2 (on_plugins h L s1) -> sim s2 (on_plugins h (p :: L) s).
Proof.
  intros Hh Hp Hn H1 H2. rewrite H2, (on_plugins_sim h Hh _ _ _ H1). split; try done.
  apply map_eq. intros q. rewrite !lookup_fmap, !on_plugins_lookup. cbn. rewrite lookup_insert.
  case_decide as E; [subst q; rewrite Hp|]; cbn.
  - by rewrite bool_decide_eq_false_2, bool_decide_eq_true_2 by (done || by left).
  - destruct (plugins s !! q); cbn; [|done]. do 2 f_equal.
    destruct (decide (q ∈ L)); [rewrite !bool_decide_eq_true_2 by (done || by right); done|].
    rewrite !bool_decide_eq_false_2; [done | | done]. by intros [-> | ?]%elem_of_cons.
Qed.

Lemma on_plugins_nil h s : sim s (on_plugins h [] s).
Proof.
  split; try done. apply map_eq. intros q. rewrite !lookup_fmap, on_plugins_lookup.
  by destruct (plugins s !! q).
Qed.

Definition served_index (order : list PluginId) (ls ls' : option Z) (new : list DispatchedRequest)
    : Prop :=
  match last new with
  | None => ls' = ls
  | Some r => exists i, ls' = Some i /\ 0 <= i < len order /\
                order !! Z.to_nat i = Some (dispatched_plugin r)
  end.

Lemma served_index_cons order ls i p r new ls' :
  0 <= i < len order -> order !! Z.to_nat i = Some p -> dispatched_plugin r = p ->
  served_index order (Some i) ls' new -> served_index order ls ls' (r :: new).
Proof.
  intros Hi Ho Hr. unfold served_index. destruct new as [|r' new]; [cbn; intros ->; naive_solver|].
  change (last (r :: r' :: new)) with (last (r' :: new)).
  destruct (last (r' :: new)) eqn:E; [done|]. by apply last_None in E.
Qed.

Lemma serve_round_spec order start now offs ps s d ls :
  core_inv s -> log_inv s -> 0 < len order -> NoDup ps ->
  Forall2 (fun o p => order !! Z.to_nat ((start + Z.of_nat o) mod len order) = Some p) offs ps ->
  let new := round s now (dispatch_budget_per_tick (config s) - len d) ps in
  exists s' ls', serve_round offs order start now s d ls = Some (s', d ++ new, ls') /\
    core_inv s' /\ log_inv s' /\ served_index order ls ls' new /\
    sim s' (on_plugins (dispatched_state now) (map dispatched_plugin new) s).
Proof.
  intros Hi Hl Hlen Hnd Hv. revert s d ls Hi Hl.
  induction Hv as [|o p offs ps Ho Hv IH]; intros s d ls Hi Hl new.
  { exists s, ls. subst new. rewrite round_nil, app_nil_r.
    split_and_all; try done. apply on_plugins_nil. }
  apply NoDup_cons in Hnd as [Hp Hnd]. specialize (IH Hnd). cbn [serve_round].
  pose proof (Z.mod_pos_bound (start + Z.of_nat o) (len order) Hlen) as Hix.
  set (ix := (start + Z.of_nat o) mod len order) in *.
  destruct (Z.leb_spec (dispatch_budget_per_tick (config s)) (len d)) as [Hb|Hb].
  { exists s, ls. subst new. rewrite round_none by lia. rewrite app_nil_r.
    split_and_all; try done. apply on_plugins_nil. }
  rewrite Ho. cbn [mbind option_bind]. rewrite serve_plugin_turn by done.
  rewrite (proj2 (Z.ltb_lt _ _) Hb).
  destruct (offer s now p) as [r|] eqn:Hoff.
  - destruct (take_ready_Some s p now r Hoff) as (st & s1 & Hst & Ht & Hsim & Hl1). rewrite Ht.
    destruct (take_ready_inv s p now r s1 Hi Hoff Ht) as [Hi1 _]. specialize (Hl1 Hl).
    destruct (IH s1 (d ++ [r]) (Some ix) Hi1 Hl1) as (s' & ls' & E & Hi' & Hl' & Hls & Hsim').
    assert (Hc : config s1 = config s) by apply (sim_config _ _ Hsim).
    assert (Hnew : new = r :: round s1 now (dispatch_budget_per_tick (config s1) - len (d ++ [r])) ps).
    { subst new. rewrite (round_cons_Some _ _ _ _ _ r), len_snoc, Hc by (done || lia). f_equal.
      rewrite Z.sub_add_distr. unfold round. f_equal. apply omap_ext_in. intros p' Hp'.
      symmetry. eapply offer_other; [exact Hsim | congruence]. }
    exists s', ls'. rewrite Hnew, E, <- app_assoc. split_and_all; try done.
    + by eapply served_index_cons; eauto using offer_plugin.
    + rewrite (map_cons dispatched_plugin), (offer_plugin _ _ _ _ Hoff).
      eapply on_plugins_cons; eauto using dispatched_erase. intros Hin. by apply round_plugins in Hin.
  - rewrite (take_ready_None _ _ _ Hoff). subst new. rewrite round_cons_None by done. by apply IH.
Qed.

(** * The tick *)

(** A plugin's state when the round starts. *)
Definition prepared_state (g : Generation) (now : Millis) (st : PluginState) : PluginState :=
  ripened now (reclaimed g st).

Definition prepared (s : QueryScheduler) (now : Millis) : QueryScheduler :=
  map_plugins (prepared_state (current_generation s) now) s.

(** The order in which a tick visits the plugins. *)
Definition rotation (s : QueryScheduler) : list PluginId :=
  rotate (Z.to_nat (round_robin_cursor s)) (plugin_order s).

(** What a tick at time [now] dispatches. *)
Definition tick_round (s : QueryScheduler) (now : Millis) : list DispatchedRequest :=
  round (prepared s now) now (dispatch_budget_per_tick (config s)) (rotation s).

Lemma reclaimed_erase g st st' : erase st = erase st' -> erase (reclaimed g st) = erase (reclaimed g st').
Proof. intros (d' & -> & Hd)%erase_eq_mk. unfold erase, reclaimed, update. cbn. by rewrite Hd. Qed.

Lemma map_plugins_sim h s s' :
  (forall st st', erase st = erase st' -> erase (h st) = erase (h st')) ->
  sim s s' -> sim (map_plugins h s) (map_plugins h s').
Proof.
  intros Hh Hs. pose proof (fun p => sim_lookup s s' p Hs) as Hlk. destruct Hs. split; try done.
  apply map_eq. intros p. rewrite !lookup_fmap, !map_plugins_lookup. specialize (Hlk p).
  destruct (plugins s !! p), (plugins s' !! p); cbn in *; try done. apply (inj Some) in Hlk. f_equal. auto.
Qed.

(** The state the round starts from, up to reporting. *)
Lemma tick_prepared s now :
  core_inv s -> log_inv s ->
  let s1 := s <| last_now := Some now |> in
  let s2 := reclaim_obsolete_queued s1 (current_generation s1) now true in
  let s3 := record_explicit_queue_peaks (foldl (apply_deadlines now) s2 (plugin_order s2)) in
  core_inv s3 /\ log_inv s3 /\ sim s3 (prepared s now <| last_now := Some now |>) /\
  plugin_order s2 = plugin_order s.
Proof.
  intros Hi Hl s1 s2 s3.
  assert (Hi1 : core_inv s1) by (destruct Hi; by split).
  assert (Hl1 : log_inv s1) by (revert Hl; by apply log_inv_same).
  assert (Hi2 : core_inv s2) by by apply reclaim_inv.
  assert (Hl2 : log_inv s2) by by apply reclaim_log.
  pose proof (reclaim_map_plugins s1 (current_generation s1) now true Hi1) as H2. fold s2 in H2.
  pose proof (deadlines_map_plugins now s2 Hi2) as H3.
  assert (Hs3 : sim s3 (map_plugins (ripened now) s2)) by (subst s3; by rewrite explicit_peaks_sim).
  split_and_all.
  - rewrite Hs3. pose proof Hi2 as [? Hdom ? ? ? Hpl Htot ? ?]. split; cbn; try done.
    + intros p. rewrite lookup_fmap, fmap_is_Some. apply Hdom.
    + intros p st. rewrite lookup_fmap. intros (st0 & Hst0 & ->)%fmap_Some.
      apply ripened_inv. by apply (Hpl p).
    + unfold queued_total in *. rewrite map_sum_fmap. erewrite map_sum_ext; [exact Htot|].
      intros p st _. destruct (ripened_fields now st) as (_ & _ & _ & _ & _ & ->).
      rewrite <- (len_map p_generation), ripen_generations. apply len_map.
  - apply explicit_peaks_log, foldl_log; [|done]. intros. by apply apply_deadlines_log.
  - rewrite Hs3. rewrite (map_plugins_sim _ _ _ (ripened_erase now) H2). split; try done.
    cbn. rewrite <- !map_fmap_compose. done.
  - apply (sim_order _ _ H2).
Qed.

Lemma rotation_visits s :
  0 <= round_robin_cursor s ->
  Forall2 (fun o p => plugin_order s !! Z.to_nat
      ((round_robin_cursor s mod len (plugin_order s) + Z.of_nat o) mod len (plugin_order s)) = Some p)
    (seq 0 (length (plugin_order s))) (rotation s).
Proof.
  intros Hc. apply Forall2_same_length_lookup. unfold rotation.
  split; [by rewrite length_seq, length_rotate|].
  intros i o p Ho Hp. apply lookup_seq in Ho as [-> Hi]. cbn.
  rewrite lookup_rotate_r in Hp by done. rewrite Zplus_mod_idemp_l, <- Hp.
  unfold rotate_nat_add, len. by rewrite Z2Nat.id.
Qed.

Lemma rotation_NoDup s : NoDup (plugin_order s) -> NoDup (rotation s).
Proof.
  intros H. unfold rotation, rotate. eapply NoDup_Permutation_proper; [apply app_Permutation_comm|].
  by rewrite take_drop.
Qed.

Lemma rotation_nil s : plugin_order s = [] -> rotation s = [].
Proof. intros H. unfold rotation, rotate. by rewrite H, drop_nil, take_nil. Qed.

Lemma elem_of_rotation s p : p ∈ rotation s <-> p ∈ plugin_order s.
Proof. apply elem_of_rotate. Qed.

Definition next_cursor (s : QueryScheduler) (s' : QueryScheduler) (new : list DispatchedRequest) : Prop :=
  plugin_order s <> [] ->
  match last new with
  | None => round_robin_cursor s' = (round_robin_cursor s + 1) mod len (plugin_order s)
  | Some r => exists i, 0 <= i < len (plugin_order s) /\
                plugin_order s !! Z.to_nat i = Some (dispatched_plugin r) /\
                round_robin_cursor s' = (i + 1) mod len (plugin_order s)
  end.

Lemma round_sim s s' now b ps : sim s s' -> round s now b ps = round s' now b ps.
Proof. intros Hs. unfold round. f_equal. apply omap_ext_in. intros. by apply offer_sim. Qed.

Lemma tick_spec s now :
  core_inv s -> log_inv s -> is_shutdown s = false ->
  let at_ := clock s now in
  let new := tick_round s at_ in
  exists s', tick s now = Some (s', new) /\ core_inv s' /\ log_inv s' /\
    config s' = config s /\ generations s' = generations s /\ plugin_order s' = plugin_order s /\
    is_shutdown s' = false /\ result_queue_depth s' = result_queue_depth s /\
    last_now s' = Some at_ /\
    erase <$> plugins s' =
      erase <$> plugins (on_plugins (dispatched_state at_) (map dispatched_plugin new) (prepared s at_)) /\
    next_cursor s s' new.
Proof.
  intros Hi Hl Hsh at_ new. unfold tick, observe_now. fold (clock s now). fold at_. cbv zeta.
  change (is_shutdown (s <| last_now := Some at_ |>)) with (is_shutdown s). rewrite Hsh.
  destruct (tick_prepared s at_ Hi Hl) as (Hi3 & Hl3 & Hs3 & Ho2).
  set (s2 := reclaim_obsolete_queued _ _ _ _) in *. set (s3 := record_explicit_queue_peaks _) in *.
  pose proof (normalized_config _ (ci_config _ Hi3)) as (_ & _ & Hb1 & Hb2 & _).
  pose proof Hs3 as [Hc3 Hg3 Hp3 Ho3 Hr3 Hd3 Hsh3 Hn3].
  rewrite Ho2. rewrite (proj2 (Z.eqb_neq (dispatch_budget_per_tick (config s3)) 0)) by lia.
  rewrite (proj2 (Z.eqb_neq (per_plugin_dispatch_budget (config s3)) 0)) by lia. rewrite !orb_false_r.
  destruct (Z.eqb_spec (len (plugin_order s)) 0) as [E|E].
  { apply len_zero in E. subst new. unfold tick_round. rewrite rotation_nil, round_nil by done.
    cbn [map]. eexists. split; [done|]. split; [by rewrite remaining_peaks_sim|].
    split; [by apply remaining_peaks_log|].
    pose proof (remaining_peaks_sim s3) as [-> -> -> -> _ -> -> ->].
    rewrite Hsh3, Hp3. split_and_all; try done; [|by intros []].
    exact (sim_plugins _ _ (on_plugins_nil (dispatched_state at_) (prepared s at_))). }
  assert (Hlen : 0 < len (plugin_order s)) by (pose proof (len_nonneg (plugin_order s)); lia).
  cbn in Hc3, Hg3, Ho3, Hr3, Hd3, Hsh3, Hn3. rewrite Hr3.
  destruct (serve_round_spec (plugin_order s) (round_robin_cursor s mod len (plugin_order s)) at_
    (seq 0 (length (plugin_order s))) (rotation s) s3 [] None) as (s4 & ls & E4 & Hi4 & Hl4 & Hls & Hs4);
    [done | done | done | by apply rotation_NoDup, Hi | by apply rotation_visits, Hi|].
  assert (Hnew : round s3 at_ (dispatch_budget_per_tick (config s3) - len (@nil DispatchedRequest)) (rotation s) = new).
  { subst new. unfold tick_round. rewrite (round_sim _ _ _ _ _ Hs3), Hc3, len_nil, Z.sub_0_r. done. }
  rewrite Hnew in *. rewrite E4. cbn [mbind option_bind app].
  assert (Hcur : core_inv (s4 <| round_robin_cursor := match ls with
      | Some index => (index + 1) mod len (plugin_order s)
      | None => (round_robin_cursor s mod len (plugin_order s) + 1) mod len (plugin_order s) end |>)).
  { destruct Hi4. split; try done. cbn.
    case_match; apply Z.mod_pos_bound; lia. }
  set (s5 := s4 <| round_robin_cursor := _ |>) in *. eexists. split; [done|].
  split; [by rewrite remaining_peaks_sim|].
  split; [apply remaining_peaks_log; revert Hl4; by apply log_inv_same|].
  pose proof (remaining_peaks_sim s5) as [-> -> -> -> _ -> -> ->].
  destruct Hs4 as [Hc4 Hg4 Hp4 Ho4 _ Hd4 Hsh4 Hn4]. cbn in Hc4, Hg4, Ho4, Hd4, Hsh4, Hn4 |- *.
  rewrite Hc4, Hg4, Hp4, Ho4, Hd4, Hsh4, Hn4. split_and_all; try done; [by rewrite Hsh3| |].
  - rewrite (sim_plugins _ _ (on_plugins_sim _ (dispatched_erase at_) _ _ _ Hs3)). done.
  - intros _. cbn. unfold served_index in Hls. destruct (last new); [naive_solver|].
    subst ls. apply Zplus_mod_idemp_l.
Qed.
