(* ===== verification/SchedulerFacts.v ===== *)
(** Properties of the query scheduler.

    The invariant holds in every reachable state, no call panics while the
    generation counter can advance, and each operation does what the launcher
    relies on: a query change supersedes all older work, a tick serves fairly
    within its budgets, and stale results are refused. *)

From S2P Require Import Prelude Text Generation Items Debounce LegacyDispatch SchedulerTypes Scheduler.
From S2P Require Import SchedulerInv SchedulerQuery SchedulerTick.

(** * The invariant over every operation *)

Definition inv (s : QueryScheduler) : Prop := core_inv s /\ log_inv s.

Lemma new_inv c : request_queue_capacity c <= usize_max -> inv (new c).
Proof.
  intros Hc. assert (Hn : normalize_config c = normalize_config (normalize_config c)).
  { destruct c. unfold normalize_config. cbn. f_equal; lia. }
  pose proof (normalized_config _ Hn) as (? & ? & _ & _ & ?).
  split; split; cbn in *; rewrite ?len_nil; try done; try lia.
  - constructor.
  - intros p. rewrite lookup_empty. split; [by intros ?%elem_of_nil | by intros []].
  - unfold usize_max, u64_max in *. lia.
  - unfold queued_total. rewrite map_sum_empty. lia.
Qed.

Lemma observed_inv s now : inv s -> inv (observe_now s now).1.
Proof. intros [? ?]. split; [by apply observe_now_inv | by apply observe_now_log]. Qed.

Lemma sim_core s s' : sim s' s -> core_inv s -> core_inv s'.
Proof. by intros ->. Qed.

Lemma push_trace_inv s e : inv s -> inv (push_trace s e).
Proof. intros [? ?]. split; [by rewrite push_trace_sim | by apply push_trace_log]. Qed.

Lemma reset_depth_inv s : inv s -> inv (s <| result_queue_depth := 0 |>).
Proof.
  intros [Hi Hl]. pose proof (normalized_config _ (ci_config _ Hi)) as (_ & ? & _).
  split; [destruct Hi; split; cbn; try done; lia | by revert Hl; apply log_inv_same].
Qed.

(** Replacing a registered plugin's in-flight requests by others of known
    generations. *)
Lemma set_flights_inv s p st fl :
  inv s -> plugins s !! p = Some st ->
  Forall (fun r => f_generation r <= current_generation s) fl ->
  (enabled st = false -> fl = []) ->
  inv (set_plugin p (st <| in_flight := fl |>) s).
Proof.
  intros [Hi Hl] Hp Hf He. split; [|by apply set_plugin_log].
  eapply set_plugin_inv_le; eauto; [|done]. destruct (ci_plugins _ Hi p st Hp) as [? ? ? ? ? ? Hd].
  split; try done. cbn. intros E. split; [by apply Hd | auto].
Qed.

Lemma remove_first_Some {A} (f : A -> bool) l x rest :
  remove_first f l = Some (x, rest) -> exists l1 l2, l = l1 ++ x :: l2 /\ rest = l1 ++ l2 /\ f x = true /\
    Forall (fun y => f y = false) l1.
Proof.
  revert rest. induction l as [|y l IH]; intros rest; simpl; [done|].
  destruct (f y) eqn:E; [intros [= -> ->]; by exists [], rest|].
  destruct (remove_first f l) as [[z rest']|]; simpl; [|done]. intros [= -> <-].
  destruct (IH rest' eq_refl) as (l1 & l2 & -> & -> & Hx & Hl). exists (y :: l1), l2.
  split_and_all; try done. by constructor.
Qed.

Lemma complete_inv s p g now : inv s -> inv (complete s p g now).1.
Proof.
  intros H. apply (observed_inv s now) in H. unfold complete.
  destruct (observe_now s now) as [s1 now1]. simpl in H.
  destruct (plugins s1 !! p) as [st|] eqn:Hp; [|done].
  destruct (remove_first _ _) as [[r rest]|] eqn:Hr; [|done].
  apply remove_first_Some in Hr as (l1 & l2 & Hfl & -> & _).
  assert (H2 : inv (set_plugin p (st <| in_flight := l1 ++ l2 |>) s1)).
  { destruct H as [Hi Hl]. pose proof (ci_plugins _ Hi p st Hp) as [_ _ _ _ Hfg _ Hd].
    apply set_flights_inv; [done | done | |].
    - rewrite Hfl in Hfg. apply Forall_app in Hfg as [? [_ ?]%Forall_cons]. by apply Forall_app.
    - intros [_ E]%Hd. rewrite E in Hfl. by destruct l1. }
  destruct (_ || _); [exact H2|]. case_match; [by apply push_trace_inv | exact H2].
Qed.

Lemma cancel_plugin_inv s p reason now : inv s -> inv (cancel_plugin s p reason now).1.
Proof.
  intros H. apply (observed_inv s now) in H. unfold cancel_plugin.
  destruct (observe_now s now) as [s1 now1]. destruct H.
  split; [by apply invalidate_plugin_inv | by apply invalidate_plugin_log].
Qed.

Lemma drain_cancellations_inv s : inv s -> inv (drain_cancellations s).1.
Proof.
  intros [Hi Hl]. split; [destruct Hi; by split|]. destruct Hl as [Hc Ht _].
  pose proof (normalized_config _ Hc) as (? & _). split; cbn; rewrite ?len_nil; try done. lia.
Qed.

(** What a shutdown leaves of a plugin. *)
Definition quiesced (st : PluginState) : PluginState :=
  st <| in_flight := [] |> <| queue := [] |> <| relevant := false |> <| burst_started := None |>.

Definition shutdown_plugin (now : Millis) (s : QueryScheduler) (plugin : PluginId) : QueryScheduler :=
  let (s, _) := invalidate_plugin s plugin CancelShutdown now false in
  with_plugin plugin (fun st =>
    st <| in_flight := [] |> <| queue := [] |> <| relevant := false |> <| burst_started := None |>) s.

Lemma shutdown_plugin_Some now s p st :
  plugins s !! p = Some st -> sim (shutdown_plugin now s p) (set_plugin p (quiesced st) s).
Proof.
  intros Hp. unfold shutdown_plugin. pose proof (invalidate_plugin_Some s p CancelShutdown now false st Hp) as Hs.
  destruct (invalidate_plugin s p CancelShutdown now false) as [s1 gs]. simpl in Hs.
  destruct (sim_lookup_Some _ s1 p _ ltac:(symmetry; exact Hs) (lookup_insert_eq _ _ _)) as (st1 & Hp1 & He).
  rewrite (with_plugin_Some _ _ _ _ Hp1).
  rewrite (set_plugin_sim p _ (quiesced (invalidated CancelShutdown false st)) s1 _ Hs).
  - by rewrite set_plugin_set_plugin.
  - apply erase_fields in He as (? & ? & ? & ? & ? & ? & ?). by apply erase_intro.
Qed.

Lemma shutdown_plugin_log now s p : log_inv s -> log_inv (shutdown_plugin now s p).
Proof.
  intros Hl. unfold shutdown_plugin. pose proof (invalidate_plugin_log s p CancelShutdown now false Hl).
  destruct (invalidate_plugin _ _ _ _ _). by apply with_plugin_log.
Qed.

Lemma quiesced_erase st st' : erase st = erase st' -> erase (quiesced st) = erase (quiesced st').
Proof. intros (? & ? & ? & ? & ? & ? & ?)%erase_fields. by apply erase_intro. Qed.

Lemma shutdown_sim s now :
  core_inv s -> is_shutdown s = false ->
  sim (shutdown s now)
      (map_plugins quiesced s <| last_now := Some (clock s now) |> <| result_queue_depth := 0 |>
        <| is_shutdown := true |>).
Proof.
  intros Hi Hs. unfold shutdown, observe_now. fold (clock s now). cbn [is_shutdown update].
  rewrite Hs. fold (shutdown_plugin (clock s now)).
  pose proof (foldl_map_plugins (shutdown_plugin (clock s now)) quiesced
    (shutdown_plugin_Some (clock s now)) quiesced_erase (s <| last_now := Some (clock s now) |>)
    (observe_now_inv s now Hi)) as [Hc Hg Hp Ho Hr Hd Hsh Hn].
  split; done.
Qed.

Lemma quiesced_inv g st : plugin_inv g st -> plugin_inv g (quiesced st).
Proof. intros []. split; cbn; rewrite ?len_nil; try done; lia. Qed.

Lemma shutdown_inv s now : inv s -> inv (shutdown s now).
Proof.
  intros [Hi Hl]. destruct (is_shutdown s) eqn:Hs.
  - unfold shutdown, observe_now. cbn [is_shutdown update]. rewrite Hs. by apply (observed_inv s now).
  - split.
    + rewrite shutdown_sim by done. pose proof (normalized_config _ (ci_config _ Hi)) as (_ & ? & _).
      destruct Hi as [? Hdom ? ? ? Hpl Htot ? ?]. split; cbn; try done; try lia.
      * intros p. rewrite lookup_fmap, fmap_is_Some. apply Hdom.
      * intros p st. rewrite lookup_fmap. intros (st0 & Hst0 & ->)%fmap_Some.
        by apply quiesced_inv, (Hpl p).
      * unfold queued_total in *. rewrite map_sum_fmap.
        etrans; [|exact Htot]. apply map_sum_le. intros st. apply len_nonneg.
    + unfold shutdown, observe_now. cbn [is_shutdown update]. rewrite Hs.
      eapply log_inv_same; [| | |apply (foldl_log (shutdown_plugin (clock s now)))]; try done.
      * intros. by apply shutdown_plugin_log.
      * apply (observed_inv s now). by split.
Qed.

(** * Result batches *)

Lemma position_Some {A} (f : A -> bool) l i :
  position f l = Some i -> exists x, l !! i = Some x /\ f x = true /\
    Forall (fun y => f y = false) (take i l).
Proof.
  revert i. induction l as [|y l IH]; intros i; simpl; [done|]. destruct (f y) eqn:E; [intros [= <-]; eauto|].
  destruct (position f l) as [j|]; simpl; [|done]. intros [= <-].
  destruct (IH j eq_refl) as (x & Hx & Hf & Hall). exists x. simpl. split_and_all; try done. by constructor.
Qed.

Lemma position_existsb {A} (f g : A -> bool) l :
  existsb g l = true -> (forall x, g x = true -> f x = true) -> exists i, position f l = Some i.
Proof.
  intros Hg Hfg. induction l as [|y l IH]; simpl in *; [done|]. destruct (f y) eqn:E; [eauto|].
  apply orb_true_iff in Hg as [Hg | Hg]; [apply Hfg in Hg; congruence|].
  destruct (IH Hg) as [i ->]. simpl. eauto.
Qed.

(** What the scheduler admits: the current generation, from a plugin that has
    an uncancelled request of it in flight. *)
Definition admissible (s : QueryScheduler) (p : PluginId) (g : Generation) : bool :=
  (g =? current_generation s) && is_some_and (plugins s !! p) (fun st => usable st g).

Definition has_room (s : QueryScheduler) : bool :=
  result_queue_depth s <? result_queue_capacity (config s).

Definition admission (s : QueryScheduler) (p : PluginId) (g : Generation) : BatchAdmission :=
  if negb (admissible s p g) then StaleRejected
  else if has_room s then BatchAccepted else RejectedResultQueueFull.

Lemma update_flight_generation (l : list InFlightRequest) i r r' :
  l !! i = Some r -> f_generation r' = f_generation r ->
  map f_generation (<[i := r']> l) = map f_generation l.
Proof.
  revert i. induction l as [|x l IH]; intros [|i]; simpl; [done..| |]; intros Hl Hg; simplify_eq.
  - by rewrite Hg.
  - by rewrite (IH i Hl Hg).
Qed.

Lemma record_result_batch_spec s p g items c now :
  inv s ->
  exists s', record_result_batch s p g items c now = Some (s', admission s p g) /\ inv s' /\
    generations s' = generations s /\ config s' = config s /\ plugin_order s' = plugin_order s /\
    is_shutdown s' = is_shutdown s /\
    result_queue_depth s' = match admission s p g with
                            | BatchAccepted => saturating_add usize_max (result_queue_depth s) 1
                            | _ => result_queue_depth s
                            end.
Proof.
  intros H. unfold record_result_batch, admission, admissible, has_room, observe_now.
  change (current_generation (s <| last_now := _ |>)) with (current_generation s).
  pose proof (observed_inv s now H) as H1. unfold observe_now in H1. simpl fst in H1.
  set (s1 := s <| last_now := _ |>) in *. change (plugins s1) with (plugins s).
  rewrite <- negb_andb. destruct (_ && is_some_and _ _) eqn:Ea; simpl negb; cbv iota.
  2: { eexists. split; [done|]. split.
       - apply push_trace_inv. destruct H1. split; [by rewrite count_plugin_sim, count_sim|].
         by apply with_plugin_log, count_log.
       - pose proof (push_trace_sim (count_plugin p plugin_rejected_stale_results 1 (count rejected_stale_results 1 s1))
           (TStaleResultRejected (map_or (last_now s) now (λ last : Z, last `max` now)) p g))
           as [-> -> _ -> _ -> -> _]. done. }
  change (config s1) with (config s). change (result_queue_depth s1) with (result_queue_depth s).
  destruct (Z.leb_spec (result_queue_capacity (config s)) (result_queue_depth s)) as [Hfull|Hroom].
  { eexists. rewrite (proj2 (Z.ltb_ge _ _)) by done. done. }
  rewrite (proj2 (Z.ltb_lt _ _)) by done.
  apply andb_true_iff in Ea as [_ Hu]. destruct (plugins s !! p) as [st|] eqn:Hp; [|done]. cbn in Hu.
  destruct (position_existsb (fun r => f_generation r =? g) _ _ Hu) as [i Hi].
  { intros r Hr. by apply andb_true_iff in Hr as [? _]. }
  destruct (position_Some _ _ _ Hi) as (r & Hr & Hrg & _).
  cbn [plugins update mbind option_bind]. change (plugins s1) with (plugins s). rewrite Hp. cbn [mbind option_bind].
  rewrite Hi. cbn [mbind option_bind]. rewrite Hr. cbn [mbind option_bind].
  set (s2 := s1 <| result_queue_depth ::= _ |> <| plugins ::= _ |>).
  assert (Hi2 : inv s2).
  { apply (set_flights_inv (s1 <| result_queue_depth ::= fun n => saturating_add usize_max n 1 |>) p st);
      [| done | |].
    - destruct H1 as [Hi1 Hl1].
      split; [|by revert Hl1; apply log_inv_same].
      destruct Hi1. split; try done. cbn in *. unfold saturating_add, usize_max, u64_max. lia.
    - destruct H as [Hci _]. pose proof (pi_flight_gen _ _ (ci_plugins _ Hci p st Hp)) as Hfg.
      apply (Forall_map_generation (fun x => x <= current_generation s) (in_flight st)); [|done].
      symmetry. by eapply update_flight_generation.
    - intros E. destruct H as [Hci _]. destruct (pi_disabled _ _ (ci_plugins _ Hci p st Hp) E) as [_ E'].
      by rewrite E' in Hr. }
  assert (Hfr : forall s', inv s' -> sim s' s2 -> inv s' /\ generations s' = generations s /\
    config s' = config s /\ plugin_order s' = plugin_order s /\ is_shutdown s' = is_shutdown s /\
    result_queue_depth s' = saturating_add usize_max (result_queue_depth s) 1).
  { intros s' Hs' [-> -> _ -> _ -> -> _]. done. }
  eexists. split; [done|]. apply Hfr.
  - repeat case_match; repeat apply push_trace_inv; done.
  - repeat case_match; rewrite ?push_trace_sim; done.
Qed.

(** * Reachable states *)

Section Reachable.

Variable to_lowercase : text -> text.

Lemma register_inv s p pol : inv s -> inv (register_plugin to_lowercase s p pol).
Proof.
  intros [Hi Hl]. split; [by apply register_plugin_inv|]. revert Hl. unfold register_plugin.
  case_match; by apply log_inv_same.
Qed.

Lemma set_policy_keeps s p pol now : inv s -> inv (set_policy to_lowercase s p pol now).
Proof.
  intros [Hi Hl]. split; [by apply set_policy_inv|]. unfold set_policy, observe_now.
  destruct (plugins _ !! p); [|by apply observe_now_log].
  remember (if decide _ then _ else _) as reason eqn:E. clear E.
  match goal with |- context [invalidate_plugin ?s1 _ _ ?n1 _] =>
    pose proof (invalidate_plugin_log s1 p reason n1 true (observe_now_log s now Hl)) as Hl2;
    destruct (invalidate_plugin s1 p reason n1 true) end.
  by apply with_plugin_log.
Qed.

Lemma disable_keeps s p now : inv s -> inv (disable_plugin s p now).
Proof.
  intros [Hi Hl]. split; [by apply disable_plugin_inv|]. unfold disable_plugin, observe_now.
  match goal with |- context [invalidate_plugin ?s1 _ ?r ?n1 _] =>
    pose proof (invalidate_plugin_log s1 p r n1 true (observe_now_log s now Hl)) as Hl2;
    destruct (invalidate_plugin s1 p r n1 true) end.
  by apply with_plugin_log.
Qed.

Lemma enable_keeps s p now : inv s -> inv (enable_plugin s p now).
Proof.
  intros [Hi Hl]. split; [by apply enable_plugin_inv|]. by apply with_plugin_log, observe_now_log.
Qed.

Lemma unregister_keeps s p : inv s -> inv (unregister_plugin s p).1.
Proof.
  intros [Hi Hl]. split; [by apply unregister_plugin_inv|]. unfold unregister_plugin.
  destruct (plugins s !! p); [|done]. destruct Hl as [Hc Ht Hcl]. split; cbn; try done.
  etrans; [apply len_list_filter | done].
Qed.

Lemma tick_total s now :
  inv s -> exists s' d, tick s now = Some (s', d) /\ inv s'.
Proof.
  intros H. destruct (is_shutdown s) eqn:Hs.
  - unfold tick, observe_now. cbn [is_shutdown update]. rewrite Hs.
    do 2 eexists. split; [done|]. by apply (observed_inv s now).
  - destruct H as [Hi Hl]. destruct (tick_spec s now Hi Hl Hs) as (s' & E & Hi' & Hl' & _).
    do 2 eexists. split; [exact E | by split].
Qed.

Lemma submit_Some s query now s' g :
  submit_query to_lowercase s query now = Some (s', g) -> current_generation s < u64_max.
Proof.
  unfold submit_query, observe_now. intros E.
  change (generations (s <| last_now := _ |>)) with (generations s) in E.
  destruct (GenerationTracker.advance (generations s)) as [[t g']|] eqn:Ea; [|done].
  apply GenerationTracker.advance_spec in Ea as (? & ? & ?).
  unfold current_generation, GenerationTracker.current. lia.
Qed.

(** Every call keeps the invariant. *)
Lemma apply_inv s o s' : inv s -> apply to_lowercase s o = Some s' -> inv s'.
Proof.
  intros H. destruct o; cbn [apply]; try (intros [= <-]; eauto using register_inv, set_policy_keeps,
    disable_keeps, enable_keeps, unregister_keeps, complete_inv, cancel_plugin_inv, shutdown_inv; fail).
  - destruct H as [Hi Hl]. destruct (submit_query to_lowercase s query now) as [[s1 g]|] eqn:E; [|done].
    intros [= <-]. pose proof (submit_Some _ _ _ _ _ E) as Hg.
    destruct (submit_query_spec to_lowercase query now s Hi Hl Hg) as (s2 & E2 & Hi2 & Hl2 & _).
    rewrite E in E2. injection E2 as -> _. by split.
  - destruct (tick_total s now H) as (s1 & d & E & H1). rewrite E. intros [= <-]. done.
  - intros [= <-]. by apply (drain_cancellations_inv s).
  - destruct (record_result_batch_spec s p g items c now H) as (s1 & E & H1 & _). rewrite E.
    intros [= <-]. done.
  - intros [= <-]. apply push_trace_inv, reset_depth_inv. by apply (observed_inv s now).
  - intros [= <-]. apply push_trace_inv, reset_depth_inv. by apply (observed_inv s now).
Qed.

Lemma reachable_inv c s :
  request_queue_capacity c <= usize_max -> reachable to_lowercase c s -> inv s.
Proof. intros Hc. induction 1; [by apply new_inv | by eapply apply_inv]. Qed.

End Reachable.

(** * The configuration never changes *)

Lemma invalidate_plugin_config s p reason now b :
  config (invalidate_plugin s p reason now b).1 = config s /\
  is_shutdown (invalidate_plugin s p reason now b).1 = is_shutdown s.
Proof.
  destruct (plugins s !! p) as [st|] eqn:Hp; [|by rewrite invalidate_plugin_None].
  destruct (invalidate_plugin_Some s p reason now b st Hp) as [Hc _ _ _ _ _ Hs _]. done.
Qed.

Lemma push_trace_config s e : config (push_trace s e) = config s.
Proof. apply (sim_config _ _ (push_trace_sim s e)). Qed.

Lemma complete_config s p g now : config (complete s p g now).1 = config s.
Proof. unfold complete, observe_now. repeat case_match; simpl; rewrite ?push_trace_config; done. Qed.

Lemma set_policy_config lower s p pol now : config (set_policy lower s p pol now) = config s.
Proof.
  unfold set_policy, observe_now. destruct (plugins _ !! p); [|done].
  match goal with |- context [invalidate_plugin ?s1 ?p1 ?r ?n ?b] =>
    destruct (invalidate_plugin_config s1 p1 r n b) as [Hc _]; destruct (invalidate_plugin s1 p1 r n b) end.
  exact Hc.
Qed.

Lemma disable_config s p now : config (disable_plugin s p now) = config s.
Proof.
  unfold disable_plugin, observe_now.
  match goal with |- context [invalidate_plugin ?s1 ?p1 ?r ?n ?b] =>
    destruct (invalidate_plugin_config s1 p1 r n b) as [Hc _]; destruct (invalidate_plugin s1 p1 r n b) end.
  exact Hc.
Qed.

Lemma unregister_config s p : config (unregister_plugin s p).1 = config s.
Proof. unfold unregister_plugin. by destruct (plugins s !! p). Qed.

Lemma shutdown_config s now : inv s -> config (shutdown s now) = config s.
Proof.
  intros [Hi _]. destruct (is_shutdown s) eqn:Hs; [|by rewrite (sim_config _ _ (shutdown_sim s now Hi Hs))].
  unfold shutdown, observe_now. cbn [is_shutdown update]. by rewrite Hs.
Qed.

Section Config.

Variable to_lowercase : text -> text.

Lemma apply_config s o s' : inv s -> apply to_lowercase s o = Some s' -> config s' = config s.
Proof.
  intros H. destruct o; cbn [apply];
    try (intros [= <-]; rewrite ?push_trace_config; eauto using set_policy_config, disable_config,
      unregister_config, complete_config, shutdown_config; fail).
  - intros [= <-]. unfold register_plugin. by case_match.
  - destruct (submit_query to_lowercase s query now) as [[s1 g]|] eqn:E; [|done]. intros [= <-].
    pose proof (submit_Some _ _ _ _ _ _ E) as Hg. destruct H as [Hi Hl].
    destruct (submit_query_spec to_lowercase query now s Hi Hl Hg) as (s2 & E2 & _ & _ & Hc & _).
    by simplify_eq.
  - destruct (is_shutdown s) eqn:Hs.
    + unfold tick, observe_now. cbn [is_shutdown update]. rewrite Hs. by intros [= <-].
    + destruct H as [Hi Hl]. destruct (tick_spec s now Hi Hl Hs) as (s1 & E & _ & _ & Hc & _).
      rewrite E. by intros [= <-].
  - intros [= <-]. unfold cancel_plugin, observe_now. exact (proj1 (invalidate_plugin_config _ p reason _ true)).
  - destruct (record_result_batch_spec s p g items c now H) as (s1 & E & _ & _ & Hc & _). rewrite E.
    by intros [= <-].
  - intros [= <-]. unfold record_ranking, observe_now. by rewrite push_trace_config.
  - intros [= <-]. unfold record_presentation, observe_now. by rewrite push_trace_config.
Qed.

Lemma reachable_config c s :
  request_queue_capacity c <= usize_max -> reachable to_lowercase c s -> config s = normalize_config c.
Proof.
  intros Hc. induction 1 as [|s o s' Hr IH Ha]; [done|].
  rewrite (apply_config _ _ _ (reachable_inv _ _ _ Hc Hr) Ha). done.
Qed.

(** A run of calls. *)
Fixpoint run (s : QueryScheduler) (ops : list op) : option QueryScheduler :=
  match ops with
  | [] => Some s
  | o :: ops' => s' ← apply to_lowercase s o; run s' ops'
  end.

Lemma reachable_run c s ops s' :
  reachable to_lowercase c s -> run s ops = Some s' -> reachable to_lowercase c s'.
Proof.
  revert s. induction ops as [|o ops IH]; intros s Hr; simpl; [by intros [= <-]|].
  destruct (apply to_lowercase s o) as [s1|] eqn:E; simpl; [|done]. intros H.
  eapply IH; [|exact H]. by eapply reach_apply.
Qed.

End Config.
