(* ===== verification/SchedulerClaims.v ===== *)
(** What the scheduler promises the launcher, over every reachable state:
    bounded memory, no panic, obsolescence of older work at a query change,
    the exact requests a tick dispatches, fair rotation, timely wake-ups,
    unconditional service of strict legacy plugins and a quiet shutdown. *)

From S2P Require Import Prelude Text Generation Items Debounce LegacyDispatch SchedulerTypes Scheduler.
From S2P Require Import SchedulerInv SchedulerQuery SchedulerTick SchedulerFacts.

(** * A sample scheduler *)

Definition lower : text -> text := ascii_lowercase.

Definition sample_config : SchedulerConfig :=
  {| request_queue_capacity := 4; result_queue_capacity := 2; per_plugin_dispatch_budget := 1;
     dispatch_budget_per_tick := 1; trace_capacity := 8 |}.

Definition sample_modern : PluginPolicy :=
  modern <| queue_policy := RejectNewest |> <| queue_capacity := 3 |>
         <| activation ::= fun a => a <| supports_empty_query := true |> |>.

(** Two plugins are registered and a first query arrives. *)
Definition sample_ops : list op :=
  [OpRegister "legacy" legacy_strict; OpRegister "web" sample_modern; OpSubmit (ascii "fir") 10].

Definition sample : QueryScheduler := default (new sample_config) (run lower (new sample_config) sample_ops).

Lemma sample_reachable : reachable lower sample_config sample.
Proof.
  eapply (reachable_run lower sample_config (new sample_config) sample_ops); [constructor|].
  vm_compute. reflexivity.
Qed.

(** One request is running after a tick. *)
Definition sample_running : QueryScheduler :=
  default (new sample_config) (run lower (new sample_config) (sample_ops ++ [OpTick 20])).

Lemma sample_running_reachable : reachable lower sample_config sample_running.
Proof.
  eapply (reachable_run lower sample_config (new sample_config) (sample_ops ++ [OpTick 20]));
    [constructor|]. vm_compute. reflexivity.
Qed.

(** * Boundedness *)

(** In every state the scheduler can reach, everything it stores is
    bounded by its configuration: the requests waiting over all plugins, the
    cancellation notices, the trace and the result queue; every plugin waits
    with at most one request; no request is newer than the current generation;
    a disabled plugin has neither waiting nor running work; and the plugins
    visited are exactly the registered ones, each once. *)
Theorem scheduler_bounded to_lowercase c s :
  request_queue_capacity c <= usize_max -> reachable to_lowercase c s ->
  total_queued s <= Z.max (request_queue_capacity c) 1 /\
  len (cancellations s) <= Z.max (request_queue_capacity c) 1 /\
  len (trace s) <= Z.max (trace_capacity c) 1 /\
  0 <= result_queue_depth s <= Z.max (result_queue_capacity c) 1 /\
  NoDup (plugin_order s) /\
  (forall p, p ∈ plugin_order s <-> is_Some (plugins s !! p)) /\
  (forall p st, plugins s !! p = Some st ->
     len (queue st) <= 1 /\
     Forall (fun r => p_generation r <= current_generation s) (queue st) /\
     Forall (fun r => f_generation r <= current_generation s) (in_flight st) /\
     (enabled st = false -> queue st = [] /\ in_flight st = [])).
Proof.
  intros Hc Hr. pose proof (reachable_config _ _ _ Hc Hr) as Hcfg.
  destruct (reachable_inv _ _ _ Hc Hr) as [Hi Hl]. pose proof (ci_total _ Hi) as Ht.
  pose proof (ci_depth _ Hi) as Hd. destruct Hl as [_ Htr Hca].
  rewrite Hcfg in *. cbn in *. rewrite total_queued_eq.
  split_and_all; try lia; try apply Hi.
  intros p st Hp. destruct (ci_plugins _ Hi p st Hp). auto.
Qed.

Lemma scheduler_bounded_witness : total_queued sample_running <= 4.
Proof.
  pose proof (scheduler_bounded lower sample_config sample_running ltac:(vm_compute; discriminate)
    sample_running_reachable) as (H & _). exact H.
Defined.

(** * No panic *)

(** As long as the generation counter has not reached its last value, no
    call on a reachable scheduler panics: every [expect] of the code finds what
    it expects.  A call other than [submit_query] never panics at all. *)
Theorem scheduler_never_panics to_lowercase c s o :
  request_queue_capacity c <= usize_max -> reachable to_lowercase c s ->
  (forall query now, o = OpSubmit query now -> current_generation s < u64_max) ->
  exists s', apply to_lowercase s o = Some s' /\ reachable to_lowercase c s'.
Proof.
  intros Hc Hr Hg. destruct (reachable_inv _ _ _ Hc Hr) as [Hi Hl].
  assert (exists s', apply to_lowercase s o = Some s') as [s' Hs'].
  { destruct o; cbn [apply]; eauto.
    - destruct (submit_query_spec to_lowercase query now s Hi Hl (Hg _ _ eq_refl)) as (s' & -> & _).
      eauto.
    - destruct (tick_total s now) as (s' & d & -> & _); [by split | eauto].
    - destruct (record_result_batch_spec s p g items c0 now) as (s' & -> & _); [by split | eauto]. }
  exists s'. split; [done|]. by eapply reach_apply.
Qed.

Lemma scheduler_never_panics_witness :
  exists s', apply lower sample_running (OpSubmit (ascii "fire") 30) = Some s' /\
    reachable lower sample_config s'.
Proof.
  exact (scheduler_never_panics lower sample_config sample_running (OpSubmit (ascii "fire") 30)
    ltac:(vm_compute; discriminate) sample_running_reachable ltac:(intros; vm_compute; reflexivity)).
Defined.

(** * Results *)

(** A result batch is admitted exactly when it carries the current
    generation, its plugin has an uncancelled request of that generation in
    flight, and the result queue has room; the depth grows only then, and
    rejections distinguish staleness from a full queue. *)
Theorem result_batch_admission to_lowercase c s p g items completion now :
  request_queue_capacity c <= usize_max -> reachable to_lowercase c s ->
  exists s', record_result_batch s p g items completion now = Some (s', admission s p g) /\
    (admission s p g = BatchAccepted <->
      g = current_generation s /\
      (exists st r, plugins s !! p = Some st /\ r ∈ in_flight st /\ f_generation r = g /\
         f_cancel_reason r = None) /\
      result_queue_depth s < result_queue_capacity (config s)) /\
    (admission s p g <> BatchAccepted -> result_queue_depth s' = result_queue_depth s).
Proof.
  intros Hc Hr. destruct (record_result_batch_spec s p g items completion now
    (reachable_inv _ _ _ Hc Hr)) as (s' & E & _ & _ & _ & _ & _ & Hd).
  exists s'. split; [done|]. split; [|intros Hn; rewrite Hd; by destruct (admission s p g)].
  unfold admission, admissible, has_room.
  assert (Hu : is_some_and (plugins s !! p) (fun st => usable st g) = true <->
    exists st r, plugins s !! p = Some st /\ r ∈ in_flight st /\ f_generation r = g /\ f_cancel_reason r = None).
  { destruct (plugins s !! p) as [st|]; [|split; [done | by intros (? & ? & ? & _)]]. cbn. unfold usable.
    rewrite existsb_exists. setoid_rewrite <- list_elem_of_In. split.
    - intros (r & Hin & [? Hn]%andb_true_iff). exists st, r. reflect_bools. split_and_all; try done.
      by destruct (f_cancel_reason r).
    - intros (st' & r & [= <-] & Hin & Hg & Hn). exists r. split; [done|].
      rewrite Hn. cbn. by rewrite andb_true_r, Z.eqb_eq. }
  rewrite <- Hu. destruct (Z.eqb_spec g (current_generation s)); simpl; [|naive_solver].
  destruct (is_some_and _ _); simpl; [|naive_solver].
  destruct (Z.ltb_spec (result_queue_depth s) (result_queue_capacity (config s))); split; intros;
    try done; destruct_and?; lia.
Qed.

Lemma result_batch_admission_witness :
  exists s', record_result_batch sample_running "legacy" 1 3 BatchPartial 25 = Some (s', BatchAccepted).
Proof.
  pose proof (result_batch_admission lower sample_config sample_running "legacy" 1 3 BatchPartial 25
    ltac:(vm_compute; discriminate) sample_running_reachable) as (s' & H & _).
  exists s'. exact H.
Defined.

(** * Query changes *)

Lemma unusable_cancelled st g :
  Forall (fun r => is_some (f_cancel_reason r) = true) (in_flight st) -> usable st g = false.
Proof.
  unfold usable. induction 1 as [|r l Hr Hl IH]; [done|]. cbn. rewrite IH, orb_false_r.
  unfold is_none. by rewrite Hr, andb_false_r.
Qed.

Lemma complete_cancelled s p g now :
  (forall st, plugins s !! p = Some st ->
     Forall (fun r => is_some (f_cancel_reason r) = true) (in_flight st)) ->
  (complete s p g now).2 <> CompletionAccepted.
Proof.
  intros Hall. unfold complete, observe_now. cbn [plugins update].
  destruct (plugins s !! p) as [st|]; [|done]. specialize (Hall st eq_refl).
  destruct (remove_first _ _) as [[r rest]|] eqn:E; [|done].
  apply remove_first_Some in E as (l1 & l2 & Hl & _ & _). rewrite Hl in Hall.
  apply Forall_app in Hall as [_ [Hr _]%Forall_cons]. by rewrite Hr.
Qed.

(** ** States in which all running work is cancelled *)

Definition all_cancelled (st : PluginState) : Prop :=
  Forall (fun r => is_some (f_cancel_reason r) = true) (in_flight st).

Definition superseded (s : QueryScheduler) : Prop := map_Forall (fun _ st => all_cancelled st) (plugins s).

Definition is_tick (o : op) : bool := match o with OpTick _ => true | _ => false end.

#[export] Instance superseded_proper : Proper (sim ==> iff) superseded.
Proof.
  assert (H : forall s s', sim s s' -> superseded s -> superseded s').
  { intros s s' Hs Hf p st Hp. symmetry in Hs. destruct (sim_lookup_Some _ _ _ _ Hs Hp) as (st0 & Hp0 & He).
    apply erase_fields in He as (_ & _ & _ & _ & _ & He & _). unfold all_cancelled. rewrite He. by apply (Hf p st0). }
  intros s s' Hs. split; apply H; [done | by symmetry].
Qed.

Lemma set_plugin_superseded p st s : superseded s -> all_cancelled st -> superseded (set_plugin p st s).
Proof. intros Hs Hst. by apply map_Forall_insert_2. Qed.

Lemma invalidate_superseded s p reason now b : superseded s -> superseded (invalidate_plugin s p reason now b).1.
Proof.
  intros Hs. destruct (plugins s !! p) as [st|] eqn:Hp; [|by rewrite invalidate_plugin_None].
  rewrite invalidate_plugin_Some by done. apply set_plugin_superseded; [done|]. apply cancel_in_flight_all.
Qed.

Lemma with_plugin_superseded p f s :
  (forall st, all_cancelled st -> all_cancelled (f st)) -> superseded s -> superseded (with_plugin p f s).
Proof.
  intros Hf Hs. destruct (plugins s !! p) as [st|] eqn:Hp; [|by rewrite with_plugin_None].
  rewrite (with_plugin_Some _ _ _ _ Hp). apply set_plugin_superseded; [done|]. by apply Hf, (Hs p).
Qed.

Lemma complete_superseded s p g now : superseded s -> superseded (complete s p g now).1.
Proof.
  intros Hs. unfold complete, observe_now. cbn [plugins update]. destruct (plugins s !! p) as [st|] eqn:Hp; [|done].
  destruct (remove_first _ _) as [[r rest]|] eqn:E; [|done]. apply remove_first_Some in E as (l1 & l2 & Hl & -> & _).
  pose proof (Hs p st Hp) as Hst. unfold all_cancelled in Hst. rewrite Hl in Hst. apply Forall_app in Hst as [H1 [_ H2]%Forall_cons].
  match goal with |- context [push_trace ?s0 _] => assert (H0 : superseded s0) end.
  { apply (set_plugin_superseded p (st <| in_flight := l1 ++ l2 |>) (s <| last_now := Some (clock s now) |>)); [exact Hs|]. by apply Forall_app. }
  destruct (_ || _); [exact H0|]. case_match; [by rewrite push_trace_sim | exact H0].
Qed.

Lemma shutdown_superseded s now : core_inv s -> superseded s -> superseded (shutdown s now).
Proof.
  intros Hi Hs. destruct (is_shutdown s) eqn:Hd.
  - unfold shutdown, observe_now. cbn [is_shutdown update]. by rewrite Hd.
  - rewrite shutdown_sim by done. intros p st. cbn. rewrite lookup_fmap. intros (st0 & _ & ->)%fmap_Some. constructor.
Qed.

Section Superseded.
Context (to_lowercase : text -> text).

Lemma submit_superseded s query now s' g :
  inv s -> is_shutdown s = false -> submit_query to_lowercase s query now = Some (s', g) -> superseded s'.
Proof.
  intros [Hi Hl] Hs E. pose proof (submit_Some _ _ _ _ _ _ E) as Hg.
  destruct (submit_query_spec to_lowercase query now s Hi Hl Hg) as (s2 & E2 & Hi' & _ & _ & _ & Ho & _ & _ & Hall).
  rewrite E in E2. injection E2 as <- ->. intros p st Hp.
  assert (p ∈ plugin_order s) as Hin by (rewrite <- Ho; apply (ci_order_dom _ Hi'); eauto).
  apply (ci_order_dom _ Hi) in Hin as [st0 Hst0]. destruct (Hall Hs p st0 Hst0) as (full & He & _).
  rewrite Hp in He. apply (inj Some), erase_fields in He as (_ & _ & _ & _ & _ & He & _). unfold all_cancelled.
  rewrite He, after_query_flights. apply cancel_in_flight_all.
Qed.

Lemma submit_shut_down s query now s' g :
  is_shutdown s = true -> submit_query to_lowercase s query now = Some (s', g) -> superseded s -> superseded s'.
Proof.
  intros Hs. unfold submit_query, observe_now. destruct (GenerationTracker.advance _) as [[t g']|]; [|done]. cbn [mbind option_bind].
  match goal with |- context [is_shutdown ?s0] => assert (Hd : is_shutdown s0 = true) by (by rewrite (sim_shutdown _ _ (push_trace_sim _ _))) end.
  rewrite Hd. intros [= <- _] H. by rewrite push_trace_sim.
Qed.

(** Only a tick starts work: every other call leaves all of it cancelled. *)
Lemma apply_superseded s o s' :
  inv s -> superseded s -> is_tick o = false -> apply to_lowercase s o = Some s' -> superseded s'.
Proof.
  intros Hinv Hs Ho. destruct o; cbn [apply]; try done; try (intros [= <-]).
  - unfold register_plugin. case_match; apply (set_plugin_superseded p _ s Hs); constructor.
  - unfold unregister_plugin. destruct (plugins s !! p); [|done]. by apply map_Forall_delete.
  - unfold set_policy, observe_now. destruct (plugins _ !! p); [|done].
    match goal with |- context [invalidate_plugin ?s1 ?q ?r ?n ?b] => pose proof (invalidate_superseded s1 q r n b Hs); destruct (invalidate_plugin s1 q r n b) end.
    by apply with_plugin_superseded.
  - unfold disable_plugin, observe_now.
    match goal with |- context [invalidate_plugin ?s1 ?q ?r ?n ?b] => pose proof (invalidate_superseded s1 q r n b Hs); destruct (invalidate_plugin s1 q r n b) end.
    apply with_plugin_superseded; [constructor | done].
  - unfold enable_plugin, observe_now. by apply with_plugin_superseded.
  - destruct (submit_query to_lowercase s query now) as [[s1 g]|] eqn:E; [|done]. intros [= <-].
    destruct (is_shutdown s) eqn:Hd; [by eapply submit_shut_down | by eapply submit_superseded].
  - by apply complete_superseded.
  - unfold cancel_plugin, observe_now. by apply invalidate_superseded.
  - done.
  - apply shutdown_superseded; [apply Hinv | done].
  - unfold record_result_batch, observe_now.
    assert (Hu : is_some_and (plugins s !! p) (fun st => usable st g) = false).
    { destruct (plugins s !! p) as [st|] eqn:Hp; [|done]. by apply unusable_cancelled, (Hs p). }
    change (plugins (s <| last_now := _ |>)) with (plugins s). rewrite Hu, orb_true_r. intros [= <-].
    rewrite push_trace_sim. by apply with_plugin_superseded.
  - unfold record_ranking, observe_now. by rewrite push_trace_sim.
  - unfold record_presentation, observe_now. by rewrite push_trace_sim.
Qed.

Lemma run_superseded s ops s' :
  inv s -> superseded s -> Forall (fun o => is_tick o = false) ops -> run to_lowercase s ops = Some s' -> inv s' /\ superseded s'.
Proof.
  intros Hi Hs Hops. revert s Hi Hs. induction Hops as [|o ops Ho _ IH]; intros s Hi Hs; cbn [run]; [by intros [= <-]|].
  destruct (apply to_lowercase s o) as [s1|] eqn:E; [cbn|done]. apply IH; [by eapply apply_inv | by eapply apply_superseded].
Qed.

End Superseded.

(** C5: a query change supersedes all older work.  Whatever calls follow it,
    other query changes included, until the next tick every request in flight is
    cancelled, no result batch of any plugin and generation is admitted and no
    completion counts as accepted. *)
Theorem query_change_supersedes to_lowercase c s query now :
  request_queue_capacity c <= usize_max -> reachable to_lowercase c s ->
  is_shutdown s = false -> current_generation s < u64_max ->
  exists s', submit_query to_lowercase s query now = Some (s', current_generation s + 1) /\
    current_generation s' = current_generation s + 1 /\
    forall ops s'', Forall (fun o => is_tick o = false) ops -> run to_lowercase s' ops = Some s'' ->
      (forall p st, plugins s'' !! p = Some st ->
         Forall (fun r => is_some (f_cancel_reason r) = true) (in_flight st)) /\
      (forall p g items completion t,
         snd <$> record_result_batch s'' p g items completion t = Some StaleRejected) /\
      (forall p g t, (complete s'' p g t).2 <> CompletionAccepted).
Proof.
  intros Hc Hr Hs Hg. pose proof (reachable_inv _ _ _ Hc Hr) as H. pose proof H as [Hi Hl].
  destruct (submit_query_spec to_lowercase query now s Hi Hl Hg) as (s' & E & Hi' & Hl' & _ & Hg' & _).
  exists s'. split_and_all; [done..|]. intros ops s'' Hops Hrun.
  destruct (run_superseded to_lowercase s' ops s'') as [Hi2 Hs2]; [by split | by eapply submit_superseded | done | done |].
  split_and_all; [exact Hs2| |].
  - intros p g items completion t. destruct (record_result_batch_spec s'' p g items completion t Hi2)
      as (s2 & -> & _). cbn. unfold admission, admissible.
    destruct (plugins s'' !! p) as [st|] eqn:Hp; cbn; [|by rewrite andb_false_r].
    rewrite unusable_cancelled, andb_false_r by (by apply (Hs2 p)). done.
  - intros p g t. apply complete_cancelled. intros st Hp. by apply (Hs2 p).
Qed.

(** A second query change, a completion and a result after the first. *)
Definition quiet_ops : list op := [OpComplete "legacy" 1 35; OpSubmit (ascii "fires") 40; OpBatch "legacy" 1 3 BatchPartial 45]%string.

Lemma query_change_supersedes_witness :
  exists s' s'', submit_query lower sample_running (ascii "fire") 30 = Some (s', 2) /\ run lower s' quiet_ops = Some s'' /\
    forall p g t, (complete s'' p g t).2 <> CompletionAccepted.
Proof.
  pose proof (query_change_supersedes lower sample_config sample_running (ascii "fire") 30
    ltac:(vm_compute; discriminate) sample_running_reachable ltac:(vm_compute; reflexivity)
    ltac:(vm_compute; reflexivity)) as (s' & H1 & _ & H3).
  exists s', (default s' (run lower s' quiet_ops)).
  assert (Hrun : run lower s' quiet_ops = Some (default s' (run lower s' quiet_ops))).
  { assert (E : s' = default s' (fst <$> submit_query lower sample_running (ascii "fire") 30)) by (by rewrite H1).
    rewrite E. vm_compute. reflexivity. }
  split; [exact H1|]. split; [exact Hrun|]. apply (H3 quiet_ops); [repeat constructor | exact Hrun].
Defined.

(** C3: when the global bound is at least the number of plugins, a query
    change acts on every registered plugin exactly once and on each as if it
    were alone: a gated plugin loses its waiting and running work, any other
    plugin's running requests are cancelled and it waits with exactly the
    request its debounce policy asks for, whatever the order of registration
    and whatever the queues held before. *)
Theorem query_change_per_plugin to_lowercase c s query now :
  request_queue_capacity c <= usize_max -> reachable to_lowercase c s ->
  is_shutdown s = false -> current_generation s < u64_max ->
  len (plugin_order s) <= request_queue_capacity (config s) ->
  exists s', submit_query to_lowercase s query now = Some (s', current_generation s + 1) /\
    plugin_order s' = plugin_order s /\
    forall p st, plugins s !! p = Some st ->
      erase <$> plugins s' !! p =
      Some (erase (after_submit to_lowercase query (current_generation s + 1) (clock s now) (freed st))).
Proof.
  intros Hc Hr Hs Hg Hroom. destruct (reachable_inv _ _ _ Hc Hr) as [Hi Hl].
  destruct (submit_query_spec to_lowercase query now s Hi Hl Hg)
    as (s' & E & Hi' & Hl' & _ & _ & Ho & _ & _ & Hall). specialize (Hall Hs).
  exists s'. split_and_all; [done..|]. intros p st Hp. destruct (Hall p st Hp) as (full & He & Hf).
  rewrite He. do 2 f_equal. apply after_query_room; [apply freed_ready| |auto].
  pose proof (pi_capacity _ _ (ci_plugins _ Hi p st Hp)). unfold freed. by case_match.
Qed.

Lemma query_change_per_plugin_witness :
  exists s', submit_query lower sample_running (ascii "fire") 30 = Some (s', 2) /\
    plugin_order s' = ["legacy"; "web"]%string.
Proof.
  pose proof (query_change_per_plugin lower sample_config sample_running (ascii "fire") 30
    ltac:(vm_compute; discriminate) sample_running_reachable ltac:(vm_compute; reflexivity)
    ltac:(vm_compute; reflexivity) ltac:(vm_compute; discriminate)) as (s' & H1 & H2 & _).
  exists s'. split; [exact H1 | exact H2].
Defined.

Lemma after_submit_legacy to_lowercase query g at_ st :
  enabled st = true -> profile (policy st) = LegacyStrict ->
  let st' := after_submit to_lowercase query g at_ st in
  policy st' = policy st /\ queue st' = [mkPending g query true None None] /\
  len (in_flight st') = len (in_flight st).
Proof.
  intros He Hp. unfold after_submit, gate_reason. rewrite He, Hp. cbn [negb allows_host_gating].
  destruct (prepare_request_fields (cancelled_flights QueryChanged st) g at_) as (Hpol & _ & _ & Hf & _).
  unfold prepare_request in *. cbv zeta in *.
  destruct (end_quiet_burst_fields (cancelled_flights QueryChanged st) at_) as (Hpol' & _).
  cbn [policy update] in *. rewrite Hpol' in *. cbn [cancelled_flights policy update] in *. rewrite Hp in *.
  cbn [negb allows_time_debounce fst] in *.
  split_and_all; [done | done|]. change (len (in_flight (end_quiet_burst (cancelled_flights QueryChanged st) at_)) = len (in_flight st)).
  cbn in Hf. rewrite Hf. cbn. by rewrite <- (len_map f_generation), cancel_in_flight_generations, len_map.
Qed.

(** A strict legacy plugin is never gated and never delayed: after any
    query change an enabled one waits with exactly the newest query, ready at
    once, and offers it to the next tick as soon as its callback is idle. *)
Theorem legacy_strict_always_served to_lowercase c s query now p st :
  request_queue_capacity c <= usize_max -> reachable to_lowercase c s ->
  is_shutdown s = false -> current_generation s < u64_max ->
  len (plugin_order s) <= request_queue_capacity (config s) ->
  plugins s !! p = Some st -> enabled st = true -> profile (policy st) = LegacyStrict ->
  let g := current_generation s + 1 in
  exists s' st', submit_query to_lowercase s query now = Some (s', g) /\
    plugins s' !! p = Some st' /\ queue st' = [mkPending g query true None None] /\
    forall t, offer s' t p = if len (in_flight st) =? 0 then Some (mkDispatched p g query t) else None.
Proof.
  intros Hc Hr Hs Hg Hroom Hp He Hprof g. destruct (reachable_inv _ _ _ Hc Hr) as [Hi Hl].
  destruct (submit_query_spec to_lowercase query now s Hi Hl Hg)
    as (s' & E & _ & _ & _ & _ & _ & _ & _ & Hall). destruct (Hall Hs p st Hp) as (full & Hst & Hf).
  assert (Hrepl : effective_queue_policy (policy st) = ReplaceOldest)
    by (unfold effective_queue_policy; by rewrite decide_True).
  assert (Hfr : freed st = st) by (unfold freed; by rewrite bool_decide_eq_true_2).
  rewrite Hfr in *. rewrite after_query_room in Hst; [| by left | apply (ci_plugins _ Hi p st Hp) | auto].
  apply fmap_Some in Hst as (st' & Hp' & Hst'). exists s', st'. split_and_all; [done..| |]; subst g.
  all: destruct (after_submit_legacy to_lowercase query (current_generation s + 1) (clock s now) st He Hprof) as (H1 & H2 & H3).
  all: apply erase_fields in Hst' as (Hpol & _ & _ & _ & Hq & Hfl & _).
  - by rewrite <- Hq.
  - intros t. unfold offer, offer_of. rewrite Hp'. cbn [mbind option_bind].
    rewrite <- Hq, <- Hfl, <- Hpol, H2, H1, H3. unfold effective_concurrency_limit.
    rewrite decide_True by done. pose proof (len_nonneg (in_flight st)).
    destruct (Z.leb_spec 1 (len (in_flight st))), (Z.eqb_spec (len (in_flight st)) 0); done || lia.
Qed.

Lemma legacy_strict_always_served_witness :
  exists s' st', submit_query lower sample (ascii "fire") 30 = Some (s', 2) /\
    plugins s' !! "legacy"%string = Some st' /\
    queue st' = [mkPending 2 (ascii "fire") true None None].
Proof.
  pose proof (legacy_strict_always_served lower sample_config sample (ascii "fire") 30 "legacy"
    (default (new_plugin_state modern) (plugins sample !! "legacy"%string))
    ltac:(vm_compute; discriminate) sample_reachable ltac:(vm_compute; reflexivity)
    ltac:(vm_compute; reflexivity) ltac:(vm_compute; discriminate) ltac:(vm_compute; reflexivity)
    ltac:(vm_compute; reflexivity) ltac:(vm_compute; reflexivity)) as (s' & st' & H1 & H2 & H3 & _).
  exists s', st'. split; [exact H1 | split; [exact H2 | exact H3]].
Defined.

(** * Ticks *)

(** C7: what a tick dispatches, in closed form.  The obsolete requests of all
    plugins are dropped and the elapsed deadlines applied; then the plugins are
    asked in rotation order from the cursor, and the tick dispatches the first
    [dispatch_budget_per_tick] offers.  Exactly the plugins served move their
    request in flight; no other plugin's state changes any further. *)
Theorem tick_dispatches_rotation to_lowercase c s now :
  request_queue_capacity c <= usize_max -> reachable to_lowercase c s -> is_shutdown s = false ->
  let at_ := clock s now in
  let ready p := offer (prepared s at_) at_ p in
  let dispatched := take (Z.to_nat (dispatch_budget_per_tick (config s))) (omap ready (rotation s)) in
  exists s', tick s now = Some (s', dispatched) /\
    plugin_order s' = plugin_order s /\ generations s' = generations s /\
    forall p, erase <$> plugins s' !! p =
      erase <$> ((fun st =>
        let st := prepared_state (current_generation s) at_ st in
        if bool_decide (p ∈ map dispatched_plugin dispatched) then dispatched_state at_ st else st)
        <$> plugins s !! p).
Proof.
  intros Hc Hr Hs at_ ready dispatched. destruct (reachable_inv _ _ _ Hc Hr) as [Hi Hl].
  destruct (tick_spec s now Hi Hl Hs) as (s' & E & _ & _ & _ & Hg & Ho & _ & _ & _ & Hp & _).
  exists s'. split_and_all; [exact E | done | done|]. intros p.
  rewrite <- lookup_fmap, Hp, lookup_fmap, on_plugins_lookup. unfold prepared. rewrite map_plugins_lookup.
  by destruct (plugins s !! p).
Qed.

Lemma tick_dispatches_rotation_witness :
  exists s', tick sample 20 = Some (s', [mkDispatched "legacy" 1 (ascii "fir") 20]).
Proof.
  pose proof (tick_dispatches_rotation lower sample_config sample 20
    ltac:(vm_compute; discriminate) sample_reachable ltac:(vm_compute; reflexivity)) as (s' & H & _).
  exists s'. rewrite H. vm_compute. reflexivity.
Defined.

Lemma reclaimed_current g st :
  Forall (fun r => p_generation r = g) (queue (reclaimed g st)).
Proof.
  cbn. induction (queue st) as [|r q IH]; simpl; [constructor|].
  destruct (Z.eqb_spec (p_generation r) g); [by constructor | done].
Qed.

Lemma prepared_current g now st : Forall (fun r => p_generation r = g) (queue (prepared_state g now st)).
Proof.
  destruct (ripened_fields now (reclaimed g st)) as (_ & _ & _ & _ & _ & Hq). unfold prepared_state.
  rewrite Hq. apply (List.Forall_map p_generation (fun x => x = g)). rewrite ripen_generations.
  apply List.Forall_map, reclaimed_current.
Qed.

Lemma prepared_state_fields g now st :
  let st' := prepared_state g now st in
  policy st' = policy st /\ enabled st' = enabled st /\ in_flight st' = in_flight st.
Proof.
  destruct (ripened_fields now (reclaimed g st)) as (H1 & H2 & H3 & _). unfold prepared_state.
  cbv zeta. by rewrite H1, H2, H3.
Qed.

Lemma offer_prepared s now p r :
  offer (prepared s now) now p = Some r ->
  exists st, plugins s !! p = Some st /\ dispatched_plugin r = p /\
    dispatched_generation r = current_generation s /\ dispatched_time r = now /\
    len (in_flight st) < effective_concurrency_limit (policy st) /\ queue st <> [].
Proof.
  intros Ho. pose proof (offer_plugin _ _ _ _ Ho) as Hp. revert Ho. unfold offer, prepared.
  rewrite map_plugins_lookup. destruct (plugins s !! p) as [st|]; cbn [fmap option_fmap option_map mbind option_bind]; [|done].
  destruct (prepared_state_fields (current_generation s) now st) as (H1 & _ & H3).
  pose proof (prepared_current (current_generation s) now st) as Hcur.
  unfold offer_of. rewrite H1, H3.
  destruct (Z.leb_spec (effective_concurrency_limit (policy st)) (len (in_flight st))); [done|].
  destruct (queue (prepared_state _ now st)) as [|q rest] eqn:Hq; [done|].
  apply Forall_cons in Hcur as [Hcur _]. destruct (p_ready q); [|done]. intros [= <-].
  exists st. split_and_all; try done. intros Hn. unfold prepared_state in Hq.
  destruct (ripened_fields now (reclaimed (current_generation s) st)) as (_ & _ & _ & _ & _ & Hq').
  rewrite Hq' in Hq. cbn in Hq. by rewrite Hn in Hq.
Qed.

Lemma round_NoDup s now b ps : NoDup ps -> NoDup (map dispatched_plugin (round s now b ps)).
Proof.
  intros Hnd. unfold round. rewrite <- firstn_map. apply (sublist_NoDup _ (map dispatched_plugin (omap (offer s now) ps)));
    [|apply sublist_take].
  induction Hnd as [|p ps Hp Hnd IH]; [constructor|]. cbn. destruct (offer s now p) as [r|] eqn:E; [|done].
  cbn. constructor; [|done]. rewrite (offer_plugin _ _ _ _ E).
  intros (r' & Hr' & (p' & Hp' & Ho')%list_elem_of_omap)%list_elem_of_fmap.
  rewrite (offer_plugin _ _ _ _ Ho') in Hr'. congruence.
Qed.

(** A tick adds at most one running request to a plugin, and only below its
    limit. *)
Lemma tick_flights s at_ p st st' :
  core_inv s -> plugins s !! p = Some st ->
  erase st' = erase (let st := prepared_state (current_generation s) at_ st in
    if bool_decide (p ∈ map dispatched_plugin (tick_round s at_)) then dispatched_state at_ st else st) ->
  policy st' = policy st /\
  len (in_flight st') <= Z.max (len (in_flight st)) (effective_concurrency_limit (policy st)).
Proof.
  intros Hi Hp He. destruct (prepared_state_fields (current_generation s) at_ st) as (H1 & _ & H3).
  apply erase_fields in He as (Hpol & _ & _ & _ & _ & Hfl & _). rewrite Hpol, Hfl. cbv zeta.
  case_bool_decide as Hin; [|rewrite H1, H3; split; [done | lia]].
  apply list_elem_of_fmap in Hin as (r & Hr & Hin). apply (subseteq_take _ _ r) in Hin.
  apply list_elem_of_omap in Hin as (p' & _ & Ho). pose proof (offer_plugin _ _ _ _ Ho) as Hp'.
  destruct (offer_prepared _ _ _ _ Ho) as (st0 & Hst0 & _ & _ & _ & Hlt & _).
  assert (st0 = st) as -> by congruence.
  unfold dispatched_state. destruct (queue (prepared_state _ _ _)); [rewrite H1, H3; split; [done | lia]|].
  cbn. rewrite H1, H3, len_snoc. split; [done | lia].
Qed.

(** C26: every request a tick hands out is fresh and allowed: at most
    [dispatch_budget_per_tick] requests, at most one per plugin, each of the
    current generation, stamped with the tick's time and for a registered,
    enabled plugin that runs fewer requests than its concurrency limit; and no
    tick pushes a plugin's running requests over that limit. *)
Theorem tick_respects_limits to_lowercase c s now s' dispatched :
  request_queue_capacity c <= usize_max -> reachable to_lowercase c s ->
  tick s now = Some (s', dispatched) ->
  len dispatched <= dispatch_budget_per_tick (config s) /\
  NoDup (map dispatched_plugin dispatched) /\
  (forall r, r ∈ dispatched ->
     dispatched_generation r = current_generation s /\ dispatched_time r = clock s now /\
     exists st, plugins s !! dispatched_plugin r = Some st /\ enabled st = true /\
       len (in_flight st) < effective_concurrency_limit (policy st)) /\
  (forall p st, plugins s !! p = Some st -> exists st', plugins s' !! p = Some st' /\
     len (in_flight st') <= Z.max (len (in_flight st)) (effective_concurrency_limit (policy st))).
Proof.
  intros Hc Hr E. destruct (reachable_inv _ _ _ Hc Hr) as [Hi Hl].
  pose proof (normalized_config _ (ci_config _ Hi)) as (_ & _ & _ & Hb & _).
  destruct (is_shutdown s) eqn:Hs.
  { unfold tick, observe_now in E. cbn [is_shutdown update] in E. rewrite Hs in E. simplify_eq.
    rewrite len_nil. split_and_all; [lia | constructor | by intros ? ?%elem_of_nil|].
    intros p st Hp. exists st. split; [done | lia]. }
  destruct (tick_spec s now Hi Hl Hs) as (s1 & E1 & _ & _ & _ & _ & _ & _ & _ & _ & Hp & _).
  rewrite E in E1. injection E1 as <- ->. split_and_all.
  - unfold tick_round, round, len. rewrite length_take. lia.
  - apply round_NoDup, rotation_NoDup, (ci_order_nodup _ Hi).
  - intros r Hin. apply (subseteq_take _ _ r) in Hin. apply list_elem_of_omap in Hin as (p & _ & Ho).
    destruct (offer_prepared _ _ _ _ Ho) as (st & Hst & -> & -> & -> & Hlt & Hq).
    split_and_all; [done..|]. exists st. split_and_all; [done | | done].
    destruct (enabled st) eqn:He; [done|]. by destruct (pi_disabled _ _ (ci_plugins _ Hi _ _ Hst) He).
  - intros p st Hst. pose proof (f_equal (lookup p) Hp) as Hpp.
    rewrite !lookup_fmap, on_plugins_lookup in Hpp. unfold prepared in Hpp. rewrite map_plugins_lookup, Hst in Hpp.
    apply fmap_Some in Hpp as (st' & Hst' & He). exists st'. split; [done|].
    by apply (tick_flights s (clock s now) p st st' Hi Hst).
Qed.

Lemma tick_respects_limits_witness : len [mkDispatched "legacy" 1 (ascii "fir") 20] <= 1.
Proof.
  pose proof (tick_respects_limits lower sample_config sample 20 sample_running
    [mkDispatched "legacy" 1 (ascii "fir") 20]
    ltac:(vm_compute; discriminate) sample_reachable ltac:(vm_compute; reflexivity)) as (H & _).
  exact H.
Defined.

(** * Fairness *)

Lemma prepared_erase g now st st' :
  erase st = erase st' -> erase (prepared_state g now st) = erase (prepared_state g now st').
Proof. intros H. by apply ripened_erase, reclaimed_erase. Qed.

(** A plugin that could be served stays ready until it is. *)
Lemma offer_persists g at_ t p st st' :
  is_Some (offer_of at_ p (prepared_state g at_ st)) ->
  erase st' = erase (prepared_state g at_ st) -> is_Some (offer_of t p (prepared_state g t st')).
Proof.
  intros Hs He. rewrite (offer_of_erase t p _ _ (prepared_erase g t _ _ He)).
  set (st1 := prepared_state g at_ st) in *. pose proof (prepared_current g at_ st : Forall _ (queue st1)) as Hg.
  destruct (prepared_state_fields g t st1) as (H1 & _ & H3). unfold offer_of in *. rewrite H1, H3.
  destruct (_ <=? _); [done|]. destruct (queue st1) as [|r q] eqn:Hq; [by destruct Hs|].
  destruct (p_ready r) eqn:Er; [|by destruct Hs]. apply Forall_cons in Hg as [Hg _].
  destruct (ripened_fields t (reclaimed g st1)) as (_ & _ & _ & _ & _ & Hq'). unfold prepared_state.
  rewrite Hq'. cbn. rewrite Hq. simpl. rewrite (proj2 (Z.eqb_eq _ _) Hg). simpl.
  destruct (ripen t (List.filter _ q)) as [q1 due].
  rewrite Er. cbn [negb andb fst]. rewrite Er. eauto.
Qed.

(** Where a budgeted round stops. *)
Lemma round_stops s now b ps i p r :
  0 < b -> ps !! i = Some p -> offer s now p = Some r -> r ∉ round s now b ps ->
  exists k q r', (k < i)%nat /\ ps !! k = Some q /\ offer s now q = Some r' /\ last (round s now b ps) = Some r'.
Proof.
  revert b i. induction ps as [|x ps IH]; intros b i Hb Hi Ho Hn; [done|].
  destruct i as [|i]; simpl in Hi; simplify_eq.
  { rewrite (round_cons_Some _ _ _ _ _ r) in Hn by done. contradict Hn. by left. }
  destruct (offer s now x) as [rx|] eqn:Hx.
  - rewrite (round_cons_Some _ _ _ _ _ rx) in * by done. destruct (decide (b = 1)) as [-> | Hb1].
    + rewrite round_none by lia. exists 0%nat, x, rx. split_and_all; [lia | done..].
    + apply not_elem_of_cons in Hn as [_ Hn].
      destruct (IH (b - 1) i ltac:(lia) Hi Ho Hn) as (k & q & r' & Hk & Hq & Hr' & Hl).
      exists (S k), q, r'. split_and_all; [lia | done | done|].
      rewrite last_cons, Hl. done.
  - rewrite round_cons_None in * by done. destruct (IH b i Hb Hi Ho Hn) as (k & q & r' & Hk & ?).
    exists (S k), q, r'. split; [lia | done].
Qed.

(** Moving the cursor past position [k] brings every later plugin closer. *)
Lemma rotation_closer s s' i k p q ix :
  0 <= round_robin_cursor s -> NoDup (plugin_order s) -> plugin_order s' = plugin_order s ->
  rotation s !! i = Some p -> rotation s !! k = Some q -> (k < i)%nat ->
  0 <= ix < len (plugin_order s) -> plugin_order s !! Z.to_nat ix = Some q ->
  round_robin_cursor s' = (ix + 1) mod len (plugin_order s) ->
  rotation s' !! (i - k - 1)%nat = Some p.
Proof.
  intros Hc Hnd Ho Hi Hk Hki Hix Hq Hc'. unfold rotation in *. rewrite Ho, Hc'.
  apply lookup_rotate_r_Some in Hi as [Hi Hil]. apply lookup_rotate_r_Some in Hk as [Hk Hkl].
  pose proof (NoDup_lookup _ _ _ _ Hnd Hq Hk) as Heq. unfold rotate_nat_add in Heq, Hi.
  rewrite Z2Nat.id in Heq, Hi by done. fold (len (plugin_order s)) in Heq, Hi.
  assert (Hpos : 0 < len (plugin_order s)) by lia.
  pose proof (Z.mod_pos_bound (round_robin_cursor s + Z.of_nat k) _ Hpos).
  apply Z2Nat.inj in Heq; [|lia..]. apply lookup_rotate_r_Some. split; [|lia].
  rewrite <- Hi. f_equal. unfold rotate_nat_add. fold (len (plugin_order s)).
  rewrite Z2Nat.id by (apply Z.mod_pos_bound; lia). f_equal.
  rewrite Zplus_mod_idemp_l, Heq.
  replace ((round_robin_cursor s + Z.of_nat k) mod len (plugin_order s) + 1 + Z.of_nat (i - k - 1))
    with ((round_robin_cursor s + Z.of_nat k) mod len (plugin_order s) + (Z.of_nat i - Z.of_nat k)) by lia.
  rewrite Zplus_mod_idemp_l. f_equal. lia.
Qed.

Lemma served_or_closer s now i p :
  core_inv s -> log_inv s -> is_shutdown s = false -> rotation s !! i = Some p ->
  is_Some (offer (prepared s (clock s now)) (clock s now) p) ->
  exists s' ds, tick s now = Some (s', ds) /\ core_inv s' /\ log_inv s' /\ is_shutdown s' = false /\
    (p ∈ map dispatched_plugin ds \/
     exists j, (j < i)%nat /\ rotation s' !! j = Some p /\
       forall t, is_Some (offer (prepared s' t) t p)).
Proof.
  intros Hi Hl Hs Hrot [r Hr].
  destruct (tick_spec s now Hi Hl Hs) as (s' & E & Hi' & Hl' & _ & Hg & Ho & Hs' & _ & _ & Hp & Hcur).
  exists s', (tick_round s (clock s now)). split_and_all; try done.
  destruct (decide (p ∈ map dispatched_plugin (tick_round s (clock s now)))) as [?|Hn]; [by left | right].
  assert (Hin : r ∉ tick_round s (clock s now)).
  { intros Hin. apply Hn. apply list_elem_of_fmap. exists r. by rewrite (offer_plugin _ _ _ _ Hr). }
  pose proof (normalized_config _ (ci_config _ Hi)) as (_ & _ & _ & Hb & _).
  destruct (round_stops (prepared s (clock s now)) (clock s now) (dispatch_budget_per_tick (config s))
    (rotation s) i p r ltac:(lia) Hrot Hr Hin) as (k & q & r' & Hk & Hq & Hr' & Hlast).
  unfold next_cursor in Hcur. unfold tick_round in Hcur. rewrite Hlast in Hcur.
  destruct Hcur as (ix & Hix & Hoix & Hc').
  { intros E0. by rewrite rotation_nil in Hrot. }
  rewrite (offer_plugin _ _ _ _ Hr') in Hoix. exists (i - k - 1)%nat. split_and_all; [lia| |].
  - by eapply rotation_closer; eauto; apply Hi.
  - intros t. pose proof (f_equal (lookup p) Hp) as Hpp.
    rewrite !lookup_fmap, on_plugins_lookup, bool_decide_eq_false_2 in Hpp by done.
    unfold prepared in Hpp, Hr. unfold offer in Hr. rewrite map_plugins_lookup in Hpp, Hr.
    destruct (plugins s !! p) as [st|]; [|done]. cbn [fmap option_fmap option_map mbind option_bind] in Hpp, Hr.
    apply fmap_Some in Hpp as (st' & Hst' & He). unfold offer, prepared. rewrite map_plugins_lookup, Hst'.
    cbn [fmap option_fmap option_map mbind option_bind].
    assert (current_generation s' = current_generation s) as -> by (unfold current_generation; by rewrite Hg).
    eapply offer_persists; [eauto | by symmetry].
Qed.

(** Ticks at the given times, and what each dispatches. *)
Fixpoint ticks (s : QueryScheduler) (nows : list Millis)
    : option (QueryScheduler * list (list DispatchedRequest)) :=
  match nows with
  | [] => Some (s, [])
  | now :: nows' =>
      '(s1, ds) ← tick s now;
      '(s2, rest) ← ticks s1 nows';
      Some (s2, ds :: rest)
  end.

Lemma ticks_serve s nows i p :
  core_inv s -> log_inv s -> is_shutdown s = false -> rotation s !! i = Some p ->
  (i < length nows)%nat ->
  (forall now, head nows = Some now -> is_Some (offer (prepared s (clock s now)) (clock s now) p)) ->
  exists s' rounds, ticks s nows = Some (s', rounds) /\
    exists k ds, (k <= i)%nat /\ rounds !! k = Some ds /\ p ∈ map dispatched_plugin ds.
Proof.
  revert s i. induction nows as [|now nows IH]; intros s i Hi Hl Hs Hrot Hlen Hoff; [simpl in Hlen; lia|].
  destruct (served_or_closer s now i p Hi Hl Hs Hrot (Hoff now eq_refl))
    as (s1 & ds & E & Hi1 & Hl1 & Hs1 & Hcase). cbn [ticks]. rewrite E. cbn [mbind option_bind].
  assert (Htot : forall l s0, core_inv s0 -> log_inv s0 -> exists s2 rest, ticks s0 l = Some (s2, rest)).
  { clear. induction l as [|t l IHl]; intros s0 H1 H2; [by eauto|]. cbn [ticks].
    destruct (tick_total s0 t) as (s3 & d & -> & [H3 H4]); [by split|]. cbn [mbind option_bind].
    destruct (IHl s3 H3 H4) as (s4 & rest & ->). cbn. eauto. }
  destruct Hcase as [Hin | (j & Hj & Hrot1 & Hoff1)].
  - destruct (Htot nows s1 Hi1 Hl1) as (s2 & rest & ->). cbn. do 2 eexists. split; [done|].
    exists 0%nat, ds. split_and_all; [lia | done | done].
  - simpl in Hlen. destruct (IH s1 j Hi1 Hl1 Hs1 Hrot1 ltac:(lia)) as (s2 & rest & -> & k & ds' & Hk & Hds & Hin).
    { intros t _. apply Hoff1. }
    cbn. do 2 eexists. split; [done|]. exists (S k), ds'. split_and_all; [lia | done | done].
Qed.

(** C14: no plugin starves.  A plugin at position [i] of the rotation that has
    a request to hand over is served within the next [i + 1] ticks, hence
    within as many ticks as there are plugins, whatever the per-tick budget and
    whatever the other plugins have waiting. *)
Theorem rotation_never_starves to_lowercase c s nows i p now0 :
  request_queue_capacity c <= usize_max -> reachable to_lowercase c s -> is_shutdown s = false ->
  rotation s !! i = Some p -> (i < length nows)%nat -> head nows = Some now0 ->
  is_Some (offer (prepared s (clock s now0)) (clock s now0) p) ->
  (i < length (plugin_order s))%nat /\
  exists s' rounds, ticks s nows = Some (s', rounds) /\
    exists k ds, (k <= i)%nat /\ rounds !! k = Some ds /\ p ∈ map dispatched_plugin ds.
Proof.
  intros Hc Hr Hs Hrot Hlen Hh Hoff. destruct (reachable_inv _ _ _ Hc Hr) as [Hi Hl].
  split; [apply lookup_lt_Some in Hrot; unfold rotation in Hrot; by rewrite length_rotate in Hrot|].
  eapply ticks_serve; eauto. intros now Hn. by simplify_eq.
Qed.

(** Both plugins are ready, the budget is one request per tick. *)
Definition contended_ops : list op :=
  [OpRegister "a" legacy_strict; OpRegister "b" legacy_strict; OpSubmit (ascii "q") 10].

Definition sample_contended : QueryScheduler :=
  default (new sample_config) (run lower (new sample_config) contended_ops).

Lemma sample_contended_reachable : reachable lower sample_config sample_contended.
Proof.
  eapply (reachable_run lower sample_config (new sample_config) contended_ops); [constructor|].
  vm_compute. reflexivity.
Qed.

Lemma rotation_never_starves_witness :
  exists s' rounds, ticks sample_contended [20; 30] = Some (s', rounds) /\
    exists k ds, (k <= 1)%nat /\ rounds !! k = Some ds /\ "b"%string ∈ map dispatched_plugin ds.
Proof.
  pose proof (rotation_never_starves lower sample_config sample_contended [20; 30] 1 "b" 20
    ltac:(vm_compute; discriminate) sample_contended_reachable ltac:(vm_compute; reflexivity)
    ltac:(vm_compute; reflexivity) ltac:(simpl; lia) ltac:(reflexivity)
    ltac:(exists (mkDispatched "b" 1 (ascii "q") 20); vm_compute; reflexivity)) as [_ H].
  exact H.
Defined.

(** * Wake-ups *)

(** A request that waits for its deadline. *)
Definition waiting (s : QueryScheduler) (p : PluginId) (r : PendingRequest) : Prop :=
  exists st, plugins s !! p = Some st /\ r ∈ queue st /\ p_ready r = false.

Lemma elem_of_wakeups s d :
  d ∈ wakeups s <-> exists p st r, plugins s !! p = Some st /\ enabled st = true /\ r ∈ queue st /\
    p_ready r = false /\ p_due_at r = Some d.
Proof.
  unfold wakeups. apply (map_fold_weak_ind (fun l (m : gmap PluginId PluginState) =>
    d ∈ l <-> exists p st r, m !! p = Some st /\ enabled st = true /\ r ∈ queue st /\
      p_ready r = false /\ p_due_at r = Some d)).
  - split; [by intros ?%elem_of_nil | intros (? & ? & ? & H & _); by rewrite lookup_empty in H].
  - intros p st m acc Hp IH. rewrite elem_of_app, IH. split.
    + intros [H | (p' & st' & r & Hp' & H)].
      * destruct (enabled st) eqn:E; [|by apply elem_of_nil in H].
        apply list_elem_of_omap in H as (r & Hr & Hd). destruct (p_ready r) eqn:Er; [done|].
        exists p, st, r. rewrite lookup_insert_eq. done.
      * exists p', st', r. rewrite lookup_insert_ne; [done|]. congruence.
    + intros (p' & st' & r & Hp' & He & Hr & Hrd & Hd). apply lookup_insert_Some in Hp' as [[<- <-] | [Hne Hp']].
      * left. rewrite He. apply list_elem_of_omap. exists r. by rewrite Hrd.
      * right. eauto 10.
Qed.

Lemma minimum_spec l :
  match minimum l with
  | None => l = []
  | Some w => w ∈ l /\ Forall (Z.le w) l
  end.
Proof.
  destruct l as [|x l]; [done|]. cbn. revert x. induction l as [|y l IH]; intros x; cbn.
  { split; [by left|]. by apply Forall_singleton. }
  destruct (IH (x `min` y)) as [Hin Hall]. apply Forall_cons in Hall as [Hm Hall]. split.
  - apply elem_of_cons in Hin as [-> | ?]; [|by right; right].
    destruct (Z.min_spec x y) as [[_ ->] | [_ ->]]; [by left | by right; left].
  - constructor; [lia|]. constructor; [lia | done].
Qed.

Lemma waiting_due s p r :
  core_inv s -> waiting s p r -> exists d, p_due_at r = Some d /\ d ∈ wakeups s.
Proof.
  intros Hi (st & Hp & Hr & Hrd). pose proof (ci_plugins _ Hi p st Hp) as [_ _ _ _ _ Hw Hdis].
  rewrite Forall_forall in Hw. specialize (Hw r Hr Hrd). destruct (p_due_at r) as [d|] eqn:Hd; [|done].
  exists d. split; [done|]. apply elem_of_wakeups. exists p, st, r. split_and_all; try done.
  destruct (enabled st) eqn:He; [done|]. destruct (Hdis eq_refl) as [Hq _]. rewrite Hq in Hr.
  by apply elem_of_nil in Hr.
Qed.

(** Where the requests waiting after a tick come from. *)
Lemma tick_waiting s now s' ds p r :
  core_inv s -> log_inv s -> is_shutdown s = false -> tick s now = Some (s', ds) -> waiting s' p r ->
  exists d, p_due_at r = Some d /\ clock s now < d.
Proof.
  intros Hi Hl Hs E (st' & Hp' & Hr & Hrd).
  destruct (tick_spec s now Hi Hl Hs) as (s1 & E1 & _ & _ & _ & _ & _ & _ & _ & _ & Hp & _).
  rewrite E in E1. injection E1 as <- ->. pose proof (f_equal (lookup p) Hp) as Hpp.
  rewrite !lookup_fmap, on_plugins_lookup in Hpp. unfold prepared in Hpp. rewrite map_plugins_lookup, Hp' in Hpp.
  destruct (plugins s !! p) as [st|] eqn:Hst; [|done]. cbn [fmap option_fmap option_map] in Hpp.
  apply (inj Some), erase_fields in Hpp as (_ & _ & _ & _ & Hq & _).
  pose proof (ci_plugins _ Hi p st Hst) as Hpi.
  assert (Hall : Forall (fun r => p_ready r = false -> exists d, p_due_at r = Some d /\ clock s now < d)
    (queue (prepared_state (current_generation s) (clock s now) st))).
  { unfold prepared_state. destruct (ripened_fields (clock s now) (reclaimed (current_generation s) st)) as (_ & _ & _ & _ & _ & ->).
    apply ripen_waiting. cbn. apply Forall_list_filter, (pi_wakeup _ _ Hpi). }
  rewrite Forall_forall in Hall. apply Hall; [|done]. rewrite Hq in Hr. revert Hr.
  case_bool_decide; [|done]. unfold dispatched_state.
  destruct (queue (prepared_state _ _ st)) eqn:Eq; [by rewrite Eq|]. cbn. by right.
Qed.

(** Wake-ups are complete, exact and productive.  With no wake-up time
    reported nothing waits for a deadline; otherwise the reported time is the
    earliest deadline of a waiting request; and right after a tick the next
    wake-up, if any, lies strictly in the future, so serving wake-ups neither
    loses a request nor spins. *)
Theorem next_wakeup_exact to_lowercase c s :
  request_queue_capacity c <= usize_max -> reachable to_lowercase c s -> is_shutdown s = false ->
  (match next_wakeup s with
   | None => forall p r, ~ waiting s p r
   | Some w => (exists p r, waiting s p r /\ p_due_at r = Some w) /\
               forall p r, waiting s p r -> exists d, p_due_at r = Some d /\ w <= d
   end) /\
  (forall now s' ds w, tick s now = Some (s', ds) -> next_wakeup s' = Some w -> clock s now < w).
Proof.
  intros Hc Hr Hs. destruct (reachable_inv _ _ _ Hc Hr) as [Hi Hl]. split.
  - unfold next_wakeup. rewrite Hs. pose proof (minimum_spec (wakeups s)) as Hm.
    destruct (minimum (wakeups s)) as [w|].
    + destruct Hm as [Hin Hall]. split.
      * apply elem_of_wakeups in Hin as (p & st & r & Hp & _ & Hrq & Hrd & Hd). exists p, r.
        split; [by exists st | done].
      * intros p r Hw. destruct (waiting_due s p r Hi Hw) as (d & Hd & Hin'). exists d. split; [done|].
        rewrite Forall_forall in Hall. by apply Hall.
    + intros p r Hw. destruct (waiting_due s p r Hi Hw) as (d & _ & Hin'). rewrite Hm in Hin'.
      by apply elem_of_nil in Hin'.
  - intros now s' ds w E Hw. unfold next_wakeup in Hw. destruct (is_shutdown s'); [done|].
    pose proof (minimum_spec (wakeups s')) as Hm. rewrite Hw in Hm. destruct Hm as [Hin _].
    apply elem_of_wakeups in Hin as (p & st & r & Hp & _ & Hrq & Hrd & Hd).
    destruct (tick_waiting s now s' ds p r Hi Hl Hs E ltac:(by exists st)) as (d & Hd' & ?). by simplify_eq.
Qed.


(** The second plugin waits for its trailing edge. *)
Definition deferred_ops : list op := [OpTick 20; OpTick 30; OpSubmit (ascii "fire") 40].

Definition sample_deferred : QueryScheduler := default sample (run lower sample deferred_ops).

Lemma sample_deferred_reachable : reachable lower sample_config sample_deferred.
Proof.
  eapply (reachable_run lower sample_config sample deferred_ops); [exact sample_reachable|].
  vm_compute. reflexivity.
Qed.

Lemma next_wakeup_exact_witness :
  next_wakeup sample_deferred = Some 90 /\ exists p r, waiting sample_deferred p r /\ p_due_at r = Some 90.
Proof.
  pose proof (next_wakeup_exact lower sample_config sample_deferred
    ltac:(vm_compute; discriminate) sample_deferred_reachable ltac:(vm_compute; reflexivity)) as [H _].
  assert (E : next_wakeup sample_deferred = Some 90) by (vm_compute; reflexivity).
  rewrite E in H. split; [exact E | exact (proj1 H)].
Defined.

(** * Shutdown *)

(** A scheduler that is shut down and holds no work. *)
Definition quiescent (s : QueryScheduler) : Prop :=
  is_shutdown s = true /\
  forall p st, plugins s !! p = Some st -> queue st = [] /\ in_flight st = [].

Lemma quiescent_sim s s' : sim s s' -> quiescent s -> quiescent s'.
Proof.
  intros Hs [Hsh Hq]. split; [by rewrite <- (sim_shutdown _ _ Hs)|]. intros p st Hp.
  destruct (sim_lookup_Some s' s p st ltac:(by symmetry) Hp) as (st0 & Hp0 & He).
  apply erase_fields in He as (_ & _ & _ & _ & -> & -> & _). eauto.
Qed.

#[export] Instance quiescent_proper : Proper (sim ==> iff) quiescent.
Proof. intros s s' Hs. split; apply quiescent_sim; [done | by symmetry]. Qed.

Lemma quiescent_set_plugin p st s :
  quiescent s -> queue st = [] -> in_flight st = [] -> quiescent (set_plugin p st s).
Proof.
  intros [Hsh Hq] H1 H2. split; [done|]. intros q st'. cbn. rewrite lookup_insert.
  case_decide; [intros; by simplify_eq | apply Hq].
Qed.

Lemma quiescent_with_plugin p f s :
  (forall st, queue st = [] -> in_flight st = [] -> queue (f st) = [] /\ in_flight (f st) = []) ->
  quiescent s -> quiescent (with_plugin p f s).
Proof.
  intros Hf Hs. destruct (plugins s !! p) as [st|] eqn:Hp; [|by rewrite with_plugin_None].
  rewrite (with_plugin_Some _ _ _ _ Hp). destruct Hs as [Hsh Hq]. destruct (Hq p st Hp) as [H1 H2].
  destruct (Hf st H1 H2). by apply quiescent_set_plugin.
Qed.

Lemma quiescent_invalidate s p reason now b :
  quiescent s -> quiescent (invalidate_plugin s p reason now b).1.
Proof.
  intros Hs. destruct (plugins s !! p) as [st|] eqn:Hp; [|by rewrite invalidate_plugin_None].
  rewrite invalidate_plugin_Some by done. pose proof Hs as [_ Hq]. destruct (Hq p st Hp) as [_ H2].
  apply quiescent_set_plugin; [done | done|]. cbn. by rewrite H2.
Qed.

Lemma quiescent_observe s now : quiescent s -> quiescent (observe_now s now).1.
Proof. intros [? ?]. by split. Qed.

Lemma quiescent_push_trace s e : quiescent s -> quiescent (push_trace s e).
Proof. by rewrite push_trace_sim. Qed.

Lemma quiescent_set_policy lower s p pol now : quiescent s -> quiescent (set_policy lower s p pol now).
Proof.
  intros Hs. apply (quiescent_observe s now) in Hs. unfold set_policy.
  destruct (observe_now s now) as [s1 now1]. destruct (plugins s1 !! p); [|done].
  match goal with |- context [invalidate_plugin s1 p ?r now1 true] =>
    pose proof (quiescent_invalidate s1 p r now1 true Hs); destruct (invalidate_plugin s1 p r now1 true) end.
  by apply quiescent_with_plugin.
Qed.

Lemma quiescent_disable s p now : quiescent s -> quiescent (disable_plugin s p now).
Proof.
  intros Hs. apply (quiescent_observe s now) in Hs. unfold disable_plugin.
  destruct (observe_now s now) as [s1 now1].
  pose proof (quiescent_invalidate s1 p CancelDisabled now1 true Hs).
  destruct (invalidate_plugin s1 p CancelDisabled now1 true). by apply quiescent_with_plugin.
Qed.

Lemma quiescent_complete s p g now :
  quiescent s -> complete s p g now = ((observe_now s now).1, CompletionUnknown).
Proof.
  intros Hs. apply (quiescent_observe s now) in Hs. unfold complete.
  destruct (observe_now s now) as [s1 now1]. destruct (plugins s1 !! p) as [st|] eqn:Hp; [|done].
  destruct Hs as [_ Hq]. destruct (Hq p st Hp) as [_ H2]. by rewrite H2.
Qed.

Lemma quiescent_admission s p g : quiescent s -> admission s p g = StaleRejected.
Proof.
  intros [_ Hq]. unfold admission, admissible. destruct (plugins s !! p) as [st|] eqn:Hp; cbn.
  - destruct (Hq p st Hp) as [_ H2]. unfold usable. by rewrite H2, andb_false_r.
  - by rewrite andb_false_r.
Qed.

Lemma quiescent_tick s now : quiescent s -> tick s now = Some ((observe_now s now).1, []).
Proof. intros [Hs _]. unfold tick, observe_now. cbn [is_shutdown update]. by rewrite Hs. Qed.

Lemma quiescent_batch s p g items c now s' a :
  quiescent s -> record_result_batch s p g items c now = Some (s', a) -> quiescent s'.
Proof.
  intros Hs. pose proof (quiescent_admission s p g Hs) as Ha. apply (quiescent_observe s now) in Hs.
  unfold record_result_batch, observe_now in *.
  change (current_generation (s <| last_now := _ |>)) with (current_generation s).
  cbn [plugins update]. rewrite <- negb_andb. unfold admission, admissible in Ha.
  destruct (_ && is_some_and _ _); cbn [negb] in *; [by destruct (has_room s)|].
  intros [= <- _]. simpl fst in Hs. by rewrite push_trace_sim, count_plugin_sim, count_sim.
Qed.

Lemma quiescent_submit lower s query now s' g :
  quiescent s -> submit_query lower s query now = Some (s', g) -> quiescent s'.
Proof.
  intros Hs. apply (quiescent_observe s now) in Hs. unfold submit_query.
  destruct (observe_now s now) as [s1 now1].
  destruct (GenerationTracker.advance (generations s1)) as [[t g1]|]; cbn [mbind option_bind]; [|done].
  match goal with |- context [push_trace ?s2 ?e] =>
    assert (Hq : quiescent (push_trace s2 e)) by (apply quiescent_push_trace; by destruct Hs) end.
  pose proof Hq as [Hsh _]. rewrite Hsh. intros [= <- _]. done.
Qed.

Lemma quiescent_apply lower s o s' : quiescent s -> apply lower s o = Some s' -> quiescent s'.
Proof.
  intros Hs. destruct o; cbn [apply].
  - intros [= <-]. unfold register_plugin. case_match; by apply quiescent_set_plugin.
  - intros [= <-]. unfold unregister_plugin. destruct (plugins s !! p); [|done].
    destruct Hs as [Hsh Hq]. split; [done|]. intros q st. cbn. rewrite lookup_delete_Some. intros [_ H]. eauto.
  - intros [= <-]. by apply quiescent_set_policy.
  - intros [= <-]. by apply quiescent_disable.
  - intros [= <-]. by apply quiescent_with_plugin, quiescent_observe.
  - destruct (submit_query lower s query now) as [[s1 g]|] eqn:E; [|done]. intros [= <-].
    by eapply quiescent_submit.
  - rewrite quiescent_tick by done. intros [= <-]. by apply (quiescent_observe s now).
  - intros [= <-]. rewrite quiescent_complete by done. by apply (quiescent_observe s now).
  - intros [= <-]. by apply quiescent_invalidate, quiescent_observe.
  - intros [= <-]. by destruct Hs.
  - intros [= <-]. unfold shutdown, observe_now. cbn [is_shutdown update].
    destruct Hs as [Hsh Hq]. rewrite Hsh. by split.
  - destruct (record_result_batch s p g items c now) as [[s1 a]|] eqn:E; [|done]. intros [= <-].
    by eapply quiescent_batch.
  - intros [= <-]. apply quiescent_push_trace. by destruct Hs.
  - intros [= <-]. apply quiescent_push_trace. by destruct Hs.
Qed.

Lemma shutdown_quiescent_state s now : inv s -> is_shutdown s = false -> quiescent (shutdown s now).
Proof.
  intros [Hi _] Hs. rewrite shutdown_sim by done. split; [done|]. intros p st. cbn. rewrite lookup_fmap.
  by intros (st0 & _ & ->)%fmap_Some.
Qed.

Lemma quiescent_run lower s ops s' : quiescent s -> run lower s ops = Some s' -> quiescent s'.
Proof.
  revert s. induction ops as [|o ops IH]; intros s Hs; simpl; [by intros [= <-]|].
  destruct (apply lower s o) as [s1|] eqn:E; simpl; [|done]. apply IH. by eapply quiescent_apply.
Qed.

(** Shutdown is final.  Whatever is called after it, in any order, no
    plugin ever has waiting or running work again: ticks dispatch nothing, no
    wake-up is scheduled, completions are unknown and result batches stale. *)
Theorem shutdown_is_final to_lowercase c s now ops s' :
  request_queue_capacity c <= usize_max -> reachable to_lowercase c s -> is_shutdown s = false ->
  run to_lowercase (shutdown s now) ops = Some s' ->
  is_shutdown s' = true /\
  (forall p st, plugins s' !! p = Some st -> queue st = [] /\ in_flight st = []) /\
  (forall t, snd <$> tick s' t = Some []) /\
  next_wakeup s' = None /\
  (forall p g t, (complete s' p g t).2 = CompletionUnknown) /\
  (forall p g, admission s' p g = StaleRejected).
Proof.
  intros Hc Hr Hs Hrun. pose proof (reachable_inv _ _ _ Hc Hr) as Hi.
  assert (Hq : quiescent s') by (eapply quiescent_run; [|exact Hrun]; by apply shutdown_quiescent_state).
  pose proof Hq as [Hsh Hall]. split_and_all; try done.
  - intros t. by rewrite quiescent_tick.
  - unfold next_wakeup. by rewrite Hsh.
  - intros p g t. by rewrite quiescent_complete.
  - intros p g. by apply quiescent_admission.
Qed.

Definition after_shutdown : list op :=
  [OpRegister "late" legacy_strict; OpSubmit (ascii "x") 60; OpTick 70; OpComplete "legacy" 1 80].

Lemma shutdown_is_final_witness :
  exists s', run lower (shutdown sample_running 50) after_shutdown = Some s' /\ next_wakeup s' = None.
Proof.
  eexists. split; [vm_compute; reflexivity|].
  apply (shutdown_is_final lower sample_config sample_running 50 after_shutdown _
    ltac:(vm_compute; discriminate) sample_running_reachable ltac:(vm_compute; reflexivity)).
  vm_compute. reflexivity.
Defined.
