(* ===== verification/SchedulerFlights.v ===== *)
(** The requests in flight, by plugin and generation: what each operation of
    the scheduler does to them, and that no plugin ever has two requests of one
    generation.  The pipeline's account of running work is built on this. *)

From S2P Require Import Prelude Text Generation Items Debounce LegacyDispatch SchedulerTypes Scheduler.
From S2P Require Import SchedulerInv SchedulerQuery SchedulerTick SchedulerFacts SchedulerClaims.

(** The generations a plugin is working on, in dispatch order. *)
Definition flights_of (st : PluginState) : list Generation := map f_generation (in_flight st).
Definition flights (s : QueryScheduler) (p : PluginId) : list Generation := map_or (plugins s !! p) [] flights_of.

(** One request per generation, and what waits is newer than what runs. *)
Record solo (st : PluginState) : Prop := {
  solo_flights : NoDup (flights_of st);
  solo_queue : forall r g, r ∈ queue st -> g ∈ flights_of st -> g < p_generation r;
}.

Definition flights_inv (s : QueryScheduler) : Prop := map_Forall (fun _ st => solo st) (plugins s).

Lemma solo_same st st' : queue st' = queue st -> flights_of st' = flights_of st -> solo st -> solo st'.
Proof. intros Hq Hf []. split; by rewrite ?Hq, ?Hf. Qed.

Lemma solo_idle st st' : queue st' = [] -> flights_of st' = flights_of st -> solo st -> solo st'.
Proof. intros Hq Hf []. split; [by rewrite Hf|]. rewrite Hq. by intros r g ?%elem_of_nil. Qed.

Lemma erase_flights st st' : erase st = erase st' -> flights_of st = flights_of st' /\ queue st = queue st'.
Proof. intros (_ & _ & _ & _ & -> & Hf & _)%erase_fields. unfold flights_of. by rewrite Hf. Qed.

(** States that agree up to reporting have the same flights. *)
Lemma erased_flights (m m' : gmap PluginId PluginState) p :
  erase <$> m !! p = erase <$> m' !! p -> map_or (m !! p) [] flights_of = map_or (m' !! p) [] flights_of.
Proof.
  destruct (m !! p), (m' !! p); simpl; try done. intros H. apply (inj Some) in H. by apply erase_flights in H as [-> _].
Qed.

Lemma sim_flights s s' p : sim s s' -> flights s p = flights s' p.
Proof. intros H. apply erased_flights, (sim_lookup _ _ p H). Qed.

Lemma sim_flights_inv s s' : sim s s' -> flights_inv s -> flights_inv s'.
Proof.
  intros Hs Hf p st Hp. symmetry in Hs. destruct (sim_lookup_Some _ _ _ _ Hs Hp) as (st0 & Hp0 & He).
  apply erase_flights in He as [He Hq]. eapply solo_same; [| | by apply (Hf p st0)]; done.
Qed.

#[export] Instance flights_inv_proper : Proper (sim ==> iff) flights_inv.
Proof. intros s s' Hs. split; apply sim_flights_inv; [done | by symmetry]. Qed.

Lemma set_plugin_flights p st s q :
  flights (set_plugin p st s) q = if decide (q = p) then flights_of st else flights s q.
Proof. unfold flights, set_plugin. cbn. rewrite lookup_insert. repeat case_decide; simplify_eq; done. Qed.

Lemma set_plugin_flights_inv p st s : flights_inv s -> solo st -> flights_inv (set_plugin p st s).
Proof. intros Hf Hs. by apply map_Forall_insert_2. Qed.

Section Operations.
Context (to_lowercase : text -> text).

(** A new plugin runs nothing. *)
Lemma register_flights s p pol q :
  plugins s !! p = None ->
  flights (register_plugin to_lowercase s p pol) q = flights s q.
Proof.
  intros Hp. unfold flights, register_plugin. rewrite Hp. cbn. rewrite lookup_insert.
  case_decide; [subst; by rewrite Hp | done].
Qed.

Lemma register_flights_inv s p pol : flights_inv s -> flights_inv (register_plugin to_lowercase s p pol).
Proof.
  intros Hf. unfold register_plugin.
  assert (Hn : forall s', plugins s' = plugins s ->
    flights_inv (s' <| plugins ::= insert p (new_plugin_state (normalize_policy to_lowercase pol)) |>)).
  { intros s' E. unfold flights_inv. cbn. rewrite E. apply map_Forall_insert_2; [|done].
    split; [constructor | by intros ? ? ?%elem_of_nil]. }
  by case_match; apply Hn.
Qed.

Lemma unregister_flights s p q :
  flights (unregister_plugin s p).1 q = if decide (q = p) then [] else flights s q.
Proof.
  unfold flights, unregister_plugin. destruct (plugins s !! p) eqn:Hp; cbn.
  - rewrite lookup_delete. repeat case_decide; simplify_eq; done.
  - case_decide; [by subst; rewrite Hp | done].
Qed.

Lemma unregister_flights_inv s p : flights_inv s -> flights_inv (unregister_plugin s p).1.
Proof.
  intros Hf. unfold unregister_plugin. destruct (plugins s !! p); [|done].
  apply map_Forall_delete, Hf.
Qed.

Lemma invalidated_solo reason b st : solo st -> solo (invalidated reason b st).
Proof. apply solo_idle; [done|]. unfold flights_of. cbn. apply cancel_in_flight_generations. Qed.

Lemma invalidate_flights s p reason now b q : flights (invalidate_plugin s p reason now b).1 q = flights s q.
Proof.
  destruct (plugins s !! p) as [st|] eqn:Hp; [|by rewrite invalidate_plugin_None].
  rewrite (sim_flights _ _ q (invalidate_plugin_Some s p reason now b st Hp)), set_plugin_flights.
  case_decide; [|done]. subst. unfold flights, flights_of. rewrite Hp. cbn. apply cancel_in_flight_generations.
Qed.

Lemma invalidate_flights_inv s p reason now b :
  flights_inv s -> flights_inv (invalidate_plugin s p reason now b).1.
Proof.
  intros Hf. destruct (plugins s !! p) as [st|] eqn:Hp; [|by rewrite invalidate_plugin_None].
  rewrite invalidate_plugin_Some by done. apply set_plugin_flights_inv; [done|].
  by apply invalidated_solo, (Hf p).
Qed.

(** An update of a plugin that leaves its requests alone. *)
Lemma with_plugin_flights p f s :
  (forall st, queue (f st) = queue st /\ in_flight (f st) = in_flight st) ->
  (forall q, flights (with_plugin p f s) q = flights s q) /\ (flights_inv s -> flights_inv (with_plugin p f s)).
Proof.
  intros Hf. destruct (plugins s !! p) as [st|] eqn:Hp; [|by rewrite with_plugin_None].
  rewrite (with_plugin_Some _ _ _ _ Hp). destruct (Hf st) as [Hq Hi]. split.
  - intros q. rewrite set_plugin_flights. case_decide; [|done]. subst. unfold flights, flights_of. by rewrite Hp, Hi.
  - intros H. apply set_plugin_flights_inv; [done|]. apply (solo_same st); [done | | by apply (H p)].
    unfold flights_of. by rewrite Hi.
Qed.

Lemma set_policy_flights s p pol now :
  (forall q, flights (set_policy to_lowercase s p pol now) q = flights s q)
  /\ (flights_inv s -> flights_inv (set_policy to_lowercase s p pol now)).
Proof.
  unfold set_policy, observe_now. destruct (plugins _ !! p); [|done].
  match goal with |- context [invalidate_plugin ?s1 _ ?r ?n1 _] =>
    pose proof (invalidate_flights s1 p r n1 true) as H1;
    pose proof (invalidate_flights_inv s1 p r n1 true) as H2;
    destruct (invalidate_plugin s1 p r n1 true) as [s2 gs] end.
  cbn [fst] in *. match goal with |- context [with_plugin p ?f s2] =>
    destruct (with_plugin_flights p f s2 (fun st => conj eq_refl eq_refl)) as [H3 H4] end.
  split; [intros q; by rewrite H3, H1 | intros Hf; apply H4, H2, Hf].
Qed.

Lemma remove_first_None {A} (f : A -> bool) l : remove_first f l = None -> Forall (fun x => f x = false) l.
Proof.
  induction l as [|x l IH]; simpl; [constructor|]. destruct (f x) eqn:E; [done|].
  destruct (remove_first f l) as [[? ?]|]; [done|]. constructor; auto.
Qed.

(** Completing a request removes its generation; the outcome says whether it
    was in flight. *)
Lemma complete_flights s p g now :
  flights_inv s ->
  flights_inv (complete s p g now).1
  /\ (forall q x, x ∈ flights (complete s p g now).1 q <-> x ∈ flights s q /\ ~ (q = p /\ x = g))
  /\ ((complete s p g now).2 <> CompletionUnknown <-> g ∈ flights s p).
Proof.
  intros Hf. unfold complete, observe_now. cbn [plugins update].
  assert (Hnone : g ∉ flights s p ->
    forall q x, x ∈ flights s q <-> x ∈ flights s q /\ ~ (q = p /\ x = g)) by naive_solver.
  destruct (plugins s !! p) as [st|] eqn:Hp.
  2: { assert (g ∉ flights s p) by (unfold flights; rewrite Hp; apply not_elem_of_nil).
       split; [exact Hf|]. split; [by apply Hnone | naive_solver]. }
  assert (Hfl : flights s p = flights_of st) by (unfold flights; by rewrite Hp).
  destruct (remove_first _ (in_flight st)) as [[r rest]|] eqn:Er.
  2: { assert (g ∉ flights s p).
       { rewrite Hfl. unfold flights_of. intros (x & Hx & Hin%list_elem_of_In)%list_elem_of_In%in_map_iff.
         apply remove_first_None in Er. rewrite Forall_forall in Er. apply Er in Hin. simpl in Hin. lia. }
       split; [exact Hf|]. split; [by apply Hnone | naive_solver]. }
  apply remove_first_Some in Er as (l1 & l2 & Hl & -> & Hg%Z.eqb_eq & _).
  assert (Hgen : flights_of st = map f_generation l1 ++ g :: map f_generation l2).
  { unfold flights_of. by rewrite Hl, map_app, <- Hg. }
  destruct (Hf p st Hp) as [Hnd Hq]. rewrite Hgen in Hnd.
  pose proof (NoDup_app (map f_generation l1) (g :: map f_generation l2)) as Hiff.
  apply Hiff in Hnd as (Hn1 & Hd & [Hn2 Hn3]%NoDup_cons).
  set (s2 := set_plugin p (st <| in_flight := l1 ++ l2 |>) (s <| last_now := Some (clock s now) |>)).
  assert (Hrest : flights_of (st <| in_flight := l1 ++ l2 |>) = map f_generation l1 ++ map f_generation l2).
  { unfold flights_of. cbn. apply map_app. }
  assert (Hi2 : flights_inv s2).
  { apply set_plugin_flights_inv; [exact Hf|]. split; rewrite ?Hrest.
    - apply NoDup_app. split_and!; [done | | done]. intros x Hx. apply Hd in Hx. by apply not_elem_of_cons in Hx as [_ ?].
    - intros x y Hx Hy. apply (Hq x y Hx). rewrite Hgen. rewrite elem_of_app in *. rewrite elem_of_cons. tauto. }
  assert (Hfl2 : forall q x, x ∈ flights s2 q <-> x ∈ flights s q /\ ~ (q = p /\ x = g)).
  { intros q x. unfold s2. rewrite set_plugin_flights. case_decide as E; [|naive_solver]. subst q.
    rewrite Hrest, Hfl, Hgen, !elem_of_app, elem_of_cons. split.
    - intros [Hx|Hx]; (split; [tauto|]); intros [_ ->]; [|by apply Hn2].
      apply Hd in Hx. apply Hx. left.
    - intros [[?|[->|?]] Hne]; [by left | by destruct Hne | by right]. }
  assert (Hin : g ∈ flights s p) by (rewrite Hfl, Hgen; set_solver).
  destruct (_ || _); [split_and!; [exact Hi2 | exact Hfl2 | naive_solver]|].
  case_match; [|split_and!; [exact Hi2 | exact Hfl2 | naive_solver]].
  cbn [fst snd]. split_and!; [by rewrite push_trace_sim | | naive_solver].
  intros q x. by rewrite (sim_flights _ _ q (push_trace_sim _ _)), <- Hfl2.
Qed.
(** A query change starts nothing: every plugin keeps the generations it is
    working on, and waits at most with the new one. *)
Lemma after_query_solo full g q n now st :
  plugin_inv (g - 1) st -> ready_slot st -> solo st ->
  solo (after_query full g q n now st) /\ flights_of (after_query full g q n now st) = flights_of st.
Proof.
  intros Hi Hr Hs. destruct (after_query_queue full g q n now st Hr (pi_capacity _ _ Hi)) as (_ & _ & Hf & Hq).
  change (map f_generation (in_flight st)) with (flights_of st) in Hf. split; [|exact Hf].
  destruct Hs as [Hnd Hlt]. split; [unfold flights_of at 1; by rewrite Hf|].
  intros r x Hr' Hx. unfold flights_of at 1 in Hx. rewrite Hf in Hx.
  destruct Hq as [Hq | [_ [Hq | (pr & _ & Hq & _)]]]; rewrite Hq in Hr'.
  - by apply elem_of_nil in Hr'.
  - by apply Hlt.
  - apply list_elem_of_singleton in Hr'. subst. rewrite pending_of_generation.
    pose proof (pi_flight_gen _ _ Hi) as Hfg. unfold flights_of in Hx.
    apply list_elem_of_In, in_map_iff in Hx as (y & <- & Hy%list_elem_of_In).
    rewrite Forall_forall in Hfg. apply Hfg in Hy. lia.
Qed.

Lemma submit_flights s query now s' g :
  inv s -> is_shutdown s = false -> flights_inv s ->
  submit_query to_lowercase s query now = Some (s', g) ->
  flights_inv s' /\ forall q, flights s' q = flights s q.
Proof.
  intros [Hi Hl] Hs Hf E. pose proof (submit_Some _ _ _ _ _ _ E) as Hg.
  destruct (submit_query_spec to_lowercase query now s Hi Hl Hg) as (s2 & E2 & Hi' & _ & _ & _ & Ho & _ & _ & Hall).
  rewrite E in E2. injection E2 as <- ->. specialize (Hall Hs).
  assert (Hst : forall p st, plugins s !! p = Some st -> exists st', plugins s' !! p = Some st' /\
    solo st' /\ flights_of st' = flights_of st).
  { intros p st Hp. destruct (Hall p st Hp) as (full & He & _). apply fmap_Some in He as (st' & Hp' & He).
    destruct (after_query_solo full (current_generation s + 1) query (to_lowercase (trim query)) (clock s now) (freed st))
      as [Hsolo Hfl].
    - replace (current_generation s + 1 - 1) with (current_generation s) by lia.
      unfold freed. pose proof (ci_plugins _ Hi p st Hp) as Hpi. case_bool_decide; [done|].
      destruct Hpi. split; cbn; rewrite ?len_nil; try done; try lia; by (intros He0; apply pi_disabled in He0 as [_ ?]).
    - apply freed_ready.
    - specialize (Hf p st Hp). unfold freed. case_bool_decide; [done|]. by apply (solo_idle st).
    - exists st'. symmetry in He. apply erase_flights in He as [He Hq]. split; [done|]. split; [by eapply solo_same|].
      rewrite He, Hfl. unfold freed. by case_bool_decide. }
  assert (Hdom : forall p, is_Some (plugins s' !! p) <-> is_Some (plugins s !! p)).
  { intros p. by rewrite <- (ci_order_dom _ Hi'), <- (ci_order_dom _ Hi), Ho. }
  split.
  - intros p st' Hp'. destruct (proj1 (Hdom p) (ex_intro _ _ Hp')) as [st Hp].
    destruct (Hst p st Hp) as (st2 & Hp2 & ? & _). by simplify_eq.
  - intros q. unfold flights. destruct (plugins s !! q) as [st|] eqn:Hp.
    + destruct (Hst q st Hp) as (st2 & -> & _ & Hfl). exact Hfl.
    + destruct (plugins s' !! q) eqn:Hp'; [|done]. destruct (proj1 (Hdom q)) as [? ?]; [eauto|]. congruence.
Qed.

(** A tick dispatches requests that were not in flight, and adds exactly the
    ones it hands out. *)
Lemma prepared_solo g now st : solo st -> solo (prepared_state g now st).
Proof.
  intros [Hnd Hlt]. destruct (prepared_state_fields g now st) as (_ & _ & Hf).
  assert (Hfl : flights_of (prepared_state g now st) = flights_of st) by (unfold flights_of; by rewrite Hf).
  split; rewrite Hfl; [done|]. intros r x Hr. apply (list_elem_of_fmap_2 p_generation) in Hr.
  unfold prepared_state in Hr. destruct (ripened_fields now (reclaimed g st)) as (_ & _ & _ & _ & _ & Hq).
  rewrite Hq in Hr. change (p_generation <$> (ripen now (queue (reclaimed g st))).1)
    with (map p_generation (ripen now (queue (reclaimed g st))).1) in Hr. rewrite ripen_generations in Hr.
  apply list_elem_of_In, in_map_iff in Hr as (r0 & <- & Hr0). cbn in Hr0. apply filter_In in Hr0 as [Hr0 _].
  apply Hlt. by apply list_elem_of_In.
Qed.

Lemma dispatched_solo g now st :
  plugin_inv g st -> solo st -> queue st <> [] ->
  solo (dispatched_state now st)
  /\ exists r, queue st = [r] /\ flights_of (dispatched_state now st) = flights_of st ++ [p_generation r].
Proof.
  intros Hi [Hnd Hlt] Hq. pose proof (dispatched_queue g now st Hi) as Hq'.
  unfold dispatched_state in *. destruct (queue st) as [|r rest] eqn:Eq; [done|].
  assert (Hfl : forall d, flights_of (st <| queue := rest |>
     <| in_flight ::= fun l => l ++ [mkInFlight (p_generation r) now None false false] |> <| pdiag ::= d |>)
     = flights_of st ++ [p_generation r]) by (intros; unfold flights_of; cbn; by rewrite map_app).
  split; [|exists r; split; [cbn in Hq'; congruence | apply Hfl]]. split.
  - rewrite Hfl. apply NoDup_app. split_and!; [done | | apply NoDup_singleton].
    intros x Hx ->%list_elem_of_singleton.
    assert (p_generation r < p_generation r); [|lia]. apply Hlt; [left | done].
  - rewrite Hq'. by intros ? ? ?%elem_of_nil.
Qed.

(** The plugins a tick serves have a request waiting. *)
Lemma tick_round_queue s at_ p :
  p ∈ map dispatched_plugin (tick_round s at_) ->
  exists st r, plugins s !! p = Some st /\ r ∈ tick_round s at_ /\ dispatched_plugin r = p
    /\ dispatched_generation r = current_generation s /\ queue (prepared_state (current_generation s) at_ st) <> [].
Proof.
  intros (r & -> & Hin)%list_elem_of_fmap. pose proof Hin as Hin'.
  apply (subseteq_take _ _ r) in Hin. apply list_elem_of_omap in Hin as (p' & _ & Ho).
  destruct (offer_prepared _ _ _ _ Ho) as (st & Hst & Hp & Hg & _). exists st, r. subst p'. split_and!; try done.
  unfold offer, prepared in Ho. rewrite map_plugins_lookup, Hst in Ho.
  cbn [fmap option_fmap option_map mbind option_bind] in Ho. unfold offer_of in Ho.
  destruct (_ <=? _); [done|]. by destruct (queue _).
Qed.

(** One plugin of a tick. *)
Lemma tick_plugin_flights s at_ p st :
  core_inv s -> flights_inv s -> plugins s !! p = Some st ->
  let st' := if bool_decide (p ∈ map dispatched_plugin (tick_round s at_))
             then dispatched_state at_ (prepared_state (current_generation s) at_ st)
             else prepared_state (current_generation s) at_ st in
  solo st' /\ (forall g, g ∈ flights_of st' <->
    g ∈ flights_of st \/ (g = current_generation s /\ p ∈ map dispatched_plugin (tick_round s at_)))
  /\ (p ∈ map dispatched_plugin (tick_round s at_) -> current_generation s ∉ flights_of st).
Proof.
  intros Hi Hf Hp. cbv zeta. pose proof (prepared_solo (current_generation s) at_ st (Hf p st Hp)) as Hs.
  destruct (prepared_state_fields (current_generation s) at_ st) as (_ & _ & Hfl).
  assert (Hpf : flights_of (prepared_state (current_generation s) at_ st) = flights_of st)
    by (unfold flights_of; by rewrite Hfl).
  case_bool_decide as Hin; [|split; [done|]; rewrite Hpf; split; [naive_solver | done]].
  destruct (tick_round_queue s at_ p Hin) as (st0 & r & Hp0 & _ & _ & _ & Hq).
  assert (st0 = st) as -> by congruence.
  assert (Hpi : plugin_inv (current_generation s) (prepared_state (current_generation s) at_ st)).
  { apply ripened_inv, reclaimed_inv, (ci_plugins _ Hi p st Hp). }
  destruct (dispatched_solo _ at_ _ Hpi Hs Hq) as (Hds & r0 & Hr0 & Hdf).
  pose proof (prepared_current (current_generation s) at_ st) as Hcur. rewrite Hr0 in Hcur.
  apply (Forall_singleton _ r0) in Hcur. cbv beta in Hcur. split; [done|]. rewrite Hdf, Hpf, Hcur. split.
  - intros g. rewrite elem_of_app, list_elem_of_singleton. naive_solver.
  - intros _ Hc. destruct Hs as [_ Hlt]. rewrite <- Hpf in Hc.
    assert (current_generation s < p_generation r0); [|lia]. apply Hlt; [rewrite Hr0; left | done].
Qed.

Lemma tick_flights_spec s now s' dispatched :
  inv s -> is_shutdown s = false -> flights_inv s -> tick s now = Some (s', dispatched) ->
  flights_inv s'
  /\ NoDup (map dispatched_plugin dispatched)
  /\ (forall d, d ∈ dispatched -> dispatched_generation d = current_generation s
        /\ is_Some (plugins s !! dispatched_plugin d)
        /\ dispatched_generation d ∉ flights s (dispatched_plugin d))
  /\ (forall q g, g ∈ flights s' q <->
        g ∈ flights s q \/ (q, g) ∈ map (fun d => (dispatched_plugin d, dispatched_generation d)) dispatched).
Proof.
  intros [Hi Hl] Hs Hf E. destruct (tick_spec s now Hi Hl Hs) as (s1 & E1 & Hi1 & _ & _ & _ & Ho & _ & _ & _ & Hp & _).
  rewrite E in E1. injection E1 as <- ->. set (at_ := clock s now) in *. set (new := tick_round s at_) in *.
  assert (Hlk : forall p, erase <$> plugins s' !! p = erase <$> ((fun st =>
      if bool_decide (p ∈ map dispatched_plugin new) then dispatched_state at_ (prepared_state (current_generation s) at_ st)
      else prepared_state (current_generation s) at_ st) <$> plugins s !! p)).
  { intros p. pose proof (f_equal (lookup p) Hp) as Hpp. rewrite !lookup_fmap, on_plugins_lookup in Hpp.
    unfold prepared in Hpp. rewrite map_plugins_lookup in Hpp. rewrite Hpp. by destruct (plugins s !! p). }
  assert (Hnew : forall q g, (q, g) ∈ map (fun d => (dispatched_plugin d, dispatched_generation d)) new <->
    g = current_generation s /\ q ∈ map dispatched_plugin new).
  { intros q g. split.
    - intros (d & [= -> ->] & Hd)%list_elem_of_fmap.
      assert (Hin : dispatched_plugin d ∈ map dispatched_plugin new) by (by apply list_elem_of_fmap_2).
      split; [|done]. apply (subseteq_take _ _ d) in Hd. apply list_elem_of_omap in Hd as (p' & _ & Hof).
      by destruct (offer_prepared _ _ _ _ Hof) as (? & _ & _ & -> & _).
    - intros [-> (st & r & _ & Hr & <- & Hg & _)%tick_round_queue].
      apply list_elem_of_fmap. exists r. by rewrite Hg. }
  split_and!.
  - intros p st' Hp'. specialize (Hlk p). rewrite Hp' in Hlk. symmetry in Hlk. apply fmap_Some in Hlk as (st2 & Hst2 & He).
    apply fmap_Some in Hst2 as (st & Hst & ->). apply erase_flights in He as [He1 He2].
    destruct (tick_plugin_flights s at_ p st Hi Hf Hst) as (Hsolo & _). by eapply solo_same; [..|exact Hsolo].
  - apply round_NoDup, rotation_NoDup, (ci_order_nodup _ Hi).
  - intros d Hd. assert (Hin : dispatched_plugin d ∈ map dispatched_plugin new) by (by apply list_elem_of_fmap_2).
    assert (Hg : dispatched_generation d = current_generation s).
    { apply (Hnew (dispatched_plugin d)). apply list_elem_of_fmap. by exists d. }
    destruct (tick_round_queue s at_ _ Hin) as (st & _ & Hst & _). rewrite Hg. split_and!; [done | eauto |].
    unfold flights. rewrite Hst. by apply (tick_plugin_flights s at_ _ st Hi Hf Hst).
  - intros q g. rewrite Hnew. specialize (Hlk q). unfold flights.
    destruct (plugins s !! q) as [st|] eqn:Hst; cbn [fmap option_fmap option_map] in Hlk.
    + apply fmap_Some in Hlk as (st' & -> & He). apply erase_flights in He as [He _]. cbn [map_or].
      destruct (tick_plugin_flights s at_ q st Hi Hf Hst) as (_ & Hfl & _). rewrite <- He. apply Hfl.
    + apply fmap_None in Hlk as ->. cbn [map_or]. split; [by intros ?%elem_of_nil|].
      intros [?%elem_of_nil | [_ (st & _ & Hst' & _)%tick_round_queue]]; [done | congruence].
Qed.
End Operations.

(** Results change no request. *)
Lemma record_result_batch_flights s p g items c now s' a :
  flights_inv s -> record_result_batch s p g items c now = Some (s', a) ->
  flights_inv s' /\ forall q, flights s' q = flights s q.
Proof.
  intros Hf. unfold record_result_batch, observe_now.
  assert (Hsame : forall s', sim s' (s <| last_now := Some (clock s now) |>) ->
    flights_inv s' /\ forall q, flights s' q = flights s q).
  { intros s0 Hs. split; [rewrite Hs; exact Hf | intros q; by rewrite (sim_flights _ _ q Hs)]. }
  destruct (_ || _); [intros [= <- _]; apply Hsame; by rewrite push_trace_sim, count_plugin_sim, count_sim|].
  destruct (_ <=? _); [intros [= <- _]; by apply Hsame|].
  cbn [plugins update]. destruct (plugins s !! p) as [st|] eqn:Hp; [|done]. cbn [mbind option_bind].
  destruct (position _ _) as [i|] eqn:Hi; [|done]. cbn [mbind option_bind].
  destruct (in_flight st !! i) as [r|] eqn:Hr; [|done]. cbn [mbind option_bind].
  set (st' := st <| in_flight ::= _ |>). intros [= <- _].
  assert (Hst : flights_of st' = flights_of st).
  { unfold flights_of, st'. cbn. by eapply update_flight_generation. }
  assert (Hfr : forall s', sim s' (set_plugin p st' s <| last_now := Some (clock s now) |>
      <| result_queue_depth ::= fun n => saturating_add usize_max n 1 |>) ->
    flights_inv s' /\ forall q, flights s' q = flights s q).
  { intros s0 Hs. split.
    - rewrite Hs. apply (set_plugin_flights_inv p st' s Hf), (solo_same st); [done | done | by apply (Hf p)].
    - intros q. rewrite (sim_flights _ _ q Hs). transitivity (flights (set_plugin p st' s) q); [done|].
      rewrite set_plugin_flights. case_decide; [subst; unfold flights; by rewrite Hp | done]. }
  apply Hfr. repeat case_match; rewrite ?push_trace_sim; done.
Qed.

(** Reports change no request. *)
Lemma record_ranking_sim s g n now :
  sim (record_ranking s g n now) (s <| last_now := Some (clock s now) |> <| result_queue_depth := 0 |>).
Proof. unfold record_ranking, observe_now. by rewrite push_trace_sim. Qed.

Lemma record_presentation_sim s g n now :
  sim (record_presentation s g n now) (s <| last_now := Some (clock s now) |> <| result_queue_depth := 0 |>).
Proof. unfold record_presentation, observe_now. by rewrite push_trace_sim. Qed.

Lemma flights_inv_sim_frame s s' f d : sim s' (s <| last_now := f |> <| result_queue_depth := d |>) ->
  (flights_inv s -> flights_inv s') /\ forall q, flights s' q = flights s q.
Proof.
  intros Hs. split; [intros Hf; rewrite Hs; exact Hf|]. intros q. by rewrite (sim_flights _ _ q Hs).
Qed.

Lemma quiesced_solo st : solo (quiesced st).
Proof. split; [constructor | by intros ? ? ?%elem_of_nil]. Qed.

Lemma flights_inv_step lower s o s' :
  inv s -> is_shutdown s = false -> flights_inv s -> apply lower s o = Some s' -> flights_inv s'.
Proof.
  intros Hi Hs Hf. destruct o; cbn [apply].
  - intros [= <-]. by apply register_flights_inv.
  - intros [= <-]. by apply unregister_flights_inv.
  - intros [= <-]. by apply set_policy_flights.
  - intros [= <-]. unfold disable_plugin, observe_now.
    match goal with |- context [invalidate_plugin ?s1 _ ?r ?n1 _] =>
      pose proof (invalidate_flights_inv s1 p r n1 true Hf) as H2;
      pose proof (invalidate_plugin_queue s1 p r n1 true) as Hq;
      destruct (invalidate_plugin s1 p r n1 true) as [s2 gs] end.
    cbn [fst] in *. destruct (plugins s2 !! p) as [st|] eqn:Hp; [|by rewrite with_plugin_None].
    rewrite (with_plugin_Some _ _ _ _ Hp). apply set_plugin_flights_inv; [done|].
    specialize (Hq st eq_refl). split; [constructor|]. cbn. rewrite Hq. by intros ? ? ?%elem_of_nil.
  - intros [= <-]. by apply (with_plugin_flights p _ (observe_now s now).1).
  - destruct (submit_query lower s query now) as [[s1 g]|] eqn:E; [|done]. intros [= <-].
    by eapply submit_flights.
  - destruct (tick s now) as [[s1 d]|] eqn:E; [|done]. intros [= <-]. by eapply tick_flights_spec.
  - intros [= <-]. by apply complete_flights.
  - intros [= <-]. by apply invalidate_flights_inv.
  - by intros [= <-].
  - intros [= <-]. destruct Hi as [Hi _]. intros p st Hp.
    pose proof (sim_lookup_Some _ _ p st (shutdown_sim s now Hi Hs) Hp) as (st2 & Hst2 & He).
    cbn in Hst2. rewrite lookup_fmap in Hst2. apply fmap_Some in Hst2 as (st3 & _ & ->).
    symmetry in He. apply erase_flights in He as [He Hq]. by eapply solo_same; [..|apply (quiesced_solo st3)].
  - destruct (record_result_batch s p g items c now) as [[s1 a]|] eqn:E; [|done]. intros [= <-].
    by eapply record_result_batch_flights.
  - intros [= <-]. by apply (flights_inv_sim_frame _ _ _ _ (record_ranking_sim s g n now)).
  - intros [= <-]. by apply (flights_inv_sim_frame _ _ _ _ (record_presentation_sim s g n now)).
Qed.
