(* ===== verification/Aggregator.v ===== *)
(** Result aggregation: [crikey-result-aggregator/src/lib.rs].

    The aggregator keeps the results of the one query generation on screen.
    [MemoryResultAggregator] is the state of the code with one definition per
    method; [Retained] is what it implements: an association list keyed by
    owner and identity, updated in place and extended at its end.  The class
    [ResultAggregator] is the trait the intake boundary is written against. *)

From S2P Require Import Prelude Generation Items.

(** * Batches and limits *)

Inductive BatchState : Type := Partial | Final | StateCancelled | Failed.
#[export] Instance BatchState_eq_dec : EqDecision BatchState.
Proof. solve_decision. Defined.

Definition is_terminal (s : BatchState) : bool :=
  match s with Partial => false | _ => true end.

Record ResultBatch := mkResultBatch {
  batch_generation : Generation;
  batch_plugin : PluginId;
  batch_state : BatchState;
  batch_items : list Item;
}.

Inductive RejectReason : Type :=
| RejectStale | QuotaExceeded | PayloadTooLarge | OwnerMismatch | RejectTerminated | PluginSuspended.
#[export] Instance RejectReason_eq_dec : EqDecision RejectReason.
Proof. solve_decision. Defined.

Record ResultLimits := mkResultLimits {
  max_items_per_batch : Z;
  max_items_per_plugin_per_query : Z;
  max_items_per_query : Z;
  max_icon_reference_bytes_per_batch : Z;
  max_metadata_bytes_per_batch : Z;
  max_ui_updates_per_frame : Z;
}.

Definition default_limits : ResultLimits :=
  {| max_items_per_batch := 50; max_items_per_plugin_per_query := 250; max_items_per_query := 2000;
     max_icon_reference_bytes_per_batch := 256 * 1024; max_metadata_bytes_per_batch := 1024 * 1024;
     max_ui_updates_per_frame := 1 |}.

Record PluginResultLimits := mkPluginResultLimits {
  plugin_max_items_per_batch : Z;
  plugin_max_items_per_query : Z;
}.

(** * The interface *)

(** The trait [ResultAggregator]. *)
Class ResultAggregator (A : Type) := {
  accept : A -> ResultBatch -> A * result unit RejectReason;
  retire_before : A -> Generation -> A;
}.

(** What a client may rely on: a refused batch leaves no trace. *)
Class AtomicAggregator (A : Type) `{!ResultAggregator A} : Prop := {
  accept_atomic : forall a b a' e, accept a b = (a', Err e) -> a' = a;
}.

(** * The in-memory aggregator *)

Module MemoryResultAggregator.

Record MemoryResultAggregator := mk {
  limits : ResultLimits;
  retirement_floor : Generation;
  active : option Generation;
  per_plugin : gmap PluginId Z;
  index : gmap PluginId (gmap ItemId Z);
  plugin_limits : gmap PluginId PluginResultLimits;
  items : list Item;
  batch_states : gmap PluginId BatchState;
  pending_ui_update : bool;
  ui_updates_remaining : Z;
}.
#[export] Instance eta_aggregator : Eta MemoryResultAggregator := fun r =>
  mk (limits r) (retirement_floor r) (active r) (per_plugin r) (index r) (plugin_limits r)
    (items r) (batch_states r) (pending_ui_update r) (ui_updates_remaining r).

Definition new (l : ResultLimits) : MemoryResultAggregator :=
  {| ui_updates_remaining := max_ui_updates_per_frame l;
     limits := l;
     retirement_floor := ZERO;
     active := None;
     items := [];
     index := ∅;
     per_plugin := ∅;
     plugin_limits := ∅;
     batch_states := ∅;
     pending_ui_update := false |}.

Definition set_plugin_limits (a : MemoryResultAggregator) (plugin : PluginId)
    (per_query per_batch : Z) : MemoryResultAggregator :=
  a <| plugin_limits ::= insert plugin (mkPluginResultLimits (Z.max per_batch 1) (Z.max per_query 1)) |>.

Definition remove_plugin_limits (a : MemoryResultAggregator) (plugin : PluginId)
    : MemoryResultAggregator :=
  a <| plugin_limits ::= delete plugin |>.

(** Drops all state belonging to the active generation. *)
Definition reset (a : MemoryResultAggregator) : MemoryResultAggregator :=
  a <| items := [] |> <| index := ∅ |> <| per_plugin := ∅ |> <| batch_states := ∅ |>.

Definition begin_generation (a : MemoryResultAggregator) (generation : Generation)
    : MemoryResultAggregator :=
  if generation <? retirement_floor a then a
  else if is_some_and (active a) (fun current => generation <=? current) then a
  else reset (a <| active := Some generation |>) <| pending_ui_update := true |>.

Definition plugin_state (a : MemoryResultAggregator) (plugin : PluginId) : option BatchState :=
  batch_states a !! plugin.

Definition begin_frame (a : MemoryResultAggregator) : MemoryResultAggregator :=
  a <| ui_updates_remaining := max_ui_updates_per_frame (limits a) |>.

Definition take_ui_update (a : MemoryResultAggregator)
    : MemoryResultAggregator * option (list Item) :=
  if negb (pending_ui_update a) || (ui_updates_remaining a =? 0) then (a, None)
  else (a <| ui_updates_remaining ::= fun n => n - 1 |> <| pending_ui_update := false |>,
        Some (items a)).

(** The metadata bytes of one item, added to the running total. *)
Fixpoint add_metadata (limit : Z) (bytes : Z) (entries : list (string * string))
    : result Z RejectReason :=
  match entries with
  | [] => Ok bytes
  | (key, value) :: entries' =>
      match checked_add usize_max bytes (str_len key) ≫= fun bytes =>
            checked_add usize_max bytes (str_len value) with
      | None => Err PayloadTooLarge
      | Some bytes =>
          if limit <? bytes then Err PayloadTooLarge else add_metadata limit bytes entries'
      end
  end.

Fixpoint add_payloads (l : ResultLimits) (icons meta : Z) (batch : list Item)
    : result unit RejectReason :=
  match batch with
  | [] => Ok tt
  | item :: batch' =>
      match checked_add usize_max icons (map_or (icon_reference item) 0 str_len) with
      | None => Err PayloadTooLarge
      | Some icons =>
          if max_icon_reference_bytes_per_batch l <? icons then Err PayloadTooLarge
          else
            let? meta := add_metadata (max_metadata_bytes_per_batch l) meta (metadata item) in
            add_payloads l icons meta batch'
      end
  end.

Definition validate_payloads (a : MemoryResultAggregator) (plugin : PluginId) (batch : list Item)
    : result unit RejectReason :=
  if existsb (fun item => negb (String.eqb (plugin_id item) plugin)) batch then Err OwnerMismatch
  else add_payloads (limits a) 0 0 batch.

(** [seen] is the [HashSet] of identities met so far. *)
Fixpoint count_new (retained : option (gmap ItemId Z)) (seen : gset ItemId) (n : Z)
    (batch : list Item) : Z :=
  match batch with
  | [] => n
  | item :: batch' =>
      let id := stable_id item in
      let fresh := bool_decide (id ∉ seen)
                   && map_or retained true (fun idx => is_none (idx !! id)) in
      count_new retained ({[id]} ∪ seen) (if fresh then n + 1 else n) batch'
  end.

Definition count_new_identities (a : MemoryResultAggregator) (plugin : PluginId)
    (batch : list Item) : Z :=
  count_new (index a !! plugin) ∅ 0 batch.

(** One item: overwritten in place when its identity is retained. *)
Definition merge_item (st : gmap ItemId Z * list Item) (item : Item) : gmap ItemId Z * list Item :=
  let (idx, retained) := st in
  match idx !! stable_id item with
  | Some slot => (idx, <[Z.to_nat slot := item]> retained)
  | None => (<[stable_id item := len retained]> idx, retained ++ [item])
  end.

Definition merge (a : MemoryResultAggregator) (plugin : PluginId) (batch : list Item)
    : MemoryResultAggregator :=
  let idx := default ∅ (index a !! plugin) in
  let (idx, retained) := foldl merge_item (idx, items a) batch in
  a <| index ::= insert plugin idx |> <| items := retained |>.

Definition accept (a : MemoryResultAggregator) (b : ResultBatch)
    : MemoryResultAggregator * result unit RejectReason :=
  let plugin := batch_plugin b in
  let batch := batch_items b in
  if negb (bool_decide (active a = Some (batch_generation b))) then (a, Err RejectStale)
  else if is_some_and (batch_states a !! plugin) is_terminal then (a, Err RejectTerminated)
  else
    let own := plugin_limits a !! plugin in
    if map_or own (max_items_per_batch (limits a)) plugin_max_items_per_batch <? len batch
    then (a, Err QuotaExceeded)
    else
      match validate_payloads a plugin batch with
      | Err e => (a, Err e)
      | Ok _ =>
          let new_identities := count_new_identities a plugin batch in
          match checked_add usize_max (default 0 (per_plugin a !! plugin)) new_identities,
                checked_add usize_max (len (items a)) new_identities with
          | Some plugin_total, Some query_total =>
              let per_query :=
                map_or own (max_items_per_plugin_per_query (limits a)) plugin_max_items_per_query in
              if (per_query <? plugin_total) || (max_items_per_query (limits a) <? query_total)
              then (a, Err QuotaExceeded)
              else
                let a :=
                  match batch with
                  | [] => a
                  | _ =>
                      let a := merge a plugin batch in
                      let a := if 0 <? new_identities
                               then a <| per_plugin ::= insert plugin plugin_total |> else a in
                      a <| pending_ui_update := true |>
                  end in
                (a <| batch_states ::= insert plugin (batch_state b) |>, Ok tt)
          | _, _ => (a, Err QuotaExceeded)
          end
      end.

Definition retire_before (a : MemoryResultAggregator) (generation : Generation)
    : MemoryResultAggregator :=
  if generation <=? retirement_floor a then a
  else
    let a := a <| retirement_floor := generation |> in
    match active a with
    | None => a
    | Some current =>
        if retirement_floor a <=? current then a
        else
          let had_items := match items a with [] => false | _ => true end in
          reset (a <| active := None |>) <| pending_ui_update ::= fun b => b || had_items |>
    end.

End MemoryResultAggregator.

#[export] Instance memory_aggregator : ResultAggregator MemoryResultAggregator.MemoryResultAggregator := {
  accept := MemoryResultAggregator.accept;
  retire_before := MemoryResultAggregator.retire_before;
}.
