(* ===== verification/AggregatorFacts.v ===== *)
(** Correctness of the result aggregator.

    [Retained] is the reference: a list of items with one entry per owner and
    identity, updated in place.  The in-memory aggregator, with its two-level
    index and its counters, is shown to implement it. *)

From S2P Require Import Prelude Generation Items Aggregator.
Import MemoryResultAggregator.

(** * The reference *)

Module Retained.

Definition same_key (x y : Item) : bool :=
  String.eqb (plugin_id x) (plugin_id y) && String.eqb (stable_id x) (stable_id y).

(** First acceptance appends, any later one replaces in place. *)
Definition upsert (l : list Item) (item : Item) : list Item :=
  if existsb (same_key item) l
  then map (fun x => if same_key item x then item else x) l else l ++ [item].

Definition merge_all (l batch : list Item) : list Item := foldl upsert l batch.

Definition owned (p : PluginId) (l : list Item) : Z :=
  len (List.filter (fun x => String.eqb (plugin_id x) p) l).

Definition icon_bytes (batch : list Item) : Z :=
  foldr (fun item n => map_or (icon_reference item) 0 str_len + n) 0 batch.

Definition entry_bytes (entries : list (string * string)) : Z :=
  foldr (fun e n => str_len e.1 + str_len e.2 + n) 0 entries.

Definition metadata_bytes (batch : list Item) : Z :=
  foldr (fun item n => entry_bytes (metadata item) + n) 0 batch.

(** Whether a batch fits the payload limits, taken as a whole. *)
Definition payload_fits (l : ResultLimits) (batch : list Item) : bool :=
  (icon_bytes batch <=? Z.min usize_max (max_icon_reference_bytes_per_batch l))
  && (metadata_bytes batch <=? Z.min usize_max (max_metadata_bytes_per_batch l)).

(** What a batch of [plugin] does to the retained list: the list after the
    merge, or the reason it is refused as a whole.  The quotas are read off the
    merged list itself. *)
Definition judge (l : ResultLimits) (own : option PluginResultLimits) (active : option Generation)
    (ended : bool) (retained : list Item) (b : ResultBatch) : result (list Item) RejectReason :=
  let plugin := batch_plugin b in
  let merged := merge_all retained (batch_items b) in
  if negb (bool_decide (active = Some (batch_generation b))) then Err RejectStale
  else if ended then Err RejectTerminated
  else if map_or own (max_items_per_batch l) plugin_max_items_per_batch <? len (batch_items b)
  then Err QuotaExceeded
  else if existsb (fun item => negb (String.eqb (plugin_id item) plugin)) (batch_items b)
  then Err OwnerMismatch
  else if negb (payload_fits l (batch_items b)) then Err PayloadTooLarge
  else if (Z.min usize_max (map_or own (max_items_per_plugin_per_query l) plugin_max_items_per_query)
             <? owned plugin merged)
          || (Z.min usize_max (max_items_per_query l) <? len merged)
  then Err QuotaExceeded
  else Ok merged.

End Retained.
Import Retained.

(** * Payload totals *)

Lemma str_len_nonneg s : 0 <= str_len s.
Proof. unfold str_len. lia. Qed.

Lemma entry_bytes_nonneg l : 0 <= entry_bytes l.
Proof.
  apply foldr_nonneg. intros [k v]. cbn. pose proof (str_len_nonneg k). pose proof (str_len_nonneg v). lia.
Qed.

Lemma add_metadata_spec limit bytes entries :
  0 <= bytes <= Z.min usize_max limit ->
  add_metadata limit bytes entries =
  if bytes + entry_bytes entries <=? Z.min usize_max limit
  then Ok (bytes + entry_bytes entries) else Err PayloadTooLarge.
Proof.
  revert bytes. induction entries as [|[k v] l IH]; intros bytes Hb.
  - cbn. rewrite Z.add_0_r. by rewrite (proj2 (Z.leb_le _ _)) by lia.
  - pose proof (str_len_nonneg k). pose proof (str_len_nonneg v). pose proof (entry_bytes_nonneg l).
    cbn [add_metadata]. change (entry_bytes ((k, v) :: l)) with (str_len k + str_len v + entry_bytes l).
    unfold checked_add.
    destruct (Z.leb_spec (bytes + str_len k) usize_max); cbn [mbind option_bind].
    2: { rewrite (proj2 (Z.leb_gt _ _)) by lia. done. }
    destruct (Z.leb_spec (bytes + str_len k + str_len v) usize_max).
    2: { rewrite (proj2 (Z.leb_gt _ _)) by lia. done. }
    destruct (Z.ltb_spec limit (bytes + str_len k + str_len v)).
    { rewrite (proj2 (Z.leb_gt _ _)) by lia. done. }
    rewrite IH by lia. rewrite !Z.add_assoc. done.
Qed.

Lemma metadata_bytes_nonneg l : 0 <= metadata_bytes l.
Proof. apply foldr_nonneg. intros. apply entry_bytes_nonneg. Qed.

Lemma icon_nonneg x : 0 <= map_or (icon_reference x) 0 str_len.
Proof. destruct (icon_reference x); cbn; [apply str_len_nonneg | done]. Qed.

Lemma icon_bytes_nonneg l : 0 <= icon_bytes l.
Proof. apply foldr_nonneg, icon_nonneg. Qed.

Lemma add_payloads_spec l icons meta batch :
  0 <= icons <= Z.min usize_max (max_icon_reference_bytes_per_batch l) ->
  0 <= meta <= Z.min usize_max (max_metadata_bytes_per_batch l) ->
  add_payloads l icons meta batch =
  if (icons + icon_bytes batch <=? Z.min usize_max (max_icon_reference_bytes_per_batch l))
     && (meta + metadata_bytes batch <=? Z.min usize_max (max_metadata_bytes_per_batch l))
  then Ok tt else Err PayloadTooLarge.
Proof.
  revert icons meta. induction batch as [|x batch IH]; intros icons meta Hi Hm.
  - cbn. rewrite !Z.add_0_r, !(proj2 (Z.leb_le _ _)) by lia. done.
  - pose proof (icon_nonneg x). pose proof (icon_bytes_nonneg batch).
    pose proof (metadata_bytes_nonneg batch). pose proof (entry_bytes_nonneg (metadata x)).
    cbn [add_payloads].
    change (icon_bytes (x :: batch)) with (map_or (icon_reference x) 0 str_len + icon_bytes batch).
    change (metadata_bytes (x :: batch)) with (entry_bytes (metadata x) + metadata_bytes batch).
    rewrite !Z.add_assoc. unfold checked_add.
    destruct (Z.leb_spec (icons + map_or (icon_reference x) 0 str_len) usize_max).
    2: { rewrite (proj2 (Z.leb_gt (icons + _ + _) _)) by lia. done. }
    destruct (Z.ltb_spec (max_icon_reference_bytes_per_batch l) (icons + map_or (icon_reference x) 0 str_len)).
    { rewrite (proj2 (Z.leb_gt (icons + _ + _) _)) by lia. done. }
    rewrite add_metadata_spec by done.
    destruct (Z.leb_spec (meta + entry_bytes (metadata x)) (Z.min usize_max (max_metadata_bytes_per_batch l))).
    + apply IH; lia.
    + rewrite (proj2 (Z.leb_gt (meta + _ + _) _)) by lia. by rewrite andb_false_r.
Qed.

(** Limits as the code's [usize] fields have them. *)
Definition limits_wf (l : ResultLimits) : Prop :=
  0 <= max_icon_reference_bytes_per_batch l /\ 0 <= max_metadata_bytes_per_batch l /\
  0 <= max_items_per_query l /\ 0 <= max_ui_updates_per_frame l.

Lemma validate_payloads_spec a p batch :
  limits_wf (limits a) ->
  validate_payloads a p batch =
  if existsb (fun item => negb (String.eqb (plugin_id item) p)) batch then Err OwnerMismatch
  else if payload_fits (limits a) batch then Ok tt else Err PayloadTooLarge.
Proof.
  intros (Hi & Hm & _). unfold validate_payloads, payload_fits. case_match; [done|].
  rewrite add_payloads_spec; [by rewrite !Z.add_0_l | |]; unfold usize_max, u64_max; lia.
Qed.

(** * The index represents the list *)

(** [idx] gives the position of every item of [p], by identity. *)
Definition represents (p : PluginId) (idx : gmap ItemId Z) (l : list Item) : Prop :=
  forall id i, idx !! id = Some i <->
    0 <= i /\ exists item, l !! Z.to_nat i = Some item /\ plugin_id item = p /\ stable_id item = id.

Lemma same_key_true x y :
  same_key x y = true <-> plugin_id x = plugin_id y /\ stable_id x = stable_id y.
Proof. unfold same_key. by rewrite andb_true_iff, !String.eqb_eq. Qed.

Lemma represents_unique p idx l i j x y :
  represents p idx l -> l !! i = Some x -> l !! j = Some y -> plugin_id x = p -> same_key x y = true -> i = j.
Proof.
  intros Hr Hx Hy Hp [Hpp Hid]%same_key_true.
  assert (H1 : idx !! stable_id x = Some (Z.of_nat i)).
  { apply Hr. split; [lia|]. exists x. rewrite Nat2Z.id. done. }
  assert (H2 : idx !! stable_id x = Some (Z.of_nat j)).
  { apply Hr. split; [lia|]. exists y. rewrite Nat2Z.id. split_and!; congruence. }
  simplify_eq. lia.
Qed.

Lemma represents_existsb idx l item :
  represents (plugin_id item) idx l ->
  existsb (same_key item) l = is_some (idx !! stable_id item).
Proof.
  intros Hr. apply eq_iff_eq_true. rewrite existsb_exists. split.
  - intros (x & Hx & [Hp Hid]%same_key_true). apply list_elem_of_In, list_elem_of_lookup in Hx as [i Hi].
    assert (idx !! stable_id item = Some (Z.of_nat i)) as ->; [|done].
    apply Hr. split; [lia|]. exists x. rewrite Nat2Z.id. done.
  - destruct (idx !! stable_id item) as [i|] eqn:E; [|done]. intros _.
    apply Hr in E as (_ & x & Hx & Hp & Hid). exists x.
    split; [by eapply list_elem_of_In, list_elem_of_lookup_2 | by apply same_key_true].
Qed.

(** Replacing by key is replacing at the indexed position. *)
Lemma upsert_slot idx l item i :
  represents (plugin_id item) idx l -> idx !! stable_id item = Some i ->
  upsert l item = <[Z.to_nat i := item]> l.
Proof.
  intros Hr Hi. unfold upsert. rewrite (represents_existsb idx) by done. rewrite Hi. cbn.
  apply Hr in Hi as (H0 & x & Hx & Hp & Hid). apply list_eq. intros j. rewrite list_lookup_fmap.
  destruct (decide (j = Z.to_nat i)) as [-> | Hne].
  - rewrite list_lookup_insert_eq by by eapply lookup_lt_Some. rewrite Hx. cbn.
    by rewrite (proj2 (same_key_true item x)).
  - rewrite list_lookup_insert_ne by congruence. destruct (l !! j) as [y|] eqn:Hy; cbn; [|done].
    destruct (same_key item y) eqn:E; [|done]. exfalso. apply Hne.
    eapply (represents_unique _ _ _ j (Z.to_nat i) y x Hr Hy Hx); apply same_key_true in E as [? ?];
      [congruence | apply same_key_true; split; congruence].
Qed.

Lemma merge_item_spec idx l item :
  represents (plugin_id item) idx l ->
  (merge_item (idx, l) item).2 = upsert l item /\
  represents (plugin_id item) (merge_item (idx, l) item).1 (upsert l item).
Proof.
  intros Hr. unfold merge_item. destruct (idx !! stable_id item) as [i|] eqn:E.
  - rewrite (upsert_slot idx l item i) by done. split; [done|]. cbn.
    pose proof E as (H0 & x & Hx & Hp & Hid)%Hr. intros id j. rewrite (Hr id j).
    split; intros [Hj (y & Hy & Hpy & Hidy)]; (split; [done|]).
    + destruct (decide (Z.to_nat j = Z.to_nat i)) as [Heq|Hne].
      * rewrite Heq in *. simplify_eq. exists item.
        rewrite list_lookup_insert_eq by by eapply lookup_lt_Some. done.
      * exists y. by rewrite list_lookup_insert_ne by congruence.
    + destruct (decide (Z.to_nat j = Z.to_nat i)) as [Heq|Hne].
      * rewrite Heq in *. rewrite list_lookup_insert_eq in Hy by by eapply lookup_lt_Some.
        simplify_eq. exists x. done.
      * rewrite list_lookup_insert_ne in Hy by congruence. eauto.
  - unfold upsert. rewrite (represents_existsb idx), E by done. cbn. split; [done|].
    intros id j. rewrite lookup_insert. case_decide as Hid.
    + subst id. split.
      * intros [= <-]. unfold len. rewrite Nat2Z.id. split; [lia|]. exists item.
        by rewrite list_lookup_middle by done.
      * intros (Hj & y & Hy & Hpy & Hidy). apply lookup_app_Some in Hy as [Hy | [Hlen Hy]].
        { assert (idx !! stable_id item = Some j) by (apply Hr; eauto). congruence. }
        apply list_lookup_singleton_Some in Hy as [Hz _]. unfold len. f_equal. lia.
    + rewrite (Hr id j). split; intros (Hj & y & Hy & Hpy & Hidy); (split; [done|]); exists y.
      * by rewrite lookup_app_l by by eapply lookup_lt_Some.
      * apply lookup_app_Some in Hy as [Hy | [_ Hy]]; [done|].
        apply list_lookup_singleton_Some in Hy as [_ <-]. congruence.
Qed.

(** Another owner's positions do not move. *)
Lemma upsert_other q idx l item :
  represents q idx l -> plugin_id item <> q ->
  (forall i x, l !! i = Some x -> same_key item x = true -> plugin_id x = plugin_id item) ->
  represents q idx (upsert l item).
Proof.
  intros Hr Hq _ id j. rewrite (Hr id j). unfold upsert.
  destruct (existsb (same_key item) l).
  - split; intros (Hj & y & Hy & Hpy & Hidy); (split; [done|]).
    + exists y. rewrite list_lookup_fmap, Hy. cbn.
      destruct (same_key item y) eqn:E; [apply same_key_true in E as [? _]; congruence | done].
    + rewrite list_lookup_fmap in Hy. destruct (l !! Z.to_nat j) as [z|]; [|done]. cbn in Hy.
      destruct (same_key item z); simplify_eq; eauto.
  - split; intros (Hj & y & Hy & Hpy & Hidy); (split; [done|]); exists y.
    + by rewrite lookup_app_l by by eapply lookup_lt_Some.
    + apply lookup_app_Some in Hy as [Hy | [_ Hy]]; [done|].
      apply list_lookup_singleton_Some in Hy as [_ <-]. congruence.
Qed.

Lemma merge_all_other q idx p l batch :
  represents q idx l -> p <> q -> Forall (fun x => plugin_id x = p) batch ->
  represents q idx (merge_all l batch).
Proof.
  intros Hr Hq Hb. revert l Hr. induction Hb as [|x batch Hx Hb IH]; intros l Hr; [done|].
  cbn. apply IH. apply upsert_other; [done | congruence|]. intros i y _ E.
  by apply same_key_true in E as [? _].
Qed.

Lemma merge_batch_spec p idx l batch :
  represents p idx l -> Forall (fun x => plugin_id x = p) batch ->
  (foldl merge_item (idx, l) batch).2 = merge_all l batch /\
  represents p (foldl merge_item (idx, l) batch).1 (merge_all l batch).
Proof.
  intros Hr Hb. revert idx l Hr. induction Hb as [|x batch Hx Hb IH]; intros idx l Hr; [done|].
  cbn [foldl]. subst p. destruct (merge_item_spec idx l x Hr) as [H1 H2].
  destruct (merge_item (idx, l) x) as [idx' l']. cbn in H1, H2. subst l'.
  change (merge_all l (x :: batch)) with (merge_all (upsert l x) batch). by apply IH.
Qed.

(** * Counting *)

Lemma len_upsert l item :
  len (upsert l item) = len l + (if existsb (same_key item) l then 0 else 1).
Proof. unfold upsert. case_match; rewrite ?len_map, ?len_snoc; lia. Qed.

Lemma owned_app p l k : owned p (l ++ k) = owned p l + owned p k.
Proof. unfold owned. by rewrite List.filter_app, len_app. Qed.

Lemma owned_upsert p l item :
  owned p (upsert l item) =
  owned p l + (if String.eqb (plugin_id item) p && negb (existsb (same_key item) l) then 1 else 0).
Proof.
  unfold upsert. destruct (existsb (same_key item) l) eqn:E; rewrite ?andb_false_r, ?andb_true_r.
  - rewrite Z.add_0_r. unfold owned. clear E. induction l as [|x l IH]; [done|]. cbn.
    destruct (same_key item x) eqn:E; cbn.
    + apply same_key_true in E as [-> _]. destruct (String.eqb _ _); rewrite ?len_cons, IH; done.
    + destruct (String.eqb _ _); rewrite ?len_cons, IH; done.
  - rewrite owned_app. unfold owned at 2. cbn. by destruct (String.eqb _ _).
Qed.

Lemma owned_merge_other p q l batch :
  p <> q -> Forall (fun x => plugin_id x = p) batch -> owned q (merge_all l batch) = owned q l.
Proof.
  intros Hne Hb. revert l. induction Hb as [|x batch Hx Hb IH]; intros l; [done|]. cbn.
  fold (merge_all (upsert l x) batch). rewrite IH, owned_upsert, Hx.
  rewrite (proj2 (String.eqb_neq p q)) by done. cbn. lia.
Qed.

Lemma owned_le p l : owned p l <= len l.
Proof. unfold owned. induction l as [|x l IH]; [done|]. cbn. case_match; rewrite ?len_cons; lia. Qed.

(** The code's count of new identities is how much the list grows. *)
Lemma count_new_spec p idx0 idx l seen n batch :
  represents p idx l -> Forall (fun x => plugin_id x = p) batch ->
  (forall id, is_some (idx !! id) = bool_decide (id ∈ seen) || negb (map_or idx0 true (fun m => is_none (m !! id)))) ->
  count_new idx0 seen n batch = n + (len (merge_all l batch) - len l) /\
  owned p (merge_all l batch) - owned p l = len (merge_all l batch) - len l /\
  0 <= len (merge_all l batch) - len l.
Proof.
  intros Hr Hb. revert idx l seen n Hr. induction Hb as [|x batch Hx Hb IH]; intros idx l seen n Hr Hs.
  { cbn. lia. }
  subst p. destruct (merge_item_spec idx l x Hr) as [_ H2]. cbn [count_new].
  change (merge_all l (x :: batch)) with (merge_all (upsert l x) batch).
  pose proof (len_upsert l x) as Hlen. pose proof (owned_upsert (plugin_id x) l x) as Hown.
  rewrite String.eqb_refl in Hown. rewrite (represents_existsb idx l x Hr) in Hlen, Hown.
  assert (Hfresh : bool_decide (stable_id x ∉ seen)
      && map_or idx0 true (fun m => is_none (m !! stable_id x)) = negb (is_some (idx !! stable_id x))).
  { rewrite Hs. destruct (map_or idx0 true _), (decide (stable_id x ∈ seen)) as [Hin|Hin];
      rewrite ?(bool_decide_eq_true_2 _ Hin), ?(bool_decide_eq_false_2 _ Hin); cbn;
      rewrite ?bool_decide_eq_false_2, ?bool_decide_eq_true_2; done || tauto. }
  rewrite Hfresh.
  destruct (IH (merge_item (idx, l) x).1 (upsert l x) ({[stable_id x]} ∪ seen)
    (if negb (is_some (idx !! stable_id x)) then n + 1 else n) H2) as (-> & Ho & Hge).
  - intros id. unfold merge_item.
    assert (Hin : forall b, bool_decide (id ∈ {[stable_id x]} ∪ seen) || b =
      bool_decide (stable_id x = id) || (bool_decide (id ∈ seen) || b)).
    { intros b. rewrite orb_assoc. f_equal. apply eq_iff_eq_true.
      rewrite orb_true_iff, !bool_decide_eq_true. set_solver. }
    rewrite Hin, <- Hs. clear Hin Hfresh. destruct (bool_decide_reflect (stable_id x = id)) as [Hid|Hid]; cbn [orb].
    + subst id. destruct (idx !! stable_id x) as [i|] eqn:E; cbn [fst]; [by rewrite E|].
      by rewrite lookup_insert_eq.
    + destruct (idx !! stable_id x) as [i|]; cbn [fst]; [done|]. by rewrite lookup_insert_ne.
  - destruct (is_some (idx !! stable_id x)); cbn in *; lia.
Qed.

(** * The invariant *)

Record agg_inv (a : MemoryResultAggregator) : Prop := {
  ai_limits : limits_wf (limits a);
  ai_index : forall p, represents p (default ∅ (index a !! p)) (items a);
  ai_counts : forall p, default 0 (per_plugin a !! p) = owned p (items a);
  ai_bound : len (items a) <= max_items_per_query (limits a);
  ai_active : match active a with
              | Some g => retirement_floor a <= g
              | None => items a = [] /\ batch_states a = ∅
              end;
  ai_frame : 0 <= ui_updates_remaining a <= max_ui_updates_per_frame (limits a);
}.

Lemma represents_empty p : represents p ∅ [].
Proof. intros id i. rewrite lookup_empty. split; [done|]. by intros (_ & x & Hx & _). Qed.

Lemma new_agg_inv l : limits_wf l -> agg_inv (new l).
Proof.
  intros Hl. pose proof Hl as (_ & _ & ? & ?). split; cbn; try done.
  intros p. rewrite lookup_empty. apply represents_empty.
Qed.

Lemma reset_agg_inv a g b :
  agg_inv a -> match g with Some x => retirement_floor a <= x | None => True end ->
  agg_inv (reset (a <| active := g |>) <| pending_ui_update := b |>).
Proof.
  intros [Hl _ _ _ _ Hf] Hg. pose proof Hl as (_ & _ & ? & ?). split; cbn; try done.
  - intros p. rewrite lookup_empty. apply represents_empty.
  - by destruct g.
Qed.

Lemma begin_generation_inv a g : agg_inv a -> agg_inv (begin_generation a g).
Proof.
  intros H. unfold begin_generation. destruct (Z.ltb_spec g (retirement_floor a)); [done|].
  case_match; [done|]. by apply reset_agg_inv.
Qed.

Lemma retire_before_inv a g : agg_inv a -> agg_inv (retire_before a g).
Proof.
  intros H. unfold retire_before. destruct (Z.leb_spec g (retirement_floor a)); [done|].
  cbn. destruct (active a) as [c|] eqn:Ea.
  - pose proof (ai_active _ H) as Hact. rewrite Ea in Hact.
    destruct (Z.leb_spec g c).
    + destruct H as [? ? ? ? _ ?]. split; cbn; try done. by rewrite Ea.
    + destruct H as [Hl _ _ _ _ Hf]. pose proof Hl as (_ & _ & ? & ?). split; cbn; try done.
      intros p. rewrite lookup_empty. apply represents_empty.
  - pose proof (ai_active _ H) as Hact. rewrite Ea in Hact.
    destruct H as [? ? ? ? _ ?]. split; cbn; try done. by rewrite Ea.
Qed.

Lemma owner_Forall p batch :
  existsb (fun item => negb (String.eqb (plugin_id item) p)) batch = false ->
  Forall (fun x => plugin_id x = p) batch.
Proof.
  induction batch as [|x l IH]; cbn; [constructor|]. intros [Hx Hl]%orb_false_iff.
  constructor; [by apply String.eqb_eq, negb_false_iff | auto].
Qed.

(** The state after an accepted batch, in terms of the reference. *)
Record accepted (a : MemoryResultAggregator) (b : ResultBatch) (merged : list Item)
    (a' : MemoryResultAggregator) : Prop := {
  ac_items : items a' = merged;
  ac_active : active a' = active a;
  ac_floor : retirement_floor a' = retirement_floor a;
  ac_limits : limits a' = limits a;
  ac_own : plugin_limits a' = plugin_limits a;
  ac_states : batch_states a' = <[batch_plugin b := batch_state b]> (batch_states a);
  ac_pending : pending_ui_update a' = pending_ui_update a || negb (bool_decide (batch_items b = []));
  ac_frame : ui_updates_remaining a' = ui_updates_remaining a;
}.

Definition reference (a : MemoryResultAggregator) (b : ResultBatch) : result (list Item) RejectReason :=
  judge (limits a) (plugin_limits a !! batch_plugin b) (active a)
    (is_some_and (batch_states a !! batch_plugin b) is_terminal) (items a) b.

(** What the successful path of [accept] does. *)
Definition committed (a : MemoryResultAggregator) (b : ResultBatch) (n : Z) : MemoryResultAggregator :=
  let plugin := batch_plugin b in
  let a :=
    match batch_items b with
    | [] => a
    | _ =>
        let total := default 0 (per_plugin a !! plugin) + n in
        let a := merge a plugin (batch_items b) in
        let a := if 0 <? n then a <| per_plugin ::= insert plugin total |> else a in
        a <| pending_ui_update := true |>
    end in
  a <| batch_states ::= insert plugin (batch_state b) |>.

Lemma merge_fields a p batch :
  agg_inv a -> Forall (fun x => plugin_id x = p) batch ->
  exists idx, merge a p batch = a <| index ::= insert p idx |> <| items := merge_all (items a) batch |> /\
    represents p idx (merge_all (items a) batch).
Proof.
  intros Hi Hb. destruct (merge_batch_spec p _ (items a) batch (ai_index _ Hi p) Hb) as [H1 H2].
  unfold merge. destruct (foldl merge_item _ batch) as [idx l]. cbn in H1, H2. subst l. eauto.
Qed.

Lemma committed_spec a b n :
  agg_inv a -> Forall (fun x => plugin_id x = batch_plugin b) (batch_items b) ->
  n = len (merge_all (items a) (batch_items b)) - len (items a) -> 0 <= n ->
  owned (batch_plugin b) (merge_all (items a) (batch_items b)) = owned (batch_plugin b) (items a) + n ->
  len (merge_all (items a) (batch_items b)) <= max_items_per_query (limits a) ->
  active a = Some (batch_generation b) ->
  accepted a b (merge_all (items a) (batch_items b)) (committed a b n) /\ agg_inv (committed a b n).
Proof.
  intros Hi Hb Hn Hn0 Hown Hmax Hact. unfold committed.
  destruct (batch_items b) as [|x batch] eqn:Eb.
  { split; [split; cbn; try done; rewrite ?Eb, ?bool_decide_eq_true_2, ?orb_false_r; done|].
    destruct Hi as [? ? ? ? Ha ?]. split; cbn; try done. by rewrite Hact in *. }
  rewrite <- Eb in *. assert (Hne : batch_items b <> []) by by rewrite Eb.
  destruct (merge_fields a _ _ Hi Hb) as (idx & -> & Hrep).
  split.
  - split; cbn; try done; try (case_match; done).
    rewrite bool_decide_eq_false_2 by done. cbn. by rewrite orb_true_r.
  - destruct Hi as [Hl Hidx Hcnt Hbd Ha Hf].
    assert (Hidx' : forall q, represents q (default ∅ (<[batch_plugin b := idx]> (index a) !! q))
      (merge_all (items a) (batch_items b))).
    { intros q. rewrite lookup_insert. case_decide as Hq; [by subst q|]. eapply merge_all_other; eauto. }
    destruct (Z.ltb_spec 0 n); split; cbn; rewrite ?Hact in *; try done; intros q.
    + rewrite lookup_insert. case_decide as Hq; cbn; [subst q; rewrite Hown, Hcnt; done|].
      by rewrite (owned_merge_other (batch_plugin b) q), <- Hcnt.
    + destruct (decide (batch_plugin b = q)) as [<- | Hq]; [rewrite Hcnt; lia|].
      by rewrite (owned_merge_other (batch_plugin b) q), <- Hcnt.
Qed.

Lemma growth a b :
  agg_inv a -> Forall (fun x => plugin_id x = batch_plugin b) (batch_items b) ->
  let merged := merge_all (items a) (batch_items b) in
  let n := count_new_identities a (batch_plugin b) (batch_items b) in
  n = len merged - len (items a) /\ 0 <= n /\
  default 0 (per_plugin a !! batch_plugin b) + n = owned (batch_plugin b) merged /\
  len (items a) + n = len merged.
Proof.
  intros Hi Hb merged n.
  destruct (count_new_spec (batch_plugin b) (index a !! batch_plugin b)
    (default ∅ (index a !! batch_plugin b)) (items a) ∅ 0 (batch_items b)) as (H1 & H2 & H3).
  - apply (ai_index _ Hi).
  - done.
  - intros id. destruct (index a !! batch_plugin b); cbn; unfold is_none; by rewrite ?negb_involutive, ?lookup_empty.
  - fold merged in H1, H2, H3. change (count_new _ _ _ _) with n in H1.
    rewrite (ai_counts _ Hi). lia.
Qed.

Lemma ltb_min m x y : y <= m -> (Z.min m x <? y) = (x <? y).
Proof. intros H. apply eq_iff_eq_true. rewrite !Z.ltb_lt. lia. Qed.

Lemma accept_reference a b :
  agg_inv a ->
  match reference a b with
  | Ok merged => exists a', accept a b = (a', Ok tt) /\ accepted a b merged a' /\ agg_inv a'
  | Err e => accept a b = (a, Err e)
  end.
Proof.
  intros Hi. unfold reference, judge, accept. cbv zeta.
  destruct (bool_decide_reflect (active a = Some (batch_generation b))) as [Hact|Hact]; cbn [negb]; [|done].
  destruct (is_some_and _ _); [done|]. destruct (_ <? len (batch_items b)); [done|].
  rewrite (validate_payloads_spec a _ _ (ai_limits _ Hi)).
  destruct (existsb _ (batch_items b)) eqn:Eo; [done|]. apply owner_Forall in Eo.
  destruct (payload_fits (limits a) (batch_items b)); cbn [negb]; [|done].
  destruct (growth a b Hi Eo) as (Hn & Hn0 & Hp & Hq).
  set (n := count_new_identities a (batch_plugin b) (batch_items b)) in *.
  set (merged := merge_all (items a) (batch_items b)) in *.
  set (own := map_or _ (max_items_per_plugin_per_query (limits a)) _).
  unfold checked_add. rewrite Hp, Hq.
  destruct (Z.leb_spec (owned (batch_plugin b) merged) usize_max) as [Hu1|Hu1].
  2: { rewrite (proj2 (Z.ltb_lt (Z.min usize_max own) _)) by lia. done. }
  destruct (Z.leb_spec (len merged) usize_max) as [Hu2|Hu2].
  2: { rewrite (proj2 (Z.ltb_lt (Z.min usize_max (max_items_per_query _)) _)) by lia. by rewrite orb_true_r. }
  rewrite !(ltb_min usize_max) by done.
  destruct (_ || _) eqn:Equota; [done|]. apply orb_false_iff in Equota as [_ Hmax]. apply Z.ltb_ge in Hmax.
  destruct (committed_spec a b n) as [H1 H2]; try done; [by rewrite <- (ai_counts _ Hi)|].
  exists (committed a b n). split; [|done]. unfold committed. rewrite Hp. done.
Qed.

#[export] Instance memory_atomic : AtomicAggregator MemoryResultAggregator.
Proof.
  split. intros a b a' e. cbn. unfold accept. repeat case_match; intros; by simplify_eq.
Qed.

(** * Executions *)

Inductive agg_op : Type :=
| AggAccept (b : ResultBatch)
| AggBegin (g : Generation)
| AggRetire (g : Generation)
| AggSetLimits (p : PluginId) (per_query per_batch : Z)
| AggRemoveLimits (p : PluginId)
| AggFrame
| AggTake.

(** One call, and the snapshot it hands to the UI. *)
Definition agg_step (a : MemoryResultAggregator) (o : agg_op)
    : MemoryResultAggregator * option (list Item) :=
  match o with
  | AggAccept b => ((accept a b).1, None)
  | AggBegin g => (begin_generation a g, None)
  | AggRetire g => (retire_before a g, None)
  | AggSetLimits p q b => (set_plugin_limits a p q b, None)
  | AggRemoveLimits p => (remove_plugin_limits a p, None)
  | AggFrame => (begin_frame a, None)
  | AggTake => take_ui_update a
  end.

Fixpoint agg_run (a : MemoryResultAggregator) (ops : list agg_op)
    : MemoryResultAggregator * list (option (list Item)) :=
  match ops with
  | [] => (a, [])
  | o :: ops' =>
      let (a1, u) := agg_step a o in
      let (a2, us) := agg_run a1 ops' in (a2, u :: us)
  end.

Lemma agg_step_inv a o : agg_inv a -> agg_inv (agg_step a o).1.
Proof.
  intros Hi. destruct o; cbn [agg_step fst].
  - pose proof (accept_reference a b Hi) as H. destruct (reference a b).
    + by destruct H as (a' & -> & _ & H).
    + by rewrite H.
  - by apply begin_generation_inv.
  - by apply retire_before_inv.
  - destruct Hi. by split.
  - destruct Hi. by split.
  - destruct Hi as [Hl ? ? ? ? ?]. pose proof Hl as (_ & _ & _ & ?). split; cbn; try done; lia.
  - unfold take_ui_update. destruct (_ || _) eqn:E; [done|]. apply orb_false_iff in E as [_ E].
    apply Z.eqb_neq in E. destruct Hi. split; cbn; try done; lia.
Qed.

Lemma agg_run_inv a ops : agg_inv a -> agg_inv (agg_run a ops).1.
Proof.
  revert a. induction ops as [|o ops IH]; intros a Hi; [done|]. cbn.
  pose proof (agg_step_inv a o Hi) as H. destruct (agg_step a o) as [a1 u]. specialize (IH a1 H).
  by destruct (agg_run a1 ops).
Qed.

(** * What the aggregator promises *)

(** C29: the aggregator implements the reference.  After any sequence of calls,
    a batch is merged or refused exactly as the reference decides from the
    retained list alone; a merged batch leaves the reference's list and records
    the plugin's stream state, a refused one changes nothing at all. *)
Theorem accept_refines_reference l ops b :
  limits_wf l ->
  let a := (agg_run (new l) ops).1 in
  match judge (limits a) (plugin_limits a !! batch_plugin b) (active a)
          (is_some_and (batch_states a !! batch_plugin b) is_terminal) (items a) b with
  | Ok merged => exists a', accept a b = (a', Ok tt) /\ items a' = merged /\
                   batch_states a' = <[batch_plugin b := batch_state b]> (batch_states a) /\
                   active a' = active a /\
                   (batch_items b <> [] -> pending_ui_update a' = true)
  | Err e => accept a b = (a, Err e)
  end.
Proof.
  intros Hl a. pose proof (accept_reference a b (agg_run_inv _ ops (new_agg_inv l Hl))) as H.
  unfold reference in H. destruct (judge _ _ _ _ _ _) as [merged|e]; [|done].
  destruct H as (a' & E & [] & _). exists a'. split_and!; try done.
  intros Hne. rewrite ac_pending0, bool_decide_eq_false_2 by done. by rewrite orb_true_r.
Qed.

Definition sample_batch (state : BatchState) (ids : list string) : ResultBatch :=
  mkResultBatch 3 "apps" state (map (fun id => plain_item "apps" id "label") ids).

Definition ended_ops : list agg_op := [AggBegin 3; AggAccept (sample_batch Final ["a"; "b"])].

Lemma accept_refines_reference_witness :
  accept (agg_run (new default_limits) ended_ops).1 (sample_batch Partial ["c"]) = ((agg_run (new default_limits) ended_ops).1, Err RejectTerminated).
Proof.
  pose proof (accept_refines_reference default_limits ended_ops (sample_batch Partial ["c"])
    ltac:(repeat split; discriminate)) as H. cbv zeta in H.
  assert (E : judge (limits (agg_run (new default_limits) ended_ops).1)
    (plugin_limits (agg_run (new default_limits) ended_ops).1 !! batch_plugin (sample_batch Partial ["c"]))
    (active (agg_run (new default_limits) ended_ops).1)
    (is_some_and (batch_states (agg_run (new default_limits) ended_ops).1 !! batch_plugin (sample_batch Partial ["c"])) is_terminal)
    (items (agg_run (new default_limits) ended_ops).1) (sample_batch Partial ["c"]) = Err RejectTerminated)
    by (vm_compute; reflexivity).
  rewrite E in H. exact H.
Defined.

Definition key (x : Item) : PluginId * ItemId := (plugin_id x, stable_id x).

Lemma agg_keys_NoDup a : agg_inv a -> NoDup (map key (items a)).
Proof.
  intros Hi. apply NoDup_alt. intros i j k Hki Hkj. change (map key) with (fmap (M := list) key) in *.
  rewrite list_lookup_fmap in Hki, Hkj.
  apply fmap_Some in Hki as (x & Hx & ->). apply fmap_Some in Hkj as (y & Hy & Hk).
  injection Hk as Hp Hid. eapply (represents_unique (plugin_id x)); [apply (ai_index _ Hi) | exact Hx | exact Hy | done|].
  by apply same_key_true.
Qed.

Lemma upsert_keys l item : map key l `prefix_of` map key (upsert l item).
Proof.
  unfold upsert. destruct (existsb _ l).
  - rewrite map_map. exists []. rewrite app_nil_r. apply map_ext. intros x.
    destruct (same_key item x) eqn:E; [|done]. apply same_key_true in E as [H1 H2]. unfold key. congruence.
  - rewrite map_app. by eexists.
Qed.

Lemma merge_all_keys l batch : map key l `prefix_of` map key (merge_all l batch).
Proof.
  revert l. induction batch as [|x batch IH]; intros l; [done|]. cbn. etrans; [apply upsert_keys | apply IH].
Qed.

(** The list on screen is well formed and stable.  After any sequence of
    calls no owner and identity occurs twice, the list is no longer than the
    query's limit, and a further batch never moves or removes a row: the
    identities shown before it stay, in their order, at the head of the list. *)
Theorem retained_list_stable l ops b :
  limits_wf l ->
  let a := (agg_run (new l) ops).1 in
  NoDup (map key (items a)) /\ len (items a) <= max_items_per_query (limits a) /\
  map key (items a) `prefix_of` map key (items (accept a b).1).
Proof.
  intros Hl a. assert (Hi : agg_inv a) by apply agg_run_inv, new_agg_inv, Hl.
  split_and!; [by apply agg_keys_NoDup | by apply ai_bound|].
  pose proof (accept_reference a b Hi) as H. destruct (reference a b) as [merged|e] eqn:E.
  - destruct H as (a' & -> & [] & _). cbn. rewrite ac_items0. unfold reference, judge in E.
    repeat case_match; simplify_eq. rewrite <- E. apply merge_all_keys.
  - by rewrite H.
Qed.

Definition repeated_ops : list agg_op := [AggBegin 3; AggAccept (sample_batch Partial ["a"; "b"; "a"])].

Lemma retained_list_stable_witness : NoDup (map key (items (agg_run (new default_limits) repeated_ops).1)).
Proof.
  pose proof (retained_list_stable default_limits repeated_ops (sample_batch Final [])
    ltac:(repeat split; discriminate)) as [H _]. exact H.
Defined.

(** * Retirement *)

Lemma accept_floor a b : retirement_floor (accept a b).1 = retirement_floor a.
Proof.
  unfold accept. repeat case_match; try done; unfold merge; by case_match.
Qed.

Lemma agg_step_floor a o : retirement_floor a <= retirement_floor (agg_step a o).1.
Proof.
  destruct o; cbn [agg_step fst]; try done.
  - by rewrite accept_floor.
  - unfold begin_generation. repeat case_match; done.
  - unfold retire_before. destruct (Z.leb_spec g (retirement_floor a)); [done|]. cbn.
    repeat case_match; cbn; lia.
  - unfold take_ui_update. by case_match.
Qed.

Lemma agg_run_floor a ops : retirement_floor a <= retirement_floor (agg_run a ops).1.
Proof.
  revert a. induction ops as [|o ops IH]; intros a; [done|]. cbn.
  pose proof (agg_step_floor a o) as H. destruct (agg_step a o) as [a1 u]. specialize (IH a1).
  destruct (agg_run a1 ops). cbn in *. lia.
Qed.

(** A retired generation never returns.  Once [retire_before g] has been
    called, no sequence of later calls, [begin_generation] included, lets a
    batch of a generation below [g] be merged. *)
Theorem retired_never_merges l before g after b :
  limits_wf l -> batch_generation b < g ->
  let a := (agg_run (retire_before (agg_run (new l) before).1 g) after).1 in
  accept a b = (a, Err RejectStale).
Proof.
  intros Hl Hg a. assert (Hi : agg_inv a).
  { apply agg_run_inv, retire_before_inv, agg_run_inv, new_agg_inv, Hl. }
  assert (Hf : g <= retirement_floor a).
  { etrans; [|apply agg_run_floor]. unfold retire_before.
    destruct (Z.leb_spec g (retirement_floor (agg_run (new l) before).1)); [done|].
    cbn. repeat case_match; cbn; lia. }
  pose proof (ai_active _ Hi) as Ha. unfold accept. rewrite bool_decide_eq_false_2; [done|].
  intros E. rewrite E in Ha. lia.
Qed.

Definition retired_sample : MemoryResultAggregator :=
  (agg_run (retire_before (agg_run (new default_limits) [AggBegin 3]).1 5) [AggBegin 3; AggBegin 4]).1.

Lemma retired_never_merges_witness :
  accept retired_sample (sample_batch Partial ["a"]) = (retired_sample, Err RejectStale).
Proof.
  pose proof (retired_never_merges default_limits [AggBegin 3] 5 [AggBegin 3; AggBegin 4]
    (sample_batch Partial ["a"]) ltac:(repeat split; discriminate) ltac:(reflexivity)) as H.
  cbv zeta in H. exact H.
Defined.

(** * Snapshots *)

(** What the UI shows: the newest snapshot it took, an empty list before. *)
Definition shown (us : list (option (list Item))) (before : list Item) : list Item :=
  foldl (fun current u => default current u) before us.

(** Without a pending repaint the UI shows the retained list. *)
Definition in_sync (a : MemoryResultAggregator) (display : list Item) : Prop :=
  pending_ui_update a = false -> display = items a.

Lemma agg_step_sync a o display :
  agg_inv a -> in_sync a display ->
  in_sync (agg_step a o).1 (default display (agg_step a o).2).
Proof.
  intros Hi Hs. unfold in_sync in *. destruct o; cbn [agg_step fst snd default]; try done.
  - pose proof (accept_reference a b Hi) as H. destruct (reference a b) as [merged|e] eqn:E; [|by rewrite H].
    destruct H as (a' & -> & [] & _). cbn. rewrite ac_pending0, ac_items0. intros [Hp Hn]%orb_false_iff.
    apply negb_false_iff, bool_decide_eq_true in Hn. rewrite Hs by done.
    unfold reference, judge in E. rewrite Hn in E. repeat case_match; by simplify_eq.
  - unfold begin_generation. repeat case_match; done.
  - unfold retire_before. destruct (g <=? _); [done|]. cbn.
    destruct (active a); [|done]. case_match; [done|]. cbn. intros [Hp Hn]%orb_false_iff.
    rewrite Hs by done. by destruct (items a).
  - unfold take_ui_update. case_match; [done|]. by cbn.
Qed.

Lemma agg_run_sync a ops display :
  agg_inv a -> in_sync a display -> in_sync (agg_run a ops).1 (shown (agg_run a ops).2 display).
Proof.
  revert a display. induction ops as [|o ops IH]; intros a display Hi Hs; [done|]. cbn.
  pose proof (agg_step_inv a o Hi) as H1. pose proof (agg_step_sync a o display Hi Hs) as H2.
  destruct (agg_step a o) as [a1 u]. specialize (IH a1 _ H1 H2). by destruct (agg_run a1 ops).
Qed.

Definition snapshots (us : list (option (list Item))) : Z := len (omap (fun u => u) us).

Lemma accept_frame a b : ui_updates_remaining (accept a b).1 = ui_updates_remaining a.
Proof. unfold accept. repeat case_match; try done; unfold merge; by case_match. Qed.

Lemma agg_step_budget a o :
  agg_inv a -> o <> AggFrame ->
  ui_updates_remaining (agg_step a o).1 + snapshots [(agg_step a o).2] = ui_updates_remaining a.
Proof.
  intros Hi Ho. unfold snapshots. destruct o; cbn [agg_step fst snd omap list_omap]; rewrite ?len_nil, ?Z.add_0_r; try done.
  - apply accept_frame.
  - unfold begin_generation. repeat case_match; done.
  - unfold retire_before. repeat case_match; done.
  - unfold take_ui_update. case_match; cbn; rewrite ?len_cons, ?len_nil; lia.
Qed.

Lemma snapshots_cons u us : snapshots (u :: us) = snapshots [u] + snapshots us.
Proof. unfold snapshots. destruct u; cbn; rewrite ?len_cons, ?len_nil; lia. Qed.

Lemma agg_run_budget a ops :
  agg_inv a -> AggFrame ∉ ops ->
  ui_updates_remaining (agg_run a ops).1 + snapshots (agg_run a ops).2 = ui_updates_remaining a.
Proof.
  revert a. induction ops as [|o ops IH]; intros a Hi Ho; [cbn; unfold snapshots; cbn; rewrite len_nil; lia|].
  apply not_elem_of_cons in Ho as [Ho1 Ho2]. cbn.
  pose proof (agg_step_inv a o Hi) as H1. pose proof (agg_step_budget a o Hi (not_eq_sym Ho1)) as H2.
  destruct (agg_step a o) as [a1 u]. specialize (IH a1 H1 Ho2). destruct (agg_run a1 ops). cbn in *.
  rewrite snapshots_cons. lia.
Qed.

(** No repaint is lost and none is wasted.  After any sequence of calls,
    either a repaint is pending or the newest snapshot the UI took is exactly
    the retained list; and between two [begin_frame] calls the UI is handed at
    most [max_ui_updates_per_frame] snapshots. *)
Theorem ui_updates_coalesce l ops frame :
  limits_wf l -> AggFrame ∉ frame ->
  let (a, us) := agg_run (new l) ops in
  (pending_ui_update a = false -> shown us [] = items a) /\
  snapshots (agg_run a frame).2 <= max_ui_updates_per_frame (limits a).
Proof.
  intros Hl Hf. pose proof (agg_run_inv _ ops (new_agg_inv l Hl)) as Hi.
  pose proof (agg_run_sync (new l) ops [] (new_agg_inv l Hl)) as Hs.
  destruct (agg_run (new l) ops) as [a us]. cbn in *. split; [by apply Hs|].
  pose proof (agg_run_budget a frame Hi Hf) as Hb.
  pose proof (agg_run_inv a frame Hi) as Hi2. pose proof (ai_frame _ Hi). pose proof (ai_frame _ Hi2). lia.
Qed.

Definition painted_ops : list agg_op := [AggBegin 3; AggAccept (sample_batch Partial ["a"]); AggTake].

Lemma ui_updates_coalesce_witness :
  let (a, us) := agg_run (new default_limits) painted_ops in
  (pending_ui_update a = false -> shown us [] = items a) /\
  snapshots (agg_run a [AggTake; AggTake]).2 <= max_ui_updates_per_frame (limits a).
Proof.
  exact (ui_updates_coalesce default_limits painted_ops [AggTake; AggTake]
    ltac:(repeat split; discriminate) ltac:(set_solver)).
Defined.
