(* ===== verification/Catalog.v ===== *)
(** The in-memory catalog, [crikey-catalog/src/lib.rs]: owner-scoped slices of
    items with the indexes that make half a million of them searchable, and the
    lifecycle of the instances that may publish.

    Positions are [nat]s; a hash map is a finite map; a word of a bit set is a
    [Z] of 64 bits.  Panics (an index out of range, a failed debug assertion)
    are [None].  A visitor is the list of what it is called with, in order.

    The trait [CatalogCache] of the persistent cache is a class over handles to
    shared stores. *)

From Stdlib Require Import SpecFloat.
From S2P Require Import Prelude Text StdFloat Utf8 Bits Generation Items Query.

(** * Errors and limits *)

Inductive CatalogError : Type :=
| StaleInstance
| OwnerMismatch
| BatchItemLimitExceeded (actual limit : Z)
| PluginItemLimitExceeded (actual limit : Z)
| TotalItemLimitExceeded (actual limit : Z)
| ItemPayloadLimitExceeded (actual limit : Z)
| BatchPayloadLimitExceeded (actual limit : Z)
| PayloadSizeOverflow
| ItemCountOverflow.

Record CatalogLimits := mkLimits {
  max_batch_items : Z;
  max_plugin_items : Z;
  max_total_items : Z;
  max_item_bytes : Z;
  max_batch_bytes : Z;
}.

Definition default_limits : CatalogLimits := mkLimits 500000 500000 500000 1048576 1073741824.

Inductive CatalogUpdate : Type := Replace | Merge.

(** A failed [debug_assert!] panics. *)
Definition debug_assert (b : bool) : option unit := if b then Some () else None.

Section Catalog.
Context {U : Unicode}.

(** * The index of an item *)

(** The fields the matcher reads, as characters. *)
Definition search_item (item : Item) : SearchItem :=
  mkSearchItem (chars (item_label item)) (chars (item_description item)) (map chars (Items.search_terms item)).

Record ItemIndex := mkIndex { prepared : PreparedLabel; mask : Z }.

Definition new_index (item : Item) : option ItemIndex :=
  let (text_, bytes) := searchable_text_with_label (search_item item) in
  prepared ← from_searchable_text (label (search_item item)) text_ bytes;
  Some (mkIndex prepared (presence_mask text_)).

Definition admits (entry : ItemIndex) (wanted : Z) : bool := Z.land wanted (Z.lnot (mask entry)) =? 0.

Definition ORDERED_PAIR_COUNT : nat := Z.to_nat (DEDICATED_BITS * DEDICATED_BITS).
Definition ORDERED_PAIR_WORDS : nat := Z.to_nat ((DEDICATED_BITS * DEDICATED_BITS + 63) / 64).

Definition dedicated_index (c : Z) : option nat :=
  if (97 <=? c) && (c <=? 122) then Some (Z.to_nat (c - 97))
  else if (48 <=? c) && (c <=? 57) then Some (Z.to_nat (DEDICATED_BITS - 10 + (c - 48)))
  else None.

Definition pair_of (before after : nat) : nat := (before * Z.to_nat DEDICATED_BITS + after)%nat.

(** [signature[pair / 64] |= 1 << (pair % 64)]. *)
Definition mark_pair (signature : list Z) (pair : nat) : option (list Z) :=
  if Nat.ltb (pair / 64) (length signature) then Some (set_at signature pair) else None.

(** The pairs a label character closes: with every dedicated character before it. *)
Definition label_pairs (state : list Z * Z) (c : Z) : option (list Z * Z) :=
  let (signature, seen) := state in
  match dedicated_index c with
  | None => Some (signature, seen)
  | Some after =>
      signature ← ofold (fun signature before => mark_pair signature (pair_of before after)) signature (set_bits seen);
      Some (signature, Z.lor seen (bit after))
  end.

(** The pair of two adjacent keyword characters. *)
Definition keyword_pairs (state : list Z * option nat) (c : Z) : option (list Z * option nat) :=
  let (signature, previous) := state in
  let current := dedicated_index c in
  signature ← match previous, current with
              | Some before, Some after => mark_pair signature (pair_of before after)
              | _, _ => Some signature
              end;
  Some (signature, current).

Definition ordered_pair_signature (p : PreparedLabel) : option (list Z) :=
  text_ ← normalized_label p;
  '(signature, _) ← ofold label_pairs (replicate ORDERED_PAIR_WORDS 0, 0) text_;
  retained ← keywords p;
  '(signature, _) ← ofold keyword_pairs (signature, None) retained;
  Some signature.

(** The adjacent dedicated characters of a token. *)
Fixpoint token_pairs (previous : option nat) (token : text) : list nat :=
  match token with
  | [] => []
  | c :: token' =>
      let current := dedicated_index c in
      match previous, current with
      | Some before, Some after => pair_of before after :: token_pairs current token'
      | _, _ => token_pairs current token'
      end
  end.

Definition push_new (pairs : list nat) (pair : nat) : list nat :=
  if bool_decide (pair ∈ pairs) then pairs else pairs ++ [pair].

Definition query_ordered_pairs (q : NormalizedQuery) : list nat :=
  foldl (fun pairs token => foldl push_new pairs (token_pairs None token)) [] (tokens q).

Definition prefix_pair (t : text) : option nat :=
  match t with
  | c :: d :: _ => before ← dedicated_index c; after ← dedicated_index d; Some (pair_of before after)
  | _ => None
  end.

(** * One plugin's slice *)

Record PluginCatalog := mkPluginCatalog {
  pc_items : list Item;
  pc_index : list ItemIndex;
  positions : gmap ItemId nat;
  postings : list (list Z);
  ordered_pair_postings : list (list Z);
  prefix_postings : list (list nat);
}.
#[global] Instance eta_PluginCatalog : Eta PluginCatalog := fun c =>
  mkPluginCatalog (pc_items c) (pc_index c) (positions c) (postings c) (ordered_pair_postings c) (prefix_postings c).

Definition empty_catalog : PluginCatalog :=
  mkPluginCatalog [] [] ∅ (replicate (Z.to_nat DEDICATED_BITS) []) (replicate ORDERED_PAIR_COUNT [])
    (replicate ORDERED_PAIR_COUNT []).

Definition post (position : nat) (present : bool) (posting : list Z) : list Z :=
  let posting := grow posting (position / 64) in
  if present then set_at posting position else clear_at posting position.

Definition set_postings (c : PluginCatalog) (position : nat) (m : Z) : PluginCatalog :=
  c <| postings ::= imap (fun presence_bit posting => post position (has_bit m presence_bit) posting) |>.

(** One pair of the signature; a bucket that does not exist panics. *)
Definition post_pair (position : nat) (present : bool) (buckets : list (list Z)) (pair : nat) : option (list (list Z)) :=
  posting ← buckets !! pair;
  Some (<[pair := if present then post position true posting else clear_at posting position]> buckets).

(** The pairs of a signature in the order of its words. *)
Definition signature_pairs (signature : list Z) : list nat :=
  mjoin (imap (fun i w => map (fun within => (i * 64 + within)%nat) (set_bits w)) signature).

Definition set_ordered_pair_postings (c : PluginCatalog) (position : nat) (signature : list Z) (present : bool)
    : option PluginCatalog :=
  buckets ← ofold (post_pair position present) (ordered_pair_postings c) (signature_pairs signature);
  Some (c <| ordered_pair_postings := buckets |>).

(** The folded label of an entry. *)
Definition entry_label (entry : ItemIndex) : option text := normalized_label (prepared entry).

(** [dirty_prefixes[prefix] = true]. *)
Definition mark_dirty (dirty : list bool) (prefix : option nat) : option (list bool) :=
  match prefix with
  | None => Some dirty
  | Some prefix => _ ← dirty !! prefix; Some (<[prefix := true]> dirty)
  end.

(** [self.prefix_postings[prefix].push(position)]. *)
Definition push_prefix (buckets : list (list nat)) (prefix : option nat) (position : nat) : option (list (list nat)) :=
  match prefix with
  | None => Some buckets
  | Some prefix => l ← buckets !! prefix; Some (<[prefix := l ++ [position]]> buckets)
  end.

(** A new item goes to the end. *)
Definition append_item (c : PluginCatalog) (item : Item) (entry : ItemIndex) (pairs : list Z) (prefix : option nat)
    : option PluginCatalog :=
  let position := length (pc_items c) in
  _ ← debug_assert (is_none (positions c !! stable_id item));
  let c := c <| positions ::= <[stable_id item := position]> |> in
  let c := set_postings c position (mask entry) in
  c ← set_ordered_pair_postings c position pairs true;
  buckets ← push_prefix (prefix_postings c) prefix position;
  Some (c <| prefix_postings := buckets |> <| pc_items ::= fun l => l ++ [item] |>
          <| pc_index ::= fun l => l ++ [entry] |>).

(** A known item is replaced where it is. *)
Definition replace_item (c : PluginCatalog) (dirty : list bool) (position : nat) (item : Item) (entry : ItemIndex)
    (pairs : list Z) (prefix : option nat) : option (PluginCatalog * list bool) :=
  old ← pc_index c !! position;
  old_pairs ← ordered_pair_signature (prepared old);
  old_label ← entry_label old;
  let old_prefix := prefix_pair old_label in
  dirty ← (if bool_decide (old_prefix = prefix) then Some dirty
           else dirty ← mark_dirty dirty old_prefix; mark_dirty dirty prefix);
  c ← set_ordered_pair_postings c position old_pairs false;
  let c := set_postings c position (mask entry) in
  c ← set_ordered_pair_postings c position pairs true;
  _ ← pc_items c !! position;
  Some (c <| pc_items ::= <[position := item]> |> <| pc_index ::= <[position := entry]> |>, dirty).

Definition merge_item (state : PluginCatalog * nat * list bool) (item : Item)
    : option (PluginCatalog * nat * list bool) :=
  let '(c, added, dirty) := state in
  entry ← new_index item;
  pairs ← ordered_pair_signature (prepared entry);
  label_ ← entry_label entry;
  let prefix := prefix_pair label_ in
  match positions c !! stable_id item with
  | Some position =>
      '(c, dirty) ← replace_item c dirty position item entry pairs prefix;
      Some (c, added, dirty)
  | None =>
      c ← append_item c item entry pairs prefix;
      Some (c, S added, dirty)
  end.

(** One entry of the pass that fills the emptied buckets again. *)
Definition refill (dirty : list bool) (buckets : list (list nat)) (pe : nat * ItemIndex) : option (list (list nat)) :=
  label_ ← entry_label pe.2;
  match prefix_pair label_ with
  | None => Some buckets
  | Some prefix =>
      d ← dirty !! prefix;
      if d : bool then push_prefix buckets (Some prefix) pe.1 else Some buckets
  end.

Definition enumerate {A} (l : list A) : list (nat * A) := imap pair l.

(** The emptied buckets, position for position with [dirty]. *)
Definition empty_dirty (buckets : list (list nat)) (dirty : list bool) : list (list nat) :=
  zip_with (fun bucket (d : bool) => if d then [] else bucket) buckets dirty.

Definition rebuild_prefixes (c : PluginCatalog) (dirty : list bool) : option PluginCatalog :=
  if existsb id dirty then
    buckets ← ofold (refill dirty) (empty_dirty (prefix_postings c) dirty) (enumerate (pc_index c));
    Some (c <| prefix_postings := buckets |>)
  else Some c.

Definition merge (c : PluginCatalog) (items : list Item) : option (PluginCatalog * nat) :=
  '(c, added, dirty) ← ofold merge_item (c, O, replicate ORDERED_PAIR_COUNT false) items;
  c ← rebuild_prefixes c dirty;
  _ ← debug_assert (Nat.eqb (length (pc_items c)) (length (pc_index c)));
  Some (c, added).

Definition from_items (items : list Item) (unique_items : nat) : option PluginCatalog :=
  '(c, added) ← merge empty_catalog items;
  _ ← debug_assert (Nat.eqb added unique_items);
  Some c.

Definition pc_get (c : PluginCatalog) (id : ItemId) : option Item := position ← positions c !! id; pc_items c !! position.

(** * Candidates *)

(** [self.items.get(position).zip(self.index.get(position))]. *)
Definition entry_at (c : PluginCatalog) (position : nat) : option (nat * Item * ItemIndex) :=
  item ← pc_items c !! position;
  entry ← pc_index c !! position;
  Some (position, item, entry).

Definition all_entries (c : PluginCatalog) : list (nat * Item * ItemIndex) :=
  map (fun x => (x.1, x.2.1, x.2.2)) (enumerate (zip (pc_items c) (pc_index c))).

Definition admitted_entries (wanted : Z) (l : list (nat * Item * ItemIndex)) : list (nat * Item * ItemIndex) :=
  List.filter (fun x => admits x.2 wanted) l.

Definition DEDICATED_MASK : Z := Z.shiftl 1 DEDICATED_BITS - 1.

(** The positions of one word that every posting holds. *)
Definition word_positions (c : PluginCatalog) (dedicated : Z) (pairs : list nat) (word_index : nat) : option Z :=
  positions ← ofold (fun acc b => posting ← postings c !! b; w ← posting !! word_index; Some (Z.land acc w))
                u64_max (set_bits dedicated);
  ofold (fun acc pair => posting ← ordered_pair_postings c !! pair;
                         Some (Z.land acc (default 0 (posting !! word_index))))
    positions pairs.

Definition visit_word (c : PluginCatalog) (wanted dedicated : Z) (pairs : list nat) (word_index : nat)
    : option (list (nat * Item * ItemIndex)) :=
  positions ← word_positions c dedicated pairs word_index;
  Some (admitted_entries wanted
          (omap (fun within => entry_at c (word_index * 64 + within)) (set_bits positions))).

Definition visit_candidates (c : PluginCatalog) (wanted : Z) (pairs : list nat)
    : option (list (nat * Item * ItemIndex)) :=
  let dedicated := Z.land wanted DEDICATED_MASK in
  if (dedicated =? 0) && match pairs with [] => true | _ => false end
  then Some (admitted_entries wanted (all_entries c))
  else
    let word_count := ((length (pc_items c) + 63) / 64)%nat in
    mjoin <$> mapM (visit_word c wanted dedicated pairs) (seq 0 word_count).

Definition pc_candidates (c : PluginCatalog) (wanted : Z) : option (list Item) :=
  map (fun x => x.1.2) <$> visit_candidates c wanted [].

(** One entry whose label is tested. *)
Definition visit_label (token : text) (x : nat * Item * ItemIndex) : option (list (nat * Item * PreparedLabel)) :=
  label_ ← entry_label x.2;
  Some (if starts_with label_ token then [(x.1.1, x.1.2, prepared x.2)] else []).

Definition visit_prefix (c : PluginCatalog) (token : text) : option (list (nat * Item * PreparedLabel)) :=
  match token with
  | [] => Some []
  | _ =>
      match prefix_pair token with
      | Some prefix =>
          bucket ← prefix_postings c !! prefix;
          mjoin <$> mapM (visit_label token) (omap (entry_at c) bucket)
      | None => mjoin <$> mapM (visit_label token) (all_entries c)
      end
  end.

(** * Payload accounting *)

Definition LENGTH_PREFIX_BYTES : Z := 8.
Definition ENUM_TAG_BYTES : Z := 1.
Definition SCORE_HINT_BYTES : Z := 4.

Definition add_payload_bytes (total bytes : Z) : result Z CatalogError :=
  match checked_add usize_max total bytes with Some n => Ok n | None => Err PayloadSizeOverflow end.

Definition add_string_payload (total : Z) (value : string) : result Z CatalogError :=
  let? total := add_payload_bytes total LENGTH_PREFIX_BYTES in
  add_payload_bytes total (str_len value).

Definition add_category_payload (total : Z) (c : Category) : result Z CatalogError :=
  let? total := add_payload_bytes total ENUM_TAG_BYTES in
  match c with PluginDefined name => add_string_payload total name | _ => Ok total end.

Definition add_optional_string_payload (total : Z) (value : option string) : result Z CatalogError :=
  let? total := add_payload_bytes total ENUM_TAG_BYTES in
  match value with Some value => add_string_payload total value | None => Ok total end.

(** [for x in l { f(total, x)?; }]. *)
Fixpoint add_each {A} (f : Z -> A -> result Z CatalogError) (total : Z) (l : list A) : result Z CatalogError :=
  match l with [] => Ok total | x :: l' => let? total := f total x in add_each f total l' end.

Definition add_action_payload (total : Z) (action : Action) : result Z CatalogError :=
  let? total := add_string_payload total (action_id action) in
  let? total := add_string_payload total (action_label action) in
  let? total := add_string_payload total (action_description action) in
  let? total := add_payload_bytes total LENGTH_PREFIX_BYTES in
  let? total := add_each add_category_payload total (applicable_categories action) in
  let? total := add_optional_string_payload total (action_icon_reference action) in
  add_payload_bytes total ENUM_TAG_BYTES.

Definition add_metadata_payload (total : Z) (entry : string * string) : result Z CatalogError :=
  let? total := add_string_payload total entry.1 in
  add_string_payload total entry.2.

Definition item_payload_bytes (item : Item) : result Z CatalogError :=
  let? total := add_string_payload 0 (stable_id item) in
  let? total := add_string_payload total (plugin_id item) in
  let? total := add_category_payload total (category item) in
  let? total := add_string_payload total (item_label item) in
  let? total := add_string_payload total (item_description item) in
  let? total := add_string_payload total (item_target item) in
  let? total := add_payload_bytes total LENGTH_PREFIX_BYTES in
  let? total := add_each add_string_payload total (Items.search_terms item) in
  let? total := add_optional_string_payload total (icon_reference item) in
  let? total := add_payload_bytes total ENUM_TAG_BYTES in
  let? total := add_payload_bytes total ENUM_TAG_BYTES in
  let? total := add_payload_bytes total SCORE_HINT_BYTES in
  let? total := add_payload_bytes total LENGTH_PREFIX_BYTES in
  let? total := add_each add_metadata_payload total (metadata item) in
  let? total := add_payload_bytes total LENGTH_PREFIX_BYTES in
  add_each add_action_payload total (actions item).

(** * The catalog of all plugins *)

Record PluginInstance := mkInstance { high_water : Z; active : bool }.

Record UpdatePlan := mkPlan { unique_batch_items : nat; merge_additions : Z; projected_total_items : Z }.

Record MemoryCatalog := mkCatalog {
  instances : gmap PluginId PluginInstance;
  plugins : gmap PluginId PluginCatalog;
  item_count : Z;
  limits : CatalogLimits;
}.
#[global] Instance eta_MemoryCatalog : Eta MemoryCatalog := fun m =>
  mkCatalog (instances m) (plugins m) (item_count m) (limits m).

Definition with_limits (l : CatalogLimits) : MemoryCatalog := mkCatalog ∅ ∅ 0 l.
Definition new_catalog : MemoryCatalog := with_limits default_limits.

(** The bytes of a batch, item by item. *)
Fixpoint batch_payload (l : CatalogLimits) (batch_bytes : Z) (items : list Item) : result Z CatalogError :=
  match items with
  | [] => Ok batch_bytes
  | item :: items' =>
      let? item_bytes := item_payload_bytes item in
      if max_item_bytes l <? item_bytes then Err (ItemPayloadLimitExceeded item_bytes (max_item_bytes l))
      else
        match checked_add usize_max batch_bytes item_bytes with
        | None => Err PayloadSizeOverflow
        | Some batch_bytes => batch_payload l batch_bytes items'
        end
  end.

Definition unique_ids (items : list Item) : gset ItemId := list_to_set (map stable_id items).

Definition known (existing : option PluginCatalog) (id : ItemId) : bool :=
  is_some_and existing (fun c => is_some (positions c !! id)).

(** How many ids of a batch are new. *)
Definition count_additions (existing : option PluginCatalog) (ids : list ItemId) : result Z CatalogError :=
  add_each (fun additions id => if known existing id then Ok additions
                                else match checked_add usize_max additions 1 with
                                     | Some n => Ok n
                                     | None => Err ItemCountOverflow
                                     end) 0 ids.

(** [checked_add(..).ok_or(ItemCountOverflow)]. *)
Definition checked_count (o : option Z) : result Z CatalogError :=
  match o with Some n => Ok n | None => Err ItemCountOverflow end.

Definition plan_update (m : MemoryCatalog) (plugin : PluginId) (update : CatalogUpdate) (items : list Item)
    : result UpdatePlan CatalogError :=
  let l := limits m in
  if max_batch_items l <? len items then Err (BatchItemLimitExceeded (len items) (max_batch_items l))
  else if existsb (fun item => negb (String.eqb (plugin_id item) plugin)) items then Err OwnerMismatch
  else
    let? batch_bytes := batch_payload l 0 items in
    if max_batch_bytes l <? batch_bytes then Err (BatchPayloadLimitExceeded batch_bytes (max_batch_bytes l))
    else
      let ids := unique_ids items in
      let existing := plugins m !! plugin in
      let previous := map_or existing 0 (fun c => len (pc_items c)) in
      let? (projected, additions) :=
        match update with
        | Replace => Ok (Z.of_nat (size ids), 0)
        | Merge =>
            let? additions := count_additions existing (elements ids) in
            let? projected := checked_count (checked_add usize_max previous additions) in
            Ok (projected, additions)
        end in
      if max_plugin_items l <? projected then Err (PluginItemLimitExceeded projected (max_plugin_items l))
      else
        let? others := checked_count (checked_sub (item_count m) previous) in
        let? total := checked_count (checked_add usize_max others projected) in
        if max_total_items l <? total then Err (TotalItemLimitExceeded total (max_total_items l))
        else Ok (mkPlan (size ids) additions total).

Definition activate_instance (m : MemoryCatalog) (plugin : PluginId) (instance : Z)
    : MemoryCatalog * result unit CatalogError :=
  match instances m !! plugin with
  | Some state =>
      if instance <? high_water state then (m, Err StaleInstance)
      else (m <| instances ::= <[plugin := mkInstance instance true]> |>, Ok ())
  | None => (m <| instances ::= <[plugin := mkInstance instance true]> |>, Ok ())
  end.

Definition is_active (m : MemoryCatalog) (plugin : PluginId) (instance : Z) : bool :=
  is_some_and (instances m !! plugin) (fun state => active state && (high_water state =? instance)).

Definition retire_instance (m : MemoryCatalog) (plugin : PluginId) (instance : Z)
    : MemoryCatalog * result unit CatalogError :=
  match instances m !! plugin with
  | Some state =>
      if active state && (high_water state =? instance)
      then (m <| instances ::= <[plugin := mkInstance (high_water state) false]> |>, Ok ())
      else (m, Err StaleInstance)
  | None => (m, Err StaleInstance)
  end.

(** The subtraction panics if it would underflow. *)
Definition invalidate (m : MemoryCatalog) (plugin : PluginId) : option MemoryCatalog :=
  match plugins m !! plugin with
  | None => Some m
  | Some c =>
      n ← checked_sub (item_count m) (len (pc_items c));
      Some (m <| plugins ::= delete plugin |> <| item_count := n |>)
  end.

(** The part of [apply] that writes the slice. *)
Definition write_slice (m : MemoryCatalog) (plugin : PluginId) (update : CatalogUpdate) (plan : UpdatePlan)
    (items : list Item) : option MemoryCatalog :=
  match update with
  | Replace =>
      if Nat.eqb (unique_batch_items plan) 0 then Some (m <| plugins ::= delete plugin |>)
      else
        replacement ← from_items items (unique_batch_items plan);
        Some (m <| plugins ::= <[plugin := replacement]> |>)
  | Merge =>
      match plugins m !! plugin with
      | Some c =>
          '(c, added) ← merge c items;
          _ ← debug_assert (Z.of_nat added =? merge_additions plan);
          Some (m <| plugins ::= <[plugin := c]> |>)
      | None =>
          c ← from_items items (unique_batch_items plan);
          Some (m <| plugins ::= <[plugin := c]> |>)
      end
  end.

Definition apply (m : MemoryCatalog) (plugin : PluginId) (instance : Z) (update : CatalogUpdate) (items : list Item)
    : option (MemoryCatalog * result unit CatalogError) :=
  if negb (is_active m plugin instance) then Some (m, Err StaleInstance)
  else
    match plan_update m plugin update items with
    | Err e => Some (m, Err e)
    | Ok plan =>
        match update with
        | Merge => if Nat.eqb (unique_batch_items plan) 0 then Some (m, Ok ())
                   else
                     m ← write_slice m plugin update plan items;
                     Some (m <| item_count := projected_total_items plan |>, Ok ())
        | Replace =>
            m ← write_slice m plugin update plan items;
            Some (m <| item_count := projected_total_items plan |>, Ok ())
        end
    end.

Definition get (m : MemoryCatalog) (plugin : PluginId) (id : ItemId) : option Item :=
  c ← plugins m !! plugin; pc_get c id.

Definition plugin_len (m : MemoryCatalog) (plugin : PluginId) : Z :=
  map_or (plugins m !! plugin) 0 (fun c => len (pc_items c)).

Definition items (m : MemoryCatalog) (plugin : PluginId) : list Item :=
  match plugins m !! plugin with Some c => pc_items c | None => [] end.

Definition item_index (m : MemoryCatalog) (plugin : PluginId) : list ItemIndex :=
  match plugins m !! plugin with Some c => pc_index c | None => [] end.

(** The characters every token needs. *)
Definition wanted_mask (q : NormalizedQuery) : Z :=
  foldl (fun wanted token => Z.lor wanted (presence_mask token)) 0 (tokens q).

Definition candidates (m : MemoryCatalog) (plugin : PluginId) (q : NormalizedQuery) : option (list Item) :=
  match plugins m !! plugin with None => Some [] | Some c => pc_candidates c (wanted_mask q) end.

Definition visit_prepared_candidates (m : MemoryCatalog) (plugin : PluginId) (q : NormalizedQuery)
    : option (list (nat * Item * PreparedLabel)) :=
  match plugins m !! plugin with
  | None => Some []
  | Some c =>
      visited ← visit_candidates c (wanted_mask q) (query_ordered_pairs q);
      Some (map (fun x => (x.1.1, x.1.2, prepared x.2)) visited)
  end.

Definition visit_label_prefixes (m : MemoryCatalog) (plugin : PluginId) (token : text)
    : option (list (nat * Item * PreparedLabel)) :=
  match plugins m !! plugin with None => Some [] | Some c => visit_prefix c token end.

(** One position accepted earlier. *)
Definition revisit (q : NormalizedQuery) (policy : MatchPolicy) (x : nat * Item * ItemIndex)
    : option (list (nat * Item * PreparedLabel)) :=
  may ← may_match_with (prepared x.2) q policy;
  Some (if may : bool then [(x.1.1, x.1.2, prepared x.2)] else []).

Definition visit_prepared_positions_with (m : MemoryCatalog) (plugin : PluginId) (l : list nat) (q : NormalizedQuery)
    (policy : MatchPolicy) : option (list (nat * Item * PreparedLabel)) :=
  match plugins m !! plugin with
  | None => Some []
  | Some c => mjoin <$> mapM (revisit q policy) (omap (entry_at c) l)
  end.

Definition visit_prepared_positions (m : MemoryCatalog) (plugin : PluginId) (l : list nat) (q : NormalizedQuery)
    : option (list (nat * Item * PreparedLabel)) :=
  visit_prepared_positions_with m plugin l q Strict.

End Catalog.

#[local] Existing Instance ascii_unicode.

Example catalog_sample :
  let item id name := plain_item "apps" id name in
  let m := (activate_instance new_catalog "apps" 1).1 in
  match apply m "apps" 1 Replace [item "code" "Visual Studio Code"; item "calc" "Calculator"]%string with
  | Some (m, Ok _) =>
      (visited ← visit_prepared_candidates m "apps" (normalize (ascii "vsc")); Some (map (fun x => x.1.1) visited)) = Some [0%nat]
      /\ (visited ← visit_label_prefixes m "apps" (ascii "ca"); Some (map (fun x => x.1.1) visited)) = Some [1%nat]
      /\ item_count m = 2
  | _ => False
  end.
Proof. vm_compute. done. Qed.

(** [io::ErrorKind], the kinds the code tells apart. *)
Inductive ErrorKind : Type := NotFound | OtherKind.

Inductive CacheError : Type :=
| Io (path : string) (kind : ErrorKind)
| UnsupportedPluginId (plugin : PluginId) (encoded_bytes limit : Z)
| InvalidSliceOwner (plugin : PluginId)
| SliceTooLarge (plugin : PluginId).

Record CachedSlice := mkSlice {
  slice_plugin : PluginId;
  slice_instance : Z;
  slice_generation : Generation;
  slice_items : list Item;
}.

(** The trait, for a handle [H] into the storage [D] every handle shares; a
    method that writes returns the storage it leaves. *)
Class CatalogCache (H D : Type) := {
  load_slice : D -> H -> PluginId -> result (option CachedSlice) CacheError;
  store_slice : D -> H -> CachedSlice -> D * result unit CacheError;
  invalidate_slice : D -> H -> PluginId -> D * result unit CacheError;
  cached_plugins : D -> H -> result (list PluginId) CacheError;
}.
