(* ===== verification/CatalogIndex.v ===== *)
(** The indexes of the catalog: what the signature of a label records, and that
    merging a batch keeps every posting in step with the items. *)

From Stdlib Require Import SpecFloat.
From S2P Require Import Prelude Text StdFloat Utf8 Items Query QueryText QueryPrepare Bits Catalog.

(** * Pairs of dedicated characters *)

Lemma dedicated_range c n : dedicated_index c = Some n -> (n < 36)%nat.
Proof. unfold dedicated_index, DEDICATED_BITS. repeat case_match; intros; simplify_eq; reflect_bools; lia. Qed.

Lemma pair_of_inj b a b' a' : (a < 36 -> a' < 36 -> pair_of b a = pair_of b' a' -> b = b' /\ a = a')%nat.
Proof. unfold pair_of, DEDICATED_BITS. lia. Qed.

Lemma pair_of_range b a : (b < 36 -> a < 36 -> pair_of b a < ORDERED_PAIR_COUNT)%nat.
Proof. unfold pair_of, ORDERED_PAIR_COUNT, DEDICATED_BITS. lia. Qed.

Lemma pair_word pair : (pair < ORDERED_PAIR_COUNT -> pair / 64 < ORDERED_PAIR_WORDS)%nat.
Proof.
  change ORDERED_PAIR_WORDS with 21%nat. change ORDERED_PAIR_COUNT with 1296%nat. intros H.
  apply Nat.Div0.div_lt_upper_bound. lia.
Qed.

Definition signature_ok (sig : list Z) : Prop := length sig = ORDERED_PAIR_WORDS /\ words sig.

Lemma mark_pair_spec sig pair :
  signature_ok sig -> (pair < ORDERED_PAIR_COUNT)%nat ->
  exists sig', mark_pair sig pair = Some sig' /\ signature_ok sig' /\
    forall i, bit_at sig' i = bit_at sig i || bool_decide (pair = i).
Proof.
  intros [Hl Hw] Hp. apply pair_word in Hp. unfold mark_pair. rewrite (proj2 (Nat.ltb_lt _ _)) by lia.
  eexists. split; [done|]. split; [split; [|by apply words_set]|].
  - unfold set_at. by rewrite length_alter.
  - intros i. apply bit_at_set. lia.
Qed.

Lemma mark_pairs_spec (g : nat -> nat) l sig :
  signature_ok sig -> Forall (fun b => (g b < ORDERED_PAIR_COUNT)%nat) l ->
  exists sig', ofold (fun s b => mark_pair s (g b)) sig l = Some sig' /\ signature_ok sig' /\
    forall i, bit_at sig' i = true <-> bit_at sig i = true \/ i ∈ map g l.
Proof.
  intros Hs Hl. apply (ofold_inv _ (fun done_ s => signature_ok s /\
    forall i, bit_at s i = true <-> bit_at sig i = true \/ i ∈ map g done_)).
  - split; [done|]. set_solver.
  - intros done_ b s Hb [H1 H2]. rewrite Forall_forall in Hl.
    destruct (mark_pair_spec s (g b)) as (s' & E & H1' & H2'); [done | by apply Hl|].
    exists s'. split_and!; [done..|]. intros i. rewrite H2', orb_true_iff, H2, bool_decide_eq_true, map_app. set_solver.
Qed.

#[local] Opaque set_bits.

Section Signature.
Context {U : Unicode}.

(** The dedicated characters of a text, in order. *)
Definition dedicated (t : text) : list nat := omap dedicated_index t.

(** Two dedicated characters next to each other. *)
Definition adjacent (t : text) (before after : nat) : Prop :=
  exists u c d v, t = u ++ c :: d :: v /\ dedicated_index c = Some before /\ dedicated_index d = Some after.

Definition pairs_exact (sig : list Z) (P : nat -> nat -> Prop) : Prop :=
  forall pair, bit_at sig pair = true <-> exists before after, pair = pair_of before after /\ P before after.

Lemma sublist_pair_snoc (l : list nat) b a x : sublist [b; a] (l ++ [x]) <-> sublist [b; a] l \/ (a = x /\ b ∈ l).
Proof.
  split.
  - intros H. apply sublist_app_r in H as (k1 & k2 & E & H1 & H2). destruct k1 as [|y [|z k1]]; cbn in E; simplify_eq.
    + apply sublist_length in H2. cbn in H2. lia.
    + right. apply sublist_cons_l in H2 as (l1 & l2 & E & _). destruct l1 as [|? []]; simplify_eq/=. split; [done|].
      eapply elem_of_sublist; [|exact H1]. set_solver.
    + left. destruct k1; [|done]. exact H1.
  - intros [H|[-> H]]; [by apply sublist_inserts_r|]. change [b; x] with ([b] ++ [x]).
    apply sublist_app; [by apply singleton_sublist_l | done].
Qed.

Lemma dedicated_snoc t c : dedicated (t ++ [c]) = dedicated t ++ match dedicated_index c with Some n => [n] | None => [] end.
Proof. unfold dedicated. rewrite omap_app. cbn. by destruct (dedicated_index c). Qed.

Lemma dedicated_elem_range t n : n ∈ dedicated t -> (n < 36)%nat.
Proof. intros (c & _ & H)%list_elem_of_omap. by eapply dedicated_range. Qed.

(** What the loop over the label maintains. *)
Definition label_state (t : text) (s : list Z * Z) : Prop :=
  signature_ok s.1 /\ word s.2 /\ (forall n, has_bit s.2 n = true <-> n ∈ dedicated t) /\
  pairs_exact s.1 (fun b a => sublist [b; a] (dedicated t)).

Lemma seen_bits t seen b :
  word seen -> (forall n, has_bit seen n = true <-> n ∈ dedicated t) -> b ∈ set_bits seen <-> b ∈ dedicated t.
Proof.
  intros Hw H. rewrite set_bits_filter, list_elem_of_In, filter_In, H, in_seq by done.
  split; [by intros [_ ?]|]. intros Hb. pose proof (dedicated_elem_range _ _ Hb). split; [lia | done].
Qed.

(** Closing the pairs with one more character. *)
Lemma pairs_exact_snoc sig sig' t after l :
  pairs_exact sig (fun b a => sublist [b; a] (dedicated t)) -> (forall b, b ∈ l <-> b ∈ dedicated t) ->
  (forall i, bit_at sig' i = true <-> bit_at sig i = true \/ i ∈ map (fun b => pair_of b after) l) ->
  pairs_exact sig' (fun b a => sublist [b; a] (dedicated t ++ [after])).
Proof.
  intros Hsig Hin Hsig' pair. rewrite (Hsig' pair), (Hsig pair), list_elem_of_In, in_map_iff. split.
  - intros [(b & a & -> & H)|(b & <- & Hb%list_elem_of_In%Hin)].
    + exists b, a. rewrite sublist_pair_snoc. auto.
    + exists b, after. rewrite sublist_pair_snoc. auto.
  - intros (b & a & -> & [H|[-> Hb]]%sublist_pair_snoc); [left; eauto|]. right. exists b. split; [done|].
    by apply list_elem_of_In, Hin.
Qed.

Lemma label_pairs_step t s c : label_state t s -> exists s', label_pairs s c = Some s' /\ label_state (t ++ [c]) s'.
Proof.
  destruct s as [sig seen]. intros (H1 & H2 & H3 & H4). cbn [fst snd] in *. unfold label_pairs.
  destruct (dedicated_index c) as [after|] eqn:Ec.
  - pose proof (dedicated_range c after Ec) as Ha. pose proof (fun b => seen_bits t seen b H2 H3) as Hin.
    generalize dependent (set_bits seen). intros l Hin.
    destruct (mark_pairs_spec (fun b => pair_of b after) l sig) as (sig' & E & H1' & H4'); [done| |].
    { apply Forall_forall. intros b Hb%Hin%dedicated_elem_range. by apply pair_of_range. }
    exists (sig', Z.lor seen (bit after)). rewrite E. split; [done|]. unfold label_state. cbn [fst snd].
    rewrite dedicated_snoc, Ec. split_and!; [done | apply word_lor; [done | apply word_bit; lia] | |].
    + intros n. rewrite has_bit_lor, orb_true_iff, H3, bool_decide_eq_true. set_solver.
    + by apply (pairs_exact_snoc sig sig' t after l).
  - exists (sig, seen). split; [done|]. unfold label_state. cbn [fst snd]. rewrite dedicated_snoc, Ec, app_nil_r. auto.
Qed.

Lemma bit_at_zeros n i : bit_at (replicate n 0) i = false.
Proof.
  unfold bit_at. destruct (replicate n 0 !! _) as [w|] eqn:E; cbn; [|apply has_bit_0].
  apply lookup_replicate in E as [-> _]. apply has_bit_0.
Qed.

Lemma label_pairs_spec t :
  exists s, ofold label_pairs (replicate ORDERED_PAIR_WORDS 0, 0) t = Some s /\ label_state t s.
Proof.
  apply ofold_inv; [|intros; by apply label_pairs_step]. unfold label_state, signature_ok. cbn [fst snd].
  rewrite length_replicate. split_and!; [done | by apply Forall_replicate | done | |].
  - intros n. rewrite has_bit_0. set_solver.
  - intros pair. rewrite bit_at_zeros. split; [done|]. intros (b & a & _ & H). apply sublist_length in H. cbn in H. lia.
Qed.

(** ** Keywords *)

Definition keyword_state (sig0 : list Z) (t : text) (s : list Z * option nat) : Prop :=
  signature_ok s.1 /\ s.2 = (last t ≫= dedicated_index) /\
  forall pair, bit_at s.1 pair = true <->
    bit_at sig0 pair = true \/ exists before after, pair = pair_of before after /\ adjacent t before after.

Lemma adjacent_snoc t c before after :
  adjacent (t ++ [c]) before after <->
  adjacent t before after \/ (last t ≫= dedicated_index = Some before /\ dedicated_index c = Some after).
Proof.
  split.
  - intros (u & x & y & v & E & Hx & Hy). destruct v as [|z v _] using rev_ind.
    + replace (u ++ [x; y]) with ((u ++ [x]) ++ [y]) in E by (by rewrite <- app_assoc).
      apply app_inj_tail in E as [-> ->]. right. by rewrite last_snoc.
    + left. exists u, x, y, v. split; [|done].
      replace (u ++ x :: y :: v ++ [z]) with ((u ++ x :: y :: v) ++ [z]) in E by (by rewrite <- app_assoc).
      by apply app_inj_tail in E as [-> _].
  - intros [(u & x & y & v & -> & H)|[H1 H2]].
    + exists u, x, y, (v ++ [c]). by rewrite <- app_assoc.
    + destruct t as [|x t _] using rev_ind; [done|]. rewrite last_snoc in H1. exists t, x, c, [].
      by rewrite <- app_assoc.
Qed.

Lemma keyword_pairs_step sig0 t s c :
  keyword_state sig0 t s -> exists s', keyword_pairs s c = Some s' /\ keyword_state sig0 (t ++ [c]) s'.
Proof.
  destruct s as [sig previous]. intros (H1 & H2 & H3). cbn [fst snd] in *. unfold keyword_pairs.
  destruct (match previous, dedicated_index c with Some b, Some a => Some (b, a) | _, _ => None end) as [[b a]|] eqn:E.
  - destruct previous as [b'|]; [|done]. destruct (dedicated_index c) as [a'|] eqn:Ec; simplify_eq.
    assert (Hb : (b < 36)%nat) by (destruct (last t); [by eapply dedicated_range | done]).
    destruct (mark_pair_spec sig (pair_of b a)) as (sig' & -> & H1' & H3'); [done | apply pair_of_range; [done | by eapply dedicated_range]|].
    exists (sig', Some a). split; [done|]. unfold keyword_state. cbn [fst snd]. rewrite last_snoc. split_and!; [done..|].
    intros pair. rewrite H3', orb_true_iff, H3, bool_decide_eq_true. setoid_rewrite adjacent_snoc. rewrite <- H2.
    split; [intros [[?|(b' & a' & -> & ?)]|<-]; [by left | right; eauto 10 | right; eauto 10]|].
    intros [?|(b' & a' & -> & [?|[[= ->] ?]])]; [by left; left | left; right; eauto | right; congruence].
  - exists (sig, dedicated_index c). split; [by destruct previous, (dedicated_index c)|].
    unfold keyword_state. cbn [fst snd]. rewrite last_snoc. split_and!; [done..|].
    intros pair. rewrite H3. setoid_rewrite adjacent_snoc. rewrite <- H2.
    split; [intros [?|(b & a & -> & ?)]; [by left | right; eauto 10]|].
    intros [?|(b & a & -> & [?|[H4 H5]])]; [by left | right; eauto|]. by rewrite H4, H5 in E.
Qed.

(** The signature of a prepared label holds the pairs of dedicated characters
    that occur in this order in the folded label, and the pairs that are adjacent
    in the keyword text. *)
Lemma signature_spec p text_ retained :
  normalized_label p = Some text_ -> keywords p = Some retained ->
  exists sig, ordered_pair_signature p = Some sig /\ signature_ok sig /\
    pairs_exact sig (fun b a => sublist [b; a] (dedicated text_) \/ adjacent retained b a).
Proof.
  intros Hn Hr. unfold ordered_pair_signature. rewrite Hn. cbn [mbind option_bind].
  destruct (label_pairs_spec text_) as ([sig seen] & -> & H1 & _ & _ & H2). cbn [mbind option_bind fst snd] in *. rewrite Hr.
  cbn [mbind option_bind].
  destruct (ofold_inv keyword_pairs (keyword_state sig) retained (sig, None)) as ([sig' previous] & -> & H1' & _ & H3).
  - split_and!; [done | done|]. intros pair. cbn [fst]. split; [by left|]. intros [?|(b & a & _ & u & c & d & v & E & _)]; [done|].
    by destruct u.
  - intros. by apply keyword_pairs_step.
  - cbn [mbind option_bind fst] in *. exists sig'. split_and!; [done..|]. intros pair. rewrite H3. rewrite (H2 pair). naive_solver.
Qed.

(** ** The pairs of a query *)

Lemma token_pairs_adjacent previous t pair :
  pair ∈ token_pairs previous t ->
  (exists before after, pair = pair_of before after /\ adjacent t before after) \/
  (exists before after c t', t = c :: t' /\ previous = Some before /\ dedicated_index c = Some after /\ pair = pair_of before after).
Proof.
  revert previous. induction t as [|c t IH]; intros previous; cbn [token_pairs]; [set_solver|].
  intros H. assert (Hcase : pair ∈ token_pairs (dedicated_index c) t \/
    exists before after, previous = Some before /\ dedicated_index c = Some after /\ pair = pair_of before after).
  { destruct previous as [b|], (dedicated_index c) as [a|]; rewrite ?elem_of_cons in H; naive_solver. }
  destruct Hcase as [H'|(b & a & -> & Hc & ->)]; [|right; by exists b, a, c, t].
  left. apply IH in H' as [(b & a & -> & u & x & y & v & -> & H')|(b & a & d & t' & -> & Hb & Ha & ->)].
  - exists b, a. split; [done|]. exists (c :: u), x, y, v. done.
  - exists b, a. split; [done|]. by exists [], c, d, t'.
Qed.

Lemma adjacent_infix u t v before after : adjacent t before after -> adjacent (u ++ t ++ v) before after.
Proof.
  intros (w & x & y & z & -> & H). exists (u ++ w), x, y, (z ++ v). split; [|done]. by rewrite <- !app_assoc.
Qed.

Lemma omap_sublist {A B} (f : A -> option B) l k : sublist l k -> sublist (omap f l) (omap f k).
Proof.
  induction 1 as [|x l k _ IH|x l k _ IH]; cbn; [done| |].
  - destruct (f x); [by constructor | done].
  - destruct (f x); [by constructor | done].
Qed.

Lemma adjacent_sublist t before after : adjacent t before after -> sublist [before; after] (dedicated t).
Proof.
  intros (u & c & d & v & -> & Hc & Hd). unfold dedicated. rewrite omap_app. cbn. rewrite Hc, Hd.
  apply sublist_inserts_l. do 2 constructor. apply sublist_nil_l.
Qed.

(** Whatever reading lets a token through, its pairs are in the signature. *)
Lemma token_pairs_in_signature p text_ retained token policy sig pair :
  token_may_match p text_ retained token policy = true ->
  pairs_exact sig (fun b a => sublist [b; a] (dedicated text_) \/ adjacent retained b a) ->
  pair ∈ token_pairs None token -> bit_at sig pair = true.
Proof.
  intros Hmay Hsig Hp. apply token_pairs_adjacent in Hp as [(b & a & -> & Hadj)|(? & ? & ? & ? & _ & ? & _)]; [|done].
  apply Hsig. exists b, a. split; [done|].
  unfold token_may_match in Hmay. destruct token as [|x token]; [done|].
  rewrite !orb_true_iff, andb_true_iff in Hmay. destruct Hmay as [[H|H]|[H _]].
  - apply contains_iff in H as (u & v & ->). left. apply adjacent_sublist. by apply adjacent_infix.
  - apply contains_iff in H as (u & v & ->). right. by apply adjacent_infix.
  - apply ordered_subsequence_iff in H. left. etrans; [by apply adjacent_sublist | by apply omap_sublist].
Qed.

Lemma push_new_elem pairs pair x : x ∈ push_new pairs pair <-> x ∈ pairs \/ x = pair.
Proof. unfold push_new. case_bool_decide; set_solver. Qed.

Lemma push_all_elem l pairs x : x ∈ foldl push_new pairs l <-> x ∈ pairs \/ x ∈ l.
Proof.
  revert pairs. induction l as [|y l IH]; intros pairs; cbn; [set_solver|]. rewrite IH, push_new_elem. set_solver.
Qed.

Lemma query_pairs_elem q x : x ∈ query_ordered_pairs q <-> exists token, token ∈ tokens q /\ x ∈ token_pairs None token.
Proof.
  unfold query_ordered_pairs. generalize (tokens q). intros l.
  assert (Hgen : forall acc, x ∈ foldl (fun pairs token => foldl push_new pairs (token_pairs None token)) acc l <->
    x ∈ acc \/ exists token, token ∈ l /\ x ∈ token_pairs None token).
  { induction l as [|t l IH]; intros acc; cbn; [set_solver|]. rewrite IH, push_all_elem. set_solver. }
  rewrite Hgen. set_solver.
Qed.

Lemma query_pairs_range q x : x ∈ query_ordered_pairs q -> (x < ORDERED_PAIR_COUNT)%nat.
Proof.
  rewrite query_pairs_elem. intros (t & _ & [(b & a & -> & u & c & d & v & _ & Hc & Hd)|(? & ? & ? & ? & _ & ? & _)]%token_pairs_adjacent); [|done].
  apply pair_of_range; by eapply dedicated_range.
Qed.
End Signature.
