(* ===== verification/CatalogMerge.v ===== *)
(** Merging a batch into one plugin's slice: the items become what writing them
    one after the other into a list makes of them, and every index stays the
    image of the items. *)

From Stdlib Require Import SpecFloat.
From S2P Require Import Prelude Text StdFloat Utf8 Items Query QueryText QueryPrepare Bits Catalog.
From S2P Require Import CatalogIndex.

#[local] Opaque set_bits.

(** * Postings *)

Lemma post_spec position present l :
  words l ->
  words (post position present l) /\ length (post position present l) = Nat.max (length l) (S (position / 64)) /\
  forall i, bit_at (post position present l) i = if bool_decide (i = position) then present else bit_at l i.
Proof.
  intros Hl. pose proof (words_grow l (position / 64) Hl) as Hg. unfold post. destruct present.
  - split_and!; [by apply words_set | unfold set_at; by rewrite length_alter, length_grow|].
    intros i. rewrite bit_at_set by (rewrite length_grow; lia). rewrite bit_at_grow.
    destruct (decide (i = position)) as [->|Hne]; [by rewrite !bool_decide_eq_true_2, orb_true_r|].
    by rewrite !bool_decide_eq_false_2, orb_false_r.
  - split_and!; [by apply words_clear | unfold clear_at; by rewrite length_alter, length_grow|].
    intros i. rewrite bit_at_clear, bit_at_grow.
    destruct (decide (i = position)) as [->|Hne]; [by rewrite !bool_decide_eq_true_2, andb_false_r|].
    by rewrite !bool_decide_eq_false_2, andb_true_r.
Qed.

(** ** The pairs of a signature *)

Lemma elem_of_imap_join {A B} (f : nat -> A -> list B) l x :
  x ∈ mjoin (imap f l) <-> exists i a, l !! i = Some a /\ x ∈ f i a.
Proof.
  rewrite list_elem_of_join. split.
  - intros (y & Hx & (i & Hi)%list_elem_of_lookup). apply list_lookup_imap_Some in Hi as (a & Hi & ->). eauto.
  - intros (i & a & Hi & Hx). exists (f i a). split; [done|]. apply list_elem_of_lookup. exists i.
    apply list_lookup_imap_Some. eauto.
Qed.

Lemma div_mod_64 i n : (n < 64 -> (i * 64 + n) / 64 = i /\ (i * 64 + n) mod 64 = n)%nat.
Proof.
  intros Hn. split.
  - symmetry. apply Nat.div_unique with n; lia.
  - symmetry. apply Nat.mod_unique with i; lia.
Qed.

Lemma signature_pairs_elem sig x : words sig -> x ∈ signature_pairs sig <-> bit_at sig x = true.
Proof.
  intros Hw. unfold signature_pairs. rewrite elem_of_imap_join. unfold bit_at. split.
  - intros (i & w & Hi & Hx). apply list_elem_of_In, in_map_iff in Hx as (n & <- & Hn).
    pose proof (Forall_lookup_1 _ _ _ _ Hw Hi) as Hww. rewrite set_bits_filter in Hn by done.
    apply filter_In in Hn as [Hn%in_seq Hb]. destruct (div_mod_64 i n) as [-> ->]; [lia|]. by rewrite Hi.
  - intros H. destruct (sig !! (x / 64)%nat) as [w|] eqn:E; cbn in H; [|by rewrite has_bit_0 in H].
    exists (x / 64)%nat, w. split; [done|]. pose proof (Forall_lookup_1 _ _ _ _ Hw E) as Hww.
    apply list_elem_of_In, in_map_iff. exists (x mod 64)%nat. pose proof (Nat.div_mod_eq x 64). pose proof (mod_64 x).
    split; [lia|]. rewrite set_bits_filter by done. apply filter_In. split; [apply in_seq; lia | done].
Qed.

(** Every bucket of the pairs in [l] has the position set as said; everything
    else is as it was. *)
Definition posted (position : nat) (present : bool) (l : list nat) (old new : list (list Z)) : Prop :=
  length new = length old /\
  forall pair posting', new !! pair = Some posting' -> exists posting, old !! pair = Some posting /\
    (words posting -> words posting') /\
    (words posting -> forall i, bit_at posting' i
       = if bool_decide (i = position /\ pair ∈ l) then present else bit_at posting i).

(** One bucket of one pair. *)
Definition post_bucket (position : nat) (present : bool) (posting : list Z) : list Z :=
  if present then post position true posting else clear_at posting position.

Lemma post_bucket_spec position present posting :
  words posting ->
  words (post_bucket position present posting) /\
  forall i, bit_at (post_bucket position present posting) i = if bool_decide (i = position) then present else bit_at posting i.
Proof.
  intros Hw. unfold post_bucket. destruct present; [by destruct (post_spec position true posting Hw) as (? & _ & ?)|].
  split; [by apply words_clear|]. intros i. rewrite bit_at_clear.
  destruct (decide (i = position)) as [->|Hne]; [by rewrite !bool_decide_eq_true_2, andb_false_r|].
  by rewrite !bool_decide_eq_false_2, andb_true_r.
Qed.

Lemma post_pair_step position present l old new pair :
  posted position present l old new -> (pair < length old)%nat ->
  exists new', post_pair position present new pair = Some new' /\ posted position present (l ++ [pair]) old new'.
Proof.
  intros [Hlen H] Hp. unfold post_pair. destruct (lookup_lt_is_Some_2 new pair) as [posting E]; [lia|]. rewrite E.
  exists (<[pair := post_bucket position present posting]> new). split; [done|]. split; [by rewrite length_insert|].
  intros pair' posting' E'. destruct (decide (pair' = pair)) as [->|Hne].
  - rewrite list_lookup_insert_eq in E' by lia. injection E' as <-. destruct (H pair posting E) as (before & Ho & Hw & Hb).
    exists before. split_and!; [done | by intros Hx%Hw; apply post_bucket_spec|]. intros Hx i.
    rewrite (proj2 (post_bucket_spec position present posting (Hw Hx)) i), (Hb Hx i).
    destruct (decide (i = position)) as [->|]; [rewrite !bool_decide_eq_true_2 by set_solver; done|].
    rewrite !bool_decide_eq_false_2 by naive_solver. done.
  - rewrite list_lookup_insert_ne in E' by done. destruct (H pair' posting' E') as (b' & Ho' & Hw' & Hb').
    exists b'. split_and!; [done..|]. intros Hwb i. rewrite Hb' by done.
    f_equal. by rewrite (bool_decide_ext (i = position /\ pair' ∈ l) (i = position /\ pair' ∈ l ++ [pair])) by set_solver.
Qed.

Lemma set_pair_postings_spec c position sig present :
  words sig -> (forall x, bit_at sig x = true -> (x < length (ordered_pair_postings c))%nat) ->
  exists buckets, set_ordered_pair_postings c position sig present = Some (c <| ordered_pair_postings := buckets |>) /\
    length buckets = length (ordered_pair_postings c) /\
    forall pair posting', buckets !! pair = Some posting' -> exists posting, ordered_pair_postings c !! pair = Some posting /\
      (words posting -> words posting') /\
      (words posting -> forall i, bit_at posting' i
         = if bool_decide (i = position) && bit_at sig pair then present else bit_at posting i).
Proof.
  intros Hw Hr. unfold set_ordered_pair_postings.
  destruct (ofold_inv (post_pair position present)
              (fun l => posted position present l (ordered_pair_postings c)) (signature_pairs sig) (ordered_pair_postings c))
    as (buckets & E & Hlen & H).
  - split; [done|]. intros pair posting' E. exists posting'. split_and!; [done..|]. intros _ i.
    by rewrite bool_decide_eq_false_2 by set_solver.
  - intros l x s Hx Hs. apply post_pair_step; [done|]. apply Hr. by apply signature_pairs_elem.
  - rewrite E. exists buckets. split_and!; [done..|]. intros pair posting' Ep. destruct (H pair posting' Ep) as (posting & H1 & H2 & H3).
    exists posting. split_and!; [done..|]. intros Hp i. rewrite (H3 Hp i).
    assert (Hb : bool_decide (i = position /\ pair ∈ signature_pairs sig) = bool_decide (i = position) && bit_at sig pair).
    { apply eq_bool_prop_intro. rewrite !Is_true_true, andb_true_iff, !bool_decide_eq_true, signature_pairs_elem by done. done. }
    by rewrite Hb.
Qed.

(** * The invariant of a slice *)

Section Slice.
Context {U : Unicode}.

Definition entry_signature (e : ItemIndex) : list Z := default [] (ordered_pair_signature (prepared e)).
Definition entry_prefix (e : ItemIndex) : option nat := entry_label e ≫= prefix_pair.

(** What an entry made from an item provides. *)
Record entry_ok (item : Item) (e : ItemIndex) : Prop := {
  entry_new : new_index item = Some e;
  entry_prepared : prepare_item (search_item item) = Some (prepared e);
  entry_mask : mask e = presence_mask (searchable_text (search_item item));
  entry_text : exists text_, entry_label e = Some text_;
  entry_sig : ordered_pair_signature (prepared e) = Some (entry_signature e) /\ words (entry_signature e);
  entry_sig_range : forall x, bit_at (entry_signature e) x = true -> (x < ORDERED_PAIR_COUNT)%nat;
}.

Lemma new_index_ok item : exists e, entry_ok item e.
Proof.
  destruct (prepare_item_total (search_item item)) as (p & rest & E & _ & _ & _ & Hn & (retained & Hr & _) & _).
  destruct (signature_spec p _ _ Hn Hr) as (sig & Hs & [_ Hw] & Hp).
  exists (mkIndex p (presence_mask (searchable_text (search_item item)))). split; cbn [prepared mask].
  - unfold prepare_item, searchable_text in *. unfold new_index.
    destruct (searchable_text_with_label (search_item item)) as [text_ bytes]. cbn [fst] in *. by rewrite E.
  - done.
  - done.
  - by eexists.
  - unfold entry_signature. cbn [prepared]. by rewrite Hs.
  - unfold entry_signature. cbn [prepared]. rewrite Hs. cbn. intros x (b & a & -> & H)%Hp.
    assert (Hba : (b < 36 /\ a < 36)%nat).
    { destruct H as [H|(u & c & d & v & _ & Hc & Hd)]; [|split; by eapply dedicated_range].
      split; (eapply dedicated_elem_range, elem_of_sublist; [|exact H]); set_solver. }
    by apply pair_of_range; apply Hba.
Qed.

Lemma new_index_entry item e : new_index item = Some e -> entry_ok item e.
Proof. intros H. destruct (new_index_ok item) as [e' He']. pose proof (entry_new _ _ He') as H'. rewrite H in H'. by injection H' as <-. Qed.

Lemma prefix_pair_range t x : prefix_pair t = Some x -> (x < ORDERED_PAIR_COUNT)%nat.
Proof.
  unfold prefix_pair. destruct t as [|c [|d t]]; [done..|]. intros H.
  apply bind_Some in H as (b & Hb & H). apply bind_Some in H as (a & Ha & [= <-]).
  apply pair_of_range; by eapply dedicated_range.
Qed.

Lemma entry_prefix_range e x : entry_prefix e = Some x -> (x < ORDERED_PAIR_COUNT)%nat.
Proof. unfold entry_prefix. intros (t & _ & H)%bind_Some. by eapply prefix_pair_range. Qed.

(** Everything but the prefix buckets. *)
Record core (c : PluginCatalog) : Prop := {
  core_index : Forall2 (fun item e => new_index item = Some e) (pc_items c) (pc_index c);
  core_positions : forall id i,
    positions c !! id = Some i <-> exists item, pc_items c !! i = Some item /\ stable_id item = id;
  core_posting_count : length (postings c) = 36%nat;
  core_postings : forall b posting, postings c !! b = Some posting ->
    words posting /\ ((length (pc_items c) + 63) / 64 <= length posting)%nat /\
    forall i e, pc_index c !! i = Some e -> bit_at posting i = has_bit (mask e) b;
  core_pair_count : length (ordered_pair_postings c) = ORDERED_PAIR_COUNT;
  core_pairs : forall pair posting, ordered_pair_postings c !! pair = Some posting ->
    words posting /\
    forall i, bit_at posting i = is_some_and (pc_index c !! i) (fun e => bit_at (entry_signature e) pair);
}.

(** The positions of the labels that open with a pair, in order. *)
Definition opens_with (pair : nat) (e : ItemIndex) : bool := bool_decide (entry_prefix e = Some pair).

Definition positions_with (pair : nat) (index : list ItemIndex) : list nat :=
  map fst (List.filter (fun pe => opens_with pair pe.2) (enumerate index)).

(** The buckets that are not due for rebuilding are exact. *)
Record prefixes (dirty : list bool) (c : PluginCatalog) : Prop := {
  prefix_count : length (prefix_postings c) = ORDERED_PAIR_COUNT;
  dirty_count : length dirty = ORDERED_PAIR_COUNT;
  prefix_exact : forall pair, dirty !! pair = Some false -> prefix_postings c !! pair = Some (positions_with pair (pc_index c));
}.

Record slice_ok (c : PluginCatalog) : Prop := {
  slice_core : core c;
  slice_prefix_count : length (prefix_postings c) = ORDERED_PAIR_COUNT;
  slice_prefixes : forall pair, (pair < ORDERED_PAIR_COUNT)%nat ->
    prefix_postings c !! pair = Some (positions_with pair (pc_index c));
}.

Lemma core_length c : core c -> length (pc_index c) = length (pc_items c).
Proof. intros H. symmetry. by eapply Forall2_length, core_index. Qed.

Lemma core_entry c i e : core c -> pc_index c !! i = Some e -> exists item, pc_items c !! i = Some item /\ entry_ok item e.
Proof.
  intros H E. destruct (Forall2_lookup_r _ _ _ _ _ (core_index c H) E) as (item & Hi & He). eauto using new_index_entry.
Qed.

(** ** The reference: writing into a list by identity *)

Fixpoint put_item (l : list Item) (item : Item) : list Item :=
  match l with
  | [] => [item]
  | x :: l' => if String.eqb (stable_id x) (stable_id item) then item :: l' else x :: put_item l' item
  end.

Lemma put_item_append l item : (forall x, x ∈ l -> stable_id x <> stable_id item) -> put_item l item = l ++ [item].
Proof.
  induction l as [|x l IH]; intros H; cbn; [done|]. rewrite (proj2 (String.eqb_neq _ _)) by (apply H; set_solver).
  rewrite IH; [done|]. intros y Hy. apply H. set_solver.
Qed.

Lemma put_item_replace l i item old :
  l !! i = Some old -> stable_id old = stable_id item ->
  (forall j x, l !! j = Some x -> stable_id x = stable_id item -> j = i) -> put_item l item = <[i := item]> l.
Proof.
  revert i. induction l as [|x l IH]; intros i Hi Hid Hu; [done|]. cbn.
  destruct (String.eqb_spec (stable_id x) (stable_id item)) as [E|E].
  - assert (0%nat = i) as <- by (by apply (Hu 0%nat x)). done.
  - destruct i as [|i]; cbn in Hi; [congruence|]. cbn. rewrite (IH i); [done..|].
    intros j y Hj Hy. specialize (Hu (S j) y Hj Hy). lia.
Qed.

(** ** Writing the postings of one position *)

(** Positions before [n] fill the words a catalog of [n] items has. *)
Lemma word_count_S n l : ((n + 63) / 64 <= l -> (S n + 63) / 64 <= Nat.max l (S (n / 64)))%nat.
Proof. intros H. assert ((S n + 63) / 64 = S (n / 64))%nat as ->; [|lia]. replace (S n + 63)%nat with (n + 1 * 64)%nat by lia. rewrite Nat.div_add by lia. lia. Qed.

(** The postings of one position after it is written. *)
Definition written_postings (position : nat) (m : Z) (l l' : list (list Z)) : Prop :=
  l' = imap (fun b posting => post position (has_bit m b) posting) l.

(** The pair buckets of one position after it is written. *)
Definition written_pairs (position : nat) (sig : list Z) (l l' : list (list Z)) : Prop :=
  length l' = length l /\
  forall pair posting', l' !! pair = Some posting' -> exists posting, l !! pair = Some posting /\
    (words posting -> words posting') /\
    (words posting -> forall i, i <> position -> bit_at posting' i = bit_at posting i) /\
    (words posting -> bit_at posting' position = bit_at sig pair).

Lemma core_append c item e c' :
  core c -> entry_ok item e -> positions c !! stable_id item = None ->
  pc_items c' = pc_items c ++ [item] -> pc_index c' = pc_index c ++ [e] ->
  positions c' = <[stable_id item := length (pc_items c)]> (positions c) ->
  written_postings (length (pc_items c)) (mask e) (postings c) (postings c') ->
  written_pairs (length (pc_items c)) (entry_signature e) (ordered_pair_postings c) (ordered_pair_postings c') ->
  core c'.
Proof.
  intros Hc He Hnone Ei Ex Ep Hpost [Hlen Hpairs]. pose proof (core_length c Hc) as Hl.
  split.
  - rewrite Ei, Ex. apply Forall2_app; [apply Hc|]. constructor; [apply He | done].
  - intros id i. rewrite Ep, Ei. rewrite lookup_insert_Some. split.
    + intros [[<- <-]|[Hne H]]; [exists item; by rewrite list_lookup_middle|].
      apply (core_positions c Hc) in H as (x & Hx & Hid). exists x. split; [by apply lookup_app_l_Some | done].
    + intros (x & Hx & Hid). apply lookup_app_Some in Hx as [Hx|[Hge Hx]].
      * right. assert (positions c !! id = Some i) as H by (apply Hc; eauto). split; [|done]. intros E. congruence.
      * left. apply list_lookup_singleton_Some in Hx as [Hi ->]. split; [done | lia].
  - rewrite Hpost, length_imap. apply Hc.
  - intros b posting' E. rewrite Hpost in E. apply list_lookup_imap_Some in E as (posting & E & ->).
    destruct (core_postings c Hc b posting E) as (Hw & Hn & Hb).
    destruct (post_spec (length (pc_items c)) (has_bit (mask e) b) posting Hw) as (Hw' & Hlen' & Hb').
    split_and!; [done | rewrite Ei, length_app, Hlen', Nat.add_1_r; by apply word_count_S|].
    intros i e' E'. rewrite Hb'. rewrite Ex in E'. apply lookup_app_Some in E' as [E'|[Hge E']].
    + rewrite bool_decide_eq_false_2 by (apply lookup_lt_Some in E'; lia). by apply Hb.
    + apply list_lookup_singleton_Some in E' as [Hi <-]. by rewrite bool_decide_eq_true_2 by lia.
  - rewrite Hlen. apply Hc.
  - intros pair posting' E. destruct (Hpairs pair posting' E) as (posting & E' & Hw & Hold & Hnew).
    destruct (core_pairs c Hc pair posting E') as [Hw0 Hb]. split; [by apply Hw|]. intros i. rewrite Ex.
    destruct (decide (i = length (pc_items c))) as [->|Hne].
    + rewrite (Hnew Hw0), <- Hl, list_lookup_middle by done. done.
    + rewrite (Hold Hw0 i Hne), Hb. f_equal. destruct (decide (i < length (pc_index c))%nat).
      * by rewrite lookup_app_l.
      * rewrite !lookup_ge_None_2; [done | rewrite length_app; cbn; lia | lia].
Qed.

Lemma core_unique c i x item position :
  core c -> positions c !! stable_id item = Some position -> pc_items c !! i = Some x -> stable_id x = stable_id item -> i = position.
Proof.
  intros Hc Hp Hi Hid. assert (positions c !! stable_id item = Some i) as H by (apply Hc; eauto). congruence.
Qed.

Lemma core_replace c item e position c' :
  core c -> entry_ok item e -> positions c !! stable_id item = Some position ->
  pc_items c' = <[position := item]> (pc_items c) -> pc_index c' = <[position := e]> (pc_index c) ->
  positions c' = positions c ->
  written_postings position (mask e) (postings c) (postings c') ->
  written_pairs position (entry_signature e) (ordered_pair_postings c) (ordered_pair_postings c') ->
  core c'.
Proof.
  intros Hc He Hpos Ei Ex Ep Hpost [Hlen Hpairs]. pose proof (core_length c Hc) as Hl.
  pose proof (proj1 (core_positions c Hc _ _) Hpos) as (old & Hold & Hid). pose proof (lookup_lt_Some _ _ _ Hold) as Hlt.
  split.
  - rewrite Ei, Ex. apply Forall2_insert; [apply Hc | apply He].
  - intros id i. rewrite Ep, Ei, (core_positions c Hc). split.
    + intros (x & Hx & Hidx). destruct (decide (i = position)) as [->|Hne].
      * exists item. rewrite list_lookup_insert_eq by done. split; [done | congruence].
      * exists x. by rewrite list_lookup_insert_ne.
    + intros (x & Hx & Hidx). apply list_lookup_insert_Some in Hx as [(<- & <- & _)|[Hne Hx]]; [|eauto].
      exists old. split; [done | congruence].
  - rewrite Hpost, length_imap. apply Hc.
  - intros b posting' E. rewrite Hpost in E. apply list_lookup_imap_Some in E as (posting & E & ->).
    destruct (core_postings c Hc b posting E) as (Hw & Hn & Hb).
    destruct (post_spec position (has_bit (mask e) b) posting Hw) as (Hw' & Hlen' & Hb').
    split_and!; [done | rewrite Ei, length_insert, Hlen'; lia|].
    intros i e' E'. rewrite Hb'. rewrite Ex in E'. apply list_lookup_insert_Some in E' as [(<- & <- & _)|[Hne E']].
    + by rewrite bool_decide_eq_true_2.
    + rewrite bool_decide_eq_false_2 by done. by apply Hb.
  - rewrite Hlen. apply Hc.
  - intros pair posting' E. destruct (Hpairs pair posting' E) as (posting & E' & Hw & Hold' & Hnew).
    destruct (core_pairs c Hc pair posting E') as [Hw0 Hb]. split; [by apply Hw|]. intros i. rewrite Ex.
    destruct (decide (i = position)) as [->|Hne].
    + rewrite (Hnew Hw0), list_lookup_insert_eq by lia. done.
    + rewrite (Hold' Hw0 i Hne), Hb, list_lookup_insert_ne by done. done.
Qed.

(** ** The pair buckets *)

Lemma append_pairs c e :
  core c -> (forall x, bit_at (entry_signature e) x = true -> (x < ORDERED_PAIR_COUNT)%nat) -> words (entry_signature e) ->
  forall c1, ordered_pair_postings c1 = ordered_pair_postings c ->
  exists buckets,
    set_ordered_pair_postings c1 (length (pc_items c)) (entry_signature e) true = Some (c1 <| ordered_pair_postings := buckets |>) /\
    written_pairs (length (pc_items c)) (entry_signature e) (ordered_pair_postings c) buckets.
Proof.
  intros Hc Hr Hw c1 E1.
  destruct (set_pair_postings_spec c1 (length (pc_items c)) (entry_signature e) true) as (buckets & E & Hlen & H); [done| |].
  { rewrite E1, (core_pair_count c Hc). exact Hr. }
  rewrite E1 in Hlen, H. exists buckets. split; [done|]. split; [done|]. intros pair posting' Ep. destruct (H pair posting' Ep) as (posting & Ho & Hww & Hb).
  destruct (core_pairs c Hc pair posting Ho) as [Hw0 Hb0]. exists posting. split_and!; [done..| |].
  - intros _ i Hi. by rewrite (Hb Hw0 i), bool_decide_eq_false_2.
  - intros _. rewrite (Hb Hw0), bool_decide_eq_true_2 by done. cbn [andb].
    destruct (bit_at (entry_signature e) pair) eqn:Es; [done|]. rewrite Hb0.
    by rewrite lookup_ge_None_2 by (rewrite (core_length c Hc); lia).
Qed.

Lemma replace_pairs c position old sig sig_old :
  core c -> pc_index c !! position = Some old -> sig_old = entry_signature old -> words sig_old ->
  (forall x, bit_at sig_old x = true -> (x < ORDERED_PAIR_COUNT)%nat) ->
  words sig -> (forall x, bit_at sig x = true -> (x < ORDERED_PAIR_COUNT)%nat) ->
  forall f : list (list Z) -> list (list Z), exists cleared buckets,
    set_ordered_pair_postings c position sig_old false = Some (c <| ordered_pair_postings := cleared |>) /\
    set_ordered_pair_postings (c <| ordered_pair_postings := cleared |> <| postings ::= f |>) position sig true
      = Some (c <| ordered_pair_postings := cleared |> <| postings ::= f |> <| ordered_pair_postings := buckets |>) /\
    written_pairs position sig (ordered_pair_postings c) buckets.
Proof.
  intros Hc Hold -> Hwo Hro Hw Hr f.
  destruct (set_pair_postings_spec c position (entry_signature old) false) as (cleared & E1 & Hl1 & H1); [done| |].
  { by rewrite (core_pair_count c Hc). }
  destruct (set_pair_postings_spec (c <| ordered_pair_postings := cleared |> <| postings ::= f |>) position sig true)
    as (buckets & E2 & Hl2 & H2); [done | cbn; by rewrite Hl1, (core_pair_count c Hc)|].
  exists cleared, buckets. split_and!; [done..|]. cbn in Hl2, H2. split; [lia|]. intros pair posting' Ep.
  destruct (H2 pair posting' Ep) as (middle & Em & Hwm & Hbm). destruct (H1 pair middle Em) as (posting & Eo & Hwp & Hbp).
  destruct (core_pairs c Hc pair posting Eo) as [Hw0 Hb0]. pose proof (Hwp Hw0) as Hw1. exists posting. split_and!; [done | by intros; apply Hwm | |].
  - intros _ i Hi. by rewrite (Hbm Hw1 i), (Hbp Hw0 i), bool_decide_eq_false_2.
  - intros _. rewrite (Hbm Hw1), (Hbp Hw0), bool_decide_eq_true_2 by done. cbn [andb].
    destruct (bit_at sig pair) eqn:Es; [done|]. destruct (bit_at (entry_signature old) pair) eqn:Eold; [done|].
    rewrite Hb0, Hold. exact Eold.
Qed.

(** ** The prefix buckets *)

Lemma enumerate_snoc {A} (l : list A) x : enumerate (l ++ [x]) = enumerate l ++ [(length l, x)].
Proof. unfold enumerate. rewrite imap_app. cbn. by rewrite Nat.add_0_r. Qed.

Lemma positions_with_snoc pair l e :
  positions_with pair (l ++ [e]) = positions_with pair l ++ if opens_with pair e then [length l] else [].
Proof.
  unfold positions_with. rewrite enumerate_snoc, List.filter_app, map_app. cbn. f_equal. by destruct (opens_with pair e).
Qed.

Lemma filter_enumerate_ext {A} (p : A -> bool) l l' :
  map p l = map p l' ->
  map fst (List.filter (fun x => p x.2) (enumerate l)) = map fst (List.filter (fun x => p x.2) (enumerate l')).
Proof.
  revert l'. induction l as [|x l IH] using rev_ind; intros l' H.
  - by destruct l'.
  - destruct l' as [|y l' _] using rev_ind; [by destruct l|]. rewrite !map_app in H. apply app_inj_tail in H as [H1 H2].
    rewrite !enumerate_snoc, !List.filter_app, !map_app, (IH l' H1). f_equal. cbn [List.filter snd]. rewrite H2.
    assert (length l = length l') as -> by (apply (f_equal length) in H1; by rewrite !length_map in H1).
    by destruct (p y).
Qed.

Lemma positions_with_insert pair l i e old :
  l !! i = Some old -> (entry_prefix e = Some pair <-> entry_prefix old = Some pair) ->
  positions_with pair (<[i := e]> l) = positions_with pair l.
Proof.
  intros Hi H. unfold positions_with. apply (filter_enumerate_ext (opens_with pair)).
  change (map ?f ?l) with (f <$> l). rewrite list_fmap_insert. apply list_insert_id. rewrite list_lookup_fmap, Hi. cbn. f_equal.
  by apply bool_decide_ext.
Qed.

Lemma push_prefix_spec buckets prefix position :
  (forall x, prefix = Some x -> (x < length buckets)%nat) ->
  exists buckets', push_prefix buckets prefix position = Some buckets' /\ length buckets' = length buckets /\
    forall pair, buckets' !! pair = (fun l => l ++ if bool_decide (prefix = Some pair) then [position] else []) <$> buckets !! pair.
Proof.
  intros Hr. unfold push_prefix. destruct prefix as [x|].
  - specialize (Hr x eq_refl). destruct (lookup_lt_is_Some_2 buckets x Hr) as [l El]. rewrite El. eexists. split; [done|].
    rewrite length_insert. split; [done|]. intros pair. destruct (decide (x = pair)) as [->|Hne].
    + rewrite list_lookup_insert_eq, El by done. cbn. by rewrite bool_decide_eq_true_2.
    + rewrite list_lookup_insert_ne by done. rewrite bool_decide_eq_false_2 by congruence.
      destruct (buckets !! pair); cbn; by rewrite ?app_nil_r.
  - exists buckets. split_and!; [done..|]. intros pair. destruct (buckets !! pair); cbn; by rewrite ?app_nil_r.
Qed.

Lemma mark_dirty_spec dirty prefix :
  (forall x, prefix = Some x -> (x < length dirty)%nat) ->
  exists dirty', mark_dirty dirty prefix = Some dirty' /\ length dirty' = length dirty /\
    forall pair, dirty' !! pair = Some false -> dirty !! pair = Some false /\ prefix <> Some pair.
Proof.
  intros Hr. unfold mark_dirty. destruct prefix as [x|]; [|by exists dirty].
  specialize (Hr x eq_refl). destruct (lookup_lt_is_Some_2 dirty x Hr) as [d Ed]. rewrite Ed. eexists. split; [done|].
  rewrite length_insert. split; [done|]. intros pair H. apply list_lookup_insert_Some in H as [(_ & ? & _)|[Hne H]]; [done|].
  split; [done | congruence].
Qed.

(** ** One item *)

Lemma append_item_spec c dirty item e :
  core c -> prefixes dirty c -> entry_ok item e -> positions c !! stable_id item = None ->
  exists c', append_item c item e (entry_signature e) (entry_prefix e) = Some c' /\ core c' /\ prefixes dirty c' /\
    pc_items c' = pc_items c ++ [item].
Proof.
  intros Hc Hp He Hnone. pose proof He as [Hnew Hprep Hmask Htext [Hsig Hw] Hr]. unfold append_item.
  rewrite Hnone. change (debug_assert _) with (Some ()). cbn [mbind option_bind]. cbv zeta.
  match goal with |- context [set_ordered_pair_postings ?c1 _ _ _] =>
    destruct (append_pairs c e Hc Hr Hw c1 eq_refl) as (buckets & -> & Hpairs) end. cbn [mbind option_bind].
  destruct (push_prefix_spec (prefix_postings c) (entry_prefix e) (length (pc_items c))) as (pb & Epb & Hlen & Hpb).
  { intros x Hx. rewrite (prefix_count dirty c Hp). by eapply entry_prefix_range. }
  match goal with |- context [push_prefix ?b _ _] => change b with (prefix_postings c) end. rewrite Epb. eexists. split; [done|]. split_and!.
  - by apply (core_append c item e).
  - split; [cbn; rewrite Hlen; apply Hp | apply Hp|]. intros pair Hd. change (pb !! pair = Some (positions_with pair (pc_index c ++ [e]))).
    rewrite Hpb, (prefix_exact dirty c Hp pair Hd), positions_with_snoc, (core_length c Hc). done.
  - done.
Qed.

Lemma replace_item_spec c dirty item e position :
  core c -> prefixes dirty c -> entry_ok item e -> positions c !! stable_id item = Some position ->
  exists c' dirty', replace_item c dirty position item e (entry_signature e) (entry_prefix e) = Some (c', dirty') /\
    core c' /\ prefixes dirty' c' /\ pc_items c' = <[position := item]> (pc_items c).
Proof.
  intros Hc Hp He Hpos. pose proof (proj1 (core_positions c Hc _ _) Hpos) as (x & Hx & Hid).
  destruct (lookup_lt_is_Some_2 (pc_index c) position) as [old Hold].
  { rewrite (core_length c Hc). by eapply lookup_lt_Some. }
  destruct (core_entry c position old Hc Hold) as (x' & Hx' & Hok). destruct Hok as [_ _ _ [text_ Htext] [Hsig_old Hwo] Hro].
  pose proof He as [Hnew Hprep Hmask Htext' [Hsig Hw] Hr]. unfold replace_item.
  rewrite Hold. cbn [mbind option_bind]. rewrite Hsig_old. cbn [mbind option_bind]. rewrite Htext. cbn [mbind option_bind].
  assert (Epre : prefix_pair text_ = entry_prefix old) by (unfold entry_prefix; by rewrite Htext). rewrite Epre.
  assert (Hdirty : exists dirty',
    (if bool_decide (entry_prefix old = entry_prefix e) then Some dirty
     else d ← mark_dirty dirty (entry_prefix old); mark_dirty d (entry_prefix e)) = Some dirty' /\
    length dirty' = ORDERED_PAIR_COUNT /\
    forall pair, dirty' !! pair = Some false -> dirty !! pair = Some false /\
      (entry_prefix e = Some pair <-> entry_prefix old = Some pair)).
  { case_bool_decide as Eq; [exists dirty; split_and!; [done | apply Hp | by rewrite Eq]|].
    destruct (mark_dirty_spec dirty (entry_prefix old)) as (d1 & -> & L1 & H1).
    { intros y Hy. rewrite (dirty_count dirty c Hp). by eapply entry_prefix_range. }
    destruct (mark_dirty_spec d1 (entry_prefix e)) as (d2 & E2 & L2 & H2).
    { intros y Hy. rewrite L1, (dirty_count dirty c Hp). by eapply entry_prefix_range. }
    exists d2. split_and!; [done | rewrite L2, L1; apply Hp|]. intros pair [Ha Hb]%H2. apply H1 in Ha as [Ha Hb']. naive_solver. }
  destruct Hdirty as (dirty' & -> & Hlen & Hd). cbn [mbind option_bind].
  destruct (replace_pairs c position old (entry_signature e) _ Hc Hold eq_refl Hwo Hro Hw Hr
    (imap (fun b posting => post position (has_bit (mask e) b) posting))) as (cleared & buckets & -> & E2 & Hpairs).
  cbn [mbind option_bind]. unfold set_postings. rewrite E2. cbn [mbind option_bind].
  match goal with |- context [pc_items ?c1 !! position] => change (pc_items c1) with (pc_items c) end. rewrite Hx. cbn [mbind option_bind]. eexists _, dirty'. split; [done|]. split_and!.
  - by apply (core_replace c item e position).
  - split; [apply Hp | done|]. intros pair [Hd0 Hiff]%Hd.
    change (prefix_postings c !! pair = Some (positions_with pair (<[position := e]> (pc_index c)))).
    rewrite (prefix_exact dirty c Hp pair Hd0). f_equal.
    symmetry. by eapply positions_with_insert.
  - done.
Qed.

Definition added_by (c : PluginCatalog) (item : Item) : nat := match positions c !! stable_id item with Some _ => O | None => 1%nat end.

Lemma slice_merge_item_spec c added dirty item :
  core c -> prefixes dirty c ->
  exists c' dirty', merge_item (c, added, dirty) item = Some (c', (added_by c item + added)%nat, dirty') /\
    core c' /\ prefixes dirty' c' /\ pc_items c' = put_item (pc_items c) item /\
    length (pc_items c') = (added_by c item + length (pc_items c))%nat.
Proof.
  intros Hc Hp. destruct (new_index_ok item) as [e He]. unfold merge_item, added_by.
  rewrite (entry_new _ _ He). cbn [mbind option_bind]. rewrite (proj1 (entry_sig _ _ He)). cbn [mbind option_bind].
  destruct (entry_text _ _ He) as [text_ Ht]. rewrite Ht. cbn [mbind option_bind].
  assert (Epre : prefix_pair text_ = entry_prefix e) by (unfold entry_prefix; by rewrite Ht). rewrite Epre.
  destruct (positions c !! stable_id item) as [position|] eqn:Epos.
  - destruct (replace_item_spec c dirty item e position Hc Hp He Epos) as (c' & dirty' & -> & Hc' & Hp' & Hi).
    exists c', dirty'. split_and!; [done..| |by rewrite Hi, length_insert]. rewrite Hi.
    destruct (proj1 (core_positions c Hc _ _) Epos) as (x & Hx & Hid). symmetry.
    eapply put_item_replace; [done..|]. intros j y Hj Hy. by apply (core_unique c j y item).
  - destruct (append_item_spec c dirty item e Hc Hp He Epos) as (c' & -> & Hc' & Hp' & Hi).
    exists c', dirty. split_and!; [done..| |rewrite Hi, length_app; cbn; lia]. rewrite Hi. symmetry. apply put_item_append. intros x Hx E.
    apply list_elem_of_lookup in Hx as [i Hi']. assert (positions c !! stable_id item = Some i) by (apply Hc; eauto). congruence.
Qed.

(** ** A batch *)

Lemma merge_loop_spec c added dirty batch :
  core c -> prefixes dirty c ->
  exists c' added' dirty', ofold merge_item (c, added, dirty) batch = Some (c', added', dirty') /\
    core c' /\ prefixes dirty' c' /\ pc_items c' = foldl put_item (pc_items c) batch /\
    (length (pc_items c') + added = added' + length (pc_items c))%nat.
Proof.
  revert c added dirty. induction batch as [|item batch IH]; intros c added dirty Hc Hp; cbn [ofold foldl].
  - exists c, added, dirty. split_and!; [done..|lia].
  - destruct (slice_merge_item_spec c added dirty item Hc Hp) as (c1 & d1 & -> & Hc1 & Hp1 & Hi1 & Hl1). cbn [mbind option_bind].
    destruct (IH c1 (added_by c item + added)%nat d1 Hc1 Hp1) as (c2 & a2 & d2 & -> & Hc2 & Hp2 & Hi2 & Hl2).
    exists c2, a2, d2. split_and!; [done..| by rewrite Hi2, Hi1 | lia].
Qed.

Lemma empty_dirty_lookup buckets dirty pair :
  empty_dirty buckets dirty !! pair
  = bucket ← buckets !! pair; (fun d : bool => if d then [] else bucket) <$> dirty !! pair.
Proof. unfold empty_dirty. rewrite lookup_zip_with. by destruct (buckets !! pair), (dirty !! pair). Qed.

(** What the pass over the entries has put back so far. *)
Definition refilled (dirty : list bool) (c : PluginCatalog) (done_ : list (nat * ItemIndex)) (buckets : list (list nat)) : Prop :=
  length buckets = ORDERED_PAIR_COUNT /\
  forall pair d, dirty !! pair = Some d -> buckets !! pair = Some
    (if d : bool then map fst (List.filter (fun pe => opens_with pair pe.2) done_) else positions_with pair (pc_index c)).

Lemma refill_step dirty c done_ buckets i e text_ :
  length dirty = ORDERED_PAIR_COUNT -> entry_label e = Some text_ -> refilled dirty c done_ buckets ->
  exists buckets', refill dirty buckets (i, e) = Some buckets' /\ refilled dirty c (done_ ++ [(i, e)]) buckets'.
Proof.
  intros Hd Ht [Hlen H]. unfold refill. cbn [fst snd]. rewrite Ht. cbn [mbind option_bind].
  assert (Epre : prefix_pair text_ = entry_prefix e) by (unfold entry_prefix; by rewrite Ht). rewrite Epre.
  assert (Hskip : forall pair, entry_prefix e <> Some pair -> opens_with pair e = false).
  { intros pair Hne. by apply bool_decide_eq_false_2. }
  destruct (entry_prefix e) as [x|] eqn:Ex.
  - pose proof (entry_prefix_range e x Ex) as Hx. destruct (lookup_lt_is_Some_2 dirty x) as [d Edx]; [lia|]. rewrite Edx. cbn [mbind option_bind].
    destruct d.
    + destruct (push_prefix_spec buckets (Some x) i) as (b' & E & Hl & Hb); [intros y [= <-]; lia|]. rewrite E.
      exists b'. split_and!; [done|]. split; [lia|]. intros pair d Ed. rewrite Hb, (H pair d Ed). cbn [fmap option_fmap option_map]. f_equal.
      rewrite List.filter_app, map_app. cbn [List.filter snd].
      assert (opens_with pair e = bool_decide (Some x = Some pair)) as -> by (unfold opens_with; by rewrite Ex).
      destruct (decide (x = pair)) as [->|Hne].
      * rewrite !bool_decide_eq_true_2 by done. assert (d = true) as -> by congruence. done.
      * rewrite !bool_decide_eq_false_2 by congruence. rewrite !app_nil_r. done.
    + exists buckets. split; [done|]. split; [done|]. intros pair d Ed. rewrite (H pair d Ed). f_equal. destruct d; [|done].
      rewrite List.filter_app, map_app. cbn [List.filter snd]. rewrite Hskip by congruence. by rewrite app_nil_r.
  - exists buckets. split; [done|]. split; [done|]. intros pair d Ed. rewrite (H pair d Ed). f_equal. destruct d; [|done].
    rewrite List.filter_app, map_app. cbn [List.filter snd]. rewrite Hskip by done. by rewrite app_nil_r.
Qed.

Lemma enumerate_elem {A} (l : list A) i x : (i, x) ∈ enumerate l -> l !! i = Some x.
Proof.
  unfold enumerate. intros (j & H)%list_elem_of_lookup. apply list_lookup_imap_Some in H as (y & Hy & [= -> ->]). done.
Qed.

Lemma rebuild_prefixes_spec c dirty :
  core c -> prefixes dirty c ->
  exists c', rebuild_prefixes c dirty = Some c' /\ slice_ok c' /\ pc_items c' = pc_items c /\ pc_index c' = pc_index c.
Proof.
  intros Hc Hp. unfold rebuild_prefixes. destruct (existsb id dirty) eqn:Ee.
  - destruct (ofold_inv (refill dirty) (refilled dirty c) (enumerate (pc_index c)) (empty_dirty (prefix_postings c) dirty))
      as (buckets & -> & Hlen & H).
    + split.
      { unfold empty_dirty. rewrite length_zip_with_l_eq; [apply Hp | by rewrite (prefix_count _ _ Hp), (dirty_count _ _ Hp)]. }
      intros pair d Ed. rewrite empty_dirty_lookup, Ed.
      destruct (lookup_lt_is_Some_2 (prefix_postings c) pair) as [b Eb].
      { rewrite (prefix_count _ _ Hp), <- (dirty_count _ _ Hp). by eapply lookup_lt_Some. }
      rewrite Eb. cbn. destruct d; [done|]. pose proof (prefix_exact _ _ Hp pair Ed) as E. rewrite Eb in E. injection E as <-. done.
    + intros done_ [i e] s Hin Hs. apply enumerate_elem in Hin. destruct (core_entry c i e Hc Hin) as (item & _ & He).
      destruct (entry_text _ _ He) as [text_ Ht]. eapply refill_step; [apply Hp | done | done].
    + cbn [mbind option_bind]. eexists. split; [done|]. split; [|done]. split.
      * by destruct Hc.
      * done.
      * intros pair Hpair. destruct (lookup_lt_is_Some_2 dirty pair) as [d Ed]; [by rewrite (dirty_count _ _ Hp)|].
        change (buckets !! pair = Some (positions_with pair (pc_index c))). rewrite (H pair d Ed). by destruct d.
  - exists c. split; [done|]. split; [|done]. split; [done | apply Hp|]. intros pair Hpair.
    destruct (lookup_lt_is_Some_2 dirty pair) as [d Ed]; [by rewrite (dirty_count _ _ Hp)|].
    apply Hp. rewrite Ed. f_equal. destruct d; [|done]. exfalso. apply not_true_iff_false in Ee. apply Ee.
    apply existsb_exists. exists true. split; [|done]. apply list_elem_of_In. by eapply list_elem_of_lookup_2.
Qed.

(** Merging a batch never panics and keeps the indexes exact; the items are what
    writing the batch into the list makes of them. *)
Lemma merge_spec c batch :
  slice_ok c ->
  exists c' added, merge c batch = Some (c', added) /\ slice_ok c' /\
    pc_items c' = foldl put_item (pc_items c) batch /\ (length (pc_items c') = added + length (pc_items c))%nat.
Proof.
  intros [Hc Hn Hx]. unfold merge.
  destruct (merge_loop_spec c 0 (replicate ORDERED_PAIR_COUNT false) batch) as (c1 & added & dirty & -> & Hc1 & Hp1 & Hi & Hl).
  { done. }
  { split; [done | apply length_replicate|]. intros pair [_ Hlt]%lookup_replicate. by apply Hx. }
  cbn [mbind option_bind]. destruct (rebuild_prefixes_spec c1 dirty Hc1 Hp1) as (c2 & -> & Hok & Hi2 & Hx2).
  cbn [mbind option_bind]. rewrite Hi2, Hx2, (core_length c1 Hc1), Nat.eqb_refl. cbn [debug_assert mbind option_bind].
  exists c2, added. rewrite Hi2. split_and!; [done..|lia].
Qed.

Lemma empty_slice_ok : slice_ok empty_catalog.
Proof.
  split; [split| |]; cbn [pc_items pc_index positions postings ordered_pair_postings prefix_postings empty_catalog].
  - done.
  - intros id i. rewrite lookup_empty. split; [done|]. by intros (x & ? & _).
  - by rewrite length_replicate.
  - intros b posting [-> _]%lookup_replicate. split_and!; [constructor | cbn; lia | done].
  - by rewrite length_replicate.
  - intros pair posting [-> _]%lookup_replicate. split; [constructor|]. intros i. unfold bit_at. by rewrite lookup_nil, has_bit_0.
  - by rewrite length_replicate.
  - intros pair Hp. apply lookup_replicate. done.
Qed.
End Slice.
