(* ===== verification/CatalogPlan.v ===== *)
(** Admission of a catalog update: the payload of an item in closed form, and the
    exact condition under which a batch is accepted. *)

From Stdlib Require Import SpecFloat.
From S2P Require Import Prelude Text StdFloat Utf8 Items Query Bits Catalog CatalogMerge.

(** * Payload sizes *)

Definition string_size (s : string) : Z := LENGTH_PREFIX_BYTES + str_len s.
Definition category_size (c : Category) : Z :=
  ENUM_TAG_BYTES + match c with PluginDefined name => string_size name | _ => 0 end.
Definition optional_size (s : option string) : Z := ENUM_TAG_BYTES + match s with Some s => string_size s | None => 0 end.

Definition sum_of {A} (f : A -> Z) (l : list A) : Z := foldr (fun x n => f x + n) 0 l.

Definition action_size (a : Action) : Z :=
  string_size (action_id a) + string_size (action_label a) + string_size (action_description a) + LENGTH_PREFIX_BYTES
  + sum_of category_size (applicable_categories a) + optional_size (action_icon_reference a) + ENUM_TAG_BYTES.

Definition item_size (i : Item) : Z :=
  string_size (stable_id i) + string_size (plugin_id i) + category_size (category i) + string_size (item_label i)
  + string_size (item_description i) + string_size (item_target i)
  + LENGTH_PREFIX_BYTES + sum_of string_size (Items.search_terms i)
  + optional_size (icon_reference i) + ENUM_TAG_BYTES + ENUM_TAG_BYTES + SCORE_HINT_BYTES
  + LENGTH_PREFIX_BYTES + sum_of (fun kv => string_size kv.1 + string_size kv.2) (metadata i)
  + LENGTH_PREFIX_BYTES + sum_of action_size (actions i).

Lemma sum_of_nonneg {A} (f : A -> Z) l : (forall x, 0 <= f x) -> 0 <= sum_of f l.
Proof. apply foldr_nonneg. Qed.

Lemma string_size_nonneg s : 0 <= string_size s.
Proof. unfold string_size, str_len, LENGTH_PREFIX_BYTES. lia. Qed.

Lemma category_size_nonneg c : 0 <= category_size c.
Proof. unfold category_size, ENUM_TAG_BYTES. destruct c as [| | | | | | | | |n]; try lia. pose proof (string_size_nonneg n). lia. Qed.

Lemma optional_size_nonneg s : 0 <= optional_size s.
Proof. unfold optional_size, ENUM_TAG_BYTES. destruct s as [s|]; [pose proof (string_size_nonneg s)|]; lia. Qed.

Lemma action_size_nonneg a : 0 <= action_size a.
Proof.
  unfold action_size, ENUM_TAG_BYTES, LENGTH_PREFIX_BYTES. pose proof (string_size_nonneg (action_id a)).
  pose proof (string_size_nonneg (action_label a)). pose proof (string_size_nonneg (action_description a)).
  pose proof (sum_of_nonneg category_size (applicable_categories a) category_size_nonneg).
  pose proof (optional_size_nonneg (action_icon_reference a)). lia.
Qed.

Create HintDb sizes.
#[local] Hint Resolve string_size_nonneg category_size_nonneg optional_size_nonneg action_size_nonneg sum_of_nonneg
  Z.add_nonneg_nonneg : sizes.

(** A running total after so many more bytes. *)
Definition charged (total n : Z) : result Z CatalogError :=
  if total + n <=? usize_max then Ok (total + n) else Err PayloadSizeOverflow.

Lemma add_bytes_charged total n : add_payload_bytes total n = charged total n.
Proof. unfold add_payload_bytes, checked_add, charged. by destruct (_ <=? _). Qed.

Lemma charged_seq total a b f :
  (forall t, t <= usize_max -> f t = charged t b) -> 0 <= b -> (let? t := charged total a in f t) = charged total (a + b).
Proof.
  intros Hf Hb. unfold charged. destruct (Z.leb_spec (total + a) usize_max).
  - rewrite Hf by done. unfold charged. by rewrite !Z.add_assoc.
  - destruct (Z.leb_spec (total + (a + b)) usize_max); [lia | done].
Qed.

Lemma charged_eq total a b : a = b -> charged total a = charged total b.
Proof. by intros ->. Qed.

Lemma add_string_charged total s : add_string_payload total s = charged total (string_size s).
Proof.
  unfold add_string_payload. rewrite add_bytes_charged. apply charged_seq; [intros; apply add_bytes_charged | unfold str_len; lia].
Qed.

Lemma charged_0 total : total <= usize_max -> Ok total = charged total 0.
Proof. intros H. unfold charged. rewrite Z.add_0_r. by rewrite (proj2 (Z.leb_le _ _)). Qed.

Lemma add_category_charged total c : add_category_payload total c = charged total (category_size c).
Proof.
  unfold add_category_payload, category_size. rewrite add_bytes_charged. apply charged_seq.
  - intros t Ht. destruct c; by apply add_string_charged || apply charged_0.
  - destruct c; auto with sizes; lia.
Qed.

Lemma add_optional_charged total s : add_optional_string_payload total s = charged total (optional_size s).
Proof.
  unfold add_optional_string_payload, optional_size. rewrite add_bytes_charged. apply charged_seq.
  - intros t Ht. destruct s; by apply add_string_charged || apply charged_0.
  - destruct s; auto with sizes; lia.
Qed.

Lemma add_each_charged {A} (f : Z -> A -> result Z CatalogError) (size : A -> Z) total l :
  (forall t x, t <= usize_max -> f t x = charged t (size x)) -> (forall x, 0 <= size x) -> total <= usize_max ->
  add_each f total l = charged total (sum_of size l).
Proof.
  intros Hf Hs. revert total. induction l as [|x l IH]; intros total Ht; cbn [add_each]; [by apply charged_0|].
  rewrite Hf by done. apply charged_seq; [intros t Ht'; by apply IH | by apply sum_of_nonneg].
Qed.

(** Runs a chain of charges. *)
Ltac charge :=
  first
    [ rewrite add_string_charged | rewrite add_bytes_charged | rewrite add_category_charged | rewrite add_optional_charged
    | rewrite (add_each_charged add_string_payload string_size) by (intros; auto using add_string_charged with sizes)
    | rewrite (add_each_charged add_category_payload category_size) by (intros; auto using add_category_charged with sizes) ];
  try (eapply charged_seq; [intros ? ?|]).

Ltac size_nonneg := unfold ENUM_TAG_BYTES, LENGTH_PREFIX_BYTES, SCORE_HINT_BYTES in *; auto 20 with sizes lia.

Lemma add_action_charged total a : total <= usize_max -> add_action_payload total a = charged total (action_size a).
Proof.
  intros Ht. unfold add_action_payload. etrans; [repeat charge; try reflexivity; size_nonneg|].
  apply charged_eq. unfold action_size. lia.
Qed.

Lemma add_metadata_charged total kv : total <= usize_max ->
  add_metadata_payload total kv = charged total (string_size kv.1 + string_size kv.2).
Proof. intros Ht. unfold add_metadata_payload. repeat charge; [reflexivity | auto with sizes]. Qed.

Ltac charge_item :=
  first
    [ charge
    | rewrite (add_each_charged add_metadata_payload (fun kv => string_size kv.1 + string_size kv.2))
        by (auto using add_metadata_charged with sizes); eapply charged_seq; [intros ? ?|]
    | rewrite (add_each_charged add_action_payload action_size) by (auto using add_action_charged with sizes) ].

(** The checked sum over the fields of an item is its size, or an overflow. *)
Lemma item_payload_charged item : item_payload_bytes item = charged 0 (item_size item).
Proof.
  unfold item_payload_bytes. etrans; [repeat charge_item; try reflexivity; size_nonneg|].
  apply charged_eq. unfold item_size. lia.
Qed.

Lemma item_size_nonneg i : 0 <= item_size i.
Proof.
  unfold item_size. assert (0 <= sum_of (fun kv => string_size kv.1 + string_size kv.2) (metadata i)) by size_nonneg.
  repeat first [assumption | solve [size_nonneg] | apply Z.add_nonneg_nonneg].
Qed.

(** A batch passes the payload checks exactly when every item is within its limit
    and the sum does not overflow. *)
Lemma batch_payload_Ok l acc batch n :
  0 <= acc <= usize_max -> max_item_bytes l <= usize_max ->
  batch_payload l acc batch = Ok n <->
  Forall (fun i => item_size i <= max_item_bytes l) batch /\ n = acc + sum_of item_size batch /\ n <= usize_max.
Proof.
  intros Ha Hl. revert acc Ha. induction batch as [|i batch IH]; intros acc Ha; cbn [batch_payload sum_of foldr].
  - split; [intros [= <-]; split_and!; [done | lia..]|]. intros (_ & -> & _). f_equal. lia.
  - rewrite item_payload_charged. unfold charged. pose proof (item_size_nonneg i) as Hi. pose proof (sum_of_nonneg item_size batch item_size_nonneg) as Hs.
    fold (sum_of item_size batch). rewrite Forall_cons, Z.add_0_l.
    destruct (Z.leb_spec (item_size i) usize_max); [|split; [done | lia]].
    destruct (Z.ltb_spec (max_item_bytes l) (item_size i)); [split; [done | lia]|]. unfold checked_add.
    destruct (Z.leb_spec (acc + item_size i) usize_max); [|split; [done | lia]].
    rewrite IH by lia. split; [intros (? & -> & ?); split_and!; [done.. | lia | lia]|].
    intros ((? & ?) & -> & ?). split_and!; [done | lia | lia].
Qed.

(** * Identities *)

Definition ids (l : list Item) : gset ItemId := unique_ids l.
Definition unique (l : list Item) : Prop := NoDup (map stable_id l).

Lemma ids_elem l id : id ∈ ids l <-> exists item, item ∈ l /\ stable_id item = id.
Proof.
  unfold ids, unique_ids. rewrite elem_of_list_to_set, list_elem_of_In, in_map_iff. setoid_rewrite list_elem_of_In. naive_solver.
Qed.

Lemma put_item_ids l item : ids (put_item l item) = ids l ∪ {[stable_id item]}.
Proof.
  unfold ids, unique_ids. induction l as [|x l IH]; cbn [put_item map list_to_set]; [set_solver|].
  destruct (String.eqb_spec (stable_id x) (stable_id item)) as [E|E]; cbn [map list_to_set]; [rewrite E; set_solver|].
  rewrite IH. set_solver.
Qed.

Lemma put_item_unique l item : unique l -> unique (put_item l item).
Proof.
  unfold unique. induction l as [|x l IH]; cbn [put_item map]; [intros; apply NoDup_singleton|].
  intros [Hx Hl]%NoDup_cons. destruct (String.eqb_spec (stable_id x) (stable_id item)) as [E|E]; cbn [map].
  - rewrite <- E. by apply NoDup_cons.
  - apply NoDup_cons. split; [|by apply IH]. intros Hin.
    assert (stable_id x ∈ ids (put_item l item)) as H by (by apply elem_of_list_to_set).
    rewrite put_item_ids, elem_of_union, elem_of_singleton in H. destruct H as [H|H]; [|done].
    apply Hx. by apply elem_of_list_to_set in H.
Qed.

Lemma put_items_ids l batch : ids (foldl put_item l batch) = ids l ∪ ids batch.
Proof.
  revert l. induction batch as [|x batch IH]; intros l; cbn [foldl].
  - unfold ids, unique_ids. cbn. set_solver.
  - rewrite IH, put_item_ids. unfold ids, unique_ids. cbn. set_solver.
Qed.

Lemma put_items_unique l batch : unique l -> unique (foldl put_item l batch).
Proof. revert l. induction batch as [|x batch IH]; intros l Hl; cbn; [done|]. by apply IH, put_item_unique. Qed.

Lemma unique_length l : unique l -> length l = size (ids l).
Proof. intros Hl. unfold ids, unique_ids. rewrite size_list_to_set by done. by rewrite length_map. Qed.

(** Merging adds exactly the identities that are new. *)
Lemma put_items_length l batch :
  unique l -> length (foldl put_item l batch) = (length l + size (ids batch ∖ ids l))%nat.
Proof.
  intros Hl. rewrite (unique_length _ (put_items_unique l batch Hl)), put_items_ids, size_union_alt, (unique_length l Hl). lia.
Qed.

Section Plan.
Context {U : Unicode}.

Lemma core_items_unique c : core c -> unique (pc_items c).
Proof.
  intros Hc. unfold unique. apply NoDup_alt. intros i j id Hi Hj.
  apply list_lookup_fmap_Some in Hi as (x & -> & Hx). apply list_lookup_fmap_Some in Hj as (y & E & Hy).
  assert (positions c !! stable_id x = Some i) as H1 by (apply (core_positions c Hc); eauto).
  assert (positions c !! stable_id x = Some j) as H2 by (apply (core_positions c Hc); eauto). congruence.
Qed.

Lemma known_ids c id : core c -> known (Some c) id = bool_decide (id ∈ ids (pc_items c)).
Proof.
  intros Hc. apply eq_bool_prop_intro. rewrite !Is_true_true, bool_decide_eq_true, ids_elem. unfold known. cbn.
  rewrite is_some_true. split.
  - intros [i (item & Hi & Hid)%(core_positions c Hc)]. exists item. split; [by eapply list_elem_of_lookup_2 | done].
  - intros (item & [i Hi]%list_elem_of_lookup & Hid). exists i. apply (core_positions c Hc). eauto.
Qed.

Lemma count_additions_loop (test : ItemId -> bool) l n :
  n + len (List.filter (fun id => negb (test id)) l) <= usize_max ->
  add_each (fun additions id => if test id then Ok additions
                                else match checked_add usize_max additions 1 with
                                     | Some k => Ok k
                                     | None => Err ItemCountOverflow
                                     end) n l = Ok (n + len (List.filter (fun id => negb (test id)) l)).
Proof.
  revert n. induction l as [|id l IH]; intros n Hn; cbn [add_each List.filter] in *.
  - rewrite len_nil. f_equal. lia.
  - destruct (test id); cbn [negb] in *; [by apply IH|]. rewrite len_cons in Hn |- *. unfold checked_add.
    pose proof (len_nonneg (List.filter (fun id => negb (test id)) l)). rewrite (proj2 (Z.leb_le _ _)) by lia.
    rewrite IH by lia. f_equal. lia.
Qed.

Lemma filter_elements_size (X : gset ItemId) (test : ItemId -> bool) (Y : gset ItemId) :
  (forall id, test id = bool_decide (id ∈ Y)) ->
  len (List.filter (fun id => negb (test id)) (elements X)) = Z.of_nat (size (X ∖ Y)).
Proof.
  intros Ht. unfold len. f_equal. rewrite <- (size_list_to_set (C := gset ItemId)).
  - f_equal. apply leibniz_equiv. intros id. rewrite elem_of_list_to_set, list_elem_of_In, filter_In, <- list_elem_of_In, elem_of_elements, Ht.
    rewrite negb_true_iff, bool_decide_eq_false. set_solver.
  - apply NoDup_ListNoDup. apply List.NoDup_filter. apply NoDup_ListNoDup, NoDup_elements.
Qed.

(** The old list an update starts from. *)
Definition base (update : CatalogUpdate) (old : list Item) : list Item := match update with Replace => [] | Merge => old end.

Definition slice_items (existing : option PluginCatalog) : list Item := match existing with Some c => pc_items c | None => [] end.

(** When a batch is accepted. *)
Record accepted (m : MemoryCatalog) (plugin : PluginId) (update : CatalogUpdate) (batch : list Item) : Prop := {
  acc_batch : len batch <= max_batch_items (limits m);
  acc_owner : Forall (fun i => plugin_id i = plugin) batch;
  acc_item_bytes : Forall (fun i => item_size i <= max_item_bytes (limits m)) batch;
  acc_batch_bytes : sum_of item_size batch <= max_batch_bytes (limits m);
  acc_plugin : len (foldl put_item (base update (items m plugin)) batch) <= max_plugin_items (limits m);
  acc_total : item_count m - len (items m plugin) + len (foldl put_item (base update (items m plugin)) batch)
              <= max_total_items (limits m);
}.

Definition limits_fit (l : CatalogLimits) : Prop :=
  in_range usize_max (max_batch_items l) /\ in_range usize_max (max_plugin_items l) /\
  in_range usize_max (max_total_items l) /\ in_range usize_max (max_item_bytes l) /\ in_range usize_max (max_batch_bytes l).

(** The plan of an accepted batch. *)
Definition plan_of (m : MemoryCatalog) (plugin : PluginId) (update : CatalogUpdate) (batch : list Item) : UpdatePlan :=
  mkPlan (size (ids batch))
    match update with Replace => 0 | Merge => Z.of_nat (size (ids batch ∖ ids (items m plugin))) end
    (item_count m - len (items m plugin) + len (foldl put_item (base update (items m plugin)) batch)).

Lemma ids_size_le batch : (size (ids batch) <= length batch)%nat.
Proof.
  unfold ids, unique_ids. rewrite <- (length_map stable_id batch). generalize (map stable_id batch).
  induction l as [|x l IH]; cbn [list_to_set length]; [rewrite size_empty; lia|].
  rewrite size_union_alt, size_singleton.
  assert (size (list_to_set l ∖ {[x]} : gset ItemId) <= size (list_to_set l : gset ItemId))%nat by (apply subseteq_size; set_solver). lia.
Qed.

Lemma foreign_owner plugin batch :
  existsb (fun item => negb (String.eqb (plugin_id item) plugin)) batch = false <-> Forall (fun i => plugin_id i = plugin) batch.
Proof.
  induction batch as [|i batch IH]; cbn [existsb]; [done|]. rewrite orb_false_iff, Forall_cons, IH, negb_false_iff, String.eqb_eq. done.
Qed.

Context (m : MemoryCatalog) (plugin : PluginId) (update : CatalogUpdate) (batch : list Item).
Hypothesis Hfit : limits_fit (limits m).
Hypothesis Hcore : forall c, plugins m !! plugin = Some c -> core c.
Hypothesis Hcount : len (items m plugin) <= item_count m <= usize_max.

Lemma previous_len : map_or (plugins m !! plugin) 0 (fun c => len (pc_items c)) = len (items m plugin).
Proof. unfold items. by destruct (plugins m !! plugin). Qed.

Lemma items_unique : unique (items m plugin).
Proof. unfold items. destruct (plugins m !! plugin) as [c|] eqn:E; [by apply core_items_unique, Hcore | constructor]. Qed.

Lemma additions_ok :
  len batch <= usize_max ->
  count_additions (plugins m !! plugin) (elements (unique_ids batch)) = Ok (Z.of_nat (size (ids batch ∖ ids (items m plugin)))).
Proof.
  intros Hb. unfold count_additions.
  assert (Ht : forall id, known (plugins m !! plugin) id = bool_decide (id ∈ ids (items m plugin))).
  { intros id. unfold items. destruct (plugins m !! plugin) as [c|] eqn:E; [by apply known_ids, Hcore|]. cbn. done. }
  pose proof (filter_elements_size (unique_ids batch) (known (plugins m !! plugin)) _ Ht) as Hs.
  rewrite count_additions_loop; rewrite Hs; [done|]. pose proof (ids_size_le batch).
  pose proof (subseteq_size (ids batch ∖ ids (items m plugin)) (ids batch) ltac:(set_solver)). unfold len, ids in *. lia.
Qed.

Definition projected : Z := len (foldl put_item (base update (items m plugin)) batch).

Lemma projected_replace : update = Replace -> projected = Z.of_nat (size (ids batch)).
Proof.
  intros E. unfold projected, len. rewrite E. cbn [base]. rewrite put_items_length by constructor.
  f_equal. cbn. f_equal. unfold ids at 2, unique_ids. set_solver.
Qed.

Lemma projected_merge : update = Merge -> projected = len (items m plugin) + Z.of_nat (size (ids batch ∖ ids (items m plugin))).
Proof. intros E. unfold projected, len. rewrite E. cbn [base]. rewrite put_items_length by apply items_unique. lia. Qed.

Definition additions : Z := match update with Replace => 0 | Merge => Z.of_nat (size (ids batch ∖ ids (items m plugin))) end.

Lemma projection_ok :
  len batch <= usize_max ->
  match update with
  | Replace => Ok (Z.of_nat (size (unique_ids batch)), 0)
  | Merge => let? additions := count_additions (plugins m !! plugin) (elements (unique_ids batch)) in
             let? total := checked_count (checked_add usize_max (len (items m plugin)) additions) in Ok (total, additions)
  end = if projected <=? usize_max then Ok (projected, additions) else Err ItemCountOverflow.
Proof.
  intros Hb. unfold additions. destruct update eqn:Eu.
  - rewrite (projected_replace Eu). pose proof (ids_size_le batch). unfold len in *. rewrite (proj2 (Z.leb_le _ _)) by lia. done.
  - rewrite additions_ok by lia. rewrite (projected_merge Eu). unfold checked_add. by destruct (_ <=? _).
Qed.

(** A batch is planned exactly when it is accepted. *)
Lemma plan_update_Ok plan : plan_update m plugin update batch = Ok plan <-> accepted m plugin update batch /\ plan = plan_of m plugin update batch.
Proof.
  destruct Hfit as (F1 & F2 & F3 & F4 & F5). unfold in_range in *. unfold plan_update. rewrite previous_len.
  pose proof (len_nonneg batch) as Hb0. pose proof (len_nonneg (foldl put_item (base update (items m plugin)) batch)) as Hn0. fold projected in Hn0.
  pose proof (len_nonneg (items m plugin)) as Hi0.
  assert (Hplan : plan_of m plugin update batch = mkPlan (size (ids batch)) additions (item_count m - len (items m plugin) + projected)) by done.
  destruct (Z.ltb_spec (max_batch_items (limits m)) (len batch)); [split; [done | intros [[] _]; lia]|].
  destruct (existsb _ batch) eqn:Eo.
  { split; [done|]. intros [[] _]. apply foreign_owner in acc_owner0. congruence. }
  apply foreign_owner in Eo.
  destruct (batch_payload (limits m) 0 batch) as [n|e] eqn:Ep.
  2:{ split; [done|]. intros [[] _].
      assert (batch_payload (limits m) 0 batch = Ok (0 + sum_of item_size batch)) as E' by (apply batch_payload_Ok; [lia..|]; split_and!; [done | done | lia]).
      congruence. }
  apply batch_payload_Ok in Ep as (Hitem & -> & Hn); [|lia..]. rewrite Z.add_0_l in *.
  destruct (Z.ltb_spec (max_batch_bytes (limits m)) (sum_of item_size batch)); [split; [done | intros [[] _]; lia]|].
  rewrite projection_ok by lia. destruct (Z.leb_spec projected usize_max); [|split; [done | intros [[] _]; fold projected in *; lia]].
  destruct (Z.ltb_spec (max_plugin_items (limits m)) projected); [split; [done | intros [[] _]; fold projected in *; lia]|].
  rewrite checked_sub_le by lia. cbn [checked_count]. unfold checked_add at 1.
  destruct (Z.leb_spec (item_count m - len (items m plugin) + projected) usize_max); [|split; [done | intros [[] _]; fold projected in *; lia]].
  cbn [checked_count]. destruct (Z.ltb_spec (max_total_items (limits m)) (item_count m - len (items m plugin) + projected));
    [split; [done | intros [[] _]; fold projected in *; lia]|].
  rewrite Hplan. split; [intros [= <-]; split; [split; try done; fold projected; lia | done] | by intros [_ ->]].
Qed.
End Plan.
