(* ===== verification/CatalogSearch.v ===== *)
(** Searching one plugin's slice through its indexes gives exactly what a scan of
    the items gives. *)

From Stdlib Require Import SpecFloat.
From S2P Require Import Prelude Text StdFloat Utf8 Items Query QueryText QueryPrepare Bits Catalog.
From S2P Require Import CatalogIndex CatalogMerge.

#[local] Opaque set_bits.

(** * Lists *)

Lemma filter_omap_filter {A B} (p : B -> bool) (f : A -> option B) (h : A -> bool) l :
  List.filter p (omap f (List.filter h l))
  = omap (fun i => if h i then x ← f i; if p x then Some x else None else None) l.
Proof.
  induction l as [|i l IH]; cbn; [done|]. destruct (h i); cbn; [|exact IH].
  destruct (f i) as [x|]; cbn; [|exact IH]. destruct (p x); cbn; by rewrite IH.
Qed.

Lemma filter_omap_all {A B} (p : B -> bool) (f : A -> option B) l :
  List.filter p (omap f l) = omap (fun i => x ← f i; if p x then Some x else None) l.
Proof.
  induction l as [|i l IH]; cbn; [done|]. destruct (f i) as [x|]; cbn; [|exact IH]. destruct (p x); cbn; by rewrite IH.
Qed.

Lemma omap_map {A B C} (f : B -> option C) (g : A -> B) l : omap f (map g l) = omap (fun x => f (g x)) l.
Proof. induction l as [|x l IH]; cbn; [done|]. destruct (f (g x)); cbn; by rewrite IH. Qed.

Lemma omap_seq_shift {A} (f : nat -> option A) k n : omap (fun i => f (k + i)%nat) (seq 0 n) = omap f (seq k n).
Proof. rewrite <- omap_map. f_equal. pose proof (fmap_add_seq k 0 n) as H. rewrite Nat.add_0_r in H. exact H. Qed.

Lemma omap_blocks {A} (f : nat -> option A) k :
  mjoin (map (fun w => omap f (seq (w * 64) 64)) (seq 0 k)) = omap f (seq 0 (k * 64)).
Proof.
  induction k as [|k IH]; [done|]. rewrite seq_S, map_app. rewrite join_app, IH. cbn [map mjoin list_join].
  rewrite app_nil_r, <- omap_app, <- seq_app. f_equal. f_equal. lia.
Qed.

Lemma omap_none {A B} (f : A -> option B) (l : list A) : (forall x, x ∈ l -> f x = None) -> omap f l = [].
Proof. induction l as [|x l IH]; intros H; cbn; [done|]. rewrite H by set_solver. apply IH. set_solver. Qed.

Lemma mapM_total {A B} (f : A -> option B) (g : A -> B) l : (forall x, x ∈ l -> f x = Some (g x)) -> mapM f l = Some (map g l).
Proof.
  induction l as [|x l IH]; intros H; [done|]. cbn. rewrite H by set_solver. cbn. rewrite IH by set_solver. done.
Qed.

Lemma omap_ext_elem {A B} (f g : A -> option B) (l : list A) : (forall x, x ∈ l -> f x = g x) -> omap f l = omap g l.
Proof. induction l as [|x l IH]; intros H; cbn; [done|]. rewrite H, IH by set_solver. done. Qed.

Lemma forallb_ext_in {A} (f g : A -> bool) l : (forall x, In x l -> f x = g x) -> forallb f l = forallb g l.
Proof. induction l as [|x l IH]; intros H; cbn; [done|]. rewrite H by (by left). rewrite IH; [done|]. intros y Hy. apply H. by right. Qed.

Lemma ofold_ext {A S} (f g : S -> A -> option S) s l : (forall s x, f s x = g s x) -> ofold f s l = ofold g s l.
Proof. intros H. revert s. induction l as [|x l IH]; intros s; cbn; [done|]. rewrite H. destruct (g s x); cbn; [apply IH | done]. Qed.

Section Search.
Context {U : Unicode}.
Context (c : PluginCatalog) (Hc : slice_ok c).

Lemma all_entries_omap : all_entries c = omap (entry_at c) (seq 0 (length (pc_items c))).
Proof.
  pose proof (core_length c (slice_core c Hc)) as Hl. unfold all_entries, entry_at, enumerate.
  generalize dependent (pc_index c). generalize (pc_items c). clear Hc.
  intros items index Hl. revert index Hl. induction items as [|x items IH] using rev_ind; intros index Hl.
  - by destruct index.
  - destruct index as [|e index _] using rev_ind; [by rewrite length_app in Hl; cbn in Hl; lia|].
    rewrite !length_app in Hl. cbn in Hl. assert (Hl' : length index = length items) by lia. specialize (IH index Hl').
    rewrite zip_with_app, imap_app, map_app by done. rewrite IH, length_app, seq_app, omap_app. f_equal.
    + apply omap_ext_elem. intros i Hi%elem_of_seq. rewrite !lookup_app_l by lia. done.
    + cbn. rewrite Nat.add_0_r. rewrite length_zip_with_l_eq by lia. rewrite list_lookup_middle by done. cbn.
      by rewrite <- Hl', list_lookup_middle.
Qed.

Lemma entry_at_ge i : (length (pc_items c) <= i)%nat -> entry_at c i = None.
Proof. intros H. unfold entry_at. rewrite (lookup_ge_None_2 (pc_items c)) by done. done. Qed.

Lemma entry_at_Some i x : entry_at c i = Some x -> x.1.1 = i /\ pc_items c !! i = Some x.1.2 /\ pc_index c !! i = Some x.2.
Proof. unfold entry_at. intros (item & Hi & (e & He & [= <-])%bind_Some)%bind_Some. done. Qed.

(** Folding words together, position by position. *)
Lemma land_fold (get : nat -> option Z) (holds : nat -> nat -> bool) l acc :
  word acc -> (forall b, b ∈ l -> exists w, get b = Some w /\ forall n, (n < 64)%nat -> has_bit w n = holds b n) ->
  exists w, ofold (fun acc b => w ← get b; Some (Z.land acc w)) acc l = Some w /\ word w /\
    forall n, (n < 64)%nat -> has_bit w n = has_bit acc n && forallb (fun b => holds b n) l.
Proof.
  revert acc. induction l as [|b l IH]; intros acc Ha H; cbn [ofold].
  - exists acc. split_and!; [done..|]. intros n _. cbn. by rewrite andb_true_r.
  - destruct (H b) as (w & Hw & Hb); [set_solver|]. rewrite Hw. cbn [mbind option_bind].
    destruct (IH (Z.land acc w)) as (w' & E & Hw' & Hb'); [by apply word_land | set_solver|].
    exists w'. split_and!; [done..|]. intros n Hn. rewrite (Hb' n Hn). unfold has_bit at 1. rewrite Z.land_spec.
    fold (has_bit acc n) (has_bit w n). rewrite (Hb n Hn). cbn [forallb]. by rewrite andb_assoc.
Qed.

Definition held (needed : Z) (pairs : list nat) (e : ItemIndex) : bool :=
  forallb (has_bit (mask e)) (set_bits needed) && forallb (bit_at (entry_signature e)) pairs.

Lemma u64_max_bits n : (n < 64)%nat -> has_bit u64_max n = true.
Proof.
  intros Hn. unfold has_bit, u64_max. change 18446744073709551615 with (Z.ones 64). apply Z.ones_spec_low. lia.
Qed.

Lemma posting_word l w i n : (n < 64)%nat -> (i * 64 + n)%nat = w -> bit_at l w = has_bit (default 0 (l !! i)) n.
Proof. intros Hn <-. unfold bit_at. destruct (div_mod_64 i n Hn) as [-> ->]. done. Qed.

Lemma dedicated_bits needed b : word needed -> Z.land needed (Z.lnot DEDICATED_MASK) = 0 -> b ∈ set_bits needed -> (b < 36)%nat.
Proof.
  intros Hword Hded Hb. rewrite set_bits_filter in Hb by done. apply list_elem_of_In, filter_In in Hb as [_ Hb].
  destruct (decide (b < 36)%nat) as [|Hge]; [done|]. exfalso.
  assert (Hz : Z.testbit (Z.land needed (Z.lnot DEDICATED_MASK)) (Z.of_nat b) = false) by (rewrite Hded; apply Z.testbit_0_l).
  rewrite Z.land_spec, Z.lnot_spec in Hz by lia. unfold has_bit in Hb. rewrite Hb in Hz. cbn [andb] in Hz.
  assert (Z.testbit DEDICATED_MASK (Z.of_nat b) = false) as Hd; [|by rewrite Hd in Hz].
  change DEDICATED_MASK with (Z.ones 36). apply Z.ones_spec_high. lia.
Qed.

Lemma posting_at b : (b < 36)%nat -> exists posting, postings c !! b = Some posting.
Proof. intros Hb. apply lookup_lt_is_Some_2. by rewrite (core_posting_count c (slice_core c Hc)). Qed.

Lemma pair_posting_at x : (x < ORDERED_PAIR_COUNT)%nat -> exists posting, ordered_pair_postings c !! x = Some posting.
Proof. intros Hx. apply lookup_lt_is_Some_2. by rewrite (core_pair_count c (slice_core c Hc)). Qed.

(** The words of the presence postings, folded. *)
Lemma letter_words needed w :
  Z.land needed (Z.lnot DEDICATED_MASK) = 0 -> word needed -> (w < (length (pc_items c) + 63) / 64)%nat ->
  exists found, ofold (fun acc b => posting ← postings c !! b; x ← posting !! w; Some (Z.land acc x)) u64_max (set_bits needed)
      = Some found /\ word found /\
    forall n e, (n < 64)%nat -> pc_index c !! (w * 64 + n)%nat = Some e -> has_bit found n = forallb (has_bit (mask e)) (set_bits needed).
Proof.
  intros Hded Hword Hw. pose proof (fun b => dedicated_bits needed b Hword Hded) as Hbits.
  destruct (land_fold (fun b => posting ← postings c !! b; posting !! w)
              (fun b n => bit_at (default [] (postings c !! b)) (w * 64 + n)) (set_bits needed) u64_max)
    as (found & E & Hf & Hfb); [done| |].
  { intros b Hb%Hbits. destruct (posting_at b Hb) as [posting Ep].
    destruct (core_postings c (slice_core c Hc) b posting Ep) as (_ & Hlen & _). rewrite Ep. cbn.
    destruct (lookup_lt_is_Some_2 posting w) as [x Ex]; [lia|]. exists x. split; [done|]. intros n Hn.
    rewrite (posting_word posting _ w n Hn eq_refl), Ex. done. }
  exists found. split; [|split; [done|]].
  - rewrite <- E. apply ofold_ext. intros acc b. destruct (postings c !! b) as [posting|]; [|done]. cbn. by destruct (posting !! w).
  - intros n e Hn He. rewrite (Hfb n Hn), u64_max_bits by done. cbn [andb]. apply forallb_ext_in.
    intros b Hb%list_elem_of_In%Hbits. destruct (posting_at b Hb) as [posting Ep]. rewrite Ep.
    by apply (core_postings c (slice_core c Hc) b posting Ep).
Qed.

(** The words of the pair postings, folded into them. *)
Lemma pair_words pairs w acc :
  Forall (fun x => (x < ORDERED_PAIR_COUNT)%nat) pairs -> word acc ->
  exists found, ofold (fun acc pair => posting ← ordered_pair_postings c !! pair;
                                      Some (Z.land acc (default 0 (posting !! w)))) acc pairs = Some found /\ word found /\
    forall n e, (n < 64)%nat -> pc_index c !! (w * 64 + n)%nat = Some e ->
      has_bit found n = has_bit acc n && forallb (bit_at (entry_signature e)) pairs.
Proof.
  intros Hpairs Hacc. rewrite Forall_forall in Hpairs.
  destruct (land_fold (fun pair => posting ← ordered_pair_postings c !! pair; Some (default 0 (posting !! w)))
              (fun pair n => bit_at (default [] (ordered_pair_postings c !! pair)) (w * 64 + n)) pairs acc)
    as (found & E & Hf & Hfb); [done| |].
  { intros pair Hp%Hpairs. destruct (pair_posting_at pair Hp) as [posting Ep]. rewrite Ep. cbn. eexists. split; [done|].
    intros n Hn. by rewrite (posting_word posting _ w n Hn eq_refl). }
  exists found. split; [|split; [done|]].
  - rewrite <- E. apply ofold_ext. intros a pair. by destruct (ordered_pair_postings c !! pair).
  - intros n e Hn He. rewrite (Hfb n Hn). f_equal. apply forallb_ext_in. intros pair Hp%list_elem_of_In%Hpairs.
    destruct (pair_posting_at pair Hp) as [posting Ep]. rewrite Ep. cbn.
    by rewrite (proj2 (core_pairs c (slice_core c Hc) pair posting Ep)), He.
Qed.

Lemma word_positions_spec needed pairs w :
  Z.land needed (Z.lnot DEDICATED_MASK) = 0 -> word needed -> Forall (fun x => (x < ORDERED_PAIR_COUNT)%nat) pairs ->
  (w < (length (pc_items c) + 63) / 64)%nat ->
  exists found, word_positions c needed pairs w = Some found /\ word found /\
    forall n e, (n < 64)%nat -> pc_index c !! (w * 64 + n)%nat = Some e -> has_bit found n = held needed pairs e.
Proof.
  intros Hded Hword Hpairs Hw. unfold word_positions. destruct (letter_words needed w Hded Hword Hw) as (found & -> & Hf & H1).
  cbn [mbind option_bind]. destruct (pair_words pairs w found Hpairs Hf) as (found' & -> & Hf' & H2).
  exists found'. split_and!; [done..|]. intros n e Hn He. by rewrite (H2 n e Hn He), (H1 n e Hn He).
Qed.

(** * Candidates *)

(** The scan the indexes stand for. *)
Definition scan (wanted : Z) (pairs : list nat) : list (nat * Item * ItemIndex) :=
  List.filter (fun x => admits x.2 wanted && forallb (bit_at (entry_signature x.2)) pairs) (all_entries c).

Lemma visit_word_spec wanted needed pairs w :
  Z.land needed (Z.lnot DEDICATED_MASK) = 0 -> word needed -> Forall (fun x => (x < ORDERED_PAIR_COUNT)%nat) pairs ->
  (w < (length (pc_items c) + 63) / 64)%nat ->
  visit_word c wanted needed pairs w
  = Some (omap (fun i => x ← entry_at c i; if held needed pairs x.2 && admits x.2 wanted then Some x else None) (seq (w * 64) 64)).
Proof.
  intros Hded Hword Hpairs Hw. unfold visit_word, admitted_entries.
  destruct (word_positions_spec needed pairs w Hded Hword Hpairs Hw) as (found & -> & Hf & Hb). cbn [mbind option_bind]. f_equal.
  rewrite set_bits_filter, filter_omap_filter by done. rewrite <- (omap_seq_shift _ (w * 64)). apply omap_ext_elem.
  intros n [_ Hn]%elem_of_seq. destruct (entry_at c (w * 64 + n)) as [x|] eqn:Ex; cbn; [|by destruct (has_bit found n)].
  apply entry_at_Some in Ex as (_ & _ & He). rewrite (Hb n x.2 Hn He). by destruct (held needed pairs x.2).
Qed.

Lemma admits_held e wanted pairs :
  word wanted -> admits e wanted = true ->
  held (Z.land wanted DEDICATED_MASK) pairs e = forallb (bit_at (entry_signature e)) pairs.
Proof.
  intros Hw Ha. unfold held. assert (Hall : forallb (has_bit (mask e)) (set_bits (Z.land wanted DEDICATED_MASK)) = true); [|by rewrite Hall].
  apply forallb_forall. intros b Hb. rewrite set_bits_filter in Hb by (by apply word_land).
  apply filter_In in Hb as [_ Hb]. unfold has_bit in *. rewrite Z.land_spec, andb_true_iff in Hb. destruct Hb as [Hb _].
  unfold admits in Ha. apply Z.eqb_eq in Ha. apply (f_equal (fun z => Z.testbit z (Z.of_nat b))) in Ha.
  rewrite Z.testbit_0_l, Z.land_spec, Z.lnot_spec, Hb in Ha by lia. by destruct (Z.testbit (mask e) _).
Qed.

Lemma dedicated_part wanted : Z.land (Z.land wanted DEDICATED_MASK) (Z.lnot DEDICATED_MASK) = 0.
Proof. by rewrite <- Z.land_assoc, Z.land_lnot_diag, Z.land_0_r. Qed.

Lemma word_count_covers n : (n <= (n + 63) / 64 * 64)%nat.
Proof. pose proof (Nat.div_mod_eq (n + 63) 64). pose proof (mod_64 (n + 63)). lia. Qed.

Lemma visit_candidates_scan wanted pairs :
  word wanted -> Forall (fun x => (x < ORDERED_PAIR_COUNT)%nat) pairs ->
  visit_candidates c wanted pairs = Some (scan wanted pairs).
Proof.
  intros Hw Hpairs. unfold visit_candidates, scan.
  destruct ((Z.land wanted DEDICATED_MASK =? 0) && match pairs with [] => true | _ => false end) eqn:E.
  - apply andb_true_iff in E as [_ E]. destruct pairs; [|done]. unfold admitted_entries. f_equal. apply filter_ext.
    intros x. cbn. by rewrite andb_true_r.
  - erewrite mapM_total by (intros w Hin%elem_of_seq; apply visit_word_spec; [apply dedicated_part | by apply word_land | done | lia]).
    cbn [fmap option_fmap option_map]. f_equal. rewrite omap_blocks, all_entries_omap, filter_omap_all.
    set (n := length (pc_items c)). pose proof (word_count_covers n) as Hn.
    replace (seq 0 _) with (seq 0 n ++ seq n ((n + 63) / 64 * 64 - n)) by (rewrite <- seq_app; f_equal; lia).
    rewrite omap_app, (omap_none _ (seq n _)), app_nil_r.
    2:{ intros i Hi%elem_of_seq. rewrite entry_at_ge by (fold n; lia). done. }
    apply omap_ext_elem. intros i _. destruct (entry_at c i) as [x|]; cbn; [|done].
    destruct (admits x.2 wanted) eqn:Ha; cbn; [|by rewrite andb_false_r]. by rewrite admits_held, andb_true_r.
Qed.

(** * Label prefixes *)

Definition label_opens (token : text) (x : nat * Item * ItemIndex) : bool := starts_with (default [] (entry_label x.2)) token.

Lemma visit_label_spec token x item :
  entry_ok item x.2 ->
  visit_label token x = Some (if label_opens token x then [(x.1.1, x.1.2, prepared x.2)] else []).
Proof.
  intros He. destruct (entry_text _ _ He) as [t Ht]. unfold visit_label, label_opens. by rewrite Ht.
Qed.

Lemma join_singletons {A B} (p : A -> bool) (f : A -> B) l :
  mjoin (map (fun x => if p x then [f x] else []) l) = map f (List.filter p l).
Proof. induction l as [|x l IH]; [done|]. cbn. destruct (p x); cbn; [f_equal|]; exact IH. Qed.

Lemma visit_labels_total token l :
  (forall x, x ∈ l -> x ∈ all_entries c) ->
  mjoin <$> mapM (visit_label token) l
  = Some (map (fun x => (x.1.1, x.1.2, prepared x.2)) (List.filter (label_opens token) l)).
Proof.
  intros Hl. erewrite mapM_total. { cbn. by rewrite join_singletons. }
  intros x Hx%Hl. cbn. rewrite all_entries_omap in Hx. apply list_elem_of_omap in Hx as (i & _ & Hx).
  apply entry_at_Some in Hx as (_ & _ & He). destruct (core_entry c i x.2 (slice_core c Hc) He) as (item & _ & Hok).
  by eapply visit_label_spec.
Qed.

Lemma bucket_entries pair :
  omap (entry_at c) (positions_with pair (pc_index c)) = List.filter (fun x => opens_with pair x.2) (all_entries c).
Proof.
  pose proof (core_length c (slice_core c Hc)) as Hl. unfold positions_with. rewrite omap_map.
  assert (E : enumerate (pc_index c) = omap (fun i => (fun e => (i, e)) <$> pc_index c !! i) (seq 0 (length (pc_items c)))).
  { rewrite <- Hl. clear Hl. induction (pc_index c) as [|e l IH] using rev_ind; [done|].
    rewrite enumerate_snoc, length_app, seq_app, omap_app, IH. f_equal.
    - apply omap_ext_elem. intros i Hi%elem_of_seq. by rewrite lookup_app_l by lia.
    - cbn. by rewrite list_lookup_middle. }
  rewrite E, all_entries_omap. generalize (seq 0 (length (pc_items c))). induction l as [|i l IH]; cbn; [done|].
  destruct (pc_index c !! i) as [e|] eqn:Ei; cbn.
  - destruct (core_entry c i e (slice_core c Hc) Ei) as (item & Hi & _). unfold entry_at at 2. rewrite Hi, Ei. cbn.
    destruct (opens_with pair e); cbn; [|exact IH]. unfold entry_at at 1. rewrite Hi, Ei. cbn. by rewrite IH.
  - unfold entry_at at 2. rewrite Ei. destruct (pc_items c !! i); exact IH.
Qed.

Lemma starts_prefix_pair t token x : starts_with t token = true -> prefix_pair token = Some x -> prefix_pair t = Some x.
Proof.
  destruct token as [|a [|b token]]; [done..|]. destruct t as [|a' [|b' t]]; cbn [starts_with]; rewrite ?andb_true_iff; try naive_solver.
  intros (->%Z.eqb_eq & ->%Z.eqb_eq & _). done.
Qed.

Lemma visit_prefix_scan token :
  token <> [] ->
  visit_prefix c token = Some (map (fun x => (x.1.1, x.1.2, prepared x.2)) (List.filter (label_opens token) (all_entries c))).
Proof.
  intros Hne. unfold visit_prefix. destruct token as [|a token]; [done|]. set (tok := a :: token).
  destruct (prefix_pair tok) as [pair|] eqn:Ep; [|by apply visit_labels_total].
  rewrite (slice_prefixes c Hc pair) by (by eapply prefix_pair_range). cbn [mbind option_bind].
  rewrite bucket_entries, visit_labels_total by (intros x Hx; by apply list_elem_of_In, filter_In in Hx as [Hx%list_elem_of_In _]).
  do 2 f_equal. induction (all_entries c) as [|x l IH]; cbn [List.filter]; [done|].
  destruct (opens_with pair x.2) eqn:Eo; cbn [List.filter]; [by rewrite IH|]. destruct (label_opens tok x) eqn:El; [|exact IH].
  exfalso. unfold opens_with in Eo. apply bool_decide_eq_false in Eo. apply Eo. unfold label_opens in El.
  unfold entry_prefix. destruct (entry_label x.2) as [t|]; cbn [mbind option_bind]; [by eapply starts_prefix_pair | done].
Qed.
End Search.
