(* ===== verification/CatalogFacts.v ===== *)
(** The catalog over every sequence of calls: what an update does, that counts
    and indexes never drift, and that searching through the indexes finds exactly
    what a scan finds and every item the matcher credits.

    The properties at the end hold whatever sequence of calls came before. *)

From Stdlib Require Import SpecFloat.
From S2P Require Import Prelude Text StdFloat Utf8 Items Query QueryText QueryPrepare QueryFacts QueryScores.
From S2P Require Import Bits Catalog CatalogIndex CatalogMerge CatalogPlan CatalogSearch.

(** * The invariant *)

Section Invariant.
Context {U : Unicode}.

Definition count_items (c : PluginCatalog) : Z := len (pc_items c).

Record catalog_ok (m : MemoryCatalog) : Prop := {
  ok_limits : limits_fit (limits m);
  ok_slices : forall plugin c, plugins m !! plugin = Some c ->
    slice_ok c /\ Forall (fun i => plugin_id i = plugin) (pc_items c) /\ len (pc_items c) <= max_plugin_items (limits m);
  ok_count : item_count m = map_sum count_items (plugins m);
  ok_total : item_count m <= max_total_items (limits m);
}.

Lemma count_items_nonneg c : 0 <= count_items c.
Proof. apply len_nonneg. Qed.

Lemma ok_plugin_count m plugin : catalog_ok m -> len (items m plugin) <= item_count m <= usize_max.
Proof.
  intros Hm. pose proof (ok_limits m Hm) as (_ & _ & [_ ?] & _). pose proof (ok_total m Hm). split; [|lia].
  rewrite (ok_count m Hm). unfold items. destruct (plugins m !! plugin) as [c|] eqn:E.
  - exact (map_sum_lookup_le count_items (plugins m) plugin c count_items_nonneg E).
  - rewrite len_nil. apply map_sum_nonneg, count_items_nonneg.
Qed.

Lemma put_items_owner plugin l batch :
  Forall (fun i => plugin_id i = plugin) l -> Forall (fun i => plugin_id i = plugin) batch ->
  Forall (fun i => plugin_id i = plugin) (foldl put_item l batch).
Proof.
  intros Hl Hb. revert l Hl. induction Hb as [|i batch Hi _ IH]; intros l Hl; cbn; [done|]. apply IH.
  induction Hl as [|x l Hx Hl IHl]; cbn; [by constructor|]. case_match; by constructor.
Qed.

Lemma from_items_spec batch :
  exists c, from_items batch (size (ids batch)) = Some c /\ slice_ok c /\ pc_items c = foldl put_item [] batch.
Proof.
  unfold from_items. destruct (merge_spec empty_catalog batch empty_slice_ok) as (c & added & -> & Hc & Hi & Hl).
  cbn [mbind option_bind]. change (pc_items empty_catalog) with (@nil Item) in Hi, Hl.
  assert (Hn : length (foldl put_item [] batch) = size (ids batch)).
  { rewrite put_items_length by constructor. cbn [length]. rewrite Nat.add_0_l. f_equal. unfold ids at 2, unique_ids. set_solver. }
  rewrite Hi, Hn in Hl. cbn [length] in Hl. rewrite (proj2 (Nat.eqb_eq _ _)) by lia. by exists c.
Qed.

(** Replacing one slice of an intact catalog. *)
Lemma put_slice_ok m plugin c :
  catalog_ok m -> slice_ok c -> Forall (fun i => plugin_id i = plugin) (pc_items c) ->
  len (pc_items c) <= max_plugin_items (limits m) ->
  item_count m - len (items m plugin) + len (pc_items c) <= max_total_items (limits m) ->
  catalog_ok (m <| plugins ::= <[plugin := c]> |>
                <| item_count := item_count m - len (items m plugin) + len (pc_items c) |>).
Proof.
  intros Hm Hc Ho Hp Ht. split; cbn; [apply Hm | | | done].
  - intros p' c' [[<- <-]|[_ H]]%lookup_insert_Some; [done | by apply Hm].
  - rewrite (ok_count m Hm). unfold items. destruct (plugins m !! plugin) as [old|] eqn:E.
    + rewrite (map_sum_insert _ _ _ _ _ E). unfold count_items. lia.
    + rewrite map_sum_insert_None by done. rewrite len_nil. unfold count_items. lia.
Qed.

Lemma delete_slice_ok m plugin :
  catalog_ok m ->
  catalog_ok (m <| plugins ::= delete plugin |> <| item_count := item_count m - len (items m plugin) |>).
Proof.
  intros Hm. pose proof (len_nonneg (items m plugin)). split; cbn; [apply Hm | | |pose proof (ok_total m Hm); lia].
  - intros p' c' [_ H']%lookup_delete_Some. by apply Hm.
  - rewrite (ok_count m Hm). unfold items. destruct (plugins m !! plugin) as [old|] eqn:E.
    + rewrite (map_sum_delete _ _ _ _ E). unfold count_items. lia.
    + rewrite delete_id by done. rewrite len_nil. lia.
Qed.

(** ** Updates *)

(** What an accepted update leaves: the slice is the old list, or nothing for a
    replacement, with the batch written into it; everything else is as it was. *)
Definition updated (m : MemoryCatalog) (plugin : PluginId) (update : CatalogUpdate) (batch : list Item) (m' : MemoryCatalog) : Prop :=
  items m' plugin = foldl put_item (base update (items m plugin)) batch /\
  (forall q, q <> plugin -> plugins m' !! q = plugins m !! q) /\
  instances m' = instances m /\ limits m' = limits m.

Lemma empty_batch batch : size (ids batch) = 0%nat -> batch = [].
Proof.
  intros H%size_empty_inv. destruct batch as [|i batch]; [done|]. exfalso. unfold ids, unique_ids in H. cbn in H. set_solver.
Qed.

Lemma accepted_slice m plugin update batch c :
  catalog_ok m -> accepted m plugin update batch -> slice_ok c ->
  pc_items c = foldl put_item (base update (items m plugin)) batch ->
  catalog_ok (m <| plugins ::= <[plugin := c]> |> <| item_count := projected_total_items (plan_of m plugin update batch) |>) /\
  updated m plugin update batch
    (m <| plugins ::= <[plugin := c]> |> <| item_count := projected_total_items (plan_of m plugin update batch) |>).
Proof.
  intros Hm Ha Hc Hi. destruct Ha. unfold plan_of. cbn [projected_total_items]. rewrite <- Hi in *. split.
  - apply put_slice_ok; [done | done | | done | done]. rewrite Hi. apply put_items_owner; [|done].
    destruct update; [constructor|]. unfold items. destruct (plugins m !! plugin) as [old|] eqn:E; [by apply Hm | constructor].
  - unfold updated. cbn. split_and!; [| |done..].
    + unfold items. cbn. by rewrite lookup_insert_eq.
    + intros q Hq. by rewrite lookup_insert_ne.
Qed.

Lemma apply_accepted m plugin instance update batch :
  catalog_ok m -> is_active m plugin instance = true -> accepted m plugin update batch ->
  exists m', apply m plugin instance update batch = Some (m', Ok ()) /\ catalog_ok m' /\ updated m plugin update batch m'.
Proof.
  intros Hm Hact Ha. unfold apply. rewrite Hact. cbn [negb].
  assert (Hcore : forall c, plugins m !! plugin = Some c -> core c) by (intros c Hc; by apply (ok_slices m Hm) in Hc as [[] _]).
  rewrite (proj2 (plan_update_Ok m plugin update batch (ok_limits m Hm) Hcore (ok_plugin_count m plugin Hm) _) (conj Ha eq_refl)).
  destruct (Nat.eqb_spec (size (ids batch)) 0) as [Hz|Hz].
  - pose proof (empty_batch batch Hz) as ->. destruct update; cbn [write_slice plan_of unique_batch_items projected_total_items].
    + rewrite (proj2 (Nat.eqb_eq _ _) Hz). cbn [mbind option_bind]. eexists. split; [done|]. split.
      * cbn [foldl base]. rewrite len_nil, Z.add_0_r. by apply delete_slice_ok.
      * unfold updated. cbn. split_and!; [|by intros q Hq; rewrite lookup_delete_ne|done..]. unfold items. cbn. by rewrite lookup_delete_eq.
    + rewrite (proj2 (Nat.eqb_eq _ _) Hz). exists m. split; [done|]. split; [done|]. done.
  - apply Nat.eqb_neq in Hz. destruct update; cbn [write_slice unique_batch_items plan_of].
    + rewrite Hz. destruct (from_items_spec batch) as (c & -> & Hc & Hi). cbn [mbind option_bind]. eexists. split; [done|].
      by apply accepted_slice.
    + rewrite Hz. destruct (plugins m !! plugin) as [old|] eqn:E.
      * destruct (merge_spec old batch) as (c & added & -> & Hc & Hi & Hl); [by apply (ok_slices m Hm) in E as [? _]|].
        cbn [mbind option_bind merge_additions].
        assert (Hold : items m plugin = pc_items old) by (unfold items; by rewrite E).
        assert (Z.of_nat added = Z.of_nat (size (ids batch ∖ ids (items m plugin)))) as Hadd.
        { rewrite Hi, put_items_length in Hl by (by apply core_items_unique, Hcore). rewrite Hold. lia. }
        match goal with |- context [debug_assert ?b] => replace b with true by (symmetry; by apply Z.eqb_eq) end. cbn [debug_assert mbind option_bind]. eexists. split; [done|].
        apply accepted_slice; [done..|]. by rewrite Hi, Hold.
      * destruct (from_items_spec batch) as (c & -> & Hc & Hi). cbn [mbind option_bind]. eexists. split; [done|].
        apply accepted_slice; [done..|]. rewrite Hi. unfold items. by rewrite E.
Qed.

(** An update is accepted exactly when its instance is active and the batch within
    the limits; a refusal changes nothing. *)
Lemma apply_spec m plugin instance update batch :
  catalog_ok m ->
  exists m' r, apply m plugin instance update batch = Some (m', r) /\ catalog_ok m' /\
    (r = Ok () <-> is_active m plugin instance = true /\ accepted m plugin update batch) /\
    (r = Ok () -> updated m plugin update batch m') /\ (r <> Ok () -> m' = m).
Proof.
  intros Hm. destruct (is_active m plugin instance) eqn:Hact.
  2:{ exists m, (Err StaleInstance). unfold apply. rewrite Hact. split_and!; [done..| |done | done]. split; [done | by intros []]. }
  assert (Hcore : forall c, plugins m !! plugin = Some c -> core c) by (intros c Hc; by apply (ok_slices m Hm) in Hc as [[] _]).
  pose proof (plan_update_Ok m plugin update batch (ok_limits m Hm) Hcore (ok_plugin_count m plugin Hm)) as Hplan.
  destruct (plan_update m plugin update batch) as [plan|e] eqn:Ep.
  - destruct (proj1 (Hplan plan) eq_refl) as [Ha _].
    destruct (apply_accepted m plugin instance update batch Hm Hact Ha) as (m' & E & Hm' & Hu).
    exists m', (Ok ()). split_and!; [done..| done | by intros [] ].
  - exists m, (Err e). unfold apply. rewrite Hact, Ep. split_and!; [done..| |done | done].
    split; [done|]. intros [_ Ha]. by pose proof (proj2 (Hplan _) (conj Ha eq_refl)).
Qed.

(** ** Every sequence of calls *)

Inductive CatalogOp : Type :=
| DoActivate (plugin : PluginId) (instance : Z)
| DoRetire (plugin : PluginId) (instance : Z)
| DoInvalidate (plugin : PluginId)
| DoApply (plugin : PluginId) (instance : Z) (update : CatalogUpdate) (batch : list Item).

Definition catalog_step (m : MemoryCatalog) (o : CatalogOp) : option MemoryCatalog :=
  match o with
  | DoActivate plugin instance => Some (activate_instance m plugin instance).1
  | DoRetire plugin instance => Some (retire_instance m plugin instance).1
  | DoInvalidate plugin => invalidate m plugin
  | DoApply plugin instance update batch => fst <$> apply m plugin instance update batch
  end.

Lemma instances_ok m f : catalog_ok m -> catalog_ok (m <| instances ::= f |>).
Proof. intros []. by split. Qed.

Lemma catalog_step_ok m o : catalog_ok m -> exists m', catalog_step m o = Some m' /\ catalog_ok m' /\ limits m' = limits m.
Proof.
  intros Hm. destruct o as [plugin instance|plugin instance|plugin|plugin instance update batch]; cbn.
  - unfold activate_instance. eexists. split; [done|]. repeat case_match; cbn; split; done || by apply instances_ok.
  - unfold retire_instance. eexists. split; [done|]. repeat case_match; cbn; split; done || by apply instances_ok.
  - unfold invalidate. destruct (plugins m !! plugin) as [c|] eqn:E; [|by exists m].
    pose proof (ok_plugin_count m plugin Hm) as [Hc _]. pose proof (delete_slice_ok m plugin Hm) as Hd.
    unfold items in Hc, Hd. rewrite E in Hc, Hd. rewrite checked_sub_le by done. eexists. split; [done|]. by split.
  - destruct (apply_spec m plugin instance update batch Hm) as (m' & r & -> & Hm' & _ & Hu & Hr). cbn. exists m'. split_and!; [done..|].
    destruct r as [[]|e]; [by apply Hu | by rewrite Hr].
Qed.

Lemma with_limits_ok l : limits_fit l -> catalog_ok (with_limits l).
Proof.
  intros Hl. split; cbn; [done | by intros p c ?%lookup_empty_Some | by rewrite map_sum_empty|].
  destruct Hl as (_ & _ & [? _] & _). done.
Qed.

Lemma catalog_reachable l ops :
  limits_fit l -> exists m, ofold catalog_step (with_limits l) ops = Some m /\ catalog_ok m /\ limits m = l.
Proof.
  intros Hl. apply (ofold_inv catalog_step (fun _ m => catalog_ok m /\ limits m = l)).
  - split; [by apply with_limits_ok | done].
  - intros done_ o m _ [Hm E]. destruct (catalog_step_ok m o Hm) as (m' & Es & Hm' & El). exists m'. split_and!; [done..|]. congruence.
Qed.
End Invariant.


(** * The words a query asks for *)

Section Masks.
Context {U : Unicode}.

Lemma shifted_word n : 0 <= n < 64 -> word (Z.shiftl 1 n).
Proof. intros H. rewrite <- (Z2Nat.id n) by lia. apply word_bit. lia. Qed.

Lemma char_bit_word c : word (char_bit c).
Proof.
  unfold char_bit, DEDICATED_BITS, SHARED_BITS. destruct ((97 <=? c) && (c <=? 122)) eqn:E1; reflect_bools; [apply shifted_word; lia|].
  destruct ((48 <=? c) && (c <=? 57)) eqn:E2; reflect_bools; [apply shifted_word; lia|]. destruct (is_whitespace c); [done|].
  apply shifted_word. change (64 - DEDICATED_BITS) with 28. pose proof (Z.mod_pos_bound (scramble c) 28). lia.
Qed.

Lemma fold_lor_word {A} (f : A -> Z) l acc : word acc -> (forall x, word (f x)) -> word (foldl (fun w x => Z.lor w (f x)) acc l).
Proof. intros Ha Hf. revert acc Ha. induction l as [|x l IH]; intros acc Ha; cbn; [done|]. apply IH. by apply word_lor. Qed.

Lemma presence_mask_word t : word (presence_mask t).
Proof.
  unfold presence_mask. destruct (ascii_only t).
  - apply (fold_lor_word (fun c => char_bit (ascii_lower c))); [done | intros; apply char_bit_word].
  - apply (fold_lor_word char_bit); [done | apply char_bit_word].
Qed.

Lemma wanted_mask_word q : word (wanted_mask q).
Proof. apply (fold_lor_word presence_mask); [done | apply presence_mask_word]. Qed.

(** A mask that holds every token's characters holds what the query wants. *)
Lemma wanted_mask_within q w :
  Forall (fun token => Z.land (presence_mask token) w = 0) (tokens q) -> Z.land (wanted_mask q) w = 0.
Proof.
  unfold wanted_mask. intros H. assert (Hz : Z.land 0 w = 0) by done. revert Hz. generalize 0 at 1 3 as acc.
  induction H as [|t l Ht _ IH]; intros acc Hacc; cbn; [done|]. apply IH. by rewrite Z.land_lor_distr_l, Hacc, Ht.
Qed.
End Masks.

(** * Searching *)

Section Scans.
Context {U : Unicode}.

(** ** The scans the indexes stand for *)

Definition candidate (wanted : Z) (pairs : list nat) (e : ItemIndex) : bool :=
  admits e wanted && forallb (bit_at (entry_signature e)) pairs.

(** Every item of a list with its place and its index, where the index passes. *)
Definition scan_items (keep : ItemIndex -> bool) (l : list Item) : list (nat * Item * ItemIndex) :=
  omap (fun x : nat * Item => e ← new_index x.2; if keep e : bool then Some (x, e) else None) (enumerate l).

Definition shown (l : list (nat * Item * ItemIndex)) : list (nat * Item * PreparedLabel) :=
  map (fun x => (x.1.1, x.1.2, prepared x.2)) l.

Definition label_starts (token : text) (e : ItemIndex) : bool := starts_with (default [] (entry_label e)) token.

Lemma enumerate_omap {A} (l : list A) : enumerate l = omap (fun i => pair i <$> l !! i) (seq 0 (length l)).
Proof.
  induction l as [|x l IH] using rev_ind; [done|]. rewrite enumerate_snoc, length_app, seq_app, omap_app, IH. f_equal.
  - apply omap_ext_elem. intros i Hi%elem_of_seq. by rewrite lookup_app_l by lia.
  - cbn. by rewrite list_lookup_middle.
Qed.

Lemma omap_omap {A B C} (f : A -> option B) (g : B -> option C) (l : list A) : omap g (omap f l) = omap (fun x => f x ≫= g) l.
Proof. induction l as [|x l IH]; cbn; [done|]. destruct (f x) as [y|]; cbn; [destruct (g y); cbn|]; by rewrite IH. Qed.

Lemma filter_entries c keep :
  slice_ok c -> List.filter (fun x => keep x.2) (all_entries c) = scan_items keep (pc_items c).
Proof.
  intros Hc. rewrite all_entries_omap by done. rewrite filter_omap_all. unfold scan_items. rewrite enumerate_omap, omap_omap.
  apply omap_ext_elem. intros i _. unfold entry_at. destruct (pc_items c !! i) as [item|] eqn:Ei; [|done].
  cbn [mbind option_bind fmap option_fmap option_map fst snd].
  destruct (Forall2_lookup_l _ _ _ _ _ (core_index c (slice_core c Hc)) Ei) as (e & He & Hn). rewrite He, Hn. done.
Qed.

Lemma scan_items_elem keep l i item e :
  l !! i = Some item -> new_index item = Some e -> keep e = true -> (i, item, e) ∈ scan_items keep l.
Proof.
  intros Hi He Hk. apply list_elem_of_omap. exists (i, item). split.
  - apply list_elem_of_lookup. exists i. unfold enumerate. by rewrite list_lookup_imap, Hi.
  - cbn [mbind option_bind fst snd]. by rewrite He; cbn [mbind option_bind]; rewrite Hk.
Qed.

Lemma scalars_valid t : scalars t -> valid_text t.
Proof. intros H. eapply Forall_impl; [exact H|]. intros c Hc. unfold scalar in Hc. unfold valid_char. lia. Qed.

Lemma search_item_valid item : valid_item (search_item item).
Proof.
  split_and!; try apply scalars_valid, chars_scalars. cbn. apply Forall_forall. intros t (s & <- & _)%list_elem_of_In%in_map_iff.
  apply scalars_valid, chars_scalars.
Qed.

(** An item that matches is a candidate. *)
Lemma scored_candidate {L : UnicodeLaws U} q policy item e spans s :
  Forall normal (tokens q) -> addressable (search_item item) -> new_index item = Some e ->
  score_prepared policy q (search_item item) (prepared e) = Some (spans, Some s) ->
  candidate (wanted_mask q) (query_ordered_pairs q) e = true /\ may_match_with (prepared e) q policy = Some true.
Proof.
  intros Hq Haddr He%new_index_entry Hs. pose proof (search_item_valid item) as Hv.
  destruct (scored_may q _ policy _ _ _ Hq Hv Haddr (entry_prepared _ _ He) Hs) as (text_ & retained & Hn & Hr & Hmay & Hall).
  split; [|done]. unfold candidate. apply andb_true_iff. split.
  - unfold admits. apply Z.eqb_eq, wanted_mask_within. rewrite (entry_mask _ _ He). eapply Forall_impl; [exact Hall|]. by intros t [_ ?].
  - apply forallb_forall. intros pair (t & Ht & Hp)%list_elem_of_In%query_pairs_elem.
    destruct (signature_spec _ _ _ Hn Hr) as (sig & Hsig & _ & Hex). unfold entry_signature. rewrite Hsig. cbn.
    rewrite Forall_forall in Hall. destruct (Hall t Ht) as [Hmay' _]. by eapply token_pairs_in_signature.
Qed.

(** An item the matcher credits is a candidate. *)
Lemma credited_candidate {L : UnicodeLaws U} q policy item o :
  Forall normal (tokens q) -> addressable (search_item item) -> match_item policy q (search_item item) = Some (Some o) ->
  exists e, new_index item = Some e /\ candidate (wanted_mask q) (query_ordered_pairs q) e = true /\
    may_match_with (prepared e) q policy = Some true.
Proof.
  intros Hq Haddr Ho. destruct (new_index_ok item) as [e He]. exists e. split; [apply He|].
  apply credited_scored in Ho as (p & spans & s & Ep & Hs). rewrite (entry_prepared _ _ He) in Ep. injection Ep as <-.
  eapply scored_candidate; [done | done | apply He | exact Hs].
Qed.

Context (m : MemoryCatalog) (Hm : catalog_ok m) (plugin : PluginId).

Lemma visit_prepared_scan q :
  visit_prepared_candidates m plugin q
  = Some (shown (scan_items (candidate (wanted_mask q) (query_ordered_pairs q)) (items m plugin))).
Proof.
  unfold visit_prepared_candidates, items. destruct (plugins m !! plugin) as [c|] eqn:E; [|done].
  apply (ok_slices m Hm) in E as [Hc _]. rewrite visit_candidates_scan; [|done | apply wanted_mask_word | apply Forall_forall, query_pairs_range].
  cbn [mbind option_bind]. unfold scan. by rewrite <- filter_entries by done.
Qed.

Lemma candidates_scan q :
  candidates m plugin q = Some (map (fun x => x.1.2) (scan_items (candidate (wanted_mask q) []) (items m plugin))).
Proof.
  unfold candidates, items, pc_candidates. destruct (plugins m !! plugin) as [c|] eqn:E; [|done].
  apply (ok_slices m Hm) in E as [Hc _]. rewrite visit_candidates_scan; [|done | apply wanted_mask_word | constructor].
  cbn [fmap option_fmap option_map]. unfold scan. by rewrite <- filter_entries by done.
Qed.

Lemma label_prefixes_scan token :
  token <> [] -> visit_label_prefixes m plugin token = Some (shown (scan_items (label_starts token) (items m plugin))).
Proof.
  intros Hne. unfold visit_label_prefixes, items. destruct (plugins m !! plugin) as [c|] eqn:E; [|done].
  apply (ok_slices m Hm) in E as [Hc _]. rewrite visit_prefix_scan by done. by rewrite <- (filter_entries c (label_starts token)) by done.
Qed.

End Scans.

Section Claims.
Context {U : Unicode}.

(** The catalog a sequence of calls leaves. *)
Definition catalog_run (l : CatalogLimits) (ops : list CatalogOp) : option MemoryCatalog := ofold catalog_step (with_limits l) ops.

Lemma run_ok l ops m : limits_fit l -> catalog_run l ops = Some m -> catalog_ok m.
Proof. intros Hl E. destruct (catalog_reachable l ops Hl) as (m' & E' & Hm & _). unfold catalog_run in E. congruence. Qed.

Lemma find_position l id i item :
  NoDup (map stable_id l) -> l !! i = Some item -> stable_id item = id -> List.find (fun x => String.eqb (stable_id x) id) l = Some item.
Proof.
  revert i. induction l as [|x l IH]; intros i Hn Hi Hid; [done|]. cbn. apply NoDup_cons in Hn as [Hx Hn].
  destruct i as [|i]; cbn in Hi; [injection Hi as ->; by rewrite (proj2 (String.eqb_eq _ _))|].
  destruct (String.eqb_spec (stable_id x) id) as [E|_]; [|by eapply IH]. exfalso. apply Hx. rewrite E, <- Hid.
  apply list_elem_of_In, in_map. by apply list_elem_of_In, (list_elem_of_lookup_2 _ i).
Qed.

Lemma core_ids_unique c : core c -> NoDup (map stable_id (pc_items c)).
Proof. apply core_items_unique. Qed.

Lemma pc_get_find c id : core c -> pc_get c id = List.find (fun x => String.eqb (stable_id x) id) (pc_items c).
Proof.
  intros Hc. unfold pc_get. destruct (positions c !! id) as [i|] eqn:E; cbn [mbind option_bind].
  - apply (core_positions c Hc) in E as (item & Hi & Hid). rewrite Hi. symmetry. eapply find_position; [by apply core_ids_unique | done..].
  - destruct (List.find _ _) as [item|] eqn:F; [|done]. apply find_some in F as [Hin%list_elem_of_In Hid%String.eqb_eq].
    apply list_elem_of_lookup in Hin as [i Hi]. assert (positions c !! id = Some i) by (apply Hc; eauto). congruence.
Qed.

(** The catalog never drifts.  Whatever instances are activated and retired,
    slices invalidated and batches applied, no call panics; each slice holds its
    own plugin's items only, with distinct identities and within the plugin
    limit; the count is the sum of the slices and within the total limit; a
    lookup finds exactly what a search of the slice would find. *)
Theorem catalog_consistent l ops :
  limits_fit l ->
  exists m, catalog_run l ops = Some m /\ limits m = l /\
    item_count m = map_sum count_items (plugins m) /\ 0 <= item_count m <= max_total_items l /\
    forall plugin,
      NoDup (map stable_id (items m plugin)) /\ Forall (fun i => plugin_id i = plugin) (items m plugin) /\
      plugin_len m plugin = len (items m plugin) /\ len (items m plugin) <= max_plugin_items l /\
      forall id, get m plugin id = List.find (fun x => String.eqb (stable_id x) id) (items m plugin).
Proof.
  intros Hl. destruct (catalog_reachable l ops Hl) as (m & E & Hm & <-). exists m. unfold catalog_run.
  split_and!; [done | done | apply Hm | rewrite (ok_count m Hm); apply map_sum_nonneg, count_items_nonneg | apply Hm|].
  intros plugin. unfold items, plugin_len, get. destruct (plugins m !! plugin) as [c|] eqn:Ec.
  - apply (ok_slices m Hm) in Ec as (Hc & Ho & Hlen). pose proof (slice_core c Hc) as Hcore.
    split_and!; [by apply core_ids_unique | done | done | done|]. intros id. by apply pc_get_find.
  - destruct Hl as (_ & [? _] & _). split_and!; [constructor | constructor | done | rewrite len_nil; done | done].
Qed.

(** An update does what it says.  On every catalog a sequence of calls
    leaves, a batch is accepted exactly when its instance is the active one,
    every item belongs to the plugin, and the item count, the sizes and the
    resulting slice are within the limits; the slice then is the old one, or
    nothing for a replacement, with the items written into it by identity in
    order, and nothing else changes.  A refused update changes nothing. *)
Theorem catalog_update_exact l ops m plugin instance update batch :
  limits_fit l -> catalog_run l ops = Some m ->
  exists m' r, apply m plugin instance update batch = Some (m', r) /\
    (r = Ok () <-> is_active m plugin instance = true /\ accepted m plugin update batch) /\
    (r = Ok () -> items m' plugin = foldl put_item (base update (items m plugin)) batch /\
       (forall q, q <> plugin -> items m' q = items m q) /\ instances m' = instances m /\ limits m' = limits m) /\
    (r <> Ok () -> m' = m).
Proof.
  intros Hl E. destruct (apply_spec m plugin instance update batch (run_ok _ _ _ Hl E)) as (m' & r & Ea & _ & Hr & Hok & Herr).
  exists m', r. split_and!; [done | done | | done]. intros (Hi & Hq & Hinst & Hlim)%Hok. split_and!; [done | | done | done].
  intros q Hne. unfold items. by rewrite Hq.
Qed.

(** C25: searching through the indexes is scanning the items.  On every catalog a
    sequence of calls leaves, the bit postings yield exactly the items a scan of
    the slice keeps, each once, in the order of the slice, with its position and
    its prepared label: those whose characters include the query's and whose
    ordered pairs include every adjacent pair of its tokens. *)
Theorem candidates_exact l ops m plugin q :
  limits_fit l -> catalog_run l ops = Some m ->
  visit_prepared_candidates m plugin q
    = Some (shown (scan_items (candidate (wanted_mask q) (query_ordered_pairs q)) (items m plugin))) /\
  candidates m plugin q = Some (map (fun x => x.1.2) (scan_items (candidate (wanted_mask q) []) (items m plugin))).
Proof. intros Hl E. pose proof (run_ok _ _ _ Hl E) as Hm. split; [by apply visit_prepared_scan | by apply candidates_scan]. Qed.

(** The prefix index is exact.  On every catalog a sequence of calls leaves,
    replaced labels included, asking for the labels that open with a token yields
    exactly the items whose folded label starts with it, in slice order. *)
Theorem label_prefixes_exact l ops m plugin token :
  limits_fit l -> catalog_run l ops = Some m ->
  visit_label_prefixes m plugin token
    = Some match token with [] => [] | _ => shown (scan_items (label_starts token) (items m plugin)) end.
Proof.
  intros Hl E. pose proof (run_ok _ _ _ Hl E) as Hm. destruct token as [|c token]; [|by apply label_prefixes_scan].
  unfold visit_label_prefixes. by destruct (plugins m !! plugin).
Qed.

(** C6: the catalog hides no match.  On every catalog a sequence of calls leaves,
    an item that the matcher credits for a query, its aliases expanded and under
    either policy, is among the candidates visited for the query, at its own
    position and with a prepared label that passes the match filter. *)
Theorem candidates_complete {L : UnicodeLaws U} l ops m plugin i item pairs raw_ policy o :
  limits_fit l -> catalog_run l ops = Some m -> items m plugin !! i = Some item -> addressable (search_item item) ->
  valid_text raw_ -> Forall (fun p => valid_text p.2) pairs ->
  match_item policy (expand (new_aliases pairs) (normalize raw_)) (search_item item) = Some (Some o) ->
  exists visited p, visit_prepared_candidates m plugin (expand (new_aliases pairs) (normalize raw_)) = Some visited /\
    (i, item, p) ∈ visited /\ prepare_item (search_item item) = Some p /\
    may_match_with p (expand (new_aliases pairs) (normalize raw_)) policy = Some true.
Proof.
  intros Hl E Hi Haddr Hraw Hp Ho. pose proof (run_ok _ _ _ Hl E) as Hm.
  pose proof (expand_engine_query pairs _ Hp (normalize_engine_query raw_ Hraw)) as [_ Hq].
  destruct (credited_candidate _ policy item o Hq Haddr Ho) as (e & He & Hc & Hmay).
  eexists _, (prepared e). split; [by apply visit_prepared_scan|]. split; [|split; [|done]].
  - apply list_elem_of_In, in_map_iff. exists (i, item, e). split; [done|]. apply list_elem_of_In. by apply scan_items_elem.
  - apply new_index_entry in He. apply He.
Qed.
End Claims.

(** * Witnesses *)

#[local] Existing Instance ascii_unicode.
#[local] Existing Instance ascii_laws.

Definition apps_item (id name : string) : Item := plain_item "apps" id name.

(** A slice published, a second merge that renames an item, and a refused update. *)
Definition sample_catalog_ops : list CatalogOp :=
  [DoActivate "apps" 1;
   DoApply "apps" 1 Replace [apps_item "code" "Visual Studio Code"; apps_item "calc" "Calculator"]%string;
   DoApply "apps" 1 Merge [apps_item "calc" "Abacus"; apps_item "cal" "Calendar"]%string;
   DoApply "apps" 0 Replace []].

Definition sample_catalog : MemoryCatalog := default new_catalog (catalog_run default_limits sample_catalog_ops).

Lemma default_limits_fit : limits_fit default_limits.
Proof. unfold limits_fit, in_range. repeat split; discriminate. Qed.

Lemma sample_catalog_run : catalog_run default_limits sample_catalog_ops = Some sample_catalog.
Proof. vm_compute. reflexivity. Qed.

Lemma catalog_consistent_witness : exists m, catalog_run default_limits sample_catalog_ops = Some m /\ item_count m <= 500000.
Proof.
  destruct (catalog_consistent default_limits sample_catalog_ops) as (m & H & _ & _ & [_ Hc] & _).
  - apply default_limits_fit.
  - exists m. split; [exact H | exact Hc].
Defined.

Lemma catalog_update_exact_witness :
  exists m' r, apply sample_catalog "apps" 1 Merge [apps_item "cal" "Calendar"]%string = Some (m', r) /\ (r <> Ok () -> m' = sample_catalog).
Proof.
  destruct (catalog_update_exact default_limits sample_catalog_ops sample_catalog "apps" 1 Merge [apps_item "cal" "Calendar"]%string)
    as (m' & r & H & _ & _ & He).
  - apply default_limits_fit.
  - apply sample_catalog_run.
  - exists m', r. split; [exact H | exact He].
Defined.

Lemma candidates_exact_witness :
  map (fun x => x.1.1) (default [] (visit_prepared_candidates sample_catalog "apps" (normalize (ascii "cal")))) = [2%nat].
Proof.
  destruct (candidates_exact default_limits sample_catalog_ops sample_catalog "apps" (normalize (ascii "cal"))) as [-> _].
  - apply default_limits_fit.
  - apply sample_catalog_run.
  - vm_compute. reflexivity.
Defined.

Lemma label_prefixes_exact_witness :
  map (fun x => x.1.1) (default [] (visit_label_prefixes sample_catalog "apps" (ascii "ca"))) = [2%nat].
Proof.
  rewrite (label_prefixes_exact default_limits sample_catalog_ops sample_catalog "apps" (ascii "ca")).
  - vm_compute. reflexivity.
  - apply default_limits_fit.
  - apply sample_catalog_run.
Defined.

Lemma candidates_complete_witness :
  exists visited p, visit_prepared_candidates sample_catalog "apps" (expand (new_aliases editor_pairs) (normalize (ascii "vsc"))) = Some visited /\
    (0%nat, apps_item "code" "Visual Studio Code", p) ∈ visited.
Proof.
  destruct (candidates_complete default_limits sample_catalog_ops sample_catalog "apps" 0 (apps_item "code" "Visual Studio Code")
    editor_pairs (ascii "vsc") Strict
    (match match_item Strict (expand (new_aliases editor_pairs) (normalize (ascii "vsc"))) (search_item (apps_item "code" "Visual Studio Code")) with
     | Some (Some o) => o | _ => mkOutcome f32_zero ExactPrefix [] end)) as (visited & p & H1 & H2 & _).
  - apply default_limits_fit.
  - apply sample_catalog_run.
  - vm_compute. reflexivity.
  - split; vm_compute; discriminate.
  - by apply valid_text_check.
  - apply Forall_singleton. by apply valid_text_check.
  - vm_compute. reflexivity.
  - exists visited, p. split; [exact H1 | exact H2].
Defined.
