(* ===== verification/Search.v ===== *)
(** The search service, [crikey-app/src/lib.rs]: startup milestones, the catalog
    behind its publication edge, and the selection of the best matches through
    the prefix index, the candidate index and the positions kept from the
    previous keystroke.

    A [BinaryHeap] of [Reverse] candidates is the list of its elements, from which
    the weakest is taken; the order in which it is iterated is a parameter
    ([HeapOrder]).  A panic is [None]. *)

From Stdlib Require Import SpecFloat.
From S2P Require Import Prelude Text StdFloat Utf8 Generation Items Query Ranking Aggregator Catalog.

(** * Startup *)

Inductive StartupStage : Type :=
| WindowAndHotkey | PersistedCatalog | AcceptQueries | RequiredWorkers | LegacyPlugins | BackgroundRefresh | LazyModernPlugins.
#[export] Instance StartupStage_eq_dec : EqDecision StartupStage.
Proof. solve_decision. Defined.

Inductive StartupError : Type :=
| StaleAcknowledgement (expected pending : StartupStage)
| OutOfOrderAcknowledgement (expected pending : StartupStage)
| AlreadyComplete.

Definition next_stage (s : StartupStage) : option StartupStage :=
  match s with
  | WindowAndHotkey => Some PersistedCatalog
  | PersistedCatalog => Some AcceptQueries
  | AcceptQueries => Some RequiredWorkers
  | RequiredWorkers => Some LegacyPlugins
  | LegacyPlugins => Some BackgroundRefresh
  | BackgroundRefresh => Some LazyModernPlugins
  | LazyModernPlugins => None
  end.

(** The loop of [precedes], at most as long as the chain of stages. *)
Fixpoint later (fuel : nat) (candidate : option StartupStage) (other : StartupStage) : bool :=
  match fuel, candidate with
  | S fuel, Some stage => if decide (stage = other) then true else later fuel (next_stage stage) other
  | _, _ => false
  end.

Definition precedes (s other : StartupStage) : bool := later 7 (next_stage s) other.

(** [App], the platform back end aside. *)
Record App := mkApp {
  generations : GenerationTracker.GenerationTracker;
  app_limits : ResultLimits;
  stage : StartupStage;
  eager_startup_complete : bool;
}.
#[export] Instance eta_App : Eta App := fun a => mkApp (generations a) (app_limits a) (stage a) (eager_startup_complete a).

Definition app_with_limits (l : ResultLimits) : App := mkApp GenerationTracker.new l WindowAndHotkey false.
Definition new_app : App := app_with_limits Aggregator.default_limits.

Definition complete_stage (a : App) (expected : StartupStage) : App * result (option StartupStage) StartupError :=
  if eager_startup_complete a then (a, Err AlreadyComplete)
  else if negb (bool_decide (expected = stage a)) then
    (a, Err (if precedes expected (stage a) then StaleAcknowledgement expected (stage a)
             else OutOfOrderAcknowledgement expected (stage a)))
  else
    match next_stage (stage a) with
    | Some next => (a <| stage := next |>, Ok (Some next))
    | None => (a <| eager_startup_complete := true |>, Ok None)
    end.

Definition can_accept_queries (a : App) : bool :=
  match stage a with WindowAndHotkey | PersistedCatalog | AcceptQueries => false | _ => true end.

(** * Candidates *)

Record RankedCandidate := mkCandidate { cand_item : Item; cand_label : PreparedLabel; cand_score : f32 }.

(** [Ord] of strings, as a comparison. *)
Definition str_compare (a b : string) : comparison := if String.eqb a b then Eq else if str_leb a b then Lt else Gt.

(** [Ordering::then_with]. *)
Definition then_with (c d : comparison) : comparison := match c with Eq => d | _ => c end.

Definition candidate_compare (a b : RankedCandidate) : comparison :=
  then_with (score_compare (cand_score a) (cand_score b))
    (then_with (str_compare (stable_id (cand_item b)) (stable_id (cand_item a)))
       (str_compare (plugin_id (cand_item b)) (plugin_id (cand_item a)))).

Definition candidate_lt (a b : RankedCandidate) : bool := match candidate_compare a b with Lt => true | _ => false end.

(** The heap: the weakest of its elements, and the others. *)
Fixpoint weakest (heap : list RankedCandidate) : option (RankedCandidate * list RankedCandidate) :=
  match heap with
  | [] => None
  | x :: heap' =>
      match weakest heap' with
      | None => Some (x, [])
      | Some (y, rest) => if candidate_lt y x then Some (y, x :: rest) else Some (x, heap')
      end
  end.

Definition peek (heap : list RankedCandidate) : option RankedCandidate := fst <$> weakest heap.

Definition retain_best (retained : list RankedCandidate) (c : RankedCandidate) (limit : Z) : list RankedCandidate :=
  if len retained <? limit then c :: retained
  else
    match weakest retained with
    | Some (w, rest) => if candidate_lt w c then c :: rest else retained
    | None => retained
    end.

(** How a heap is iterated. *)
Class HeapOrder := heap_order : list RankedCandidate -> list RankedCandidate.

Record SearchStats := mkStats { candidates_examined : Z; matches_found : Z }.
Definition no_stats : SearchStats := mkStats 0 0.

Definition add_stats (a b : SearchStats) : SearchStats :=
  mkStats (saturating_add u64_max (candidates_examined a) (candidates_examined b))
    (saturating_add u64_max (matches_found a) (matches_found b)).

Definition PositionCache : Type := gmap PluginId (list nat).

Section Selection.
Context {U : Unicode} {H : HeapOrder}.

(** [query.normalized] as the string the history is keyed by. *)
Definition text_string (t : text) : string := string_of_bytes (utf8 t).

(** [SearchPlan]; the ranker is its history switch, the matcher its policy. *)
Record SearchPlan := mkPlanOf {
  plan_policy : MatchPolicy;
  plan_history_enabled : bool;
  plan_non_prefix_upper : gmap PluginId f32;
  plan_query : NormalizedQuery;
  plan_previous : option PositionCache;
  plan_history : SelectionHistory;
  plan_foreground : option Category;
  plan_now_secs : Z;
  per_plugin_limit : Z;
  global_limit : Z;
  batch_limit : Z;
}.

Record PluginSelection := mkSelectionOf {
  affinity : gmap ItemKey Z;
  matched_positions : list nat;
  sel_stats : SearchStats;
  retained : list RankedCandidate;
}.
#[global] Instance eta_PluginSelection : Eta PluginSelection := fun s =>
  mkSelectionOf (affinity s) (matched_positions s) (sel_stats s) (retained s).

Definition new_selection (plan : SearchPlan) : PluginSelection :=
  mkSelectionOf (affinities_for (plan_history plan) (text_string (normalized (plan_query plan)))) [] no_stats [].

(** The score of a match, signals included. *)
Definition match_score (plan : SearchPlan) (affinity_ : gmap ItemKey Z) (item : Item) (summary : MatchSummary) : f32 :=
  score_match_with_signals (plan_history_enabled plan) item summary
    (augment (plan_history plan) item affinity_ (plan_now_secs plan) (plan_foreground plan) default_signals).

Definition consider (plan : SearchPlan) (s : PluginSelection) (x : nat * Item * PreparedLabel) : option PluginSelection :=
  let '(position, item, label_) := x in
  let s := s <| sel_stats := add_stats (sel_stats s) (mkStats 1 0) |> in
  '(_, summary) ← score_prepared (plan_policy plan) (plan_query plan) (search_item item) label_;
  match summary with
  | None => Some s
  | Some summary =>
      let s := s <| matched_positions ::= fun l => l ++ [position] |> <| sel_stats := add_stats (sel_stats s) (mkStats 0 1) |> in
      Some (s <| retained := retain_best (retained s)
                  (mkCandidate item label_ (match_score plan (affinity s) item summary)) (per_plugin_limit plan) |>)
  end.

Definition record_pruned (plan : SearchPlan) (s : PluginSelection) (position : nat) (label_ : PreparedLabel)
    (already_filtered : bool) : option PluginSelection :=
  let s := s <| sel_stats := add_stats (sel_stats s) (mkStats 1 0) |> in
  may ← (if already_filtered then Some true else may_match_with label_ (plan_query plan) (plan_policy plan));
  Some (if may : bool then s <| matched_positions ::= fun l => l ++ [position] |> else s).

Definition is_ascii_alphanumeric (c : Z) : bool :=
  (48 <=? c) && (c <=? 57) || (65 <=? c) && (c <=? 90) || (97 <=? c) && (c <=? 122).

(** The leading token, when the prefix index answers it. *)
Definition prefix_token (q : NormalizedQuery) : option text :=
  match tokens q with
  | (c :: d :: _) as token :: _ => if is_ascii_alphanumeric c && is_ascii_alphanumeric d then Some token else None
  | _ => None
  end.

(** [*upper < weakest.score] for the weakest of a full selection. *)
Definition outscored (s : PluginSelection) (upper : f32) : bool :=
  match peek (retained s) with
  | Some w => match score_compare upper (cand_score w) with Lt => true | _ => false end
  | None => false
  end.

(** The closure [visit_remaining]. *)
Definition visit_remaining (plan : SearchPlan) (prefix : option text) (source_is_filtered : bool) (s : PluginSelection)
    (x : nat * Item * PreparedLabel) : option PluginSelection :=
  let '(position, item, label_) := x in
  opens ← match prefix with
          | None => Some false
          | Some token => text_ ← normalized_label label_; Some (starts_with text_ token)
          end;
  if opens : bool then Some s
  else if is_some prefix && (len (retained s) =? per_plugin_limit plan)
          && outscored s (non_prefix_upper_bound (plan_history_enabled plan) item)
  then record_pruned plan s position label_ source_is_filtered
  else consider plan s x.

(** One owner of the sweep: its selection, and whether everything was visited. *)
Definition select_plugin (catalog : MemoryCatalog) (plan : SearchPlan) (plugin : PluginId)
    : option (PluginSelection * bool) :=
  let prior := plan_previous plan ≫= fun by_owner => by_owner !! plugin in
  let prefix := prefix_token (plan_query plan) in
  s ← match prefix with
      | None => Some (new_selection plan)
      | Some token =>
          visited ← visit_label_prefixes catalog plugin token;
          ofold (consider plan) (new_selection plan) visited
      end;
  let skip_remaining :=
    is_some prefix && (len (retained s) =? per_plugin_limit plan)
    && is_some_and (plan_non_prefix_upper plan !! plugin) (outscored s) in
  if skip_remaining then Some (s, false)
  else
    visited ← match prior with
              | Some l => visit_prepared_positions_with catalog plugin l (plan_query plan) (plan_policy plan)
              | None => visit_prepared_candidates catalog plugin (plan_query plan)
              end;
    s ← ofold (visit_remaining plan prefix (is_some prior)) s visited;
    Some (s, true).

Record Sweep := mkSweep { global : list RankedCandidate; stats : SearchStats; matched_by_owner : PositionCache; cache_complete : bool }.

Definition sweep_plugin (catalog : MemoryCatalog) (plan : SearchPlan) (w : Sweep) (plugin : PluginId) : option Sweep :=
  '(s, whole) ← select_plugin catalog plan plugin;
  Some (mkSweep (foldl (fun g c => retain_best g c (global_limit plan)) (global w) (heap_order (retained s)))
          (add_stats (stats w) (sel_stats s)) (<[plugin := matched_positions s]> (matched_by_owner w))
          (cache_complete w && whole)).

(** [sort_unstable_by(|left, right| right.cmp(left))]. *)
Definition strongest_first (l : list RankedCandidate) : list RankedCandidate :=
  sort_by (fun a b => negb (candidate_lt a b)) l.

Definition select_best (catalog : MemoryCatalog) (owners : list PluginId) (plan : SearchPlan)
    : option (list RankedCandidate * SearchStats * PositionCache * bool) :=
  if (per_plugin_limit plan =? 0) || (global_limit plan =? 0) || (batch_limit plan =? 0)
  then Some ([], no_stats, ∅, true)
  else
    w ← ofold (sweep_plugin catalog plan) (mkSweep [] no_stats ∅ true) owners;
    Some (strongest_first (heap_order (global w)), stats w, matched_by_owner w, cache_complete w).

End Selection.
