(* ===== verification/SearchTop.v ===== *)
(** The strongest candidates: the order of candidates, what keeping the best few
    of a stream keeps, and that it is the front of the sorted whole. *)

From Stdlib Require Import SpecFloat.
From S2P Require Import Prelude Text Utf8 StdFloat Query QueryText QueryWords QueryPrepare QueryFacts QueryScores QueryNarrow Items Ranking RankingFacts RankingBound Catalog CatalogIndex CatalogMerge CatalogSearch CatalogFacts Search.

(** * The order *)

Definition str_lt (a b : string) : Prop := str_leb a b = true /\ a <> b.

Lemma str_compare_spec a b :
  match str_compare a b with Lt => str_lt a b | Eq => a = b | Gt => str_lt b a end.
Proof.
  unfold str_compare. destruct (String.eqb_spec a b) as [->|Hne]; [done|]. destruct (str_leb a b) eqn:E; [done|].
  split; [|done]. destruct (to_total str_leb str_order a b); congruence.
Qed.

Lemma str_lt_trans a b c : str_lt a b -> str_lt b c -> str_lt a c.
Proof.
  intros [H1 N1] [H2 N2]. split; [by eapply (to_trans str_leb str_order)|]. intros ->. apply N1. by apply (to_antisym str_leb str_order).
Qed.

Lemma str_lt_irrefl a : ~ str_lt a a.
Proof. by intros [_ ?]. Qed.

Definition scored (c : RankedCandidate) : Prop := score_value (cand_score c).
Definition cand_key (c : RankedCandidate) : string * string := (plugin_id (cand_item c), stable_id (cand_item c)).

(** The weaker candidate: a lower score, or the same score and a later identity. *)
Definition weaker (a b : RankedCandidate) : Prop :=
  key_lt (f32_key (cand_score a)) (f32_key (cand_score b)) \/
  (cand_score a = cand_score b /\
   (str_lt (stable_id (cand_item b)) (stable_id (cand_item a)) \/
    (stable_id (cand_item a) = stable_id (cand_item b) /\ str_lt (plugin_id (cand_item b)) (plugin_id (cand_item a))))).

Lemma key_lt_irrefl k : ~ key_lt k k.
Proof. unfold key_lt. lia. Qed.

Lemma candidate_lt_iff a b : scored a -> scored b -> candidate_lt a b = true <-> weaker a b.
Proof.
  intros Ha Hb. pose proof (score_compare_spec _ _ Ha Hb) as Hs. unfold candidate_lt, candidate_compare, then_with, weaker.
  destruct (score_compare (cand_score a) (cand_score b)).
  - rewrite Hs. pose proof (str_compare_spec (stable_id (cand_item b)) (stable_id (cand_item a))) as Hi.
    pose proof (key_lt_irrefl (f32_key (cand_score b))).
    destruct (str_compare (stable_id (cand_item b)) (stable_id (cand_item a))).
    + rewrite Hi. pose proof (str_compare_spec (plugin_id (cand_item b)) (plugin_id (cand_item a))) as Hp.
      pose proof (str_lt_irrefl (stable_id (cand_item a))).
      destruct (str_compare (plugin_id (cand_item b)) (plugin_id (cand_item a))).
      * rewrite Hp. pose proof (str_lt_irrefl (plugin_id (cand_item a))). intuition congruence.
      * intuition.
      * split; [done|]. intros [?|[_ [?|[_ Hp']]]]; [done.. |]. by destruct (str_lt_irrefl _ (str_lt_trans _ _ _ Hp Hp')).
    + intuition.
    + split; [done|]. intros [?|[_ [Hi'|[E _]]]]; [done | by destruct (str_lt_irrefl _ (str_lt_trans _ _ _ Hi Hi'))|].
      destruct Hi as [_ Hne]. congruence.
  - intuition.
  - split; [done|]. intros [Hs'|[E _]]; [unfold key_lt in *; lia|]. rewrite E in Hs. by apply key_lt_irrefl in Hs.
Qed.

Lemma weaker_trans a b c : weaker a b -> weaker b c -> weaker a c.
Proof.
  unfold weaker. intros [H1|[E1 H1]] [H2|[E2 H2]].
  - left. unfold key_lt in *. lia.
  - left. by rewrite <- E2.
  - left. by rewrite E1.
  - right. split; [congruence|]. destruct H1 as [H1|[I1 H1]], H2 as [H2|[I2 H2]].
    + left. by eapply str_lt_trans.
    + left. by rewrite <- I2.
    + left. by rewrite I1.
    + right. split; [congruence|]. by eapply str_lt_trans.
Qed.

Lemma weaker_irrefl a : ~ weaker a a.
Proof.
  intros [H|[_ [H|[_ H]]]]; [by apply key_lt_irrefl in H | by apply str_lt_irrefl in H..].
Qed.

Lemma weaker_total a b : scored a -> scored b -> cand_key a <> cand_key b -> weaker a b \/ weaker b a.
Proof.
  intros Ha Hb Hne. rewrite <- !candidate_lt_iff by done. pose proof (candidate_lt_iff a b Ha Hb) as H1. pose proof (candidate_lt_iff b a Hb Ha) as H2.
  unfold weaker in *. pose proof (score_compare_spec _ _ Ha Hb) as Hs. destruct (score_compare _ _); [|left; tauto | right; tauto].
  pose proof (str_compare_spec (stable_id (cand_item a)) (stable_id (cand_item b))) as Hi.
  destruct (str_compare (stable_id (cand_item a)) (stable_id (cand_item b))); [|right; symmetry in Hs; tauto | left; tauto].
  pose proof (str_compare_spec (plugin_id (cand_item a)) (plugin_id (cand_item b))) as Hp.
  destruct (str_compare (plugin_id (cand_item a)) (plugin_id (cand_item b))); [|right; symmetry in Hs, Hi; tauto | left; tauto].
  exfalso. apply Hne. unfold cand_key. congruence.
Qed.

Lemma lower_score_weaker a b : key_lt (f32_key (cand_score a)) (f32_key (cand_score b)) -> weaker a b.
Proof. by left. Qed.

(** * The best few *)

(** Candidates that can be told apart. *)
Definition distinct (l : list RankedCandidate) : Prop := Forall scored l /\ NoDup (map cand_key l).

#[global] Instance distinct_perm : Proper ((≡ₚ) ==> iff) distinct.
Proof. intros l l' H. unfold distinct. change (map cand_key) with (fmap (M := list) cand_key). by rewrite H. Qed.

(** [h] holds the [k] strongest of [l], or all of them; [r] the others. *)
Record top_split (k : Z) (l h r : list RankedCandidate) : Prop := {
  split_perm : l ≡ₚ h ++ r;
  split_size : len h <= k;
  split_full : r = [] \/ len h = k;
  split_best : forall x y, x ∈ h -> y ∈ r -> weaker y x;
}.

Definition top (k : Z) (l h : list RankedCandidate) : Prop := exists r, top_split k l h r.

Lemma top_nil k : 0 <= k -> top k [] [].
Proof. intros Hk. exists []. split; [done | done | by left | set_solver]. Qed.

Lemma top_perm k l l' h h' : l ≡ₚ l' -> h ≡ₚ h' -> top k l h -> top k l' h'.
Proof.
  intros Hl Hh [r []]. assert (Hlen : len h' = len h) by (unfold len; by rewrite Hh). exists r. split.
  - by rewrite <- Hl, <- Hh.
  - lia.
  - rewrite Hlen. done.
  - intros x y Hx. rewrite <- Hh in Hx. by apply split_best0.
Qed.

(** Candidates weaker than all of a full selection change nothing. *)
Lemma top_below k l h l' : top k l h -> len h = k -> (forall x y, x ∈ h -> y ∈ l' -> weaker y x) -> top k (l ++ l') h.
Proof.
  intros [r []] Hf Hb. exists (r ++ l'). split; [by rewrite split_perm0, app_assoc | done | by right|].
  intros x y Hx [Hy|Hy]%elem_of_app; [by apply split_best0 | by apply Hb].
Qed.

Lemma distinct_app_inv l l' : distinct (l ++ l') -> distinct l /\ distinct l'.
Proof.
  intros [Hs Hn]. apply Forall_app in Hs as [H1 H2]. rewrite map_app in Hn. apply NoDup_app in Hn as (N1 & _ & N2). by split.
Qed.

Lemma distinct_cons_inv c l : distinct (c :: l) -> scored c /\ distinct l /\ forall x, x ∈ l -> cand_key c <> cand_key x.
Proof.
  intros [Hs Hn]. apply Forall_cons in Hs as [H1 H2]. apply NoDup_cons in Hn as [N1 N2]. split_and!; [done | by split|].
  intros x Hx E. apply N1. rewrite E. apply list_elem_of_In, in_map, list_elem_of_In, Hx.
Qed.

Lemma weakest_Some heap w rest :
  weakest heap = Some (w, rest) -> Forall scored heap -> heap ≡ₚ w :: rest /\ forall x, x ∈ rest -> candidate_lt x w = false.
Proof.
  revert w rest. induction heap as [|x heap IH]; intros w rest; cbn; [done|]. intros E [Hx Hs]%Forall_cons.
  destruct (weakest heap) as [[y r]|] eqn:Ew.
  - destruct (IH _ _ eq_refl Hs) as [Hp Hm]. assert (Hy : scored y) by (rewrite Hp in Hs; by apply Forall_cons in Hs as [? _]).
    destruct (candidate_lt y x) eqn:El; injection E as <- <-.
    + split; [rewrite Hp; by constructor|]. intros z [->|Hz]%elem_of_cons; [|by apply Hm].
      apply not_true_is_false. intros H. apply (candidate_lt_iff x y Hx Hy) in H. apply (candidate_lt_iff y x Hy Hx) in El.
      by apply (weaker_irrefl x), (weaker_trans x y x).
    + split; [done|]. intros z Hz. rewrite Hp in Hz. apply elem_of_cons in Hz as [->|Hz]; [done|].
      assert (Hsz : scored z) by (rewrite Hp in Hs; apply Forall_cons in Hs as [_ Hs]; rewrite Forall_forall in Hs; by apply Hs).
      apply not_true_is_false. intros H. apply (candidate_lt_iff z x Hsz Hx) in H. specialize (Hm z Hz).
      destruct (candidate_lt z y) eqn:Ezy; [done|]. destruct (candidate_lt y z) eqn:Eyz.
      * apply (candidate_lt_iff y z Hy Hsz) in Eyz. pose proof (weaker_trans _ _ _ Eyz H) as Hyx. apply (candidate_lt_iff y x Hy Hx) in Hyx. congruence.
      * destruct (decide (cand_key y = cand_key z)) as [Ek|Hne].
        -- assert (cand_score y = cand_score z) as Esc.
           { pose proof (score_compare_spec _ _ Hy Hsz) as Hc. destruct (score_compare (cand_score y) (cand_score z)) eqn:Ec; [done| |].
             - assert (weaker y z) as Hw by (by left). apply (candidate_lt_iff y z Hy Hsz) in Hw. congruence.
             - assert (weaker z y) as Hw by (by left). apply (candidate_lt_iff z y Hsz Hy) in Hw. congruence. }
           assert (weaker y x) as Hw; [|apply (candidate_lt_iff y x Hy Hx) in Hw; congruence].
           unfold weaker, cand_key in *. injection Ek as E1 E2. rewrite Esc, E1, E2. exact H.
        -- destruct (weaker_total y z Hy Hsz Hne) as [Hw|Hw].
           ++ apply (candidate_lt_iff y z Hy Hsz) in Hw. congruence.
           ++ apply (candidate_lt_iff z y Hsz Hy) in Hw. congruence.
  - injection E as <- <-. destruct heap as [|y heap]; [split; [done | set_solver]|]. cbn in Ew. repeat case_match; done.
Qed.

Lemma weakest_None heap : weakest heap = None -> heap = [].
Proof. destruct heap as [|x heap]; [done|]. cbn. repeat case_match; done. Qed.

(** Among candidates that can be told apart, the weakest is weaker than the others. *)
Lemma weakest_distinct heap w rest :
  weakest heap = Some (w, rest) -> distinct heap -> heap ≡ₚ w :: rest /\ forall x, x ∈ rest -> weaker w x.
Proof.
  intros E Hd. destruct (weakest_Some heap w rest E (proj1 Hd)) as [Hp Hm]. split; [done|]. rewrite Hp in Hd.
  apply distinct_cons_inv in Hd as (Hw & Hr & Hne). intros x Hx. assert (Hsx : scored x) by (destruct Hr as [Hr _]; rewrite Forall_forall in Hr; by apply Hr).
  destruct (weaker_total w x Hw Hsx (Hne x Hx)) as [|H]; [done|]. apply (candidate_lt_iff x w Hsx Hw) in H. rewrite (Hm x Hx) in H. done.
Qed.

(** One more candidate. *)
Lemma retain_best_top k l h c : 0 < k -> distinct (c :: l) -> top k l h -> top k (c :: l) (retain_best h c k).
Proof.
  intros Hk Hd [r [Hp Hsize Hfull Hbest]]. unfold retain_best. destruct (Z.ltb_spec (len h) k) as [Hlt|Hge].
  - destruct Hfull as [->|?]; [|lia]. exists []. rewrite app_nil_r in Hp. split; [rewrite app_nil_r, Hp; done | rewrite len_cons; lia | by left | set_solver].
  - assert (Hlen : len h = k) by lia.
    apply distinct_cons_inv in Hd as (Hc & Hl & Hne). pose proof Hl as Hh. rewrite Hp in Hh. apply distinct_app_inv in Hh as [Hh Hr].
    destruct (weakest h) as [[w rest]|] eqn:Ew.
    2:{ apply weakest_None in Ew as ->. rewrite len_nil in Hlen. lia. }
    destruct (weakest_distinct h w rest Ew Hh) as [Hpw Hmin].
    assert (Hwin : w ∈ h) by (rewrite Hpw; set_solver). assert (Hw : scored w) by (destruct Hh as [Hh _]; rewrite Forall_forall in Hh; by apply Hh).
    assert (Hkey : cand_key c <> cand_key w) by (apply Hne; rewrite Hp; set_solver).
    destruct (candidate_lt w c) eqn:El.
    + apply (candidate_lt_iff w c Hw Hc) in El. exists (w :: r). split.
      * rewrite Hp, Hpw. cbn. constructor. rewrite Permutation_middle. done.
      * rewrite len_cons. assert (len h = len rest + 1) by (unfold len; rewrite Hpw; cbn; lia). lia.
      * right. rewrite len_cons. assert (len h = len rest + 1) by (unfold len; rewrite Hpw; cbn; lia). lia.
      * intros x y [->|Hx]%elem_of_cons [->|Hy]%elem_of_cons; [done | | by apply Hmin|].
        -- eapply weaker_trans; [by apply Hbest | done].
        -- apply Hbest; [|done]. rewrite Hpw. set_solver.
    + assert (Hcw : weaker c w).
      { destruct (weaker_total c w Hc Hw Hkey) as [|H]; [done|]. apply (candidate_lt_iff w c Hw Hc) in H. congruence. }
      exists (c :: r). split; [rewrite Hp; apply Permutation_middle | done | by right|].
      intros x y Hx [->|Hy]%elem_of_cons; [|by apply Hbest]. rewrite Hpw in Hx. apply elem_of_cons in Hx as [->|Hx]; [done|].
      eapply weaker_trans; [done | by apply Hmin].
Qed.

(** A stream of candidates. *)
Lemma retain_all_top k l0 l h :
  0 < k -> distinct (l0 ++ l) -> top k l0 h -> top k (l0 ++ l) (foldl (fun g c => retain_best g c k) h l).
Proof.
  intros Hk. revert l0 h. induction l as [|c l IH]; intros l0 h Hd Ht; cbn; [by rewrite app_nil_r|].
  replace (l0 ++ c :: l) with ((l0 ++ [c]) ++ l) in * by (by rewrite <- app_assoc). apply IH; [done|].
  apply distinct_app_inv in Hd as [Hd _]. assert (Hperm : l0 ++ [c] ≡ₚ c :: l0) by (by rewrite Permutation_app_comm).
  rewrite Hperm in Hd. apply (top_perm k (c :: l0) _ (retain_best h c k)); [done | done|]. by apply retain_best_top.
Qed.

(** * Sorting *)

Definition at_least (a b : RankedCandidate) : bool := negb (candidate_lt a b).

Lemma score_compare_swap x y : score_compare y x = CompOpp (score_compare x y).
Proof.
  unfold score_compare, SFcompare. destruct x as [[]|[]| |[] m e], y as [[]|[]| |[] m' e']; try done; cbn.
  - rewrite (Z.compare_antisym e' e). destruct (Z.compare e' e); cbn; try done. change (Pos.compare_cont Eq m' m) with (Pos.compare m' m).
    change (Pos.compare_cont Eq m m') with (Pos.compare m m'). rewrite (Pos.compare_antisym m' m). by rewrite CompOpp_involutive.
  - rewrite (Z.compare_antisym e' e). destruct (Z.compare e' e); cbn; try done. change (Pos.compare_cont Eq m' m) with (Pos.compare m' m).
    change (Pos.compare_cont Eq m m') with (Pos.compare m m'). rewrite (Pos.compare_antisym m' m). by rewrite CompOpp_involutive.
Qed.

Lemma str_compare_swap a b : str_compare b a = CompOpp (str_compare a b).
Proof.
  pose proof (str_compare_spec a b) as H1. pose proof (str_compare_spec b a) as H2.
  destruct (str_compare a b) eqn:E1, (str_compare b a) eqn:E2; try done; cbn; subst;
    try (by destruct (str_lt_irrefl _ H1)); try (by destruct (str_lt_irrefl _ H2)).
  - by destruct (str_lt_irrefl _ (str_lt_trans _ _ _ H1 H2)).
  - by destruct (str_lt_irrefl _ (str_lt_trans _ _ _ H1 H2)).
Qed.

Lemma at_least_total a b : at_least a b = true \/ at_least b a = true.
Proof.
  unfold at_least, candidate_lt. assert (H : candidate_compare b a = CompOpp (candidate_compare a b)).
  { unfold candidate_compare. rewrite (score_compare_swap (cand_score a) (cand_score b)).
    rewrite (str_compare_swap (stable_id (cand_item b)) (stable_id (cand_item a))), (str_compare_swap (plugin_id (cand_item b)) (plugin_id (cand_item a))).
    by destruct (score_compare _ _), (str_compare (stable_id _) _), (str_compare (plugin_id _) _). }
  rewrite H. destruct (candidate_compare a b); cbn; auto.
Qed.

Lemma at_least_iff a b : scored a -> scored b -> at_least a b = true <-> ~ weaker a b.
Proof. intros Ha Hb. unfold at_least. rewrite negb_true_iff, <- candidate_lt_iff by done. by rewrite not_true_iff_false. Qed.

(** Sorted from the strongest to the weakest. *)
Definition ranked : list RankedCandidate -> Prop := StronglySorted (fun a b => weaker b a).

Lemma sorted_ranked l : distinct l -> Sorted (by_test at_least) l -> ranked l.
Proof.
  intros Hd Hs. induction Hs as [|a l Hs IH Hhd]; [constructor|]. apply distinct_cons_inv in Hd as (Ha & Hl & Hne). specialize (IH Hl).
  constructor; [done|]. apply Forall_forall. intros x Hx. destruct l as [|b l]; [set_solver|]. inversion Hhd as [|? ? Hab]; subst.
  assert (Hb : weaker b a).
  { assert (scored b) by (destruct Hl as [Hl _]; by apply Forall_cons in Hl as [? _]). unfold by_test in Hab. rewrite at_least_iff in Hab by done.
    destruct (weaker_total a b) as [?|?]; [done | done | by apply Hne; set_solver | done | done]. }
  apply elem_of_cons in Hx as [->|Hx]; [done|]. inversion IH as [|? ? _ Hall]; subst. rewrite Forall_forall in Hall.
  eapply weaker_trans; [by apply Hall | done].
Qed.

Lemma strongest_first_perm l : strongest_first l ≡ₚ l.
Proof. apply sort_by_perm. Qed.

Lemma strongest_first_ranked l : distinct l -> ranked (strongest_first l).
Proof.
  intros Hd. apply sorted_ranked; [by rewrite strongest_first_perm|]. apply Sorted_merge_sort. intros a b. apply at_least_total.
Qed.

Lemma ranked_unique l l' : ranked l -> ranked l' -> l ≡ₚ l' -> l = l'.
Proof.
  intros Hl Hl' Hp. apply (StronglySorted_unique_strong (fun a b => weaker b a)); [|done..].
  intros a b _ _ H1 H2. by destruct (weaker_irrefl a (weaker_trans _ _ _ H2 H1)).
Qed.

Lemma ranked_app l l' : ranked l -> ranked l' -> (forall x y, x ∈ l -> y ∈ l' -> weaker y x) -> ranked (l ++ l').
Proof.
  intros Hl Hl' H. induction Hl as [|a l Hl IH Hall]; [done|]. cbn. constructor; [apply IH; intros; apply H; set_solver|].
  apply Forall_app. split; [done|]. apply Forall_forall. intros y Hy. apply H; set_solver.
Qed.

(** The [k] strongest, sorted, are the front of everything sorted. *)
Lemma top_take k l h : distinct l -> top k l h -> strongest_first h = take (Z.to_nat k) (strongest_first l).
Proof.
  intros Hd [r [Hp Hsize Hfull Hbest]]. pose proof Hd as Hd'. rewrite Hp in Hd'. apply distinct_app_inv in Hd' as [Hh Hr].
  assert (E : strongest_first l = strongest_first h ++ strongest_first r).
  { apply ranked_unique; [by apply strongest_first_ranked | | by rewrite !strongest_first_perm].
    apply ranked_app; [by apply strongest_first_ranked.. |]. intros x y. rewrite !strongest_first_perm. apply Hbest. }
  assert (Hlen : length (strongest_first h) = length h) by (by rewrite strongest_first_perm). rewrite E.
  destruct Hfull as [->|Hk].
  - change (strongest_first []) with (@nil RankedCandidate). rewrite app_nil_r.
    symmetry. apply take_ge. unfold len in Hsize. lia.
  - rewrite take_app_length'; [done|]. unfold len in Hk. lia.
Qed.

#[local] Arguments new_index : simpl never.
#[local] Arguments search_item : simpl never.

(** * Lists *)

Lemma omap_matched {A B} (f : A -> option B) (l : list A) : omap f l = omap f (List.filter (fun x => is_some (f x)) l).
Proof. induction l as [|x l IH]; cbn; [done|]. destruct (f x) eqn:E; cbn; [rewrite E; by f_equal | done]. Qed.

(** Lists without repetition that agree where a partial function is defined. *)
Lemma omap_same {A B} (f : A -> option B) (l l' : list A) :
  NoDup l -> NoDup l' -> (forall x, is_Some (f x) -> x ∈ l <-> x ∈ l') -> omap f l ≡ₚ omap f l'.
Proof.
  intros Hl Hl' H. rewrite (omap_matched f l), (omap_matched f l'). apply omap_Permutation. apply NoDup_Permutation.
  - apply NoDup_ListNoDup, List.NoDup_filter. by apply NoDup_ListNoDup.
  - apply NoDup_ListNoDup, List.NoDup_filter. by apply NoDup_ListNoDup.
  - intros x. rewrite !list_elem_of_In, !filter_In, <- !list_elem_of_In. specialize (H x).
    destruct (f x) as [y|]; cbn; [rewrite H by eauto; done | by split; intros [_ ?]].
Qed.

Section Select.
Context {U : Unicode} {L : UnicodeLaws U}.
Context (m : MemoryCatalog) (Hm : catalog_ok m) (plugin : PluginId) (plan : SearchPlan).

(** * What is assumed of the data *)

(** A label below four gigabytes, and a hint of its width. *)
Definition indexable (item : Item) : Prop := addressable (search_item item) /\ i32 (score_hint item).

(** A label whose folded text does not open with a blank. *)
Definition unpadded (item : Item) : Prop :=
  trim_start (normalize_field (chars (item_label item))) = normalize_field (chars (item_label item)).

Definition plan_affinity : gmap ItemKey Z := affinities_for (plan_history plan) (text_string (normalized (plan_query plan))).

Definition plan_signals (item : Item) : RankingSignals :=
  augment (plan_history plan) item plan_affinity (plan_now_secs plan) (plan_foreground plan) default_signals.

Context (Hlimit : 0 < per_plugin_limit plan).
Context (Hquery : Forall normal (tokens (plan_query plan))).
Context (Hitems : Forall (fun item => indexable item /\ unpadded item) (items m plugin)).
Context (Hsignals : forall item, sane (plan_signals item)).

(** * The reference *)

Definition candidate_of (x : nat * Item * PreparedLabel) : option RankedCandidate :=
  match score_prepared (plan_policy plan) (plan_query plan) (search_item x.1.2) x.2 with
  | Some (_, Some summary) => Some (mkCandidate x.1.2 x.2 (match_score plan plan_affinity x.1.2 summary))
  | _ => None
  end.

(** Every item of the slice with its position and its prepared label. *)
Definition slice_entries : list (nat * Item * PreparedLabel) := shown (scan_items (fun _ => true) (items m plugin)).

Definition plugin_matches : list RankedCandidate := omap candidate_of slice_entries.

(** ** Entries *)

Lemma shown_elem keep x :
  x ∈ shown (scan_items keep (items m plugin)) <->
  exists e, items m plugin !! x.1.1 = Some x.1.2 /\ new_index x.1.2 = Some e /\ x.2 = prepared e /\ keep e = true.
Proof.
  unfold shown. rewrite list_elem_of_In, in_map_iff. split.
  - intros ([[i item] e] & <- & Hin%list_elem_of_In). unfold scan_items in Hin. apply list_elem_of_omap in Hin as ([i' item'] & Hin & H).
    cbn [fst snd] in *. apply bind_Some in H as (e' & He & H). destruct (keep e') eqn:Hk; [|done]. injection H as -> -> ->.
    exists e. split_and!; [|done..]. apply list_elem_of_lookup in Hin as [j Hj]. unfold enumerate in Hj. rewrite list_lookup_imap in Hj.
    destruct (items m plugin !! j) as [it|] eqn:Ej; [|done]. cbn in Hj. injection Hj as -> ->. done.
  - intros (e & Hi & He & Hp & Hk). destruct x as [[i item] p]. cbn [fst snd] in *. subst p. exists (i, item, e). split; [done|].
    apply list_elem_of_In. by apply scan_items_elem.
Qed.

Lemma entry_unique x y : x ∈ slice_entries -> y ∈ slice_entries -> stable_id x.1.2 = stable_id y.1.2 -> x = y.
Proof.
  intros (e & Hi & He & Hp & _)%shown_elem (e' & Hi' & He' & Hp' & _)%shown_elem Hid.
  unfold items in *. destruct (plugins m !! plugin) as [c|] eqn:Ec; [|done]. apply (ok_slices m Hm) in Ec as (Hc & _ & _).
  assert (x.1.1 = y.1.1) as Ei.
  { assert (positions c !! stable_id x.1.2 = Some x.1.1) as H1 by (apply (core_positions c (slice_core c Hc)); eauto).
    assert (positions c !! stable_id x.1.2 = Some y.1.1) as H2 by (apply (core_positions c (slice_core c Hc)); eauto). congruence. }
  destruct x as [[i a] p], y as [[j b] q]. cbn [fst snd] in *. subst j. rewrite Hi in Hi'. injection Hi' as <-. congruence.
Qed.

Lemma enumerate_NoDup {A} (l : list A) : NoDup (enumerate l).
Proof.
  apply (NoDup_fmap_1 fst). unfold enumerate. rewrite fmap_imap.
  assert (E : imap (fun i (x : A) => i) l = seq 0 (length l)).
  { induction l as [|x l IH] using rev_ind; [done|]. rewrite imap_app, length_app, seq_app, IH. cbn. by rewrite Nat.add_0_r. }
  erewrite imap_ext; [rewrite E; apply NoDup_seq | done].
Qed.

Lemma shown_NoDup keep : NoDup (shown (scan_items keep (items m plugin))).
Proof.
  apply (NoDup_fmap_1 (fun x => x.1)). unfold shown, scan_items. rewrite <- list_fmap_compose.
  pose proof (enumerate_NoDup (items m plugin)) as Hn. induction Hn as [|x l Hx _ IH]; cbn; [constructor|].
  destruct (new_index x.2) as [e|]; cbn; [|exact IH]. destruct (keep e); cbn; [|exact IH].
  constructor; [|exact IH]. intros Hin. apply Hx. apply list_elem_of_In, in_map_iff in Hin as ([y e'] & E & Hin%list_elem_of_In).
  apply list_elem_of_omap in Hin as (z & Hz & H). apply bind_Some in H as (e'' & _ & H). destruct (keep e''); [|done]. injection H as -> ->.
  destruct x, y. cbn in E. by injection E as -> ->.
Qed.

(** What is known of an entry. *)
Lemma entry_facts x :
  x ∈ slice_entries ->
  exists text_ retained, prepare_item (search_item x.1.2) = Some x.2 /\ normalized_label x.2 = Some text_ /\ keywords x.2 = Some retained /\
    text_ = normalize_field (chars (item_label x.1.2)) /\ valid_text text_ /\ ascending 0 (p_words x.2) /\ indexable x.1.2 /\ unpadded x.1.2 /\
    x.1.2 ∈ items m plugin.
Proof.
  intros (e & Hi & He & Hp & _)%shown_elem. assert (Hin : x.1.2 ∈ items m plugin) by (by eapply list_elem_of_lookup_2).
  rewrite Forall_forall in Hitems. destruct (Hitems _ Hin) as [Hix Hun].
  destruct (prepare_item_total (search_item x.1.2)) as (p & rest & Ep & _ & _ & _ & Hn & (retained & Hr & _) & Hasc).
  apply new_index_entry in He. rewrite (entry_prepared _ _ He) in Ep. injection Ep as <-. rewrite Hp.
  eexists _, retained. split_and!; [apply He | done | done | done | | by apply Hasc, Hix | done | done | done].
  pose proof (search_item_valid x.1.2) as Hv. rewrite normalize_field_text by apply Hv. by apply normalize_valid, Hv.
Qed.

Lemma score_entry x : x ∈ slice_entries ->
  exists spans r, score_prepared (plan_policy plan) (plan_query plan) (search_item x.1.2) x.2 = Some (spans, r) /\
    candidate_of x = (fun summary => mkCandidate x.1.2 x.2 (match_score plan plan_affinity x.1.2 summary)) <$> r.
Proof.
  intros Hx. destruct (entry_facts x Hx) as (text_ & retained & _ & Hn & Hr & _ & Hv & _).
  destruct (score_prepared_total (plan_policy plan) (plan_query plan) (search_item x.1.2) x.2 text_ Hn) as [[spans r] E];
    [rewrite Hr; eauto | done | by apply normal_valid|].
  exists spans, r. split; [done|]. unfold candidate_of. rewrite E. by destruct r.
Qed.

Lemma candidate_of_Some x c : candidate_of x = Some c -> cand_item c = x.1.2 /\ cand_label c = x.2 /\ scored c.
Proof.
  unfold candidate_of. destruct (score_prepared _ _ _ _) as [[spans [s|]]|]; [|done..]. intros [= <-]. split_and!; [done..|]. apply new_score_value.
Qed.

(** Candidates of different entries can be told apart. *)
Lemma candidates_distinct l : NoDup l -> l ⊆ slice_entries -> distinct (omap candidate_of l).
Proof.
  intros Hn Hin. split.
  - apply Forall_forall. intros c (x & _ & Hc)%list_elem_of_omap. by apply candidate_of_Some in Hc as (_ & _ & ?).
  - induction Hn as [|x l Hx Hn IH]; cbn; [constructor|]. specialize (IH ltac:(set_solver)).
    destruct (candidate_of x) as [c|] eqn:Ec; [|exact IH]. cbn. constructor; [|exact IH]. intros Hk.
    apply list_elem_of_In, in_map_iff in Hk as (c' & Ek & Hc'%list_elem_of_In). apply list_elem_of_omap in Hc' as (y & Hy & Ec').
    apply candidate_of_Some in Ec as (Ec & _ & _), Ec' as (Ec' & _ & _). unfold cand_key in Ek. rewrite Ec, Ec' in Ek. injection Ek as _ Ek.
    assert (y = x) as -> by (apply entry_unique; [apply Hin; set_solver.. | done]). done.
Qed.

(** * One entry *)

(** What a selection holds after the entries [done_]. *)
Record selected (done_ : list (nat * Item * PreparedLabel)) (s : PluginSelection) : Prop := {
  sel_affinity : affinity s = plan_affinity;
  sel_top : top (per_plugin_limit plan) (omap candidate_of done_) (retained s);
  sel_matched : forall x, x ∈ done_ -> is_Some (candidate_of x) -> x.1.1 ∈ matched_positions s;
  sel_real : forall i, i ∈ matched_positions s -> exists x, x ∈ done_ /\ x.1.1 = i;
  sel_nodup : NoDup (matched_positions s);
}.

Lemma new_selected : selected [] (new_selection plan).
Proof. split; [done | apply top_nil; lia | set_solver | set_solver | constructor]. Qed.

Lemma position_unique x y : x ∈ slice_entries -> y ∈ slice_entries -> x.1.1 = y.1.1 -> x = y.
Proof.
  intros Hx Hy E. apply entry_unique; [done..|]. apply shown_elem in Hx as (e & Hi & _), Hy as (e' & Hi' & _). rewrite E in Hi. congruence.
Qed.

(** Entries seen so far stay within the slice and do not repeat. *)
Definition fresh (done_ : list (nat * Item * PreparedLabel)) (x : nat * Item * PreparedLabel) : Prop :=
  NoDup (done_ ++ [x]) /\ done_ ++ [x] ⊆ slice_entries.

Lemma fresh_entry done_ x : fresh done_ x -> x ∈ slice_entries.
Proof. intros [_ H]. apply H. set_solver. Qed.

Lemma fresh_position done_ x s : fresh done_ x -> selected done_ s -> x.1.1 ∉ matched_positions s.
Proof.
  intros Hf Hs Hin. pose proof (fresh_entry _ _ Hf) as Hx. destruct Hf as [Hn Hsub]. destruct (sel_real _ _ Hs _ Hin) as (y & Hy & E).
  assert (y = x) as -> by (apply position_unique; [apply Hsub; set_solver | done | done]).
  apply NoDup_app in Hn as (_ & Hd & _). apply (Hd x Hy). set_solver.
Qed.

Lemma push_nodup (l : list nat) i : NoDup l -> i ∉ l -> NoDup (l ++ [i]).
Proof. intros Hl Hi. apply NoDup_app. split_and!; [done | set_solver | apply NoDup_singleton]. Qed.

Lemma consider_selected done_ s x :
  selected done_ s -> fresh done_ x -> exists s', consider plan s x = Some s' /\ selected (done_ ++ [x]) s'.
Proof.
  intros Hs Hf. pose proof (fresh_entry _ _ Hf) as Hx. pose proof (fresh_position _ _ _ Hf Hs) as Hpos.
  destruct (score_entry x Hx) as (spans & r & E & Ec). destruct x as [[i item] p]. unfold consider. cbn [fst snd] in *. rewrite E. cbn [mbind option_bind].
  destruct r as [summary|]; cbn [fmap option_fmap option_map] in Ec.
  - eexists. split; [done|]. split; cbn.
    + apply Hs.
    + rewrite omap_app. cbn. rewrite Ec. rewrite (sel_affinity _ _ Hs).
      set (c := mkCandidate item p (match_score plan plan_affinity item summary)) in *.
      assert (Hp : omap candidate_of done_ ++ [c] ≡ₚ c :: omap candidate_of done_) by (by rewrite Permutation_app_comm).
      eapply top_perm; [symmetry; exact Hp | done|]. apply retain_best_top; [done | | apply Hs].
      rewrite <- Hp. pose proof (candidates_distinct _ (proj1 Hf) (proj2 Hf)) as Hd. rewrite omap_app in Hd. cbn in Hd. by rewrite Ec in Hd.
    + intros y [Hy|Hy]%elem_of_app Hc; [apply elem_of_app; left; by apply (sel_matched _ _ Hs)|]. apply list_elem_of_singleton in Hy as ->. set_solver.
    + intros j [Hj|Hj]%elem_of_app; [destruct (sel_real _ _ Hs j Hj) as (y & ? & ?); exists y; set_solver|].
      apply list_elem_of_singleton in Hj as ->. eexists. split; [apply elem_of_app; right; apply list_elem_of_singleton; done | done].
    + by apply push_nodup; [apply Hs|].
  - eexists. split; [done|]. split; cbn.
    + apply Hs.
    + rewrite omap_app. cbn. rewrite Ec, app_nil_r. apply Hs.
    + intros y [Hy|Hy]%elem_of_app Hc; [by apply (sel_matched _ _ Hs)|]. apply list_elem_of_singleton in Hy as ->. rewrite Ec in Hc. by destruct Hc.
    + intros j Hj. destruct (sel_real _ _ Hs j Hj) as (y & ? & ?). exists y. set_solver.
    + apply Hs.
Qed.

(** ** Entries that are ruled out *)

Lemma score_is_value item summary : score_value (match_score plan plan_affinity item summary).
Proof. apply new_score_value. Qed.

Lemma bound_value item : score_value (non_prefix_upper_bound (plan_history_enabled plan) item).
Proof. apply new_score_value. Qed.

(** A match of an entry that the first token does not open stays below its bound. *)
Lemma bounded_candidate x c token rest :
  x ∈ slice_entries -> tokens (plan_query plan) = token :: rest ->
  (forall text_, normalized_label x.2 = Some text_ -> starts_with text_ token = false) -> candidate_of x = Some c ->
  ~ key_lt (f32_key (non_prefix_upper_bound (plan_history_enabled plan) x.1.2)) (f32_key (cand_score c)).
Proof.
  intros Hx Et Hno Hc. destruct (entry_facts x Hx) as (text_ & retained & _ & Hn & _ & Htext & _ & _ & Hix & Hun & _).
  destruct (score_entry x Hx) as (spans & r & E & Ec). rewrite Hc in Ec. destruct r as [summary|]; [|done]. injection Ec as ->. cbn [cand_score].
  assert (Htrim : trim_start text_ = text_) by (rewrite Htext; exact Hun).
  pose proof (non_prefix_score (plan_history_enabled plan) _ _ x.1.2 _ _ _ _ _ _ _ (plan_signals x.1.2) (proj2 Hix) (Hsignals _) Hn Et Htrim (Hno _ Hn) E) as Hle.
  apply f32_le_key in Hle as (_ & _ & Hle). exact Hle.
Qed.

(** ... so it is weaker than everything in a selection that outscores the bound. *)
Lemma outscored_weaker s upper c :
  distinct (retained s) -> score_value upper -> outscored s upper = true -> ~ key_lt (f32_key upper) (f32_key (cand_score c)) ->
  forall x, x ∈ retained s -> weaker c x.
Proof.
  intros Hd Hu Ho Hle x Hx. unfold outscored, peek in Ho. destruct (weakest (retained s)) as [[w rest]|] eqn:Ew; [|done]. cbn in Ho.
  destruct (weakest_distinct _ _ _ Ew Hd) as [Hp Hmin]. assert (Hw : scored w).
  { destruct Hd as [Hd _]. rewrite Hp in Hd. by apply Forall_cons in Hd as [? _]. }
  pose proof (score_compare_spec upper (cand_score w) Hu Hw) as Hc. destruct (score_compare upper (cand_score w)); [done| |done].
  assert (Hcw : weaker c w) by (left; unfold key_lt in *; lia). rewrite Hp in Hx. apply elem_of_cons in Hx as [->|Hx]; [done|].
  eapply weaker_trans; [done | by apply Hmin].
Qed.

Lemma top_distinct l h k : distinct l -> top k l h -> distinct h.
Proof. intros Hd [r [Hp _ _ _]]. rewrite Hp in Hd. by apply distinct_app_inv in Hd as [? _]. Qed.

Lemma pruned_selected done_ s x already :
  selected done_ s -> fresh done_ x -> len (retained s) = per_plugin_limit plan ->
  (forall c y, candidate_of x = Some c -> y ∈ retained s -> weaker c y) ->
  exists s', record_pruned plan s x.1.1 x.2 already = Some s' /\ selected (done_ ++ [x]) s'.
Proof.
  intros Hs Hf Hfull Hweak. pose proof (fresh_entry _ _ Hf) as Hx. pose proof (fresh_position _ _ _ Hf Hs) as Hpos.
  destruct (entry_facts x Hx) as (text_ & retained_ & Ep & Hn & Hr & _ & Hv & _ & Hix & _).
  assert (Htop : top (per_plugin_limit plan) (omap candidate_of (done_ ++ [x])) (retained s)).
  { rewrite omap_app. apply top_below; [apply Hs | done|]. intros y c Hy Hc. cbn in Hc. destruct (candidate_of x) as [c'|]; [|set_solver].
    apply list_elem_of_singleton in Hc as ->. by apply Hweak. }
  assert (Hmay : exists b, (if already then Some true else may_match_with x.2 (plan_query plan) (plan_policy plan)) = Some b /\
    (is_Some (candidate_of x) -> b = true)).
  { destruct already; [by exists true|]. destruct (score_entry x Hx) as (spans & r & E & Ec).
    destruct r as [summary|].
    - exists true. split; [|done]. pose proof (search_item_valid x.1.2) as Hvi.
      by destruct (scored_may _ _ _ _ _ _ Hquery Hvi (proj1 Hix) Ep E) as (? & ? & _ & _ & ? & _).
    - rewrite Ec. unfold may_match_with. destruct (negb _); [exists false; split; [done | by intros []]|]. rewrite Hn, Hr. eexists. split; [done | by intros []]. }
  destruct Hmay as (b & Eb & Hb). unfold record_pruned. rewrite Eb. cbn [mbind option_bind]. eexists. split; [done|].
  destruct b; split; cbn.
  - apply Hs.
  - exact Htop.
  - intros y [Hy|Hy]%elem_of_app Hc; [apply elem_of_app; left; by apply (sel_matched _ _ Hs)|]. apply list_elem_of_singleton in Hy as ->. set_solver.
  - intros j [Hj|Hj]%elem_of_app; [destruct (sel_real _ _ Hs j Hj) as (y & ? & ?); exists y; set_solver|].
    apply list_elem_of_singleton in Hj as ->. exists x. set_solver.
  - by apply push_nodup; [apply Hs|].
  - apply Hs.
  - exact Htop.
  - intros y [Hy|Hy]%elem_of_app Hc; [by apply (sel_matched _ _ Hs)|]. apply list_elem_of_singleton in Hy as ->. by apply Hb in Hc.
  - intros j Hj. destruct (sel_real _ _ Hs j Hj) as (y & ? & ?). exists y. set_solver.
  - apply Hs.
Qed.

(** * A pass over entries *)

Lemma fresh_next done_ x l :
  NoDup (done_ ++ x :: l) -> done_ ++ x :: l ⊆ slice_entries -> fresh done_ x.
Proof.
  intros Hn Hsub. replace (done_ ++ x :: l) with ((done_ ++ [x]) ++ l) in * by (by rewrite <- app_assoc). split.
  - by apply NoDup_app in Hn as [? _].
  - set_solver.
Qed.

Lemma consider_all l done_ s :
  selected done_ s -> NoDup (done_ ++ l) -> done_ ++ l ⊆ slice_entries ->
  exists s', ofold (consider plan) s l = Some s' /\ selected (done_ ++ l) s'.
Proof.
  revert done_ s. induction l as [|x l IH]; intros done_ s Hs Hn Hsub; cbn [ofold]; [exists s; by rewrite app_nil_r|].
  destruct (consider_selected done_ s x Hs (fresh_next _ _ _ Hn Hsub)) as (s1 & -> & Hs1). cbn [mbind option_bind].
  replace (done_ ++ x :: l) with ((done_ ++ [x]) ++ l) in * by (by rewrite <- app_assoc). by apply IH.
Qed.

(** The entry's label opens with the prefix token. *)
Definition opens (prefix : option text) (x : nat * Item * PreparedLabel) : bool :=
  match prefix with None => false | Some token => starts_with (default [] (normalized_label x.2)) token end.

Lemma prefix_token_first token : prefix_token (plan_query plan) = Some token -> exists rest, tokens (plan_query plan) = token :: rest.
Proof.
  unfold prefix_token. destruct (tokens (plan_query plan)) as [|[|c [|d t]] rest]; [done..|]. destruct (_ && _); [|done]. intros [= <-]. eauto.
Qed.

Lemma prefix_token_nonempty token : prefix_token (plan_query plan) = Some token -> token <> [].
Proof.
  unfold prefix_token. destruct (tokens (plan_query plan)) as [|[|c [|d t]] rest]; [done..|]. destruct (_ && _); [|done]. by intros [= <-].
Qed.

Definition not_opening (x : nat * Item * PreparedLabel) : bool := negb (opens (prefix_token (plan_query plan)) x).

Lemma remaining_selected done_ s x filtered :
  selected done_ s -> x ∈ slice_entries -> (not_opening x = true -> fresh done_ x) -> NoDup done_ -> done_ ⊆ slice_entries ->
  exists s', visit_remaining plan (prefix_token (plan_query plan)) filtered s x = Some s' /\
    selected (if not_opening x then done_ ++ [x] else done_) s'.
Proof.
  intros Hs Hx Hf Hn Hsub. destruct (entry_facts x Hx) as (text_ & retained_ & _ & Hl & _). unfold visit_remaining. unfold not_opening in *.
  destruct x as [[i item] p] eqn:Ex. rewrite <- Ex in *. cbn [snd] in *.
  assert (Eo : match prefix_token (plan_query plan) with None => Some false | Some token => text_0 ← normalized_label p; Some (starts_with text_0 token) end
    = Some (opens (prefix_token (plan_query plan)) x)).
  { unfold opens. rewrite Ex in *. cbn [snd] in *. rewrite Hl. by destruct (prefix_token (plan_query plan)). }
  rewrite Eo. cbn [mbind option_bind]. destruct (opens (prefix_token (plan_query plan)) x) eqn:Eop; cbn [negb] in *; [by exists s|].
  specialize (Hf eq_refl). destruct (is_some _ && _ && _) eqn:Epr; [|by apply consider_selected].
  apply andb_true_iff in Epr as [Epr Ho]. apply andb_true_iff in Epr as [Ep Hfull]. apply Z.eqb_eq in Hfull.
  destruct (prefix_token (plan_query plan)) as [token|] eqn:Et; [|done]. destruct (prefix_token_first token Et) as [rest Etok].
  replace i with x.1.1 by (by rewrite Ex). replace p with x.2 by (by rewrite Ex). apply pruned_selected; [done..|].
  intros c y Hc Hy. eapply outscored_weaker; [|apply bound_value | exact Ho | | exact Hy].
  - eapply top_distinct; [by apply candidates_distinct | apply Hs].
  - replace item with x.1.2 by (by rewrite Ex). eapply bounded_candidate; [done | exact Etok | | done].
    intros t Ht. unfold opens in Eop. by rewrite Ht in Eop.
Qed.

Lemma remaining_all l done_ s filtered :
  selected done_ s -> l ⊆ slice_entries -> NoDup (done_ ++ List.filter not_opening l) -> done_ ⊆ slice_entries ->
  exists s', ofold (visit_remaining plan (prefix_token (plan_query plan)) filtered) s l = Some s' /\ selected (done_ ++ List.filter not_opening l) s'.
Proof.
  revert done_ s. induction l as [|x l IH]; intros done_ s Hs Hl Hn Hd; cbn [ofold List.filter] in *; [exists s; by rewrite app_nil_r|].
  assert (Hx : x ∈ slice_entries) by set_solver.
  assert (Hn0 : NoDup done_) by (by apply NoDup_app in Hn as [? _]).
  destruct (remaining_selected done_ s x filtered Hs Hx) as (s1 & -> & Hs1); [|done..|].
  { intros E. rewrite E in Hn. split; [|set_solver].
    match type of Hn with context [x :: ?r] => replace (done_ ++ x :: r) with ((done_ ++ [x]) ++ r) in Hn by (by rewrite <- app_assoc) end.
    by apply NoDup_app in Hn as [? _]. }
  cbn [mbind option_bind]. destruct (not_opening x) eqn:E.
  - replace (done_ ++ x :: List.filter not_opening l) with ((done_ ++ [x]) ++ List.filter not_opening l) in * by (by rewrite <- app_assoc).
    apply IH; [done | set_solver | done | set_solver].
  - apply IH; [done | set_solver | done | done].
Qed.

(** * One plugin *)

(** Positions that miss no match. *)
Definition covers_matches (l : list nat) : Prop :=
  NoDup l /\ forall x, x ∈ slice_entries -> is_Some (candidate_of x) -> x.1.1 ∈ l.

(** An upper bound of the bounds of the items. *)
Definition bounds_slice (upper : f32) : Prop :=
  score_value upper /\
  forall item, item ∈ items m plugin ->
    ~ key_lt (f32_key upper) (f32_key (non_prefix_upper_bound (plan_history_enabled plan) item)).

Lemma entry_at_shown c i x :
  plugins m !! plugin = Some c -> entry_at c i = Some x ->
  (x.1.1, x.1.2, prepared x.2) ∈ slice_entries /\ x.1.1 = i.
Proof.
  intros Ec H. pose proof (ok_slices m Hm plugin c Ec) as (Hc & _). apply entry_at_Some in H as (<- & Hi & He). split; [|done].
  apply shown_elem. cbn. exists x.2. unfold items. rewrite Ec. split_and!; [done | | done | done].
  destruct (Forall2_lookup_lr _ _ _ _ _ _ (core_index c (slice_core c Hc)) Hi He). done.
Qed.

Lemma shown_entry_at c x : plugins m !! plugin = Some c -> x ∈ slice_entries -> exists e, entry_at c x.1.1 = Some (x.1.1, x.1.2, e) /\ x.2 = prepared e.
Proof.
  intros Ec (e & Hi & He & Hp & _)%shown_elem. unfold items in Hi. rewrite Ec in Hi. pose proof (ok_slices m Hm plugin c Ec) as (Hc & _).
  destruct (Forall2_lookup_l _ _ _ _ _ (core_index c (slice_core c Hc)) Hi) as (e' & Hi' & He'). rewrite He in He'. injection He' as <-.
  exists e. split; [|done]. unfold entry_at. rewrite Hi. cbn [mbind option_bind]. by rewrite Hi'.
Qed.

Lemma may_total x : x ∈ slice_entries -> exists b, may_match_with x.2 (plan_query plan) (plan_policy plan) = Some b /\ (is_Some (candidate_of x) -> b = true).
Proof.
  intros Hx. destruct (entry_facts x Hx) as (text_ & retained_ & Ep & Hn & Hr & _ & Hv & _ & Hix & _).
  destruct (score_entry x Hx) as (spans & r & E & Ec). destruct r as [summary|].
  - exists true. split; [|done]. pose proof (search_item_valid x.1.2) as Hvi.
    by destruct (scored_may _ _ _ _ _ _ Hquery Hvi (proj1 Hix) Ep E) as (? & ? & _ & _ & ? & _).
  - rewrite Ec. unfold may_match_with. destruct (negb _); [exists false; split; [done | by intros []]|]. rewrite Hn, Hr. eexists. split; [done | by intros []].
Qed.

(** What each source visits: entries, once each, and every match among them. *)
Definition good_source (l : list (nat * Item * PreparedLabel)) : Prop :=
  NoDup l /\ l ⊆ slice_entries /\ forall x, x ∈ slice_entries -> is_Some (candidate_of x) -> x ∈ l.

Lemma cold_source : exists l, visit_prepared_candidates m plugin (plan_query plan) = Some l /\ good_source l.
Proof.
  eexists. split; [by apply visit_prepared_scan|]. split; [apply shown_NoDup|]. split.
  - intros x (e & Hi & He & Hp & _)%shown_elem. apply shown_elem. eauto.
  - intros x Hx Hc. pose proof Hx as (e & Hi & He & Hp & _)%shown_elem. apply shown_elem. exists e. split_and!; [done..|].
    destruct (score_entry x Hx) as (spans & r & E & Ec). destruct r as [summary|]; [|rewrite Ec in Hc; by destruct Hc].
    destruct (entry_facts x Hx) as (_ & _ & _ & _ & _ & _ & _ & _ & Hix & _). rewrite Hp in E.
    by apply (scored_candidate (plan_query plan) (plan_policy plan) x.1.2 e spans summary Hquery (proj1 Hix) He) in E as [? _].
Qed.

Lemma warm_source l : covers_matches l ->
  exists v, visit_prepared_positions_with m plugin l (plan_query plan) (plan_policy plan) = Some v /\ good_source v.
Proof.
  intros [Hn Hcov]. unfold visit_prepared_positions_with. destruct (plugins m !! plugin) as [c|] eqn:Ec.
  2:{ exists []. split; [done|]. assert (slice_entries = []) as E by (unfold slice_entries, items; by rewrite Ec).
      unfold good_source. rewrite E. split_and!; [constructor | set_solver | set_solver]. }
  set (show := fun x : nat * Item * ItemIndex => (x.1.1, x.1.2, prepared x.2)).
  set (may := fun x : nat * Item * ItemIndex => default false (may_match_with (prepared x.2) (plan_query plan) (plan_policy plan))).
  exists (map show (List.filter may (omap (entry_at c) l))).
  assert (Hin : forall x, x ∈ omap (entry_at c) l -> show x ∈ slice_entries /\ x.1.1 ∈ l).
  { intros x (i & Hi & Hx)%list_elem_of_omap. destruct (entry_at_shown c i x Ec Hx) as [? <-]. done. }
  split.
  - erewrite (mapM_total _ (fun x => if may x then [show x] else [])); [cbn; by rewrite join_singletons|].
    intros x Hx. unfold revisit, may. destruct (Hin x Hx) as [Hs _]. destruct (may_total _ Hs) as (b & Hb & _). unfold show in Hb. cbn [snd] in Hb. rewrite Hb. by destruct b.
  - split_and!.
    + apply (NoDup_fmap_1 (fun x => x.1.1)). change (map show ?k) with (show <$> k). rewrite <- list_fmap_compose.
      clear Hcov Hin. induction Hn as [|i l Hi _ IH]; cbn; [constructor|]. destruct (entry_at c i) as [x|] eqn:Ei; [|exact IH]. cbn.
      destruct (may x); [|exact IH]. cbn. constructor; [|exact IH]. intros Hd. apply list_elem_of_In, in_map_iff in Hd as (y & E & Hy%list_elem_of_In).
      apply list_elem_of_In, filter_In in Hy as [Hy%list_elem_of_In _]. apply list_elem_of_omap in Hy as (j & Hj & Hy).
      apply entry_at_Some in Ei as (Ei & _), Hy as (Ey & _). cbn in E. congruence.
    + intros x (y & <- & Hy)%list_elem_of_In%in_map_iff. apply filter_In in Hy as [Hy%list_elem_of_In _]. by apply Hin.
    + intros x Hx Hc. destruct (shown_entry_at c x Ec Hx) as (e & He & Hp). apply list_elem_of_In, in_map_iff. exists (x.1.1, x.1.2, e).
      split; [destruct x as [[i a] p]; unfold show; cbn in *; by rewrite Hp|]. apply filter_In. split.
      * apply list_elem_of_In, list_elem_of_omap. exists x.1.1. split; [by apply Hcov | done].
      * unfold may. cbn [snd]. destruct (may_total x Hx) as (b & Hb & Hbt). rewrite <- Hp, Hb. by apply Hbt.
Qed.

Lemma prefix_source token : prefix_token (plan_query plan) = Some token ->
  visit_label_prefixes m plugin token = Some (List.filter (fun x => negb (not_opening x)) slice_entries).
Proof.
  intros Et. rewrite label_prefixes_scan by (done || by eapply prefix_token_nonempty). f_equal.
  unfold slice_entries, shown, not_opening, opens. rewrite Et. unfold scan_items.
  induction (enumerate (items m plugin)) as [|x l IH]; cbn; [done|]. destruct (new_index x.2) as [e|]; cbn; [|exact IH].
  rewrite negb_involutive. unfold label_starts, entry_label. destruct (starts_with _ token); cbn; [f_equal|]; exact IH.
Qed.

Lemma filter_subset {A} (f : A -> bool) (l : list A) : List.filter f l ⊆ l.
Proof. intros x. rewrite !list_elem_of_In, filter_In. tauto. Qed.

Lemma filter_NoDup {A} (f : A -> bool) (l : list A) : NoDup l -> NoDup (List.filter f l).
Proof. rewrite !NoDup_ListNoDup. apply List.NoDup_filter. Qed.

Lemma visited_NoDup v : NoDup v -> NoDup (List.filter (fun x => negb (not_opening x)) slice_entries ++ List.filter not_opening v).
Proof.
  intros Hn. apply NoDup_app. split_and!; [apply filter_NoDup, shown_NoDup | | by apply filter_NoDup].
  intros x Hx Hy. apply list_elem_of_In, filter_In in Hx as [_ Hx], Hy as [_ Hy]. by rewrite Hy in Hx.
Qed.

(** Everything visited: the entries the prefix index yields, then the others of the source. *)
Lemma visited_matches v :
  good_source v -> omap candidate_of (List.filter (fun x => negb (not_opening x)) slice_entries ++ List.filter not_opening v) ≡ₚ plugin_matches.
Proof.
  intros (Hn & Hsub & Hall). apply omap_same; [by apply visited_NoDup | apply shown_NoDup|].
  intros x Hx. rewrite elem_of_app, !list_elem_of_In, !filter_In, <- !list_elem_of_In. split.
  - intros [[? _]|[? _]]; [done | by apply Hsub].
  - intros Hin. destruct (not_opening x) eqn:E; [right | left]; split; try done. by apply Hall.
Qed.

Lemma no_prefix_opening : prefix_token (plan_query plan) = None -> List.filter (fun x => negb (not_opening x)) slice_entries = [].
Proof. intros E. unfold not_opening, opens. rewrite E. induction slice_entries; [done | by cbn]. Qed.

(** What the prefix index leaves is weaker than a full selection that outscores the bound of the slice. *)
Lemma skipped_weaker s upper y x :
  distinct (retained s) -> bounds_slice upper -> outscored s upper = true ->
  x ∈ slice_entries -> not_opening x = true -> is_some (prefix_token (plan_query plan)) = true ->
  candidate_of x = Some y -> forall z, z ∈ retained s -> weaker y z.
Proof.
  intros Hd [Hu Hb] Ho Hx Hno Hp Hy. destruct (prefix_token (plan_query plan)) as [token|] eqn:Et; [|done].
  destruct (prefix_token_first token Et) as [rest Etok]. eapply outscored_weaker; [done | exact Hu | done|].
  destruct (entry_facts x Hx) as (_ & _ & _ & _ & _ & _ & _ & _ & _ & _ & Hin). specialize (Hb _ Hin).
  assert (Hle : ~ key_lt (f32_key (non_prefix_upper_bound (plan_history_enabled plan) x.1.2)) (f32_key (cand_score y))).
  { eapply bounded_candidate; [done | exact Etok | | done]. intros t Ht. unfold not_opening, opens in Hno. rewrite Et, Ht in Hno. by apply negb_true_iff in Hno. }
  unfold key_lt in *. lia.
Qed.

Definition prior_of : option (list nat) := plan_previous plan ≫= fun by_owner => by_owner !! plugin.

(** The state after the prefix index. *)
Lemma prefixes_selected :
  exists s, match prefix_token (plan_query plan) with
            | None => Some (new_selection plan)
            | Some token => visited ← visit_label_prefixes m plugin token; ofold (consider plan) (new_selection plan) visited
            end = Some s /\ selected (List.filter (fun x => negb (not_opening x)) slice_entries) s.
Proof.
  destruct (prefix_token (plan_query plan)) as [token|] eqn:Et.
  - rewrite (prefix_source token Et). cbn [mbind option_bind].
    by apply (consider_all _ [] _ new_selected); [apply filter_NoDup, shown_NoDup | apply filter_subset].
  - exists (new_selection plan). split; [done|]. rewrite no_prefix_opening by done. apply new_selected.
Qed.

(** One plugin's selection holds its strongest matches, and, unless the rest was
    skipped, the positions of all its matches. *)
Lemma select_plugin_spec :
  (forall l, prior_of = Some l -> covers_matches l) ->
  (forall upper, plan_non_prefix_upper plan !! plugin = Some upper -> bounds_slice upper) ->
  exists s whole, select_plugin m plan plugin = Some (s, whole) /\ top (per_plugin_limit plan) plugin_matches (retained s) /\
    (whole = true -> covers_matches (matched_positions s)).
Proof.
  intros Hprior Hupper. destruct prefixes_selected as (s & Es & Hs). unfold select_plugin. rewrite Es. cbn [mbind option_bind]. fold prior_of.
  set (P := List.filter (fun x => negb (not_opening x)) slice_entries) in *.
  assert (HP : P ⊆ slice_entries) by apply filter_subset. assert (HnP : NoDup P) by apply filter_NoDup, shown_NoDup.
  destruct (is_some _ && _ && _) eqn:Esk.
  - apply andb_true_iff in Esk as [Esk Ho]. apply andb_true_iff in Esk as [Ep Hfull]. apply Z.eqb_eq in Hfull.
    destruct (plan_non_prefix_upper plan !! plugin) as [upper|] eqn:Eu; [|done]. exists s, false. split_and!; [done | | done].
    assert (Hall : good_source slice_entries) by (split_and!; [apply shown_NoDup | done | done]).
    eapply top_perm; [apply (visited_matches _ Hall) | reflexivity|]. rewrite omap_app. apply top_below; [apply Hs | done|].
    intros z y Hz (x & Hx & Hy)%list_elem_of_omap. apply list_elem_of_In, filter_In in Hx as [Hx%list_elem_of_In Hno].
    by apply (skipped_weaker s upper y x (top_distinct _ _ _ (candidates_distinct _ HnP HP) (sel_top _ _ Hs)) (Hupper _ eq_refl) Ho Hx Hno Ep Hy).
  - assert (Hsrc : exists v, match prior_of with
                    | Some l => visit_prepared_positions_with m plugin l (plan_query plan) (plan_policy plan)
                    | None => visit_prepared_candidates m plugin (plan_query plan)
                    end = Some v /\ good_source v).
    { destruct prior_of as [l|]; [by apply warm_source, Hprior | apply cold_source]. }
    destruct Hsrc as (v & -> & Hv). cbn [mbind option_bind]. pose proof Hv as (Hnv & Hsub & Hall).
    destruct (remaining_all v P s (is_some prior_of) Hs Hsub (visited_NoDup v Hnv) HP) as (s' & -> & Hs'). cbn [mbind option_bind].
    exists s', true. split_and!; [done | | intros _].
    + eapply top_perm; [apply (visited_matches _ Hv) | reflexivity | apply Hs'].
    + split; [apply Hs'|]. intros x Hx Hc. apply (sel_matched _ _ Hs'); [|done]. apply elem_of_app. rewrite !list_elem_of_In. unfold P.
      rewrite !filter_In, <- !list_elem_of_In. destruct (not_opening x); [right | left]; split; try done. by apply Hall.
Qed.

End Select.

Section Sweep.
Context {U : Unicode} {L : UnicodeLaws U} {H : HeapOrder} (Horder : forall l, heap_order l ≡ₚ l).
Context (m : MemoryCatalog) (Hm : catalog_ok m) (plan : SearchPlan).

(** What one owner must satisfy. *)
Record owner_ok (plugin : PluginId) : Prop := {
  owner_items : Forall (fun item => indexable item /\ unpadded item) (items m plugin);
  owner_prior : forall l, prior_of plugin plan = Some l -> covers_matches m plugin plan l;
  owner_upper : forall upper, plan_non_prefix_upper plan !! plugin = Some upper -> bounds_slice m plugin plan upper;
}.

Context (Hlimit : 0 < per_plugin_limit plan) (Hglobal : 0 < global_limit plan) (Hbatch : 0 < batch_limit plan).
Context (Hquery : Forall normal (tokens (plan_query plan))).
Context (Hsignals : forall item, sane (plan_signals plan item)).

(** * The reference *)

(** The strongest matches of one plugin, no more than its quota. *)
Definition quota (plugin : PluginId) : list RankedCandidate :=
  take (Z.to_nat (per_plugin_limit plan)) (strongest_first (plugin_matches m plugin plan)).

(** The strongest of those, no more than the quota of a query. *)
Definition best_matches (owners : list PluginId) : list RankedCandidate :=
  take (Z.to_nat (global_limit plan)) (strongest_first (owners ≫= quota)).

Lemma match_owner plugin c : c ∈ plugin_matches m plugin plan -> plugin_id (cand_item c) = plugin.
Proof.
  intros (x & Hx & Hc)%list_elem_of_omap. apply candidate_of_Some in Hc as (-> & _ & _).
  apply shown_elem in Hx as (e & Hi & _). unfold items in Hi. destruct (plugins m !! plugin) as [p|] eqn:E; [|done].
  apply (ok_slices m Hm) in E as (_ & Ho & _). rewrite Forall_forall in Ho. apply Ho. by eapply list_elem_of_lookup_2.
Qed.

Lemma quota_matches plugin c : c ∈ quota plugin -> c ∈ plugin_matches m plugin plan.
Proof. intros Hc. unfold quota in Hc. apply elem_of_take in Hc as (i & Hi & _). apply list_elem_of_lookup_2 in Hi. by rewrite strongest_first_perm in Hi. Qed.

Lemma matches_distinct plugin : owner_ok plugin -> distinct (plugin_matches m plugin plan).
Proof. intros []. eapply candidates_distinct; eauto using shown_NoDup. Qed.

Lemma quota_distinct plugin : owner_ok plugin -> distinct (quota plugin).
Proof.
  intros Ho%matches_distinct. unfold quota. rewrite <- (strongest_first_perm (plugin_matches _ _ _)), <- (take_drop (Z.to_nat (per_plugin_limit plan))) in Ho.
  by apply distinct_app_inv in Ho as [? _].
Qed.

Lemma quotas_distinct owners : NoDup owners -> Forall owner_ok owners -> distinct (owners ≫= quota).
Proof.
  intros Hn Hall. induction Hn as [|p owners Hp Hn IH]; cbn; [split; constructor|]. apply Forall_cons in Hall as [Hok Hall].
  destruct (IH Hall) as [Hs Hd], (quota_distinct p Hok) as [Hs' Hd']. split; [by apply Forall_app|]. rewrite map_app. apply NoDup_app. split_and!; [done | | done].
  intros k Hk Hk'. apply list_elem_of_In, in_map_iff in Hk as (c & <- & Hc%list_elem_of_In), Hk' as (c' & E & Hc'%list_elem_of_In).
  apply list_elem_of_bind in Hc' as (q & Hc' & Hq). apply quota_matches, match_owner in Hc, Hc'. unfold cand_key in E. injection E as E _.
  apply Hp. by rewrite <- Hc, <- E, Hc'.
Qed.

(** * The sweep *)

Record swept (visited : list PluginId) (w : Sweep) : Prop := {
  swept_top : top (global_limit plan) (visited ≫= quota) (global w);
  swept_cache : cache_complete w = true -> forall plugin l, matched_by_owner w !! plugin = Some l -> covers_matches m plugin plan l;
}.

Lemma bind_snoc {A B} (f : A -> list B) l x : (l ++ [x]) ≫= f = (l ≫= f) ++ f x.
Proof. induction l as [|y l IH]; cbn; [by rewrite app_nil_r|]. rewrite <- app_assoc. f_equal. exact IH. Qed.

Lemma sweep_plugin_spec visited w plugin :
  NoDup (visited ++ [plugin]) -> Forall owner_ok (visited ++ [plugin]) -> swept visited w ->
  exists w', sweep_plugin m plan w plugin = Some w' /\ swept (visited ++ [plugin]) w'.
Proof.
  intros Hn Hall Hw. assert (Hok : owner_ok plugin) by (rewrite Forall_forall in Hall; apply Hall; set_solver).
  destruct (select_plugin_spec m Hm plugin plan Hlimit Hquery (owner_items _ Hok) Hsignals (owner_prior _ Hok) (owner_upper _ Hok)) as (s & whole & E & Ht & Hc).
  unfold sweep_plugin. rewrite E. cbn [mbind option_bind]. eexists. split; [done|].
  assert (Hp : heap_order (retained s) ≡ₚ quota plugin).
  { rewrite Horder. unfold quota. rewrite <- (top_take _ _ _ (matches_distinct plugin Hok) Ht). by rewrite strongest_first_perm. }
  split; cbn.
  - rewrite bind_snoc. eapply top_perm; [by rewrite <- Hp | reflexivity|].
    apply retain_all_top; [done | | apply Hw]. rewrite Hp, <- bind_snoc. by apply quotas_distinct.
  - intros [Hcw Hwh]%andb_true_iff q l [[<- <-]|[_ Hq]]%lookup_insert_Some; [by apply Hc | by eapply (swept_cache _ _ Hw)].
Qed.

Lemma sweep_all owners visited w :
  NoDup (visited ++ owners) -> Forall owner_ok (visited ++ owners) -> swept visited w ->
  exists w', ofold (sweep_plugin m plan) w owners = Some w' /\ swept (visited ++ owners) w'.
Proof.
  revert visited w. induction owners as [|p owners IH]; intros visited w Hn Hall Hw; cbn [ofold]; [exists w; by rewrite app_nil_r|].
  replace (visited ++ p :: owners) with ((visited ++ [p]) ++ owners) in * by (by rewrite <- app_assoc).
  destruct (sweep_plugin_spec visited w p) as (w1 & -> & Hw1); [by apply NoDup_app in Hn as [? _] | by apply Forall_app in Hall as [? _] | done|].
  cbn [mbind option_bind]. by apply IH.
Qed.

(** What [select_best] answers. *)
Lemma select_best_spec owners :
  NoDup owners -> Forall owner_ok owners ->
  exists stats_ cache whole, select_best m owners plan = Some (best_matches owners, stats_, cache, whole) /\
    (whole = true -> forall plugin l, cache !! plugin = Some l -> covers_matches m plugin plan l).
Proof.
  intros Hn Hall. unfold select_best. rewrite !(proj2 (Z.eqb_neq _ 0)) by lia. cbn [orb].
  destruct (sweep_all owners [] (mkSweep [] no_stats ∅ true)) as (w & -> & Hw); [done | done | |].
  { split; cbn; [apply top_nil; lia | done]. }
  cbn [mbind option_bind]. eexists _, _, _. split; [|apply Hw]. repeat f_equal. unfold best_matches.
  rewrite <- (top_take _ _ (global w)); [|by apply quotas_distinct | apply Hw]. apply ranked_unique.
  - apply strongest_first_ranked. rewrite Horder. eapply top_distinct; [by apply quotas_distinct | apply Hw].
  - apply strongest_first_ranked. eapply top_distinct; [by apply quotas_distinct | apply Hw].
  - by rewrite !strongest_first_perm, Horder.
Qed.

End Sweep.
