(* ===== verification/Service.v ===== *)
(** The search service, [crikey-app/src/lib.rs]: one state for the catalog and its
    publication edge, the persistent cache behind it, the answer on screen and
    the ranking history.

    Left out of the state: the platform back end, the plugin action router and
    the page it shows, and the memo of icons. *)

From Stdlib Require Import SpecFloat.
From S2P Require Import Prelude Text StdFloat Utf8 Generation Items Query Ranking Aggregator Catalog Search.

(** * Hits *)

Record SearchHit := mkHit {
  hit_item : Item;
  hit_score : f32;
  hit_method : MatchMethod;
  hit_highlights : list Span;
  ephemeral : bool;
}.

Definition by_rank (l r : SearchHit) : comparison :=
  then_with (score_compare (hit_score r) (hit_score l))
    (then_with (str_compare (stable_id (hit_item l)) (stable_id (hit_item r)))
       (str_compare (plugin_id (hit_item l)) (plugin_id (hit_item r)))).

Definition rank_leb (l r : SearchHit) : bool := match by_rank l r with Gt => false | _ => true end.

(** [sort_unstable_by(by_rank)]. *)
Definition sort_hits (l : list SearchHit) : list SearchHit := sort_by rank_leb l.

Record CandidateCache := mkCandidateCache { cached_normalized : text; by_owner : PositionCache }.

Inductive SearchError : Type := NotAcceptingQueries (pending : StartupStage).

Record CatalogLoad := mkLoad { load_items : Z; load_skipped : Z }.

(** * Sorted owners *)

(** [binary_search] in a sorted vector: where the plugin is, or where it belongs. *)
Fixpoint find_owner (owners : list PluginId) (plugin : PluginId) : result nat nat :=
  match owners with
  | [] => Err 0%nat
  | p :: owners' =>
      if String.eqb p plugin then Ok 0%nat
      else if str_leb plugin p then Err 0%nat
      else match find_owner owners' plugin with Ok i => Ok (S i) | Err i => Err (S i) end
  end.

Definition insert_at {A} (i : nat) (x : A) (l : list A) : list A := take i l ++ x :: drop i l.
Definition remove_at {A} (i : nat) (l : list A) : list A := take i l ++ drop (S i) l.

(** [Iterator::max] of scores. *)
Definition max_score (l : list f32) : option f32 :=
  match l with
  | [] => None
  | x :: l' => Some (foldl (fun best s => match score_compare best s with Gt => best | _ => s end) x l')
  end.

Section Service.
Context {U : Unicode} {HO : HeapOrder} {H D : Type} {C : CatalogCache H D}.

Record SearchService := mkService {
  app : App;
  catalog : MemoryCatalog;
  owners : list PluginId;
  aggregator : MemoryResultAggregator.MemoryResultAggregator;
  aliases : AliasTable;
  policy : MatchPolicy;
  volatile : gset PluginId;
  cache_sourced : gset PluginId;
  ranker_history : bool;
  results : list SearchHit;
  catalog_cache : option H;
  storage : D;
  cache_error : option CacheError;
  last_query_stats : SearchStats;
  candidate_cache : option CandidateCache;
  non_prefix_upper : gmap PluginId f32;
  history : SelectionHistory;
  foreground_category : option Category;
  now_secs : Z;
  last_query : option NormalizedQuery;
}.
#[global] Instance eta_SearchService : Eta SearchService := fun s =>
  mkService (app s) (catalog s) (owners s) (aggregator s) (aliases s) (policy s) (volatile s) (cache_sourced s)
    (ranker_history s) (results s) (catalog_cache s) (storage s) (cache_error s) (last_query_stats s)
    (candidate_cache s) (non_prefix_upper s) (history s) (foreground_category s) (now_secs s) (last_query s).

Definition new_service (a : App) (d : D) : SearchService :=
  mkService a new_catalog [] (MemoryResultAggregator.new (app_limits a)) (mkAliases ∅) Strict ∅ ∅ true [] None d None
    no_stats None ∅ (mkHistory ∅ ∅) None 0 None.

(** ** Settings *)

Definition set_match_policy (s : SearchService) (p : MatchPolicy) : SearchService :=
  if bool_decide (policy s = p) then s else s <| policy := p |> <| candidate_cache := None |>.

Definition set_aliases (s : SearchService) (t : AliasTable) : SearchService :=
  if bool_decide (alias_entries (aliases s) = alias_entries t) then s
  else s <| aliases := t |> <| candidate_cache := None |>.

Definition set_history_time (s : SearchService) (now : Z) : SearchService := s <| now_secs := now |>.

Definition set_foreground_category (s : SearchService) (c : option Category) : SearchService :=
  s <| foreground_category := c |>.

(** [eq_ignore_ascii_case] of strings. *)
Definition same_name (a b : string) : bool := eq_ignore_ascii_case (as_bytes a) (as_bytes b).

(** The category of the first item that the owning program of a window names. *)
Definition category_of (s : SearchService) (application : option string) : option Category :=
  name ← application;
  category <$> List.find (fun item => existsb (fun n => same_name n name) (item_label item :: Items.search_terms item))
                 (owners s ≫= items (catalog s)).

(** A window, or none, by its owning program. *)
Definition set_foreground_from_window (s : SearchService) (window : option (option string)) : SearchService :=
  s <| foreground_category := window ≫= category_of s |>.

Definition set_catalog_cache (s : SearchService) (h : H) : SearchService :=
  s <| catalog_cache := Some h |> <| cache_error := None |>.

Definition complete_startup (s : SearchService) (expected : StartupStage) : SearchService * result (option StartupStage) StartupError :=
  let (a, r) := complete_stage (app s) expected in (s <| app := a |>, r).

(** ** The persistent cache *)

Definition withdraw_cached (s : SearchService) (plugin : PluginId) : SearchService :=
  match catalog_cache s with
  | None => s
  | Some h =>
      let (d, r) := invalidate_slice (storage s) h plugin in
      let s := s <| storage := d |> in
      match r with Ok _ => s | Err e => s <| cache_error := Some e |> end
  end.

Definition store_cached (s : SearchService) (slice : CachedSlice) : SearchService :=
  match catalog_cache s with
  | None => s
  | Some h =>
      let (d, r) := store_slice (storage s) h slice in
      let s := s <| storage := d |> in
      match r with Ok _ => s | Err e => s <| cache_error := Some e |> end
  end.

Definition withdraw_slice (s : SearchService) (plugin : PluginId) : option SearchService :=
  m ← invalidate (catalog s) plugin;
  let s := s <| catalog := m |> <| non_prefix_upper ::= delete plugin |> in
  let s := match find_owner (owners s) plugin with Ok i => s <| owners ::= remove_at i |> | Err _ => s end in
  Some (s <| results := [] |> <| candidate_cache := None |>).

Definition set_catalog_persistence (s : SearchService) (plugin : PluginId) (persist : bool) : option SearchService :=
  if persist then Some (s <| volatile ::= fun v => v ∖ {[plugin]} |>)
  else if bool_decide (plugin ∈ volatile s) then Some s
  else
    let s := s <| volatile ::= fun v => {[plugin]} ∪ v |> in
    let s := withdraw_cached s plugin in
    if bool_decide (plugin ∈ cache_sourced s)
    then withdraw_slice (s <| cache_sourced ::= fun v => v ∖ {[plugin]} |>) plugin
    else Some s.

(** What a replacement that was applied changes around the catalog. *)
Definition publish_slice (s : SearchService) (plugin : PluginId) (instance : Z) : SearchService * Z :=
  let s := s <| results := [] |> in
  let retained := plugin_len (catalog s) plugin in
  let s :=
    match max_score (map (non_prefix_upper_bound (ranker_history s)) (items (catalog s) plugin)) with
    | Some upper => s <| non_prefix_upper ::= <[plugin := upper]> |>
    | None => s
    end in
  let s :=
    match retained =? 0, find_owner (owners s) plugin with
    | true, Ok at_ => s <| owners ::= remove_at at_ |>
    | true, Err _ | false, Ok _ => s
    | false, Err at_ => s <| owners ::= insert_at at_ plugin |>
    end in
  let s := s <| cache_sourced ::= fun v => v ∖ {[plugin]} |> in
  let s :=
    if (0 <? retained) && negb (bool_decide (plugin ∈ volatile s))
    then store_cached s (mkSlice plugin instance ZERO (items (catalog s) plugin))
    else withdraw_cached s plugin in
  (s, retained).

Definition replace_catalog (s : SearchService) (plugin : PluginId) (instance : Z) (batch : list Item)
    : option (SearchService * result Z CatalogError) :=
  let s := s <| candidate_cache := None |> <| non_prefix_upper ::= delete plugin |> in
  match activate_instance (catalog s) plugin instance with
  | (m, Err e) => Some (s <| catalog := m |>, Err e)
  | (m, Ok _) =>
      '(m, r) ← apply m plugin instance Replace batch;
      match r with
      | Err e => Some (s <| catalog := (retire_instance m plugin instance).1 |>, Err e)
      | Ok _ => let (s, retained) := publish_slice (s <| catalog := m |>) plugin instance in Some (s, Ok retained)
      end
  end.

(** What a provider hands over for one plugin instance. *)
Record CatalogBuild := mkBuild {
  build_plugin : PluginId;
  build_instance : Z;
  build_generation : Generation;
  build_items : list Item;
  build_persist : bool;
}.

(** [CatalogBuild::publish]: the declaration first, then the publication edge. *)
Definition publish_build (b : CatalogBuild) (s : SearchService) : option (SearchService * result Z CatalogError) :=
  s ← set_catalog_persistence s (build_plugin b) (build_persist b);
  replace_catalog s (build_plugin b) (build_instance b) (build_items b).

(** [admit]. *)
Definition admit_slice (s : SearchService) (slice : CachedSlice) : option (SearchService * option Z) :=
  '(s, r) ← replace_catalog s (slice_plugin slice) (slice_instance slice) (slice_items slice);
  Some (s, match r with Ok n => Some n | Err _ => None end).

Definition load_owner (h : H) (state : SearchService * CatalogLoad) (plugin : PluginId) : option (SearchService * CatalogLoad) :=
  let (s, load) := state in
  '(s, admitted) ← match load_slice (storage s) h plugin with
                   | Ok (Some slice) => admit_slice s slice
                   | Ok None | Err _ => Some (s, None)
                   end;
  Some (match admitted with
        | Some n => (s <| cache_sourced ::= fun v => {[plugin]} ∪ v |>,
                     mkLoad (saturating_add usize_max (load_items load) n) (load_skipped load))
        | None => (s, mkLoad (load_items load) (saturating_add usize_max (load_skipped load) 1))
        end).

(** [sort_unstable], then [dedup]. *)
Definition sorted_owners (l : list PluginId) : list PluginId :=
  let l := sort_by str_leb l in
  foldr (fun p acc => match acc with q :: _ => if String.eqb p q then acc else p :: acc | [] => [p] end) [] l.

Definition load_persisted_catalog (s : SearchService) (h : H) : option (SearchService * result CatalogLoad CacheError) :=
  let s := s <| candidate_cache := None |> <| non_prefix_upper := ∅ |> in
  match cached_plugins (storage s) h with
  | Err e => Some (s, Err e)
  | Ok l =>
      '(s, load) ← ofold (load_owner h) (s, mkLoad 0 0) (sorted_owners l);
      Some (s, Ok load)
  end.

(** ** Publishing *)

(** [merge]. *)
Definition merge_batch (a : MemoryResultAggregator.MemoryResultAggregator) (generation : Generation) (plugin : PluginId)
    (batch : list Item) (state : BatchState) : MemoryResultAggregator.MemoryResultAggregator * result unit RejectReason :=
  MemoryResultAggregator.accept a (mkResultBatch generation plugin state batch).

(** The loop over the chunks, [n] of them left. *)
Fixpoint publish_chunks (n : nat) (a : MemoryResultAggregator.MemoryResultAggregator) (generation : Generation)
    (plugin : PluginId) (remaining : list Item) (batch_limit : Z) : MemoryResultAggregator.MemoryResultAggregator :=
  match n with
  | O => a
  | S n' =>
      let take_ := Z.to_nat (Z.min batch_limit (len remaining)) in
      let chunk := take take_ remaining in
      let state := match n' with O => Final | _ => Partial end in
      let (a, r) := merge_batch a generation plugin chunk state in
      let a := match r, state with Err _, Final => (merge_batch a generation plugin [] Final).1 | _, _ => a end in
      publish_chunks n' a generation plugin (drop take_ remaining) batch_limit
  end.

Definition publish_selected (a : MemoryResultAggregator.MemoryResultAggregator) (generation : Generation) (plugin : PluginId)
    (selected : list Item) (batch_limit : Z) : MemoryResultAggregator.MemoryResultAggregator :=
  if (match selected with [] => true | _ => false end) || (batch_limit =? 0)
  then (merge_batch a generation plugin [] Final).1
  else publish_chunks (Z.to_nat ((len selected + batch_limit - 1) / batch_limit)) a generation plugin selected batch_limit.

(** ** Queries *)

Definition Outcomes : Type := gmap PluginId (gmap ItemId MatchOutcome).

Definition take_outcome (o : Outcomes) (item : Item) : Outcomes * option MatchOutcome :=
  match o !! plugin_id item with
  | None => (o, None)
  | Some by_id => (<[plugin_id item := delete (stable_id item) by_id]> o, by_id !! stable_id item)
  end.

(** The selected candidates, by owner: what matched, and the items. *)
Definition materialize (p : MatchPolicy) (q : NormalizedQuery) (state : Outcomes * gmap PluginId (list Item))
    (c : RankedCandidate) : option (Outcomes * gmap PluginId (list Item)) :=
  let item := cand_item c in
  outcome ← match_prepared p q (search_item item) (cand_label c);
  outcome ← outcome;
  Some (upsert ∅ (<[stable_id item := outcome]>) (plugin_id item) state.1,
        upsert [] (fun l => l ++ [item]) (plugin_id item) state.2).

Definition rank_hit (s : SearchService) (item : Item) (outcome : MatchOutcome) (affinity_ : gmap ItemKey Z)
    (ephemeral_ : bool) : SearchHit :=
  let signals := augment (history s) item affinity_ (now_secs s) (foreground_category s) default_signals in
  mkHit item (score_outcome_with_signals (ranker_history s) item (chars (item_label item)) outcome signals)
    (o_method outcome) (highlights outcome) ephemeral_.

(** The loop over what the aggregator kept. *)
Definition collect_hit (s : SearchService) (affinity_ : gmap ItemKey Z) (state : Outcomes * list SearchHit) (item : Item)
    : Outcomes * list SearchHit :=
  let (o, found) := take_outcome state.1 item in
  (o, match found with Some outcome => state.2 ++ [rank_hit s item outcome affinity_ false] | None => state.2 end).

(** The positions of the previous keystroke, when the query continues it. *)
Definition incremental (q : NormalizedQuery) (previous : option CandidateCache) : option PositionCache :=
  cached ← previous;
  if (2 <? len (normalized q)) && negb (bool_decide (cached_normalized cached = []))
     && starts_with (normalized q) (cached_normalized cached)
  then Some (by_owner cached) else None.

Definition search_plan (s : SearchService) (q : NormalizedQuery) (previous : option CandidateCache) : SearchPlan :=
  let l := app_limits (app s) in
  mkPlanOf (policy s) (ranker_history s) (non_prefix_upper s) q (incremental q previous) (history s)
    (foreground_category s) (now_secs s) (Z.min (max_items_per_plugin_per_query l) (max_items_per_query l))
    (max_items_per_query l) (max_items_per_batch l).

Definition publish_owner (generation : Generation) (batch_limit : Z)
    (state : MemoryResultAggregator.MemoryResultAggregator * gmap PluginId (list Item)) (plugin : PluginId)
    : MemoryResultAggregator.MemoryResultAggregator * gmap PluginId (list Item) :=
  (publish_selected state.1 generation plugin (default [] (state.2 !! plugin)) batch_limit, delete plugin state.2).

Definition submit_query_at (s : SearchService) (raw : text) (now : Z) : option (SearchService * result Generation SearchError) :=
  let s := s <| now_secs := now |> in
  if negb (can_accept_queries (app s)) then Some (s, Err (NotAcceptingQueries (stage (app s))))
  else
    '(tracker, generation) ← GenerationTracker.advance (generations (app s));
    let s := s <| app := (app s) <| generations := tracker |> |>
               <| aggregator := MemoryResultAggregator.begin_generation (aggregator s) generation |> in
    let q := expand (aliases s) (normalize raw) in
    let s := s <| last_query := Some q |> in
    let plan := search_plan s q (candidate_cache s) in
    '(selected, query_stats, matched_positions, complete) ← select_best (catalog s) (owners s) plan;
    let s := s <| candidate_cache := if complete : bool then Some (mkCandidateCache (normalized q) matched_positions) else None |>
               <| last_query_stats := query_stats |> in
    '(outcomes, selected_by_owner) ← ofold (materialize (policy s) q) (∅, ∅) selected;
    let (a, _) := foldl (publish_owner generation (batch_limit plan)) (aggregator s, selected_by_owner) (owners s) in
    let s := s <| aggregator := a |> in
    let affinity_ := affinities_for (history s) (text_string (normalized q)) in
    let (_, hits) := foldl (collect_hit s affinity_) (outcomes, []) (MemoryResultAggregator.items a) in
    Some (s <| results := sort_hits hits |>, Ok generation).

Definition submit_query (s : SearchService) (raw : text) : option (SearchService * result Generation SearchError) :=
  submit_query_at s raw (now_secs s).

Definition shows (l : list SearchHit) (id : ItemId) : bool := existsb (fun hit => String.eqb (stable_id (hit_item hit)) id) l.

Definition merge_one (s : SearchService) (q : NormalizedQuery) (affinity_ : gmap ItemKey Z) (kept merged : list SearchHit)
    (item : Item) : option (list SearchHit) :=
  outcome ← match_item (policy s) q (search_item item);
  Some (match outcome with
        | None => merged
        | Some o => if shows (kept ++ merged) (stable_id item) then merged else merged ++ [rank_hit s item o affinity_ true]
        end).

Definition merge_query_items (s : SearchService) (generation : Generation) (plugin : PluginId) (batch : list Item)
    : option (SearchService * bool) :=
  if negb (GenerationTracker.is_current (generations (app s)) generation) then Some (s, false)
  else
    match last_query s with
    | None => Some (s, false)
    | Some q =>
        let kept := List.filter (fun hit => negb (ephemeral hit && String.eqb (plugin_id (hit_item hit)) plugin)) (results s) in
        let affinity_ := affinities_for (history s) (text_string (normalized q)) in
        merged ← ofold (merge_one s q affinity_ kept) [] batch;
        let l := sort_hits (kept ++ merged) in
        Some (s <| results := take (Z.to_nat (max_items_per_query (app_limits (app s)))) l |>, true)
    end.

(** ** History *)

Definition selection_history_snapshot (s : SearchService) : SelectionHistorySnapshot := snapshot (history s).
Definition restore_selection_history (s : SearchService) (h : SelectionHistorySnapshot) : SearchService :=
  s <| history := from_snapshot h |>.
Definition clear_selection_history (s : SearchService) : SearchService := s <| history ::= clear |>.

(** [record_selection] of the service. *)
Definition record_visible (s : SearchService) (id : ItemId) : SearchService * bool :=
  match List.find (fun hit => String.eqb (stable_id (hit_item hit)) id) (results s), last_query s with
  | Some hit, Some q =>
      (s <| history := record_selection (history s) (plugin_id (hit_item hit)) (stable_id (hit_item hit))
                         (text_string (normalized q)) (now_secs s) |>, true)
  | _, _ => (s, false)
  end.

End Service.
