(* ===== verification/ServicePublish.v ===== *)
(** Publishing an answer: a selection that respects the limits is accepted batch
    by batch, and the aggregator then holds exactly what was selected. *)

From S2P Require Import Prelude Generation Items Aggregator AggregatorFacts Search Service.
Import MemoryResultAggregator Retained.

#[local] Arguments accept : simpl never.

(** ** New identities are appended *)

Lemma upsert_new l item : key item ∉ map key l -> upsert l item = l ++ [item].
Proof.
  intros Hn. unfold upsert. destruct (existsb (same_key item) l) eqn:E; [|done]. exfalso. apply Hn.
  apply existsb_exists in E as (x & Hx & Hk). apply same_key_true in Hk. apply list_elem_of_In, in_map_iff. exists x. split; [|done].
  unfold key. destruct Hk as [<- <-]. done.
Qed.

Lemma merge_all_new l batch : NoDup (map key (l ++ batch)) -> merge_all l batch = l ++ batch.
Proof.
  revert l. induction batch as [|x batch IH]; intros l Hn; [by rewrite app_nil_r|]. cbn. rewrite upsert_new.
  - replace (l ++ x :: batch) with ((l ++ [x]) ++ batch) in * by (by rewrite <- app_assoc). by apply IH.
  - rewrite map_app in Hn. cbn in Hn. apply NoDup_app in Hn as (_ & Hd & _). intros Hin. apply (Hd _ Hin). set_solver.
Qed.

Lemma owned_all p l : Forall (fun i => plugin_id i = p) l -> owned p l = len l.
Proof.
  intros H. unfold owned. f_equal. induction H as [|x l Hx Hl IH]; cbn; [done|]. rewrite (proj2 (String.eqb_eq _ _) Hx). by f_equal.
Qed.

Lemma all_owned p l : Forall (fun i => plugin_id i = p) l -> existsb (fun i => negb (String.eqb (plugin_id i) p)) l = false.
Proof. induction 1 as [|x l Hx Hl IH]; cbn; [done|]. by rewrite (proj2 (String.eqb_eq _ _) Hx). Qed.

(** ** Payloads *)

(** An item that takes no more than its share of a batch. *)
Definition light (lim : ResultLimits) (i : Item) : Prop :=
  map_or (icon_reference i) 0 str_len * max_items_per_batch lim <= Z.min usize_max (max_icon_reference_bytes_per_batch lim) /\
  entry_bytes (metadata i) * max_items_per_batch lim <= Z.min usize_max (max_metadata_bytes_per_batch lim).

Lemma shares_fit (f : Item -> Z) B bound l :
  0 < B -> 0 <= bound -> len l <= B -> Forall (fun i => 0 <= f i /\ f i * B <= bound) l -> foldr (fun i n => f i + n) 0 l <= bound.
Proof.
  intros HB Hb Hl Hf. assert (Hs : foldr (fun i n => f i + n) 0 l * B <= len l * bound).
  { clear Hl. induction Hf as [|x l [Hx Hxb] Hl IH]; [change (len (@nil Item)) with 0; cbn [foldr]; lia|]. rewrite len_cons. cbn [foldr]. nia. }
  pose proof (len_nonneg l). nia.
Qed.

(** A batch of light items fits. *)
Lemma light_fits lim l :
  limits_wf lim -> 0 < max_items_per_batch lim -> len l <= max_items_per_batch lim -> Forall (light lim) l -> payload_fits lim l = true.
Proof.
  intros (Hi & Hm & _) HB Hl Hf. unfold payload_fits. apply andb_true_iff. rewrite !Z.leb_le. assert (0 <= usize_max) by (unfold usize_max, u64_max; lia). split.
  - apply (shares_fit _ (max_items_per_batch lim)); [done | lia | done|]. eapply Forall_impl; [exact Hf|]. intros i [? _]. split; [apply icon_nonneg | done].
  - apply (shares_fit _ (max_items_per_batch lim)); [done | lia | done|]. eapply Forall_impl; [exact Hf|]. intros i [_ ?]. split; [apply entry_bytes_nonneg | done].
Qed.

(** * One batch *)

(** An aggregator that is collecting a generation under the limits of the application. *)
Record collecting (lim : ResultLimits) (g : Generation) (a : MemoryResultAggregator) : Prop := {
  co_inv : agg_inv a;
  co_limits : limits a = lim;
  co_own : plugin_limits a = ∅;
  co_active : active a = Some g;
  co_floor : retirement_floor a = 0;
}.

(** A batch that can be added whole. *)
Record fits (lim : ResultLimits) (a : MemoryResultAggregator) (p : PluginId) (batch : list Item) : Prop := {
  fit_owned : Forall (fun i => plugin_id i = p) batch;
  fit_new : NoDup (map key (items a ++ batch));
  fit_plugin : owned p (items a) + len batch <= Z.min usize_max (max_items_per_plugin_per_query lim);
  fit_query : len (items a) + len batch <= Z.min usize_max (max_items_per_query lim);
  fit_payload : Forall (light lim) batch;
}.

Lemma merge_batch_fits lim g a p batch st :
  collecting lim g a -> fits lim a p batch -> 0 < max_items_per_batch lim -> len batch <= max_items_per_batch lim ->
  is_some_and (batch_states a !! p) is_terminal = false ->
  exists a', merge_batch a g p batch st = (a', Ok ()) /\ collecting lim g a' /\ items a' = items a ++ batch /\
    batch_states a' = <[p := st]> (batch_states a).
Proof.
  intros [Hi Hl Ho Ha Hfl] [Fo Fn Fp Fq Fpay] HB Hb Hs. unfold merge_batch.
  assert (Hpay : payload_fits lim batch = true) by (apply light_fits; [rewrite <- Hl; apply Hi | done..]).
  pose proof (accept_reference a (mkResultBatch g p st batch) Hi) as Hacc. unfold reference, judge in Hacc. cbn [batch_plugin batch_items batch_generation batch_state] in Hacc.
  rewrite (merge_all_new _ _ Fn), Ho, lookup_empty, Hs, Hl, Ha in Hacc. rewrite bool_decide_eq_true_2 in Hacc by done. cbn [negb map_or] in Hacc.
  rewrite (proj2 (Z.ltb_ge _ _)) in Hacc by lia. rewrite (all_owned p batch Fo), Hpay in Hacc. cbn [negb] in Hacc.
  rewrite owned_app, (owned_all p batch Fo) in Hacc. rewrite !(proj2 (Z.ltb_ge _ _)) in Hacc; [|unfold len in *; rewrite ?length_app; lia..].
  cbn [orb] in Hacc. destruct Hacc as (a' & E & Hac & Hi'). exists a'. split_and!; [done | | apply Hac | apply Hac].
  split; [done | by rewrite (ac_limits _ _ _ _ Hac) | by rewrite (ac_own _ _ _ _ Hac) | by rewrite (ac_active _ _ _ _ Hac) | by rewrite (ac_floor _ _ _ _ Hac)].
Qed.

(** * One owner *)

Lemma fits_take lim a p batch n : fits lim a p batch -> fits lim a p (take n batch).
Proof.
  intros [Fo Fn Fp Fq Fpay]. assert (Hle : len (take n batch) <= len batch) by (unfold len; rewrite length_take; lia). split.
  - by apply Forall_take.
  - rewrite <- (take_drop n batch), app_assoc, map_app in Fn. by apply NoDup_app in Fn as [? _].
  - lia.
  - lia.
  - by apply Forall_take.
Qed.

Lemma fits_drop lim a a' p batch n :
  fits lim a p batch -> items a' = items a ++ take n batch -> fits lim a' p (drop n batch).
Proof.
  intros [Fo Fn Fp Fq Fpay] E. assert (Hlen : len batch = len (take n batch) + len (drop n batch)).
  { unfold len. rewrite <- (take_drop n batch) at 1. rewrite length_app. lia. }
  split.
  - by apply Forall_drop.
  - by rewrite E, <- app_assoc, take_drop.
  - rewrite E, owned_app, (owned_all p (take n batch)) by (by apply Forall_take). lia.
  - rewrite E. unfold len in *. rewrite length_app. lia.
  - by apply Forall_drop.
Qed.

(** How many chunks are left. *)
Lemma chunks_left (n : nat) (B : Z) (l : list Item) :
  0 < B -> l <> [] -> Z.of_nat (S n) = (len l + B - 1) / B ->
  let k := Z.to_nat (Z.min B (len l)) in
  (n = O -> take k l = l) /\ (n <> O -> drop k l <> [] /\ Z.of_nat n = (len (drop k l) + B - 1) / B).
Proof.
  intros HB Hl Hn k. pose proof (len_nonneg l). pose proof (Z.div_mod (len l + B - 1) B ltac:(lia)) as Hdm. pose proof (Z.mod_pos_bound (len l + B - 1) B HB) as Hmb.
  rewrite <- Hn in Hdm. split.
  - intros ->. apply take_ge. unfold k, len in *. nia.
  - intros Hne. assert (Hlt : B < len l) by nia. assert (Hk : k = Z.to_nat B) by (unfold k; f_equal; lia).
    assert (Hd : len (drop k l) = len l - B) by (unfold len in *; rewrite length_drop; lia). split.
    + intros E. rewrite E, len_nil in Hd. lia.
    + rewrite Hd. replace (len l - B + B - 1) with (len l + B - 1 + (-1) * B) by lia. rewrite Z.div_add by lia. lia.
Qed.

Lemma publish_chunks_fits lim g n a p l :
  collecting lim g a -> fits lim a p l -> 0 < max_items_per_batch lim -> l <> [] ->
  Z.of_nat n = (len l + max_items_per_batch lim - 1) / max_items_per_batch lim ->
  is_some_and (batch_states a !! p) is_terminal = false ->
  exists a', publish_chunks n a g p l (max_items_per_batch lim) = a' /\ collecting lim g a' /\ items a' = items a ++ l /\
    forall q, q <> p -> batch_states a' !! q = batch_states a !! q.
Proof.
  revert a l. induction n as [|n IH]; intros a l Hc Hf HB Hl Hn Hs.
  { exfalso. pose proof (len_nonneg l). destruct l as [|x l]; [done|]. rewrite len_cons in Hn. pose proof (len_nonneg l).
    assert (1 <= (len l + 1 + max_items_per_batch lim - 1) / max_items_per_batch lim) by (apply Z.div_le_lower_bound; lia). lia. }
  destruct (chunks_left n (max_items_per_batch lim) l HB Hl Hn) as [Hlast Hmore]. cbn [publish_chunks].
  set (k := Z.to_nat (Z.min (max_items_per_batch lim) (len l))) in *.
  assert (Hsize : len (take k l) <= max_items_per_batch lim) by (unfold len; rewrite length_take; lia).
  destruct (merge_batch_fits lim g a p (take k l) (match n with O => Final | S _ => Partial end) Hc (fits_take _ _ _ _ _ Hf) HB Hsize Hs)
    as (a1 & E & Hc1 & Hi1 & Hs1). rewrite E. cbv zeta iota.
  destruct n as [|n].
  - exists a1. split_and!; [done | done | by rewrite Hi1, Hlast|]. intros q Hq. by rewrite Hs1, lookup_insert_ne.
  - destruct (Hmore ltac:(done)) as [Hne Hcount].
    destruct (IH a1 (drop k l) Hc1 (fits_drop _ _ _ _ _ _ Hf Hi1) HB Hne Hcount) as (a2 & E2 & Hc2 & Hi2 & Hs2).
    { by rewrite Hs1, lookup_insert_eq. }
    exists a2. split_and!; [done | done | by rewrite Hi2, Hi1, <- app_assoc, take_drop|]. intros q Hq. by rewrite Hs2, Hs1, lookup_insert_ne.
Qed.

Lemma publish_selected_fits lim g a p l :
  collecting lim g a -> fits lim a p l -> 0 < max_items_per_batch lim ->
  is_some_and (batch_states a !! p) is_terminal = false ->
  exists a', publish_selected a g p l (max_items_per_batch lim) = a' /\ collecting lim g a' /\ items a' = items a ++ l /\
    forall q, q <> p -> batch_states a' !! q = batch_states a !! q.
Proof.
  intros Hc Hf HB Hs. unfold publish_selected. rewrite (proj2 (Z.eqb_neq _ 0)) by lia. rewrite orb_false_r. destruct l as [|x l].
  - destruct (merge_batch_fits lim g a p [] Final Hc Hf HB ltac:(rewrite len_nil; lia) Hs) as (a' & -> & Hc' & Hi & Hst).
    exists a'. split_and!; [done..|]. intros q Hq. by rewrite Hst, lookup_insert_ne.
  - apply publish_chunks_fits; try done. pose proof (len_nonneg (x :: l)). rewrite Z2Nat.id; [done|]. apply Z.div_pos; lia.
Qed.

(** * Every owner *)

(** What an owner may publish on its own. *)
Record chosen_fits (lim : ResultLimits) (p : PluginId) (l : list Item) : Prop := {
  cf_owned : Forall (fun i => plugin_id i = p) l;
  cf_new : NoDup (map key l);
  cf_plugin : len l <= Z.min usize_max (max_items_per_plugin_per_query lim);
  cf_payload : Forall (light lim) l;
}.

Lemma owned_none p l : Forall (fun i => plugin_id i <> p) l -> owned p l = 0.
Proof. unfold owned. induction 1 as [|x l Hx Hl IH]; cbn; [done|]. by rewrite (proj2 (String.eqb_neq _ _) Hx). Qed.

Lemma bind_ext_in {A B} (f f' : A -> list B) l : (forall x, x ∈ l -> f x = f' x) -> l ≫= f = l ≫= f'.
Proof. intros H. induction l as [|x l IH]; cbn; [done|]. rewrite H by set_solver. f_equal. apply IH. set_solver. Qed.

Lemma publish_owners lim g owners_ a (sel : gmap PluginId (list Item)) :
  collecting lim g a -> 0 < max_items_per_batch lim -> NoDup owners_ ->
  (forall p, p ∈ owners_ -> batch_states a !! p = None /\ Forall (fun i => plugin_id i <> p) (items a)) ->
  NoDup (map key (items a)) ->
  (forall p, p ∈ owners_ -> chosen_fits lim p (default [] (sel !! p))) ->
  len (items a) + len (owners_ ≫= fun p => default [] (sel !! p)) <= Z.min usize_max (max_items_per_query lim) ->
  let a' := (foldl (publish_owner g (max_items_per_batch lim)) (a, sel) owners_).1 in
  collecting lim g a' /\ items a' = items a ++ (owners_ ≫= fun p => default [] (sel !! p)).
Proof.
  intros Hc HB Hn. revert a sel Hc. induction Hn as [|p owners_ Hp Hn IH]; intros a sel Hc Hst Hk Hsel Hq; cbn [foldl].
  { cbn. by rewrite app_nil_r. }
  destruct (Hst p ltac:(set_solver)) as [Hs Ho]. destruct (Hsel p ltac:(set_solver)) as [So Sk Sl Spay].
  cbn [mbind list_bind] in Hq. unfold len in Hq. rewrite length_app in Hq. fold (len (default [] (sel !! p))) in Hq.
  set (chosen := default [] (sel !! p)) in *.
  assert (Hdis : forall i, i ∈ map key (items a) -> i ∉ map key chosen).
  { intros i Hi Hi'. apply list_elem_of_In, in_map_iff in Hi as (x & <- & Hx%list_elem_of_In), Hi' as (y & E & Hy%list_elem_of_In).
    rewrite Forall_forall in Ho, So. apply (Ho x Hx). unfold key in E. injection E as E _. by rewrite <- E, So. }
  assert (Hf : fits lim a p chosen).
  { split; [done | | | | done].
    - rewrite map_app. by apply NoDup_app.
    - rewrite owned_none by done. lia.
    - unfold len in *. lia. }
  destruct (publish_selected_fits lim g a p chosen Hc Hf HB) as (a1 & E1 & Hc1 & Hi1 & Hs1); [by rewrite Hs|].
  assert (Estep : publish_owner g (max_items_per_batch lim) (a, sel) p = (a1, delete p sel)) by (unfold publish_owner; cbn [fst snd]; by rewrite <- E1).
  rewrite Estep.
  assert (Hsame : forall q, q ∈ owners_ -> delete p sel !! q = sel !! q) by (intros q Hq'; apply lookup_delete_ne; intros ->; done).
  destruct (IH a1 (delete p sel) Hc1) as [Hc' Hi'].
  - intros q Hq'. assert (Hne : q <> p) by (by intros ->). rewrite Hs1 by done. destruct (Hst q ltac:(set_solver)) as [? Hoq]. split; [done|].
    rewrite Hi1. apply Forall_app. split; [done|]. eapply Forall_impl; [exact So|]. congruence.
  - rewrite Hi1. apply Hf.
  - intros q Hq'. rewrite Hsame by done. apply Hsel. set_solver.
  - rewrite Hi1. erewrite (bind_ext_in _ (fun q => default [] (sel !! q))).
    + unfold len in *. rewrite length_app. lia.
    + intros q Hq'. by rewrite Hsame.
  - split; [done|].
    rewrite Hi', Hi1, <- app_assoc. f_equal. cbn. f_equal. apply bind_ext_in. intros q Hq'. by rewrite Hsame.
Qed.

(** Whatever is published, the aggregator keeps collecting. *)
Lemma merge_batch_keeps lim g a p batch st : collecting lim g a -> collecting lim g (merge_batch a g p batch st).1.
Proof.
  intros Hc. pose proof Hc as [Hi Hl Ho Ha Hfl]. unfold merge_batch. pose proof (accept_reference a (mkResultBatch g p st batch) Hi) as Hacc.
  destruct (reference _ _) as [merged|e]; [|by rewrite Hacc]. destruct Hacc as (a' & -> & Hac & Hi'). cbn [fst].
  split; [done | by rewrite (ac_limits _ _ _ _ Hac) | by rewrite (ac_own _ _ _ _ Hac) | by rewrite (ac_active _ _ _ _ Hac) | by rewrite (ac_floor _ _ _ _ Hac)].
Qed.

Lemma publish_chunks_keeps lim g n a p l B : collecting lim g a -> collecting lim g (publish_chunks n a g p l B).
Proof.
  revert a l. induction n as [|n IH]; intros a l Hc; cbn [publish_chunks]; [done|]. set (chunk := take _ l). set (st := match n with O => _ | S _ => _ end).
  pose proof (merge_batch_keeps lim g a p chunk st Hc) as H1. destruct (merge_batch a g p chunk st) as [a1 r]. cbn [fst] in H1.
  apply IH. destruct r, st; try done. by apply merge_batch_keeps.
Qed.

Lemma publish_selected_keeps lim g a p l B : collecting lim g a -> collecting lim g (publish_selected a g p l B).
Proof. intros Hc. unfold publish_selected. destruct (_ || _); [by apply merge_batch_keeps | by apply publish_chunks_keeps]. Qed.

Lemma publish_owners_keeps lim g owners_ a sel B : collecting lim g a -> collecting lim g (foldl (publish_owner g B) (a, sel) owners_).1.
Proof.
  revert a sel. induction owners_ as [|p owners_ IH]; intros a sel Hc; cbn [foldl]; [done|]. apply IH. by apply publish_selected_keeps.
Qed.
