(* ===== verification/ServiceInv.v ===== *)
(** The invariant of the search service and that every operation keeps it: the
    catalog is intact, its owners are listed in order, the bound of each slice is
    one, the positions kept from the last keystroke miss no match, and the answer
    is ranked, bounded and without repetition. *)

From Stdlib Require Import SpecFloat.
From S2P Require Import Prelude Text StdFloat Utf8 Generation Items Query QueryText QueryWords.
From S2P Require Import QueryPrepare QueryFacts QueryScores QueryNarrow Ranking RankingFacts RankingBound Aggregator.
From S2P Require Import AggregatorFacts Catalog CatalogIndex CatalogMerge CatalogSearch CatalogFacts Search SearchTop.
From S2P Require Import SearchTop Service ServicePublish.

#[local] Arguments new_index : simpl never.
#[local] Arguments search_item : simpl never.

(** * Sorted owners *)

Lemma str_lt_total a b : a <> b -> str_leb a b = false -> str_lt b a.
Proof. intros Hne E. split; [|done]. destruct (to_total str_leb str_order a b); congruence. Qed.

Lemma find_owner_Ok owners plugin i :
  find_owner owners plugin = Ok i -> exists before after, owners = before ++ plugin :: after /\ i = length before.
Proof.
  revert i. induction owners as [|p owners IH]; intros i; cbn; [done|]. destruct (String.eqb_spec p plugin) as [->|Hne].
  - intros [= <-]. by exists [], owners.
  - destruct (str_leb plugin p); [done|]. destruct (find_owner owners plugin) as [j|j]; [|done]. intros [= <-].
    destruct (IH j eq_refl) as (before & after & -> & ->). by exists (p :: before), after.
Qed.

Lemma find_owner_Err owners plugin i :
  StronglySorted str_lt owners -> find_owner owners plugin = Err i ->
  exists before after, owners = before ++ after /\ i = length before /\
    Forall (fun p => str_lt p plugin) before /\ Forall (fun p => str_lt plugin p) after.
Proof.
  intros Hs. revert i. induction Hs as [|p owners Hs IH Hall]; intros i; cbn.
  - intros [= <-]. by exists [], [].
  - destruct (String.eqb_spec p plugin) as [->|Hne]; [done|]. destruct (str_leb plugin p) eqn:El.
    + intros [= <-]. exists [], (p :: owners). split_and!; [done..|]. assert (str_lt plugin p) by (by split; [|congruence]).
      constructor; [done|]. eapply Forall_impl; [exact Hall|]. intros q Hq. by eapply str_lt_trans.
    + destruct (find_owner owners plugin) as [j|j]; [done|]. intros [= <-]. destruct (IH j eq_refl) as (before & after & -> & -> & Hb & Ha).
      exists (p :: before), after. split_and!; [done..| |done]. constructor; [|done]. by apply str_lt_total.
Qed.

Lemma remove_at_app {A} (before after : list A) x : remove_at (length before) (before ++ x :: after) = before ++ after.
Proof. unfold remove_at. rewrite take_app_length. f_equal. rewrite drop_app_ge by lia. by replace (S (length before) - length before)%nat with 1%nat by lia. Qed.

Lemma insert_at_app {A} (before after : list A) x : insert_at (length before) x (before ++ after) = before ++ x :: after.
Proof. unfold insert_at. by rewrite take_app_length, drop_app_length. Qed.

Lemma sorted_NoDup l : StronglySorted str_lt l -> NoDup l.
Proof.
  induction 1 as [|p l Hs IH Hall]; constructor; [|done]. intros Hin. rewrite Forall_forall in Hall. by apply (str_lt_irrefl p), Hall.
Qed.

Lemma sorted_drop_middle before after p : StronglySorted str_lt (before ++ p :: after) -> StronglySorted str_lt (before ++ after).
Proof.
  induction before as [|q before IH]; cbn; intros Hs; inversion Hs as [|? ? Hs' Hall]; subst; [done|]. constructor; [by apply IH|].
  rewrite !Forall_app, Forall_cons in Hall. rewrite Forall_app. tauto.
Qed.

Lemma sorted_insert before after p :
  StronglySorted str_lt (before ++ after) -> Forall (fun q => str_lt q p) before -> Forall (fun q => str_lt p q) after ->
  StronglySorted str_lt (before ++ p :: after).
Proof.
  induction before as [|q before IH]; cbn; intros Hs Hb Ha.
  - by constructor.
  - inversion Hs as [|? ? Hs' Hall]; subst. apply Forall_cons in Hb as [Hq Hb]. constructor; [by apply IH|].
    rewrite Forall_app in Hall. rewrite Forall_app, Forall_cons. tauto.
Qed.

(** Taking an owner out, and putting one in. *)
Definition drop_owner (l : list PluginId) (plugin : PluginId) : list PluginId :=
  match find_owner l plugin with Ok i => remove_at i l | Err _ => l end.
Definition put_owner (l : list PluginId) (plugin : PluginId) : list PluginId :=
  match find_owner l plugin with Ok _ => l | Err i => insert_at i plugin l end.

Lemma drop_owner_spec l plugin :
  StronglySorted str_lt l -> StronglySorted str_lt (drop_owner l plugin) /\ forall p, p ∈ drop_owner l plugin <-> p ∈ l /\ p <> plugin.
Proof.
  intros Hs. unfold drop_owner. destruct (find_owner l plugin) as [i|i] eqn:E.
  - destruct (find_owner_Ok _ _ _ E) as (before & after & -> & ->). rewrite remove_at_app. split; [by eapply sorted_drop_middle|].
    intros p. pose proof (sorted_NoDup _ Hs) as Hn. apply NoDup_app in Hn as (_ & Hd & Hn). apply NoDup_cons in Hn as [Hp _].
    rewrite !elem_of_app, elem_of_cons. split; [|tauto]. intros [Hin|Hin]; split; try tauto; intros ->; [apply (Hd plugin Hin); set_solver | done].
  - split; [done|]. destruct (find_owner_Err _ _ _ Hs E) as (before & after & -> & _ & Hb & Ha). intros p. split; [|tauto]. intros Hin. split; [done|].
    intros ->. apply elem_of_app in Hin as [Hin|Hin]; rewrite Forall_forall in Hb, Ha; [apply Hb in Hin | apply Ha in Hin]; by apply str_lt_irrefl in Hin.
Qed.

Lemma put_owner_spec l plugin :
  StronglySorted str_lt l -> StronglySorted str_lt (put_owner l plugin) /\ forall p, p ∈ put_owner l plugin <-> p ∈ l \/ p = plugin.
Proof.
  intros Hs. unfold put_owner. destruct (find_owner l plugin) as [i|i] eqn:E.
  - split; [done|]. destruct (find_owner_Ok _ _ _ E) as (before & after & -> & _). set_solver.
  - destruct (find_owner_Err _ _ _ Hs E) as (before & after & -> & -> & Hb & Ha). rewrite insert_at_app. split; [by apply sorted_insert|]. set_solver.
Qed.

(** * The bound of a slice *)

Definition bound_of (enabled : bool) (l : list Item) (upper : f32) : Prop :=
  score_value upper /\ forall item, item ∈ l -> ~ key_lt (f32_key upper) (f32_key (non_prefix_upper_bound enabled item)).

Lemma max_score_spec l upper :
  Forall score_value l -> max_score l = Some upper -> score_value upper /\ forall x, x ∈ l -> ~ key_lt (f32_key upper) (f32_key x).
Proof.
  destruct l as [|x l]; [done|]. cbn. intros [Hx Hl]%Forall_cons [= <-]. revert x Hx. induction Hl as [|y l Hy Hl IH]; intros x Hx; cbn.
  - split; [done|]. intros z ->%list_elem_of_singleton. apply key_lt_irrefl.
  - set (b := match score_compare x y with Gt => x | _ => y end). assert (Hb : score_value b) by (unfold b; by destruct (score_compare x y)).
    destruct (IH b Hb) as [Hv Hall]. split; [done|]. assert (Hbb := Hall b ltac:(set_solver)).
    pose proof (score_compare_spec x y Hx Hy) as Hc. unfold b in *.
    intros z [->|[->|Hz]%elem_of_cons]%elem_of_cons; [| |apply Hall; set_solver];
      destruct (score_compare x y); subst; unfold key_lt in *; lia.
Qed.

Lemma slice_bound enabled l upper : max_score (map (non_prefix_upper_bound enabled) l) = Some upper -> bound_of enabled l upper.
Proof.
  intros H. destruct (max_score_spec (map (non_prefix_upper_bound enabled) l) upper) as [Hv Hall]; [|exact H|].
  - apply Forall_map, Forall_forall. intros item _. apply new_score_value.
  - split; [done|]. intros item Hin. apply Hall, list_elem_of_In, in_map, list_elem_of_In, Hin.
Qed.

(** * Typed histories *)

(** Counters and times of their widths. *)
Definition entry_typed (e : HistoryEntry) : Prop :=
  0 <= frequency e <= u32_max /\ forall t, last_selected_secs e = Some t -> 0 <= t <= u64_max.

Definition history_typed (h : SelectionHistory) : Prop := forall k e, entries h !! k = Some e -> entry_typed e.

Definition snapshot_typed (s : SelectionHistorySnapshot) : Prop :=
  Forall (fun r => entry_typed (mkHistoryEntry (record_frequency r) (record_last r))) (selections s).

Lemma evict_typed h : history_typed h -> history_typed (evict_to_capacity h).
Proof.
  intros Hh k e. unfold evict_to_capacity. cbn. destruct (evict_entries_spec (entries h)) as (_ & Hsub & _). intros He. eapply Hh, Hsub, He.
Qed.

Lemma record_typed h plugin item query now : 0 <= now <= u64_max -> history_typed h -> history_typed (record_selection h plugin item query now).
Proof.
  intros Hnow Hh. unfold record_selection. destruct (item_key_fits plugin item); [|done]. cbn [negb]. apply evict_typed. intros k e.
  assert (Hup : upsert (mkHistoryEntry 0 None) (fun e => mkHistoryEntry (saturating_add u32_max (frequency e) 1) (Some now)) (plugin, item) (entries h) !! k = Some e -> entry_typed e).
  { unfold upsert. intros [[_ <-]|[_ He]]%lookup_insert_Some; [|by eapply Hh]. split; cbn [frequency last_selected_secs]; [|by intros t [= <-]].
    assert (0 <= frequency (default (mkHistoryEntry 0 None) (entries h !! (plugin, item))) <= u32_max).
    { destruct (entries h !! (plugin, item)) eqn:E; cbn; [by apply (Hh _ _ E) | unfold u32_max; lia]. }
    unfold saturating_add.
    set (f := frequency _) in *. clearbody f. lia. }
  destruct (affinity_key_fits plugin item query); cbn -[upsert]; exact Hup.
Qed.

Lemma from_snapshot_typed s : snapshot_typed s -> history_typed (from_snapshot s).
Proof.
  intros Hs. apply evict_typed. intros k e. cbn.
  assert (Hgen : forall m : gmap ItemKey HistoryEntry, (forall k e, m !! k = Some e -> entry_typed e) ->
    forall k e, foldl restore_selection m (selections s) !! k = Some e -> entry_typed e).
  { unfold snapshot_typed in Hs. induction Hs as [|r l Hr Hl IH]; intros m Hm; cbn; [done|]. apply IH. intros k' e'. unfold restore_selection.
    destruct (item_key_fits _ _); [|apply Hm]. intros [[_ <-]|[_ ?]]%lookup_insert_Some; [done | by eapply Hm]. }
  apply Hgen. by intros ? ? ?%lookup_empty_Some.
Qed.

(** The signals such a history gives are those the bound allows for. *)
Lemma augment_sane h item affinity_ now foreground :
  history_typed h -> 0 <= now <= u64_max -> sane (augment h item affinity_ now foreground default_signals).
Proof.
  intros Hh Hnow. unfold augment. destruct (entries h !! _) as [e|] eqn:E.
  - destruct (Hh _ _ E) as [Hf Ht]. split; cbn; [done | | |left; apply number_zero].
    + intros age. destruct (last_selected_secs e) as [t|]; [|done]. cbn. intros [= <-]. specialize (Ht t eq_refl). unfold saturating_sub. lia.
    + destruct (affinity_ !! _); [apply div_number | left; apply number_zero].
  - split; cbn; [unfold u32_max; lia | done | | left; apply number_zero]. destruct (affinity_ !! _); [apply div_number | left; apply number_zero].
Qed.

(** * The invariant *)

Definition fit (item : Item) {U : Unicode} : Prop := indexable item /\ unpadded item.

(** Every item can be indexed, and its label does not open with a blank. *)
Definition fit_catalog {U : Unicode} (m : MemoryCatalog) : Prop := forall p, Forall (fun item => fit item) (items m p).

Definition hit_key (h : SearchHit) : PluginId * ItemId := key (hit_item h).

(** An answer: ranked, within the quota, each item once. *)
Record answer_ok (lim : ResultLimits) (l : list SearchHit) : Prop := {
  an_keys : NoDup (map hit_key l);
  an_size : len l <= max_items_per_query lim;
  an_ranked : Sorted (by_test rank_leb) l;
}.

(** An aggregator between queries. *)
Record agg_ok (a : App) (g : MemoryResultAggregator.MemoryResultAggregator) : Prop := {
  ag_inv : agg_inv g;
  ag_limits : MemoryResultAggregator.limits g = app_limits a;
  ag_own : MemoryResultAggregator.plugin_limits g = ∅;
  ag_floor : MemoryResultAggregator.retirement_floor g = 0;
  ag_active : forall x, MemoryResultAggregator.active g = Some x -> x <= GenerationTracker.counter (generations a);
}.

Definition counts_ok (l : ResultLimits) : Prop :=
  limits_wf l /\ 0 <= max_items_per_batch l <= usize_max /\ 0 <= max_items_per_plugin_per_query l <= usize_max /\ max_items_per_query l <= usize_max.

(** A text that opens with a blank. *)
Definition opens_blank (t : text) : bool := match t with c :: _ => is_whitespace c | [] => false end.

(** Whether queries of blanks alone are among the calls.  The positions kept for
    such a query are not those of its matches (it has none), and the queries that
    continue it inherit them. *)
Class Blanks := blanks_allowed : Prop.

Section Invariant.
Context {U : Unicode} {L : UnicodeLaws U} {HO : HeapOrder} {H D : Type} {C : CatalogCache H D} {Bl : Blanks}.

(** Empty, or with a word in it. *)
Definition askable (q : NormalizedQuery) : Prop := normalized q <> [] -> tokens q <> [].

(** The positions kept miss no match of the query they were kept for. *)
Definition cache_sound (s : SearchService (H := H) (D := D)) (c : CandidateCache) : Prop :=
  exists q, last_query s = Some q /\ askable q /\ normalized q = cached_normalized c /\
    forall p l, by_owner c !! p = Some l ->
      NoDup l /\ forall x, x ∈ slice_entries (catalog s) p -> matched (policy s) q (search_item x.1.2) x.2 -> x.1.1 ∈ l.

Record service_ok (s : SearchService (H := H) (D := D)) : Prop := {
  so_catalog : catalog_ok (catalog s);
  so_sorted : StronglySorted str_lt (owners s);
  so_owners : forall p, p ∈ owners s <-> items (catalog s) p <> [];
  so_upper : forall p u, non_prefix_upper s !! p = Some u -> bound_of (ranker_history s) (items (catalog s) p) u;
  so_cache : fit_catalog (catalog s) -> forall c, candidate_cache s = Some c -> cache_sound s c \/ (blanks_allowed /\ opens_blank (cached_normalized c) = true);
  so_history : history_typed (history s);
  so_now : in_range u64_max (now_secs s);
  so_query : forall q, last_query s = Some q -> engine_query q;
  so_aliases : exists pairs, Forall (fun p => valid_text p.2) pairs /\ aliases s = new_aliases pairs;
  so_limits : counts_ok (app_limits (app s));
  so_generation : GenerationTracker.wf (generations (app s));
  so_aggregator : agg_ok (app s) (aggregator s);
  so_answer : answer_ok (app_limits (app s)) (results s);
}.

Lemma empty_answer lim : limits_wf lim -> answer_ok lim [].
Proof. intros (_ & _ & ? & _). by split; [constructor | | constructor]. Qed.

Lemma new_service_ok a d : counts_ok (app_limits a) -> GenerationTracker.wf (generations a) -> service_ok (new_service a d).
Proof.
  intros Hl Hg. pose proof Hl as (Hw & _). split; cbn; try done.
  - constructor.
  - intros p. split; [set_solver | done].
  - by exists [].
  - split; [by apply new_agg_inv | done..].
  - by apply empty_answer.
Qed.

(** ** Changes around the catalog *)

(** What the cache handle may change: the storage and the last error. *)
Definition same_but_cache (s s' : SearchService (H := H) (D := D)) : Prop :=
  s' = s <| storage := storage s' |> <| cache_error := cache_error s' |>.

Lemma withdraw_cached_same s p : same_but_cache s (withdraw_cached s p).
Proof.
  unfold same_but_cache, withdraw_cached. destruct (catalog_cache s) as [h|]; [destruct (invalidate_slice _ _ _) as [d [?|e]]|]; by destruct s.
Qed.

Lemma store_cached_same s slice : same_but_cache s (store_cached s slice).
Proof.
  unfold same_but_cache, store_cached. destruct (catalog_cache s) as [h|]; [destruct (store_slice _ _ _) as [d [?|e]]|]; by destruct s.
Qed.

Lemma same_but_cache_ok s s' : same_but_cache s s' -> service_ok s -> service_ok s'.
Proof.
  intros -> []. split; cbn; try done.
Qed.

(** Everything but what depends on the slice of one plugin. *)
Record service_but (plugin : PluginId) (s : SearchService (H := H) (D := D)) : Prop := {
  sb_catalog : catalog_ok (catalog s);
  sb_sorted : StronglySorted str_lt (owners s);
  sb_owners : forall p, p <> plugin -> p ∈ owners s <-> items (catalog s) p <> [];
  sb_upper : forall p u, non_prefix_upper s !! p = Some u -> p <> plugin /\ bound_of (ranker_history s) (items (catalog s) p) u;
  sb_cache : candidate_cache s = None;
  sb_history : history_typed (history s);
  sb_now : in_range u64_max (now_secs s);
  sb_query : forall q, last_query s = Some q -> engine_query q;
  sb_aliases : exists pairs, Forall (fun p => valid_text p.2) pairs /\ aliases s = new_aliases pairs;
  sb_limits : counts_ok (app_limits (app s));
  sb_generation : GenerationTracker.wf (generations (app s));
  sb_aggregator : agg_ok (app s) (aggregator s);
  sb_answer : answer_ok (app_limits (app s)) (results s);
}.

(** A new catalog that differs only in the slice. *)
Lemma touched s plugin m :
  service_ok s -> catalog_ok m -> (forall q, q <> plugin -> items m q = items (catalog s) q) ->
  service_but plugin (s <| candidate_cache := None |> <| non_prefix_upper ::= delete plugin |> <| catalog := m |>).
Proof.
  intros [] Hm Hi. split; cbn; try done.
  - intros p Hp. rewrite Hi by done. apply so_owners0.
  - intros p u [Hp Hu]%lookup_delete_Some. split; [done|]. rewrite Hi by done. by apply so_upper0.
Qed.

Lemma updated_items m plugin update batch m' : updated m plugin update batch m' -> forall q, q <> plugin -> items m' q = items m q.
Proof. intros (_ & Hother & _) q Hq. unfold items. by rewrite Hother. Qed.

(** The slice as it is, with its owner listed accordingly. *)
Lemma settled plugin s :
  service_but plugin s -> (plugin ∈ owners s <-> items (catalog s) plugin <> []) -> service_ok s.
Proof.
  intros [] Ho. split; try done.
  - intros p. destruct (decide (p = plugin)) as [->|Hp]; [done | by apply sb_owners0].
  - intros p u Hu. by apply sb_upper0.
  - by rewrite sb_cache0.
Qed.

Lemma plugin_len_items m plugin : plugin_len m plugin = len (items m plugin).
Proof. unfold plugin_len, items. by destruct (plugins m !! plugin). Qed.

(** The owners and the bounds after a publication. *)
Definition published_owners (s : SearchService (H := H) (D := D)) (plugin : PluginId) : list PluginId :=
  match items (catalog s) plugin with [] => drop_owner (owners s) plugin | _ => put_owner (owners s) plugin end.

Definition published_upper (s : SearchService (H := H) (D := D)) (plugin : PluginId) : gmap PluginId f32 :=
  match max_score (map (non_prefix_upper_bound (ranker_history s)) (items (catalog s) plugin)) with
  | Some upper => <[plugin := upper]> (non_prefix_upper s)
  | None => non_prefix_upper s
  end.

Definition published (s : SearchService (H := H) (D := D)) (plugin : PluginId) : SearchService :=
  s <| results := [] |> <| non_prefix_upper := published_upper s plugin |> <| owners := published_owners s plugin |>
    <| cache_sourced ::= fun v => v ∖ {[plugin]} |>.

Lemma publish_slice_same s plugin instance :
  same_but_cache (published s plugin) (publish_slice s plugin instance).1 /\ (publish_slice s plugin instance).2 = len (items (catalog s) plugin).
Proof.
  unfold publish_slice. cbn [catalog fst snd]. rewrite plugin_len_items. split; [|done].
  set (s1 := if _ =? 0 then _ else _). set (s2 := s1 <| cache_sourced ::= _ |>).
  assert (E : s2 = published s plugin).
  { unfold s2, s1, published, published_owners, published_upper, put_owner, drop_owner. cbn. destruct (items (catalog s) plugin) as [|x l] eqn:Ei.
    - cbn. destruct (find_owner (owners s) plugin); by destruct s.
    - rewrite len_cons, (proj2 (Z.eqb_neq _ 0)) by (pose proof (len_nonneg l); lia). cbn. destruct (find_owner (owners s) plugin); by destruct s. }
  rewrite E. destruct (_ && _); [apply store_cached_same | apply withdraw_cached_same].
Qed.

Lemma published_ok s plugin : service_but plugin s -> service_ok (published s plugin).
Proof.
  intros Hs. destruct (drop_owner_spec (owners s) plugin (sb_sorted _ _ Hs)) as [D1 D2].
  destruct (put_owner_spec (owners s) plugin (sb_sorted _ _ Hs)) as [P1 P2]. destruct Hs. split; cbn; try done.
  - unfold published_owners. by destruct (items (catalog s) plugin).
  - intros p. unfold published_owners. destruct (items (catalog s) plugin) eqn:Ei.
    + rewrite D2. destruct (decide (p = plugin)) as [->|Hp]; [rewrite Ei; tauto|]. rewrite sb_owners0 by done. tauto.
    + rewrite P2. destruct (decide (p = plugin)) as [->|Hp]; [rewrite Ei; split; [done | by right]|]. rewrite sb_owners0 by done. tauto.
  - intros p u. unfold published_upper. destruct (max_score _) as [upper|] eqn:Em.
    + intros [[<- <-]|[Hne Hu]]%lookup_insert_Some; [by apply slice_bound | by apply sb_upper0].
    + intros Hu. by apply sb_upper0.
  - by rewrite sb_cache0.
  - apply empty_answer, sb_limits0.
Qed.

(** ** Replacing a slice *)

Lemma instances_same m plugin instance : forall q, items (activate_instance m plugin instance).1 q = items m q.
Proof. intros q. unfold activate_instance. destruct (instances m !! plugin) as [st|]; [destruct (_ <? _)|]; done. Qed.

Lemma retire_same m plugin instance : forall q, items (retire_instance m plugin instance).1 q = items m q.
Proof. intros q. unfold retire_instance. destruct (instances m !! plugin) as [st|]; [destruct (_ && _)|]; done. Qed.

Lemma activate_ok m plugin instance : catalog_ok m -> catalog_ok (activate_instance m plugin instance).1.
Proof. intros Hm. by destruct (catalog_step_ok m (DoActivate plugin instance) Hm) as (m' & [= <-] & ? & _). Qed.

Lemma retire_ok m plugin instance : catalog_ok m -> catalog_ok (retire_instance m plugin instance).1.
Proof. intros Hm. by destruct (catalog_step_ok m (DoRetire plugin instance) Hm) as (m' & [= <-] & ? & _). Qed.

(** A replacement that is refused leaves every slice. *)
Lemma refused_ok s plugin m :
  service_ok s -> catalog_ok m -> (forall q, items m q = items (catalog s) q) ->
  service_ok (s <| candidate_cache := None |> <| non_prefix_upper ::= delete plugin |> <| catalog := m |>).
Proof.
  intros Hs Hm Hi. apply (settled plugin); [apply touched; auto|]. cbn. rewrite Hi. apply Hs.
Qed.

Lemma replace_catalog_spec s plugin instance batch :
  service_ok s ->
  exists s' r, replace_catalog s plugin instance batch = Some (s', r) /\ service_ok s' /\
    match r with
    | Ok n => n = len (items (catalog s') plugin) /\ items (catalog s') plugin = foldl put_item [] batch /\ results s' = []
    | Err _ => items (catalog s') plugin = items (catalog s) plugin /\ results s' = results s
    end /\ forall q, q <> plugin -> items (catalog s') q = items (catalog s) q.
Proof.
  intros Hs. unfold replace_catalog. cbn [catalog]. pose proof (activate_ok (catalog s) plugin instance (so_catalog s Hs)) as Hm1.
  pose proof (instances_same (catalog s) plugin instance) as Hi1. change (catalog (s <| candidate_cache := None |> <| non_prefix_upper ::= delete plugin |>)) with (catalog s).
  destruct (activate_instance (catalog s) plugin instance) as [m1 [u|e]]; cbn [fst] in *.
  2:{ eexists _, _. split; [reflexivity|]. split; [by apply refused_ok|]. cbn. rewrite Hi1. split; [done|]. intros q _. apply Hi1. }
  destruct (apply_spec m1 plugin instance Replace batch Hm1) as (m2 & r & -> & Hm2 & _ & Hok & Herr). cbn [mbind option_bind].
  destruct r as [[]|e].
  - specialize (Hok eq_refl). pose proof (updated_items _ _ _ _ _ Hok) as Hi2.
    assert (Hb : service_but plugin (s <| candidate_cache := None |> <| non_prefix_upper ::= delete plugin |> <| catalog := m2 |>)).
    { apply touched; [done..|]. intros q Hq. by rewrite Hi2, Hi1. }
    set (s0 := s <| candidate_cache := None |> <| non_prefix_upper ::= delete plugin |> <| catalog := m2 |>) in *.
    destruct (publish_slice_same s0 plugin instance) as [Hsame Hn]. destruct (publish_slice s0 plugin instance) as [s' n]. cbn [fst snd] in *.
    exists s', (Ok n). split; [done|]. split; [by eapply same_but_cache_ok, published_ok|].
    assert (Hc : catalog s' = m2) by (by rewrite Hsame). rewrite Hc. split_and!; [done | apply Hok | by rewrite Hsame|].
    intros q Hq. by rewrite Hi2, Hi1.
  - assert (m2 = m1) as -> by (by apply Herr). eexists _, _. split; [reflexivity|]. split.
    + apply refused_ok; [done | by apply retire_ok|]. intros q. by rewrite retire_same, Hi1.
    + cbn. rewrite retire_same, Hi1. split; [done|]. intros q _. by rewrite retire_same, Hi1.
Qed.

(** ** Withdrawing a slice *)

Lemma withdraw_slice_spec s plugin :
  service_ok s ->
  exists s', withdraw_slice s plugin = Some s' /\ service_ok s' /\ items (catalog s') plugin = [] /\
    forall q, q <> plugin -> items (catalog s') q = items (catalog s) q.
Proof.
  intros Hs. unfold withdraw_slice. destruct (catalog_step_ok (catalog s) (DoInvalidate plugin) (so_catalog s Hs)) as (m & E & Hm & _).
  cbn in E. rewrite E. cbn [mbind option_bind].
  assert (Hi : items m plugin = [] /\ forall q, q <> plugin -> items m q = items (catalog s) q).
  { unfold invalidate in E. unfold items. destruct (plugins (catalog s) !! plugin) as [c|] eqn:Ec.
    - apply bind_Some in E as (n & _ & [= <-]). cbn. split; [by rewrite lookup_delete_eq|]. intros q Hq. by rewrite lookup_delete_ne.
    - injection E as <-. by rewrite Ec. }
  destruct Hi as [Hi Hother]. pose proof (touched s plugin m Hs Hm Hother) as Hb.
  destruct (drop_owner_spec (owners s) plugin (so_sorted s Hs)) as [D1 D2].
  set (s1 := match find_owner _ plugin with Ok i => _ | Err _ => _ end).
  assert (E1 : s1 <| results := [] |> <| candidate_cache := None |>
    = s <| candidate_cache := None |> <| non_prefix_upper ::= delete plugin |> <| catalog := m |> <| owners := drop_owner (owners s) plugin |> <| results := [] |>).
  { unfold s1, drop_owner. cbn. destruct (find_owner (owners s) plugin); by destruct s. }
  rewrite E1. eexists. split; [reflexivity|]. split; [|done]. destruct Hb. apply (settled plugin); [split|]; cbn in *; try done.
  - intros p Hp. rewrite D2. rewrite sb_owners0 by done. tauto.
  - apply empty_answer, sb_limits0.
  - rewrite D2, Hi. tauto.
Qed.

(** ** Settings and the persistent cache *)

Lemma set_match_policy_ok s p : service_ok s -> service_ok (set_match_policy s p).
Proof. intros Hs. unfold set_match_policy. case_bool_decide; [done|]. destruct Hs. by split. Qed.

Lemma set_aliases_ok s pairs : Forall (fun p => valid_text p.2) pairs -> service_ok s -> service_ok (set_aliases s (new_aliases pairs)).
Proof. intros Hp Hs. unfold set_aliases. case_bool_decide; [done|]. destruct Hs. split; try done. by exists pairs. Qed.

Lemma set_history_time_ok s now : in_range u64_max now -> service_ok s -> service_ok (set_history_time s now).
Proof. intros Hn []. by split. Qed.

Lemma set_foreground_ok s c : service_ok s -> service_ok (set_foreground_category s c).
Proof. intros []. by split. Qed.

Lemma set_catalog_cache_ok s h : service_ok s -> service_ok (set_catalog_cache s h).
Proof. intros []. by split. Qed.

Lemma complete_startup_ok s e : service_ok s -> service_ok (complete_startup s e).1.
Proof.
  intros []. unfold complete_startup, complete_stage. destruct (eager_startup_complete _); [by split|]. destruct (negb _); [by split|].
  destruct (next_stage _); split; cbn; try done; by destruct so_aggregator0.
Qed.

Lemma set_catalog_persistence_ok s plugin persist :
  service_ok s -> exists s', set_catalog_persistence s plugin persist = Some s' /\ service_ok s'.
Proof.
  intros Hs. unfold set_catalog_persistence. destruct persist; [eexists; split; [done|]; destruct Hs; by split|].
  case_bool_decide; [by exists s|]. set (s1 := withdraw_cached _ plugin).
  assert (H1 : service_ok s1) by (eapply same_but_cache_ok; [apply withdraw_cached_same|]; destruct Hs; by split).
  case_bool_decide; [|by exists s1]. destruct (withdraw_slice_spec (s1 <| cache_sourced ::= fun v => v ∖ {[plugin]} |>) plugin) as (s' & -> & ? & _).
  - destruct H1. by split.
  - by exists s'.
Qed.

Lemma load_owner_ok h s load plugin :
  service_ok s -> exists s' load', load_owner h (s, load) plugin = Some (s', load') /\ service_ok s'.
Proof.
  intros Hs. unfold load_owner, admit_slice.
  assert (Hstep : exists s1 r, match load_slice (storage s) h plugin with
    | Ok (Some slice) => '(s2, r) ← replace_catalog s (slice_plugin slice) (slice_instance slice) (slice_items slice);
                         Some (s2, match r with Ok n => Some n | Err _ => None end)
    | Ok None | Err _ => Some (s, None) end = Some (s1, r) /\ service_ok s1).
  { destruct (load_slice (storage s) h plugin) as [[slice|]|e]; [|by exists s, None..].
    destruct (replace_catalog_spec s (slice_plugin slice) (slice_instance slice) (slice_items slice) Hs) as (s1 & r & -> & H1 & _). by eexists s1, _. }
  destruct Hstep as (s1 & r & -> & H1). cbn [mbind option_bind]. destruct r as [n|]; eexists _, _; (split; [reflexivity|]); [|done].
  destruct H1. by split.
Qed.

Lemma load_persisted_ok s h : service_ok s -> exists s' r, load_persisted_catalog s h = Some (s', r) /\ service_ok s'.
Proof.
  intros Hs. unfold load_persisted_catalog. set (s1 := s <| candidate_cache := None |> <| non_prefix_upper := ∅ |>).
  assert (H1 : service_ok s1) by (destruct Hs; split; try done; cbn; by intros ? ? ?%lookup_empty_Some).
  destruct (cached_plugins (storage s1) h) as [l|e]; [|by exists s1, (Err e)]. generalize (mkLoad 0 0) as load. clearbody s1. clear Hs s.
  generalize (sorted_owners l) as ps. intros ps. revert s1 H1. induction ps as [|p ps IH]; intros s1 H1 load; cbn [ofold]; [by eexists _, _|].
  destruct (load_owner_ok h s1 load p H1) as (s2 & load2 & -> & H2). cbn [mbind option_bind]. by apply IH.
Qed.

(** ** History *)

Lemma restore_history_ok s snap : snapshot_typed snap -> service_ok s -> service_ok (restore_selection_history s snap).
Proof. intros Hsnap []. split; try done. cbn. by apply from_snapshot_typed. Qed.

Lemma clear_history_ok s : service_ok s -> service_ok (clear_selection_history s).
Proof. intros []. by split. Qed.

Lemma record_visible_ok s id : service_ok s -> service_ok (record_visible s id).1.
Proof.
  intros Hs. unfold record_visible. destruct (List.find _ _) as [hit|]; [|done]. destruct (last_query s) as [q|] eqn:Eq; [|done].
  pose proof (so_now s Hs). destruct Hs. split; try done. cbn. by apply record_typed.
Qed.

End Invariant.
