(* ===== verification/ServiceQuery.v ===== *)
(** Answering a query: the answer is the front of every match, ranked; the
    positions kept are good for the next keystroke; and provider items merged in
    later are ranked among the rest. *)

From Stdlib Require Import SpecFloat.
From S2P Require Import Prelude Text StdFloat Utf8 Generation Items Query QueryText QueryWords.
From S2P Require Import QueryPrepare QueryFacts QueryScores QueryNarrow QueryAgree Ranking RankingFacts RankingBound.
From S2P Require Import Aggregator AggregatorFacts Catalog CatalogIndex CatalogMerge CatalogSearch CatalogFacts.
From S2P Require Import Search SearchTop Service ServicePublish ServiceInv.

#[local] Arguments new_index : simpl never.
#[local] Arguments search_item : simpl never.

(** * Ranked hits *)

Definition no_label : PreparedLabel := mkPrepared [] 0 None 0 [].

(** A hit and a candidate as what they are ordered by. *)
Definition strip (h : SearchHit) : RankedCandidate := mkCandidate (hit_item h) no_label (hit_score h).
Definition bare (c : RankedCandidate) : RankedCandidate := mkCandidate (cand_item c) no_label (cand_score c).

Lemma rank_leb_strip l r : rank_leb l r = at_least (strip l) (strip r).
Proof.
  unfold rank_leb, by_rank, at_least, candidate_lt, candidate_compare. cbn [cand_score cand_item strip].
  rewrite (score_compare_swap (hit_score l) (hit_score r)), (str_compare_swap (stable_id (hit_item l)) (stable_id (hit_item r))).
  rewrite (str_compare_swap (plugin_id (hit_item l)) (plugin_id (hit_item r))).
  by destruct (score_compare _ _), (str_compare (stable_id _) _), (str_compare (plugin_id _) _).
Qed.

#[local] Instance rank_total : Total (by_test rank_leb).
Proof. intros a b. unfold by_test. rewrite !rank_leb_strip. apply at_least_total. Qed.

Lemma sort_hits_perm l : sort_hits l ≡ₚ l.
Proof. apply sort_by_perm. Qed.

Lemma sort_hits_sorted l : Sorted (by_test rank_leb) (sort_hits l).
Proof. apply Sorted_merge_sort. apply _. Qed.

Lemma take_sorted {A} (R : A -> A -> Prop) n l : Sorted R l -> Sorted R (take n l).
Proof.
  intros Hs. revert n. induction Hs as [|x l Hs IH Hhd]; intros [|n]; cbn; try constructor; [apply IH|].
  inversion Hhd; subst; destruct n; by constructor.
Qed.

(** Sorting hits is sorting what they are ordered by. *)
Lemma sort_hits_strip l : distinct (map strip l) -> map strip (sort_hits l) = strongest_first (map strip l).
Proof.
  intros Hd. assert (Hp : map strip (sort_hits l) ≡ₚ map strip l) by (by apply Permutation_map, sort_hits_perm).
  apply ranked_unique; [|by apply strongest_first_ranked | by rewrite strongest_first_perm].
  apply sorted_ranked; [by rewrite Hp|]. pose proof (sort_hits_sorted l) as Hs. clear Hd Hp. induction Hs as [|x k Hs IH Hhd]; cbn; constructor.
  - apply IH.
  - inversion Hhd as [|y k' Hxy]; subst; constructor. unfold by_test in *. by rewrite <- rank_leb_strip.
Qed.

Section Answer.
Context {U : Unicode} {L : UnicodeLaws U} {HO : HeapOrder} {H D : Type} {C : CatalogCache H D} {Bl : Blanks}.

(** * Collecting what was kept *)

Definition outcome_for (o : Outcomes) (item : Item) : option MatchOutcome := by_id ← o !! plugin_id item; by_id !! stable_id item.

Lemma take_outcome_spec o item :
  (take_outcome o item).2 = outcome_for o item /\
  forall other, key other <> key item -> outcome_for (take_outcome o item).1 other = outcome_for o other.
Proof.
  unfold take_outcome, outcome_for. destruct (o !! plugin_id item) as [by_id|] eqn:E; cbn; [|done]. split; [done|].
  intros other Hne. unfold Outcomes in *.
  rewrite lookup_insert. case_decide as Hp; [|done]. rewrite <- Hp, E. cbn. apply lookup_delete_ne. intros Hid. apply Hne.
  unfold key. congruence.
Qed.

Lemma omap_ext_on {A B} (f f' : A -> option B) (l : list A) : (forall x, x ∈ l -> f x = f' x) -> omap f l = omap f' l.
Proof. intros Hf. induction l as [|x l IH]; cbn; [done|]. rewrite Hf by set_solver. rewrite IH by set_solver. done. Qed.

Lemma collect_spec (s : SearchService (H := H) (D := D)) aff l o acc :
  NoDup (map key l) ->
  (foldl (collect_hit s aff) (o, acc) l).2 = acc ++ omap (fun item => (fun out => rank_hit s item out aff false) <$> outcome_for o item) l.
Proof.
  revert o acc. induction l as [|item l IH]; intros o acc Hn; cbn [foldl]; [by rewrite app_nil_r|]. apply NoDup_cons in Hn as [Hi Hn].
  destruct (take_outcome_spec o item) as [Hf Ho]. unfold collect_hit at 2. cbn [fst snd]. destruct (take_outcome o item) as [o' found]. cbn [fst snd] in *. subst found.
  rewrite IH by done. assert (E : omap (fun x => (fun out => rank_hit s x out aff false) <$> outcome_for o' x) l
    = omap (fun x => (fun out => rank_hit s x out aff false) <$> outcome_for o x) l).
  { apply omap_ext_on. intros x Hx. rewrite Ho; [done|]. intros Ek. apply Hi. rewrite <- Ek. apply list_elem_of_In, in_map, list_elem_of_In, Hx. }
  rewrite E. cbn [omap list_omap]. destruct (outcome_for o item); cbn [fmap option_fmap option_map]; [by rewrite <- app_assoc | done].
Qed.

Lemma omap_keys (f : Item -> option SearchHit) l :
  (forall x h, f x = Some h -> hit_item h = x) -> map hit_key (omap f l) `sublist_of` map key l.
Proof.
  intros Hf. induction l as [|x l IH]; cbn; [constructor|]. destruct (f x) as [h|] eqn:E; cbn; [|by apply sublist_cons].
  unfold hit_key at 1. rewrite (Hf _ _ E). by apply sublist_skip.
Qed.

(** What the aggregator holds makes an answer. *)
Lemma collected_answer (s : SearchService (H := H) (D := D)) aff a o :
  agg_inv a -> answer_ok (MemoryResultAggregator.limits a) (sort_hits (foldl (collect_hit s aff) (o, []) (MemoryResultAggregator.items a)).2).
Proof.
  intros Ha. pose proof (agg_keys_NoDup a Ha) as Hn. rewrite collect_spec by done.
  set (l := omap _ _). change ([] ++ l) with l. assert (Hsub : map hit_key l `sublist_of` map key (MemoryResultAggregator.items a)).
  { apply omap_keys. intros x h Hh. apply fmap_Some in Hh as (out & _ & ->). done. }
  split; [| |apply sort_hits_sorted].
  - change (map hit_key) with (fmap (M := list) hit_key). rewrite sort_hits_perm. eapply sublist_NoDup; [exact Hn | exact Hsub].
  - assert (Hlen : len (sort_hits l) = len l) by (unfold len; by rewrite sort_hits_perm).  rewrite Hlen. apply sublist_length in Hsub.
    rewrite !length_map in Hsub. pose proof (ai_bound a Ha). unfold len in *. lia.
Qed.

Implicit Type s : (SearchService (H := H) (D := D)).

(** * The plan of a query *)

Lemma candidate_matched plan x :
  is_Some (candidate_of plan x) <-> matched (plan_policy plan) (plan_query plan) (search_item x.1.2) x.2.
Proof.
  unfold candidate_of, matched. destruct (score_prepared _ _ _ _) as [[spans [summary|]]|].
  - split; eauto.
  - split; [by intros [] | by intros (? & ? & ?)].
  - split; [by intros [] | by intros (? & ? & ?)].
Qed.

Lemma engine_wf q : engine_query q -> tokens q <> [] -> well_formed_query q = true.
Proof.
  intros [Hq _] Hne. unfold well_formed_query. rewrite bool_decide_eq_false_2, bool_decide_eq_true_2 by done. done.
Qed.

(** If the query continues the one the positions are kept for, they are good. *)
Definition trusted s (q : NormalizedQuery) : Prop :=
  forall c, fit_catalog (catalog s) -> candidate_cache s = Some c -> starts_with (normalized q) (cached_normalized c) = true -> cache_sound s c.

Lemma opens_blank_prefix t u : starts_with t u = true -> opens_blank u = true -> opens_blank t = true.
Proof. intros Hst Hu. destruct (starts_with_spec t u) as [E _]. destruct (E Hst) as [more ->]. by destruct u. Qed.

Lemma trusted_unless_blank s q : service_ok s -> ~ blanks_allowed \/ opens_blank (normalized q) = false -> trusted s q.
Proof.
  intros Hs Hor c Hfit Ec Hst. destruct (so_cache s Hs Hfit c Ec) as [Hc|[Hb Ho]]; [done|]. pose proof (opens_blank_prefix _ _ Hst Ho).
  destruct Hor as [Hn|Hn]; [done | congruence].
Qed.

Lemma split_words_unfinished current t : current <> [] -> split_words current t <> [].
Proof.
  revert current. induction t as [|c t IH]; intros current Hne; cbn; [by destruct current|]. destruct (is_whitespace c); [by destruct current|].
  apply IH. by destruct current.
Qed.

(** Without a word there are only blanks. *)
Lemma wordless_opens_blank q : engine_query q -> ~ askable q -> opens_blank (normalized q) = true.
Proof.
  intros [Ht _] Hk. unfold askable in Hk. rewrite Ht in Hk. destruct (normalized q) as [|c t] eqn:E; [by destruct Hk|]. cbn.
  destruct (is_whitespace c) eqn:Ec; [done|]. destruct Hk. intros _. unfold split_whitespace. cbn. rewrite Ec. by apply split_words_unfinished.
Qed.

#[local] Instance askable_dec (q : NormalizedQuery) : Decision (askable q).
Proof. unfold askable. apply _. Defined.

(** The positions kept for the last query serve every query that continues it. *)
Lemma prior_covers s q p l :
  service_ok s -> fit_catalog (catalog s) -> engine_query q -> trusted s q ->
  prior_of p (search_plan s q (candidate_cache s)) = Some l -> covers_matches (catalog s) p (search_plan s q (candidate_cache s)) l.
Proof.
  intros Hs Hfit Hq Ht. unfold prior_of, search_plan, incremental. cbn [plan_previous]. intros Hl.
  apply bind_Some in Hl as (by_ & Hc & Hl). apply bind_Some in Hc as (c & Ec & Hc). destruct (_ && _ && _) eqn:Et; [|done]. injection Hc as <-.
  apply andb_true_iff in Et as [Et Hpre]. apply andb_true_iff in Et as [_ Hne]. apply negb_true_iff, bool_decide_eq_false in Hne.
  destruct (Ht c Hfit Ec Hpre) as (q0 & Eq0 & Hask & Hn0 & Hcov). destruct (Hcov p l Hl) as [Hn Hall]. split; [done|]. intros x Hx Hm.
  apply Hall; [done|]. apply candidate_matched in Hm. cbn [plan_policy plan_query] in Hm.
  pose proof (so_query s Hs q0 Eq0) as Hq0. destruct (starts_with_spec (normalized q) (cached_normalized c)) as [Hst _]. destruct (Hst Hpre) as [more Emore].
  assert (Hf : Forall (fun item => indexable item /\ unpadded item) (items (catalog s) p)) by apply Hfit.
  destruct (entry_facts (catalog s) p Hf x Hx) as (text_ & retained_ & _ & Hlab & Hkw & _ & Hv & Hasc & _).
  eapply (matched_narrows (policy s) q0 q more); [exact Hlab | exact Hkw | exact Hv | exact Hasc | | | | by rewrite Hn0 | exact Hm].
  - apply normal_valid, Hq0.
  - apply normal_valid, Hq.
  - apply engine_wf; [done|]. apply Hask. by rewrite Hn0.
Qed.

Lemma plan_owner_ok s q p :
  service_ok s -> fit_catalog (catalog s) -> engine_query q -> trusted s q -> owner_ok (catalog s) (search_plan s q (candidate_cache s)) p.
Proof.
  intros Hs Hfit Hq Ht. split.
  - apply Hfit.
  - intros l. by apply prior_covers.
  - intros upper Hu. apply (so_upper s Hs p upper Hu).
Qed.

Lemma plan_sane s q previous item : service_ok s -> sane (plan_signals (search_plan s q previous) item).
Proof. intros Hs. apply augment_sane; [apply Hs | pose proof (so_now s Hs) as []; done]. Qed.

(** ** What is selected *)

Context (Horder : forall l, heap_order l ≡ₚ l).

Definition plan_for (s : SearchService (H := H) (D := D)) (q : NormalizedQuery) : SearchPlan := search_plan s q (candidate_cache s).

(** Every match there is, the strongest first, as far as the quotas go. *)
Definition best_answer (s : SearchService (H := H) (D := D)) (q : NormalizedQuery) : list RankedCandidate :=
  best_matches (catalog s) (plan_for s q) (owners s).

Definition positive_limits (l : ResultLimits) : Prop :=
  0 < max_items_per_batch l /\ 0 < max_items_per_plugin_per_query l /\ 0 < max_items_per_query l.

Lemma select_answer s q :
  service_ok s -> fit_catalog (catalog s) -> engine_query q -> trusted s q -> positive_limits (app_limits (app s)) ->
  exists stats_ cache whole, select_best (catalog s) (owners s) (plan_for s q) = Some (best_answer s q, stats_, cache, whole) /\
    (whole = true -> forall p l, cache !! p = Some l -> covers_matches (catalog s) p (plan_for s q) l).
Proof.
  intros Hs Hfit Hq Ht (HB & HP & HQ). apply select_best_spec; [done | apply Hs | cbn; lia | done | done | apply Hq | | |].
  - intros item. by apply plan_sane.
  - apply sorted_NoDup, Hs.
  - apply Forall_forall. intros p _. by apply plan_owner_ok.
Qed.

(** A selected candidate belongs to an owner and materialises with its score. *)
Lemma selected_match s q c :
  service_ok s -> fit_catalog (catalog s) -> c ∈ best_answer s q ->
  plugin_id (cand_item c) ∈ owners s /\ cand_item c ∈ items (catalog s) (plugin_id (cand_item c)) /\
  exists o, match_prepared (policy s) q (search_item (cand_item c)) (cand_label c) = Some (Some o) /\
    hit_score (rank_hit s (cand_item c) o (affinities_for (history s) (text_string (normalized q))) false) = cand_score c.
Proof.
  intros Hs Hfit Hc. unfold best_answer, best_matches in Hc. apply elem_of_take in Hc as (i & Hc & _). apply list_elem_of_lookup_2 in Hc. rewrite strongest_first_perm in Hc.
  apply list_elem_of_bind in Hc as (p & Hc & Hp). apply quota_matches in Hc. pose proof (match_owner _ (so_catalog s Hs) _ _ _ Hc) as Ho. rewrite Ho.
  split; [done|]. apply list_elem_of_omap in Hc as (x & Hx & Hcx).
  assert (Hf : Forall (fun item => indexable item /\ unpadded item) (items (catalog s) p)) by apply Hfit.
  destruct (entry_facts (catalog s) p Hf x Hx) as (text_ & retained_ & Hprep & _ & _ & _ & _ & _ & _ & _ & Hin).
  unfold candidate_of in Hcx. destruct (score_prepared _ _ _ _) as [[spans [summary|]]|] eqn:Es; [|done..]. injection Hcx as <-. cbn [cand_item cand_label cand_score].
  split; [done|]. destruct (outcome_of_summary (policy s) q (search_item x.1.2) x.2 spans summary (search_item_valid x.1.2) Hprep Es) as (o & Eo & E1 & E2 & E3).
  exists o. split; [done|]. cbn [hit_score rank_hit]. unfold match_score. by apply scores_agree.
Qed.

(** ** Materialising *)

Definition of_owner (p : PluginId) (c : RankedCandidate) : bool := String.eqb (plugin_id (cand_item c)) p.

(** The items selected of one owner. *)
Definition chosen (l : list RankedCandidate) (p : PluginId) : list Item := map cand_item (List.filter (of_owner p) l).

Lemma upsert_outcome o item out other :
  outcome_for (upsert ∅ (<[stable_id item := out]>) (plugin_id item) o) other = if decide (key other = key item) then Some out else outcome_for o other.
Proof.
  unfold outcome_for, upsert, key, Outcomes in *. rewrite lookup_insert. case_decide as Hp.
  - cbn. rewrite lookup_insert. case_decide as Hi; case_decide as Hk; try congruence. rewrite <- Hp. by destruct (o !! plugin_id item).
  - case_decide; [congruence | done].
Qed.

Lemma upsert_chosen (sel : gmap PluginId (list Item)) item p :
  default [] (upsert [] (fun l => l ++ [item]) (plugin_id item) sel !! p)
  = default [] (sel !! p) ++ (if String.eqb (plugin_id item) p then [item] else []).
Proof.
  unfold upsert. rewrite lookup_insert. destruct (String.eqb_spec (plugin_id item) p) as [<-|Hne].
  - by rewrite decide_True by done.
  - rewrite decide_False by done. by rewrite app_nil_r.
Qed.

Lemma chosen_snoc l c p : chosen (l ++ [c]) p = chosen l p ++ (if of_owner p c then [cand_item c] else []).
Proof. unfold chosen. rewrite List.filter_app, map_app. cbn. by destruct (of_owner p c). Qed.

Lemma materialize_spec pol q l :
  (forall c, c ∈ l -> exists o, match_prepared pol q (search_item (cand_item c)) (cand_label c) = Some (Some o)) -> NoDup (map cand_key l) ->
  exists outs sel, ofold (materialize pol q) (∅, ∅) l = Some (outs, sel) /\ (forall p, default [] (sel !! p) = chosen l p) /\
    forall c, c ∈ l -> exists o, match_prepared pol q (search_item (cand_item c)) (cand_label c) = Some (Some o) /\ outcome_for outs (cand_item c) = Some o.
Proof.
  intros Hall Hn.
  destruct (ofold_inv (materialize pol q) (fun done_ st => NoDup (map cand_key done_) -> (forall p, default [] (st.2 !! p) = chosen done_ p) /\
    forall c, c ∈ done_ -> exists o, match_prepared pol q (search_item (cand_item c)) (cand_label c) = Some (Some o) /\ outcome_for st.1 (cand_item c) = Some o)
    l (∅, ∅)) as ([outs sel] & E & Hinv).
  - intros _. split; [done | set_solver].
  - intros done_ c [outs sel] Hc IH. destruct (Hall c Hc) as (o & Eo). unfold materialize at 1. rewrite Eo. cbn [mbind option_bind].
    eexists. split; [reflexivity|]. intros Hnd. rewrite map_app in Hnd. apply NoDup_app in Hnd as (Hn1 & Hdis & _). destruct (IH Hn1) as [IHs IHo]. cbn [fst snd] in *. split.
    + intros p. rewrite upsert_chosen, IHs, chosen_snoc. done.
    + intros c' [Hc'|Hc']%elem_of_app.
      * destruct (IHo c' Hc') as (o' & E1 & E2). exists o'. split; [done|]. rewrite upsert_outcome. case_decide as Hk; [|done].
        exfalso. apply (Hdis (cand_key c')); [apply list_elem_of_In, in_map, list_elem_of_In, Hc'|]. unfold key in Hk. unfold cand_key. rewrite Hk. set_solver.
      * apply list_elem_of_singleton in Hc' as ->. exists o. split; [done|]. rewrite upsert_outcome. by rewrite decide_True.
  - destruct (Hinv Hn) as [H1 H2]. exists outs, sel. done.
Qed.

(** ** The items published *)

(** A list is what is left of it by each of its owners. *)
Lemma by_owners l ps : NoDup ps -> (forall c, c ∈ l -> plugin_id (cand_item c) ∈ ps) -> ps ≫= chosen l ≡ₚ map cand_item l.
Proof.
  intros Hn. induction l as [|c l IH]; intros Hin.
  - assert (E : ps ≫= chosen [] = []) by (clear; induction ps; [done | exact IHps]). by rewrite E.
  - assert (E : ps ≫= chosen (c :: l) ≡ₚ cand_item c :: (ps ≫= chosen l)).
    { specialize (Hin c ltac:(set_solver)). clear IH. induction Hn as [|p ps Hp Hn IHp]; [set_solver|]. cbn [mbind list_bind].
      unfold chosen at 1. cbn [List.filter]. unfold of_owner at 1. destruct (String.eqb_spec (plugin_id (cand_item c)) p) as [Ep|Hne].
      - cbn. constructor. apply Permutation_app; [done|]. assert (Es : forall ps', plugin_id (cand_item c) ∉ ps' -> ps' ≫= chosen (c :: l) = ps' ≫= chosen l).
        { intros ps' Hps'. apply bind_ext_in. intros p' Hp'. unfold chosen. cbn. unfold of_owner at 1.
          destruct (String.eqb_spec (plugin_id (cand_item c)) p') as [<-|]; [done | done]. }
        by rewrite Es by (by rewrite Ep).
      - rewrite IHp by set_solver. fold (chosen l p). by rewrite Permutation_middle. }
    rewrite E. cbn. constructor. apply IH. set_solver.
Qed.

Lemma answer_distinct s q :
  service_ok s -> fit_catalog (catalog s) -> engine_query q -> trusted s q -> positive_limits (app_limits (app s)) -> distinct (best_answer s q) /\ ranked (best_answer s q).
Proof.
  intros Hs Hfit Hq Ht (HB & HP & HQ). assert (Hd : distinct (owners s ≫= quota (catalog s) (plan_for s q))).
  { apply quotas_distinct; [apply Hs | cbn; lia | apply Hq | by intros item; apply plan_sane | apply sorted_NoDup, Hs|]. apply Forall_forall. intros p _. by apply plan_owner_ok. }
  pose proof (strongest_first_ranked _ Hd) as Hr. rewrite <- strongest_first_perm in Hd. unfold best_answer, best_matches.
  set (n := Z.to_nat _). split.
  - rewrite <- (take_drop n) in Hd. by apply distinct_app_inv in Hd as [? _].
  - unfold ranked in *. rewrite <- (take_drop n) in Hr. by apply StronglySorted_app_1_l in Hr.
Qed.

(** ** A new generation *)

Lemma begin_collects a g :
  agg_ok a g -> GenerationTracker.wf (generations a) ->
  let next := GenerationTracker.counter (generations a) + 1 in
  let g' := MemoryResultAggregator.begin_generation g next in
  collecting (app_limits a) next g' /\ MemoryResultAggregator.items g' = [] /\ MemoryResultAggregator.batch_states g' = ∅.
Proof.
  intros [Hi Hl Ho Hf Ha] [Hw _] next g'. unfold g', MemoryResultAggregator.begin_generation. rewrite Hf.
  destruct (Z.ltb_spec next 0); [unfold next in *; lia|].
  assert (Hact : is_some_and (MemoryResultAggregator.active g) (fun current => next <=? current) = false).
  { destruct (MemoryResultAggregator.active g) as [x|]; [|done]. specialize (Ha x eq_refl). cbn. apply Z.leb_gt. unfold next. lia. }
  rewrite Hact. split; [|done]. split; cbn; try done. apply reset_agg_inv; [done|]. rewrite Hf. lia.
Qed.

Lemma filter_map_NoDup {A B} (f : A -> B) (g : A -> bool) (l : list A) : NoDup (map f l) -> NoDup (map f (List.filter g l)).
Proof.
  induction l as [|x l IH]; cbn; [done|]. intros [Hx Hn]%NoDup_cons. destruct (g x); cbn; [|by apply IH]. constructor; [|by apply IH].
  intros Hin. apply Hx. apply list_elem_of_In, in_map_iff in Hin as (y & E & Hy). apply filter_In in Hy as [Hy _]. apply list_elem_of_In, in_map_iff. eauto.
Qed.

(** What of the answer belongs to an owner is within its quota. *)
Lemma chosen_within s q p :
  service_ok s -> fit_catalog (catalog s) -> engine_query q -> trusted s q -> positive_limits (app_limits (app s)) -> p ∈ owners s ->
  (forall p', Forall (light (app_limits (app s))) (items (catalog s) p')) ->
  chosen_fits (app_limits (app s)) p (chosen (best_answer s q) p).
Proof.
  intros Hs Hfit Hq Ht Hpos Hp Hlight. destruct (answer_distinct s q Hs Hfit Hq Ht Hpos) as [[_ Hd] _]. pose proof (so_limits s Hs) as (_ & _ & HP & HQ).
  assert (Hin : forall c, c ∈ List.filter (of_owner p) (best_answer s q) -> c ∈ best_answer s q /\ plugin_id (cand_item c) = p).
  { intros c Hc. apply list_elem_of_In, filter_In in Hc as [Hc%list_elem_of_In Ho]. split; [done|]. by apply String.eqb_eq. }
  assert (Hk : NoDup (map cand_key (List.filter (of_owner p) (best_answer s q)))).
  { by apply filter_map_NoDup. }
  split; unfold chosen.
  - apply Forall_map, Forall_forall. intros c Hc. by apply Hin.
  - rewrite map_map. exact Hk.
  - assert (Hle : (length (List.filter (of_owner p) (best_answer s q)) <= length (quota (catalog s) (plan_for s q) p))%nat).
    { apply submseteq_length, NoDup_submseteq; [by apply NoDup_fmap_1 in Hk|]. intros c [Hc Ho]%Hin.
      unfold best_answer, best_matches in Hc. apply elem_of_take in Hc as (i & Hc & _). apply list_elem_of_lookup_2 in Hc. rewrite strongest_first_perm in Hc.
      apply list_elem_of_bind in Hc as (p' & Hc & Hp'). pose proof (match_owner _ (so_catalog s Hs) _ _ _ (quota_matches _ _ _ _ Hc)) as Ho'. by replace p with p' by congruence. }
    assert (Hquota : len (quota (catalog s) (plan_for s q) p) <= per_plugin_limit (plan_for s q)).
    { unfold quota, len. rewrite length_take. unfold plan_for, search_plan. cbn [per_plugin_limit]. destruct Hpos as (_ & ? & ?). lia. }
    unfold plan_for, search_plan in Hquota. cbn [per_plugin_limit] in Hquota. unfold len, plan_for, search_plan in *. rewrite length_map. lia.
  - apply Forall_map, Forall_forall. intros c [Hc Ho]%Hin. destruct (selected_match s q c Hs Hfit Hc) as (_ & Hi & _).
    specialize (Hlight (plugin_id (cand_item c))). rewrite Forall_forall in Hlight. by apply Hlight.
Qed.

(** The aggregator ends up with the items of the answer. *)
Lemma answer_published s q g a sel :
  service_ok s -> fit_catalog (catalog s) -> engine_query q -> trusted s q -> positive_limits (app_limits (app s)) ->
  (forall p, Forall (light (app_limits (app s))) (items (catalog s) p)) ->
  collecting (app_limits (app s)) g a -> MemoryResultAggregator.items a = [] -> MemoryResultAggregator.batch_states a = ∅ ->
  (forall p, default [] (sel !! p) = chosen (best_answer s q) p) ->
  let a' := (foldl (publish_owner g (max_items_per_batch (app_limits (app s)))) (a, sel) (owners s)).1 in
  collecting (app_limits (app s)) g a' /\ MemoryResultAggregator.items a' ≡ₚ map cand_item (best_answer s q).
Proof.
  intros Hs Hfit Hq Ht Hpos Hlight Hc Hi Hst Hsel. assert (Hperm : owners s ≫= (fun p => default [] (sel !! p)) ≡ₚ map cand_item (best_answer s q)).
  { rewrite (bind_ext_in _ (chosen (best_answer s q))) by (intros; apply Hsel). apply by_owners; [apply sorted_NoDup, Hs|].
    intros c Hin. by apply (selected_match s q c Hs Hfit). }
  destruct (publish_owners (app_limits (app s)) g (owners s) a sel Hc) as [Hc' Hi'].
  - apply Hpos.
  - apply sorted_NoDup, Hs.
  - intros p _. rewrite Hst, Hi. split; [done | constructor].
  - rewrite Hi. constructor.
  - intros p Hp. rewrite Hsel. by apply chosen_within.
  - rewrite Hi. pose proof (so_limits s Hs) as ((_ & _ & H0 & _) & _ & _ & HQ). unfold len. rewrite Hperm, length_map.
    assert (length (best_answer s q) <= Z.to_nat (max_items_per_query (app_limits (app s))))%nat by (unfold best_answer, best_matches; rewrite length_take; cbn; lia).
    cbn. lia.
  - split; [done|]. rewrite Hi', Hi. exact Hperm.
Qed.

Lemma ranked_bare l : ranked l -> ranked (map bare l).
Proof. unfold ranked. induction 1 as [|c k Hr IH Hall]; cbn; constructor; [done | by apply Forall_map]. Qed.

(** The hit an item becomes, if it was selected. *)
Definition hit_of s (q : NormalizedQuery) (outs : Outcomes) (item : Item) : option SearchHit :=
  (fun out => rank_hit s item out (affinities_for (history s) (text_string (normalized q))) false) <$> outcome_for outs item.

Lemma collect_all s q outs l :
  NoDup (map key l) -> (foldl (collect_hit s (affinities_for (history s) (text_string (normalized q)))) (outs, []) l).2 = omap (hit_of s q outs) l.
Proof. intros Hn. by rewrite collect_spec. Qed.

Lemma hit_of_selected s q outs c o :
  service_ok s -> fit_catalog (catalog s) -> c ∈ best_answer s q ->
  match_prepared (policy s) q (search_item (cand_item c)) (cand_label c) = Some (Some o) -> outcome_for outs (cand_item c) = Some o ->
  exists h, hit_of s q outs (cand_item c) = Some h /\ strip h = bare c.
Proof.
  intros Hs Hfit Hc Eo E. destruct (selected_match s q c Hs Hfit Hc) as (_ & _ & o' & Eo' & Es). rewrite Eo in Eo'. injection Eo' as <-.
  eexists. unfold hit_of. rewrite E. split; [reflexivity|]. unfold strip, bare. by rewrite Es.
Qed.

Lemma hits_strip s q outs k :
  service_ok s -> fit_catalog (catalog s) -> (forall c, c ∈ k -> c ∈ best_answer s q) ->
  (forall c, c ∈ best_answer s q -> exists o, match_prepared (policy s) q (search_item (cand_item c)) (cand_label c) = Some (Some o) /\
     outcome_for outs (cand_item c) = Some o) ->
  map strip (omap (hit_of s q outs) (map cand_item k)) = map bare k.
Proof.
  intros Hs Hfit Hin Houts. induction k as [|c k IH]; [done|]. destruct (Houts c (Hin c ltac:(set_solver))) as (o & Eo & E).
  destruct (hit_of_selected s q outs c o Hs Hfit (Hin c ltac:(set_solver)) Eo E) as (h & Eh & Es). cbn [map omap list_omap]. rewrite Eh. cbn [map].
  rewrite Es, IH; [done|]. intros c' Hc'. apply Hin. set_solver.
Qed.

(** The hits made of the items of the answer, ranked, are the answer. *)
Lemma collected_strip s q outs l :
  service_ok s -> fit_catalog (catalog s) -> engine_query q -> trusted s q -> positive_limits (app_limits (app s)) ->
  l ≡ₚ map cand_item (best_answer s q) ->
  (forall c, c ∈ best_answer s q -> exists o, match_prepared (policy s) q (search_item (cand_item c)) (cand_label c) = Some (Some o) /\
     outcome_for outs (cand_item c) = Some o) ->
  map strip (sort_hits (foldl (collect_hit s (affinities_for (history s) (text_string (normalized q)))) (outs, []) l).2) = map bare (best_answer s q).
Proof.
  intros Hs Hfit Hq Ht Hpos Hl Houts. destruct (answer_distinct s q Hs Hfit Hq Ht Hpos) as [Hd Hr].
  assert (Hkeys : NoDup (map key l)).
  { assert (Hpk : map key l ≡ₚ map key (map cand_item (best_answer s q))) by (by apply Permutation_map). rewrite Hpk, map_map. apply Hd. }
  rewrite collect_all by done. set (hits := omap (hit_of s q outs) l).
  assert (Hp : map strip hits ≡ₚ map bare (best_answer s q)).
  { rewrite <- (hits_strip s q outs _ Hs Hfit (fun c Hc => Hc) Houts). apply Permutation_map. by apply omap_Permutation. }
  clearbody hits. assert (Hdb : distinct (map bare (best_answer s q))).
  { destruct Hd as [Hsc Hnd]. split; [by apply Forall_map | by rewrite map_map]. }
  assert (Hds : distinct (map strip hits)) by (by rewrite Hp).
  rewrite sort_hits_strip by done. apply ranked_unique; [by apply strongest_first_ranked | by apply ranked_bare | by rewrite strongest_first_perm].
Qed.

(** * Submitting *)

(** The query the service asks, aliases expanded. *)
Definition asked s (raw_ : text) : NormalizedQuery := expand (aliases s) (normalize raw_).

(** Nothing typed, or something to look for. *)
Definition worded (raw_ : text) : Prop := askable (normalize raw_).

Lemma asked_engine s raw_ : service_ok s -> valid_text raw_ -> engine_query (asked s raw_).
Proof.
  intros Hs Hv. destruct (so_aliases s Hs) as (pairs & Hp & Ea). unfold asked. rewrite Ea. by apply expand_engine_query, normalize_engine_query.
Qed.

Lemma asked_askable s raw_ : service_ok s -> valid_text raw_ -> worded raw_ -> askable (asked s raw_).
Proof.
  intros Hs Hv Hw. destruct (so_aliases s Hs) as (pairs & Hp & Ea). unfold asked. rewrite Ea. destruct (decide (tokens (normalize raw_) = [])) as [Et|Hne].
  - unfold expand. rewrite (bool_decide_eq_true_2 _ Et), orb_true_r. exact Hw.
  - intros _. apply (aliases_rewrite_once pairs (normalize raw_) Hp (normalize_engine_query raw_ Hv)), Hne.
Qed.

(** The state in which the query is answered. *)
Definition asking s (raw_ : text) (now : Z) : SearchService (H := H) (D := D) :=
  let next := GenerationTracker.counter (generations (app s)) + 1 in
  s <| now_secs := now |> <| app := (app s) <| generations := GenerationTracker.mk next |> |>
    <| aggregator := MemoryResultAggregator.begin_generation (aggregator s) next |> <| last_query := Some (asked s raw_) |>.

Lemma at_time s now : service_ok s -> in_range u64_max now -> service_ok (s <| now_secs := now |>).
Proof. intros Hs Hn. by apply set_history_time_ok. Qed.

(** [submit_query_at], its answer as a function of what was selected. *)
Lemma submit_unfold s raw_ now :
  can_accept_queries (app s) = true -> GenerationTracker.counter (generations (app s)) < u64_max ->
  submit_query_at s raw_ now =
    let s1 := asking s raw_ now in
    let q := asked s raw_ in
    let g := GenerationTracker.counter (generations (app s)) + 1 in
    '(selected, query_stats, matched_positions, complete) ← select_best (catalog s) (owners s) (plan_for (s <| now_secs := now |>) q);
    '(outcomes, sel) ← ofold (materialize (policy s) q) (∅, ∅) selected;
    let a := (foldl (publish_owner g (max_items_per_batch (app_limits (app s)))) (aggregator s1, sel) (owners s)).1 in
    let s2 := s1 <| candidate_cache := if complete : bool then Some (mkCandidateCache (normalized q) matched_positions) else None |>
                 <| last_query_stats := query_stats |> <| aggregator := a |> in
    Some (s2 <| results := sort_hits (foldl (collect_hit (s <| now_secs := now |>) (affinities_for (history s) (text_string (normalized q)))) (outcomes, [])
                                        (MemoryResultAggregator.items a)).2 |>, Ok g).
Proof.
  intros Hacc Hg. unfold submit_query_at. change (app (s <| now_secs := now |>)) with (app s). rewrite Hacc. cbn [negb].
  destruct (GenerationTracker.advance_total (generations (app s)) Hg) as [t' Et]. rewrite Et. cbn [mbind option_bind].
  assert (Ht : t' = GenerationTracker.mk (GenerationTracker.counter (generations (app s)) + 1)).
  { apply GenerationTracker.advance_spec in Et as (_ & E & _). destruct t'. cbn in E. by subst. }
  rewrite Ht. cbv zeta. match goal with |- mbind _ ?x = mbind _ ?y => change x with y; destruct y as [[[[selected query_stats] matched_positions] complete]|]; [|done] end.
  cbn [mbind option_bind]. match goal with |- mbind _ ?x = mbind _ ?y => change x with y; destruct y as [[outcomes sel]|]; [|done] end.
  cbn [mbind option_bind].
  match goal with |- context [foldl (publish_owner ?g ?b) ?x ?l] => change (foldl (publish_owner g b) x l) with (foldl (publish_owner (GenerationTracker.counter (generations (app s)) + 1) (max_items_per_batch (app_limits (app s)))) (aggregator (asking s raw_ now), sel) (owners s)) end.
  destruct (foldl (publish_owner _ _) _ (owners s)) as [a rest]. cbn [fst].
  match goal with |- context [foldl (collect_hit ?s3 ?aff) ?x ?l] => change (foldl (collect_hit s3 aff) x l) with (foldl (collect_hit (s <| now_secs := now |>) (affinities_for (history s) (text_string (normalized (asked s raw_))))) (outcomes, []) (MemoryResultAggregator.items a)) end.
  by destruct (foldl (collect_hit _ _) _ _) as [rest' hits].
Qed.

(** What the positions kept for the query will be worth. *)
Lemma kept_positions s raw_ :
  service_ok s -> valid_text raw_ -> worded raw_ \/ blanks_allowed -> fit_catalog (catalog s) ->
  (askable (asked s raw_) /\ trusted s (asked s raw_)) \/ (blanks_allowed /\ opens_blank (normalized (asked s raw_)) = true).
Proof.
  intros Hs Hv Hw Hfit. assert (Hq : engine_query (asked s raw_)) by (by apply asked_engine).
  assert (Hask : askable (asked s raw_) \/ (blanks_allowed /\ opens_blank (normalized (asked s raw_)) = true)).
  { destruct (decide (askable (asked s raw_))) as [|Hn]; [by left|]. right. split; [|by apply wordless_opens_blank].
    destruct Hw as [Hw|]; [|done]. destruct Hn. by apply asked_askable. }
  destruct Hask as [Hask|]; [|by right]. destruct (opens_blank (normalized (asked s raw_))) eqn:Eo.
  2:{ left. split; [done|]. apply trusted_unless_blank; auto. }
  destruct (candidate_cache s) as [c|] eqn:Ec; [|by left; split; [|intros c _ Ec'; congruence]].
  destruct (so_cache s Hs Hfit c Ec) as [Hc|[Hb _]]; [|by right]. left. split; [done|]. intros c' _ Ec' _. rewrite Ec in Ec'. by injection Ec' as <-.
Qed.

(** What a query leaves behind, whatever was selected. *)
Lemma answered_ok s raw_ now complete matched_positions query_stats sel outs aff :
  service_ok s -> in_range u64_max now -> valid_text raw_ -> worded raw_ \/ blanks_allowed ->
  GenerationTracker.counter (generations (app s)) < u64_max ->
  (fit_catalog (catalog s) -> trusted s (asked s raw_) -> complete = true ->
     forall p l, matched_positions !! p = Some l -> covers_matches (catalog s) p (plan_for (s <| now_secs := now |>) (asked s raw_)) l) ->
  let s1 := asking s raw_ now in
  let g := GenerationTracker.counter (generations (app s)) + 1 in
  let a := (foldl (publish_owner g (max_items_per_batch (app_limits (app s)))) (aggregator s1, sel) (owners s)).1 in
  service_ok (s1 <| candidate_cache := if complete : bool then Some (mkCandidateCache (normalized (asked s raw_)) matched_positions) else None |>
                 <| last_query_stats := query_stats |> <| aggregator := a |>
                 <| results := sort_hits (foldl (collect_hit (s <| now_secs := now |>) aff) (outs, []) (MemoryResultAggregator.items a)).2 |>).
Proof.
  intros Hs Hnow Hv Hw Hg Hcov s1 g a. destruct (begin_collects (app s) (aggregator s) (so_aggregator s Hs) (so_generation s Hs)) as (Hc & _).
  assert (Ha : collecting (app_limits (app s)) g a) by (by apply publish_owners_keeps). pose proof (asked_engine s raw_ Hs Hv) as He. pose proof (kept_positions s raw_ Hs Hv Hw) as Hk.
  assert (Hans : answer_ok (app_limits (app s)) (sort_hits (foldl (collect_hit (s <| now_secs := now |>) aff) (outs, []) (MemoryResultAggregator.items a)).2)).
  { rewrite <- (co_limits _ _ _ Ha). apply collected_answer, Ha. }
  clearbody a. pose proof (so_generation s Hs) as Hwf. destruct Hs. split; try done.
  - intros Hfit c Ec. cbn in Ec. destruct complete; [|done]. injection Ec as <-. destruct (Hk Hfit) as [[Hask Ht]|Hb]; [left | by right].
    exists (asked s raw_). split_and!; [done..|]. cbn [by_owner]. intros p l Hl. destruct (Hcov Hfit Ht eq_refl p l Hl) as [Hn Hall]. split; [done|]. intros x Hx Hm. apply Hall; [done|]. by apply candidate_matched.
  - intros q [= <-]. done.
  - unfold GenerationTracker.wf, in_range in *. cbn. lia.
  - destruct Ha. split; try done. intros x Hx. cbn in Hx |- *. rewrite co_active in Hx. injection Hx as <-. unfold g. lia.
Qed.

Lemma no_quota s q : service_ok s -> ~ positive_limits (app_limits (app s)) -> select_best (catalog s) (owners s) (plan_for s q) = Some ([], no_stats, ∅, true).
Proof.
  intros Hs Hn. unfold select_best. destruct (_ || _) eqn:E; [done|]. exfalso. apply Hn. apply orb_false_iff in E as [E E3]. apply orb_false_iff in E as [E1 E2].
  apply Z.eqb_neq in E1, E2, E3. cbn in E1, E2, E3. pose proof (so_limits s Hs) as ((_ & _ & ? & _) & ? & ? & _). unfold positive_limits. lia.
Qed.

Lemma submit_keeps s raw_ now s' r :
  service_ok s -> in_range u64_max now -> valid_text raw_ -> worded raw_ \/ blanks_allowed -> submit_query_at s raw_ now = Some (s', r) -> service_ok s'.
Proof.
  intros Hs Hnow Hv Hw E. destruct (can_accept_queries (app s)) eqn:Hacc.
  2:{ unfold submit_query_at in E. change (app (s <| now_secs := now |>)) with (app s) in E. rewrite Hacc in E. injection E as <- _. by apply at_time. }
  pose proof (so_generation s Hs) as [_ Hmax].
  destruct (Z.eq_dec (GenerationTracker.counter (generations (app s))) u64_max) as [Hx|Hx].
  { unfold submit_query_at in E. change (app (s <| now_secs := now |>)) with (app s) in E. rewrite Hacc in E. cbn [negb] in E.
    unfold GenerationTracker.advance, GenerationTracker.try_advance, checked_add in E. rewrite Hx, (proj2 (Z.leb_gt _ _)) in E by lia. done. }
  rewrite submit_unfold in E by (done || lia). cbv zeta in E. apply bind_Some in E as ([[[selected query_stats] matched_positions] complete] & Esel & E).
  apply bind_Some in E as ([outs sel] & _ & [= <- _]). apply answered_ok; [done | done | done | done | lia|]. intros Hfit Ht Hcomp p l Hl.
  pose proof (at_time s now Hs Hnow) as H0. assert (Hdec : positive_limits (app_limits (app s)) \/ ~ positive_limits (app_limits (app s))) by (unfold positive_limits; lia).
  destruct Hdec as [Hpos|Hpos].
  - destruct (select_answer (s <| now_secs := now |>) (asked s raw_) H0 Hfit (asked_engine s raw_ Hs Hv) Ht Hpos) as (st & cache & whole & Eb & Hb).
    pose proof (eq_trans (eq_sym Eb) Esel) as E'. injection E' as _ _ <- <-. by apply Hb.
  - pose proof (no_quota (s <| now_secs := now |>) (asked s raw_) H0 Hpos) as Eb. pose proof (eq_trans (eq_sym Eb) Esel) as E'. injection E' as _ _ <- _. done.
Qed.

(** The answer, when nothing stands in its way. *)
Lemma submit_exact s raw_ now :
  service_ok s -> fit_catalog (catalog s) -> positive_limits (app_limits (app s)) ->
  (forall p, Forall (light (app_limits (app s))) (items (catalog s) p)) ->
  in_range u64_max now -> valid_text raw_ -> trusted s (asked s raw_) -> can_accept_queries (app s) = true -> GenerationTracker.counter (generations (app s)) < u64_max ->
  exists s', submit_query_at s raw_ now = Some (s', Ok (GenerationTracker.counter (generations (app s)) + 1)) /\
    map strip (results s') = map bare (best_answer (s <| now_secs := now |>) (asked s raw_)) /\ last_query s' = Some (asked s raw_).
Proof.
  intros Hs Hfit Hpos Hlight Hnow Hv Ht Hacc Hg. rewrite submit_unfold by done. cbv zeta. set (s0 := s <| now_secs := now |>). set (q := asked s raw_).
  pose proof (at_time s now Hs Hnow) as H0. fold s0 in H0. assert (Hq : engine_query q) by (by apply asked_engine).
  destruct (select_answer s0 q H0 Hfit Hq Ht Hpos) as (st & cache & whole & Eb & _). change (catalog s) with (catalog s0). change (owners s) with (owners s0).
  rewrite Eb. cbn [mbind option_bind].
  destruct (materialize_spec (policy s0) q (best_answer s0 q)) as (outs & sel & Em & Hsel & Houts).
  { intros c Hc. destruct (selected_match s0 q c H0 Hfit Hc) as (_ & _ & o & Eo & _). eauto. }
  { destruct (answer_distinct s0 q H0 Hfit Hq Ht Hpos) as [[_ Hd] _]. exact Hd. }
  change (policy s) with (policy s0). rewrite Em. cbn [mbind option_bind]. eexists. split; [reflexivity|]. split; [|done].
  destruct (begin_collects (app s) (aggregator s) (so_aggregator s Hs) (so_generation s Hs)) as (Hc & Hi & Hst).
  destruct (answer_published s0 q _ _ sel H0 Hfit Hq Ht Hpos Hlight Hc Hi Hst Hsel) as [_ Hperm].
  exact (collected_strip s0 q outs _ H0 Hfit Hq Ht Hpos Hperm Houts).
Qed.

(** * Merging provider items *)

(** The hits that stay when a plugin sends its batch. *)
Definition standing s (plugin : PluginId) : list SearchHit :=
  List.filter (fun hit => negb (ephemeral hit && String.eqb (plugin_id (hit_item hit)) plugin)) (results s).

Lemma shows_true l id : shows l id = true <-> id ∈ map (fun h => stable_id (hit_item h)) l.
Proof.
  unfold shows. rewrite existsb_exists, list_elem_of_In, in_map_iff. split.
  - intros (h & Hh & E%String.eqb_eq). eauto.
  - intros (h & E & Hh). exists h. split; [done|]. by apply String.eqb_eq.
Qed.

(** What the loop over a batch adds. *)
Record merging s (q : NormalizedQuery) (kept : list SearchHit) (batch : list Item) (merged : list SearchHit) : Prop := {
  mg_items : map hit_item merged `sublist_of` batch;
  mg_hits : Forall (fun h => ephemeral h = true /\ exists o, match_item (policy s) q (search_item (hit_item h)) = Some (Some o) /\
              h = rank_hit s (hit_item h) o (affinities_for (history s) (text_string (normalized q))) true) merged;
  mg_new : forall h, h ∈ merged -> stable_id (hit_item h) ∉ map (fun h => stable_id (hit_item h)) kept;
  mg_ids : NoDup (map (fun h => stable_id (hit_item h)) merged);
  mg_all : forall item o, item ∈ batch -> match_item (policy s) q (search_item item) = Some (Some o) ->
             stable_id item ∈ map (fun h => stable_id (hit_item h)) (kept ++ merged);
}.

Lemma match_item_total pol q item : engine_query q -> exists r, match_item pol q (search_item item) = Some r.
Proof.
  intros Hq. unfold match_item. destruct (prepare_item_total (search_item item)) as (p & rest & Ep & _ & _ & _ & Hn & (retained_ & Hr & _) & _).
  rewrite Ep. cbn [mbind option_bind]. pose proof (search_item_valid item) as Hv. eapply match_unchecked_total; [exact Hn | by rewrite Hr | | apply normal_valid, Hq].
  rewrite normalize_field_text by apply Hv. by apply normalize_valid, Hv.
Qed.

Lemma merge_all_spec s q kept batch :
  engine_query q ->
  exists merged, ofold (merge_one s q (affinities_for (history s) (text_string (normalized q))) kept) [] batch = Some merged /\ merging s q kept batch merged.
Proof.
  intros Hq. apply (ofold_inv _ (merging s q kept)); [split; try constructor; set_solver|].
  intros done_ item merged _ [Hi Hh Hn Hd Ha]. destruct (match_item_total (policy s) q item Hq) as [r Er]. unfold merge_one. rewrite Er. cbn [mbind option_bind].
  destruct r as [o|]; eexists; (split; [reflexivity|]).
  2:{ split; [|done..|].
      - by apply sublist_inserts_r.
      - intros item' o' [Hin|Hin]%elem_of_app Eo; [by eapply Ha|]. apply list_elem_of_singleton in Hin as ->. congruence. }
  destruct (shows (kept ++ merged) (stable_id item)) eqn:Es.
  - apply shows_true in Es. split; [by apply sublist_inserts_r | done.. |]. intros item' o' [Hin|Hin]%elem_of_app Eo; [by eapply Ha|]. by apply list_elem_of_singleton in Hin as ->.
  - assert (Hfresh : stable_id item ∉ map (fun h => stable_id (hit_item h)) (kept ++ merged)) by (rewrite <- shows_true; congruence). rewrite map_app, elem_of_app in Hfresh.
    split.
    + rewrite map_app. by apply sublist_app.
    + apply Forall_app. split; [done|]. apply Forall_singleton. split; [done|]. by exists o.
    + intros h [Hin|Hin]%elem_of_app; [by apply Hn|]. apply list_elem_of_singleton in Hin as ->. cbn. tauto.
    + rewrite map_app. apply NoDup_app. split_and!; [done | | apply NoDup_singleton]. intros x Hx Hx'. apply list_elem_of_singleton in Hx' as ->. tauto.
    + intros item' o' [Hin|Hin]%elem_of_app Eo.
      * specialize (Ha item' o' Hin Eo). rewrite !map_app, !elem_of_app in *. tauto.
      * apply list_elem_of_singleton in Hin as ->. rewrite !map_app, !elem_of_app. right. right. apply list_elem_of_singleton. done.
Qed.

Definition quota_of s : nat := Z.to_nat (max_items_per_query (app_limits (app s))).

(** A batch for the query on screen: the answer is the best of what stood and what
    matched. *)
Lemma merge_query_spec s g plugin batch q :
  service_ok s -> GenerationTracker.is_current (generations (app s)) g = true -> last_query s = Some q ->
  exists merged, merging s q (standing s plugin) batch merged /\
    merge_query_items s g plugin batch = Some (s <| results := take (quota_of s) (sort_hits (standing s plugin ++ merged)) |>, true).
Proof.
  intros Hs Hg Hq. pose proof (so_query s Hs q Hq) as He. destruct (merge_all_spec s q (standing s plugin) batch He) as (merged & E & Hm).
  exists merged. split; [done|]. unfold merge_query_items. rewrite Hg, Hq. cbn [negb]. cbv zeta. fold (standing s plugin). rewrite E. done.
Qed.

Lemma standing_keys s plugin : service_ok s -> NoDup (map hit_key (standing s plugin)).
Proof. intros Hs. apply filter_map_NoDup, (so_answer s Hs). Qed.

Lemma merged_keys s q kept batch merged : merging s q kept batch merged -> NoDup (map hit_key kept) -> NoDup (map hit_key (kept ++ merged)).
Proof.
  intros [_ _ Hn Hd _] Hk. rewrite map_app. apply NoDup_app. split_and!; [done | |].
  - intros k Hk1 Hk2. apply list_elem_of_In, in_map_iff in Hk1 as (h & <- & Hh%list_elem_of_In), Hk2 as (h' & E & Hh'%list_elem_of_In).
    apply (Hn h' Hh'). apply list_elem_of_In, in_map_iff. exists h. split; [|by apply list_elem_of_In]. unfold hit_key, key in E. by injection E as _ ->.
  - assert (E : map (fun h => stable_id (hit_item h)) merged = map snd (map hit_key merged)) by (by rewrite map_map).
    rewrite E in Hd. by apply NoDup_fmap_1 in Hd.
Qed.

Lemma truncated_answer s l : service_ok s -> NoDup (map hit_key l) -> answer_ok (app_limits (app s)) (take (quota_of s) (sort_hits l)).
Proof.
  intros Hs Hn. split.
  - assert (Hp : map hit_key (sort_hits l) ≡ₚ map hit_key l) by (by apply Permutation_map, sort_hits_perm). rewrite <- Hp in Hn.
    rewrite <- (take_drop (quota_of s) (sort_hits l)), map_app in Hn. by apply NoDup_app in Hn as [? _].
  - pose proof (so_limits s Hs) as ((_ & _ & ? & _) & _). unfold len, quota_of. rewrite length_take. lia.
  - apply take_sorted, sort_hits_sorted.
Qed.

Lemma merge_keeps s g plugin batch :
  service_ok s -> exists s' b, merge_query_items s g plugin batch = Some (s', b) /\ service_ok s'.
Proof.
  intros Hs. destruct (GenerationTracker.is_current (generations (app s)) g) eqn:Hg.
  2:{ exists s, false. split; [|done]. unfold merge_query_items. by rewrite Hg. }
  destruct (last_query s) as [q|] eqn:Hq.
  2:{ exists s, false. split; [|done]. unfold merge_query_items. by rewrite Hg, Hq. }
  destruct (merge_query_spec s g plugin batch q Hs Hg Hq) as (merged & Hm & E). eexists _, _. split; [exact E|].
  assert (Ha : answer_ok (app_limits (app s)) (take (quota_of s) (sort_hits (standing s plugin ++ merged)))).
  { apply truncated_answer; [done|]. by eapply merged_keys, standing_keys. }
  destruct Hs. by split.
Qed.

End Answer.
