(* ===== verification/ServiceClaims.v ===== *)
(** What the search service promises, over every sequence of calls. *)

From Stdlib Require Import SpecFloat.
From S2P Require Import Prelude Text StdFloat Utf8 Generation Items Query QueryText QueryWords.
From S2P Require Import QueryPrepare QueryFacts QueryScores QueryNarrow QueryAgree Ranking RankingFacts RankingBound.
From S2P Require Import Aggregator AggregatorFacts Catalog CatalogIndex CatalogMerge CatalogSearch CatalogFacts.
From S2P Require Import Search SearchTop Service ServicePublish ServiceInv ServiceQuery.

#[local] Arguments new_index : simpl never.
#[local] Arguments search_item : simpl never.

Section Claims.
Context {U : Unicode} {L : UnicodeLaws U} {HO : HeapOrder} {H D : Type} {C : CatalogCache H D}.

(** * Executions *)

Inductive ServiceOp : Type :=
| OpPolicy (p : MatchPolicy)
| OpAliases (pairs : list (text * text))
| OpTime (now : Z)
| OpForeground (c : option Category)
| OpWindow (w : option (option string))
| OpCache (h : H)
| OpStage (expected : StartupStage)
| OpPersistence (plugin : PluginId) (persist : bool)
| OpReplace (plugin : PluginId) (instance : Z) (batch : list Item)
| OpPublish (build : CatalogBuild)
| OpLoad (h : H)
| OpQuery (raw_ : text) (now : Z)
| OpMerge (g : Generation) (plugin : PluginId) (batch : list Item)
| OpRestore (snap : SelectionHistorySnapshot)
| OpClear
| OpRecord (id : ItemId).

(** Arguments of their types. *)
Definition op_ok (o : ServiceOp) : Prop :=
  match o with
  | OpAliases pairs => Forall (fun p => valid_text p.2) pairs
  | OpTime now => in_range u64_max now
  | OpQuery raw_ now => in_range u64_max now /\ valid_text raw_
  | OpRestore snap => snapshot_typed snap
  | _ => True
  end.

(** Not a query of blanks alone. *)
Definition op_worded (o : ServiceOp) : Prop := match o with OpQuery raw_ _ => worded raw_ | _ => True end.

Definition service_step (s : SearchService (H := H) (D := D)) (o : ServiceOp) : option SearchService :=
  match o with
  | OpPolicy p => Some (set_match_policy s p)
  | OpAliases pairs => Some (set_aliases s (new_aliases pairs))
  | OpTime now => Some (set_history_time s now)
  | OpForeground c => Some (set_foreground_category s c)
  | OpWindow w => Some (set_foreground_from_window s w)
  | OpCache h => Some (set_catalog_cache s h)
  | OpStage e => Some (complete_startup s e).1
  | OpPersistence plugin persist => set_catalog_persistence s plugin persist
  | OpReplace plugin instance batch => fst <$> replace_catalog s plugin instance batch
  | OpPublish build => fst <$> publish_build build s
  | OpLoad h => fst <$> load_persisted_catalog s h
  | OpQuery raw_ now => fst <$> submit_query_at s raw_ now
  | OpMerge g plugin batch => fst <$> merge_query_items s g plugin batch
  | OpRestore snap => Some (restore_selection_history s snap)
  | OpClear => Some (clear_selection_history s)
  | OpRecord id => Some (record_visible s id).1
  end.

Definition service_run (a : App) (d : D) (ops : list ServiceOp) : option SearchService := ofold service_step (new_service a d) ops.

(** Operations other than queries always return. *)
Definition is_query (o : ServiceOp) : bool := match o with OpQuery _ _ => true | _ => false end.

Context (Horder : forall l, heap_order l ≡ₚ l).

Lemma publish_build_ok {Bl : Blanks} build s : service_ok s -> exists s' r, publish_build build s = Some (s', r) /\ service_ok s'.
Proof.
  intros Hs. unfold publish_build. destruct (set_catalog_persistence_ok s (build_plugin build) (build_persist build) Hs) as (s1 & -> & Hs1).
  destruct (replace_catalog_spec s1 (build_plugin build) (build_instance build) (build_items build) Hs1) as (s2 & r & E & ? & _). by exists s2, r.
Qed.

Lemma service_step_ok {Bl : Blanks} s o : service_ok s -> op_ok o -> op_worded o \/ blanks_allowed ->
  (forall s', service_step s o = Some s' -> service_ok s') /\ (is_query o = false -> is_Some (service_step s o)).
Proof.
  intros Hs Ho Hw. destruct o; cbn [service_step op_ok op_worded is_query] in *; (split; [intros s' E | intros Hn; try done; try (eexists; reflexivity)]);
    try (injection E as <-).
  - by apply set_match_policy_ok.
  - by apply set_aliases_ok.
  - by apply set_history_time_ok.
  - by apply set_foreground_ok.
  - by apply set_foreground_ok.
  - by apply set_catalog_cache_ok.
  - by apply complete_startup_ok.
  - destruct (set_catalog_persistence_ok s plugin persist Hs) as (s1 & E1 & ?). rewrite E1 in E. by injection E as <-.
  - destruct (set_catalog_persistence_ok s plugin persist Hs) as (s1 & E1 & ?). rewrite E1. eauto.
  - destruct (replace_catalog_spec s plugin instance batch Hs) as (s1 & r & E1 & ? & _). rewrite E1 in E. by injection E as <-.
  - destruct (replace_catalog_spec s plugin instance batch Hs) as (s1 & r & E1 & ? & _). rewrite E1. eexists; reflexivity.
  - destruct (publish_build_ok build s Hs) as (s1 & r & E1 & ?). rewrite E1 in E. by injection E as <-.
  - destruct (publish_build_ok build s Hs) as (s1 & r & E1 & ?). rewrite E1. eexists; reflexivity.
  - destruct (load_persisted_ok s h Hs) as (s1 & r & E1 & ?). rewrite E1 in E. by injection E as <-.
  - destruct (load_persisted_ok s h Hs) as (s1 & r & E1 & ?). rewrite E1. eexists; reflexivity.
  - destruct (submit_query_at s raw_ now) as [[s1 r]|] eqn:E1; [|done]. injection E as <-. destruct Ho as (Ho1 & Ho2). by eapply submit_keeps.
  - destruct (merge_keeps Horder s g plugin batch Hs) as (s1 & b & E1 & ?). rewrite E1 in E. by injection E as <-.
  - destruct (merge_keeps Horder s g plugin batch Hs) as (s1 & b & E1 & ?). rewrite E1. eexists; reflexivity.
  - by apply restore_history_ok.
  - by apply clear_history_ok.
  - by apply record_visible_ok.
Qed.

(** Whatever the queries. *)
Definition any_queries : Blanks := True.

(** The application the service was made for: valid limits, a fresh counter. *)
Definition app_ok (a : App) : Prop := counts_ok (app_limits a) /\ GenerationTracker.wf (generations a).

Lemma service_run_ok {Bl : Blanks} a d ops s :
  app_ok a -> Forall op_ok ops -> Forall op_worded ops \/ blanks_allowed -> service_run a d ops = Some s -> service_ok s.
Proof.
  intros [Hl Hg] Hops Hw0. assert (Hw : Forall (fun o => op_worded o \/ blanks_allowed) ops).
  { destruct Hw0 as [Hw0|]; [eapply Forall_impl; [exact Hw0 | by left] | apply Forall_forall; by right]. } clear Hw0. unfold service_run. pose proof (new_service_ok (H := H) a d Hl Hg) as H0. revert H0. generalize (new_service (H := H) a d) as s0.
  induction Hops as [|o ops Ho Hops IH]; intros s0 H0; cbn [ofold]; [by intros [= <-]|]. apply Forall_cons in Hw as [Ho' Hw]. intros E. apply bind_Some in E as (s1 & E1 & E).
  eapply (IH Hw); [|exact E]. by eapply (service_step_ok s0 o).
Qed.

Lemma service_run_any a d ops s : app_ok a -> Forall op_ok ops -> service_run a d ops = Some s -> service_ok (Bl := any_queries) s.
Proof. intros Ha Hops. apply service_run_ok; [done..|]. by right. Qed.

(** * The reference answer *)

Implicit Type s : (SearchService (H := H) (D := D)).

(** One item, matched and scored from scratch. *)
Definition item_match s (q : NormalizedQuery) (item : Item) : option RankedCandidate :=
  p ← prepare_item (search_item item);
  '(_, summary) ← score_prepared (policy s) q (search_item item) p;
  summary ← summary;
  Some (mkCandidate item no_label
          (score_match_with_signals (ranker_history s) item summary
             (augment (history s) item (affinities_for (history s) (text_string (normalized q))) (now_secs s) (foreground_category s)
                default_signals))).

(** Every item of every plugin, the strongest of each plugin, and the strongest of
    those. *)
Definition reference_answer s (q : NormalizedQuery) : list RankedCandidate :=
  let l := app_limits (app s) in
  take (Z.to_nat (max_items_per_query l))
    (strongest_first
       (owners s ≫= fun p =>
          take (Z.to_nat (Z.min (max_items_per_plugin_per_query l) (max_items_per_query l)))
            (strongest_first (omap (item_match s q) (items (catalog s) p))))).

Lemma new_index_prepare item : new_index item = (fun p => mkIndex p (presence_mask (searchable_text (search_item item)))) <$> prepare_item (search_item item).
Proof. unfold new_index, prepare_item, searchable_text. destruct (searchable_text_with_label _) as [t b]. by destruct (from_searchable_text _ _ _). Qed.

Lemma enumerate_snd {A} (l : list A) : map snd (enumerate l) = l.
Proof. unfold enumerate. change (map snd) with (fmap (M := list) (@snd nat A)). rewrite fmap_imap. induction l using rev_ind; [done|]. rewrite imap_app, IHl. done. Qed.

Lemma matches_bare s q p : map bare (plugin_matches (catalog s) p (plan_for s q)) = omap (item_match s q) (items (catalog s) p).
Proof.
  unfold plugin_matches, slice_entries, shown, scan_items. rewrite <- (enumerate_snd (items (catalog s) p)) at 2.
  induction (enumerate (items (catalog s) p)) as [|[i item] l IH]; [done|]. cbn [omap list_omap map fst snd]. unfold item_match at 1. rewrite new_index_prepare.
  destruct (prepare_item (search_item item)) as [lab|]; cbn [fmap option_fmap option_map mbind option_bind]; [|exact IH]. cbn [map omap list_omap].
  unfold candidate_of at 1. cbn [fst snd prepared]. change (plan_policy (plan_for s q)) with (policy s). change (plan_query (plan_for s q)) with q.
  destruct (score_prepared (policy s) q (search_item item) lab) as [[spans [summary|]]|]; cbn [mbind option_bind map]; [|exact IH..]. f_equal. exact IH.
Qed.

Lemma strongest_bare l : distinct l -> map bare (strongest_first l) = strongest_first (map bare l).
Proof.
  intros Hd. assert (Hdb : distinct (map bare l)) by (destruct Hd as [Hs Hn]; split; [by apply Forall_map | by rewrite map_map]).
  apply ranked_unique; [by apply ranked_bare, strongest_first_ranked | by apply strongest_first_ranked|].
  etransitivity; [apply Permutation_map, strongest_first_perm | symmetry; apply strongest_first_perm].
Qed.

Lemma map_take {A B} (f : A -> B) n l : map f (take n l) = take n (map f l).
Proof. revert n. induction l as [|x l IH]; intros [|n]; cbn; [done..|]. by rewrite IH. Qed.

Lemma answer_reference {Bl : Blanks} s q :
  service_ok s -> fit_catalog (catalog s) -> engine_query q -> trusted s q -> positive_limits (app_limits (app s)) -> map bare (best_answer s q) = reference_answer s q.
Proof.
  intros Hs Hfit Hq Ht (HB & HP & HQ). assert (Hlim : 0 < per_plugin_limit (plan_for s q)) by (cbn; lia).
  assert (Hown : forall p, owner_ok (catalog s) (plan_for s q) p) by (intros p; by apply plan_owner_ok).
  assert (Hsane : forall item, sane (plan_signals (plan_for s q) item)) by (intros item; by apply plan_sane).
  unfold best_answer, best_matches, reference_answer. rewrite map_take, strongest_bare.
  2:{ apply quotas_distinct; [apply Hs | done | apply Hq | done | apply sorted_NoDup, Hs|]. by apply Forall_forall. }
  change (global_limit (plan_for s q)) with (max_items_per_query (app_limits (app s))). do 2 f_equal.
  induction (owners s) as [|p ps IH]; cbn [mbind list_bind map]; [done|]. rewrite map_app. f_equal; [|exact IH].
  unfold quota. rewrite map_take, strongest_bare, matches_bare; [done|]. eapply matches_distinct; [apply Hs | done | apply Hq | done | done].
Qed.

(** * The bound *)

(** The bound that prunes is a bound.  Whatever the history, the context and
    the preferences contribute, rounding at every step included, the binary32
    score of a match whose label the first word of the query does not open is at
    most the bound the service computes for its item without matching it. *)
Theorem non_prefix_bound_sound enabled pol q item p spans summary token rest signals :
  i32 (score_hint item) -> unpadded item -> sane signals -> prepare_item (search_item item) = Some p -> tokens q = token :: rest ->
  starts_with (normalize_field (chars (item_label item))) token = false ->
  score_prepared pol q (search_item item) p = Some (spans, Some summary) ->
  f32_le (score_match_with_signals enabled item summary signals) (non_prefix_upper_bound enabled item) = true.
Proof.
  intros Hi Hu Hs Hp Et Hno E. destruct (prepare_item_total (search_item item)) as (p' & more & Ep & _ & _ & _ & Hn & _). rewrite Hp in Ep. injection Ep as <-.
  by apply (non_prefix_score enabled pol q item (search_item item) p spans summary (normalize_field (chars (item_label item))) token rest signals).
Qed.

(** What can be searched without exception: every item indexable, its label not
    opening with a blank, its icon reference and metadata within a batch's share;
    quotas that are not zero. *)
Record searchable s : Prop := {
  se_fit : fit_catalog (catalog s);
  se_light : forall p, Forall (light (app_limits (app s))) (items (catalog s) p);
  se_limits : positive_limits (app_limits (app s));
}.

(** C1: the answer to a query is every match, ranked.  After any sequence of
    calls, a query that is accepted is answered with exactly the items found by
    matching and scoring every item of the catalog from scratch, the strongest of
    each plugin and the strongest of those, in order and with those scores: the
    prefix index, the candidate index, the bound that skips items, the positions
    kept from the previous keystroke, the heaps, the batches and the aggregator
    change nothing.  The query takes the next generation.  This needs a catalog
    without labels that open with a blank and without items too large for their
    share of a batch, quotas that are not zero, and a query that does not open
    with a blank unless no query before it was of blanks alone. *)
Theorem answer_exact a d ops s raw_ now :
  app_ok a -> Forall op_ok ops -> service_run a d ops = Some s -> searchable s ->
  Forall op_worded ops \/ opens_blank (normalized (asked s raw_)) = false ->
  in_range u64_max now -> valid_text raw_ -> can_accept_queries (app s) = true -> GenerationTracker.counter (generations (app s)) < u64_max ->
  exists s', submit_query_at s raw_ now = Some (s', Ok (GenerationTracker.counter (generations (app s)) + 1)) /\
    map (fun h => (hit_item h, hit_score h)) (results s') =
    map (fun c => (cand_item c, cand_score c)) (reference_answer (s <| now_secs := now |>) (asked s raw_)).
Proof.
  intros Ha Hops Hrun [Hfit Hlight Hpos] Hblank Hnow Hv Hacc Hg.
  assert (Hs : exists Bl : Blanks, service_ok s /\ trusted s (asked s raw_)).
  { destruct Hblank as [Hw|Hb].
    - assert (Hs : service_ok (Bl := False) s) by (eapply service_run_ok; eauto). exists False. split; [done|]. apply (trusted_unless_blank (Bl := False)); [done | left; exact (fun h : False => h)].
    - pose proof (service_run_any a d ops s Ha Hops Hrun) as Hs. exists any_queries. split; [done|]. apply (trusted_unless_blank (Bl := any_queries)); [done | by right]. }
  destruct Hs as (Bl & Hs & Ht).
  destruct (submit_exact Horder s raw_ now Hs Hfit Hpos Hlight Hnow Hv Ht Hacc Hg) as (s' & E & Hr & _). exists s'. split; [done|].
  rewrite (answer_reference (s <| now_secs := now |>)) in Hr; [| by apply at_time | done | by apply asked_engine | exact Ht | done].
  pose proof (f_equal (map (fun c => (cand_item c, cand_score c))) Hr) as Hm. by rewrite map_map in Hm.
Qed.

#[local] Existing Instance any_queries.

(** C4: the service never drifts.  After any sequence of calls, queries of blanks
    alone among them, the catalog is
    intact, the owners listed are exactly the plugins that have items, in order and
    each once, and the answer on screen is ranked, within the quota of a query and
    shows no item twice; and every call but a query returns. *)
Theorem service_consistent a d ops s :
  app_ok a -> Forall op_ok ops -> service_run a d ops = Some s ->
  catalog_ok (catalog s) /\ StronglySorted str_lt (owners s) /\ (forall p, p ∈ owners s <-> items (catalog s) p <> []) /\
  NoDup (map hit_key (results s)) /\ len (results s) <= max_items_per_query (app_limits (app s)) /\ Sorted (by_test rank_leb) (results s) /\
  forall o, op_ok o -> is_query o = false -> is_Some (service_step s o).
Proof.
  intros Ha Hops Hrun. pose proof (service_run_any a d ops s Ha Hops Hrun) as Hs. split_and!; try apply Hs.
  intros o Ho Hq. by apply (service_step_ok s o Hs Ho (or_intror I)).
Qed.

(** C10: provider items are ranked among the rest.  A batch for the query on
    screen replaces the plugin's previous batch; the hits that stay and the items
    of the batch that match and whose identity is not shown yet are ranked
    together and cut at the quota.  A batch for another generation, or before any
    query, changes nothing. *)
Theorem merged_items_ranked a d ops s g plugin batch :
  app_ok a -> Forall op_ok ops -> service_run a d ops = Some s ->
  match last_query s with
  | Some q =>
      if GenerationTracker.is_current (generations (app s)) g then
        exists merged, merging s q (standing s plugin) batch merged /\
          merge_query_items s g plugin batch =
          Some (s <| results := take (Z.to_nat (max_items_per_query (app_limits (app s)))) (sort_hits (standing s plugin ++ merged)) |>, true)
      else merge_query_items s g plugin batch = Some (s, false)
  | None => merge_query_items s g plugin batch = Some (s, false)
  end.
Proof.
  intros Ha Hops Hrun. pose proof (service_run_any a d ops s Ha Hops Hrun) as Hs. destruct (last_query s) as [q|] eqn:Eq.
  - destruct (GenerationTracker.is_current (generations (app s)) g) eqn:Eg; [by apply (merge_query_spec Horder)|]. unfold merge_query_items. by rewrite Eg.
  - unfold merge_query_items. rewrite Eq. by destruct (negb _).
Qed.











(** * Persistence *)

Lemma withdraw_slice_frame s plugin s' :
  withdraw_slice s plugin = Some s' -> results s' = [] /\ volatile s' = volatile s /\ storage s' = storage s /\ cache_sourced s' = cache_sourced s.
Proof. unfold withdraw_slice. intros E. apply bind_Some in E as (m & _ & [= <-]). by destruct (find_owner _ _). Qed.

Lemma replace_sourced s plugin instance batch s' n : replace_catalog s plugin instance batch = Some (s', Ok n) -> plugin ∉ cache_sourced s'.
Proof.
  unfold replace_catalog. destruct (activate_instance _ _ _) as [m1 [u|e]]; [|done]. intros E. apply bind_Some in E as ([m2 [u2|e]] & _ & E); [|done].
  match type of E with context [publish_slice ?s0 _ _] => destruct (publish_slice_same s0 plugin instance) as [Hsame _]; destruct (publish_slice s0 plugin instance) as [s1 k] end.
  injection E as <- <-. cbn [fst] in Hsame. rewrite Hsame. cbn. set_solver.
Qed.

(** The storage after a slice was withdrawn from the attached cache. *)
Definition forgotten s (plugin : PluginId) : D :=
  match catalog_cache s with Some h => (invalidate_slice (storage s) h plugin).1 | None => storage s end.

Lemma withdraw_cached_storage s plugin : storage (withdraw_cached s plugin) = forgotten s plugin.
Proof. unfold withdraw_cached, forgotten. destruct (catalog_cache s) as [h|]; [|done]. by destruct (invalidate_slice _ _ _) as [d' [?|?]]. Qed.

(** A plugin that refuses persistence is forgotten.  When a plugin first
    declares that its catalog may not be persisted, its slice is withdrawn from the
    attached cache; if the live slice came from the cache it is removed, with the
    answer on screen, and if the plugin has published for itself its items stay.  No other plugin
    loses anything; and after a publication of its own no slice counts as
    cached. *)
Theorem refused_persistence_withdraws a d ops s plugin :
  app_ok a -> Forall op_ok ops -> service_run a d ops = Some s -> plugin ∉ volatile s ->
  (exists s', set_catalog_persistence s plugin false = Some s' /\ plugin ∈ volatile s' /\ storage s' = forgotten s plugin /\
     (forall q, q <> plugin -> items (catalog s') q = items (catalog s) q) /\
     (plugin ∈ cache_sourced s -> items (catalog s') plugin = [] /\ ~ (plugin ∈ owners s') /\ results s' = [] /\ plugin ∉ cache_sourced s') /\
     (plugin ∉ cache_sourced s -> catalog s' = catalog s /\ owners s' = owners s /\ results s' = results s)) /\
  (forall instance batch s1 n, replace_catalog s plugin instance batch = Some (s1, Ok n) -> plugin ∉ cache_sourced s1).
Proof.
  intros Ha Hops Hrun Hvol. pose proof (service_run_any a d ops s Ha Hops Hrun) as Hs. split; [|intros instance batch s1 n; apply replace_sourced].
  unfold set_catalog_persistence. rewrite bool_decide_eq_false_2 by done. set (s0 := s <| volatile ::= _ |>). pose proof (withdraw_cached_same s0 plugin) as Hsame.
  pose proof (withdraw_cached_storage s0 plugin) as Hst. set (s1 := withdraw_cached s0 plugin) in *.
  assert (H1 : service_ok s1) by (eapply same_but_cache_ok; [exact Hsame|]; destruct Hs; by split).
  assert (Hf : catalog s1 = catalog s /\ owners s1 = owners s /\ results s1 = results s /\ cache_sourced s1 = cache_sourced s /\ plugin ∈ volatile s1).
  { rewrite Hsame. unfold s0. cbn. split_and!; [done..|]. set_solver. }
  destruct Hf as (F1 & F2 & F3 & F4 & F5). rewrite F4. case_bool_decide as Hin.
  - destruct (withdraw_slice_spec (s1 <| cache_sourced ::= fun v => v ∖ {[plugin]} |>) plugin) as (s' & E & Hs' & Hnil & Hother); [destruct H1; by split|].
    destruct (withdraw_slice_frame _ _ _ E) as (R1 & R2 & R3 & R4). exists s'. split; [done|]. split_and!.
    + rewrite R2. exact F5.
    + rewrite R3. exact Hst.
    + intros q Hq. rewrite Hother by done. cbn. by rewrite F1.
    + intros _. split_and!; [done | intros Hp%(so_owners s' Hs'); by rewrite Hnil in Hp | done | rewrite R4; cbn; set_solver].
    + done.
  - exists s1. split_and!; [done | done | exact Hst | by rewrite F1 | done | done].
Qed.

(** * Startup *)

(** The milestones in order. *)
Definition milestones : list StartupStage :=
  [WindowAndHotkey; PersistedCatalog; AcceptQueries; RequiredWorkers; LegacyPlugins; BackgroundRefresh; LazyModernPlugins].

(** A run of acknowledgements: the application it leaves, and those accepted. *)
Fixpoint acknowledge (ap : App) (acks : list StartupStage) : App * list StartupStage :=
  match acks with
  | [] => (ap, [])
  | e :: acks' =>
      match complete_stage ap e with
      | (ap, Ok _) => let (ap, l) := acknowledge ap acks' in (ap, e :: l)
      | (ap, Err _) => acknowledge ap acks'
      end
  end.


Lemma complete_stage_cases ap e :
  complete_stage ap e =
    if eager_startup_complete ap then (ap, Err AlreadyComplete)
    else if bool_decide (e = stage ap) then
      match next_stage (stage ap) with
      | Some next => (ap <| stage := next |>, Ok (Some next))
      | None => (ap <| eager_startup_complete := true |>, Ok None)
      end
    else (ap, Err (if precedes e (stage ap) then StaleAcknowledgement e (stage ap) else OutOfOrderAcknowledgement e (stage ap))).
Proof. unfold complete_stage. destruct (eager_startup_complete ap); [done|]. by destruct (bool_decide (e = stage ap)). Qed.

(** Where an application is: how many milestones are behind it. *)
Definition behind (ap : App) (n : nat) : Prop :=
  if eager_startup_complete ap then n = 7%nat /\ stage ap = LazyModernPlugins else milestones !! n = Some (stage ap).

Lemma acknowledge_from ap n acks :
  behind ap n -> let (ap', l) := acknowledge ap acks in l = take (length l) (drop n milestones) /\ behind ap' (n + length l).
Proof.
  revert ap n. induction acks as [|e acks IH]; intros ap n Hb; cbn [acknowledge]; [by rewrite Nat.add_0_r|]. rewrite complete_stage_cases.
  unfold behind in Hb. destruct (eager_startup_complete ap) eqn:Ee; [by apply IH; unfold behind; rewrite Ee|].
  case_bool_decide as He; [|by apply IH; unfold behind; rewrite Ee]. subst e.
  assert (Hstep : forall ap', behind ap' (S n) -> let (ap1, l) := (let (ap1, l) := acknowledge ap' acks in (ap1, stage ap :: l)) in
    l = take (length l) (drop n milestones) /\ behind ap1 (n + length l)).
  { intros ap' Hb'. specialize (IH ap' (S n) Hb'). destruct (acknowledge ap' acks) as [ap1 l]. destruct IH as [Hl Hbl]. cbn [length].
    replace (n + S (length l))%nat with (S n + length l)%nat by lia. split; [|done]. rewrite (drop_S _ _ _ Hb). cbn [take]. by rewrite <- Hl. }
  destruct (next_stage (stage ap)) as [next|] eqn:En; apply Hstep; unfold behind; cbn; [rewrite Ee|];
    do 7 (destruct n as [|n]; [injection Hb as Hb; rewrite <- Hb in En; by simplify_eq/=|]); done.
Qed.

(** Startup goes in order.  Whatever milestones are acknowledged, in whatever
    order and however often, those accepted are a front part of the milestones in
    their order; queries are legal exactly when the first three were accepted,
    and until then a query is refused, takes no generation and leaves the answer
    as it is. *)
Theorem startup_in_order lim acks s raw_ now :
  (let (ap, l) := acknowledge (app_with_limits lim) acks in
   l = take (length l) milestones /\ (can_accept_queries ap = true <-> (3 <= length l)%nat)) /\
  (can_accept_queries (app s) = false ->
   submit_query_at s raw_ now = Some (s <| now_secs := now |>, Err (NotAcceptingQueries (stage (app s))))).
Proof.
  split.
  - pose proof (acknowledge_from (app_with_limits lim) 0 acks eq_refl) as Hk. destruct (acknowledge (app_with_limits lim) acks) as [ap l]. destruct Hk as [Hl Hb].
    split; [done|]. unfold behind in Hb. rewrite Nat.add_0_l in Hb. destruct (eager_startup_complete ap) eqn:Ee.
    + destruct Hb as [-> Hst]. unfold can_accept_queries. rewrite Hst. split; [intros _; lia | done].
    + unfold can_accept_queries. clear Hl. generalize (length l), Hb. clear. intros n Hb. do 7 (destruct n as [|n]; [injection Hb as <-; split; (done || lia)|]). done.
  - intros Hn. unfold submit_query_at. change (app (s <| now_secs := now |>)) with (app s). by rewrite Hn.
Qed.

End Claims.

(** * Witnesses *)

#[local] Existing Instance ascii_unicode.
#[local] Existing Instance ascii_laws.

(** A heap iterated as it is listed, and a cache that keeps slices in memory. *)
#[local] Instance listed_order : HeapOrder := fun l => l.

#[local] Instance memory_cache : CatalogCache unit (gmap PluginId CachedSlice) := {
  load_slice := fun d _ p => Ok (d !! p);
  store_slice := fun d _ slice => (<[slice_plugin slice := slice]> d, Ok ());
  invalidate_slice := fun d _ p => (delete p d, Ok ());
  cached_plugins := fun d _ => Ok (map fst (map_to_list d));
}.

Definition sample_items : list Item :=
  [plain_item "apps" "code" "Visual Studio Code"; plain_item "apps" "calc" "Calculator"; plain_item "apps" "cal" "Calendar"; plain_item "apps" "files" "Files"]%string.

Definition startup_ops : list (ServiceOp (H := unit)) := [OpStage WindowAndHotkey; OpStage PersistedCatalog; OpStage AcceptQueries].

(** Startup, a cache, a slice, blanks, and the first two letters of a word. *)
Definition sample_service_ops : list (ServiceOp (H := unit)) :=
  startup_ops ++ [OpCache (); OpReplace "apps" 1 sample_items; OpQuery (ascii "  ") 90; OpQuery (ascii "ca") 100].

Definition sample_service : SearchService (H := unit) (D := gmap PluginId CachedSlice) :=
  default (new_service new_app ∅) (service_run new_app ∅ sample_service_ops).

Lemma sample_app_ok : app_ok new_app.
Proof. split; [|split; done]. repeat split; cbn; unfold usize_max, u64_max; lia. Qed.

Lemma sample_service_ops_ok : Forall op_ok sample_service_ops.
Proof. repeat constructor; cbn [op_ok]; try (unfold in_range, u64_max; lia); apply valid_text_check; reflexivity. Qed.

Lemma sample_service_run : service_run new_app ∅ sample_service_ops = Some sample_service.
Proof. vm_compute. reflexivity. Qed.

Lemma sample_slices p : items (catalog sample_service) p = if String.eqb p "apps" then sample_items else [].
Proof.
  set (c := default empty_catalog (plugins (catalog sample_service) !! "apps"%string)).
  assert (E : plugins (catalog sample_service) = <["apps"%string := c]> ∅) by (vm_compute; reflexivity).
  unfold items. rewrite E. destruct (String.eqb_spec p "apps") as [->|Hne].
  - rewrite lookup_insert_eq. vm_compute. reflexivity.
  - by rewrite lookup_insert_ne.
Qed.

Lemma sample_searchable : searchable sample_service.
Proof.
  split.
  - intros p. rewrite sample_slices. destruct (String.eqb p "apps"); [|constructor].
    repeat constructor; try (vm_compute; discriminate); vm_compute; reflexivity.
  - intros p. rewrite sample_slices. destruct (String.eqb p "apps"); [|constructor]. repeat constructor; vm_compute; discriminate.
  - repeat constructor.
Qed.

Lemma answer_exact_witness :
  exists s', submit_query_at sample_service (ascii "cal") 200 = Some (s', Ok 3) /\ map (fun h => stable_id (hit_item h)) (results s') = ["cal"; "calc"]%string.
Proof.
  destruct (answer_exact (fun l => Permutation_refl l) new_app ∅ sample_service_ops sample_service (ascii "cal") 200) as (s' & E & Hr).
  - apply sample_app_ok.
  - apply sample_service_ops_ok.
  - apply sample_service_run.
  - apply sample_searchable.
  - right. reflexivity.
  - split; vm_compute; discriminate.
  - apply valid_text_check. reflexivity.
  - reflexivity.
  - reflexivity.
  - exists s'. split; [exact E|]. apply (f_equal (map (fun x => stable_id x.1))) in Hr. rewrite !map_map in Hr. etransitivity; [exact Hr | vm_compute; reflexivity].
Defined.

(** A match in the middle of a label, for an item used as often as can be counted. *)
Lemma non_prefix_bound_sound_witness :
  f32_le (score_match_with_signals true (plain_item "apps" "code" "Visual Studio Code")
            (mkSummary (S754_finite false 15729572 (-25)) Substring (Some 14)) (default_signals <| selection_frequency := u32_max |>))
    (non_prefix_upper_bound true (plain_item "apps" "code" "Visual Studio Code")) = true.
Proof.
  eapply (non_prefix_bound_sound true Strict (normalize (ascii "code")) (plain_item "apps" "code" "Visual Studio Code")).
  - vm_compute. split; discriminate.
  - vm_compute. reflexivity.
  - split; [split; vm_compute; discriminate | done | left; apply number_zero | left; apply number_zero].
  - vm_compute. reflexivity.
  - vm_compute. reflexivity.
  - vm_compute. reflexivity.
  - vm_compute. reflexivity.
Defined.

Lemma service_consistent_witness : len (results sample_service) <= 2000.
Proof.
  destruct (service_consistent (fun l => Permutation_refl l) new_app ∅ sample_service_ops sample_service) as (_ & _ & _ & _ & Hl & _).
  - apply sample_app_ok.
  - apply sample_service_ops_ok.
  - apply sample_service_run.
  - exact Hl.
Defined.

Lemma sample_current :
  last_query sample_service = Some (normalize (ascii "ca")) /\ GenerationTracker.is_current (generations (app sample_service)) 2 = true.
Proof. split; vm_compute; reflexivity. Qed.

Definition sample_batch : list Item := [plain_item "files" "cab" "cabinet"; plain_item "files" "zip" "archive"]%string.

Lemma merged_items_ranked_witness :
  exists s' merged, merge_query_items sample_service 2 "files" sample_batch = Some (s', true) /\ map hit_item merged `sublist_of` sample_batch.
Proof.
  pose proof (merged_items_ranked (fun l => Permutation_refl l) new_app ∅ sample_service_ops sample_service 2 "files" sample_batch
    sample_app_ok sample_service_ops_ok sample_service_run) as Hx.
  destruct sample_current as [E1 E2]. rewrite E1, E2 in Hx. destruct Hx as (merged & Hm & E). eexists _, merged. split; [exact E | apply Hm].
Defined.


(** A cached slice that is loaded, and then refused. *)
Definition cached_ops : list (ServiceOp (H := unit)) := startup_ops ++ [OpCache (); OpLoad ()].
Definition cached_storage : gmap PluginId CachedSlice := {["apps"%string := mkSlice "apps" 7 ZERO sample_items]}.
Definition cached_service : SearchService (H := unit) (D := gmap PluginId CachedSlice) :=
  default (new_service new_app ∅) (service_run new_app cached_storage cached_ops).

Lemma refused_persistence_withdraws_witness :
  exists s', set_catalog_persistence cached_service "apps" false = Some s' /\ items (catalog s') "apps" = [] /\ "apps"%string ∈ volatile s'.
Proof.
  destruct (refused_persistence_withdraws (fun l => Permutation_refl l) new_app cached_storage cached_ops cached_service "apps") as [(s' & E & Hv & _ & _ & Hc & _) _].
  - apply sample_app_ok.
  - repeat constructor.
  - vm_compute. reflexivity.
  - apply (bool_decide_eq_false_1 _). vm_compute. reflexivity.
  - exists s'. split; [exact E|]. split; [|exact Hv]. apply Hc, (bool_decide_eq_true_1 _). vm_compute. reflexivity.
Defined.

Lemma startup_in_order_witness :
  submit_query_at (new_service (H := unit) new_app (∅ : gmap PluginId CachedSlice)) (ascii "ca") 5
  = Some (new_service new_app ∅ <| now_secs := 5 |>, Err (NotAcceptingQueries WindowAndHotkey)).
Proof. apply (startup_in_order Aggregator.default_limits [] (new_service new_app ∅) (ascii "ca") 5). reflexivity. Defined.

(** * Blank queries *)

(** Blanks hide results.  The cache of positions is not kept for an empty
    query but is kept for a query of blanks alone, which matches nothing; a longer
    query that starts with the same blanks is then searched among no position at
    all.  After two blanks, typing a letter that every match of this catalog
    contains shows nothing, and the full search finds a match. *)
Theorem blank_query_hides_results :
  exists s s', service_run new_app (∅ : gmap PluginId CachedSlice) (startup_ops ++ [OpReplace "apps" 1 sample_items; OpQuery (ascii "  ") 100]) = Some s /\
    submit_query_at s (ascii "  f") 200 = Some (s', Ok 2) /\ results s' = [] /\
    map (fun c => stable_id (cand_item c)) (reference_answer (s <| now_secs := 200 |>) (asked s (ascii "  f"))) = ["files"]%string.
Proof.
  set (s := default (new_service new_app ∅) (service_run new_app (∅ : gmap PluginId CachedSlice) (startup_ops ++ [OpReplace "apps" 1 sample_items; OpQuery (ascii "  ") 100]))).
  exists s, (default s (fst <$> submit_query_at s (ascii "  f") 200)). split_and!; vm_compute; reflexivity.
Qed.

(** * Padded labels *)

(** One result per plugin. *)
Definition narrow_app : App := app_with_limits (mkResultLimits 50 1 2000 262144 1048576 1).

Definition hinted_item (id : ItemId) (label : string) (hint : Z) : Item :=
  mkItem id "apps" Application label "" "" [] None ArgForbidden HitRecorded hint [] []%string.

(** Both items are used often; the second has a blank before its label. *)
Definition padded_ops : list (ServiceOp (H := unit)) :=
  startup_ops ++
  [OpReplace "apps" 1 [hinted_item "files2" "Files2" 100000; hinted_item "files" " Files" (-100)]%string;
   OpRestore (mkHistorySnapshot [mkSelection "apps" "files2" 100000 (Some 200); mkSelection "apps" "files" 100000 (Some 200)]
                [mkAffinity "apps" "files2" "files" 100000; mkAffinity "apps" "files" "files" 100000])]%string.

(** A label that opens with a blank is missed by the prefix index and by the bound
    of what the index leaves out: a full quota of prefix matches hides the exact
    match, which scores higher. *)
Lemma padded_label_hidden :
  exists s s', service_run narrow_app (∅ : gmap PluginId CachedSlice) padded_ops = Some s /\
    submit_query_at s (ascii "files") 200 = Some (s', Ok 1) /\
    map (fun h => stable_id (hit_item h)) (results s') = ["files2"]%string /\
    map (fun c => stable_id (cand_item c)) (reference_answer (s <| now_secs := 200 |>) (asked s (ascii "files"))) = ["files"]%string.
Proof.
  set (s := default (new_service narrow_app ∅) (service_run narrow_app (∅ : gmap PluginId CachedSlice) padded_ops)).
  exists s, (default s (fst <$> submit_query_at s (ascii "files") 200)). split_and!; vm_compute; reflexivity.
Qed.
