(* ===== verification/Intake.v ===== *)
(** The inbound result queue: [crikey-result-aggregator/src/intake.rs].

    A bounded intake boundary between the plugin transports and a result
    aggregator: one queue per producer, lazy reclamation of obsolete batches,
    an overflow policy per producer, and a fair drain.  [None] is a panic: an
    [expect] that fails or an arithmetic overflow of a resident-work counter.
    The loops of the code ([while], [loop]) run on fuel, the number of entries
    of the queue they pop from. *)

From S2P Require Import Prelude Generation Items Aggregator.

(** * Data *)

Record QueueLimits := mkQueueLimits { limit_batches : Z; limit_items : Z }.

Inductive OverflowPolicy : Type := RejectLowPriority | PauseProducer | EvictOldest | Disconnect.
#[export] Instance OverflowPolicy_eq_dec : EqDecision OverflowPolicy.
Proof. solve_decision. Defined.

Record IntakePolicy := mkIntakePolicy {
  capacity_batches : Z;
  capacity_items : Z;
  pause_at_batches : Z;
  resume_at_batches : Z;
  overflow : OverflowPolicy;
}.
#[export] Instance eta_IntakePolicy : Eta IntakePolicy := fun r =>
  mkIntakePolicy (capacity_batches r) (capacity_items r) (pause_at_batches r)
    (resume_at_batches r) (overflow r).

Inductive BatchPriority : Type := High | Low.
#[export] Instance BatchPriority_eq_dec : EqDecision BatchPriority.
Proof. solve_decision. Defined.

Record InboundBatch := mkInbound { ib_batch : ResultBatch; ib_priority : BatchPriority }.

Inductive ProducerState : Type := Running | Paused | Disconnected.
#[export] Instance ProducerState_eq_dec : EqDecision ProducerState.
Proof. solve_decision. Defined.

Inductive QueueReject : Type :=
| Unregistered | QStaleGeneration | QStreamTerminated | LowPriorityShed | QueueFull | BoundaryFull
| QDisconnected.
#[export] Instance QueueReject_eq_dec : EqDecision QueueReject.
Proof. solve_decision. Defined.

Record QueueDepth := mkQueueDepth { depth_batches : Z; depth_items : Z; depth_obsolete : Z }.

Record DrainBudget := mkDrainBudget {
  batches_per_plugin : Z;
  items_per_plugin : Z;
  total_batches_budget : Z;
}.

Record MergedBatch := mkMergedBatch {
  merged_plugin : PluginId;
  merged_admitted_at : Z;
  merged_generation : Generation;
  merged_state : BatchState;
  merged_items : Z;
}.

Record DrainReport := mkDrainReport {
  report_merged : Z;
  report_batches : list MergedBatch;
  report_dropped : Z;
  report_rejected : list (PluginId * RejectReason);
}.
#[export] Instance eta_DrainReport : Eta DrainReport := fun r =>
  mkDrainReport (report_merged r) (report_batches r) (report_dropped r) (report_rejected r).

Inductive QueueEventKind : Type :=
| EventAdmitted (n : Z)
| Rejected (r : QueueReject)
| DroppedObsolete (batches n : Z)
| EvictedOldest (n : Z)
| Merged (n : Z)
| MergeRejected (r : RejectReason)
| ProducerPaused
| ProducerResumed.

Record QueueEvent := mkQueueEvent {
  event_at : Z;
  event_plugin : PluginId;
  event_generation : Generation;
  event_kind : QueueEventKind;
}.

Record QueueDiagnostics := mkQueueDiagnostics {
  admitted : Z;
  merged : Z;
  dropped_obsolete : Z;
  evicted_oldest : Z;
  rejected : list Z;
  merge_rejected : list Z;
  pauses : Z;
  resumes : Z;
  events_dropped : Z;
  peak_batches : Z;
  peak_items : Z;
  counters_saturated : bool;
}.
#[export] Instance eta_QueueDiagnostics : Eta QueueDiagnostics := fun r =>
  mkQueueDiagnostics (admitted r) (merged r) (dropped_obsolete r) (evicted_oldest r) (rejected r)
    (merge_rejected r) (pauses r) (resumes r) (events_dropped r) (peak_batches r) (peak_items r)
    (counters_saturated r).

Definition QUEUE_REJECT_COUNT : nat := 7.
Definition MERGE_REJECT_COUNT : nat := 6.

Definition default_queue_diagnostics : QueueDiagnostics :=
  {| admitted := 0; merged := 0; dropped_obsolete := 0; evicted_oldest := 0;
     rejected := replicate QUEUE_REJECT_COUNT 0; merge_rejected := replicate MERGE_REJECT_COUNT 0;
     pauses := 0; events_dropped := 0; resumes := 0; peak_batches := 0; peak_items := 0;
     counters_saturated := false |}.

Definition queue_reject_index (r : QueueReject) : nat :=
  match r with
  | Unregistered => 0
  | QStaleGeneration => 1
  | QStreamTerminated => 2
  | LowPriorityShed => 3
  | QueueFull => 4
  | BoundaryFull => 5
  | QDisconnected => 6
  end.

Definition merge_reject_index (r : RejectReason) : nat :=
  match r with
  | RejectStale => 0
  | QuotaExceeded => 1
  | PayloadTooLarge => 2
  | OwnerMismatch => 3
  | RejectTerminated => 4
  | PluginSuspended => 5
  end.

(** The two accessors that index the counter arrays. *)
Definition rejected_count (d : QueueDiagnostics) (r : QueueReject) : option Z :=
  rejected d !! queue_reject_index r.
Definition merge_rejected_count (d : QueueDiagnostics) (r : RejectReason) : option Z :=
  merge_rejected d !! merge_reject_index r.

(** [add_counter] on a counter and the shared saturation flag. *)
Definition add_counter (counter amount : Z) (saturated : bool) : Z * bool :=
  match checked_add usize_max counter amount with
  | None => (usize_max, true)
  | Some value => (value, saturated)
  end.

Definition add_to (field : QueueDiagnostics -> Z) `{!Update field} (amount : Z)
    (d : QueueDiagnostics) : QueueDiagnostics :=
  let (value, saturated) := add_counter (field d) amount (counters_saturated d) in
  d <| field := value |> <| counters_saturated := saturated |>.

(** [add_counter] on one slot of a counter array. *)
Definition add_to_slot (field : QueueDiagnostics -> list Z) `{!Update field} (slot : nat)
    (d : QueueDiagnostics) : QueueDiagnostics :=
  match field d !! slot with
  | None => d
  | Some c =>
      let (value, saturated) := add_counter c 1 (counters_saturated d) in
      d <| field ::= insert slot value |> <| counters_saturated := saturated |>
  end.

Record Entry := mkEntry { admitted_at_ms : Z; inbound : InboundBatch }.

Definition entry_generation (e : Entry) : Generation := batch_generation (ib_batch (inbound e)).
Definition entry_items (e : Entry) : Z := len (batch_items (ib_batch (inbound e))).

Record PluginQueue := mkPluginQueue {
  q_policy : IntakePolicy;
  entries : list Entry;
  q_items : Z;
  q_state : ProducerState;
  terminal_generation : option Generation;
}.
#[export] Instance eta_PluginQueue : Eta PluginQueue := fun r =>
  mkPluginQueue (q_policy r) (entries r) (q_items r) (q_state r) (terminal_generation r).

Definition new_plugin_queue (p : IntakePolicy) : PluginQueue :=
  {| q_policy := p; entries := []; q_items := 0; q_state := Running; terminal_generation := None |}.

Definition clamp (x low high : Z) : Z := if x <? low then low else if high <? x then high else x.

Definition normalize_intake (p : IntakePolicy) : IntakePolicy :=
  let p := p <| capacity_batches ::= fun n => Z.max n 1 |> in
  let p := p <| pause_at_batches ::= fun n => clamp n 1 (capacity_batches p) |> in
  p <| resume_at_batches ::= fun n => Z.min n (pause_at_batches p - 1) |>.

Definition exceeds (current additional limit : Z) : bool :=
  saturating_sub limit current <? additional.

(** * The boundary *)

Module InboundResultQueue.

Record InboundResultQueue := mk {
  limits : QueueLimits;
  retirement_floor : Generation;
  active : option Generation;
  plugins : gmap PluginId PluginQueue;
  order : list PluginId;
  drain_cursor : Z;
  total_batches : Z;
  total_items : Z;
  diagnostics : QueueDiagnostics;
  events : list QueueEvent;
}.
#[export] Instance eta_InboundResultQueue : Eta InboundResultQueue := fun r =>
  mk (limits r) (retirement_floor r) (active r) (plugins r) (order r) (drain_cursor r)
    (total_batches r) (total_items r) (diagnostics r) (events r).

Definition new (l : QueueLimits) : InboundResultQueue :=
  {| limits := l; retirement_floor := ZERO; active := None; plugins := ∅; order := [];
     drain_cursor := 0; total_batches := 0; total_items := 0;
     diagnostics := default_queue_diagnostics; events := [] |}.

Definition is_active (s : InboundResultQueue) (e : Entry) : bool :=
  bool_decide (active s = Some (entry_generation e)).

Definition register (s : InboundResultQueue) (plugin : PluginId) (p : IntakePolicy)
    : InboundResultQueue :=
  let p := normalize_intake p in
  match plugins s !! plugin with
  | Some q =>
      let depth := len (List.filter (is_active s) (entries q)) in
      let q := q <| q_policy := p |> in
      let connected := match q_state q with Disconnected => Running | state => state end in
      let state :=
        match connected with
        | Running => if pause_at_batches p <=? depth then Paused else Running
        | Paused => if depth <=? resume_at_batches p then Running else Paused
        | Disconnected => Disconnected
        end in
      s <| plugins ::= insert plugin (q <| q_state := state |>) |>
  | None =>
      s <| order ::= fun o => o ++ [plugin] |>
        <| plugins ::= insert plugin (new_plugin_queue p) |>
  end.

(** [iter().position(..)] of an identity. *)
Fixpoint index_of (p : PluginId) (l : list PluginId) : option nat :=
  match l with
  | [] => None
  | x :: l' => if String.eqb x p then Some 0%nat else S <$> index_of p l'
  end.

Definition unregister (s : InboundResultQueue) (plugin : PluginId) : InboundResultQueue * bool :=
  match plugins s !! plugin with
  | None => (s, false)
  | Some q =>
      let s := s <| plugins ::= delete plugin |> in
      let s := s <| total_batches ::= fun n => saturating_sub n (len (entries q)) |>
                 <| total_items ::= fun n => saturating_sub n (q_items q) |> in
      let s :=
        match index_of plugin (order s) with
        | None => s
        | Some removed =>
            let s := s <| order ::= delete removed |> in
            match order s with
            | [] => s <| drain_cursor := 0 |>
            | _ =>
                let s := if Z.of_nat removed <? drain_cursor s
                         then s <| drain_cursor ::= fun c => c - 1 |> else s in
                s <| drain_cursor ::= fun c => c mod len (order s) |>
            end
        end in
      (s <| events ::= List.filter (fun e => negb (String.eqb (event_plugin e) plugin)) |>, true)
  end.

Definition begin_generation (s : InboundResultQueue) (generation : Generation) : InboundResultQueue :=
  if generation <? retirement_floor s then s
  else if is_some_and (active s) (fun a => generation <=? a) then s
  else s <| active := Some generation |>.

Definition retire_before (s : InboundResultQueue) (generation : Generation) : InboundResultQueue :=
  if generation <=? retirement_floor s then s
  else
    let s := s <| retirement_floor := generation |> in
    if is_some_and (active s) (fun a => a <? generation) then s <| active := None |> else s.

Definition obsolete_batches (s : InboundResultQueue) (q : PluginQueue) : Z :=
  len (List.filter (fun e => negb (is_active s e)) (entries q)).

Definition depth (s : InboundResultQueue) : QueueDepth :=
  {| depth_batches := total_batches s; depth_items := total_items s;
     depth_obsolete := map_sum (obsolete_batches s) (plugins s) |}.

Definition plugin_depth (s : InboundResultQueue) (plugin : PluginId) : QueueDepth :=
  match plugins s !! plugin with
  | None => mkQueueDepth 0 0 0
  | Some q => mkQueueDepth (len (entries q)) (q_items q) (obsolete_batches s q)
  end.

Definition producer_state (s : InboundResultQueue) (plugin : PluginId) : option ProducerState :=
  q_state <$> plugins s !! plugin.

Definition take_events (s : InboundResultQueue) : InboundResultQueue * list QueueEvent :=
  (s <| events := [] |>, events s).

Definition push_event (s : InboundResultQueue) (e : QueueEvent) : InboundResultQueue :=
  let capacity := limit_batches (limits s) in
  if capacity =? 0 then s <| diagnostics ::= add_to events_dropped 1 |>
  else
    let s := if capacity <=? len (events s)
             then s <| events ::= tail |> <| diagnostics ::= add_to events_dropped 1 |> else s in
    s <| events ::= fun l => l ++ [e] |>.

Definition reject (s : InboundResultQueue) (at_ms : Z) (plugin : PluginId) (generation : Generation)
    (reason : QueueReject) : InboundResultQueue :=
  let s := s <| diagnostics ::= add_to_slot rejected (queue_reject_index reason) |> in
  push_event s (mkQueueEvent at_ms plugin generation (Rejected reason)).

Definition force_pause (s : InboundResultQueue) (at_ms : Z) (plugin : PluginId)
    (generation : Generation) : option InboundResultQueue :=
  q ← plugins s !! plugin;
  if negb (bool_decide (q_state q = Running)) then Some s
  else
    let s := s <| plugins ::= insert plugin (q <| q_state := Paused |>) |> in
    let s := s <| diagnostics ::= add_to pauses 1 |> in
    Some (push_event s (mkQueueEvent at_ms plugin generation ProducerPaused)).

Definition reconcile_producer (s : InboundResultQueue) (at_ms : Z) (plugin : PluginId)
    (generation : Generation) : option InboundResultQueue :=
  q ← plugins s !! plugin;
  let transition :=
    match q_state q with
    | Running => if pause_at_batches (q_policy q) <=? len (entries q) then Some Paused else None
    | Paused => if len (entries q) <=? resume_at_batches (q_policy q) then Some Running else None
    | Disconnected => None
    end in
  match transition with
  | None => Some s
  | Some state =>
      let s := s <| plugins ::= insert plugin (q <| q_state := state |>) |> in
      '(s, kind) ←
        match state with
        | Paused => Some (s <| diagnostics ::= add_to pauses 1 |>, ProducerPaused)
        | Running => Some (s <| diagnostics ::= add_to resumes 1 |>, ProducerResumed)
        | Disconnected => None
        end;
      Some (push_event s (mkQueueEvent at_ms plugin generation kind))
  end.

(** * Removing the front entry *)

(** [pop_front] with the bookkeeping that follows it everywhere in the code:
    the queue's and the boundary's counters go down by what was removed. *)
Definition pop_entry (s : InboundResultQueue) (plugin : PluginId)
    : option (InboundResultQueue * Entry) :=
  q ← plugins s !! plugin;
  match entries q with
  | [] => None
  | e :: rest =>
      n ← checked_sub (q_items q) (entry_items e);
      let s := s <| plugins ::= insert plugin (q <| entries := rest |> <| q_items := n |>) |> in
      tb ← checked_sub (total_batches s) 1;
      ti ← checked_sub (total_items s) (entry_items e);
      Some (s <| total_batches := tb |> <| total_items := ti |>, e)
  end.

(** Consecutive drops of one plugin and generation share a record. *)
Definition DropRecord : Type := PluginId * Generation * Z * Z.

Definition add_record (records : list DropRecord) (plugin : PluginId) (generation : Generation)
    (n : Z) : list DropRecord :=
  match last records with
  | Some (p, g, batches, items) =>
      if String.eqb p plugin && (g =? generation)
      then removelast records ++ [(p, g, batches + 1, items + n)]
      else records ++ [(plugin, generation, 1, n)]
  | None => records ++ [(plugin, generation, 1, n)]
  end.

Fixpoint reclaim_queue (fuel : nat) (s : InboundResultQueue) (plugin : PluginId)
    (records : list DropRecord) (dropped : Z)
    : option (InboundResultQueue * list DropRecord * Z) :=
  match fuel with
  | O => Some (s, records, dropped)
  | S fuel' =>
      let obsolete := is_some_and (plugins s !! plugin ≫= fun q => head (entries q))
                        (fun e => negb (is_active s e)) in
      if negb obsolete then Some (s, records, dropped)
      else
        '(s, e) ← pop_entry s plugin;
        reclaim_queue fuel' s plugin (add_record records plugin (entry_generation e) (entry_items e))
          (dropped + 1)
  end.

Definition queue_length (s : InboundResultQueue) (plugin : PluginId) : nat :=
  map_or (plugins s !! plugin) 0%nat (fun q => length (entries q)).

Fixpoint reclaim_queues (s : InboundResultQueue) (l : list PluginId) (records : list DropRecord)
    (dropped : Z) : option (InboundResultQueue * list DropRecord * Z) :=
  match l with
  | [] => Some (s, records, dropped)
  | plugin :: l' =>
      '(s, records, dropped) ← reclaim_queue (S (queue_length s plugin)) s plugin records dropped;
      reclaim_queues s l' records dropped
  end.

Definition reclaim_obsolete (s : InboundResultQueue) (at_ms : Z) : option (InboundResultQueue * Z) :=
  '(s, records, dropped) ← reclaim_queues s (order s) [] 0;
  let s := s <| diagnostics ::= add_to dropped_obsolete dropped |> in
  let s := foldl (fun s '(plugin, generation, batches, items) =>
    push_event s (mkQueueEvent at_ms plugin generation (DroppedObsolete batches items))) s records in
  Some (s, dropped).

(** * Admission *)

Definition capacity_violations (s : InboundResultQueue) (plugin : PluginId) (item_count : Z)
    : option (bool * bool) :=
  q ← plugins s !! plugin;
  let plugin_full := exceeds (len (entries q)) 1 (capacity_batches (q_policy q))
                     || exceeds (q_items q) item_count (capacity_items (q_policy q)) in
  let boundary_full := exceeds (total_batches s) 1 (limit_batches (limits s))
                       || exceeds (total_items s) item_count (limit_items (limits s)) in
  Some (plugin_full, boundary_full).

Definition low_at_watermark (q : PluginQueue) (i : InboundBatch) : bool :=
  bool_decide (overflow (q_policy q) = RejectLowPriority)
  && bool_decide (ib_priority i = Low)
  && (pause_at_batches (q_policy q) <=? len (entries q)).

Definition admission_needs_reclamation (s : InboundResultQueue) (plugin : PluginId)
    (i : InboundBatch) : option bool :=
  q ← plugins s !! plugin;
  '(plugin_full, boundary_full) ← capacity_violations s plugin (len (batch_items (ib_batch i)));
  Some (low_at_watermark q i || plugin_full || boundary_full).

Definition replacement_preflight (s : InboundResultQueue) (plugin : PluginId) (item_count : Z)
    : option (result unit QueueReject) :=
  q ← plugins s !! plugin;
  if exceeds 0 1 (capacity_batches (q_policy q)) || exceeds 0 item_count (capacity_items (q_policy q))
  then Some (Err QueueFull)
  else
    other_batches ← checked_sub (total_batches s) (len (entries q));
    other_items ← checked_sub (total_items s) (q_items q);
    if exceeds other_batches 1 (limit_batches (limits s))
       || exceeds other_items item_count (limit_items (limits s))
    then Some (Err BoundaryFull) else Some (Ok tt).

Definition evict_oldest (s : InboundResultQueue) (at_ms : Z) (plugin : PluginId)
    : option InboundResultQueue :=
  '(s, e) ← pop_entry s plugin;
  let s := s <| diagnostics ::= add_to evicted_oldest 1 |> in
  Some (push_event s (mkQueueEvent at_ms plugin (entry_generation e) (EvictedOldest (entry_items e)))).

(** The [while] loop that makes room; running out of fuel is a loop that has
    not ended. *)
Fixpoint evict_until_room (fuel : nat) (s : InboundResultQueue) (at_ms : Z) (plugin : PluginId)
    (item_count : Z) : option InboundResultQueue :=
  '(plugin_full, all_full) ← capacity_violations s plugin item_count;
  if negb (plugin_full || all_full) then Some s
  else
    match fuel with
    | O => None
    | S fuel' => s ← evict_oldest s at_ms plugin; evict_until_room fuel' s at_ms plugin item_count
    end.

(** The successful end of [submit]: the batch joins its queue. *)
Definition admit_batch (s : InboundResultQueue) (at_ms : Z) (i : InboundBatch)
    : option (InboundResultQueue * result ProducerState QueueReject) :=
  let plugin := batch_plugin (ib_batch i) in
  let generation := batch_generation (ib_batch i) in
  let item_count := len (batch_items (ib_batch i)) in
  q ← plugins s !! plugin;
  n ← checked_add usize_max (q_items q) item_count;
  let q := q <| q_items := n |> in
  let q := if is_terminal (batch_state (ib_batch i))
           then q <| terminal_generation := Some generation |> else q in
  let q := q <| entries ::= fun l => l ++ [mkEntry at_ms i] |> in
  let s := s <| plugins ::= insert plugin q |> in
  tb ← checked_add usize_max (total_batches s) 1;
  ti ← checked_add usize_max (total_items s) item_count;
  let s := s <| total_batches := tb |> <| total_items := ti |> in
  let s := s <| diagnostics ::= add_to admitted 1 |> in
  let s := s <| diagnostics ::= fun d => d <| peak_batches ::= fun n => Z.max n tb |>
                                           <| peak_items ::= fun n => Z.max n ti |> |> in
  let s := push_event s (mkQueueEvent at_ms plugin generation (EventAdmitted item_count)) in
  s ← reconcile_producer s at_ms plugin generation;
  q ← plugins s !! plugin;
  Some (s, Ok (q_state q)).

Definition submit (s : InboundResultQueue) (at_ms : Z) (i : InboundBatch)
    : option (InboundResultQueue * result ProducerState QueueReject) :=
  let plugin := batch_plugin (ib_batch i) in
  let generation := batch_generation (ib_batch i) in
  let item_count := len (batch_items (ib_batch i)) in
  let refuse s reason := (reject s at_ms plugin generation reason, Err reason) in
  match plugins s !! plugin with
  | None => Some (refuse s Unregistered)
  | Some q =>
      if negb (bool_decide (active s = Some generation)) then Some (refuse s QStaleGeneration)
      else if bool_decide (q_state q = Disconnected) then Some (refuse s QDisconnected)
      else if bool_decide (terminal_generation q = Some generation)
      then Some (refuse s QStreamTerminated)
      else
        needs ← admission_needs_reclamation s plugin i;
        s ← (match needs with true => fst <$> reclaim_obsolete s at_ms | false => Some s end);
        q ← plugins s !! plugin;
        if low_at_watermark q i then Some (refuse s LowPriorityShed)
        else
          '(plugin_full, boundary_full) ← capacity_violations s plugin item_count;
          if plugin_full || boundary_full then
            let reason := if plugin_full then QueueFull else BoundaryFull in
            match overflow (q_policy q) with
            | EvictOldest =>
                preflight ← replacement_preflight s plugin item_count;
                match preflight with
                | Err reason => Some (refuse s reason)
                | Ok _ =>
                    s ← evict_until_room (length (entries q)) s at_ms plugin item_count;
                    admit_batch s at_ms i
                end
            | Disconnect =>
                let s := s <| plugins ::= insert plugin (q <| q_state := Disconnected |>) |> in
                Some (refuse s QDisconnected)
            | PauseProducer =>
                let s := reject s at_ms plugin generation reason in
                s ← force_pause s at_ms plugin generation;
                Some (s, Err reason)
            | RejectLowPriority => Some (refuse s reason)
            end
          else admit_batch s at_ms i
  end.

(** * Draining *)

Section Drain.

Context {A : Type} `{!ResultAggregator A}.

(** What the passes of a drain carry along. *)
Record DrainState := mkDrain {
  d_queue : InboundResultQueue;
  d_agg : A;
  d_report : DrainReport;
  d_total : Z;
  d_last : option Z;
}.

(** One entry handed to the aggregator. *)
Definition hand_over (d : DrainState) (at_ms : Z) (plugin : PluginId) (index : Z)
    : option (DrainState * Z) :=
  '(s, e) ← pop_entry (d_queue d) plugin;
  let b := ib_batch (inbound e) in
  let n := entry_items e in
  let generation := batch_generation b in
  match accept (d_agg d) b with
  | (agg, Ok _) =>
      let report := d_report d <| report_merged ::= fun m => m + 1 |>
        <| report_batches ::= fun l =>
             l ++ [mkMergedBatch plugin (admitted_at_ms e) generation (batch_state b) n] |> in
      let s := s <| diagnostics ::= add_to merged 1 |> in
      let s := push_event s (mkQueueEvent at_ms plugin generation (Merged n)) in
      Some (mkDrain s agg report (d_total d + 1) (Some index), n)
  | (agg, Err reason) =>
      s ← (if is_terminal (batch_state b) then
             q ← plugins s !! plugin;
             Some (if bool_decide (terminal_generation q = Some generation)
                   then s <| plugins ::= insert plugin (q <| terminal_generation := None |>) |>
                   else s)
           else Some s);
      let report := d_report d <| report_rejected ::= fun l => l ++ [(plugin, reason)] |> in
      let s := s <| diagnostics ::= add_to_slot merge_rejected (merge_reject_index reason) |> in
      let s := push_event s (mkQueueEvent at_ms plugin generation (MergeRejected reason)) in
      Some (mkDrain s agg report (d_total d + 1) (Some index), n)
  end.

Fixpoint drain_plugin (fuel : nat) (d : DrainState) (at_ms : Z) (plugin : PluginId) (index : Z)
    (budget : DrainBudget) (plugin_handled plugin_items : Z) : option DrainState :=
  match fuel with
  | O => Some d
  | S fuel' =>
      if (total_batches_budget budget <=? d_total d) || (batches_per_plugin budget <=? plugin_handled)
      then Some d
      else
        match (plugins (d_queue d) !! plugin ≫= fun q => head (entries q)) with
        | None => Some d
        | Some e =>
            if (0 <? plugin_handled)
               && (saturating_sub (items_per_plugin budget) plugin_items <? entry_items e)
            then Some d
            else
              '(d, n) ← hand_over d at_ms plugin index;
              drain_plugin fuel' d at_ms plugin index budget (plugin_handled + 1)
                (saturating_add usize_max plugin_items n)
        end
  end.

Fixpoint drain_round (offsets : list nat) (order : list PluginId) (start : Z) (d : DrainState)
    (at_ms : Z) (budget : DrainBudget) : option DrainState :=
  match offsets with
  | [] => Some d
  | offset :: offsets' =>
      if total_batches_budget budget <=? d_total d then Some d
      else
        let index := (start + Z.of_nat offset) mod len order in
        plugin ← order !! Z.to_nat index;
        d ← drain_plugin (S (queue_length (d_queue d) plugin)) d at_ms plugin index budget 0 0;
        drain_round offsets' order start d at_ms budget
  end.

Fixpoint reconcile_all (s : InboundResultQueue) (at_ms : Z) (generation : Generation)
    (l : list PluginId) : option InboundResultQueue :=
  match l with
  | [] => Some s
  | plugin :: l' => s ← reconcile_producer s at_ms plugin generation; reconcile_all s at_ms generation l'
  end.

Definition drain_into (s : InboundResultQueue) (at_ms : Z) (agg : A) (budget : DrainBudget)
    : option (InboundResultQueue * A * DrainReport) :=
  '(s, dropped) ← reclaim_obsolete s at_ms;
  let report := mkDrainReport 0 [] dropped [] in
  let plugin_count := len (order s) in
  if plugin_count =? 0 then Some (s, agg, report)
  else
    let start := drain_cursor s mod plugin_count in
    d ← drain_round (seq 0 (length (order s))) (order s) start (mkDrain s agg report 0 None) at_ms budget;
    let s := d_queue d in
    let s :=
      match d_last d with
      | Some index =>
          s <| drain_cursor := if total_batches_budget budget <=? d_total d
                               then (index + 1) mod plugin_count else (start + 1) mod plugin_count |>
      | None =>
          if 0 <? total_batches_budget budget
          then s <| drain_cursor := (start + 1) mod plugin_count |> else s
      end in
    let generation := default (retirement_floor s) (active s) in
    s ← reconcile_all s at_ms generation (order s);
    Some (s, d_agg d, d_report d).

End Drain.

End InboundResultQueue.
