(* ===== verification/IntakeInv.v ===== *)
(** The intake boundary's invariant and the operations that preserve it.

    Events and diagnostics are reporting only: [qsim] identifies states up to
    them.  The invariant ties the resident-work counters to the queues, keeps
    each queue in generation order, so that obsolete batches form a prefix, and
    bounds the boundary as a whole. *)

From S2P Require Import Prelude Generation Items Aggregator Intake.
Import InboundResultQueue.

(** * States up to reporting *)

Record qsim (s s' : InboundResultQueue) : Prop := {
  qs_limits : limits s = limits s';
  qs_floor : retirement_floor s = retirement_floor s';
  qs_active : active s = active s';
  qs_plugins : plugins s = plugins s';
  qs_order : order s = order s';
  qs_cursor : drain_cursor s = drain_cursor s';
  qs_batches : total_batches s = total_batches s';
  qs_items : total_items s = total_items s';
}.

#[export] Instance qsim_equivalence : Equivalence qsim.
Proof.
  split.
  - intros s. by split.
  - intros s s' []. by split.
  - intros s1 s2 s3 [] []. split; by etrans.
Qed.

Definition sum_items (l : list Entry) : Z := foldr (fun e n => entry_items e + n) 0 l.

(** What every producer's queue satisfies.  [newest] bounds the generations
    of its entries. *)
Record pq_inv (newest : Z) (p : PluginId) (q : PluginQueue) : Prop := {
  pq_policy : 1 <= pause_at_batches (q_policy q) <= capacity_batches (q_policy q) /\
              resume_at_batches (q_policy q) < pause_at_batches (q_policy q);
  pq_items : q_items q = sum_items (entries q);
  pq_sorted : StronglySorted Z.le (map entry_generation (entries q));
  pq_newest : Forall (fun e => entry_generation e <= newest) (entries q);
  pq_owner : Forall (fun e => batch_plugin (ib_batch (inbound e)) = p) (entries q);
}.

(** The newest generation resident work can have. *)
Definition newest (s : InboundResultQueue) : Z := default (retirement_floor s - 1) (active s).

Record boundary_inv (s : InboundResultQueue) : Prop := {
  bi_limits : in_range usize_max (limit_batches (limits s)) /\ in_range usize_max (limit_items (limits s));
  bi_nodup : NoDup (order s);
  bi_dom : forall p, p ∈ order s <-> is_Some (plugins s !! p);
  bi_queues : map_Forall (pq_inv (newest s)) (plugins s);
  bi_batches : total_batches s = map_sum (fun q => len (entries q)) (plugins s);
  bi_items : total_items s = map_sum q_items (plugins s);
  bi_bound : total_batches s <= limit_batches (limits s) /\ total_items s <= limit_items (limits s);
  bi_active : match active s with Some g => retirement_floor s <= g | None => True end;
  bi_cursor : 0 <= drain_cursor s;
}.

Lemma boundary_inv_qsim s s' : qsim s s' -> boundary_inv s -> boundary_inv s'.
Proof.
  intros [Hl Hf Ha Hp Ho Hc Hb Hi] []. unfold newest in *.
  split; unfold newest; rewrite <- ?Hl, <- ?Hf, <- ?Ha, <- ?Hp, <- ?Ho, <- ?Hc, <- ?Hb, <- ?Hi; done.
Qed.

#[export] Instance boundary_inv_proper : Proper (qsim ==> iff) boundary_inv.
Proof. intros s s' Hs. split; apply boundary_inv_qsim; [done | by symmetry]. Qed.

(** The recent-event ring. *)
Definition events_inv (s : InboundResultQueue) : Prop := len (events s) <= limit_batches (limits s).

Definition qinv (s : InboundResultQueue) : Prop := boundary_inv s /\ events_inv s.

(** * Reporting *)

Lemma diagnostics_qsim f s : qsim (s <| diagnostics ::= f |>) s.
Proof. by split. Qed.

Lemma push_event_qsim s e : qsim (push_event s e) s.
Proof. unfold push_event. repeat case_match; by split. Qed.

Lemma reject_qsim s at_ms p g r : qsim (reject s at_ms p g r) s.
Proof. unfold reject. by rewrite push_event_qsim. Qed.

Lemma push_event_events s e :
  0 <= limit_batches (limits s) -> events_inv s -> events_inv (push_event s e).
Proof.
  unfold events_inv, push_event. intros Hl He. destruct (Z.eqb_spec (limit_batches (limits s)) 0); [done|].
  destruct (Z.leb_spec (limit_batches (limits s)) (len (events s))); cbn; rewrite len_snoc; [|lia].
  rewrite len_tail; [lia|]. intros E. rewrite E, len_nil in *. lia.
Qed.

Lemma qinv_push s e : qinv s -> qinv (push_event s e).
Proof.
  intros [Hb He]. split; [by rewrite push_event_qsim|]. apply push_event_events; [apply Hb | done].
Qed.

Lemma qinv_diagnostics f s : qinv s -> qinv (s <| diagnostics ::= f |>).
Proof. intros [Hb He]. split; [by rewrite diagnostics_qsim | done]. Qed.

Lemma qinv_reject s at_ms p g r : qinv s -> qinv (reject s at_ms p g r).
Proof. intros H. by apply qinv_push, qinv_diagnostics. Qed.

(** * One queue replaced *)

Lemma sum_items_nonneg l : 0 <= sum_items l.
Proof. apply foldr_nonneg. intros e. apply len_nonneg. Qed.

Lemma entry_items_nonneg e : 0 <= entry_items e.
Proof. apply len_nonneg. Qed.

Lemma sum_items_cons e l : sum_items (e :: l) = entry_items e + sum_items l.
Proof. done. Qed.

Lemma sum_items_app l k : sum_items (l ++ k) = sum_items l + sum_items k.
Proof. apply foldr_sum_app. Qed.

Definition set_queue (p : PluginId) (q : PluginQueue) (s : InboundResultQueue) : InboundResultQueue :=
  s <| plugins ::= insert p q |>.

(** The queue and the counters change together. *)
Lemma set_queue_inv s p q q' tb ti :
  boundary_inv s -> plugins s !! p = Some q -> pq_inv (newest s) p q' ->
  tb = total_batches s - len (entries q) + len (entries q') ->
  ti = total_items s - q_items q + q_items q' ->
  tb <= limit_batches (limits s) -> ti <= limit_items (limits s) ->
  boundary_inv (set_queue p q' s <| total_batches := tb |> <| total_items := ti |>).
Proof.
  intros [] Hp Hq Htb Hti H1 H2. split; try done.
  - intros r. cbn. rewrite lookup_insert. case_decide; [subst|done]. rewrite bi_dom0, Hp. by split.
  - cbn. by apply map_Forall_insert_2.
  - cbn. rewrite (map_sum_insert _ _ _ _ _ Hp). lia.
  - cbn. rewrite (map_sum_insert _ _ _ _ _ Hp). lia.
Qed.

(** The common case: only the producer's state changes. *)
Lemma set_queue_same s p q q' :
  boundary_inv s -> plugins s !! p = Some q -> pq_inv (newest s) p q' ->
  entries q' = entries q -> boundary_inv (set_queue p q' s).
Proof.
  intros Hi Hp Hq He. pose proof (bi_bound _ Hi) as [H1 H2].
  pose proof (set_queue_inv s p q q' (total_batches s) (total_items s) Hi Hp Hq) as H.
  assert (E : q_items q' = q_items q).
  { rewrite (pq_items _ _ _ Hq), (pq_items _ _ _ (bi_queues _ Hi p q Hp)). by rewrite He. }
  rewrite He, E in H. specialize (H ltac:(lia) ltac:(lia) H1 H2). revert H. by apply boundary_inv_qsim.
Qed.

Lemma qinv_set_queue s p q q' :
  qinv s -> plugins s !! p = Some q -> entries q' = entries q -> q_items q' = q_items q ->
  q_policy q' = q_policy q -> qinv (set_queue p q' s).
Proof.
  intros [Hb He] Hp H1 H2 H3. split; [|done]. eapply set_queue_same; eauto.
  destruct (bi_queues _ Hb p q Hp). split; rewrite ?H1, ?H2, ?H3; done.
Qed.

(** * Popping and reclaiming *)

(** A queue without its front entry. *)
Definition popped (q : PluginQueue) : PluginQueue :=
  match entries q with
  | [] => q
  | e :: rest => q <| entries := rest |> <| q_items ::= fun n => n - entry_items e |>
  end.

Lemma pq_inv_popped g p q : pq_inv g p q -> pq_inv g p (popped q).
Proof.
  intros [Hp Hi Hs Hn Ho]. unfold popped. destruct (entries q) as [|e rest] eqn:E; [split; rewrite ?E; done|].
  apply Forall_cons in Hn as [_ Hn]. apply Forall_cons in Ho as [_ Ho]. cbn in Hs, Hi.
  apply StronglySorted_inv in Hs as [Hs _]. split; cbn; try done. rewrite Hi. unfold sum_items. lia.
Qed.

Lemma queue_counts s p q :
  boundary_inv s -> plugins s !! p = Some q ->
  0 <= q_items q <= total_items s /\ len (entries q) <= total_batches s.
Proof.
  intros Hi Hp. rewrite (bi_items _ Hi), (bi_batches _ Hi). split; [split|].
  - rewrite (pq_items _ _ _ (bi_queues _ Hi p q Hp)). apply sum_items_nonneg.
  - rewrite (map_sum_ext q_items (fun q => Z.max 0 (q_items q))).
    + rewrite <- (Z.max_r 0 (q_items q)) at 1; [|rewrite (pq_items _ _ _ (bi_queues _ Hi p q Hp)); apply sum_items_nonneg].
      apply (map_sum_lookup_le (fun q => Z.max 0 (q_items q)) _ p q); [lia | done].
    + intros r q' Hq'. rewrite (pq_items _ _ _ (bi_queues _ Hi r q' Hq')).
      pose proof (sum_items_nonneg (entries q')). lia.
  - apply (map_sum_lookup_le (fun q => len (entries q)) _ p q); [intros; apply len_nonneg | done].
Qed.

Lemma pop_entry_spec s p q e rest :
  boundary_inv s -> plugins s !! p = Some q -> entries q = e :: rest ->
  exists s', pop_entry s p = Some (s', e) /\ boundary_inv s' /\
    s' = set_queue p (popped q) s <| total_batches ::= fun n => n - 1 |>
           <| total_items ::= fun n => n - entry_items e |>.
Proof.
  intros Hi Hp He. pose proof (bi_queues _ Hi p q Hp) as Hq. destruct (queue_counts s p q Hi Hp) as [Hqi Htb].
  assert (Hle : 0 <= entry_items e <= q_items q).
  { rewrite (pq_items _ _ _ Hq), He, sum_items_cons. pose proof (sum_items_nonneg rest).
    pose proof (entry_items_nonneg e). lia. }
  rewrite He, len_cons in Htb. pose proof (len_nonneg rest).
  unfold pop_entry. rewrite Hp. cbn [mbind option_bind]. rewrite He.
  rewrite (checked_sub_le (q_items q)) by lia. cbn [mbind option_bind].
  change (total_batches (s <| plugins ::= _ |>)) with (total_batches s).
  change (total_items (s <| plugins ::= _ |>)) with (total_items s).
  rewrite !checked_sub_le by lia. cbn [mbind option_bind].
  assert (Hpop : popped q = q <| entries := rest |> <| q_items := q_items q - entry_items e |>)
    by (unfold popped; by rewrite He).
  eexists. split; [done|]. rewrite <- Hpop. split; [|by destruct s].
  pose proof (bi_bound _ Hi) as [? ?].
  eapply (set_queue_inv s p q (popped q)); eauto using pq_inv_popped; rewrite ?Hpop; cbn; rewrite ?He, ?len_cons; lia.
Qed.

(** The entries left once the obsolete prefix is gone. *)
Fixpoint drop_obsolete (s : InboundResultQueue) (l : list Entry) : list Entry :=
  match l with
  | [] => []
  | e :: l' => if is_active s e then l else drop_obsolete s l'
  end.

Definition kept (s : InboundResultQueue) (q : PluginQueue) : PluginQueue :=
  q <| entries ::= drop_obsolete s |> <| q_items := sum_items (drop_obsolete s (entries q)) |>.

Lemma is_active_same s s' e : active s = active s' -> is_active s e = is_active s' e.
Proof. intros H. unfold is_active. by rewrite H. Qed.

Lemma drop_obsolete_same s s' l : active s = active s' -> drop_obsolete s l = drop_obsolete s' l.
Proof. intros H. induction l as [|e l IH]; cbn; [done|]. by rewrite (is_active_same s s'), IH. Qed.

(** What no step of a reclamation touches. *)
Record same_frame (s s' : InboundResultQueue) : Prop := {
  sf_limits : limits s' = limits s;
  sf_floor : retirement_floor s' = retirement_floor s;
  sf_active : active s' = active s;
  sf_order : order s' = order s;
  sf_cursor : drain_cursor s' = drain_cursor s;
  sf_events : events s' = events s;
}.

Lemma kept_id s q : drop_obsolete s (entries q) = entries q -> q_items q = sum_items (entries q) -> kept s q = q.
Proof. intros H1 H2. unfold kept, update. rewrite H1, <- H2. by destruct q. Qed.

Lemma kept_popped s q e rest :
  entries q = e :: rest -> is_active s e = false -> kept s (popped q) = kept s q.
Proof. intros He Ha. unfold kept, popped, update. rewrite He. cbn. by rewrite Ha. Qed.

Lemma reclaim_queue_spec fuel s p q records dropped :
  boundary_inv s -> plugins s !! p = Some q -> (length (entries q) < fuel)%nat ->
  exists s' records' dropped', reclaim_queue fuel s p records dropped = Some (s', records', dropped') /\
    boundary_inv s' /\ same_frame s s' /\ plugins s' = <[p := kept s q]> (plugins s).
Proof.
  revert s q records dropped. induction fuel as [|fuel IH]; intros s q records dropped Hi Hp Hf; [lia|].
  cbn [reclaim_queue]. rewrite Hp. cbn [mbind option_bind].
  pose proof (pq_items _ _ _ (bi_queues _ Hi p q Hp)) as Hqi.
  destruct (entries q) as [|e rest] eqn:He.
  { cbn. do 3 eexists. split; [done|]. split_and!; [done | by split|].
    rewrite kept_id by (rewrite ?He; done). by rewrite insert_id. }
  cbn. destruct (is_active s e) eqn:Ea; cbn.
  { do 3 eexists. split; [done|]. split_and!; [done | by split|].
    rewrite kept_id by (rewrite ?He; cbn; rewrite ?Ea; done). by rewrite insert_id. }
  destruct (pop_entry_spec s p q e rest Hi Hp He) as (s1 & E1 & Hi1 & Hs1). rewrite E1. cbn.
  assert (Hp1 : plugins s1 !! p = Some (popped q)) by (rewrite Hs1; cbn; apply lookup_insert_eq).
  assert (Hlen : (length (entries (popped q)) < fuel)%nat).
  { unfold popped. rewrite He. cbn. cbn in Hf. lia. }
  destruct (IH s1 (popped q) (add_record records p (entry_generation e) (entry_items e)) (dropped + 1) Hi1 Hp1 Hlen)
    as (s' & r' & d' & E & Hi' & [] & Hpl).
  exists s', r', d'. split; [done|]. split_and!; [done | by split; subst s1|].
  rewrite Hpl, Hs1. cbn. rewrite insert_insert_eq. f_equal.
  rewrite <- (kept_popped s q e rest He Ea). unfold kept, update. by rewrite (drop_obsolete_same _ s).
Qed.

Lemma same_frame_trans s1 s2 s3 : same_frame s1 s2 -> same_frame s2 s3 -> same_frame s1 s3.
Proof. intros [] []. split; congruence. Qed.

Lemma reclaim_queues_spec s L records dropped :
  boundary_inv s -> NoDup L -> (forall p, p ∈ L -> is_Some (plugins s !! p)) ->
  exists s' records' dropped', reclaim_queues s L records dropped = Some (s', records', dropped') /\
    boundary_inv s' /\ same_frame s s' /\
    forall p, plugins s' !! p = if bool_decide (p ∈ L) then kept s <$> plugins s !! p else plugins s !! p.
Proof.
  revert s records dropped. induction L as [|p L IH]; intros s records dropped Hi Hnd Hreg.
  { do 3 eexists. split; [done|]. split_and!; [done | by split | done]. }
  apply NoDup_cons in Hnd as [Hn Hnd]. destruct (Hreg p) as [q Hp]; [by left|].
  destruct (reclaim_queue_spec (S (queue_length s p)) s p q records dropped Hi Hp) as (s1 & r1 & d1 & E1 & Hi1 & Hf1 & Hp1).
  { unfold queue_length. rewrite Hp. cbn. lia. }
  cbn [reclaim_queues]. rewrite E1. cbn [mbind option_bind].
  destruct (IH s1 r1 d1 Hi1 Hnd) as (s' & r' & d' & E & Hi' & Hf' & Hall).
  { intros p' Hp'. rewrite Hp1, lookup_insert. case_decide; [eauto | apply Hreg; by right]. }
  exists s', r', d'. split; [done|]. split_and!; [done | by eapply same_frame_trans|].
  intros p'. rewrite Hall, Hp1, lookup_insert. destruct (decide (p = p')) as [<- | Hne].
  - rewrite bool_decide_eq_false_2, bool_decide_eq_true_2 by (done || by left). by rewrite Hp.
  - destruct (decide (p' ∈ L)).
    + rewrite !bool_decide_eq_true_2 by (done || by right).
      destruct (plugins s !! p'); cbn; [|done]. f_equal. unfold kept, update.
      by rewrite (drop_obsolete_same s1 s) by apply Hf1.
    + rewrite !bool_decide_eq_false_2; [done | by intros [-> | ?]%elem_of_cons | done].
Qed.

Lemma drop_obsolete_filter s l :
  StronglySorted Z.le (map entry_generation l) -> Forall (fun e => entry_generation e <= newest s) l ->
  drop_obsolete s l = List.filter (is_active s) l.
Proof.
  induction l as [|e l IH]; intros Hs Hn; [done|]. cbn in Hs |- *.
  apply StronglySorted_inv in Hs as [Hs Hle]. apply Forall_cons in Hn as [He Hn].
  destruct (is_active s e) eqn:Ea; [|by apply IH]. f_equal. symmetry. apply forallb_filter_id.
  apply forallb_forall. intros e' Hin. apply list_elem_of_In in Hin. unfold is_active in *.
  apply bool_decide_eq_true in Ea. unfold newest in Hn. rewrite Ea in Hn |- *. cbn in Hn.
  rewrite Forall_forall in Hn. specialize (Hn e' Hin).
  rewrite Forall_forall in Hle. specialize (Hle (entry_generation e') ltac:(by apply list_elem_of_fmap_2)). apply bool_decide_eq_true. f_equal. lia.
Qed.

(** A queue with its obsolete entries removed. *)
Definition reclaimed_queue (s : InboundResultQueue) (q : PluginQueue) : PluginQueue :=
  q <| entries ::= List.filter (is_active s) |>
    <| q_items := sum_items (List.filter (is_active s) (entries q)) |>.

Lemma kept_reclaimed s p q : pq_inv (newest s) p q -> kept s q = reclaimed_queue s q.
Proof.
  intros Hq. unfold kept, reclaimed_queue, update.
  by rewrite (drop_obsolete_filter s _ (pq_sorted _ _ _ Hq) (pq_newest _ _ _ Hq)).
Qed.

Lemma foldl_push_event {A} (f : A -> QueueEvent) s l :
  qsim (foldl (fun s x => push_event s (f x)) s l) s /\
  (qinv s -> qinv (foldl (fun s x => push_event s (f x)) s l)).
Proof.
  revert s. induction l as [|x l IH]; intros s; cbn; [done|]. destruct (IH (push_event s (f x))) as [H1 H2].
  split; [by rewrite H1, push_event_qsim|]. intros H. by apply H2, qinv_push.
Qed.

(** Reclamation removes exactly the obsolete batches and nothing else. *)
Lemma reclaim_obsolete_spec s at_ms :
  qinv s ->
  exists s' dropped, reclaim_obsolete s at_ms = Some (s', dropped) /\ qinv s' /\
    limits s' = limits s /\ retirement_floor s' = retirement_floor s /\ active s' = active s /\
    order s' = order s /\ drain_cursor s' = drain_cursor s /\
    plugins s' = reclaimed_queue s <$> plugins s.
Proof.
  intros [Hi He].
  destruct (reclaim_queues_spec s (order s) [] 0 Hi (bi_nodup _ Hi)) as (s1 & r1 & d1 & E1 & Hi1 & [] & Hp1).
  { intros p. apply (bi_dom _ Hi). }
  unfold reclaim_obsolete. rewrite E1. cbn [mbind option_bind].
  set (s2 := s1 <| diagnostics ::= add_to dropped_obsolete d1 |>).
  assert (Hq2 : qinv s2).
  { apply qinv_diagnostics. split; [done|]. unfold events_inv in *. congruence. }
  destruct (foldl_push_event (fun '(p, g, b, n) => mkQueueEvent at_ms p g (DroppedObsolete b n)) s2 r1) as [Hs Hv].
  replace (foldl (fun s '(plugin, generation, batches, items) => _) s2 r1)
    with (foldl (fun s x => push_event s ((fun '(p, g, b, n) => mkQueueEvent at_ms p g (DroppedObsolete b n)) x)) s2 r1).
  2: { generalize s2. clear. induction r1 as [|[[[p g] b] n] r1 IH]; intros s2; cbn; [done | apply IH]. }
  do 2 eexists. split; [done|]. split; [by apply Hv|]. destruct Hs as [-> -> -> -> -> -> _ _].
  split_and!; [done..|]. apply map_eq. intros p. change (plugins s2) with (plugins s1).
  rewrite Hp1, lookup_fmap. destruct (plugins s !! p) as [q|] eqn:Hq; [|by case_match].
  rewrite bool_decide_eq_true_2 by (apply (bi_dom _ Hi); eauto). cbn. f_equal.
  by apply (kept_reclaimed s p), (bi_queues _ Hi).
Qed.

(** * Backpressure *)

(** Where the watermarks leave a producer. *)
Definition settled (q : PluginQueue) : ProducerState :=
  match q_state q with
  | Running => if pause_at_batches (q_policy q) <=? len (entries q) then Paused else Running
  | Paused => if len (entries q) <=? resume_at_batches (q_policy q) then Running else Paused
  | Disconnected => Disconnected
  end.

Definition settle (q : PluginQueue) : PluginQueue := q <| q_state := settled q |>.

Lemma set_queue_id p q s : plugins s !! p = Some q -> set_queue p q s = s.
Proof. intros Hp. unfold set_queue, update. rewrite insert_id by done. by destruct s. Qed.

Lemma settle_id q : settled q = q_state q -> settle q = q.
Proof. intros H. unfold settle, update. rewrite H. by destruct q. Qed.

Lemma reconcile_spec s at_ms p g q :
  plugins s !! p = Some q ->
  exists s', reconcile_producer s at_ms p g = Some s' /\ qsim s' (set_queue p (settle q) s) /\
    (qinv s -> qinv s').
Proof.
  intros Hp. unfold reconcile_producer. rewrite Hp. cbn [mbind option_bind].
  assert (Hset : forall st, qinv s -> qinv (set_queue p (q <| q_state := st |>) s)).
  { intros st H. by eapply qinv_set_queue. }
  destruct (q_state q) eqn:Es; [destruct (_ <=? _) eqn:E | destruct (_ <=? _) eqn:E |].
  all: try (exists s; split; [done|]; rewrite settle_id by (unfold settled; by rewrite Es, ?E);
    by rewrite set_queue_id).
  all: cbn [mbind option_bind]; eexists; (split; [done|]); (split; [|intros H; by apply qinv_push, qinv_diagnostics, Hset]).
  all: rewrite push_event_qsim, diagnostics_qsim; unfold settle, settled; rewrite Es, E; done.
Qed.

Lemma force_pause_spec s at_ms p g q :
  plugins s !! p = Some q ->
  exists s', force_pause s at_ms p g = Some s' /\ (qinv s -> qinv s') /\
    qsim s' (set_queue p (q <| q_state := match q_state q with Running => Paused | st => st end |>) s).
Proof.
  intros Hp. unfold force_pause. rewrite Hp. cbn [mbind option_bind].
  destruct (q_state q) eqn:Es; cbn; eexists; (split; [done|]).
  - split; [intros H; by apply qinv_push, qinv_diagnostics; eapply qinv_set_queue|].
    by rewrite push_event_qsim, diagnostics_qsim.
  - split; [done|]. assert (q <| q_state := Paused |> = q) as -> by (rewrite <- Es; by destruct q).
    by rewrite set_queue_id.
  - split; [done|]. assert (q <| q_state := Disconnected |> = q) as -> by (rewrite <- Es; by destruct q).
    by rewrite set_queue_id.
Qed.

(** * Making room *)

Lemma exceeds_false a b c : exceeds a b c = false <-> b <= Z.max 0 (c - a).
Proof. unfold exceeds, saturating_sub. by rewrite Z.ltb_ge. Qed.

Definition plugin_room (q : PluginQueue) (n : Z) : Prop :=
  1 <= Z.max 0 (capacity_batches (q_policy q) - len (entries q)) /\
  n <= Z.max 0 (capacity_items (q_policy q) - q_items q).

Definition boundary_room (s : InboundResultQueue) (n : Z) : Prop :=
  1 <= Z.max 0 (limit_batches (limits s) - total_batches s) /\
  n <= Z.max 0 (limit_items (limits s) - total_items s).

Lemma capacity_violations_spec s p q n :
  plugins s !! p = Some q ->
  exists b1 b2, capacity_violations s p n = Some (b1, b2) /\
    (b1 = false <-> plugin_room q n) /\ (b2 = false <-> boundary_room s n).
Proof.
  intros Hp. unfold capacity_violations. rewrite Hp. cbn. do 2 eexists. split; [done|].
  rewrite !orb_false_iff, !exceeds_false. done.
Qed.

Lemma evict_oldest_spec s at_ms p q e rest :
  qinv s -> plugins s !! p = Some q -> entries q = e :: rest ->
  exists s', evict_oldest s at_ms p = Some s' /\ qinv s' /\
    qsim s' (set_queue p (popped q) s <| total_batches ::= fun n => n - 1 |>
               <| total_items ::= fun n => n - entry_items e |>).
Proof.
  intros [Hi He] Hp Hq. destruct (pop_entry_spec s p q e rest Hi Hp Hq) as (s1 & E1 & Hi1 & Hs1).
  unfold evict_oldest. rewrite E1. cbn [mbind option_bind]. eexists. split; [done|].
  split; [|by rewrite push_event_qsim, diagnostics_qsim, Hs1].
  apply qinv_push, qinv_diagnostics. split; [done|]. subst s1. done.
Qed.

(** The newest [k] entries of a queue. *)
Definition suffix_queue (q q' : PluginQueue) : Prop :=
  (exists l, entries q = l ++ entries q') /\ q_policy q' = q_policy q /\ q_state q' = q_state q /\
  terminal_generation q' = terminal_generation q.

Lemma suffix_queue_refl q : suffix_queue q q.
Proof. split; [by exists [] | done]. Qed.

Lemma suffix_queue_popped q q' : suffix_queue (popped q) q' -> suffix_queue q q'.
Proof.
  unfold suffix_queue, popped. destruct (entries q) as [|e rest] eqn:E; [by rewrite ?E|]. cbn.
  intros ((l & ->) & ?). split; [by exists (e :: l) | done].
Qed.

(** With nothing left to evict, what the preflight promised is there. *)
Lemma room_when_empty s p q n :
  boundary_inv s -> plugins s !! p = Some q -> entries q = [] ->
  plugin_room (q <| entries := [] |> <| q_items := 0 |>) n ->
  1 <= Z.max 0 (limit_batches (limits s) - (total_batches s - len (entries q))) ->
  n <= Z.max 0 (limit_items (limits s) - (total_items s - q_items q)) ->
  plugin_room q n /\ boundary_room s n.
Proof.
  intros Hi Hp Hq He H1 H2. pose proof (pq_items _ _ _ (bi_queues _ Hi p q Hp)) as Hit.
  rewrite Hq in Hit, H1. cbn in Hit. rewrite Hit in H2.
  unfold plugin_room, boundary_room in *. cbn in He. rewrite Hq, Hit. rewrite ?len_nil, ?Z.sub_0_r in *. done.
Qed.

(** Eviction ends, and it ends with room. *)
Lemma evict_until_room_spec s at_ms p q n fuel :
  qinv s -> plugins s !! p = Some q -> (length (entries q) <= fuel)%nat -> 0 <= n ->
  plugin_room (q <| entries := [] |> <| q_items := 0 |>) n ->
  1 <= Z.max 0 (limit_batches (limits s) - (total_batches s - len (entries q))) ->
  n <= Z.max 0 (limit_items (limits s) - (total_items s - q_items q)) ->
  exists s' q', evict_until_room fuel s at_ms p n = Some s' /\ qinv s' /\
    plugins s' = <[p := q']> (plugins s) /\ suffix_queue q q' /\
    plugin_room q' n /\ boundary_room s' n /\
    limits s' = limits s /\ retirement_floor s' = retirement_floor s /\ active s' = active s /\
    order s' = order s /\ drain_cursor s' = drain_cursor s.
Proof.
  revert s q. induction fuel as [|fuel IH]; intros s q Hqi Hp Hf Hn Hempty Hb1 Hb2;
    destruct (capacity_violations_spec s p q n Hp) as (b1 & b2 & E & Hr1 & Hr2);
    cbn [evict_until_room]; rewrite E; cbn [mbind option_bind].
  - assert (Hnil : entries q = []) by (destruct (entries q); [done | cbn in Hf; lia]).
    destruct (room_when_empty s p q n (proj1 Hqi) Hp Hnil Hempty Hb1 Hb2) as [R1 R2].
    rewrite (proj2 Hr1 R1), (proj2 Hr2 R2). cbn. exists s, q. rewrite insert_id by done.
    repeat (split; [done || apply suffix_queue_refl|]). done.
  - destruct (b1 || b2) eqn:Eb; cbn.
    + destruct (entries q) as [|e rest] eqn:Hq.
      { exfalso. rewrite <- Hq in Hb1. destruct (room_when_empty s p q n (proj1 Hqi) Hp Hq Hempty Hb1 Hb2) as [R1 R2].
        by rewrite (proj2 Hr1 R1), (proj2 Hr2 R2) in Eb. }
      destruct (evict_oldest_spec s at_ms p q e rest Hqi Hp Hq) as (s1 & E1 & Hqi1 & Hs1). rewrite E1. cbn.
      pose proof Hs1 as [Hl Hfl Ha Hpl Ho Hc Htb Hti]. cbn in Hl, Hfl, Ha, Hpl, Ho, Hc, Htb, Hti.
      assert (Hpq : entries (popped q) = rest /\ q_items (popped q) = q_items q - entry_items e /\
        q_policy (popped q) = q_policy q) by (unfold popped; by rewrite Hq).
      destruct Hpq as (P1 & P2 & P3).
      destruct (IH s1 (popped q)) as (s' & q' & E' & Hqi' & Hp' & Hsuf & Hr & Hr' & L1 & L2 & L3 & L4 & L5); try done.
      * rewrite Hpl. apply lookup_insert_eq.
      * rewrite P1. cbn in Hf. lia.
      * revert Hempty. unfold plugin_room. cbn. by rewrite P3.
      * rewrite P1, Hl, Htb. rewrite len_cons in Hb1. lia.
      * rewrite P2, Hl, Hti. lia.
      * exists s', q'. rewrite L1, L2, L3, L4, L5. split_and!; try done; [|by apply suffix_queue_popped].
        by rewrite Hp', Hpl, insert_insert_eq.
    + apply orb_false_iff in Eb as [-> ->]. exists s, q. rewrite insert_id by done.
      pose proof (proj1 Hr1 eq_refl). pose proof (proj1 Hr2 eq_refl).
      repeat (split; [done || apply suffix_queue_refl|]). done.
Qed.

(** * Admitting *)

(** A queue with a batch at its end. *)
Definition appended (at_ms : Z) (i : InboundBatch) (q : PluginQueue) : PluginQueue :=
  let q := q <| q_items ::= fun n => n + len (batch_items (ib_batch i)) |> in
  let q := if is_terminal (batch_state (ib_batch i))
           then q <| terminal_generation := Some (batch_generation (ib_batch i)) |> else q in
  q <| entries ::= fun l => l ++ [mkEntry at_ms i] |>.

Lemma appended_fields at_ms i q :
  entries (appended at_ms i q) = entries q ++ [mkEntry at_ms i] /\
  q_items (appended at_ms i q) = q_items q + len (batch_items (ib_batch i)) /\
  q_policy (appended at_ms i q) = q_policy q /\ q_state (appended at_ms i q) = q_state q.
Proof. unfold appended. by destruct (is_terminal _). Qed.

Lemma StronglySorted_snoc l x :
  StronglySorted Z.le l -> Forall (fun y => y <= x) l -> StronglySorted Z.le (l ++ [x]).
Proof.
  induction 1 as [|y l Hs IH Hy]; intros Hx; cbn; [by repeat constructor|].
  apply Forall_cons in Hx as [? ?]. constructor; [auto|]. apply Forall_app. split; [done | by constructor].
Qed.

Lemma pq_inv_appended s at_ms i q :
  pq_inv (newest s) (batch_plugin (ib_batch i)) q -> active s = Some (batch_generation (ib_batch i)) ->
  pq_inv (newest s) (batch_plugin (ib_batch i)) (appended at_ms i q).
Proof.
  intros [Hp Hi Hs Hn Ho] Ha. destruct (appended_fields at_ms i q) as (E1 & E2 & E3 & _).
  assert (Hnew : newest s = batch_generation (ib_batch i)) by (unfold newest; by rewrite Ha).
  split; rewrite ?E1, ?E2, ?E3; try done.
  - rewrite sum_items_app, Hi. unfold sum_items at 3. cbn. unfold entry_items. cbn. lia.
  - rewrite map_app. apply StronglySorted_snoc; [done|]. apply List.Forall_map.
    eapply Forall_impl; [exact Hn|]. intros e. unfold entry_generation. cbn. lia.
  - apply Forall_app. split; [done|]. apply Forall_singleton. unfold entry_generation. cbn. lia.
  - apply Forall_app. split; [done|]. by apply Forall_singleton.
Qed.

Lemma admit_batch_spec s at_ms i q :
  let p := batch_plugin (ib_batch i) in
  let n := len (batch_items (ib_batch i)) in
  qinv s -> plugins s !! p = Some q -> active s = Some (batch_generation (ib_batch i)) ->
  plugin_room q n -> boundary_room s n ->
  let q' := settle (appended at_ms i q) in
  exists s', admit_batch s at_ms i = Some (s', Ok (q_state q')) /\ qinv s' /\
    plugins s' = <[p := q']> (plugins s) /\
    limits s' = limits s /\ retirement_floor s' = retirement_floor s /\ active s' = active s /\
    order s' = order s /\ drain_cursor s' = drain_cursor s.
Proof.
  intros p n [Hi He] Hp Ha [R1 R2] [R3 R4] q'.
  pose proof (bi_bound _ Hi) as [B1 B2]. pose proof (bi_limits _ Hi) as [[L1 L2] [L3 L4]].
  destruct (queue_counts s p q Hi Hp) as [Hq1 Hq2]. pose proof (len_nonneg (batch_items (ib_batch i))) as Hn.
  fold n in Hn. destruct (appended_fields at_ms i q) as (E1 & E2 & E3 & E4). fold n in E2.
  unfold admit_batch. fold p n. rewrite Hp. cbn [mbind option_bind].
  rewrite (proj2 (checked_add_Some usize_max (q_items q) n (q_items q + n))) by lia. cbn [mbind option_bind].
  set (q1 := (if is_terminal _ then _ else _) <| entries ::= _ |>).
  assert (Hq1' : q1 = appended at_ms i q) by (subst q1; unfold appended; by destruct (is_terminal _)).
  rewrite Hq1'. clear q1 Hq1'. fold (set_queue p (appended at_ms i q) s).
  change (total_batches (set_queue p (appended at_ms i q) s)) with (total_batches s).
  change (total_items (set_queue p (appended at_ms i q) s)) with (total_items s).
  rewrite (proj2 (checked_add_Some usize_max (total_batches s) 1 (total_batches s + 1))) by lia.
  cbn [mbind option_bind].
  rewrite (proj2 (checked_add_Some usize_max (total_items s) n (total_items s + n))) by lia.
  cbn [mbind option_bind].
  assert (Hb : boundary_inv (set_queue p (appended at_ms i q) s <| total_batches := total_batches s + 1 |>
    <| total_items := total_items s + n |>)).
  { eapply (set_queue_inv s p q (appended at_ms i q)); eauto; rewrite ?E1, ?E2, ?len_snoc; try lia.
    apply pq_inv_appended; [by apply (bi_queues _ Hi) | done]. }
  set (s1 := set_queue p _ s <| total_batches := _ |> <| total_items := _ |>) in *.
  match goal with |- context [push_event ?s2 ?e] => set (s3 := push_event s2 e) end.
  assert (Hs3 : qsim s3 s1) by (subst s3; by rewrite push_event_qsim, !diagnostics_qsim).
  assert (Hv3 : qinv s3) by (subst s3; by apply qinv_push, qinv_diagnostics, qinv_diagnostics).
  assert (Hp3 : plugins s3 !! p = Some (appended at_ms i q)).
  { rewrite (qs_plugins _ _ Hs3). cbn. apply lookup_insert_eq. }
  destruct (reconcile_spec s3 at_ms p (batch_generation (ib_batch i)) _ Hp3) as (s4 & E & Hs4 & Hv4).
  rewrite E. cbn [mbind option_bind].
  assert (Hp4 : plugins s4 = <[p := q']> (plugins s)).
  { rewrite (qs_plugins _ _ Hs4). cbn. rewrite (qs_plugins _ _ Hs3). cbn. by rewrite insert_insert_eq. }
  rewrite Hp4, lookup_insert_eq. cbn [mbind option_bind]. exists s4.
  destruct Hs4 as [A1 A2 A3 _ A5 A6 _ _], Hs3 as [C1 C2 C3 _ C5 C6 _ _].
  split; [done|]. split; [by apply Hv4|]. split; [done|].
  split_and!; [exact (eq_trans A1 C1) | exact (eq_trans A2 C2) | exact (eq_trans A3 C3)
    | exact (eq_trans A5 C5) | exact (eq_trans A6 C6)].
Qed.

(** * Submitting *)

(** A producer's resident batches of the active generation. *)
Definition live (s : InboundResultQueue) (p : PluginId) : list Entry :=
  map_or (plugins s !! p) [] (fun q => List.filter (is_active s) (entries q)).

(** What submitting never changes. *)
Definition same_boundary (s s' : InboundResultQueue) : Prop :=
  limits s' = limits s /\ retirement_floor s' = retirement_floor s /\ active s' = active s /\
  order s' = order s /\ drain_cursor s' = drain_cursor s.

Lemma same_boundary_refl s : same_boundary s s.
Proof. by repeat split. Qed.

Lemma same_boundary_trans s1 s2 s3 : same_boundary s1 s2 -> same_boundary s2 s3 -> same_boundary s1 s3.
Proof. unfold same_boundary. intuition congruence. Qed.

Lemma qsim_boundary s s' : qsim s' s -> same_boundary s s'.
Proof. intros []. by repeat split. Qed.

Lemma live_qsim s s' p : qsim s' s -> live s' p = live s p.
Proof. intros [_ _ Ha Hp _ _ _ _]. unfold live, is_active. by rewrite Hp, Ha. Qed.

Lemma filter_active_same s s' l :
  active s' = active s -> List.filter (is_active s') l = List.filter (is_active s) l.
Proof. intros Ha. apply filter_ext. intros e. by apply is_active_same. Qed.

Lemma list_filter_idem {A} (f : A -> bool) l : List.filter f (List.filter f l) = List.filter f l.
Proof. induction l as [|x l IH]; cbn; [done|]. destruct (f x) eqn:E; cbn; rewrite ?E, IH; done. Qed.

Lemma live_reclaimed s s' p :
  active s' = active s -> plugins s' = reclaimed_queue s <$> plugins s -> live s' p = live s p.
Proof.
  intros Ha Hp. unfold live. rewrite Hp, lookup_fmap. destruct (plugins s !! p); cbn; [|done].
  rewrite (filter_active_same s) by done. apply list_filter_idem.
Qed.

(** The state in which the capacity of an admission is decided. *)
Lemma submit_reclaimed s at_ms i q :
  let p := batch_plugin (ib_batch i) in
  qinv s -> plugins s !! p = Some q ->
  exists b s1 q1, admission_needs_reclamation s p i = Some b /\
    (match b with true => fst <$> reclaim_obsolete s at_ms | false => Some s end) = Some s1 /\
    qinv s1 /\ same_boundary s s1 /\ (forall r, live s1 r = live s r) /\
    plugins s1 !! p = Some q1 /\ q_policy q1 = q_policy q /\ q_state q1 = q_state q /\
    terminal_generation q1 = terminal_generation q /\
    (forall r, is_Some (plugins s1 !! r) <-> is_Some (plugins s !! r)).
Proof.
  intros p Hv Hp. unfold admission_needs_reclamation. rewrite Hp. cbn [mbind option_bind].
  destruct (capacity_violations_spec s p q (len (batch_items (ib_batch i))) Hp) as (b1 & b2 & E & _).
  rewrite E. cbn [mbind option_bind]. destruct (low_at_watermark q i || b1 || b2).
  - destruct (reclaim_obsolete_spec s at_ms Hv) as (s1 & d & E1 & Hv1 & H1 & H2 & H3 & H4 & H5 & Hp1).
    exists true, s1, (reclaimed_queue s q). rewrite E1.
    assert (Hlk : forall r, is_Some (plugins s1 !! r) <-> is_Some (plugins s !! r))
      by (intros r; by rewrite Hp1, lookup_fmap, fmap_is_Some).
    split; [done|]. split; [done|]. split; [done|]. split; [by repeat split|].
    split; [intros r; by apply live_reclaimed|]. split; [by rewrite Hp1, lookup_fmap, Hp|].
    split_and!; try done; apply Hlk.
  - exists false, s, q. split; [done|]. split; [done|]. split; [done|]. split; [apply same_boundary_refl|].
    by repeat split.
Qed.

(** The two ways a submission ends. *)
Definition submit_outcome (s : InboundResultQueue) (at_ms : Z) (i : InboundBatch)
    (s' : InboundResultQueue) (r : result ProducerState QueueReject) : Prop :=
  let p := batch_plugin (ib_batch i) in
  qinv s' /\ same_boundary s s' /\
  (forall p', p' <> p -> live s' p' = live s p') /\
  match r with
  | Err _ => live s' p = live s p
  | Ok st =>
      exists q q' evicted retained,
        plugins s !! p = Some q /\ plugins s' !! p = Some q' /\
        active s = Some (batch_generation (ib_batch i)) /\
        live s p = evicted ++ retained /\ live s' p = retained ++ [mkEntry at_ms i] /\
        (evicted <> [] -> overflow (q_policy q) = EvictOldest) /\
        q_state q' = st /\ settled q' = st /\ q_policy q' = q_policy q
  end.

Lemma refused_outcome s s1 at_ms i s' reason :
  qinv s' -> same_boundary s s1 -> (forall r, live s1 r = live s r) -> qsim s' s1 ->
  submit_outcome s at_ms i s' (Err reason).
Proof.
  intros Hv Hb Hl Hs. split; [done|]. split; [by eapply same_boundary_trans; [|apply qsim_boundary]|].
  split; intros; rewrite (live_qsim _ _ _ Hs); auto.
Qed.

Lemma settled_idem q :
  resume_at_batches (q_policy q) < pause_at_batches (q_policy q) -> settled (settle q) = settled q.
Proof.
  intros H. unfold settle, settled. cbn.
  destruct (q_state q); [| |done]; repeat (case_match; simplify_eq/=; try done); reflect_bools; lia.
Qed.

(** Admission after eviction of [evicted] (nothing, unless the policy evicts). *)
Lemma admitted_outcome s s1 s2 at_ms i q q1 q2 evicted :
  let p := batch_plugin (ib_batch i) in
  plugins s !! p = Some q -> active s = Some (batch_generation (ib_batch i)) ->
  same_boundary s s1 -> (forall r, live s1 r = live s r) -> plugins s1 !! p = Some q1 ->
  q_policy q1 = q_policy q ->
  qinv s2 -> same_boundary s1 s2 -> plugins s2 = <[p := q2]> (plugins s1) ->
  entries q1 = evicted ++ entries q2 -> q_policy q2 = q_policy q1 ->
  (evicted <> [] -> overflow (q_policy q) = EvictOldest) ->
  plugin_room q2 (len (batch_items (ib_batch i))) ->
  boundary_room s2 (len (batch_items (ib_batch i))) ->
  exists s' r, admit_batch s2 at_ms i = Some (s', r) /\ submit_outcome s at_ms i s' r.
Proof.
  intros p Hp Ha Hb1 Hl1 Hp1 Hpol1 Hv2 Hb2 Hpl2 He Hpol2 Hev R1 R2.
  assert (Ha2 : active s2 = active s) by (destruct Hb1 as (_ & _ & E1 & _), Hb2 as (_ & _ & E2 & _); congruence).
  assert (Hp2 : plugins s2 !! p = Some q2) by (rewrite Hpl2; apply lookup_insert_eq).
  destruct (admit_batch_spec s2 at_ms i q2 Hv2 Hp2 ltac:(congruence) R1 R2)
    as (s' & E & Hv' & Hp' & L1 & L2 & L3 & L4 & L5).
  do 2 eexists. split; [exact E|].
  assert (Hb' : same_boundary s s').
  { eapply same_boundary_trans; [exact Hb1|]. eapply same_boundary_trans; [exact Hb2|]. by repeat split. }
  assert (Has : forall e, is_active s' e = is_active s1 e).
  { intros e. apply is_active_same. destruct Hb2 as (_ & _ & E2 & _). congruence. }
  split; [done|]. split; [done|]. split.
  - intros p' Hne. fold p in Hne. rewrite <- Hl1. unfold live.
    rewrite Hp'. rewrite lookup_insert_ne by (intros E0; by apply Hne). rewrite Hpl2. rewrite lookup_insert_ne by (intros E0; by apply Hne).
    destruct (plugins s1 !! p') as [q0|]; cbn [map_or]; [by apply filter_ext | done].
  - fold p. destruct (appended_fields at_ms i q2) as (F1 & F2 & F3 & F4).
    exists q, (settle (appended at_ms i q2)), (List.filter (is_active s1) evicted),
      (List.filter (is_active s1) (entries q2)).
    split; [done|]. split; [rewrite Hp'; apply lookup_insert_eq|]. split; [done|]. split_and!.
    + rewrite <- Hl1. unfold live. rewrite Hp1. cbn. by rewrite He, List.filter_app.
    + unfold live. rewrite Hp', lookup_insert_eq. cbn [map_or]. cbn [settle entries update]. rewrite F1.
      rewrite (filter_ext _ _ Has), List.filter_app. f_equal. cbn.
      assert (is_active s1 (mkEntry at_ms i) = true) as ->; [|done].
      apply bool_decide_eq_true. unfold entry_generation. cbn. destruct Hb1 as (_ & _ & E1 & _). congruence.
    + intros Hne. apply Hev. intros ->. done.
    + done.
    + apply settled_idem. rewrite F3.
      apply (pq_policy _ _ _ (bi_queues _ (proj1 Hv2) p q2 Hp2)).
    + change (q_policy (appended at_ms i q2) = q_policy q). by rewrite F3, Hpol2, Hpol1.
Qed.

Lemma preflight_spec s p q n :
  boundary_inv s -> plugins s !! p = Some q ->
  exists r, replacement_preflight s p n = Some r /\
    (r = Ok tt ->
      plugin_room (q <| entries := [] |> <| q_items := 0 |>) n /\
      1 <= Z.max 0 (limit_batches (limits s) - (total_batches s - len (entries q))) /\
      n <= Z.max 0 (limit_items (limits s) - (total_items s - q_items q))).
Proof.
  intros Hi Hp. destruct (queue_counts s p q Hi Hp) as [H1 H2]. unfold replacement_preflight.
  rewrite Hp. cbn [mbind option_bind].
  destruct (exceeds 0 1 _ || exceeds 0 n _) eqn:E1; [by eexists|].
  rewrite !checked_sub_le by lia. cbn [mbind option_bind].
  destruct (exceeds (total_batches s - _) 1 _ || _) eqn:E2; [by eexists|].
  eexists. split; [done|]. intros _. rewrite !orb_false_iff, !exceeds_false in *.
  unfold plugin_room. cbn [q_policy entries q_items update]. done.
Qed.

(** Submitting never panics, keeps the invariant and ends one of two ways. *)
Lemma submit_spec s at_ms i :
  qinv s -> exists s' r, submit s at_ms i = Some (s', r) /\ submit_outcome s at_ms i s' r.
Proof.
  intros Hv. unfold submit. cbv zeta. set (p := batch_plugin (ib_batch i)).
  set (n := len (batch_items (ib_batch i))).
  assert (Href : forall s1 reason, qinv s1 -> same_boundary s s1 -> (forall r, live s1 r = live s r) ->
    submit_outcome s at_ms i (reject s1 at_ms p (batch_generation (ib_batch i)) reason) (Err reason)).
  { intros s1 reason H1 H2 H3. eapply refused_outcome; eauto using qinv_reject, reject_qsim. }
  destruct (plugins s !! p) as [q|] eqn:Hp; [|do 2 eexists; split; [done|]; by apply Href; auto using same_boundary_refl].
  destruct (bool_decide_reflect (active s = Some (batch_generation (ib_batch i)))) as [Ha|_]; cbn [negb];
    [|do 2 eexists; split; [done|]; by apply Href; auto using same_boundary_refl].
  destruct (bool_decide_reflect (q_state q = Disconnected)) as [_|Hst];
    [do 2 eexists; split; [done|]; by apply Href; auto using same_boundary_refl|].
  destruct (bool_decide _); [do 2 eexists; split; [done|]; by apply Href; auto using same_boundary_refl|].
  destruct (submit_reclaimed s at_ms i q Hv Hp) as (b & s1 & q1 & E0 & E1 & Hv1 & Hb1 & Hl1 & Hp1 & Hpol & _).
  fold p in E0. rewrite E0. cbn [mbind option_bind]. rewrite E1. cbn [mbind option_bind].
  fold p in Hp1. rewrite Hp1. cbn [mbind option_bind].
  destruct (low_at_watermark q1 i); [do 2 eexists; split; [done|]; by apply Href|].
  destruct (capacity_violations_spec s1 p q1 n Hp1) as (b1 & b2 & E2 & R1 & R2). rewrite E2. cbn [mbind option_bind].
  destruct (b1 || b2) eqn:Eb.
  - destruct (overflow (q_policy q1)) eqn:Eo.
    + do 2 eexists; split; [done|]. by apply Href.
    + destruct (force_pause_spec (reject s1 at_ms p (batch_generation (ib_batch i)) (if b1 then QueueFull else BoundaryFull))
        at_ms p (batch_generation (ib_batch i)) q1) as (s2 & E3 & Hv2 & Hs2).
      { by rewrite (qs_plugins _ _ (reject_qsim _ _ _ _ _)). }
      rewrite E3. do 2 eexists. split; [done|].
      eapply (refused_outcome s (set_queue p (q1 <| q_state := match q_state q1 with Running => Paused | st => st end |>) s1)).
      * by apply Hv2, qinv_reject.
      * done.
      * intros r. rewrite <- Hl1. unfold live. cbn. rewrite lookup_insert. case_decide; [subst r; by rewrite Hp1 | done].
      * rewrite Hs2. destruct (reject_qsim s1 at_ms p (batch_generation (ib_batch i)) (if b1 then QueueFull else BoundaryFull)).
        split; cbn; congruence.
    + destruct (preflight_spec s1 p q1 n (proj1 Hv1) Hp1) as (r & E3 & Hr). rewrite E3. cbn [mbind option_bind].
      destruct r as [[]|reason]; [|do 2 eexists; split; [done|]; by apply Href].
      destruct (Hr eq_refl) as (P1 & P2 & P3).
      destruct (evict_until_room_spec s1 at_ms p q1 n (length (entries q1)) Hv1 Hp1 ltac:(lia) ltac:(apply len_nonneg) P1 P2 P3)
        as (s2 & q2 & E4 & Hv2 & Hp2 & [(ev & Hev) (Hpq & _)] & Q1 & Q2 & F).
      rewrite E4. cbn [mbind option_bind]. eapply (admitted_outcome s s1 s2 at_ms i q q1 q2 ev); eauto.
      by rewrite <- Hpol.
    + do 2 eexists; split; [done|]. eapply (refused_outcome s (set_queue p (q1 <| q_state := Disconnected |>) s1)).
      * apply qinv_reject. by eapply qinv_set_queue.
      * done.
      * intros r. rewrite <- Hl1. unfold live. cbn. rewrite lookup_insert. case_decide; [subst r; by rewrite Hp1 | done].
      * apply reject_qsim.
  - apply orb_false_iff in Eb as [-> ->].
    eapply (admitted_outcome s s1 s1 at_ms i q q1 q1 []); eauto using same_boundary_refl.
    + by rewrite insert_id.
    + by intros [].
    + by apply R1.
    + by apply R2.
Qed.
