(* ===== verification/IntakeDrain.v ===== *)
(** Draining the intake boundary into an aggregator.

    The nested loops of [drain_into] are reduced to the list of entries they
    hand over, plugin by plugin in rotation, each taken from the front of its
    queue.  Everything is proved for an arbitrary implementation of the
    [ResultAggregator] interface. *)

From S2P Require Import Prelude Generation Items Aggregator Intake IntakeInv.
Import InboundResultQueue.

Section Drain.

Context {A : Type} `{!ResultAggregator A}.

(** What the aggregator and the report make of one entry. *)
Definition merge_step (st : A * DrainReport) (x : PluginId * Entry) : A * DrainReport :=
  let b := ib_batch (inbound x.2) in
  match accept st.1 b with
  | (a, Ok _) =>
      (a, st.2 <| report_merged ::= fun m => m + 1 |>
            <| report_batches ::= fun l => l ++ [mkMergedBatch x.1 (admitted_at_ms x.2)
                 (batch_generation b) (batch_state b) (entry_items x.2)] |>)
  | (a, Err reason) => (a, st.2 <| report_rejected ::= fun l => l ++ [(x.1, reason)] |>)
  end.

Definition merge_steps (st : A * DrainReport) (l : list (PluginId * Entry)) : A * DrainReport :=
  foldl merge_step st l.

(** A queue after [k] of its entries have been handed over: the provisional end
    of the stream may have been withdrawn. *)
Definition taken (k : nat) (q q' : PluginQueue) : Prop :=
  entries q' = drop k (entries q) /\ q_policy q' = q_policy q /\ q_state q' = q_state q.

Lemma taken_refl q : taken 0 q q.
Proof. by split. Qed.

Lemma hand_over_spec (d : DrainState) at_ms p ix q e rest :
  qinv (d_queue d) -> plugins (d_queue d) !! p = Some q -> entries q = e :: rest ->
  exists d' q', hand_over d at_ms p ix = Some (d', entry_items e) /\
    qinv (d_queue d') /\ same_boundary (d_queue d) (d_queue d') /\
    plugins (d_queue d') = <[p := q']> (plugins (d_queue d)) /\ taken 1 q q' /\
    (d_agg d', d_report d') = merge_step (d_agg d, d_report d) (p, e) /\
    d_total d' = d_total d + 1 /\ d_last d' = Some ix.
Proof.
  intros [Hi He] Hp Hq. destruct (pop_entry_spec _ p q e rest Hi Hp Hq) as (s1 & E1 & Hi1 & Hs1).
  unfold hand_over. rewrite E1. cbn [mbind option_bind]. unfold merge_step. cbn [fst snd].
  assert (Hpop : entries (popped q) = rest /\ q_policy (popped q) = q_policy q /\ q_state (popped q) = q_state q)
    by (unfold popped; by rewrite Hq). destruct Hpop as (P1 & P2 & P3).
  assert (Hp1 : plugins s1 !! p = Some (popped q)) by (rewrite Hs1; cbn; apply lookup_insert_eq).
  assert (Hv1 : qinv s1) by (split; [done | by subst s1]).
  assert (Hb1 : same_boundary (d_queue d) s1) by (subst s1; by repeat split).
  assert (Hpl1 : plugins s1 = <[p := popped q]> (plugins (d_queue d))) by by rewrite Hs1.
  assert (Hfin : forall s2 q2 f ev, qinv s2 -> same_boundary (d_queue d) s2 ->
    plugins s2 = <[p := q2]> (plugins (d_queue d)) -> taken 1 q q2 ->
    let s3 := push_event (s2 <| diagnostics ::= f |>) ev in
    qinv s3 /\ same_boundary (d_queue d) s3 /\ plugins s3 = <[p := q2]> (plugins (d_queue d)) /\ taken 1 q q2).
  { intros s2 q2 f ev H1 H2 H3 H4 s3. pose proof (push_event_qsim (s2 <| diagnostics ::= f |>) ev) as Hs.
    split; [by apply qinv_push, qinv_diagnostics|].
    split; [eapply same_boundary_trans; [exact H2|]; apply qsim_boundary; subst s3; by rewrite push_event_qsim|].
    split; [rewrite <- H3; exact (qs_plugins _ _ Hs) | done]. }
  assert (Ht : taken 1 q (popped q)) by (unfold taken; by rewrite Hq, P1).
  destruct (accept (d_agg d) (ib_batch (inbound e))) as [agg [u|reason]].
  - eexists _, (popped q). split; [done|]. cbn [d_queue d_agg d_report d_total d_last].
    destruct (Hfin s1 (popped q) (add_to merged 1)
      (mkQueueEvent at_ms p (batch_generation (ib_batch (inbound e))) (Merged (entry_items e))) Hv1 Hb1 Hpl1 Ht)
      as (H1 & H2 & H3 & H4). done.
  - set (q2 := if is_terminal (batch_state (ib_batch (inbound e)))
      && bool_decide (terminal_generation (popped q) = Some (batch_generation (ib_batch (inbound e))))
      then popped q <| terminal_generation := None |> else popped q).
    assert (Hq2 : entries q2 = entries (popped q) /\ q_items q2 = q_items (popped q) /\
      q_policy q2 = q_policy (popped q) /\ q_state q2 = q_state (popped q)) by (subst q2; by case_match).
    destruct Hq2 as (Q1 & Q2 & Q3 & Q4).
    assert (E2 : (if is_terminal (batch_state (ib_batch (inbound e))) then
             q ← plugins s1 !! p;
             Some (if bool_decide (terminal_generation q = Some (batch_generation (ib_batch (inbound e))))
                   then s1 <| plugins ::= insert p (q <| terminal_generation := None |>) |> else s1)
           else Some s1) = Some (set_queue p q2 s1)).
    { subst q2. rewrite Hp1. cbn [mbind option_bind]. destruct (is_terminal _); cbn [andb];
        [|by rewrite set_queue_id]. destruct (bool_decide _); [done | by rewrite set_queue_id]. }
    rewrite E2. cbn [mbind option_bind]. eexists _, q2. split; [done|].
    cbn [d_queue d_agg d_report d_total d_last].
    destruct (Hfin (set_queue p q2 s1) q2 (add_to_slot merge_rejected (merge_reject_index reason))
      (mkQueueEvent at_ms p (batch_generation (ib_batch (inbound e))) (MergeRejected reason)))
      as (H1 & H2 & H3 & H4); try done.
    + by eapply qinv_set_queue.
    + cbn. by rewrite Hpl1, insert_insert_eq.
    + unfold taken. by rewrite Hq, Q1, Q3, Q4, P1.
Qed.

Lemma taken_step k q q1 q2 : taken 1 q q1 -> taken k q1 q2 -> taken (S k) q q2.
Proof.
  intros (E1 & P1 & S1) (E2 & P2 & S2). unfold taken. rewrite E2, E1, P2, S2, drop_drop. done.
Qed.

(** What one plugin's turn may take within the budgets. *)
Definition within_turn (budget : DrainBudget) (h pi : Z) (q : PluginQueue) (k : nat) : Prop :=
  (k <= length (entries q))%nat /\ Z.of_nat k <= Z.max 0 (batches_per_plugin budget - h) /\
  pi + sum_items (take k (entries q)) <=
    Z.max (if 0 <? h then pi else pi + sum_items (take 1 (entries q))) (items_per_plugin budget).

(** A turn that takes nothing stays within its budgets. *)
Lemma within_turn_0 budget h pi q : 0 <= pi -> within_turn budget h pi q 0.
Proof.
  intros Hpi. unfold within_turn. rewrite take_0. change (sum_items []) with 0.
  pose proof (sum_items_nonneg (take 1 (entries q))). split_and!; [lia | lia|].
  destruct (0 <? h); lia.
Qed.

Lemma drain_plugin_spec fuel (d : DrainState) at_ms p ix budget h pi q :
  qinv (d_queue d) -> plugins (d_queue d) !! p = Some q -> (length (entries q) < fuel)%nat ->
  0 <= pi -> 0 <= h -> pi + sum_items (entries q) <= usize_max ->
  exists d' q' k, drain_plugin fuel d at_ms p ix budget h pi = Some d' /\
    qinv (d_queue d') /\ same_boundary (d_queue d) (d_queue d') /\
    plugins (d_queue d') = <[p := q']> (plugins (d_queue d)) /\ taken k q q' /\
    (d_agg d', d_report d') = merge_steps (d_agg d, d_report d) (map (pair p) (take k (entries q))) /\
    d_total d' = d_total d + Z.of_nat k /\ d_total d' <= Z.max (d_total d) (total_batches_budget budget) /\
    within_turn budget h pi q k /\
    (d_total d < total_batches_budget budget -> h = 0 -> 0 < batches_per_plugin budget ->
     entries q <> [] -> (0 < k)%nat).
Proof.
  revert d q h pi. induction fuel as [|fuel IH]; intros d q h pi Hv Hp Hf Hpi Hh Hsum; [lia|].
  assert (Hstop : (d_total d < total_batches_budget budget -> h = 0 -> 0 < batches_per_plugin budget ->
      entries q <> [] -> (0 < 0)%nat) ->
    exists d' q' k, Some d = Some d' /\ qinv (d_queue d') /\ same_boundary (d_queue d) (d_queue d') /\
      plugins (d_queue d') = <[p := q']> (plugins (d_queue d)) /\ taken k q q' /\
      (d_agg d', d_report d') = merge_steps (d_agg d, d_report d) (map (pair p) (take k (entries q))) /\
      d_total d' = d_total d + Z.of_nat k /\ d_total d' <= Z.max (d_total d) (total_batches_budget budget) /\
      within_turn budget h pi q k /\
      (d_total d < total_batches_budget budget -> h = 0 -> 0 < batches_per_plugin budget ->
       entries q <> [] -> (0 < k)%nat)).
  { intros Hgo. exists d, q, 0%nat. rewrite insert_id, take_0 by done. cbn.
    split; [done|]. split; [done|]. split; [apply same_boundary_refl|]. split; [done|].
    split; [apply taken_refl|]. split; [done|]. split; [lia|]. split; [lia|].
    split; [by apply within_turn_0 | done]. }
  cbn [drain_plugin].
  destruct (Z.leb_spec (total_batches_budget budget) (d_total d)); cbn [orb]; [apply Hstop; lia|].
  destruct (Z.leb_spec (batches_per_plugin budget) h); [apply Hstop; lia|].
  rewrite Hp. cbn [mbind option_bind]. destruct (entries q) as [|e rest] eqn:Hq; cbn [head].
  { rewrite <- Hq in *. apply Hstop. by intros. }
  destruct ((0 <? h) && _) eqn:Efit.
  { rewrite <- Hq in *. apply Hstop. intros _ -> _ _. by rewrite Z.ltb_irrefl in Efit. }
  destruct (hand_over_spec d at_ms p ix q e rest Hv Hp Hq) as (d1 & q1 & E1 & Hv1 & Hb1 & Hp1 & Ht1 & Hm1 & Htot & _).
  rewrite E1. cbn [mbind option_bind]. assert (Hq1 : entries q1 = rest) by (destruct Ht1 as (-> & _); by rewrite Hq).
  rewrite sum_items_cons in Hsum. pose proof (entry_items_nonneg e) as Hen.
  pose proof (sum_items_nonneg rest) as Hrest. rewrite saturating_add_exact by lia.
  destruct (IH d1 q1 (h + 1) (pi + entry_items e)) as
    (d2 & q2 & k & E2 & Hv2 & Hb2 & Hp2 & Ht2 & Hm2 & Htot2 & Hmax2 & (W1 & W2 & W3) & _); try lia.
  { done. }
  { rewrite Hp1. apply lookup_insert_eq. }
  { rewrite Hq1. cbn in Hf. lia. }
  { rewrite Hq1. lia. }
  exists d2, q2, (S k). split; [done|]. split; [done|]. split; [by eapply same_boundary_trans|].
  split; [by rewrite Hp2, Hp1, insert_insert_eq|]. split; [by eapply taken_step|].
  split; [by rewrite Hm2, Hm1, Hq1|]. split; [lia|]. split; [lia|]. split; [|lia].
  unfold within_turn. rewrite Hq. rewrite Hq1 in *. cbn [take length]. rewrite !sum_items_cons, take_0.
  split_and!; [lia | lia|]. change (sum_items []) with 0. rewrite (proj2 (Z.ltb_lt 0 (h + 1))) in W3 by lia.
  apply andb_false_iff in Efit as [Eh | Ei].
  - rewrite Eh. lia.
  - unfold saturating_sub in Ei. apply Z.ltb_ge in Ei. destruct (0 <? h); lia.
Qed.

(** The entries a round hands over, [κ p] from the front of each queue. *)
Definition entries_of (s : InboundResultQueue) (p : PluginId) : list Entry :=
  map_or (plugins s !! p) [] entries.

Definition handed (s : InboundResultQueue) (κ : PluginId -> nat) (ps : list PluginId)
    : list (PluginId * Entry) :=
  flat_map (fun p => map (pair p) (take (κ p) (entries_of s p))) ps.

Lemma handed_ext s s' κ κ' ps :
  (forall p, p ∈ ps -> κ p = κ' p /\ entries_of s p = entries_of s' p) -> handed s κ ps = handed s' κ' ps.
Proof.
  unfold handed. induction ps as [|p ps IH]; intros H; cbn; [done|].
  destruct (H p ltac:(by left)) as [-> ->]. rewrite IH; [done|]. intros. apply H. by right.
Qed.

Lemma merge_steps_app st l k : merge_steps st (l ++ k) = merge_steps (merge_steps st l) k.
Proof. apply foldl_app. Qed.

(** What a round does to the boundary. *)
Definition round_effect (budget : DrainBudget) (s s' : InboundResultQueue) (κ : PluginId -> nat)
    (ps : list PluginId) : Prop :=
  (forall p, p ∉ ps -> plugins s' !! p = plugins s !! p) /\
  (forall p q, p ∈ ps -> plugins s !! p = Some q ->
     exists q', plugins s' !! p = Some q' /\ taken (κ p) q q' /\ within_turn budget 0 0 q (κ p)).

Lemma round_effect_idle budget s ps : round_effect budget s s (fun _ => 0%nat) ps.
Proof. split; [done|]. intros p q _ Hp. exists q. split; [done|]. split; [apply taken_refl | by apply within_turn_0]. Qed.

Lemma handed_idle s ps : handed s (fun _ => 0%nat) ps = [].
Proof. unfold handed. induction ps as [|p ps IH]; [done|]. cbn [flat_map]. by rewrite take_0, IH. Qed.

Lemma drain_round_spec order start at_ms budget offs ps (d : DrainState) :
  qinv (d_queue d) -> 0 < len order -> NoDup ps ->
  (forall p, p ∈ ps -> is_Some (plugins (d_queue d) !! p)) ->
  Forall2 (fun o p => order !! Z.to_nat ((start + Z.of_nat o) mod len order) = Some p) offs ps ->
  exists (d' : DrainState) κ, drain_round offs order start d at_ms budget = Some d' /\
    qinv (d_queue d') /\ same_boundary (d_queue d) (d_queue d') /\
    round_effect budget (d_queue d) (d_queue d') κ ps /\
    (d_agg d', d_report d') = merge_steps (d_agg d, d_report d) (handed (d_queue d) κ ps) /\
    d_total d' = d_total d + len (handed (d_queue d) κ ps) /\
    d_total d' <= Z.max (d_total d) (total_batches_budget budget) /\
    (d_total d < total_batches_budget budget -> 0 < batches_per_plugin budget ->
     (exists p, p ∈ ps /\ entries_of (d_queue d) p <> []) -> handed (d_queue d) κ ps <> []).
Proof.
  intros Hv Hlen Hnd Hreg Hvis. revert d Hv Hreg.
  induction Hvis as [|o p offs ps Ho Hvis IH]; intros d Hv Hreg.
  { exists d, (fun _ => 0%nat). rewrite handed_idle. split; [done|]. split; [done|].
    split; [apply same_boundary_refl|]. split; [apply round_effect_idle|]. rewrite len_nil.
    split; [done|]. split; [lia|]. split; [lia|]. intros _ _ (p & Hp & _). by apply elem_of_nil in Hp. }
  apply NoDup_cons in Hnd as [Hn Hnd]. specialize (IH Hnd). cbn [drain_round].
  destruct (Z.leb_spec (total_batches_budget budget) (d_total d)) as [Hb|Hb].
  { exists d, (fun _ => 0%nat). rewrite handed_idle. split; [done|]. split; [done|].
    split; [apply same_boundary_refl|]. split; [apply round_effect_idle|]. rewrite len_nil.
    split; [done|]. split; [lia|]. split; lia. }
  rewrite Ho. cbn [mbind option_bind]. destruct (Hreg p ltac:(by left)) as [q Hp].
  destruct (queue_counts _ p q (proj1 Hv) Hp) as [Hqi _].
  pose proof (pq_items _ _ _ (bi_queues _ (proj1 Hv) p q Hp)) as Hit.
  pose proof (bi_bound _ (proj1 Hv)) as [_ Hbi]. pose proof (bi_limits _ (proj1 Hv)) as [_ [_ Hli]].
  destruct (drain_plugin_spec (S (queue_length (d_queue d) p)) d at_ms p
    ((start + Z.of_nat o) mod len order) budget 0 0 q) as
    (d1 & q1 & k & E1 & Hv1 & Hb1 & Hp1 & Ht1 & Hm1 & Htot1 & Hmax1 & Hw1 & Hgo1); try done; try lia.
  { unfold queue_length. rewrite Hp. cbn. lia. }
  rewrite E1. cbn [mbind option_bind].
  destruct (IH d1 Hv1) as (d2 & κ & E2 & Hv2 & Hb2 & [He2 He2'] & Hm2 & Htot2 & Hmax2 & Hgo2).
  { intros p' Hp'. rewrite Hp1, lookup_insert. case_decide; [eauto | apply Hreg; by right]. }
  set (κ' := fun x => if decide (x = p) then k else κ x).
  assert (Hh : handed (d_queue d) κ' (p :: ps) =
    map (pair p) (take k (entries q)) ++ handed (d_queue d1) κ ps).
  { unfold handed at 1. cbn [flat_map]. f_equal.
    - unfold κ'. rewrite decide_True by done. unfold entries_of. by rewrite Hp.
    - apply handed_ext. intros p' Hp'. assert (p' <> p) by congruence. unfold κ', entries_of.
      rewrite decide_False by done. split; [done|]. by rewrite Hp1, lookup_insert_ne by congruence. }
  assert (Hk : len (take k (entries q)) = Z.of_nat k).
  { destruct Hw1 as (Hk & _). unfold len. rewrite length_take. lia. }
  exists d2, κ'. rewrite Hh. split; [done|]. split; [done|]. split; [by eapply same_boundary_trans|].
  split.
  { split.
    - intros p' [Hne Hn']%not_elem_of_cons. by rewrite He2, Hp1, lookup_insert_ne by done.
    - intros p' q' Hin Hq'. unfold κ'. case_decide as Hpp.
      + subst p'. assert (q' = q) as -> by congruence. exists q1. split; [|done].
        by rewrite He2, Hp1, lookup_insert_eq.
      + apply elem_of_cons in Hin as [? | Hin]; [done|]. apply He2'; [done|].
        by rewrite Hp1, lookup_insert_ne by done. }
  split; [by rewrite merge_steps_app, <- Hm1, <- Hm2|].
  rewrite len_app, len_map, Hk. split; [lia|]. split; [lia|].
  intros Hlt Hbp (p' & Hin & Hne) Happ. apply app_eq_nil in Happ as [H1 H2]. apply map_eq_nil in H1.
  rewrite H1, len_nil in Hk. apply elem_of_cons in Hin as [-> | Hin].
  - unfold entries_of in Hne. rewrite Hp in Hne. cbn in Hne. specialize (Hgo1 Hb eq_refl Hbp Hne). lia.
  - apply Hgo2 in H2; [done | lia | done|]. exists p'. split; [done|].
    unfold entries_of in *. rewrite Hp1, lookup_insert_ne; [done|]. congruence.
Qed.

(** * Settling the producers *)

Lemma reconcile_all_spec s at_ms g L :
  qinv s -> NoDup L -> (forall p, p ∈ L -> is_Some (plugins s !! p)) ->
  exists s', reconcile_all s at_ms g L = Some s' /\ qinv s' /\ same_boundary s s' /\
    forall p, plugins s' !! p = if bool_decide (p ∈ L) then settle <$> plugins s !! p else plugins s !! p.
Proof.
  revert s. induction L as [|p L IH]; intros s Hv Hnd Hreg; cbn [reconcile_all].
  { exists s. split; [done|]. split; [done|]. split; [apply same_boundary_refl | done]. }
  apply NoDup_cons in Hnd as [Hn Hnd]. destruct (Hreg p ltac:(by left)) as [q Hp].
  destruct (reconcile_spec s at_ms p g q Hp) as (s1 & E1 & Hs1 & Hv1). rewrite E1. cbn [mbind option_bind].
  pose proof (qs_plugins _ _ Hs1) as Hp1. cbn in Hp1.
  destruct (IH s1 (Hv1 Hv) Hnd) as (s' & E & Hv' & Hb' & Hall).
  { intros p' Hp'. rewrite Hp1, lookup_insert. case_decide; [eauto | apply Hreg; by right]. }
  exists s'. split; [done|]. split; [done|]. split.
  { eapply same_boundary_trans; [|exact Hb']. destruct Hs1 as [A1 A2 A3 _ A5 A6 _ _]. by repeat split. }
  intros p'. rewrite Hall, Hp1, lookup_insert. destruct (decide (p = p')) as [<- | Hne].
  - rewrite bool_decide_eq_false_2, bool_decide_eq_true_2 by (done || by left). by rewrite Hp.
  - destruct (decide (p' ∈ L)).
    + by rewrite !bool_decide_eq_true_2 by (done || by right).
    + rewrite !bool_decide_eq_false_2; [done | by intros [-> | ?]%elem_of_cons | done].
Qed.

(** * A drain *)

(** The plugins in the order the drain visits them. *)
Definition visit_order (s : InboundResultQueue) : list PluginId :=
  rotate (Z.to_nat (drain_cursor s)) (order s).

Lemma visit_order_visits s :
  0 <= drain_cursor s ->
  Forall2 (fun o p => order s !! Z.to_nat
      ((drain_cursor s mod len (order s) + Z.of_nat o) mod len (order s)) = Some p)
    (seq 0 (length (order s))) (visit_order s).
Proof.
  intros Hc. apply Forall2_same_length_lookup. unfold visit_order.
  split; [by rewrite length_seq, length_rotate|].
  intros i o p Ho Hp. apply lookup_seq in Ho as [-> Hi]. cbn.
  rewrite lookup_rotate_r in Hp by done. rewrite Zplus_mod_idemp_l, <- Hp.
  unfold rotate_nat_add, len. by rewrite Z2Nat.id.
Qed.

Lemma visit_order_perm s : visit_order s ≡ₚ order s.
Proof. unfold visit_order, rotate. rewrite (Permutation_app_comm (drop _ _)). by rewrite take_drop. Qed.

(** A queue after a drain that took [k] of its live entries. *)
Definition drained_queue (l : list Entry) (k : nat) (q q' : PluginQueue) : Prop :=
  entries q' = drop k l /\ q_policy q' = q_policy q /\
  q_state q' = settled (q <| entries := drop k l |>).

Lemma entries_live s1 s p :
  active s1 = active s -> plugins s1 = reclaimed_queue s <$> plugins s -> entries_of s1 p = live s p.
Proof.
  intros Ha Hp. unfold entries_of, live. rewrite Hp, lookup_fmap. by destruct (plugins s !! p).
Qed.

Lemma handed_live s1 s κ ps :
  active s1 = active s -> plugins s1 = reclaimed_queue s <$> plugins s ->
  handed s1 κ ps = flat_map (fun p => map (pair p) (take (κ p) (live s p))) ps.
Proof.
  intros Ha Hp. unfold handed. apply flat_map_ext. intros p. by rewrite (entries_live s1 s).
Qed.

Lemma drain_into_spec s at_ms (agg : A) budget :
  qinv s ->
  exists s' agg' report dropped κ,
    drain_into s at_ms agg budget = Some (s', agg', report) /\ qinv s' /\
    limits s' = limits s /\ active s' = active s /\ retirement_floor s' = retirement_floor s /\
    order s' = order s /\
    let handled := flat_map (fun p => map (pair p) (take (κ p) (live s p))) (visit_order s) in
    (agg', report) = merge_steps (agg, mkDrainReport 0 [] dropped []) handled /\
    len handled <= Z.max 0 (total_batches_budget budget) /\
    (0 < total_batches_budget budget -> 0 < batches_per_plugin budget ->
     (exists p, live s p <> []) -> handled <> []) /\
    (forall p q, plugins s !! p = Some q -> exists q', plugins s' !! p = Some q' /\
       drained_queue (live s p) (κ p) q q' /\
       (κ p <= length (live s p))%nat /\ Z.of_nat (κ p) <= Z.max 0 (batches_per_plugin budget) /\
       sum_items (take (κ p) (live s p)) <=
         Z.max (sum_items (take 1 (live s p))) (items_per_plugin budget)).
Proof.
  intros Hv. destruct (reclaim_obsolete_spec s at_ms Hv)
    as (s1 & dropped & E1 & Hv1 & L1 & L2 & L3 & L4 & L5 & Hp1).
  unfold drain_into. rewrite E1. cbn [mbind option_bind].
  destruct (Z.eqb_spec (len (order s1)) 0) as [Hz|Hz].
  { apply len_zero in Hz. rewrite L4 in Hz. exists s1, agg, (mkDrainReport 0 [] dropped []), dropped, (fun _ => 0%nat).
    assert (Hno : forall p, plugins s !! p = None).
    { intros p. destruct (plugins s !! p) eqn:E; [|done]. exfalso.
      assert (Hin : p ∈ order s) by (apply (bi_dom _ (proj1 Hv)); eauto). rewrite Hz in Hin. by apply elem_of_nil in Hin. }
    split; [done|]. split; [done|]. split; [done|]. split; [done|]. split; [done|]. split; [done|].
    assert (visit_order s = []) as -> by (apply Permutation_nil; rewrite visit_order_perm; by rewrite Hz).
    cbn. split; [done|]. split; [unfold len; cbn; lia|]. split.
    - intros _ _ (p & Hl). unfold live in Hl. by rewrite Hno in Hl.
    - intros p q Hq. by rewrite Hno in Hq. }
  assert (Hlen : 0 < len (order s1)) by (pose proof (len_nonneg (order s1)); lia).
  set (d0 := mkDrain s1 agg (mkDrainReport 0 [] dropped []) 0 None).
  destruct (drain_round_spec (order s1) (drain_cursor s1 mod len (order s1)) at_ms budget
    (seq 0 (length (order s1))) (visit_order s1) d0) as
    (d & κ & E2 & Hv2 & Hb2 & [_ Heff] & Hm & Htot & Hmax & Hgo); try done.
  { rewrite visit_order_perm. apply (bi_nodup _ (proj1 Hv1)). }
  { intros p. rewrite visit_order_perm. apply (bi_dom _ (proj1 Hv1)). }
  { apply visit_order_visits, (bi_cursor _ (proj1 Hv1)). }
  rewrite E2. cbn [mbind option_bind].
  match goal with |- context [reconcile_all ?s2 _ _ _] => set (s2' := s2) end.
  assert (Hv2' : qinv s2' /\ limits s2' = limits (d_queue d) /\ active s2' = active (d_queue d) /\
    retirement_floor s2' = retirement_floor (d_queue d) /\ order s2' = order (d_queue d) /\
    plugins s2' = plugins (d_queue d)).
  { assert (Hcur : forall c, 0 <= c -> qinv (d_queue d <| drain_cursor := c |>)).
    { intros c Hc. destruct Hv2 as [[] ?]. by split. }
    subst s2'. destruct (d_last d); [|case_match; [|by split_and!]].
    - split_and!; try done. apply Hcur. case_match; apply Z.mod_pos_bound; lia.
    - split_and!; try done. apply Hcur. apply Z.mod_pos_bound; lia. }
  destruct Hv2' as (Hv2' & M1 & M2 & M3 & M4 & M5). destruct Hb2 as (N1 & N2 & N3 & N4 & N5). cbn in N1, N2, N3, N4, N5.
  destruct (reconcile_all_spec s2' at_ms (default (retirement_floor s2') (active s2')) (order s2') Hv2'
    (bi_nodup _ (proj1 Hv2'))) as (s3 & E3 & Hv3 & (O1 & O2 & O3 & O4 & O5) & Hall).
  { intros p. apply (bi_dom _ (proj1 Hv2')). }
  rewrite E3. cbn [mbind option_bind].
  assert (Hvis : visit_order s1 = visit_order s) by (unfold visit_order; by rewrite L4, L5).
  change (d_queue d0) with s1 in Hm, Htot, Hgo, Heff. change (d_agg d0) with agg in Hm.
  change (d_report d0) with (mkDrainReport 0 [] dropped []) in Hm. change (d_total d0) with 0 in *.
  rewrite (handed_live s1 s κ (visit_order s1) L3 Hp1) in Hm, Htot, Hgo. rewrite Hvis in *.
  exists s3, (d_agg d), (d_report d), dropped, κ. split; [done|]. split; [done|].
  split; [congruence|]. split; [congruence|]. split; [congruence|]. split; [congruence|].
  cbv zeta. split; [done|]. split; [lia|]. split.
  { intros Hb1 Hb2 (p & Hne). apply Hgo; [done | done|]. exists p. rewrite (entries_live s1 s) by done.
    split; [|done]. rewrite visit_order_perm. apply (bi_dom _ (proj1 Hv)).
    unfold live in Hne. destruct (plugins s !! p); [eauto | done]. }
  intros p q Hp. assert (Hps1 : plugins s1 !! p = Some (reclaimed_queue s q)) by by rewrite Hp1, lookup_fmap, Hp.
  assert (Hl : live s p = entries (reclaimed_queue s q)) by (unfold live; by rewrite Hp).
  destruct (Heff p (reclaimed_queue s q)) as (q2 & Hq2 & (T1 & T2 & T3) & (W1 & W2 & W3)); [|done|].
  { rewrite visit_order_perm. apply (bi_dom _ (proj1 Hv)). eauto. }
  exists (settle q2). rewrite Hall, M5, Hq2, bool_decide_eq_true_2.
  2: { rewrite M4, N4, L4. apply (bi_dom _ (proj1 Hv)). eauto. }
  split; [done|]. rewrite Hl. split; [|split; [done|]; split; [lia|]; change (0 <? 0) with false in W3; cbv iota in W3; rewrite !Z.add_0_l in W3; exact W3].
  split; [done|]. split; [exact T2|]. cbn [settle q_state update]. unfold settled. rewrite T3, T2, T1. done.
Qed.

End Drain.
