(* ===== verification/IntakeFacts.v ===== *)
(** Properties of the intake boundary over every sequence of calls. *)

From S2P Require Import Prelude Generation Items Aggregator AggregatorFacts Intake IntakeInv IntakeDrain.
Import InboundResultQueue.

(** * The remaining operations keep the invariant *)

Definition limits_in_range (l : QueueLimits) : Prop :=
  in_range usize_max (limit_batches l) /\ in_range usize_max (limit_items l).

Lemma new_qinv l : limits_in_range l -> qinv (new l).
Proof.
  intros [H1 H2]. unfold in_range in *. split; [|unfold events_inv; cbn; rewrite len_nil; lia].
  split; cbn; try done; try lia.
  - constructor.
  - intros p. rewrite lookup_empty. split; [by intros ?%elem_of_nil | by intros []].
Qed.

Lemma normalize_intake_policy p :
  let p' := normalize_intake p in
  1 <= pause_at_batches p' <= capacity_batches p' /\ resume_at_batches p' < pause_at_batches p'.
Proof.
  unfold normalize_intake, clamp. cbn.
  destruct (Z.ltb_spec (pause_at_batches p) 1); [lia|].
  destruct (Z.ltb_spec (capacity_batches p `max` 1) (pause_at_batches p)); lia.
Qed.

Lemma register_qinv s p pol : qinv s -> qinv (register s p pol).
Proof.
  intros [Hi He]. unfold register. pose proof (normalize_intake_policy pol) as Hpol. cbv zeta in Hpol.
  destruct (plugins s !! p) as [q|] eqn:Hp.
  - split; [|done]. eapply (set_queue_same s p q); [done | done | | done].
    destruct (bi_queues _ Hi p q Hp). by split.
  - split; [|done]. destruct Hi as [? Hnd Hdom Hq Hb Hit ? ? ?]. split; cbn; try done.
    + apply NoDup_app. split; [done|]. split; [|apply NoDup_singleton].
      intros r Hr ->%list_elem_of_singleton. apply Hdom in Hr. rewrite Hp in Hr. by destruct Hr.
    + intros r. rewrite elem_of_app, list_elem_of_singleton, Hdom, lookup_insert.
      case_decide; [subst; split; eauto; by right|]. split; [by intros [? | ->] | by left].
    + apply map_Forall_insert_2; [|done]. split; cbn; try done. constructor.
    + rewrite map_sum_insert_None by done. cbn [entries new_plugin_queue]. rewrite len_nil. lia.
    + rewrite map_sum_insert_None by done. cbn [q_items new_plugin_queue]. lia.
Qed.

Lemma index_of_Some p l k : index_of p l = Some k -> l !! k = Some p.
Proof.
  revert k. induction l as [|x l IH]; intros k; cbn; [done|].
  destruct (String.eqb_spec x p) as [->|]; [by intros [= <-]|].
  destruct (index_of p l) as [j|]; cbn; [|done]. intros [= <-]. cbn. auto.
Qed.

Lemma index_of_elem p l : p ∈ l -> is_Some (index_of p l).
Proof.
  induction l as [|x l IH]; [by intros ?%elem_of_nil|]. intros [-> | Hp]%elem_of_cons; cbn.
  - rewrite String.eqb_refl. eauto.
  - destruct (String.eqb x p); [eauto|]. destruct (IH Hp) as [k ->]. cbn. eauto.
Qed.

Lemma elem_of_delete_nodup {A} (l : list A) k x y :
  NoDup l -> l !! k = Some x -> (y ∈ delete k l <-> y ∈ l /\ y <> x).
Proof.
  intros Hnd Hk. rewrite <- (take_drop_middle l k x Hk) in Hnd |- * at 2.
  rewrite delete_take_drop. rewrite !elem_of_app, elem_of_cons.
  apply NoDup_app in Hnd as (_ & H1 & H2). apply NoDup_cons in H2 as [H2 _].
  split.
  - intros [Hy | Hy]; (split; [tauto|]); intros ->; [apply (H1 x Hy); by left | done].
  - intros [[Hy | [-> | Hy]] Hne]; tauto.
Qed.

Lemma unregister_qinv s p : qinv s -> qinv (unregister s p).1.
Proof.
  intros [Hi He]. unfold unregister. destruct (plugins s !! p) as [q|] eqn:Hp; [|done].
  destruct (queue_counts s p q Hi Hp) as [Hq1 Hq2]. pose proof (len_nonneg (entries q)).
  assert (Hin : p ∈ order s) by (apply (bi_dom _ Hi); eauto). destruct (index_of_elem _ _ Hin) as [k Hk].
  pose proof (index_of_Some _ _ _ Hk) as Hlk. cbn [order update]. rewrite Hk.
  assert (Hbody : forall c, 0 <= c -> qinv (s <| plugins ::= delete p |>
    <| total_batches ::= fun n => saturating_sub n (len (entries q)) |>
    <| total_items ::= fun n => saturating_sub n (q_items q) |>
    <| order ::= delete k |> <| drain_cursor := c |>
    <| events ::= List.filter (fun e => negb (String.eqb (event_plugin e) p)) |>)).
  { intros c Hc. unfold saturating_sub.
    split; [|unfold events_inv in *; cbn; etrans; [|exact He]; clear; induction (events s) as [|x l IH]; cbn;
      [done | case_match; rewrite ?len_cons; lia]].
    destruct Hi as [? Hnd Hdom Hqs Hb Hit [B1 B2] ? ?]. split; cbn; try done.
    - rewrite delete_take_drop. apply (sublist_NoDup _ _ Hnd). rewrite <- delete_take_drop. apply sublist_delete.
    - intros r. rewrite (elem_of_delete_nodup _ _ _ _ Hnd Hlk), Hdom, lookup_delete.
      case_decide; [subst; split; [tauto | by intros []] | naive_solver].
    - by apply map_Forall_delete.
    - rewrite (map_sum_delete _ _ _ _ Hp) in Hb. lia.
    - rewrite (map_sum_delete _ _ _ _ Hp) in Hit. lia.
    - lia. }
  pose proof (bi_cursor _ Hi) as Hc.
  cbn [order update]. destruct (delete k (order s)) as [|x l] eqn:El; [by apply (Hbody 0)|].
  assert (Hpos : 0 < len (delete k (order s))) by (rewrite El, len_cons; pose proof (len_nonneg l); lia).
  cbn [drain_cursor update]. destruct (Z.of_nat k <? drain_cursor s).
  - apply (Hbody ((drain_cursor s - 1) mod len (delete k (order s)))). apply Z.mod_pos_bound. lia.
  - apply (Hbody (drain_cursor s mod len (delete k (order s)))). apply Z.mod_pos_bound. lia.
Qed.

Lemma begin_generation_qinv s g : qinv s -> qinv (begin_generation s g).
Proof.
  intros [Hi He]. unfold begin_generation. destruct (Z.ltb_spec g (retirement_floor s)); [done|].
  destruct (is_some_and _ _) eqn:Ea; [done|]. split; [|done]. destruct Hi as [? ? ? Hq ? ? ? Hact ?].
  split; cbn; try done. intros p q Hp. destruct (Hq p q Hp) as [? ? ? Hn ?]. split; try done.
  eapply Forall_impl; [exact Hn|]. unfold newest. cbn. intros e. destruct (active s) as [c|]; cbn in *; [|lia].
  apply Z.leb_gt in Ea. lia.
Qed.

Lemma retire_before_qinv s g : qinv s -> qinv (retire_before s g).
Proof.
  intros [Hi He]. unfold retire_before. destruct (Z.leb_spec g (retirement_floor s)); [done|].
  cbn [active update]. destruct Hi as [? ? ? Hq ? ? ? Hact ?].
  destruct (active s) as [c|] eqn:Ea; cbn [is_some_and map_or].
  - destruct (Z.ltb_spec c g); (split; [|done]); split; cbn; rewrite ?Ea; try done.
    all: intros p q Hp; destruct (Hq p q Hp) as [? ? ? Hn ?]; split; try done.
    all: eapply Forall_impl; [exact Hn|]; unfold newest; cbn; rewrite ?Ea; cbn; lia.
  - split; [|done]. split; cbn; rewrite ?Ea; try done.
    intros p q Hp. destruct (Hq p q Hp) as [? ? ? Hn ?]. split; try done.
    eapply Forall_impl; [exact Hn|]. unfold newest. cbn. rewrite ?Ea. cbn. lia.
Qed.

Lemma take_events_qinv s : qinv s -> qinv (take_events s).1.
Proof.
  intros [Hi He]. pose proof (bi_limits _ Hi) as [[? ?] _].
  split; [destruct Hi; by split|]. unfold events_inv. cbn. rewrite len_nil. done.
Qed.

(** * Executions *)

Section Executions.

Context {A : Type} `{!ResultAggregator A}.

Inductive intake_op : Type :=
| InRegister (p : PluginId) (pol : IntakePolicy)
| InUnregister (p : PluginId)
| InBegin (g : Generation)
| InRetire (g : Generation)
| InSubmit (at_ms : Z) (i : InboundBatch)
| InDrain (at_ms : Z) (budget : DrainBudget)
| InTakeEvents.

(** One call on the boundary and the aggregator behind it. *)
Definition intake_step (st : InboundResultQueue * A) (o : intake_op) : option (InboundResultQueue * A) :=
  let (s, agg) := st in
  match o with
  | InRegister p pol => Some (register s p pol, agg)
  | InUnregister p => Some ((unregister s p).1, agg)
  | InBegin g => Some (begin_generation s g, agg)
  | InRetire g => Some (retire_before s g, agg)
  | InSubmit at_ms i => '(s, _) ← submit s at_ms i; Some (s, agg)
  | InDrain at_ms budget => '(s, agg, _) ← drain_into s at_ms agg budget; Some (s, agg)
  | InTakeEvents => Some ((take_events s).1, agg)
  end.

Fixpoint intake_run (st : InboundResultQueue * A) (ops : list intake_op)
    : option (InboundResultQueue * A) :=
  match ops with
  | [] => Some st
  | o :: ops' => st' ← intake_step st o; intake_run st' ops'
  end.

Lemma intake_step_total s agg o :
  qinv s -> exists s' agg', intake_step (s, agg) o = Some (s', agg') /\ qinv s' /\ limits s' = limits s.
Proof.
  intros Hv. destruct o; cbn [intake_step].
  - do 2 eexists. split; [done|]. split; [by apply register_qinv|]. unfold register. by case_match.
  - do 2 eexists. split; [done|]. split; [by apply unregister_qinv|]. unfold unregister. by repeat case_match.
  - do 2 eexists. split; [done|]. split; [by apply begin_generation_qinv|].
    unfold begin_generation. by repeat case_match.
  - do 2 eexists. split; [done|]. split; [by apply retire_before_qinv|].
    unfold retire_before. by repeat case_match.
  - destruct (submit_spec s at_ms i Hv) as (s' & r & -> & Hv' & (Hl & _) & _). cbn. eauto.
  - destruct (drain_into_spec s at_ms agg budget Hv) as (s' & agg' & rep & dr & κ & -> & Hv' & Hl & _). cbn. eauto.
  - do 2 eexists. split; [done|]. split; [by apply take_events_qinv | done].
Qed.

Lemma intake_run_total s agg ops :
  qinv s -> exists s' agg', intake_run (s, agg) ops = Some (s', agg') /\ qinv s' /\ limits s' = limits s.
Proof.
  revert s agg. induction ops as [|o ops IH]; intros s agg Hv; [by eauto|]. cbn [intake_run].
  destruct (intake_step_total s agg o Hv) as (s1 & agg1 & -> & Hv1 & Hl1). cbn [mbind option_bind].
  destruct (IH s1 agg1 Hv1) as (s2 & agg2 & -> & Hv2 & Hl2). do 2 eexists. split; [done|]. split; [done|]. congruence.
Qed.

Lemma intake_run_inv l agg ops s agg' :
  limits_in_range l -> intake_run (new l, agg) ops = Some (s, agg') -> qinv s /\ limits s = l.
Proof.
  intros Hl Hr. destruct (intake_run_total (new l) agg ops (new_qinv l Hl)) as (s' & a' & E & Hv & Hlim).
  rewrite E in Hr. by simplify_eq.
Qed.

(** * What the boundary promises *)

(** No sequence of calls, with any aggregator behind the boundary, makes
    it panic: no [expect] fails, no counter under- or overflows and the
    eviction loop ends.  Afterwards the resident-work counters are exactly the
    sums over the queues, they respect the boundary's limits, and so does the
    ring of recent events. *)
Theorem intake_never_panics l (agg : A) ops :
  limits_in_range l ->
  exists s agg', intake_run (new l, agg) ops = Some (s, agg') /\
    total_batches s = map_sum (fun q => len (entries q)) (plugins s) /\
    total_items s = map_sum (fun q => sum_items (entries q)) (plugins s) /\
    total_batches s <= limit_batches l /\ total_items s <= limit_items l /\
    len (events s) <= limit_batches l.
Proof.
  intros Hl. destruct (intake_run_total (new l) agg ops (new_qinv l Hl)) as (s & agg' & E & [Hi He] & Hlim).
  exists s, agg'. split; [done|]. pose proof (bi_bound _ Hi) as [B1 B2]. unfold events_inv in He.
  rewrite Hlim in *. cbn in B1, B2, He. split_and!; try done; [apply Hi|].
  rewrite (bi_items _ Hi). apply map_sum_ext. intros p q Hp. apply (pq_items _ _ _ (bi_queues _ Hi p q Hp)).
Qed.

(** C30: a submission is all or nothing.  A refused batch leaves every
    producer's batches of the active generation exactly as they were; an
    admitted one, necessarily of the active generation, is appended to its
    producer's queue, no other producer loses a batch, and batches are evicted
    (oldest first) only under the producer's replace-oldest policy. *)
Theorem submit_atomic l (agg : A) ops s agg' at_ms i :
  limits_in_range l -> intake_run (new l, agg) ops = Some (s, agg') ->
  let p := batch_plugin (ib_batch i) in
  exists s' r, submit s at_ms i = Some (s', r) /\
    (forall p', p' <> p -> live s' p' = live s p') /\
    match r with
    | Err _ => live s' p = live s p
    | Ok state =>
        active s = Some (batch_generation (ib_batch i)) /\ producer_state s' p = Some state /\
        exists q evicted retained, plugins s !! p = Some q /\
          live s p = evicted ++ retained /\ live s' p = retained ++ [mkEntry at_ms i] /\
          (evicted <> [] -> overflow (q_policy q) = EvictOldest)
    end.
Proof.
  intros Hl Hr p. destruct (intake_run_inv _ _ _ _ _ Hl Hr) as [Hv _].
  destruct (submit_spec s at_ms i Hv) as (s' & r & E & _ & _ & Hother & Hcase).
  exists s', r. split; [done|]. split; [done|]. destruct r as [st|]; [|done].
  destruct Hcase as (q & q' & ev & re & Hq & Hq' & Ha & H1 & H2 & H3 & <- & _). split; [done|].
  split; [unfold producer_state; fold p in Hq'; by rewrite Hq'|]. by exists q, ev, re.
Qed.

(** Watermarks with the gap that [register] enforces. *)
Definition state_settled (q : PluginQueue) : Prop :=
  match q_state q with
  | Running => len (entries q) < pause_at_batches (q_policy q)
  | Paused => resume_at_batches (q_policy q) < len (entries q)
  | Disconnected => True
  end.

Lemma settled_state q : settled q = q_state q -> state_settled q.
Proof.
  unfold settled, state_settled. destruct (q_state q); repeat case_match; reflect_bools; done.
Qed.

Lemma settle_state q :
  resume_at_batches (q_policy q) < pause_at_batches (q_policy q) -> state_settled (settle q).
Proof. intros H. apply settled_state. by rewrite settled_idem. Qed.

(** Backpressure is exact.  Whenever a submission succeeds, and for every
    producer after a drain, a running producer is below its pause watermark and
    a paused one is above its resume watermark: a producer is never left
    running over its limit nor left paused once it has drained. *)
Theorem backpressure_settled l (agg : A) ops s agg' :
  limits_in_range l -> intake_run (new l, agg) ops = Some (s, agg') ->
  (forall at_ms i s' st, submit s at_ms i = Some (s', Ok st) ->
     exists q, plugins s' !! batch_plugin (ib_batch i) = Some q /\ q_state q = st /\ state_settled q) /\
  (forall at_ms budget s' agg'' report, drain_into s at_ms agg' budget = Some (s', agg'', report) ->
     forall p q, plugins s' !! p = Some q -> state_settled q).
Proof.
  intros Hl Hr. destruct (intake_run_inv _ _ _ _ _ Hl Hr) as [Hv _]. split.
  - intros at_ms i s' st E. destruct (submit_spec s at_ms i Hv) as (s1 & r & E1 & _ & _ & _ & Hcase).
    rewrite E in E1. injection E1 as <- <-.
    destruct Hcase as (q & q' & ev & re & _ & Hq' & _ & _ & _ & _ & <- & Hset & _).
    exists q'. split; [done|]. split; [done|]. by apply settled_state.
  - intros at_ms budget s' agg'' report E p q Hp.
    destruct (drain_into_spec s at_ms agg' budget Hv) as (s1 & a1 & r1 & d1 & κ & E1 & Hv1 & _ & _ & _ & Ho & _ & _ & _ & Hall).
    rewrite E in E1. injection E1 as <- <- <-.
    assert (is_Some (plugins s !! p)) as [q0 Hq0].
    { apply (bi_dom _ (proj1 Hv)). rewrite <- Ho. apply (bi_dom _ (proj1 Hv1)). eauto. }
    destruct (Hall p q0 Hq0) as (q' & Hq' & (He & Hpol & Hst) & _). rewrite Hp in Hq'. injection Hq' as <-.
    pose proof (pq_policy _ _ _ (bi_queues _ (proj1 Hv) p q0 Hq0)) as [_ Hgap].
    apply settled_state. match type of Hst with _ = settled ?X => set (qd := X) in Hst end.
    rewrite Hst, <- (settled_idem qd Hgap). unfold settle. unfold settled at 1 2.
    cbn [q_state q_policy entries update]. by rewrite Hst, Hpol, He.
Qed.


(** * Against an atomic aggregator *)

(** Merging a list of batches, all of which must be accepted. *)
Fixpoint accept_all (a : A) (l : list (PluginId * Entry)) : option A :=
  match l with
  | [] => Some a
  | x :: l' => match accept a (ib_batch (inbound x.2)) with
               | (a', Ok _) => accept_all a' l'
               | (_, Err _) => None
               end
  end.

(** The line of the drain report for one merged batch. *)
Definition merged_record (x : PluginId * Entry) : MergedBatch :=
  let b := ib_batch (inbound x.2) in
  mkMergedBatch x.1 (admitted_at_ms x.2) (batch_generation b) (batch_state b) (entry_items x.2).

Lemma merge_steps_atomic `{!AtomicAggregator A} a r l :
  exists m, m `sublist_of` l /\
    let '(a', r') := merge_steps (a, r) l in
    accept_all a m = Some a' /\
    report_merged r' = report_merged r + len m /\
    report_batches r' = report_batches r ++ map merged_record m /\
    len l = len m + (len (report_rejected r') - len (report_rejected r)).
Proof.
  revert a r. induction l as [|x l IH]; intros a r.
  { exists []. cbn. rewrite app_nil_r, len_nil. split_and!; try done; lia. }
  unfold merge_steps. cbn [foldl]. unfold merge_step at 2. cbn [fst snd].
  destruct (accept a (ib_batch (inbound x.2))) as [a1 [[]|e]] eqn:E.
  - match goal with |- context [foldl merge_step (a1, ?r1) l] => destruct (IH a1 r1) as (m & Hm & H) end.
    unfold merge_steps in H. destruct (foldl _ _ _) as [a' r']. cbn in H. destruct H as (H1 & H2 & H3 & H4).
    exists (x :: m). split; [by apply sublist_skip|]. cbn [accept_all]. rewrite E. split; [done|].
    rewrite !len_cons, H2, H3, <- app_assoc. split_and!; [lia | done | lia].
  - apply accept_atomic in E as ->.
    match goal with |- context [foldl merge_step (a, ?r1) l] => destruct (IH a r1) as (m & Hm & H) end.
    unfold merge_steps in H. destruct (foldl _ _ _) as [a' r']. cbn in H. destruct H as (H1 & H2 & H3 & H4).
    exists m. split; [by apply sublist_cons|]. rewrite len_app, len_cons, len_nil in H4. rewrite len_cons.
    split_and!; try done. lia.
Qed.

(** Behind the boundary the aggregator sees only what it accepted.  With
    an aggregator whose refusals leave no trace, its state after a drain is the
    one reached by merging, in order, just the batches the report lists as
    merged; these are live batches of the boundary, and every other batch that
    was handed over is reported as refused. *)
Theorem drain_merges_accepted `{!AtomicAggregator A} l (agg : A) ops s agg1 at_ms budget :
  limits_in_range l -> intake_run (new l, agg) ops = Some (s, agg1) ->
  exists s' agg2 report handed_over merged_entries,
    drain_into s at_ms agg1 budget = Some (s', agg2, report) /\
    merged_entries `sublist_of` handed_over /\
    Forall (fun x => x.2 ∈ live s x.1) handed_over /\
    accept_all agg1 merged_entries = Some agg2 /\
    report_merged report = len merged_entries /\
    report_batches report = map merged_record merged_entries /\
    len handed_over = len merged_entries + len (report_rejected report).
Proof.
  intros Hl Hr. destruct (intake_run_inv _ _ _ _ _ Hl Hr) as [Hv _].
  destruct (drain_into_spec s at_ms agg1 budget Hv)
    as (s' & a2 & rep & dr & κ & E & _ & _ & _ & _ & _ & Hm & _).
  set (handled := flat_map _ _) in Hm.
  destruct (merge_steps_atomic agg1 (mkDrainReport 0 [] dr []) handled) as (m & Hs & H).
  rewrite <- Hm in H. cbn in H. destruct H as (H1 & H2 & H3 & H4).
  exists s', a2, rep, handled, m. rewrite len_nil in H4. split_and!; try done; try lia.
  apply Forall_forall. intros [p e] Hin. apply list_elem_of_In, in_flat_map in Hin as (p' & _ & Hin).
  apply in_map_iff in Hin as (e' & [= -> ->] & Hin). apply list_elem_of_In in Hin.
  by apply (subseteq_take _ _ e) in Hin.
Qed.

End Executions.

(** * Concrete executions *)

Definition sample_limits : QueueLimits := mkQueueLimits 8 64.
Definition sample_policy : IntakePolicy := mkIntakePolicy 3 30 2 1 EvictOldest.

(** The aggregator behind the boundary, on the same generation. *)
Definition sample_aggregator : MemoryResultAggregator.MemoryResultAggregator :=
  MemoryResultAggregator.begin_generation (MemoryResultAggregator.new default_limits) 3.

Definition inbound_of (plugin : PluginId) (state : BatchState) (ids : list string) : InboundBatch :=
  mkInbound (mkResultBatch 3 plugin state (map (fun id => plain_item plugin id "label") ids)) High.

(** Two producers; the first fills its queue, the second has ended its stream. *)
Definition sample_intake_ops : list intake_op :=
  [InRegister "apps" sample_policy; InRegister "files" sample_policy; InBegin 3;
   InSubmit 1 (inbound_of "apps" Partial ["a"]); InSubmit 2 (inbound_of "apps" Partial ["b"; "c"]);
   InSubmit 3 (inbound_of "apps" Partial ["d"]); InSubmit 4 (inbound_of "files" Final ["e"])].

Definition sample_boundary : InboundResultQueue * MemoryResultAggregator.MemoryResultAggregator :=
  default (new sample_limits, sample_aggregator)
    (intake_run (new sample_limits, sample_aggregator) sample_intake_ops).

Lemma sample_limits_in_range : limits_in_range sample_limits.
Proof. repeat split; discriminate. Qed.

Lemma sample_runs :
  intake_run (new sample_limits, sample_aggregator) sample_intake_ops =
    Some (sample_boundary.1, sample_boundary.2).
Proof. vm_compute. reflexivity. Qed.

Lemma intake_never_panics_witness :
  exists s agg', intake_run (new sample_limits, sample_aggregator) sample_intake_ops = Some (s, agg') /\
    total_batches s <= 8 /\ total_items s <= 64 /\ len (events s) <= 8.
Proof.
  destruct (intake_never_panics sample_limits sample_aggregator sample_intake_ops sample_limits_in_range)
    as (s & agg' & E & _ & _ & H1 & H2 & H3).
  exists s, agg'. split; [exact E|]. split; [exact H1|]. split; [exact H2 | exact H3].
Defined.

(** The fourth batch of a producer with room for three evicts its oldest. *)
Lemma submit_atomic_witness :
  exists s' evicted retained, submit sample_boundary.1 9 (inbound_of "apps" Partial ["f"]) = Some (s', Ok Paused) /\
    live sample_boundary.1 "apps" = evicted ++ retained /\
    live s' "apps" = retained ++ [mkEntry 9 (inbound_of "apps" Partial ["f"])] /\
    live s' "files" = live sample_boundary.1 "files".
Proof.
  destruct (submit_atomic sample_limits sample_aggregator sample_intake_ops sample_boundary.1 sample_boundary.2
    9 (inbound_of "apps" Partial ["f"]) sample_limits_in_range sample_runs) as (s' & r & E & Hother & Hr).
  assert (Er : (snd <$> submit sample_boundary.1 9 (inbound_of "apps" Partial ["f"])) = Some (Ok Paused))
    by (vm_compute; reflexivity).
  rewrite E in Er. cbn in Er. injection Er as ->. destruct Hr as (_ & _ & q & ev & re & _ & H1 & H2 & _).
  exists s', ev, re. split; [exact E|]. split; [exact H1|]. split; [exact H2|]. apply Hother. discriminate.
Defined.

Definition sample_budget : DrainBudget := mkDrainBudget 2 10 3.

Definition sample_drained :
    InboundResultQueue * MemoryResultAggregator.MemoryResultAggregator * DrainReport :=
  default (sample_boundary, mkDrainReport 0 [] 0 [])
    (drain_into sample_boundary.1 10 sample_boundary.2 sample_budget).

Lemma backpressure_settled_witness :
  exists q, plugins sample_drained.1.1 !! "apps" = Some q /\ state_settled q.
Proof.
  destruct (backpressure_settled sample_limits sample_aggregator sample_intake_ops sample_boundary.1
    sample_boundary.2 sample_limits_in_range sample_runs) as [_ H].
  assert (E : drain_into sample_boundary.1 10 sample_boundary.2 sample_budget =
    Some (sample_drained.1.1, sample_drained.1.2, sample_drained.2)) by (vm_compute; reflexivity).
  destruct (plugins sample_drained.1.1 !! "apps") as [q|] eqn:Hq; [|vm_compute in Hq; discriminate Hq].
  exists q. split; [reflexivity|]. exact (H 10 sample_budget _ _ _ E "apps" q Hq).
Defined.


Lemma drain_merges_accepted_witness :
  exists s' agg2 report merged_entries,
    drain_into sample_boundary.1 10 sample_boundary.2 sample_budget = Some (s', agg2, report) /\
    accept_all sample_boundary.2 merged_entries = Some agg2 /\
    report_batches report = map merged_record merged_entries.
Proof.
  destruct (drain_merges_accepted sample_limits sample_aggregator sample_intake_ops sample_boundary.1
    sample_boundary.2 10 sample_budget sample_limits_in_range sample_runs)
    as (s' & agg2 & report & handed_over & m & H1 & _ & _ & H2 & _ & H3 & _).
  exists s', agg2, report, m. split; [exact H1|]. split; [exact H2 | exact H3].
Defined.
