(* ===== verification/Concurrency.v ===== *)
(** Concurrency budgets: [crikey-plugin-supervisor/src/concurrency.rs].

    One budget is shared by every dispatch thread of a plugin, and admission is
    a compare-and-swap loop on an atomic counter.  The model is an interleaving
    machine: each atomic access is one step of one thread.  A read-modify-write
    acts on the newest value of its cell, a plain load (and the value a failed
    compare-and-swap observes) may return any value the cell has ever held, and
    the weak compare-and-swap may fail for no reason; this covers the orderings
    [Acquire], [AcqRel] and [Relaxed] that the code uses.  [None] is a panic: an
    index out of range or an overflowing [current + 1]. *)

From S2P Require Import Prelude.

(** * Kinds and refusal counters *)

Inductive BudgetKind : Type := Suggestion | ActionKind | Background | CatalogKind.
#[export] Instance BudgetKind_eq_dec : EqDecision BudgetKind.
Proof. solve_decision. Defined.

Definition ALL : list BudgetKind := [Suggestion; ActionKind; Background; CatalogKind].

Definition index (k : BudgetKind) : nat :=
  match k with Suggestion => 0 | ActionKind => 1 | Background => 2 | CatalogKind => 3 end.

Definition KIND_COUNT : nat := 4.

Record ConcurrencyRefusals := mkRefusals {
  suggestion : Z;
  action : Z;
  background : Z;
  catalog : Z;
}.
#[export] Instance eta_ConcurrencyRefusals : Eta ConcurrencyRefusals := fun r =>
  mkRefusals (suggestion r) (action r) (background r) (catalog r).

Definition no_refusals : ConcurrencyRefusals := mkRefusals 0 0 0 0.

Module Refusals.

Definition of_kind (r : ConcurrencyRefusals) (k : BudgetKind) : Z :=
  match k with
  | Suggestion => suggestion r
  | ActionKind => action r
  | Background => background r
  | CatalogKind => catalog r
  end.

Definition add (r : ConcurrencyRefusals) (k : BudgetKind) (delta : Z) : ConcurrencyRefusals :=
  let bump := fun n => saturating_add u64_max n delta in
  match k with
  | Suggestion => r <| suggestion ::= bump |>
  | ActionKind => r <| action ::= bump |>
  | Background => r <| background ::= bump |>
  | CatalogKind => r <| catalog ::= bump |>
  end.

Definition total (r : ConcurrencyRefusals) : Z :=
  saturating_add u64_max (saturating_add u64_max
    (saturating_add u64_max (suggestion r) (action r)) (background r)) (catalog r).

End Refusals.

(** * Atomic cells *)

(** The newest value and every earlier one. *)
Record Atomic := mkAtomic { value : Z; past : list Z }.

(** What a load returns: the [n]-th remembered value, the newest by default. *)
Definition load (c : Atomic) (n : nat) : Z := default (value c) (past c !! n).

Definition write (c : Atomic) (v : Z) : Atomic := mkAtomic v (value c :: past c).

(** [compare_exchange_weak]: [spurious] failures and the value a failure
    observes are chosen by the environment. *)
Definition compare_exchange_weak (c : Atomic) (current next : Z) (spurious : bool) (n : nat)
    : Atomic * result unit Z :=
  if negb spurious && (value c =? current) then (write c next, Ok ()) else (c, Err (load c n)).

(** [fetch_sub] wraps around. *)
Definition fetch_sub (max : Z) (c : Atomic) (d : Z) : Atomic := write c ((value c - d) mod (max + 1)).

(** * The budget *)

Record ConcurrencySection := mkSection {
  max_suggestion_requests : option Z;
  max_action_requests : option Z;
  max_background_tasks : option Z;
  max_catalog_tasks : option Z;
}.

Definition DEFAULT_SUGGESTION_BUDGET : Z := 1.
Definition DEFAULT_ACTION_BUDGET : Z := 1.
Definition DEFAULT_BACKGROUND_BUDGET : Z := 1.
Definition DEFAULT_CATALOG_BUDGET : Z := 1.

Record ConcurrencyBudget := mkBudget {
  limits : list Z;
  in_flight_cells : list Atomic;
  refusal_cells : list Atomic;
}.
#[export] Instance eta_ConcurrencyBudget : Eta ConcurrencyBudget := fun b =>
  mkBudget (limits b) (in_flight_cells b) (refusal_cells b).

Definition from_section (s : ConcurrencySection) : ConcurrencyBudget := {|
  limits := [default DEFAULT_SUGGESTION_BUDGET (max_suggestion_requests s);
             default DEFAULT_ACTION_BUDGET (max_action_requests s);
             default DEFAULT_BACKGROUND_BUDGET (max_background_tasks s);
             default DEFAULT_CATALOG_BUDGET (max_catalog_tasks s)];
  in_flight_cells := replicate KIND_COUNT (mkAtomic 0 []);
  refusal_cells := replicate KIND_COUNT (mkAtomic 0 []);
|}.

Definition limit (b : ConcurrencyBudget) (k : BudgetKind) : option Z := limits b !! index k.

(** The accessors [in_flight] and [refusals], as the newest values. *)
Definition in_flight (b : ConcurrencyBudget) (k : BudgetKind) : option Z :=
  value <$> in_flight_cells b !! index k.
Definition refusals (b : ConcurrencyBudget) (k : BudgetKind) : option Z :=
  value <$> refusal_cells b !! index k.

(** [refusals_snapshot]: one load per kind, in slot order. *)
Definition refusals_snapshot (b : ConcurrencyBudget) : option ConcurrencyRefusals :=
  foldl (fun acc k => snapshot ← acc; n ← refusals b k; Some (Refusals.add snapshot k n))
    (Some no_refusals) ALL.

(** * Admission, one atomic access at a time *)

(** The points of [admit] between two atomic accesses: at the head of the loop
    with a value of [current], or in the [fetch_update] that counts a refusal
    with the count it loaded. *)
Inductive Call : Type :=
| Looping (k : BudgetKind) (current : Z)
| Refusing (k : BudgetKind) (count : Z).

Inductive Progress : Type :=
| Continue (c : Call)
| Granted (k : BudgetKind)
| Refused (k : BudgetKind).

(** The initial load. *)
Definition admit_enter (b : ConcurrencyBudget) (k : BudgetKind) (n : nat) : option Call :=
  c ← in_flight_cells b !! index k; Some (Looping k (load c n)).

(** One iteration of the loop: the test against the limit, then either the
    load that starts [fetch_update] or the compare-and-swap. *)
Definition admit_iterate (b : ConcurrencyBudget) (k : BudgetKind) (current : Z) (spurious : bool) (n : nat)
    : option (ConcurrencyBudget * Progress) :=
  max ← limits b !! index k;
  if max <=? current then
    r ← refusal_cells b !! index k;
    Some (b, Continue (Refusing k (load r n)))
  else
    c ← in_flight_cells b !! index k;
    next ← checked_add u32_max current 1;
    match compare_exchange_weak c current next spurious n with
    | (c, Ok _) => Some (b <| in_flight_cells ::= <[index k := c]> |>, Granted k)
    | (_, Err observed) => Some (b, Continue (Looping k observed))
    end.

(** One compare-and-swap of [fetch_update]. *)
Definition admit_refuse (b : ConcurrencyBudget) (k : BudgetKind) (count : Z) (spurious : bool) (n : nat)
    : option (ConcurrencyBudget * Progress) :=
  r ← refusal_cells b !! index k;
  match compare_exchange_weak r count (saturating_add u64_max count 1) spurious n with
  | (r, Ok _) => Some (b <| refusal_cells ::= <[index k := r]> |>, Refused k)
  | (_, Err observed) => Some (b, Continue (Refusing k observed))
  end.

(** [Drop] of a [BudgetGuard] or an [OwnedBudgetGuard]. *)
Definition drop_guard (b : ConcurrencyBudget) (k : BudgetKind) : option ConcurrencyBudget :=
  c ← in_flight_cells b !! index k;
  Some (b <| in_flight_cells ::= <[index k := fetch_sub u32_max c 1]> |>).

(** * The machine *)

(** The budget, the calls in progress by thread, the live guards, and the
    refusals handed out so far (not part of the program: it is what the
    counters are compared with). *)
Record World := mkWorld {
  budget : ConcurrencyBudget;
  calls : gmap nat Call;
  guards : list BudgetKind;
  refused : list BudgetKind;
}.
#[export] Instance eta_World : Eta World := fun w => mkWorld (budget w) (calls w) (guards w) (refused w).

Definition start (s : ConcurrencySection) : World := mkWorld (from_section s) ∅ [] [].

(** [Enter t k n]: idle thread [t] calls [admit k]; [Advance t sp n]: thread [t]
    performs its next atomic access; [DropGuard i]: the [i]-th live guard is
    dropped, by whichever thread owns it. *)
Inductive event : Type :=
| Enter (t : nat) (k : BudgetKind) (n : nat)
| Advance (t : nat) (spurious : bool) (n : nat)
| DropGuard (i : nat).

Definition settle_call (w : World) (t : nat) (b : ConcurrencyBudget) (p : Progress) : World :=
  match p with
  | Continue c => w <| budget := b |> <| calls ::= <[t := c]> |>
  | Granted k => w <| budget := b |> <| calls ::= delete t |> <| guards ::= cons k |>
  | Refused k => w <| budget := b |> <| calls ::= delete t |> <| refused ::= cons k |>
  end.

Definition advance (b : ConcurrencyBudget) (c : Call) (spurious : bool) (n : nat)
    : option (ConcurrencyBudget * Progress) :=
  match c with
  | Looping k current => admit_iterate b k current spurious n
  | Refusing k count => admit_refuse b k count spurious n
  end.

(** Events that do not apply (a busy thread entering, an idle one advancing, no
    such guard) change nothing. *)
Definition step (w : World) (e : event) : option World :=
  match e with
  | Enter t k n =>
      if decide (is_Some (calls w !! t)) then Some w
      else c ← admit_enter (budget w) k n; Some (w <| calls ::= <[t := c]> |>)
  | Advance t spurious n =>
      match calls w !! t with
      | None => Some w
      | Some c => '(b, p) ← advance (budget w) c spurious n; Some (settle_call w t b p)
      end
  | DropGuard i =>
      match guards w !! i with
      | None => Some w
      | Some k => b ← drop_guard (budget w) k; Some (w <| budget := b |> <| guards ::= delete i |>)
      end
  end.

Fixpoint run_events (w : World) (es : list event) : option World :=
  match es with
  | [] => Some w
  | e :: es' => w' ← step w e; run_events w' es'
  end.

(** * Invariant *)

Definition count (k : BudgetKind) (l : list BudgetKind) : Z :=
  len (List.filter (fun k' => bool_decide (k = k')) l).

Lemma count_cons k k' l : count k (k' :: l) = count k l + (if decide (k = k') then 1 else 0).
Proof. unfold count. cbn. case_bool_decide; case_decide; try done; rewrite ?len_cons; lia. Qed.

Lemma count_nonneg k l : 0 <= count k l.
Proof. apply len_nonneg. Qed.

Lemma count_delete k k' l i :
  l !! i = Some k' -> count k (delete i l) = count k l - (if decide (k = k') then 1 else 0).
Proof.
  revert i. induction l as [|x l IH]; intros [|i]; [done | done | |].
  - intros [= ->]. rewrite count_cons. change (delete 0%nat (k' :: l)) with l. lia.
  - intros H. change (delete (S i) (x :: l)) with (x :: delete i l). rewrite !count_cons, (IH i H). lia.
Qed.

Lemma count_pos k l i : l !! i = Some k -> 0 < count k l.
Proof.
  intros H. pose proof (count_delete k k l i H) as E. rewrite decide_True in E by done.
  pose proof (count_nonneg k (delete i l)). lia.
Qed.

#[export] Instance index_inj : Inj (=) (=) index.
Proof. intros [] []; by intros [=]. Qed.

(** Every value the cell ever held is in range and it now holds [v]. *)
Definition cell_wf (max v : Z) (c : Atomic) : Prop :=
  value c = v /\ in_range max v /\ Forall (in_range max) (past c).

Definition remembered (c : Atomic) (v : Z) : Prop := v ∈ value c :: past c.

(** The share of the invariant that concerns kind [k] with limit [m]. *)
Record kind_inv (w : World) (k : BudgetKind) (m : Z) : Prop := {
  ki_limit : limits (budget w) !! index k = Some m /\ in_range u32_max m;
  ki_flight : exists c, in_flight_cells (budget w) !! index k = Some c /\
    cell_wf m (count k (guards w)) c /\
    (forall t cur, calls w !! t = Some (Looping k cur) -> remembered c cur) /\
    ((exists t n, calls w !! t = Some (Refusing k n)) \/ 0 < count k (refused w) -> remembered c m);
  ki_refusals : exists r, refusal_cells (budget w) !! index k = Some r /\
    cell_wf u64_max (Z.min (count k (refused w)) u64_max) r;
}.

Definition budget_inv (lim : BudgetKind -> Z) (w : World) : Prop := forall k, kind_inv w k (lim k).

Definition section_limit (s : ConcurrencySection) (k : BudgetKind) : Z :=
  match k with
  | Suggestion => default DEFAULT_SUGGESTION_BUDGET (max_suggestion_requests s)
  | ActionKind => default DEFAULT_ACTION_BUDGET (max_action_requests s)
  | Background => default DEFAULT_BACKGROUND_BUDGET (max_background_tasks s)
  | CatalogKind => default DEFAULT_CATALOG_BUDGET (max_catalog_tasks s)
  end.

Definition section_in_range (s : ConcurrencySection) : Prop := forall k, in_range u32_max (section_limit s k).

Lemma start_inv s : section_in_range s -> budget_inv (section_limit s) (start s).
Proof.
  intros Hs k. specialize (Hs k). split; cbn.
  - split; [by destruct k | done].
  - exists (mkAtomic 0 []). split; [by destruct k|]. split.
    + split; [done|]. split; [|constructor]. unfold in_range in *. cbn. change (count k []) with 0. lia.
    + split; [intros t cur; by rewrite lookup_empty|]. intros [(t & n & H) | H].
      * by rewrite lookup_empty in H.
      * done.
  - exists (mkAtomic 0 []). split; [by destruct k|]. split; [done|]. split; [done | constructor].
Qed.

Lemma load_remembered c n : remembered c (load c n).
Proof.
  unfold remembered, load. destruct (past c !! n) eqn:E; cbn; [|by left].
  right. by eapply list_elem_of_lookup_2.
Qed.

Lemma remembered_range max v c x : cell_wf max v c -> remembered c x -> in_range max x.
Proof.
  intros (Hv & Hr & Hp) [-> | H]%elem_of_cons; [by rewrite Hv | by apply (Forall_forall (in_range max) (past c))].
Qed.

Lemma remembered_write c v x : remembered c x -> remembered (write c v) x.
Proof. unfold remembered, write. cbn. by right. Qed.

Lemma write_wf max v v' c : cell_wf max v c -> in_range max v' -> cell_wf max v' (write c v').
Proof. intros (Hv & Hr & Hp) Hv'. split; [done|]. split; [done|]. cbn. rewrite Hv. by constructor. Qed.

Definition call_kind (c : Call) : BudgetKind :=
  match c with Looping k _ | Refusing k _ => k end.

(** A step that leaves the cells, guards, refusals and calls of kind [k] alone. *)
Lemma kind_frame w w' k m :
  kind_inv w k m ->
  limits (budget w') = limits (budget w) ->
  in_flight_cells (budget w') !! index k = in_flight_cells (budget w) !! index k ->
  refusal_cells (budget w') !! index k = refusal_cells (budget w) !! index k ->
  count k (guards w') = count k (guards w) -> count k (refused w') = count k (refused w) ->
  (forall t c, calls w' !! t = Some c -> call_kind c = k -> calls w !! t = Some c) ->
  kind_inv w' k m.
Proof.
  intros [Hl (c & Hc & Hwf & Hloop & Href) Hr] El Ec Er Eg Ef Hcalls.
  split; [by rewrite El | | by rewrite Er, Ef].
  exists c. rewrite Ec, Eg, Ef. split; [done|]. split; [done|]. split.
  - intros t cur Ht. apply (Hloop t). by apply Hcalls.
  - intros [(t & n & Ht) | H]; apply Href; [|by right]. left. exists t, n. by apply Hcalls.
Qed.

(** Updating the call of thread [t] to one of another kind, or ending it. *)
Lemma other_calls (m : gmap nat Call) t c k t' c' :
  call_kind c <> k -> <[t := c]> m !! t' = Some c' -> call_kind c' = k -> m !! t' = Some c'.
Proof. intros Hne. rewrite lookup_insert. case_decide; [|done]. intros [= ->] <-. done. Qed.

Lemma ended_calls (m : gmap nat Call) t t' (c' : Call) : delete t m !! t' = Some c' -> m !! t' = Some c'.
Proof. rewrite lookup_delete. by case_decide. Qed.

Lemma enter_inv lim w t k n :
  budget_inv lim w ->
  exists c, admit_enter (budget w) k n = Some c /\ budget_inv lim (w <| calls ::= <[t := c]> |>).
Proof.
  intros Hw. destruct (Hw k) as [Hl (c & Hc & Hwf & Hloop & Href) Hr]. unfold admit_enter. rewrite Hc.
  eexists. split; [done|]. intros k'. destruct (decide (k = k')) as [<-|Hne].
  - split; [done | | done]. exists c. split; [done|]. split; [done|]. cbn. split.
    + intros t' cur. rewrite lookup_insert. case_decide; [|apply Hloop]. intros [= <-]. apply load_remembered.
    + intros [(t' & n' & H) | H]; apply Href; [|by right]. left. exists t', n'.
      rewrite lookup_insert in H. by case_decide.
  - eapply kind_frame; [apply Hw | done..|]. intros t' c'. cbn. by apply other_calls.
Qed.

Lemma iterate_inv lim w t k current spurious n :
  budget_inv lim w -> calls w !! t = Some (Looping k current) ->
  exists b p, admit_iterate (budget w) k current spurious n = Some (b, p) /\ budget_inv lim (settle_call w t b p).
Proof.
  intros Hw Ht. destruct (Hw k) as [[Hl Hm] (c & Hc & Hwf & Hloop & Href) (r & Hr & Hrwf)].
  pose proof (Hloop t current Ht) as Hcur. pose proof (remembered_range _ _ _ _ Hwf Hcur) as Hrange.
  unfold admit_iterate. rewrite Hl. cbn [mbind option_bind]. destruct (Z.leb_spec (lim k) current) as [Hfull|Hfree].
  { rewrite Hr. do 2 eexists. split; [done|]. intros k'. destruct (decide (k = k')) as [<-|Hne].
    - split; [done | | by exists r]. exists c. split; [done|]. split; [done|]. cbn. split.
      + intros t' cur. rewrite lookup_insert. case_decide; [done | apply Hloop].
      + intros _. assert (lim k = current) as -> by (unfold in_range in *; lia). done.
    - eapply kind_frame; [apply Hw | done..|]. intros t' c'. cbn. by apply other_calls. }
  rewrite Hc. cbn [mbind option_bind]. unfold checked_add.
  destruct (Z.leb_spec (current + 1) u32_max); [|unfold in_range in *; lia]. cbn [mbind option_bind].
  unfold compare_exchange_weak. destruct (negb spurious && (value c =? current)) eqn:E; reflect_bools.
  - do 2 eexists. split; [done|]. intros k'. destruct (decide (k = k')) as [<-|Hne].
    + split; [done | | by exists r]. pose proof Hwf as [Hv _].
      exists (write c (current + 1)). cbn. rewrite count_cons, decide_True, <- Hv by done.
      replace (value c + 1) with (current + 1) by lia.
      split; [by eapply list_lookup_insert_eq, lookup_lt_Some|].
      split; [eapply write_wf; [exact Hwf|]; unfold in_range in *; lia|]. split.
      * intros t' cur ?%ended_calls. eapply remembered_write, Hloop. done.
      * intros [(t' & n' & Hd%ended_calls) | Hd]; apply remembered_write, Href; [|by right]. left. by exists t', n'.
    + eapply kind_frame; [apply Hw | done | | done | | done |].
      * cbn. rewrite list_lookup_insert_ne; [done|]. by intros ?%index_inj.
      * cbn. rewrite count_cons, decide_False by congruence. lia.
      * intros t' c'. cbn. intros ?%ended_calls. done.
  - do 2 eexists. split; [done|]. intros k'. destruct (decide (k = k')) as [<-|Hne].
    + split; [done | | by exists r]. exists c. split; [done|]. split; [done|]. cbn. split.
      * intros t' cur. rewrite lookup_insert. case_decide; [intros [= <-]; apply load_remembered | apply Hloop].
      * intros [(t' & n' & Hd) | Hd]; apply Href; [|by right]. left. exists t', n'.
        rewrite lookup_insert in Hd. by case_decide.
    + eapply kind_frame; [apply Hw | done..|]. intros t' c'. cbn. by apply other_calls.
Qed.

Lemma refuse_inv lim w t k num spurious n :
  budget_inv lim w -> calls w !! t = Some (Refusing k num) ->
  exists b p, admit_refuse (budget w) k num spurious n = Some (b, p) /\ budget_inv lim (settle_call w t b p).
Proof.
  intros Hw Ht. destruct (Hw k) as [Hl (c & Hc & Hwf & Hloop & Href) (r & Hr & Hrwf)].
  unfold admit_refuse. rewrite Hr. cbn [mbind option_bind]. unfold compare_exchange_weak.
  assert (Hfull : remembered c (lim k)) by (apply Href; left; by exists t, num).
  destruct (negb spurious && (value r =? num)) eqn:E; reflect_bools; do 2 eexists; (split; [done|]);
    intros k'; (destruct (decide (k = k')) as [<-|Hne]).
  - split; [done | |].
    + exists c. split; [done|]. split; [done|]. cbn. split; [intros t' cur ?%ended_calls; by apply (Hloop t') | done].
    + pose proof Hrwf as [Hv _]. exists (write r (saturating_add u64_max num 1)). cbn.
      split; [by eapply list_lookup_insert_eq, lookup_lt_Some|]. rewrite count_cons, decide_True by done.
      pose proof (count_nonneg k (refused w)). pose proof u64_max_pos.
      assert (saturating_add u64_max num 1 = (count k (refused w) + 1) `min` u64_max) as -> by (unfold saturating_add; lia).
      eapply write_wf; [exact Hrwf|]. unfold in_range. lia.
  - eapply kind_frame; [apply Hw | done | done | | done | |].
    + cbn. rewrite list_lookup_insert_ne; [done|]. by intros ?%index_inj.
    + cbn. rewrite count_cons, decide_False by congruence. lia.
    + intros t' c'. cbn. intros ?%ended_calls. done.
  - split; [done | | by exists r]. exists c. split; [done|]. split; [done|]. cbn. split; [|done].
    intros t' cur. rewrite lookup_insert. case_decide; [done | apply Hloop].
  - eapply kind_frame; [apply Hw | done..|]. intros t' c'. cbn. by apply other_calls.
Qed.

Lemma drop_guard_inv lim w i k :
  budget_inv lim w -> guards w !! i = Some k ->
  exists b, drop_guard (budget w) k = Some b /\ budget_inv lim (w <| budget := b |> <| guards ::= delete i |>).
Proof.
  intros Hw Hi. destruct (Hw k) as [[Hl Hm] (c & Hc & Hwf & Hloop & Href) Hr].
  unfold drop_guard. rewrite Hc. eexists. split; [done|]. intros k'. destruct (decide (k = k')) as [<-|Hne].
  - split; [done | | done]. cbn. rewrite (count_delete _ _ _ _ Hi), decide_True by done.
    pose proof (count_pos _ _ _ Hi). pose proof Hwf as (Hv & Hrange & _).
    assert (Hsub : fetch_sub u32_max c 1 = write c (count k (guards w) - 1)).
    { unfold fetch_sub. f_equal. rewrite Hv. apply Z.mod_small. unfold in_range in *. lia. }
    rewrite Hsub. exists (write c (count k (guards w) - 1)).
    split; [by eapply list_lookup_insert_eq, lookup_lt_Some|].
    split; [eapply write_wf; [done|]; unfold in_range in *; lia|].
    split; [intros t cur Ht; eapply remembered_write, Hloop; done|]. intros H'. by apply remembered_write, Href.
  - eapply kind_frame; [apply Hw | done | | done | | done | done].
    + cbn. rewrite list_lookup_insert_ne; [done|]. by intros ?%index_inj.
    + cbn. rewrite (count_delete _ _ _ _ Hi), decide_False by congruence. lia.
Qed.

Lemma world_step_inv lim w e : budget_inv lim w -> exists w', step w e = Some w' /\ budget_inv lim w'.
Proof.
  intros Hw. destruct e as [t k n|t sp n|i]; cbn [step].
  - case_decide; [by eauto|]. destruct (enter_inv lim w t k n Hw) as (c & -> & H'). cbn. eauto.
  - destruct (calls w !! t) as [[k cur|k num]|] eqn:Ht; [| |by eauto]; cbn [advance].
    + destruct (iterate_inv lim w t k cur sp n Hw Ht) as (b & p & -> & H'). cbn. eauto.
    + destruct (refuse_inv lim w t k num sp n Hw Ht) as (b & p & -> & H'). cbn. eauto.
  - destruct (guards w !! i) as [k|] eqn:Hi; [|by eauto].
    destruct (drop_guard_inv lim w i k Hw Hi) as (b & -> & H'). cbn. eauto.
Qed.

Lemma run_events_inv lim w es : budget_inv lim w -> exists w', run_events w es = Some w' /\ budget_inv lim w'.
Proof.
  revert w. induction es as [|e es IH]; intros w Hw; [by eauto|]. cbn.
  destruct (world_step_inv lim w e Hw) as (w1 & -> & Hw1). cbn. by apply IH.
Qed.

(** * What a budget promises *)

(** C32: the declared limit holds under every interleaving.  Whatever the
    dispatch threads do, however stale their loads and whichever weak
    compare-and-swaps fail, no step panics, and at every moment the occupancy
    of each kind is exactly its number of live guards, which is within the
    limit that the manifest declares (one where it declares none): the counter
    never drifts, wraps or overshoots. *)
Theorem budget_never_exceeded s es :
  section_in_range s ->
  exists w, run_events (start s) es = Some w /\
    forall k, limit (budget w) k = Some (section_limit s k) /\
      in_flight (budget w) k = Some (count k (guards w)) /\ count k (guards w) <= section_limit s k.
Proof.
  intros Hs. destruct (run_events_inv _ _ es (start_inv s Hs)) as (w & -> & Hw).
  exists w. split; [done|]. intros k. destruct (Hw k) as [[Hl _] (c & Hc & (Hv & [_ Hm] & _) & _) _].
  split; [done|]. unfold in_flight. rewrite Hc. cbn. by rewrite Hv.
Qed.

Lemma snapshot_of b f :
  (forall k, refusals b k = Some (f k) /\ in_range u64_max (f k)) ->
  exists r, refusals_snapshot b = Some r /\ forall k, Refusals.of_kind r k = f k.
Proof.
  intros H. pose proof (H Suggestion) as [E1 [? ?]]. pose proof (H ActionKind) as [E2 [? ?]].
  pose proof (H Background) as [E3 [? ?]]. pose proof (H CatalogKind) as [E4 [? ?]].
  unfold refusals_snapshot. cbn [foldl ALL mbind option_bind]. rewrite E1. cbn [mbind option_bind].
  rewrite E2. cbn [mbind option_bind]. rewrite E3. cbn [mbind option_bind]. rewrite E4.
  eexists. split; [done|]. intros []; cbn; unfold saturating_add; lia.
Qed.

(** Refusals are counted exactly and are justified.  Each kind's counter
    is the number of refused calls of that kind, saturating at [u64::MAX]; the
    snapshot reports those four counts; and a kind has a refusal only if all
    of its declared slots were taken at some moment. *)
Theorem refusals_accounted s es w :
  section_in_range s -> run_events (start s) es = Some w ->
  (exists r, refusals_snapshot (budget w) = Some r /\
     forall k, Refusals.of_kind r k = Z.min (count k (refused w)) u64_max) /\
  (forall k, 0 < count k (refused w) ->
     exists c, in_flight_cells (budget w) !! index k = Some c /\ remembered c (section_limit s k)).
Proof.
  intros Hs Hr. destruct (run_events_inv _ _ es (start_inv s Hs)) as (w' & E & Hw).
  rewrite Hr in E. injection E as <-. split.
  - apply snapshot_of. intros k. destruct (Hw k) as [_ _ (r & Hc & Hv & Hm & _)].
    unfold refusals. rewrite Hc. cbn. by rewrite Hv.
  - intros k Hk. destruct (Hw k) as [_ (c & Hc & _ & _ & H) _]. exists c. auto.
Qed.

(** A load that is not stale. *)
Lemma load_fresh c n : (length (past c) <= n)%nat -> load c n = value c.
Proof. intros H. unfold load. by rewrite lookup_ge_None_2. Qed.

(** How the call of thread [t] for kind [k] can end. *)
Definition call_ended (w w' : World) (t : nat) (k : BudgetKind) (m : Z) : Prop :=
  calls w' = delete t (calls w) /\
  (guards w' = k :: guards w /\ refused w' = refused w /\ count k (guards w) < m \/
   guards w' = guards w /\ refused w' = k :: refused w).

(** Fresh loads at step [n]. *)
Definition fresh_at (w : World) (k : BudgetKind) (n : nat) : Prop :=
  (forall c, in_flight_cells (budget w) !! index k = Some c -> (length (past c) <= n)%nat) /\
  (forall r, refusal_cells (budget w) !! index k = Some r -> (length (past r) <= n)%nat).

(** How many steps a call needs when left alone. *)
Definition rank (w : World) (m : Z) (c : Call) : nat :=
  match c with
  | Looping k current =>
      if m <=? current then 2 else if count k (guards w) =? current then 1 else 3
  | Refusing k num => if Z.min (count k (refused w)) u64_max =? num then 1 else 2
  end.

Lemma alone_step lim w t c n :
  let k := call_kind c in
  budget_inv lim w -> calls w !! t = Some c -> fresh_at w k n ->
  exists w', step w (Advance t false n) = Some w' /\
    (call_ended w w' t k (lim k) \/
     exists c', w' = w <| calls ::= <[t := c']> |> /\ call_kind c' = k /\
       (rank w (lim k) c' < rank w (lim k) c)%nat).
Proof.
  intros k Hw Ht [Hn1 Hn2]. destruct (Hw k) as [[Hl Hm] (f & Hf & (Hv & [_ Hr] & _) & _) (r & Href & Hv' & _)].
  cbn [step]. rewrite Ht. destruct c as [k0 cur|k0 num]; cbn in k; subst k; cbn [advance rank].
  - unfold admit_iterate. rewrite Hl. cbn [mbind option_bind]. destruct (Z.leb_spec (lim k0) cur).
    { rewrite Href. cbn [mbind option_bind]. rewrite load_fresh, Hv' by auto. eexists. split; [done|]. right.
      eexists. split; [by destruct w|]. split; [done|]. cbn. rewrite Z.eqb_refl. lia. }
    rewrite Hf. cbn [mbind option_bind]. unfold checked_add.
    destruct (Z.leb_spec (cur + 1) u32_max); [|unfold in_range in *; lia]. cbn [mbind option_bind].
    unfold compare_exchange_weak. rewrite load_fresh, Hv by auto. cbn [negb andb].
    destruct (Z.eqb_spec (count k0 (guards w)) cur); (eexists; split; [done|]).
    + left. split; [done|]. left. cbn. split; [done|]. split; [done | lia].
    + right. eexists. split; [by destruct w|]. split; [done|]. cbn. rewrite Z.eqb_refl. case_match; lia.
  - unfold admit_refuse. rewrite Href. cbn [mbind option_bind].
    unfold compare_exchange_weak. rewrite load_fresh, Hv' by auto. cbn [negb andb].
    destruct (Z.eqb_spec (count k0 (refused w) `min` u64_max) num); (eexists; split; [done|]).
    + left. split; [done|]. by right.
    + right. eexists. split; [by destruct w|]. split; [done|]. cbn. rewrite Z.eqb_refl. lia.
Qed.

Lemma run_events_alone lim r w t c n :
  let k := call_kind c in
  budget_inv lim w -> calls w !! t = Some c -> fresh_at w k n -> (rank w (lim k) c <= r)%nat ->
  exists j w', (j <= r)%nat /\ run_events w (replicate j (Advance t false n)) = Some w' /\
    call_ended w w' t k (lim k).
Proof.
  revert w c. induction r as [|r IH]; intros w c k Hw Ht Hn Hr.
  { exfalso. unfold rank in Hr. repeat case_match; lia. }
  destruct (alone_step lim w t c n Hw Ht Hn) as (w1 & E & H). fold k in H.
  destruct (world_step_inv lim w (Advance t false n) Hw) as (w1' & E' & Hw1). rewrite E in E'. injection E' as <-.
  destruct H as [H | (c' & -> & Hk & Hlt)].
  { exists 1%nat, w1. cbn [replicate run_events]. rewrite E. split; [lia|]. by split. }
  destruct (IH (w <| calls ::= <[t := c']> |>) c') as (j & w' & Hj & Erun & Hend); rewrite ?Hk.
  - done.
  - apply lookup_insert_eq.
  - done.
  - change (rank (w <| calls ::= <[t := c']> |>) (lim k) c') with (rank w (lim k) c'). lia.
  - exists (S j), w'. cbn [replicate run_events]. rewrite E. split; [lia|]. split; [done|].
    rewrite Hk in Hend. destruct Hend as [Hc Hend]. split; [|done]. rewrite Hc. cbn. apply delete_insert_eq.
Qed.

(** No admission call can be stuck.  From every reachable state, a thread
    in the middle of [admit] that is left alone, with loads that are not
    stale, ends its call within three atomic accesses: it is admitted, and then
    a slot was free, or refused and counted; nothing else changes. *)
Theorem admit_completes_alone s es w t c :
  section_in_range s -> run_events (start s) es = Some w -> calls w !! t = Some c ->
  let k := call_kind c in
  exists n j w', (j <= 3)%nat /\ run_events w (replicate j (Advance t false n)) = Some w' /\
    call_ended w w' t k (section_limit s k).
Proof.
  intros Hs Hr Ht k. destruct (run_events_inv _ _ es (start_inv s Hs)) as (w' & E & Hw).
  rewrite Hr in E. injection E as <-. destruct (Hw k) as [_ (f & Hf & _) (r & Href & _)].
  exists (length (past f) + length (past r))%nat.
  eapply (run_events_alone (section_limit s) 3 w t c); [done | done | | unfold rank; repeat case_match; lia].
  fold k. split; intros x Hx; simplify_eq; lia.
Qed.

(** * Concrete executions *)

Definition sample_section : ConcurrencySection := mkSection (Some 2) None (Some 0) None.

Lemma sample_section_in_range : section_in_range sample_section.
Proof. intros []; split; discriminate. Qed.

(** Three threads race for two suggestion slots with the same stale load. *)
Definition race : list event :=
  [Enter 0 Suggestion 0; Enter 1 Suggestion 0; Enter 2 Suggestion 0; Advance 0 false 0; Advance 1 true 0;
   Advance 1 false 9; Advance 2 false 9; Advance 1 false 9; Advance 2 false 9; Advance 2 false 9;
   Enter 3 Background 0; Advance 3 false 0; Advance 3 false 0; DropGuard 1; Enter 4 Suggestion 9].

Definition raced : World := default (start sample_section) (run_events (start sample_section) race).

Lemma race_runs : run_events (start sample_section) race = Some raced.
Proof. vm_compute. reflexivity. Qed.

Lemma budget_never_exceeded_witness :
  in_flight (budget raced) Suggestion = Some (count Suggestion (guards raced)) /\
  count Suggestion (guards raced) <= 2.
Proof.
  destruct (budget_never_exceeded sample_section race sample_section_in_range) as (w & E & H).
  rewrite race_runs in E. injection E as <-. destruct (H Suggestion) as (_ & H1 & H2). split; [exact H1 | exact H2].
Defined.

Lemma refusals_accounted_witness :
  (exists r, refusals_snapshot (budget raced) = Some r /\ Refusals.of_kind r Background = 1) /\
  exists c, in_flight_cells (budget raced) !! index Background = Some c /\ remembered c 0.
Proof.
  destruct (refusals_accounted sample_section race raced sample_section_in_range race_runs) as [(r & Hr & H1) H2].
  split; [exists r; split; [exact Hr | exact (H1 Background)]|]. apply (H2 Background). vm_compute. reflexivity.
Defined.

Lemma admit_completes_alone_witness :
  exists n j w', (j <= 3)%nat /\ run_events raced (replicate j (Advance 4 false n)) = Some w' /\
    call_ended raced w' 4 Suggestion 2.
Proof.
  apply (admit_completes_alone sample_section race raced 4 (Looping Suggestion 1)
    sample_section_in_range race_runs). vm_compute. reflexivity.
Defined.
