(* ===== verification/Manifest.v ===== *)
(** Plugin manifests: [crikey-plugin-model/src/manifest.rs], [permissions.rs]
    and [scheduling.rs], with the activation patterns of
    [crikey-core/src/activation.rs].

    The TOML parser and the regular-expression compiler are third-party code and
    arguments of the definitions; the checks on what they deliver, the
    resolution of a manifest into a query policy and the activation gate are
    modelled whole. *)

From S2P Require Import Prelude Text Items Debounce Configuration LegacyDispatch SchedulerTypes Concurrency.

Module PluginModel.

(** * Manifest data *)

Inductive Runtime : Type := LegacyPython | Python | Native | Wasm | CAbi | Builtin.
#[export] Instance Runtime_eq_dec : EqDecision Runtime.
Proof. solve_decision. Defined.

(** The manifest's own profile type; the pipeline converts it to the
    scheduler's. *)
Inductive SchedulingProfile : Type := LegacyStrict | LegacyOptimized | Modern.
#[export] Instance SchedulingProfile_eq_dec : EqDecision SchedulingProfile.
Proof. solve_decision. Defined.

Inductive FilesystemScope : Type := ScopeNone | UserSelected | PluginData | Package | Home | Any.
#[export] Instance FilesystemScope_eq_dec : EqDecision FilesystemScope.
Proof. solve_decision. Defined.

Inductive FilesystemAccess : Type := Read | Write | ReadWrite.

Record FilesystemPermission := mkFilesystem { scope : FilesystemScope; access : FilesystemAccess }.

Inductive ClipboardPermission : Type := ClipboardNone | ClipboardRead | ClipboardWrite | ClipboardReadWrite.
#[export] Instance ClipboardPermission_eq_dec : EqDecision ClipboardPermission.
Proof. solve_decision. Defined.

Record Permissions := mkPermissions {
  filesystem : list FilesystemPermission;
  network : bool;
  network_listener : bool;
  clipboard : ClipboardPermission;
  process : bool;
  window_enumeration : bool;
  window_control : bool;
  notifications : bool;
  secrets : bool;
  environment : bool;
  native_library_loading : bool;
  web_storage : bool;
  background_execution : bool;
}.
#[export] Instance eta_Permissions : Eta Permissions := fun p =>
  mkPermissions (filesystem p) (network p) (network_listener p) (clipboard p) (process p)
    (window_enumeration p) (window_control p) (notifications p) (secrets p) (environment p)
    (native_library_loading p) (web_storage p) (background_execution p).

Definition default_permissions : Permissions :=
  mkPermissions [] false false ClipboardNone false false false false false false false false false.

Record PluginSection := mkPlugin {
  id : PluginId;
  plugin_name : string;
  version : string;
  runtime : Runtime;
  scheduling_profile_declared : option SchedulingProfile;
  entrypoint : gmap string text;
  api : option string;
}.

Record ActivationSection := mkActivation {
  minimum_query_length : option Z;
  prefixes : list text;
  keywords : list text;
  patterns : list text;
  categories : list text;
  empty_query : option bool;
}.

Record QuerySection := mkQuery {
  debounce_ms : option Z;
  maximum_wait_ms : option Z;
  leading_edge : option bool;
  trailing_edge : option bool;
  max_concurrent_requests : option Z;
  network_backed : option bool;
}.
#[export] Instance eta_QuerySection : Eta QuerySection := fun q =>
  mkQuery (debounce_ms q) (maximum_wait_ms q) (leading_edge q) (trailing_edge q)
    (max_concurrent_requests q) (network_backed q).

Inductive Startup : Type := Lazy | Eager.

Record PerformanceSection := mkPerformance {
  startup : Startup;
  suggest_soft_timeout_ms : Z;
  suggest_hard_timeout_ms : Z;
  maximum_results_per_query : Z;
  maximum_results_per_batch : Z;
}.

Definition default_performance : PerformanceSection := mkPerformance Lazy 50 500 250 50.

Record PlatformSection := mkPlatform { os : list string; arch : list string }.
Record PythonSection := mkPython { requires_python : option string; dependencies : list string }.
Record CatalogSection := mkCatalog { persist : bool }.
Definition default_catalog : CatalogSection := mkCatalog true.

Record Manifest := mkManifest {
  manifest_version : Z;
  plugin : PluginSection;
  platform : PlatformSection;
  activation : ActivationSection;
  query : QuerySection;
  concurrency : ConcurrencySection;
  permissions : Permissions;
  performance : PerformanceSection;
  python : PythonSection;
  configuration : ConfigurationSection;
  catalog : CatalogSection;
}.
#[export] Instance eta_Manifest : Eta Manifest := fun m =>
  mkManifest (manifest_version m) (plugin m) (platform m) (activation m) (query m) (concurrency m)
    (permissions m) (performance m) (python m) (configuration m) (catalog m).

Definition SUPPORTED_MANIFEST_VERSION : Z := 1.

(** * Permissions *)

Definition allows_read (a : FilesystemAccess) : bool :=
  match a with Read | ReadWrite => true | Write => false end.

Definition allows_write (a : FilesystemAccess) : bool :=
  match a with Write | ReadWrite => true | Read => false end.

Definition clipboard_allows_read (c : ClipboardPermission) : bool :=
  match c with ClipboardRead | ClipboardReadWrite => true | _ => false end.

Definition clipboard_allows_write (c : ClipboardPermission) : bool :=
  match c with ClipboardWrite | ClipboardReadWrite => true | _ => false end.

Definition allows_filesystem_read (p : Permissions) (wanted : FilesystemScope) : bool :=
  match wanted with
  | ScopeNone => false
  | Package =>
      match filesystem p with [] => true | _ => false end
      || existsb (fun e => negb (bool_decide (scope e = ScopeNone))) (filesystem p)
  | _ =>
      existsb (fun e => (bool_decide (scope e = wanted) || bool_decide (scope e = Any)) && allows_read (access e))
        (filesystem p)
  end.

Definition legacy_compatibility_baseline : Permissions :=
  default_permissions <| process := true |> <| filesystem := [mkFilesystem Package Read] |>.

Inductive WebSurfaceRefusal : Type := NetworkNotGranted | StorageNotGranted.

Definition admit_web_surface (p : Permissions) (wants_navigation wants_persistent_storage : bool)
  : result unit WebSurfaceRefusal :=
  if wants_navigation && negb (network p) then Err NetworkNotGranted
  else if wants_persistent_storage && negb (web_storage p) then Err StorageNotGranted
  else Ok tt.

(** * Errors *)

Inductive PolicyProblem : Type := Contradictory | OutOfRange | NotPermitted | Malformed.

(** [Parse] carries the parser's own error. *)
Inductive ManifestError : Type :=
| Parse (message : text)
| UnsupportedVersion (version : Z)
| InvalidQueryPolicy (field : string) (problem : PolicyProblem) (detail : option text)
| NoEntrypoint (os arch : string)
| InvalidConfiguration (v : FieldViolation).

Definition invalid (field : string) (problem : PolicyProblem) : ManifestError :=
  InvalidQueryPolicy field problem None.

Definition invalid_with_detail (field : string) (problem : PolicyProblem) (detail : text) : ManifestError :=
  InvalidQueryPolicy field problem (Some detail).

Definition ensure (refused : bool) (e : ManifestError) : result unit ManifestError :=
  if refused then Err e else Ok ().

(** * Activation patterns *)

Definition MAX_PATTERN_BYTES : Z := 512.

Inductive ActivationPatternError : Type :=
| PatternEmpty
| PatternTooLong (actual : Z)
| PatternMalformed (pattern reason : text).

Definition pattern_error_display (e : ActivationPatternError) : text :=
  match e with
  | PatternEmpty => ascii "an activation pattern must not be empty"
  | PatternTooLong actual =>
      ascii "an activation pattern must be at most " ++ display MAX_PATTERN_BYTES ++ ascii " bytes, this one is "
      ++ display actual
  | PatternMalformed pattern reason =>
      ascii "the activation pattern `" ++ pattern ++ ascii "` did not compile: " ++ reason
  end.

(** * The resolved policy *)

Definition MAX_DEBOUNCE_MS : Z := 1000.
Definition MAX_CONCURRENT_REQUESTS : Z := 32.
Definition MAX_MINIMUM_QUERY_LENGTH : Z := 1024.
Definition MAX_ACTIVATION_PATTERNS : Z := 16.
Definition NATIVE_DEBOUNCE_MS : Z := 40.
Definition PYTHON_DEBOUNCE_MS : Z := 60.
Definition NETWORK_DEBOUNCE_MS : Z := 200.
Definition DEFAULT_MAXIMUM_WAIT_MULTIPLIER : Z := 4.

Record QueryPolicy := mkQueryPolicy {
  q_profile : SchedulingProfile;
  q_debounce_ms : Z;
  q_maximum_wait_ms : option Z;
  q_leading_edge : bool;
  q_trailing_edge : bool;
  q_minimum_query_length : Z;
  q_max_concurrent_requests : Z;
  q_network_backed : bool;
  q_empty_query : bool;
  q_prefixes : list text;
  q_keywords : list text;
  q_patterns : list ActivationPattern;
  q_categories : list text;
}.

Definition default_debounce_ms (r : Runtime) (network_backed : bool) : Z :=
  match r with
  | Builtin => 0
  | _ =>
      if network_backed then NETWORK_DEBOUNCE_MS
      else match r with
           | Python | LegacyPython => PYTHON_DEBOUNCE_MS
           | _ => NATIVE_DEBOUNCE_MS
           end
  end.

Definition default_maximum_wait_ms (debounce : Z) : option Z :=
  if negb (debounce =? 0)
  then Some (Z.max (Z.min (saturating_mul u64_max debounce DEFAULT_MAXIMUM_WAIT_MULTIPLIER) MAX_DEBOUNCE_MS)
               debounce)
  else None.

(** [as_bytes().get(..prefix.len())] is [None] on a shorter value. *)
Definition starts_with_ignore_ascii_case (value prefix : text) : bool :=
  let n := length (utf8 prefix) in
  if (n <=? length (utf8 value))%nat then eq_ignore_ascii_case (take n (utf8 value)) (utf8 prefix) else false.

Definition scheduling_profile (m : Manifest) : SchedulingProfile :=
  default (if decide (runtime (plugin m) = LegacyPython) then LegacyStrict else Modern)
    (scheduling_profile_declared (plugin m)).

Definition effective_network_backed (m : Manifest) : bool :=
  default (network (permissions m)) (network_backed (query m)).

Definition effective_debounce_ms (m : Manifest) : Z :=
  default (default_debounce_ms (runtime (plugin m)) (effective_network_backed m)) (debounce_ms (query m)).

Section Patterns.

(** [str::to_lowercase]. *)
Variable to_lowercase : text -> text.

(** [RegexBuilder::new(source).size_limit(COMPILED_SIZE_LIMIT).build()]: the
    set of texts the compiled program matches, or why it does not compile. *)
Variable compile : text -> result (text -> bool) text.

(** What the compiled constant [[^\s\S]] matches. *)
Variable never : text -> bool.

Definition pattern_new (pattern : text) : result ActivationPattern ActivationPatternError :=
  let source := trim pattern in
  match source with
  | [] => Err PatternEmpty
  | _ =>
      if MAX_PATTERN_BYTES <? len (utf8 source) then Err (PatternTooLong (len (utf8 source)))
      else
        match compile source with
        | Ok matcher => Ok (mkActivationPattern source matcher)
        | Err reason => Err (PatternMalformed source reason)
        end
  end.

Definition never_matching (source : text) : ActivationPattern := mkActivationPattern (trim source) never.

Definition compiled_activation_patterns (m : Manifest) : list ActivationPattern :=
  map (fun declared =>
         match pattern_new declared with Ok p => p | Err _ => never_matching declared end)
    (patterns (activation m)).

Definition query_policy (m : Manifest) : QueryPolicy :=
  let profile := scheduling_profile m in
  if decide (profile = LegacyStrict) then
    {| q_profile := profile; q_debounce_ms := 0; q_maximum_wait_ms := None; q_leading_edge := true;
       q_trailing_edge := true; q_minimum_query_length := 0; q_max_concurrent_requests := 1;
       q_network_backed := false; q_empty_query := true; q_prefixes := []; q_keywords := [];
       q_patterns := []; q_categories := categories (activation m) |}
  else
    let debounce := effective_debounce_ms m in
    {| q_profile := profile;
       q_debounce_ms := debounce;
       q_maximum_wait_ms :=
         if debounce =? 0 then None
         else match maximum_wait_ms (query m) with
              | Some w => Some w
              | None => default_maximum_wait_ms debounce
              end;
       q_leading_edge := default true (leading_edge (query m));
       q_trailing_edge := default true (trailing_edge (query m));
       q_minimum_query_length := default 0 (minimum_query_length (activation m));
       q_max_concurrent_requests := default 1 (max_concurrent_requests (query m));
       q_network_backed := effective_network_backed m;
       q_empty_query := default false (empty_query (activation m));
       q_prefixes := prefixes (activation m);
       q_keywords := keywords (activation m);
       q_patterns := compiled_activation_patterns m;
       q_categories := categories (activation m) |}.

Definition admits (p : QueryPolicy) (q : text) : bool :=
  match q with
  | [] => q_empty_query p
  | _ =>
      if len q <? q_minimum_query_length p then false
      else
        match q_prefixes p, q_keywords p, q_patterns p with
        | [], [], [] => true
        | _, _, _ =>
            existsb (starts_with_ignore_ascii_case q) (q_prefixes p)
            || is_some_and (first_word q)
                 (fun first => existsb (fun k => eq_ignore_ascii_case (utf8 first) (utf8 k)) (q_keywords p))
            || existsb (fun pattern => is_match pattern (to_lowercase q)) (q_patterns p)
        end
  end.

(** * Validation *)

Definition validate_permissions (m : Manifest) : result unit ManifestError :=
  ensure (network_listener (permissions m))
    (invalid_with_detail "permissions.network-listener" NotPermitted
       (ascii "permissions.network-listener cannot be granted: this host offers plugins no inbound socket")).

(** The loop over the declared patterns. *)
Fixpoint validate_patterns (declared : list text) : result unit ManifestError :=
  match declared with
  | [] => Ok ()
  | d :: rest =>
      match pattern_new d with
      | Ok _ => validate_patterns rest
      | Err e =>
          let problem := match e with PatternTooLong _ => OutOfRange | _ => Malformed end in
          Err (invalid_with_detail "activation.patterns" problem (pattern_error_display e))
      end
  end.

(** The declared numbers against their bounds. *)
Definition validate_ranges (m : Manifest) : result unit ManifestError :=
  let? _ := ensure (is_some_and (debounce_ms (query m)) (fun v => MAX_DEBOUNCE_MS <? v))
              (invalid "query.debounce-ms" OutOfRange) in
  let? _ := ensure (is_some_and (maximum_wait_ms (query m)) (fun v => MAX_DEBOUNCE_MS <? v))
              (invalid "query.maximum-wait-ms" OutOfRange) in
  let? _ := ensure (is_some_and (max_concurrent_requests (query m))
                      (fun v => (v =? 0) || (MAX_CONCURRENT_REQUESTS <? v)))
              (invalid "query.max-concurrent-requests" OutOfRange) in
  let? _ := ensure (is_some_and (minimum_query_length (activation m)) (fun v => MAX_MINIMUM_QUERY_LENGTH <? v))
              (invalid "activation.minimum-query-length" OutOfRange) in
  ensure (MAX_ACTIVATION_PATTERNS <? len (patterns (activation m))) (invalid "activation.patterns" OutOfRange).

Definition validate_query_policy (m : Manifest) : result unit ManifestError :=
  let profile := scheduling_profile m in
  let legacy_runtime := bool_decide (runtime (plugin m) = LegacyPython) in
  let? _ := ensure (Bool.eqb legacy_runtime (bool_decide (profile = Modern)))
              (invalid "plugin.scheduling-profile" Contradictory) in
  let? _ := ensure (negb legacy_runtime && negb (bool_decide (profile = Modern)))
              (invalid "plugin.scheduling-profile" Contradictory) in
  let? _ := validate_ranges m in
  let? _ := validate_patterns (patterns (activation m)) in
  let? _ := ensure ((effective_debounce_ms m =? 0) && is_some (maximum_wait_ms (query m)))
              (invalid_with_detail "query.maximum-wait-ms" Contradictory
                 (ascii "query.maximum-wait-ms cannot be combined with query.debounce-ms = 0 or an effective debounce period of 0 because zero debounce dispatches immediately")) in
  let? _ := ensure (bool_decide (network_backed (query m) = Some true) && negb (network (permissions m)))
              (invalid "query.network-backed" NotPermitted) in
  let policy := query_policy m in
  let? _ := ensure (is_some_and (q_maximum_wait_ms policy) (fun w => w <? q_debounce_ms policy))
              (invalid "query.maximum-wait-ms" Contradictory) in
  let? _ := ensure (negb (q_leading_edge policy) && negb (q_trailing_edge policy))
              (invalid "query.leading-edge" Contradictory) in
  ensure (q_empty_query policy && (0 <? q_minimum_query_length policy))
    (invalid "activation.minimum-query-length" Contradictory).

(** * Diagnostics *)

(** [if condition { list.push(value) }]. *)
Definition push_if {A} (condition : bool) (value : A) : list A := if condition then [value] else [].

Definition nonempty {A} (l : list A) : bool := match l with [] => false | _ => true end.

Definition ignored_modern_fields (m : Manifest) : list string :=
  if negb (bool_decide (scheduling_profile m = LegacyStrict)) then []
  else
    push_if (is_some (minimum_query_length (activation m))) "activation.minimum-query-length"
    ++ push_if (nonempty (prefixes (activation m))) "activation.prefixes"
    ++ push_if (nonempty (keywords (activation m))) "activation.keywords"
    ++ push_if (nonempty (patterns (activation m))) "activation.patterns"
    ++ push_if (is_some (empty_query (activation m))) "activation.empty-query"
    ++ push_if (is_some (debounce_ms (query m))) "query.debounce-ms"
    ++ push_if (is_some (maximum_wait_ms (query m))) "query.maximum-wait-ms"
    ++ push_if (is_some (leading_edge (query m))) "query.leading-edge"
    ++ push_if (is_some (trailing_edge (query m))) "query.trailing-edge"
    ++ push_if (is_some (max_concurrent_requests (query m))) "query.max-concurrent-requests"
    ++ push_if (is_some (network_backed (query m))) "query.network-backed".

Record UnhonouredDeclaration := mkUnhonoured { u_field : string; u_reason : string }.

Definition unhonoured_declarations (m : Manifest) : list UnhonouredDeclaration :=
  let p := permissions m in
  let r := runtime (plugin m) in
  push_if (existsb (fun e => negb (bool_decide (scope e = Package) || bool_decide (scope e = ScopeNone)))
             (filesystem p))
    (mkUnhonoured "permissions.filesystem" "host-mediates-no-filesystem-access-outside-the-plugin-package")
  ++ push_if (negb (bool_decide (clipboard p = ClipboardNone)))
       (mkUnhonoured "permissions.clipboard" "no-host-mediated-clipboard-api-for-plugins")
  ++ push_if (window_enumeration p)
       (mkUnhonoured "permissions.window-enumeration" "no-host-mediated-window-api-for-plugins")
  ++ push_if (window_control p)
       (mkUnhonoured "permissions.window-control" "no-host-mediated-window-api-for-plugins")
  ++ push_if (notifications p)
       (mkUnhonoured "permissions.notifications" "no-host-mediated-notification-api-for-plugins")
  ++ push_if (secrets p)
       (mkUnhonoured "permissions.secrets" "no-host-mediated-secret-store-api-for-plugins")
  ++ push_if (environment p && negb (match r with Python | Native | CAbi => true | _ => false end))
       (mkUnhonoured "permissions.environment" "host-does-not-mediate-child-environment-for-runtime")
  ++ push_if (native_library_loading p && negb (bool_decide (r = CAbi)))
       (mkUnhonoured "permissions.native-library-loading" "out-of-process-plugin-loads-its-own-libraries")
  ++ push_if (background_execution p && negb (bool_decide (r = Python)))
       (mkUnhonoured "permissions.background-execution" "no-background-task-api-for-runtime")
  ++ push_if (bool_decide (r = CAbi) && is_some_and (max_suggestion_requests (concurrency m)) (fun v => 1 <? v))
       (mkUnhonoured "concurrency.max-suggestion-requests" "c-abi-calls-are-serialised").

(** * Parsing *)

Definition usable_entrypoint (m : Manifest) (key : string) : option text :=
  t ← entrypoint (plugin m) !! key;
  match trim t with [] => None | _ => Some t end.

Definition entrypoint_for (m : Manifest) (o a : string) : result text ManifestError :=
  match usable_entrypoint m (o +:+ "-" +:+ a) with
  | Some t => Ok t
  | None =>
      match usable_entrypoint m "any" with
      | Some t => Ok t
      | None => Err (NoEntrypoint o a)
      end
  end.

Record OversizedQueryIntegers := mkOversized { o_debounce_ms : option Z; o_maximum_wait_ms : option Z }.
#[export] Instance eta_OversizedQueryIntegers : Eta OversizedQueryIntegers := fun o =>
  mkOversized (o_debounce_ms o) (o_maximum_wait_ms o).

(** The loop over the digits; [previous] is the byte before. *)
Fixpoint oversized_loop (value : Z) (previous : option Z) (bytes : text) : option Z :=
  match bytes with
  | [] => Some value
  | b :: rest =>
      if is_ascii_digit b then
        value ← checked_mul u64_max value 10;
        value ← checked_add u64_max value (b - 48);
        oversized_loop value (Some b) rest
      else if (b =? 95) && is_some_and previous is_ascii_digit && is_some_and (head rest) is_ascii_digit
      then oversized_loop value (Some b) rest
      else None
  end.

Definition oversized_decimal (t : text) : option Z :=
  let digits := match t with 43 :: rest => rest | _ => t end in
  match digits with
  | [] => None
  | 48 :: _ :: _ => None
  | _ =>
      value ← oversized_loop 0 None digits;
      if i64_max <? value then Some value else None
  end.

Fixpoint split_inclusive (c : Z) (current t : text) : list text :=
  match t with
  | [] => match current with [] => [] | _ => [current] end
  | x :: rest => if x =? c then (current ++ [x]) :: split_inclusive c [] rest
                 else split_inclusive c (current ++ [x]) rest
  end.

(** The loop of [normalize_oversized_query_integers]: whether the current table
    is [[query]], the offset of the line, the ranges to replace, the values. *)
Record Scan := mkScan {
  in_query : bool;
  offset : nat;
  replacements : list (nat * nat);
  oversized : OversizedQueryIntegers;
}.
#[export] Instance eta_Scan : Eta Scan := fun s => mkScan (in_query s) (offset s) (replacements s) (oversized s).

(** A line of [[query]] that assigns one of the two fields an oversized
    integer: the field, the range of the integer within the line, its value. *)
Definition oversized_assignment (line : text) : option (bool * nat * nat * Z) :=
  p ← split_once 61 line;
  is_debounce ← (if text_eqb (trim p.1) (ascii "debounce-ms") then Some true
                 else if text_eqb (trim p.1) (ascii "maximum-wait-ms") then Some false else None);
  let before_comment := match split_once 35 p.2 with Some (v, _) => v | None => p.2 end in
  let value_text := trim before_comment in
  value ← oversized_decimal value_text;
  let leading_whitespace := (length before_comment - length (trim_start before_comment))%nat in
  Some (is_debounce, (length p.1 + 1 + leading_whitespace)%nat, length value_text, value).

Definition scan_line (s : Scan) (line : text) : Scan :=
  let statement :=
    match split_once 35 (trim line) with Some (before, _) => trim before | None => trim line end in
  let s :=
    match statement with
    | 91 :: _ => s <| in_query := text_eqb statement (ascii "[query]") |>
    | _ =>
        if negb (in_query s) then s
        else
          match oversized_assignment line with
          | None => s
          | Some (is_debounce, start, n, value) =>
              s <| replacements ::= fun r => r ++ [(offset s + start, offset s + start + n)%nat] |>
                <| oversized ::= fun o =>
                     if is_debounce : bool then o <| o_debounce_ms := Some value |>
                     else o <| o_maximum_wait_ms := Some value |> |>
          end
    end in
  s <| offset ::= fun o => (o + length line)%nat |>.

Fixpoint splice (t : text) (copied_through : nat) (ranges : list (nat * nat)) : text :=
  match ranges with
  | [] => drop copied_through t
  | (start, stop) :: rest =>
      take (start - copied_through)%nat (drop copied_through t) ++ [48] ++ splice t stop rest
  end.

Definition normalize_oversized_query_integers (t : text) : option (text * OversizedQueryIntegers) :=
  let s := foldl scan_line (mkScan false 0%nat [] (mkOversized None None)) (split_inclusive 10 [] t) in
  match replacements s with
  | [] => None
  | ranges => Some (splice t 0 ranges, oversized s)
  end.

(** [toml::from_str]. *)
Variable from_str : text -> result Manifest text.
(** [Display] of an [f64]. *)
Variable show_float : SpecFloat.spec_float -> text.

Definition restore_oversized (o : OversizedQueryIntegers) (m : Manifest) : Manifest :=
  let m := match o_debounce_ms o with
           | Some v => m <| query ::= fun q => q <| debounce_ms := Some v |> |> | None => m end in
  match o_maximum_wait_ms o with
  | Some v => m <| query ::= fun q => q <| maximum_wait_ms := Some v |> |> | None => m end.

Definition deserialize (t : text) : result Manifest ManifestError :=
  match from_str t with
  | Ok m => Ok m
  | Err e =>
      match normalize_oversized_query_integers t with
      | None => Err (Parse e)
      | Some (normalized, o) =>
          match from_str normalized with
          | Ok m => Ok (restore_oversized o m)
          | Err e => Err (Parse e)
          end
      end
  end.

Definition parse (t : text) : result Manifest ManifestError :=
  let? m := deserialize t in
  let? _ := ensure (negb (manifest_version m =? SUPPORTED_MANIFEST_VERSION))
              (UnsupportedVersion (manifest_version m)) in
  let? _ := validate_query_policy m in
  let? _ := validate_permissions m in
  match validate_declaration show_float (configuration m) with
  | Ok _ => Ok m
  | Err v => Err (InvalidConfiguration v)
  end.

End Patterns.

End PluginModel.
