(* ===== verification/ManifestFacts.v ===== *)
(** What a parsed manifest is worth: every policy resolved from a manifest that
    [parse] accepts lies within the host's bounds and contradicts neither itself
    nor the declared permissions. *)

From S2P Require Import Prelude Text Items Configuration SchedulerTypes Concurrency Manifest.
Import PluginModel.

(** * Validation steps *)

Lemma ensure_ok b e : ensure b e = Ok () <-> b = false.
Proof. unfold ensure. by destruct b. Qed.

Lemma bind_ok {A B E} (o : result A E) (k : A -> result B E) b :
  (let? a := o in k a) = Ok b <-> exists a, o = Ok a /\ k a = Ok b.
Proof. destruct o; naive_solver. Qed.

Lemma bind_ok_unit {B E} (o : result unit E) (k : unit -> result B E) b :
  (let? a := o in k a) = Ok b <-> o = Ok () /\ k () = Ok b.
Proof. destruct o as [[]|]; naive_solver. Qed.

Lemma default_debounce_range r n : 0 <= default_debounce_ms r n <= 200.
Proof. unfold default_debounce_ms. repeat case_match; vm_compute; split; discriminate. Qed.

Lemma default_maximum_wait_range d :
  0 < d <= MAX_DEBOUNCE_MS -> exists w, default_maximum_wait_ms d = Some w /\ d <= w <= MAX_DEBOUNCE_MS.
Proof.
  unfold default_maximum_wait_ms, MAX_DEBOUNCE_MS, saturating_mul. intros Hd.
  destruct (d =? 0) eqn:E; reflect_bools; [lia|]. simpl. eexists. split; [done|]. lia.
Qed.

(** The integers of a deserialised manifest are in the range of their types. *)
Definition typed (m : Manifest) : Prop :=
  (forall v, debounce_ms (query m) = Some v -> in_range u64_max v)
  /\ (forall v, maximum_wait_ms (query m) = Some v -> in_range u64_max v)
  /\ (forall v, max_concurrent_requests (query m) = Some v -> in_range u32_max v)
  /\ (forall v, minimum_query_length (activation m) = Some v -> in_range usize_max v).

Definition compiled_by (compile : text -> result (text -> bool) text) (p : ActivationPattern) : Prop :=
  compile (pattern_source p) = Ok (pattern_matcher p) /\ 0 < len (utf8 (pattern_source p)) <= MAX_PATTERN_BYTES.

(** What the host relies on in a resolved policy. *)
Record sound_policy (compile : text -> result (text -> bool) text) (m : Manifest) (p : QueryPolicy) : Prop := {
  sound_profile : q_profile p = Modern <-> runtime (plugin m) <> LegacyPython;
  sound_debounce : 0 <= q_debounce_ms p <= MAX_DEBOUNCE_MS;
  sound_wait :
    match q_maximum_wait_ms p with
    | None => q_debounce_ms p = 0
    | Some w => 0 < q_debounce_ms p <= w /\ w <= MAX_DEBOUNCE_MS
    end;
  sound_edges : q_leading_edge p = true \/ q_trailing_edge p = true;
  sound_concurrency : 1 <= q_max_concurrent_requests p <= MAX_CONCURRENT_REQUESTS;
  sound_length : 0 <= q_minimum_query_length p <= MAX_MINIMUM_QUERY_LENGTH;
  sound_empty : q_empty_query p = true -> q_minimum_query_length p = 0;
  sound_network : q_network_backed p = true -> network (permissions m) = true;
  sound_patterns : Forall (compiled_by compile) (q_patterns p) /\ len (q_patterns p) <= MAX_ACTIVATION_PATTERNS;
}.

Section Validated.
Context (compile : text -> result (text -> bool) text) (never : text -> bool).

Lemma utf8_nonempty c t : 0 < len (utf8 (c :: t)).
Proof.
  change (utf8 (c :: t)) with (utf8_char c ++ utf8 t). rewrite len_app. pose proof (len_nonneg (utf8 t)).
  unfold utf8_char, len in *. repeat case_match; simpl length; lia.
Qed.

Lemma pattern_new_ok d p : pattern_new compile d = Ok p -> compiled_by compile p.
Proof.
  unfold pattern_new, compiled_by. destruct (trim d) as [|c t]; [done|].
  destruct (_ <? _) eqn:E; [done|]. destruct (compile (c :: t)) as [f|] eqn:Ec; [|done].
  intros [= <-]. reflect_bools. cbn [pattern_source pattern_matcher]. split; [done|].
  split; [apply utf8_nonempty | done].
Qed.

Lemma validate_patterns_ok l :
  validate_patterns compile l = Ok () -> Forall (fun d => exists p, pattern_new compile d = Ok p) l.
Proof.
  induction l as [|d l IH]; simpl; [constructor|]. destruct (pattern_new compile d) eqn:E; [|done].
  intros H. constructor; eauto.
Qed.

Lemma compiled_patterns_sound m :
  validate_patterns compile (patterns (activation m)) = Ok () ->
  Forall (compiled_by compile) (compiled_activation_patterns compile never m).
Proof.
  intros H%validate_patterns_ok. unfold compiled_activation_patterns.
  induction H as [|d l (p & Hp) _ IH]; simpl; constructor; [|done]. rewrite Hp. by eapply pattern_new_ok.
Qed.

(** The bounds on the declared numbers. *)
Lemma validate_ranges_ok m :
  validate_ranges m = Ok () ->
  (forall v, debounce_ms (query m) = Some v -> v <= MAX_DEBOUNCE_MS)
  /\ (forall v, maximum_wait_ms (query m) = Some v -> v <= MAX_DEBOUNCE_MS)
  /\ (forall v, max_concurrent_requests (query m) = Some v -> v <> 0 /\ v <= MAX_CONCURRENT_REQUESTS)
  /\ (forall v, minimum_query_length (activation m) = Some v -> v <= MAX_MINIMUM_QUERY_LENGTH)
  /\ len (patterns (activation m)) <= MAX_ACTIVATION_PATTERNS.
Proof.
  unfold validate_ranges. rewrite !bind_ok_unit, !ensure_ok. intros (H1 & H2 & H3 & H4 & H5).
  split_and!; [intros v Hv; rewrite Hv in *; cbn [is_some_and map_or] in *; reflect_bools; done..|].
  by reflect_bools.
Qed.

Lemma effective_debounce_range m :
  typed m -> validate_ranges m = Ok () -> 0 <= effective_debounce_ms m <= MAX_DEBOUNCE_MS.
Proof.
  intros (Ht & _) (Hd & _)%validate_ranges_ok. unfold effective_debounce_ms, MAX_DEBOUNCE_MS, in_range in *.
  destruct (debounce_ms (query m)) as [v|]; simpl.
  - specialize (Ht v eq_refl). specialize (Hd v eq_refl). lia.
  - pose proof (default_debounce_range (runtime (plugin m)) (effective_network_backed m)). lia.
Qed.

Lemma network_backed_granted m :
  bool_decide (network_backed (query m) = Some true) && negb (network (permissions m)) = false ->
  effective_network_backed m = true -> network (permissions m) = true.
Proof.
  unfold effective_network_backed. intros H He.
  destruct (network_backed (query m)) as [[]|]; simpl in *; try done.
  by destruct (network (permissions m)).
Qed.

(** The resolved wait: the declared one or the default, never below the
    debounce period. *)
Lemma resolved_wait m p :
  typed m -> validate_ranges m = Ok () -> p = query_policy compile never m -> q_profile p <> LegacyStrict ->
  is_some_and (q_maximum_wait_ms p) (fun w => w <? q_debounce_ms p) = false ->
  match q_maximum_wait_ms p with
  | None => q_debounce_ms p = 0
  | Some w => 0 < q_debounce_ms p <= w /\ w <= MAX_DEBOUNCE_MS
  end.
Proof.
  intros Ht Hr -> Hp. pose proof (effective_debounce_range m Ht Hr) as Hd.
  unfold query_policy in *. destruct (decide (scheduling_profile m = LegacyStrict)); [by destruct Hp|].
  cbn [q_maximum_wait_ms q_debounce_ms]. destruct (effective_debounce_ms m =? 0) eqn:E; reflect_bools; [done|].
  apply validate_ranges_ok in Hr as (_ & Hw & _).
  destruct (maximum_wait_ms (query m)) as [w|] eqn:Ew.
  - simpl. intros H. reflect_bools. specialize (Hw w eq_refl). lia.
  - destruct (default_maximum_wait_range (effective_debounce_ms m)) as (w & -> & ?); lia.
Qed.

Lemma validate_query_policy_sound m :
  typed m -> validate_query_policy compile never m = Ok () -> sound_policy compile m (query_policy compile never m).
Proof.
  intros Ht. unfold validate_query_policy. rewrite !bind_ok_unit, !ensure_ok.
  intros (Hp1 & Hp2 & Hr & Hpat & _ & Hnet & Hwait & Hedge & Hempty).
  pose proof (effective_debounce_range m Ht Hr) as Hd. pose proof (resolved_wait m _ Ht Hr eq_refl) as Hw.
  apply compiled_patterns_sound in Hpat.
  assert (Hprof : scheduling_profile m = Modern <-> runtime (plugin m) <> LegacyPython).
  { clear -Hp1. apply eqb_false_iff in Hp1. repeat case_bool_decide; naive_solver. }
  apply validate_ranges_ok in Hr as (_ & _ & Hc & Hl & Hlen). destruct Ht as (_ & _ & Tc & Tl).
  unfold query_policy in *. destruct (decide (scheduling_profile m = LegacyStrict)) as [Es|Es].
  - constructor; cbn; unfold MAX_DEBOUNCE_MS, MAX_CONCURRENT_REQUESTS, MAX_MINIMUM_QUERY_LENGTH,
      MAX_ACTIVATION_PATTERNS; auto with lia.
    split; [constructor | done].
  - constructor; cbn in *; try done.
    + apply Hw; [done..].
    + apply andb_false_iff in Hedge as [?%negb_false_iff|?%negb_false_iff]; auto.
    + destruct (max_concurrent_requests (query m)) as [v|]; simpl; [|unfold MAX_CONCURRENT_REQUESTS; lia].
      specialize (Tc v eq_refl). specialize (Hc v eq_refl). unfold in_range in *. lia.
    + destruct (minimum_query_length (activation m)) as [v|]; simpl; [|unfold MAX_MINIMUM_QUERY_LENGTH; lia].
      specialize (Tl v eq_refl). specialize (Hl v eq_refl). unfold in_range in *. lia.
    + intros He. rewrite He in Hempty. simpl in Hempty. reflect_bools.
      destruct (minimum_query_length (activation m)) as [v|]; simpl in *; [|done].
      specialize (Tl v eq_refl). unfold in_range in *. lia.
    + by apply network_backed_granted.
    + split; [done|]. unfold compiled_activation_patterns. by rewrite len_map.
Qed.

End Validated.

(** * Oversized integers *)

Lemma oversized_decimal_large t v : oversized_decimal t = Some v -> i64_max < v.
Proof.
  unfold oversized_decimal. intros H. repeat case_match; simplify_eq; try done;
    apply bind_Some in H as (w & _ & H); case_match; simplify_eq; by reflect_bools.
Qed.

Definition large (o : option Z) : Prop := forall v, o = Some v -> i64_max < v.

(** Every retained value is large, and a replacement leaves a value. *)
Definition scan_inv (s : Scan) : Prop :=
  large (o_debounce_ms (oversized s)) /\ large (o_maximum_wait_ms (oversized s))
  /\ (replacements s <> [] ->
      is_some (o_debounce_ms (oversized s)) = true \/ is_some (o_maximum_wait_ms (oversized s)) = true).

Lemma oversized_assignment_large line d start n v :
  oversized_assignment line = Some (d, start, n, v) -> i64_max < v.
Proof.
  unfold oversized_assignment. intros ((before & after) & _ & H)%bind_Some.
  apply bind_Some in H as (b & _ & H). apply bind_Some in H as (w & Hw%oversized_decimal_large & H). by simplify_eq.
Qed.

Lemma scan_line_inv s line : scan_inv s -> scan_inv (scan_line s line).
Proof.
  intros Hs. assert (Hnew : forall s', scan_inv s' -> scan_inv (s' <| offset ::= fun o => (o + length line)%nat |>)).
  { intros s' H. exact H. }
  unfold scan_line. apply Hnew. clear Hnew.
  assert (Ha : scan_inv (if negb (in_query s) then s else
    match oversized_assignment line with
    | None => s
    | Some (is_debounce, start, n, value) =>
        s <| replacements ::= fun r => r ++ [(offset s + start, offset s + start + n)%nat] |>
          <| oversized ::= fun o =>
               if is_debounce : bool then o <| o_debounce_ms := Some value |>
               else o <| o_maximum_wait_ms := Some value |> |>
    end)).
  { destruct (negb (in_query s)); [done|].
    destruct (oversized_assignment line) as [[[[[] start] n] v]|] eqn:E; [..|done];
      apply oversized_assignment_large in E; destruct Hs as (H1 & H2 & H3);
      unfold scan_inv, large; simpl; naive_solver. }
  destruct (match split_once 35 (trim line) with Some (before, _) => trim before | None => trim line end)
    as [|c rest]; [done|].
  repeat (case_match; try exact Ha); exact Hs.
Qed.

Lemma normalize_oversized_large t n o :
  normalize_oversized_query_integers t = Some (n, o) ->
  large (o_debounce_ms o) /\ large (o_maximum_wait_ms o)
  /\ (is_some (o_debounce_ms o) = true \/ is_some (o_maximum_wait_ms o) = true).
Proof.
  unfold normalize_oversized_query_integers.
  assert (Hinv : forall ls s, scan_inv s -> scan_inv (foldl scan_line s ls)).
  { induction ls as [|l ls IH]; simpl; [done|]. intros s Hs. by apply IH, scan_line_inv. }
  specialize (Hinv (split_inclusive 10 [] t) (mkScan false 0%nat [] (mkOversized None None))).
  destruct Hinv as (H1 & H2 & H3); [by split_and!|].
  destruct (replacements _) eqn:E; [done|]. intros [= _ <-]. split_and!; [done | done |]. by apply H3.
Qed.

(** A manifest whose integers had to be restored breaks a bound. *)
Lemma restored_out_of_range o m :
  large (o_debounce_ms o) -> large (o_maximum_wait_ms o) ->
  is_some (o_debounce_ms o) = true \/ is_some (o_maximum_wait_ms o) = true ->
  validate_ranges (restore_oversized o m) <> Ok ().
Proof.
  intros H1 H2 Hs Hr. apply validate_ranges_ok in Hr as (Hd & Hw & _).
  unfold restore_oversized, large, i64_max, MAX_DEBOUNCE_MS in *.
  destruct (o_debounce_ms o) as [d|], (o_maximum_wait_ms o) as [w|]; simpl in *;
    try specialize (Hd d eq_refl); try specialize (Hw w eq_refl);
    try specialize (H1 d eq_refl); try specialize (H2 w eq_refl); lia || by destruct Hs.
Qed.

Section Parsing.
Context (compile : text -> result (text -> bool) text) (never : text -> bool)
  (from_str : text -> result Manifest text) (show_float : SpecFloat.spec_float -> text).

Lemma deserialize_validated t m :
  deserialize from_str t = Ok m -> validate_ranges m = Ok () -> from_str t = Ok m.
Proof.
  unfold deserialize. destruct (from_str t) as [m'|e]; [by intros [= ->]|].
  destruct (normalize_oversized_query_integers t) as [[n o]|] eqn:En; [|done].
  destruct (from_str n) as [m'|e']; [|done]. intros [= <-] Hr.
  apply normalize_oversized_large in En as (H1 & H2 & H3). by destruct (restored_out_of_range o m' H1 H2 H3).
Qed.

Lemma validate_query_policy_ranges m : validate_query_policy compile never m = Ok () -> validate_ranges m = Ok ().
Proof. unfold validate_query_policy. rewrite !bind_ok_unit. naive_solver. Qed.

(** A manifest that [parse] accepts is the one the TOML parser read (the
    second reading, with oversized integers replaced, never gets through), of
    the supported version, without a listener permission and with a valid
    settings schema; and the query policy resolved from it is sound: debounce
    period and maximum wait within the bounds and in order, at least one
    dispatch edge, a positive bounded concurrency, no minimum length for a
    plugin that wants the empty query, network-backed only with the network
    permission, and every pattern compiled. *)
Theorem parsed_policy_sound t m :
  (forall t' m', from_str t' = Ok m' -> typed m') ->
  parse compile never from_str show_float t = Ok m ->
  from_str t = Ok m
  /\ manifest_version m = SUPPORTED_MANIFEST_VERSION
  /\ network_listener (permissions m) = false
  /\ validate_declaration show_float (configuration m) = Ok ()
  /\ sound_policy compile m (query_policy compile never m).
Proof.
  intros Htyped. unfold parse. intros (m' & Hm & H)%bind_ok.
  rewrite !bind_ok_unit, !ensure_ok in H. destruct H as (Hver & Hpol & Hperm & H).
  destruct (validate_declaration _ _) as [[]|] eqn:Hdecl; [|done]. simplify_eq.
  apply deserialize_validated in Hm; [|by apply validate_query_policy_ranges].
  apply negb_false_iff, Z.eqb_eq in Hver. unfold validate_permissions in Hperm. apply ensure_ok in Hperm.
  split_and!; [done..|]. apply validate_query_policy_sound; [by eapply Htyped | done].
Qed.
End Parsing.

(** A manifest that declares a network-backed native plugin. *)
Definition sample_manifest : Manifest := {|
  manifest_version := 1;
  plugin := mkPlugin "dev.example.repos" "Repositories" "1.0" Native None ∅ None;
  platform := mkPlatform [] [];
  activation := mkActivation (Some 2) [ascii "repo"] [ascii "Git"] [ascii "^[0-9]+$"] [] None;
  query := mkQuery (Some 80) None None None (Some 2) (Some true);
  concurrency := mkSection None None None None;
  permissions := default_permissions <| network := true |>;
  performance := default_performance;
  python := mkPython None [];
  configuration := Configuration.sample_section;
  catalog := default_catalog |}.

Definition sample_compile (source : text) : result (text -> bool) text := Ok (fun q => starts_with q (ascii "1")).
Definition sample_from_str (t : text) : result Manifest text :=
  if text_eqb t (ascii "sample") then Ok sample_manifest else Err [].

Lemma parsed_policy_sound_witness :
  parse sample_compile (fun _ => false) sample_from_str (fun _ => []) (ascii "sample") = Ok sample_manifest
  /\ sound_policy sample_compile sample_manifest (query_policy sample_compile (fun _ => false) sample_manifest).
Proof.
  assert (Hp : parse sample_compile (fun _ => false) sample_from_str (fun _ => []) (ascii "sample")
               = Ok sample_manifest) by (vm_compute; reflexivity).
  split; [exact Hp|].
  apply (parsed_policy_sound sample_compile (fun _ => false) sample_from_str (fun _ => []) (ascii "sample")
           sample_manifest); [|exact Hp].
  unfold sample_from_str. intros t' m'. case_match; [|done]. intros [= <-].
  unfold typed, sample_manifest, in_range. cbn. split_and!; intros v [= <-]; vm_compute; split; discriminate.
Defined.
