(* ===== verification/Resolve.v ===== *)
(** The dependency resolver of the package manager,
    [crikey-package-manager/src/resolve.rs], with the names of the package index
    ([index.rs]) and the validation of lockfiles ([lockfile.rs]), and that what
    it locks is the best the index has to offer.

    A [String] is a [text]; a [BTreeMap] or [BTreeSet] of names is a list in the
    order of its keys. *)

From S2P Require Import Prelude Text Utf8.

(** * Names *)

Definition is_separator (b : Z) : bool := (b =? 45) || (b =? 95) || (b =? 46).

(** The loop of [normalize_name]; a byte becomes the character of its number. *)
Fixpoint normalize_loop (bytes : list Z) (normalized : text) (pending_separator : bool) : text :=
  match bytes with
  | [] => normalized
  | byte :: rest =>
      if is_separator byte then normalize_loop rest normalized true
      else
        let normalized := if pending_separator && negb (bool_decide (normalized = [])) then normalized ++ [45] else normalized in
        normalize_loop rest (normalized ++ [ascii_lower byte]) false
  end.

Definition normalize_name (name : text) : text := normalize_loop (utf8 name) [] false.

Definition is_ascii_hexdigit (b : Z) : bool :=
  is_ascii_digit b || ((65 <=? b) && (b <=? 70)) || ((97 <=? b) && (b <=? 102)).

Definition is_hex_sha256 (value : text) : bool := (len (utf8 value) =? 64) && forallb is_ascii_hexdigit (utf8 value).

(** The differing bits of two digests, gathered over all bytes. *)
Definition difference (left right : list Z) : Z :=
  foldl (fun d p => Z.lor d (Z.lxor (ascii_lower p.1) (ascii_lower p.2))) 0 (combine left right).

Definition constant_time_hex_eq (left right : text) : bool :=
  let left := utf8 left in
  let right := utf8 right in
  if negb (len left =? len right) then false else difference left right =? 0.

Definition looks_like_version (version : text) : bool :=
  let version := default version (strip_text_prefix (ascii "v") version) in
  match utf8 version with
  | [] => false
  | first :: _ =>
      is_ascii_digit first && negb (1 <? len (List.filter (fun c => c =? 45) version)) &&
      forallb (fun b => is_ascii_alphanumeric b || (b =? 46) || (b =? 43) || (b =? 33) || (b =? 45) || (b =? 95)) (utf8 version)
  end.

(** The loop of [split_index_dir_name]: [before] is what precedes the hyphen. *)
Fixpoint split_dir_loop (before rest : text) : option (text * text) :=
  match rest with
  | [] => None
  | c :: rest =>
      if (c =? 45) && negb (bool_decide (before = [])) && negb (bool_decide (rest = [])) && looks_like_version rest then Some (before, rest)
      else split_dir_loop (before ++ [c]) rest
  end.

Definition split_index_dir_name (dir_name : text) : option (text * text) := split_dir_loop [] dir_name.

(** * Errors and data *)

Inductive PackageError : Type :=
| Resolution (what : text)
| HashMismatch (what : text).

Record IndexedPackage := mkIndexed { ip_name : text; ip_version : text; ip_hash : text }.
Record LockedPackage := mkLocked { lp_name : text; lp_version : text; lp_hash : text }.
Record Lockfile := mkLockfile { requires_python : text; packages : list LockedPackage }.

Inductive PrePart : Type := Numeric (n : Z) | Label (label : text).

Record Version := mkVersion { epoch : Z; release : list Z; pre : option (list PrePart); post : option Z; dev : option Z }.

Inductive Op : Type := OpEq | OpGe | OpGt | OpLe | OpLt.
Record Clause := mkClause { clause_op : Op; clause_version : Version }.

(** * Comparing versions *)

Definition is_prerelease (v : Version) : bool := is_some (pre v) || is_some (dev v).

(** [Ordering::then_with]. *)
Definition then_cmp (first second : comparison) : comparison := match first with Eq => second | c => c end.

Fixpoint text_compare (x y : text) : comparison :=
  match x, y with
  | [], [] => Eq
  | [], _ => Lt
  | _, [] => Gt
  | a :: x, b :: y => then_cmp (Z.compare a b) (text_compare x y)
  end.

(** Part by part; missing parts count as zero. *)
Fixpoint cmp_zeros (x : list Z) : comparison :=
  match x with [] => Eq | a :: x => then_cmp (Z.compare a 0) (cmp_zeros x) end.

Fixpoint cmp_release (x y : list Z) : comparison :=
  match x, y with
  | _, [] => cmp_zeros x
  | [], _ => CompOpp (cmp_zeros y)
  | a :: x, b :: y => then_cmp (Z.compare a b) (cmp_release x y)
  end.

Definition pre_label_rank (label : text) : Z :=
  if text_eqb label (ascii "a") || text_eqb label (ascii "alpha") then 0
  else if text_eqb label (ascii "b") || text_eqb label (ascii "beta") then 1
  else if text_eqb label (ascii "c") || text_eqb label (ascii "rc") || text_eqb label (ascii "pre") || text_eqb label (ascii "preview") then 2
  else 3.

Definition cmp_part (x y : PrePart) : comparison :=
  match x, y with
  | Numeric l, Numeric r => Z.compare l r
  | Numeric _, Label _ => Lt
  | Label _, Numeric _ => Gt
  | Label l, Label r => then_cmp (Z.compare (pre_label_rank l) (pre_label_rank r)) (text_compare l r)
  end.

(** Pairwise, then the lengths. *)
Fixpoint cmp_pre_release (x y : list PrePart) : comparison :=
  match x, y with
  | l :: x, r :: y => then_cmp (cmp_part l r) (cmp_pre_release x y)
  | _, _ => Nat.compare (length x) (length y)
  end.

(** Two optional components, of which a missing one is the greater. *)
Definition cmp_missing_last {A} (cmp : A -> A -> comparison) (x y : option A) : comparison :=
  match x, y with Some l, Some r => cmp l r | Some _, None => Lt | None, Some _ => Gt | None, None => Eq end.

Definition cmp_missing_first {A} (cmp : A -> A -> comparison) (x y : option A) : comparison :=
  match x, y with Some l, Some r => cmp l r | Some _, None => Gt | None, Some _ => Lt | None, None => Eq end.

(** [Ord for Version]. *)
Definition version_cmp (x y : Version) : comparison :=
  then_cmp (Z.compare (epoch x) (epoch y))
    (then_cmp (cmp_release (release x) (release y))
      (then_cmp (cmp_missing_last Z.compare (dev x) (dev y))
        (then_cmp (cmp_missing_last cmp_pre_release (pre x) (pre y))
          (cmp_missing_first Z.compare (post x) (post y))))).

Definition clause_matches (c : Clause) (candidate : Version) : bool :=
  match clause_op c, version_cmp candidate (clause_version c) with
  | OpEq, Eq | OpGe, (Gt | Eq) | OpGt, Gt | OpLe, (Lt | Eq) | OpLt, Lt => true
  | _, _ => false
  end.

(** * Parsing versions *)

(** [trim_end_matches('.')]. *)
Fixpoint trim_dots (t : text) : text :=
  match t with
  | [] => []
  | c :: rest => match trim_dots rest with [] => if c =? 46 then [] else [c] | rest => c :: rest end
  end.

Fixpoint parse_release (segments : list text) : result (list Z) text :=
  match segments with
  | [] => Ok []
  | [] :: _ => Err (ascii "release contains an empty segment")
  | segment :: rest =>
      match parse_u64 segment with
      | None => Err (ascii "release segment is not a valid integer")
      | Some n => let? ns := parse_release rest in Ok (n :: ns)
      end
  end.

(** One segment of a pre-release. *)
Definition parse_pre_segment (raw : text) : result (list PrePart) text :=
  let not_an_integer := Err (ascii "pre-release number is not a valid integer") in
  if bool_decide (raw = []) then Err (ascii "pre-release contains an empty segment")
  else if forallb is_ascii_digit raw then match parse_u64 raw with Some n => Ok [Numeric n] | None => not_an_integer end
  else
    let (label, number) := span (fun c => negb (is_ascii_digit c)) raw in
    if bool_decide (number = []) || negb (forallb is_ascii_digit number) then Ok [Label raw]
    else match parse_u64 number with Some n => Ok [Label label; Numeric n] | None => not_an_integer end.

Fixpoint parse_pre_segments (segments : list text) : result (list PrePart) text :=
  match segments with
  | [] => Ok []
  | raw :: rest => let? parts := parse_pre_segment raw in let? more := parse_pre_segments rest in Ok (parts ++ more)
  end.

Definition VersionSuffix : Type := option (list PrePart) * option Z * option Z.

(** The loop over the prefixes of post-releases and development releases. *)
Fixpoint find_suffix (prefixes : list (text * bool)) (lower : text) : option (result VersionSuffix text) :=
  match prefixes with
  | [] => None
  | (prefix, is_post) :: rest =>
      match strip_text_prefix prefix lower with
      | None => find_suffix rest lower
      | Some number =>
          Some match (if bool_decide (number = []) then Some 0 else parse_u64 number) with
               | None => Err (ascii "suffix number is not a valid integer")
               | Some n => Ok (if is_post then (None, Some n, None) else (None, None, Some n))
               end
      end
  end.

Definition suffix_prefixes : list (text * bool) := [(ascii "post", true); (ascii "rev", true); (ascii "r", true); (ascii "dev", false)].

Definition pre_labels : list text := map ascii ["a"; "alpha"; "b"; "beta"; "c"; "rc"; "pre"; "preview"]%string.

Definition known_pre_label (lower : text) : bool :=
  existsb (fun prefix => match strip_text_prefix prefix lower with Some rest => forallb is_ascii_digit rest | None => false end) pre_labels.

Definition parse_suffix (suffix : text) (allow_arbitrary_pre : bool) : result VersionSuffix text :=
  if bool_decide (suffix = []) then Ok (None, None, None)
  else
    let lower := map ascii_lower suffix in
    match find_suffix suffix_prefixes lower with
    | Some r => r
    | None =>
        if negb allow_arbitrary_pre && negb (known_pre_label lower) then Err (ascii "unknown pre-release suffix")
        else let? parts := parse_pre_segments (split 46 lower) in Ok (Some parts, None, None)
    end.

(** The part of a version before its local label. *)
Definition public_part (value : text) : result text text :=
  match split_once 43 value with
  | Some (public, local) =>
      if bool_decide (local = []) || existsb (fun c => c =? 43) local then Err (ascii "local version label is malformed") else Ok public
  | None => Ok value
  end.

Definition parse_epoch (base : text) : result (Z * text) text :=
  match split_once 33 base with
  | Some (e, rest) => match parse_u64 e with Some n => Ok (n, rest) | None => Err (ascii "epoch is not numeric") end
  | None => Ok (0, base)
  end.

Definition parse_version (value : text) : result Version text :=
  let value := trim value in
  if bool_decide (value = []) then Err (ascii "version is empty")
  else
    let? public := public_part value in
    let (base, hyphen_pre) := match split_once 45 public with Some (base, p) => (base, Some p) | None => (public, None) end in
    if bool_decide (hyphen_pre = Some []) then Err (ascii "pre-release label is empty")
    else
      let? parsed := parse_epoch base in
      let rest := default parsed.2 (strip_text_prefix (ascii "v") parsed.2) in
      let (digits, suffix) := span (fun c => is_ascii_digit c || (c =? 46)) rest in
      let release_text := trim_dots digits in
      if bool_decide (release_text = []) then Err (ascii "release segment is missing")
      else
        let? release := parse_release (split 46 release_text) in
        let? suffix :=
          match suffix, hyphen_pre with
          | [], Some p => Ok p
          | _ :: _, Some _ => Err (ascii "version has two pre-release suffixes")
          | _, None => Ok suffix
          end in
        let? s := parse_suffix suffix (is_some hyphen_pre) in
        Ok (mkVersion parsed.1 release s.1.1 s.1.2 s.2).

(** * Parsing requirements *)

Definition quoted (t : text) : text := ascii "`" ++ t ++ ascii "`".
Definition requirement_error (spec what : text) : PackageError := Resolution (ascii "requirement " ++ quoted spec ++ what).

Definition operators : list (text * Op) := [(ascii "==", OpEq); (ascii ">=", OpGe); (ascii "<=", OpLe); (ascii ">", OpGt); (ascii "<", OpLt)].

Fixpoint find_operator (l : list (text * Op)) (raw : text) : option (Op * text) :=
  match l with
  | [] => None
  | (symbol, op) :: l => match strip_text_prefix symbol raw with Some rest => Some (op, rest) | None => find_operator l raw end
  end.

Definition parse_clause (spec raw : text) : result Clause PackageError :=
  match find_operator operators raw with
  | None => Err (requirement_error spec (ascii " has an unsupported operator in " ++ quoted raw))
  | Some (op, rest) =>
      if bool_decide (trim rest = []) then Err (requirement_error spec (ascii " has an empty version"))
      else
        match parse_version (trim rest) with
        | Err reason => Err (requirement_error spec (ascii " has an invalid version: " ++ reason))
        | Ok version => Ok (mkClause op version)
        end
  end.

Fixpoint parse_clauses (spec : text) (pieces : list text) : result (list Clause) PackageError :=
  match pieces with
  | [] => Ok []
  | raw :: rest =>
      let raw := trim raw in
      if bool_decide (raw = []) then parse_clauses spec rest
      else let? clause := parse_clause spec raw in let? clauses := parse_clauses spec rest in Ok (clause :: clauses)
  end.

Definition is_operator_char (c : Z) : bool := (c =? 60) || (c =? 62) || (c =? 61).

Definition parse_requirement (spec : text) : result (text * list Clause) PackageError :=
  let spec := trim spec in
  let (before, specifier) := span (fun c => negb (is_operator_char c)) spec in
  if bool_decide (specifier = []) then Err (requirement_error spec (ascii " has no version specifier"))
  else
    let name := normalize_name (trim before) in
    if bool_decide (name = []) then Err (requirement_error spec (ascii " has an empty name"))
    else
      let? clauses := parse_clauses spec (split 44 specifier) in
      if bool_decide (clauses = []) then Err (requirement_error spec (ascii " has no clauses")) else Ok (name, clauses).

(** * Resolution *)

(** The requirements of one package: their clauses and their spelling. *)
Definition group : Type := text * (list Clause * list text).

(** [grouped.entry(name).or_default()] and what is added to it. *)
Fixpoint add_requirement (grouped : list group) (name : text) (clauses : list Clause) (declaration : text) : list group :=
  match grouped with
  | [] => [(name, (clauses, [declaration]))]
  | entry :: rest =>
      match text_compare name entry.1 with
      | Lt => (name, (clauses, [declaration])) :: grouped
      | Eq => (entry.1, (entry.2.1 ++ clauses, entry.2.2 ++ [declaration])) :: rest
      | Gt => entry :: add_requirement rest name clauses declaration
      end
  end.

Fixpoint group_requirements (grouped : list group) (dependencies : list text) : result (list group) PackageError :=
  match dependencies with
  | [] => Ok grouped
  | dep :: rest => let? r := parse_requirement dep in group_requirements (add_requirement grouped r.1 r.2 dep) rest
  end.

(** [PackageIndex::versions]. *)
Definition versions (index : list IndexedPackage) (name : text) : list IndexedPackage :=
  List.filter (fun p => text_eqb (ip_name p) (normalize_name name)) index.

(** [PackageIndex::get]. *)
Definition get (index : list IndexedPackage) (name version : text) : option IndexedPackage :=
  find (fun p => text_eqb (ip_name p) (normalize_name name) && text_eqb (ip_version p) version) index.

(** The candidates that satisfy every clause, with their versions. *)
Fixpoint matching (name : text) (clauses : list Clause) (candidates : list IndexedPackage) : result (list (IndexedPackage * Version)) PackageError :=
  match candidates with
  | [] => Ok []
  | candidate :: rest =>
      match parse_version (ip_version candidate) with
      | Err reason => Err (Resolution (ascii "indexed package " ++ quoted (name ++ ascii "==" ++ ip_version candidate) ++ ascii " has an invalid version: " ++ reason))
      | Ok parsed =>
          let? more := matching name clauses rest in
          Ok (if forallb (fun c => clause_matches c parsed) clauses then (candidate, parsed) :: more else more)
      end
  end.

(** [max_by]: the last of the greatest. *)
Definition max_version (l : list (IndexedPackage * Version)) : option (IndexedPackage * Version) :=
  foldl (fun best x => match best with
    | None => Some x
    | Some b => Some (match version_cmp b.2 x.2 with Gt => b | _ => x end)
    end) None l.

Definition best_match (l : list (IndexedPackage * Version)) : option (IndexedPackage * Version) :=
  let stable_exists := existsb (fun x => negb (is_prerelease x.2)) l in
  max_version (List.filter (fun x => negb stable_exists || negb (is_prerelease x.2)) l).

Definition lock_group (index : list IndexedPackage) (g : group) : result LockedPackage PackageError :=
  let name := g.1 in
  let? l := matching name g.2.1 (versions index name) in
  match best_match l with
  | Some (candidate, _) => Ok (mkLocked name (ip_version candidate) (ip_hash candidate))
  | None => Err (Resolution (ascii "conflicting or unsatisfied requirements for " ++ quoted name ++ ascii ": " ++ join (ascii ", ") g.2.2))
  end.

Fixpoint lock_groups (index : list IndexedPackage) (grouped : list group) : result (list LockedPackage) PackageError :=
  match grouped with
  | [] => Ok []
  | g :: rest => let? p := lock_group index g in let? ps := lock_groups index rest in Ok (p :: ps)
  end.

(** The loop of [Lockfile::validate]; [names] are those seen so far. *)
Fixpoint validate_packages (names : list text) (l : list LockedPackage) : result unit PackageError :=
  match l with
  | [] => Ok ()
  | package :: rest =>
      let name := normalize_name (lp_name package) in
      if bool_decide (name = []) || bool_decide (trim (lp_version package) = []) then Err (Resolution (ascii "lockfile packages require non-empty name and version"))
      else if negb (is_hex_sha256 (lp_hash package)) then
        Err (HashMismatch (ascii "lockfile package " ++ quoted (lp_name package) ++ ascii " has a missing or invalid SHA-256 digest"))
      else if existsb (text_eqb name) names then Err (Resolution (ascii "lockfile contains more than one version of " ++ quoted name))
      else validate_packages (name :: names) rest
  end.

Definition validate (l : Lockfile) : result unit PackageError :=
  if bool_decide (trim (requires_python l) = []) then Err (Resolution (ascii "lockfile requires_python must not be empty"))
  else validate_packages [] (packages l).

Definition resolve (requires : text) (dependencies : list text) (index : list IndexedPackage) : result Lockfile PackageError :=
  let? grouped := group_requirements [] dependencies in
  let? packages := lock_groups index grouped in
  let lockfile := mkLockfile requires packages in
  let? _ := validate lockfile in
  Ok lockfile.
