(* ===== verification/ResolveFacts.v ===== *)
(** The resolver's order on versions is a total preorder, package names are
    canonical, and what is locked is exactly the best of the index. *)

From S2P Require Import Prelude Text Utf8 Resolve.

(** * Comparisons *)

(** A comparison that orders its type totally. *)
Class Ordered {A} (cmp : A -> A -> comparison) : Prop := {
  cmp_opp : forall x y, cmp y x = CompOpp (cmp x y);
  cmp_trans : forall x y z, cmp x y <> Gt -> cmp y z <> Gt -> cmp x z <> Gt;
}.

Section Ordered.
Context {A} {cmp : A -> A -> comparison} {O : Ordered cmp}.

Lemma cmp_refl x : cmp x x = Eq.
Proof. pose proof (cmp_opp x x) as H. by destruct (cmp x x). Qed.

Lemma cmp_Lt_trans x y z : cmp x y = Lt -> cmp y z <> Gt -> cmp x z = Lt.
Proof.
  intros Hxy Hyz. assert (H : cmp x z <> Gt) by (apply (cmp_trans x y z); [by rewrite Hxy | done]).
  destruct (cmp x z) eqn:E; [|done..]. exfalso. assert (Hzx : cmp z x <> Gt) by (by rewrite cmp_opp, E).
  pose proof (cmp_trans y z x Hyz Hzx) as H'. by rewrite cmp_opp, Hxy in H'.
Qed.

Lemma cmp_trans_Lt x y z : cmp x y <> Gt -> cmp y z = Lt -> cmp x z = Lt.
Proof.
  intros Hxy Hyz. assert (H : cmp x z <> Gt) by (apply (cmp_trans x y z); [done | by rewrite Hyz]).
  destruct (cmp x z) eqn:E; [|done..]. exfalso. assert (Hzx : cmp z x <> Gt) by (by rewrite cmp_opp, E).
  pose proof (cmp_trans z x y Hzx Hxy) as H'. by rewrite cmp_opp, Hyz in H'.
Qed.

End Ordered.

#[export] Instance Ordered_Z : Ordered Z.compare.
Proof. split; [intros; apply Z.compare_antisym | intros x y z; change (x <= y -> y <= z -> x <= z); lia]. Qed.

#[export] Instance Ordered_nat : Ordered Nat.compare.
Proof. split; [intros; apply Nat.compare_antisym | intros x y z; rewrite !Nat.compare_le_iff; lia]. Qed.

Lemma ordered_key {A B} (cmp : B -> B -> comparison) (f : A -> B) : Ordered cmp -> Ordered (fun x y => cmp (f x) (f y)).
Proof. intros O. split; intros *; [apply cmp_opp | apply cmp_trans]. Qed.

(** Lexicographic order. *)
Lemma ordered_then {A} (c1 c2 : A -> A -> comparison) : Ordered c1 -> Ordered c2 -> Ordered (fun x y => then_cmp (c1 x y) (c2 x y)).
Proof.
  intros O1 O2. split.
  - intros x y. rewrite (cmp_opp (cmp := c1) x y), (cmp_opp (cmp := c2) x y). by destruct (c1 x y).
  - intros x y z Hxy Hyz. destruct (c1 x y) eqn:E1; cbn in Hxy; [| |done].
    + destruct (c1 y z) eqn:E2; cbn in Hyz; [| |done].
      * assert (H1 : c1 x z <> Gt) by (apply (cmp_trans x y z); by rewrite ?E1, ?E2). destruct (c1 x z) eqn:E3; [|done..]. cbn. by apply (cmp_trans x y z).
      * by rewrite (cmp_trans_Lt x y z ltac:(by rewrite E1) E2).
    + assert (H1 : c1 y z <> Gt) by (by destruct (c1 y z)). by rewrite (cmp_Lt_trans x y z E1 H1).
Qed.

(** Lists element by element, the shorter first. *)
Fixpoint list_cmp {A} (cmp : A -> A -> comparison) (x y : list A) : comparison :=
  match x, y with
  | [], [] => Eq
  | [], _ => Lt
  | _, [] => Gt
  | a :: x, b :: y => then_cmp (cmp a b) (list_cmp cmp x y)
  end.

#[export] Instance Ordered_list {A} (cmp : A -> A -> comparison) : Ordered cmp -> Ordered (list_cmp cmp).
Proof.
  intros O. split.
  - intros x. induction x as [|a x IH]; intros [|b y]; try done. cbn. rewrite (cmp_opp a b), IH. by destruct (cmp a b).
  - intros x. induction x as [|a x IH]; intros [|b y] [|c z]; try done. cbn. intros Hxy Hyz. destruct (cmp a b) eqn:E1; cbn in Hxy; [| |done].
    + destruct (cmp b c) eqn:E2; cbn in Hyz; [| |done].
      * assert (H1 : cmp a c <> Gt) by (apply (cmp_trans a b c); by rewrite ?E1, ?E2). destruct (cmp a c) eqn:E3; [|done..]. cbn. by apply (IH y z).
      * by rewrite (cmp_trans_Lt a b c ltac:(by rewrite E1) E2).
    + assert (H1 : cmp b c <> Gt) by (by destruct (cmp b c)). by rewrite (cmp_Lt_trans a b c E1 H1).
Qed.

Lemma text_compare_list x y : text_compare x y = list_cmp Z.compare x y.
Proof. revert y. induction x as [|a x IH]; intros [|b y]; cbn; [done..|]. by rewrite IH. Qed.

Lemma ordered_ext {A} (c1 c2 : A -> A -> comparison) : (forall x y, c1 x y = c2 x y) -> Ordered c2 -> Ordered c1.
Proof. intros E O. split; intros *; rewrite !E; [apply cmp_opp | apply cmp_trans]. Qed.

#[export] Instance Ordered_text : Ordered text_compare.
Proof. eapply ordered_ext; [apply text_compare_list | apply _]. Qed.

#[export] Instance Ordered_missing_last {A} (cmp : A -> A -> comparison) : Ordered cmp -> Ordered (cmp_missing_last cmp).
Proof. intros O. split; [intros [x|] [y|]; try done; cbn; apply cmp_opp | intros [x|] [y|] [z|]; try done; cbn; apply cmp_trans]. Qed.

#[export] Instance Ordered_missing_first {A} (cmp : A -> A -> comparison) : Ordered cmp -> Ordered (cmp_missing_first cmp).
Proof. intros O. split; [intros [x|] [y|]; try done; cbn; apply cmp_opp | intros [x|] [y|] [z|]; try done; cbn; apply cmp_trans]. Qed.

(** ** Releases: an order on lists that zeros prolong. *)

Fixpoint padded (n : nat) (x : list Z) : list Z := match n with O => [] | S n => hd 0 x :: padded n (tl x) end.

Lemma cmp_release_padded n x y :
  (length x <= n)%nat -> (length y <= n)%nat -> cmp_release x y = list_cmp Z.compare (padded n x) (padded n y).
Proof.
  revert x y. induction n as [|n IH]; intros x y Hx Hy; [destruct x, y; try done; cbn in *; lia|].
  destruct x as [|a x], y as [|b y]; cbn -[Z.compare] in *.
  - specialize (IH [] [] ltac:(cbn; lia) ltac:(cbn; lia)). cbn in IH. done.
  - specialize (IH [] y ltac:(cbn; lia) ltac:(lia)). replace (0 ?= b) with (CompOpp (b ?= 0)) by (symmetry; apply Z.compare_antisym).
    rewrite <- IH. destruct (b ?= 0); cbn; try done. by destruct y.
  - specialize (IH x [] ltac:(lia) ltac:(cbn; lia)). rewrite <- IH. by destruct x.
  - by rewrite (IH x y ltac:(lia) ltac:(lia)).
Qed.

#[export] Instance Ordered_release : Ordered cmp_release.
Proof.
  split.
  - intros x y. set (n := (length x + length y)%nat). rewrite !(cmp_release_padded n) by lia. apply cmp_opp.
  - intros x y z. set (n := (length x + length y + length z)%nat). rewrite !(cmp_release_padded n) by lia. apply cmp_trans.
Qed.

#[export] Instance Ordered_part : Ordered cmp_part.
Proof.
  assert (O := ordered_then (fun x y => Z.compare (pre_label_rank x) (pre_label_rank y)) text_compare (ordered_key Z.compare pre_label_rank _) _).
  split.
  - intros [x|x] [y|y]; try done; [apply Z.compare_antisym | apply (@cmp_opp _ _ O)].
  - intros [x|x] [y|y] [z|z]; try done; [apply (cmp_trans (cmp := Z.compare)) | apply (@cmp_trans _ _ O)].
Qed.

Lemma cmp_pre_release_list x y : cmp_pre_release x y = list_cmp cmp_part x y.
Proof. revert y. induction x as [|a x IH]; intros [|b y]; cbn; [done..|]. by rewrite IH. Qed.

#[export] Instance Ordered_pre_release : Ordered cmp_pre_release.
Proof. eapply ordered_ext; [apply cmp_pre_release_list | apply _]. Qed.

#[export] Instance Ordered_version : Ordered version_cmp.
Proof.
  unfold version_cmp.
  apply (ordered_then (fun x y => Z.compare (epoch x) (epoch y)) _ (ordered_key Z.compare epoch _)).
  apply (ordered_then (fun x y => cmp_release (release x) (release y)) _ (ordered_key cmp_release release _)).
  apply (ordered_then (fun x y => cmp_missing_last Z.compare (dev x) (dev y)) _ (ordered_key (cmp_missing_last Z.compare) dev _)).
  apply (ordered_then (fun x y => cmp_missing_last cmp_pre_release (pre x) (pre y)) _ (ordered_key (cmp_missing_last cmp_pre_release) pre _)).
  apply (ordered_key (cmp_missing_first Z.compare) post _).
Qed.

Lemma text_compare_Eq x y : text_compare x y = Eq <-> x = y.
Proof.
  split; [|intros ->; apply cmp_refl]. revert y. induction x as [|a x IH]; intros [|b y]; cbn; try done.
  destruct (Z.compare_spec a b) as [->| |]; cbn; try done. intros H. by rewrite (IH y H).
Qed.

(** * Selection *)

(** [v] is chosen before [w] or as well: the stable version of the two, and the
    greater one of two that are equally stable. *)
Definition preferred (v w : Version) : Prop :=
  match is_prerelease v, is_prerelease w with
  | true, false => False
  | false, true => True
  | _, _ => version_cmp w v <> Gt
  end.

Definition greatest (l : list (IndexedPackage * Version)) (b : IndexedPackage * Version) : Prop :=
  In b l /\ forall x, In x l -> version_cmp x.2 b.2 <> Gt.

Lemma greatest_after l a x :
  greatest l a -> greatest (l ++ [x]) (match version_cmp a.2 x.2 with Gt => a | _ => x end).
Proof.
  intros [Ha Hl].
  assert (Hkeep : version_cmp a.2 x.2 <> Gt -> greatest (l ++ [x]) x).
  { intros H. split; [apply in_or_app; cbn; auto|]. intros y [Hy|[<-|[]]]%in_app_or; [|by rewrite cmp_refl].
    apply (cmp_trans y.2 a.2 x.2); [by apply Hl | done]. }
  destruct (version_cmp a.2 x.2) eqn:E; [by apply Hkeep | by apply Hkeep|].
  split; [apply in_or_app; auto|]. intros y [Hy|[<-|[]]]%in_app_or; [by apply Hl|]. by rewrite (cmp_opp a.2), E.
Qed.

Lemma max_version_greatest l : match max_version l with Some b => greatest l b | None => l = [] end.
Proof.
  unfold max_version. induction l as [|x l IH] using rev_ind; [done|]. rewrite foldl_snoc. destruct (foldl _ None l) as [b|].
  - by apply greatest_after.
  - subst l. split; [cbn; auto | intros y [<-|[]]; by rewrite cmp_refl].
Qed.

Lemma best_match_spec l x : best_match l = Some x -> In x l /\ forall y, In y l -> preferred x.2 y.2.
Proof.
  unfold best_match. set (stable := existsb _ _). intros H. pose proof (max_version_greatest (List.filter (fun x => negb stable || negb (is_prerelease x.2)) l)) as Hm.
  rewrite H in Hm. destruct Hm as [[Hx Hs]%filter_In Hmax]. split; [done|]. intros y Hy. unfold preferred.
  assert (Hstable : is_prerelease y.2 = false -> stable = true) by (intros E; apply existsb_exists; exists y; by rewrite E).
  specialize (Hmax y). rewrite filter_In in Hmax. destruct (is_prerelease x.2), (is_prerelease y.2), stable; cbn in *; try (by apply Hmax); try done; by specialize (Hstable eq_refl).
Qed.

Lemma best_match_some l : l <> [] -> exists x, best_match l = Some x.
Proof.
  intros Hl. unfold best_match. set (stable := existsb _ _). pose proof (max_version_greatest (List.filter (fun x => negb stable || negb (is_prerelease x.2)) l)) as Hm.
  destruct (max_version _) as [x|]; [by exists x|]. exfalso. destruct stable eqn:E.
  - apply existsb_exists in E as (y & Hy & E). apply (in_nil (a := y)). rewrite <- Hm. apply filter_In. split; [done|]. cbn. done.
  - destruct l as [|y l]; [done|]. cbn in Hm. discriminate Hm.
Qed.

(** * The candidates *)

Lemma matching_spec name clauses cands l :
  matching name clauses cands = Ok l ->
  forall c v, In (c, v) l <-> In c cands /\ parse_version (ip_version c) = Ok v /\ forallb (fun k => clause_matches k v) clauses = true.
Proof.
  revert l. induction cands as [|x cands IH]; cbn; intros l; [intros [= <-]; cbn; naive_solver|].
  destruct (parse_version (ip_version x)) as [v0|] eqn:E; [|done]. destruct (matching name clauses cands) as [l0|]; [cbn|done]. intros [= <-] c v.
  specialize (IH l0 eq_refl c v). destruct (forallb (fun k => clause_matches k v0) clauses) eqn:F; cbn; rewrite IH; split.
  - intros [[= <- <-]|H]; naive_solver.
  - intros ([<-|Hc] & Hv & Hf); [left; congruence | naive_solver].
  - naive_solver.
  - intros ([<-|Hc] & Hv & Hf); [rewrite E in Hv; injection Hv as <-; congruence | naive_solver].
Qed.

Lemma matching_succeeds name clauses cands :
  (forall c, In c cands -> exists v, parse_version (ip_version c) = Ok v) -> exists l, matching name clauses cands = Ok l.
Proof.
  induction cands as [|x cands IH]; cbn; intros H; [by eexists|]. destruct (H x ltac:(auto)) as [v ->].
  destruct IH as [l ->]; [auto|]. by eexists.
Qed.

(** * Grouping *)

Definition clauses_for (parsed : list (text * list Clause)) (name : text) : list Clause :=
  concat (map snd (List.filter (fun r => text_eqb r.1 name) parsed)).

Definition name_before (a b : group) : Prop := text_compare a.1 b.1 = Lt.

(** What the grouped requirements hold of those parsed so far. *)
Record Grouped (g : list group) (parsed : list (text * list Clause)) : Prop := {
  grouped_sorted : StronglySorted name_before g;
  grouped_names n : In n (map fst g) <-> In n (map fst parsed);
  grouped_clauses e : In e g -> e.2.1 = clauses_for parsed e.1;
}.

Lemma add_requirement_names g n cl d m : In m (map fst (add_requirement g n cl d)) <-> m = n \/ In m (map fst g).
Proof.
  induction g as [|e g IH]; cbn; [naive_solver|]. destruct (text_compare n e.1) eqn:E; cbn.
  - apply text_compare_Eq in E. naive_solver.
  - naive_solver.
  - rewrite IH. naive_solver.
Qed.

Lemma add_requirement_sorted g n cl d : StronglySorted name_before g -> StronglySorted name_before (add_requirement g n cl d).
Proof.
  induction 1 as [|e g Hs IH Hall]; cbn; [repeat constructor|]. destruct (text_compare n e.1) eqn:E.
  - constructor; [done|]. done.
  - constructor; [by constructor|]. constructor; [done|]. eapply Forall_impl; [exact Hall|]. intros a Ha. unfold name_before in *. cbn.
    apply (cmp_Lt_trans n e.1 a.1 E). by rewrite Ha.
  - constructor; [done|]. apply List.Forall_forall. intros a Ha. assert (Hn : In a.1 (map fst (add_requirement g n cl d))) by (by apply in_map).
    apply add_requirement_names in Hn as [Hn|Hn]; unfold name_before.
    + by rewrite Hn, (cmp_opp n e.1), E.
    + apply in_map_iff in Hn as (b & <- & Hb). rewrite List.Forall_forall in Hall. by apply Hall.
Qed.

(** An entry is new, has grown, or is untouched. *)
Lemma add_requirement_entry g n cl d e :
  StronglySorted name_before g -> In e (add_requirement g n cl d) ->
  (e.1 <> n /\ In e g) \/
  (e.1 = n /\ ((~ In n (map fst g) /\ e.2.1 = cl) \/ exists old, In old g /\ old.1 = n /\ e.2.1 = old.2.1 ++ cl)).
Proof.
  induction 1 as [|x g Hs IH Hall]; cbn; [naive_solver|].
  assert (Hlater : forall m, In m (map fst g) -> text_compare x.1 m = Lt).
  { intros m (b & <- & Hb)%in_map_iff. rewrite List.Forall_forall in Hall. by apply Hall. }
  destruct (text_compare n x.1) eqn:E.
  - apply text_compare_Eq in E. intros [<-|He]; cbn; [right; split; [done|]; right; by exists x; auto|].
    left. split; [|auto]. intros Hn. pose proof (Hlater e.1 (in_map fst _ _ He)) as H. by rewrite Hn, E, cmp_refl in H.
  - intros [<-|He]; cbn; [right; split; [done|]; left; split; [|done]|].
    + intros [Hx|Hn]; [by rewrite Hx, cmp_refl in E|]. pose proof (cmp_Lt_trans n x.1 n E ltac:(by rewrite (Hlater n Hn))) as H. by rewrite cmp_refl in H.
    + left. split; [|auto]. intros Hn. destruct He as [<-|He]; [by rewrite Hn, cmp_refl in E|].
      pose proof (cmp_Lt_trans n x.1 e.1 E ltac:(by rewrite (Hlater e.1 (in_map fst _ _ He)))) as H. by rewrite Hn, cmp_refl in H.
  - assert (Hx : x.1 <> n) by (intros Hn; by rewrite Hn, cmp_refl in E).
    intros [<-|He]; [by left; auto|]. destruct (IH He) as [[Hn Hi]|[Hn [[Hi Hc]|(old & Ho)]]]; [by left; auto| |]; right; (split; [done|]).
    + left. split; [|done]. by intros [?|?].
    + right. exists old. naive_solver.
Qed.

Lemma clauses_for_app p1 p2 n : clauses_for (p1 ++ p2) n = clauses_for p1 n ++ clauses_for p2 n.
Proof. unfold clauses_for. by rewrite List.filter_app, List.map_app, concat_app. Qed.

Lemma clauses_for_none p n : ~ In n (map fst p) -> clauses_for p n = [].
Proof.
  unfold clauses_for. induction p as [|r p IH]; cbn; [done|]. intros H. destruct (text_eqb r.1 n) eqn:E; [|auto].
  apply bool_decide_eq_true in E. naive_solver.
Qed.

Lemma clauses_for_one n cl m : clauses_for [(n, cl)] m = if text_eqb n m then cl else [].
Proof. unfold clauses_for. cbn. destruct (text_eqb n m); cbn; [apply app_nil_r | done]. Qed.

Lemma Grouped_add g parsed n cl d : Grouped g parsed -> Grouped (add_requirement g n cl d) (parsed ++ [(n, cl)]).
Proof.
  intros [Hs Hn Hc]. split; [by apply add_requirement_sorted|..].
  - intros m. rewrite add_requirement_names, Hn, List.map_app, in_app_iff. cbn. naive_solver.
  - intros e He. rewrite clauses_for_app, clauses_for_one.
    destruct (add_requirement_entry _ _ _ _ _ Hs He) as [[Hne Hi]|[<- [[Hi ->]|(old & Ho & Hname & ->)]]].
    + destruct (text_eqb n e.1) eqn:E; [apply bool_decide_eq_true in E; naive_solver|]. by rewrite app_nil_r, (Hc e Hi).
    + rewrite (clauses_for_none parsed); [|by rewrite <- Hn]. by destruct (text_eqb e.1 e.1) eqn:E; [|apply bool_decide_eq_false in E].
    + rewrite (Hc old Ho), Hname. by destruct (text_eqb e.1 e.1) eqn:E; [|apply bool_decide_eq_false in E].
Qed.

(** The requirements in the order they are declared. *)
Fixpoint parse_requirements (deps : list text) : result (list (text * list Clause)) PackageError :=
  match deps with
  | [] => Ok []
  | d :: deps => let? r := parse_requirement d in let? rs := parse_requirements deps in Ok (r :: rs)
  end.

Lemma group_requirements_spec deps g parsed g' :
  Grouped g parsed -> group_requirements g deps = Ok g' -> exists more, parse_requirements deps = Ok more /\ Grouped g' (parsed ++ more).
Proof.
  revert g parsed. induction deps as [|d deps IH]; cbn; intros g parsed Hg H.
  - injection H as <-. exists []. by rewrite app_nil_r.
  - destruct (parse_requirement d) as [[n cl]|]; [cbn in *|done]. destruct (IH _ _ (Grouped_add _ _ n cl d Hg) H) as (more & -> & Hm).
    eexists. split; [done|]. by rewrite <- app_assoc in Hm.
Qed.

Lemma group_requirements_total deps g :
  (forall d, In d deps -> exists r, parse_requirement d = Ok r) -> exists g', group_requirements g deps = Ok g'.
Proof.
  revert g. induction deps as [|d deps IH]; cbn; intros g H; [by eexists|]. destruct (H d ltac:(auto)) as [r ->]. apply IH. auto.
Qed.

Lemma parse_requirements_in deps parsed :
  parse_requirements deps = Ok parsed -> forall r, In r parsed <-> exists d, In d deps /\ parse_requirement d = Ok r.
Proof.
  revert parsed. induction deps as [|d deps IH]; cbn; intros parsed; [intros [= <-]; naive_solver|].
  destruct (parse_requirement d) as [r0|] eqn:E; [cbn|done]. destruct (parse_requirements deps) as [rs|]; [cbn|done]. intros [= <-] r. cbn.
  rewrite (IH rs eq_refl). split.
  - intros [<-|(d' & Hd & H)]; eauto.
  - intros (d' & [<-|Hd] & H); [left; congruence | eauto].
Qed.

Lemma clauses_for_in p n k : In k (clauses_for p n) <-> exists cl, In (n, cl) p /\ In k cl.
Proof.
  unfold clauses_for. rewrite in_concat. split.
  - intros (cl & ((m & c') & <- & [Hin E]%filter_In)%in_map_iff & Hk). apply bool_decide_eq_true in E. cbn in *. subst. eauto.
  - intros (cl & Hin & Hk). exists cl. split; [|done]. apply in_map_iff. exists (n, cl). split; [done|]. apply filter_In. split; [done|]. by apply bool_decide_eq_true.
Qed.

(** * What is locked *)

(** A package of the index that meets every requirement of the name. *)
Definition satisfying (index : list IndexedPackage) (deps : list text) (name : text) (c : IndexedPackage) (v : Version) : Prop :=
  In c index /\ ip_name c = normalize_name name /\ parse_version (ip_version c) = Ok v /\
  forall dep clauses clause, In dep deps -> parse_requirement dep = Ok (name, clauses) -> In clause clauses -> clause_matches clause v = true.

Lemma versions_in index name c : In c (versions index name) <-> In c index /\ ip_name c = normalize_name name.
Proof. unfold versions. rewrite filter_In. unfold text_eqb. by rewrite bool_decide_eq_true. Qed.

Lemma satisfying_matching index deps parsed g e l :
  parse_requirements deps = Ok parsed -> Grouped g parsed -> In e g ->
  matching e.1 e.2.1 (versions index e.1) = Ok l -> forall c v, In (c, v) l <-> satisfying index deps e.1 c v.
Proof.
  intros Hp Hg He Hl c v. rewrite (matching_spec _ _ _ _ Hl), versions_in, (grouped_clauses _ _ Hg e He), forallb_forall. unfold satisfying.
  split.
  - intros ([Hi Hn] & Hv & Hf). repeat (split; [done|]). intros dep cl k Hd Hr Hk. apply Hf. apply clauses_for_in. exists cl. split; [|done].
    apply (parse_requirements_in _ _ Hp). eauto.
  - intros (Hi & Hn & Hv & Hf). repeat (split; [done|]). intros k (cl & Hin & Hk)%clauses_for_in.
    apply (parse_requirements_in _ _ Hp) in Hin as (dep & Hd & Hr). eauto.
Qed.

(** The package locked for a group. *)
Definition locks (index : list IndexedPackage) (deps : list text) (p : LockedPackage) : Prop :=
  exists c v, satisfying index deps (lp_name p) c v /\ lp_version p = ip_version c /\ lp_hash p = ip_hash c /\
    forall c' v', satisfying index deps (lp_name p) c' v' -> preferred v v'.

Lemma lock_group_spec index deps parsed g e p :
  parse_requirements deps = Ok parsed -> Grouped g parsed -> In e g -> lock_group index e = Ok p -> lp_name p = e.1 /\ locks index deps p.
Proof.
  intros Hp Hg He H. unfold lock_group in H. destruct (matching _ _ _) as [l|] eqn:El; [cbn in H|done].
  destruct (best_match l) as [[c v]|] eqn:Eb; [|done]. injection H as <-. split; [done|].
  apply best_match_spec in Eb as [Hin Hbest]. pose proof (satisfying_matching _ _ _ _ _ _ Hp Hg He El) as Hl.
  exists c, v. split; [by apply Hl|]. do 2 (split; [done|]). intros c' v' Hs. by apply (Hbest (c', v')), Hl.
Qed.

Lemma lock_groups_spec index deps parsed g0 g ps :
  parse_requirements deps = Ok parsed -> Grouped g0 parsed -> (forall e, In e g -> In e g0) -> lock_groups index g = Ok ps ->
  map lp_name ps = map fst g /\ forall p, In p ps -> locks index deps p.
Proof.
  intros Hp Hg. revert ps. induction g as [|e g IH]; cbn; intros ps Hsub H; [by injection H as <-|].
  destruct (lock_group index e) as [p|] eqn:E; [cbn in H|done]. destruct (lock_groups index g) as [ps'|]; [cbn in H|done]. injection H as <-.
  destruct (lock_group_spec _ _ _ _ _ _ Hp Hg (Hsub e ltac:(auto)) E) as [Hn Hl]. destruct (IH ps' ltac:(auto) eq_refl) as [Hns Hls].
  cbn. split; [by rewrite Hn, Hns | intros q [<-|Hq]; auto].
Qed.

Lemma validate_packages_hashes names l p : validate_packages names l = Ok () -> In p l -> is_hex_sha256 (lp_hash p) = true.
Proof.
  revert names. induction l as [|q l IH]; cbn; intros names H Hp; [done|]. destruct (_ || _); [done|]. destruct (is_hex_sha256 (lp_hash q)) eqn:E; cbn in H; [|done].
  destruct (existsb _ _); [done|]. destruct Hp as [<-|Hp]; eauto.
Qed.

Lemma Grouped_nil : Grouped [] [].
Proof. split; [constructor | done | done]. Qed.

Lemma StronglySorted_map {A B} (f : A -> B) (R : B -> B -> Prop) l : StronglySorted R (map f l) <-> StronglySorted (fun a b => R (f a) (f b)) l.
Proof.
  induction l as [|a l IH]; cbn; [split; constructor|]. split; intros H; apply StronglySorted_inv in H as [Hs Hf]; constructor; try by apply IH.
  - rewrite List.Forall_forall in *. intros b Hb. by apply Hf, in_map.
  - rewrite List.Forall_forall in *. intros b (c & <- & Hc)%in_map_iff. by apply Hf.
Qed.

(** C36: A lockfile holds one package for each name required, in the order of
    their names, each with a valid digest, and each the most preferred of the
    packages of the index that satisfy every clause of every requirement of the
    name: a stable one if there is one, and of these the greatest. *)
Theorem resolve_exact requires deps index lf :
  resolve requires deps index = Ok lf ->
  requires_python lf = requires /\
  StronglySorted (fun a b => text_compare a b = Lt) (map lp_name (packages lf)) /\
  (forall name, In name (map lp_name (packages lf)) <-> exists dep clauses, In dep deps /\ parse_requirement dep = Ok (name, clauses)) /\
  forall p, In p (packages lf) -> is_hex_sha256 (lp_hash p) = true /\ locks index deps p.
Proof.
  unfold resolve. intros H. destruct (group_requirements [] deps) as [g|] eqn:Eg; [cbn in H|done].
  destruct (lock_groups index g) as [ps|] eqn:El; [cbn in H|done]. destruct (validate _) as [[]|] eqn:Ev; [cbn in H|done]. injection H as <-. cbn.
  destruct (group_requirements_spec _ _ _ _ Grouped_nil Eg) as (parsed & Hp & Hg). cbn in Hg.
  destruct (lock_groups_spec _ _ _ _ g _ Hp Hg ltac:(auto) El) as [Hn Hl].
  split; [done|]. rewrite Hn. split; [apply StronglySorted_map, (grouped_sorted _ _ Hg)|]. split.
  - intros name. rewrite (grouped_names _ _ Hg), in_map_iff. split.
    + intros ([n cl] & <- & Hin). apply (parse_requirements_in _ _ Hp) in Hin as (d & Hd & Hr). eauto.
    + intros (d & cl & Hd & Hr). exists (name, cl). split; [done|]. apply (parse_requirements_in _ _ Hp). eauto.
  - intros p Hin. split; [|auto]. unfold validate in Ev. cbn in Ev. destruct (bool_decide _); [done|]. by eapply validate_packages_hashes.
Qed.

(** * Names are canonical *)

(** One turn of the loop of [normalize_name]. *)
Definition normalize_step (s : text * bool) (byte : Z) : text * bool :=
  if is_separator byte then (s.1, true)
  else ((if s.2 && negb (bool_decide (s.1 = [])) then s.1 ++ [45] else s.1) ++ [ascii_lower byte], false).

Lemma normalize_loop_steps bytes n p : normalize_loop bytes n p = (foldl normalize_step (n, p) bytes).1.
Proof. revert n p. induction bytes as [|b bytes IH]; intros n p; cbn; [done|]. unfold normalize_step at 2. cbn. by destruct (is_separator b). Qed.

Lemma lower_separator b : is_separator (ascii_lower b) = is_separator b.
Proof. unfold is_separator, ascii_lower. destruct (_ && _) eqn:E; [|done]. lia. Qed.

(** What the loop leaves, the loop keeps. *)
Definition normal (n : text) : Prop := foldl normalize_step ([], false) n = (n, false).

Lemma normal_step n p b : normal n -> normal (normalize_step (n, p) b).1.
Proof.
  intros Hn. unfold normal in *. change (normalize_step (n, p) b) with (if is_separator b then (n, true) else ((if p && negb (bool_decide (n = [])) then n ++ [45] else n) ++ [ascii_lower b], false)).
  destruct (is_separator b) eqn:Hb; [done|]. cbn [fst].
  assert (Hstep : forall m q, normalize_step (m, q) (ascii_lower b) = ((if q && negb (bool_decide (m = [])) then m ++ [45] else m) ++ [ascii_lower b], false)).
  { intros m q. unfold normalize_step. by rewrite lower_separator, Hb, ascii_lower_idemp. }
  destruct (p && negb (bool_decide (n = []))) eqn:E.
  - apply andb_true_iff in E as [_ E]. rewrite !foldl_app, Hn. cbn [foldl]. change (normalize_step (n, false) 45) with (n, true). by rewrite Hstep, E.
  - rewrite foldl_app, Hn. cbn [foldl]. by rewrite Hstep.
Qed.

Lemma normal_loop bytes n p : normal n -> normal (normalize_loop bytes n p).
Proof.
  rewrite normalize_loop_steps. revert n p. induction bytes as [|b bytes IH]; intros n p Hn; cbn; [done|].
  destruct (normalize_step (n, p) b) as [m q] eqn:E. apply IH. change m with (m, q).1. rewrite <- E. by apply normal_step.
Qed.

Lemma normalize_loop_ascii bytes n p : is_ascii bytes -> is_ascii n -> is_ascii (normalize_loop bytes n p).
Proof.
  intros Hb. revert n p. induction Hb as [|b bytes Hb _ IH]; intros n p Hn; cbn; [done|]. destruct (is_separator b); [by apply IH|].
  apply IH, Forall_app. split.
  - destruct (_ && _); [|done]. apply Forall_app. split; [done|]. by repeat constructor.
  - constructor; [|constructor]. unfold in_range, ascii_lower in *. destruct (_ && _) eqn:?; lia.
Qed.

(** An ASCII name is as it is after it is normalised. *)
Lemma normalize_name_idem name : is_ascii name -> normalize_name (normalize_name name) = normalize_name name.
Proof.
  intros H. assert (Hs : normal (normalize_name name)) by (by apply normal_loop).
  change (normalize_name (normalize_name name)) with (normalize_loop (utf8 (normalize_name name)) [] false). rewrite utf8_ascii.
  - etransitivity; [apply normalize_loop_steps | exact (f_equal fst Hs)].
  - apply normalize_loop_ascii; [by rewrite utf8_ascii | constructor].
Qed.

(** Beyond ASCII the bytes of a character become characters themselves, again
    at each call. *)
Lemma normalize_name_mangles : normalize_name [233] = [195; 169] /\ normalize_name (normalize_name [233]) <> normalize_name [233].
Proof. split; [reflexivity | by vm_compute]. Qed.

Lemma span_ascii test t : is_ascii t -> is_ascii (span test t).1.
Proof. induction 1 as [|x t Hx _ IH]; cbn; [constructor|]. destruct (test x); [|constructor]. destruct (span test t). by constructor. Qed.

Lemma parse_requirement_name dep name clauses :
  is_ascii dep -> parse_requirement dep = Ok (name, clauses) -> name <> [] /\ normalize_name name = name.
Proof.
  intros Ha. unfold parse_requirement. destruct (span _ _) as [before specifier] eqn:Es. destruct (bool_decide (specifier = [])); [done|].
  destruct (bool_decide (normalize_name (trim before) = [])) eqn:En; [done|]. destruct (parse_clauses _ _) as [l|]; [cbn|done].
  destruct (bool_decide (l = [])); [done|]. intros [= <- _]. apply bool_decide_eq_false in En. split; [done|].
  apply normalize_name_idem, trim_ascii. pose proof (span_ascii (fun c => negb (is_operator_char c)) _ (trim_ascii _ Ha)) as H. by rewrite Es in H.
Qed.

(** * When there is a lockfile *)

Lemma parse_version_nonempty value v : parse_version value = Ok v -> trim value <> [].
Proof. unfold parse_version. destruct (bool_decide (trim value = [])) eqn:E; [done|]. by apply bool_decide_eq_false in E. Qed.

Lemma validate_packages_total l names :
  (forall p, In p l -> lp_name p <> [] /\ normalize_name (lp_name p) = lp_name p /\ trim (lp_version p) <> [] /\ is_hex_sha256 (lp_hash p) = true) ->
  StronglySorted (fun a b => text_compare a b = Lt) (map lp_name l) -> (forall n p, In n names -> In p l -> n <> lp_name p) ->
  validate_packages names l = Ok ().
Proof.
  revert names. induction l as [|p l IH]; cbn; intros names Hl Hs Hnew; [done|]. apply StronglySorted_inv in Hs as [Hs Hlt].
  destruct (Hl p ltac:(auto)) as (Hne & Hn & Hv & Hh). rewrite Hn, Hh, (bool_decide_eq_false_2 (lp_name p = [])), (bool_decide_eq_false_2 (trim (lp_version p) = [])) by done. cbn.
  destruct (existsb (text_eqb (lp_name p)) names) eqn:E.
  { apply existsb_exists in E as (n & Hin & E). apply bool_decide_eq_true in E. by destruct (Hnew n p Hin ltac:(auto)). }
  apply IH; [auto | done|]. intros n q [<-|Hin] Hq; [|by apply Hnew; auto]. intros He. rewrite List.Forall_forall in Hlt.
  specialize (Hlt (lp_name q) (in_map _ _ _ Hq)). by rewrite He, cmp_refl in Hlt.
Qed.

Lemma lock_groups_total index g :
  (forall e, In e g -> exists p, lock_group index e = Ok p) -> exists ps, lock_groups index g = Ok ps.
Proof.
  induction g as [|e g IH]; cbn; intros H; [by eexists|]. destruct (H e ltac:(auto)) as [p ->]. destruct IH as [ps ->]; [auto|]. by eexists.
Qed.

Lemma lock_group_total index deps parsed g e :
  parse_requirements deps = Ok parsed -> Grouped g parsed -> In e g ->
  (forall c, In c index -> exists v, parse_version (ip_version c) = Ok v) -> (exists c v, satisfying index deps e.1 c v) ->
  exists p, lock_group index e = Ok p.
Proof.
  intros Hp Hg He Hi (c & v & Hs). unfold lock_group.
  destruct (matching_succeeds e.1 e.2.1 (versions index e.1)) as [l El]; [intros c' [Hc _]%versions_in; by apply Hi|].
  rewrite El. cbn. destruct (best_match_some l) as [[b w] ->]; [|by eexists]. intros ->.
  by apply (satisfying_matching _ _ _ _ _ _ Hp Hg He El) in Hs.
Qed.

(** C37: Requirements in ASCII that parse, and that an index of valid packages
    can meet, each name on its own, resolve to a lockfile. *)
Theorem resolve_complete requires deps index :
  trim requires <> [] -> Forall is_ascii deps ->
  (forall dep, In dep deps -> exists r, parse_requirement dep = Ok r) ->
  (forall c, In c index -> is_hex_sha256 (ip_hash c) = true /\ exists v, parse_version (ip_version c) = Ok v) ->
  (forall dep name clauses, In dep deps -> parse_requirement dep = Ok (name, clauses) -> exists c v, satisfying index deps name c v) ->
  exists lf, resolve requires deps index = Ok lf.
Proof.
  intros Hr Ha Hp Hi Hs. unfold resolve. destruct (group_requirements_total deps [] Hp) as [g Eg]. rewrite Eg. cbn.
  destruct (group_requirements_spec _ _ _ _ Grouped_nil Eg) as (parsed & Eparsed & Hg). cbn in Hg.
  assert (Hname : forall n, In n (map fst g) -> exists dep clauses, In dep deps /\ parse_requirement dep = Ok (n, clauses)).
  { intros n Hn. rewrite (grouped_names _ _ Hg), in_map_iff in Hn. destruct Hn as ([m cl] & <- & Hin).
    apply (parse_requirements_in _ _ Eparsed) in Hin as (d & Hd & H). eauto. }
  destruct (lock_groups_total index g) as [ps Eps].
  { intros e He. destruct (Hname e.1 (in_map _ _ _ He)) as (d & cl & Hd & H). eapply lock_group_total; eauto. intros c Hc. by apply Hi. }
  rewrite Eps. cbn. destruct (lock_groups_spec _ _ _ _ g _ Eparsed Hg ltac:(auto) Eps) as [Hn Hl].
  unfold validate. cbn. rewrite bool_decide_eq_false_2 by done. rewrite validate_packages_total; [by eexists| | |by intros n p []].
  - intros p Hin. destruct (Hl p Hin) as (c & v & (Hc & Hcn & Hv & _) & -> & -> & _).
    destruct (Hname (lp_name p)) as (d & cl & Hd & H); [rewrite <- Hn; by apply in_map|].
    rewrite List.Forall_forall in Ha. destruct (parse_requirement_name _ _ _ (Ha d Hd) H) as [Hne Hnorm].
    repeat (split; [done|]). split; [by eapply parse_version_nonempty | by apply Hi].
  - rewrite Hn. apply StronglySorted_map, (grouped_sorted _ _ Hg).
Qed.

(** * Release candidates *)

(** Every suffix that begins with [rc] is taken for the prefix [r] of a
    post-release, and what follows is no number. *)
Lemma release_candidates_refused rest arbitrary :
  parse_suffix (ascii "rc" ++ rest) arbitrary = Err (ascii "suffix number is not a valid integer").
Proof. reflexivity. Qed.

Example release_candidate : parse_version (ascii "1.0rc1") = Err (ascii "suffix number is not a valid integer").
Proof. vm_compute. reflexivity. Qed.

(** A suffix declares at most one of the three components. *)
Lemma suffix_declares_one suffix arbitrary p q d :
  parse_suffix suffix arbitrary = Ok (p, q, d) -> (q = None /\ d = None) \/ (p = None /\ d = None) \/ (p = None /\ q = None).
Proof.
  unfold parse_suffix. destruct (bool_decide (suffix = [])); [intros [= <- <- <-]; auto|].
  assert (Hone : forall prefixes t r, find_suffix prefixes t = Some r -> r = Ok (p, q, d) -> (p = None /\ d = None) \/ (p = None /\ q = None)).
  { induction prefixes as [|[prefix is_post] prefixes IH]; intros t r; cbn [find_suffix]; [done|].
    destruct (strip_text_prefix prefix t) as [number|]; [|apply IH]. intros [= <-]. destruct (if bool_decide (number = []) then Some 0 else parse_u64 number) as [n|]; [|done].
    destruct is_post; intros [= <- <- <-]; auto. }
  destruct (find_suffix suffix_prefixes (map ascii_lower suffix)) as [r|] eqn:E; [intros H; right; by eapply Hone|].
  destruct (_ && _); [done|]. destruct (parse_pre_segments _) as [parts|]; cbn; [|done]. intros [= <- <- <-]. auto.
Qed.

Example combined_suffix_refused : parse_version (ascii "1.0a1.dev2") = Err (ascii "unknown pre-release suffix").
Proof. vm_compute. reflexivity. Qed.

(** * Directories and digests *)

Lemma split_dir_loop_name before name version :
  Forall (fun c => c <> 45) name -> before ++ name <> [] -> version <> [] -> looks_like_version version = true ->
  split_dir_loop before (name ++ 45 :: version) = Some (before ++ name, version).
Proof.
  intros Hn. revert before. induction Hn as [|c name Hc _ IH]; intros before Hb Hv Hl.
  - rewrite app_nil_r in Hb |- *. cbn. by rewrite !bool_decide_eq_false_2, Hl by done.
  - cbn. rewrite (proj2 (Z.eqb_neq c 45) Hc). cbn. rewrite IH; [by rewrite <- app_assoc | by rewrite <- app_assoc | done..].
Qed.

(** A package directory is split where it was put together. *)
Lemma split_index_dir_name_join name version :
  Forall (fun c => c <> 45) name -> name <> [] -> looks_like_version version = true ->
  split_index_dir_name (name ++ 45 :: version) = Some (name, version).
Proof. intros Hn Hne Hl. apply split_dir_loop_name; [done..| |done]. by intros ->. Qed.

Lemma difference_zero left right :
  length left = length right -> forall d, foldl (fun d p => Z.lor d (Z.lxor (ascii_lower p.1) (ascii_lower p.2))) d (combine left right) = 0 <->
  d = 0 /\ map ascii_lower left = map ascii_lower right.
Proof.
  revert right. induction left as [|a left IH]; intros [|b right]; try done; [intros _ d; cbn; naive_solver|].
  intros [= Hlen] d. cbn [combine foldl fst snd map]. rewrite IH by done. rewrite Z.lor_eq_0_iff, Z.lxor_eq_0_iff. naive_solver congruence.
Qed.

(** The comparison that looks at every byte is the one that ignores case. *)
Lemma constant_time_hex_eq_exact left right :
  constant_time_hex_eq left right = eq_ignore_ascii_case (utf8 left) (utf8 right).
Proof.
  unfold constant_time_hex_eq, eq_ignore_ascii_case. destruct (Z.eqb_spec (len (utf8 left)) (len (utf8 right))) as [E|E]; cbn.
  - apply eq_iff_eq_true. rewrite Z.eqb_eq, bool_decide_eq_true. unfold difference. rewrite difference_zero by (unfold len in E; lia). naive_solver.
  - symmetry. apply bool_decide_eq_false. intros H. apply E. unfold len. f_equal. by rewrite <- (length_map ascii_lower), H, length_map.
Qed.

(** * Examples *)

Definition demo_hash (c : Z) : text := repeat c 64.

Definition demo_index : list IndexedPackage := [
  mkIndexed (ascii "acme") (ascii "1.9") (demo_hash 97); mkIndexed (ascii "acme") (ascii "1.10.0") (demo_hash 98);
  mkIndexed (ascii "acme") (ascii "2.0-alpha.1") (demo_hash 99); mkIndexed (ascii "acme") (ascii "1.10.0.dev3") (demo_hash 100);
  mkIndexed (ascii "my-pkg") (ascii "0.1b2") (demo_hash 101); mkIndexed (ascii "my-pkg") (ascii "0.1a7") (demo_hash 102) ].

Definition demo_dependencies : list text := [ascii "My_Pkg < 1"; ascii "acme>=1.0, <3"; ascii "my.pkg>=0"].

Definition demo_lock : Lockfile := mkLockfile (ascii ">=3.11") [
  mkLocked (ascii "acme") (ascii "1.10.0") (demo_hash 98); mkLocked (ascii "my-pkg") (ascii "0.1b2") (demo_hash 101) ].

Lemma resolve_exact_witness :
  StronglySorted (fun a b => text_compare a b = Lt) (map lp_name (packages demo_lock)) /\
  locks demo_index demo_dependencies (mkLocked (ascii "acme") (ascii "1.10.0") (demo_hash 98)).
Proof.
  assert (H : resolve (ascii ">=3.11") demo_dependencies demo_index = Ok demo_lock) by (vm_compute; reflexivity).
  destruct (resolve_exact _ _ _ _ H) as (_ & Hs & _ & Hl). split; [exact Hs|]. apply Hl. left. reflexivity.
Defined.

Lemma resolve_complete_witness : exists lf, resolve (ascii ">=3.11") [ascii "acme>=1.0"] [mkIndexed (ascii "acme") (ascii "1.9") (demo_hash 97)] = Ok lf.
Proof.
  apply (resolve_complete (ascii ">=3.11") [ascii "acme>=1.0"] [mkIndexed (ascii "acme") (ascii "1.9") (demo_hash 97)]).
  - vm_compute. discriminate.
  - vm_compute. repeat first [split | constructor | discriminate].
  - intros dep [<-|[]]. eexists. vm_compute. reflexivity.
  - intros c [<-|[]]. split; [reflexivity|]. eexists. vm_compute. reflexivity.
  - intros dep name clauses [<-|[]] H. vm_compute in H. injection H as <- <-.
    exists (mkIndexed (ascii "acme") (ascii "1.9") (demo_hash 97)), (mkVersion 0 [1; 9] None None None).
    split; [left; reflexivity|]. split; [reflexivity|]. split; [vm_compute; reflexivity|].
    intros dep clauses clause [<-|[]] H Hc. vm_compute in H. injection H as <-. destruct Hc as [<-|[]]. vm_compute. reflexivity.
Defined.

(** One release candidate in the index, and nothing of its name resolves. *)
Example release_candidate_blocks :
  resolve (ascii ">=3.11") [ascii "acme==1.0"] [mkIndexed (ascii "acme") (ascii "1.0") (demo_hash 97); mkIndexed (ascii "acme") (ascii "1.1rc1") (demo_hash 98)] =
  Err (Resolution (ascii "indexed package `acme==1.1rc1` has an invalid version: suffix number is not a valid integer")).
Proof. vm_compute. reflexivity. Qed.
