(* ===== verification/Supervisor.v ===== *)
(** Plugin supervision: [crikey-plugin-supervisor/src/lib.rs].

    The in-memory lifecycle registry with its circuit breaker and its health
    diagnostics.  A [Duration] is a number of nanoseconds.  Every operation
    returns the new registry and its [Result]; the bodies work on one record in
    the order of the code, so that what an error path has already changed would
    show.  [None] (of [record_latency] only) is an arithmetic overflow. *)

From S2P Require Import Prelude Items Concurrency.

(** * Data *)

Abbreviation Duration := Z (only parsing).
Definition duration_max : Z := u64_max * 1000000000 + 999999999.

Inductive WorkerState : Type := NotStarted | Starting | Ready | Busy | Restarting | Suspended | Failed.
#[export] Instance WorkerState_eq_dec : EqDecision WorkerState.
Proof. solve_decision. Defined.

Record PluginHealth := mkHealth {
  startup_failures : Z;
  crashes : Z;
  timeouts : Z;
  soft_timeouts : Z;
  protocol_violations : Z;
  resource_limit_failures : Z;
  cancellations_honoured : Z;
  cancellations_ignored : Z;
  stale_results_rejected : Z;
  obsolete_requests_dropped : Z;
  concurrency_refusals : ConcurrencyRefusals;
  queue_depth : Z;
  average_latency_ms : Z;
  peak_latency_ms : Z;
  latency_samples : Z;
}.
#[export] Instance eta_PluginHealth : Eta PluginHealth := fun h =>
  mkHealth (startup_failures h) (crashes h) (timeouts h) (soft_timeouts h) (protocol_violations h)
    (resource_limit_failures h) (cancellations_honoured h) (cancellations_ignored h)
    (stale_results_rejected h) (obsolete_requests_dropped h) (concurrency_refusals h)
    (queue_depth h) (average_latency_ms h) (peak_latency_ms h) (latency_samples h).

Definition default_health : PluginHealth :=
  mkHealth 0 0 0 0 0 0 0 0 0 0 no_refusals 0 0 0 0.

Inductive FailureKind : Type := Startup | Crash | Timeout | ProtocolViolation | ResourceLimit.
#[export] Instance FailureKind_eq_dec : EqDecision FailureKind.
Proof. solve_decision. Defined.

Record CircuitBreakerConfig := mkBreaker { failure_threshold : Z; cooldown : Duration }.

Inductive SupervisorError : Type :=
| UnknownPlugin (plugin : PluginId)
| AlreadyRegistered (plugin : PluginId)
| IllegalTransition (plugin : PluginId) (operation : string) (state : WorkerState)
| InvalidConfig (reason : string)
| RegressiveTimestamp (plugin : PluginId) (previous received : Duration).

Record CircuitDiagnostics := mkCircuit {
  failure_streak : Z;
  last_failure : option FailureKind;
  last_failure_at : option Duration;
  retry_at : option Duration;
}.
#[export] Instance eta_CircuitDiagnostics : Eta CircuitDiagnostics := fun c =>
  mkCircuit (failure_streak c) (last_failure c) (last_failure_at c) (retry_at c).

Definition default_circuit : CircuitDiagnostics := mkCircuit 0 None None None.

Record PluginSnapshot := mkSnapshot {
  snapshot_state : WorkerState;
  snapshot_health : PluginHealth;
  snapshot_circuit : CircuitDiagnostics;
}.

Record PluginRecord := mkRecord {
  state : WorkerState;
  health : PluginHealth;
  circuit : CircuitDiagnostics;
  last_event_at : option Duration;
  latency_mean_ns : Z;
  latency_remainder : Z;
}.
#[export] Instance eta_PluginRecord : Eta PluginRecord := fun r =>
  mkRecord (state r) (health r) (circuit r) (last_event_at r) (latency_mean_ns r) (latency_remainder r).

Definition default_record : PluginRecord :=
  mkRecord NotStarted default_health default_circuit None 0 0.

(** * The registry *)

Module MemorySupervisor.

Record MemorySupervisor := mk {
  circuit_breaker : CircuitBreakerConfig;
  plugins : gmap PluginId PluginRecord;
}.
#[export] Instance eta_MemorySupervisor : Eta MemorySupervisor := fun s =>
  mk (circuit_breaker s) (plugins s).

Abbreviation outcome := (result unit SupervisorError).

Definition new (config : CircuitBreakerConfig) : MemorySupervisor := mk config ∅.

Definition register (s : MemorySupervisor) (p : PluginId) : MemorySupervisor * outcome :=
  match plugins s !! p with
  | Some _ => (s, Err (AlreadyRegistered p))
  | None => (s <| plugins ::= <[p := default_record]> |>, Ok ())
  end.

Definition unregister (s : MemorySupervisor) (p : PluginId) : MemorySupervisor * bool :=
  (s <| plugins ::= delete p |>, is_some (plugins s !! p)).

(** [record_mut] and the body that uses the record. *)
Definition with_record (s : MemorySupervisor) (p : PluginId) (body : PluginRecord -> PluginRecord * outcome)
    : MemorySupervisor * outcome :=
  match plugins s !! p with
  | None => (s, Err (UnknownPlugin p))
  | Some r => let (r', res) := body r in (s <| plugins ::= <[p := r']> |>, res)
  end.

Definition state_in (st : WorkerState) (l : list WorkerState) : bool :=
  existsb (fun st' => bool_decide (st = st')) l.

Definition mark_ready (s : MemorySupervisor) (p : PluginId) : MemorySupervisor * outcome :=
  with_record s p (fun r =>
    if negb (state_in (state r) [Starting; Busy; Restarting]) then
      (r, Err (IllegalTransition p "mark ready" (state r)))
    else (r <| state := Ready |>, Ok ())).

Definition mark_busy (s : MemorySupervisor) (p : PluginId) : MemorySupervisor * outcome :=
  with_record s p (fun r =>
    if negb (bool_decide (state r = Ready)) then (r, Err (IllegalTransition p "mark busy" (state r)))
    else (r <| state := Busy |>, Ok ())).

Definition failure_allowed (st : WorkerState) (failure : FailureKind) : bool :=
  match failure with
  | Startup => state_in st [Starting; Restarting]
  | Timeout => bool_decide (st = Busy)
  | Crash | ProtocolViolation | ResourceLimit => state_in st [Starting; Ready; Busy; Restarting]
  end.

Definition failure_operation (failure : FailureKind) : string :=
  match failure with
  | Startup => "record startup failure"
  | Crash => "record crash"
  | Timeout => "record hard timeout"
  | ProtocolViolation => "record protocol violation"
  | ResourceLimit => "record resource-limit failure"
  end.

Definition validate_event_timestamp (p : PluginId) (r : PluginRecord) (received : Duration) : outcome :=
  match last_event_at r with
  | Some previous =>
      if received <? previous then Err (RegressiveTimestamp p previous received) else Ok ()
  | None => Ok ()
  end.

Definition bump_u32 (n : Z) : Z := saturating_add u32_max n 1.

Definition count_failure (h : PluginHealth) (failure : FailureKind) : PluginHealth :=
  match failure with
  | Startup => h <| startup_failures ::= bump_u32 |>
  | Crash => h <| crashes ::= bump_u32 |>
  | Timeout => h <| timeouts ::= bump_u32 |>
  | ProtocolViolation => h <| protocol_violations ::= bump_u32 |>
  | ResourceLimit => h <| resource_limit_failures ::= bump_u32 |>
  end.

Definition record_failure (s : MemorySupervisor) (p : PluginId) (failure : FailureKind) (at_ns : Duration)
    : MemorySupervisor * outcome :=
  let config := circuit_breaker s in
  with_record s p (fun r =>
    if negb (failure_allowed (state r) failure) then
      (r, Err (IllegalTransition p (failure_operation failure) (state r)))
    else
      match validate_event_timestamp p r at_ns with
      | Err e => (r, Err e)
      | Ok _ =>
          let next_streak := saturating_add u32_max (failure_streak (circuit r)) 1 in
          let opens_circuit := negb (failure_threshold config =? 0) && (failure_threshold config <=? next_streak) in
          let deadline :=
            if opens_circuit then
              match checked_add duration_max at_ns (cooldown config) with
              | Some t => Ok (Some t)
              | None => Err (InvalidConfig "circuit-breaker cooldown overflows the event timestamp")
              end
            else Ok None in
          match deadline with
          | Err e => (r, Err e)
          | Ok retry =>
              (r <| health ::= fun h => count_failure h failure |>
                 <| circuit := mkCircuit next_streak (Some failure) (Some at_ns) retry |>
                 <| last_event_at := Some at_ns |>
                 <| state := if opens_circuit then Suspended else Failed |>, Ok ())
          end
      end).

Definition record_soft_timeout (s : MemorySupervisor) (p : PluginId) : MemorySupervisor * outcome :=
  with_record s p (fun r =>
    if negb (bool_decide (state r = Busy)) then (r, Err (IllegalTransition p "record soft timeout" (state r)))
    else (r <| health ::= fun h => h <| soft_timeouts ::= bump_u32 |> |>, Ok ())).

Definition record_success (s : MemorySupervisor) (p : PluginId) : MemorySupervisor * outcome :=
  with_record s p (fun r =>
    if negb (state_in (state r) [Ready; Busy]) then (r, Err (IllegalTransition p "record success" (state r)))
    else (r <| circuit ::= fun c => c <| failure_streak := 0 |> <| retry_at := None |> |>, Ok ())).

Definition resume_if_ready (s : MemorySupervisor) (p : PluginId) (now : Duration) : MemorySupervisor * outcome :=
  with_record s p (fun r =>
    if negb (bool_decide (state r = Suspended)) then
      (r, Err (IllegalTransition p "resume suspended plugin" (state r)))
    else
      match retry_at (circuit r) with
      | None => (r, Err (InvalidConfig "suspended plugin has no retry timestamp"))
      | Some retry =>
          match validate_event_timestamp p r now with
          | Err e => (r, Err e)
          | Ok _ =>
              let r := r <| last_event_at := Some now |> in
              if retry <=? now then
                (r <| state := Restarting |> <| circuit ::= fun c => c <| retry_at := None |> |>, Ok ())
              else (r, Ok ())
          end
      end).

(** The running mean over one more sample: the mean and the remainder of the
    sum of all samples divided by their number. *)
Definition update_mean (mean remainder old_count sample : Z) : option (Z * Z) :=
  let denominator := old_count + 1 in
  adjusted ← checked_add u128_max remainder sample;
  if mean <=? adjusted then
    let excess := adjusted - mean in
    mean' ← checked_add u128_max mean (excess / denominator);
    Some (mean', excess mod denominator)
  else
    let deficit := mean - adjusted in
    let decrement := (deficit - 1) / denominator + 1 in
    mean' ← checked_sub mean decrement;
    product ← checked_mul u128_max decrement denominator;
    remainder' ← checked_sub product deficit;
    Some (mean', remainder').

(** [u64::try_from(..).unwrap_or(u64::MAX)] on nanoseconds. *)
Definition millis_u64 (ns : Z) : Z := if ns / 1000000 <=? u64_max then ns / 1000000 else u64_max.

(** The latency fields after a sample. *)
Definition add_latency (r : PluginRecord) (sample : Duration) : option PluginRecord :=
  let old_count := latency_samples (health r) in
  r ← (if old_count =? 0 then
         Some (r <| latency_mean_ns := sample |> <| latency_remainder := 0 |>
                 <| health ::= fun h => h <| latency_samples := 1 |> |>)
       else if negb (old_count =? u64_max) then
         '(mean, remainder) ← update_mean (latency_mean_ns r) (latency_remainder r) old_count sample;
         Some (r <| latency_mean_ns := mean |> <| latency_remainder := remainder |>
                 <| health ::= fun h => h <| latency_samples := old_count + 1 |> |>)
       else Some r);
  Some (r <| health ::= fun h => h <| average_latency_ms := millis_u64 (latency_mean_ns r) |>
                                   <| peak_latency_ms ::= fun peak => Z.max peak (millis_u64 sample) |> |>).

Definition record_latency (s : MemorySupervisor) (p : PluginId) (latency : Duration)
    : option (MemorySupervisor * outcome) :=
  match plugins s !! p with
  | None => Some (s, Err (UnknownPlugin p))
  | Some r =>
      if negb (bool_decide (state r = Busy)) then
        Some (s, Err (IllegalTransition p "record suggestion latency" (state r)))
      else
        r ← add_latency r latency;
        Some (s <| plugins ::= <[p := r]> |>, Ok ())
  end.

(** The counters that any state may report. *)
Definition with_health (s : MemorySupervisor) (p : PluginId) (f : PluginHealth -> PluginHealth)
    : MemorySupervisor * outcome :=
  with_record s p (fun r => (r <| health ::= f |>, Ok ())).

Definition bump_u64 (delta n : Z) : Z := saturating_add u64_max n delta.

Definition record_queue_depth (s : MemorySupervisor) (p : PluginId) (depth : Z) :=
  with_health s p (fun h => h <| queue_depth := depth |>).

Definition record_cancellation (s : MemorySupervisor) (p : PluginId) (honoured : bool) (delta : Z) :=
  with_health s p (fun h =>
    if honoured then h <| cancellations_honoured ::= bump_u64 delta |>
    else h <| cancellations_ignored ::= bump_u64 delta |>).

Definition record_stale_result_rejected (s : MemorySupervisor) (p : PluginId) (delta : Z) :=
  with_health s p (fun h => h <| stale_results_rejected ::= bump_u64 delta |>).

Definition record_obsolete_request_dropped (s : MemorySupervisor) (p : PluginId) (delta : Z) :=
  with_health s p (fun h => h <| obsolete_requests_dropped ::= bump_u64 delta |>).

Definition record_concurrency_refusal (s : MemorySupervisor) (p : PluginId) (kind : BudgetKind) (delta : Z) :=
  with_health s p (fun h => h <| concurrency_refusals ::= fun c => Refusals.add c kind delta |>).

Definition start (s : MemorySupervisor) (p : PluginId) : MemorySupervisor * outcome :=
  with_record s p (fun r =>
    if negb (bool_decide (state r = NotStarted)) then (r, Err (IllegalTransition p "start" (state r)))
    else (r <| state := Starting |>, Ok ())).

Definition stop (s : MemorySupervisor) (p : PluginId) : MemorySupervisor * outcome :=
  with_record s p (fun r =>
    if state_in (state r) [NotStarted; Suspended] then (r, Err (IllegalTransition p "stop" (state r)))
    else (r <| state := NotStarted |> <| circuit ::= fun c => c <| retry_at := None |> |>, Ok ())).

Definition restart (s : MemorySupervisor) (p : PluginId) : MemorySupervisor * outcome :=
  with_record s p (fun r =>
    if negb (state_in (state r) [Ready; Busy; Failed]) then (r, Err (IllegalTransition p "restart" (state r)))
    else (r <| state := Restarting |>, Ok ())).

(** The read-only half of the trait. *)
Definition contains (s : MemorySupervisor) (p : PluginId) : bool := is_some (plugins s !! p).

Definition snapshot (s : MemorySupervisor) (p : PluginId) : option PluginSnapshot :=
  (fun r => mkSnapshot (state r) (health r) (circuit r)) <$> plugins s !! p.

Definition state_of (s : MemorySupervisor) (p : PluginId) : WorkerState :=
  map_or (plugins s !! p) NotStarted state.

Definition health_of (s : MemorySupervisor) (p : PluginId) : PluginHealth :=
  map_or (plugins s !! p) default_health health.

Definition circuit_diagnostics (s : MemorySupervisor) (p : PluginId) : CircuitDiagnostics :=
  map_or (plugins s !! p) default_circuit circuit.

End MemorySupervisor.
