(* ===== verification/SupervisorFacts.v ===== *)
(** Properties of the supervisor: every accepted event is recorded in a history
    per plugin, and the lifecycle, the circuit breaker and the diagnostics are
    determined by it. *)

From S2P Require Import Prelude Items Concurrency Supervisor.
Import MemorySupervisor.

(** * Events *)

Inductive plugin_event : Type :=
| EvStart | EvStop | EvRestart | EvReady | EvBusy
| EvFailure (k : FailureKind) (at_ns : Duration)
| EvSoftTimeout
| EvSuccess
| EvResume (now : Duration)
| EvLatency (d : Duration)
| EvQueueDepth (n : Z)
| EvCancellation (honoured : bool) (n : Z)
| EvStale (n : Z)
| EvObsolete (n : Z)
| EvRefusal (k : BudgetKind) (n : Z).

Definition perform (s : MemorySupervisor) (p : PluginId) (e : plugin_event)
    : option (MemorySupervisor * outcome) :=
  match e with
  | EvStart => Some (start s p)
  | EvStop => Some (stop s p)
  | EvRestart => Some (restart s p)
  | EvReady => Some (mark_ready s p)
  | EvBusy => Some (mark_busy s p)
  | EvFailure k at_ns => Some (record_failure s p k at_ns)
  | EvSoftTimeout => Some (record_soft_timeout s p)
  | EvSuccess => Some (record_success s p)
  | EvResume now => Some (resume_if_ready s p now)
  | EvLatency d => record_latency s p d
  | EvQueueDepth n => Some (record_queue_depth s p n)
  | EvCancellation b n => Some (record_cancellation s p b n)
  | EvStale n => Some (record_stale_result_rejected s p n)
  | EvObsolete n => Some (record_obsolete_request_dropped s p n)
  | EvRefusal k n => Some (record_concurrency_refusal s p k n)
  end.

(** The arguments are in the ranges of their types. *)
Definition event_in_range (e : plugin_event) : Prop :=
  match e with
  | EvFailure _ t | EvResume t | EvLatency t => in_range duration_max t
  | EvQueueDepth n => in_range u32_max n
  | EvCancellation _ n | EvStale n | EvObsolete n | EvRefusal _ n => in_range u64_max n
  | _ => True
  end.

(** * The state machine of one plugin *)

(** The events that only move the worker to another state. *)
Definition state_change (e : plugin_event) (st : WorkerState) : option WorkerState :=
  match e, st with
  | EvStart, NotStarted => Some Starting
  | EvReady, (Starting | Busy | Restarting) => Some Ready
  | EvBusy, Ready => Some Busy
  | EvRestart, (Ready | Busy | Failed) => Some Restarting
  | _, _ => None
  end.

(** The events that only move a counter. *)
Definition counter_change (e : plugin_event) : option (PluginHealth -> PluginHealth) :=
  match e with
  | EvQueueDepth n => Some (fun h => h <| queue_depth := n |>)
  | EvCancellation true n => Some (fun h => h <| cancellations_honoured ::= bump_u64 n |>)
  | EvCancellation false n => Some (fun h => h <| cancellations_ignored ::= bump_u64 n |>)
  | EvStale n => Some (fun h => h <| stale_results_rejected ::= bump_u64 n |>)
  | EvObsolete n => Some (fun h => h <| obsolete_requests_dropped ::= bump_u64 n |>)
  | EvRefusal k n => Some (fun h => h <| concurrency_refusals ::= fun c => Refusals.add c k n |>)
  | _ => None
  end.

Definition in_order (r : PluginRecord) (t : Duration) : Prop :=
  forall previous, last_event_at r = Some previous -> previous <= t.

Definition next_streak (r : PluginRecord) : Z := saturating_add u32_max (failure_streak (circuit r)) 1.

Definition opens (cfg : CircuitBreakerConfig) (r : PluginRecord) : Prop :=
  failure_threshold cfg <> 0 /\ failure_threshold cfg <= next_streak r.

(** The record after a failure that leads to [st] with deadline [retry]. *)
Definition after_failure (k : FailureKind) (t : Duration) (st : WorkerState) (retry : option Duration)
    (r : PluginRecord) : PluginRecord :=
  mkRecord st (count_failure (health r) k) (mkCircuit (next_streak r) (Some k) (Some t) retry) (Some t)
    (latency_mean_ns r) (latency_remainder r).

Inductive transition (cfg : CircuitBreakerConfig) : plugin_event -> PluginRecord -> PluginRecord -> Prop :=
| TMove e r st : state_change e (state r) = Some st -> transition cfg e r (r <| state := st |>)
| TStop r :
    state r <> NotStarted -> state r <> Suspended ->
    transition cfg EvStop r (r <| state := NotStarted |> <| circuit ::= fun c => c <| retry_at := None |> |>)
| TFail k t r :
    failure_allowed (state r) k = true -> in_order r t -> ~ opens cfg r ->
    transition cfg (EvFailure k t) r (after_failure k t Failed None r)
| TSuspend k t r :
    failure_allowed (state r) k = true -> in_order r t -> opens cfg r -> t + cooldown cfg <= duration_max ->
    transition cfg (EvFailure k t) r (after_failure k t Suspended (Some (t + cooldown cfg)) r)
| TSoft r :
    state r = Busy ->
    transition cfg EvSoftTimeout r (r <| health ::= fun h => h <| soft_timeouts ::= bump_u32 |> |>)
| TSuccess r :
    state r = Ready \/ state r = Busy ->
    transition cfg EvSuccess r (r <| circuit ::= fun c => c <| failure_streak := 0 |> <| retry_at := None |> |>)
| TWait now retry r :
    state r = Suspended -> retry_at (circuit r) = Some retry -> in_order r now -> now < retry ->
    transition cfg (EvResume now) r (r <| last_event_at := Some now |>)
| TResume now retry r :
    state r = Suspended -> retry_at (circuit r) = Some retry -> in_order r now -> retry <= now ->
    transition cfg (EvResume now) r (r <| last_event_at := Some now |> <| state := Restarting |>
      <| circuit ::= fun c => c <| retry_at := None |> |>)
| TLatency d r r' :
    state r = Busy -> add_latency r d = Some r' -> transition cfg (EvLatency d) r r'
| TCount e f r : counter_change e = Some f -> transition cfg e r (r <| health ::= f |>).

Lemma validate_ok p r t : validate_event_timestamp p r t = Ok () -> in_order r t.
Proof.
  unfold validate_event_timestamp, in_order. destruct (last_event_at r) as [v|]; [|done].
  case_match; [done|]. reflect_bools. intros _ ? [= <-]. lia.
Qed.

Lemma with_record_none s p body : plugins s !! p = None -> with_record s p body = (s, Err (UnknownPlugin p)).
Proof. intros H. unfold with_record. by rewrite H. Qed.

Lemma with_record_some s p r body :
  plugins s !! p = Some r ->
  with_record s p body = (s <| plugins ::= <[p := (body r).1]> |>, (body r).2).
Proof. intros H. unfold with_record. rewrite H. by destruct (body r). Qed.

Lemma put_back s p r : plugins s !! p = Some r -> s <| plugins ::= <[p := r]> |> = s.
Proof. intros H. unfold update. rewrite insert_id by done. by destruct s. Qed.

(** The outcome of an event: accepted, the registry changed at [p] along a
    transition, or refused and the registry untouched. *)
Definition performed (s : MemorySupervisor) (p : PluginId) (e : plugin_event) (o : MemorySupervisor * outcome) : Prop :=
  match o.2 with
  | Ok _ => exists r r', plugins s !! p = Some r /\ transition (circuit_breaker s) e r r' /\
              o.1 = s <| plugins ::= <[p := r']> |>
  | Err _ => o.1 = s
  end.

Lemma with_record_performed s p e body :
  (forall r, plugins s !! p = Some r ->
     match (body r).2 with Ok _ => transition (circuit_breaker s) e r (body r).1 | Err _ => (body r).1 = r end) ->
  performed s p e (with_record s p body).
Proof.
  intros H. destruct (plugins s !! p) as [r|] eqn:Hp; [|by rewrite with_record_none].
  rewrite (with_record_some s p r) by done. specialize (H r eq_refl). unfold performed. cbn [fst snd].
  destruct (body r).2 as [u|x].
  { exists r, (body r).1; by split. } rewrite H. by apply put_back.
Qed.

Lemma record_failure_performed s p k t : performed s p (EvFailure k t) (record_failure s p k t).
Proof.
  unfold record_failure. apply with_record_performed. intros r Hr.
  destruct (failure_allowed (state r) k) eqn:Ha; [|done]. cbn [negb].
  destruct (validate_event_timestamp p r t) as [[]|] eqn:Hv; [|done]. apply validate_ok in Hv.
  destruct (negb (failure_threshold (circuit_breaker s) =? 0) && _) eqn:Eo; reflect_bools.
  - destruct (checked_add duration_max t (cooldown (circuit_breaker s))) as [d|] eqn:Ec; [|done].
    apply checked_add_Some in Ec as [-> ?]. by apply TSuspend.
  - apply TFail; [done..|]. unfold opens, next_streak. destruct Eo as [Eo | Eo]; reflect_bools; [|lia].
    intros [? _]. done.
Qed.

Lemma resume_performed s p now : performed s p (EvResume now) (resume_if_ready s p now).
Proof.
  unfold resume_if_ready. apply with_record_performed. intros r Hr.
  case_bool_decide as Hs; [|done]. cbn [negb].
  destruct (retry_at (circuit r)) as [retry|] eqn:Ht; [|done].
  destruct (validate_event_timestamp p r now) as [[]|] eqn:Hv; [|done]. apply validate_ok in Hv.
  destruct (Z.leb_spec retry now); [by eapply TResume | by eapply TWait].
Qed.

Lemma perform_performed s p e o : perform s p e = Some o -> performed s p e o.
Proof.
  destruct e as [| | | | | | | | |d| |[]| | |]; cbn [perform].
  all: try (intros [= <-]).
  all: try (apply record_failure_performed || apply resume_performed).
  all: try (unfold record_queue_depth, record_cancellation, record_stale_result_rejected,
              record_obsolete_request_dropped, record_concurrency_refusal, with_health;
            apply with_record_performed; intros r Hr; by apply TCount).
  all: try (apply with_record_performed; intros r Hr; unfold state_in; cbn [existsb];
            destruct (state r) eqn:Hs; cbn; try done;
            first [by (eapply TMove; rewrite Hs) | by (apply TStop; rewrite Hs)
                  | by apply TSoft | by (apply TSuccess; auto)]).
  unfold record_latency. destruct (plugins s !! p) as [r|] eqn:Hp; [|by intros [= <-]].
  case_bool_decide as Hs; [|by intros [= <-]]. cbn [negb].
  destruct (add_latency r d) as [r'|] eqn:Ha; [|done]. intros [= <-].
  exists r, r'. split; [done|]. split; [by apply TLatency | done].
Qed.

(** * Histories

    The accepted events of a plugin since its registration, newest first, and
    what the diagnostics should read after them. *)

Definition history : Type := list plugin_event.

(** Failures since the latest success. *)
Fixpoint streak (h : history) : Z :=
  match h with
  | [] => 0
  | EvSuccess :: _ => 0
  | EvFailure _ _ :: h' => streak h' + 1
  | _ :: h' => streak h'
  end.

Definition tally (weight : plugin_event -> Z) (h : history) : Z := foldr (fun e n => n + weight e) 0 h.
Arguments tally : simpl never.

Definition latest {A : Type} (read : plugin_event -> option A) (h : history) : option A := head (omap read h).
Arguments latest : simpl never.

Definition failure_of (e : plugin_event) : option (FailureKind * Duration) :=
  match e with EvFailure k t => Some (k, t) | _ => None end.
Definition time_of (e : plugin_event) : option Duration :=
  match e with EvFailure _ t | EvResume t => Some t | _ => None end.
Definition depth_of (e : plugin_event) : option Z :=
  match e with EvQueueDepth n => Some n | _ => None end.
Definition latency_of (e : plugin_event) : option Duration :=
  match e with EvLatency d => Some d | _ => None end.

Definition is_failure (k : FailureKind) (e : plugin_event) : Z :=
  match e with EvFailure k' _ => if decide (k = k') then 1 else 0 | _ => 0 end.
Definition is_soft (e : plugin_event) : Z := match e with EvSoftTimeout => 1 | _ => 0 end.
Definition cancelled (b : bool) (e : plugin_event) : Z :=
  match e with EvCancellation b' n => if decide (b = b') then n else 0 | _ => 0 end.
Definition stale (e : plugin_event) : Z := match e with EvStale n => n | _ => 0 end.
Definition obsolete (e : plugin_event) : Z := match e with EvObsolete n => n | _ => 0 end.
Definition refusal (k : BudgetKind) (e : plugin_event) : Z :=
  match e with EvRefusal k' n => if decide (k = k') then n else 0 | _ => 0 end.

Definition latencies (h : history) : list Duration := omap latency_of h.

Definition total_latency (l : list Duration) : Z := foldr Z.add 0 l.

(** * The running mean *)

Lemma update_mean_spec mean rem n sample :
  0 <= mean -> 0 <= rem < n -> n < u64_max -> mean * n + rem <= n * duration_max ->
  in_range duration_max sample ->
  exists mean' rem', update_mean mean rem n sample = Some (mean', rem') /\
    mean' * (n + 1) + rem' = mean * n + rem + sample /\ 0 <= rem' < n + 1 /\ 0 <= mean'.
Proof.
  intros Hm Hr Hn Hs [Hd1 Hd2].
  assert (Hmean : mean <= duration_max) by nia.
  assert (Hbig : u64_max + 2 * duration_max < u128_max) by reflexivity.
  unfold update_mean, checked_add, checked_mul, checked_sub.
  destruct (Z.leb_spec (rem + sample) u128_max) as [_|]; [cbn [mbind option_bind]|lia].
  destruct (Z.leb_spec mean (rem + sample)).
  - set (x := rem + sample - mean). pose proof (Z.div_mod x (n + 1) ltac:(lia)) as E.
    pose proof (Z.mod_pos_bound x (n + 1) ltac:(lia)) as Hb. assert (0 <= x / (n + 1) <= x) by nia.
    destruct (Z.leb_spec (mean + x / (n + 1)) u128_max); [cbn [mbind option_bind]|lia].
    do 2 eexists. split; [done|]. split; [|lia]. nia.
  - set (x := mean - (rem + sample)). pose proof (Z.div_mod (x - 1) (n + 1) ltac:(lia)) as E.
    pose proof (Z.mod_pos_bound (x - 1) (n + 1) ltac:(lia)) as Hb. set (d := (x - 1) / (n + 1)) in *.
    assert (0 <= d) by nia. assert (x <= (d + 1) * (n + 1) < x + (n + 1)) as [Hlo Hhi] by nia.
    assert (d + 1 <= mean) by nia.
    destruct (Z.leb_spec (d + 1) mean); [cbn [mbind option_bind]|lia].
    destruct (Z.leb_spec ((d + 1) * (n + 1)) u128_max); [cbn [mbind option_bind]|lia].
    destruct (Z.leb_spec x ((d + 1) * (n + 1))); [cbn [mbind option_bind]|lia].
    do 2 eexists. split; [done|]. nia.
Qed.

(** The latency diagnostics after the samples [l], newest first. *)
Record latency_inv (l : list Duration) (r : PluginRecord) : Prop := {
  li_count : latency_samples (health r) = Z.min (len l) u64_max;
  li_peak : peak_latency_ms (health r) = foldr Z.max 0 (map millis_u64 l);
  li_average : average_latency_ms (health r) = millis_u64 (latency_mean_ns r);
  li_mean : 0 <= latency_mean_ns r;
  li_rem : 0 <= latency_remainder r < Z.max 1 (latency_samples (health r));
  li_bound : latency_mean_ns r * latency_samples (health r) + latency_remainder r <=
    latency_samples (health r) * duration_max;
  li_sum : len l <= u64_max ->
    latency_mean_ns r * latency_samples (health r) + latency_remainder r = total_latency l;
}.

Lemma add_latency_spec l r d :
  latency_inv l r -> in_range duration_max d ->
  exists r', add_latency r d = Some r' /\ latency_inv (d :: l) r' /\
    state r' = state r /\ circuit r' = circuit r /\ last_event_at r' = last_event_at r /\
    health r' = health r <| average_latency_ms := average_latency_ms (health r') |>
                  <| peak_latency_ms := peak_latency_ms (health r') |>
                  <| latency_samples := latency_samples (health r') |>.
Proof.
  intros [Hc Hp Ha Hm Hr Hb Hs] Hd. pose proof (len_nonneg l) as Hl. pose proof u64_max_pos.
  assert (Hpeak : foldr Z.max 0 (map millis_u64 (d :: l)) = Z.max (peak_latency_ms (health r)) (millis_u64 d))
    by (cbn; rewrite Hp; lia).
  assert (Hlen : len (d :: l) = len l + 1) by apply len_cons.
  unfold add_latency. destruct (Z.eqb_spec (latency_samples (health r)) 0) as [E0|E0].
  { assert (len l = 0) as Hz by lia. apply len_zero in Hz as ->. cbn [mbind option_bind].
    eexists. split; [done|]. split; [|split_and!; try done; by destruct r as [? [] ? ? ? ?]].
    unfold in_range in Hd.
    split; cbn [health latency_mean_ns latency_remainder latency_samples peak_latency_ms average_latency_ms update];
      rewrite ?Hlen, ?Hpeak, ?len_nil; try done; try lia. 
    intros _. cbn. lia. }
  destruct (Z.eqb_spec (latency_samples (health r)) u64_max) as [E1|E1]; cbn [negb].
  { cbn [mbind option_bind]. eexists. split; [done|].
    split; [|split_and!; try done; by destruct r as [? [] ? ? ? ?]].
    split; cbn [health latency_mean_ns latency_remainder latency_samples peak_latency_ms average_latency_ms update];
      rewrite ?Hlen, ?Hpeak; try done; lia. }
  destruct (update_mean_spec (latency_mean_ns r) (latency_remainder r) (latency_samples (health r)) d)
    as (m' & r' & -> & Heq & Hrem & Hmean); [lia | lia | lia | done | done |]. cbn [mbind option_bind].
  eexists. split; [done|]. split; [|split_and!; try done; by destruct r as [? [] ? ? ? ?]].
  unfold in_range in Hd.
  split; cbn [health latency_mean_ns latency_remainder latency_samples peak_latency_ms average_latency_ms update];
    rewrite ?Hlen, ?Hpeak; try done; try lia.
  intros Hle. change (total_latency (d :: l)) with (d + total_latency l). rewrite Heq, Hs; lia.
Qed.

(** * The record of a plugin reflects its history *)

(** The counters other than latency. *)
Record counters_of (h : history) (x : PluginHealth) : Prop := {
  co_startup : startup_failures x = Z.min (tally (is_failure Startup) h) u32_max;
  co_crashes : crashes x = Z.min (tally (is_failure Crash) h) u32_max;
  co_timeouts : timeouts x = Z.min (tally (is_failure Timeout) h) u32_max;
  co_protocol : protocol_violations x = Z.min (tally (is_failure ProtocolViolation) h) u32_max;
  co_resource : resource_limit_failures x = Z.min (tally (is_failure ResourceLimit) h) u32_max;
  co_soft : soft_timeouts x = Z.min (tally is_soft h) u32_max;
  co_honoured : cancellations_honoured x = Z.min (tally (cancelled true) h) u64_max;
  co_ignored : cancellations_ignored x = Z.min (tally (cancelled false) h) u64_max;
  co_stale : stale_results_rejected x = Z.min (tally stale h) u64_max;
  co_obsolete : obsolete_requests_dropped x = Z.min (tally obsolete h) u64_max;
  co_refusals : forall k, Refusals.of_kind (concurrency_refusals x) k = Z.min (tally (refusal k) h) u64_max;
  co_depth : queue_depth x = default 0 (latest depth_of h);
}.

(** The circuit breaker. *)
Record circuit_of (h : history) (r : PluginRecord) : Prop := {
  ci_streak : failure_streak (circuit r) = Z.min (streak h) u32_max;
  ci_nonneg : 0 <= streak h;
  ci_last : last_failure (circuit r) = fst <$> latest failure_of h;
  ci_last_at : last_failure_at (circuit r) = snd <$> latest failure_of h;
  ci_clock : last_event_at r = latest time_of h;
}.

(** Suspension and its deadline go together. *)
Record lifecycle (cfg : CircuitBreakerConfig) (r : PluginRecord) : Prop := {
  lc_suspended : state r = Suspended <-> is_Some (retry_at (circuit r));
  lc_retry : forall t, retry_at (circuit r) = Some t ->
    failure_threshold cfg <> 0 /\ failure_threshold cfg <= failure_streak (circuit r) /\
    exists a, last_failure_at (circuit r) = Some a /\ t = a + cooldown cfg /\ t <= duration_max;
}.

Record accounts (cfg : CircuitBreakerConfig) (h : history) (r : PluginRecord) : Prop := {
  ac_counters : counters_of h (health r);
  ac_circuit : circuit_of h r;
  ac_lifecycle : lifecycle cfg r;
  ac_latency : latency_inv (latencies h) r;
}.

Lemma tally_cons w e h : tally w (e :: h) = tally w h + w e.
Proof. reflexivity. Qed.

Lemma latest_cons {A} (f : plugin_event -> option A) e h :
  latest f (e :: h) = match f e with Some a => Some a | None => latest f h end.
Proof. unfold latest. cbn. by destruct (f e). Qed.

Lemma tally_nonneg w h : (forall e, e ∈ h -> 0 <= w e) -> 0 <= tally w h.
Proof.
  induction h as [|e h IH]; intros H; [done|]. rewrite tally_cons.
  pose proof (H e ltac:(by left)). pose proof (IH ltac:(intros; apply H; by right)). lia.
Qed.

Lemma default_accounts cfg : accounts cfg [] default_record.
Proof.
  split; split; try done.
  - by intros [].
  - split; [done | by intros []].
Qed.

(** The counters after one more event, each by its weight. *)
Ltac solve_counters H :=
  destruct H; split; try (intros kind); rewrite ?tally_cons, ?latest_cons; cbn; repeat case_decide; try done;
  unfold bump_u32, bump_u64, saturating_add; rewrite ?Z.add_0_r; try done; try lia; auto.

Lemma counters_quiet e h x :
  counters_of h x ->
  match e with
  | EvStart | EvStop | EvRestart | EvReady | EvBusy | EvSuccess | EvResume _ | EvLatency _ => True
  | _ => False
  end -> counters_of (e :: h) x.
Proof. intros H He. destruct e; try done; solve_counters H. Qed.

Lemma counters_failure k t h x : counters_of h x -> counters_of (EvFailure k t :: h) (count_failure x k).
Proof. intros H. destruct k; solve_counters H.
Qed.

Lemma counters_soft h x : counters_of h x -> counters_of (EvSoftTimeout :: h) (x <| soft_timeouts ::= bump_u32 |>).
Proof. intros H. solve_counters H. Qed.

Lemma refusals_add c k n k' :
  Refusals.of_kind (Refusals.add c k n) k' =
    if decide (k' = k) then saturating_add u64_max (Refusals.of_kind c k') n else Refusals.of_kind c k'.
Proof. by destruct k, k'. Qed.

Lemma counters_refusal k n h x :
  counters_of h x -> 0 <= n ->
  counters_of (EvRefusal k n :: h) (x <| concurrency_refusals ::= fun c => Refusals.add c k n |>).
Proof.
  intros H Hn. destruct H; split; rewrite ?tally_cons, ?latest_cons; cbn; rewrite ?Z.add_0_r; try done.
  intros kind. rewrite tally_cons, refusals_add, co_refusals0. cbn. unfold saturating_add. case_decide; lia.
Qed.

Lemma counters_change e f h x :
  counters_of h x -> counter_change e = Some f -> event_in_range e -> counters_of (e :: h) (f x).
Proof.
  intros H. destruct e as [| | | | | | | | | | |[] n|n|n|k n]; try done; intros [= <-] [? ?].
  1-5: solve_counters H.
  by apply counters_refusal.
Qed.

(** * Transitions keep the account *)

Lemma transition_counters cfg e h r r' :
  accounts cfg h r -> event_in_range e -> transition cfg e r r' -> counters_of (e :: h) (health r').
Proof.
  intros [Hc _ _ Hl] He T. destruct T as [e r st Hst| | | | | | | |d r r' Hs Ha|]; cbn [health update].
  - apply counters_quiet; [done|]. by destruct e, (state r).
  - by apply counters_quiet.
  - by apply counters_failure.
  - by apply counters_failure.
  - by apply counters_soft.
  - by apply counters_quiet.
  - by apply counters_quiet.
  - by apply counters_quiet.
  - destruct (add_latency_spec _ _ _ Hl He) as (r'' & Ha' & _ & _ & _ & _ & Hh).
    rewrite Ha in Ha'. injection Ha' as <-. rewrite Hh. apply counters_quiet; [|done]. by destruct Hc; split.
  - by apply counters_change.
Qed.

Lemma circuit_quiet e h r r' :
  circuit_of h r -> failure_of e = None -> time_of e = None -> e <> EvSuccess ->
  failure_streak (circuit r') = failure_streak (circuit r) ->
  last_failure (circuit r') = last_failure (circuit r) ->
  last_failure_at (circuit r') = last_failure_at (circuit r) -> last_event_at r' = last_event_at r ->
  circuit_of (e :: h) r'.
Proof.
  intros [] Hf Ht Hs H1 H2 H3 Hl. assert (streak (e :: h) = streak h) as Hst by (by destruct e).
  split; rewrite ?latest_cons, ?Hf, ?Ht, ?Hst, ?H1, ?H2, ?H3, ?Hl; done.
Qed.

Lemma circuit_failed k t st retry h r : circuit_of h r -> circuit_of (EvFailure k t :: h) (after_failure k t st retry r).
Proof.
  intros []. split; rewrite ?latest_cons; cbn; try done; try lia.
  unfold next_streak, saturating_add. pose proof (eq_refl : 0 < u32_max). lia.
Qed.

Lemma transition_circuit cfg e h r r' :
  accounts cfg h r -> event_in_range e -> transition cfg e r r' -> circuit_of (e :: h) r'.
Proof.
  intros [_ Hc _ Hl] He T.
  destruct T as [e r st Hst|r|k t r|k t r|r|r|now retry r|now retry r|d r r' Hs Ha|e f r Hf].
  - apply (circuit_quiet _ _ r); try done; by destruct e, (state r).
  - by apply (circuit_quiet _ _ r).
  - by apply circuit_failed.
  - by apply circuit_failed.
  - by apply (circuit_quiet _ _ r).
  - destruct Hc. split; rewrite ?latest_cons; cbn; try done; lia.
  - destruct Hc. split; rewrite ?latest_cons; cbn; done.
  - destruct Hc. split; rewrite ?latest_cons; cbn; done.
  - destruct (add_latency_spec _ _ _ Hl He) as (r'' & Ha' & _ & _ & Hci & Hle & _).
    rewrite Ha in Ha'. injection Ha' as <-. apply (circuit_quiet _ _ r); try done; by rewrite Hci.
  - apply (circuit_quiet _ _ r); try done; by destruct e as [| | | | | | | | | | |[]| | |].
Qed.

Lemma lifecycle_same cfg r r' :
  lifecycle cfg r -> circuit r' = circuit r -> state r' = state r -> lifecycle cfg r'.
Proof. intros [] Hc Hs. by split; rewrite Hc, ?Hs. Qed.

Lemma lifecycle_open cfg r : retry_at (circuit r) = None -> state r <> Suspended -> lifecycle cfg r.
Proof. intros Hr Hs. split; rewrite Hr; [|done]. split; [done | by intros []]. Qed.

Lemma active_no_retry cfg r : lifecycle cfg r -> state r <> Suspended -> retry_at (circuit r) = None.
Proof. intros [H _] Hs. destruct (retry_at (circuit r)); [|done]. exfalso. apply Hs, H. eauto. Qed.

Lemma transition_lifecycle cfg e h r r' :
  accounts cfg h r -> event_in_range e -> transition cfg e r r' -> lifecycle cfg r'.
Proof.
  intros [_ _ Hc Hl] He T.
  destruct T as [e r st Hst|r|k t r|k t r Ha Ho [Hn Hth] Hm|r|r [Hs | Hs]|now retry r|now retry r|d r r' Hs Ha|e f r Hf].
  - apply lifecycle_open; [|cbn; intros ->; by destruct e, (state r)].
    apply (active_no_retry cfg r Hc). intros Hs. rewrite Hs in Hst. by destruct e.
  - by apply lifecycle_open.
  - by apply lifecycle_open.
  - split; cbn; [by split; [eauto|]|]. intros ? [= <-]. split; [done|]. split; [done|]. eauto.
  - by eapply lifecycle_same.
  - apply lifecycle_open; [done | cbn; congruence].
  - apply lifecycle_open; [done | cbn; congruence].
  - by eapply lifecycle_same.
  - by apply lifecycle_open.
  - destruct (add_latency_spec _ _ _ Hl He) as (r'' & Ha' & _ & Hst & Hci & _).
    rewrite Ha in Ha'. injection Ha' as <-. by eapply lifecycle_same.
  - by eapply lifecycle_same.
Qed.

Lemma latency_same l r r' :
  latency_inv l r -> latency_mean_ns r' = latency_mean_ns r -> latency_remainder r' = latency_remainder r ->
  latency_samples (health r') = latency_samples (health r) ->
  peak_latency_ms (health r') = peak_latency_ms (health r) ->
  average_latency_ms (health r') = average_latency_ms (health r) -> latency_inv l r'.
Proof. intros [] H1 H2 H3 H4 H5. split; rewrite ?H1, ?H2, ?H3, ?H4, ?H5; done. Qed.

Lemma latencies_cons e h : latencies (e :: h) = match latency_of e with Some d => d :: latencies h | None => latencies h end.
Proof. done. Qed.

Lemma transition_latency cfg e h r r' :
  accounts cfg h r -> event_in_range e -> transition cfg e r r' -> latency_inv (latencies (e :: h)) r'.
Proof.
  intros [_ _ _ Hl] He T.
  destruct T as [e r st Hst|r|k t r|k t r|r|r|now retry r|now retry r|d r r' Hs Ha|e f r Hf]; rewrite latencies_cons; cbn [latency_of].
  - assert (latency_of e = None) as -> by (by destruct e). by eapply latency_same.
  - by eapply latency_same.
  - destruct k; by eapply latency_same.
  - destruct k; by eapply latency_same.
  - by eapply latency_same.
  - by eapply latency_same.
  - by eapply latency_same.
  - by eapply latency_same.
  - destruct (add_latency_spec _ _ _ Hl He) as (r'' & Ha' & H & _). rewrite Ha in Ha'. by injection Ha' as <-.
  - assert (latency_of e = None) as -> by (by destruct e).
    destruct e as [| | | | | | | | | | |[]| | |]; try done; injection Hf as <-; by eapply latency_same.
Qed.

Lemma transition_accounts cfg e h r r' :
  accounts cfg h r -> event_in_range e -> transition cfg e r r' -> accounts cfg (e :: h) r'.
Proof.
  intros Ha He T. split; [eapply transition_counters | eapply transition_circuit | eapply transition_lifecycle
    | eapply transition_latency]; done.
Qed.

(** * Executions *)

Inductive sup_op : Type :=
| SupRegister (p : PluginId)
| SupUnregister (p : PluginId)
| SupEvent (p : PluginId) (e : plugin_event).

(** One call, and the history it leaves: registration opens an empty history,
    an accepted event is added to it, a refused one is not. *)
Definition sup_step (st : MemorySupervisor * gmap PluginId history) (o : sup_op)
    : option (MemorySupervisor * gmap PluginId history) :=
  let (s, hs) := st in
  match o with
  | SupRegister p =>
      let (s', res) := register s p in Some (s', if is_ok res then <[p := []]> hs else hs)
  | SupUnregister p => Some ((unregister s p).1, delete p hs)
  | SupEvent p e =>
      '(s', res) ← perform s p e; Some (s', if is_ok res then alter (cons e) p hs else hs)
  end.

Fixpoint sup_run (st : MemorySupervisor * gmap PluginId history) (ops : list sup_op)
    : option (MemorySupervisor * gmap PluginId history) :=
  match ops with
  | [] => Some st
  | o :: ops' => st' ← sup_step st o; sup_run st' ops'
  end.

Definition op_in_range (o : sup_op) : Prop :=
  match o with SupEvent _ e => event_in_range e | _ => True end.

Definition sup_inv (s : MemorySupervisor) (hs : gmap PluginId history) : Prop :=
  forall p, match plugins s !! p, hs !! p with
            | Some r, Some h => accounts (circuit_breaker s) h r
            | None, None => True
            | _, _ => False
            end.

Lemma sup_inv_lookup s hs p r :
  sup_inv s hs -> plugins s !! p = Some r -> exists h, hs !! p = Some h /\ accounts (circuit_breaker s) h r.
Proof. intros H Hp. specialize (H p). rewrite Hp in H. destruct (hs !! p) as [h|]; [eauto | done]. Qed.

Lemma perform_total s hs p e :
  sup_inv s hs -> event_in_range e -> exists o, perform s p e = Some o.
Proof.
  intros Hi He. destruct e; cbn [perform]; eauto. unfold record_latency.
  destruct (plugins s !! p) as [r|] eqn:Hp; [|eauto]. case_match; [eauto|].
  destruct (sup_inv_lookup s hs p r Hi Hp) as (h & _ & Ha).
  destruct (add_latency_spec _ _ _ (ac_latency _ _ _ Ha) He) as (r' & -> & _). cbn. eauto.
Qed.

Lemma sup_step_total s hs o :
  sup_inv s hs -> op_in_range o ->
  exists s' hs', sup_step (s, hs) o = Some (s', hs') /\ sup_inv s' hs' /\ circuit_breaker s' = circuit_breaker s.
Proof.
  intros Hi Ho. destruct o as [p|p|p e]; cbn [sup_step].
  - unfold register. destruct (plugins s !! p) as [r|] eqn:Hp; [by eauto|].
    do 2 eexists. split; [done|]. split; [|done]. intros p'. cbn. rewrite !lookup_insert.
    case_decide; [apply default_accounts | apply Hi].
  - do 2 eexists. split; [done|]. split; [|done]. intros p'. cbn. rewrite !lookup_delete.
    case_decide; [done | apply Hi].
  - destruct (perform_total s hs p e Hi Ho) as ([s' res] & E). pose proof (perform_performed _ _ _ _ E) as H.
    rewrite E. cbn [mbind option_bind]. do 2 eexists. split; [done|]. unfold performed in H. cbn [fst snd] in H.
    destruct res as [[]|err]; [|subst; done]. destruct H as (r & r' & Hp & T & ->). split; [|done].
    destruct (sup_inv_lookup s hs p r Hi Hp) as (h & Hh & Ha). intros p'. cbn.
    destruct (decide (p = p')) as [<-|Hne].
    + rewrite lookup_insert_eq, lookup_alter_eq, Hh. cbn. by eapply transition_accounts.
    + rewrite lookup_insert_ne, lookup_alter_ne by done. apply Hi.
Qed.

Lemma sup_run_total s hs ops :
  sup_inv s hs -> Forall op_in_range ops ->
  exists s' hs', sup_run (s, hs) ops = Some (s', hs') /\ sup_inv s' hs' /\ circuit_breaker s' = circuit_breaker s.
Proof.
  intros Hi Ho. revert s hs Hi. induction Ho as [|o ops Ho _ IH]; intros s hs Hi; [by eauto|]. cbn [sup_run].
  destruct (sup_step_total s hs o Hi Ho) as (s1 & hs1 & -> & Hi1 & Hc1). cbn [mbind option_bind].
  destruct (IH s1 hs1 Hi1) as (s2 & hs2 & -> & Hi2 & Hc2). do 2 eexists. split; [done|]. split; [done | congruence].
Qed.

Lemma sup_run_inv cfg ops s hs :
  Forall op_in_range ops -> sup_run (new cfg, ∅) ops = Some (s, hs) -> sup_inv s hs /\ circuit_breaker s = cfg.
Proof.
  intros Ho Hr. assert (Hi : sup_inv (new cfg) ∅) by (intros p; cbn; by rewrite !lookup_empty).
  destruct (sup_run_total _ _ ops Hi Ho) as (s' & hs' & E & Hi' & Hc). rewrite Hr in E. by simplify_eq.
Qed.

(** * What the supervisor promises *)


(** The plugin waits for [t]: no event before it can wake it. *)
Definition waits (s : MemorySupervisor) (p : PluginId) (t : Duration) : Prop :=
  state_of s p = Suspended /\ retry_at (circuit_diagnostics s p) = Some t.

Definition wakes (p : PluginId) (t : Duration) (o : sup_op) : bool :=
  match o with
  | SupUnregister p' => bool_decide (p = p')
  | SupEvent p' (EvResume now) => bool_decide (p = p') && (t <=? now)
  | _ => false
  end.

Lemma waits_record s p t :
  waits s p t <-> exists r, plugins s !! p = Some r /\ state r = Suspended /\ retry_at (circuit r) = Some t.
Proof.
  unfold waits, state_of, circuit_diagnostics. destruct (plugins s !! p) as [r|]; cbn.
  - split; [eauto|]. by intros (? & [= <-] & ? & ?).
  - split; [by intros [] | by intros (? & ? & _)].
Qed.

Lemma transition_waits cfg e r r' t :
  transition cfg e r r' -> state r = Suspended -> retry_at (circuit r) = Some t ->
  (forall now, e = EvResume now -> now < t) -> state r' = Suspended /\ retry_at (circuit r') = Some t.
Proof.
  intros T Hs Ht He. destruct T as [e r st Hst| |k u r Hf|k u r Hf| |r [Hb | Hb]| |now retry r ? Hre ? Hge| |];
    try congruence; try done.
  - rewrite Hs in Hst. by destruct e.
  - rewrite Hs in Hf. by destruct k.
  - rewrite Hs in Hf. by destruct k.
  - specialize (He now eq_refl). simplify_eq. lia.
Qed.

Lemma sup_step_waits s hs o s' hs' p t :
  waits s p t -> wakes p t o = false -> sup_step (s, hs) o = Some (s', hs') -> waits s' p t.
Proof.
  rewrite !waits_record. intros (r & Hp & Hs & Ht) Ho. destruct o as [p'|p'|p' e]; cbn [sup_step].
  - unfold register. destruct (plugins s !! p') eqn:Hp'; intros [= <- <-]; [by eauto|]. cbn.
    rewrite lookup_insert_ne by congruence. eauto.
  - intros [= <- <-]. cbn in *. reflect_bools. rewrite lookup_delete_ne by done. eauto.
  - destruct (perform s p' e) as [[s1 res]|] eqn:E; [|done]. pose proof (perform_performed _ _ _ _ E) as H.
    intros [= <- <-]. unfold performed in H. cbn [fst snd] in H. destruct res as [[]|err]; [|subst; eauto].
    destruct H as (r0 & r' & Hp0 & T & ->). cbn. destruct (decide (p' = p)) as [->|Hne].
    + rewrite Hp in Hp0. injection Hp0 as <-. exists r'. split; [apply lookup_insert_eq|].
      eapply (transition_waits _ e); [done..|]. intros now ->. cbn in Ho. rewrite bool_decide_true in Ho by done.
      cbn in Ho. reflect_bools. lia.
    + rewrite lookup_insert_ne by done. eauto.
Qed.

(** A suspended plugin stays suspended until its deadline.  Whatever is
    called meanwhile, on this plugin and on others, short of unregistering it
    or resuming it at or after the deadline, it remains suspended with the same
    deadline; a resume at or after the deadline, in time order, restarts it. *)
Theorem suspended_until_retry s hs p t later s' hs' :
  waits s p t ->
  Forall (fun o => wakes p t o = false) later -> sup_run (s, hs) later = Some (s', hs') ->
  waits s' p t /\
  (forall now, t <= now -> (forall r, plugins s' !! p = Some r -> in_order r now) ->
     exists s'', resume_if_ready s' p now = (s'', Ok ()) /\ state_of s'' p = Restarting).
Proof.
  intros Hw Hl. assert (Hrun : sup_run (s, hs) later = Some (s', hs') -> waits s' p t).
  { revert s hs Hw. induction Hl as [|o later Ho _ IH]; intros s hs Hw; cbn [sup_run]; [by intros [= <- <-]|].
    destruct (sup_step (s, hs) o) as [[s1 hs1]|] eqn:E; [|done]. cbn [mbind option_bind]. apply IH. by eapply sup_step_waits. }
  intros Hr. split; [by apply Hrun|]. intros now Ht Hin. apply Hrun, waits_record in Hr as (r & Hp & Hs & Hre).
  unfold resume_if_ready. rewrite (with_record_some _ _ r) by done. rewrite bool_decide_true by done. cbn [negb].
  rewrite Hre. assert (validate_event_timestamp p r now = Ok ()) as ->.
  { unfold validate_event_timestamp. specialize (Hin r Hp). unfold in_order in Hin.
    destruct (last_event_at r) as [v|]; [|done]. specialize (Hin v eq_refl). destruct (Z.ltb_spec now v); [lia | done]. }
  destruct (Z.leb_spec t now); [|lia]. eexists. split; [done|]. unfold state_of. cbn. by rewrite lookup_insert_eq.
Qed.

(** The diagnostics are exactly what happened.  The health counters and
    the circuit diagnostics of a registered plugin are determined by the
    history of its accepted events since it was registered: every failure kind,
    soft timeout, cancellation, stale or obsolete request and refusal is
    counted once, saturating at the width of its counter. *)
Theorem diagnostics_match_history cfg ops s hs p h :
  Forall op_in_range ops -> sup_run (new cfg, ∅) ops = Some (s, hs) -> hs !! p = Some h ->
  counters_of h (health_of s p) /\
  failure_streak (circuit_diagnostics s p) = Z.min (streak h) u32_max /\
  last_failure (circuit_diagnostics s p) = fst <$> latest failure_of h /\
  last_failure_at (circuit_diagnostics s p) = snd <$> latest failure_of h.
Proof.
  intros Ho Hr Hh. destruct (sup_run_inv _ _ _ _ Ho Hr) as [Hi _]. specialize (Hi p). rewrite Hh in Hi.
  unfold health_of, circuit_diagnostics. destruct (plugins s !! p) as [r|]; [|done]. cbn.
  destruct Hi as [Hc [] _ _]. done.
Qed.

(** The latency diagnostics are exact.  After any accepted samples (up to
    [u64::MAX] of them) the average is the integer mean of all of them, with no
    rounding error carried from one sample to the next, and the peak is their
    maximum; both in milliseconds. *)
Theorem latency_mean_exact cfg ops s hs p h :
  Forall op_in_range ops -> sup_run (new cfg, ∅) ops = Some (s, hs) -> hs !! p = Some h ->
  0 < len (latencies h) <= u64_max ->
  let l := latencies h in
  latency_samples (health_of s p) = len l /\
  average_latency_ms (health_of s p) = millis_u64 (total_latency l / len l) /\
  peak_latency_ms (health_of s p) = foldr Z.max 0 (map millis_u64 l).
Proof.
  intros Ho Hr Hh Hlen l. destruct (sup_run_inv _ _ _ _ Ho Hr) as [Hi _]. specialize (Hi p). rewrite Hh in Hi.
  unfold health_of. destruct (plugins s !! p) as [r|]; [|done]. cbn. destruct Hi as [_ _ _ []].
  fold l in Hlen, li_count0, li_sum0, li_peak0.
  assert (latency_samples (health r) = len l) as Hn by lia. split; [done|]. split; [|done].
  rewrite li_average0. f_equal. rewrite Hn in *. rewrite <- li_sum0 by lia.
  apply (Z.div_unique _ _ _ (latency_remainder r)); lia.
Qed.

(** Refused calls have no effect, and no call reaches another plugin.  On
    every reachable registry each event returns (the latency arithmetic never
    overflows); when it is refused the registry is unchanged, when it is
    accepted every other plugin keeps its record and the plugin's event clock
    does not go back; and a suspended plugin is never found without its retry
    deadline. *)
Theorem refused_events_have_no_effect cfg ops s hs p e :
  Forall op_in_range ops -> sup_run (new cfg, ∅) ops = Some (s, hs) -> event_in_range e ->
  exists s' res, perform s p e = Some (s', res) /\
    match res with
    | Err err => s' = s /\ err <> InvalidConfig "suspended plugin has no retry timestamp"
    | Ok _ => (forall p', p' <> p -> plugins s' !! p' = plugins s !! p') /\
              exists r r', plugins s !! p = Some r /\ plugins s' !! p = Some r' /\
                forall t, last_event_at r = Some t -> exists t', last_event_at r' = Some t' /\ t <= t'
    end.
Proof.
  intros Ho Hr He. destruct (sup_run_inv _ _ _ _ Ho Hr) as [Hi _].
  destruct (perform_total s hs p e Hi He) as ([s' res] & E). exists s', res. split; [done|].
  pose proof (perform_performed _ _ _ _ E) as H. unfold performed in H. cbn [fst snd] in H.
  destruct res as [[]|err].
  - destruct H as (r & r' & Hp & T & ->). split; [intros p' Hne; cbn; by rewrite lookup_insert_ne|].
    exists r, r'. split; [done|]. split; [cbn; apply lookup_insert_eq|]. intros t Ht.
    destruct T as [| |k u r Ha Hin| k u r Ha Hin| | |now retry r ? ? Hin|now retry r ? ? Hin|d r r' Hs Ha|]; cbn;
      try (by exists t); try (eexists; split; [done | by apply Hin]).
    destruct (sup_inv_lookup _ _ _ _ Hi Hp) as (h & _ & [_ _ _ Hl]).
    destruct (add_latency_spec _ _ _ Hl He) as (r'' & Ha' & _ & _ & _ & Hle & _).
    rewrite Ha in Ha'. injection Ha' as <-. rewrite Hle. by exists t.
  - split; [done|]. intros ->. destruct e; cbn [perform] in E.
    9: { injection E as E. unfold resume_if_ready, with_record in E. destruct (plugins s !! p) as [r|] eqn:Hp; [|done].
         destruct (sup_inv_lookup _ _ _ _ Hi Hp) as (h & _ & [_ _ [Hs _] _]).
         case_bool_decide as Hst; [|done]. cbn [negb] in E. apply Hs in Hst as [t Ht]. rewrite Ht in E.
         unfold validate_event_timestamp in E. repeat case_match; by simplify_eq. }
    all: unfold start, stop, restart, mark_ready, mark_busy, record_failure, record_soft_timeout, record_success,
      record_latency, record_queue_depth, record_cancellation, record_stale_result_rejected,
      record_obsolete_request_dropped, record_concurrency_refusal, with_health, with_record,
      validate_event_timestamp in E; repeat case_match; try by simplify_eq.
    destruct (add_latency _ _); by simplify_eq/=.
Qed.

(** * Concrete executions *)

Definition sample_breaker : CircuitBreakerConfig := mkBreaker 2 1000.

(** A worker measured twice whose second failure in a row suspends it. *)
Definition sample_sup_ops : list sup_op :=
  [SupRegister "apps"; SupEvent "apps" EvStart; SupEvent "apps" EvReady; SupEvent "apps" EvBusy;
   SupEvent "apps" (EvLatency 5000000); SupEvent "apps" (EvLatency 8000001); SupEvent "apps" EvSuccess;
   SupEvent "apps" (EvFailure Timeout 100); SupEvent "apps" (EvFailure Crash 120); SupEvent "apps" EvRestart;
   SupEvent "apps" (EvFailure Startup 150)].

Definition sample_supervised : MemorySupervisor * gmap PluginId history :=
  default (new sample_breaker, ∅) (sup_run (new sample_breaker, ∅) sample_sup_ops).

Lemma sample_ops_in_range : Forall op_in_range sample_sup_ops.
Proof. repeat constructor; discriminate. Qed.

Lemma sample_sup_runs :
  sup_run (new sample_breaker, ∅) sample_sup_ops = Some (sample_supervised.1, sample_supervised.2).
Proof. vm_compute. reflexivity. Qed.

Definition sample_history : history := default [] (sample_supervised.2 !! "apps").


Definition meanwhile : list sup_op :=
  [SupEvent "apps" EvRestart; SupEvent "apps" (EvResume 1000); SupRegister "files"; SupEvent "apps" EvReady].

Definition sample_later : MemorySupervisor * gmap PluginId history :=
  default sample_supervised (sup_run (sample_supervised.1, sample_supervised.2) meanwhile).

Lemma suspended_until_retry_witness :
  waits sample_later.1 "apps" 1150 /\
  exists s'', resume_if_ready sample_later.1 "apps" 1150 = (s'', Ok ()) /\ state_of s'' "apps" = Restarting.
Proof.
  destruct (suspended_until_retry sample_supervised.1 sample_supervised.2 "apps" 1150 meanwhile
    sample_later.1 sample_later.2) as [H1 H2].
  - split; vm_compute; reflexivity.
  - repeat constructor.
  - vm_compute. reflexivity.
  - split; [exact H1|]. apply H2; [discriminate|]. intros r Hr.
    assert (E : last_event_at <$> plugins sample_later.1 !! "apps" = Some (Some 1000)) by (vm_compute; reflexivity).
    rewrite Hr in E. cbn in E. injection E as E. intros t Ht. rewrite E in Ht. injection Ht as <-. discriminate.
Defined.

Lemma diagnostics_match_history_witness :
  crashes (health_of sample_supervised.1 "apps") = 0 /\
  failure_streak (circuit_diagnostics sample_supervised.1 "apps") = 2.
Proof.
  destruct (diagnostics_match_history sample_breaker sample_sup_ops sample_supervised.1 sample_supervised.2 "apps"
    sample_history sample_ops_in_range sample_sup_runs) as (Hc & Hs & _); [vm_compute; reflexivity|].
  split; [rewrite (co_crashes _ _ Hc) | rewrite Hs]; vm_compute; reflexivity.
Defined.

Lemma latency_mean_exact_witness : average_latency_ms (health_of sample_supervised.1 "apps") = 6.
Proof.
  destruct (latency_mean_exact sample_breaker sample_sup_ops sample_supervised.1 sample_supervised.2 "apps"
    sample_history sample_ops_in_range sample_sup_runs) as (_ & Ha & _);
    [vm_compute; reflexivity | vm_compute; split; [reflexivity | discriminate]|].
  rewrite Ha. vm_compute. reflexivity.
Defined.

Lemma refused_events_have_no_effect_witness :
  exists err, perform sample_supervised.1 "apps" EvReady = Some (sample_supervised.1, Err err).
Proof.
  destruct (refused_events_have_no_effect sample_breaker sample_sup_ops sample_supervised.1 sample_supervised.2
    "apps" EvReady sample_ops_in_range sample_sup_runs I) as (s' & res & E & H).
  assert (Er : (fun o => is_ok o.2) <$> perform sample_supervised.1 "apps" EvReady = Some false)
    by (vm_compute; reflexivity).
  rewrite E in Er. destruct res as [u|err]; [discriminate Er|]. destruct H as [-> _]. exists err. exact E.
Defined.
