(* ===== verification/Wire.v ===== *)
(** The protobuf wire format of the native protocol:
    [crikey-native-protocol/src/wire.rs].

    A byte is a [Z] from 0 to 255 and a byte string a list of them.  The
    decoders advance a cursor that the caller owns, so they return it next to
    their [Result], also on the error paths.  [None] is a panic: a slice out of
    range.  An [f32] is its bit pattern, which is all the codec looks at. *)

From S2P Require Import Prelude Text Utf8 Items.

(** * Errors *)

Inductive ProtocolError : Type :=
| FrameTooLarge (n : Z)
| DecodeBudgetExceeded (requested remaining : Z)
| UnsupportedVersion (version : Z)
| Malformed (what : string)
| Closed
| Io (what : string)
| IoTimeout
| RejectedConnection (what : string).

Definition DECODE_ALLOCATION_BUDGET : Z := 8 * 1024 * 1024.
Definition MAX_FRAME_BYTES : Z := DECODE_ALLOCATION_BUDGET.
Definition MAX_DECODE_DEPTH : Z := 64.

(** * The allocation budget of one message tree *)

Record DecodeBudget := mkDecodeBudget { budget_remaining : Z; budget_depth : Z }.
#[export] Instance eta_DecodeBudget : Eta DecodeBudget := fun b =>
  mkDecodeBudget (budget_remaining b) (budget_depth b).

Definition new_decode_budget : DecodeBudget := mkDecodeBudget DECODE_ALLOCATION_BUDGET 0.

Definition enter_nested (b : DecodeBudget) : DecodeBudget * result unit ProtocolError :=
  if MAX_DECODE_DEPTH <=? budget_depth b then (b, Err (Malformed "message nesting is too deep"))
  else (b <| budget_depth ::= fun d => d + 1 |>, Ok ()).

Definition leave_nested (b : DecodeBudget) : option DecodeBudget :=
  d ← checked_sub (budget_depth b) 1; Some (b <| budget_depth := d |>).

Definition charge (b : DecodeBudget) (amount : Z) : DecodeBudget * result unit ProtocolError :=
  if budget_remaining b <? amount then (b, Err (DecodeBudgetExceeded amount (budget_remaining b)))
  else (b <| budget_remaining ::= fun r => r - amount |>, Ok ()).

(** * Wire types *)

Inductive WireType : Type := WVarint | WFixed64 | WLength | WFixed32.
#[export] Instance WireType_eq_dec : EqDecision WireType.
Proof. solve_decision. Defined.

Definition wire_bits (w : WireType) : Z :=
  match w with WVarint => 0 | WFixed64 => 1 | WLength => 2 | WFixed32 => 5 end.

Definition from_bits (bits : Z) : result WireType ProtocolError :=
  if bits =? 0 then Ok WVarint
  else if bits =? 1 then Ok WFixed64
  else if bits =? 2 then Ok WLength
  else if bits =? 5 then Ok WFixed32
  else Err (Malformed (String.append "unsupported protobuf wire type " (decimal (Z.to_nat bits)))).

(** * Varints *)

Definition u64_modulus : Z := 18446744073709551616.
Definition i64_min : Z := -9223372036854775808.
Definition i64_max : Z := 9223372036854775807.

Definition as_u8 (v : Z) : Z := v mod 256.

(** The [while] loop of [encode_varint]; a [u64] needs at most ten rounds. *)
Fixpoint encode_varint_loop (fuel : nat) (value : Z) : list Z :=
  match fuel with
  | O => []
  | S fuel' =>
      if 128 <=? value then Z.lor (as_u8 value) 128 :: encode_varint_loop fuel' (Z.shiftr value 7)
      else [as_u8 value]
  end.

Definition encode_varint (value : Z) : list Z := encode_varint_loop 10 value.

(** The [for index in 0..10] loop of [decode_varint]. *)
Fixpoint decode_varint_loop (rounds : nat) (index : Z) (input : list Z) (cursor value : Z)
    : Z * result Z ProtocolError :=
  match rounds with
  | O => (cursor, Err (Malformed "unterminated protobuf varint"))
  | S rounds' =>
      match input !! Z.to_nat cursor with
      | None => (cursor, Err (Malformed "truncated protobuf varint"))
      | Some byte =>
          match checked_add usize_max cursor 1 with
          | None => (cursor, Err (Malformed "protobuf cursor overflow"))
          | Some cursor =>
              if (index =? 9) && negb (Z.land byte 254 =? 0) then
                (cursor, Err (Malformed "protobuf varint overflows u64"))
              else
                let value := Z.lor value (Z.shiftl (Z.land byte 127) (index * 7) mod u64_modulus) in
                if Z.land byte 128 =? 0 then (cursor, Ok value)
                else decode_varint_loop rounds' (index + 1) input cursor value
          end
      end
  end.

Definition decode_varint (input : list Z) (cursor : Z) : Z * result Z ProtocolError :=
  decode_varint_loop 10 0 input cursor 0.

Definition encode_key (field : Z) (wire : WireType) : list Z :=
  if field =? 0 then [] else encode_varint (Z.lor (Z.shiftl field 3) (wire_bits wire)).

(** * Zig-zag *)

Definition as_u64 (v : Z) : Z := v mod u64_modulus.
Definition as_i64 (v : Z) : Z := if v <=? i64_max then v else v - u64_modulus.

Definition zigzag_encode (value : Z) : Z :=
  Z.lxor (Z.shiftl (as_u64 value) 1 mod u64_modulus) (as_u64 (Z.shiftr value 63)).

Definition zigzag_decode (value : Z) : Z :=
  Z.lxor (as_i64 (Z.shiftr value 1)) (- as_i64 (Z.land value 1)).

(** * Fields *)

(** [&input[start..end]]. *)
Definition slice (input : list Z) (start finish : Z) : option (list Z) :=
  if (start <=? finish) && (finish <=? len input)
  then Some (take (Z.to_nat (finish - start)) (drop (Z.to_nat start) input)) else None.

Record Field := mkField {
  number : Z;
  wire_type : WireType;
  field_value : list Z;
  raw : list Z;
  field_end : Z;
}.

(** The end of a fixed-width value. *)
Definition fixed_end (input : list Z) (value_start width : Z) (overflow truncated : string)
    : result Z ProtocolError :=
  match checked_add usize_max value_start width with
  | None => Err (Malformed overflow)
  | Some finish => if len input <? finish then Err (Malformed truncated) else Ok finish
  end.

(** The field whose value starts at [value_start] and ends at [finish]. *)
Definition finish_field (input : list Z) (field_start value_start finish number : Z) (wire : WireType)
    : option (Z * result Field ProtocolError) :=
  value ← slice input value_start finish;
  bytes ← slice input field_start finish;
  Some (finish, Ok (mkField number wire value bytes finish)).

(** The value of a field after its key. *)
Definition read_value (input : list Z) (field_start cursor number : Z) (wire : WireType)
    : option (Z * result Field ProtocolError) :=
  match wire with
  | WVarint =>
      match decode_varint input cursor with
      | (c, Err e) => Some (c, Err e)
      | (c, Ok _) => finish_field input field_start cursor c number wire
      end
  | WFixed64 =>
      match fixed_end input cursor 8 "fixed64 length overflow" "truncated fixed64 field" with
      | Err e => Some (cursor, Err e)
      | Ok finish => finish_field input field_start cursor finish number wire
      end
  | WFixed32 =>
      match fixed_end input cursor 4 "fixed32 length overflow" "truncated fixed32 field" with
      | Err e => Some (cursor, Err e)
      | Ok finish => finish_field input field_start cursor finish number wire
      end
  | WLength =>
      match decode_varint input cursor with
      | (c, Err e) => Some (c, Err e)
      | (c, Ok length) =>
          match checked_add usize_max c length with
          | None => Some (c, Err (Malformed "length-delimited field overflows input"))
          | Some finish =>
              if len input <? finish then
                Some (c, Err (Malformed "length-delimited field runs past input"))
              else finish_field input field_start c finish number wire
          end
      end
  end.

Definition read_field (input : list Z) (cursor : Z) : option (Z * result Field ProtocolError) :=
  match decode_varint input cursor with
  | (c, Err e) => Some (c, Err e)
  | (c, Ok key) =>
      let n := Z.shiftr key 3 in
      if (n =? 0) || (536870911 <? n) then Some (c, Err (Malformed "invalid protobuf field number"))
      else
        match from_bits (Z.land key 7) with
        | Err e => Some (c, Err e)
        | Ok wire => read_value input cursor c n wire
        end
  end.

(** * Typed values *)

Definition decode_field_varint (f : Field) : result Z ProtocolError :=
  if negb (bool_decide (wire_type f = WVarint)) then Err (Malformed "unexpected protobuf wire type")
  else
    match decode_varint (field_value f) 0 with
    | (_, Err e) => Err e
    | (c, Ok v) =>
        if negb (c =? len (field_value f)) then Err (Malformed "invalid protobuf varint field") else Ok v
    end.

(** [reserve n] tells whether allocating [n] bytes succeeds. *)
Definition decode_bytes (reserve : Z -> bool) (f : Field) (b : DecodeBudget)
    : DecodeBudget * result (list Z) ProtocolError :=
  if negb (bool_decide (wire_type f = WLength)) then (b, Err (Malformed "expected length-delimited bytes"))
  else
    match charge b (len (field_value f)) with
    | (b, Err e) => (b, Err e)
    | (b, Ok _) =>
        if negb (reserve (len (field_value f))) then (b, Err (Malformed "message decode allocation failed"))
        else (b, Ok (field_value f))
    end.

Fixpoint le_bytes (n : nat) (v : Z) : list Z :=
  match n with
  | O => []
  | S n' => v mod 256 :: le_bytes n' (v / 256)
  end.

Fixpoint from_le_bytes (l : list Z) : Z :=
  match l with
  | [] => 0
  | b :: l' => b + 256 * from_le_bytes l'
  end.

Definition decode_f32 (f : Field) : result Z ProtocolError :=
  if negb (bool_decide (wire_type f = WFixed32)) then Err (Malformed "expected a fixed32 float field")
  else if negb (len (field_value f) =? 4) then Err (Malformed "invalid protobuf float field")
  else Ok (from_le_bytes (field_value f)).

Definition put_varint (field value : Z) : list Z := encode_key field WVarint ++ encode_varint value.

Definition put_f32 (field bits : Z) : list Z := encode_key field WFixed32 ++ le_bytes 4 bits.

Definition put_bytes (field : Z) (value : list Z) : list Z :=
  encode_key field WLength ++ encode_varint (len value) ++ value.

Definition expect_wire (f : Field) (expected : WireType) : result unit ProtocolError :=
  if bool_decide (wire_type f = expected) then Ok ()
  else Err (Malformed (String.append "field " (String.append (decimal (Z.to_nat (number f)))
         " has wrong protobuf wire type"))).

(** The loop every message decoder runs: fields until the input is used up. *)
Fixpoint read_fields (fuel : nat) (input : list Z) (cursor : Z) : option (result (list Field) ProtocolError) :=
  match fuel with
  | O => None
  | S fuel' =>
      if len input <=? cursor then Some (Ok [])
      else
        '(c, r) ← read_field input cursor;
        match r with
        | Err e => Some (Err e)
        | Ok f =>
            rest ← read_fields fuel' input c;
            Some (let? fs := rest in Ok (f :: fs))
        end
  end.

Definition read_message (input : list Z) : option (result (list Field) ProtocolError) :=
  read_fields (S (length input)) input 0.

(** * Decoding against the budget

    A decoder takes the budget and returns it with its result, also on the error
    paths; [None] is a panic. *)

Definition D (A : Type) : Type := DecodeBudget -> option (DecodeBudget * result A ProtocolError).

Definition ret {A} (a : A) : D A := fun b => Some (b, Ok a).
Definition of_result {A} (r : result A ProtocolError) : D A := fun b => Some (b, r).
Definition bind {A B} (d : D A) (k : A -> D B) : D B := fun b =>
  '(b, r) ← d b;
  match r with Ok a => k a b | Err e => Some (b, Err e) end.

Notation "'let!' x ':=' d 'in' k" := (bind d (fun x => k)) (at level 10, x binder, d at level 100, k at level 200) : result_scope.

Definition charge_budget (amount : Z) : D unit := fun b => Some (charge b amount).

(** What the decoder is told of memory: whether reserving a number of bytes or
    elements succeeds, and [std::mem::size_of]. *)
Inductive Layout : Type := LString | LEntry | LItem | LAction | LPageNode | LPageInput.

Class Memory := { reserve : Z -> bool; size_of : Layout -> Z }.

Definition DECODE_REPETITION_OVERHEAD : Z := 64.

(** [grown_capacity]. *)
Definition grown_capacity (current : Z) : option Z :=
  if current =? 0 then Some 4
  else
    doubled ← checked_mul usize_max current 2;
    limited ← checked_add usize_max current 1024;
    Some (Z.min doubled limited).

(** The capacity of a vector that grew only by [push_decoded], which reserves
    exactly what it asks for. *)
Fixpoint vec_capacity (length : nat) : Z :=
  match length with
  | O => 0
  | S n => let capacity := vec_capacity n in if Z.of_nat n =? capacity then default capacity (grown_capacity capacity) else capacity
  end.

Section Memory.
Context {Mem : Memory}.

Definition allocation_failed : ProtocolError := Malformed "message decode allocation failed".
Definition allocation_overflow : ProtocolError := Malformed "message decode allocation overflow".

(** How much [push_decoded] has to grow a vector of this many elements. *)
Definition growth_of (length : nat) : option Z :=
  let capacity := vec_capacity length in
  if Z.of_nat length =? capacity then target ← grown_capacity capacity; checked_sub target capacity else Some 0.

Definition allocation_of (size growth : Z) : option Z :=
  a ← checked_mul usize_max growth size; a ← checked_add usize_max a size; checked_add usize_max a DECODE_REPETITION_OVERHEAD.

Definition push_decoded {T} (layout : Layout) (values : list T) (value : T) : D (list T) :=
  match growth_of (length values) with
  | None => of_result (Err allocation_overflow)
  | Some growth =>
      match allocation_of (size_of layout) growth with
      | None => of_result (Err allocation_overflow)
      | Some allocation =>
          let! _ := charge_budget allocation in
          if negb (growth =? 0) && negb (reserve growth) then of_result (Err allocation_failed) else ret (values ++ [value])
      end
  end.

(** [String]s are kept as their bytes. *)
Definition decode_string (f : Field) : D (list Z) :=
  if negb (bool_decide (wire_type f = WLength)) then of_result (Err (Malformed "expected length-delimited string"))
  else
    let! _ := charge_budget (len (field_value f)) in
    if negb (reserve (len (field_value f))) then of_result (Err allocation_failed)
    else match from_utf8 (field_value f) with
         | Some _ => ret (field_value f)
         | None => of_result (Err (Malformed "protobuf string is not UTF-8"))
         end.

Definition decode_raw_bytes (f : Field) : D (list Z) := fun b => Some (decode_bytes reserve f b).

Definition map_entry_charge : Z := saturating_add usize_max (size_of LEntry) DECODE_REPETITION_OVERHEAD.
Definition charge_map_entry : D unit := charge_budget map_entry_charge.

(** ** What a producer accounts for *)

Record RepeatedFieldCharge := mkRepeated { element : Z; capacity : Z; rf_length : Z; charged : Z }.
#[export] Instance eta_RepeatedFieldCharge : Eta RepeatedFieldCharge := fun r => mkRepeated (element r) (capacity r) (rf_length r) (charged r).

Definition new_repeated (layout : Layout) : RepeatedFieldCharge := mkRepeated (size_of layout) 0 0 0.

(** [RepeatedFieldCharge::push]; the running total is [charged]. *)
Definition push_charge (r : RepeatedFieldCharge) : RepeatedFieldCharge :=
  let r :=
    if rf_length r =? capacity r then
      let next := default usize_max (grown_capacity (capacity r)) in
      r <| charged ::= fun c => saturating_add usize_max c (saturating_mul usize_max (saturating_sub next (capacity r)) (element r)) |>
        <| capacity := next |>
    else r in
  r <| rf_length ::= fun l => saturating_add usize_max l 1 |>
    <| charged ::= fun c => saturating_add usize_max c (saturating_add usize_max (element r) DECODE_REPETITION_OVERHEAD) |>.

(** ** Unknown fields *)

Record UnknownFields := mkUnknown { unknown_bytes : list Z; unknown_capacity : Z }.
#[export] Instance eta_UnknownFields : Eta UnknownFields := fun u => mkUnknown (unknown_bytes u) (unknown_capacity u).

Definition no_unknown : UnknownFields := mkUnknown [] 0.

(** [Vec::reserve_exact], and the amortized growth of [extend_from_slice], on a
    vector of bytes. *)
Definition reserve_exact (length capacity additional : Z) : Z :=
  if capacity - length <? additional then length + additional else capacity.

Definition grow_amortized (capacity required : Z) : Z :=
  if capacity <? required then Z.max (Z.max (2 * capacity) required) 8 else capacity.

Definition push_raw_bounded (u : UnknownFields) (bytes : list Z) : D UnknownFields :=
  let too_large := of_result (Err (Malformed "unknown fields are too large")) in
  let length := len (unknown_bytes u) in
  match checked_add usize_max length (len bytes) with
  | None => too_large
  | Some required =>
      if unknown_capacity u <? required then
        match (doubled ← checked_mul usize_max (unknown_capacity u) 2; checked_sub (Z.max doubled required) (unknown_capacity u)) with
        | None => too_large
        | Some growth =>
            let! _ := charge_budget growth in
            if (unknown_capacity u - length <? growth) && negb (reserve growth) then of_result (Err allocation_failed)
            else ret (mkUnknown (unknown_bytes u ++ bytes) (grow_amortized (reserve_exact length (unknown_capacity u) growth) required))
        end
      else ret (u <| unknown_bytes ::= fun l => l ++ bytes |>)
  end.

End Memory.

Definition put_string (field : Z) (value : list Z) : list Z := put_bytes field value.
