(* ===== verification/WireFacts.v ===== *)
(** Properties of the wire format: what is written is read back, and reading
    loses no byte. *)

From S2P Require Import Prelude Items Wire.

(** * Bits *)

(** A fact about every byte, by evaluation. *)
Lemma all_bytes (P : Z -> bool) :
  forallb P (map Z.of_nat (seq 0 256)) = true -> forall b, 0 <= b < 256 -> P b = true.
Proof.
  intros H b Hb. rewrite forallb_forall in H. apply H. apply in_map_iff. exists (Z.to_nat b).
  split; [lia|]. apply in_seq. lia.
Qed.

Definition byte (b : Z) : Prop := 0 <= b < 256.

(** Continuation bytes carry seven bits and the flag. *)
Lemma continuation_byte b :
  byte b -> Z.land (Z.lor b 128) 127 = b mod 128 /\ (Z.land (Z.lor b 128) 128 =? 0) = false /\ byte (Z.lor b 128).
Proof.
  intros Hb. pose proof (all_bytes (fun b => (Z.land (Z.lor b 128) 127 =? b mod 128) &&
    negb (Z.land (Z.lor b 128) 128 =? 0) && ((0 <=? Z.lor b 128) && (Z.lor b 128 <? 256)))
    ltac:(vm_compute; reflexivity) b Hb) as H.
  cbv beta in H. reflect_bools. split; [done|]. split; [by apply Z.eqb_neq | done].
Qed.

(** Final bytes carry seven bits. *)
Lemma final_byte b : 0 <= b < 128 -> Z.land b 127 = b /\ (Z.land b 128 =? 0) = true.
Proof.
  intros Hb. pose proof (all_bytes (fun b => if b <? 128 then (Z.land b 127 =? b) && (Z.land b 128 =? 0) else true)
    ltac:(vm_compute; reflexivity) b ltac:(lia)) as H. cbv beta in H.
  destruct (Z.ltb_spec b 128); [|lia]. reflect_bools. split; [done|]. by apply Z.eqb_eq.
Qed.

Lemma low_bits b : byte b -> 0 <= Z.land b 127 < 128.
Proof.
  intros Hb. pose proof (all_bytes (fun b => (0 <=? Z.land b 127) && (Z.land b 127 <? 128))
    ltac:(vm_compute; reflexivity) b Hb) as H. cbv beta in H. reflect_bools. lia.
Qed.

(** The low bits of a word and a shifted one do not overlap. *)
Lemma lor_shift acc x k : 0 <= k -> 0 <= acc < 2 ^ k -> 0 <= x -> Z.lor acc (Z.shiftl x k) = acc + x * 2 ^ k.
Proof.
  intros Hk Ha Hx. rewrite <- Z.shiftl_mul_pow2 by done. rewrite Z.add_nocarry_lxor; [symmetry; apply Z.lxor_lor|].
  all: apply Z.bits_inj'; intros n Hn; rewrite Z.land_spec, Z.bits_0.
  all: destruct (Z.lt_ge_cases n k); [rewrite Z.shiftl_spec_low by lia; apply andb_false_r|].
  all: assert (Z.testbit acc n = false) as ->; [|done].
  all: destruct (Z.eq_dec acc 0) as [->|]; [apply Z.testbit_0_l|].
  all: apply Z.bits_above_log2; [lia|]; apply Z.lt_le_trans with k; [|done]; apply Z.log2_lt_pow2; lia.
Qed.

Lemma shiftr_div v k : 0 <= k -> Z.shiftr v k = v / 2 ^ k.
Proof. apply Z.shiftr_div_pow2. Qed.

(** * Varints *)

Lemma lookup_after (pre rest : list Z) b : (pre ++ b :: rest) !! Z.to_nat (len pre) = Some b.
Proof. unfold len. rewrite Nat2Z.id. by apply list_lookup_middle. Qed.

(** Ten rounds are enough for a [u64]: the remaining value shrinks with the
    position. *)
Lemma decode_encode_loop rounds i acc v pre rest :
  0 <= i -> i + Z.of_nat rounds = 10 -> 0 <= acc < 2 ^ (7 * i) -> 0 <= v < 2 ^ (64 - 7 * i) ->
  len (pre ++ encode_varint_loop rounds v ++ rest) <= usize_max ->
  decode_varint_loop rounds i (pre ++ encode_varint_loop rounds v ++ rest) (len pre) acc =
    (len pre + len (encode_varint_loop rounds v), Ok (acc + v * 2 ^ (7 * i))).
Proof.
  revert i acc v pre. induction rounds as [|rounds IH]; intros i acc v pre Hi Hr Ha Hv Hl.
  { assert (i = 10) as -> by lia. change (2 ^ (64 - 7 * 10)) with 0 in Hv. lia. }
  pose proof (len_nonneg pre) as Hp. cbn [encode_varint_loop] in *. destruct (Z.leb_spec 128 v) as [Hbig|Hsmall].
  - assert (Hi9 : i <= 8).
    { destruct (Z.le_gt_cases i 8); [done|]. assert (i = 9) as -> by lia. change (2 ^ (64 - 7 * 9)) with 2 in Hv. lia. }
    set (b := Z.lor (as_u8 v) 128) in *. set (tl := encode_varint_loop rounds (Z.shiftr v 7)) in *.
    assert (Hb : byte (as_u8 v)) by (apply Z.mod_pos_bound; lia).
    destruct (continuation_byte _ Hb) as (E1 & E2 & _). fold b in E1, E2.
    assert (Hmod : as_u8 v mod 128 = v mod 128).
    { unfold as_u8. rewrite (Z.div_mod v 256) at 2 by lia.
      replace (256 * (v / 256) + v mod 256) with (v mod 256 + (2 * (v / 256)) * 128) by lia.
      by rewrite Z.mod_add by lia. }
    cbn [decode_varint_loop app]. rewrite lookup_after. cbn [app] in Hl.
    rewrite len_app, len_cons in Hl. pose proof (len_nonneg (tl ++ rest)).
    unfold checked_add. destruct (Z.leb_spec (len pre + 1) usize_max); [|lia].
    destruct (Z.eqb_spec i 9); [lia|]. cbn [andb]. rewrite E1, E2, Hmod.
    pose proof (Z.mod_pos_bound v 128 ltac:(lia)) as Hm.
    assert (Hsh : Z.shiftl (v mod 128) (i * 7) mod u64_modulus = Z.shiftl (v mod 128) (i * 7)).
    { apply Z.mod_small. rewrite Z.shiftl_mul_pow2 by lia. split; [apply Z.mul_nonneg_nonneg; [lia | apply Z.pow_nonneg; lia]|].
      apply Z.lt_le_trans with (2 ^ 7 * 2 ^ (i * 7)).
      - apply Z.mul_lt_mono_pos_r; [apply Z.pow_pos_nonneg; lia | change (2 ^ 7) with 128; lia].
      - rewrite <- Z.pow_add_r by lia. change u64_modulus with (2 ^ 64). apply Z.pow_le_mono_r; lia. }
    rewrite Hsh, (Z.mul_comm i 7), lor_shift by lia.
    replace (pre ++ b :: tl ++ rest) with ((pre ++ [b]) ++ tl ++ rest) by (by rewrite <- app_assoc).
    replace (len pre + 1) with (len (pre ++ [b])) by (by rewrite len_snoc). subst tl.
    assert (Hpow : 2 ^ (7 * (i + 1)) = 128 * 2 ^ (7 * i)).
    { replace (7 * (i + 1)) with (7 + 7 * i) by lia. rewrite Z.pow_add_r by lia. done. }
    assert (Hpos : 0 < 2 ^ (7 * i)) by (apply Z.pow_pos_nonneg; lia).
    assert (Hhi : 2 ^ (64 - 7 * i) = 128 * 2 ^ (64 - 7 * (i + 1))).
    { replace (64 - 7 * i) with (7 + (64 - 7 * (i + 1))) by lia. rewrite Z.pow_add_r by lia. done. }
    rewrite IH; try lia.
    + rewrite len_snoc, len_cons, Z.shiftr_div_pow2 by lia. f_equal; [lia|]. f_equal. rewrite Hpow.
      change (2 ^ 7) with 128. pose proof (Z.div_mod v 128 ltac:(lia)). nia.
    + rewrite Hpow. nia.
    + rewrite Z.shiftr_div_pow2 by lia. change (2 ^ 7) with 128. rewrite Hhi in Hv.
      split; [apply Z.div_pos; lia | apply Z.div_lt_upper_bound; lia].
    + rewrite !len_app, len_cons, len_nil in *. lia.
  - assert (as_u8 v = v) as Hu by (apply Z.mod_small; lia). rewrite Hu in *.
    destruct (final_byte v ltac:(lia)) as [E1 E2].
    cbn [decode_varint_loop app]. rewrite lookup_after. cbn [app] in Hl. rewrite len_app, len_cons in Hl.
    pose proof (len_nonneg rest). unfold checked_add. destruct (Z.leb_spec (len pre + 1) usize_max); [|lia].
    assert (Hlast : (i =? 9) && negb (Z.land v 254 =? 0) = false).
    { destruct (Z.eqb_spec i 9) as [->|]; [|done]. change (2 ^ (64 - 7 * 9)) with 2 in Hv.
      assert (v = 0 \/ v = 1) as [-> | ->] by lia; done. }
    rewrite Hlast, E1, E2, (Z.mul_comm i 7).
    assert (Hsh : Z.shiftl v (7 * i) mod u64_modulus = Z.shiftl v (7 * i)).
    { apply Z.mod_small. rewrite Z.shiftl_mul_pow2 by lia. split; [apply Z.mul_nonneg_nonneg; [lia | apply Z.pow_nonneg; lia]|].
      apply Z.lt_le_trans with (2 ^ (64 - 7 * i) * 2 ^ (7 * i)).
      - apply Z.mul_lt_mono_pos_r; [apply Z.pow_pos_nonneg; lia | lia].
      - rewrite <- Z.pow_add_r by lia. change u64_modulus with (2 ^ 64). apply Z.pow_le_mono_r; lia. }
    rewrite Hsh, lor_shift by lia. done.
Qed.

Lemma decode_encode pre rest v :
  in_range u64_max v -> len (pre ++ encode_varint v ++ rest) <= usize_max ->
  decode_varint (pre ++ encode_varint v ++ rest) (len pre) = (len pre + len (encode_varint v), Ok v).
Proof.
  intros [H1 H2] Hl. unfold decode_varint, encode_varint in *.
  rewrite decode_encode_loop; [|done..| |done]; [f_equal; f_equal; cbn; lia|].
  change (2 ^ (64 - 7 * 0)) with 18446744073709551616. unfold u64_max in H2. lia.
Qed.

(** Decoding moves forward, within the input, and yields no negative value. *)
Lemma decode_loop_progress rounds i input c acc c' r :
  0 <= c -> 0 <= acc -> decode_varint_loop rounds i input c acc = (c', r) ->
  c <= c' /\ (forall v, r = Ok v -> 0 <= v /\ c < c' <= len input).
Proof.
  revert i c acc. induction rounds as [|n IH]; intros i c acc Hc Ha; cbn [decode_varint_loop].
  { intros [= <- <-]. split; [lia | done]. }
  destruct (input !! Z.to_nat c) as [b|] eqn:Hb; [|intros [= <- <-]; split; [lia | done]].
  apply lookup_lt_Some in Hb. assert (c < len input) by (unfold len; lia).
  unfold checked_add. destruct (Z.leb_spec (c + 1) usize_max); [|intros [= <- <-]; split; [lia | done]].
  destruct (_ && _); [intros [= <- <-]; split; [lia | done]|].
  assert (Hacc : 0 <= Z.lor acc (Z.shiftl (Z.land b 127) (i * 7) mod u64_modulus)).
  { apply Z.lor_nonneg. split; [done | by apply Z.mod_pos_bound]. }
  destruct (Z.land b 128 =? 0).
  - intros [= <- <-]. split; [lia|]. intros v [= <-]. split; [done | lia].
  - intros E. destruct (IH _ (c + 1) _ ltac:(lia) Hacc E) as [H1 H2]. split; [lia|].
    intros v Hv. destruct (H2 v Hv). lia.
Qed.

Lemma decode_progress input c c' r :
  0 <= c -> decode_varint input c = (c', r) ->
  c <= c' /\ (forall v, r = Ok v -> 0 <= v /\ c < c' <= len input).
Proof. intros Hc. by apply decode_loop_progress. Qed.

(** * Reading loses no byte *)

Lemma slice_Some input a b :
  0 <= a <= b -> b <= len input ->
  slice input a b = Some (take (Z.to_nat (b - a)) (drop (Z.to_nat a) input)).
Proof.
  intros Ha Hb. unfold slice. destruct (Z.leb_spec a b); [|lia]. destruct (Z.leb_spec b (len input)); [done | lia].
Qed.

(** A field that was read: the bytes from the old cursor to the new one. *)
Definition read_ok (input : list Z) (c c' : Z) (f : Field) : Prop :=
  c < c' <= len input /\ field_end f = c' /\ 1 <= number f <= 536870911 /\
  raw f = take (Z.to_nat (c' - c)) (drop (Z.to_nat c) input).

Lemma finish_field_spec input c v c' n w :
  0 <= c <= v -> v <= c' <= len input -> c < c' -> 1 <= n <= 536870911 ->
  exists f, finish_field input c v c' n w = Some (c', Ok f) /\ read_ok input c c' f.
Proof.
  intros H1 H2 H3 Hn. unfold finish_field. rewrite !slice_Some by lia. cbn [mbind option_bind].
  eexists. split; [done|]. unfold read_ok. cbn. split; [lia|]. split; [done|]. split; [lia | done].
Qed.

Lemma fixed_end_spec input v width o t e :
  fixed_end input v width o t = Ok e -> e = v + width /\ e <= len input.
Proof.
  unfold fixed_end. destruct (checked_add usize_max v width) as [x|] eqn:E; [|done].
  apply checked_add_Some in E as [-> _]. destruct (Z.ltb_spec (len input) (v + width)); [done|]. intros [= <-]. lia.
Qed.

Lemma read_value_spec input c v n w :
  0 <= c < v -> v <= len input -> 1 <= n <= 536870911 ->
  exists c' r, read_value input c v n w = Some (c', r) /\ (forall f, r = Ok f -> read_ok input c c' f).
Proof.
  intros Hc Hv Hn. unfold read_value. destruct w.
  - destruct (decode_varint input v) as [x [y|e]] eqn:E; [|by eexists _, _].
    apply decode_progress in E as [_ H]; [|lia]. destruct (H y eq_refl).
    destruct (finish_field_spec input c v x n WVarint) as (f & -> & Hf); [lia..|]. eexists _, _. split; [done|]. by intros ? [= <-].
  - destruct (fixed_end input v 8 _ _) as [x|e] eqn:E; [|by eexists _, _]. apply fixed_end_spec in E.
    destruct (finish_field_spec input c v x n WFixed64) as (f & -> & Hf); [lia..|]. eexists _, _. split; [done|]. by intros ? [= <-].
  - destruct (decode_varint input v) as [x [y|e]] eqn:E; [|by eexists _, _].
    apply decode_progress in E as [_ H]; [|lia]. destruct (H y eq_refl).
    destruct (checked_add usize_max x y) as [fin|] eqn:Ea; [|by eexists _, _].
    apply checked_add_Some in Ea as [-> _]. destruct (Z.ltb_spec (len input) (x + y)); [by eexists _, _|].
    destruct (finish_field_spec input c x (x + y) n WLength) as (f & -> & Hf); [lia..|]. eexists _, _. split; [done|]. by intros ? [= <-].
  - destruct (fixed_end input v 4 _ _) as [x|e] eqn:E; [|by eexists _, _]. apply fixed_end_spec in E.
    destruct (finish_field_spec input c v x n WFixed32) as (f & -> & Hf); [lia..|]. eexists _, _. split; [done|]. by intros ? [= <-].
Qed.

Lemma read_field_spec input c :
  0 <= c -> exists c' r, read_field input c = Some (c', r) /\ (forall f, r = Ok f -> read_ok input c c' f).
Proof.
  intros Hc. unfold read_field. destruct (decode_varint input c) as [v [key|e]] eqn:E; [|by eexists _, _].
  apply decode_progress in E as [_ H]; [|done]. destruct (H key eq_refl) as [Hk Hv].
  assert (0 <= Z.shiftr key 3) by (by apply Z.shiftr_nonneg).
  destruct ((Z.shiftr key 3 =? 0) || (536870911 <? Z.shiftr key 3)) eqn:En; [by eexists _, _|]. reflect_bools.
  destruct (from_bits (Z.land key 7)) as [w|e]; [|by eexists _, _]. apply read_value_spec; lia.
Qed.

Lemma read_fields_spec fuel input c :
  0 <= c <= len input -> len input - c < Z.of_nat fuel ->
  exists r, read_fields fuel input c = Some r /\
    (forall fs, r = Ok fs -> concat (map raw fs) = drop (Z.to_nat c) input /\
       Forall (fun f => 1 <= number f <= 536870911) fs).
Proof.
  revert c. induction fuel as [|fuel IH]; intros c Hc Hf; [lia|]. cbn [read_fields].
  destruct (Z.leb_spec (len input) c).
  { eexists. split; [done|]. intros fs [= <-]. split; [|constructor]. symmetry. apply drop_ge. unfold len in *. lia. }
  destruct (read_field_spec input c ltac:(lia)) as (c' & r & -> & Hr). cbn [mbind option_bind].
  destruct r as [f|e]; [|by eexists]. destruct (Hr f eq_refl) as (Hc' & _ & Hn & Hraw).
  destruct (IH c' ltac:(lia) ltac:(lia)) as (rest & -> & Hrest). cbn [mbind option_bind]. eexists. split; [done|].
  destruct rest as [fs|e]; [|done]. intros ? [= <-]. destruct (Hrest fs eq_refl) as [E Hall]. cbn [map concat].
  split; [|by constructor]. rewrite E, Hraw. replace (Z.to_nat c') with (Z.to_nat c + Z.to_nat (c' - c))%nat by lia.
  rewrite <- drop_drop. apply take_drop.
Qed.

(** * What is written is read back *)

Inductive wire_field : Type :=
| FVarint (n v : Z)
| FBytes (n : Z) (bs : list Z)
| FFloat (n bits : Z).

Definition put_field (w : wire_field) : list Z :=
  match w with
  | FVarint n v => put_varint n v
  | FBytes n bs => put_bytes n bs
  | FFloat n bits => put_f32 n bits
  end.

Definition valid_number (n : Z) : Prop := 1 <= n <= 536870911.

Definition valid_field (w : wire_field) : Prop :=
  match w with
  | FVarint n v => valid_number n /\ in_range u64_max v
  | FBytes n _ => valid_number n
  | FFloat n bits => valid_number n /\ in_range u32_max bits
  end.

(** The field [f] carries what [w] was written from, in the bytes of [w]. *)
Definition carries (w : wire_field) (f : Field) : Prop :=
  raw f = put_field w /\
  match w with
  | FVarint n v => number f = n /\ decode_field_varint f = Ok v
  | FBytes n bs => number f = n /\ wire_type f = WLength /\ field_value f = bs /\
      forall reserve b, reserve (len bs) = true -> len bs <= budget_remaining b ->
        (decode_bytes reserve f b).2 = Ok bs
  | FFloat n bits => number f = n /\ decode_f32 f = Ok bits
  end.

Lemma slice_middle (pre mid rest : list Z) :
  slice (pre ++ mid ++ rest) (len pre) (len pre + len mid) = Some mid.
Proof.
  pose proof (len_nonneg pre). pose proof (len_nonneg mid). pose proof (len_nonneg rest).
  rewrite slice_Some by (rewrite ?len_app; lia). f_equal.
  replace (Z.to_nat (len pre + len mid - len pre)) with (length mid) by (unfold len; lia).
  replace (Z.to_nat (len pre)) with (length pre) by (unfold len; lia).
  by rewrite drop_app_length, take_app_length.
Qed.

Lemma key_fits n w : valid_number n -> Z.lor (Z.shiftl n 3) (wire_bits w) = 8 * n + wire_bits w.
Proof.
  intros Hn. unfold valid_number in Hn. rewrite Z.lor_comm, lor_shift; [change (2 ^ 3) with 8; lia | lia | | lia].
  destruct w; cbn; lia.
Qed.

Lemma key_parts n w :
  valid_number n ->
  Z.shiftr (8 * n + wire_bits w) 3 = n /\ from_bits (Z.land (8 * n + wire_bits w) 7) = Ok w /\
  in_range u64_max (8 * n + wire_bits w).
Proof.
  intros Hn. unfold valid_number in Hn. assert (Hb : 0 <= wire_bits w < 8) by (destruct w; cbn; lia).
  split; [|split].
  - rewrite Z.shiftr_div_pow2 by lia. change (2 ^ 3) with 8. symmetry. apply (Z.div_unique _ _ _ (wire_bits w)); lia.
  - change 7 with (Z.ones 3). rewrite Z.land_ones by lia. change (2 ^ 3) with 8.
    rewrite (Z.mul_comm 8 n), Z.add_comm, Z.mod_add, Z.mod_small by lia. by destruct w.
  - unfold in_range, u64_max. lia.
Qed.

(** Reading the key of a written field. *)
Lemma read_field_key pre n w body rest :
  valid_number n -> len (pre ++ (encode_key n w ++ body) ++ rest) <= usize_max ->
  read_field (pre ++ (encode_key n w ++ body) ++ rest) (len pre) =
    read_value (pre ++ (encode_key n w ++ body) ++ rest) (len pre) (len pre + len (encode_key n w)) n w.
Proof.
  intros Hn Hl. destruct (key_parts n w Hn) as (E1 & E2 & E3). unfold valid_number in Hn.
  unfold encode_key in *. destruct (Z.eqb_spec n 0); [lia|]. rewrite key_fits in * by done.
  unfold read_field. rewrite <- app_assoc in *. rewrite decode_encode by done. rewrite E1, E2.
  destruct (Z.eqb_spec n 0); [lia|]. destruct (Z.ltb_spec 536870911 n); [lia|]. done.
Qed.

(** The slices of a field with key [key], length prefix [hdr] and value [value]. *)
Lemma finish_middle pre key hdr value rest n w :
  let body := key ++ hdr ++ value in
  finish_field (pre ++ body ++ rest) (len pre) (len pre + len key + len hdr) (len pre + len body) n w =
    Some (len pre + len body, Ok (mkField n w value body (len pre + len body))).
Proof.
  intros body. unfold finish_field. rewrite slice_middle.
  replace (pre ++ body ++ rest) with ((pre ++ key ++ hdr) ++ value ++ rest)
    by (unfold body; by rewrite <- !app_assoc).
  replace (len pre + len key + len hdr) with (len (pre ++ key ++ hdr)) by (rewrite !len_app; lia).
  replace (len pre + len body) with (len (pre ++ key ++ hdr) + len value) by (unfold body; rewrite !len_app; lia).
  rewrite slice_middle. done.
Qed.

Lemma decode_alone v : in_range u64_max v -> decode_varint (encode_varint v) 0 = (len (encode_varint v), Ok v).
Proof.
  intros Hv. pose proof (decode_encode [] [] v Hv) as H. rewrite app_nil_r in H. cbn [app] in H. apply H.
  unfold encode_varint. assert (Hlen : forall fuel x, len (encode_varint_loop fuel x) <= Z.of_nat fuel).
  { induction fuel as [|fuel IH]; intros x; cbn [encode_varint_loop]; [done|].
    case_match; rewrite len_cons, ?len_nil; [|lia]. specialize (IH (Z.shiftr x 7)). lia. }
  etrans; [apply Hlen|]. done.
Qed.

Lemma le_bytes_len n v : len (le_bytes n v) = Z.of_nat n.
Proof. revert v. induction n as [|n IH]; intros v; cbn [le_bytes]; [done|]. rewrite len_cons, IH. lia. Qed.

Lemma from_le_bytes_le_bytes n v : 0 <= v < 256 ^ Z.of_nat n -> from_le_bytes (le_bytes n v) = v.
Proof.
  revert v. induction n as [|n IH]; intros v Hv; cbn [le_bytes from_le_bytes]; [change (256 ^ Z.of_nat 0) with 1 in Hv; lia|].
  rewrite Nat2Z.inj_succ, Z.pow_succ_r in Hv by lia. rewrite IH.
  - pose proof (Z.div_mod v 256 ltac:(lia)). lia.
  - split; [apply Z.div_pos; lia | apply Z.div_lt_upper_bound; lia].
Qed.

Lemma read_put_varint pre n v rest :
  valid_number n -> in_range u64_max v -> len (pre ++ put_varint n v ++ rest) <= usize_max ->
  exists f, read_field (pre ++ put_varint n v ++ rest) (len pre) = Some (len pre + len (put_varint n v), Ok f) /\
    carries (FVarint n v) f.
Proof.
  intros Hn Hv Hl. pose proof (len_nonneg pre). pose proof (len_nonneg rest). unfold put_varint in *. rewrite read_field_key by done. cbn [read_value].
  set (key := encode_key n WVarint) in *. replace (len pre + len key) with (len (pre ++ key)) by (by rewrite len_app).
  assert (Hin : pre ++ (key ++ encode_varint v) ++ rest = (pre ++ key) ++ encode_varint v ++ rest)
    by (by rewrite <- !app_assoc).
  rewrite Hin in *. rewrite decode_encode by done. rewrite <- Hin.
  replace (len (pre ++ key)) with (len pre + len key + len (@nil Z)) by (rewrite len_app, len_nil; lia).
  replace (len pre + len key + len (@nil Z) + len (encode_varint v)) with (len pre + len (key ++ [] ++ encode_varint v))
    by (rewrite !len_app, len_nil; lia).
  change (key ++ encode_varint v) with (key ++ [] ++ encode_varint v). rewrite finish_middle.
  eexists. split; [done|]. split; [done|]. split; [done|]. unfold decode_field_varint. cbn [wire_type field_value].
  rewrite bool_decide_true by done. cbn [negb]. rewrite decode_alone, Z.eqb_refl by done. done.
Qed.

Lemma read_put_bytes pre n bs rest :
  valid_number n -> len (pre ++ put_bytes n bs ++ rest) <= usize_max ->
  exists f, read_field (pre ++ put_bytes n bs ++ rest) (len pre) = Some (len pre + len (put_bytes n bs), Ok f) /\
    carries (FBytes n bs) f.
Proof.
  intros Hn Hl. pose proof (len_nonneg pre). pose proof (len_nonneg rest). unfold put_bytes in *. rewrite read_field_key by done. cbn [read_value].
  set (key := encode_key n WLength) in *. set (hdr := encode_varint (len bs)) in *.
  replace (len pre + len key) with (len (pre ++ key)) by (by rewrite len_app).
  assert (Hin : pre ++ (key ++ hdr ++ bs) ++ rest = (pre ++ key) ++ hdr ++ (bs ++ rest))
    by (by rewrite <- !app_assoc).
  pose proof (len_nonneg bs). pose proof (len_nonneg key). pose proof (len_nonneg hdr).
  pose proof Hl as Hl'. rewrite !len_app in Hl'.
  rewrite Hin in *. subst hdr. rewrite decode_encode; [|split; [done | unfold usize_max in Hl'; lia] | done]. rewrite <- Hin.
  set (hdr := encode_varint (len bs)) in *. unfold checked_add. rewrite !len_app.
  destruct (Z.leb_spec (len pre + len key + len hdr + len bs) usize_max); [|lia].
  destruct (Z.ltb_spec (len pre + (len key + (len hdr + len bs) + len rest)) (len pre + len key + len hdr + len bs)); [lia|].
  replace (len pre + len key + len hdr + len bs) with (len pre + len (key ++ hdr ++ bs)) by (rewrite !len_app; lia).
  rewrite finish_middle. replace (len pre + (len key + (len hdr + len bs))) with (len pre + len (key ++ hdr ++ bs))
    by (rewrite !len_app; lia).
  eexists. split; [done|]. split; [done|]. split_and!; [done | done | done |]. intros reserve b Hres Hb. unfold decode_bytes, charge. cbn.
  destruct (Z.ltb_spec (budget_remaining b) (len bs)); [lia|]. by rewrite Hres.
Qed.

Lemma read_put_f32 pre n bits rest :
  valid_number n -> in_range u32_max bits -> len (pre ++ put_f32 n bits ++ rest) <= usize_max ->
  exists f, read_field (pre ++ put_f32 n bits ++ rest) (len pre) = Some (len pre + len (put_f32 n bits), Ok f) /\
    carries (FFloat n bits) f.
Proof.
  intros Hn [Hb1 Hb2] Hl. pose proof (len_nonneg pre). pose proof (len_nonneg rest). unfold put_f32 in *. rewrite read_field_key by done. cbn [read_value].
  set (key := encode_key n WFixed32) in *. pose proof (le_bytes_len 4 bits) as H4.
  pose proof Hl as Hl'. rewrite !len_app, H4 in Hl'. pose proof (len_nonneg key).
  unfold fixed_end, checked_add. rewrite !len_app, H4.
  destruct (Z.leb_spec (len pre + len key + 4) usize_max); [|lia].
  destruct (Z.ltb_spec (len pre + (len key + Z.of_nat 4 + len rest)) (len pre + len key + 4)); [lia|].
  replace (len pre + len key) with (len pre + len key + len (@nil Z)) by (rewrite len_nil; lia).
  replace (len pre + len key + len (@nil Z) + 4) with (len pre + len (key ++ [] ++ le_bytes 4 bits))
    by (rewrite !len_app, len_nil, H4; lia).
  change (key ++ le_bytes 4 bits) with (key ++ [] ++ le_bytes 4 bits). rewrite finish_middle.
  replace (len pre + (len key + Z.of_nat 4)) with (len pre + len (key ++ [] ++ le_bytes 4 bits))
    by (rewrite !len_app, len_nil, H4; lia).
  eexists. split; [done|]. split; [done|]. split; [done|]. unfold decode_f32. cbn [wire_type field_value].
  rewrite bool_decide_true by done. cbn [negb]. rewrite H4. cbn [negb Z.eqb Z.of_nat].
  rewrite from_le_bytes_le_bytes; [done|]. unfold u32_max in Hb2. change (256 ^ Z.of_nat 4) with 4294967296. lia.
Qed.

Lemma read_field_put pre w rest :
  valid_field w -> len (pre ++ put_field w ++ rest) <= usize_max ->
  exists f, read_field (pre ++ put_field w ++ rest) (len pre) = Some (len pre + len (put_field w), Ok f) /\
    carries w f.
Proof.
  destruct w; cbn [put_field valid_field].
  - intros [Hn Hv]. by apply read_put_varint.
  - intros Hn. by apply read_put_bytes.
  - intros [Hn Hv]. by apply read_put_f32.
Qed.

Lemma put_field_nonempty w : valid_field w -> 0 < len (put_field w).
Proof.
  assert (Hk : forall n x, valid_number n -> 0 < len (encode_key n x)).
  { intros n x Hn. unfold valid_number in Hn. unfold encode_key, encode_varint. destruct (Z.eqb_spec n 0); [lia|].
    cbn [encode_varint_loop]. case_match; rewrite len_cons; [|done].
    match goal with |- context [len ?l] => pose proof (len_nonneg l) end. lia. }
  destruct w as [n v|n bs|n bits]; cbn [valid_field put_field]; unfold put_varint, put_bytes, put_f32; rewrite !len_app.
  - intros [Hn _]. specialize (Hk n WVarint Hn). pose proof (len_nonneg (encode_varint v)). lia.
  - intros Hn. specialize (Hk n WLength Hn). pose proof (len_nonneg (encode_varint (len bs))). pose proof (len_nonneg bs). lia.
  - intros [Hn _]. specialize (Hk n WFixed32 Hn). pose proof (len_nonneg (le_bytes 4 bits)). lia.
Qed.

Lemma read_fields_put fuel pre ws :
  Forall valid_field ws -> len (pre ++ flat_map put_field ws) <= usize_max -> (length ws < fuel)%nat ->
  exists fs, read_fields fuel (pre ++ flat_map put_field ws) (len pre) = Some (Ok fs) /\ Forall2 carries ws fs.
Proof.
  intros Hw. revert fuel pre. induction Hw as [|w ws Hv _ IH]; intros fuel pre Hl Hf; (destruct fuel as [|fuel]; [lia|]); cbn [read_fields].
  - rewrite app_nil_r. rewrite Z.leb_refl. eexists. split; [done | constructor].
  - cbn [flat_map] in *. destruct (read_field_put pre w (flat_map put_field ws) Hv Hl) as (f & E & Hc).
    pose proof (put_field_nonempty w Hv) as Hpos.
    pose proof (len_nonneg (flat_map put_field ws)).
    destruct (Z.leb_spec (len (pre ++ put_field w ++ flat_map put_field ws)) (len pre)) as [Hle|_]; [rewrite !len_app in Hle; lia|].
    rewrite E. cbn [mbind option_bind]. destruct (IH fuel (pre ++ put_field w)) as (fs & Ers & Hfs).
    + by rewrite <- app_assoc.
    + cbn in Hf. lia.
    + rewrite <- app_assoc, len_app in Ers. rewrite Ers. cbn [mbind option_bind]. eexists. split; [done|]. by constructor.
Qed.

Lemma fields_length ws : Forall valid_field ws -> (length ws <= length (flat_map put_field ws))%nat.
Proof.
  induction 1 as [|w ws Hv _ IH]; [done|]. cbn [flat_map length]. rewrite length_app.
  pose proof (put_field_nonempty w Hv) as H. unfold len in H. lia.
Qed.

(** What is written is read back.  Any sequence of fields with legal
    numbers, written one after the other, is read by the decoder's loop as the
    same sequence: each field has its number, its value decodes to the value
    that was written, and its raw bytes are the bytes written for it. *)
Theorem message_roundtrip ws :
  Forall valid_field ws -> len (flat_map put_field ws) <= usize_max ->
  exists fs, read_message (flat_map put_field ws) = Some (Ok fs) /\ Forall2 carries ws fs.
Proof.
  intros Hw Hl. pose proof (fields_length ws Hw).
  exact (read_fields_put (S (length (flat_map put_field ws))) [] ws Hw Hl ltac:(lia)).
Qed.

Definition sample_fields : list wire_field :=
  [FVarint 1 u64_max; FBytes 536870911 [7; 0; 255]; FFloat 3 1065353216; FVarint 16 0].

Lemma message_roundtrip_witness :
  exists fs, read_message (flat_map put_field sample_fields) = Some (Ok fs) /\ Forall2 carries sample_fields fs.
Proof.
  apply (message_roundtrip sample_fields); [|vm_compute; discriminate].
  repeat constructor; discriminate.
Defined.

(** Reading is total and loses no byte.  On every byte string the
    decoder's loop ends, without reading out of range, in a field list or an
    error; when it succeeds, the raw bytes of the fields are the input, piece by
    piece, so a decoder that keeps the raw bytes of the fields it does not know
    re-encodes them exactly; and every number is legal. *)
Theorem reading_loses_no_byte input :
  exists r, read_message input = Some r /\
    match r with
    | Ok fs => concat (map raw fs) = input /\ Forall (fun f => valid_number (number f)) fs
    | Err _ => True
    end.
Proof.
  pose proof (len_nonneg input). destruct (read_fields_spec (S (length input)) input 0) as (r & E & Hr); [lia | unfold len; lia|].
  exists r. split; [exact E|]. destruct r as [fs|e]; [|done]. exact (Hr fs eq_refl).
Qed.

(** * Zig-zag *)

Lemma lxor_ones x : 0 <= x < u64_modulus -> Z.lxor x (u64_modulus - 1) = u64_modulus - 1 - x.
Proof.
  intros Hx. change (u64_modulus - 1) with (Z.ones 64).
  assert (Hlow : Z.ldiff x (Z.ones 64) = 0).
  { rewrite Z.ldiff_ones_r by lia. rewrite Z.shiftr_div_pow2 by lia. change (2 ^ 64) with u64_modulus.
    rewrite Z.div_small by done. apply Z.shiftl_0_l. }
  rewrite (Z.sub_nocarry_ldiff (Z.ones 64) x Hlow). apply Z.bits_inj'. intros n Hn.
  rewrite Z.lxor_spec, Z.ldiff_spec. apply (f_equal (fun z => Z.testbit z n)) in Hlow.
  rewrite Z.ldiff_spec, Z.bits_0 in Hlow. by destruct (Z.testbit x n), (Z.testbit (Z.ones 64) n).
Qed.

(** Signed values survive zig-zag encoding, which stays within a [u64]. *)
Lemma zigzag_roundtrip v :
  i64_min <= v <= i64_max -> zigzag_decode (zigzag_encode v) = v /\ in_range u64_max (zigzag_encode v).
Proof.
  intros Hv. unfold i64_min, i64_max in Hv.
  assert (Henc : zigzag_encode v = if 0 <=? v then 2 * v else -2 * v - 1).
  { unfold zigzag_encode, as_u64. rewrite Z.shiftl_mul_pow2, Z.shiftr_div_pow2 by lia. change (2 ^ 1) with 2.
    destruct (Z.leb_spec 0 v).
    - rewrite (Z.mod_small v) by (unfold u64_modulus; lia). rewrite (Z.mod_small (v * 2)) by (unfold u64_modulus; lia).
      rewrite Z.div_small by (change (2 ^ 63) with 9223372036854775808; lia). change (0 mod u64_modulus) with 0.
      rewrite Z.lxor_0_r. lia.
    - assert (v mod u64_modulus = v + u64_modulus) as -> by
        (symmetry; apply (Z.mod_unique_pos _ _ (-1)); unfold u64_modulus; lia).
      assert (((v + u64_modulus) * 2) mod u64_modulus = 2 * v + u64_modulus) as -> by
        (symmetry; apply (Z.mod_unique_pos _ _ 1); unfold u64_modulus; lia).
      assert (v / 2 ^ 63 = -1) as -> by
        (symmetry; apply (Z.div_unique_pos _ _ _ (v + 2 ^ 63)); change (2 ^ 63) with 9223372036854775808; lia).
      change (-1 mod u64_modulus) with (u64_modulus - 1). rewrite lxor_ones; unfold u64_modulus; lia. }
  rewrite Henc. unfold zigzag_decode, as_i64, i64_max, in_range, u64_max.
  assert (Hland : forall x, Z.land x 1 = x mod 2) by (intros x; change 1 with (Z.ones 1); by rewrite Z.land_ones).
  rewrite !Hland, !Z.shiftr_div_pow2 by lia. change (2 ^ 1) with 2. destruct (Z.leb_spec 0 v); (split; [|lia]).
  - assert (2 * v / 2 = v) as -> by (symmetry; apply (Z.div_unique_pos _ _ _ 0); lia).
    assert ((2 * v) mod 2 = 0) as -> by (symmetry; apply (Z.mod_unique_pos _ _ v); lia).
    destruct (Z.leb_spec v 9223372036854775807); [|lia]. change (- (if 0 <=? _ then 0 else _)) with 0. apply Z.lxor_0_r.
  - assert ((-2 * v - 1) / 2 = - v - 1) as -> by (symmetry; apply (Z.div_unique_pos _ _ _ 1); lia).
    assert ((-2 * v - 1) mod 2 = 1) as -> by (symmetry; apply (Z.mod_unique_pos _ _ (- v - 1)); lia).
    destruct (Z.leb_spec (- v - 1) 9223372036854775807); [|lia].
    change (- (if 1 <=? _ then 1 else _)) with (-1). rewrite Z.lxor_m1_r. unfold Z.lnot. lia.
Qed.
