(* ===== verification/Message.v ===== *)
(** The messages of the native protocol, [crikey-native-protocol/src/message.rs]:
    every message with its encoder and its decoder, the envelope that carries
    them, and what a producer computes to size a batch.

    A message is a module: its fields as the record [t], the zero message, the
    encoder, and the [match] on a field's number by which the decoder merges one
    field ([None] where the number is not known).  The code all messages share,
    the macro [impl_simple!], is the class [Message] and the definitions on it.
    A [String] and a [Vec<u8>] are their bytes, a map is its entries in key
    order. *)

From S2P Require Import Prelude Text Utf8 Items Wire.

Abbreviation String_ := (list Z) (only parsing).

(** * Values *)

Definition ensure_message_size (bytes : list Z) : result unit ProtocolError :=
  if MAX_FRAME_BYTES <? len bytes then Err (FrameTooLarge (len bytes)) else Ok ().

Definition decode_u32 (f : Field) : result Z ProtocolError :=
  let? raw := decode_field_varint f in
  if raw <=? u32_max then Ok raw else Err (Malformed "uint32 value overflows").

Definition as_i32_bits (bits : Z) : Z := if bits <=? 2147483647 then bits else bits - 4294967296.

Definition decode_i32 (f : Field) : result Z ProtocolError :=
  let? raw := decode_field_varint f in
  if (raw <=? u32_max) || (Z.shiftr raw 32 =? u32_max) then Ok (as_i32_bits (Z.land raw u32_max))
  else Err (Malformed "int32 value overflows").

Definition when (test : bool) (bytes : list Z) : list Z := if test then bytes else [].

Definition is_empty {A} (l : list A) : bool := match l with [] => true | _ => false end.

(** [x == 0.0] on the bits of [x]: either zero. *)
Definition is_zero (bits : Z) : bool := (bits =? 0) || (bits =? 2147483648).

(** Values of enumerations are not negative. *)
Definition encode_enum (field value : Z) : list Z := when (negb (value =? 0)) (put_varint field value).

(** [finish]: the bytes of the fields, then the unknown fields as they came. *)
Definition finish (out : list Z) (u : UnknownFields) : list Z := out ++ unknown_bytes u.

(** ** Maps *)

Definition btree : Type := list (list Z * list Z).

Fixpoint bytes_compare (x y : list Z) : comparison :=
  match x, y with
  | [], [] => Eq
  | [], _ => Lt
  | _, [] => Gt
  | a :: x, b :: y => match Z.compare a b with Eq => bytes_compare x y | c => c end
  end.

(** [BTreeMap::insert]. *)
Fixpoint btree_insert (map : btree) (key value : list Z) : btree :=
  match map with
  | [] => [(key, value)]
  | entry :: rest =>
      match bytes_compare key entry.1 with
      | Lt => (key, value) :: map
      | Eq => (key, value) :: rest
      | Gt => entry :: btree_insert rest key value
      end
  end.

Definition put_map (field : Z) (key value : list Z) : list Z :=
  put_bytes field (when (negb (is_empty key)) (put_string 1 key) ++ when (negb (is_empty value)) (put_string 2 value)).

(** [map_entry]: the key, the value, and whether there was a field of another number. *)
Fixpoint map_entry_loop {Mem : Memory} (fuel : nat) (bytes : list Z) (cursor : Z) (entry : list Z * list Z * bool) : D (list Z * list Z * bool) :=
  match fuel with
  | O => fun _ => None
  | S fuel => fun b =>
      if len bytes <=? cursor then ret entry b
      else
        '(cursor, r) ← read_field bytes cursor;
        (let! f := of_result r in
         match number f with
         | 1 => let! key := decode_string f in map_entry_loop fuel bytes cursor (key, entry.1.2, entry.2)
         | 2 => let! value := decode_string f in map_entry_loop fuel bytes cursor (entry.1.1, value, entry.2)
         | _ => map_entry_loop fuel bytes cursor (entry.1, true)
         end) b
  end.

Definition map_entry {Mem : Memory} (f : Field) : D (list Z * list Z * bool) :=
  let! _ := of_result (expect_wire f WLength) in
  map_entry_loop (S (length (field_value f))) (field_value f) 0 ([], [], false).

Definition insert_map {Mem : Memory} (map : btree) (key value : list Z) : D btree :=
  let! _ := charge_map_entry in ret (btree_insert map key value).

(** * What all messages share *)

Class Message (A : Type) := {
  encode_message : A -> list Z;
  empty_message : A;
  merge_field_of : Memory -> A -> Field -> option (D A);
  unknown_of : A -> UnknownFields;
  with_unknown : A -> UnknownFields -> A;
}.

Section Message.
Context {Mem : Memory} {A : Type} {M : Message A}.

(** One field: merged, or kept as it came. *)
Definition merge_one (m : A) (f : Field) (bytes : list Z) (start : Z) : D A :=
  match merge_field_of Mem m f with
  | Some d => d
  | None => fun b =>
      kept ← slice bytes start (field_end f);
      (let! u := push_raw_bounded (unknown_of m) kept in ret (with_unknown m u)) b
  end.

(** [merge_with_budget]. *)
Fixpoint merge_loop (fuel : nat) (bytes : list Z) (cursor : Z) (m : A) : D A :=
  match fuel with
  | O => fun _ => None
  | S fuel => fun b =>
      if len bytes <=? cursor then ret m b
      else
        '(next, r) ← read_field bytes cursor;
        (let! f := of_result r in let! m := merge_one m f bytes cursor in merge_loop fuel bytes next m) b
  end.

Definition merge_with_budget (m : A) (bytes : list Z) : D A := merge_loop (S (length bytes)) bytes 0 m.

Definition decode_with_budget (bytes : list Z) : D A := merge_with_budget empty_message bytes.

(** [Message::decode]. *)
Definition decode (bytes : list Z) : option (result A ProtocolError) :=
  match ensure_message_size bytes with
  | Err e => Some (Err e)
  | Ok _ => snd <$> decode_with_budget bytes new_decode_budget
  end.

(** A decoder one level further down. *)
Definition one_level_down (d : D A) : D A := fun b =>
  match enter_nested b with
  | (b, Err e) => Some (b, Err e)
  | (b, Ok _) => '(b, r) ← d b; b ← leave_nested b; Some (b, r)
  end.

Definition nested (f : Field) : D A :=
  let! _ := of_result (expect_wire f WLength) in one_level_down (decode_with_budget (field_value f)).

Definition merge_nested (m : A) (f : Field) : D A :=
  let! _ := of_result (expect_wire f WLength) in one_level_down (merge_with_budget m (field_value f)).

Definition put_message (field : Z) (m : A) : list Z := put_bytes field (encode_message m).

End Message.

(** * Enumerations *)

Module LifecycleKind.
Inductive t : Type := KindUnspecified | Start | Stop | Activated | Deactivated.

Definition from_i32 (value : Z) : t :=
  match value with 1 => Start | 2 => Stop | 3 => Activated | 4 => Deactivated | _ => KindUnspecified end.

Definition as_i32 (value : t) : Z :=
  match value with KindUnspecified => 0 | Start => 1 | Stop => 2 | Activated => 3 | Deactivated => 4 end.
End LifecycleKind.

Module BatchState.
Inductive t : Type := StateUnspecified | Partial | Final | Cancelled | Failed.

Definition from_i32 (value : Z) : t :=
  match value with 1 => Partial | 2 => Final | 3 => Cancelled | 4 => Failed | _ => StateUnspecified end.

Definition as_i32 (value : t) : Z :=
  match value with StateUnspecified => 0 | Partial => 1 | Final => 2 | Cancelled => 3 | Failed => 4 end.
End BatchState.

Module ExecuteOutcomeCode.
Inductive t : Type := OutcomeUnspecified | Ok | Failed | Unsupported | ShowPage.

Definition from_i32 (value : Z) : t :=
  match value with 1 => Ok | 2 => Failed | 3 => Unsupported | 4 => ShowPage | _ => OutcomeUnspecified end.

Definition as_i32 (value : t) : Z :=
  match value with OutcomeUnspecified => 0 | Ok => 1 | Failed => 2 | Unsupported => 3 | ShowPage => 4 end.
End ExecuteOutcomeCode.

Module PageInputCode.
Inductive t : Type := KindUnspecified | Opened | PointerMoved | PointerPressed | PointerReleased | KeyPressed | TextInput | Activated | FocusChanged | Closed.

Definition from_i32 (value : Z) : t :=
  match value with 1 => Opened | 2 => PointerMoved | 3 => PointerPressed | 4 => PointerReleased | 5 => KeyPressed | 6 => TextInput | 7 => Activated | 8 => FocusChanged | 9 => Closed | _ => KindUnspecified end.

Definition as_i32 (value : t) : Z :=
  match value with KindUnspecified => 0 | Opened => 1 | PointerMoved => 2 | PointerPressed => 3 | PointerReleased => 4 | KeyPressed => 5 | TextInput => 6 | Activated => 7 | FocusChanged => 8 | Closed => 9 end.
End PageInputCode.

Module PageShapeCode.
Inductive t : Type := ShapeUnspecified | Rect | Text | Line | Circle | Image.

Definition from_i32 (value : Z) : t :=
  match value with 1 => Rect | 2 => Text | 3 => Line | 4 => Circle | 5 => Image | _ => ShapeUnspecified end.

Definition as_i32 (value : t) : Z :=
  match value with ShapeUnspecified => 0 | Rect => 1 | Text => 2 | Line => 3 | Circle => 4 | Image => 5 end.
End PageShapeCode.

Module PageRoleCode.
Inductive t : Type := RoleUnspecified | Button | Label | Heading | TextField | Checkbox.

Definition from_i32 (value : Z) : t :=
  match value with 1 => Button | 2 => Label | 3 => Heading | 4 => TextField | 5 => Checkbox | _ => RoleUnspecified end.

Definition as_i32 (value : t) : Z :=
  match value with RoleUnspecified => 0 | Button => 1 | Label => 2 | Heading => 3 | TextField => 4 | Checkbox => 5 end.
End PageRoleCode.

Module EventKind.
Inductive t : Type := KindUnspecified | Filesystem | Network | Configuration | Applications | Custom.

Definition from_i32 (value : Z) : t :=
  match value with 1 => Filesystem | 2 => Network | 3 => Configuration | 4 => Applications | 5 => Custom | _ => KindUnspecified end.

Definition as_i32 (value : t) : Z :=
  match value with KindUnspecified => 0 | Filesystem => 1 | Network => 2 | Configuration => 3 | Applications => 4 | Custom => 5 end.
End EventKind.

Module ResourceKind.
Inductive t : Type := KindUnspecified | Icon | File | Configuration.

Definition from_i32 (value : Z) : t :=
  match value with 1 => Icon | 2 => File | 3 => Configuration | _ => KindUnspecified end.

Definition as_i32 (value : t) : Z :=
  match value with KindUnspecified => 0 | Icon => 1 | File => 2 | Configuration => 3 end.
End ResourceKind.

Module LogLevel.
Inductive t : Type := LevelUnspecified | Error | Warn | Info | Debug | Trace.

Definition from_i32 (value : Z) : t :=
  match value with 1 => Error | 2 => Warn | 3 => Info | 4 => Debug | 5 => Trace | _ => LevelUnspecified end.

Definition as_i32 (value : t) : Z :=
  match value with LevelUnspecified => 0 | Error => 1 | Warn => 2 | Info => 3 | Debug => 4 | Trace => 5 end.
End LogLevel.

Module ErrorCode.
Inductive t : Type := CodeUnspecified | Protocol | Plugin | Timeout | Cancelled | Resource | Unsupported.

Definition from_i32 (value : Z) : t :=
  match value with 1 => Protocol | 2 => Plugin | 3 => Timeout | 4 => Cancelled | 5 => Resource | 6 => Unsupported | _ => CodeUnspecified end.

Definition as_i32 (value : t) : Z :=
  match value with CodeUnspecified => 0 | Protocol => 1 | Plugin => 2 | Timeout => 3 | Cancelled => 4 | Resource => 5 | Unsupported => 6 end.
End ErrorCode.

Module WebStorageMode.
Inductive t : Type := ModeUnspecified | Ephemeral | Persistent.

Definition from_i32 (value : Z) : t :=
  match value with 1 => Ephemeral | 2 => Persistent | _ => ModeUnspecified end.

Definition as_i32 (value : t) : Z :=
  match value with ModeUnspecified => 0 | Ephemeral => 1 | Persistent => 2 end.
End WebStorageMode.

Module WebInputCode.
Inductive t : Type := KindUnspecified | KeyDown | KeyUp | PointerMove | PointerDown | PointerUp | Scroll | FocusIn | FocusOut.

Definition from_i32 (value : Z) : t :=
  match value with 1 => KeyDown | 2 => KeyUp | 3 => PointerMove | 4 => PointerDown | 5 => PointerUp | 6 => Scroll | 7 => FocusIn | 8 => FocusOut | _ => KindUnspecified end.

Definition as_i32 (value : t) : Z :=
  match value with KindUnspecified => 0 | KeyDown => 1 | KeyUp => 2 | PointerMove => 3 | PointerDown => 4 | PointerUp => 5 | Scroll => 6 | FocusIn => 7 | FocusOut => 8 end.
End WebInputCode.

Module WebImeCode.
Inductive t : Type := KindUnspecified | Preedit | Commit.

Definition from_i32 (value : Z) : t :=
  match value with 1 => Preedit | 2 => Commit | _ => KindUnspecified end.

Definition as_i32 (value : t) : Z :=
  match value with KindUnspecified => 0 | Preedit => 1 | Commit => 2 end.
End WebImeCode.

Module WebLoadCode.
Inductive t : Type := StateUnspecified | Started | Redirected | Committed | Finished | Failed.

Definition from_i32 (value : Z) : t :=
  match value with 1 => Started | 2 => Redirected | 3 => Committed | 4 => Finished | 5 => Failed | _ => StateUnspecified end.

Definition as_i32 (value : t) : Z :=
  match value with StateUnspecified => 0 | Started => 1 | Redirected => 2 | Committed => 3 | Finished => 4 | Failed => 5 end.
End WebLoadCode.

Module WebGoneCode.
Inductive t : Type := ReasonUnspecified | Closed | MemoryLimit | Crashed | StartupFailed | ProtocolViolation.

Definition from_i32 (value : Z) : t :=
  match value with 1 => Closed | 2 => MemoryLimit | 3 => Crashed | 4 => StartupFailed | 5 => ProtocolViolation | _ => ReasonUnspecified end.

Definition as_i32 (value : t) : Z :=
  match value with ReasonUnspecified => 0 | Closed => 1 | MemoryLimit => 2 | Crashed => 3 | StartupFailed => 4 | ProtocolViolation => 5 end.
End WebGoneCode.

(** * Messages *)

Module Handshake.
Record t := mk {
  protocol_version : Z;
  plugin_id : String_;
  plugin_version : String_;
  capabilities : list String_;
  session_token : String_;
  plugin_name : String_;
  sdk_version : String_;
  unknown : UnknownFields;
}.
#[global] Instance eta_t : Eta t := fun m => mk (protocol_version m) (plugin_id m) (plugin_version m) (capabilities m) (session_token m) (plugin_name m) (sdk_version m) (unknown m).

Definition default_message : t := mk 0 [] [] [] [] [] [] no_unknown.

Definition encode (m : t) : list Z :=
  finish (when (negb (protocol_version m =? 0)) (put_varint 1 (protocol_version m))
    ++ when (negb (is_empty (plugin_id m))) (put_string 2 (plugin_id m))
    ++ when (negb (is_empty (plugin_version m))) (put_string 3 (plugin_version m))
    ++ flat_map (put_string 4) (capabilities m)
    ++ when (negb (is_empty (session_token m))) (put_string 5 (session_token m))
    ++ when (negb (is_empty (plugin_name m))) (put_string 6 (plugin_name m))
    ++ when (negb (is_empty (sdk_version m))) (put_string 7 (sdk_version m)))
    (unknown m).

Definition merge_field {Mem : Memory} (m : t) (f : Field) : option (D t) :=
  match number f with
  | 1 => Some (let! v := of_result (decode_u32 f) in ret (m <| protocol_version := v |>))
  | 2 => Some (let! v := decode_string f in ret (m <| plugin_id := v |>))
  | 3 => Some (let! v := decode_string f in ret (m <| plugin_version := v |>))
  | 4 => Some (let! v := decode_string f in let! l := push_decoded LString (capabilities m) v in ret (m <| capabilities := l |>))
  | 5 => Some (let! v := decode_string f in ret (m <| session_token := v |>))
  | 6 => Some (let! v := decode_string f in ret (m <| plugin_name := v |>))
  | 7 => Some (let! v := decode_string f in ret (m <| sdk_version := v |>))
  | _ => None
  end.

#[global] Instance codec : Message t := {
  encode_message := encode; empty_message := default_message; merge_field_of := @merge_field;
  unknown_of := unknown; with_unknown m u := m <| unknown := u |> }.
End Handshake.

Module HandshakeAck.
Record t := mk {
  protocol_version : Z;
  host_capabilities : list String_;
  host_version : String_;
  accepted : bool;
  reject_reason : String_;
  max_frame_bytes : Z;
  initial_credits : Z;
  unknown : UnknownFields;
}.
#[global] Instance eta_t : Eta t := fun m => mk (protocol_version m) (host_capabilities m) (host_version m) (accepted m) (reject_reason m) (max_frame_bytes m) (initial_credits m) (unknown m).

Definition default_message : t := mk 0 [] [] false [] 0 0 no_unknown.

Definition encode (m : t) : list Z :=
  finish (when (negb (protocol_version m =? 0)) (put_varint 1 (protocol_version m))
    ++ flat_map (put_string 2) (host_capabilities m)
    ++ when (negb (is_empty (host_version m))) (put_string 3 (host_version m))
    ++ when (accepted m) (put_varint 4 1)
    ++ when (negb (is_empty (reject_reason m))) (put_string 5 (reject_reason m))
    ++ when (negb (max_frame_bytes m =? 0)) (put_varint 6 (max_frame_bytes m))
    ++ when (negb (initial_credits m =? 0)) (put_varint 7 (initial_credits m)))
    (unknown m).

Definition merge_field {Mem : Memory} (m : t) (f : Field) : option (D t) :=
  match number f with
  | 1 => Some (let! v := of_result (decode_u32 f) in ret (m <| protocol_version := v |>))
  | 2 => Some (let! v := decode_string f in let! l := push_decoded LString (host_capabilities m) v in ret (m <| host_capabilities := l |>))
  | 3 => Some (let! v := decode_string f in ret (m <| host_version := v |>))
  | 4 => Some (let! v := of_result (decode_field_varint f) in ret (m <| accepted := negb (v =? 0) |>))
  | 5 => Some (let! v := decode_string f in ret (m <| reject_reason := v |>))
  | 6 => Some (let! v := of_result (decode_field_varint f) in ret (m <| max_frame_bytes := v |>))
  | 7 => Some (let! v := of_result (decode_u32 f) in ret (m <| initial_credits := v |>))
  | _ => None
  end.

#[global] Instance codec : Message t := {
  encode_message := encode; empty_message := default_message; merge_field_of := @merge_field;
  unknown_of := unknown; with_unknown m u := m <| unknown := u |> }.
End HandshakeAck.

Module Lifecycle.
Record t := mk {
  kind : LifecycleKind.t;
  unknown : UnknownFields;
}.
#[global] Instance eta_t : Eta t := fun m => mk (kind m) (unknown m).

Definition default_message : t := mk LifecycleKind.KindUnspecified no_unknown.

Definition encode (m : t) : list Z :=
  finish (when (negb (LifecycleKind.as_i32 (kind m) =? 0)) (encode_enum 1 (LifecycleKind.as_i32 (kind m))))
    (unknown m).

Definition merge_field {Mem : Memory} (m : t) (f : Field) : option (D t) :=
  match number f with
  | 1 => Some (let! v := of_result (decode_i32 f) in ret (m <| kind := LifecycleKind.from_i32 v |>))
  | _ => None
  end.

#[global] Instance codec : Message t := {
  encode_message := encode; empty_message := default_message; merge_field_of := @merge_field;
  unknown_of := unknown; with_unknown m u := m <| unknown := u |> }.
End Lifecycle.

Module StructuredError.
Record t := mk {
  code : ErrorCode.t;
  message : String_;
  detail : String_;
  request_id : Z;
  unknown : UnknownFields;
}.
#[global] Instance eta_t : Eta t := fun m => mk (code m) (message m) (detail m) (request_id m) (unknown m).

Definition default_message : t := mk ErrorCode.CodeUnspecified [] [] 0 no_unknown.

Definition encode (m : t) : list Z :=
  finish (when (negb (ErrorCode.as_i32 (code m) =? 0)) (encode_enum 1 (ErrorCode.as_i32 (code m)))
    ++ when (negb (is_empty (message m))) (put_string 2 (message m))
    ++ when (negb (is_empty (detail m))) (put_string 3 (detail m))
    ++ when (negb (request_id m =? 0)) (put_varint 4 (request_id m)))
    (unknown m).

Definition merge_field {Mem : Memory} (m : t) (f : Field) : option (D t) :=
  match number f with
  | 1 => Some (let! v := of_result (decode_i32 f) in ret (m <| code := ErrorCode.from_i32 v |>))
  | 2 => Some (let! v := decode_string f in ret (m <| message := v |>))
  | 3 => Some (let! v := decode_string f in ret (m <| detail := v |>))
  | 4 => Some (let! v := of_result (decode_field_varint f) in ret (m <| request_id := v |>))
  | _ => None
  end.

#[global] Instance codec : Message t := {
  encode_message := encode; empty_message := default_message; merge_field_of := @merge_field;
  unknown_of := unknown; with_unknown m u := m <| unknown := u |> }.
End StructuredError.

Module LifecycleAck.
Record t := mk {
  kind : LifecycleKind.t;
  ok : bool;
  error : option StructuredError.t;
  unknown : UnknownFields;
}.
#[global] Instance eta_t : Eta t := fun m => mk (kind m) (ok m) (error m) (unknown m).

Definition default_message : t := mk LifecycleKind.KindUnspecified false None no_unknown.

Definition encode (m : t) : list Z :=
  finish (when (negb (LifecycleKind.as_i32 (kind m) =? 0)) (encode_enum 1 (LifecycleKind.as_i32 (kind m)))
    ++ when (ok m) (put_varint 2 1)
    ++ match error m with Some v => put_message 3 v | None => [] end)
    (unknown m).

Definition merge_field {Mem : Memory} (m : t) (f : Field) : option (D t) :=
  match number f with
  | 1 => Some (let! v := of_result (decode_i32 f) in ret (m <| kind := LifecycleKind.from_i32 v |>))
  | 2 => Some (let! v := of_result (decode_field_varint f) in ret (m <| ok := negb (v =? 0) |>))
  | 3 => Some (let! v := nested f in ret (m <| error := Some v |>))
  | _ => None
  end.

#[global] Instance codec : Message t := {
  encode_message := encode; empty_message := default_message; merge_field_of := @merge_field;
  unknown_of := unknown; with_unknown m u := m <| unknown := u |> }.
End LifecycleAck.

Module CatalogRequest.
Record t := mk {
  max_items : Z;
  unknown : UnknownFields;
}.
#[global] Instance eta_t : Eta t := fun m => mk (max_items m) (unknown m).

Definition default_message : t := mk 0 no_unknown.

Definition encode (m : t) : list Z :=
  finish (when (negb (max_items m =? 0)) (put_varint 1 (max_items m)))
    (unknown m).

Definition merge_field {Mem : Memory} (m : t) (f : Field) : option (D t) :=
  match number f with
  | 1 => Some (let! v := of_result (decode_field_varint f) in ret (m <| max_items := v |>))
  | _ => None
  end.

#[global] Instance codec : Message t := {
  encode_message := encode; empty_message := default_message; merge_field_of := @merge_field;
  unknown_of := unknown; with_unknown m u := m <| unknown := u |> }.
End CatalogRequest.

Module Action.
Record t := mk {
  action_id : String_;
  label : String_;
  description : String_;
  icon_reference : String_;
  execution_policy : String_;
  applicable_categories : list String_;
  unknown : UnknownFields;
}.
#[global] Instance eta_t : Eta t := fun m => mk (action_id m) (label m) (description m) (icon_reference m) (execution_policy m) (applicable_categories m) (unknown m).

Definition default_message : t := mk [] [] [] [] [] [] no_unknown.

Definition encode (m : t) : list Z :=
  finish (when (negb (is_empty (action_id m))) (put_string 1 (action_id m))
    ++ when (negb (is_empty (label m))) (put_string 2 (label m))
    ++ when (negb (is_empty (description m))) (put_string 3 (description m))
    ++ when (negb (is_empty (icon_reference m))) (put_string 4 (icon_reference m))
    ++ when (negb (is_empty (execution_policy m))) (put_string 5 (execution_policy m))
    ++ flat_map (put_string 6) (applicable_categories m))
    (unknown m).

Definition merge_field {Mem : Memory} (m : t) (f : Field) : option (D t) :=
  match number f with
  | 1 => Some (let! v := decode_string f in ret (m <| action_id := v |>))
  | 2 => Some (let! v := decode_string f in ret (m <| label := v |>))
  | 3 => Some (let! v := decode_string f in ret (m <| description := v |>))
  | 4 => Some (let! v := decode_string f in ret (m <| icon_reference := v |>))
  | 5 => Some (let! v := decode_string f in ret (m <| execution_policy := v |>))
  | 6 => Some (let! v := decode_string f in let! l := push_decoded LString (applicable_categories m) v in ret (m <| applicable_categories := l |>))
  | _ => None
  end.

#[global] Instance codec : Message t := {
  encode_message := encode; empty_message := default_message; merge_field_of := @merge_field;
  unknown_of := unknown; with_unknown m u := m <| unknown := u |> }.
End Action.

Module Item.
Record t := mk {
  stable_id : String_;
  label : String_;
  description : String_;
  target : String_;
  category : String_;
  search_terms : list String_;
  icon_reference : String_;
  score_hint : Z;
  metadata : btree;
  actions : list Action.t;
  argument_policy : String_;
  hit_policy : String_;
  unknown : UnknownFields;
}.
#[global] Instance eta_t : Eta t := fun m => mk (stable_id m) (label m) (description m) (target m) (category m) (search_terms m) (icon_reference m) (score_hint m) (metadata m) (actions m) (argument_policy m) (hit_policy m) (unknown m).

Definition default_message : t := mk [] [] [] [] [] [] [] 0 [] [] [] [] no_unknown.

Definition encode (m : t) : list Z :=
  finish (when (negb (is_empty (stable_id m))) (put_string 1 (stable_id m))
    ++ when (negb (is_empty (label m))) (put_string 2 (label m))
    ++ when (negb (is_empty (description m))) (put_string 3 (description m))
    ++ when (negb (is_empty (target m))) (put_string 4 (target m))
    ++ when (negb (is_empty (category m))) (put_string 5 (category m))
    ++ flat_map (put_string 6) (search_terms m)
    ++ when (negb (is_empty (icon_reference m))) (put_string 7 (icon_reference m))
    ++ when (negb (score_hint m =? 0)) (put_varint 8 (as_u64 (score_hint m)))
    ++ flat_map (fun entry => put_map 9 entry.1 entry.2) (metadata m)
    ++ flat_map (put_message 10) (actions m)
    ++ when (negb (is_empty (argument_policy m))) (put_string 11 (argument_policy m))
    ++ when (negb (is_empty (hit_policy m))) (put_string 12 (hit_policy m)))
    (unknown m).

Definition merge_field {Mem : Memory} (m : t) (f : Field) : option (D t) :=
  match number f with
  | 1 => Some (let! v := decode_string f in ret (m <| stable_id := v |>))
  | 2 => Some (let! v := decode_string f in ret (m <| label := v |>))
  | 3 => Some (let! v := decode_string f in ret (m <| description := v |>))
  | 4 => Some (let! v := decode_string f in ret (m <| target := v |>))
  | 5 => Some (let! v := decode_string f in ret (m <| category := v |>))
  | 6 => Some (let! v := decode_string f in let! l := push_decoded LString (search_terms m) v in ret (m <| search_terms := l |>))
  | 7 => Some (let! v := decode_string f in ret (m <| icon_reference := v |>))
  | 8 => Some (let! v := of_result (decode_i32 f) in ret (m <| score_hint := v |>))
  | 9 => Some (let! entry := map_entry f in
            if entry.2 then let! u := push_raw_bounded (unknown m) (raw f) in ret (m <| unknown := u |>)
            else let! l := insert_map (metadata m) entry.1.1 entry.1.2 in ret (m <| metadata := l |>))
  | 10 => Some (let! v := nested f in let! l := push_decoded LAction (actions m) v in ret (m <| actions := l |>))
  | 11 => Some (let! v := decode_string f in ret (m <| argument_policy := v |>))
  | 12 => Some (let! v := decode_string f in ret (m <| hit_policy := v |>))
  | _ => None
  end.

#[global] Instance codec : Message t := {
  encode_message := encode; empty_message := default_message; merge_field_of := @merge_field;
  unknown_of := unknown; with_unknown m u := m <| unknown := u |> }.
End Item.

Module CatalogBatch.
Record t := mk {
  items : list Item.t;
  done : bool;
  sequence : Z;
  error : option StructuredError.t;
  unknown : UnknownFields;
}.
#[global] Instance eta_t : Eta t := fun m => mk (items m) (done m) (sequence m) (error m) (unknown m).

Definition default_message : t := mk [] false 0 None no_unknown.

Definition encode (m : t) : list Z :=
  finish (flat_map (put_message 1) (items m)
    ++ when (done m) (put_varint 2 1)
    ++ when (negb (sequence m =? 0)) (put_varint 3 (sequence m))
    ++ match error m with Some v => put_message 4 v | None => [] end)
    (unknown m).

Definition merge_field {Mem : Memory} (m : t) (f : Field) : option (D t) :=
  match number f with
  | 1 => Some (let! v := nested f in let! l := push_decoded LItem (items m) v in ret (m <| items := l |>))
  | 2 => Some (let! v := of_result (decode_field_varint f) in ret (m <| done := negb (v =? 0) |>))
  | 3 => Some (let! v := of_result (decode_field_varint f) in ret (m <| sequence := v |>))
  | 4 => Some (let! v := nested f in ret (m <| error := Some v |>))
  | _ => None
  end.

#[global] Instance codec : Message t := {
  encode_message := encode; empty_message := default_message; merge_field_of := @merge_field;
  unknown_of := unknown; with_unknown m u := m <| unknown := u |> }.
End CatalogBatch.

Module SuggestRequest.
Record t := mk {
  text : String_;
  normalized_text : String_;
  selected_item_id : String_;
  max_items : Z;
  max_batches : Z;
  unknown : UnknownFields;
}.
#[global] Instance eta_t : Eta t := fun m => mk (text m) (normalized_text m) (selected_item_id m) (max_items m) (max_batches m) (unknown m).

Definition default_message : t := mk [] [] [] 0 0 no_unknown.

Definition encode (m : t) : list Z :=
  finish (when (negb (is_empty (text m))) (put_string 1 (text m))
    ++ when (negb (is_empty (normalized_text m))) (put_string 2 (normalized_text m))
    ++ when (negb (is_empty (selected_item_id m))) (put_string 3 (selected_item_id m))
    ++ when (negb (max_items m =? 0)) (put_varint 4 (max_items m))
    ++ when (negb (max_batches m =? 0)) (put_varint 5 (max_batches m)))
    (unknown m).

Definition merge_field {Mem : Memory} (m : t) (f : Field) : option (D t) :=
  match number f with
  | 1 => Some (let! v := decode_string f in ret (m <| text := v |>))
  | 2 => Some (let! v := decode_string f in ret (m <| normalized_text := v |>))
  | 3 => Some (let! v := decode_string f in ret (m <| selected_item_id := v |>))
  | 4 => Some (let! v := of_result (decode_field_varint f) in ret (m <| max_items := v |>))
  | 5 => Some (let! v := of_result (decode_field_varint f) in ret (m <| max_batches := v |>))
  | _ => None
  end.

#[global] Instance codec : Message t := {
  encode_message := encode; empty_message := default_message; merge_field_of := @merge_field;
  unknown_of := unknown; with_unknown m u := m <| unknown := u |> }.
End SuggestRequest.

Module ResultBatch.
Record t := mk {
  state : BatchState.t;
  items : list Item.t;
  sequence : Z;
  error : option StructuredError.t;
  unknown : UnknownFields;
}.
#[global] Instance eta_t : Eta t := fun m => mk (state m) (items m) (sequence m) (error m) (unknown m).

Definition default_message : t := mk BatchState.StateUnspecified [] 0 None no_unknown.

Definition encode (m : t) : list Z :=
  finish (when (negb (BatchState.as_i32 (state m) =? 0)) (encode_enum 1 (BatchState.as_i32 (state m)))
    ++ flat_map (put_message 2) (items m)
    ++ when (negb (sequence m =? 0)) (put_varint 3 (sequence m))
    ++ match error m with Some v => put_message 4 v | None => [] end)
    (unknown m).

Definition merge_field {Mem : Memory} (m : t) (f : Field) : option (D t) :=
  match number f with
  | 1 => Some (let! v := of_result (decode_i32 f) in ret (m <| state := BatchState.from_i32 v |>))
  | 2 => Some (let! v := nested f in let! l := push_decoded LItem (items m) v in ret (m <| items := l |>))
  | 3 => Some (let! v := of_result (decode_field_varint f) in ret (m <| sequence := v |>))
  | 4 => Some (let! v := nested f in ret (m <| error := Some v |>))
  | _ => None
  end.

#[global] Instance codec : Message t := {
  encode_message := encode; empty_message := default_message; merge_field_of := @merge_field;
  unknown_of := unknown; with_unknown m u := m <| unknown := u |> }.
End ResultBatch.

Module Cancel.
Record t := mk {
  reason : String_;
  unknown : UnknownFields;
}.
#[global] Instance eta_t : Eta t := fun m => mk (reason m) (unknown m).

Definition default_message : t := mk [] no_unknown.

Definition encode (m : t) : list Z :=
  finish (when (negb (is_empty (reason m))) (put_string 1 (reason m)))
    (unknown m).

Definition merge_field {Mem : Memory} (m : t) (f : Field) : option (D t) :=
  match number f with
  | 1 => Some (let! v := decode_string f in ret (m <| reason := v |>))
  | _ => None
  end.

#[global] Instance codec : Message t := {
  encode_message := encode; empty_message := default_message; merge_field_of := @merge_field;
  unknown_of := unknown; with_unknown m u := m <| unknown := u |> }.
End Cancel.

Module ExecuteRequest.
Record t := mk {
  item_id : String_;
  action_id : String_;
  argument : String_;
  unknown : UnknownFields;
}.
#[global] Instance eta_t : Eta t := fun m => mk (item_id m) (action_id m) (argument m) (unknown m).

Definition default_message : t := mk [] [] [] no_unknown.

Definition encode (m : t) : list Z :=
  finish (when (negb (is_empty (item_id m))) (put_string 1 (item_id m))
    ++ when (negb (is_empty (action_id m))) (put_string 2 (action_id m))
    ++ when (negb (is_empty (argument m))) (put_string 3 (argument m)))
    (unknown m).

Definition merge_field {Mem : Memory} (m : t) (f : Field) : option (D t) :=
  match number f with
  | 1 => Some (let! v := decode_string f in ret (m <| item_id := v |>))
  | 2 => Some (let! v := decode_string f in ret (m <| action_id := v |>))
  | 3 => Some (let! v := decode_string f in ret (m <| argument := v |>))
  | _ => None
  end.

#[global] Instance codec : Message t := {
  encode_message := encode; empty_message := default_message; merge_field_of := @merge_field;
  unknown_of := unknown; with_unknown m u := m <| unknown := u |> }.
End ExecuteRequest.

Module ExecuteResult.
Record t := mk {
  outcome : ExecuteOutcomeCode.t;
  error : option StructuredError.t;
  page_id : String_;
  unknown : UnknownFields;
}.
#[global] Instance eta_t : Eta t := fun m => mk (outcome m) (error m) (page_id m) (unknown m).

Definition default_message : t := mk ExecuteOutcomeCode.OutcomeUnspecified None [] no_unknown.

Definition encode (m : t) : list Z :=
  finish (when (negb (ExecuteOutcomeCode.as_i32 (outcome m) =? 0)) (encode_enum 1 (ExecuteOutcomeCode.as_i32 (outcome m)))
    ++ match error m with Some v => put_message 2 v | None => [] end
    ++ when (negb (is_empty (page_id m))) (put_string 3 (page_id m)))
    (unknown m).

Definition merge_field {Mem : Memory} (m : t) (f : Field) : option (D t) :=
  match number f with
  | 1 => Some (let! v := of_result (decode_i32 f) in ret (m <| outcome := ExecuteOutcomeCode.from_i32 v |>))
  | 2 => Some (let! v := nested f in ret (m <| error := Some v |>))
  | 3 => Some (let! v := decode_string f in ret (m <| page_id := v |>))
  | _ => None
  end.

#[global] Instance codec : Message t := {
  encode_message := encode; empty_message := default_message; merge_field_of := @merge_field;
  unknown_of := unknown; with_unknown m u := m <| unknown := u |> }.
End ExecuteResult.

Module PageInput.
Record t := mk {
  kind : PageInputCode.t;
  x : Z;
  y : Z;
  key : String_;
  text : String_;
  node_id : Z;
  ctrl : bool;
  shift : bool;
  alt : bool;
  unknown : UnknownFields;
}.
#[global] Instance eta_t : Eta t := fun m => mk (kind m) (x m) (y m) (key m) (text m) (node_id m) (ctrl m) (shift m) (alt m) (unknown m).

Definition default_message : t := mk PageInputCode.KindUnspecified 0 0 [] [] 0 false false false no_unknown.

Definition encode (m : t) : list Z :=
  finish (when (negb (PageInputCode.as_i32 (kind m) =? 0)) (encode_enum 1 (PageInputCode.as_i32 (kind m)))
    ++ when (negb (is_zero (x m))) (put_f32 2 (x m))
    ++ when (negb (is_zero (y m))) (put_f32 3 (y m))
    ++ when (negb (is_empty (key m))) (put_string 4 (key m))
    ++ when (negb (is_empty (text m))) (put_string 5 (text m))
    ++ when (negb (node_id m =? 0)) (put_varint 6 (node_id m))
    ++ when (ctrl m) (put_varint 7 1)
    ++ when (shift m) (put_varint 8 1)
    ++ when (alt m) (put_varint 9 1))
    (unknown m).

Definition merge_field {Mem : Memory} (m : t) (f : Field) : option (D t) :=
  match number f with
  | 1 => Some (let! v := of_result (decode_i32 f) in ret (m <| kind := PageInputCode.from_i32 v |>))
  | 2 => Some (let! v := of_result (decode_f32 f) in ret (m <| x := v |>))
  | 3 => Some (let! v := of_result (decode_f32 f) in ret (m <| y := v |>))
  | 4 => Some (let! v := decode_string f in ret (m <| key := v |>))
  | 5 => Some (let! v := decode_string f in ret (m <| text := v |>))
  | 6 => Some (let! v := of_result (decode_u32 f) in ret (m <| node_id := v |>))
  | 7 => Some (let! v := of_result (decode_field_varint f) in ret (m <| ctrl := negb (v =? 0) |>))
  | 8 => Some (let! v := of_result (decode_field_varint f) in ret (m <| shift := negb (v =? 0) |>))
  | 9 => Some (let! v := of_result (decode_field_varint f) in ret (m <| alt := negb (v =? 0) |>))
  | _ => None
  end.

#[global] Instance codec : Message t := {
  encode_message := encode; empty_message := default_message; merge_field_of := @merge_field;
  unknown_of := unknown; with_unknown m u := m <| unknown := u |> }.
End PageInput.

Module PageImage.
Record t := mk {
  pixel_width : Z;
  pixel_height : Z;
  rgba : String_;
  unknown : UnknownFields;
}.
#[global] Instance eta_t : Eta t := fun m => mk (pixel_width m) (pixel_height m) (rgba m) (unknown m).

Definition default_message : t := mk 0 0 [] no_unknown.

Definition encode (m : t) : list Z :=
  finish (when (negb (pixel_width m =? 0)) (put_varint 1 (pixel_width m))
    ++ when (negb (pixel_height m =? 0)) (put_varint 2 (pixel_height m))
    ++ when (negb (is_empty (rgba m))) (put_bytes 3 (rgba m)))
    (unknown m).

Definition merge_field {Mem : Memory} (m : t) (f : Field) : option (D t) :=
  match number f with
  | 1 => Some (let! v := of_result (decode_u32 f) in ret (m <| pixel_width := v |>))
  | 2 => Some (let! v := of_result (decode_u32 f) in ret (m <| pixel_height := v |>))
  | 3 => Some (let! v := decode_raw_bytes f in ret (m <| rgba := v |>))
  | _ => None
  end.

#[global] Instance codec : Message t := {
  encode_message := encode; empty_message := default_message; merge_field_of := @merge_field;
  unknown_of := unknown; with_unknown m u := m <| unknown := u |> }.
End PageImage.

Module PageNode.
Record t := mk {
  shape : PageShapeCode.t;
  x : Z;
  y : Z;
  width : Z;
  height : Z;
  fill : Z;
  stroke : Z;
  stroke_width : Z;
  rounding : Z;
  text : String_;
  text_size : Z;
  role : PageRoleCode.t;
  label : String_;
  node_id : Z;
  focus_order : Z;
  checked : bool;
  image : option PageImage.t;
  unknown : UnknownFields;
}.
#[global] Instance eta_t : Eta t := fun m => mk (shape m) (x m) (y m) (width m) (height m) (fill m) (stroke m) (stroke_width m) (rounding m) (text m) (text_size m) (role m) (label m) (node_id m) (focus_order m) (checked m) (image m) (unknown m).

Definition default_message : t := mk PageShapeCode.ShapeUnspecified 0 0 0 0 0 0 0 0 [] 0 PageRoleCode.RoleUnspecified [] 0 0 false None no_unknown.

Definition encode (m : t) : list Z :=
  finish (when (negb (PageShapeCode.as_i32 (shape m) =? 0)) (encode_enum 1 (PageShapeCode.as_i32 (shape m)))
    ++ when (negb (is_zero (x m))) (put_f32 2 (x m))
    ++ when (negb (is_zero (y m))) (put_f32 3 (y m))
    ++ when (negb (is_zero (width m))) (put_f32 4 (width m))
    ++ when (negb (is_zero (height m))) (put_f32 5 (height m))
    ++ when (negb (fill m =? 0)) (put_varint 6 (fill m))
    ++ when (negb (stroke m =? 0)) (put_varint 7 (stroke m))
    ++ when (negb (is_zero (stroke_width m))) (put_f32 8 (stroke_width m))
    ++ when (negb (is_zero (rounding m))) (put_f32 9 (rounding m))
    ++ when (negb (is_empty (text m))) (put_string 10 (text m))
    ++ when (negb (is_zero (text_size m))) (put_f32 11 (text_size m))
    ++ when (negb (PageRoleCode.as_i32 (role m) =? 0)) (encode_enum 12 (PageRoleCode.as_i32 (role m)))
    ++ when (negb (is_empty (label m))) (put_string 13 (label m))
    ++ when (negb (node_id m =? 0)) (put_varint 14 (node_id m))
    ++ when (negb (focus_order m =? 0)) (put_varint 15 (focus_order m))
    ++ when (checked m) (put_varint 16 1)
    ++ match image m with Some v => put_message 17 v | None => [] end)
    (unknown m).

Definition merge_field {Mem : Memory} (m : t) (f : Field) : option (D t) :=
  match number f with
  | 1 => Some (let! v := of_result (decode_i32 f) in ret (m <| shape := PageShapeCode.from_i32 v |>))
  | 2 => Some (let! v := of_result (decode_f32 f) in ret (m <| x := v |>))
  | 3 => Some (let! v := of_result (decode_f32 f) in ret (m <| y := v |>))
  | 4 => Some (let! v := of_result (decode_f32 f) in ret (m <| width := v |>))
  | 5 => Some (let! v := of_result (decode_f32 f) in ret (m <| height := v |>))
  | 6 => Some (let! v := of_result (decode_u32 f) in ret (m <| fill := v |>))
  | 7 => Some (let! v := of_result (decode_u32 f) in ret (m <| stroke := v |>))
  | 8 => Some (let! v := of_result (decode_f32 f) in ret (m <| stroke_width := v |>))
  | 9 => Some (let! v := of_result (decode_f32 f) in ret (m <| rounding := v |>))
  | 10 => Some (let! v := decode_string f in ret (m <| text := v |>))
  | 11 => Some (let! v := of_result (decode_f32 f) in ret (m <| text_size := v |>))
  | 12 => Some (let! v := of_result (decode_i32 f) in ret (m <| role := PageRoleCode.from_i32 v |>))
  | 13 => Some (let! v := decode_string f in ret (m <| label := v |>))
  | 14 => Some (let! v := of_result (decode_u32 f) in ret (m <| node_id := v |>))
  | 15 => Some (let! v := of_result (decode_u32 f) in ret (m <| focus_order := v |>))
  | 16 => Some (let! v := of_result (decode_field_varint f) in ret (m <| checked := negb (v =? 0) |>))
  | 17 => Some (let! v := nested f in ret (m <| image := Some v |>))
  | _ => None
  end.

#[global] Instance codec : Message t := {
  encode_message := encode; empty_message := default_message; merge_field_of := @merge_field;
  unknown_of := unknown; with_unknown m u := m <| unknown := u |> }.
End PageNode.

Module PageRequest.
Record t := mk {
  page_id : String_;
  generation : Z;
  width : Z;
  height : Z;
  events : list PageInput.t;
  focused : bool;
  colour_surface : Z;
  colour_text : Z;
  colour_accent : Z;
  colour_muted : Z;
  unknown : UnknownFields;
}.
#[global] Instance eta_t : Eta t := fun m => mk (page_id m) (generation m) (width m) (height m) (events m) (focused m) (colour_surface m) (colour_text m) (colour_accent m) (colour_muted m) (unknown m).

Definition default_message : t := mk [] 0 0 0 [] false 0 0 0 0 no_unknown.

Definition encode (m : t) : list Z :=
  finish (when (negb (is_empty (page_id m))) (put_string 1 (page_id m))
    ++ when (negb (generation m =? 0)) (put_varint 2 (generation m))
    ++ when (negb (width m =? 0)) (put_varint 3 (width m))
    ++ when (negb (height m =? 0)) (put_varint 4 (height m))
    ++ flat_map (put_message 5) (events m)
    ++ when (focused m) (put_varint 6 1)
    ++ when (negb (colour_surface m =? 0)) (put_varint 7 (colour_surface m))
    ++ when (negb (colour_text m =? 0)) (put_varint 8 (colour_text m))
    ++ when (negb (colour_accent m =? 0)) (put_varint 9 (colour_accent m))
    ++ when (negb (colour_muted m =? 0)) (put_varint 10 (colour_muted m)))
    (unknown m).

Definition merge_field {Mem : Memory} (m : t) (f : Field) : option (D t) :=
  match number f with
  | 1 => Some (let! v := decode_string f in ret (m <| page_id := v |>))
  | 2 => Some (let! v := of_result (decode_field_varint f) in ret (m <| generation := v |>))
  | 3 => Some (let! v := of_result (decode_u32 f) in ret (m <| width := v |>))
  | 4 => Some (let! v := of_result (decode_u32 f) in ret (m <| height := v |>))
  | 5 => Some (let! v := nested f in let! l := push_decoded LPageInput (events m) v in ret (m <| events := l |>))
  | 6 => Some (let! v := of_result (decode_field_varint f) in ret (m <| focused := negb (v =? 0) |>))
  | 7 => Some (let! v := of_result (decode_u32 f) in ret (m <| colour_surface := v |>))
  | 8 => Some (let! v := of_result (decode_u32 f) in ret (m <| colour_text := v |>))
  | 9 => Some (let! v := of_result (decode_u32 f) in ret (m <| colour_accent := v |>))
  | 10 => Some (let! v := of_result (decode_u32 f) in ret (m <| colour_muted := v |>))
  | _ => None
  end.

#[global] Instance codec : Message t := {
  encode_message := encode; empty_message := default_message; merge_field_of := @merge_field;
  unknown_of := unknown; with_unknown m u := m <| unknown := u |> }.
End PageRequest.

Module PageWebSurface.
Record t := mk {
  url : String_;
  storage : WebStorageMode.t;
  unknown : UnknownFields;
}.
#[global] Instance eta_t : Eta t := fun m => mk (url m) (storage m) (unknown m).

Definition default_message : t := mk [] WebStorageMode.ModeUnspecified no_unknown.

Definition encode (m : t) : list Z :=
  finish (when (negb (is_empty (url m))) (put_string 1 (url m))
    ++ when (negb (WebStorageMode.as_i32 (storage m) =? 0)) (encode_enum 2 (WebStorageMode.as_i32 (storage m))))
    (unknown m).

Definition merge_field {Mem : Memory} (m : t) (f : Field) : option (D t) :=
  match number f with
  | 1 => Some (let! v := decode_string f in ret (m <| url := v |>))
  | 2 => Some (let! v := of_result (decode_i32 f) in ret (m <| storage := WebStorageMode.from_i32 v |>))
  | _ => None
  end.

#[global] Instance codec : Message t := {
  encode_message := encode; empty_message := default_message; merge_field_of := @merge_field;
  unknown_of := unknown; with_unknown m u := m <| unknown := u |> }.
End PageWebSurface.

Module PageFrame.
Record t := mk {
  generation : Z;
  title : String_;
  nodes : list PageNode.t;
  focus_node : Z;
  redraw_after_ms : Z;
  close : bool;
  web : option PageWebSurface.t;
  unknown : UnknownFields;
}.
#[global] Instance eta_t : Eta t := fun m => mk (generation m) (title m) (nodes m) (focus_node m) (redraw_after_ms m) (close m) (web m) (unknown m).

Definition default_message : t := mk 0 [] [] 0 0 false None no_unknown.

Definition encode (m : t) : list Z :=
  finish (when (negb (generation m =? 0)) (put_varint 1 (generation m))
    ++ when (negb (is_empty (title m))) (put_string 2 (title m))
    ++ flat_map (put_message 3) (nodes m)
    ++ when (negb (focus_node m =? 0)) (put_varint 4 (focus_node m))
    ++ when (negb (redraw_after_ms m =? 0)) (put_varint 5 (redraw_after_ms m))
    ++ when (close m) (put_varint 6 1)
    ++ match web m with Some v => put_message 7 v | None => [] end)
    (unknown m).

Definition merge_field {Mem : Memory} (m : t) (f : Field) : option (D t) :=
  match number f with
  | 1 => Some (let! v := of_result (decode_field_varint f) in ret (m <| generation := v |>))
  | 2 => Some (let! v := decode_string f in ret (m <| title := v |>))
  | 3 => Some (let! v := nested f in let! l := push_decoded LPageNode (nodes m) v in ret (m <| nodes := l |>))
  | 4 => Some (let! v := of_result (decode_u32 f) in ret (m <| focus_node := v |>))
  | 5 => Some (let! v := of_result (decode_u32 f) in ret (m <| redraw_after_ms := v |>))
  | 6 => Some (let! v := of_result (decode_field_varint f) in ret (m <| close := negb (v =? 0) |>))
  | 7 => Some (match web m with
             | Some w => let! w := merge_nested w f in ret (m <| web := Some w |>)
             | None => let! w := nested f in ret (m <| web := Some w |>)
             end)
  | _ => None
  end.

#[global] Instance codec : Message t := {
  encode_message := encode; empty_message := default_message; merge_field_of := @merge_field;
  unknown_of := unknown; with_unknown m u := m <| unknown := u |> }.
End PageFrame.

Module OpenSurface.
Record t := mk {
  surface_id : Z;
  pixel_width : Z;
  pixel_height : Z;
  url : String_;
  storage_mode : WebStorageMode.t;
  unknown : UnknownFields;
}.
#[global] Instance eta_t : Eta t := fun m => mk (surface_id m) (pixel_width m) (pixel_height m) (url m) (storage_mode m) (unknown m).

Definition default_message : t := mk 0 0 0 [] WebStorageMode.ModeUnspecified no_unknown.

Definition encode (m : t) : list Z :=
  finish (when (negb (surface_id m =? 0)) (put_varint 1 (surface_id m))
    ++ when (negb (pixel_width m =? 0)) (put_varint 2 (pixel_width m))
    ++ when (negb (pixel_height m =? 0)) (put_varint 3 (pixel_height m))
    ++ when (negb (is_empty (url m))) (put_string 4 (url m))
    ++ when (negb (WebStorageMode.as_i32 (storage_mode m) =? 0)) (encode_enum 5 (WebStorageMode.as_i32 (storage_mode m))))
    (unknown m).

Definition merge_field {Mem : Memory} (m : t) (f : Field) : option (D t) :=
  match number f with
  | 1 => Some (let! v := of_result (decode_field_varint f) in ret (m <| surface_id := v |>))
  | 2 => Some (let! v := of_result (decode_u32 f) in ret (m <| pixel_width := v |>))
  | 3 => Some (let! v := of_result (decode_u32 f) in ret (m <| pixel_height := v |>))
  | 4 => Some (let! v := decode_string f in ret (m <| url := v |>))
  | 5 => Some (let! v := of_result (decode_i32 f) in ret (m <| storage_mode := WebStorageMode.from_i32 v |>))
  | _ => None
  end.

#[global] Instance codec : Message t := {
  encode_message := encode; empty_message := default_message; merge_field_of := @merge_field;
  unknown_of := unknown; with_unknown m u := m <| unknown := u |> }.
End OpenSurface.

Module RawInput.
Record t := mk {
  surface_id : Z;
  kind : WebInputCode.t;
  timestamp_ms : Z;
  x : Z;
  y : Z;
  keysym : Z;
  hardware_keycode : Z;
  repeat : bool;
  modifiers : Z;
  button : Z;
  press_count : Z;
  delta_x : Z;
  delta_y : Z;
  precise : bool;
  stop : bool;
  unknown : UnknownFields;
}.
#[global] Instance eta_t : Eta t := fun m => mk (surface_id m) (kind m) (timestamp_ms m) (x m) (y m) (keysym m) (hardware_keycode m) (repeat m) (modifiers m) (button m) (press_count m) (delta_x m) (delta_y m) (precise m) (stop m) (unknown m).

Definition default_message : t := mk 0 WebInputCode.KindUnspecified 0 0 0 0 0 false 0 0 0 0 0 false false no_unknown.

Definition encode (m : t) : list Z :=
  finish (when (negb (surface_id m =? 0)) (put_varint 1 (surface_id m))
    ++ when (negb (WebInputCode.as_i32 (kind m) =? 0)) (encode_enum 2 (WebInputCode.as_i32 (kind m)))
    ++ when (negb (timestamp_ms m =? 0)) (put_varint 3 (timestamp_ms m))
    ++ when (negb (is_zero (x m))) (put_f32 4 (x m))
    ++ when (negb (is_zero (y m))) (put_f32 5 (y m))
    ++ when (negb (keysym m =? 0)) (put_varint 6 (keysym m))
    ++ when (negb (hardware_keycode m =? 0)) (put_varint 7 (hardware_keycode m))
    ++ when (repeat m) (put_varint 8 1)
    ++ when (negb (modifiers m =? 0)) (put_varint 9 (modifiers m))
    ++ when (negb (button m =? 0)) (put_varint 10 (button m))
    ++ when (negb (press_count m =? 0)) (put_varint 11 (press_count m))
    ++ when (negb (is_zero (delta_x m))) (put_f32 12 (delta_x m))
    ++ when (negb (is_zero (delta_y m))) (put_f32 13 (delta_y m))
    ++ when (precise m) (put_varint 14 1)
    ++ when (stop m) (put_varint 15 1))
    (unknown m).

Definition merge_field {Mem : Memory} (m : t) (f : Field) : option (D t) :=
  match number f with
  | 1 => Some (let! v := of_result (decode_field_varint f) in ret (m <| surface_id := v |>))
  | 2 => Some (let! v := of_result (decode_i32 f) in ret (m <| kind := WebInputCode.from_i32 v |>))
  | 3 => Some (let! v := of_result (decode_field_varint f) in ret (m <| timestamp_ms := v |>))
  | 4 => Some (let! v := of_result (decode_f32 f) in ret (m <| x := v |>))
  | 5 => Some (let! v := of_result (decode_f32 f) in ret (m <| y := v |>))
  | 6 => Some (let! v := of_result (decode_u32 f) in ret (m <| keysym := v |>))
  | 7 => Some (let! v := of_result (decode_u32 f) in ret (m <| hardware_keycode := v |>))
  | 8 => Some (let! v := of_result (decode_field_varint f) in ret (m <| repeat := negb (v =? 0) |>))
  | 9 => Some (let! v := of_result (decode_u32 f) in ret (m <| modifiers := v |>))
  | 10 => Some (let! v := of_result (decode_u32 f) in ret (m <| button := v |>))
  | 11 => Some (let! v := of_result (decode_u32 f) in ret (m <| press_count := v |>))
  | 12 => Some (let! v := of_result (decode_f32 f) in ret (m <| delta_x := v |>))
  | 13 => Some (let! v := of_result (decode_f32 f) in ret (m <| delta_y := v |>))
  | 14 => Some (let! v := of_result (decode_field_varint f) in ret (m <| precise := negb (v =? 0) |>))
  | 15 => Some (let! v := of_result (decode_field_varint f) in ret (m <| stop := negb (v =? 0) |>))
  | _ => None
  end.

#[global] Instance codec : Message t := {
  encode_message := encode; empty_message := default_message; merge_field_of := @merge_field;
  unknown_of := unknown; with_unknown m u := m <| unknown := u |> }.
End RawInput.

Module ImeEvent.
Record t := mk {
  surface_id : Z;
  kind : WebImeCode.t;
  text : String_;
  cursor_begin_chars : Z;
  cursor_end_chars : Z;
  has_cursor : bool;
  unknown : UnknownFields;
}.
#[global] Instance eta_t : Eta t := fun m => mk (surface_id m) (kind m) (text m) (cursor_begin_chars m) (cursor_end_chars m) (has_cursor m) (unknown m).

Definition default_message : t := mk 0 WebImeCode.KindUnspecified [] 0 0 false no_unknown.

Definition encode (m : t) : list Z :=
  finish (when (negb (surface_id m =? 0)) (put_varint 1 (surface_id m))
    ++ when (negb (WebImeCode.as_i32 (kind m) =? 0)) (encode_enum 2 (WebImeCode.as_i32 (kind m)))
    ++ when (negb (is_empty (text m))) (put_string 3 (text m))
    ++ when (negb (cursor_begin_chars m =? 0)) (put_varint 4 (cursor_begin_chars m))
    ++ when (negb (cursor_end_chars m =? 0)) (put_varint 5 (cursor_end_chars m))
    ++ when (has_cursor m) (put_varint 6 1))
    (unknown m).

Definition merge_field {Mem : Memory} (m : t) (f : Field) : option (D t) :=
  match number f with
  | 1 => Some (let! v := of_result (decode_field_varint f) in ret (m <| surface_id := v |>))
  | 2 => Some (let! v := of_result (decode_i32 f) in ret (m <| kind := WebImeCode.from_i32 v |>))
  | 3 => Some (let! v := decode_string f in ret (m <| text := v |>))
  | 4 => Some (let! v := of_result (decode_u32 f) in ret (m <| cursor_begin_chars := v |>))
  | 5 => Some (let! v := of_result (decode_u32 f) in ret (m <| cursor_end_chars := v |>))
  | 6 => Some (let! v := of_result (decode_field_varint f) in ret (m <| has_cursor := negb (v =? 0) |>))
  | _ => None
  end.

#[global] Instance codec : Message t := {
  encode_message := encode; empty_message := default_message; merge_field_of := @merge_field;
  unknown_of := unknown; with_unknown m u := m <| unknown := u |> }.
End ImeEvent.

Module Navigate.
Record t := mk {
  surface_id : Z;
  url : String_;
  unknown : UnknownFields;
}.
#[global] Instance eta_t : Eta t := fun m => mk (surface_id m) (url m) (unknown m).

Definition default_message : t := mk 0 [] no_unknown.

Definition encode (m : t) : list Z :=
  finish (when (negb (surface_id m =? 0)) (put_varint 1 (surface_id m))
    ++ when (negb (is_empty (url m))) (put_string 2 (url m)))
    (unknown m).

Definition merge_field {Mem : Memory} (m : t) (f : Field) : option (D t) :=
  match number f with
  | 1 => Some (let! v := of_result (decode_field_varint f) in ret (m <| surface_id := v |>))
  | 2 => Some (let! v := decode_string f in ret (m <| url := v |>))
  | _ => None
  end.

#[global] Instance codec : Message t := {
  encode_message := encode; empty_message := default_message; merge_field_of := @merge_field;
  unknown_of := unknown; with_unknown m u := m <| unknown := u |> }.
End Navigate.

Module Resize.
Record t := mk {
  surface_id : Z;
  pixel_width : Z;
  pixel_height : Z;
  unknown : UnknownFields;
}.
#[global] Instance eta_t : Eta t := fun m => mk (surface_id m) (pixel_width m) (pixel_height m) (unknown m).

Definition default_message : t := mk 0 0 0 no_unknown.

Definition encode (m : t) : list Z :=
  finish (when (negb (surface_id m =? 0)) (put_varint 1 (surface_id m))
    ++ when (negb (pixel_width m =? 0)) (put_varint 2 (pixel_width m))
    ++ when (negb (pixel_height m =? 0)) (put_varint 3 (pixel_height m)))
    (unknown m).

Definition merge_field {Mem : Memory} (m : t) (f : Field) : option (D t) :=
  match number f with
  | 1 => Some (let! v := of_result (decode_field_varint f) in ret (m <| surface_id := v |>))
  | 2 => Some (let! v := of_result (decode_u32 f) in ret (m <| pixel_width := v |>))
  | 3 => Some (let! v := of_result (decode_u32 f) in ret (m <| pixel_height := v |>))
  | _ => None
  end.

#[global] Instance codec : Message t := {
  encode_message := encode; empty_message := default_message; merge_field_of := @merge_field;
  unknown_of := unknown; with_unknown m u := m <| unknown := u |> }.
End Resize.

Module CloseSurface.
Record t := mk {
  surface_id : Z;
  reason : String_;
  unknown : UnknownFields;
}.
#[global] Instance eta_t : Eta t := fun m => mk (surface_id m) (reason m) (unknown m).

Definition default_message : t := mk 0 [] no_unknown.

Definition encode (m : t) : list Z :=
  finish (when (negb (surface_id m =? 0)) (put_varint 1 (surface_id m))
    ++ when (negb (is_empty (reason m))) (put_string 2 (reason m)))
    (unknown m).

Definition merge_field {Mem : Memory} (m : t) (f : Field) : option (D t) :=
  match number f with
  | 1 => Some (let! v := of_result (decode_field_varint f) in ret (m <| surface_id := v |>))
  | 2 => Some (let! v := decode_string f in ret (m <| reason := v |>))
  | _ => None
  end.

#[global] Instance codec : Message t := {
  encode_message := encode; empty_message := default_message; merge_field_of := @merge_field;
  unknown_of := unknown; with_unknown m u := m <| unknown := u |> }.
End CloseSurface.

Module WebFrame.
Record t := mk {
  surface_id : Z;
  generation : Z;
  pixel_width : Z;
  pixel_height : Z;
  rgba8 : String_;
  unknown : UnknownFields;
}.
#[global] Instance eta_t : Eta t := fun m => mk (surface_id m) (generation m) (pixel_width m) (pixel_height m) (rgba8 m) (unknown m).

Definition default_message : t := mk 0 0 0 0 [] no_unknown.

Definition encode (m : t) : list Z :=
  finish (when (negb (surface_id m =? 0)) (put_varint 1 (surface_id m))
    ++ when (negb (generation m =? 0)) (put_varint 2 (generation m))
    ++ when (negb (pixel_width m =? 0)) (put_varint 3 (pixel_width m))
    ++ when (negb (pixel_height m =? 0)) (put_varint 4 (pixel_height m))
    ++ when (negb (is_empty (rgba8 m))) (put_bytes 5 (rgba8 m)))
    (unknown m).

Definition merge_field {Mem : Memory} (m : t) (f : Field) : option (D t) :=
  match number f with
  | 1 => Some (let! v := of_result (decode_field_varint f) in ret (m <| surface_id := v |>))
  | 2 => Some (let! v := of_result (decode_field_varint f) in ret (m <| generation := v |>))
  | 3 => Some (let! v := of_result (decode_u32 f) in ret (m <| pixel_width := v |>))
  | 4 => Some (let! v := of_result (decode_u32 f) in ret (m <| pixel_height := v |>))
  | 5 => Some (let! v := decode_raw_bytes f in ret (m <| rgba8 := v |>))
  | _ => None
  end.

#[global] Instance codec : Message t := {
  encode_message := encode; empty_message := default_message; merge_field_of := @merge_field;
  unknown_of := unknown; with_unknown m u := m <| unknown := u |> }.
End WebFrame.

Module CaretArea.
Record t := mk {
  surface_id : Z;
  x : Z;
  y : Z;
  width : Z;
  height : Z;
  unknown : UnknownFields;
}.
#[global] Instance eta_t : Eta t := fun m => mk (surface_id m) (x m) (y m) (width m) (height m) (unknown m).

Definition default_message : t := mk 0 0 0 0 0 no_unknown.

Definition encode (m : t) : list Z :=
  finish (when (negb (surface_id m =? 0)) (put_varint 1 (surface_id m))
    ++ when (negb (is_zero (x m))) (put_f32 2 (x m))
    ++ when (negb (is_zero (y m))) (put_f32 3 (y m))
    ++ when (negb (is_zero (width m))) (put_f32 4 (width m))
    ++ when (negb (is_zero (height m))) (put_f32 5 (height m)))
    (unknown m).

Definition merge_field {Mem : Memory} (m : t) (f : Field) : option (D t) :=
  match number f with
  | 1 => Some (let! v := of_result (decode_field_varint f) in ret (m <| surface_id := v |>))
  | 2 => Some (let! v := of_result (decode_f32 f) in ret (m <| x := v |>))
  | 3 => Some (let! v := of_result (decode_f32 f) in ret (m <| y := v |>))
  | 4 => Some (let! v := of_result (decode_f32 f) in ret (m <| width := v |>))
  | 5 => Some (let! v := of_result (decode_f32 f) in ret (m <| height := v |>))
  | _ => None
  end.

#[global] Instance codec : Message t := {
  encode_message := encode; empty_message := default_message; merge_field_of := @merge_field;
  unknown_of := unknown; with_unknown m u := m <| unknown := u |> }.
End CaretArea.

Module LoadState.
Record t := mk {
  surface_id : Z;
  state : WebLoadCode.t;
  url : String_;
  failure : String_;
  can_go_back : bool;
  can_go_forward : bool;
  title : String_;
  unknown : UnknownFields;
}.
#[global] Instance eta_t : Eta t := fun m => mk (surface_id m) (state m) (url m) (failure m) (can_go_back m) (can_go_forward m) (title m) (unknown m).

Definition default_message : t := mk 0 WebLoadCode.StateUnspecified [] [] false false [] no_unknown.

Definition encode (m : t) : list Z :=
  finish (when (negb (surface_id m =? 0)) (put_varint 1 (surface_id m))
    ++ when (negb (WebLoadCode.as_i32 (state m) =? 0)) (encode_enum 2 (WebLoadCode.as_i32 (state m)))
    ++ when (negb (is_empty (url m))) (put_string 3 (url m))
    ++ when (negb (is_empty (failure m))) (put_string 4 (failure m))
    ++ when (can_go_back m) (put_varint 5 1)
    ++ when (can_go_forward m) (put_varint 6 1)
    ++ when (negb (is_empty (title m))) (put_string 7 (title m)))
    (unknown m).

Definition merge_field {Mem : Memory} (m : t) (f : Field) : option (D t) :=
  match number f with
  | 1 => Some (let! v := of_result (decode_field_varint f) in ret (m <| surface_id := v |>))
  | 2 => Some (let! v := of_result (decode_i32 f) in ret (m <| state := WebLoadCode.from_i32 v |>))
  | 3 => Some (let! v := decode_string f in ret (m <| url := v |>))
  | 4 => Some (let! v := decode_string f in ret (m <| failure := v |>))
  | 5 => Some (let! v := of_result (decode_field_varint f) in ret (m <| can_go_back := negb (v =? 0) |>))
  | 6 => Some (let! v := of_result (decode_field_varint f) in ret (m <| can_go_forward := negb (v =? 0) |>))
  | 7 => Some (let! v := decode_string f in ret (m <| title := v |>))
  | _ => None
  end.

#[global] Instance codec : Message t := {
  encode_message := encode; empty_message := default_message; merge_field_of := @merge_field;
  unknown_of := unknown; with_unknown m u := m <| unknown := u |> }.
End LoadState.

Module Gone.
Record t := mk {
  surface_id : Z;
  reason : WebGoneCode.t;
  detail : String_;
  unknown : UnknownFields;
}.
#[global] Instance eta_t : Eta t := fun m => mk (surface_id m) (reason m) (detail m) (unknown m).

Definition default_message : t := mk 0 WebGoneCode.ReasonUnspecified [] no_unknown.

Definition encode (m : t) : list Z :=
  finish (when (negb (surface_id m =? 0)) (put_varint 1 (surface_id m))
    ++ when (negb (WebGoneCode.as_i32 (reason m) =? 0)) (encode_enum 2 (WebGoneCode.as_i32 (reason m)))
    ++ when (negb (is_empty (detail m))) (put_string 3 (detail m)))
    (unknown m).

Definition merge_field {Mem : Memory} (m : t) (f : Field) : option (D t) :=
  match number f with
  | 1 => Some (let! v := of_result (decode_field_varint f) in ret (m <| surface_id := v |>))
  | 2 => Some (let! v := of_result (decode_i32 f) in ret (m <| reason := WebGoneCode.from_i32 v |>))
  | 3 => Some (let! v := decode_string f in ret (m <| detail := v |>))
  | _ => None
  end.

#[global] Instance codec : Message t := {
  encode_message := encode; empty_message := default_message; merge_field_of := @merge_field;
  unknown_of := unknown; with_unknown m u := m <| unknown := u |> }.
End Gone.

Module ConfigurationChange.
Record t := mk {
  values : btree;
  complete : bool;
  unknown : UnknownFields;
}.
#[global] Instance eta_t : Eta t := fun m => mk (values m) (complete m) (unknown m).

Definition default_message : t := mk [] false no_unknown.

Definition encode (m : t) : list Z :=
  finish (flat_map (fun entry => put_map 1 entry.1 entry.2) (values m)
    ++ when (complete m) (put_varint 2 1))
    (unknown m).

Definition merge_field {Mem : Memory} (m : t) (f : Field) : option (D t) :=
  match number f with
  | 1 => Some (let! entry := map_entry f in
            if entry.2 then let! u := push_raw_bounded (unknown m) (raw f) in ret (m <| unknown := u |>)
            else let! l := insert_map (values m) entry.1.1 entry.1.2 in ret (m <| values := l |>))
  | 2 => Some (let! v := of_result (decode_field_varint f) in ret (m <| complete := negb (v =? 0) |>))
  | _ => None
  end.

#[global] Instance codec : Message t := {
  encode_message := encode; empty_message := default_message; merge_field_of := @merge_field;
  unknown_of := unknown; with_unknown m u := m <| unknown := u |> }.
End ConfigurationChange.

Module Event.
Record t := mk {
  kind : EventKind.t;
  attributes : btree;
  flags : Z;
  unknown : UnknownFields;
}.
#[global] Instance eta_t : Eta t := fun m => mk (kind m) (attributes m) (flags m) (unknown m).

Definition default_message : t := mk EventKind.KindUnspecified [] 0 no_unknown.

Definition encode (m : t) : list Z :=
  finish (when (negb (EventKind.as_i32 (kind m) =? 0)) (encode_enum 1 (EventKind.as_i32 (kind m)))
    ++ flat_map (fun entry => put_map 2 entry.1 entry.2) (attributes m)
    ++ when (negb (flags m =? 0)) (put_varint 3 (flags m)))
    (unknown m).

Definition merge_field {Mem : Memory} (m : t) (f : Field) : option (D t) :=
  match number f with
  | 1 => Some (let! v := of_result (decode_i32 f) in ret (m <| kind := EventKind.from_i32 v |>))
  | 2 => Some (let! entry := map_entry f in
            if entry.2 then let! u := push_raw_bounded (unknown m) (raw f) in ret (m <| unknown := u |>)
            else let! l := insert_map (attributes m) entry.1.1 entry.1.2 in ret (m <| attributes := l |>))
  | 3 => Some (let! v := of_result (decode_field_varint f) in ret (m <| flags := v |>))
  | _ => None
  end.

#[global] Instance codec : Message t := {
  encode_message := encode; empty_message := default_message; merge_field_of := @merge_field;
  unknown_of := unknown; with_unknown m u := m <| unknown := u |> }.
End Event.

Module ResourceRequest.
Record t := mk {
  kind : ResourceKind.t;
  reference : String_;
  unknown : UnknownFields;
}.
#[global] Instance eta_t : Eta t := fun m => mk (kind m) (reference m) (unknown m).

Definition default_message : t := mk ResourceKind.KindUnspecified [] no_unknown.

Definition encode (m : t) : list Z :=
  finish (when (negb (ResourceKind.as_i32 (kind m) =? 0)) (encode_enum 1 (ResourceKind.as_i32 (kind m)))
    ++ when (negb (is_empty (reference m))) (put_string 2 (reference m)))
    (unknown m).

Definition merge_field {Mem : Memory} (m : t) (f : Field) : option (D t) :=
  match number f with
  | 1 => Some (let! v := of_result (decode_i32 f) in ret (m <| kind := ResourceKind.from_i32 v |>))
  | 2 => Some (let! v := decode_string f in ret (m <| reference := v |>))
  | _ => None
  end.

#[global] Instance codec : Message t := {
  encode_message := encode; empty_message := default_message; merge_field_of := @merge_field;
  unknown_of := unknown; with_unknown m u := m <| unknown := u |> }.
End ResourceRequest.

Module ResourceResponse.
Record t := mk {
  reference : String_;
  found : bool;
  content : String_;
  media_type : String_;
  error : option StructuredError.t;
  unknown : UnknownFields;
}.
#[global] Instance eta_t : Eta t := fun m => mk (reference m) (found m) (content m) (media_type m) (error m) (unknown m).

Definition default_message : t := mk [] false [] [] None no_unknown.

Definition encode (m : t) : list Z :=
  finish (when (negb (is_empty (reference m))) (put_string 1 (reference m))
    ++ when (found m) (put_varint 2 1)
    ++ when (negb (is_empty (content m))) (put_bytes 3 (content m))
    ++ when (negb (is_empty (media_type m))) (put_string 4 (media_type m))
    ++ match error m with Some v => put_message 5 v | None => [] end)
    (unknown m).

Definition merge_field {Mem : Memory} (m : t) (f : Field) : option (D t) :=
  match number f with
  | 1 => Some (let! v := decode_string f in ret (m <| reference := v |>))
  | 2 => Some (let! v := of_result (decode_field_varint f) in ret (m <| found := negb (v =? 0) |>))
  | 3 => Some (let! v := decode_raw_bytes f in ret (m <| content := v |>))
  | 4 => Some (let! v := decode_string f in ret (m <| media_type := v |>))
  | 5 => Some (let! v := nested f in ret (m <| error := Some v |>))
  | _ => None
  end.

#[global] Instance codec : Message t := {
  encode_message := encode; empty_message := default_message; merge_field_of := @merge_field;
  unknown_of := unknown; with_unknown m u := m <| unknown := u |> }.
End ResourceResponse.

Module LogRecord.
Record t := mk {
  level : LogLevel.t;
  message : String_;
  timestamp_ms : Z;
  unknown : UnknownFields;
}.
#[global] Instance eta_t : Eta t := fun m => mk (level m) (message m) (timestamp_ms m) (unknown m).

Definition default_message : t := mk LogLevel.LevelUnspecified [] 0 no_unknown.

Definition encode (m : t) : list Z :=
  finish (when (negb (LogLevel.as_i32 (level m) =? 0)) (encode_enum 1 (LogLevel.as_i32 (level m)))
    ++ when (negb (is_empty (message m))) (put_string 2 (message m))
    ++ when (negb (timestamp_ms m =? 0)) (put_varint 3 (timestamp_ms m)))
    (unknown m).

Definition merge_field {Mem : Memory} (m : t) (f : Field) : option (D t) :=
  match number f with
  | 1 => Some (let! v := of_result (decode_i32 f) in ret (m <| level := LogLevel.from_i32 v |>))
  | 2 => Some (let! v := decode_string f in ret (m <| message := v |>))
  | 3 => Some (let! v := of_result (decode_field_varint f) in ret (m <| timestamp_ms := v |>))
  | _ => None
  end.

#[global] Instance codec : Message t := {
  encode_message := encode; empty_message := default_message; merge_field_of := @merge_field;
  unknown_of := unknown; with_unknown m u := m <| unknown := u |> }.
End LogRecord.

Module HealthCheck.
Record t := mk {
  nonce : Z;
  unknown : UnknownFields;
}.
#[global] Instance eta_t : Eta t := fun m => mk (nonce m) (unknown m).

Definition default_message : t := mk 0 no_unknown.

Definition encode (m : t) : list Z :=
  finish (when (negb (nonce m =? 0)) (put_varint 1 (nonce m)))
    (unknown m).

Definition merge_field {Mem : Memory} (m : t) (f : Field) : option (D t) :=
  match number f with
  | 1 => Some (let! v := of_result (decode_field_varint f) in ret (m <| nonce := v |>))
  | _ => None
  end.

#[global] Instance codec : Message t := {
  encode_message := encode; empty_message := default_message; merge_field_of := @merge_field;
  unknown_of := unknown; with_unknown m u := m <| unknown := u |> }.
End HealthCheck.

Module HealthReport.
Record t := mk {
  nonce : Z;
  healthy : bool;
  memory_bytes : Z;
  queue_depth : Z;
  in_flight : Z;
  detail : String_;
  unknown : UnknownFields;
}.
#[global] Instance eta_t : Eta t := fun m => mk (nonce m) (healthy m) (memory_bytes m) (queue_depth m) (in_flight m) (detail m) (unknown m).

Definition default_message : t := mk 0 false 0 0 0 [] no_unknown.

Definition encode (m : t) : list Z :=
  finish (when (negb (nonce m =? 0)) (put_varint 1 (nonce m))
    ++ when (healthy m) (put_varint 2 1)
    ++ when (negb (memory_bytes m =? 0)) (put_varint 3 (memory_bytes m))
    ++ when (negb (queue_depth m =? 0)) (put_varint 4 (queue_depth m))
    ++ when (negb (in_flight m =? 0)) (put_varint 5 (in_flight m))
    ++ when (negb (is_empty (detail m))) (put_string 6 (detail m)))
    (unknown m).

Definition merge_field {Mem : Memory} (m : t) (f : Field) : option (D t) :=
  match number f with
  | 1 => Some (let! v := of_result (decode_field_varint f) in ret (m <| nonce := v |>))
  | 2 => Some (let! v := of_result (decode_field_varint f) in ret (m <| healthy := negb (v =? 0) |>))
  | 3 => Some (let! v := of_result (decode_field_varint f) in ret (m <| memory_bytes := v |>))
  | 4 => Some (let! v := of_result (decode_u32 f) in ret (m <| queue_depth := v |>))
  | 5 => Some (let! v := of_result (decode_u32 f) in ret (m <| in_flight := v |>))
  | 6 => Some (let! v := decode_string f in ret (m <| detail := v |>))
  | _ => None
  end.

#[global] Instance codec : Message t := {
  encode_message := encode; empty_message := default_message; merge_field_of := @merge_field;
  unknown_of := unknown; with_unknown m u := m <| unknown := u |> }.
End HealthReport.

Module FlowControl.
Record t := mk {
  credits : Z;
  paused : bool;
  unknown : UnknownFields;
}.
#[global] Instance eta_t : Eta t := fun m => mk (credits m) (paused m) (unknown m).

Definition default_message : t := mk 0 false no_unknown.

Definition encode (m : t) : list Z :=
  finish (when (negb (credits m =? 0)) (put_varint 1 (credits m))
    ++ when (paused m) (put_varint 2 1))
    (unknown m).

Definition merge_field {Mem : Memory} (m : t) (f : Field) : option (D t) :=
  match number f with
  | 1 => Some (let! v := of_result (decode_u32 f) in ret (m <| credits := v |>))
  | 2 => Some (let! v := of_result (decode_field_varint f) in ret (m <| paused := negb (v =? 0) |>))
  | _ => None
  end.

#[global] Instance codec : Message t := {
  encode_message := encode; empty_message := default_message; merge_field_of := @merge_field;
  unknown_of := unknown; with_unknown m u := m <| unknown := u |> }.
End FlowControl.

Module Shutdown.
Record t := mk {
  immediate : bool;
  unknown : UnknownFields;
}.
#[global] Instance eta_t : Eta t := fun m => mk (immediate m) (unknown m).

Definition default_message : t := mk false no_unknown.

Definition encode (m : t) : list Z :=
  finish (when (immediate m) (put_varint 1 1))
    (unknown m).

Definition merge_field {Mem : Memory} (m : t) (f : Field) : option (D t) :=
  match number f with
  | 1 => Some (let! v := of_result (decode_field_varint f) in ret (m <| immediate := negb (v =? 0) |>))
  | _ => None
  end.

#[global] Instance codec : Message t := {
  encode_message := encode; empty_message := default_message; merge_field_of := @merge_field;
  unknown_of := unknown; with_unknown m u := m <| unknown := u |> }.
End Shutdown.

(** * The envelope *)

Inductive Payload : Type :=
| PHandshake (m : Handshake.t)
| PHandshakeAck (m : HandshakeAck.t)
| PSuggest (m : SuggestRequest.t)
| PResults (m : ResultBatch.t)
| PCancel (m : Cancel.t)
| PShutdown (m : Shutdown.t)
| PCatalogRequest (m : CatalogRequest.t)
| PCatalogBatch (m : CatalogBatch.t)
| PExecute (m : ExecuteRequest.t)
| PExecuteResult (m : ExecuteResult.t)
| PConfiguration (m : ConfigurationChange.t)
| PEvent (m : Event.t)
| PLog (m : LogRecord.t)
| PHealthCheck (m : HealthCheck.t)
| PHealthReport (m : HealthReport.t)
| PError (m : StructuredError.t)
| PFlow (m : FlowControl.t)
| PResourceRequest (m : ResourceRequest.t)
| PResourceResponse (m : ResourceResponse.t)
| PLifecycle (m : Lifecycle.t)
| PLifecycleAck (m : LifecycleAck.t)
| PPageRequest (m : PageRequest.t)
| PPageFrame (m : PageFrame.t)
| POpenSurface (m : OpenSurface.t)
| PRawInput (m : RawInput.t)
| PImeEvent (m : ImeEvent.t)
| PNavigate (m : Navigate.t)
| PResize (m : Resize.t)
| PCloseSurface (m : CloseSurface.t)
| PWebFrame (m : WebFrame.t)
| PCaretArea (m : CaretArea.t)
| PLoadState (m : LoadState.t)
| PGone (m : Gone.t).

Definition payload_kind (p : Payload) : string :=
  match p with
  | PHandshake _ => "handshake"
  | PHandshakeAck _ => "handshake_ack"
  | PSuggest _ => "suggest"
  | PResults _ => "results"
  | PCancel _ => "cancel"
  | PShutdown _ => "shutdown"
  | PCatalogRequest _ => "catalog_request"
  | PCatalogBatch _ => "catalog_batch"
  | PExecute _ => "execute"
  | PExecuteResult _ => "execute_result"
  | PConfiguration _ => "configuration"
  | PEvent _ => "event"
  | PLog _ => "log"
  | PHealthCheck _ => "health_check"
  | PHealthReport _ => "health_report"
  | PError _ => "error"
  | PFlow _ => "flow"
  | PResourceRequest _ => "resource_request"
  | PResourceResponse _ => "resource_response"
  | PLifecycle _ => "lifecycle"
  | PLifecycleAck _ => "lifecycle_ack"
  | PPageRequest _ => "page_request"
  | PPageFrame _ => "page_frame"
  | POpenSurface _ => "open_surface"
  | PRawInput _ => "raw_input"
  | PImeEvent _ => "ime_event"
  | PNavigate _ => "navigate"
  | PResize _ => "resize"
  | PCloseSurface _ => "close_surface"
  | PWebFrame _ => "web_frame"
  | PCaretArea _ => "caret_area"
  | PLoadState _ => "load_state"
  | PGone _ => "gone"
  end%string.

Module Envelope.
Record t := mk {
  connection_id : Z;
  request_id : Z;
  generation : Z;
  deadline_ms : Z;
  payload : option Payload;
  unknown : UnknownFields;
}.
#[global] Instance eta_t : Eta t := fun m => mk (connection_id m) (request_id m) (generation m) (deadline_ms m) (payload m) (unknown m).

Definition default_message : t := mk 0 0 0 0 None no_unknown.

Definition encode_payload (p : Payload) : list Z :=
  match p with
  | PHandshake m => put_message 10 m
  | PHandshakeAck m => put_message 11 m
  | PSuggest m => put_message 12 m
  | PResults m => put_message 13 m
  | PCancel m => put_message 14 m
  | PShutdown m => put_message 15 m
  | PCatalogRequest m => put_message 16 m
  | PCatalogBatch m => put_message 17 m
  | PExecute m => put_message 18 m
  | PExecuteResult m => put_message 19 m
  | PConfiguration m => put_message 20 m
  | PEvent m => put_message 21 m
  | PLog m => put_message 22 m
  | PHealthCheck m => put_message 23 m
  | PHealthReport m => put_message 24 m
  | PError m => put_message 25 m
  | PFlow m => put_message 26 m
  | PResourceRequest m => put_message 27 m
  | PResourceResponse m => put_message 28 m
  | PLifecycle m => put_message 29 m
  | PLifecycleAck m => put_message 30 m
  | PPageRequest m => put_message 31 m
  | PPageFrame m => put_message 32 m
  | POpenSurface m => put_message 33 m
  | PRawInput m => put_message 34 m
  | PImeEvent m => put_message 35 m
  | PNavigate m => put_message 36 m
  | PResize m => put_message 37 m
  | PCloseSurface m => put_message 38 m
  | PWebFrame m => put_message 39 m
  | PCaretArea m => put_message 40 m
  | PLoadState m => put_message 41 m
  | PGone m => put_message 42 m
  end.

Definition encode (m : t) : list Z :=
  finish (when (negb (connection_id m =? 0)) (put_varint 1 (connection_id m))
    ++ when (negb (request_id m =? 0)) (put_varint 2 (request_id m))
    ++ when (negb (generation m =? 0)) (put_varint 3 (generation m))
    ++ when (negb (deadline_ms m =? 0)) (put_varint 4 (deadline_ms m))
    ++ match payload m with Some p => encode_payload p | None => [] end)
    (unknown m).

Definition merge_field {Mem : Memory} (m : t) (f : Field) : option (D t) :=
  match number f with
  | 1 => Some (let! x := of_result (decode_field_varint f) in ret (m <| connection_id := x |>))
  | 2 => Some (let! x := of_result (decode_field_varint f) in ret (m <| request_id := x |>))
  | 3 => Some (let! x := of_result (decode_field_varint f) in ret (m <| generation := x |>))
  | 4 => Some (let! x := of_result (decode_field_varint f) in ret (m <| deadline_ms := x |>))
  | 10 => Some (let! x := nested f in ret (m <| payload := Some (PHandshake x) |>))
  | 11 => Some (let! x := nested f in ret (m <| payload := Some (PHandshakeAck x) |>))
  | 12 => Some (let! x := nested f in ret (m <| payload := Some (PSuggest x) |>))
  | 13 => Some (let! x := nested f in ret (m <| payload := Some (PResults x) |>))
  | 14 => Some (let! x := nested f in ret (m <| payload := Some (PCancel x) |>))
  | 15 => Some (let! x := nested f in ret (m <| payload := Some (PShutdown x) |>))
  | 16 => Some (let! x := nested f in ret (m <| payload := Some (PCatalogRequest x) |>))
  | 17 => Some (let! x := nested f in ret (m <| payload := Some (PCatalogBatch x) |>))
  | 18 => Some (let! x := nested f in ret (m <| payload := Some (PExecute x) |>))
  | 19 => Some (let! x := nested f in ret (m <| payload := Some (PExecuteResult x) |>))
  | 20 => Some (let! x := nested f in ret (m <| payload := Some (PConfiguration x) |>))
  | 21 => Some (let! x := nested f in ret (m <| payload := Some (PEvent x) |>))
  | 22 => Some (let! x := nested f in ret (m <| payload := Some (PLog x) |>))
  | 23 => Some (let! x := nested f in ret (m <| payload := Some (PHealthCheck x) |>))
  | 24 => Some (let! x := nested f in ret (m <| payload := Some (PHealthReport x) |>))
  | 25 => Some (let! x := nested f in ret (m <| payload := Some (PError x) |>))
  | 26 => Some (let! x := nested f in ret (m <| payload := Some (PFlow x) |>))
  | 27 => Some (let! x := nested f in ret (m <| payload := Some (PResourceRequest x) |>))
  | 28 => Some (let! x := nested f in ret (m <| payload := Some (PResourceResponse x) |>))
  | 29 => Some (let! x := nested f in ret (m <| payload := Some (PLifecycle x) |>))
  | 30 => Some (let! x := nested f in ret (m <| payload := Some (PLifecycleAck x) |>))
  | 31 => Some (let! x := nested f in ret (m <| payload := Some (PPageRequest x) |>))
  | 32 => Some (let! x := match payload m with Some (PPageFrame p) => merge_nested p f | _ => nested f end in
             ret (m <| payload := Some (PPageFrame x) |>))
  | 33 => Some (let! x := match payload m with Some (POpenSurface p) => merge_nested p f | _ => nested f end in
             ret (m <| payload := Some (POpenSurface x) |>))
  | 34 => Some (let! x := match payload m with Some (PRawInput p) => merge_nested p f | _ => nested f end in
             ret (m <| payload := Some (PRawInput x) |>))
  | 35 => Some (let! x := match payload m with Some (PImeEvent p) => merge_nested p f | _ => nested f end in
             ret (m <| payload := Some (PImeEvent x) |>))
  | 36 => Some (let! x := match payload m with Some (PNavigate p) => merge_nested p f | _ => nested f end in
             ret (m <| payload := Some (PNavigate x) |>))
  | 37 => Some (let! x := match payload m with Some (PResize p) => merge_nested p f | _ => nested f end in
             ret (m <| payload := Some (PResize x) |>))
  | 38 => Some (let! x := match payload m with Some (PCloseSurface p) => merge_nested p f | _ => nested f end in
             ret (m <| payload := Some (PCloseSurface x) |>))
  | 39 => Some (let! x := match payload m with Some (PWebFrame p) => merge_nested p f | _ => nested f end in
             ret (m <| payload := Some (PWebFrame x) |>))
  | 40 => Some (let! x := match payload m with Some (PCaretArea p) => merge_nested p f | _ => nested f end in
             ret (m <| payload := Some (PCaretArea x) |>))
  | 41 => Some (let! x := match payload m with Some (PLoadState p) => merge_nested p f | _ => nested f end in
             ret (m <| payload := Some (PLoadState x) |>))
  | 42 => Some (let! x := match payload m with Some (PGone p) => merge_nested p f | _ => nested f end in
             ret (m <| payload := Some (PGone x) |>))
  | _ => None
  end.

#[global] Instance codec : Message t := {
  encode_message := encode; empty_message := default_message; merge_field_of := @merge_field;
  unknown_of := unknown; with_unknown m u := m <| unknown := u |> }.
End Envelope.

(** * Sizing a batch *)

Definition BATCH_OVERHEAD_RESERVE : Z := 64 * 1024.

Section Sizing.
Context {Mem : Memory}.

Definition unknown_charge (u : UnknownFields) : Z := saturating_mul usize_max (len (unknown_bytes u)) 2.

Definition add (x y : Z) : Z := saturating_add usize_max x y.

(** A loop that accounts for the elements of a repeated field and their own charges. *)
Definition charge_repeated {T} (layout : Layout) (own : T -> Z) (l : list T) (charge : Z) : RepeatedFieldCharge * Z :=
  foldl (fun rc x => (push_charge rc.1, add rc.2 (own x))) (new_repeated layout, charge) l.

(** [Action::decode_charge]. *)
Definition action_decode_charge (a : Action.t) : Z :=
  let charge := foldl (fun charge text => add charge (len text)) (len (Action.action_id a))
    [Action.label a; Action.description a; Action.icon_reference a; Action.execution_policy a] in
  let (categories, charge) := charge_repeated LString len (Action.applicable_categories a) charge in
  add (add charge (charged categories)) (unknown_charge (Action.unknown a)).

(** [Item::decode_charge]. *)
Definition item_decode_charge (i : Item.t) : Z :=
  let charge := foldl (fun charge text => add charge (len text)) (len (Item.stable_id i))
    [Item.label i; Item.description i; Item.target i; Item.category i; Item.icon_reference i; Item.argument_policy i; Item.hit_policy i] in
  let (terms, charge) := charge_repeated LString len (Item.search_terms i) charge in
  let charge := add charge (charged terms) in
  let charge := foldl (fun charge entry => add (add (add charge map_entry_charge) (len entry.1)) (len entry.2)) charge (Item.metadata i) in
  let (actions, charge) := charge_repeated LAction action_decode_charge (Item.actions i) charge in
  add (add charge (charged actions)) (unknown_charge (Item.unknown i)).

(** The loop of [max_decodable_items] from the item at [index] on. *)
Fixpoint max_decodable_loop (ceiling : Z) (index : nat) (vector : RepeatedFieldCharge) (contents : Z) (items : list Item.t) : nat :=
  match items with
  | [] => index
  | item :: rest =>
      let vector := push_charge vector in
      let contents := add contents (item_decode_charge item) in
      if ceiling <? add (charged vector) contents then Nat.max index 1
      else max_decodable_loop ceiling (S index) vector contents rest
  end.

Definition max_decodable_items (items : list Item.t) : nat :=
  max_decodable_loop (saturating_sub DECODE_ALLOCATION_BUDGET BATCH_OVERHEAD_RESERVE) 0 (new_repeated LItem) 0 items.

End Sizing.

(** * Web frames *)

Definition MAX_WEB_FRAME_BYTES : Z := 2 * 1024 * 1024.
Definition MAX_WEB_FRAME_EDGE : Z := 4096.

Inductive WebFrameError : Type :=
| EdgeOutOfRange (pixel_width pixel_height : Z)
| ByteCountMismatch (expected actual : Z)
| TooLarge (bytes : Z).

(** [WebFrame::validate]. *)
Definition validate_web_frame (f : WebFrame.t) : result unit WebFrameError :=
  let w := WebFrame.pixel_width f in
  let h := WebFrame.pixel_height f in
  if (w =? 0) || (h =? 0) || (MAX_WEB_FRAME_EDGE <? w) || (MAX_WEB_FRAME_EDGE <? h) then Err (EdgeOutOfRange w h)
  else
    let expected := w * h * 4 in
    if negb (expected =? len (WebFrame.rgba8 f)) then Err (ByteCountMismatch expected (len (WebFrame.rgba8 f)))
    else if MAX_WEB_FRAME_BYTES <? expected then Err (TooLarge expected)
    else Ok ().
