(* ===== verification/MessageFacts.v ===== *)
(** Decoding the messages of the native protocol: every decoder returns, without
    a panic and within its budget ([total]), and how a message is read back field
    by field.

    [merges] says what a stretch of bytes does to a message, wherever it stands
    in the input, what that costs and how deeply it nests; a lemma per kind of
    field ([field_u64], [field_string], [field_messages], ...) derives it from
    the branch of the message's [merge_field], and the class [Faithful] collects
    the messages that are read back as they were written. *)

From S2P Require Import Prelude Text Utf8 Items Wire WireFacts Message.

(** * Totality *)

Definition settled (b : DecodeBudget) : Prop := 0 <= budget_remaining b /\ 0 <= budget_depth b.

(** The decoder returns, and its budget only shrinks. *)
Definition total {A} (d : D A) : Prop :=
  forall b, settled b -> exists b' r, d b = Some (b', r) /\ settled b' /\ budget_depth b' = budget_depth b /\ budget_remaining b' <= budget_remaining b.

(** [size_of] is a size. *)
Class Sized (Mem : Memory) : Prop := size_of_nonneg : forall l, 0 <= size_of l.

Create HintDb total discriminated.

Lemma total_ret {A} (a : A) : total (ret a).
Proof. intros b Hb. exists b, (Ok a). done. Qed.

Lemma total_of_result {A} (r : result A ProtocolError) : total (of_result r).
Proof. intros b Hb. exists b, r. done. Qed.

Lemma total_bind {A B} (d : D A) (k : A -> D B) : total d -> (forall a, total (k a)) -> total (bind d k).
Proof.
  intros Hd Hk b Hb. destruct (Hd b Hb) as (b1 & r & E & Hb1 & Hd1 & Hr1). unfold bind. rewrite E. cbn [mbind option_bind].
  destruct r as [a|e]; [|by exists b1, (Err e)]. destruct (Hk a b1 Hb1) as (b2 & r2 & -> & Hb2 & Hd2 & Hr2). exists b2, r2. split_and!; (done || lia).
Qed.

Lemma total_charge amount : 0 <= amount -> total (charge_budget amount).
Proof.
  intros Ha b Hb. unfold charge_budget, charge. destruct (Z.ltb_spec (budget_remaining b) amount); eexists _, _; (split; [reflexivity|]); [done|].
  unfold settled in *. cbn. lia.
Qed.

#[export] Hint Resolve total_ret total_of_result total_charge : total.

Lemma total_if {A} (t : bool) (d e : D A) : total d -> total e -> total (if t then d else e).
Proof. by destruct t. Qed.

Lemma charge_nonneg {A} (l : list A) : 0 <= len l.
Proof. apply len_nonneg. Qed.
#[export] Hint Resolve charge_nonneg : total.

(** Walks through a decoder. *)
Ltac walk := repeat first
  [ apply total_ret | apply total_of_result | apply total_bind; [|intros ?] | apply total_if
  | progress (auto with total nocore) | case_match ].

Section Total.
Context {Mem : Memory} {Z_ : Sized Mem}.

Lemma total_decode_string f : total (decode_string f).
Proof. unfold decode_string. walk. Qed.

Lemma total_decode_raw_bytes f : total (decode_raw_bytes f).
Proof.
  intros b Hb. unfold decode_raw_bytes, decode_bytes. destruct (negb _); [by eexists _, _|]. pose proof (len_nonneg (field_value f)).
  destruct (total_charge (len (field_value f)) ltac:(done) b Hb) as (b' & r & E & Hr). unfold charge_budget in E. injection E as E. rewrite E.
  destruct r; [|by eexists _, _]. destruct (negb _); by eexists _, _.
Qed.

Lemma growth_nonneg n g : growth_of n = Some g -> 0 <= g.
Proof.
  unfold growth_of. destruct (_ =? _); [|by intros [= <-]]. intros (t & _ & E)%bind_Some. apply checked_sub_Some in E as [-> ?]. lia.
Qed.

Lemma allocation_nonneg l g a : 0 <= g -> allocation_of (size_of l) g = Some a -> 0 <= a.
Proof.
  intros Hg. pose proof (size_of_nonneg l). unfold allocation_of, checked_mul, checked_add, DECODE_REPETITION_OVERHEAD. intros E.
  repeat (case_match; cbn [mbind option_bind] in E; simplify_eq). nia.
Qed.

Lemma total_push_decoded {T} l (values : list T) v : total (push_decoded l values v).
Proof.
  unfold push_decoded. destruct (growth_of _) as [g|] eqn:Eg; [|walk]. apply growth_nonneg in Eg.
  destruct (allocation_of _ _) as [a|] eqn:Ea; [|walk]. apply allocation_nonneg in Ea; [|done]. walk.
Qed.

Lemma total_push_raw_bounded u l : total (push_raw_bounded u l).
Proof.
  unfold push_raw_bounded. destruct (checked_add _ _ _) as [required|]; [|walk]. destruct (Z.ltb_spec (unknown_capacity u) required); [|walk].
  destruct (doubled ← _; _) as [g|] eqn:Eg; [|walk]. assert (0 <= g); [|walk].
  apply bind_Some in Eg as (d & _ & E). apply checked_sub_Some in E as [-> ?]. lia.
Qed.

Lemma total_insert_map m k v : total (insert_map m k v).
Proof.
  unfold insert_map, charge_map_entry, map_entry_charge, DECODE_REPETITION_OVERHEAD. pose proof (size_of_nonneg LEntry).
  assert (0 <= saturating_add usize_max (size_of LEntry) 64) by (unfold saturating_add, usize_max, u64_max; lia). walk.
Qed.

(** A loop over the fields of an input, one turn. *)
Lemma total_read {A} bytes cursor (k : Z -> Field -> D A) :
  0 <= cursor -> (forall next f, read_ok bytes cursor next f -> total (k next f)) ->
  total (fun b => '(next, r) ← read_field bytes cursor; (let! f := of_result r in k next f) b).
Proof.
  intros Hc Hk b Hb. destruct (read_field_spec bytes cursor Hc) as (next & r & -> & Hr). cbn [mbind option_bind].
  destruct r as [f|e]; [|by exists b, (Err e)]. exact (Hk next f (Hr f eq_refl) b Hb).
Qed.

Lemma total_map_entry_loop fuel bytes cursor entry :
  0 <= cursor <= len bytes -> len bytes - cursor < Z.of_nat fuel -> total (map_entry_loop fuel bytes cursor entry).
Proof.
  revert cursor entry. induction fuel as [|fuel IH]; intros cursor entry Hc Hf; [lia|]. cbn [map_entry_loop].
  assert (Hread := total_read bytes cursor (fun next f => match number f with
    | 1 => let! key := decode_string f in map_entry_loop fuel bytes next (key, entry.1.2, entry.2)
    | 2 => let! value := decode_string f in map_entry_loop fuel bytes next (entry.1.1, value, entry.2)
    | _ => map_entry_loop fuel bytes next (entry.1, true)
    end) ltac:(lia)).
  intros b Hb. destruct (len bytes <=? cursor); [by apply total_ret|]. apply Hread; [|done].
  intros next f (Hn & _). assert (Hrec : forall e, total (map_entry_loop fuel bytes next e)) by (intros e; apply IH; lia).
  repeat case_match; try apply Hrec; (apply total_bind; [apply total_decode_string | done]).
Qed.

Lemma total_map_entry f : total (map_entry f).
Proof. unfold map_entry. apply total_bind; [walk | intros _]. apply total_map_entry_loop; unfold len; lia. Qed.

(** The messages whose fields are merged by total decoders. *)
Class TotalMessage (A : Type) {M : Message A} : Prop := total_field : forall (m : A) f d, merge_field_of Mem m f = Some d -> total d.

Section Message.
Context {A : Type} {M : Message A} {T : TotalMessage A}.

Lemma total_merge_loop fuel bytes cursor (m : A) :
  0 <= cursor <= len bytes -> len bytes - cursor < Z.of_nat fuel -> total (merge_loop fuel bytes cursor m).
Proof.
  revert cursor m. induction fuel as [|fuel IH]; intros cursor m Hc Hf; [lia|]. cbn [merge_loop].
  assert (Hread := total_read bytes cursor (fun next f => let! m := merge_one m f bytes cursor in merge_loop fuel bytes next m) ltac:(lia)).
  intros b Hb. destruct (len bytes <=? cursor); [by apply total_ret|]. apply Hread; [|done].
  intros next f (Hn & Hend & _). apply total_bind; [|intros m'; apply IH; lia]. unfold merge_one.
  destruct (merge_field_of Mem m f) as [d|] eqn:E; [by apply total_field in E|]. rewrite Hend, (slice_Some bytes cursor next) by lia.
  cbn [mbind option_bind]. apply total_bind; [apply total_push_raw_bounded | intros u; apply total_ret].
Qed.

Lemma total_merge (m : A) bytes : total (merge_with_budget m bytes).
Proof. apply total_merge_loop; unfold len; lia. Qed.

Lemma total_down (d : D A) : total d -> total (one_level_down d).
Proof.
  intros Hd b Hb. unfold one_level_down, enter_nested. destruct (Z.leb_spec MAX_DECODE_DEPTH (budget_depth b)); [by eexists _, _|].
  destruct (Hd (b <| budget_depth ::= fun d => d + 1 |>)) as (b' & r & -> & Hb' & Hdep & Hrem); [unfold settled in *; cbn; lia|].
  cbn [mbind option_bind]. unfold leave_nested. cbn in Hdep, Hrem. unfold settled in *. rewrite checked_sub_le by lia. cbn [mbind option_bind].
  eexists _, r. split; [reflexivity|]. cbn. lia.
Qed.

Lemma total_nested f : total (nested (A := A) f).
Proof. unfold nested. apply total_bind; [walk | intros _]. apply total_down, total_merge. Qed.

Lemma total_merge_nested (m : A) f : total (merge_nested m f).
Proof. unfold merge_nested. apply total_bind; [walk | intros _]. apply total_down, total_merge. Qed.

End Message.
End Total.

#[export] Hint Resolve total_decode_string total_decode_raw_bytes total_push_decoded total_push_raw_bounded total_insert_map total_map_entry
  total_nested total_merge_nested : total.
(** ** Every message *)

Ltac total_fields :=
  repeat match goal with |- match ?n with _ => _ end = _ -> _ => destruct n; try done end;
  intros H; injection H as <-;
  repeat first [apply total_nested | apply total_merge_nested | apply total_map_entry | apply total_insert_map | apply total_ret | apply total_bind; [|intros ?] | progress (auto with total nocore) | case_match].

Section Instances.
Context {Mem : Memory} {Z_ : Sized Mem}.

#[global] Instance total_Handshake : TotalMessage Handshake.t.
Proof. intros m f d. change (Handshake.merge_field m f = Some d -> total d). unfold Handshake.merge_field. total_fields. Qed.

#[global] Instance total_HandshakeAck : TotalMessage HandshakeAck.t.
Proof. intros m f d. change (HandshakeAck.merge_field m f = Some d -> total d). unfold HandshakeAck.merge_field. total_fields. Qed.

#[global] Instance total_Lifecycle : TotalMessage Lifecycle.t.
Proof. intros m f d. change (Lifecycle.merge_field m f = Some d -> total d). unfold Lifecycle.merge_field. total_fields. Qed.

#[global] Instance total_StructuredError : TotalMessage StructuredError.t.
Proof. intros m f d. change (StructuredError.merge_field m f = Some d -> total d). unfold StructuredError.merge_field. total_fields. Qed.

#[global] Instance total_LifecycleAck : TotalMessage LifecycleAck.t.
Proof. intros m f d. change (LifecycleAck.merge_field m f = Some d -> total d). unfold LifecycleAck.merge_field. total_fields. Qed.

#[global] Instance total_CatalogRequest : TotalMessage CatalogRequest.t.
Proof. intros m f d. change (CatalogRequest.merge_field m f = Some d -> total d). unfold CatalogRequest.merge_field. total_fields. Qed.

#[global] Instance total_Action : TotalMessage Action.t.
Proof. intros m f d. change (Action.merge_field m f = Some d -> total d). unfold Action.merge_field. total_fields. Qed.

#[global] Instance total_Item : TotalMessage Item.t.
Proof. intros m f d. change (Item.merge_field m f = Some d -> total d). unfold Item.merge_field. total_fields. Qed.

#[global] Instance total_CatalogBatch : TotalMessage CatalogBatch.t.
Proof. intros m f d. change (CatalogBatch.merge_field m f = Some d -> total d). unfold CatalogBatch.merge_field. total_fields. Qed.

#[global] Instance total_SuggestRequest : TotalMessage SuggestRequest.t.
Proof. intros m f d. change (SuggestRequest.merge_field m f = Some d -> total d). unfold SuggestRequest.merge_field. total_fields. Qed.

#[global] Instance total_ResultBatch : TotalMessage ResultBatch.t.
Proof. intros m f d. change (ResultBatch.merge_field m f = Some d -> total d). unfold ResultBatch.merge_field. total_fields. Qed.

#[global] Instance total_Cancel : TotalMessage Cancel.t.
Proof. intros m f d. change (Cancel.merge_field m f = Some d -> total d). unfold Cancel.merge_field. total_fields. Qed.

#[global] Instance total_ExecuteRequest : TotalMessage ExecuteRequest.t.
Proof. intros m f d. change (ExecuteRequest.merge_field m f = Some d -> total d). unfold ExecuteRequest.merge_field. total_fields. Qed.

#[global] Instance total_ExecuteResult : TotalMessage ExecuteResult.t.
Proof. intros m f d. change (ExecuteResult.merge_field m f = Some d -> total d). unfold ExecuteResult.merge_field. total_fields. Qed.

#[global] Instance total_PageInput : TotalMessage PageInput.t.
Proof. intros m f d. change (PageInput.merge_field m f = Some d -> total d). unfold PageInput.merge_field. total_fields. Qed.

#[global] Instance total_PageImage : TotalMessage PageImage.t.
Proof. intros m f d. change (PageImage.merge_field m f = Some d -> total d). unfold PageImage.merge_field. total_fields. Qed.

#[global] Instance total_PageNode : TotalMessage PageNode.t.
Proof. intros m f d. change (PageNode.merge_field m f = Some d -> total d). unfold PageNode.merge_field. total_fields. Qed.

#[global] Instance total_PageRequest : TotalMessage PageRequest.t.
Proof. intros m f d. change (PageRequest.merge_field m f = Some d -> total d). unfold PageRequest.merge_field. total_fields. Qed.

#[global] Instance total_PageWebSurface : TotalMessage PageWebSurface.t.
Proof. intros m f d. change (PageWebSurface.merge_field m f = Some d -> total d). unfold PageWebSurface.merge_field. total_fields. Qed.

#[global] Instance total_PageFrame : TotalMessage PageFrame.t.
Proof. intros m f d. change (PageFrame.merge_field m f = Some d -> total d). unfold PageFrame.merge_field. total_fields. Qed.

#[global] Instance total_OpenSurface : TotalMessage OpenSurface.t.
Proof. intros m f d. change (OpenSurface.merge_field m f = Some d -> total d). unfold OpenSurface.merge_field. total_fields. Qed.

#[global] Instance total_RawInput : TotalMessage RawInput.t.
Proof. intros m f d. change (RawInput.merge_field m f = Some d -> total d). unfold RawInput.merge_field. total_fields. Qed.

#[global] Instance total_ImeEvent : TotalMessage ImeEvent.t.
Proof. intros m f d. change (ImeEvent.merge_field m f = Some d -> total d). unfold ImeEvent.merge_field. total_fields. Qed.

#[global] Instance total_Navigate : TotalMessage Navigate.t.
Proof. intros m f d. change (Navigate.merge_field m f = Some d -> total d). unfold Navigate.merge_field. total_fields. Qed.

#[global] Instance total_Resize : TotalMessage Resize.t.
Proof. intros m f d. change (Resize.merge_field m f = Some d -> total d). unfold Resize.merge_field. total_fields. Qed.

#[global] Instance total_CloseSurface : TotalMessage CloseSurface.t.
Proof. intros m f d. change (CloseSurface.merge_field m f = Some d -> total d). unfold CloseSurface.merge_field. total_fields. Qed.

#[global] Instance total_WebFrame : TotalMessage WebFrame.t.
Proof. intros m f d. change (WebFrame.merge_field m f = Some d -> total d). unfold WebFrame.merge_field. total_fields. Qed.

#[global] Instance total_CaretArea : TotalMessage CaretArea.t.
Proof. intros m f d. change (CaretArea.merge_field m f = Some d -> total d). unfold CaretArea.merge_field. total_fields. Qed.

#[global] Instance total_LoadState : TotalMessage LoadState.t.
Proof. intros m f d. change (LoadState.merge_field m f = Some d -> total d). unfold LoadState.merge_field. total_fields. Qed.

#[global] Instance total_Gone : TotalMessage Gone.t.
Proof. intros m f d. change (Gone.merge_field m f = Some d -> total d). unfold Gone.merge_field. total_fields. Qed.

#[global] Instance total_ConfigurationChange : TotalMessage ConfigurationChange.t.
Proof. intros m f d. change (ConfigurationChange.merge_field m f = Some d -> total d). unfold ConfigurationChange.merge_field. total_fields. Qed.

#[global] Instance total_Event : TotalMessage Event.t.
Proof. intros m f d. change (Event.merge_field m f = Some d -> total d). unfold Event.merge_field. total_fields. Qed.

#[global] Instance total_ResourceRequest : TotalMessage ResourceRequest.t.
Proof. intros m f d. change (ResourceRequest.merge_field m f = Some d -> total d). unfold ResourceRequest.merge_field. total_fields. Qed.

#[global] Instance total_ResourceResponse : TotalMessage ResourceResponse.t.
Proof. intros m f d. change (ResourceResponse.merge_field m f = Some d -> total d). unfold ResourceResponse.merge_field. total_fields. Qed.

#[global] Instance total_LogRecord : TotalMessage LogRecord.t.
Proof. intros m f d. change (LogRecord.merge_field m f = Some d -> total d). unfold LogRecord.merge_field. total_fields. Qed.

#[global] Instance total_HealthCheck : TotalMessage HealthCheck.t.
Proof. intros m f d. change (HealthCheck.merge_field m f = Some d -> total d). unfold HealthCheck.merge_field. total_fields. Qed.

#[global] Instance total_HealthReport : TotalMessage HealthReport.t.
Proof. intros m f d. change (HealthReport.merge_field m f = Some d -> total d). unfold HealthReport.merge_field. total_fields. Qed.

#[global] Instance total_FlowControl : TotalMessage FlowControl.t.
Proof. intros m f d. change (FlowControl.merge_field m f = Some d -> total d). unfold FlowControl.merge_field. total_fields. Qed.

#[global] Instance total_Shutdown : TotalMessage Shutdown.t.
Proof. intros m f d. change (Shutdown.merge_field m f = Some d -> total d). unfold Shutdown.merge_field. total_fields. Qed.

#[global] Instance total_Envelope : TotalMessage Envelope.t.
Proof. intros m f d. change (Envelope.merge_field m f = Some d -> total d). unfold Envelope.merge_field. total_fields. Qed.

End Instances.

(** * What is written is read back *)

(** Memory does not run out, and elements have reasonable sizes. *)
Class Ample (Mem : Memory) : Prop := { reserve_succeeds : forall n, reserve n = true; size_of_bounded : forall l, 0 <= size_of l <= u32_max }.

#[export] Instance Ample_Sized (Mem : Memory) {H : Ample Mem} : Sized Mem.
Proof. intros l. apply size_of_bounded. Qed.

(** The decoder fails for want of budget, back at the depth it started from. *)
Definition over_budget {A} (depth : Z) (o : option (DecodeBudget * result A ProtocolError)) : Prop :=
  exists b requested remaining, o = Some (b, Err (DecodeBudgetExceeded requested remaining)) /\ budget_depth b = depth.

Definition spend (b : DecodeBudget) (c : Z) : DecodeBudget := b <| budget_remaining := budget_remaining b - c |>.

Lemma spend_0 b : spend b 0 = b.
Proof. destruct b. unfold spend. cbn. by rewrite Z.sub_0_r. Qed.

Lemma spend_spend b c c' : spend (spend b c) c' = spend b (c + c').
Proof. destruct b. unfold spend. cbn. by rewrite Z.sub_add_distr. Qed.

(** The budget covers [c] and leaves room for [h] more levels. *)
Definition ready (b : DecodeBudget) (h : Z) : Prop := settled b /\ budget_depth b + h <= MAX_DECODE_DEPTH.

Lemma ready_spend b h c : ready b h -> c <= budget_remaining b -> ready (spend b c) h.
Proof. unfold ready, settled, spend. cbn. lia. Qed.

Lemma ready_le b h h' : ready b h -> h' <= h -> ready b h'.
Proof. intros [Hs Hd] Hh. split; [done | lia]. Qed.

(** The decoder returns [a] for [c] bytes of the budget, [h] levels down, and
    nothing but the budget makes it fail. *)
Definition yields {A} (d : D A) (a : A) (c h : Z) : Prop :=
  0 <= c /\ forall b, ready b h -> if c <=? budget_remaining b then d b = Some (spend b c, Ok a) else over_budget (budget_depth b) (d b).

Lemma yields_ret {A} (a : A) h : yields (ret a) a 0 h.
Proof. split; [done|]. intros b [Hb _]. unfold settled in Hb. destruct (Z.leb_spec 0 (budget_remaining b)); [by rewrite spend_0 | lia]. Qed.

Lemma yields_of_result {A} (a : A) r h : r = Ok a -> yields (of_result r) a 0 h.
Proof. intros ->. apply yields_ret. Qed.

Lemma yields_charge c h : 0 <= c -> yields (charge_budget c) () c h.
Proof.
  intros Hc. split; [done|]. intros b _. unfold charge_budget, charge. rewrite (Z.ltb_antisym c). destruct (c <=? budget_remaining b); cbn [negb]; [done|].
  by eexists _, _, _.
Qed.

Lemma yields_bind {A B} (d : D A) (k : A -> D B) a x c c' h : yields d a c h -> yields (k a) x c' h -> yields (bind d k) x (c + c') h.
Proof.
  intros [Hc Hd] [Hc' Hk]. split; [lia|]. intros b Hb. specialize (Hd b Hb). unfold bind.
  destruct (Z.leb_spec c (budget_remaining b)) as [Hle|Hlt].
  - rewrite Hd. cbn [mbind option_bind]. specialize (Hk (spend b c) (ready_spend b h c Hb Hle)). rewrite spend_spend in Hk. revert Hk. change (budget_remaining (spend b c)) with (budget_remaining b - c).
    destruct (Z.leb_spec c' (budget_remaining b - c)), (Z.leb_spec (c + c') (budget_remaining b)); (done || lia).
  - destruct Hd as (b' & q & r & -> & Hdep). destruct (Z.leb_spec (c + c') (budget_remaining b)); [lia|]. by exists b', q, r.
Qed.

Lemma yields_cost {A} (d : D A) a c c' h : yields d a c h -> c = c' -> yields d a c' h.
Proof. by intros H <-. Qed.

Lemma yields_le {A} (d : D A) a c h h' : yields d a c h -> h <= h' -> yields d a c h'.
Proof. intros [Hc Hd] Hle. split; [done|]. intros b Hb. apply Hd, (ready_le b h'); done. Qed.

Section RoundTrip.
Context {Mem : Memory} {Am : Ample Mem}.

Lemma yields_string n s f h : carries (FBytes n s) f -> is_Some (from_utf8 s) -> yields (decode_string f) s (len s) h.
Proof.
  intros (_ & _ & Hw & Hv & _) [t Ht]. unfold decode_string. rewrite Hw, Hv, bool_decide_true by done. cbn [negb].
  eapply yields_cost; [eapply yields_bind; [apply yields_charge, len_nonneg|] | apply Z.add_0_r]. cbn beta. rewrite reserve_succeeds, Ht. apply yields_ret.
Qed.

Lemma yields_bytes n s f h : carries (FBytes n s) f -> yields (decode_raw_bytes f) s (len s) h.
Proof.
  intros (_ & _ & Hw & Hv & _). split; [apply len_nonneg|]. intros b Hb. unfold decode_raw_bytes, decode_bytes. rewrite Hw, Hv, bool_decide_true by done. cbn [negb].
  pose proof (yields_charge (len s) h (len_nonneg s)) as [_ H]. specialize (H b Hb). revert H. unfold charge_budget.
  destruct (Z.leb_spec (len s) (budget_remaining b)).
  - intros [= ->]. by rewrite reserve_succeeds.
  - intros (b' & q & r & [= ->] & Hdep). by exists b', q, r.
Qed.

(** What the receiver pays for the element at [index] of a repeated field. *)
Definition push_cost (layout : Layout) (index : nat) : Z :=
  default 0 (g ← growth_of index; allocation_of (size_of layout) g).

Lemma grown_capacity_bounds n : 0 <= n <= i64_max -> exists g, grown_capacity n = Some g /\ n < g <= n + 1024.
Proof.
  unfold i64_max, grown_capacity. intros Hn. destruct (Z.eqb_spec n 0); [exists 4; split; [done | lia]|].
  unfold checked_mul, checked_add, usize_max, u64_max. rewrite !(proj2 (Z.leb_le _ _)) by lia. cbn [mbind option_bind]. eexists. split; [reflexivity | lia].
Qed.

Lemma vec_capacity_bounds n : Z.of_nat n <= i64_max -> Z.of_nat n <= vec_capacity n <= Z.of_nat n + 1024.
Proof.
  unfold i64_max. induction n as [|n IH]; [cbn; lia|]. intros Hn. specialize (IH ltac:(lia)). cbn [vec_capacity].
  destruct (Z.eqb_spec (Z.of_nat n) (vec_capacity n)) as [E|]; [|lia]. rewrite <- E.
  destruct (grown_capacity_bounds (Z.of_nat n)) as (g & -> & Hg); [unfold i64_max; lia|]. cbn [from_option]. unfold id. lia.
Qed.

(** How much a vector grows for its element at [n]. *)
Lemma growth_spec n : Z.of_nat n <= i64_max ->
  growth_of n = Some (vec_capacity (S n) - vec_capacity n) /\ 0 <= vec_capacity (S n) - vec_capacity n <= 1024.
Proof.
  intros Hn. pose proof (vec_capacity_bounds n Hn) as Hc. unfold growth_of. cbn [vec_capacity].
  destruct (Z.eqb_spec (Z.of_nat n) (vec_capacity n)) as [E|]; [|rewrite Z.sub_diag; split; [done | lia]].
  rewrite <- E. destruct (grown_capacity_bounds (Z.of_nat n)) as (g & -> & Hg); [lia|]. cbn [mbind option_bind from_option]. unfold id.
  rewrite checked_sub_le by lia. split; [done | lia].
Qed.

Lemma push_cost_eq layout n : Z.of_nat n <= i64_max ->
  allocation_of (size_of layout) (vec_capacity (S n) - vec_capacity n) = Some (push_cost layout n) /\
  push_cost layout n = (vec_capacity (S n) - vec_capacity n) * size_of layout + size_of layout + DECODE_REPETITION_OVERHEAD.
Proof.
  intros Hn. destruct (growth_spec n Hn) as [E Hg]. unfold push_cost. rewrite E. cbn [mbind option_bind].
  set (g := vec_capacity (S n) - vec_capacity n) in *. pose proof (size_of_bounded layout) as Hs.
  unfold allocation_of, checked_mul, checked_add, usize_max, u64_max, u32_max, DECODE_REPETITION_OVERHEAD in *.
  assert (0 <= g * size_of layout <= 1024 * 4294967295) by nia.
  rewrite !(proj2 (Z.leb_le _ _)) by lia. cbn [mbind option_bind]. rewrite !(proj2 (Z.leb_le _ _)) by lia. cbn [mbind option_bind].
  rewrite !(proj2 (Z.leb_le _ _)) by lia. done.
Qed.

Lemma push_cost_nonneg layout n : 0 <= push_cost layout n.
Proof.
  unfold push_cost. destruct (growth_of n) as [g|] eqn:E; [|done]. cbn [mbind option_bind]. destruct (allocation_of _ g) as [a|] eqn:Ea; [|done].
  apply growth_nonneg in E. by apply allocation_nonneg in Ea.
Qed.

Lemma yields_push {T} layout (l : list T) v h : len l <= MAX_FRAME_BYTES -> yields (push_decoded layout l v) (l ++ [v]) (push_cost layout (length l)) h.
Proof.
  intros Hl. assert (Hn : Z.of_nat (length l) <= i64_max) by (unfold len, MAX_FRAME_BYTES, DECODE_ALLOCATION_BUDGET, i64_max in *; lia).
  destruct (growth_spec _ Hn) as [Eg _], (push_cost_eq layout _ Hn) as [Ea _]. unfold push_decoded. rewrite Eg, Ea.
  eapply yields_cost; [eapply yields_bind; [apply yields_charge, push_cost_nonneg|] | apply Z.add_0_r]. cbn beta. rewrite reserve_succeeds, andb_false_r. apply yields_ret.
Qed.

Lemma yields_insert map key value h : yields (insert_map map key value) (btree_insert map key value) map_entry_charge h.
Proof.
  unfold insert_map, charge_map_entry. eapply yields_cost; [eapply yields_bind; [apply yields_charge | apply yields_ret] | apply Z.add_0_r].
  unfold map_entry_charge, saturating_add, usize_max, u64_max, DECODE_REPETITION_OVERHEAD. pose proof (size_of_bounded LEntry). lia.
Qed.

Lemma yields_ext {A} (d d' : D A) a c h : (forall b, d b = d' b) -> yields d' a c h -> yields d a c h.
Proof. intros E [Hc Hd]. split; [done|]. intros b Hb. rewrite E. by apply Hd. Qed.

Lemma yields_down {A} (d : D A) a c h : yields d a c h -> 0 <= h -> yields (one_level_down d) a c (1 + h).
Proof.
  intros [Hc Hd] Hh. split; [done|]. intros b [Hs Hdep]. unfold one_level_down, enter_nested. destruct (Z.leb_spec MAX_DECODE_DEPTH (budget_depth b)); [lia|].
  set (b1 := b <| budget_depth ::= fun d => d + 1 |>). assert (Hb1 : budget_depth b1 = budget_depth b + 1 /\ budget_remaining b1 = budget_remaining b) by done.
  destruct Hb1 as [Hb1 Hr1], Hs as [Hs1 Hs2]. specialize (Hd b1 ltac:(unfold ready, settled; lia)). rewrite Hr1 in Hd. destruct (c <=? budget_remaining b).
  - rewrite Hd. cbn [mbind option_bind]. unfold leave_nested. change (budget_depth (spend b1 c)) with (budget_depth b1). rewrite Hb1, checked_sub_le by lia.
    cbn [mbind option_bind]. rewrite Z.add_simpl_r. by destruct b.
  - destruct Hd as (b' & q & r & -> & E). cbn [mbind option_bind]. unfold leave_nested. rewrite E, Hb1, checked_sub_le by lia. cbn [mbind option_bind].
    eexists _, q, r. split; [reflexivity|]. cbn. lia.
Qed.

(** ** A map's entries *)

Lemma put_bytes_length n s : len s <= len (put_bytes n s).
Proof. unfold put_bytes. rewrite !len_app. pose proof (len_nonneg (encode_key n WLength)). pose proof (len_nonneg (encode_varint (len s))). lia. Qed.

Lemma yields_entry_end fuel bytes entry h : (0 < fuel)%nat -> yields (map_entry_loop fuel bytes (len bytes) entry) entry 0 h.
Proof. intros Hf. destruct fuel as [|fuel]; [lia|]. cbn [map_entry_loop]. rewrite Z.leb_refl. apply yields_ret. Qed.

Lemma yields_entry_field fuel pre n s post key value e c h :
  n = 1 \/ n = 2 -> is_Some (from_utf8 s) -> len (pre ++ put_string n s ++ post) <= MAX_FRAME_BYTES ->
  yields (map_entry_loop fuel (pre ++ put_string n s ++ post) (len pre + len (put_string n s))
    (if n =? 1 then (s, value, false) else (key, s, false))) e c h ->
  yields (map_entry_loop (S fuel) (pre ++ put_string n s ++ post) (len pre) (key, value, false)) e (len s + c) h.
Proof.
  intros Hn Hs Hl Hd. unfold put_string in *. assert (Hv : valid_number n) by (unfold valid_number; lia).
  unfold MAX_FRAME_BYTES, DECODE_ALLOCATION_BUDGET in Hl.
  destruct (read_put_bytes pre n s post Hv) as (f & E & Hf); [unfold usize_max, u64_max; lia|].
  pose proof (put_field_nonempty (FBytes n s) Hv) as Hne. cbn [put_field] in Hne.
  eapply yields_ext; [|apply (yields_bind (decode_string f) (fun x => map_entry_loop fuel (pre ++ put_bytes n s ++ post) (len pre + len (put_bytes n s))
    (if n =? 1 then (x, value, false) else (key, x, false))) s); [exact (yields_string n s f h Hf Hs) | exact Hd]].
  intros b. cbn [map_entry_loop]. pose proof (len_nonneg post). rewrite (proj2 (Z.leb_gt _ _)) by (rewrite !len_app; lia).
  rewrite E. cbn [mbind option_bind]. change (bind (of_result (Ok f)) ?k b) with (k f b). cbn beta.
  destruct Hf as (_ & -> & _). destruct Hn as [-> | ->]; reflexivity.
Qed.

Lemma yields_entry n key value f h :
  is_Some (from_utf8 key) -> is_Some (from_utf8 value) ->
  carries (FBytes n (when (negb (is_empty key)) (put_string 1 key) ++ when (negb (is_empty value)) (put_string 2 value))) f ->
  len (field_value f) <= MAX_FRAME_BYTES ->
  yields (map_entry f) (key, value, false) (len key + len value) h.
Proof.
  intros Hk Hv (_ & _ & Hw & Hb & _) Hl. unfold map_entry. unfold expect_wire. rewrite Hw, bool_decide_true by done.
  eapply yields_cost; [eapply yields_bind; [apply yields_ret|] | apply Z.add_0_l]. cbn beta. rewrite Hb in *.
  assert (Hend : forall fuel, (length (when (negb (is_empty value)) (put_string 2 value)) < fuel)%nat ->
    forall pre, len (pre ++ when (negb (is_empty value)) (put_string 2 value)) <= MAX_FRAME_BYTES ->
    yields (map_entry_loop fuel (pre ++ when (negb (is_empty value)) (put_string 2 value)) (len pre) (key, [], false)) (key, value, false) (len value) h).
  { intros fuel Hf pre Hpre. destruct value as [|x value]; cbn [is_empty negb when] in *.
    - rewrite app_nil_r. apply yields_entry_end. lia.
    - destruct fuel as [|fuel]; [lia|]. rewrite <- (app_nil_r (put_string 2 _)) in Hpre |- *. rewrite <- (Z.add_0_r (len (x :: value))).
      apply yields_entry_field; [by right | done | done |]. cbn [Z.eqb Pos.eqb]. rewrite app_nil_r, <- len_app. apply yields_entry_end.
      pose proof (put_field_nonempty (FBytes 2 (x :: value)) ltac:(done)) as Hne. unfold len in Hne. cbn [put_field] in Hne. unfold put_string in Hf. lia. }
  destruct key as [|x key]; cbn [is_empty negb when app] in *.
  - exact (Hend _ (Nat.lt_succ_diag_r _) [] Hl).
  - apply (yields_entry_field _ [] 1 (x :: key)); [by left | done | done |]. cbn [Z.eqb Pos.eqb app]. change (len []) with 0. rewrite Z.add_0_l.
    apply Hend; [|done]. rewrite length_app. pose proof (put_field_nonempty (FBytes 1 (x :: key)) ltac:(done)) as Hne. unfold len in Hne. cbn [put_field] in Hne. unfold put_string. lia.
Qed.

(** ** Fields of a message *)

Section Fields.
Context {A : Type} {M : Message A}.

(** The bytes [out], wherever they stand, turn the message [m] into [m']. *)
Definition merges (out : list Z) (m m' : A) (c h : Z) : Prop :=
  0 <= c /\ forall pre post fuel m'' c', len (pre ++ out ++ post) <= MAX_FRAME_BYTES ->
    (forall fuel', len post < Z.of_nat fuel' -> yields (merge_loop fuel' (pre ++ out ++ post) (len pre + len out) m') m'' c' h) ->
    len (out ++ post) < Z.of_nat fuel -> yields (merge_loop fuel (pre ++ out ++ post) (len pre) m) m'' (c + c') h.

Lemma merges_nil m h : merges [] m m 0 h.
Proof. split; [done|]. intros pre post fuel m'' c' Hl Hk Hf. change (len []) with 0 in Hk. rewrite Z.add_0_r in Hk. rewrite Z.add_0_l. by apply Hk. Qed.

Lemma merges_app out1 out2 m m1 m2 c1 c2 h : merges out1 m m1 c1 h -> merges out2 m1 m2 c2 h -> merges (out1 ++ out2) m m2 (c1 + c2) h.
Proof.
  intros [Hc1 H1] [Hc2 H2]. split; [lia|]. intros pre post fuel m'' c' Hl Hk Hf. rewrite <- app_assoc in *. rewrite <- Z.add_assoc.
  apply H1; [done| |done]. intros fuel' Hf'. replace (pre ++ out1 ++ out2 ++ post) with ((pre ++ out1) ++ out2 ++ post) in * by (by rewrite <- app_assoc).
  rewrite <- len_app. apply H2; [done| |done]. intros fuel'' Hf''. rewrite len_app. specialize (Hk fuel'' Hf''). by rewrite len_app, Z.add_assoc in Hk.
Qed.

Lemma merges_cost out m m' c c' h : merges out m m' c h -> c = c' -> merges out m m' c' h.
Proof. by intros H <-. Qed.

Lemma merges_put w m m' c h :
  valid_field w -> 0 <= c ->
  (forall f, carries w f -> len (put_field w) <= MAX_FRAME_BYTES -> exists d, merge_field_of Mem m f = Some d /\ yields d m' c h) ->
  merges (put_field w) m m' c h.
Proof.
  intros Hw Hc0 Hd. split; [done|]. intros pre post fuel m'' c' Hl Hk Hf. pose proof (put_field_nonempty w Hw). pose proof (len_nonneg pre). pose proof (len_nonneg post).
  destruct (read_field_put pre w post Hw) as (f & E & Hf'); [unfold MAX_FRAME_BYTES, DECODE_ALLOCATION_BUDGET in Hl; unfold usize_max, u64_max; lia|].
  destruct (Hd f Hf') as (d & Ed & Hy); [rewrite !len_app in Hl; lia|]. destruct fuel as [|fuel]; [rewrite len_app in Hf; lia|].
  eapply yields_ext; [|apply (yields_bind d (merge_loop fuel (pre ++ put_field w ++ post) (len pre + len (put_field w))) m'); [exact Hy | apply Hk]].
  - intros b. cbn [merge_loop]. rewrite (proj2 (Z.leb_gt _ _)) by (rewrite !len_app; lia). rewrite E. cbn [mbind option_bind].
    change (bind (of_result (Ok f)) ?k b) with (k f b). cbn beta. unfold merge_one. by rewrite Ed.
  - rewrite len_app in Hf. lia.
Qed.

Lemma merges_when test out m m' c h : (test = true -> merges out m m' c h) -> (test = false -> m = m' /\ c = 0) -> merges (when test out) m m' c h.
Proof. destruct test; intros Ht Hf; [by apply Ht|]. destruct (Hf eq_refl) as [<- ->]. apply merges_nil. Qed.

(** A whole message. *)
Lemma yields_merges out m c h : merges out empty_message m c h -> len out <= MAX_FRAME_BYTES -> yields (decode_with_budget out) m c h.
Proof.
  intros [Hc Hm] Hl. specialize (Hm [] [] (S (length out)) m 0). cbn [app] in Hm. rewrite app_nil_r, Z.add_0_r in Hm.
  apply Hm; [done | | unfold len; lia]. intros fuel Hf. change (len []) with 0. rewrite Z.add_0_l. destruct fuel as [|fuel]; [done|].
  eapply yields_ext; [|apply yields_ret]. intros b. cbn [merge_loop]. by rewrite Z.leb_refl.
Qed.

End Fields.
End RoundTrip.

(** ** Messages that are read back *)

(** What a message must satisfy to be written without loss, what reading it back
    costs, and how deeply it nests. *)
Class Faithful (A : Type) {Mem : Memory} {M : Message A} := {
  valid : A -> Prop;
  cost : A -> Z;
  height : Z;
  height_nonneg : 0 <= height;
  reads_back : forall m, valid m -> merges (encode_message m) empty_message m (cost m) height;
}.
Arguments height A {_ _ _}.

Section Kinds.
Context {Mem : Memory} {Am : Ample Mem} {A : Type} {M : Message A}.
Implicit Type m : A.

Lemma merges_scalar {V} w n (dec : Field -> result V ProtocolError) (v : V) (set : V -> A) m h :
  valid_field w -> (forall f, carries w f -> number f = n /\ dec f = Ok v) ->
  (forall f, number f = n -> merge_field_of Mem m f = Some (let! v := of_result (dec f) in ret (set v))) ->
  merges (put_field w) m (set v) 0 h.
Proof.
  intros Hw Hd Hm. apply merges_put; [done | done |]. intros f Hf _. destruct (Hd f Hf) as [Hn Hv]. eexists. split; [by apply Hm|].
  eapply yields_cost; [eapply yields_bind; [by apply yields_of_result | apply yields_ret] | done].
Qed.

Lemma field_u64 n v (set : Z -> A) m h : valid_number n -> in_range u64_max v ->
  (forall f, number f = n -> merge_field_of Mem m f = Some (let! v := of_result (decode_field_varint f) in ret (set v))) -> set 0 = m ->
  merges (when (negb (v =? 0)) (put_varint n v)) m (set v) 0 h.
Proof.
  intros Hn Hv Hm H0. apply merges_when.
  - intros _. by apply (merges_scalar (FVarint n v) n decode_field_varint); [| intros f (_ & Hf) |].
  - intros E. assert (v = 0) as -> by lia. done.
Qed.

Lemma decode_u32_carried n v f : carries (FVarint n v) f -> in_range u32_max v -> decode_u32 f = Ok v.
Proof. intros (_ & _ & E) [_ Hv]. unfold decode_u32. rewrite E. by rewrite (proj2 (Z.leb_le _ _)). Qed.

Lemma field_u32 n v (set : Z -> A) m h : valid_number n -> in_range u32_max v ->
  (forall f, number f = n -> merge_field_of Mem m f = Some (let! v := of_result (decode_u32 f) in ret (set v))) -> set 0 = m ->
  merges (when (negb (v =? 0)) (put_varint n v)) m (set v) 0 h.
Proof.
  intros Hn Hv Hm H0. apply merges_when.
  - intros _. apply (merges_scalar (FVarint n v) n decode_u32); [|intros f Hf; split; [apply Hf | by eapply decode_u32_carried] | done].
    split; [done|]. unfold in_range, u32_max, u64_max in *. lia.
  - intros E. assert (v = 0) as -> by lia. done.
Qed.

Lemma decode_i32_carried n v f : carries (FVarint n (as_u64 v)) f -> -2147483648 <= v <= 2147483647 -> decode_i32 f = Ok v.
Proof.
  intros (_ & _ & E) Hv. unfold decode_i32. rewrite E. unfold as_u64, u64_modulus, u32_max. change 4294967295 with (Z.ones 32).
  rewrite Z.land_ones by lia. change (2 ^ 32) with 4294967296. unfold as_i32_bits. destruct (Z.ltb_spec v 0).
  - rewrite <- (Z_mod_plus_full v 1 18446744073709551616), Z.mul_1_l, Z.mod_small by lia.
    assert (Z.shiftr (v + 18446744073709551616) 32 = 4294967295) as ->.
    { rewrite Z.shiftr_div_pow2 by lia. symmetry. apply (Z.div_unique _ _ _ (v + 4294967296)); change (2 ^ 32) with 4294967296; lia. }
    change (4294967295 =? Z.ones 32) with true. rewrite orb_true_r. do 2 f_equal.
    replace (v + 18446744073709551616) with (v + 4294967296 + 4294967295 * 4294967296) by lia. rewrite Z_mod_plus_full, Z.mod_small by lia.
    destruct (Z.leb_spec (v + 4294967296) 2147483647); lia.
  - rewrite !Z.mod_small by (rewrite ?Z.mod_small; lia). rewrite (proj2 (Z.leb_le v _)) by (change (Z.ones 32) with 4294967295; lia). cbn [orb].
    by rewrite (proj2 (Z.leb_le v 2147483647)) by lia.
Qed.

Lemma as_u64_range v : in_range u64_max (as_u64 v).
Proof. unfold as_u64, in_range, u64_max, u64_modulus. pose proof (Z.mod_pos_bound v 18446744073709551616). lia. Qed.

Lemma field_i32 n v (set : Z -> A) m h : valid_number n -> -2147483648 <= v <= 2147483647 ->
  (forall f, number f = n -> merge_field_of Mem m f = Some (let! v := of_result (decode_i32 f) in ret (set v))) -> set 0 = m ->
  merges (when (negb (v =? 0)) (put_varint n (as_u64 v))) m (set v) 0 h.
Proof.
  intros Hn Hv Hm H0. apply merges_when.
  - intros _. apply (merges_scalar (FVarint n (as_u64 v)) n decode_i32); [|intros f Hf; split; [apply Hf | by eapply decode_i32_carried] | done].
    split; [done | apply as_u64_range].
  - intros E. assert (v = 0) as -> by lia. done.
Qed.

Lemma field_enum {E} n (from : Z -> E) (to : E -> Z) (e : E) (set : E -> A) m h : valid_number n ->
  (forall f, number f = n -> merge_field_of Mem m f = Some (let! v := of_result (decode_i32 f) in ret (set (from v)))) -> set (from 0) = m ->
  (forall e, from (to e) = e) -> (forall e, 0 <= to e <= 100) ->
  merges (when (negb (to e =? 0)) (encode_enum n (to e))) m (set e) 0 h.
Proof.
  intros Hn Hm H0 Hft Hto. specialize (Hto e). apply merges_when.
  - intros Ht. unfold encode_enum, when. rewrite Ht. rewrite <- (Hft e) at 2.
    assert (to e = as_u64 (to e)) as Eu by (unfold as_u64, u64_modulus; rewrite Z.mod_small; lia). rewrite Eu at 1.
    apply (merges_scalar (FVarint n (as_u64 (to e))) n decode_i32 (to e) (fun v => set (from v))); [|intros f Hf; split; [apply Hf|] | done].
    + split; [done | apply as_u64_range].
    + eapply decode_i32_carried; [done | lia].
  - intros Et. split; [|done]. rewrite <- H0, <- (Hft e). f_equal. f_equal. lia.
Qed.

Lemma field_bool n (b : bool) (set : bool -> A) m h : valid_number n ->
  (forall f, number f = n -> merge_field_of Mem m f = Some (let! v := of_result (decode_field_varint f) in ret (set (negb (v =? 0))))) -> set false = m ->
  merges (when b (put_varint n 1)) m (set b) 0 h.
Proof.
  intros Hn Hm H0. apply merges_when; [|by intros ->]. intros ->.
  apply (merges_scalar (FVarint n 1) n decode_field_varint 1 (fun v => set (negb (v =? 0)))); [done | by intros f (_ & Hf) | done].
Qed.

Lemma field_f32 n v (set : Z -> A) m h : valid_number n -> in_range u32_max v -> v <> 2147483648 ->
  (forall f, number f = n -> merge_field_of Mem m f = Some (let! v := of_result (decode_f32 f) in ret (set v))) -> set 0 = m ->
  merges (when (negb (is_zero v)) (put_f32 n v)) m (set v) 0 h.
Proof.
  intros Hn Hv Hz Hm H0. apply merges_when.
  - intros _. by apply (merges_scalar (FFloat n v) n decode_f32); [| intros f (_ & Hf) |].
  - unfold is_zero. intros E. assert (v = 0) as -> by lia. done.
Qed.

Lemma field_string n s (set : list Z -> A) m h : valid_number n -> is_Some (from_utf8 s) ->
  (forall f, number f = n -> merge_field_of Mem m f = Some (let! v := decode_string f in ret (set v))) -> set [] = m ->
  merges (when (negb (is_empty s)) (put_string n s)) m (set s) (len s) h.
Proof.
  intros Hn Hs Hm H0. apply merges_when; [|intros E; by destruct s]. intros _.
  apply (merges_put (FBytes n s)); [done | apply len_nonneg |]. intros f Hf _. eexists. split; [apply Hm, Hf|].
  eapply yields_cost; [eapply yields_bind; [by eapply yields_string | apply yields_ret] | apply Z.add_0_r].
Qed.

Lemma field_bytes n s (set : list Z -> A) m h : valid_number n ->
  (forall f, number f = n -> merge_field_of Mem m f = Some (let! v := decode_raw_bytes f in ret (set v))) -> set [] = m ->
  merges (when (negb (is_empty s)) (put_bytes n s)) m (set s) (len s) h.
Proof.
  intros Hn Hm H0. apply merges_when; [|intros E; by destruct s]. intros _.
  apply (merges_put (FBytes n s)); [done | apply len_nonneg |]. intros f Hf _. eexists. split; [apply Hm, Hf|].
  eapply yields_cost; [eapply yields_bind; [by eapply yields_bytes | apply yields_ret] | apply Z.add_0_r].
Qed.

(** The cost of a repeated field from the element at [index] on. *)
Fixpoint repeated_cost {T} (layout : Layout) (own : T -> Z) (index : nat) (l : list T) : Z :=
  match l with
  | [] => 0
  | x :: l => own x + push_cost layout index + repeated_cost layout own (S index) l
  end.

Lemma repeated_cost_nonneg {T} layout (own : T -> Z) n l : (forall x, x ∈ l -> 0 <= own x) -> 0 <= repeated_cost layout own n l.
Proof.
  intros Ho. revert n. induction l as [|x l IH]; intros n; cbn [repeated_cost]; [done|].
  specialize (IH ltac:(set_solver) (S n)). specialize (Ho x ltac:(set_solver)). pose proof (push_cost_nonneg layout n). lia.
Qed.

Lemma flat_map_length {T} (g : T -> list Z) l : (forall x, x ∈ l -> 0 < len (g x)) -> len l <= len (flat_map g l).
Proof.
  induction l as [|x l IH]; intros Hg; [done|]. cbn [flat_map]. rewrite len_app, len_cons. specialize (Hg x ltac:(set_solver)) as Hx.
  assert (len l <= len (flat_map g l)) by (apply IH; set_solver). lia.
Qed.

Lemma merges_flat_map {T} layout (own : T -> Z) (g : T -> list Z) (upd : list T -> A) l h :
  (forall x, x ∈ l -> 0 <= own x) -> (forall x, x ∈ l -> 0 < len (g x)) ->
  (forall pre x, x ∈ l -> len pre <= MAX_FRAME_BYTES -> merges (g x) (upd pre) (upd (pre ++ [x])) (own x + push_cost layout (length pre)) h) ->
  merges (flat_map g l) (upd []) (upd l) (repeated_cost layout own 0 l) h.
Proof.
  intros Ho Hg Hm. pose proof (flat_map_length g l Hg) as Hlen. pose proof (repeated_cost_nonneg layout own 0 l Ho) as Hc.
  destruct (Z.leb_spec (len l) MAX_FRAME_BYTES) as [Hl|Hl].
  2:{ split; [done|]. intros pre post fuel m'' c' Hb. rewrite !len_app in Hb. pose proof (len_nonneg pre). pose proof (len_nonneg post). lia. }
  change 0%nat with (length (@nil T)). change (upd l) with (upd ([] ++ l)). assert (Hl0 : len (@nil T) + len l <= MAX_FRAME_BYTES) by done.
  clear Hlen Hc Hl Hg Ho. revert Hl0. generalize (@nil T) as l0. induction l as [|x l IH]; intros l0 Hl0; cbn [flat_map repeated_cost].
  - rewrite app_nil_r. apply merges_nil.
  - rewrite len_cons in Hl0. pose proof (len_nonneg l). eapply merges_app; [apply Hm; [set_solver | lia]|].
    replace (l0 ++ x :: l) with ((l0 ++ [x]) ++ l) by (by rewrite <- app_assoc).
    replace (S (length l0)) with (length (l0 ++ [x])) by (rewrite length_app; cbn; lia).
    apply IH; [intros pre y Hy; apply Hm; set_solver|]. rewrite len_app, len_cons, len_nil. lia.
Qed.

Lemma field_strings n l (set : list (list Z) -> A) m h : valid_number n -> Forall (fun s => is_Some (from_utf8 s)) l ->
  (forall pre f, number f = n -> merge_field_of Mem (set pre) f = Some (let! v := decode_string f in let! l := push_decoded LString pre v in ret (set l))) -> set [] = m ->
  merges (flat_map (put_string n) l) m (set l) (repeated_cost LString len 0 l) h.
Proof.
  intros Hn Hs Hm <-. rewrite Forall_forall in Hs. apply merges_flat_map; [intros; apply len_nonneg | intros x _; by apply (put_field_nonempty (FBytes n x)) |].
  intros pre x Hx Hp. apply (merges_put (FBytes n x)); [done | pose proof (len_nonneg x); pose proof (push_cost_nonneg LString (length pre)); lia |].
  intros f Hf _. eexists. split; [apply Hm, Hf|]. eapply yields_cost; [eapply yields_bind; [by eapply yields_string, Hs|]|].
  - cbn beta. eapply yields_bind; [by apply yields_push | apply yields_ret].
  - lia.
Qed.

(** ** Nested messages *)

Section Nested.
Context {B : Type} {MB : Message B} {F : Faithful B}.

Lemma cost_nonneg (x : B) : valid x -> 0 <= cost x.
Proof. intros Hx. exact (proj1 (reads_back x Hx)). Qed.

Lemma yields_merge (x : B) : valid x -> len (encode_message x) <= MAX_FRAME_BYTES -> yields (decode_with_budget (encode_message x)) x (cost x) (height B).
Proof.
  intros Hx Hl. apply yields_merges; [by apply reads_back | done].
Qed.

Lemma yields_nested n (x : B) f : valid x -> carries (FBytes n (encode_message x)) f -> len (encode_message x) <= MAX_FRAME_BYTES ->
  yields (nested f) x (cost x) (1 + height B).
Proof.
  intros Hx (_ & _ & Hw & Hv & _) Hl. unfold nested, expect_wire. rewrite Hw, Hv, bool_decide_true by done.
  eapply yields_cost; [eapply yields_bind; [apply yields_ret|] | apply Z.add_0_l]. cbn beta. apply yields_down; [by apply yields_merge | apply height_nonneg].
Qed.

Lemma merges_nested n (x : B) m m' c h : valid_number n -> valid x -> 1 + height B <= h -> 0 <= c ->
  (forall f, number f = n -> exists k, merge_field_of Mem m f = Some (bind (nested f) k) /\ yields (k x) m' c h) ->
  merges (put_message n x) m m' (cost x + c) h.
Proof.
  intros Hn Hx Hh Hc Hm. pose proof (cost_nonneg x Hx). apply (merges_put (FBytes n (encode_message x))); [done | lia |]. intros f Hf Hl.
  destruct (Hm f (proj1 (proj2 Hf))) as (k & E & Hk). eexists. split; [exact E|]. eapply yields_bind; [|exact Hk].
  eapply yields_le; [|exact Hh]. apply (yields_nested n); [done | done |]. cbn [put_field] in Hl. pose proof (put_bytes_length n (encode_message x)). lia.
Qed.

Lemma field_option n (o : option B) (set : option B -> A) m h : valid_number n -> (forall x, o = Some x -> valid x) -> 1 + height B <= h ->
  (forall f, number f = n -> merge_field_of Mem m f = Some (let! v := nested f in ret (set (Some v)))) -> set None = m ->
  merges (match o with Some v => put_message n v | None => [] end) m (set o) (match o with Some v => cost v | None => 0 end) h.
Proof.
  intros Hn Hv Hh Hm H0. destruct o as [x|]; [|rewrite H0; apply merges_nil].
  eapply merges_cost; [apply (merges_nested n x m _ 0); [done | by apply Hv | done | done |] | lia].
  intros f Hf. eexists. split; [by apply Hm | apply yields_ret].
Qed.

Lemma field_messages n layout (l : list B) (set : list B -> A) m h : valid_number n -> Forall valid l -> 1 + height B <= h ->
  (forall pre f, number f = n -> merge_field_of Mem (set pre) f = Some (let! v := nested f in let! l := push_decoded layout pre v in ret (set l))) -> set [] = m ->
  merges (flat_map (put_message n) l) m (set l) (repeated_cost layout cost 0 l) h.
Proof.
  intros Hn Hs Hh Hm <-. rewrite Forall_forall in Hs. apply merges_flat_map.
  - intros x Hx. by apply cost_nonneg, Hs.
  - intros x _. by apply (put_field_nonempty (FBytes n (encode_message x))).
  - intros pre x Hx Hp. apply merges_nested; [done | by apply Hs | done | apply push_cost_nonneg |]. intros f Hf. eexists. split; [by apply Hm|]. cbn beta.
    eapply yields_cost; [eapply yields_bind; [by apply yields_push | apply yields_ret] | apply Z.add_0_r].
Qed.

End Nested.

(** ** Maps *)

(** A map's entries: text, in key order. *)
Definition valid_map (l : btree) : Prop :=
  StronglySorted (fun x y => bytes_compare y.1 x.1 = Gt) l /\ Forall (fun e => is_Some (from_utf8 e.1) /\ is_Some (from_utf8 e.2)) l.

Definition map_cost (l : btree) : Z := foldr (fun e c => len e.1 + len e.2 + map_entry_charge + c) 0 l.

Lemma btree_insert_last l k v : Forall (fun e => bytes_compare k e.1 = Gt) l -> btree_insert l k v = l ++ [(k, v)].
Proof. induction 1 as [|e l He _ IH]; [done|]. cbn [btree_insert]. by rewrite He, IH. Qed.

Lemma map_entry_charge_nonneg : 0 <= map_entry_charge.
Proof. exact (proj1 (yields_insert [] [] [] 0)). Qed.

Lemma field_map n (l : btree) (set : btree -> A) m h : valid_number n -> valid_map l ->
  (forall pre f, number f = n -> exists k, merge_field_of Mem (set pre) f = Some (let! entry := map_entry f in k entry) /\
     forall key value, k (key, value, false) = let! l := insert_map pre key value in ret (set l)) -> set [] = m ->
  merges (flat_map (fun entry => put_map n entry.1 entry.2) l) m (set l) (map_cost l) h.
Proof.
  intros Hn [Hsort Hs] Hm <-. change (set l) with (set ([] ++ l)).
  assert (Hl0 : Forall (fun x => Forall (fun y => bytes_compare y.1 x.1 = Gt) l) (@nil (list Z * list Z))) by done.
  revert Hl0. generalize (@nil (list Z * list Z)) as l0. pose proof map_entry_charge_nonneg as Hme.
  induction Hsort as [|[key value] l Hsort IH Hx]; intros l0 Hl0; cbn [flat_map map_cost foldr].
  - rewrite app_nil_r. apply merges_nil.
  - apply Forall_cons in Hs as [[Hk Hv] Hs]. eapply merges_app; [|rewrite cons_middle, app_assoc; apply IH; [done|]].
    + rewrite <- btree_insert_last.
      2:{ eapply Forall_impl; [exact Hl0|]. intros e He. by apply Forall_cons in He as [He _]. }
      cbn [fst snd] in *. pose proof (len_nonneg key). pose proof (len_nonneg value). unfold put_map. eapply (merges_put (FBytes n _)); [done | lia |]. intros f Hf Hlen.
      destruct (Hm l0 f (proj1 (proj2 Hf))) as (k & E & Hins). eexists. split; [exact E|]. eapply yields_bind.
      * apply (yields_entry n); [done | done | exact Hf |]. destruct Hf as (_ & _ & _ & -> & _). cbn [put_field] in Hlen.
        etrans; [apply (put_bytes_length n) | exact Hlen].
      * rewrite Hins. eapply yields_cost; [eapply yields_bind; [apply yields_insert | apply yields_ret] | apply Z.add_0_r].
    + apply Forall_app. split.
      * eapply Forall_impl; [exact Hl0|]. intros e He. by apply Forall_cons in He as [_ He].
      * by apply Forall_singleton.
Qed.

End Kinds.
