(* ===== verification/MessageRoundtrip.v ===== *)
(** The messages of the native protocol are read back as they were written, one
    instance of [Faithful] per message; what a producer accounts for is what the
    receiver charges, so a batch it sizes can be decoded; and the fields of a
    newer peer pass through. *)

From S2P Require Import Prelude Text Utf8 Items Wire WireFacts Message MessageFacts.

Definition valid_text (s : list Z) : Prop := is_Some (from_utf8 s).

(** A float's bits; the zero is not a negative one. *)
Definition valid_f32 (bits : Z) : Prop := in_range u32_max bits /\ bits <> 2147483648.

Section Options.
Context {Mem : Memory} {A : Type} {M : Message A} {F : Faithful A}.
Definition valid_option (o : option A) : Prop := forall x, o = Some x -> valid x.
Definition option_cost (o : option A) : Z := match o with Some x => cost x | None => 0 end.
End Options.

(** ** One field after the other *)

Lemma merges_eq {Mem : Memory} {A} {M : Message A} out (m m' m'' : A) c c' h : merges out m m' c h -> m' = m'' -> c = c' -> merges out m m'' c' h.
Proof. by intros H <- <-. Qed.

(** The branch of [merge_field_of] for a number that is known. *)
Ltac known_field := intros; match goal with E : number ?f = _ |- ?l = _ => let l' := eval hnf in l in change l with l'; rewrite E; reflexivity end.

Ltac premise := first [done | assumption | by split | known_field | reflexivity].

(** Computes the message as it stands. *)
Ltac normal_state :=
  lazymatch goal with |- merges _ ?m _ _ _ => let m' := eval cbv beta delta [update] in m in let m' := eval cbn in m' in change m with m' end.

(** The field written by the first part of a message. *)
Ltac field :=
  normal_state;
  lazymatch goal with
  | |- merges (when (negb (is_empty (?p ?x))) (put_string ?n _)) ?m _ _ _ => apply (field_string n (p x) (fun v => m <| p := v |>)); premise
  | |- merges (when (negb (is_empty (?p ?x))) (put_bytes ?n _)) ?m _ _ _ => apply (field_bytes n (p x) (fun v => m <| p := v |>)); premise
  | |- merges (when (negb (is_zero (?p ?x))) (put_f32 ?n _)) ?m _ _ _ => apply (field_f32 n (p x) (fun v => m <| p := v |>)); premise
  | |- merges (when (negb (?to (?p ?x) =? 0)) (encode_enum ?n _)) ?m _ _ _ =>
      eapply (field_enum n _ to (p x) (fun v => m <| p := v |>)); [done | known_field | reflexivity | by intros [] | by intros []]
  | |- merges (when (negb (?p ?x =? 0)) (put_varint ?n (as_u64 _))) ?m _ _ _ => apply (field_i32 n (p x) (fun v => m <| p := v |>)); premise
  | |- merges (when (negb (?p ?x =? 0)) (put_varint ?n _)) ?m _ _ _ =>
      match goal with
      | H : in_range u32_max (p x) |- _ => apply (field_u32 n (p x) (fun v => m <| p := v |>)); premise
      | H : in_range u64_max (p x) |- _ => apply (field_u64 n (p x) (fun v => m <| p := v |>)); premise
      end
  | |- merges (when (?p ?x) (put_varint ?n 1)) ?m _ _ _ => apply (field_bool n (p x) (fun v => m <| p := v |>)); premise
  | |- merges (flat_map (put_string ?n) (?p ?x)) ?m _ _ _ => apply (field_strings n (p x) (fun v => m <| p := v |>)); premise
  | |- merges (flat_map (put_message ?n) (?p ?x)) ?m _ _ _ => eapply (field_messages n _ (p x) (fun v => m <| p := v |>)); premise
  | |- merges (flat_map _ (?p ?x)) ?m _ _ _ =>
      eapply (field_map _ (p x) (fun v => m <| p := v |>)); [done | premise | intros pre f E; eexists; split; [known_field | by intros] | reflexivity]
  | |- merges (match ?p ?x with Some _ => _ | None => _ end) ?m _ _ _ => apply (field_option _ (p x) (fun v => m <| p := v |>)); premise
  end.

Ltac fields :=
  intros Hvalid; unfold valid_f32 in Hvalid; destruct_and? Hvalid; unfold finish;
  match goal with H : _ = no_unknown |- _ => rewrite H; change (unknown_bytes no_unknown) with (@nil Z); rewrite app_nil_r end;
  eapply merges_eq;
  [ repeat (eapply merges_app; [field|]); field
  | match goal with |- _ = ?x => destruct x; cbn in *; subst; reflexivity end
  | unfold option_cost; lia ].

Section Instances.
Context {Mem : Memory} {Am : Ample Mem}.

Definition Handshake_valid (m : Handshake.t) : Prop :=
  in_range u32_max (Handshake.protocol_version m) /\ valid_text (Handshake.plugin_id m) /\ valid_text (Handshake.plugin_version m)
  /\ Forall valid_text (Handshake.capabilities m) /\ valid_text (Handshake.session_token m) /\ valid_text (Handshake.plugin_name m)
  /\ valid_text (Handshake.sdk_version m) /\ Handshake.unknown m = no_unknown.

Definition Handshake_cost (m : Handshake.t) : Z :=
  len (Handshake.plugin_id m) + len (Handshake.plugin_version m) + repeated_cost LString len 0 (Handshake.capabilities m)
  + len (Handshake.session_token m) + len (Handshake.plugin_name m) + len (Handshake.sdk_version m).

Lemma Handshake_reads_back m : Handshake_valid m ->
  merges (Handshake.encode m) Handshake.default_message m (Handshake_cost m) 0.
Proof. unfold Handshake_valid, Handshake_cost, Handshake.encode, Handshake.default_message. fields. Qed.

#[global] Instance Handshake_faithful : Faithful Handshake.t :=
  {| valid := Handshake_valid; cost := Handshake_cost; height := 0; height_nonneg := ltac:(done); reads_back := Handshake_reads_back |}.

Definition HandshakeAck_valid (m : HandshakeAck.t) : Prop :=
  in_range u32_max (HandshakeAck.protocol_version m) /\ Forall valid_text (HandshakeAck.host_capabilities m)
  /\ valid_text (HandshakeAck.host_version m) /\ valid_text (HandshakeAck.reject_reason m)
  /\ in_range u64_max (HandshakeAck.max_frame_bytes m) /\ in_range u32_max (HandshakeAck.initial_credits m)
  /\ HandshakeAck.unknown m = no_unknown.

Definition HandshakeAck_cost (m : HandshakeAck.t) : Z :=
  repeated_cost LString len 0 (HandshakeAck.host_capabilities m) + len (HandshakeAck.host_version m)
  + len (HandshakeAck.reject_reason m).

Lemma HandshakeAck_reads_back m : HandshakeAck_valid m ->
  merges (HandshakeAck.encode m) HandshakeAck.default_message m (HandshakeAck_cost m) 0.
Proof. unfold HandshakeAck_valid, HandshakeAck_cost, HandshakeAck.encode, HandshakeAck.default_message. fields. Qed.

#[global] Instance HandshakeAck_faithful : Faithful HandshakeAck.t :=
  {| valid := HandshakeAck_valid; cost := HandshakeAck_cost; height := 0; height_nonneg := ltac:(done); reads_back := HandshakeAck_reads_back |}.

Definition Lifecycle_valid (m : Lifecycle.t) : Prop :=
  Lifecycle.unknown m = no_unknown.

Definition Lifecycle_cost (m : Lifecycle.t) : Z := 0.

Lemma Lifecycle_reads_back m : Lifecycle_valid m ->
  merges (Lifecycle.encode m) Lifecycle.default_message m (Lifecycle_cost m) 0.
Proof. unfold Lifecycle_valid, Lifecycle_cost, Lifecycle.encode, Lifecycle.default_message. fields. Qed.

#[global] Instance Lifecycle_faithful : Faithful Lifecycle.t :=
  {| valid := Lifecycle_valid; cost := Lifecycle_cost; height := 0; height_nonneg := ltac:(done); reads_back := Lifecycle_reads_back |}.

Definition StructuredError_valid (m : StructuredError.t) : Prop :=
  valid_text (StructuredError.message m) /\ valid_text (StructuredError.detail m) /\ in_range u64_max (StructuredError.request_id m)
  /\ StructuredError.unknown m = no_unknown.

Definition StructuredError_cost (m : StructuredError.t) : Z :=
  len (StructuredError.message m) + len (StructuredError.detail m).

Lemma StructuredError_reads_back m : StructuredError_valid m ->
  merges (StructuredError.encode m) StructuredError.default_message m (StructuredError_cost m) 0.
Proof. unfold StructuredError_valid, StructuredError_cost, StructuredError.encode, StructuredError.default_message. fields. Qed.

#[global] Instance StructuredError_faithful : Faithful StructuredError.t :=
  {| valid := StructuredError_valid; cost := StructuredError_cost; height := 0; height_nonneg := ltac:(done); reads_back := StructuredError_reads_back |}.

Definition LifecycleAck_valid (m : LifecycleAck.t) : Prop :=
  valid_option (LifecycleAck.error m) /\ LifecycleAck.unknown m = no_unknown.

Definition LifecycleAck_cost (m : LifecycleAck.t) : Z :=
  option_cost (LifecycleAck.error m).

Lemma LifecycleAck_reads_back m : LifecycleAck_valid m ->
  merges (LifecycleAck.encode m) LifecycleAck.default_message m (LifecycleAck_cost m) 1.
Proof. unfold LifecycleAck_valid, LifecycleAck_cost, LifecycleAck.encode, LifecycleAck.default_message. fields. Qed.

#[global] Instance LifecycleAck_faithful : Faithful LifecycleAck.t :=
  {| valid := LifecycleAck_valid; cost := LifecycleAck_cost; height := 1; height_nonneg := ltac:(done); reads_back := LifecycleAck_reads_back |}.

Definition CatalogRequest_valid (m : CatalogRequest.t) : Prop :=
  in_range u64_max (CatalogRequest.max_items m) /\ CatalogRequest.unknown m = no_unknown.

Definition CatalogRequest_cost (m : CatalogRequest.t) : Z := 0.

Lemma CatalogRequest_reads_back m : CatalogRequest_valid m ->
  merges (CatalogRequest.encode m) CatalogRequest.default_message m (CatalogRequest_cost m) 0.
Proof. unfold CatalogRequest_valid, CatalogRequest_cost, CatalogRequest.encode, CatalogRequest.default_message. fields. Qed.

#[global] Instance CatalogRequest_faithful : Faithful CatalogRequest.t :=
  {| valid := CatalogRequest_valid; cost := CatalogRequest_cost; height := 0; height_nonneg := ltac:(done); reads_back := CatalogRequest_reads_back |}.

Definition Action_valid (m : Action.t) : Prop :=
  valid_text (Action.action_id m) /\ valid_text (Action.label m) /\ valid_text (Action.description m)
  /\ valid_text (Action.icon_reference m) /\ valid_text (Action.execution_policy m)
  /\ Forall valid_text (Action.applicable_categories m) /\ Action.unknown m = no_unknown.

Definition Action_cost (m : Action.t) : Z :=
  len (Action.action_id m) + len (Action.label m) + len (Action.description m) + len (Action.icon_reference m)
  + len (Action.execution_policy m) + repeated_cost LString len 0 (Action.applicable_categories m).

Lemma Action_reads_back m : Action_valid m ->
  merges (Action.encode m) Action.default_message m (Action_cost m) 0.
Proof. unfold Action_valid, Action_cost, Action.encode, Action.default_message. fields. Qed.

#[global] Instance Action_faithful : Faithful Action.t :=
  {| valid := Action_valid; cost := Action_cost; height := 0; height_nonneg := ltac:(done); reads_back := Action_reads_back |}.

Definition Item_valid (m : Item.t) : Prop :=
  valid_text (Item.stable_id m) /\ valid_text (Item.label m) /\ valid_text (Item.description m) /\ valid_text (Item.target m)
  /\ valid_text (Item.category m) /\ Forall valid_text (Item.search_terms m) /\ valid_text (Item.icon_reference m)
  /\ -2147483648 <= Item.score_hint m <= 2147483647 /\ valid_map (Item.metadata m) /\ Forall valid (Item.actions m)
  /\ valid_text (Item.argument_policy m) /\ valid_text (Item.hit_policy m) /\ Item.unknown m = no_unknown.

Definition Item_cost (m : Item.t) : Z :=
  len (Item.stable_id m) + len (Item.label m) + len (Item.description m) + len (Item.target m) + len (Item.category m)
  + repeated_cost LString len 0 (Item.search_terms m) + len (Item.icon_reference m) + map_cost (Item.metadata m)
  + repeated_cost LAction cost 0 (Item.actions m) + len (Item.argument_policy m) + len (Item.hit_policy m).

Lemma Item_reads_back m : Item_valid m ->
  merges (Item.encode m) Item.default_message m (Item_cost m) 1.
Proof. unfold Item_valid, Item_cost, Item.encode, Item.default_message. fields. Qed.

#[global] Instance Item_faithful : Faithful Item.t :=
  {| valid := Item_valid; cost := Item_cost; height := 1; height_nonneg := ltac:(done); reads_back := Item_reads_back |}.

Definition CatalogBatch_valid (m : CatalogBatch.t) : Prop :=
  Forall valid (CatalogBatch.items m) /\ in_range u64_max (CatalogBatch.sequence m) /\ valid_option (CatalogBatch.error m)
  /\ CatalogBatch.unknown m = no_unknown.

Definition CatalogBatch_cost (m : CatalogBatch.t) : Z :=
  repeated_cost LItem cost 0 (CatalogBatch.items m) + option_cost (CatalogBatch.error m).

Lemma CatalogBatch_reads_back m : CatalogBatch_valid m ->
  merges (CatalogBatch.encode m) CatalogBatch.default_message m (CatalogBatch_cost m) 2.
Proof. unfold CatalogBatch_valid, CatalogBatch_cost, CatalogBatch.encode, CatalogBatch.default_message. fields. Qed.

#[global] Instance CatalogBatch_faithful : Faithful CatalogBatch.t :=
  {| valid := CatalogBatch_valid; cost := CatalogBatch_cost; height := 2; height_nonneg := ltac:(done); reads_back := CatalogBatch_reads_back |}.

Definition SuggestRequest_valid (m : SuggestRequest.t) : Prop :=
  valid_text (SuggestRequest.text m) /\ valid_text (SuggestRequest.normalized_text m)
  /\ valid_text (SuggestRequest.selected_item_id m) /\ in_range u64_max (SuggestRequest.max_items m)
  /\ in_range u64_max (SuggestRequest.max_batches m) /\ SuggestRequest.unknown m = no_unknown.

Definition SuggestRequest_cost (m : SuggestRequest.t) : Z :=
  len (SuggestRequest.text m) + len (SuggestRequest.normalized_text m) + len (SuggestRequest.selected_item_id m).

Lemma SuggestRequest_reads_back m : SuggestRequest_valid m ->
  merges (SuggestRequest.encode m) SuggestRequest.default_message m (SuggestRequest_cost m) 0.
Proof. unfold SuggestRequest_valid, SuggestRequest_cost, SuggestRequest.encode, SuggestRequest.default_message. fields. Qed.

#[global] Instance SuggestRequest_faithful : Faithful SuggestRequest.t :=
  {| valid := SuggestRequest_valid; cost := SuggestRequest_cost; height := 0; height_nonneg := ltac:(done); reads_back := SuggestRequest_reads_back |}.

Definition ResultBatch_valid (m : ResultBatch.t) : Prop :=
  Forall valid (ResultBatch.items m) /\ in_range u64_max (ResultBatch.sequence m) /\ valid_option (ResultBatch.error m)
  /\ ResultBatch.unknown m = no_unknown.

Definition ResultBatch_cost (m : ResultBatch.t) : Z :=
  repeated_cost LItem cost 0 (ResultBatch.items m) + option_cost (ResultBatch.error m).

Lemma ResultBatch_reads_back m : ResultBatch_valid m ->
  merges (ResultBatch.encode m) ResultBatch.default_message m (ResultBatch_cost m) 2.
Proof. unfold ResultBatch_valid, ResultBatch_cost, ResultBatch.encode, ResultBatch.default_message. fields. Qed.

#[global] Instance ResultBatch_faithful : Faithful ResultBatch.t :=
  {| valid := ResultBatch_valid; cost := ResultBatch_cost; height := 2; height_nonneg := ltac:(done); reads_back := ResultBatch_reads_back |}.

Definition Cancel_valid (m : Cancel.t) : Prop :=
  valid_text (Cancel.reason m) /\ Cancel.unknown m = no_unknown.

Definition Cancel_cost (m : Cancel.t) : Z :=
  len (Cancel.reason m).

Lemma Cancel_reads_back m : Cancel_valid m ->
  merges (Cancel.encode m) Cancel.default_message m (Cancel_cost m) 0.
Proof. unfold Cancel_valid, Cancel_cost, Cancel.encode, Cancel.default_message. fields. Qed.

#[global] Instance Cancel_faithful : Faithful Cancel.t :=
  {| valid := Cancel_valid; cost := Cancel_cost; height := 0; height_nonneg := ltac:(done); reads_back := Cancel_reads_back |}.

Definition ExecuteRequest_valid (m : ExecuteRequest.t) : Prop :=
  valid_text (ExecuteRequest.item_id m) /\ valid_text (ExecuteRequest.action_id m) /\ valid_text (ExecuteRequest.argument m)
  /\ ExecuteRequest.unknown m = no_unknown.

Definition ExecuteRequest_cost (m : ExecuteRequest.t) : Z :=
  len (ExecuteRequest.item_id m) + len (ExecuteRequest.action_id m) + len (ExecuteRequest.argument m).

Lemma ExecuteRequest_reads_back m : ExecuteRequest_valid m ->
  merges (ExecuteRequest.encode m) ExecuteRequest.default_message m (ExecuteRequest_cost m) 0.
Proof. unfold ExecuteRequest_valid, ExecuteRequest_cost, ExecuteRequest.encode, ExecuteRequest.default_message. fields. Qed.

#[global] Instance ExecuteRequest_faithful : Faithful ExecuteRequest.t :=
  {| valid := ExecuteRequest_valid; cost := ExecuteRequest_cost; height := 0; height_nonneg := ltac:(done); reads_back := ExecuteRequest_reads_back |}.

Definition ExecuteResult_valid (m : ExecuteResult.t) : Prop :=
  valid_option (ExecuteResult.error m) /\ valid_text (ExecuteResult.page_id m) /\ ExecuteResult.unknown m = no_unknown.

Definition ExecuteResult_cost (m : ExecuteResult.t) : Z :=
  option_cost (ExecuteResult.error m) + len (ExecuteResult.page_id m).

Lemma ExecuteResult_reads_back m : ExecuteResult_valid m ->
  merges (ExecuteResult.encode m) ExecuteResult.default_message m (ExecuteResult_cost m) 1.
Proof. unfold ExecuteResult_valid, ExecuteResult_cost, ExecuteResult.encode, ExecuteResult.default_message. fields. Qed.

#[global] Instance ExecuteResult_faithful : Faithful ExecuteResult.t :=
  {| valid := ExecuteResult_valid; cost := ExecuteResult_cost; height := 1; height_nonneg := ltac:(done); reads_back := ExecuteResult_reads_back |}.

Definition PageInput_valid (m : PageInput.t) : Prop :=
  valid_f32 (PageInput.x m) /\ valid_f32 (PageInput.y m) /\ valid_text (PageInput.key m) /\ valid_text (PageInput.text m)
  /\ in_range u32_max (PageInput.node_id m) /\ PageInput.unknown m = no_unknown.

Definition PageInput_cost (m : PageInput.t) : Z :=
  len (PageInput.key m) + len (PageInput.text m).

Lemma PageInput_reads_back m : PageInput_valid m ->
  merges (PageInput.encode m) PageInput.default_message m (PageInput_cost m) 0.
Proof. unfold PageInput_valid, PageInput_cost, PageInput.encode, PageInput.default_message. fields. Qed.

#[global] Instance PageInput_faithful : Faithful PageInput.t :=
  {| valid := PageInput_valid; cost := PageInput_cost; height := 0; height_nonneg := ltac:(done); reads_back := PageInput_reads_back |}.

Definition PageImage_valid (m : PageImage.t) : Prop :=
  in_range u32_max (PageImage.pixel_width m) /\ in_range u32_max (PageImage.pixel_height m) /\ PageImage.unknown m = no_unknown.

Definition PageImage_cost (m : PageImage.t) : Z :=
  len (PageImage.rgba m).

Lemma PageImage_reads_back m : PageImage_valid m ->
  merges (PageImage.encode m) PageImage.default_message m (PageImage_cost m) 0.
Proof. unfold PageImage_valid, PageImage_cost, PageImage.encode, PageImage.default_message. fields. Qed.

#[global] Instance PageImage_faithful : Faithful PageImage.t :=
  {| valid := PageImage_valid; cost := PageImage_cost; height := 0; height_nonneg := ltac:(done); reads_back := PageImage_reads_back |}.

Definition PageNode_valid (m : PageNode.t) : Prop :=
  valid_f32 (PageNode.x m) /\ valid_f32 (PageNode.y m) /\ valid_f32 (PageNode.width m) /\ valid_f32 (PageNode.height m)
  /\ in_range u32_max (PageNode.fill m) /\ in_range u32_max (PageNode.stroke m) /\ valid_f32 (PageNode.stroke_width m)
  /\ valid_f32 (PageNode.rounding m) /\ valid_text (PageNode.text m) /\ valid_f32 (PageNode.text_size m)
  /\ valid_text (PageNode.label m) /\ in_range u32_max (PageNode.node_id m) /\ in_range u32_max (PageNode.focus_order m)
  /\ valid_option (PageNode.image m) /\ PageNode.unknown m = no_unknown.

Definition PageNode_cost (m : PageNode.t) : Z :=
  len (PageNode.text m) + len (PageNode.label m) + option_cost (PageNode.image m).

Lemma PageNode_reads_back m : PageNode_valid m ->
  merges (PageNode.encode m) PageNode.default_message m (PageNode_cost m) 1.
Proof. unfold PageNode_valid, PageNode_cost, PageNode.encode, PageNode.default_message. fields. Qed.

#[global] Instance PageNode_faithful : Faithful PageNode.t :=
  {| valid := PageNode_valid; cost := PageNode_cost; height := 1; height_nonneg := ltac:(done); reads_back := PageNode_reads_back |}.

Definition PageRequest_valid (m : PageRequest.t) : Prop :=
  valid_text (PageRequest.page_id m) /\ in_range u64_max (PageRequest.generation m) /\ in_range u32_max (PageRequest.width m)
  /\ in_range u32_max (PageRequest.height m) /\ Forall valid (PageRequest.events m)
  /\ in_range u32_max (PageRequest.colour_surface m) /\ in_range u32_max (PageRequest.colour_text m)
  /\ in_range u32_max (PageRequest.colour_accent m) /\ in_range u32_max (PageRequest.colour_muted m)
  /\ PageRequest.unknown m = no_unknown.

Definition PageRequest_cost (m : PageRequest.t) : Z :=
  len (PageRequest.page_id m) + repeated_cost LPageInput cost 0 (PageRequest.events m).

Lemma PageRequest_reads_back m : PageRequest_valid m ->
  merges (PageRequest.encode m) PageRequest.default_message m (PageRequest_cost m) 1.
Proof. unfold PageRequest_valid, PageRequest_cost, PageRequest.encode, PageRequest.default_message. fields. Qed.

#[global] Instance PageRequest_faithful : Faithful PageRequest.t :=
  {| valid := PageRequest_valid; cost := PageRequest_cost; height := 1; height_nonneg := ltac:(done); reads_back := PageRequest_reads_back |}.

Definition PageWebSurface_valid (m : PageWebSurface.t) : Prop :=
  valid_text (PageWebSurface.url m) /\ PageWebSurface.unknown m = no_unknown.

Definition PageWebSurface_cost (m : PageWebSurface.t) : Z :=
  len (PageWebSurface.url m).

Lemma PageWebSurface_reads_back m : PageWebSurface_valid m ->
  merges (PageWebSurface.encode m) PageWebSurface.default_message m (PageWebSurface_cost m) 0.
Proof. unfold PageWebSurface_valid, PageWebSurface_cost, PageWebSurface.encode, PageWebSurface.default_message. fields. Qed.

#[global] Instance PageWebSurface_faithful : Faithful PageWebSurface.t :=
  {| valid := PageWebSurface_valid; cost := PageWebSurface_cost; height := 0; height_nonneg := ltac:(done); reads_back := PageWebSurface_reads_back |}.

Definition PageFrame_valid (m : PageFrame.t) : Prop :=
  in_range u64_max (PageFrame.generation m) /\ valid_text (PageFrame.title m) /\ Forall valid (PageFrame.nodes m)
  /\ in_range u32_max (PageFrame.focus_node m) /\ in_range u32_max (PageFrame.redraw_after_ms m) /\ valid_option (PageFrame.web m)
  /\ PageFrame.unknown m = no_unknown.

Definition PageFrame_cost (m : PageFrame.t) : Z :=
  len (PageFrame.title m) + repeated_cost LPageNode cost 0 (PageFrame.nodes m) + option_cost (PageFrame.web m).

Lemma PageFrame_reads_back m : PageFrame_valid m ->
  merges (PageFrame.encode m) PageFrame.default_message m (PageFrame_cost m) 2.
Proof. unfold PageFrame_valid, PageFrame_cost, PageFrame.encode, PageFrame.default_message. fields. Qed.

#[global] Instance PageFrame_faithful : Faithful PageFrame.t :=
  {| valid := PageFrame_valid; cost := PageFrame_cost; height := 2; height_nonneg := ltac:(done); reads_back := PageFrame_reads_back |}.

Definition OpenSurface_valid (m : OpenSurface.t) : Prop :=
  in_range u64_max (OpenSurface.surface_id m) /\ in_range u32_max (OpenSurface.pixel_width m)
  /\ in_range u32_max (OpenSurface.pixel_height m) /\ valid_text (OpenSurface.url m) /\ OpenSurface.unknown m = no_unknown.

Definition OpenSurface_cost (m : OpenSurface.t) : Z :=
  len (OpenSurface.url m).

Lemma OpenSurface_reads_back m : OpenSurface_valid m ->
  merges (OpenSurface.encode m) OpenSurface.default_message m (OpenSurface_cost m) 0.
Proof. unfold OpenSurface_valid, OpenSurface_cost, OpenSurface.encode, OpenSurface.default_message. fields. Qed.

#[global] Instance OpenSurface_faithful : Faithful OpenSurface.t :=
  {| valid := OpenSurface_valid; cost := OpenSurface_cost; height := 0; height_nonneg := ltac:(done); reads_back := OpenSurface_reads_back |}.

Definition RawInput_valid (m : RawInput.t) : Prop :=
  in_range u64_max (RawInput.surface_id m) /\ in_range u64_max (RawInput.timestamp_ms m) /\ valid_f32 (RawInput.x m)
  /\ valid_f32 (RawInput.y m) /\ in_range u32_max (RawInput.keysym m) /\ in_range u32_max (RawInput.hardware_keycode m)
  /\ in_range u32_max (RawInput.modifiers m) /\ in_range u32_max (RawInput.button m) /\ in_range u32_max (RawInput.press_count m)
  /\ valid_f32 (RawInput.delta_x m) /\ valid_f32 (RawInput.delta_y m) /\ RawInput.unknown m = no_unknown.

Definition RawInput_cost (m : RawInput.t) : Z := 0.

Lemma RawInput_reads_back m : RawInput_valid m ->
  merges (RawInput.encode m) RawInput.default_message m (RawInput_cost m) 0.
Proof. unfold RawInput_valid, RawInput_cost, RawInput.encode, RawInput.default_message. fields. Qed.

#[global] Instance RawInput_faithful : Faithful RawInput.t :=
  {| valid := RawInput_valid; cost := RawInput_cost; height := 0; height_nonneg := ltac:(done); reads_back := RawInput_reads_back |}.

Definition ImeEvent_valid (m : ImeEvent.t) : Prop :=
  in_range u64_max (ImeEvent.surface_id m) /\ valid_text (ImeEvent.text m) /\ in_range u32_max (ImeEvent.cursor_begin_chars m)
  /\ in_range u32_max (ImeEvent.cursor_end_chars m) /\ ImeEvent.unknown m = no_unknown.

Definition ImeEvent_cost (m : ImeEvent.t) : Z :=
  len (ImeEvent.text m).

Lemma ImeEvent_reads_back m : ImeEvent_valid m ->
  merges (ImeEvent.encode m) ImeEvent.default_message m (ImeEvent_cost m) 0.
Proof. unfold ImeEvent_valid, ImeEvent_cost, ImeEvent.encode, ImeEvent.default_message. fields. Qed.

#[global] Instance ImeEvent_faithful : Faithful ImeEvent.t :=
  {| valid := ImeEvent_valid; cost := ImeEvent_cost; height := 0; height_nonneg := ltac:(done); reads_back := ImeEvent_reads_back |}.

Definition Navigate_valid (m : Navigate.t) : Prop :=
  in_range u64_max (Navigate.surface_id m) /\ valid_text (Navigate.url m) /\ Navigate.unknown m = no_unknown.

Definition Navigate_cost (m : Navigate.t) : Z :=
  len (Navigate.url m).

Lemma Navigate_reads_back m : Navigate_valid m ->
  merges (Navigate.encode m) Navigate.default_message m (Navigate_cost m) 0.
Proof. unfold Navigate_valid, Navigate_cost, Navigate.encode, Navigate.default_message. fields. Qed.

#[global] Instance Navigate_faithful : Faithful Navigate.t :=
  {| valid := Navigate_valid; cost := Navigate_cost; height := 0; height_nonneg := ltac:(done); reads_back := Navigate_reads_back |}.

Definition Resize_valid (m : Resize.t) : Prop :=
  in_range u64_max (Resize.surface_id m) /\ in_range u32_max (Resize.pixel_width m) /\ in_range u32_max (Resize.pixel_height m)
  /\ Resize.unknown m = no_unknown.

Definition Resize_cost (m : Resize.t) : Z := 0.

Lemma Resize_reads_back m : Resize_valid m ->
  merges (Resize.encode m) Resize.default_message m (Resize_cost m) 0.
Proof. unfold Resize_valid, Resize_cost, Resize.encode, Resize.default_message. fields. Qed.

#[global] Instance Resize_faithful : Faithful Resize.t :=
  {| valid := Resize_valid; cost := Resize_cost; height := 0; height_nonneg := ltac:(done); reads_back := Resize_reads_back |}.

Definition CloseSurface_valid (m : CloseSurface.t) : Prop :=
  in_range u64_max (CloseSurface.surface_id m) /\ valid_text (CloseSurface.reason m) /\ CloseSurface.unknown m = no_unknown.

Definition CloseSurface_cost (m : CloseSurface.t) : Z :=
  len (CloseSurface.reason m).

Lemma CloseSurface_reads_back m : CloseSurface_valid m ->
  merges (CloseSurface.encode m) CloseSurface.default_message m (CloseSurface_cost m) 0.
Proof. unfold CloseSurface_valid, CloseSurface_cost, CloseSurface.encode, CloseSurface.default_message. fields. Qed.

#[global] Instance CloseSurface_faithful : Faithful CloseSurface.t :=
  {| valid := CloseSurface_valid; cost := CloseSurface_cost; height := 0; height_nonneg := ltac:(done); reads_back := CloseSurface_reads_back |}.

Definition WebFrame_valid (m : WebFrame.t) : Prop :=
  in_range u64_max (WebFrame.surface_id m) /\ in_range u64_max (WebFrame.generation m) /\ in_range u32_max (WebFrame.pixel_width m)
  /\ in_range u32_max (WebFrame.pixel_height m) /\ WebFrame.unknown m = no_unknown.

Definition WebFrame_cost (m : WebFrame.t) : Z :=
  len (WebFrame.rgba8 m).

Lemma WebFrame_reads_back m : WebFrame_valid m ->
  merges (WebFrame.encode m) WebFrame.default_message m (WebFrame_cost m) 0.
Proof. unfold WebFrame_valid, WebFrame_cost, WebFrame.encode, WebFrame.default_message. fields. Qed.

#[global] Instance WebFrame_faithful : Faithful WebFrame.t :=
  {| valid := WebFrame_valid; cost := WebFrame_cost; height := 0; height_nonneg := ltac:(done); reads_back := WebFrame_reads_back |}.

Definition CaretArea_valid (m : CaretArea.t) : Prop :=
  in_range u64_max (CaretArea.surface_id m) /\ valid_f32 (CaretArea.x m) /\ valid_f32 (CaretArea.y m)
  /\ valid_f32 (CaretArea.width m) /\ valid_f32 (CaretArea.height m) /\ CaretArea.unknown m = no_unknown.

Definition CaretArea_cost (m : CaretArea.t) : Z := 0.

Lemma CaretArea_reads_back m : CaretArea_valid m ->
  merges (CaretArea.encode m) CaretArea.default_message m (CaretArea_cost m) 0.
Proof. unfold CaretArea_valid, CaretArea_cost, CaretArea.encode, CaretArea.default_message. fields. Qed.

#[global] Instance CaretArea_faithful : Faithful CaretArea.t :=
  {| valid := CaretArea_valid; cost := CaretArea_cost; height := 0; height_nonneg := ltac:(done); reads_back := CaretArea_reads_back |}.

Definition LoadState_valid (m : LoadState.t) : Prop :=
  in_range u64_max (LoadState.surface_id m) /\ valid_text (LoadState.url m) /\ valid_text (LoadState.failure m)
  /\ valid_text (LoadState.title m) /\ LoadState.unknown m = no_unknown.

Definition LoadState_cost (m : LoadState.t) : Z :=
  len (LoadState.url m) + len (LoadState.failure m) + len (LoadState.title m).

Lemma LoadState_reads_back m : LoadState_valid m ->
  merges (LoadState.encode m) LoadState.default_message m (LoadState_cost m) 0.
Proof. unfold LoadState_valid, LoadState_cost, LoadState.encode, LoadState.default_message. fields. Qed.

#[global] Instance LoadState_faithful : Faithful LoadState.t :=
  {| valid := LoadState_valid; cost := LoadState_cost; height := 0; height_nonneg := ltac:(done); reads_back := LoadState_reads_back |}.

Definition Gone_valid (m : Gone.t) : Prop :=
  in_range u64_max (Gone.surface_id m) /\ valid_text (Gone.detail m) /\ Gone.unknown m = no_unknown.

Definition Gone_cost (m : Gone.t) : Z :=
  len (Gone.detail m).

Lemma Gone_reads_back m : Gone_valid m ->
  merges (Gone.encode m) Gone.default_message m (Gone_cost m) 0.
Proof. unfold Gone_valid, Gone_cost, Gone.encode, Gone.default_message. fields. Qed.

#[global] Instance Gone_faithful : Faithful Gone.t :=
  {| valid := Gone_valid; cost := Gone_cost; height := 0; height_nonneg := ltac:(done); reads_back := Gone_reads_back |}.

Definition ConfigurationChange_valid (m : ConfigurationChange.t) : Prop :=
  valid_map (ConfigurationChange.values m) /\ ConfigurationChange.unknown m = no_unknown.

Definition ConfigurationChange_cost (m : ConfigurationChange.t) : Z :=
  map_cost (ConfigurationChange.values m).

Lemma ConfigurationChange_reads_back m : ConfigurationChange_valid m ->
  merges (ConfigurationChange.encode m) ConfigurationChange.default_message m (ConfigurationChange_cost m) 0.
Proof. unfold ConfigurationChange_valid, ConfigurationChange_cost, ConfigurationChange.encode, ConfigurationChange.default_message. fields. Qed.

#[global] Instance ConfigurationChange_faithful : Faithful ConfigurationChange.t :=
  {| valid := ConfigurationChange_valid; cost := ConfigurationChange_cost; height := 0; height_nonneg := ltac:(done); reads_back := ConfigurationChange_reads_back |}.

Definition Event_valid (m : Event.t) : Prop :=
  valid_map (Event.attributes m) /\ in_range u64_max (Event.flags m) /\ Event.unknown m = no_unknown.

Definition Event_cost (m : Event.t) : Z :=
  map_cost (Event.attributes m).

Lemma Event_reads_back m : Event_valid m ->
  merges (Event.encode m) Event.default_message m (Event_cost m) 0.
Proof. unfold Event_valid, Event_cost, Event.encode, Event.default_message. fields. Qed.

#[global] Instance Event_faithful : Faithful Event.t :=
  {| valid := Event_valid; cost := Event_cost; height := 0; height_nonneg := ltac:(done); reads_back := Event_reads_back |}.

Definition ResourceRequest_valid (m : ResourceRequest.t) : Prop :=
  valid_text (ResourceRequest.reference m) /\ ResourceRequest.unknown m = no_unknown.

Definition ResourceRequest_cost (m : ResourceRequest.t) : Z :=
  len (ResourceRequest.reference m).

Lemma ResourceRequest_reads_back m : ResourceRequest_valid m ->
  merges (ResourceRequest.encode m) ResourceRequest.default_message m (ResourceRequest_cost m) 0.
Proof. unfold ResourceRequest_valid, ResourceRequest_cost, ResourceRequest.encode, ResourceRequest.default_message. fields. Qed.

#[global] Instance ResourceRequest_faithful : Faithful ResourceRequest.t :=
  {| valid := ResourceRequest_valid; cost := ResourceRequest_cost; height := 0; height_nonneg := ltac:(done); reads_back := ResourceRequest_reads_back |}.

Definition ResourceResponse_valid (m : ResourceResponse.t) : Prop :=
  valid_text (ResourceResponse.reference m) /\ valid_text (ResourceResponse.media_type m) /\ valid_option (ResourceResponse.error m)
  /\ ResourceResponse.unknown m = no_unknown.

Definition ResourceResponse_cost (m : ResourceResponse.t) : Z :=
  len (ResourceResponse.reference m) + len (ResourceResponse.content m) + len (ResourceResponse.media_type m)
  + option_cost (ResourceResponse.error m).

Lemma ResourceResponse_reads_back m : ResourceResponse_valid m ->
  merges (ResourceResponse.encode m) ResourceResponse.default_message m (ResourceResponse_cost m) 1.
Proof. unfold ResourceResponse_valid, ResourceResponse_cost, ResourceResponse.encode, ResourceResponse.default_message. fields. Qed.

#[global] Instance ResourceResponse_faithful : Faithful ResourceResponse.t :=
  {| valid := ResourceResponse_valid; cost := ResourceResponse_cost; height := 1; height_nonneg := ltac:(done); reads_back := ResourceResponse_reads_back |}.

Definition LogRecord_valid (m : LogRecord.t) : Prop :=
  valid_text (LogRecord.message m) /\ in_range u64_max (LogRecord.timestamp_ms m) /\ LogRecord.unknown m = no_unknown.

Definition LogRecord_cost (m : LogRecord.t) : Z :=
  len (LogRecord.message m).

Lemma LogRecord_reads_back m : LogRecord_valid m ->
  merges (LogRecord.encode m) LogRecord.default_message m (LogRecord_cost m) 0.
Proof. unfold LogRecord_valid, LogRecord_cost, LogRecord.encode, LogRecord.default_message. fields. Qed.

#[global] Instance LogRecord_faithful : Faithful LogRecord.t :=
  {| valid := LogRecord_valid; cost := LogRecord_cost; height := 0; height_nonneg := ltac:(done); reads_back := LogRecord_reads_back |}.

Definition HealthCheck_valid (m : HealthCheck.t) : Prop :=
  in_range u64_max (HealthCheck.nonce m) /\ HealthCheck.unknown m = no_unknown.

Definition HealthCheck_cost (m : HealthCheck.t) : Z := 0.

Lemma HealthCheck_reads_back m : HealthCheck_valid m ->
  merges (HealthCheck.encode m) HealthCheck.default_message m (HealthCheck_cost m) 0.
Proof. unfold HealthCheck_valid, HealthCheck_cost, HealthCheck.encode, HealthCheck.default_message. fields. Qed.

#[global] Instance HealthCheck_faithful : Faithful HealthCheck.t :=
  {| valid := HealthCheck_valid; cost := HealthCheck_cost; height := 0; height_nonneg := ltac:(done); reads_back := HealthCheck_reads_back |}.

Definition HealthReport_valid (m : HealthReport.t) : Prop :=
  in_range u64_max (HealthReport.nonce m) /\ in_range u64_max (HealthReport.memory_bytes m)
  /\ in_range u32_max (HealthReport.queue_depth m) /\ in_range u32_max (HealthReport.in_flight m)
  /\ valid_text (HealthReport.detail m) /\ HealthReport.unknown m = no_unknown.

Definition HealthReport_cost (m : HealthReport.t) : Z :=
  len (HealthReport.detail m).

Lemma HealthReport_reads_back m : HealthReport_valid m ->
  merges (HealthReport.encode m) HealthReport.default_message m (HealthReport_cost m) 0.
Proof. unfold HealthReport_valid, HealthReport_cost, HealthReport.encode, HealthReport.default_message. fields. Qed.

#[global] Instance HealthReport_faithful : Faithful HealthReport.t :=
  {| valid := HealthReport_valid; cost := HealthReport_cost; height := 0; height_nonneg := ltac:(done); reads_back := HealthReport_reads_back |}.

Definition FlowControl_valid (m : FlowControl.t) : Prop :=
  in_range u32_max (FlowControl.credits m) /\ FlowControl.unknown m = no_unknown.

Definition FlowControl_cost (m : FlowControl.t) : Z := 0.

Lemma FlowControl_reads_back m : FlowControl_valid m ->
  merges (FlowControl.encode m) FlowControl.default_message m (FlowControl_cost m) 0.
Proof. unfold FlowControl_valid, FlowControl_cost, FlowControl.encode, FlowControl.default_message. fields. Qed.

#[global] Instance FlowControl_faithful : Faithful FlowControl.t :=
  {| valid := FlowControl_valid; cost := FlowControl_cost; height := 0; height_nonneg := ltac:(done); reads_back := FlowControl_reads_back |}.

Definition Shutdown_valid (m : Shutdown.t) : Prop :=
  Shutdown.unknown m = no_unknown.

Definition Shutdown_cost (m : Shutdown.t) : Z := 0.

Lemma Shutdown_reads_back m : Shutdown_valid m ->
  merges (Shutdown.encode m) Shutdown.default_message m (Shutdown_cost m) 0.
Proof. unfold Shutdown_valid, Shutdown_cost, Shutdown.encode, Shutdown.default_message. fields. Qed.

#[global] Instance Shutdown_faithful : Faithful Shutdown.t :=
  {| valid := Shutdown_valid; cost := Shutdown_cost; height := 0; height_nonneg := ltac:(done); reads_back := Shutdown_reads_back |}.


(** ** The envelope *)

Definition payload_valid (p : Payload) : Prop :=
  match p with
  | PHandshake m => Handshake_valid m
  | PHandshakeAck m => HandshakeAck_valid m
  | PSuggest m => SuggestRequest_valid m
  | PResults m => ResultBatch_valid m
  | PCancel m => Cancel_valid m
  | PShutdown m => Shutdown_valid m
  | PCatalogRequest m => CatalogRequest_valid m
  | PCatalogBatch m => CatalogBatch_valid m
  | PExecute m => ExecuteRequest_valid m
  | PExecuteResult m => ExecuteResult_valid m
  | PConfiguration m => ConfigurationChange_valid m
  | PEvent m => Event_valid m
  | PLog m => LogRecord_valid m
  | PHealthCheck m => HealthCheck_valid m
  | PHealthReport m => HealthReport_valid m
  | PError m => StructuredError_valid m
  | PFlow m => FlowControl_valid m
  | PResourceRequest m => ResourceRequest_valid m
  | PResourceResponse m => ResourceResponse_valid m
  | PLifecycle m => Lifecycle_valid m
  | PLifecycleAck m => LifecycleAck_valid m
  | PPageRequest m => PageRequest_valid m
  | PPageFrame m => PageFrame_valid m
  | POpenSurface m => OpenSurface_valid m
  | PRawInput m => RawInput_valid m
  | PImeEvent m => ImeEvent_valid m
  | PNavigate m => Navigate_valid m
  | PResize m => Resize_valid m
  | PCloseSurface m => CloseSurface_valid m
  | PWebFrame m => WebFrame_valid m
  | PCaretArea m => CaretArea_valid m
  | PLoadState m => LoadState_valid m
  | PGone m => Gone_valid m
  end.

Definition payload_cost (p : Payload) : Z :=
  match p with
  | PHandshake m => Handshake_cost m
  | PHandshakeAck m => HandshakeAck_cost m
  | PSuggest m => SuggestRequest_cost m
  | PResults m => ResultBatch_cost m
  | PCancel m => Cancel_cost m
  | PShutdown m => Shutdown_cost m
  | PCatalogRequest m => CatalogRequest_cost m
  | PCatalogBatch m => CatalogBatch_cost m
  | PExecute m => ExecuteRequest_cost m
  | PExecuteResult m => ExecuteResult_cost m
  | PConfiguration m => ConfigurationChange_cost m
  | PEvent m => Event_cost m
  | PLog m => LogRecord_cost m
  | PHealthCheck m => HealthCheck_cost m
  | PHealthReport m => HealthReport_cost m
  | PError m => StructuredError_cost m
  | PFlow m => FlowControl_cost m
  | PResourceRequest m => ResourceRequest_cost m
  | PResourceResponse m => ResourceResponse_cost m
  | PLifecycle m => Lifecycle_cost m
  | PLifecycleAck m => LifecycleAck_cost m
  | PPageRequest m => PageRequest_cost m
  | PPageFrame m => PageFrame_cost m
  | POpenSurface m => OpenSurface_cost m
  | PRawInput m => RawInput_cost m
  | PImeEvent m => ImeEvent_cost m
  | PNavigate m => Navigate_cost m
  | PResize m => Resize_cost m
  | PCloseSurface m => CloseSurface_cost m
  | PWebFrame m => WebFrame_cost m
  | PCaretArea m => CaretArea_cost m
  | PLoadState m => LoadState_cost m
  | PGone m => Gone_cost m
  end.

Definition Envelope_valid (e : Envelope.t) : Prop :=
  in_range u64_max (Envelope.connection_id e) /\ in_range u64_max (Envelope.request_id e) /\ in_range u64_max (Envelope.generation e)
  /\ in_range u64_max (Envelope.deadline_ms e) /\ (forall p, Envelope.payload e = Some p -> payload_valid p) /\ Envelope.unknown e = no_unknown.
Definition Envelope_cost (e : Envelope.t) : Z := match Envelope.payload e with Some p => payload_cost p | None => 0 end.

Lemma field_payload (o : option Payload) c r g d u :
  (forall p, o = Some p -> payload_valid p) ->
  merges (match o with Some p => Envelope.encode_payload p | None => [] end) (Envelope.mk c r g d None u) (Envelope.mk c r g d o u)
    (match o with Some p => payload_cost p | None => 0 end) 3.
Proof.
  intros Hv. destruct o as [p|]; [|apply merges_nil]. specialize (Hv p eq_refl).
  destruct p as [m | m | m | m | m | m | m | m | m | m | m | m | m | m | m | m | m | m | m | m | m | m | m | m | m | m | m | m | m | m | m | m | m]; cbn [payload_valid payload_cost Envelope.encode_payload] in *;
    (eapply merges_cost; [eapply (merges_nested _ m _ _ 0); [done | exact Hv | done | done |] | apply Z.add_0_r]);
    intros f E; eexists; (split; [known_field | apply yields_ret]).
Qed.

Lemma Envelope_reads_back e : Envelope_valid e -> merges (Envelope.encode e) Envelope.default_message e (Envelope_cost e) 3.
Proof.
  unfold Envelope_valid, Envelope_cost, Envelope.encode, Envelope.default_message. intros Hvalid. destruct_and? Hvalid. unfold finish.
  match goal with H : _ = no_unknown |- _ => rewrite H; change (unknown_bytes no_unknown) with (@nil Z); rewrite app_nil_r end.
  eapply merges_eq; [do 4 (eapply merges_app; [field|]) | |].
  - normal_state. by apply field_payload.
  - destruct e; cbn in *; subst; reflexivity.
  - lia.
Qed.
#[global] Instance Envelope_faithful : Faithful Envelope.t :=
  {| valid := Envelope_valid; cost := Envelope_cost; height := 3; height_nonneg := ltac:(done); reads_back := Envelope_reads_back |}.

(** ** A whole message *)

Lemma decode_encoded {A} {M : Message A} {F : Faithful A} (m : A) : valid m -> height A <= MAX_DECODE_DEPTH ->
  decode (encode_message m) = Some (Err (FrameTooLarge (len (encode_message m)))) /\ MAX_FRAME_BYTES < len (encode_message m) \/
  len (encode_message m) <= MAX_FRAME_BYTES /\
    if cost m <=? DECODE_ALLOCATION_BUDGET then decode (encode_message m) = Some (Ok m)
    else exists requested remaining, decode (A := A) (encode_message m) = Some (Err (DecodeBudgetExceeded requested remaining)).
Proof.
  intros Hv Hh. unfold decode, ensure_message_size. destruct (Z.ltb_spec MAX_FRAME_BYTES (len (encode_message m))) as [|Hl]; [by left|]. right. split; [done|].
  destruct (yields_merge m Hv Hl) as [_ Hd]. specialize (Hd new_decode_budget ltac:(by split)). cbn [budget_remaining new_decode_budget] in Hd.
  destruct (cost m <=? DECODE_ALLOCATION_BUDGET); [by rewrite Hd|]. destruct Hd as (b & q & r & -> & _). by exists q, r.
Qed.

(** ** What a producer accounts for

    The running totals saturate, so they are compared with the exact costs cut
    off at the largest [usize]. *)

Definition capped (x : Z) : Z := Z.min x usize_max.

Lemma add_capped x y : 0 <= x -> 0 <= y -> add (capped x) (capped y) = capped (x + y).
Proof. unfold add, saturating_add, capped, usize_max, u64_max. lia. Qed.

Lemma capped_small x : x <= usize_max -> capped x = x.
Proof. unfold capped. lia. Qed.

(** The cost of the first [n] pushes. *)
Fixpoint pushes_cost (layout : Layout) (n : nat) : Z :=
  match n with O => 0 | S n => pushes_cost layout n + push_cost layout n end.

Lemma pushes_cost_nonneg layout n : 0 <= pushes_cost layout n.
Proof. induction n as [|n IH]; cbn [pushes_cost]; [done|]. pose proof (push_cost_nonneg layout n). lia. Qed.

Definition own_cost {T} (own : T -> Z) (l : list T) : Z := foldr (fun x c => own x + c) 0 l.

Lemma repeated_cost_split {T} layout (own : T -> Z) n l :
  repeated_cost layout own n l + pushes_cost layout n = own_cost own l + pushes_cost layout (n + length l).
Proof.
  revert n. induction l as [|x l IH]; intros n; cbn [repeated_cost own_cost foldr length]; [by rewrite Nat.add_0_r|].
  specialize (IH (S n)). cbn [pushes_cost] in IH. replace (n + S (length l))%nat with (S n + length l)%nat by lia. unfold own_cost in IH. lia.
Qed.

Lemma push_charge_spec layout n r : Z.of_nat n <= i64_max ->
  r = mkRepeated (size_of layout) (vec_capacity n) (Z.of_nat n) (capped (pushes_cost layout n)) ->
  push_charge r = mkRepeated (size_of layout) (vec_capacity (S n)) (Z.of_nat (S n)) (capped (pushes_cost layout (S n))).
Proof.
  intros Hn ->. destruct (push_cost_eq layout n Hn) as [_ E]. destruct (growth_spec n Hn) as [_ Hg]. pose proof (vec_capacity_bounds n Hn) as Hc.
  pose proof (size_of_bounded layout) as Hs. pose proof (pushes_cost_nonneg layout n) as Hp.
  assert (Hm : 0 <= (vec_capacity (S n) - vec_capacity n) * size_of layout <= 1024 * u32_max) by nia.
  cbn [pushes_cost]. rewrite E. clear E. unfold push_charge. cbn [rf_length capacity]. revert Hm Hg. cbn [vec_capacity].
  unfold saturating_add, saturating_mul, saturating_sub, capped, u32_max, usize_max, u64_max, DECODE_REPETITION_OVERHEAD in *.
  destruct (Z.eqb_spec (Z.of_nat n) (vec_capacity n)) as [Ec|Ec].
  - rewrite <- Ec in *. destruct (grown_capacity_bounds (Z.of_nat n)) as (g & -> & Hg'); [pose proof (Nat2Z.is_nonneg n); done|]. cbn [from_option]. unfold id.
    intros Hm Hg. cbv [update]. cbn.
    rewrite Z.max_r by lia. set (growth := (g - Z.of_nat n) * size_of layout) in *. clearbody growth. unfold i64_max in Hn. f_equal; lia.
  - rewrite Z.sub_diag. intros Hm Hg. cbv [update]. cbn. unfold i64_max in Hn. f_equal; lia.
Qed.

Lemma new_repeated_spec layout : new_repeated layout = mkRepeated (size_of layout) (vec_capacity 0) (Z.of_nat 0) (capped (pushes_cost layout 0)).
Proof. done. Qed.

Lemma add_capped_l x y : 0 <= y -> add (capped x) y = capped (x + y).
Proof. unfold add, saturating_add, capped, usize_max, u64_max. lia. Qed.

Lemma own_cost_nonneg {T} (own : T -> Z) l : (forall x, x ∈ l -> 0 <= own x) -> 0 <= own_cost own l.
Proof.
  induction l as [|x l IH]; intros Ho; cbn [own_cost foldr]; [done|]. specialize (IH ltac:(set_solver)). specialize (Ho x ltac:(set_solver)).
  unfold own_cost in IH. lia.
Qed.

Lemma fold_capped {T} (step : Z -> T -> Z) (own : T -> Z) c l : (forall c x, step (capped c) x = capped (c + own x)) ->
  foldl step (capped c) l = capped (c + own_cost own l).
Proof.
  intros Hs. revert c. induction l as [|x l IH]; intros c; cbn [foldl own_cost foldr]; [by rewrite Z.add_0_r|].
  rewrite Hs, IH. unfold own_cost. by rewrite Z.add_assoc.
Qed.

Lemma add_texts c (l : list (list Z)) : foldl (fun charge text => add charge (len text)) (capped c) l = capped (c + own_cost len l).
Proof. apply fold_capped. intros c' x. apply add_capped_l, len_nonneg. Qed.

Lemma no_unknown_charge : unknown_charge no_unknown = 0.
Proof. done. Qed.

(** A vector or a string holds at most [isize::MAX] elements. *)
Definition action_in_memory (a : Action.t) : Prop := len (Action.action_id a) <= i64_max /\ len (Action.applicable_categories a) <= i64_max.
Definition item_in_memory (i : Item.t) : Prop :=
  len (Item.stable_id i) <= i64_max /\ len (Item.search_terms i) <= i64_max /\ len (Item.actions i) <= i64_max /\ Forall action_in_memory (Item.actions i).

Lemma small_capped x : x <= i64_max -> capped x = x.
Proof. unfold i64_max. intros. apply capped_small. unfold usize_max, u64_max. lia. Qed.

(** [own] stands for [cost_of] in a saturating sum. *)
Definition stands_for {T} (own cost_of : T -> Z) (l : list T) : Prop :=
  forall c x, 0 <= c -> x ∈ l -> add (capped c) (own x) = capped (c + cost_of x) /\ 0 <= cost_of x.

Lemma stands_for_nonneg {T} (own cost_of : T -> Z) l : stands_for own cost_of l -> 0 <= own_cost cost_of l.
Proof. intros Ho. apply own_cost_nonneg. intros x Hx. by apply (Ho 0 x). Qed.

Lemma stands_for_texts (l : list (list Z)) : stands_for len len l.
Proof. intros c x _ _. split; [apply add_capped_l|]; apply len_nonneg. Qed.

(** The two running totals of a repeated field. *)
Lemma charge_repeated_spec {T} layout (own cost_of : T -> Z) l c : len l <= i64_max -> 0 <= c -> stands_for own cost_of l ->
  exists r, charge_repeated layout own l (capped c) = (r, capped (c + own_cost cost_of l)) /\ charged r = capped (pushes_cost layout (length l)).
Proof.
  intros Hl Hc Ho. unfold charge_repeated. rewrite new_repeated_spec. change (pushes_cost layout (length l)) with (pushes_cost layout (0 + length l)).
  assert (Hn : Z.of_nat 0 + len l <= i64_max) by done. revert Hn. generalize 0%nat as n. revert c Hc.
  induction l as [|x l IH]; intros c Hc n Hn; cbn [foldl fst snd own_cost foldr length].
  - rewrite Nat.add_0_r, Z.add_0_r. by eexists.
  - rewrite len_cons in Hn, Hl. pose proof (len_nonneg l). destruct (Ho c x Hc ltac:(set_solver)) as [-> Hx]. rewrite (push_charge_spec layout n) by (done || lia).
    replace (n + S (length l))%nat with (S n + length l)%nat by lia. unfold own_cost in IH. rewrite Z.add_assoc.
    apply IH; [lia | | lia | lia]. intros c' y Hc' Hy. apply Ho; set_solver.
Qed.

Lemma repeated_cost_total {T} layout (own : T -> Z) l : repeated_cost layout own 0 l = own_cost own l + pushes_cost layout (length l).
Proof. pose proof (repeated_cost_split layout own 0 l) as H. cbn [pushes_cost Nat.add] in H. lia. Qed.

(** [Action::decode_charge] is the cost of reading the action back. *)
Lemma action_charge_exact a : Action_valid a -> action_in_memory a -> action_decode_charge a = capped (Action_cost a).
Proof.
  intros Hv [Hid Hcat]. unfold action_decode_charge, Action_cost, Action_valid in *. destruct_and? Hv. rewrite <- (small_capped (len (Action.action_id a))) at 1 by done.
  rewrite add_texts. pose proof (len_nonneg (Action.action_id a)).
  match goal with |- context [own_cost len ?l] => pose proof (stands_for_nonneg len len l (stands_for_texts l)); set (c := len (Action.action_id a) + own_cost len l) end.
  destruct (charge_repeated_spec LString len len (Action.applicable_categories a) c Hcat ltac:(lia) (stands_for_texts _)) as (r & -> & Hr).
  rewrite Hr. replace (Action.unknown a) with no_unknown by congruence. rewrite no_unknown_charge, repeated_cost_total.
  pose proof (stands_for_nonneg len len _ (stands_for_texts (Action.applicable_categories a))). pose proof (pushes_cost_nonneg LString (length (Action.applicable_categories a))).
  rewrite add_capped, add_capped_l by lia. f_equal. unfold c. cbn [own_cost foldr]. lia.
Qed.

Lemma actions_stand l : Forall Action_valid l -> Forall action_in_memory l -> stands_for action_decode_charge Action_cost l.
Proof.
  rewrite !Forall_forall. intros Hv Hm c x Hc Hx. rewrite action_charge_exact by auto. pose proof (cost_nonneg x (Hv x Hx)) as Hn. cbn [cost Action_faithful] in Hn.
  by rewrite add_capped.
Qed.

Lemma map_charge_exact c (l : btree) :
  foldl (fun charge entry => add (add (add charge map_entry_charge) (len entry.1)) (len entry.2)) (capped c) l = capped (c + map_cost l).
Proof.
  pose proof map_entry_charge_nonneg. rewrite (fold_capped _ (fun e => len e.1 + len e.2 + map_entry_charge)).
  - reflexivity.
  - intros c' e. rewrite add_capped_l by done. rewrite !add_capped_l by apply len_nonneg. f_equal. lia.
Qed.

Lemma map_cost_nonneg l : 0 <= map_cost l.
Proof.
  pose proof map_entry_charge_nonneg. induction l as [|e l IH]; [done|]. cbn [map_cost foldr]. unfold map_cost in IH.
  pose proof (len_nonneg e.1). pose proof (len_nonneg e.2). lia.
Qed.

(** [Item::decode_charge] is the cost of reading the item back. *)
Lemma item_charge_exact i : Item_valid i -> item_in_memory i -> item_decode_charge i = capped (Item_cost i).
Proof.
  intros Hv (Hid & Hterms & Hacts & Hin). unfold item_decode_charge, Item_cost, Item_valid in *. destruct_and? Hv.
  rewrite <- (small_capped (len (Item.stable_id i))) at 1 by done. rewrite add_texts. pose proof (len_nonneg (Item.stable_id i)).
  match goal with |- context [own_cost len ?l] => pose proof (stands_for_nonneg len len l (stands_for_texts l)); set (c := len (Item.stable_id i) + own_cost len l) end.
  destruct (charge_repeated_spec LString len len (Item.search_terms i) c Hterms ltac:(lia) (stands_for_texts _)) as (r & -> & Hr).
  pose proof (stands_for_nonneg len len _ (stands_for_texts (Item.search_terms i))) as Hn1. pose proof (pushes_cost_nonneg LString (length (Item.search_terms i))) as Hn2.
  rewrite Hr, add_capped, map_charge_exact by lia. pose proof (map_cost_nonneg (Item.metadata i)).
  match goal with |- context [charge_repeated LAction _ _ (capped ?x)] => set (c2 := x) end.
  assert (Hst : stands_for action_decode_charge Action_cost (Item.actions i)) by (by apply actions_stand).
  destruct (charge_repeated_spec LAction _ _ (Item.actions i) c2 Hacts ltac:(lia) Hst) as (r2 & -> & Hr2). rewrite Hr2.
  replace (Item.unknown i) with no_unknown by congruence. rewrite no_unknown_charge, !repeated_cost_total.
  pose proof (stands_for_nonneg _ _ _ Hst). pose proof (pushes_cost_nonneg LAction (length (Item.actions i))).
  rewrite add_capped, add_capped_l by lia. f_equal. unfold c2, c. cbn [own_cost foldr]. change (@cost _ _ _ Action_faithful) with Action_cost. unfold own_cost. lia.
Qed.

Lemma items_stand l : Forall Item_valid l -> Forall item_in_memory l -> stands_for item_decode_charge Item_cost l.
Proof.
  rewrite !Forall_forall. intros Hv Hm c x Hc Hx. rewrite item_charge_exact by auto. pose proof (cost_nonneg x (Hv x Hx)) as Hn. cbn [cost Item_faithful] in Hn.
  by rewrite add_capped.
Qed.

(** ** Sizing a batch *)

(** What reading back the first [n] items of a batch costs. *)
Definition held (items : list Item.t) (n : nat) : Z := repeated_cost LItem Item_cost 0 (take n items).

Definition batch_ceiling : Z := DECODE_ALLOCATION_BUDGET - BATCH_OVERHEAD_RESERVE.

Lemma held_eq items n : (n <= length items)%nat -> held items n = own_cost Item_cost (take n items) + pushes_cost LItem n.
Proof. intros Hn. unfold held. by rewrite repeated_cost_total, length_take_le. Qed.

Lemma own_cost_app {T} (own : T -> Z) l l' : own_cost own (l ++ l') = own_cost own l + own_cost own l'.
Proof. unfold own_cost. induction l as [|x l IH]; cbn [foldr app]; lia. Qed.

Lemma held_mono items n : Forall Item_valid items -> (n < length items)%nat -> held items n <= held items (S n).
Proof.
  intros Hv Hn. rewrite !held_eq by lia. cbn [pushes_cost]. pose proof (push_cost_nonneg LItem n).
  destruct (lookup_lt_is_Some_2 items n Hn) as [x Hx]. rewrite (take_S_r _ _ _ Hx), own_cost_app. cbn [own_cost foldr].
  pose proof (cost_nonneg x (Forall_lookup_1 _ _ _ _ Hv Hx)) as Hc. cbn [cost Item_faithful] in Hc. lia.
Qed.

Lemma max_decodable_loop_spec ceiling items n rest vector contents :
  0 <= ceiling < usize_max -> Forall Item_valid items -> Forall item_in_memory items -> len items <= i64_max -> items = take n items ++ rest ->
  (n <= length items)%nat -> vector = mkRepeated (size_of LItem) (vec_capacity n) (Z.of_nat n) (capped (pushes_cost LItem n)) ->
  contents = capped (own_cost Item_cost (take n items)) ->
  exists k, (n <= k <= length items)%nat /\ (k = n \/ held items k <= ceiling) /\
    (k = length items /\ max_decodable_loop ceiling n vector contents rest = k \/
     (k < length items)%nat /\ ceiling < held items (S k) /\ max_decodable_loop ceiling n vector contents rest = Nat.max k 1).
Proof.
  intros Hceil Hv Hm Hl. revert n vector contents. induction rest as [|x rest IH]; intros n vector contents Hsplit Hn Hvec Hcon; cbn [max_decodable_loop].
  - rewrite app_nil_r in Hsplit. assert (length items = n) by (rewrite Hsplit, length_take; lia). exists n. split; [lia|]. split; [by left|]. by left.
  - assert (Hx : items !! n = Some x).
    { rewrite Hsplit, lookup_app_r by (rewrite length_take_le; lia). by rewrite length_take_le, Nat.sub_diag by lia. }
    pose proof (lookup_lt_Some _ _ _ Hx) as Hlt. rewrite (push_charge_spec LItem n vector); [|unfold len in Hl; lia | done]. cbn [charged].
    assert (Htake : take (S n) items = take n items ++ [x]) by exact (take_S_r _ _ _ Hx).
    pose proof (items_stand items Hv Hm) as Hst. pose proof (stands_for_nonneg _ _ _ (items_stand _ (Forall_take _ n _ Hv) (Forall_take _ n _ Hm))) as Hown.
    destruct (Hst (own_cost Item_cost (take n items)) x Hown ltac:(by eapply list_elem_of_lookup_2)) as [Ex Hxc].
    assert (Hcon' : add contents (item_decode_charge x) = capped (own_cost Item_cost (take (S n) items))).
    { rewrite Hcon, Ex, Htake, own_cost_app. cbn [own_cost foldr]. f_equal. lia. }
    assert (Hsum : own_cost Item_cost (take (S n) items) + pushes_cost LItem (S n) = held items (S n)) by (rewrite held_eq by lia; done).
    assert (Hown' : 0 <= own_cost Item_cost (take (S n) items)) by (rewrite Htake, own_cost_app; cbn [own_cost foldr]; lia).
    pose proof (pushes_cost_nonneg LItem (S n)). rewrite Hcon', add_capped by lia.
    replace (pushes_cost LItem (S n) + own_cost Item_cost (take (S n) items)) with (held items (S n)) by lia.
    destruct (Z.ltb_spec ceiling (capped (held items (S n)))) as [Hover|Hfits].
    + exists n. split; [lia|]. split; [by left|]. right. split; [done|]. split; [unfold capped in Hover; lia | done].
    + destruct (IH (S n) (mkRepeated (size_of LItem) (vec_capacity (S n)) (Z.of_nat (S n)) (capped (pushes_cost LItem (S n)))) (capped (own_cost Item_cost (take (S n) items))))
        as (k & Hk & Hheld & Hend); [rewrite Htake, <- app_assoc; exact Hsplit | lia | done | done |].
      exists k. split; [lia|]. split; [|exact Hend]. right. destruct Hheld as [->|]; [|done]. unfold capped in Hfits. lia.
Qed.

Lemma max_decodable_items_spec items : Forall Item_valid items -> Forall item_in_memory items -> len items <= i64_max ->
  let n := max_decodable_items items in
  (n <= length items)%nat /\ (items <> [] -> (1 <= n)%nat) /\ (held items n <= batch_ceiling \/ n = 1%nat) /\ ((n < length items)%nat -> batch_ceiling < held items (S n)).
Proof.
  intros Hv Hm Hl n. destruct (max_decodable_loop_spec batch_ceiling items 0 items (new_repeated LItem) 0) as (k & Hk & Hheld & Hend); try done; [lia|].
  assert (Hn : n = max_decodable_loop batch_ceiling 0 (new_repeated LItem) 0 items) by done. rewrite <- Hn in Hend. clearbody n.
  assert (H0 : held items 0 = 0) by (destruct items; done).
  destruct Hend as [[-> ->]|(Hlt & Hover & ->)].
  - split; [lia|]. split; [intros Hne; destruct items; [done | cbn; lia]|]. split; [|lia]. left. destruct Hheld as [E|]; [rewrite E, H0; done | done].
  - split; [lia|]. split; [lia|]. destruct (decide (k = 0%nat)) as [->|Hk0].
    + split; [by right|]. intros Hlt1. eapply Z.lt_le_trans; [exact Hover|]. apply (held_mono items 1); [done | exact Hlt1].
    + replace (Nat.max k 1) with k by lia. split; [|done]. left. destruct Hheld as [|]; [lia | done].
Qed.

(** ** Fields of a newer peer *)

Definition field_number (w : wire_field) : Z := match w with FVarint n _ | FBytes n _ | FFloat n _ => n end.

Lemma merges_unknown {A} {M : Message A} w (m : A) h : valid_field w -> unknown_of m = no_unknown ->
  (forall f, number f = field_number w -> merge_field_of Mem m f = None) ->
  merges (put_field w) m (with_unknown m (mkUnknown (put_field w) (len (put_field w)))) (len (put_field w)) h.
Proof.
  intros Hw Hu Hm. split; [apply len_nonneg|]. intros pre post fuel m'' c' Hl Hk Hf. pose proof (put_field_nonempty w Hw). pose proof (len_nonneg pre). pose proof (len_nonneg post).
  assert (Hmax : len (put_field w) <= MAX_FRAME_BYTES) by (rewrite !len_app in Hl; lia). unfold MAX_FRAME_BYTES, DECODE_ALLOCATION_BUDGET in Hl, Hmax.
  destruct (read_field_put pre w post Hw) as (f & E & Hf'); [unfold usize_max, u64_max; lia|].
  assert (Hn : number f = field_number w) by (destruct w; apply (proj2 Hf')).
  destruct (read_field_spec (pre ++ put_field w ++ post) (len pre) ltac:(lia)) as (next & r & E' & Hr). rewrite E in E'. injection E' as <- <-.
  destruct (Hr f eq_refl) as (_ & Hend & _ & _).
  destruct fuel as [|fuel]; [rewrite len_app in Hf; lia|].
  eapply yields_ext; [|apply (yields_bind (let! u := push_raw_bounded (unknown_of m) (put_field w) in ret (with_unknown m u))
    (merge_loop fuel (pre ++ put_field w ++ post) (len pre + len (put_field w))) (with_unknown m (mkUnknown (put_field w) (len (put_field w))))); [|apply Hk]].
  - intros b. cbn [merge_loop]. rewrite (proj2 (Z.leb_gt _ _)) by (rewrite !len_app; lia). rewrite E. cbn [mbind option_bind].
    change (bind (of_result (Ok f)) ?k b) with (k f b). cbn beta. unfold merge_one. rewrite (Hm f Hn), Hend. unfold bind. by rewrite slice_middle.
  - rewrite Hu. eapply yields_cost; [eapply yields_bind; [|apply yields_ret] | apply Z.add_0_r]. unfold push_raw_bounded.
    cbn [unknown_bytes unknown_capacity no_unknown]. change (len []) with 0. unfold checked_add, checked_mul, usize_max, u64_max.
    rewrite (proj2 (Z.leb_le _ _)) by lia. rewrite (proj2 (Z.ltb_lt _ _)) by lia. change (0 * 2 <=? 18446744073709551615) with true. cbn [mbind option_bind].
    rewrite checked_sub_le by lia. eapply yields_cost; [eapply yields_bind; [apply yields_charge; lia|] | ].
    + cbn beta. rewrite reserve_succeeds, andb_false_r. unfold grow_amortized, reserve_exact.
      replace (Z.max (0 * 2) (0 + len (put_field w)) - 0) with (len (put_field w)) by lia.
      rewrite (proj2 (Z.ltb_lt (0 - 0) _)) by lia. rewrite Z.ltb_irrefl. apply yields_ret.
    + lia.
  - rewrite len_app in Hf. lia.
Qed.
End Instances.

(** * The claims *)

(** C19: every envelope is read back as it was written.  The receiver refuses it
    only if its frame is too long, or if what it would allocate for it exceeds
    the budget of one message; otherwise it has the very same envelope. *)
Theorem envelope_roundtrip (Mem : Memory) (Am : Ample Mem) (e : Envelope.t) :
  Envelope_valid e ->
  let bytes := Envelope.encode e in
  if MAX_FRAME_BYTES <? len bytes then decode (A := Envelope.t) bytes = Some (Err (FrameTooLarge (len bytes)))
  else if Envelope_cost e <=? DECODE_ALLOCATION_BUDGET then decode bytes = Some (Ok e)
  else exists requested remaining, decode (A := Envelope.t) bytes = Some (Err (DecodeBudgetExceeded requested remaining)).
Proof.
  intros Hv bytes. destruct (decode_encoded (F := Envelope_faithful) e Hv ltac:(done)) as [[E Hl]|[Hl E]].
  - change (encode_message e) with bytes in *. by rewrite (proj2 (Z.ltb_lt _ _) Hl).
  - change (encode_message e) with bytes in *. by rewrite (proj2 (Z.ltb_ge _ _) Hl).
Qed.

#[local] Instance test_memory : Memory := {| reserve _ := true; size_of l := match l with LString => 24 | LEntry => 48 | _ => 256 end |}.

#[local] Instance test_memory_ample : Ample test_memory.
Proof. split; [done|]. intros []; vm_compute; split; discriminate. Qed.

Definition sample_action : Action.t := Action.mk [111] [79] [] [] [] [[102]] no_unknown.
Definition sample_item : Item.t := Item.mk [105] [195; 169] [] [] [] [[97]; [98]] [] (-3) [([107], [118]); ([108], [])] [sample_action] [] [] no_unknown.
Definition sample_batch : ResultBatch.t := ResultBatch.default_message <| ResultBatch.items := [sample_item; sample_item] |>.
Definition sample_envelope : Envelope.t := Envelope.mk 7 u64_max 0 300 (Some (PResults sample_batch)) no_unknown.

Lemma sample_action_valid : Action_valid sample_action.
Proof. repeat constructor; by eexists. Qed.

Lemma sample_item_valid : Item_valid sample_item.
Proof.
  unfold Item_valid. split_and!; try (by eexists); try (vm_compute; discriminate); try (repeat constructor; by eexists).
Qed.

Lemma sample_envelope_valid : Envelope_valid sample_envelope.
Proof.
  unfold Envelope_valid. split_and!; try (split; discriminate); try reflexivity.
  intros p [= <-]. cbn [payload_valid]. unfold ResultBatch_valid. split_and!; try (split; discriminate).
  all: try (intros x [=]). all: try reflexivity.
  exact (Forall_cons_2 _ _ _ sample_item_valid (Forall_cons_2 _ _ _ sample_item_valid (Forall_nil_2 _))).
Qed.

Lemma envelope_roundtrip_witness :
  let bytes := Envelope.encode sample_envelope in
  if MAX_FRAME_BYTES <? len bytes then decode (A := Envelope.t) bytes = Some (Err (FrameTooLarge (len bytes)))
  else if Envelope_cost sample_envelope <=? DECODE_ALLOCATION_BUDGET then decode bytes = Some (Ok sample_envelope)
  else exists requested remaining, decode (A := Envelope.t) bytes = Some (Err (DecodeBudgetExceeded requested remaining)).
Proof. exact (envelope_roundtrip test_memory test_memory_ample sample_envelope sample_envelope_valid). Defined.

(** C20: decoding is total.  Whatever bytes arrive, the decoder of an envelope
    returns without a panic (a slice out of range, an overflow of a counter, an
    endless loop), never charges more than its budget, and leaves every nested
    message it entered. *)
Theorem decoding_is_total (Mem : Memory) (Sz : Sized Mem) (bytes : list Z) :
  exists b r, decode_with_budget (A := Envelope.t) bytes new_decode_budget = Some (b, r) /\
    0 <= budget_remaining b <= DECODE_ALLOCATION_BUDGET /\ budget_depth b = 0 /\
    decode (A := Envelope.t) bytes = Some (if MAX_FRAME_BYTES <? len bytes then Err (FrameTooLarge (len bytes)) else r).
Proof.
  destruct (total_merge (A := Envelope.t) empty_message bytes new_decode_budget ltac:(by split)) as (b & r & E & [Hb Hdep] & Hd & Hr).
  exists b, r. split; [exact E|]. split; [done|]. split; [done|]. unfold decode, ensure_message_size, decode_with_budget. rewrite E. by destruct (_ <? _).
Qed.

Lemma decoding_is_total_witness :
  exists b r, decode_with_budget (A := Envelope.t) [8; 128; 83; 255] new_decode_budget = Some (b, r) /\
    0 <= budget_remaining b <= DECODE_ALLOCATION_BUDGET /\ budget_depth b = 0 /\
    decode (A := Envelope.t) [8; 128; 83; 255] = Some (if MAX_FRAME_BYTES <? len [8; 128; 83; 255] then Err (FrameTooLarge (len [8; 128; 83; 255])) else r).
Proof. exact (decoding_is_total test_memory (Ample_Sized test_memory) [8; 128; 83; 255]). Defined.

(** The batch an envelope carries: its items and its error. *)
Definition batch_of (e : Envelope.t) : option (list Item.t * option StructuredError.t) :=
  match Envelope.payload e with
  | Some (PResults b) => Some (ResultBatch.items b, ResultBatch.error b)
  | Some (PCatalogBatch b) => Some (CatalogBatch.items b, CatalogBatch.error b)
  | _ => None
  end.

Lemma batch_cost {Mem : Memory} {Am : Ample Mem} e items error n : batch_of e = Some (take n items, error) ->
  Envelope_cost e = held items n + option_cost error.
Proof. unfold batch_of, Envelope_cost, held. destruct (Envelope.payload e) as [[]|]; try done; intros [= <- <-]; reflexivity. Qed.

(** C23: a batch sized by [max_decodable_items] can be decoded.  The number is a
    prefix of the items, not empty unless there are none, and maximal: one more
    item would exceed the ceiling.  The receiver of a batch of that many items
    reads it as it was sent, unless it is a single item too large for any
    batch.  This is for items without fields of a newer peer (with them it can
    fail, [unknown_charge_not_a_bound]), a batch whose error report costs no more
    than the reserve kept for the rest of the envelope, and an encoded envelope no
    longer than a frame. *)
Theorem sized_batches_decode (Mem : Memory) (Am : Ample Mem) (items : list Item.t) (error : option StructuredError.t) (e : Envelope.t) :
  let n := max_decodable_items items in
  Forall Item_valid items -> Forall item_in_memory items -> len items <= i64_max ->
  Envelope_valid e -> batch_of e = Some (take n items, error) -> option_cost error <= BATCH_OVERHEAD_RESERVE ->
  len (Envelope.encode e) <= MAX_FRAME_BYTES ->
  (n <= length items)%nat /\ (items <> [] -> (1 <= n)%nat) /\ ((n < length items)%nat -> batch_ceiling < held items (S n)) /\
  (decode (Envelope.encode e) = Some (Ok e) \/ n = 1%nat /\ batch_ceiling < held items 1).
Proof.
  intros n Hv Hm Hl He Hb Herr Hlen. destruct (max_decodable_items_spec items Hv Hm Hl) as (H1 & H2 & H3 & H4). fold n in H1, H2, H3, H4.
  split_and!; [done..|]. destruct (Z.leb_spec (held items n) batch_ceiling) as [Hle|Hgt]; [left | right; destruct H3 as [|E]; [lia|]; by rewrite E in Hgt].
  destruct (decode_encoded (F := Envelope_faithful) e He ltac:(done)) as [[_ Hover]|[_ Hd]]; [change (encode_message e) with (Envelope.encode e) in Hover; lia|].
  change (cost e) with (Envelope_cost e) in Hd. rewrite (batch_cost e items error n Hb) in Hd. unfold batch_ceiling in Hle. by rewrite (proj2 (Z.leb_le _ _)) in Hd by lia.
Qed.

Lemma sized_batches_decode_witness :
  let n := max_decodable_items [sample_item; sample_item] in
  (n <= 2)%nat /\ ([sample_item; sample_item] <> [] -> (1 <= n)%nat) /\ ((n < 2)%nat -> batch_ceiling < held [sample_item; sample_item] (S n)) /\
  (decode (Envelope.encode sample_envelope) = Some (Ok sample_envelope) \/ n = 1%nat /\ batch_ceiling < held [sample_item; sample_item] 1).
Proof.
  apply (sized_batches_decode test_memory test_memory_ample [sample_item; sample_item] None sample_envelope).
  - exact (Forall_cons_2 _ _ _ sample_item_valid (Forall_cons_2 _ _ _ sample_item_valid (Forall_nil_2 _))).
  - repeat constructor; vm_compute; discriminate.
  - vm_compute. discriminate.
  - apply sample_envelope_valid.
  - vm_compute. reflexivity.
  - vm_compute. discriminate.
  - vm_compute. discriminate.
Defined.

Lemma unknown_merges {Mem : Memory} (m : Envelope.t) f n : number f = n -> n <= 0 \/ 4 < n < 10 \/ 42 < n -> Envelope.merge_field m f = None.
Proof.
  intros E Hn. unfold Envelope.merge_field. rewrite E. destruct n as [|p|p]; [done | | done].
  do 6 (destruct p as [p|p|]; try done; try (exfalso; lia)).
Qed.

(** C24: a message of a newer peer passes through.  An envelope with one more
    field, of a number this version does not know, is read as the envelope with
    that field kept aside, and written again byte for byte. *)
Theorem newer_fields_pass_through (Mem : Memory) (Am : Ample Mem) (e : Envelope.t) (w : wire_field) :
  Envelope_valid e -> valid_field w -> 4 < field_number w < 10 \/ 42 < field_number w ->
  len (Envelope.encode e ++ put_field w) <= MAX_FRAME_BYTES -> Envelope_cost e + len (put_field w) <= DECODE_ALLOCATION_BUDGET ->
  exists e', decode (Envelope.encode e ++ put_field w) = Some (Ok e') /\ Envelope.encode e' = Envelope.encode e ++ put_field w /\
    Envelope.payload e' = Envelope.payload e /\ Envelope.request_id e' = Envelope.request_id e.
Proof.
  intros He Hw Hn Hl Hc. exists (e <| Envelope.unknown := mkUnknown (put_field w) (len (put_field w)) |>).
  assert (Hu : Envelope.unknown e = no_unknown) by (unfold Envelope_valid in He; by destruct_and? He).
  split; [|split; [|done]].
  - pose proof (merges_app _ _ _ _ _ _ _ _ (Envelope_reads_back e He)
      (merges_unknown w e 3 Hw Hu (fun f Hf => unknown_merges e f _ Hf ltac:(lia)))) as Hm.
    unfold decode, ensure_message_size. rewrite (proj2 (Z.ltb_ge _ _)) by done.
    destruct (yields_merges _ _ _ _ Hm Hl) as [_ Hy]. specialize (Hy new_decode_budget ltac:(by split)). cbn [budget_remaining new_decode_budget] in Hy.
    rewrite (proj2 (Z.leb_le _ _)) in Hy by done. by rewrite Hy.
  - unfold Envelope.encode, finish. rewrite Hu. cbn. by rewrite app_nil_r.
Qed.

Lemma newer_fields_pass_through_witness :
  exists e', decode (Envelope.encode sample_envelope ++ put_field (FBytes 77 [1; 2])) = Some (Ok e') /\
    Envelope.encode e' = Envelope.encode sample_envelope ++ put_field (FBytes 77 [1; 2]) /\
    Envelope.payload e' = Envelope.payload sample_envelope /\ Envelope.request_id e' = Envelope.request_id sample_envelope.
Proof.
  apply (newer_fields_pass_through test_memory test_memory_ample).
  - apply sample_envelope_valid.
  - split; vm_compute; discriminate.
  - right. reflexivity.
  - vm_compute. discriminate.
  - vm_compute. discriminate.
Defined.

(** The budget does not cover all of it: the buffer of the unknown fields may
    grow past what was charged, since what [reserve_exact] adds is counted from
    the length and not from the capacity. *)
Lemma unknown_fields_undercharged :
  (let! u := push_raw_bounded no_unknown (repeat 0 10) in let! u := push_raw_bounded u (repeat 0 1) in
   let! u := push_raw_bounded u (repeat 0 100) in ret (unknown_capacity u)) new_decode_budget =
  Some (mkDecodeBudget (DECODE_ALLOCATION_BUDGET - 111) 0, Ok 204).
Proof. vm_compute. reflexivity. Qed.

(** Nor is what a producer accounts for them a bound of what is charged: for four
    fields of 33 bytes in all it accounts for 66, and the receiver charges 72. *)
Lemma unknown_charge_not_a_bound :
  (let! u := push_raw_bounded no_unknown (repeat 0 10) in let! u := push_raw_bounded u (repeat 0 2) in
   let! u := push_raw_bounded u (repeat 0 15) in let! u := push_raw_bounded u (repeat 0 6) in ret (unknown_charge u)) new_decode_budget =
  Some (mkDecodeBudget (DECODE_ALLOCATION_BUDGET - 72) 0, Ok 66).
Proof. vm_compute. reflexivity. Qed.

(** A web frame that passes is a picture of its size, of at most two megabytes. *)
Lemma web_frame_valid_iff f : 0 <= WebFrame.pixel_width f -> 0 <= WebFrame.pixel_height f ->
  validate_web_frame f = Ok () <->
  (1 <= WebFrame.pixel_width f <= 4096 /\ 1 <= WebFrame.pixel_height f <= 4096 /\
   len (WebFrame.rgba8 f) = WebFrame.pixel_width f * WebFrame.pixel_height f * 4 /\ len (WebFrame.rgba8 f) <= 2 * 1024 * 1024).
Proof.
  intros Hw Hh. unfold validate_web_frame, MAX_WEB_FRAME_EDGE, MAX_WEB_FRAME_BYTES. set (w := WebFrame.pixel_width f) in *. set (h := WebFrame.pixel_height f) in *.
  set (n := len (WebFrame.rgba8 f)). generalize (w * h * 4). intros expected.
  destruct (_ || _) eqn:E1; [split; [done | lia]|]. destruct (negb _) eqn:E2; [split; [done | lia]|]. destruct (_ <? expected) eqn:E3; split; (done || lia).
Qed.
