(* ===== verification/Convert.v ===== *)
(** Between the values of the host and the messages of the native protocol,
    [crikey-native-protocol/src/convert.rs]: items, actions, categories,
    policies, page frames and page inputs, in both directions, and that what one
    side publishes is what the other receives.

    The host's [String]s are [string]s and its floats [spec_float]s; a message
    has the bytes of the one and the bits of the other. *)

From Stdlib Require Import SpecFloat.
From S2P Require Import Prelude Text Utf8 StdFloat Page PageFacts Items Wire Message MessageFacts MessageRoundtrip.

(** * Items *)

Definition category_tag (c : Category) : list Z := as_bytes (wire_tag c).
Definition category_from_tag (tag : list Z) : Category := from_wire_tag (string_of_bytes tag).

Definition argument_policy_tag (p : ArgumentPolicy) : string :=
  match p with ArgForbidden => "forbidden" | ArgOptional => "optional" | ArgRequired => "required" end.

Definition argument_policy_from_tag (tag : string) : ArgumentPolicy :=
  if String.eqb tag "optional" then ArgOptional else if String.eqb tag "required" then ArgRequired else ArgForbidden.

Definition hit_policy_tag (p : HitPolicy) : string := match p with HitRecorded => "recorded" | HitIgnored => "ignored" end.
Definition hit_policy_from_tag (tag : string) : HitPolicy := if String.eqb tag "ignored" then HitIgnored else HitRecorded.

(** [unwrap_or_default] and [(!s.is_empty()).then(..)]. *)
Definition icon_bytes (icon : option string) : list Z := match icon with Some s => as_bytes s | None => [] end.
Definition icon_of_bytes (b : list Z) : option string := if is_empty b then None else Some (string_of_bytes b).

Definition to_proto_action (a : Action) : Action.t := {|
  Action.action_id := as_bytes (action_id a);
  Action.label := as_bytes (action_label a);
  Action.description := as_bytes (action_description a);
  Action.icon_reference := icon_bytes (action_icon_reference a);
  Action.execution_policy := as_bytes (match execution_policy a with HostMediated => "host-mediated" | ExecPlugin => "plugin" end);
  Action.applicable_categories := map category_tag (applicable_categories a);
  Action.unknown := no_unknown;
|}.

Definition from_proto_action (a : Action.t) : Action := {|
  action_id := string_of_bytes (Action.action_id a);
  action_label := string_of_bytes (Action.label a);
  action_description := string_of_bytes (Action.description a);
  applicable_categories := map category_from_tag (Action.applicable_categories a);
  action_icon_reference := icon_of_bytes (Action.icon_reference a);
  execution_policy := if String.eqb (string_of_bytes (Action.execution_policy a)) "host-mediated" then HostMediated else ExecPlugin;
|}.

Definition to_proto_item (i : Item) : Item.t := {|
  Item.stable_id := as_bytes (stable_id i);
  Item.label := as_bytes (item_label i);
  Item.description := as_bytes (item_description i);
  Item.target := as_bytes (item_target i);
  Item.category := category_tag (category i);
  Item.search_terms := map as_bytes (search_terms i);
  Item.icon_reference := icon_bytes (icon_reference i);
  Item.score_hint := score_hint i;
  Item.metadata := map (fun e => (as_bytes e.1, as_bytes e.2)) (metadata i);
  Item.actions := map to_proto_action (actions i);
  Item.argument_policy := as_bytes (argument_policy_tag (argument_policy i));
  Item.hit_policy := as_bytes (hit_policy_tag (hit_policy i));
  Item.unknown := no_unknown;
|}.

Definition from_proto_item (plugin : PluginId) (i : Item.t) : Item :=
  let cat := category_from_tag (Item.category i) in {|
  stable_id := if is_empty (Item.stable_id i) then derived plugin cat (string_of_bytes (Item.target i)) else string_of_bytes (Item.stable_id i);
  plugin_id := plugin;
  category := cat;
  item_label := string_of_bytes (Item.label i);
  item_description := string_of_bytes (Item.description i);
  item_target := string_of_bytes (Item.target i);
  search_terms := map string_of_bytes (Item.search_terms i);
  icon_reference := icon_of_bytes (Item.icon_reference i);
  argument_policy := argument_policy_from_tag (string_of_bytes (Item.argument_policy i));
  hit_policy := hit_policy_from_tag (string_of_bytes (Item.hit_policy i));
  score_hint := Item.score_hint i;
  metadata := map (fun e => (string_of_bytes e.1, string_of_bytes e.2)) (Item.metadata i);
  actions := map from_proto_action (Item.actions i);
|}.

(** * Pages *)

(** The bits of an [f32]; every NaN has the same. *)
Definition f32_to_bits (x : f32) : Z :=
  let sign (s : bool) := if s then 2147483648 else 0 in
  match x with
  | S754_zero s => sign s
  | S754_infinity s => sign s + 2139095040
  | S754_nan => 2143289344
  | S754_finite s m e => sign s + (if Z.pos m <? 8388608 then Z.pos m else (e + 150) * 8388608 + (Z.pos m - 8388608))
  end.

Definition f32_of_bits (bits : Z) : f32 :=
  let s := 2147483648 <=? bits in
  let e := (bits / 8388608) mod 256 in
  let m := bits mod 8388608 in
  if e =? 255 then if m =? 0 then S754_infinity s else S754_nan
  else
    match (if e =? 0 then m else m + 8388608) with
    | Z.pos p => S754_finite s p (if e =? 0 then -149 else e - 150)
    | _ => S754_zero s
    end.













Definition code_of_input (k : PageInputKind) : PageInputCode.t :=
  match k with
  | Opened => PageInputCode.Opened
  | PointerMoved => PageInputCode.PointerMoved
  | PointerPressed => PageInputCode.PointerPressed
  | PointerReleased => PageInputCode.PointerReleased
  | KeyPressed => PageInputCode.KeyPressed
  | TextInput => PageInputCode.TextInput
  | Activated => PageInputCode.Activated
  | FocusChanged => PageInputCode.FocusChanged
  | Page.Closed => PageInputCode.Closed
  | Unspecified => PageInputCode.KindUnspecified
  end.

Definition input_of_code (c : PageInputCode.t) : PageInputKind :=
  match c with
  | PageInputCode.Opened => Opened
  | PageInputCode.PointerMoved => PointerMoved
  | PageInputCode.PointerPressed => PointerPressed
  | PageInputCode.PointerReleased => PointerReleased
  | PageInputCode.KeyPressed => KeyPressed
  | PageInputCode.TextInput => TextInput
  | PageInputCode.Activated => Activated
  | PageInputCode.FocusChanged => FocusChanged
  | PageInputCode.Closed => Page.Closed
  | PageInputCode.KindUnspecified => Unspecified
  end.

Definition to_proto_page_input (i : PageInput) : PageInput.t := {|
  PageInput.kind := code_of_input (input_kind i);
  PageInput.x := f32_to_bits (input_x i);
  PageInput.y := f32_to_bits (input_y i);
  PageInput.key := as_bytes (input_key i);
  PageInput.text := as_bytes (input_text i);
  PageInput.node_id := input_node_id i;
  PageInput.ctrl := ctrl i;
  PageInput.shift := shift i;
  PageInput.alt := alt i;
  PageInput.unknown := no_unknown;
|}.

Definition from_proto_page_input (i : PageInput.t) : PageInput := {|
  input_kind := input_of_code (PageInput.kind i);
  input_x := f32_of_bits (PageInput.x i);
  input_y := f32_of_bits (PageInput.y i);
  input_key := string_of_bytes (PageInput.key i);
  input_text := string_of_bytes (PageInput.text i);
  input_node_id := PageInput.node_id i;
  ctrl := PageInput.ctrl i;
  shift := PageInput.shift i;
  alt := PageInput.alt i;
|}.

(** * What arrives *)

(** An item as the host has it after the wire: owned by the plugin it came from,
    under a derived identity if it had none, without empty icon references. *)
Definition some_icon (icon : option string) : option string := match icon with Some EmptyString => None | _ => icon end.

Definition action_received (a : Action) : Action :=
  mkAction (action_id a) (action_label a) (action_description a) (applicable_categories a) (some_icon (action_icon_reference a)) (execution_policy a).

Definition item_received (plugin : PluginId) (i : Item) : Item :=
  mkItem (if String.eqb (stable_id i) "" then derived plugin (category i) (item_target i) else stable_id i) plugin (category i)
    (item_label i) (item_description i) (item_target i) (search_terms i) (some_icon (icon_reference i))
    (argument_policy i) (hit_policy i) (score_hint i) (metadata i) (map action_received (actions i)).

Lemma category_tag_roundtrip c : category_from_tag (category_tag c) = c.
Proof.
  unfold category_from_tag, category_tag. rewrite string_of_as_bytes. destruct c; [reflexivity..|].
  unfold wire_tag, from_wire_tag. by rewrite strip_prefix_app.
Qed.

Lemma map_id_ext {A} (f : A -> A) l : (forall x, f x = x) -> map f l = l.
Proof. intros H. induction l as [|x l IH]; cbn; [done|]. by rewrite H, IH. Qed.

Lemma icon_roundtrip icon : icon_of_bytes (icon_bytes icon) = some_icon icon.
Proof. destruct icon as [[|a s]|]; try done. unfold icon_of_bytes, icon_bytes. change (is_empty (as_bytes (String a s))) with false. cbn [some_icon]. by rewrite string_of_as_bytes. Qed.

Lemma is_empty_bytes s : is_empty (as_bytes s) = String.eqb s "".
Proof. by destruct s. Qed.

Lemma action_roundtrip a : from_proto_action (to_proto_action a) = action_received a.
Proof.
  destruct a as [id label description cats icon policy]. unfold from_proto_action, to_proto_action, action_received.
  cbn [Action.action_id Action.label Action.description Action.applicable_categories Action.icon_reference Action.execution_policy
       action_id action_label action_description applicable_categories action_icon_reference execution_policy].
  rewrite !string_of_as_bytes, icon_roundtrip, map_map, (map_id_ext (fun x => category_from_tag (category_tag x))) by apply category_tag_roundtrip.
  by destruct policy.
Qed.

Lemma item_roundtrip plugin i : from_proto_item plugin (to_proto_item i) = item_received plugin i.
Proof.
  destruct i as [id owner cat label description target terms icon arg hit score meta acts]. unfold from_proto_item, to_proto_item, item_received.
  cbn [Item.stable_id Item.label Item.description Item.target Item.category Item.search_terms Item.icon_reference Item.score_hint Item.metadata Item.actions
       Item.argument_policy Item.hit_policy stable_id category item_label item_description item_target search_terms icon_reference argument_policy hit_policy
       score_hint metadata actions].
  rewrite !string_of_as_bytes, icon_roundtrip, category_tag_roundtrip, is_empty_bytes, !map_map.
  rewrite (map_id_ext (fun x => string_of_bytes (as_bytes x))) by apply string_of_as_bytes.
  rewrite (map_id_ext (fun x : string * string => _)) by (intros []; cbn; by rewrite !string_of_as_bytes).
  rewrite (map_ext (fun x => from_proto_action (to_proto_action x)) action_received) by apply action_roundtrip.
  by destruct arg, hit.
Qed.

(** ** Pages *)

(** A binary32 number, or the one NaN. *)
Definition representable (x : f32) : Prop := valid_binary f32_precision f32_emax x = true.

Lemma canonical_bounds m e : bounded f32_precision f32_emax m e = true ->
  Z.pos m < 16777216 /\ e <= 104 /\ (e = -149 \/ -149 < e /\ 8388608 <= Z.pos m).
Proof.
  unfold bounded, canonical_mantissa, fexp, emin, f32_precision, f32_emax. intros [Hc He]%andb_true_iff. apply Z.eqb_eq in Hc. apply Z.leb_le in He.
  rewrite digits2_log2 in Hc. pose proof (Z.log2_spec (Z.pos m) ltac:(lia)) as [Hlo Hhi]. pose proof (Z.log2_nonneg (Z.pos m)).
  assert (Hlog : Z.log2 (Z.pos m) <= 23) by lia.
  assert (Z.pos m < 16777216). { eapply Z.lt_le_trans; [exact Hhi|]. change 16777216 with (2 ^ 24). apply Z.pow_le_mono_r; lia. }
  split; [done|]. split; [lia|]. destruct (Z.eq_dec e (-149)); [by left | right]. split; [lia|].
  assert (Z.log2 (Z.pos m) = 23) as E by lia. rewrite E in Hlo. exact Hlo.
Qed.

Lemma f32_bits_roundtrip x : representable x -> f32_of_bits (f32_to_bits x) = x.
Proof.
  unfold representable. destruct x as [s|s| |s m e]; try (destruct s; reflexivity); [reflexivity|]. cbn [valid_binary].
  intros (Hm & He & Hcase)%canonical_bounds. unfold f32_to_bits.
  set (w := if Z.pos m <? 8388608 then Z.pos m else (e + 150) * 8388608 + (Z.pos m - 8388608)).
  set (ex := if Z.pos m <? 8388608 then 0 else e + 150). set (mm := if Z.pos m <? 8388608 then Z.pos m else Z.pos m - 8388608).
  assert (Hw : w = ex * 8388608 + mm) by (unfold w, ex, mm; destruct (_ <? _); lia).
  assert (Hex : 0 <= ex < 255 /\ 0 <= mm < 8388608) by (unfold ex, mm; destruct (Z.ltb_spec (Z.pos m) 8388608); lia).
  assert (Hs : exists t, (0 <= t <= 1) /\ (if s then 2147483648 else 0) = t * 2147483648 /\ s = (t =? 1)) by (destruct s; [exists 1 | exists 0]; done).
  destruct Hs as (t & Ht & -> & Es). unfold f32_of_bits.
  assert (E1 : (2147483648 <=? t * 2147483648 + w) = s) by (rewrite Es; destruct (Z.eqb_spec t 1), (Z.leb_spec 2147483648 (t * 2147483648 + w)); (done || lia)).
  assert (E2 : (t * 2147483648 + w) mod 8388608 = mm).
  { rewrite Hw. replace (t * 2147483648 + (ex * 8388608 + mm)) with (mm + (t * 256 + ex) * 8388608) by lia. rewrite Z_mod_plus_full. apply Z.mod_small. lia. }
  assert (E3 : (t * 2147483648 + w) / 8388608 mod 256 = ex).
  { rewrite Hw. replace (t * 2147483648 + (ex * 8388608 + mm)) with (mm + (t * 256 + ex) * 8388608) by lia. rewrite Z_div_plus_full, Z.div_small by lia.
    replace (0 + (t * 256 + ex)) with (ex + t * 256) by lia. rewrite Z_mod_plus_full. apply Z.mod_small. lia. }
  rewrite E1, E2, E3. destruct (Z.eqb_spec ex 255); [lia|]. unfold ex, mm in *. destruct (Z.ltb_spec (Z.pos m) 8388608).
  - cbn. f_equal. lia.
  - destruct (Z.eqb_spec (e + 150) 0); [lia|]. replace (Z.pos m - 8388608 + 8388608) with (Z.pos m) by lia. f_equal. lia.
Qed.



















Lemma input_roundtrip i : representable (input_x i) -> representable (input_y i) -> from_proto_page_input (to_proto_page_input i) = i.
Proof.
  destruct i as [k x y key te id c s a]. cbn. intros Hx Hy. unfold from_proto_page_input, to_proto_page_input. cbn.
  rewrite !f32_bits_roundtrip, !string_of_as_bytes by done. by destruct k.
Qed.

Section Valid.
Context {Mem : Memory} {Am : Ample Mem}.



End Valid.

(** ** Items *)

Definition action_sendable (a : Action) : Prop :=
  Forall (fun s => valid_text (as_bytes s)) ([action_id a; action_label a; action_description a] ++ map wire_tag (applicable_categories a)) /\
  valid_text (icon_bytes (action_icon_reference a)).

(** Its texts are UTF-8, its metadata in the order of its keys and its score an [i32]. *)
Definition item_sendable (i : Item) : Prop :=
  Forall (fun s => valid_text (as_bytes s)) ([stable_id i; item_label i; item_description i; item_target i; wire_tag (category i)] ++ search_terms i) /\
  valid_text (icon_bytes (icon_reference i)) /\ -2147483648 <= score_hint i <= 2147483647 /\
  valid_map (map (fun e => (as_bytes e.1, as_bytes e.2)) (metadata i)) /\ Forall action_sendable (actions i).

Section ItemValid.
Context {Mem : Memory} {Am : Ample Mem}.

Lemma action_valid a : action_sendable a -> Action_valid (to_proto_action a).
Proof.
  intros [Ht Hi]. rewrite Forall_app, !Forall_cons, Forall_map in Ht. destruct_and? Ht. unfold Action_valid. cbn. split_and!; try done.
  - destruct (execution_policy a); by eexists.
  - apply Forall_map. done.
Qed.

Lemma item_valid i : item_sendable i -> Item_valid (to_proto_item i).
Proof.
  intros (Ht & Hi & Hs & Hm & Ha). rewrite Forall_app, !Forall_cons in Ht. destruct_and? Ht. unfold Item_valid. cbn. split_and!; try done; try lia.
  - by apply Forall_map.
  - apply Forall_map. eapply Forall_impl; [exact Ha|]. intros a. apply action_valid.
  - destruct (argument_policy i); by eexists.
  - destruct (hit_policy i); by eexists.
Qed.

End ItemValid.

(** * The claims *)

(** C18: what a plugin publishes arrives.  A batch of items, converted, written,
    read and converted back, is the batch that was published: every item in its
    place and, but for its owner, the derived identity of an item that had none
    and icon references that were empty, with every field as it was. *)
Theorem published_items_arrive (Mem : Memory) (Am : Ample Mem) (plugin : PluginId) (items : list Item)
    (connection request generation deadline sequence : Z) (state : BatchState.t) :
  let b := ResultBatch.mk state (map to_proto_item items) sequence None no_unknown in
  let e := Envelope.mk connection request generation deadline (Some (PResults b)) no_unknown in
  Forall item_sendable items -> Forall (in_range u64_max) [connection; request; generation; deadline; sequence] ->
  len (Envelope.encode e) <= MAX_FRAME_BYTES -> Envelope_cost e <= DECODE_ALLOCATION_BUDGET ->
  exists b', decode (Envelope.encode e) = Some (Ok (Envelope.mk connection request generation deadline (Some (PResults b')) no_unknown)) /\
    ResultBatch.state b' = state /\ ResultBatch.sequence b' = sequence /\
    map (from_proto_item plugin) (ResultBatch.items b') = map (item_received plugin) items.
Proof.
  intros b e Hi Hr Hl Hc. rewrite !Forall_cons in Hr. destruct_and? Hr.
  assert (He : Envelope_valid e).
  { unfold Envelope_valid. cbn. split_and!; try done. intros p [= <-]. cbn. unfold ResultBatch_valid. cbn. split_and!; try done.
    apply Forall_map. eapply Forall_impl; [exact Hi|]. intros i. apply item_valid. }
  exists b. split; [|split; [done | split; [done|]]].
  - destruct (decode_encoded (F := Envelope_faithful) e He ltac:(done)) as [[_ Hover]|[_ Hd]]; [change (encode_message e) with (Envelope.encode e) in Hover; lia|].
    change (cost e) with (Envelope_cost e) in Hd. by rewrite (proj2 (Z.leb_le _ _)) in Hd by done.
  - unfold b. cbn. rewrite map_map. apply map_ext. intros i. apply item_roundtrip.
Qed.

#[local] Existing Instance test_memory.
#[local] Existing Instance test_memory_ample.

Definition sample_core_item : Item :=
  mkItem "" "sender" (PluginDefined "notes") "N" "a note" "note:1" ["n"; "note"] (Some EmptyString) ArgOptional HitIgnored (-7)
    [("a", "1"); ("b", "")] [mkAction "open" "Open" "" [PluginDefined "notes"; Url] None ExecPlugin].

Lemma sample_core_item_sendable : item_sendable sample_core_item.
Proof.
  unfold item_sendable. split_and!.
  - repeat constructor; by eexists.
  - by eexists.
  - done.
  - done.
  - split; repeat constructor; by eexists.
  - constructor; [|constructor]. split; [repeat constructor; by eexists | by eexists].
Qed.

Definition sample_item_batch : ResultBatch.t := ResultBatch.mk BatchState.Final (map to_proto_item [sample_core_item]) 3 None no_unknown.

Lemma published_items_arrive_witness :
  exists b', decode (Envelope.encode (Envelope.mk 1 2 u64_max 0 (Some (PResults sample_item_batch)) no_unknown)) =
      Some (Ok (Envelope.mk 1 2 u64_max 0 (Some (PResults b')) no_unknown)) /\
    ResultBatch.state b' = BatchState.Final /\ ResultBatch.sequence b' = 3 /\
    map (from_proto_item "host") (ResultBatch.items b') = map (item_received "host") [sample_core_item].
Proof.
  apply (published_items_arrive test_memory test_memory_ample "host" [sample_core_item] 1 2 u64_max 0 3 BatchState.Final).
  - exact (Forall_cons_2 _ _ _ sample_core_item_sendable (Forall_nil_2 _)).
  - repeat constructor; vm_compute; discriminate.
  - vm_compute. discriminate.
  - vm_compute. discriminate.
Defined.






