(* ===== verification/Frame.v ===== *)
(** Transport framing: [crikey-native-protocol/src/frame.rs].

    A four-byte big-endian length and a bounded payload.  The traits [Read] and
    [Write] are the classes [Reader] and [Writer]; the loops that retry an
    interrupted read may not end for every reader, so they run on fuel and
    [None] is running out of it.  [reserve n] tells whether allocating [n] bytes
    succeeds. *)

From S2P Require Import Prelude Items Wire WireFacts.

(** * Errors and streams *)

(** [std::io::Error], as far as the code looks at it. *)
Inductive io_error : Type :=
| BrokenPipe
| TimedOut
| WouldBlock
| Interrupted
| OtherIo (what : string).

Definition map_io (e : io_error) : ProtocolError :=
  match e with
  | BrokenPipe => Closed
  | TimedOut | WouldBlock => IoTimeout
  | Interrupted => Io "operation interrupted"
  | OtherIo what => Io what
  end.

Definition is_interrupted (e : io_error) : bool := match e with Interrupted => true | _ => false end.
Definition is_timeout (e : ProtocolError) : bool := match e with IoTimeout => true | _ => false end.

(** [read r n] fills a buffer of [n] bytes: the bytes it put at its front, whose
    number is the count it returns (zero at the end of the stream). *)
Class Reader (R : Type) := read : R -> Z -> R * result (list Z) io_error.

Class Writer (W : Type) := {
  write_all : W -> list Z -> W * result unit io_error;
  flush : W -> W * result unit io_error;
}.

(** * Writing *)

Definition to_be_bytes (v : Z) : list Z := reverse (le_bytes 4 v).
Definition from_be_bytes (l : list Z) : Z := from_le_bytes (reverse l).

Definition write_frame {W : Type} `{!Writer W} (w : W) (payload : list Z) : W * result unit ProtocolError :=
  if len payload =? 0 then (w, Err (Malformed "zero-length frame"))
  else if MAX_FRAME_BYTES <? len payload then (w, Err (FrameTooLarge (len payload)))
  else if u32_max <? len payload then (w, Err (FrameTooLarge (len payload)))
  else
    match write_all w (to_be_bytes (len payload)) with
    | (w, Err e) => (w, Err (map_io e))
    | (w, Ok _) =>
        match write_all w payload with
        | (w, Err e) => (w, Err (map_io e))
        | (w, Ok _) =>
            match flush w with
            | (w, Err e) => (w, Err (map_io e))
            | (w, Ok _) => (w, Ok ())
            end
        end
    end.

(** * Reading *)

Module FrameReader.

Record FrameReader := mk {
  prefix : list Z;
  prefix_read : Z;
  payload : list Z;
  payload_read : Z;
}.
#[export] Instance eta_FrameReader : Eta FrameReader := fun s =>
  mk (prefix s) (prefix_read s) (payload s) (payload_read s).

Definition new : FrameReader := mk [0; 0; 0; 0] 0 [] 0.

Definition reset (s : FrameReader) : FrameReader :=
  s <| prefix_read := 0 |> <| payload := [] |> <| payload_read := 0 |>.

(** The buffer [l] after a read put [bs] at position [k]. *)
Definition splice (k : Z) (bs l : list Z) : list Z :=
  take (Z.to_nat k) l ++ take (length l - Z.to_nat k) bs ++ drop (Z.to_nat k + length bs) l.

Section Reading.

Context {R : Type} `{!Reader R} (reserve : Z -> bool).

(** A read that failed. *)
Definition read_failed (s : FrameReader) (r : R) (e : io_error)
    : option (FrameReader * R * result unit ProtocolError) :=
  let mapped := map_io e in Some (if is_timeout mapped then s else reset s, r, Err mapped).

(** The loop over the length prefix. *)
Fixpoint fill_prefix (fuel : nat) (s : FrameReader) (r : R)
    : option (FrameReader * R * result unit ProtocolError) :=
  match fuel with
  | O => None
  | S fuel' =>
      if prefix_read s <? len (prefix s) then
        match read r (len (prefix s) - prefix_read s) with
        | (r, Ok []) =>
            if prefix_read s =? 0 then Some (s, r, Err Closed)
            else Some (reset s, r, Err (Malformed "truncated frame length prefix"))
        | (r, Ok bs) =>
            let s := s <| prefix ::= splice (prefix_read s) bs |> in
            match checked_sub (len (prefix s)) (prefix_read s) with
            | None => Some (reset s, r, Err (Malformed "frame prefix offset overflow"))
            | Some remaining =>
                if remaining <? len bs then
                  Some (reset s, r, Err (Malformed "reader returned too many prefix bytes"))
                else
                  match checked_add usize_max (prefix_read s) (len bs) with
                  | None => Some (reset s, r, Err (Malformed "frame prefix offset overflow"))
                  | Some n => fill_prefix fuel' (s <| prefix_read := n |>) r
                  end
            end
        | (r, Err e) => if is_interrupted e then fill_prefix fuel' s r else read_failed s r e
        end
      else Some (s, r, Ok ())
  end.

(** The payload buffer, once the prefix is complete. *)
Definition prepare_payload (s : FrameReader) : FrameReader * result unit ProtocolError :=
  if len (payload s) =? 0 then
    let length := from_be_bytes (prefix s) in
    if length =? 0 then (reset s, Err (Malformed "zero-length frame"))
    else if MAX_FRAME_BYTES <? length then (reset s, Err (FrameTooLarge length))
    else if negb (reserve length) then (reset s, Err (Malformed "frame allocation failed"))
    else (s <| payload := replicate (Z.to_nat length) 0 |>, Ok ())
  else (s, Ok ()).

(** The loop over the payload. *)
Fixpoint fill_payload (fuel : nat) (s : FrameReader) (r : R)
    : option (FrameReader * R * result unit ProtocolError) :=
  match fuel with
  | O => None
  | S fuel' =>
      if payload_read s <? len (payload s) then
        match read r (len (payload s) - payload_read s) with
        | (r, Ok []) => Some (reset s, r, Err (Malformed "truncated frame body"))
        | (r, Ok bs) =>
            let s := s <| payload ::= splice (payload_read s) bs |> in
            match checked_sub (len (payload s)) (payload_read s) with
            | None => Some (reset s, r, Err (Malformed "frame body offset overflow"))
            | Some remaining =>
                if remaining <? len bs then
                  Some (reset s, r, Err (Malformed "reader returned too many body bytes"))
                else
                  match checked_add usize_max (payload_read s) (len bs) with
                  | None => Some (reset s, r, Err (Malformed "frame body offset overflow"))
                  | Some n => fill_payload fuel' (s <| payload_read := n |>) r
                  end
            end
        | (r, Err e) => if is_interrupted e then fill_payload fuel' s r else read_failed s r e
        end
      else Some (s, r, Ok ())
  end.

(** One call; the last component is the caller's buffer. *)
Definition read_frame (fuel : nat) (s : FrameReader) (r : R)
    : option (FrameReader * R * list Z * result unit ProtocolError) :=
  '(s, r, res) ← fill_prefix fuel s r;
  match res with
  | Err e => Some (s, r, [], Err e)
  | Ok _ =>
      match prepare_payload s with
      | (s, Err e) => Some (s, r, [], Err e)
      | (s, Ok _) =>
          '(s, r, res) ← fill_payload fuel s r;
          match res with
          | Err e => Some (s, r, [], Err e)
          | Ok _ => Some (reset (s <| payload := [] |>), r, payload s, Ok ())
          end
      end
  end.

(** A host that keeps the reader with the stream, calls again after a timeout,
    and stops at the first other error: the frames it got and that error. *)
Fixpoint receive_all (fuel : nat) (s : FrameReader) (r : R) : option (list (list Z) * ProtocolError) :=
  match fuel with
  | O => None
  | S fuel' =>
      '(s, r, buffer, res) ← read_frame fuel s r;
      match res with
      | Ok _ => '(frames, e) ← receive_all fuel' s r; Some (buffer :: frames, e)
      | Err e => if is_timeout e then receive_all fuel' s r else Some ([], e)
      end
  end.

End Reading.

End FrameReader.

(** * Streams in memory *)

(** A sink that accepts everything. *)
#[export] Instance sink : Writer (list Z) := {
  write_all := fun w bs => (w ++ bs, Ok ());
  flush := fun w => (w, Ok ());
}.

(** A byte stream and the way it is delivered: [Give k] hands over up to [k + 1]
    bytes, [Interrupt] and [Stall] fail a read for the moment; after that
    everything that fits is handed over, and then the stream is closed. *)
Inductive delivery : Type :=
| Give (k : nat)
| Interrupt
| Stall.

Record Stream := mkStream { bytes_left : list Z; schedule : list delivery }.

#[export] Instance stream_reader : Reader Stream := fun st n =>
  match schedule st with
  | [] => (mkStream (drop (Z.to_nat n) (bytes_left st)) [], Ok (take (Z.to_nat n) (bytes_left st)))
  | Give k :: rest =>
      let m := Nat.min (S k) (Z.to_nat n) in
      (mkStream (drop m (bytes_left st)) rest, Ok (take m (bytes_left st)))
  | Interrupt :: rest => (mkStream (bytes_left st) rest, Err Interrupted)
  | Stall :: rest => (mkStream (bytes_left st) rest, Err WouldBlock)
  end.

Import FrameReader.

(** * Frames as bytes *)

Definition header (p : list Z) : list Z := to_be_bytes (len p).
Definition frame_bytes (p : list Z) : list Z := header p ++ p.
Definition stream_bytes (ps : list (list Z)) : list Z := flat_map frame_bytes ps.

Definition legal_payload (p : list Z) : Prop := 0 < len p <= MAX_FRAME_BYTES.

Lemma header_length p : length (header p) = 4%nat.
Proof. unfold header, to_be_bytes. rewrite length_reverse. reflexivity. Qed.

Lemma header_value p : legal_payload p -> from_be_bytes (header p) = len p.
Proof.
  intros [H1 H2]. unfold from_be_bytes, header, to_be_bytes. rewrite reverse_involutive.
  apply from_le_bytes_le_bytes. change (256 ^ Z.of_nat 4) with 4294967296.
  change MAX_FRAME_BYTES with 8388608 in H2. lia.
Qed.

Lemma write_frame_bytes w p : legal_payload p -> write_frame w p = (w ++ frame_bytes p, Ok ()).
Proof.
  intros [H1 H2]. unfold write_frame. destruct (Z.eqb_spec (len p) 0); [lia|].
  destruct (Z.ltb_spec MAX_FRAME_BYTES (len p)); [lia|].
  destruct (Z.ltb_spec u32_max (len p)) as [H3|_]; [change MAX_FRAME_BYTES with 8388608 in H2; unfold u32_max in H3; lia|].
  cbn [write_all flush sink]. unfold frame_bytes, header. by rewrite app_assoc.
Qed.

(** * Filling a buffer *)

(** Deliveries and bytes still to come: every read uses up one of them. *)
Definition measure (st : Stream) : nat := (length (schedule st) + length (bytes_left st))%nat.

Lemma stream_read_spec st n :
  0 < n ->
  match read st n with
  | (st', Ok bs) => bytes_left st = bs ++ bytes_left st' /\ len bs <= n /\
      (bs = [] -> bytes_left st = []) /\ (bs <> [] -> (measure st' < measure st)%nat)
  | (st', Err e) => (e = Interrupted \/ e = WouldBlock) /\ bytes_left st' = bytes_left st /\
      (measure st' < measure st)%nat
  end.
Proof.
  intros Hn. destruct st as [bs sched]. unfold read, stream_reader, measure. cbn [schedule bytes_left].
  assert (Hmin : forall m, (m <= Z.to_nat n)%nat -> len (take m bs) <= n).
  { intros m Hm. unfold len. rewrite length_take. lia. }
  assert (Hgo : forall m, (0 < m)%nat -> take m bs = [] -> bs = []).
  { intros [|m] Hm; [lia|]. by destruct bs. }
  assert (Hlt : forall m, take m bs <> [] -> (length (drop m bs) < length bs)%nat).
  { intros m Hne. rewrite length_drop. destruct m; [done|]. destruct bs; [done | cbn; lia]. }
  destruct sched as [|[k| |] rest]; cbn [schedule bytes_left].
  - split; [by rewrite take_drop|]. split; [by apply Hmin|]. split; [apply Hgo; lia|]. intros H%Hlt. cbn. lia.
  - split; [by rewrite take_drop|]. split; [apply Hmin; lia|]. split; [apply Hgo; lia|]. intros _.
    cbn [length]. rewrite length_drop. lia.
  - split; [by left|]. split; [done|]. cbn. lia.
  - split; [by right|]. split; [done|]. cbn. lia.
Qed.

Lemma splice_step k bs (w l left rest : list Z) :
  length l = length w -> (k + length bs <= length w)%nat -> take k l = take k w ->
  drop k w ++ rest = bs ++ left ->
  length (splice (Z.of_nat k) bs l) = length w /\
  take (k + length bs) (splice (Z.of_nat k) bs l) = take (k + length bs) w /\
  left = drop (k + length bs) w ++ rest.
Proof.
  intros Hl Hk Ht Hd.
  assert (Hsplit : bs = take (length bs) (drop k w) /\ left = drop (length bs) (drop k w) ++ rest).
  { pose proof (f_equal (take (length bs)) Hd) as H1. pose proof (f_equal (drop (length bs)) Hd) as H2.
    rewrite take_app_length, take_app_le in H1 by (rewrite length_drop; lia).
    rewrite drop_app_length, drop_app_le in H2 by (rewrite length_drop; lia). by split. }
  destruct Hsplit as [Hbs Hleft]. unfold splice. rewrite Nat2Z.id.
  rewrite (take_ge bs (length l - k)) by lia. split.
  { rewrite !length_app, length_take, length_drop. lia. }
  split; [|by rewrite Hleft, drop_drop].
  assert (Htk : length (take k l) = k) by (rewrite length_take; lia).
  rewrite app_assoc. rewrite take_app_le by (rewrite length_app; lia).
  rewrite take_ge by (rewrite length_app; lia). rewrite Ht. rewrite Hbs at 1.
  rewrite <- (take_drop k w) at 3. rewrite take_app, (take_ge (take k w)) by (rewrite length_take; lia).
  rewrite length_take. f_equal. f_equal. lia.
Qed.

(** Reading a target [w] of which [k] bytes have arrived in the buffer [l]. *)
Definition arriving (w l : list Z) (position : Z) (k : nat) : Prop :=
  length l = length w /\ position = Z.of_nat k /\ (k <= length w)%nat /\ take k l = take k w.

(** One successful read of a buffer that is not full. *)
Lemma arriving_step w l position k bs left rest :
  arriving w l position k -> drop k w ++ rest = bs ++ left -> len bs <= len l - position ->
  arriving w (splice position bs l) (position + len bs) (k + length bs) /\
  left = drop (k + length bs) w ++ rest /\ len (splice position bs l) = len l.
Proof.
  intros (Hl & -> & Hk & Ht) Hd Hb. unfold len in *.
  destruct (splice_step k bs w l left rest) as (H1 & H2 & H3); [done | lia | done | done|].
  split; [|split; [done|]]; [|lia]. split; [done|]. split; [lia|]. split; [lia | done].
Qed.

Lemma arriving_full w l position k : arriving w l position k -> len l <= position -> l = w /\ k = length w.
Proof.
  intros (Hl & -> & Hk & Ht) Hf. unfold len in Hf. assert (k = length w) as -> by lia. split; [|done].
  rewrite !take_ge in Ht by lia. done.
Qed.

(** * One call *)

(** Between two calls: [k] bytes of the length prefix [h] have arrived. *)
Definition in_prefix (s : FrameReader) (h : list Z) (k : nat) : Prop :=
  arriving h (prefix s) (prefix_read s) k /\ payload s = [] /\ payload_read s = 0.

(** Or the whole prefix and [k] bytes of the payload [p]. *)
Definition in_body (s : FrameReader) (p : list Z) (k : nat) : Prop :=
  length (prefix s) = 4%nat /\ prefix_read s = 4 /\ arriving p (payload s) (payload_read s) k.

Lemma fill_prefix_spec fuel s st h k rest :
  length h = 4%nat -> in_prefix s h k -> bytes_left st = drop k h ++ rest -> (measure st < fuel)%nat ->
  exists s' st' res, fill_prefix fuel s st = Some (s', st', res) /\ (measure st' <= measure st)%nat /\
    ((k < 4)%nat -> (measure st' < measure st)%nat) /\
    (res = Ok () /\ in_prefix s' h 4 /\ bytes_left st' = rest \/
     res = Err IoTimeout /\ exists k', (k' < 4)%nat /\ in_prefix s' h k' /\ bytes_left st' = drop k' h ++ rest).
Proof.
  intros Hh. revert s st k. induction fuel as [|fuel IH]; intros s st k Hs Hb Hf; [lia|]. cbn [fill_prefix].
  pose proof Hs as (Ha & Hp1 & Hp2). pose proof Ha as (Hlen & Hpos & Hk & _).
  destruct (Z.ltb_spec (prefix_read s) (len (prefix s))) as [Hlt|Hge].
  2:{ destruct (arriving_full _ _ _ _ Ha Hge) as [_ ->]. exists s, st, (Ok ()). split; [done|]. split; [lia|].
      split; [lia|]. left. rewrite drop_all, Hh in *. by rewrite Hb. }
  assert (Hk4 : (k < 4)%nat) by (unfold len in Hlt; lia).
  pose proof (stream_read_spec st (len (prefix s) - prefix_read s) ltac:(lia)) as Hr.
  destruct (read st _) as [st1 [bs|e]].
  - destruct Hr as (Hsplit & Hcount & Hnil & Hm). destruct bs as [|b bs].
    { exfalso. specialize (Hnil eq_refl). rewrite Hb in Hnil. apply app_nil in Hnil as [Hnil _].
      apply (f_equal length) in Hnil. rewrite length_drop in Hnil. cbn in Hnil. lia. }
    rewrite Hb in Hsplit. destruct (arriving_step _ _ _ _ _ _ _ Ha Hsplit Hcount) as (Ha' & Hleft & Hlen').
    cbn [prefix prefix_read update]. rewrite Hlen'. rewrite checked_sub_le by lia.
    destruct (Z.ltb_spec (len (prefix s) - prefix_read s) (len (b :: bs))); [lia|].
    unfold checked_add. destruct (Z.leb_spec (prefix_read s + len (b :: bs)) usize_max) as [_|Hov];
      [|unfold len in *; unfold usize_max, u64_max in Hov; lia].
    specialize (Hm ltac:(done)).
    destruct (IH (s <| prefix ::= splice (prefix_read s) (b :: bs) |> <| prefix_read := prefix_read s + len (b :: bs) |>)
      st1 (k + length (b :: bs))%nat) as (s' & st' & res & E & M1 & _ & Hres); [by split | done | lia|].
    exists s', st', res. split; [exact E|]. split; [lia|]. split; [lia | exact Hres].
  - destruct Hr as (He & Hsame & Hm). destruct He as [-> | ->]; cbn [is_interrupted].
    + destruct (IH s st1 k Hs) as (s' & st' & res & E & M1 & M2 & Hres); [by rewrite Hsame | lia|].
      exists s', st', res. split; [exact E|]. split; [lia|]. split; [lia | exact Hres].
    + exists s, st1, (Err IoTimeout). split; [done|]. split; [lia|]. split; [lia|]. right. split; [done|].
      exists k. split; [done|]. split; [done|]. by rewrite Hsame.
Qed.

Lemma fill_payload_spec fuel s st p k rest :
  len p <= MAX_FRAME_BYTES -> in_body s p k -> bytes_left st = drop k p ++ rest -> (measure st < fuel)%nat ->
  exists s' st' res, fill_payload fuel s st = Some (s', st', res) /\ (measure st' <= measure st)%nat /\
    ((k < length p)%nat -> (measure st' < measure st)%nat) /\
    (res = Ok () /\ in_body s' p (length p) /\ bytes_left st' = rest \/
     res = Err IoTimeout /\ exists k', (k' < length p)%nat /\ in_body s' p k' /\ bytes_left st' = drop k' p ++ rest).
Proof.
  intros Hmax. revert s st k. induction fuel as [|fuel IH]; intros s st k Hs Hb Hf; [lia|]. cbn [fill_payload].
  pose proof Hs as (Hp1 & Hp2 & Ha). pose proof Ha as (Hlen & Hpos & Hk & _).
  destruct (Z.ltb_spec (payload_read s) (len (payload s))) as [Hlt|Hge].
  2:{ destruct (arriving_full _ _ _ _ Ha Hge) as [_ ->]. exists s, st, (Ok ()). split; [done|]. split; [lia|].
      split; [lia|]. left. rewrite drop_all in Hb. by rewrite Hb. }
  assert (Hkp : (k < length p)%nat) by (unfold len in Hlt; lia).
  pose proof (stream_read_spec st (len (payload s) - payload_read s) ltac:(lia)) as Hr.
  destruct (read st _) as [st1 [bs|e]].
  - destruct Hr as (Hsplit & Hcount & Hnil & Hm). destruct bs as [|b bs].
    { exfalso. specialize (Hnil eq_refl). rewrite Hb in Hnil. apply app_nil in Hnil as [Hnil _].
      apply (f_equal length) in Hnil. rewrite length_drop in Hnil. cbn in Hnil. lia. }
    rewrite Hb in Hsplit. destruct (arriving_step _ _ _ _ _ _ _ Ha Hsplit Hcount) as (Ha' & Hleft & Hlen').
    cbn [payload payload_read update]. rewrite Hlen'. rewrite checked_sub_le by lia.
    destruct (Z.ltb_spec (len (payload s) - payload_read s) (len (b :: bs))); [lia|].
    unfold checked_add. destruct (Z.leb_spec (payload_read s + len (b :: bs)) usize_max) as [_|Hov];
      [|change MAX_FRAME_BYTES with 8388608 in Hmax; unfold len in *; unfold usize_max, u64_max in Hov; lia].
    specialize (Hm ltac:(done)).
    destruct (IH (s <| payload ::= splice (payload_read s) (b :: bs) |> <| payload_read := payload_read s + len (b :: bs) |>)
      st1 (k + length (b :: bs))%nat) as (s' & st' & res & E & M1 & _ & Hres); [by split | done | lia|].
    exists s', st', res. split; [exact E|]. split; [lia|]. split; [lia | exact Hres].
  - destruct Hr as (He & Hsame & Hm). destruct He as [-> | ->]; cbn [is_interrupted].
    + destruct (IH s st1 k Hs) as (s' & st' & res & E & M1 & _ & Hres); [by rewrite Hsame | lia|].
      exists s', st', res. split; [exact E|]. split; [lia|]. split; [lia | exact Hres].
    + exists s, st1, (Err IoTimeout). split; [done|]. split; [lia|]. split; [lia|]. right. split; [done|].
      exists k. split; [done|]. split; [done|]. by rewrite Hsame.
Qed.

(** * A sequence of calls *)

(** The reader and the bytes to come, when the frames [ps] are outstanding. *)
Definition outstanding (s : FrameReader) (bytes : list Z) (ps : list (list Z)) : Prop :=
  match ps with
  | [] => in_prefix s (header []) 0 /\ bytes = []
  | p :: rest =>
      (exists k, (k < 4)%nat /\ in_prefix s (header p) k /\ bytes = drop k (header p) ++ p ++ stream_bytes rest) \/
      (exists k, (k < length p)%nat /\ in_body s p k /\ bytes = drop k p ++ stream_bytes rest)
  end.

(** A reader that has just delivered a frame. *)
Lemma outstanding_idle s ps :
  length (prefix s) = 4%nat -> prefix_read s = 0 -> payload s = [] -> payload_read s = 0 ->
  outstanding s (stream_bytes ps) ps.
Proof.
  intros H1 H2 H3 H4.
  assert (Hin : forall q, in_prefix s (header q) 0).
  { intros q. split; [|done]. split; [by rewrite header_length|]. split; [done|]. split; [lia | done]. }
  destruct ps as [|p rest]; cbn [outstanding]; [by split|].
  left. exists 0%nat. split; [lia|]. split; [done|]. rewrite drop_0. cbn [stream_bytes flat_map]. unfold frame_bytes.
  by rewrite <- app_assoc.
Qed.

Section Receiving.

Variable reserve : Z -> bool.
Hypothesis reserve_ok : forall n, 0 < n <= MAX_FRAME_BYTES -> reserve n = true.

(** The payload loop and the end of the call. *)
Lemma finish_body fuel s st p k rest :
  legal_payload p -> in_body s p k -> bytes_left st = drop k p ++ stream_bytes rest -> (measure st < fuel)%nat ->
  exists s' st' buffer res,
    ('(s, r, res) ← fill_payload fuel s st;
     match res with
     | Err e => Some (s, r, [], Err e)
     | Ok _ => Some (reset (s <| payload := [] |>), r, payload s, Ok ())
     end) = Some (s', st', buffer, res) /\ (measure st' <= measure st)%nat /\
    ((k < length p)%nat -> (measure st' < measure st)%nat) /\
    (res = Ok () /\ buffer = p /\ outstanding s' (bytes_left st') rest \/
     res = Err IoTimeout /\ outstanding s' (bytes_left st') (p :: rest)).
Proof.
  intros [_ Hp] Hs Hb Hf. destruct (fill_payload_spec fuel s st p k _ Hp Hs Hb Hf) as (s' & st' & res & -> & M & M2 & H).
  cbn [mbind option_bind]. destruct H as [(-> & Hin & Hleft) | (-> & k' & Hk' & Hin & Hleft)].
  - eexists _, _, _, _. split; [done|]. split; [done|]. split; [done|]. left. split; [done|]. destruct Hin as (H1 & H2 & Ha).
    split; [by apply (arriving_full p _ _ _ Ha); destruct Ha as (Hl & -> & _); unfold len; lia|].
    rewrite Hleft. by apply outstanding_idle.
  - eexists _, _, _, _. split; [done|]. split; [done|]. split; [done|]. right. split; [done|]. right. eauto.
Qed.

Lemma read_frame_spec fuel s st p rest :
  legal_payload p -> outstanding s (bytes_left st) (p :: rest) -> (measure st < fuel)%nat ->
  exists s' st' buffer res, read_frame reserve fuel s st = Some (s', st', buffer, res) /\
    (measure st' < measure st)%nat /\
    (res = Ok () /\ buffer = p /\ outstanding s' (bytes_left st') rest \/
     res = Err IoTimeout /\ outstanding s' (bytes_left st') (p :: rest)).
Proof.
  intros Hp Ho Hf. unfold read_frame. destruct Ho as [(k & Hk & Hs & Hb) | (k & Hk & Hs & Hb)].
  - destruct (fill_prefix_spec fuel s st (header p) k _ (header_length p) Hs Hb Hf) as (s1 & st1 & res & -> & M1 & M2 & H).
    cbn [mbind option_bind]. specialize (M2 Hk). destruct H as [(-> & Hin & Hleft) | (-> & k' & Hk' & Hin & Hleft)].
    + destruct Hin as (Ha & Hpay & Hread). destruct (arriving_full _ _ _ _ Ha) as [Hpre _].
      { destruct Ha as (Hl & -> & _). rewrite header_length in Hl. unfold len. lia. }
      assert (Hprep : prepare_payload reserve s1 = (s1 <| payload := replicate (Z.to_nat (len p)) 0 |>, Ok ())).
      { unfold prepare_payload. rewrite Hpay, Hpre, header_value by done. destruct Hp as [Hp1 Hp2].
        change (len [] =? 0) with true. cbv iota. destruct (Z.eqb_spec (len p) 0); [lia|].
        destruct (Z.ltb_spec MAX_FRAME_BYTES (len p)); [lia|]. by rewrite reserve_ok. }
      rewrite Hprep. destruct (finish_body fuel (s1 <| payload := replicate (Z.to_nat (len p)) 0 |>) st1 p 0 rest Hp)
        as (s' & st' & buffer & res & E & M3 & _ & H); [| by rewrite drop_0 | lia |].
      { destruct Ha as (Hl & Hpos & _). split; [cbn; by rewrite Hl, header_length|]. split; [cbn; lia|].
        split; [cbn; rewrite length_replicate; unfold len; lia|]. split; [done|]. split; [lia | done]. }
      exists s', st', buffer, res. split; [exact E|]. split; [lia | exact H].
    + eexists _, _, _, _. split; [done|]. split; [done|]. right. split; [done|]. left. eauto.
  - assert (Hfull : exists fuel', fuel = S fuel') by (exists (pred fuel); lia). destruct Hfull as [fuel' ->].
    pose proof Hs as (H1 & H2 & Ha). pose proof Ha as (Hl & _).
    assert (Hskip : fill_prefix (S fuel') s st = Some (s, st, Ok ())).
    { cbn [fill_prefix]. destruct (Z.ltb_spec (prefix_read s) (len (prefix s))); [unfold len in *; lia | done]. }
    assert (Hprep : prepare_payload reserve s = (s, Ok ())).
    { unfold prepare_payload. destruct (Z.eqb_spec (len (payload s)) 0); [unfold len in *; lia | done]. }
    rewrite Hskip. cbn [mbind option_bind]. rewrite Hprep.
    destruct (finish_body (S fuel') s st p k rest Hp Hs Hb Hf) as (s' & st' & buffer & res & E & _ & M3 & H).
    exists s', st', buffer, res. split; [exact E|]. split; [by apply M3 | exact H].
Qed.

(** With nothing outstanding the stream closes. *)
Lemma fill_prefix_end fuel s st :
  outstanding s (bytes_left st) [] -> (measure st < fuel)%nat ->
  exists s' st' e, fill_prefix fuel s st = Some (s', st', Err e) /\
    (e = Closed \/ e = IoTimeout /\ (measure st' < measure st)%nat /\ outstanding s' (bytes_left st') []).
Proof.
  intros (Hs & Hb). pose proof Hs as ((Hl & Hpos & _) & _). rewrite header_length in Hl.
  revert st Hb. induction fuel as [|fuel IH]; intros st Hb Hf; [lia|]. cbn [fill_prefix].
  destruct (Z.ltb_spec (prefix_read s) (len (prefix s))); [|unfold len in *; lia].
  pose proof (stream_read_spec st (len (prefix s) - prefix_read s) ltac:(lia)) as Hr.
  destruct (read st _) as [st1 [bs|e]].
  - destruct Hr as (Hsplit & _). rewrite Hb in Hsplit. symmetry in Hsplit. apply app_nil in Hsplit as [-> _].
    destruct (Z.eqb_spec (prefix_read s) 0); [|lia]. eexists _, _, _. split; [done|]. by left.
  - destruct Hr as (He & Hsame & Hm). destruct He as [-> | ->]; cbn [is_interrupted].
    + destruct (IH st1) as (s' & st' & e & E & H'); [by rewrite Hsame | lia|].
      exists s', st', e. split; [exact E|]. destruct H' as [-> | (-> & M & Ho)]; [by left|].
      right. split; [done|]. split; [lia | done].
    + eexists _, _, _. split; [done|]. right. split; [done|]. split; [done|]. by rewrite Hsame, Hb.
Qed.

Lemma read_frame_end fuel s st :
  outstanding s (bytes_left st) [] -> (measure st < fuel)%nat ->
  exists s' st' e, read_frame reserve fuel s st = Some (s', st', [], Err e) /\
    (e = Closed \/ e = IoTimeout /\ (measure st' < measure st)%nat /\ outstanding s' (bytes_left st') []).
Proof.
  intros Ho Hf. destruct (fill_prefix_end fuel s st Ho Hf) as (s' & st' & e & E & H).
  exists s', st', e. split; [|exact H]. unfold read_frame. by rewrite E.
Qed.

Lemma receive_outstanding fuel s st ps :
  Forall legal_payload ps -> outstanding s (bytes_left st) ps -> (measure st < fuel)%nat ->
  receive_all reserve fuel s st = Some (ps, Closed).
Proof.
  intros Hps. revert s st ps Hps. induction fuel as [|fuel IH]; intros s st ps Hps Ho Hf; [lia|].
  cbn [receive_all]. destruct ps as [|p rest].
  - destruct (read_frame_end (S fuel) s st Ho Hf) as (s' & st' & e & -> & H). cbn [mbind option_bind].
    destruct H as [-> | (-> & M & Ho')]; [done|]. cbn [is_timeout]. apply IH; [done | done | lia].
  - pose proof (Forall_inv Hps) as Hp. pose proof (Forall_inv_tail Hps) as Hrest.
    destruct (read_frame_spec (S fuel) s st p rest Hp Ho Hf) as (s' & st' & buffer & res & -> & M & H).
    cbn [mbind option_bind]. destruct H as [(-> & -> & Ho') | (-> & Ho')].
    + rewrite (IH s' st' rest); [done | done | done | lia].
    + cbn [is_timeout]. apply IH; [done | done | lia].
Qed.

End Receiving.

(** Writing frames one after the other. *)
Definition write_frames (ps : list (list Z)) : list Z := foldl (fun w p => (write_frame w p).1) [] ps.

Lemma write_frames_bytes ps : Forall legal_payload ps -> write_frames ps = stream_bytes ps.
Proof.
  assert (Hgo : forall w, Forall legal_payload ps ->
    foldl (fun w p => (write_frame w p).1) w ps = w ++ stream_bytes ps).
  { induction ps as [|p ps IH]; intros w Hps; cbn [foldl stream_bytes flat_map]; [by rewrite app_nil_r|].
    rewrite write_frame_bytes by exact (Forall_inv Hps). cbn [fst].
    rewrite IH by exact (Forall_inv_tail Hps). by rewrite app_assoc. }
  intros Hps. exact (Hgo [] Hps).
Qed.

(** C40: frames survive the transport.  Legal payloads written one after the
    other, delivered in whatever pieces, with interrupted reads and timeouts at
    whatever points, even inside a length prefix, are received by a host that
    keeps its frame reader as exactly these payloads, in order, and then the
    end of the stream; one step more than there are bytes and deliveries is
    enough. *)
Theorem frames_survive_fragmentation reserve ps deliveries :
  (forall n, 0 < n <= MAX_FRAME_BYTES -> reserve n = true) -> Forall legal_payload ps ->
  receive_all reserve (S (length deliveries + length (write_frames ps))) new
    (mkStream (write_frames ps) deliveries) = Some (ps, Closed).
Proof.
  intros Hr Hps. rewrite write_frames_bytes by done. apply receive_outstanding; [done | done | | unfold measure; cbn; lia].
  by apply outstanding_idle.
Qed.

Definition sample_payloads : list (list Z) := [[1; 2; 3]; [255]; [0; 0; 0; 0; 9]].
Definition sample_deliveries : list delivery := [Give 1; Stall; Interrupt; Give 0; Give 2; Stall; Give 0; Stall].

Lemma frames_survive_fragmentation_witness :
  receive_all (fun _ => true) (S (length sample_deliveries + length (write_frames sample_payloads))) new
    (mkStream (write_frames sample_payloads) sample_deliveries) = Some (sample_payloads, Closed).
Proof.
  apply (frames_survive_fragmentation (fun _ => true) sample_payloads sample_deliveries); [reflexivity|].
  repeat constructor; discriminate.
Defined.
