(* ===== verification/Pipeline.v ===== *)
(** The application's query pipeline: [crikey-app/src/query_pipeline.rs].

    [QueryPipeline] composes the scheduler, the intake boundary, the
    aggregator, the supervisor and the concurrency budgets.  Every method is one
    definition over the whole state; [None] is a panic (a failed [expect], or
    the exhaustion of the generation counter).

    Budgets are shared through [Arc] with the dispatch sites of the other kinds
    of work: the state carries the memory the handles point into, a handle is a
    location, [Arc::ptr_eq] the equality of locations.  A method runs without
    accesses of other threads to the budgets; they happen between methods
    ([foreign_acquire], [foreign_release]), one whole call at a time, which
    [Concurrency] justifies: an admission takes effect in one atomic access.

    The order in which a hash map is iterated is an argument of the methods that
    iterate one, and the answers of the icon resolver are an argument of
    [present]. *)

From S2P Require Import Prelude Text Generation Items View Debounce LegacyDispatch SchedulerTypes Scheduler.
From S2P Require Import Aggregator Intake Concurrency Supervisor Manifest.

(** * Budgets behind handles *)

(** [try_acquire_owned] called without interference: the loop of [admit] with
    up-to-date loads; three accesses are enough. *)
Fixpoint finish_alone (fuel : nat) (b : ConcurrencyBudget) (c : Call) (fresh : nat)
    : option (ConcurrencyBudget * bool) :=
  match fuel with
  | O => None
  | S fuel' =>
      '(b, p) ← advance b c false fresh;
      match p with
      | Continue c => finish_alone fuel' b c fresh
      | Granted _ => Some (b, true)
      | Refused _ => Some (b, false)
      end
  end.

(** An index past every remembered value of the two cells of a kind. *)
Definition fresh_index (b : ConcurrencyBudget) (k : BudgetKind) : nat :=
  (map_or (in_flight_cells b !! index k) 0 (fun c => length (past c))
   + map_or (refusal_cells b !! index k) 0 (fun c => length (past c)))%nat.

Definition try_acquire_owned (b : ConcurrencyBudget) (k : BudgetKind) : option (ConcurrencyBudget * bool) :=
  let fresh := fresh_index b k in
  c ← admit_enter b k fresh; finish_alone 2 b c fresh.

Abbreviation PluginBudgetHandle := nat (only parsing).
Abbreviation RequestKey := (PluginId * Generation)%type (only parsing).

(** An [OwnedBudgetGuard]: dropping it gives the slot back. *)
Record OwnedBudgetGuard := mkGuard { guard_budget : PluginBudgetHandle; guard_kind : BudgetKind }.

(** * Configuration and results *)

Record PipelineConfig := mkPipelineConfig {
  c_scheduler : SchedulerConfig;
  c_limits : ResultLimits;
  c_intake_limits : QueueLimits;
  c_default_intake_policy : IntakePolicy;
  c_drain_budget : DrainBudget;
}.
#[export] Instance eta_PipelineConfig : Eta PipelineConfig := fun c =>
  mkPipelineConfig (c_scheduler c) (c_limits c) (c_intake_limits c) (c_default_intake_policy c) (c_drain_budget c).

Definition default_pipeline_config : PipelineConfig :=
  let scheduler := default_config in
  let limits := default_limits in
  {| c_scheduler := scheduler;
     c_limits := limits;
     c_intake_limits := mkQueueLimits (result_queue_capacity scheduler) (max_items_per_query limits);
     c_default_intake_policy :=
       mkIntakePolicy (result_queue_capacity scheduler) (max_items_per_plugin_per_query limits)
         (result_queue_capacity scheduler) (result_queue_capacity scheduler / 2) PauseProducer;
     c_drain_budget := mkDrainBudget 1 (max_items_per_batch limits) (dispatch_budget_per_tick scheduler) |}.

Inductive PipelineError : Type :=
| PluginAlreadyRegistered (plugin : PluginId)
| QueueRejected (plugin : PluginId) (generation : Generation) (reason : QueueReject)
| AggregatorRejected (plugin : PluginId) (generation : Generation) (reason : RejectReason)
| UnsupportedRuntime (plugin : PluginId) (runtime : PluginModel.Runtime)
| BudgetAlreadyOwned (plugin owner : PluginId).

Record PipelineTick := mkPipelineTick {
  t_dispatches : list DispatchedRequest;
  t_cancellations : list CancelledRequest;
  t_drain_report : DrainReport;
  t_errors : list PipelineError;
}.

Record HealthSync := mkHealthSync {
  synced_stale_results : Z;
  synced_obsolete_requests : Z;
  synced_refusals : ConcurrencyRefusals;
}.
#[export] Instance eta_HealthSync : Eta HealthSync := fun h =>
  mkHealthSync (synced_stale_results h) (synced_obsolete_requests h) (synced_refusals h).

Definition default_health_sync : HealthSync := mkHealthSync 0 0 no_refusals.

(** * The state *)

Record QueryPipeline := mkPipeline {
  scheduler : QueryScheduler;
  intake : InboundResultQueue.InboundResultQueue;
  aggregator : MemoryResultAggregator.MemoryResultAggregator;
  supervisor : MemorySupervisor.MemorySupervisor;
  default_intake_policy : IntakePolicy;
  drain_budget : DrainBudget;
  last_intake_drain_at : option Millis;
  result_trace_capacity : Z;
  p_max_items_per_batch : Z;
  p_max_items_per_plugin_per_query : Z;
  p_max_items_per_query : Z;
  unranked_batches : Z;
  registered : list PluginId;
  health_sync : gmap PluginId HealthSync;
  profile_overrides : gmap PluginId SchedulingProfile;
  budgets : gmap PluginId PluginBudgetHandle;
  admitted : gmap RequestKey OwnedBudgetGuard;
  active_requests : gset RequestKey;
  unresolved_cancellations : gmap RequestKey unit;
  pending_cancellations : list CancelledRequest;
  pending_completions : gmap RequestKey Millis;
  pending_errors : list PipelineError;
  error_capacity : Z;
  dropped_errors : Z;
  query : text;
  generation : Generation;
  rows : list ResultRow;
  visible_generation : option Generation;
  presented_pending : option bool;
  presentation_dirty : bool;
  icons : bool; (* whether a resolver is installed *)
  store : gmap PluginBudgetHandle ConcurrencyBudget; (* the budgets in memory *)
}.
#[export] Instance eta_QueryPipeline : Eta QueryPipeline := fun p =>
  mkPipeline (scheduler p) (intake p) (aggregator p) (supervisor p) (default_intake_policy p) (drain_budget p)
    (last_intake_drain_at p) (result_trace_capacity p) (p_max_items_per_batch p)
    (p_max_items_per_plugin_per_query p) (p_max_items_per_query p) (unranked_batches p) (registered p)
    (health_sync p) (profile_overrides p) (budgets p) (admitted p) (active_requests p)
    (unresolved_cancellations p) (pending_cancellations p) (pending_completions p) (pending_errors p)
    (error_capacity p) (dropped_errors p) (query p) (generation p) (rows p) (visible_generation p)
    (presented_pending p) (presentation_dirty p) (icons p) (store p).

(** The normalisation at the head of [new]. *)
Definition normalize_pipeline_config (c : PipelineConfig) : PipelineConfig :=
  c <| c_intake_limits ::= fun l => mkQueueLimits (Z.max (limit_batches l) 1) (Z.max (limit_items l) 1) |>
    <| c_drain_budget ::= fun b =>
         mkDrainBudget (Z.max (batches_per_plugin b) 1) (Z.max (items_per_plugin b) 1)
           (Z.max (total_batches_budget b) 1) |>.

Definition new_pipeline (config : PipelineConfig) : QueryPipeline :=
  let config := normalize_pipeline_config config in
  {| scheduler := Scheduler.new (c_scheduler config);
     intake := InboundResultQueue.new (c_intake_limits config);
     aggregator := MemoryResultAggregator.new (c_limits config);
     supervisor := MemorySupervisor.new (mkBreaker 0 0);
     default_intake_policy := c_default_intake_policy config;
     drain_budget := c_drain_budget config;
     last_intake_drain_at := None;
     result_trace_capacity := Z.max (result_queue_capacity (c_scheduler config)) 1;
     p_max_items_per_batch := max_items_per_batch (c_limits config);
     p_max_items_per_plugin_per_query := max_items_per_plugin_per_query (c_limits config);
     p_max_items_per_query := max_items_per_query (c_limits config);
     unranked_batches := 0;
     registered := [];
     health_sync := ∅;
     profile_overrides := ∅;
     budgets := ∅;
     admitted := ∅;
     active_requests := ∅;
     unresolved_cancellations := ∅;
     pending_cancellations := [];
     pending_completions := ∅;
     pending_errors := [];
     error_capacity := limit_batches (c_intake_limits config);
     dropped_errors := 0;
     query := [];
     generation := ZERO;
     rows := [];
     visible_generation := None;
     presented_pending := None;
     presentation_dirty := false;
     icons := false;
     store := ∅ |}.

(** * Small helpers *)

(** [.expect(..)] on a supervisor call. *)
Definition expect_ok (o : MemorySupervisor.MemorySupervisor * result unit SupervisorError)
    : option MemorySupervisor.MemorySupervisor :=
  match o with (s, Ok _) => Some s | (_, Err _) => None end.

(** Runs a supervisor call whose failure would panic. *)
Definition supervise (p : QueryPipeline)
    (f : MemorySupervisor.MemorySupervisor -> MemorySupervisor.MemorySupervisor * result unit SupervisorError)
    : option QueryPipeline :=
  s ← expect_ok (f (supervisor p)); Some (p <| supervisor := s |>).

(** [Drop] of a guard that may be absent. *)
Definition release (p : QueryPipeline) (guard : option OwnedBudgetGuard) : option QueryPipeline :=
  match guard with
  | None => Some p
  | Some g =>
      b ← store p !! guard_budget g;
      b ← drop_guard b (guard_kind g);
      Some (p <| store ::= insert (guard_budget g) b |>)
  end.

(** [self.admitted.remove(key)]; the guard is dropped. *)
Definition remove_admitted (p : QueryPipeline) (key : RequestKey) : option QueryPipeline :=
  let guard := admitted p !! key in
  release (p <| admitted ::= delete key |>) guard.

(** [self.admitted.insert(key, guard)]; a guard under the same key is dropped. *)
Definition insert_admitted (p : QueryPipeline) (key : RequestKey) (guard : OwnedBudgetGuard)
    : option QueryPipeline :=
  let old := admitted p !! key in
  release (p <| admitted ::= insert key guard |>) old.

Definition push_error (p : QueryPipeline) (e : PipelineError) : QueryPipeline :=
  let p :=
    if len (pending_errors p) =? error_capacity p
    then p <| pending_errors ::= tail |> <| dropped_errors ::= fun n => saturating_add u64_max n 1 |> else p in
  p <| pending_errors ::= fun l => l ++ [e] |>.

Definition batch_completion (s : BatchState) : BatchCompletion :=
  match s with
  | Partial => BatchPartial
  | Final => BatchFinal
  | StateCancelled => BatchCancelled
  | Aggregator.Failed => BatchFailed
  end.

Definition has_pending_work (p : QueryPipeline) : bool :=
  let d := Scheduler.diagnostics (scheduler p) in
  negb (queued_requests d =? 0) || negb (in_flight_requests d =? 0)
  || negb (depth_batches (InboundResultQueue.depth (intake p)) =? 0)
  || is_some (Scheduler.next_wakeup (scheduler p)).

(** * Health *)

(** One kind of [reconcile_refusals]. *)
Definition reconcile_kind (plugin : PluginId) (observed synced : ConcurrencyRefusals)
    (s : option MemorySupervisor.MemorySupervisor) (kind : BudgetKind)
    : option MemorySupervisor.MemorySupervisor :=
  s ← s;
  let delta := saturating_sub (Refusals.of_kind observed kind) (Refusals.of_kind synced kind) in
  if negb (delta =? 0) then expect_ok (MemorySupervisor.record_concurrency_refusal s plugin kind delta)
  else Some s.

Definition reconcile_refusals (memory : gmap PluginBudgetHandle ConcurrencyBudget)
    (s : MemorySupervisor.MemorySupervisor) (synced : ConcurrencyRefusals)
    (budget : option PluginBudgetHandle) (plugin : PluginId)
    : option (MemorySupervisor.MemorySupervisor * ConcurrencyRefusals) :=
  match budget with
  | None => Some (s, synced)
  | Some handle =>
      b ← memory !! handle;
      observed ← refusals_snapshot b;
      s ← foldl (reconcile_kind plugin observed synced) (Some s) ALL;
      Some (s, observed)
  end.

(** One turn of the loop of [sync_health]. *)
Definition sync_plugin (p : QueryPipeline) (plugin : PluginId) : option QueryPipeline :=
  match Scheduler.plugin_diagnostics (scheduler p) plugin with
  | None => Some p
  | Some d =>
      synced ← health_sync p !! plugin;
      let depth := depth_batches (InboundResultQueue.plugin_depth (intake p) plugin) in
      s ← expect_ok (MemorySupervisor.record_queue_depth (supervisor p) plugin
                       (if depth <=? u32_max then depth else u32_max));
      let stale_delta := saturating_sub (plugin_rejected_stale_results d) (synced_stale_results synced) in
      '(s, synced) ← (if negb (stale_delta =? 0) then
          s ← expect_ok (MemorySupervisor.record_stale_result_rejected s plugin stale_delta);
          Some (s, synced <| synced_stale_results := plugin_rejected_stale_results d |>)
        else Some (s, synced));
      let obsolete_delta := saturating_sub (plugin_dropped_obsolete_requests d) (synced_obsolete_requests synced) in
      '(s, synced) ← (if negb (obsolete_delta =? 0) then
          s ← expect_ok (MemorySupervisor.record_obsolete_request_dropped s plugin obsolete_delta);
          Some (s, synced <| synced_obsolete_requests := plugin_dropped_obsolete_requests d |>)
        else Some (s, synced));
      '(s, refusals) ← reconcile_refusals (store p) s (synced_refusals synced) (budgets p !! plugin) plugin;
      Some (p <| supervisor := s |>
              <| health_sync ::= insert plugin (synced <| synced_refusals := refusals |>) |>)
  end.

Definition sync_health (p : QueryPipeline) : option QueryPipeline :=
  foldl (fun p plugin => p ← p; sync_plugin p plugin) (Some p) (registered p).

Definition sync_concurrency_refusals (p : QueryPipeline) (plugin : PluginId) : option QueryPipeline :=
  match health_sync p !! plugin with
  | None => Some p
  | Some synced =>
      '(s, refusals) ← reconcile_refusals (store p) (supervisor p) (synced_refusals synced)
                         (budgets p !! plugin) plugin;
      Some (p <| supervisor := s |>
              <| health_sync ::= insert plugin (synced <| synced_refusals := refusals |>) |>)
  end.

(** [health]: reading is a reconciliation point. *)
Definition health_report (p : QueryPipeline) (plugin : PluginId) : option (QueryPipeline * PluginHealth) :=
  p ← sync_concurrency_refusals p plugin;
  Some (p, MemorySupervisor.health_of (supervisor p) plugin).

Fixpoint health_reports (p : QueryPipeline) (l : list PluginId)
    : option (QueryPipeline * list (PluginId * PluginHealth)) :=
  match l with
  | [] => Some (p, [])
  | plugin :: l' =>
      '(p, health) ← health_report p plugin;
      '(p, rest) ← health_reports p l';
      Some (p, (plugin, health) :: rest)
  end.

Definition plugin_health_report (p : QueryPipeline) : option (QueryPipeline * list (PluginId * PluginHealth)) :=
  health_reports p (registered p).

(** * Retirement of requests *)

Definition finish_completion (p : QueryPipeline) (plugin : PluginId) (g : Generation) (now : Millis)
    : option (QueryPipeline * CompletionOutcome) :=
  let (s, outcome) := Scheduler.complete (scheduler p) plugin g now in
  let p := p <| scheduler := s |> in
  let p := p <| active_requests ::= fun a => a ∖ {[(plugin, g)]} |> in
  p ← remove_admitted p (plugin, g);
  p ← (match outcome with
       | CompletionStale =>
           match unresolved_cancellations p !! (plugin, g) with
           | Some _ =>
               let p := p <| unresolved_cancellations ::= delete (plugin, g) |> in
               supervise p (fun s => MemorySupervisor.record_cancellation s plugin true 1)
           | None => Some p
           end
       | _ => Some p
       end);
  p ← sync_health p;
  Some (p, outcome).

Definition classify_cancelled_response (p : QueryPipeline) (plugin : PluginId) (g : Generation)
    (state : BatchState) : option QueryPipeline :=
  match unresolved_cancellations p !! (plugin, g) with
  | None => Some p
  | Some _ =>
      let p := p <| unresolved_cancellations ::= delete (plugin, g) |> in
      supervise p (fun s =>
        MemorySupervisor.record_cancellation s plugin (match state with StateCancelled => true | _ => false end) 1)
  end.

(** One notice of [capture_cancellations]. *)
Definition capture_cancellation (p : QueryPipeline) (c : CancelledRequest) : QueryPipeline :=
  let key := (cancelled_plugin c, cancelled_generation c) in
  if decide (key ∈ active_requests p) then
    p <| unresolved_cancellations ::= insert key () |> <| pending_cancellations ::= fun l => l ++ [c] |>
  else p.

Definition capture_cancellations (p : QueryPipeline) : QueryPipeline :=
  let (s, notices) := Scheduler.drain_cancellations (scheduler p) in
  foldl capture_cancellation (p <| scheduler := s |>) notices.

(** One ready completion. *)
Definition flush_completion (p : option QueryPipeline) (key : RequestKey) : option QueryPipeline :=
  p ← p;
  now ← pending_completions p !! key;
  let p := p <| pending_completions ::= delete key |> in
  fst <$> finish_completion p key.1 key.2 now.

Definition completion_ready (p : QueryPipeline) (merged : list MergedBatch) (key : RequestKey) : bool :=
  negb (key.2 =? generation p)
  || existsb (fun m => bool_decide (merged_plugin m = key.1) && (merged_generation m =? key.2)
                       && negb (bool_decide (merged_state m = Partial))) merged.

Section Operations.

(** [str::to_lowercase], and the order in which a hash map yields its keys. *)
Variable to_lowercase : text -> text.
Variable iteration : list RequestKey -> list RequestKey.

Definition flush_ready_completions (p : QueryPipeline) (merged : list MergedBatch) : option QueryPipeline :=
  let ready := List.filter (completion_ready p merged) (iteration (map fst (map_to_list (pending_completions p)))) in
  foldl flush_completion (Some p) ready.

(** * Registration *)

Definition override_scheduling_profile (p : QueryPipeline) (plugin : PluginId) (profile : SchedulingProfile)
    : QueryPipeline :=
  p <| profile_overrides ::= insert plugin profile |>.

Definition profile_policy (profile : SchedulingProfile) : PluginPolicy :=
  match profile with
  | LegacyStrict => legacy_strict
  | LegacyOptimized => legacy_optimized
  | Modern => modern
  end.

Definition effective_policy (p : QueryPipeline) (plugin : PluginId) (pol : PluginPolicy) : PluginPolicy :=
  match profile_overrides p !! plugin with
  | None => pol
  | Some profile =>
      if decide (profile = SchedulerTypes.profile pol) then pol
      else profile_policy profile <| activation := activation pol |>
  end.

Definition set_scheduling_profile (p : QueryPipeline) (plugin : PluginId) (profile : SchedulingProfile)
    : QueryPipeline * bool :=
  match Scheduler.plugin_policy (scheduler p) plugin with
  | None => (p, false)
  | Some current =>
      let pol := profile_policy profile <| activation := activation current |> in
      let p := p <| scheduler ::= fun s => Scheduler.set_policy to_lowercase s plugin pol 0 |> in
      (p <| profile_overrides ::= insert plugin profile |>, true)
  end.

(** [Arc::new]: a location that is not in use. *)
Definition allocate (p : QueryPipeline) (b : ConcurrencyBudget) : QueryPipeline * PluginBudgetHandle :=
  let handle := fresh (dom (store p)) in
  (p <| store ::= insert handle b |>, handle).

Definition resolved_section (pol : PluginPolicy) (c : ConcurrencySection) : ConcurrencySection :=
  let scheduler_limit :=
    if max_concurrent_requests pol <=? u32_max then max_concurrent_requests pol else u32_max in
  mkSection
    (Some (match max_suggestion_requests c with
           | Some declared => Z.min declared scheduler_limit
           | None => scheduler_limit
           end))
    (max_action_requests c) (max_background_tasks c) (max_catalog_tasks c).

Definition resolved_budget_for_policy (p : QueryPipeline) (pol : PluginPolicy) (c : ConcurrencySection)
    : QueryPipeline * PluginBudgetHandle :=
  allocate p (from_section (resolved_section pol c)).

(** The plugin that already owns a handle, if any. *)
Definition budget_owner (p : QueryPipeline) (handle : PluginBudgetHandle) : option PluginId :=
  head (map fst (List.filter (fun kv => Nat.eqb kv.2 handle) (map_to_list (budgets p)))).

Definition register_plugin_with_budget (p : QueryPipeline) (plugin : PluginId) (pol : PluginPolicy)
    (intake_policy : IntakePolicy) (budget : PluginBudgetHandle)
    : option (QueryPipeline * result unit PipelineError) :=
  if is_some (health_sync p !! plugin) then Some (p, Err (PluginAlreadyRegistered plugin))
  else
    match budget_owner p budget with
    | Some owner => Some (p, Err (BudgetAlreadyOwned plugin owner))
    | None =>
        let pol := effective_policy p plugin pol in
        p ← supervise p (fun s => MemorySupervisor.register s plugin);
        let p := p <| scheduler ::= fun s => Scheduler.register_plugin to_lowercase s plugin pol |> in
        let p := p <| intake ::= fun q => InboundResultQueue.register q plugin intake_policy |> in
        let p := p <| health_sync ::= insert plugin default_health_sync |> in
        let p := p <| budgets ::= insert plugin budget |> in
        Some (p <| registered ::= fun l => l ++ [plugin] |>, Ok ())
    end.

Definition register_plugin_with_budget_default_intake (p : QueryPipeline) (plugin : PluginId)
    (pol : PluginPolicy) (budget : PluginBudgetHandle) : option (QueryPipeline * result unit PipelineError) :=
  register_plugin_with_budget p plugin pol (default_intake_policy p) budget.

Definition register_plugin_with_concurrency (p : QueryPipeline) (plugin : PluginId) (pol : PluginPolicy)
    (intake_policy : IntakePolicy) (c : ConcurrencySection) : option (QueryPipeline * result unit PipelineError) :=
  if is_some (health_sync p !! plugin) then Some (p, Err (PluginAlreadyRegistered plugin))
  else
    let pol := effective_policy p plugin pol in
    let (p, budget) := resolved_budget_for_policy p pol c in
    register_plugin_with_budget p plugin pol intake_policy budget.

Definition register_plugin_with_intake (p : QueryPipeline) (plugin : PluginId) (pol : PluginPolicy)
    (intake_policy : IntakePolicy) : option (QueryPipeline * result unit PipelineError) :=
  register_plugin_with_concurrency p plugin pol intake_policy (mkSection None None None None).

Definition register_plugin (p : QueryPipeline) (plugin : PluginId) (pol : PluginPolicy)
    : option (QueryPipeline * result unit PipelineError) :=
  register_plugin_with_intake p plugin pol (default_intake_policy p).

Definition ensure_supported_runtime (runtime : PluginModel.Runtime) : result unit PipelineError :=
  match runtime with
  | PluginModel.LegacyPython | PluginModel.Python | PluginModel.Native | PluginModel.Builtin => Ok ()
  | PluginModel.Wasm => Ok ()
  | PluginModel.CAbi => Ok ()
  end.

Definition scheduler_profile (profile : PluginModel.SchedulingProfile) : SchedulingProfile :=
  match profile with
  | PluginModel.LegacyStrict => LegacyStrict
  | PluginModel.LegacyOptimized => LegacyOptimized
  | PluginModel.Modern => Modern
  end.

Section Manifests.
(** The compiler of activation patterns, and what the never-matching pattern
    matches. *)
Variable compile : text -> result (text -> bool) text.
Variable never : text -> bool.

Definition plugin_policy_from_manifest (m : PluginModel.Manifest) : PluginPolicy :=
  let resolved := PluginModel.query_policy compile never m in
  let profile := scheduler_profile (PluginModel.q_profile resolved) in
  let defaults := profile_policy profile in
  {| SchedulerTypes.profile := profile;
     debounce :=
       {| debounce_ms := PluginModel.q_debounce_ms resolved;
          maximum_wait_ms := PluginModel.q_maximum_wait_ms resolved;
          leading_edge := PluginModel.q_leading_edge resolved;
          trailing_edge := PluginModel.q_trailing_edge resolved;
          minimum_query_length := PluginModel.q_minimum_query_length resolved |};
     activation :=
       {| supports_empty_query := PluginModel.q_empty_query resolved;
          prefixes := PluginModel.q_prefixes resolved;
          keywords := PluginModel.q_keywords resolved;
          patterns := PluginModel.q_patterns resolved |};
     max_concurrent_requests := PluginModel.q_max_concurrent_requests resolved;
     queue_policy := queue_policy defaults;
     queue_capacity := queue_capacity defaults |}.

Definition set_manifest_limits (p : QueryPipeline) (plugin : PluginId) (m : PluginModel.Manifest) : QueryPipeline :=
  p <| aggregator ::= fun a =>
         MemoryResultAggregator.set_plugin_limits a plugin
           (PluginModel.maximum_results_per_query (PluginModel.performance m))
           (PluginModel.maximum_results_per_batch (PluginModel.performance m)) |>.

Definition register_namespaced_manifest_with_budget (p : QueryPipeline) (plugin : PluginId)
    (m : PluginModel.Manifest) (budget : PluginBudgetHandle) : option (QueryPipeline * result unit PipelineError) :=
  if is_some (health_sync p !! plugin) then Some (p, Err (PluginAlreadyRegistered plugin))
  else
    match ensure_supported_runtime (PluginModel.runtime (PluginModel.plugin m)) with
    | Err e => Some (p, Err e)
    | Ok _ =>
        let pol := effective_policy p plugin (plugin_policy_from_manifest m) in
        '(p, r) ← register_plugin_with_budget p plugin pol (default_intake_policy p) budget;
        match r with
        | Err e => Some (p, Err e)
        | Ok _ => Some (set_manifest_limits p plugin m, Ok ())
        end
    end.

Definition register_namespaced_manifest (p : QueryPipeline) (plugin : PluginId) (m : PluginModel.Manifest)
    : option (QueryPipeline * result PluginBudgetHandle PipelineError) :=
  if is_some (health_sync p !! plugin) then Some (p, Err (PluginAlreadyRegistered plugin))
  else
    match ensure_supported_runtime (PluginModel.runtime (PluginModel.plugin m)) with
    | Err e => Some (p, Err e)
    | Ok _ =>
        let pol := effective_policy p plugin (plugin_policy_from_manifest m) in
        let (p, budget) := resolved_budget_for_policy p pol (PluginModel.concurrency m) in
        '(p, r) ← register_plugin_with_budget p plugin pol (default_intake_policy p) budget;
        match r with
        | Err e => Some (p, Err e)
        | Ok _ => Some (set_manifest_limits p plugin m, Ok budget)
        end
    end.

Definition register_manifest (p : QueryPipeline) (m : PluginModel.Manifest)
    : option (QueryPipeline * result PluginId PipelineError) :=
  let plugin := PluginModel.id (PluginModel.plugin m) in
  '(p, r) ← register_namespaced_manifest p plugin m;
  Some (p, match r with Ok _ => Ok plugin | Err e => Err e end).

Definition register_manifest_with_budget (p : QueryPipeline) (m : PluginModel.Manifest)
    (budget : PluginBudgetHandle) : option (QueryPipeline * result PluginId PipelineError) :=
  let plugin := PluginModel.id (PluginModel.plugin m) in
  '(p, r) ← register_namespaced_manifest_with_budget p plugin m budget;
  Some (p, match r with Ok _ => Ok plugin | Err e => Err e end).
End Manifests.

(** Which errors an unregistration keeps. *)
Definition error_survives (plugin : PluginId) (e : PipelineError) : bool :=
  match e with
  | PluginAlreadyRegistered owner | QueueRejected owner _ _ | AggregatorRejected owner _ _
  | UnsupportedRuntime owner _ => negb (bool_decide (owner = plugin))
  | BudgetAlreadyOwned attempted owner =>
      negb (bool_decide (attempted = plugin)) && negb (bool_decide (owner = plugin))
  end.

(** The guards of one plugin, removed one by one. *)
Definition drop_admitted (p : QueryPipeline) (plugin : PluginId) : option QueryPipeline :=
  let keys := List.filter (fun key => bool_decide (key.1 = plugin)) (iteration (map fst (map_to_list (admitted p)))) in
  foldl (fun p key => p ← p; remove_admitted p key) (Some p) keys.

Definition unregister_plugin (p : QueryPipeline) (plugin : PluginId) : option (QueryPipeline * bool) :=
  if negb (is_some (health_sync p !! plugin)) then Some (p, false)
  else
    p ← drop_admitted p plugin;
    let p := p <| active_requests ::= filter (fun key => key.1 <> plugin) |> in
    let p := p <| unresolved_cancellations ::= filter (fun kv => kv.1.1 <> plugin) |> in
    let p := p <| pending_completions ::= filter (fun kv => kv.1.1 <> plugin) |> in
    let p := p <| pending_cancellations ::= filter (fun c => cancelled_plugin c <> plugin) |> in
    let p := p <| pending_errors ::= List.filter (error_survives plugin) |> in
    let p := p <| scheduler ::= fun s => (Scheduler.unregister_plugin s plugin).1 |> in
    let p := p <| intake ::= fun q => (InboundResultQueue.unregister q plugin).1 |> in
    let p := p <| supervisor ::= fun s => (MemorySupervisor.unregister s plugin).1 |> in
    let p := p <| aggregator ::= fun a => MemoryResultAggregator.remove_plugin_limits a plugin |> in
    let p := p <| health_sync ::= delete plugin |> in
    let p := p <| budgets ::= delete plugin |> in
    Some (p <| registered ::= filter (fun r => r <> plugin) |>, true).

(** * Queries *)

(** The assignments of [keystroke] between the scheduler's answer and the first
    drain. *)
Definition open_generation (p : QueryPipeline) (s : QueryScheduler) (t : text) (g : Generation) : QueryPipeline :=
  let p := p <| scheduler := s |> <| query := t |> <| generation := g |> <| unranked_batches := 0 |>
             <| last_intake_drain_at := None |> in
  let p := capture_cancellations p in
  let p := p <| intake ::= fun q => InboundResultQueue.begin_generation q g |> in
  let p := p <| aggregator ::= fun a => MemoryResultAggregator.begin_generation a g |> in
  p <| rows := [] |> <| visible_generation := Some g |> <| presented_pending := None |>
    <| presentation_dirty := true |>.

Definition keystroke (p : QueryPipeline) (t : text) (now : Millis) : option (QueryPipeline * Generation) :=
  '(s, g) ← Scheduler.submit_query to_lowercase (scheduler p) t now;
  let p := open_generation p s t g in
  '(q, a, _) ← InboundResultQueue.drain_into (intake p) now (aggregator p) (mkDrainBudget 0 0 0);
  let p := p <| intake := q |> <| aggregator := a |> in
  p ← flush_ready_completions p [];
  p ← sync_health p;
  Some (p, g).

Definition empty_report : DrainReport := mkDrainReport 0 [] 0 [].

(** One merged batch, told to the scheduler. *)
Definition record_merged (p : QueryPipeline) (errors : list PipelineError) (m : MergedBatch)
    : option (QueryPipeline * list PipelineError) :=
  '(s, admission) ← Scheduler.record_result_batch (scheduler p) (merged_plugin m) (merged_generation m)
                      (merged_items m) (batch_completion (merged_state m)) (merged_admitted_at m);
  let p := p <| scheduler := s |> in
  match admission with
  | BatchAccepted =>
      Some (p <| unranked_batches ::= fun n => saturating_add usize_max n 1 |> <| presentation_dirty := true |>, errors)
  | StaleRejected =>
      Some (p, errors ++ [AggregatorRejected (merged_plugin m) (merged_generation m) RejectStale])
  | RejectedResultQueueFull =>
      Some (p, errors ++ [QueueRejected (merged_plugin m) (merged_generation m) BoundaryFull])
  end.

Fixpoint record_merged_all (p : QueryPipeline) (errors : list PipelineError) (l : list MergedBatch)
    : option (QueryPipeline * list PipelineError) :=
  match l with
  | [] => Some (p, errors)
  | m :: l' => '(p, errors) ← record_merged p errors m; record_merged_all p errors l'
  end.

Definition drain_intake (p : QueryPipeline) (now : Millis)
    : option (QueryPipeline * DrainReport * list PipelineError) :=
  if bool_decide (last_intake_drain_at p = Some now) then Some (p, empty_report, [])
  else if depth_batches (InboundResultQueue.depth (intake p)) =? 0 then Some (p, empty_report, [])
  else
    let p := p <| last_intake_drain_at := Some now |> in
    let available_trace_slots := saturating_sub (result_trace_capacity p) (unranked_batches p) in
    let budget := mkDrainBudget (batches_per_plugin (drain_budget p)) (items_per_plugin (drain_budget p))
                    (Z.min (total_batches_budget (drain_budget p)) available_trace_slots) in
    '(q, a, report) ← InboundResultQueue.drain_into (intake p) now (aggregator p) budget;
    let p := p <| intake := q |> <| aggregator := a |> in
    '(p, errors) ← record_merged_all p [] (report_batches report);
    let errors := errors ++ map (fun r => AggregatorRejected r.1 (generation p) r.2) (report_rejected report) in
    p ← flush_ready_completions p (report_batches report);
    p ← sync_health p;
    Some (p, report, errors).

(** The closure of [dispatches.retain]: each dispatch is admitted against the
    budget of its plugin, or noted as refused. *)
Fixpoint admit_dispatches (p : QueryPipeline) (l : list DispatchedRequest)
    : option (QueryPipeline * list DispatchedRequest * list RequestKey) :=
  match l with
  | [] => Some (p, [], [])
  | d :: l' =>
      let key := (dispatched_plugin d, dispatched_generation d) in
      match budgets p !! dispatched_plugin d with
      | None =>
          '(p, kept, refused) ← admit_dispatches p l'; Some (p, d :: kept, refused)
      | Some handle =>
          b ← store p !! handle;
          '(b, granted) ← try_acquire_owned b Suggestion;
          let p := p <| store ::= insert handle b |> in
          match granted with
          | true =>
              p ← insert_admitted p key (mkGuard handle Suggestion);
              let p := p <| active_requests ::= fun a => {[key]} ∪ a |> in
              '(p, kept, refused) ← admit_dispatches p l'; Some (p, d :: kept, refused)
          | false =>
              '(p, kept, refused) ← admit_dispatches p l'; Some (p, kept, key :: refused)
          end
      end
  end.

Definition retire_refused (p : option QueryPipeline) (now : Millis) (key : RequestKey) : option QueryPipeline :=
  p ← p; fst <$> finish_completion p key.1 key.2 now.

(** The scheduler's dispatches, admitted against the budgets; the refused ones
    are retired. *)
Definition dispatch_admitted (p : QueryPipeline) (now : Millis)
    : option (QueryPipeline * list DispatchedRequest) :=
  '(s, dispatches) ← Scheduler.tick (scheduler p) now;
  let p := p <| scheduler := s |> in
  '(p, dispatches, refused) ← admit_dispatches p dispatches;
  p ← foldl (fun p key => retire_refused p now key) (Some p) refused;
  Some (p, dispatches).

Definition tick (p : QueryPipeline) (now : Millis) : option (QueryPipeline * PipelineTick) :=
  '(p, drain_report, errors) ← drain_intake p now;
  let errors := pending_errors p ++ errors in
  let p := p <| pending_errors := [] |> in
  '(p, dispatches) ← dispatch_admitted p now;
  let p := capture_cancellations p in
  let cancellations := pending_cancellations p in
  let p := p <| pending_cancellations := [] |> in
  p ← sync_health p;
  Some (p, mkPipelineTick dispatches cancellations drain_report errors).

(** A batch that is too late, told to the scheduler and the supervisor. *)
Definition record_late (p : QueryPipeline) (b : ResultBatch) (now : Millis) : option QueryPipeline :=
  '(s, _) ← Scheduler.record_result_batch (scheduler p) (batch_plugin b) (batch_generation b)
              (len (batch_items b)) (batch_completion (batch_state b)) now;
  p ← classify_cancelled_response (p <| scheduler := s |>) (batch_plugin b) (batch_generation b) (batch_state b);
  sync_health p.

Definition deliver_with_priority (p : QueryPipeline) (b : ResultBatch) (priority : BatchPriority) (now : Millis)
    : option (QueryPipeline * result unit PipelineError) :=
  let plugin := batch_plugin b in
  let g := batch_generation b in
  if is_some (health_sync p !! plugin) && negb (bool_decide ((plugin, g) ∈ active_requests p)) then
    p ← record_late p b now;
    Some (p, Err (QueueRejected plugin g QStaleGeneration))
  else
    '(q, r) ← InboundResultQueue.submit (intake p) now (mkInbound b priority);
    let p := p <| intake := q |> in
    match r with
    | Ok _ => Some (p, Ok ())
    | Err reason =>
        p ← (if bool_decide (reason = QStaleGeneration) then record_late p b now else Some p);
        Some (p, Err (QueueRejected plugin g reason))
    end.

Definition deliver (p : QueryPipeline) (b : ResultBatch) (now : Millis)
    : option (QueryPipeline * result unit PipelineError) :=
  deliver_with_priority p b High now.

Definition complete (p : QueryPipeline) (plugin : PluginId) (g : Generation) (now : Millis)
    : option (QueryPipeline * CompletionOutcome) :=
  if (g =? generation p) && bool_decide ((plugin, g) ∈ active_requests p)
     && negb (depth_batches (InboundResultQueue.plugin_depth (intake p) plugin) =? 0)
  then Some (p <| pending_completions ::= insert (plugin, g) now |>, CompletionAccepted)
  else finish_completion p plugin g now.

Definition abort_request (p : QueryPipeline) (plugin : PluginId) (g : Generation) (now : Millis)
    : option (QueryPipeline * bool) :=
  let key := (plugin, g) in
  let had_request :=
    bool_decide (key ∈ active_requests p) || is_some (admitted p !! key)
    || is_some (pending_completions p !! key) || is_some (unresolved_cancellations p !! key) in
  if negb had_request then Some (p, false)
  else
    let p := p <| pending_completions ::= delete key |> in
    let p := p <| pending_cancellations ::=
               filter (fun c => cancelled_plugin c <> plugin \/ cancelled_generation c <> g) |> in
    let cancellation_pending := is_some (unresolved_cancellations p !! key) in
    let p := p <| unresolved_cancellations ::= delete key |> in
    '(p, _) ← finish_completion p plugin g now;
    p ← (if cancellation_pending
         then supervise p (fun s => MemorySupervisor.record_cancellation s plugin false 1) else Some p);
    Some (p, true).

(** * Presentation *)

Definition argument_hint (a : ArgumentPolicy) : option string :=
  match a with
  | ArgForbidden => None
  | ArgOptional => Some "optional argument"
  | ArgRequired => Some "argument required"
  end%string.

(** [resolve]: what the installed resolver answers for a plugin's reference. *)
Definition result_row (item : Item) (installed : bool) (resolve : string -> string -> option IconImage) : ResultRow :=
  {| row_item := stable_id item;
     row_label := item_label item;
     row_description := item_description item;
     row_icon :=
       if installed then reference ← icon_reference item; resolve (plugin_id item) reference else None;
     row_icon_reference := icon_reference item;
     row_category := category_as_str (category item);
     row_plugin_name := plugin_id item;
     row_highlights := [];
     row_argument_hint := argument_hint (argument_policy item);
     row_status := None;
     row_default_action := head (actions item);
     row_alternate_actions := tail (actions item) |}.

(** One row of [fill_pending_icons]. *)
Definition fill_icon (row : ResultRow) (resolve : string -> string -> option IconImage) : ResultRow * bool :=
  if is_some (row_icon row) then (row, false)
  else
    match row_icon_reference row with
    | None => (row, false)
    | Some reference =>
        match resolve (row_plugin_name row) reference with
        | Some image => (row <| row_icon := Some image |>, true)
        | None => (row, false)
        end
    end.

(** [resolve n] are the answers while the row at position [n] is handled: the
    resolver may learn of an icon at any time. *)
Definition fill_pending_icons (p : QueryPipeline) (resolve : nat -> string -> string -> option IconImage)
    : QueryPipeline * bool :=
  if negb (icons p) then (p, false)
  else if negb (existsb (fun row => is_none (row_icon row) && is_some (row_icon_reference row)) (rows p))
  then (p, false)
  else
    let filled := imap (fun n row => fill_icon row (resolve n)) (rows p) in
    let changed := existsb snd filled in
    (if changed then p <| rows := map fst filled |> else p, changed).

Definition set_plugin_icons (p : QueryPipeline) : QueryPipeline := p <| icons := true |>.

(** The part of [present] that brings the rows up to date. *)
Definition refresh_rows (p : QueryPipeline) (resolve : nat -> string -> string -> option IconImage)
    : QueryPipeline * bool :=
  let p := p <| aggregator ::= MemoryResultAggregator.begin_frame |> in
  let (a, update) := MemoryResultAggregator.take_ui_update (aggregator p) in
  let p := p <| aggregator := a |> in
  match update with
  | Some items =>
      (p <| rows := imap (fun n item => result_row item (icons p) (resolve n)) items |>
         <| visible_generation := Some (generation p) |>, true)
  | None => fill_pending_icons p resolve
  end.

Definition present (p : QueryPipeline) (now : Millis) (resolve : nat -> string -> string -> option IconImage)
    : option (QueryPipeline * option ViewModel) :=
  '(p, _, errors) ← drain_intake p now;
  let p := foldl push_error p errors in
  let '(p, rows_changed) := refresh_rows p resolve in
  if negb (bool_decide (visible_generation p = Some (generation p))) then Some (p, None)
  else
    let pending_plugins := has_pending_work p in
    if negb rows_changed && negb (presentation_dirty p) && bool_decide (presented_pending p = Some pending_plugins)
    then Some (p, None)
    else
      let p := p <| presented_pending := Some pending_plugins |> in
      let p := p <| scheduler ::= fun s => Scheduler.record_ranking s (generation p) (len (rows p)) now |> in
      let p := p <| scheduler ::= fun s => Scheduler.record_presentation s (generation p) (len (rows p)) now |> in
      let p := p <| unranked_batches := 0 |> <| presentation_dirty := false |> in
      Some (p, Some {| v_generation := generation p; v_query := query p; v_rows := rows p; v_selected := 0;
                       v_pending_plugins := pending_plugins; v_actions_open := false; v_settings_open := false;
                       v_settings := []; v_settings_focus := None; v_show_hints := true;
                       v_rounded_corners := true; v_page := None |}).

(** The loop of [present_drained]. *)
Fixpoint present_rounds (rounds : nat) (p : QueryPipeline) (now : Millis)
    (resolve : nat -> string -> string -> option IconImage) (frame : option ViewModel)
    : option (QueryPipeline * option ViewModel) :=
  match rounds with
  | O => Some (p, frame)
  | S rounds' =>
      let before := depth_batches (InboundResultQueue.depth (intake p)) in
      if negb (0 <? before) then Some (p, frame)
      else
        let p := p <| last_intake_drain_at := None |> in
        '(p, next) ← present p now resolve;
        let frame := match next with Some v => Some v | None => frame end in
        if before <=? depth_batches (InboundResultQueue.depth (intake p)) then Some (p, frame)
        else present_rounds rounds' p now resolve frame
  end.

Definition present_drained (p : QueryPipeline) (now : Millis)
    (resolve : nat -> string -> string -> option IconImage) : option (QueryPipeline * option ViewModel) :=
  '(p, frame) ← present p now resolve;
  let rounds := saturating_add usize_max (depth_batches (InboundResultQueue.depth (intake p))) 2 in
  present_rounds (Z.to_nat rounds) p now resolve frame.

(** * Reading and taking *)

Definition next_wakeup (p : QueryPipeline) : option Millis := Scheduler.next_wakeup (scheduler p).

Definition take_intake_events (p : QueryPipeline) : QueryPipeline * list QueueEvent :=
  let (q, events) := InboundResultQueue.take_events (intake p) in (p <| intake := q |>, events).

Definition take_errors (p : QueryPipeline) : QueryPipeline * list PipelineError :=
  (p <| pending_errors := [] |>, pending_errors p).

(** * Accesses of other threads *)

(** Another dispatch site asks for a slot, and later drops its guard. *)
Definition foreign_acquire (p : QueryPipeline) (handle : PluginBudgetHandle) (kind : BudgetKind)
    : option (QueryPipeline * bool) :=
  match store p !! handle with
  | None => Some (p, false)
  | Some b =>
      '(b, granted) ← try_acquire_owned b kind;
      Some (p <| store ::= insert handle b |>, granted)
  end.

Definition foreign_release (p : QueryPipeline) (guard : OwnedBudgetGuard) : option QueryPipeline :=
  release p (Some guard).

End Operations.
