(* ===== verification/PipelineInv.v ===== *)
(** The pipeline's invariant: five registries that stay in lockstep, one
    suggestion slot per request the scheduler has in flight, refusals that are
    reported once, and rows that show the aggregator's list.

    The pieces of the invariant are stated over the fields they read, so an
    assignment to any other field keeps them by computation.

    The budgets behind the pipeline's handles come first: what one whole call of
    [try_acquire_owned] and one drop of a guard do to a budget, and how the
    occupancy of a budget is counted from the guards alive. *)

From S2P Require Import Prelude Text Generation Items View Debounce LegacyDispatch SchedulerTypes Scheduler.
From S2P Require Import SchedulerInv SchedulerQuery SchedulerTick SchedulerFacts SchedulerFlights Aggregator.
From S2P Require Import AggregatorFacts Intake IntakeInv IntakeDrain IntakeFacts Concurrency Supervisor Manifest.
From S2P Require Import Pipeline.

(** * Calls that return *)

(** The call does not panic and its value satisfies [Q]. *)
Definition returns {A} (o : option A) (Q : A -> Prop) : Prop := exists a, o = Some a /\ Q a.

Lemma returns_some {A} (a : A) (Q : A -> Prop) : Q a -> returns (Some a) Q.
Proof. by exists a. Qed.

Lemma returns_bind {A B} (o : option A) (f : A -> option B) (Q : A -> Prop) (R : B -> Prop) :
  returns o Q -> (forall a, Q a -> returns (f a) R) -> returns (o ≫= f) R.
Proof. intros (a & -> & Ha) Hf. exact (Hf a Ha). Qed.

Lemma returns_weaken {A} (o : option A) (Q R : A -> Prop) :
  returns o Q -> (forall a, Q a -> R a) -> returns o R.
Proof. intros (a & -> & Ha) H. exists a. auto. Qed.

Lemma returns_fmap {A B} (f : A -> B) (o : option A) (Q : B -> Prop) :
  returns o (fun a => Q (f a)) -> returns (f <$> o) Q.
Proof. intros (a & -> & Ha). by exists (f a). Qed.

(** A loop that may panic, with an invariant over the list still to do. *)
Lemma returns_foldl {A B} (f : option A -> B -> option A) (I : list B -> A -> Prop) l a :
  I l a -> (forall x l a, I (x :: l) a -> returns (f (Some a) x) (I l)) -> returns (foldl f (Some a) l) (I []).
Proof.
  intros Ha Hf. revert a Ha. induction l as [|x l IH]; intros a Ha; cbn; [by exists a|].
  destruct (Hf x l a Ha) as (a' & -> & Ha'). by apply IH.
Qed.

Lemma returns_value {A} (o : option A) (Q : A -> Prop) a : returns o Q -> o = Some a -> Q a.
Proof. intros (a' & -> & H) [= <-]. exact H. Qed.

(** * One budget *)

(** Kind [k] has [n] slots taken. *)
Definition kind_ok (b : ConcurrencyBudget) (k : BudgetKind) (n : Z) : Prop :=
  exists m r, limit b k = Some m /\ in_range u32_max m /\ in_flight b k = Some n /\ in_range m n /\
    refusals b k = Some r /\ in_range u64_max r.

Definition budget_ok (b : ConcurrencyBudget) (occ : BudgetKind -> Z) : Prop := forall k, kind_ok b k (occ k).

Definition bump (occ : BudgetKind -> Z) (k : BudgetKind) (d : Z) (k' : BudgetKind) : Z :=
  if decide (k' = k) then occ k' + d else occ k'.

Lemma from_section_ok s : section_in_range s -> budget_ok (from_section s) (fun _ => 0).
Proof.
  intros Hs k. specialize (Hs k). exists (section_limit s k), 0. unfold in_range in *.
  split_and!; try lia; by destruct k.
Qed.

(** Replacing one cell of one kind. *)
Lemma flight_cell_ok b occ k c n :
  budget_ok b occ -> value c = n -> (forall m, limit b k = Some m -> in_range m n) ->
  budget_ok (b <| in_flight_cells ::= <[index k := c]> |>) (bump occ k (n - occ k)).
Proof.
  intros Hb Hv Hm k'. destruct (Hb k') as (m & r & Hl & Hlr & Hf & Hfr & Hr & Hrr). exists m, r.
  split; [done|]. split; [done|]. unfold bump. case_decide as E; [subst k'|].
  - replace (occ k + (n - occ k)) with n by lia. split; [|by auto].
    unfold in_flight in *. cbn. apply fmap_Some in Hf as (c0 & Hc0 & _).
    rewrite list_lookup_insert_eq by (by eapply lookup_lt_Some). cbn. by rewrite Hv.
  - split; [|done]. unfold in_flight in *. cbn. rewrite list_lookup_insert_ne; [done|]. by intros ?%index_inj.
Qed.

Lemma refusal_cell_ok b occ k c :
  budget_ok b occ -> in_range u64_max (value c) ->
  budget_ok (b <| refusal_cells ::= <[index k := c]> |>) occ
  /\ forall k', refusals (b <| refusal_cells ::= <[index k := c]> |>) k'
       = if decide (k' = k) then Some (value c) else refusals b k'.
Proof.
  intros Hb Hv.
  assert (Href : forall k', refusals (b <| refusal_cells ::= <[index k := c]> |>) k'
       = if decide (k' = k) then Some (value c) else refusals b k').
  { intros k'. destruct (Hb k) as (m & r & _ & _ & _ & _ & Hr & _). unfold refusals in *. cbn.
    apply fmap_Some in Hr as (c0 & Hc0 & _). case_decide as E; [subst k'|].
    - by rewrite list_lookup_insert_eq by (by eapply lookup_lt_Some).
    - rewrite list_lookup_insert_ne; [done|]. by intros ?%index_inj. }
  split; [|exact Href]. intros k'. destruct (Hb k') as (m & r & Hl & Hlr & Hf & Hfr & Hr & Hrr).
  exists m, (if decide (k' = k) then value c else r). rewrite Href. split_and!; try done; by case_decide.
Qed.

(** What a budget looks like after a call that asked for a slot of kind [k]. *)
Record acquired (b : ConcurrencyBudget) (occ : BudgetKind -> Z) (k : BudgetKind)
    (b' : ConcurrencyBudget) (granted : bool) : Prop := {
  aq_granted : granted = true <-> exists m, limit b k = Some m /\ occ k < m;
  aq_limits : forall k', limit b' k' = limit b k';
  aq_ok : budget_ok b' (if granted then bump occ k 1 else occ);
  aq_refusals : forall k', refusals b' k' =
    if granted then refusals b k'
    else if decide (k' = k) then (fun r => saturating_add u64_max r 1) <$> refusals b k' else refusals b k';
}.

(** Without interference one call takes at most three accesses: a slot is
    granted exactly when one is free, and otherwise the refusal is counted. *)
Lemma try_acquire_spec b occ k :
  budget_ok b occ -> returns (try_acquire_owned b k) (fun '(b', granted) => acquired b occ k b' granted).
Proof.
  intros Hb. destruct (Hb k) as (m & r & Hl & Hlr & Hf & Hfr & Hr & Hrr).
  pose proof Hf as (c & Hc & Hcv)%fmap_Some. pose proof Hr as (rc & Hrc & Hrv)%fmap_Some.
  unfold try_acquire_owned, fresh_index. rewrite Hc, Hrc. cbn [map_or].
  set (f := (length (past c) + length (past rc))%nat). unfold admit_enter. rewrite Hc. cbn [mbind option_bind].
  rewrite (load_fresh c) by lia. rewrite <- Hcv. cbn [finish_alone advance]. unfold admit_iterate.
  unfold limit in Hl. rewrite Hl. cbn [mbind option_bind]. destruct (Z.leb_spec m (occ k)) as [E|E].
  - rewrite Hrc. cbn [mbind option_bind]. rewrite (load_fresh rc) by lia. rewrite <- Hrv.
    cbn [finish_alone advance]. unfold admit_refuse. rewrite Hrc. cbn [mbind option_bind].
    unfold compare_exchange_weak. rewrite <- Hrv, Z.eqb_refl. cbn [negb andb]. apply returns_some.
    destruct (refusal_cell_ok b occ k (write rc (saturating_add u64_max r 1)) Hb) as [Hok Href].
    { cbn. unfold in_range, saturating_add in *. lia. }
    split; [split; [done|] | done | done |].
    + intros (m' & Hm' & ?). unfold limit in Hm'. rewrite Hl in Hm'. injection Hm' as <-. lia.
    + intros k'. rewrite Href. case_decide; [|done]. subst. by rewrite Hr.
  - rewrite Hc. cbn [mbind option_bind]. unfold checked_add, in_range in *.
    rewrite (proj2 (Z.leb_le (occ k + 1) u32_max)) by lia. cbn [mbind option_bind].
    unfold compare_exchange_weak. rewrite <- Hcv, Z.eqb_refl. cbn [negb andb]. apply returns_some.
    split; [split; [eauto | done] | done | | done].
    assert (Hok : budget_ok (b <| in_flight_cells ::= <[index k := write c (occ k + 1)]> |>)
      (bump occ k (occ k + 1 - occ k))).
    { apply flight_cell_ok; [done | done|]. intros m' Hm'. unfold limit in Hm'. rewrite Hl in Hm'.
      injection Hm' as <-. unfold in_range. lia. }
    by replace (occ k + 1 - occ k) with 1 in Hok by lia.
Qed.

(** A dropped guard gives its slot back. *)
Lemma drop_guard_spec b occ k :
  budget_ok b occ -> 0 < occ k ->
  returns (drop_guard b k) (fun b' => (forall k', limit b' k' = limit b k') /\
    (forall k', refusals b' k' = refusals b k') /\ budget_ok b' (bump occ k (-1))).
Proof.
  intros Hb Hpos. destruct (Hb k) as (m & r & Hl & Hlr & Hf & Hfr & Hr & Hrr).
  pose proof Hf as (c & Hc & Hcv)%fmap_Some. unfold drop_guard. rewrite Hc. cbn [mbind option_bind].
  apply returns_some. split; [done|]. split; [done|].
  assert (Hv : value (fetch_sub u32_max c 1) = occ k - 1).
  { cbn. rewrite <- Hcv. apply Z.mod_small. unfold in_range in *. lia. }
  assert (Hok : budget_ok (b <| in_flight_cells ::= <[index k := fetch_sub u32_max c 1]> |>)
    (bump occ k (occ k - 1 - occ k))).
  { apply flight_cell_ok; [done | done|]. intros m' Hm'. rewrite Hl in Hm'. injection Hm' as <-.
    unfold in_range in *. lia. }
  by replace (occ k - 1 - occ k) with (-1) in Hok by lia.
Qed.

Lemma budget_ok_ext b occ occ' : (forall k, occ k = occ' k) -> budget_ok b occ -> budget_ok b occ'.
Proof. intros H Hb k. rewrite <- H. apply Hb. Qed.

(** * Counting guards *)

#[export] Instance OwnedBudgetGuard_eq_dec : EqDecision OwnedBudgetGuard.
Proof. solve_decision. Defined.

Definition holds (h : nat) (k : BudgetKind) (g : OwnedBudgetGuard) : Z :=
  if decide (g = mkGuard h k) then 1 else 0.

Definition foreign_held (foreign : list OwnedBudgetGuard) (h : nat) (k : BudgetKind) : Z :=
  foldr (fun g n => holds h k g + n) 0 foreign.

(** The slots taken: the pipeline's own guards and those of other dispatch
    sites. *)
Definition occupancy (guards : gmap (PluginId * Generation) OwnedBudgetGuard)
    (foreign : list OwnedBudgetGuard) (h : nat) (k : BudgetKind) : Z :=
  map_sum (holds h k) guards + foreign_held foreign h k.

Lemma holds_nonneg h k g : 0 <= holds h k g.
Proof. unfold holds. case_decide; lia. Qed.

Lemma holds_bump h k g (occ : BudgetKind -> Z) d :
  occ k + holds h k g * d = if decide (guard_budget g = h) then bump occ (guard_kind g) d k else occ k.
Proof.
  unfold holds, bump. destruct g as [h' k']. cbn. repeat case_decide; simplify_eq; lia.
Qed.

Lemma foreign_held_nonneg l h k : 0 <= foreign_held l h k.
Proof. apply foldr_nonneg, holds_nonneg. Qed.

Lemma foreign_held_perm l l' h k : l ≡ₚ l' -> foreign_held l h k = foreign_held l' h k.
Proof. unfold foreign_held. induction 1; cbn; lia. Qed.

Lemma occupancy_insert m l h k key g :
  m !! key = None -> occupancy (<[key := g]> m) l h k = occupancy m l h k + holds h k g * 1.
Proof. intros Hn. unfold occupancy. rewrite map_sum_insert_None by done. lia. Qed.

Lemma occupancy_delete m l h k key g :
  m !! key = Some g -> occupancy (delete key m) l h k = occupancy m l h k + holds h k g * -1.
Proof. intros Hn. unfold occupancy. rewrite (map_sum_delete _ m key g Hn). lia. Qed.

Lemma occupancy_pos m l key g :
  m !! key = Some g -> 0 < occupancy m l (guard_budget g) (guard_kind g).
Proof.
  intros Hm. unfold occupancy. pose proof (foreign_held_nonneg l (guard_budget g) (guard_kind g)).
  pose proof (map_sum_lookup_le (holds (guard_budget g) (guard_kind g)) m key g (holds_nonneg _ _) Hm) as Hle.
  unfold holds at 1 in Hle. rewrite decide_True in Hle by (by destruct g). lia.
Qed.

Module IQ := InboundResultQueue.
Module MS := MemorySupervisor.
Module MA := MemoryResultAggregator.

(** * The invariant *)

Record sched_ok (s : QueryScheduler) : Prop := {
  so_inv : SchedulerFacts.inv s;
  so_live : is_shutdown s = false;
  so_flights : flights_inv s;
}.

(** Every registry knows the same plugins. *)
Record lockstep (reg : list PluginId) (hs : gmap PluginId HealthSync) (sup : gmap PluginId PluginRecord)
    (bud : gmap PluginId nat) (sched boundary : list PluginId) : Prop := {
  ls_nodup : NoDup reg;
  ls_health : forall x, x ∈ reg <-> is_Some (hs !! x);
  ls_supervisor : forall x, x ∈ reg <-> is_Some (sup !! x);
  ls_budgets : forall x, x ∈ reg <-> is_Some (bud !! x);
  ls_scheduler : forall x, x ∈ reg <-> x ∈ sched;
  ls_intake : forall x, x ∈ reg <-> x ∈ boundary;
}.

(** Budgets belong to one plugin each; the occupancy of a budget is what the
    live guards account for, and an active request holds one guard. *)
Record slots (bud : gmap PluginId nat) (mem : gmap nat ConcurrencyBudget)
    (adm : gmap (PluginId * Generation) OwnedBudgetGuard) (act : gset (PluginId * Generation))
    (foreign : list OwnedBudgetGuard) : Prop := {
  sl_valid : forall x h, bud !! x = Some h -> is_Some (mem !! h);
  sl_inj : forall x y h, bud !! x = Some h -> bud !! y = Some h -> x = y;
  sl_foreign : Forall (fun g => is_Some (mem !! guard_budget g)) foreign;
  sl_store : map_Forall (fun h b => budget_ok b (occupancy adm foreign h)) mem;
  sl_guards : forall key g, adm !! key = Some g ->
    key ∈ act /\ guard_kind g = Suggestion /\ bud !! key.1 = Some (guard_budget g);
  sl_active : forall key, key ∈ act -> is_Some (adm !! key);
}.

(** The scheduler's requests in flight are the active ones and those in [gap],
    which a tick has dispatched and not yet admitted or retired. *)
Record in_step (gap act : gset (PluginId * Generation)) (s : QueryScheduler) : Prop := {
  is_flights : forall x g, g ∈ flights s x <-> (x, g) ∈ act \/ (x, g) ∈ gap;
  is_gap : gap ## act;
}.

(** The refusals in a plugin's health are those last read from its budget. *)
Record reported (hs : gmap PluginId HealthSync) (sup : gmap PluginId PluginRecord)
    (bud : gmap PluginId nat) (mem : gmap nat ConcurrencyBudget) : Prop := {
  rp_health : forall x sy r, hs !! x = Some sy -> sup !! x = Some r ->
    concurrency_refusals (health r) = synced_refusals sy;
  rp_synced : forall x sy h b k n, hs !! x = Some sy -> bud !! x = Some h -> mem !! h = Some b ->
    refusals b k = Some n -> 0 <= Refusals.of_kind (synced_refusals sy) k <= n;
}.

(** A row without its icon. *)
Definition bare (r : ResultRow) : ResultRow := r <| row_icon := None |>.
Definition shows (items : list Item) (rs : list ResultRow) : Prop :=
  map bare rs = map (fun item => result_row item false (fun _ _ => None)) items.

(** One generation throughout; what is on screen is the aggregator's list
    unless an update is waiting. *)
Record view_ok (g : Generation) (visible : option Generation) (s : QueryScheduler)
    (q : IQ.InboundResultQueue) (a : MA.MemoryResultAggregator) (rs : list ResultRow) : Prop := {
  vo_generation : g = current_generation s;
  vo_qinv : qinv q;
  vo_agg : agg_inv a;
  vo_floors : IQ.retirement_floor q = 0 /\ MA.retirement_floor a = 0;
  vo_active : IQ.active q = visible /\ MA.active a = visible;
  vo_visible : visible = Some g \/ visible = None /\ g = 0 /\ MA.pending_ui_update a = false;
  vo_rows : MA.pending_ui_update a = false -> shows (MA.items a) rs;
}.

Record pinv (gap : gset (PluginId * Generation)) (foreign : list OwnedBudgetGuard) (p : QueryPipeline) : Prop := {
  pi_sched : sched_ok (scheduler p);
  pi_lock : lockstep (registered p) (health_sync p) (MS.plugins (supervisor p)) (budgets p)
              (plugin_order (scheduler p)) (IQ.order (intake p));
  pi_slots : slots (budgets p) (store p) (admitted p) (active_requests p) foreign;
  pi_step : in_step gap (active_requests p) (scheduler p);
  pi_reports : reported (health_sync p) (MS.plugins (supervisor p)) (budgets p) (store p);
  pi_view : view_ok (generation p) (visible_generation p) (scheduler p) (intake p) (aggregator p) (rows p);
  pi_errors : 1 <= error_capacity p /\ len (pending_errors p) <= error_capacity p;
  pi_unresolved : forall key, is_Some (unresolved_cancellations p !! key) -> key.1 ∈ registered p;
}.

(** * Frames: what an operation can have assigned *)

(** Only the health records changed. *)
Definition quiet (p p' : QueryPipeline) : Prop :=
  exists sup hs, p' = p <| supervisor := sup |> <| health_sync := hs |>.

(** Requests may also have been retired. *)
Definition retired (p p' : QueryPipeline) : Prop :=
  exists s sup hs adm act unr mem,
    p' = p <| scheduler := s |> <| supervisor := sup |> <| health_sync := hs |> <| admitted := adm |>
           <| active_requests := act |> <| unresolved_cancellations := unr |> <| store := mem |>.

Lemma quiet_refl p : quiet p p.
Proof. exists (supervisor p), (health_sync p). by destruct p. Qed.

Lemma quiet_trans p1 p2 p3 : quiet p1 p2 -> quiet p2 p3 -> quiet p1 p3.
Proof. intros (? & ? & ->) (sup & hs & ->). by exists sup, hs. Qed.

Lemma quiet_retired p p' : quiet p p' -> retired p p'.
Proof.
  intros (sup & hs & ->). exists (scheduler p), sup, hs, (admitted p), (active_requests p), (unresolved_cancellations p), (store p).
  by destruct p.
Qed.

Lemma retired_refl p : retired p p.
Proof. apply quiet_retired, quiet_refl. Qed.

Lemma retired_trans p1 p2 p3 : retired p1 p2 -> retired p2 p3 -> retired p1 p3.
Proof.
  intros (? & ? & ? & ? & ? & ? & ? & ->) (s & sup & hs & adm & act & unr & mem & ->).
  by exists s, sup, hs, adm, act, unr, mem.
Qed.

#[export] Hint Resolve quiet_refl retired_refl : crikey.

(** * Health *)

Lemma with_health_spec s x r f :
  MS.plugins s !! x = Some r ->
  returns (expect_ok (MS.with_health s x f)) (fun s' => MS.plugins s' = <[x := r <| health ::= f |>]> (MS.plugins s)).
Proof.
  intros Hx. unfold MS.with_health, MS.with_record. rewrite Hx. cbn. by apply returns_some.
Qed.

(** A change of the health record of a known plugin that leaves the refusals
    alone. *)
Definition same_refusals (sup sup' : gmap PluginId PluginRecord) : Prop :=
  forall x, (fun r => concurrency_refusals (health r)) <$> sup' !! x
          = (fun r => concurrency_refusals (health r)) <$> sup !! x.

Lemma same_refusals_insert (sup : gmap PluginId PluginRecord) x r r' :
  sup !! x = Some r -> concurrency_refusals (health r') = concurrency_refusals (health r) ->
  same_refusals sup (<[x := r']> sup).
Proof. intros Hx Hr y. rewrite lookup_insert. case_decide; [|done]. subst. rewrite Hx. cbn. by rewrite Hr. Qed.

Lemma same_refusals_trans a b c : same_refusals a b -> same_refusals b c -> same_refusals a c.
Proof. intros H1 H2 x. by rewrite H2, H1. Qed.

Lemma same_refusals_refl a : same_refusals a a.
Proof. done. Qed.

Lemma same_refusals_is_Some a b x : same_refusals a b -> is_Some (b !! x) <-> is_Some (a !! x).
Proof.
  intros H. specialize (H x). rewrite <- (fmap_is_Some (fun r => concurrency_refusals (health r)) (b !! x)), H.
  apply fmap_is_Some.
Qed.

(** Counting in the health of a known plugin. *)
Lemma with_health_same s x f :
  is_Some (MS.plugins s !! x) -> (forall h, concurrency_refusals (f h) = concurrency_refusals h) ->
  returns (expect_ok (MS.with_health s x f)) (fun s' => same_refusals (MS.plugins s) (MS.plugins s')).
Proof.
  intros [r Hr] Hf. eapply returns_weaken; [by apply with_health_spec|]. intros s' ->.
  eapply same_refusals_insert; [done|]. cbn. apply Hf.
Qed.

Lemma lockstep_sup reg hs sup bud sched boundary hs' sup' :
  lockstep reg hs sup bud sched boundary ->
  (forall x, is_Some (hs' !! x) <-> is_Some (hs !! x)) -> (forall x, is_Some (sup' !! x) <-> is_Some (sup !! x)) ->
  lockstep reg hs' sup' bud sched boundary.
Proof. intros [? H1 H2 ? ? ?] Hh Hs. split; try done; intros x; rewrite ?Hh, ?Hs; auto. Qed.

Lemma reported_same hs sup sup' bud mem :
  reported hs sup bud mem -> same_refusals sup sup' -> reported hs sup' bud mem.
Proof.
  intros [H1 H2] Hs. split; [|done]. intros x sy r' Hx Hr'. specialize (Hs x). rewrite Hr' in Hs. cbn in Hs.
  symmetry in Hs. apply fmap_Some in Hs as (r & Hr & ->). by apply (H1 x).
Qed.

Lemma pinv_health gap foreign p s :
  pinv gap foreign p -> same_refusals (MS.plugins (supervisor p)) (MS.plugins s) ->
  pinv gap foreign (p <| supervisor := s |>).
Proof.
  intros [] Hs. split; try done; cbn.
  - eapply lockstep_sup; [done | done|]. intros x. by apply same_refusals_is_Some.
  - by eapply reported_same.
Qed.

Lemma supervise_spec gap foreign p x f :
  pinv gap foreign p -> x ∈ registered p -> (forall h, concurrency_refusals (f h) = concurrency_refusals h) ->
  returns (supervise p (fun s => MS.with_health s x f)) (fun p' => pinv gap foreign p' /\ quiet p p').
Proof.
  intros Hp Hx Hf. unfold supervise. eapply returns_bind.
  - apply with_health_same; [|exact Hf]. by apply (ls_supervisor _ _ _ _ _ _ (pi_lock _ _ _ Hp)).
  - intros s Hs. apply returns_some. split; [by apply pinv_health|]. exists s, (health_sync p). by destruct p.
Qed.

Lemma cancellation_keeps honoured h :
  concurrency_refusals ((if honoured : bool then h <| cancellations_honoured ::= MS.bump_u64 1 |>
    else h <| cancellations_ignored ::= MS.bump_u64 1 |>)) = concurrency_refusals h.
Proof. by destruct honoured. Qed.

(** ** Refusals *)

Lemma of_kind_add r k d k' :
  Refusals.of_kind (Refusals.add r k d) k'
  = if decide (k' = k) then saturating_add u64_max (Refusals.of_kind r k') d else Refusals.of_kind r k'.
Proof. destruct k, k'; done. Qed.

Lemma refusals_ext r r' : (forall k, Refusals.of_kind r k = Refusals.of_kind r' k) -> r = r'.
Proof.
  intros H. pose proof (H Suggestion). pose proof (H ActionKind). pose proof (H Background). pose proof (H CatalogKind).
  destruct r, r'. cbn in *. congruence.
Qed.

Lemma reconcile_kind_spec x observed synced s k r :
  MS.plugins s !! x = Some r ->
  Refusals.of_kind (concurrency_refusals (health r)) k = Refusals.of_kind synced k ->
  Refusals.of_kind synced k <= Refusals.of_kind observed k <= u64_max ->
  returns (reconcile_kind x observed synced (Some s) k) (fun s' => exists r',
    MS.plugins s' = <[x := r']> (MS.plugins s) /\
    forall k', Refusals.of_kind (concurrency_refusals (health r')) k'
      = if decide (k' = k) then Refusals.of_kind observed k' else Refusals.of_kind (concurrency_refusals (health r)) k').
Proof.
  intros Hx Hk Hle. unfold reconcile_kind. cbn [mbind option_bind]. unfold saturating_sub.
  destruct (Z.eqb_spec (0 `max` (Refusals.of_kind observed k - Refusals.of_kind synced k)) 0) as [E|E]; cbn [negb].
  - apply returns_some. exists r. split; [by rewrite insert_id|].
    intros k'. case_decide; [|done]. subst. lia.
  - unfold MS.record_concurrency_refusal. eapply returns_weaken; [by apply with_health_spec|].
    intros s' ->. eexists. split; [done|]. intros k'. cbn. rewrite of_kind_add. case_decide; [|done].
    subst. unfold saturating_add. lia.
Qed.

Lemma elem_of_ALL k : k ∈ ALL.
Proof. destruct k; apply (bool_decide_unpack (_ ∈ ALL)); by vm_compute. Qed.

Lemma NoDup_ALL : NoDup ALL.
Proof. apply (bool_decide_unpack (NoDup ALL)). by vm_compute. Qed.

(** Reading a budget adds to the plugin's health exactly the refusals counted
    since it was last read. *)
Lemma reconcile_refusals_spec mem s x h b occ sy r :
  mem !! h = Some b -> budget_ok b occ -> MS.plugins s !! x = Some r ->
  concurrency_refusals (health r) = sy ->
  (forall k n, refusals b k = Some n -> 0 <= Refusals.of_kind sy k <= n) ->
  returns (reconcile_refusals mem s sy (Some h) x) (fun '(s', observed) =>
    (forall k, refusals b k = Some (Refusals.of_kind observed k)) /\
    exists r', MS.plugins s' = <[x := r']> (MS.plugins s) /\ concurrency_refusals (health r') = observed).
Proof.
  intros Hh Hb Hx Hr Hsy. unfold reconcile_refusals. rewrite Hh. cbn [mbind option_bind].
  destruct (snapshot_of b (fun k => default 0 (refusals b k))) as (observed & -> & Hob).
  { intros k. destruct (Hb k) as (m & n & _ & _ & _ & _ & -> & Hn). done. }
  assert (Hob' : forall k, refusals b k = Some (Refusals.of_kind observed k) /\
      Refusals.of_kind sy k <= Refusals.of_kind observed k <= u64_max).
  { intros k. rewrite Hob. destruct (Hb k) as (m & n & _ & _ & _ & _ & Hn & [_ ?]). rewrite Hn. cbn.
    split; [done|]. specialize (Hsy k n Hn). lia. }
  cbn [mbind option_bind]. eapply returns_bind.
  - apply (returns_foldl _ (fun l s' => NoDup l /\ exists r', MS.plugins s' = <[x := r']> (MS.plugins s) /\
      forall k, Refusals.of_kind (concurrency_refusals (health r')) k
        = if decide (k ∈ l) then Refusals.of_kind sy k else Refusals.of_kind observed k)).
    + split; [apply NoDup_ALL|]. exists r. split; [by rewrite insert_id|]. intros k.
      rewrite decide_True by apply elem_of_ALL. by rewrite Hr.
    + intros k l s' [[Hk Hnd]%NoDup_cons (r' & Hs' & Hr')]. eapply returns_weaken.
      * apply (reconcile_kind_spec x observed sy s' k r').
        -- rewrite Hs'. apply lookup_insert_eq.
        -- rewrite Hr', decide_True by left. done.
        -- apply Hob'.
      * intros s'' (r'' & Hs'' & Hr''). split; [done|]. exists r''. split; [by rewrite Hs'', Hs', insert_insert_eq|].
        intros k'. rewrite Hr'', Hr'. destruct (decide (k' = k)) as [->|Hne].
        -- by rewrite decide_False by done.
        -- by rewrite (decide_ext (k' ∈ k :: l) (k' ∈ l)) by (rewrite elem_of_cons; naive_solver).
  - intros s' (_ & r' & Hs' & Hr'). apply returns_some. split; [apply Hob'|]. exists r'. split; [done|].
    apply refusals_ext. intros k. rewrite Hr', decide_False by apply not_elem_of_nil. done.
Qed.

(** The synchronisation of one known plugin: its counters are brought up to
    date, and its refusals are those of its budget. *)
Lemma reconciled_pinv gap foreign p x sy' s h b r' :
  pinv gap foreign p -> budgets p !! x = Some h -> store p !! h = Some b ->
  (forall k, refusals b k = Some (Refusals.of_kind (synced_refusals sy') k)) ->
  (forall y, y <> x -> (fun r => concurrency_refusals (health r)) <$> MS.plugins s !! y
     = (fun r => concurrency_refusals (health r)) <$> MS.plugins (supervisor p) !! y) ->
  MS.plugins s !! x = Some r' -> concurrency_refusals (health r') = synced_refusals sy' ->
  pinv gap foreign (p <| supervisor := s |> <| health_sync ::= insert x sy' |>).
Proof.
  intros Hp Hx Hh Href Hoth Hsx Hr. pose proof Hp as [Hs Hl Hsl Hst Hrep Hv He Hu].
  assert (Hreg : x ∈ registered p) by (apply (ls_budgets _ _ _ _ _ _ Hl); eauto).
  split; try done; cbn.
  - eapply lockstep_sup; [done | |].
    + intros y. rewrite lookup_insert. case_decide; [|done]. subst.
      split; [intros _; by apply (ls_health _ _ _ _ _ _ Hl) | eauto].
    + intros y. destruct (decide (y = x)) as [->|Hne].
      * rewrite Hsx. split; [intros _; by apply (ls_supervisor _ _ _ _ _ _ Hl) | eauto].
      * specialize (Hoth y Hne). rewrite <- (fmap_is_Some (fun r => concurrency_refusals (health r)) (MS.plugins s !! y)).
        rewrite Hoth. apply fmap_is_Some.
  - destruct Hrep as [H1 H2]. split.
    + intros y sy r. rewrite lookup_insert. case_decide as E; [subst y; intros [= <-] ?; by simplify_eq|].
      intros Hy Hr0. assert (Hne : y <> x) by congruence. specialize (Hoth y Hne). rewrite Hr0 in Hoth. symmetry in Hoth.
      apply fmap_Some in Hoth as (r0 & Hr1 & ->). by apply (H1 y).
    + intros y sy h' b' k n. rewrite lookup_insert. case_decide as E; [subst y|by apply H2].
      intros [= <-] ? ? Hn. simplify_eq. specialize (Href k). rewrite Hn in Href. injection Href as <-.
      destruct (sl_store _ _ _ _ _ Hsl _ _ Hh k) as (_ & n' & _ & _ & _ & _ & Hn' & Hr').
      rewrite Hn in Hn'. injection Hn' as <-. unfold in_range in Hr'. lia.
Qed.
