(* ===== verification/PipelineOps.v ===== *)
(** The pipeline's operations against its invariant: each returns, keeps the
    invariant, and changes no more than its frame says. *)

From S2P Require Import Prelude Text Generation Items View Debounce LegacyDispatch SchedulerTypes Scheduler.
From S2P Require Import SchedulerInv SchedulerQuery SchedulerTick SchedulerFacts SchedulerFlights Aggregator.
From S2P Require Import AggregatorFacts Intake IntakeInv IntakeDrain IntakeFacts Concurrency Supervisor Manifest.
From S2P Require Import Pipeline PipelineInv.

(** * Health *)

Lemma counted_spec (c : bool) s x f (sy sy' : HealthSync) :
  is_Some (MS.plugins s !! x) -> (forall h, concurrency_refusals (f h) = concurrency_refusals h) ->
  synced_refusals sy' = synced_refusals sy ->
  returns (if c then s ← expect_ok (MS.with_health s x f); Some (s, sy') else Some (s, sy))
    (fun '(s', sy'') => same_refusals (MS.plugins s) (MS.plugins s') /\ synced_refusals sy'' = synced_refusals sy).
Proof.
  intros Hx Hf Hsy. destruct c; [|by apply returns_some].
  eapply returns_bind; [by apply with_health_same|]. intros s' Hs. by apply returns_some.
Qed.

(** What a registered plugin finds in the other registries. *)
Lemma registered_lookup gap foreign p x :
  pinv gap foreign p -> x ∈ registered p ->
  exists sy r h b st, health_sync p !! x = Some sy /\ MS.plugins (supervisor p) !! x = Some r /\
    budgets p !! x = Some h /\ store p !! h = Some b /\ plugins (scheduler p) !! x = Some st /\
    concurrency_refusals (health r) = synced_refusals sy /\
    budget_ok b (occupancy (admitted p) foreign h) /\
    (forall k n, refusals b k = Some n -> 0 <= Refusals.of_kind (synced_refusals sy) k <= n).
Proof.
  intros [Hs Hl Hsl Hst Hrep Hv He Hu] Hx. destruct Hl as [_ H1 H2 H3 H4 _].
  pose proof (proj1 (H1 x) Hx) as [sy Hsy]. pose proof (proj1 (H2 x) Hx) as [r Hr].
  pose proof (proj1 (H3 x) Hx) as [h Hh]. pose proof (proj1 (H4 x) Hx) as Ho.
  apply (ci_order_dom _ (proj1 (so_inv _ Hs))) in Ho as [st Hst'].
  destruct (sl_valid _ _ _ _ _ Hsl x h Hh) as [b Hb]. destruct Hrep as [R1 R2].
  exists sy, r, h, b, st. split_and!; try done; [by apply (R1 x) | by apply (sl_store _ _ _ _ _ Hsl) |].
  intros k n. by apply (R2 x sy h b).
Qed.

(** The last part of a synchronisation. *)
Lemma reconciled_spec gap foreign p x s (sy sy0 : HealthSync) :
  pinv gap foreign p -> health_sync p !! x = Some sy0 -> synced_refusals sy = synced_refusals sy0 ->
  same_refusals (MS.plugins (supervisor p)) (MS.plugins s) ->
  returns ('(s, refusals) ← reconcile_refusals (store p) s (synced_refusals sy) (budgets p !! x) x;
           Some (p <| supervisor := s |> <| health_sync ::= insert x (sy <| synced_refusals := refusals |>) |>))
    (fun p' => pinv gap foreign p' /\ quiet p p' /\
       forall h b, budgets p !! x = Some h -> store p !! h = Some b ->
         forall k, refusals b k = Some (Refusals.of_kind (concurrency_refusals (MS.health_of (supervisor p') x)) k)).
Proof.
  intros Hp Hx Hsy Hs. assert (Hreg : x ∈ registered p) by (apply (ls_health _ _ _ _ _ _ (pi_lock _ _ _ Hp)); eauto).
  destruct (registered_lookup gap foreign p x Hp Hreg) as (sy1 & r & h & b & st & Hsy1 & Hr & Hh & Hb & _ & Hconc & Hok & Hle).
  simplify_eq. pose proof (Hs x) as Hsx. rewrite Hr in Hsx. apply fmap_Some in Hsx as (r1 & Hr1 & Hr1c).
  rewrite Hh. eapply returns_bind.
  - apply (reconcile_refusals_spec (store p) s x h b (occupancy (admitted p) foreign h) (synced_refusals sy) r1);
      [done | done | done | congruence |]. by rewrite Hsy.
  - intros [s' observed] (Hobs & r' & Hs' & Hr'). apply returns_some.
    assert (Hlk : MS.plugins s' !! x = Some r') by (rewrite Hs'; apply lookup_insert_eq). split; [|split].
    + eapply (reconciled_pinv gap foreign p x _ s' h b r' Hp Hh Hb); [exact Hobs | | exact Hlk | exact Hr'].
      intros y Hne. rewrite Hs', lookup_insert_ne by congruence. apply Hs.
    + by eexists _, _.
    + intros h' b' [= <-] ?. simplify_eq. intros k. unfold MS.health_of. cbn. rewrite Hlk. cbn. apply Hobs.
Qed.

Lemma sync_plugin_spec gap foreign p x :
  pinv gap foreign p -> x ∈ registered p ->
  returns (sync_plugin p x) (fun p' => pinv gap foreign p' /\ quiet p p').
Proof.
  intros Hp Hx. destruct (registered_lookup gap foreign p x Hp Hx) as (sy & r & h & b & st & Hsy & Hr & _ & _ & Hst & _).
  unfold sync_plugin, plugin_diagnostics. rewrite Hst. cbn [mbind option_bind]. set (d := pdiag st <| _ := _ |> <| _ := _ |> <| _ := _ |>).
  clearbody d. rewrite Hsy. cbn [mbind option_bind].
  eapply returns_bind; [apply with_health_same; [eauto | done]|]. intros s1 H1.
  assert (Hx1 : is_Some (MS.plugins s1 !! x)) by (apply (same_refusals_is_Some _ _ x H1); eauto).
  eapply returns_bind; [apply counted_spec; [exact Hx1 | done | done]|]. intros [s2 sy2] [H2 E2].
  assert (Hx2 : is_Some (MS.plugins s2 !! x)) by (by apply (same_refusals_is_Some _ _ x H2)).
  eapply returns_bind; [apply counted_spec; [exact Hx2 | done | done]|]. intros [s3 sy3] [H3 E3].
  eapply returns_weaken.
  - eapply (reconciled_spec gap foreign p x s3 sy3 sy Hp Hsy); [congruence|].
    eapply same_refusals_trans; [exact H1|]. by eapply same_refusals_trans.
  - intros p' (? & ? & _). done.
Qed.

Lemma sync_health_spec gap foreign p :
  pinv gap foreign p -> returns (sync_health p) (fun p' => pinv gap foreign p' /\ quiet p p').
Proof.
  intros Hp. unfold sync_health. eapply returns_weaken.
  - apply (returns_foldl _ (fun l p' => pinv gap foreign p' /\ quiet p p' /\ forall x, x ∈ l -> x ∈ registered p)).
    + split; [done|]. split; [apply quiet_refl | done].
    + intros x l p1 (Hp1 & Hq1 & Hl). cbn [mbind option_bind]. eapply returns_weaken.
      * apply (sync_plugin_spec gap foreign p1 x Hp1). destruct Hq1 as (? & ? & ->). apply Hl. left.
      * intros p2 [Hp2 Hq2]. split; [done|]. split; [by eapply quiet_trans|]. intros y Hy. apply Hl. by right.
  - intros p' (? & ? & _). done.
Qed.

Lemma sync_concurrency_spec gap foreign p x :
  pinv gap foreign p -> returns (sync_concurrency_refusals p x) (fun p' => pinv gap foreign p' /\ quiet p p' /\
    forall h b, budgets p !! x = Some h -> store p !! h = Some b ->
      forall k, refusals b k = Some (Refusals.of_kind (concurrency_refusals (MS.health_of (supervisor p') x)) k)).
Proof.
  intros Hp. unfold sync_concurrency_refusals. destruct (health_sync p !! x) as [sy|] eqn:Hx.
  - eapply reconciled_spec; [done | done | done | apply same_refusals_refl].
  - apply returns_some. split; [done|]. split; [apply quiet_refl|]. intros h b Hh _.
    exfalso. assert (Hreg : x ∈ registered p) by (apply (ls_budgets _ _ _ _ _ _ (pi_lock _ _ _ Hp)); eauto).
    apply (ls_health _ _ _ _ _ _ (pi_lock _ _ _ Hp)) in Hreg. rewrite Hx in Hreg. by destruct Hreg.
Qed.

Lemma health_reports_spec gap foreign p l :
  pinv gap foreign p -> returns (health_reports p l) (fun '(p', _) => pinv gap foreign p' /\ quiet p p').
Proof.
  revert p. induction l as [|x l IH]; intros p Hp; cbn [health_reports]; [apply returns_some; eauto with crikey|].
  eapply returns_bind with (Q := fun '(p', _) => pinv gap foreign p' /\ quiet p p').
  - unfold health_report. eapply returns_bind; [by apply sync_concurrency_spec|]. intros p1 (H1 & H2 & _).
    by apply returns_some.
  - intros [p1 h1] [Hp1 Hq1]. eapply returns_bind; [by apply IH|]. intros [p2 rest] [Hp2 Hq2].
    apply returns_some. split; [done | by eapply quiet_trans].
Qed.

(** * The scheduler's part *)

(** Operations of the scheduler that keep plugins and generation. *)
Definition sched_frame (s s' : QueryScheduler) : Prop :=
  plugin_order s' = plugin_order s /\ generations s' = generations s.

Lemma push_trace_keeps s e :
  plugin_order (push_trace s e) = plugin_order s /\ generations (push_trace s e) = generations s
  /\ is_shutdown (push_trace s e) = is_shutdown s.
Proof. by destruct (push_trace_sim s e). Qed.

Lemma complete_ok s x g now :
  sched_ok s -> sched_ok (Scheduler.complete s x g now).1 /\ sched_frame s (Scheduler.complete s x g now).1.
Proof.
  intros [Hi Hs Hf]. assert (Hk : plugin_order (Scheduler.complete s x g now).1 = plugin_order s /\
    generations (Scheduler.complete s x g now).1 = generations s /\
    is_shutdown (Scheduler.complete s x g now).1 = is_shutdown s).
  { unfold Scheduler.complete, observe_now. repeat case_match; cbn [fst]; try done.
    match goal with |- context [push_trace ?s0 ?e] => destruct (push_trace_keeps s0 e) as (-> & -> & ->) end. done. }
  destruct Hk as (H1 & H2 & H3). split; [|done]. split; [by apply complete_inv | congruence |].
  by apply complete_flights.
Qed.

Lemma record_result_ok s x g items c now :
  sched_ok s -> returns (record_result_batch s x g items c now) (fun '(s', a) =>
    a = admission s x g /\ sched_ok s' /\ sched_frame s s' /\ forall q, flights s' q = flights s q).
Proof.
  intros [Hi Hs Hf]. destruct (record_result_batch_spec s x g items c now Hi) as (s' & E & Hi' & Hg & _ & Ho & Hsh & _).
  destruct (record_result_batch_flights s x g items c now s' _ Hf E) as [Hf' Hfl].
  exists (s', admission s x g). split; [done|]. split; [done|]. split; [split; [done | congruence | done]|]. by repeat split.
Qed.

Lemma drain_cancellations_ok s :
  sched_ok s -> sched_ok (drain_cancellations s).1 /\ sched_frame s (drain_cancellations s).1
  /\ forall q, flights (drain_cancellations s).1 q = flights s q.
Proof. intros [Hi Hs Hf]. split; [split; [by apply drain_cancellations_inv | done | done]|]. by split. Qed.

(** Replacing the scheduler by one that kept its plugins, generation and
    requests. *)
Lemma pinv_scheduler gap foreign p s :
  pinv gap foreign p -> sched_ok s -> sched_frame (scheduler p) s ->
  (forall q, flights s q = flights (scheduler p) q) -> pinv gap foreign (p <| scheduler := s |>).
Proof.
  intros [Hs Hl Hsl Hst Hrep Hv He Hu] Hok [Ho Hg] Hf. split; try done; cbn.
  - by rewrite Ho.
  - destruct Hst as [H1 H2]. split; [|done]. intros x g. by rewrite Hf.
  - destruct Hv. split; try done. unfold current_generation. by rewrite Hg.
Qed.

(** * Slots *)

(** Dropping a guard that is accounted for. *)
Lemma released_slots bud mem adm act foreign adm' act' foreign' g b b' :
  slots bud mem adm act foreign -> mem !! guard_budget g = Some b ->
  (forall h k, occupancy adm' foreign' h k = occupancy adm foreign h k + holds h k g * -1) ->
  budget_ok b' (bump (occupancy adm foreign (guard_budget g)) (guard_kind g) (-1)) ->
  Forall (fun x => x ∈ foreign) foreign' ->
  (forall key g0, adm' !! key = Some g0 -> key ∈ act' /\ adm !! key = Some g0) ->
  (forall key, key ∈ act' -> is_Some (adm' !! key)) ->
  slots bud (<[guard_budget g := b']> mem) adm' act' foreign'.
Proof.
  intros [Hval Hinj Hfor Hst Hgu Hac] Hb Hocc Hok Hsub Hadm Hact.
  assert (Hsome : forall h, is_Some (mem !! h) -> is_Some (<[guard_budget g := b']> mem !! h)).
  { intros h Hh. rewrite lookup_insert. case_decide; eauto. }
  split; try done.
  - eauto.
  - apply Forall_forall. intros x Hx. apply Hsome. rewrite Forall_forall in Hfor, Hsub. auto.
  - intros h b0. rewrite lookup_insert. case_decide as E.
    + intros [= <-]. subst h. eapply budget_ok_ext; [|exact Hok]. intros k. rewrite Hocc, holds_bump.
      by rewrite decide_True by done.
    + intros Hb0. eapply budget_ok_ext; [|by apply Hst]. intros k. rewrite Hocc, holds_bump.
      by rewrite decide_False by done.
  - intros key g0 H0. destruct (Hadm key g0 H0) as [H1 H2]. split; [done|]. by apply Hgu.
Qed.

Lemma reported_store hs sup bud mem mem' h b b' :
  reported hs sup bud mem -> mem !! h = Some b -> mem' = <[h := b']> mem ->
  (forall k n', refusals b' k = Some n' -> exists n, refusals b k = Some n /\ n <= n') ->
  reported hs sup bud mem'.
Proof.
  intros [H1 H2] Hb -> Hr. split; [done|]. intros x sy h0 b0 k n Hx Hh. rewrite lookup_insert.
  case_decide as E; [|by apply (H2 x)]. intros [= <-] Hn. subst h0.
  destruct (Hr k n Hn) as (n0 & Hn0 & ?). specialize (H2 x sy h b k n0 Hx Hh Hb Hn0). lia.
Qed.

(** [active_requests.remove(key)] and [admitted.remove(key)]. *)
Lemma remove_request_spec bud mem adm act foreign hs sup key :
  slots bud mem adm act foreign -> reported hs sup bud mem ->
  match adm !! key with
  | None => key ∉ act
  | Some g => exists b b', mem !! guard_budget g = Some b /\ drop_guard b (guard_kind g) = Some b' /\
      slots bud (<[guard_budget g := b']> mem) (delete key adm) (act ∖ {[key]}) foreign /\
      reported hs sup bud (<[guard_budget g := b']> mem)
  end.
Proof.
  intros Hs Hr. destruct (adm !! key) as [g|] eqn:Hk.
  2: { intros Ha. apply (sl_active _ _ _ _ _ Hs) in Ha. rewrite Hk in Ha. by destruct Ha. }
  destruct (sl_guards _ _ _ _ _ Hs key g Hk) as (Hact & Hkind & Hbud).
  destruct (sl_valid _ _ _ _ _ Hs _ _ Hbud) as [b Hb].
  destruct (drop_guard_spec b (occupancy adm foreign (guard_budget g)) (guard_kind g)) as (b' & Hd & _ & Href & Hok).
  - by apply (sl_store _ _ _ _ _ Hs).
  - by eapply occupancy_pos.
  - exists b, b'. split; [done|]. split; [done|]. split.
    + eapply (released_slots bud mem adm act foreign); [done | done | | exact Hok | | |].
      * intros h k. by apply occupancy_delete.
      * by apply Forall_forall.
      * intros key' g0. rewrite lookup_delete. case_decide; [done|]. intros H0. split; [|done].
        destruct (sl_guards _ _ _ _ _ Hs key' g0 H0) as (? & _). set_solver.
      * intros key' [Hin Hne]%elem_of_difference. rewrite lookup_delete_ne by set_solver.
        by apply (sl_active _ _ _ _ _ Hs).
    + eapply reported_store; [done | done | done|]. intros k n' Hn'. rewrite Href in Hn'. exists n'. split; [done | lia].
Qed.

Lemma difference_absent (act : gset (PluginId * Generation)) key : key ∉ act -> act ∖ {[key]} = act.
Proof. set_solver. Qed.

Lemma in_step_complete gap act s x g now :
  sched_ok s -> in_step gap act s ->
  in_step (gap ∖ {[(x, g)]}) (act ∖ {[(x, g)]}) (Scheduler.complete s x g now).1.
Proof.
  intros [_ _ Hf] [H1 H2]. destruct (complete_flights s x g now Hf) as (_ & Hfl & _). split; [|set_solver].
  intros y g'. rewrite Hfl, H1, !elem_of_difference, !elem_of_singleton. split.
  - intros [[?|?] Hne]; [left|right]; (split; [done|]); intros [= -> ->]; by apply Hne.
  - intros [[? Hne]|[? Hne]]; (split; [tauto|]); intros [-> ->]; by apply Hne.
Qed.

(** The request is retired on every side: scheduler, active set and slot. *)
Definition retire_request (p : QueryPipeline) (x : PluginId) (g : Generation) (now : Millis) : option QueryPipeline :=
  remove_admitted (p <| scheduler := (Scheduler.complete (scheduler p) x g now).1 |>
                     <| active_requests ::= fun a => a ∖ {[(x, g)]} |>) (x, g).

Lemma retire_request_spec gap foreign p x g now :
  pinv gap foreign p ->
  returns (retire_request p x g now) (fun p' => pinv (gap ∖ {[(x, g)]}) foreign p' /\ retired p p' /\
    active_requests p' = active_requests p ∖ {[(x, g)]} /\
    unresolved_cancellations p' = unresolved_cancellations p).
Proof.
  intros [Hs Hl Hsl Hst Hrep Hv He Hu]. unfold retire_request, remove_admitted, release.
  destruct (complete_ok (scheduler p) x g now Hs) as (Hs' & Ho & Hg).
  pose proof (in_step_complete gap _ _ x g now Hs Hst) as Hst'.
  set (s' := (Scheduler.complete (scheduler p) x g now).1) in *. clearbody s'.
  assert (Hv' : view_ok (generation p) (visible_generation p) s' (intake p) (aggregator p) (rows p)).
  { destruct Hv. split; try done. unfold current_generation. by rewrite Hg. }
  pose proof (remove_request_spec _ _ _ _ _ _ _ (x, g) Hsl Hrep) as Hrm. cbn [admitted update store].
  destruct (admitted p !! (x, g)) as [gd|] eqn:Hk.
  - destruct Hrm as (b & b' & -> & E & Hsl' & Hrep'). cbn [mbind option_bind]. rewrite E. cbn [mbind option_bind].
    apply returns_some. split; [|split; [|done]].
    + split; try done. cbn. by rewrite Ho.
    + by exists s', (supervisor p), (health_sync p), (delete (x, g) (admitted p)), (active_requests p ∖ {[(x, g)]}),
        (unresolved_cancellations p), (<[guard_budget gd := b']> (store p)).
  - apply returns_some. split; [|split; [by exists s', (supervisor p), (health_sync p), (delete (x, g) (admitted p)),
      (active_requests p ∖ {[(x, g)]}), (unresolved_cancellations p), (store p) | done]].
    split; try done; cbn.
    + by rewrite Ho.
    + rewrite delete_id by done. rewrite difference_absent by done. done.
Qed.

Lemma unresolved_pinv gap foreign p f :
  pinv gap foreign p -> (forall key, is_Some (f !! key) -> key.1 ∈ registered p) ->
  pinv gap foreign (p <| unresolved_cancellations := f |>).
Proof. intros [] Hf. by split. Qed.

Lemma delete_unresolved gap foreign p key :
  pinv gap foreign p -> pinv gap foreign (p <| unresolved_cancellations ::= delete key |>).
Proof.
  intros Hp. apply (unresolved_pinv gap foreign p (delete key (unresolved_cancellations p)) Hp).
  intros key' Hk. apply (pi_unresolved _ _ _ Hp). rewrite lookup_delete in Hk. by case_decide; [destruct Hk|].
Qed.

Lemma finish_completion_spec gap foreign p x g now :
  pinv gap foreign p ->
  returns (finish_completion p x g now) (fun '(p', _) => pinv (gap ∖ {[(x, g)]}) foreign p' /\ retired p p' /\
    active_requests p' = active_requests p ∖ {[(x, g)]} /\
    forall key, unresolved_cancellations p !! key = None -> unresolved_cancellations p' !! key = None).
Proof.
  intros Hp. unfold finish_completion. pose proof (retire_request_spec gap foreign p x g now Hp) as Hr.
  unfold retire_request in Hr. destruct (Scheduler.complete (scheduler p) x g now) as [s outcome]. cbn [fst] in Hr.
  eapply returns_bind; [exact Hr|]. clear Hr. intros p1 (Hp1 & Hq1 & Ha1 & Hu1).
  eapply returns_bind with (Q := fun p' => pinv (gap ∖ {[(x, g)]}) foreign p' /\ retired p p' /\
    active_requests p' = active_requests p ∖ {[(x, g)]} /\
    forall key, unresolved_cancellations p !! key = None -> unresolved_cancellations p' !! key = None).
  - assert (Hsame : returns (Some p1) (fun p' => pinv (gap ∖ {[(x, g)]}) foreign p' /\ retired p p' /\
      active_requests p' = active_requests p ∖ {[(x, g)]} /\
      forall key, unresolved_cancellations p !! key = None -> unresolved_cancellations p' !! key = None)).
    { apply returns_some. by rewrite Hu1. }
    destruct outcome; [exact Hsame | | exact Hsame].
    destruct (unresolved_cancellations p1 !! (x, g)) eqn:Hk; [|exact Hsame].
    eapply returns_weaken.
    + apply (supervise_spec (gap ∖ {[(x, g)]}) foreign); [by apply delete_unresolved | | apply (cancellation_keeps true)].
      apply (pi_unresolved _ _ _ Hp1 (x, g)). eauto.
    + intros p2 [Hp2 Hq2]. split; [done|]. split.
      * eapply retired_trans; [exact Hq1|]. eapply retired_trans; [|by apply quiet_retired].
        exists (scheduler p1), (supervisor p1), (health_sync p1), (admitted p1), (active_requests p1),
          (delete (x, g) (unresolved_cancellations p1)), (store p1). by destruct p1.
      * destruct Hq2 as (? & ? & ->). split; [exact Ha1|]. intros key. cbn. rewrite Hu1, lookup_delete. by case_decide.
  - intros p2 (Hp2 & Hq2 & Ha2 & Hu2). eapply returns_bind; [by apply sync_health_spec|]. intros p3 [Hp3 Hq3].
    apply returns_some. split; [done|]. split; [by eapply retired_trans; [|apply quiet_retired]|].
    destruct Hq3 as (? & ? & ->). exact (conj Ha2 Hu2).
Qed.

(** * Cancellations *)

Lemma active_registered gap foreign p key :
  pinv gap foreign p -> key ∈ active_requests p -> key.1 ∈ registered p.
Proof.
  intros Hp Hk. destruct (sl_active _ _ _ _ _ (pi_slots _ _ _ Hp) key Hk) as [g Hg].
  destruct (sl_guards _ _ _ _ _ (pi_slots _ _ _ Hp) key g Hg) as (_ & _ & Hb).
  apply (ls_budgets _ _ _ _ _ _ (pi_lock _ _ _ Hp)). eauto.
Qed.

(** The notices that concern a request still running, in order. *)
Definition running_notices (p : QueryPipeline) (l : list CancelledRequest) : list CancelledRequest :=
  List.filter (fun c => bool_decide ((cancelled_plugin c, cancelled_generation c) ∈ active_requests p)) l.

(** Notices add to the unresolved cancellations and to what is handed out. *)
Lemma capture_fold p l :
  exists unr, foldl capture_cancellation p l
      = p <| unresolved_cancellations := unr |> <| pending_cancellations ::= fun pc => pc ++ running_notices p l |>
    /\ forall key, is_Some (unr !! key) -> is_Some (unresolved_cancellations p !! key) \/ key ∈ active_requests p.
Proof.
  revert p. induction l as [|c l IH]; intros p; cbn [foldl].
  - exists (unresolved_cancellations p). split; [|by left]. cbn. unfold update. rewrite app_nil_r. by destruct p.
  - set (key := (cancelled_plugin c, cancelled_generation c)). unfold capture_cancellation at 2. cbv zeta. fold key.
    case_decide as Ha.
    + destruct (IH (p <| unresolved_cancellations ::= insert key () |>
        <| pending_cancellations ::= fun pc => pc ++ [c] |>)) as (unr & H2 & H3).
      exists unr. split.
      * rewrite H2. cbn [running_notices List.filter]. fold key.
        rewrite bool_decide_eq_true_2 by done. unfold update. cbn. rewrite <- app_assoc. done.
      * intros key' Hk. apply H3 in Hk as [Hk|Hk]; [|by right]. cbn in Hk. rewrite lookup_insert in Hk.
        case_decide; [subst; by right | by left].
    + destruct (IH p) as (unr & H2 & H3). exists unr. split; [|exact H3]. rewrite H2.
      unfold running_notices at 2. cbn [List.filter]. fold key. by rewrite bool_decide_eq_false_2 by done.
Qed.

Lemma capture_effect p :
  exists unr, capture_cancellations p
      = p <| scheduler ::= fun s => (drain_cancellations s).1 |> <| unresolved_cancellations := unr |>
          <| pending_cancellations ::= fun pc => pc ++ running_notices p (cancellations (scheduler p)) |>
    /\ forall key, is_Some (unr !! key) -> is_Some (unresolved_cancellations p !! key) \/ key ∈ active_requests p.
Proof.
  destruct (capture_fold (p <| scheduler := (drain_cancellations (scheduler p)).1 |>)
    (cancellations (scheduler p))) as (unr & E & H). exists unr. split; [exact E | exact H].
Qed.

Lemma capture_spec gap foreign p : pinv gap foreign p -> pinv gap foreign (capture_cancellations p).
Proof.
  intros Hp. destruct (drain_cancellations_ok _ (pi_sched _ _ _ Hp)) as (H1 & H2 & H3).
  destruct (capture_effect p) as (unr & -> & Hu). pose proof (pinv_scheduler gap foreign p _ Hp H1 H2 H3) as [? ? ? ? ? ? ? Hun].
  split; try done. intros key Hk. apply Hu in Hk as [Hk|Hk]; [by apply Hun|].
  by apply (active_registered gap foreign p).
Qed.

(** * Completions *)

(** The coarse frame: what is on screen, and who is registered. *)
Record steady (p p' : QueryPipeline) : Prop := {
  sd_generation : generation p' = generation p;
  sd_query : query p' = query p;
  sd_visible : visible_generation p' = visible_generation p;
  sd_rows : rows p' = rows p;
  sd_registered : registered p' = registered p;
  sd_budgets : budgets p' = budgets p;
  sd_icons : icons p' = icons p;
  sd_errors : pending_errors p' = pending_errors p;
  sd_intake : IQ.limits (intake p') = IQ.limits (intake p);
  sd_limits : MA.limits (aggregator p') = MA.limits (aggregator p);
}.

Lemma steady_refl p : steady p p.
Proof. by split. Qed.

Lemma steady_trans p1 p2 p3 : steady p1 p2 -> steady p2 p3 -> steady p1 p3.
Proof. intros [] []. split; by etrans. Qed.

Lemma retired_steady p p' : retired p p' -> steady p p'.
Proof. intros (? & ? & ? & ? & ? & ? & ? & ->). by split. Qed.

Lemma quiet_steady p p' : quiet p p' -> steady p p'.
Proof. intros H. by apply retired_steady, quiet_retired. Qed.

Lemma completions_pinv gap foreign p f :
  pinv gap foreign p -> pinv gap foreign (p <| pending_completions ::= f |>).
Proof. intros []. by split. Qed.

(** Completions flushed: requests retired, and nothing on screen changed. *)
Definition flushed (p p' : QueryPipeline) : Prop :=
  exists pc, retired (p <| pending_completions := pc |>) p'.

Lemma flushed_refl p : flushed p p.
Proof.
  exists (pending_completions p). replace (p <| pending_completions := pending_completions p |>) with p by (by destruct p).
  apply retired_refl.
Qed.

Lemma flushed_trans p1 p2 p3 : flushed p1 p2 -> flushed p2 p3 -> flushed p1 p3.
Proof.
  intros (? & ? & ? & ? & ? & ? & ? & ? & ->) (pc & s & sup & hs & adm & act & unr & mem & ->).
  exists pc, s, sup, hs, adm, act, unr, mem. done.
Qed.

Lemma retired_flushed p p' : retired p p' -> flushed p p'.
Proof.
  intros H. exists (pending_completions p).
  by replace (p <| pending_completions := pending_completions p |>) with p by (by destruct p).
Qed.

Lemma flushed_steady p p' : flushed p p' -> steady p p'.
Proof. intros (? & ? & ? & ? & ? & ? & ? & ? & ->). by split. Qed.

(** Retiring requests leaves the boundary and the aggregator alone. *)
Lemma flushed_boundary p p' : flushed p p' -> intake p' = intake p /\ aggregator p' = aggregator p.
Proof. intros (? & ? & ? & ? & ? & ? & ? & ? & ->). done. Qed.

Lemma quiet_boundary p p' : quiet p p' -> intake p' = intake p /\ aggregator p' = aggregator p.
Proof. intros (? & ? & ->). done. Qed.

Lemma flush_completion_spec foreign p key :
  pinv ∅ foreign p -> is_Some (pending_completions p !! key) ->
  returns (flush_completion (Some p) key) (fun p' => pinv ∅ foreign p' /\ flushed p p' /\
    pending_completions p' = delete key (pending_completions p)).
Proof.
  intros Hp [now Hk]. unfold flush_completion. cbn [mbind option_bind]. rewrite Hk. cbn [mbind option_bind].
  apply returns_fmap. eapply returns_weaken.
  - apply (finish_completion_spec ∅ foreign (p <| pending_completions ::= delete key |>) key.1 key.2 now).
    by apply completions_pinv.
  - intros [p' o] (Hp' & Hr & _). cbn [fst]. replace (∅ ∖ {[(key.1, key.2)]}) with (∅ : gset (PluginId * Generation)) in Hp' by set_solver.
    split; [done|]. split; [by exists (delete key (pending_completions p))|].
    destruct Hr as (? & ? & ? & ? & ? & ? & ? & ->). done.
Qed.

Section Iteration.
Context (iteration : list (PluginId * Generation) -> list (PluginId * Generation)).
Hypothesis iteration_perm : forall l, iteration l ≡ₚ l.

Lemma flush_ready_spec foreign p merged :
  pinv ∅ foreign p ->
  returns (flush_ready_completions iteration p merged) (fun p' => pinv ∅ foreign p' /\ flushed p p').
Proof.
  intros Hp. unfold flush_ready_completions. set (ready := List.filter _ _). eapply returns_weaken.
  - apply (returns_foldl _ (fun l p' => pinv ∅ foreign p' /\ flushed p p' /\ NoDup l /\
      forall key, key ∈ l -> is_Some (pending_completions p' !! key))).
    + split; [done|]. split; [apply flushed_refl|]. split.
      * apply NoDup_list_filter. rewrite iteration_perm. apply NoDup_fst_map_to_list.
      * intros key (Hk & _)%list_elem_of_In%filter_In. apply list_elem_of_In in Hk. rewrite iteration_perm in Hk.
        apply list_elem_of_fmap in Hk as ([key' now] & -> & Hin). apply elem_of_map_to_list in Hin. eauto.
    + intros key l p1 (Hp1 & Hf1 & [Hn Hnd]%NoDup_cons & Hall). eapply returns_weaken.
      * apply flush_completion_spec; [exact Hp1|]. apply Hall. left.
      * intros p2 (Hp2 & Hf2 & Hpc). split; [done|]. split; [by eapply flushed_trans|]. split; [done|].
        intros key' Hk'. rewrite Hpc, lookup_delete_ne by (intros ->; done). apply Hall. by right.
  - intros p' (? & ? & _). done.
Qed.
End Iteration.
