(* ===== verification/PipelineSteps.v ===== *)
(** Queries, ticks, results and presentation against the pipeline's
    invariant. *)

From S2P Require Import Prelude Text Generation Items View Debounce LegacyDispatch SchedulerTypes Scheduler.
From S2P Require Import SchedulerInv SchedulerQuery SchedulerTick SchedulerFacts SchedulerFlights Aggregator.
From S2P Require Import AggregatorFacts Intake IntakeInv IntakeDrain IntakeFacts Concurrency Supervisor Manifest.
From S2P Require Import Pipeline PipelineInv PipelineOps.

#[local] Existing Instances InboundResultQueue.eta_InboundResultQueue MemoryResultAggregator.eta_aggregator.

(** * Draining the intake *)

(** What accepting batches can do to the aggregator. *)
Record agg_frame (a a' : MA.MemoryResultAggregator) : Prop := {
  af_active : MA.active a' = MA.active a;
  af_floor : MA.retirement_floor a' = MA.retirement_floor a;
  af_limits : MA.limits a' = MA.limits a;
  af_pending : MA.pending_ui_update a' = false -> MA.pending_ui_update a = false /\ MA.items a' = MA.items a;
  af_idle : MA.active a = None -> a' = a;
}.

Lemma agg_frame_refl a : agg_frame a a.
Proof. by split. Qed.

Lemma agg_frame_trans a b c : agg_frame a b -> agg_frame b c -> agg_frame a c.
Proof.
  intros [A1 A2 A3 A4 A5] [B1 B2 B3 B4 B5]. split; try by etrans.
  - intros [H1 E1]%B4. apply A4 in H1 as [H1 E2]. split; [done | congruence].
  - intros H. rewrite <- (A5 H). apply B5. congruence.
Qed.

Lemma aggregator_accept_frame a b :
  agg_inv a -> agg_inv (MA.accept a b).1 /\ agg_frame a (MA.accept a b).1.
Proof.
  intros Hi. pose proof (accept_reference a b Hi) as H. unfold reference in H.
  destruct (Retained.judge _ _ _ _ _ _) as [merged|e] eqn:Ej.
  - destruct H as (a' & -> & [Hit Hac Hfl Hlim _ _ Hpend _] & Hi'). cbn [fst]. split; [done|].
    unfold Retained.judge in Ej. destruct (negb _) eqn:Ea in Ej; [done|].
    apply negb_false_iff, bool_decide_eq_true in Ea.
    assert (Em : merged = Retained.merge_all (MA.items a) (batch_items b)) by (repeat (case_match; try done); congruence).
    split; try done.
    + rewrite Hpend, orb_false_iff, negb_false_iff, bool_decide_eq_true. intros [Hf Hb]. split; [done|].
      by rewrite Hit, Em, Hb.
    + congruence.
  - rewrite H. split; [done | apply agg_frame_refl].
Qed.

Lemma merge_steps_frame (a : MA.MemoryResultAggregator) r l :
  agg_inv a -> agg_inv (merge_steps (a, r) l).1 /\ agg_frame a (merge_steps (a, r) l).1.
Proof.
  revert a r. induction l as [|x l IH]; intros a r Hi; [split; [done | apply agg_frame_refl]|].
  cbn [merge_steps foldl]. destruct (aggregator_accept_frame a (ib_batch (inbound x.2)) Hi) as [Hi1 Hf1].
  unfold merge_step at 2 4. cbn [fst snd].
  change (accept a (ib_batch (inbound x.2))) with (MA.accept a (ib_batch (inbound x.2))).
  destruct (MA.accept a (ib_batch (inbound x.2))) as [a1 res]. cbn [fst] in *.
  destruct res; (edestruct (IH a1) as [H1 H2]; [exact Hi1|]; split; [exact H1 | by eapply agg_frame_trans]).
Qed.

(** The part of a drain that moves batches from the boundary to the
    aggregator. *)
Lemma drain_view p now budget :
  view_ok (generation p) (visible_generation p) (scheduler p) (intake p) (aggregator p) (rows p) ->
  returns (IQ.drain_into (intake p) now (aggregator p) budget) (fun '(q, a, report) =>
    view_ok (generation p) (visible_generation p) (scheduler p) q a (rows p) /\
    IQ.order q = IQ.order (intake p) /\ IQ.limits q = IQ.limits (intake p) /\ MA.limits a = MA.limits (aggregator p)).
Proof.
  intros [Hg Hq Ha [Hf1 Hf2] [Hac1 Hac2] Hvis Hrows].
  destruct (drain_into_spec (intake p) now (aggregator p) budget Hq)
    as (q & a & report & dropped & κ & E & Hq' & Hl & Hact & Hfl & Ho & Hms & _).
  exists (q, a, report). split; [exact E|].
  destruct (merge_steps_frame (aggregator p) (mkDrainReport 0 [] dropped [])
    (flat_map (fun p0 => map (pair p0) (take (κ p0) (live (intake p) p0))) (visit_order (intake p))) Ha) as [Hi' [F1 F2 F3 F4 F5]].
  rewrite <- Hms in *. cbn [fst] in *. split; [|done]. split; try done; try (split; congruence).
  - destruct Hvis as [?|(Hn & ? & ?)]; [by left|]. right. split; [done|]. split; [done|].
    rewrite F5; [done | congruence].
  - intros Hp. apply F4 in Hp as [Hp ->]. auto.
Qed.

(** The scheduler's account of the merged batches. *)
Lemma record_merged_spec gap foreign p errors m :
  pinv gap foreign p ->
  returns (record_merged p errors m) (fun '(p', _) => pinv gap foreign p' /\
    exists s n d, p' = p <| scheduler := s |> <| unranked_batches := n |> <| presentation_dirty := d |>).
Proof.
  intros Hp. unfold record_merged. eapply returns_bind; [apply record_result_ok, Hp|].
  intros [s ad] (_ & Hs & Hfr & Hfl). cbv zeta. pose proof (pinv_scheduler gap foreign p s Hp Hs Hfr Hfl) as Hp1.
  destruct ad; apply returns_some; (split; [destruct Hp1; by split|]).
  - by exists s, (saturating_add usize_max (unranked_batches p) 1), true.
  - exists s, (unranked_batches p), (presentation_dirty p). by destruct p.
  - exists s, (unranked_batches p), (presentation_dirty p). by destruct p.
Qed.

Lemma record_merged_all_spec gap foreign p errors l :
  pinv gap foreign p ->
  returns (record_merged_all p errors l) (fun '(p', _) => pinv gap foreign p' /\
    exists s n d, p' = p <| scheduler := s |> <| unranked_batches := n |> <| presentation_dirty := d |>).
Proof.
  revert p errors. induction l as [|m l IH]; intros p errors Hp; cbn [record_merged_all].
  - apply returns_some. split; [done|]. exists (scheduler p), (unranked_batches p), (presentation_dirty p). by destruct p.
  - eapply returns_bind; [by apply record_merged_spec|]. intros [p1 e1] (Hp1 & s & n & d & ->).
    eapply returns_weaken; [by apply IH|]. intros [p2 e2] (Hp2 & s' & n' & d' & ->). split; [done|]. by exists s', n', d'.
Qed.

Section Drain.
Context (iteration : list (PluginId * Generation) -> list (PluginId * Generation)).
Hypothesis iteration_perm : forall l, iteration l ≡ₚ l.

Lemma drain_intake_spec foreign p now :
  pinv ∅ foreign p ->
  returns (drain_intake iteration p now) (fun '(p', _, _) => pinv ∅ foreign p' /\ steady p p').
Proof.
  intros Hp. unfold drain_intake.
  case_bool_decide; [apply returns_some; split; [done | apply steady_refl]|].
  destruct (_ =? 0); [apply returns_some; split; [done | apply steady_refl]|]. cbv zeta.
  set (p0 := p <| last_intake_drain_at := Some now |>).
  eapply returns_bind; [apply (drain_view p0), Hp|]. intros [[q a] report] (Hv & Ho & Hl & Hal).
  set (p1 := p0 <| intake := q |> <| aggregator := a |>).
  assert (Hp1 : pinv ∅ foreign p1 /\ steady p p1).
  { split; [|by split]. destruct Hp. split; try done. cbn. by rewrite Ho. }
  destruct Hp1 as [Hp1 Hs1]. clearbody p1. clear Hv Ho Hl Hal.
  eapply returns_bind; [by apply record_merged_all_spec|]. intros [p2 errors] (Hp2 & s & n & d & E2).
  assert (Hs2 : steady p1 p2) by (subst p2; by split). clear E2.
  eapply returns_bind; [by apply flush_ready_spec|]. intros p3 [Hp3 Hf3].
  eapply returns_bind; [by apply sync_health_spec|]. intros p4 [Hp4 Hq4].
  apply returns_some. split; [done|]. eapply steady_trans; [exact Hs1|]. eapply steady_trans; [exact Hs2|].
  eapply steady_trans; [by apply flushed_steady | by apply quiet_steady].
Qed.
End Drain.

(** * A keystroke *)

Lemma intake_begin q g :
  IQ.retirement_floor q = 0 -> 0 <= g -> (forall c, IQ.active q = Some c -> c < g) ->
  IQ.begin_generation q g = q <| IQ.active := Some g |>.
Proof.
  intros Hf Hg Ha. unfold IQ.begin_generation. rewrite Hf. rewrite (proj2 (Z.ltb_ge g 0)) by done.
  destruct (IQ.active q) as [c|]; cbn [is_some_and map_or]; [|done].
  rewrite (proj2 (Z.leb_gt g c)); [done | auto].
Qed.

Lemma aggregator_begin a g :
  MA.retirement_floor a = 0 -> 0 <= g -> (forall c, MA.active a = Some c -> c < g) ->
  MA.begin_generation a g = MA.reset (a <| MA.active := Some g |>) <| MA.pending_ui_update := true |>.
Proof.
  intros Hf Hg Ha. unfold MA.begin_generation. rewrite Hf. rewrite (proj2 (Z.ltb_ge g 0)) by done.
  destruct (MA.active a) as [c|]; cbn [is_some_and map_or]; [|done].
  rewrite (proj2 (Z.leb_gt g c)); [done | auto].
Qed.

(** Nothing in the boundary belongs to a generation that just began. *)
Lemma live_begun q g x :
  qinv q -> newest q < g -> live (q <| IQ.active := Some g |>) x = [].
Proof.
  intros [Hb _] Hn. unfold live. cbn. destruct (IQ.plugins q !! x) as [pq|] eqn:Hx; [|done]. cbn [map_or].
  pose proof (pq_newest _ _ _ (bi_queues _ Hb x pq Hx)) as Hnew.
  induction (entries pq) as [|e l IH]; [done|]. apply Forall_cons in Hnew as [He Hl]. cbn.
  unfold IQ.is_active at 1. cbn. rewrite bool_decide_eq_false_2; [by apply IH|]. intros [= Hg]. lia.
Qed.

Lemma emptied_depth q :
  boundary_inv q -> (forall x pq, IQ.plugins q !! x = Some pq -> entries pq = []) ->
  depth_batches (IQ.depth q) = 0.
Proof.
  intros Hb He. cbn. rewrite (bi_batches _ Hb). rewrite (map_sum_ext _ (fun _ => 0)).
  - generalize (IQ.plugins q). intros m. induction m as [|k v m Hk IH] using map_ind; [by rewrite map_sum_empty|].
    by rewrite map_sum_insert_None.
  - intros x pq Hx. by rewrite (He x pq Hx).
Qed.

Section Keystroke.
Context (to_lowercase : text -> text).
Context (iteration : list (PluginId * Generation) -> list (PluginId * Generation)).
Hypothesis iteration_perm : forall l, iteration l ≡ₚ l.

Lemma submit_ok s t now :
  sched_ok s -> current_generation s < u64_max ->
  returns (Scheduler.submit_query to_lowercase s t now) (fun '(s', g) =>
    g = current_generation s + 1 /\ sched_ok s' /\ plugin_order s' = plugin_order s /\
    current_generation s' = g /\ forall q, flights s' q = flights s q).
Proof.
  intros [[Hi Hl] Hs Hf] Hg. destruct (submit_query_spec to_lowercase t now s Hi Hl Hg) as
    (s' & E & Hi' & Hl' & _ & Hg' & Ho & Hsh & _). exists (s', current_generation s + 1). split; [done|].
  destruct (submit_flights to_lowercase s t now s' _ (conj Hi Hl) Hs Hf E) as [Hf' Hfl].
  split; [done|]. split; [|done]. split; [done | congruence | done].
Qed.

Lemma scheduler_generation_nonneg s : sched_ok s -> 0 <= current_generation s.
Proof. intros [[Hi _] _ _]. pose proof (ci_generation _ Hi) as []. unfold current_generation, GenerationTracker.current. lia. Qed.

(** The state in which a keystroke hands over to the boundary. *)
Lemma keystroke_view p s g :
  view_ok (generation p) (visible_generation p) (scheduler p) (intake p) (aggregator p) (rows p) ->
  0 <= generation p -> g = generation p + 1 -> current_generation s = g ->
  view_ok g (Some g) s (IQ.begin_generation (intake p) g) (MA.begin_generation (aggregator p) g) [] /\
  IQ.order (IQ.begin_generation (intake p) g) = IQ.order (intake p) /\
  (forall x, live (IQ.begin_generation (intake p) g) x = []) /\
  MA.items (MA.begin_generation (aggregator p) g) = [] /\
  MA.limits (MA.begin_generation (aggregator p) g) = MA.limits (aggregator p).
Proof.
  intros [Hg Hq Ha [Hf1 Hf2] [Hac1 Hac2] Hvis Hrows] Hpos Eg Hs.
  assert (Hlt : forall c, visible_generation p = Some c -> c < g).
  { destruct Hvis as [->|[-> _]]; [|done]. intros c [= <-]. lia. }
  pose proof (begin_generation_qinv (intake p) g Hq) as Hq'. pose proof (AggregatorFacts.begin_generation_inv _ g Ha) as Ha'.
  assert (E1 : IQ.begin_generation (intake p) g = intake p <| IQ.active := Some g |>).
  { apply intake_begin; [done | lia | by rewrite Hac1]. }
  assert (E2 : MA.begin_generation (aggregator p) g
    = MA.reset (aggregator p <| MA.active := Some g |>) <| MA.pending_ui_update := true |>).
  { apply aggregator_begin; [done | lia | by rewrite Hac2]. }
  rewrite E1, E2 in *.
  split; [split; try done; by left|]. split; [done|]. split; [|done].
  intros x. apply live_begun; [done|]. unfold newest. rewrite Hac1.
  destruct Hvis as [->|[-> _]]; cbn; lia.
Qed.

(** A state in which generation [g] has just begun. *)
Record fresh_generation (p : QueryPipeline) (t : text) (g : Generation) (p' : QueryPipeline) : Prop := {
  fg_generation : generation p' = g;
  fg_query : query p' = t;
  fg_visible : visible_generation p' = Some g;
  fg_rows : rows p' = [];
  fg_live : forall x, live (intake p') x = [];
  fg_items : MA.items (aggregator p') = [];
  fg_registered : registered p' = registered p;
  fg_budgets : budgets p' = budgets p;
  fg_active : active_requests p' = active_requests p;
}.

Lemma open_generation_spec foreign p s t :
  pinv ∅ foreign p -> sched_ok s -> plugin_order s = plugin_order (scheduler p) ->
  current_generation s = generation p + 1 -> (forall q, flights s q = flights (scheduler p) q) ->
  pinv ∅ foreign (open_generation p s t (generation p + 1)) /\
  fresh_generation p t (generation p + 1) (open_generation p s t (generation p + 1)).
Proof.
  intros Hp Hs' Ho Hcur Hfl. pose proof Hp as [Hs Hl Hsl Hst Hrep Hv He Hu]. set (g := generation p + 1) in *.
  pose proof (vo_generation _ _ _ _ _ _ Hv) as Eg. pose proof (scheduler_generation_nonneg _ Hs) as Hpos.
  unfold open_generation. cbv zeta. set (p1 := p <| scheduler := s |> <| query := t |> <| generation := g |>
    <| unranked_batches := 0 |> <| last_intake_drain_at := None |>).
  destruct (capture_effect p1) as (unr & -> & Hunr). destruct (drain_cancellations_ok s Hs') as (Hs2 & [Ho2 Hg2] & Hfl2).
  change (scheduler p1) with s. set (notices := running_notices p1 (cancellations s)). clearbody notices.
  destruct (keystroke_view p (drain_cancellations s).1 g Hv) as (Hv' & Hio & Hlive & Hit & Hlim);
    [lia | done | unfold current_generation in *; congruence |].
  split; [|by split]. split; try done.
  - change (lockstep (registered p) (health_sync p) (MS.plugins (supervisor p)) (budgets p)
      (plugin_order (drain_cancellations s).1) (IQ.order (IQ.begin_generation (intake p) g))).
    by rewrite Ho2, Ho, Hio.
  - change (in_step ∅ (active_requests p) (drain_cancellations s).1). destruct Hst as [H1 H2]. split; [|done].
    intros x g'. by rewrite Hfl2, Hfl.
  - change (forall key, is_Some (unr !! key) -> key.1 ∈ registered p). intros key Hk.
    apply Hunr in Hk as [Hk|Hk]; [by apply Hu | by apply (active_registered ∅ foreign p)].
Qed.

(** Draining a boundary with nothing live empties it and merges nothing. *)
Lemma drain_nothing_live q now (a : MA.MemoryResultAggregator) budget q' a' report :
  qinv q -> (forall x, live q x = []) -> IQ.drain_into q now a budget = Some (q', a', report) ->
  depth_batches (IQ.depth q') = 0 /\ a' = a.
Proof.
  intros Hq Hlive E.
  destruct (drain_into_spec q now a budget Hq) as (q1 & a1 & r1 & dropped & κ & E1 & Hq' & _ & _ & _ & Hqo & Hms & _ & _ & Hall).
  rewrite E in E1. injection E1 as <- <- <-. split.
  - apply emptied_depth; [apply Hq' |]. intros x pq Hx. destruct (IQ.plugins q !! x) as [pq0|] eqn:Hx0.
    + destruct (Hall x pq0 Hx0) as (pq' & Hx' & (Hent & _) & _). simplify_eq. by rewrite Hent, Hlive, drop_nil.
    + exfalso. assert (Hin : is_Some (IQ.plugins q !! x)).
      { apply (bi_dom _ (proj1 Hq)). rewrite <- Hqo. apply (bi_dom _ (proj1 Hq')). eauto. }
      rewrite Hx0 in Hin. by destruct Hin.
  - assert (Hnil : flat_map (fun x => map (pair x) (take (κ x) (live q x))) (visit_order q) = []).
    { clear -Hlive. induction (visit_order q) as [|x l IH]; [done|]. cbn. by rewrite Hlive, take_nil, IH. }
    rewrite Hnil in Hms. cbn in Hms. by injection Hms as -> _.
Qed.

(** The end of a keystroke: the boundary is emptied and completions that waited
    for it are settled. *)
Lemma settle_generation_spec foreign p (g : Generation) now :
  pinv ∅ foreign p -> (forall x, live (intake p) x = []) ->
  returns ('(q, a, _) ← IQ.drain_into (intake p) now (aggregator p) (mkDrainBudget 0 0 0);
           let p := p <| intake := q |> <| aggregator := a |> in
           p ← flush_ready_completions iteration p [];
           p ← sync_health p;
           Some (p, g))
    (fun '(p', g') => g' = g /\ pinv ∅ foreign p' /\ steady p p' /\ aggregator p' = aggregator p /\
       depth_batches (IQ.depth (intake p')) = 0).
Proof.
  intros Hp Hlive.
  destruct (drain_view p now (mkDrainBudget 0 0 0) (pi_view _ _ _ Hp)) as ([[q a] r] & E & Hv3 & Ho3 & Hl3 & Ha3).
  rewrite E. cbn [mbind option_bind].
  destruct (drain_nothing_live _ _ _ _ _ _ _ (vo_qinv _ _ _ _ _ _ (pi_view _ _ _ Hp)) Hlive E) as [Hd ->].
  assert (Hp3 : pinv ∅ foreign (p <| intake := q |> <| aggregator := aggregator p |>)).
  { destruct Hp. split; try done. cbn. by rewrite Ho3. }
  assert (Hs3 : steady p (p <| intake := q |> <| aggregator := aggregator p |>)) by (by split).
  eapply returns_bind; [by apply flush_ready_spec|]. intros p4 [Hp4 Hf4].
  eapply returns_bind; [by apply sync_health_spec|]. intros p5 [Hp5 Hq5]. apply returns_some.
  destruct (flushed_boundary _ _ Hf4) as [I4 A4], (quiet_boundary _ _ Hq5) as [I5 A5].
  apply flushed_steady in Hf4. apply quiet_steady in Hq5. split; [done|]. split; [done|]. split.
  { eapply steady_trans; [exact Hs3|]. by eapply steady_trans. }
  rewrite I5, A5, I4, A4. done.
Qed.

Lemma keystroke_spec foreign p t now :
  pinv ∅ foreign p -> generation p < u64_max ->
  returns (keystroke to_lowercase iteration p t now) (fun '(p', g) => pinv ∅ foreign p' /\
    g = generation p + 1 /\ generation p' = g /\ query p' = t /\ visible_generation p' = Some g /\ rows p' = [] /\
    MA.items (aggregator p') = [] /\ depth_batches (IQ.depth (intake p')) = 0 /\ registered p' = registered p).
Proof.
  intros Hp Hgen. unfold keystroke. pose proof (vo_generation _ _ _ _ _ _ (pi_view _ _ _ Hp)) as Eg.
  eapply returns_bind; [apply submit_ok; [apply Hp | lia]|]. intros [s g] (Hg & Hs' & Ho & Hcur & Hfl).
  assert (g = generation p + 1) as -> by congruence.
  destruct (open_generation_spec foreign p s t Hp Hs' Ho Hcur Hfl) as [Hp2 [F1 F2 F3 F4 F5 F6 F7 _ _]].
  eapply returns_weaken; [by apply (settle_generation_spec foreign)|].
  intros [p' g'] (-> & Hp' & [S1 S2 S3 S4 S5 _ _ _ _ _] & Ha & Hd). rewrite Ha. split; [done|]. split; [done|].
  split_and!; by etrans.
Qed.
End Keystroke.

(** * A tick *)

Definition key_of (d : DispatchedRequest) : PluginId * Generation := (dispatched_plugin d, dispatched_generation d).

(** Whether the plugin's budget has a free suggestion slot. *)
Definition free_slot (p : QueryPipeline) (x : PluginId) : bool :=
  map_or (budgets p !! x) true (fun h =>
    map_or (store p !! h) false (fun b =>
      match in_flight b Suggestion, limit b Suggestion with
      | Some n, Some m => n <? m
      | _, _ => false
      end)).

(** A grant for a request that the scheduler has in flight. *)
Lemma granted_slots bud mem adm act foreign h b b' key :
  slots bud mem adm act foreign -> bud !! key.1 = Some h -> mem !! h = Some b -> adm !! key = None ->
  budget_ok b' (bump (occupancy adm foreign h) Suggestion 1) ->
  slots bud (<[h := b']> mem) (<[key := mkGuard h Suggestion]> adm) ({[key]} ∪ act) foreign.
Proof.
  intros [Hval Hinj Hfor Hst Hgu Hac] Hbud Hb Hn Hok.
  assert (Hsome : forall h', is_Some (mem !! h') -> is_Some (<[h := b']> mem !! h')).
  { intros h' Hh. rewrite lookup_insert. case_decide; eauto. }
  split; try done.
  - eauto.
  - eapply Forall_impl; [exact Hfor|]. intros g Hg. by apply Hsome.
  - intros h' b0. rewrite lookup_insert. case_decide as E.
    + intros [= <-]. subst h'. eapply budget_ok_ext; [|exact Hok]. intros k.
      rewrite occupancy_insert by done. rewrite holds_bump. by rewrite decide_True by done.
    + intros Hb0. eapply budget_ok_ext; [|by apply Hst]. intros k.
      rewrite occupancy_insert by done. rewrite holds_bump. by rewrite decide_False by done.
  - intros key' g0. rewrite lookup_insert. case_decide as E.
    + intros [= <-]. subst key'. split; [set_solver | done].
    + intros H0. apply Hgu in H0 as (? & ? & ?). split; [set_solver | done].
  - intros key' [->%elem_of_singleton | Hk]%elem_of_union; rewrite lookup_insert; [rewrite decide_True by done; eauto|].
    case_decide; eauto.
Qed.

Lemma refused_slots bud mem adm act foreign h b b' :
  slots bud mem adm act foreign -> mem !! h = Some b -> budget_ok b' (occupancy adm foreign h) ->
  slots bud (<[h := b']> mem) adm act foreign.
Proof.
  intros [Hval Hinj Hfor Hst Hgu Hac] Hb Hok.
  assert (Hsome : forall h', is_Some (mem !! h') -> is_Some (<[h := b']> mem !! h')).
  { intros h' Hh. rewrite lookup_insert. case_decide; eauto. }
  split; try done.
  - eauto.
  - eapply Forall_impl; [exact Hfor|]. intros g Hg. by apply Hsome.
  - intros h' b0. rewrite lookup_insert. case_decide as E; [intros [= <-]; by subst | by apply Hst].
Qed.

(** Refusal counters never go down. *)
Lemma acquired_refusals b occ k b' granted k' n' :
  budget_ok b occ -> acquired b occ k b' granted -> refusals b' k' = Some n' ->
  exists n, refusals b k' = Some n /\ n <= n'.
Proof.
  intros Hb [_ _ _ Hr] Hn. rewrite Hr in Hn. destruct (Hb k') as (m & r & _ & _ & _ & _ & Hr' & Hrange).
  exists r. split; [done|]. rewrite Hr' in Hn. unfold in_range in Hrange.
  destruct granted; [simplify_eq; lia|]. case_decide; cbn in Hn; simplify_eq; unfold saturating_add; lia.
Qed.

(** One dispatch that asks for its slot. *)
Lemma acquire_dispatch gap foreign p d :
  pinv gap foreign p -> key_of d ∈ gap -> dispatched_plugin d ∈ registered p ->
  exists h b b', budgets p !! dispatched_plugin d = Some h /\ store p !! h = Some b /\
    try_acquire_owned b Suggestion = Some (b', free_slot p (dispatched_plugin d)) /\
    admitted p !! key_of d = None /\
    (if free_slot p (dispatched_plugin d) then
       pinv (gap ∖ {[key_of d]}) foreign
         (p <| store ::= insert h b' |> <| admitted ::= insert (key_of d) (mkGuard h Suggestion) |>
            <| active_requests ::= fun a => {[key_of d]} ∪ a |>)
     else pinv gap foreign (p <| store ::= insert h b' |>)).
Proof.
  intros Hp Hgap Hreg. destruct (registered_lookup gap foreign p _ Hp Hreg) as (sy & r & h & b & st & _ & _ & Hh & Hb & _ & _ & Hok & _).
  destruct (try_acquire_spec b _ Suggestion Hok) as ([b' granted] & Hacq & Ha).
  assert (Hfree : granted = free_slot p (dispatched_plugin d)).
  { unfold free_slot. rewrite Hh. cbn [map_or]. rewrite Hb. cbn [map_or].
    destruct (Hok Suggestion) as (m & r' & Hm & _ & Hf & _). rewrite Hf, Hm.
    apply eq_iff_eq_true. rewrite (aq_granted _ _ _ _ _ Ha), Z.ltb_lt. split; [intros (m' & ? & ?); by simplify_eq | eauto]. }
  subst granted. pose proof Hp as [Hs Hl Hsl Hst Hrep Hv He Hu]. destruct Hst as [Hfl Hdis].
  assert (Hnact : key_of d ∉ active_requests p) by set_solver.
  assert (Hnone : admitted p !! key_of d = None).
  { destruct (admitted p !! key_of d) as [g|] eqn:E; [|done]. by apply (sl_guards _ _ _ _ _ Hsl) in E as [? _]. }
  assert (Hrep' : reported (health_sync p) (MS.plugins (supervisor p)) (budgets p) (<[h := b']> (store p))).
  { eapply reported_store; [done | done | done|]. intros k n' Hn'. by eapply acquired_refusals. }
  exists h, b, b'. split; [done|]. split; [done|]. split; [done|]. split; [done|].
  pose proof (aq_ok _ _ _ _ _ Ha) as Hok'. destruct (free_slot p (dispatched_plugin d)).
  - split; try done; cbn.
    + by eapply granted_slots.
    + split; [|set_solver]. intros x g. rewrite Hfl, elem_of_union, elem_of_difference, elem_of_singleton.
      destruct (decide ((x, g) = key_of d)) as [->|?]; tauto.
  - split; try done; cbn. by eapply refused_slots.
Qed.

Lemma free_slot_other p p' h b' x y :
  (forall x y h, budgets p !! x = Some h -> budgets p !! y = Some h -> x = y) ->
  budgets p' = budgets p -> store p' = <[h := b']> (store p) -> budgets p !! x = Some h -> y <> x ->
  free_slot p' y = free_slot p y.
Proof.
  intros Hinj Hb Hs Hx Hne. unfold free_slot. rewrite Hb, Hs. destruct (budgets p !! y) as [h'|] eqn:Hy; [|done].
  cbn [map_or]. rewrite lookup_insert_ne; [done|]. intros ->. apply Hne. by eapply Hinj.
Qed.

(** What asking for the slots of a tick's dispatches leaves. *)
Record admission_done (gap : gset (PluginId * Generation)) (foreign : list OwnedBudgetGuard) (p : QueryPipeline)
    (l : list DispatchedRequest) (p' : QueryPipeline) (kept : list DispatchedRequest)
    (refused : list (PluginId * Generation)) : Prop := {
  ad_kept : kept = List.filter (fun d => free_slot p (dispatched_plugin d)) l;
  ad_refused : refused = map key_of (List.filter (fun d => negb (free_slot p (dispatched_plugin d))) l);
  ad_inv : pinv (gap ∖ list_to_set (map key_of kept)) foreign p';
  ad_active : active_requests p' = active_requests p ∪ list_to_set (map key_of kept);
  ad_frame : retired p p';
}.

Lemma filter_free_slot p p' l :
  (forall d, d ∈ l -> free_slot p' (dispatched_plugin d) = free_slot p (dispatched_plugin d)) ->
  List.filter (fun d => free_slot p' (dispatched_plugin d)) l = List.filter (fun d => free_slot p (dispatched_plugin d)) l
  /\ List.filter (fun d => negb (free_slot p' (dispatched_plugin d))) l
     = List.filter (fun d => negb (free_slot p (dispatched_plugin d))) l.
Proof.
  intros H. induction l as [|d l IH]; [done|]. destruct IH as [H1 H2]; [intros; apply H; by right|].
  cbn. by rewrite H1, H2, (H d) by left.
Qed.

Lemma admit_dispatches_spec gap foreign p l :
  pinv gap foreign p -> NoDup (map dispatched_plugin l) ->
  (forall d, d ∈ l -> key_of d ∈ gap /\ dispatched_plugin d ∈ registered p) ->
  returns (admit_dispatches p l) (fun '(p', kept, refused) => admission_done gap foreign p l p' kept refused).
Proof.
  revert gap p. induction l as [|d l IH]; intros gap p Hp Hnd Hall; cbn [admit_dispatches].
  { apply returns_some. split; [done | done | | | apply retired_refl]; cbn.
    - by replace (gap ∖ ∅) with gap by set_solver.
    - set_solver. }
  apply NoDup_cons in Hnd as [Hn Hnd]. destruct (Hall d) as [Hgap Hreg]; [left|].
  assert (Hrest : forall e, e ∈ l -> key_of e <> key_of d /\ dispatched_plugin e <> dispatched_plugin d).
  { intros e He. assert (dispatched_plugin e <> dispatched_plugin d); [|split; [unfold key_of; congruence | done]].
    intros E. apply Hn. rewrite <- E. by apply list_elem_of_fmap_2. }
  destruct (acquire_dispatch gap foreign p d Hp Hgap Hreg) as (h & b & b' & Hh & Hb & Hacq & Hnone & Hp1).
  rewrite Hh, Hb. cbn [mbind option_bind]. rewrite Hacq. cbn [mbind option_bind].
  pose proof (sl_inj _ _ _ _ _ (pi_slots _ _ _ Hp)) as Hinj.
  destruct (free_slot p (dispatched_plugin d)) eqn:Hfree.
  - unfold insert_admitted. change (admitted (p <| store ::= insert h b' |>)) with (admitted p).
    change (dispatched_plugin d, dispatched_generation d) with (key_of d). rewrite Hnone. cbn [release mbind option_bind].
    set (p1 := p <| store ::= insert h b' |> <| admitted ::= insert (key_of d) (mkGuard h Suggestion) |>
      <| active_requests ::= fun a => {[key_of d]} ∪ a |>) in *.
    assert (Hf1 : retired p p1).
    { exists (scheduler p), (supervisor p), (health_sync p), (<[key_of d := mkGuard h Suggestion]> (admitted p)),
        ({[key_of d]} ∪ active_requests p), (unresolved_cancellations p), (<[h := b']> (store p)). done. }
    destruct (filter_free_slot p p1 l) as [E1 E2].
    { intros e He. eapply (free_slot_other p p1 h b' (dispatched_plugin d)); [done | done | done | done | by apply Hrest]. }
    assert (Ha1 : active_requests p1 = {[key_of d]} ∪ active_requests p) by done.
    change (registered p) with (registered p1) in Hall. clearbody p1.
    eapply returns_bind; [apply (IH (gap ∖ {[key_of d]}) p1 Hp1 Hnd)|].
    { intros e He. destruct (Hall e) as [? ?]; [by right|]. destruct (Hrest e He). split; [set_solver | done]. }
    intros [[p2 kept] refused] [-> -> Hp2 Ha2 Hf2]. apply returns_some. rewrite E1, E2 in *.
    split; cbn; rewrite ?Hfree; [done | done | | | by eapply retired_trans]; cbn.
    + by rewrite difference_difference_l_L in Hp2.
    + rewrite Ha2, Ha1. set_solver.
  - set (p1 := p <| store ::= insert h b' |>) in *.
    assert (Hf1 : retired p p1).
    { exists (scheduler p), (supervisor p), (health_sync p), (admitted p),
        (active_requests p), (unresolved_cancellations p), (<[h := b']> (store p)). by destruct p. }
    destruct (filter_free_slot p p1 l) as [E1 E2].
    { intros e He. eapply (free_slot_other p p1 h b' (dispatched_plugin d)); [done | done | done | done | by apply Hrest]. }
    assert (Ha1 : active_requests p1 = active_requests p) by done.
    change (registered p) with (registered p1) in Hall. clearbody p1.
    eapply returns_bind; [apply (IH gap p1 Hp1 Hnd)|]; [intros e He; apply Hall; by right|].
    intros [[p2 kept] refused] [-> -> Hp2 Ha2 Hf2]. apply returns_some. rewrite E1, E2 in *.
    split; cbn; rewrite ?Hfree; [done | done | done | congruence | by eapply retired_trans].
Qed.

(** Refused dispatches are taken back from the scheduler. *)
Lemma retire_refused_spec foreign p l now :
  pinv (list_to_set l) foreign p -> NoDup l ->
  returns (foldl (fun p key => retire_refused p now key) (Some p) l) (fun p' => pinv ∅ foreign p' /\ retired p p' /\
    active_requests p' = active_requests p).
Proof.
  intros Hp Hnd. eapply returns_weaken.
  - apply (returns_foldl _ (fun l p' => pinv (list_to_set l) foreign p' /\ retired p p' /\
      active_requests p' = active_requests p /\ NoDup l)); [by eauto with crikey|].
    intros key l1 p1 (Hp1 & Hr1 & Ha1 & [Hn Hnd1]%NoDup_cons). unfold retire_refused. cbn [mbind option_bind].
    apply returns_fmap. eapply returns_weaken; [by apply finish_completion_spec|].
    intros [p2 o] (Hp2 & Hr2 & Ha2 & _). cbn [fst]. destruct key as [x g]. cbn [fst snd] in *. split.
    + replace (list_to_set l1 : gset (PluginId * Generation)) with ((list_to_set ((x, g) :: l1) : gset (PluginId * Generation)) ∖ {[(x, g)]}); [done|].
      cbn. apply set_eq. intros k. rewrite elem_of_difference, elem_of_union, elem_of_singleton, elem_of_list_to_set.
      naive_solver.
    + split; [by eapply retired_trans|]. split; [|done]. rewrite Ha2, Ha1.
      pose proof (is_gap _ _ _ (pi_step _ _ _ Hp1)) as Hd. rewrite Ha1 in Hd. cbn in Hd. set_solver.
  - intros p' (? & ? & ? & _). done.
Qed.

Lemma tick_ok s now :
  sched_ok s -> returns (Scheduler.tick s now) (fun '(s', ds) => sched_ok s' /\ sched_frame s s' /\
    NoDup (map dispatched_plugin ds) /\
    (forall d, d ∈ ds -> dispatched_plugin d ∈ plugin_order s /\ dispatched_generation d = current_generation s /\
       dispatched_generation d ∉ flights s (dispatched_plugin d)) /\
    forall x g, g ∈ flights s' x <-> g ∈ flights s x \/ (x, g) ∈ map key_of ds).
Proof.
  intros [[Hi Hl] Hs Hf]. destruct (tick_spec s now Hi Hl Hs) as (s' & E & Hi' & Hl' & _ & Hg & Ho & Hs' & _).
  exists (s', tick_round s (clock s now)). split; [exact E|].
  destruct (tick_flights_spec s now s' _ (conj Hi Hl) Hs Hf E) as (Hf' & Hnd & Hd & Hfl).
  split; [by split|]. split; [by split|]. split; [exact Hnd|]. split; [|exact Hfl].
  intros d Hin. destruct (Hd d Hin) as (H1 & H2 & H3). split; [|done]. by apply (ci_order_dom _ Hi).
Qed.

(** The dispatches of the scheduler enter the gap. *)
Lemma tick_pinv foreign p s ds :
  pinv ∅ foreign p -> sched_ok s -> sched_frame (scheduler p) s ->
  (forall d, d ∈ ds -> dispatched_generation d ∉ flights (scheduler p) (dispatched_plugin d)) ->
  (forall x g, g ∈ flights s x <-> g ∈ flights (scheduler p) x \/ (x, g) ∈ map key_of ds) ->
  pinv (list_to_set (map key_of ds)) foreign (p <| scheduler := s |>).
Proof.
  intros [Hs Hl Hsl [H1 H2] Hrep Hv He Hu] Hs' [Ho Hg] Hnew Hfl. split; try done; cbn.
  - by rewrite Ho.
  - split.
    + intros x g. rewrite Hfl, H1, elem_of_list_to_set. set_solver.
    + intros key Hk Ha. apply elem_of_list_to_set, list_elem_of_fmap in Hk as (d & -> & Hd). apply (Hnew d Hd).
      apply H1. by left.
  - destruct Hv. split; try done. unfold current_generation. by rewrite Hg.
Qed.

(** The keys of a tick: those kept leave the gap, the refused ones remain. *)
Lemma gap_after (p : QueryPipeline) ds :
  NoDup (map dispatched_plugin ds) ->
  (list_to_set (map key_of ds) : gset (PluginId * Generation))
    ∖ list_to_set (map key_of (List.filter (fun d => free_slot p (dispatched_plugin d)) ds))
  = list_to_set (map key_of (List.filter (fun d => negb (free_slot p (dispatched_plugin d))) ds)).
Proof.
  intros Hnd. apply set_eq. intros key. rewrite elem_of_difference, !elem_of_list_to_set.
  rewrite !list_elem_of_In, !in_map_iff. setoid_rewrite filter_In. split.
  - intros [(d & <- & Hd) Hn]. exists d. split; [done|]. split; [done|]. destruct (free_slot p (dispatched_plugin d)) eqn:E; [|done].
    exfalso. apply Hn. by exists d.
  - intros (d & <- & Hd & Hf). split; [by exists d|]. intros (d' & Hk & _ & Hf').
    injection Hk as Hk _. rewrite Hk in Hf'. by rewrite Hf' in Hf.
Qed.

Lemma NoDup_keys ds : NoDup (map dispatched_plugin ds) -> NoDup (map key_of ds).
Proof.
  intros H. apply (NoDup_fmap_1 fst). unfold fmap. change (NoDup (map fst (map key_of ds))). by rewrite map_map.
Qed.

Lemma NoDup_map_list_filter {A B} (f : A -> B) (g : A -> bool) (l : list A) :
  NoDup (map f l) -> NoDup (map f (List.filter g l)).
Proof.
  induction l as [|x l IH]; cbn; [done|]. intros [Hn Hnd]%NoDup_cons. destruct (g x); cbn; [|auto].
  apply NoDup_cons. split; [|auto]. intros (y & Hy & Hin%list_elem_of_In%filter_In)%list_elem_of_fmap. apply Hn.
  rewrite Hy. apply list_elem_of_fmap_2, list_elem_of_In, Hin.
Qed.

(** Dispatching: the scheduler's dispatches are split by free slots, the
    refused ones are withdrawn. *)
Lemma dispatch_spec foreign p now :
  pinv ∅ foreign p ->
  returns (dispatch_admitted p now)
    (fun '(p', kept) => pinv ∅ foreign p' /\ retired p p' /\
       exists s ds, Scheduler.tick (scheduler p) now = Some (s, ds) /\
         kept = List.filter (fun d => free_slot p (dispatched_plugin d)) ds /\
         active_requests p' = active_requests p ∪ list_to_set (map key_of kept)).
Proof.
  intros Hp. destruct (tick_ok (scheduler p) now (pi_sched _ _ _ Hp)) as ([s ds] & E & Hs & Hfr & Hnd & Hd & Hfl).
  unfold dispatch_admitted. rewrite E. cbn [mbind option_bind]. cbv zeta.
  assert (Hp1 : pinv (list_to_set (map key_of ds)) foreign (p <| scheduler := s |>)).
  { apply tick_pinv; try done. intros d Hin. by apply Hd. }
  eapply returns_bind.
  - apply (admit_dispatches_spec _ foreign _ ds Hp1 Hnd). intros d Hin. split.
    + apply elem_of_list_to_set. by apply list_elem_of_fmap_2.
    + cbn. apply (ls_scheduler _ _ _ _ _ _ (pi_lock _ _ _ Hp)). by apply Hd.
  - intros [[p2 kept] refused] [-> -> Hp2 Ha2 Hf2]. rewrite gap_after in Hp2 by done.
    eapply returns_bind; [apply (retire_refused_spec foreign p2 _ now Hp2)|].
    { apply NoDup_keys, NoDup_map_list_filter, Hnd. }
    intros p3 (Hp3 & Hf3 & Ha3). apply returns_some. split; [done|]. split.
    + apply (retired_trans _ (p <| scheduler := s |>)); [|by eapply retired_trans].
      exists s, (supervisor p), (health_sync p), (admitted p), (active_requests p), (unresolved_cancellations p), (store p).
      by destruct p.
    + exists s, ds. split; [done|]. split; [done|]. by rewrite Ha3, Ha2.
Qed.

Lemma no_errors_pinv gap foreign p : pinv gap foreign p -> pinv gap foreign (p <| pending_errors := [] |>).
Proof. intros []. split; try done. cbn. rewrite len_nil. lia. Qed.

Lemma no_cancellations_pinv gap foreign p : pinv gap foreign p -> pinv gap foreign (p <| pending_cancellations := [] |>).
Proof. intros []. by split. Qed.

Section Tick.
Context (iteration : list (PluginId * Generation) -> list (PluginId * Generation)).
Hypothesis iteration_perm : forall l, iteration l ≡ₚ l.

(** What a tick hands out. *)
Record ticked (p : QueryPipeline) (now : Millis) (p' : QueryPipeline) (t : PipelineTick) : Prop := {
  tk_dispatch : exists pd errs s ds, drain_intake iteration p now = Some (pd, t_drain_report t, errs) /\
    Scheduler.tick (scheduler pd) now = Some (s, ds) /\
    t_errors t = pending_errors p ++ errs /\
    t_dispatches t = List.filter (fun d => free_slot pd (dispatched_plugin d)) ds /\
    active_requests p' = active_requests pd ∪ list_to_set (map key_of (t_dispatches t));
  tk_cleared : pending_errors p' = [] /\ pending_cancellations p' = [];
}.

Lemma pipeline_tick_spec foreign p now :
  pinv ∅ foreign p -> returns (tick iteration p now) (fun '(p', t) => pinv ∅ foreign p' /\ ticked p now p' t).
Proof.
  intros Hp. unfold tick.
  destruct (drain_intake_spec iteration iteration_perm foreign p now Hp) as ([[pd report] errs] & Ed & Hpd & Hsd).
  rewrite Ed. cbn [mbind option_bind]. cbv zeta.
  destruct (dispatch_spec foreign (pd <| pending_errors := [] |>) now) as ([p2 kept] & E2 & Hp2 & Hr2 & s & ds & Es & Hk & Ha).
  { by apply no_errors_pinv. }
  rewrite E2. cbn [mbind option_bind].
  pose proof (no_cancellations_pinv _ _ _ (capture_spec ∅ foreign p2 Hp2)) as Hp3.
  destruct (capture_effect p2) as (unr & E3 & _).
  assert (Ha3 : active_requests (capture_cancellations p2) = active_requests p2 /\
    pending_errors (capture_cancellations p2) = pending_errors p2) by (by rewrite E3).
  set (p3 := capture_cancellations p2) in *. clearbody p3.
  eapply returns_bind; [apply (sync_health_spec _ _ _ Hp3)|]. intros p4 [Hp4 Hq4]. apply returns_some.
  split; [done|]. split.
  - exists pd, errs, s, ds. split; [done|]. split; [exact Es|]. cbn [t_errors t_dispatches].
    rewrite (sd_errors _ _ Hsd). split; [done|]. split; [exact Hk|].
    destruct Hq4 as (? & ? & ->). cbn. rewrite (proj1 Ha3). exact Ha.
  - apply retired_steady in Hr2. destruct Hq4 as (? & ? & ->). cbn. rewrite (proj2 Ha3).
    split; [|done]. exact (sd_errors _ _ Hr2).
Qed.
End Tick.
