(* ===== verification/PipelineView.v ===== *)
(** Results, completions and presentation against the pipeline's invariant. *)

From S2P Require Import Prelude Text Generation Items View Debounce LegacyDispatch SchedulerTypes Scheduler.
From S2P Require Import SchedulerInv SchedulerQuery SchedulerTick SchedulerFacts SchedulerFlights Aggregator.
From S2P Require Import AggregatorFacts Intake IntakeInv IntakeDrain IntakeFacts Concurrency Supervisor Manifest.
From S2P Require Import Pipeline PipelineInv PipelineOps PipelineSteps.

(** * Results *)

Lemma classify_spec gap foreign p x g st :
  pinv gap foreign p ->
  returns (classify_cancelled_response p x g st) (fun p' => pinv gap foreign p' /\ retired p p').
Proof.
  intros Hp. unfold classify_cancelled_response.
  destruct (unresolved_cancellations p !! (x, g)) eqn:Hk; [|apply returns_some; eauto with crikey].
  eapply returns_weaken.
  - apply (supervise_spec gap foreign); [by apply delete_unresolved | | apply cancellation_keeps].
    apply (pi_unresolved _ _ _ Hp (x, g)). eauto.
  - intros p' [Hp' Hq]. split; [done|]. eapply retired_trans; [|by apply quiet_retired].
    exists (scheduler p), (supervisor p), (health_sync p), (admitted p), (active_requests p),
      (delete (x, g) (unresolved_cancellations p)), (store p). by destruct p.
Qed.

Lemma scheduler_retired p s : retired p (p <| scheduler := s |>).
Proof.
  exists s, (supervisor p), (health_sync p), (admitted p), (active_requests p), (unresolved_cancellations p), (store p).
  by destruct p.
Qed.

Lemma record_late_spec gap foreign p b now :
  pinv gap foreign p -> returns (record_late p b now) (fun p' => pinv gap foreign p' /\ retired p p').
Proof.
  intros Hp. unfold record_late. eapply returns_bind; [apply record_result_ok, Hp|].
  intros [s ad] (_ & Hs & Hfr & Hfl).
  eapply returns_bind; [apply (classify_spec gap foreign), pinv_scheduler; done|]. intros p2 [Hp2 Hr2].
  eapply returns_weaken; [by apply sync_health_spec|]. intros p3 [Hp3 Hq3]. split; [done|].
  apply (retired_trans _ _ _ (scheduler_retired p s)). eapply retired_trans; [exact Hr2 | by apply quiet_retired].
Qed.

Lemma retired_boundary p p' : retired p p' -> intake p' = intake p /\ aggregator p' = aggregator p /\ rows p' = rows p.
Proof. by intros (? & ? & ? & ? & ? & ? & ? & ->). Qed.

(** The boundary after a batch was offered to it. *)
Lemma submit_pinv gap foreign p q :
  pinv gap foreign p -> qinv q -> same_boundary (intake p) q -> pinv gap foreign (p <| intake := q |>).
Proof.
  intros [Hs Hl Hsl Hst Hrep Hv He Hu] Hq (_ & Hfl & Hac & Ho & _). split; try done; cbn.
  - by rewrite Ho.
  - destruct Hv. split; try done; by rewrite ?Hfl, ?Hac.
Qed.

(** How a delivery ends. *)
Definition delivered (p : QueryPipeline) (b : ResultBatch) (pr : BatchPriority) (now : Millis) (p' : QueryPipeline)
    (r : result unit PipelineError) : Prop :=
  let x := batch_plugin b in
  let g := batch_generation b in
  aggregator p' = aggregator p /\ rows p' = rows p /\
  (forall y, y <> x -> live (intake p') y = live (intake p) y) /\
  match r with
  | Ok _ => (x, g) ∈ active_requests p /\ g = generation p /\
      exists evicted retained, live (intake p) x = evicted ++ retained /\
        live (intake p') x = retained ++ [mkEntry now (mkInbound b pr)]
  | Err e => live (intake p') x = live (intake p) x /\
      exists reason, e = QueueRejected x g reason /\
        (x ∈ registered p -> (x, g) ∉ active_requests p -> reason = QStaleGeneration /\ intake p' = intake p)
  end.

Lemma deliver_spec gap foreign p b pr now :
  pinv gap foreign p ->
  returns (deliver_with_priority p b pr now) (fun '(p', r) => pinv gap foreign p' /\ delivered p b pr now p' r).
Proof.
  intros Hp. unfold deliver_with_priority. cbv zeta. set (x := batch_plugin b). set (g := batch_generation b).
  assert (Hreg : is_some (health_sync p !! x) = true <-> x ∈ registered p).
  { by rewrite (ls_health _ _ _ _ _ _ (pi_lock _ _ _ Hp)), is_some_true. }
  destruct (is_some (health_sync p !! x) && negb (bool_decide ((x, g) ∈ active_requests p))) eqn:Hlate.
  - eapply returns_bind; [by apply (record_late_spec gap foreign)|]. intros p1 [Hp1 Hr1]. apply returns_some.
    split; [done|]. destruct (retired_boundary _ _ Hr1) as (Hi & Ha & Hrows). unfold delivered.
    rewrite Hi, Ha, Hrows. split_and!; try done. by exists QStaleGeneration.
  - destruct (submit_spec (intake p) now (mkInbound b pr) (vo_qinv _ _ _ _ _ _ (pi_view _ _ _ Hp)))
      as (q & r & E & Hq & Hsb & Hoth & Hr). cbn [ib_batch] in Hoth, Hr. fold x g in Hoth, Hr.
    rewrite E. cbn [mbind option_bind]. pose proof (submit_pinv gap foreign p q Hp Hq Hsb) as Hp1.
    destruct r as [st|reason].
    + apply returns_some. split; [done|]. split; [done|]. split; [done|]. split; [exact Hoth|].
      destruct Hr as (pq & pq' & evicted & retained & Hpq & _ & Hact & H1 & H2 & _). fold x g.
      assert (Hx : x ∈ registered p).
      { apply (ls_intake _ _ _ _ _ _ (pi_lock _ _ _ Hp)), (bi_dom _ (proj1 (vo_qinv _ _ _ _ _ _ (pi_view _ _ _ Hp)))). eauto. }
      apply Hreg in Hx. rewrite Hx in Hlate. cbn in Hlate. apply negb_false_iff, bool_decide_eq_true in Hlate.
      split; [done|]. split; [|by exists evicted, retained].
      pose proof (vo_active _ _ _ _ _ _ (pi_view _ _ _ Hp)) as [Hv _].
      pose proof (vo_visible _ _ _ _ _ _ (pi_view _ _ _ Hp)) as [Hvis|(Hvis & _)]; congruence.
    + assert (Hex : x ∈ registered p -> (x, g) ∉ active_requests p -> False).
      { intros Hx Ha. apply Hreg in Hx. rewrite Hx, bool_decide_eq_false_2 in Hlate by done. done. }
      eapply returns_bind with (Q := fun p' => pinv gap foreign p' /\ retired (p <| intake := q |>) p').
      * destruct (bool_decide (reason = QStaleGeneration)); [by apply record_late_spec | apply returns_some; eauto with crikey].
      * intros p2 [Hp2 Hr2]. apply returns_some. split; [done|]. unfold delivered.
        destruct (retired_boundary _ _ Hr2) as (Hi & Ha & Hrows). rewrite Hi, Ha, Hrows. fold x g.
        split; [done|]. split; [done|]. split; [exact Hoth|]. split; [exact Hr|]. exists reason.
        split; [done|]. intros Hx Hn. by destruct (Hex Hx Hn).
Qed.

(** * Completions *)

Lemma pipeline_complete_spec foreign p x g now :
  pinv ∅ foreign p ->
  returns (complete p x g now) (fun '(p', o) => pinv ∅ foreign p' /\ steady p p' /\
    intake p' = intake p /\ aggregator p' = aggregator p /\
    (active_requests p' = active_requests p ∖ {[(x, g)]} \/
     is_Some (pending_completions p' !! (x, g)) /\ active_requests p' = active_requests p)).
Proof.
  intros Hp. unfold complete. destruct (_ && _ && _).
  - apply returns_some. split; [by apply completions_pinv|]. split; [by split|]. split; [done|]. split; [done|]. right.
    cbn. rewrite lookup_insert_eq. eauto.
  - eapply returns_weaken; [by apply (finish_completion_spec ∅ foreign)|]. intros [p' o] (Hp' & Hr & Ha & _).
    replace (∅ ∖ {[(x, g)]}) with (∅ : gset (PluginId * Generation)) in Hp' by set_solver.
    split; [done|]. split; [by apply retired_steady|]. destruct (retired_boundary _ _ Hr) as (? & ? & _). auto.
Qed.

(** Nothing is left of the request. *)
Definition forgotten (p : QueryPipeline) (key : PluginId * Generation) : Prop :=
  (key ∉ active_requests p) /\ admitted p !! key = None /\ pending_completions p !! key = None /\
  unresolved_cancellations p !! key = None.

Lemma forgotten_quiet p p' key : quiet p p' -> forgotten p key -> forgotten p' key.
Proof. by intros (? & ? & ->). Qed.

Lemma not_active_not_admitted gap foreign p key :
  pinv gap foreign p -> key ∉ active_requests p -> admitted p !! key = None.
Proof.
  intros Hp Hn. destruct (admitted p !! key) as [gd|] eqn:E; [|done].
  by apply (sl_guards _ _ _ _ _ (pi_slots _ _ _ Hp)) in E as [? _].
Qed.

(** Aborting an unknown request does nothing; a known one leaves no trace. *)
Lemma abort_request_spec foreign p x g now :
  pinv ∅ foreign p ->
  returns (abort_request p x g now) (fun '(p', r) => pinv ∅ foreign p' /\ steady p p' /\
    intake p' = intake p /\ aggregator p' = aggregator p /\
    (forall key, key <> (x, g) -> (key ∈ active_requests p' <-> key ∈ active_requests p)) /\
    forgotten p' (x, g) /\ (r = false -> p' = p)).
Proof.
  intros Hp. unfold abort_request. cbv zeta.
  destruct (_ || is_some (unresolved_cancellations p !! (x, g))) eqn:Hhad; cbn [negb].
  - set (p1 := p <| pending_completions ::= delete (x, g) |> <| pending_cancellations ::= _ |>
      <| unresolved_cancellations ::= delete (x, g) |>).
    assert (Hp1 : pinv ∅ foreign p1).
    { assert (H : pinv ∅ foreign (p <| pending_completions ::= delete (x, g) |> <| unresolved_cancellations ::= delete (x, g) |>)).
      { by apply delete_unresolved, completions_pinv. }
      destruct H. by split. }
    assert (Hs1 : steady p p1) by (by split). assert (Hb1 : intake p1 = intake p /\ aggregator p1 = aggregator p) by done.
    assert (Hf1 : pending_completions p1 !! (x, g) = None /\ unresolved_cancellations p1 !! (x, g) = None /\
      active_requests p1 = active_requests p /\ registered p1 = registered p).
    { cbn. by rewrite !lookup_delete_eq. }
    destruct Hf1 as (Hpc & Hun & Hac & Hreg).
    change (unresolved_cancellations (p <| pending_completions ::= _ |> <| pending_cancellations ::= _ |>))
      with (unresolved_cancellations p).
    eapply returns_bind; [apply (finish_completion_spec ∅ foreign p1 x g now Hp1)|].
    intros [p2 o] (Hp2 & Hr2 & Ha2 & Hu2). replace (∅ ∖ {[(x, g)]}) with (∅ : gset (PluginId * Generation)) in Hp2 by set_solver.
    clearbody p1.
    assert (Hf2 : forgotten p2 (x, g)).
    { split; [rewrite Ha2; set_solver|]. split.
      - eapply (not_active_not_admitted ∅ foreign p2); [done|]. rewrite Ha2. set_solver.
      - split; [|by apply Hu2]. destruct Hr2 as (? & ? & ? & ? & ? & ? & ? & ->). exact Hpc. }
    eapply returns_bind with (Q := fun p' => pinv ∅ foreign p' /\ quiet p2 p').
    + destruct (is_some (unresolved_cancellations p !! (x, g))) eqn:Hu; [|apply returns_some; eauto with crikey].
      apply (supervise_spec ∅ foreign); [done | | apply (cancellation_keeps false)].
      rewrite (sd_registered _ _ (retired_steady _ _ Hr2)), Hreg. apply (pi_unresolved _ _ _ Hp (x, g)).
      destruct (unresolved_cancellations p !! (x, g)); [eauto | done].
    + intros p3 [Hp3 Hq3]. apply returns_some. split; [done|].
      destruct (retired_boundary _ _ Hr2) as (I2 & A2 & _), (quiet_boundary _ _ Hq3) as [I3 A3].
      split; [apply (steady_trans _ _ _ Hs1), (steady_trans _ _ _ (retired_steady _ _ Hr2)), (quiet_steady _ _ Hq3)|].
      rewrite I3, A3, I2, A2. split; [apply Hb1|]. split; [apply Hb1|]. split; [|split; [by eapply forgotten_quiet | done]].
      destruct Hq3 as (? & ? & ->). cbn. rewrite Ha2, Hac. set_solver.
  - rewrite !orb_false_iff, bool_decide_eq_false in Hhad. destruct Hhad as (((H1 & H2) & H3) & H4).
    apply returns_some. split; [done|]. split; [apply steady_refl|]. split; [done|]. split; [done|]. split; [done|].
    split; [|done]. split; [done|]. destruct (admitted p !! _), (pending_completions p !! _), (unresolved_cancellations p !! _); done.
Qed.

(** * Presentation *)

Lemma push_error_pinv gap foreign p e : pinv gap foreign p -> pinv gap foreign (push_error p e).
Proof.
  intros [Hs Hl Hsl Hst Hrep Hv [H1 H2] Hu]. pose proof (push_bounded (error_capacity p) (pending_errors p) e H1 H2) as Hb.
  unfold push_error. destruct (len (pending_errors p) =? error_capacity p); by split.
Qed.

Lemma push_error_frame p e : exists l n, push_error p e = p <| pending_errors := l |> <| dropped_errors := n |>.
Proof.
  unfold push_error. destruct (_ =? _); [by do 2 eexists|]. exists (pending_errors p ++ [e]), (dropped_errors p). by destruct p.
Qed.

Lemma push_errors_spec gap foreign p l :
  pinv gap foreign p -> pinv gap foreign (foldl push_error p l) /\
  exists es n, foldl push_error p l = p <| pending_errors := es |> <| dropped_errors := n |>.
Proof.
  revert p. induction l as [|e l IH]; intros p Hp; cbn.
  - split; [done|]. exists (pending_errors p), (dropped_errors p). by destruct p.
  - destruct (IH _ (push_error_pinv gap foreign p e Hp)) as [H1 (es & n & H2)]. split; [done|]. exists es, n.
    rewrite H2. destruct (push_error_frame p e) as (es' & n' & ->). done.
Qed.

Lemma record_ranking_ok s g n now :
  sched_ok s -> sched_ok (record_ranking s g n now) /\ sched_frame s (record_ranking s g n now) /\
  forall q, flights (record_ranking s g n now) q = flights s q.
Proof.
  intros [Hi Hs Hf]. pose proof (record_ranking_sim s g n now) as Hsim.
  destruct (flights_inv_sim_frame _ _ _ _ Hsim) as [H1 H2]. destruct Hsim as [_ Hg _ Ho _ _ Hsh _].
  split; [|by split]. split; [|etrans; [exact Hsh | exact Hs] | auto]. unfold record_ranking.
  apply push_trace_inv, reset_depth_inv, (observed_inv s now Hi).
Qed.

Lemma record_presentation_ok s g n now :
  sched_ok s -> sched_ok (record_presentation s g n now) /\ sched_frame s (record_presentation s g n now) /\
  forall q, flights (record_presentation s g n now) q = flights s q.
Proof.
  intros [Hi Hs Hf]. pose proof (record_presentation_sim s g n now) as Hsim.
  destruct (flights_inv_sim_frame _ _ _ _ Hsim) as [H1 H2]. destruct Hsim as [_ Hg _ Ho _ _ Hsh _].
  split; [|by split]. split; [|etrans; [exact Hsh | exact Hs] | auto]. unfold record_presentation.
  apply push_trace_inv, reset_depth_inv, (observed_inv s now Hi).
Qed.

Lemma shows_built items installed resolve :
  shows items (imap (fun n item => result_row item installed (resolve n)) items).
Proof.
  unfold shows. revert resolve. induction items as [|item l IH]; intros resolve; [done|]. cbn. f_equal.
  apply (IH (fun n => resolve (S n))).
Qed.

Lemma fill_icon_bare row resolve : bare (fill_icon row resolve).1 = bare row.
Proof. unfold fill_icon. by repeat case_match. Qed.

Lemma shows_filled items rs resolve :
  shows items rs -> shows items (map fst (imap (fun n row => fill_icon row (resolve n)) rs)).
Proof.
  unfold shows. intros <-. revert resolve. induction rs as [|row l IH]; intros resolve; [done|]. cbn. f_equal.
  - apply fill_icon_bare.
  - apply (IH (fun n => resolve (S n))).
Qed.

Lemma rows_pinv gap foreign p rs :
  pinv gap foreign p -> (forall items, shows items (rows p) -> shows items rs) -> pinv gap foreign (p <| rows := rs |>).
Proof. intros [Hs Hl Hsl Hst Hrep Hv He Hu] Hrs. split; try done. destruct Hv. split; try done. auto. Qed.

Lemma fill_pending_spec gap foreign p resolve :
  pinv gap foreign p ->
  pinv gap foreign (fill_pending_icons p resolve).1 /\
  exists rs, (fill_pending_icons p resolve).1 = p <| rows := rs |>.
Proof.
  intros Hp. unfold fill_pending_icons.
  assert (Hsame : pinv gap foreign p /\ exists rs, p = p <| rows := rs |>).
  { split; [done|]. exists (rows p). by destruct p. }
  destruct (negb (icons p)); [exact Hsame|]. destruct (negb (existsb _ (rows p))); [exact Hsame|].
  cbn [fst]. destruct (existsb snd _); [|exact Hsame]. split; [|by eexists].
  apply rows_pinv; [done|]. intros items. apply shows_filled.
Qed.

Lemma begin_frame_pinv gap foreign p :
  pinv gap foreign p -> pinv gap foreign (p <| aggregator ::= MA.begin_frame |>).
Proof.
  intros [Hs Hl Hsl Hst Hrep Hv He Hu]. split; try done. cbn. destruct Hv as [? ? Ha ? ? ? ?]. split; try done.
  apply (agg_step_inv _ AggFrame Ha).
Qed.

Lemma take_ui_update_fields a :
  MA.pending_ui_update a = true -> 0 < MA.ui_updates_remaining a ->
  exists a', MA.take_ui_update a = (a', Some (MA.items a)) /\ agg_step a AggTake = (a', Some (MA.items a)) /\
    MA.pending_ui_update a' = false /\ MA.items a' = MA.items a /\ MA.active a' = MA.active a /\
    MA.retirement_floor a' = MA.retirement_floor a /\ MA.limits a' = MA.limits a.
Proof.
  intros Hp Hr. cbn [agg_step]. unfold MA.take_ui_update. rewrite Hp, (proj2 (Z.eqb_neq _ _)) by lia. cbn [negb orb].
  eexists. split; [done|]. done.
Qed.

(** What bringing the rows up to date keeps, and that they then show the
    aggregator's list, unless the frame has no update to spend. *)
Definition refreshed (gap : gset (PluginId * Generation)) (foreign : list OwnedBudgetGuard) (p p' : QueryPipeline) : Prop :=
  pinv gap foreign p' /\ generation p' = generation p /\ query p' = query p /\
  visible_generation p' = visible_generation p /\ registered p' = registered p /\ budgets p' = budgets p /\
  MA.limits (aggregator p') = MA.limits (aggregator p) /\
  (1 <= max_ui_updates_per_frame (MA.limits (aggregator p)) -> shows (MA.items (aggregator p')) (rows p')).

Lemma refreshed_icons gap foreign p resolve :
  pinv gap foreign p ->
  (1 <= max_ui_updates_per_frame (MA.limits (aggregator p)) -> MA.pending_ui_update (aggregator p) = false) ->
  refreshed gap foreign p (fill_pending_icons p resolve).1.
Proof.
  intros Hp Hpend. destruct (fill_pending_spec gap foreign p resolve Hp) as [Hp2 (rs & E)]. split; [exact Hp2|].
  pose proof (vo_rows _ _ _ _ _ _ (pi_view _ _ _ Hp2)) as Hrows. rewrite E in Hrows |- *. cbn in *.
  split_and!; try done. auto.
Qed.

Lemma refreshed_update gap foreign p a resolve :
  pinv gap foreign p -> MA.pending_ui_update (aggregator p) = true ->
  0 < MA.ui_updates_remaining (aggregator p) -> MA.take_ui_update (aggregator p) = (a, Some (MA.items (aggregator p))) ->
  refreshed gap foreign p
    (p <| aggregator := a |> <| rows := imap (fun n item => result_row item (icons p) (resolve n)) (MA.items (aggregator p)) |>
       <| visible_generation := Some (generation p) |>).
Proof.
  intros [Hs Hl Hsl Hst Hrep Hv He Hu] Hpend Hrem Et.
  destruct (take_ui_update_fields (aggregator p) Hpend Hrem) as (a' & Et' & Estep & F1 & F2 & F3 & F4 & F5).
  rewrite Et in Et'. injection Et' as <-.
  pose proof (vo_visible _ _ _ _ _ _ Hv) as Hvis. destruct Hvis as [Hvis|(_ & _ & Hno)]; [|congruence].
  pose proof (agg_step_inv (aggregator p) AggTake (vo_agg _ _ _ _ _ _ Hv)) as Hai. rewrite Estep in Hai. cbn [fst] in Hai.
  split; [|cbn; rewrite Hvis, F2; split_and!; try done; intros _; apply shows_built].
  split; try done. destruct Hv as [Hg Hq Ha [Hf1 Hf2] [Hac1 Hac2] _ Hrows].
  split; cbn; try done; [split; congruence | split; congruence | by left |]. intros _. rewrite F2. apply shows_built.
Qed.

Lemma refresh_rows_spec gap foreign p resolve :
  pinv gap foreign p -> refreshed gap foreign p (refresh_rows p resolve).1.
Proof.
  intros Hp. unfold refresh_rows. pose proof (begin_frame_pinv gap foreign p Hp) as Hp1.
  set (p1 := p <| aggregator ::= MA.begin_frame |>) in *.
  cut (refreshed gap foreign p1 (let (a, update) := MA.take_ui_update (aggregator p1) in
    match update with
    | Some items =>
        (p1 <| aggregator := a |> <| rows := imap (fun n item => result_row item (icons p1) (resolve n)) items |>
            <| visible_generation := Some (generation p1) |>, true)
    | None => fill_pending_icons (p1 <| aggregator := a |>) resolve
    end).1); [done|].
  assert (E7 : MA.ui_updates_remaining (aggregator p1) = max_ui_updates_per_frame (MA.limits (aggregator p1))) by done.
  clearbody p1. clear Hp p.
  assert (Hsame : p1 <| aggregator := aggregator p1 |> = p1) by (by destruct p1).
  destruct (MA.pending_ui_update (aggregator p1)) eqn:Hpend.
  2: { assert (MA.take_ui_update (aggregator p1) = (aggregator p1, None)) as -> by (unfold MA.take_ui_update; by rewrite Hpend).
       rewrite Hsame. by apply refreshed_icons. }
  destruct (decide (1 <= max_ui_updates_per_frame (MA.limits (aggregator p1)))) as [Hmax|Hmax].
  - destruct (take_ui_update_fields (aggregator p1) Hpend) as (a & Et & _); [lia|]. rewrite Et.
    apply refreshed_update; [done | done | lia | done].
  - assert (MA.take_ui_update (aggregator p1) = (aggregator p1, None)) as ->.
    { unfold MA.take_ui_update. rewrite Hpend, E7.
      pose proof (ai_limits _ (vo_agg _ _ _ _ _ _ (pi_view _ _ _ Hp1))) as (_ & _ & _ & ?).
      by rewrite (proj2 (Z.eqb_eq _ 0)) by lia. }
    rewrite Hsame. by apply refreshed_icons.
Qed.

Section Present.
Context (iteration : list (PluginId * Generation) -> list (PluginId * Generation)).
Hypothesis iteration_perm : forall l, iteration l ≡ₚ l.

(** What a frame shows. *)
Definition frame_ok (p p' : QueryPipeline) (frame : option ViewModel) : Prop :=
  generation p' = generation p /\ query p' = query p /\ visible_generation p' = visible_generation p /\
  registered p' = registered p /\ budgets p' = budgets p /\
  MA.limits (aggregator p') = MA.limits (aggregator p) /\
  match frame with
  | None => True
  | Some v =>
      visible_generation p = Some (generation p) /\ v_generation v = generation p /\ v_query v = query p /\
      (1 <= max_ui_updates_per_frame (MA.limits (aggregator p)) -> shows (MA.items (aggregator p')) (v_rows v))
  end.

Lemma presented_pinv gap foreign p pending now :
  pinv gap foreign p ->
  pinv gap foreign (p <| presented_pending := pending |>
    <| scheduler ::= fun s => record_ranking s (generation p) (len (rows p)) now |>
    <| scheduler ::= fun s => record_presentation s (generation p) (len (rows p)) now |>
    <| unranked_batches := 0 |> <| presentation_dirty := false |>).
Proof.
  intros Hp. destruct (record_ranking_ok _ (generation p) (len (rows p)) now (pi_sched _ _ _ Hp)) as (H1 & H2 & H3).
  pose proof (pinv_scheduler gap foreign p _ Hp H1 H2 H3) as Hp1.
  destruct (record_presentation_ok _ (generation p) (len (rows p)) now H1) as (H4 & H5 & H6).
  pose proof (pinv_scheduler gap foreign _ _ Hp1 H4 H5 H6) as []. by split.
Qed.

Lemma present_spec foreign p now resolve :
  pinv ∅ foreign p ->
  returns (present iteration p now resolve) (fun '(p', frame) => pinv ∅ foreign p' /\ frame_ok p p' frame).
Proof.
  intros Hp. unfold present. eapply returns_bind; [by apply drain_intake_spec|].
  intros [[p1 report] errors] [Hp1 Hs1]. destruct (push_errors_spec ∅ foreign p1 errors Hp1) as [Hp2 (es & n & E2)].
  cbv zeta. set (p2 := foldl push_error p1 errors) in *.
  assert (Hs2 : generation p2 = generation p /\ query p2 = query p /\ visible_generation p2 = visible_generation p /\
    registered p2 = registered p /\ budgets p2 = budgets p /\ MA.limits (aggregator p2) = MA.limits (aggregator p)).
  { rewrite E2. cbn. destruct Hs1. done. }
  clearbody p2. clear E2 Hp1 Hs1 p1.
  pose proof (refresh_rows_spec ∅ foreign p2 resolve Hp2) as (Hp3 & R1 & R2 & R3 & R4 & R5 & R6 & R7).
  destruct (refresh_rows p2 resolve) as [p3 changed]. cbn [fst] in *. destruct Hs2 as (S1 & S2 & S3 & S4 & S5 & S6).
  assert (Hnone : pinv ∅ foreign p3 /\ frame_ok p p3 None) by (unfold frame_ok; split_and!; congruence || done).
  case_bool_decide as Hvis; cbn [negb]; [|by apply returns_some].
  destruct (_ && _ && _); [by apply returns_some|]. apply returns_some.
  split; [exact (presented_pinv ∅ foreign p3 (Some (has_pending_work p3)) now Hp3)|].
  unfold frame_ok. cbn. rewrite <- S6. split_and!; congruence || exact R7 || done.
Qed.

Lemma frame_ok_trans p1 p2 p3 frame : frame_ok p1 p2 None -> frame_ok p2 p3 frame -> frame_ok p1 p3 frame.
Proof.
  intros (A1 & A2 & A3 & A4 & A5 & A6 & _) (B1 & B2 & B3 & B4 & B5 & B6 & B7). unfold frame_ok.
  rewrite <- A1, <- A2, <- A3, <- A4, <- A5, <- A6. split_and!; congruence || done.
Qed.

Lemma frame_ok_none p p' frame : frame_ok p p' frame -> frame_ok p p' None.
Proof. unfold frame_ok. naive_solver. Qed.

(** The rounds of [present_drained] end with an empty boundary or a round
    without progress; the number of rounds is never what ends them. *)
Definition rounds_done (now : Millis) (resolve : nat -> string -> string -> option IconImage) (p' : QueryPipeline) : Prop :=
  depth_batches (IQ.depth (intake p')) = 0 \/
  exists before frame, present iteration (before <| last_intake_drain_at := None |>) now resolve = Some (p', frame) /\
    0 < depth_batches (IQ.depth (intake before)) <= depth_batches (IQ.depth (intake p')).

Lemma depth_nonneg gap foreign p : pinv gap foreign p -> 0 <= depth_batches (IQ.depth (intake p)).
Proof.
  intros Hp. pose proof (vo_qinv _ _ _ _ _ _ (pi_view _ _ _ Hp)) as [Hb _]. cbn. rewrite (bi_batches _ Hb).
  apply map_sum_nonneg. intros q. apply len_nonneg.
Qed.

Lemma present_rounds_spec foreign rounds p now resolve frame :
  pinv ∅ foreign p -> depth_batches (IQ.depth (intake p)) <= Z.of_nat rounds ->
  returns (present_rounds iteration rounds p now resolve frame) (fun '(p', frame') => pinv ∅ foreign p' /\
    frame_ok p p' None /\ rounds_done now resolve p' /\
    forall v, frame' = Some v -> frame = Some v \/ v_generation v = generation p).
Proof.
  revert p frame. induction rounds as [|rounds IH]; intros p frame Hp Hd; pose proof (depth_nonneg _ _ _ Hp) as Hnn;
    cbn [present_rounds].
  { apply returns_some. split; [done|]. split; [by unfold frame_ok|]. split; [left; lia | auto]. }
  destruct (Z.ltb_spec 0 (depth_batches (IQ.depth (intake p)))) as [Hpos|Hz]; cbn [negb].
  2: { apply returns_some. split; [done|]. split; [by unfold frame_ok|]. split; [left; lia | auto]. }
  assert (Hp0 : pinv ∅ foreign (p <| last_intake_drain_at := None |>)) by (destruct Hp; by split).
  destruct (present_spec foreign _ now resolve Hp0) as ([p1 next] & E & Hp1 & Hf1). rewrite E. cbn [mbind option_bind].
  assert (Hgen : forall v, match next with Some v => Some v | None => frame end = Some v ->
    frame = Some v \/ v_generation v = generation p).
  { destruct next as [v1|]; [|auto]. intros v [= <-]. right. by destruct Hf1 as (_ & _ & _ & _ & _ & _ & _ & ? & _). }
  apply frame_ok_none in Hf1. change (frame_ok p p1 None) in Hf1.
  destruct (Z.leb_spec (depth_batches (IQ.depth (intake p))) (depth_batches (IQ.depth (intake p1)))) as [Hle|Hlt].
  - apply returns_some. split; [done|]. split; [done|]. split; [|done]. right. by exists p, next.
  - eapply returns_weaken; [apply (IH p1); [done | lia]|]. intros [p2 f2] (Hp2 & Hf2 & Hr2 & Hg2). split; [done|].
    split; [by eapply frame_ok_trans|]. split; [done|]. intros v Hv. apply Hg2 in Hv as [Hv|Hv]; [by apply Hgen|].
    right. destruct Hf1 as (<- & _). done.
Qed.

Lemma present_drained_spec foreign p now resolve :
  pinv ∅ foreign p ->
  returns (present_drained iteration p now resolve) (fun '(p', frame) => pinv ∅ foreign p' /\
    frame_ok p p' None /\ rounds_done now resolve p' /\ forall v, frame = Some v -> v_generation v = generation p).
Proof.
  intros Hp. unfold present_drained. eapply returns_bind; [by apply present_spec|]. intros [p1 frame] [Hp1 Hf1].
  cbv zeta. pose proof (depth_nonneg _ _ _ Hp1) as Hnn. eapply returns_weaken; [apply (present_rounds_spec foreign); [done|]|].
  - pose proof (vo_qinv _ _ _ _ _ _ (pi_view _ _ _ Hp1)) as [Hb _]. pose proof (bi_bound _ Hb) as [H1 _].
    pose proof (bi_limits _ Hb) as [[_ H2] _]. change (depth_batches (IQ.depth (intake p1))) with (IQ.total_batches (intake p1)) in *.
    unfold saturating_add. lia.
  - intros [p2 f2] (Hp2 & Hf2 & Hr2 & Hg2). split; [done|]. split; [eapply frame_ok_trans; [by eapply frame_ok_none | done]|].
    split; [done|]. intros v Hv. apply Hg2 in Hv as [->|Hv].
    + by destruct Hf1 as (_ & _ & _ & _ & _ & _ & _ & ? & _).
    + rewrite Hv. by destruct Hf1 as (? & _).
Qed.
End Present.
