(* ===== verification/PipelineRegistry.v ===== *)
(** Registration of plugins against the pipeline's invariant: the five
    registries change together. *)

From S2P Require Import Prelude Text Generation Items View Debounce LegacyDispatch SchedulerTypes Scheduler.
From S2P Require Import SchedulerInv SchedulerQuery SchedulerTick SchedulerFacts SchedulerFlights Aggregator.
From S2P Require Import AggregatorFacts Intake IntakeInv IntakeDrain IntakeFacts Concurrency Supervisor Manifest.
From S2P Require Import Pipeline PipelineInv PipelineOps.

(** * Handles *)

Lemma budget_owner_None p h : budget_owner p h = None -> forall x, budgets p !! x <> Some h.
Proof.
  unfold budget_owner. intros Ho x Hx.
  assert (Hin : (x, h) ∈ List.filter (fun kv => Nat.eqb kv.2 h) (map_to_list (budgets p))).
  { apply list_elem_of_In, filter_In. split; [|apply Nat.eqb_refl]. apply list_elem_of_In. by apply elem_of_map_to_list. }
  destruct (List.filter _ _); [by apply elem_of_nil in Hin | done].
Qed.

Lemma budget_owner_Some p h x : budget_owner p h = Some x -> budgets p !! x = Some h.
Proof.
  unfold budget_owner. destruct (List.filter _ _) as [|[y h'] l] eqn:E; [done|]. intros [= <-].
  assert (Hin : In (y, h') ((y, h') :: l)) by (by left). rewrite <- E in Hin. apply filter_In in Hin as [Hin Heq].
  apply Nat.eqb_eq in Heq. cbn in Heq. subst. apply elem_of_map_to_list. by apply list_elem_of_In.
Qed.

(** Memory only grows: a new budget disturbs nothing. *)
Lemma allocate_spec gap foreign p b :
  pinv gap foreign p -> budget_ok b (fun _ => 0) ->
  let p' := (allocate p b).1 in
  let h := (allocate p b).2 in
  pinv gap foreign p' /\ store p !! h = None /\ store p' !! h = Some b /\ budget_owner p' h = None /\
  p' = p <| store := <[h := b]> (store p) |>.
Proof.
  intros Hp Hb. cbv zeta. unfold allocate. cbn [fst snd]. set (h := fresh (dom (store p))).
  assert (Hh : store p !! h = None) by (apply not_elem_of_dom; apply is_fresh). clearbody h.
  pose proof Hp as [Hs Hl Hsl Hst Hrep Hv He Hu]. destruct Hsl as [Hval Hinj Hfor Hsto Hgu Hac].
  assert (Hsome : forall h', is_Some (store p !! h') -> is_Some (<[h := b]> (store p) !! h')).
  { intros h' Hh'. rewrite lookup_insert. case_decide; eauto. }
  assert (Hne : forall g, is_Some (store p !! guard_budget g) -> guard_budget g <> h).
  { intros g [b0 Hb0] E. congruence. }
  split; [|split; [done|]; split; [apply lookup_insert_eq|]; split; [|done]].
  - split; try done; cbn.
    + split; try done; [eauto | eapply Forall_impl; [exact Hfor|]; cbn; auto |].
      intros h' b'. rewrite lookup_insert. case_decide as E; [intros [= <-]; subst h' | by apply Hsto].
      eapply budget_ok_ext; [|exact Hb]. intros k. symmetry. unfold occupancy.
      assert (Hz : forall g, is_Some (store p !! guard_budget g) -> holds h k g = 0).
      { intros g Hg. unfold holds. rewrite decide_False; [done|]. intros ->. by apply (Hne _ Hg). }
      assert (map_sum (holds h k) (admitted p) = 0) as ->.
      { transitivity (map_sum (fun _ => 0) (admitted p)).
        - apply map_sum_ext. intros key g Hg. apply Hz. destruct (Hgu key g Hg) as (_ & _ & Hbud). eauto.
        - generalize (admitted p). intros m. induction m as [|? ? m Hm IH] using map_ind; [by rewrite map_sum_empty|].
          by rewrite map_sum_insert_None, IH. }
      clear -Hfor Hz. unfold foreign_held. induction Hfor as [|g l Hg _ IH]; [done|]. cbn. rewrite (Hz g Hg). cbn in IH. lia.
    + destruct Hrep as [R1 R2]. split; [done|]. intros x sy h' b' k n Hx Hx'. rewrite lookup_insert.
      case_decide as E; [|by apply (R2 x)]. subst h'. destruct (Hval x h Hx'). congruence.
  - destruct (budget_owner _ h) as [x|] eqn:E; [|done]. apply budget_owner_Some in E. cbn in E.
    destruct (Hval x h E). congruence.
Qed.

(** * The components' registries *)

Lemma invalidate_frame s x reason now b :
  let s' := (invalidate_plugin s x reason now b).1 in
  plugin_order s' = plugin_order s /\ generations s' = generations s /\ is_shutdown s' = is_shutdown s.
Proof.
  cbv zeta. destruct (plugins s !! x) as [st|] eqn:E; [|by rewrite invalidate_plugin_None].
  by destruct (invalidate_plugin_Some s x reason now b st E).
Qed.

Lemma set_policy_frame lower s x pol now :
  let s' := Scheduler.set_policy lower s x pol now in
  plugin_order s' = plugin_order s /\ generations s' = generations s /\ is_shutdown s' = is_shutdown s.
Proof.
  cbv zeta. unfold Scheduler.set_policy, observe_now. destruct (plugins _ !! x); [|done].
  match goal with |- context [invalidate_plugin ?s1 _ ?r ?n1 _] =>
    pose proof (invalidate_frame s1 x r n1 true) as H; destruct (invalidate_plugin s1 x r n1 true) end.
  exact H.
Qed.

Lemma register_ok lower s x pol :
  sched_ok s -> x ∉ plugin_order s ->
  let s' := Scheduler.register_plugin lower s x pol in
  sched_ok s' /\ plugin_order s' = plugin_order s ++ [x] /\ generations s' = generations s /\
  forall q, flights s' q = flights s q.
Proof.
  intros [Hi Hs Hf] Hx. cbv zeta. assert (Hn : plugins s !! x = None).
  { destruct (plugins s !! x) eqn:E; [|done]. destruct Hx. apply (ci_order_dom _ (proj1 Hi)). eauto. }
  assert (Hk : plugin_order (Scheduler.register_plugin lower s x pol) = plugin_order s ++ [x] /\
    generations (Scheduler.register_plugin lower s x pol) = generations s /\
    is_shutdown (Scheduler.register_plugin lower s x pol) = is_shutdown s).
  { unfold Scheduler.register_plugin. by rewrite Hn. }
  destruct Hk as (H1 & H2 & H3). split; [|split; [done|]; split; [done|]; intros q; by apply register_flights].
  split; [by apply register_inv | congruence | by apply register_flights_inv].
Qed.

Lemma unregister_ok s x :
  sched_ok s ->
  let s' := (Scheduler.unregister_plugin s x).1 in
  sched_ok s' /\ (forall y, y ∈ plugin_order s' <-> y ∈ plugin_order s /\ y <> x) /\ generations s' = generations s /\
  forall q, flights s' q = if decide (q = x) then [] else flights s q.
Proof.
  intros [Hi Hs Hf]. cbv zeta.
  assert (Hk : generations (Scheduler.unregister_plugin s x).1 = generations s /\
    is_shutdown (Scheduler.unregister_plugin s x).1 = is_shutdown s /\
    forall y, plugins (Scheduler.unregister_plugin s x).1 !! y = if decide (y = x) then None else plugins s !! y).
  { unfold Scheduler.unregister_plugin. destruct (plugins s !! x) eqn:E; cbn [fst]; (split; [done|]; split; [done|]); intros y.
    - cbn. rewrite lookup_delete. repeat case_decide; congruence.
    - case_decide; congruence. }
  destruct Hk as (H1 & H2 & H3). pose proof (unregister_keeps s x Hi) as Hi'.
  split; [split; [done | congruence | by apply unregister_flights_inv]|]. split; [|split; [done | apply unregister_flights]].
  intros y. rewrite (ci_order_dom _ (proj1 Hi')), (ci_order_dom _ (proj1 Hi)), H3.
  case_decide; [|naive_solver]. split; [by intros []|]. naive_solver.
Qed.

Lemma intake_register_ok q x pol :
  qinv q -> x ∉ IQ.order q ->
  let q' := IQ.register q x pol in
  qinv q' /\ IQ.order q' = IQ.order q ++ [x] /\ IQ.active q' = IQ.active q /\
  IQ.retirement_floor q' = IQ.retirement_floor q.
Proof.
  intros Hq Hx. cbv zeta. split; [by apply register_qinv|]. unfold IQ.register.
  destruct (IQ.plugins q !! x) eqn:E; [|done]. destruct Hx. apply (bi_dom _ (proj1 Hq)). eauto.
Qed.

Lemma intake_unregister_ok q x :
  qinv q ->
  let q' := (IQ.unregister q x).1 in
  qinv q' /\ (forall y, y ∈ IQ.order q' <-> y ∈ IQ.order q /\ y <> x) /\ IQ.active q' = IQ.active q /\
  IQ.retirement_floor q' = IQ.retirement_floor q.
Proof.
  intros Hq. cbv zeta. pose proof (unregister_qinv q x Hq) as Hq'.
  assert (Hk : IQ.active (IQ.unregister q x).1 = IQ.active q /\
    IQ.retirement_floor (IQ.unregister q x).1 = IQ.retirement_floor q /\
    forall y, IQ.plugins (IQ.unregister q x).1 !! y = if decide (y = x) then None else IQ.plugins q !! y).
  { unfold IQ.unregister. destruct (IQ.plugins q !! x) as [pq|] eqn:E.
    - cbn [IQ.order update]. destruct (IQ.index_of x _); [|by split_and!; try done; intros y; cbn; rewrite lookup_delete; repeat case_decide; congruence].
      repeat case_match; (split; [done|]; split; [done|]; intros y; cbn; rewrite lookup_delete; repeat case_decide; congruence).
    - split; [done|]. split; [done|]. intros y. cbn [fst]. case_decide; [by subst | done]. }
  destruct Hk as (H1 & H2 & H3). split; [done|]. split; [|done]. intros y.
  rewrite (bi_dom _ (proj1 Hq')), (bi_dom _ (proj1 Hq)), H3. case_decide; [|naive_solver]. split; [by intros []|]. naive_solver.
Qed.

Lemma supervisor_register_ok s x :
  MS.plugins s !! x = None ->
  returns (expect_ok (MS.register s x)) (fun s' => MS.plugins s' = <[x := default_record]> (MS.plugins s)).
Proof. intros Hn. unfold MS.register. rewrite Hn. by apply returns_some. Qed.

Lemma view_intake g visible s q q' a rs :
  view_ok g visible s q a rs -> qinv q' -> IQ.active q' = IQ.active q ->
  IQ.retirement_floor q' = IQ.retirement_floor q -> view_ok g visible s q' a rs.
Proof. intros [] Hq Ha Hf. split; try done; by rewrite ?Ha, ?Hf. Qed.

Lemma view_scheduler g visible s s' q a rs :
  view_ok g visible s q a rs -> generations s' = generations s -> view_ok g visible s' q a rs.
Proof. intros [] Hg. split; try done. unfold current_generation. by rewrite Hg. Qed.

(** * Registering *)

Lemma lockstep_add reg hs sup bud sched boundary x sy r h :
  lockstep reg hs sup bud sched boundary -> x ∉ reg ->
  lockstep (reg ++ [x]) (<[x := sy]> hs) (<[x := r]> sup) (<[x := h]> bud) (sched ++ [x]) (boundary ++ [x]).
Proof.
  intros [Hnd H1 H2 H3 H4 H5] Hx.
  assert (Hins : forall {V} (m : gmap PluginId V) v, (forall y, y ∈ reg <-> is_Some (m !! y)) ->
    forall y, y ∈ reg ++ [x] <-> is_Some (<[x := v]> m !! y)).
  { intros V m v Hm y. rewrite elem_of_app, list_elem_of_singleton, Hm, lookup_insert.
    case_decide; [subst; split; eauto | naive_solver]. }
  split; auto.
  - apply NoDup_app. split; [done|]. split; [|apply NoDup_singleton]. by intros y Hy ->%list_elem_of_singleton.
  - intros y. by rewrite !elem_of_app, H4.
  - intros y. by rewrite !elem_of_app, H5.
Qed.

Section Registration.
Context (to_lowercase : text -> text).
Context (iteration : list (PluginId * Generation) -> list (PluginId * Generation)).
Hypothesis iteration_perm : forall l, iteration l ≡ₚ l.

Lemma not_registered gap foreign p x :
  pinv gap foreign p -> is_some (health_sync p !! x) = false ->
  (x ∉ registered p) /\ health_sync p !! x = None /\ MS.plugins (supervisor p) !! x = None /\
  budgets p !! x = None /\ (x ∉ plugin_order (scheduler p)) /\ (x ∉ IQ.order (intake p)).
Proof.
  intros Hp Hx. assert (Hn : health_sync p !! x = None) by (by destruct (health_sync p !! x)).
  destruct (pi_lock _ _ _ Hp) as [_ H1 H2 H3 H4 H5].
  assert (Hr : x ∉ registered p) by (rewrite H1, Hn; by intros []).
  split; [done|]. split; [done|]. rewrite <- H4, <- H5.
  split; [apply eq_None_not_Some; by rewrite <- H2|]. split; [apply eq_None_not_Some; by rewrite <- H3|]. done.
Qed.

(** The registries after a registration. *)
Lemma registered_pinv gap foreign p x h s s' q' pol ip :
  pinv gap foreign p -> is_some (health_sync p !! x) = false -> is_Some (store p !! h) ->
  (forall y, budgets p !! y <> Some h) ->
  MS.plugins s = <[x := default_record]> (MS.plugins (supervisor p)) ->
  s' = Scheduler.register_plugin to_lowercase (scheduler p) x pol -> q' = IQ.register (intake p) x ip ->
  pinv gap foreign (p <| supervisor := s |> <| scheduler := s' |> <| intake := q' |> <| health_sync ::= insert x default_health_sync |>
    <| budgets ::= insert x h |> <| registered ::= fun l => l ++ [x] |>).
Proof.
  intros Hp Hx Hh Hfree Hs Es' Eq'. destruct (not_registered gap foreign p x Hp Hx) as (Hr & H1 & H2 & H3 & H4 & H5).
  destruct Hp as [Hsok Hl Hsl Hst Hrep Hv He Hu].
  destruct (register_ok to_lowercase (scheduler p) x pol Hsok H4) as (S1 & S2 & S3 & S4).
  destruct (intake_register_ok (intake p) x ip (vo_qinv _ _ _ _ _ _ Hv) H5) as (Q1 & Q2 & Q3 & Q4).
  rewrite <- Es' in S1, S2, S3, S4. rewrite <- Eq' in Q1, Q2, Q3, Q4. clear Es' Eq'. split; cbn; try done.
  - rewrite S2, Q2, Hs. by apply lockstep_add.
  - destruct Hsl as [Hval Hinj Hfor Hsto Hgu Hac]. split; try done.
    + intros y h'. rewrite lookup_insert. case_decide; [intros [= <-]; done | by apply Hval].
    + intros y z h'. rewrite !lookup_insert. repeat case_decide; intros; simplify_eq; try done;
        [by destruct (Hfree z) | by destruct (Hfree y) | by eapply Hinj].
    + intros key g Hg. destruct (Hgu key g Hg) as (? & ? & Hb). split; [done|]. split; [done|].
      rewrite lookup_insert_ne; [done|]. intros Ek. rewrite <- Ek in Hb. congruence.
  - destruct Hst as [T1 T2]. split; [|done]. intros y g. by rewrite S4.
  - destruct Hrep as [R1 R2]. rewrite Hs. split.
    + intros y sy r. rewrite !lookup_insert. case_decide; [|by apply R1]. by intros [= <-] [= <-].
    + intros y sy h' b k n. rewrite !lookup_insert. case_decide; [|by apply R2]. intros [= <-] [= <-] Hb Hn.
      destruct (sl_store _ _ _ _ _ Hsl _ _ Hb k) as (_ & n' & _ & _ & _ & _ & Hn' & [? ?]). simplify_eq.
      by destruct k.
  - eapply view_scheduler; [|exact S3]. by eapply view_intake.
  - intros key Hk. apply elem_of_app. left. by apply Hu.
Qed.

(** What a registration answers. *)
Definition registration (p : QueryPipeline) (x : PluginId) (p' : QueryPipeline) (ok : bool) : Prop :=
  rows p' = rows p /\ generation p' = generation p /\ active_requests p' = active_requests p /\
  aggregator p' = aggregator p /\
  if ok then (x ∉ registered p) /\ registered p' = registered p ++ [x] else registered p' = registered p.

Lemma register_with_budget_spec gap foreign p x pol ip h :
  pinv gap foreign p -> is_Some (store p !! h) ->
  returns (register_plugin_with_budget to_lowercase p x pol ip h) (fun '(p', r) => pinv gap foreign p' /\
    registration p x p' (is_ok r) /\ store p' = store p /\
    (is_ok r = true <-> (x ∉ registered p) /\ forall y, budgets p !! y <> Some h)).
Proof.
  intros Hp Hh. unfold register_plugin_with_budget.
  assert (Href : forall e, (~ ((x ∉ registered p) /\ forall y, budgets p !! y <> Some h)) ->
    returns (Some (p, Err e : result unit PipelineError)) (fun '(p', r) => pinv gap foreign p' /\
    registration p x p' (is_ok r) /\ store p' = store p /\
    (is_ok r = true <-> (x ∉ registered p) /\ forall y, budgets p !! y <> Some h))).
  { intros e He. apply returns_some. split; [done|]. split; [done|]. split; [done|]. split; [done|]. intros. by destruct He. }
  destruct (is_some (health_sync p !! x)) eqn:Hx.
  { apply Href. intros [Hn _]. apply Hn, (ls_health _ _ _ _ _ _ (pi_lock _ _ _ Hp)).
    destruct (health_sync p !! x); [eauto | done]. }
  destruct (budget_owner p h) as [owner|] eqn:Ho.
  { apply Href. intros [_ Hn]. apply budget_owner_Some in Ho. by apply (Hn owner). }
  destruct (not_registered gap foreign p x Hp Hx) as (Hr & H1 & H2 & H3 & H4 & H5).
  unfold supervise. eapply returns_bind with (Q := fun p1 => exists s, p1 = p <| supervisor := s |> /\
    MS.plugins s = <[x := default_record]> (MS.plugins (supervisor p))).
  { eapply returns_bind; [by apply supervisor_register_ok|]. intros s Hs. apply returns_some. eauto. }
  intros p1 (s & -> & Hs). apply returns_some.
  pose proof (budget_owner_None p h Ho) as Hfree. split; [|split; [|split; [done|]]].
  - exact (registered_pinv gap foreign p x h s _ _ _ ip Hp Hx Hh Hfree Hs eq_refl eq_refl).
  - by repeat split.
  - split; [by split | done].
Qed.

Lemma registration_allocated p x p1 p' ok h b :
  p1 = p <| store := <[h := b]> (store p) |> -> registration p1 x p' ok -> registration p x p' ok.
Proof. by intros ->. Qed.

(** A section in range stays in range when the suggestion limit is capped. *)
Lemma resolved_in_range pol c :
  section_in_range c -> 0 <= max_concurrent_requests pol -> section_in_range (resolved_section pol c).
Proof.
  intros Hc Hm k. unfold resolved_section.
  assert (Hcap : in_range u32_max (if max_concurrent_requests pol <=? u32_max then max_concurrent_requests pol else u32_max)).
  { unfold in_range. destruct (Z.leb_spec (max_concurrent_requests pol) u32_max); [lia|]. split; [done | lia]. }
  destruct k; [|exact (Hc ActionKind) | exact (Hc Background) | exact (Hc CatalogKind)].
  cbn. pose proof (Hc Suggestion) as Hs. cbn in Hs. destruct (max_suggestion_requests c); cbn in *; [|done].
  unfold in_range in *. lia.
Qed.

Lemma effective_policy_range p x pol :
  0 <= max_concurrent_requests pol -> 0 <= max_concurrent_requests (effective_policy p x pol).
Proof.
  intros H. unfold effective_policy. destruct (profile_overrides p !! x) as [profile|]; [|done].
  case_decide; [done|]. by destruct profile.
Qed.

Lemma register_with_concurrency_spec gap foreign p x pol ip c :
  pinv gap foreign p -> section_in_range c -> 0 <= max_concurrent_requests pol ->
  returns (register_plugin_with_concurrency to_lowercase p x pol ip c) (fun '(p', r) => pinv gap foreign p' /\
    registration p x p' (is_ok r) /\ (is_ok r = true <-> x ∉ registered p)).
Proof.
  intros Hp Hc Hm. unfold register_plugin_with_concurrency. destruct (is_some (health_sync p !! x)) eqn:Hx.
  { apply returns_some. split; [done|]. split; [done|]. split; [done|]. intros Hn. exfalso.
    apply Hn, (ls_health _ _ _ _ _ _ (pi_lock _ _ _ Hp)). destruct (health_sync p !! x); [eauto | done]. }
  cbv zeta. unfold resolved_budget_for_policy.
  destruct (allocate_spec gap foreign p (from_section (resolved_section (effective_policy p x pol) c)) Hp)
    as (Hp1 & _ & Hb & Ho & E1).
  { by apply from_section_ok, resolved_in_range, effective_policy_range. }
  destruct (allocate p _) as [p1 h]. cbn [fst snd] in *.
  eapply returns_weaken; [apply (register_with_budget_spec gap foreign p1); [done | eauto]|].
  intros [p' r] (Hp' & Hreg & _ & Hok). split; [done|]. split; [by eapply registration_allocated|].
  rewrite Hok. destruct (not_registered gap foreign p x Hp Hx) as (Hr & _). rewrite E1. cbn.
  split; [by intros [? _] | intros _]. split; [done|].
  intros y Hy. apply (budget_owner_None p1 h Ho y). by rewrite E1.
Qed.

Lemma limits_pinv gap foreign p f :
  pinv gap foreign p -> (forall a, agg_inv a -> agg_inv (f a) /\ MA.active (f a) = MA.active a /\
    MA.retirement_floor (f a) = MA.retirement_floor a /\ MA.pending_ui_update (f a) = MA.pending_ui_update a /\
    MA.items (f a) = MA.items a) ->
  pinv gap foreign (p <| aggregator ::= f |>).
Proof.
  intros [Hs Hl Hsl Hst Hrep Hv He Hu] Hf. split; try done. cbn.
  destruct Hv as [Hg Hq Ha Hfl Hac Hvis Hrows]. destruct (Hf _ Ha) as (F1 & F2 & F3 & F4 & F5).
  split; try done; by rewrite ?F2, ?F3, ?F4, ?F5.
Qed.

Section Manifests.
Context (compile : text -> result (text -> bool) text) (never : text -> bool).

(** The limits a manifest declares fit their types. *)
Definition manifest_in_range (m : PluginModel.Manifest) : Prop :=
  section_in_range (PluginModel.concurrency m) /\
  0 <= max_concurrent_requests (plugin_policy_from_manifest compile never m).

Lemma set_manifest_limits_pinv gap foreign p x m :
  pinv gap foreign p -> pinv gap foreign (set_manifest_limits p x m).
Proof.
  intros Hp. apply (limits_pinv gap foreign p _ Hp). intros a Ha.
  split; [apply (agg_step_inv a (AggSetLimits _ _ _) Ha) | done].
Qed.

Lemma register_namespaced_budget_spec gap foreign p x m h :
  pinv gap foreign p -> is_Some (store p !! h) ->
  returns (register_namespaced_manifest_with_budget to_lowercase compile never p x m h)
    (fun '(p', r) => pinv gap foreign p').
Proof.
  intros Hp Hh. unfold register_namespaced_manifest_with_budget.
  destruct (is_some _); [by apply returns_some|]. destruct (ensure_supported_runtime _); [|by apply returns_some].
  cbv zeta. eapply returns_bind; [by apply (register_with_budget_spec gap foreign)|]. intros [p1 r] (Hp1 & _).
  destruct r; apply returns_some; [by apply set_manifest_limits_pinv | done].
Qed.

Lemma register_namespaced_spec gap foreign p x m :
  pinv gap foreign p -> manifest_in_range m ->
  returns (register_namespaced_manifest to_lowercase compile never p x m) (fun '(p', r) => pinv gap foreign p').
Proof.
  intros Hp [Hc Hm]. unfold register_namespaced_manifest.
  destruct (is_some _); [by apply returns_some|]. destruct (ensure_supported_runtime _); [|by apply returns_some].
  cbv zeta. unfold resolved_budget_for_policy.
  destruct (allocate_spec gap foreign p (from_section (resolved_section
    (effective_policy p x (plugin_policy_from_manifest compile never m)) (PluginModel.concurrency m))) Hp)
    as (Hp1 & _ & Hb & _ & E1).
  { by apply from_section_ok, resolved_in_range, effective_policy_range. }
  destruct (allocate p _) as [p1 h]. cbn [fst snd] in *.
  eapply returns_bind; [apply (register_with_budget_spec gap foreign p1); [done | eauto]|].
  intros [p2 r] (Hp2 & _). destruct r; apply returns_some; [by apply set_manifest_limits_pinv | done].
Qed.
End Manifests.

Lemma set_profile_spec gap foreign p x profile :
  pinv gap foreign p -> pinv gap foreign (set_scheduling_profile to_lowercase p x profile).1.
Proof.
  intros Hp. unfold set_scheduling_profile. destruct (Scheduler.plugin_policy (scheduler p) x) as [current|]; [|done].
  cbn [fst]. set (pol := profile_policy profile <| activation := activation current |>). clearbody pol.
  destruct (pi_sched _ _ _ Hp) as [Hi Hs Hf]. destruct (set_policy_flights to_lowercase (scheduler p) x pol 0) as [H1 H2].
  destruct (set_policy_frame to_lowercase (scheduler p) x pol 0) as (Ho & Hg & Hsh).
  assert (Hok : sched_ok (Scheduler.set_policy to_lowercase (scheduler p) x pol 0)).
  { split; [by apply set_policy_keeps | congruence | auto]. }
  pose proof (pinv_scheduler gap foreign p _ Hp Hok (conj Ho Hg) H1) as []. by split.
Qed.
End Registration.

(** * Unregistering *)

Section Unregistration.
Context (iteration : list (PluginId * Generation) -> list (PluginId * Generation)).
Hypothesis iteration_perm : forall l, iteration l ≡ₚ l.

(** The requests of other plugins. *)
Definition without (act : gset (PluginId * Generation)) (x : PluginId) : gset (PluginId * Generation) :=
  filter (fun key => key.1 <> x) act.

Lemma remove_admitted_spec bud act foreign hs sup p key :
  slots bud (store p) (admitted p) act foreign -> reported hs sup bud (store p) ->
  returns (remove_admitted p key) (fun p' => exists mem, p' = p <| admitted ::= delete key |> <| store := mem |> /\
    slots bud mem (delete key (admitted p)) (act ∖ {[key]}) foreign /\ reported hs sup bud mem).
Proof.
  intros Hs Hr. pose proof (remove_request_spec bud _ _ act foreign hs sup key Hs Hr) as H.
  unfold remove_admitted, release. destruct (admitted p !! key) as [g|] eqn:E.
  - destruct H as (b & b' & H1 & H2 & H3 & H4). cbn [store update]. rewrite H1. cbn [mbind option_bind]. rewrite H2.
    cbn [mbind option_bind]. apply returns_some. by eexists.
  - apply returns_some. exists (store p). rewrite delete_id by done. rewrite difference_absent by done.
    split; [|done]. unfold update. cbn. rewrite delete_id by done. by destruct p.
Qed.

Lemma drop_admitted_spec gap foreign p x :
  pinv gap foreign p ->
  returns (drop_admitted iteration p x) (fun p' => exists adm mem, p' = p <| admitted := adm |> <| store := mem |> /\
    slots (budgets p) mem adm (without (active_requests p) x) foreign /\
    reported (health_sync p) (MS.plugins (supervisor p)) (budgets p) mem).
Proof.
  intros Hp. unfold drop_admitted. set (keys := List.filter _ _).
  assert (Hkeys : forall key, key ∈ keys <-> key ∈ active_requests p /\ key.1 = x).
  { intros key. unfold keys. rewrite list_elem_of_In, filter_In, bool_decide_eq_true, <- list_elem_of_In, iteration_perm.
    rewrite list_elem_of_fmap. split.
    - intros [([key' g] & -> & Hin%elem_of_map_to_list) Hk]. split; [|done].
      by apply (sl_guards _ _ _ _ _ (pi_slots _ _ _ Hp)) in Hin as [? _].
    - intros [Ha Hk]. split; [|done]. destruct (sl_active _ _ _ _ _ (pi_slots _ _ _ Hp) key Ha) as [g Hg].
      exists (key, g). split; [done|]. by apply elem_of_map_to_list. }
  eapply returns_weaken.
  - apply (returns_foldl _ (fun l p' => exists adm mem, p' = p <| admitted := adm |> <| store := mem |> /\
      slots (budgets p) mem adm (active_requests p ∖ (list_to_set keys ∖ list_to_set l)) foreign /\
      reported (health_sync p) (MS.plugins (supervisor p)) (budgets p) mem /\ (list_to_set l : gset (PluginId * Generation)) ⊆ list_to_set keys /\ NoDup l)).
    + exists (admitted p), (store p). split; [by destruct p|]. split.
      * replace (active_requests p ∖ (list_to_set keys ∖ list_to_set keys)) with (active_requests p) by set_solver. apply Hp.
      * split; [apply Hp|]. split; [done|]. apply NoDup_list_filter. rewrite iteration_perm. apply NoDup_fst_map_to_list.
    + intros key l p1 (adm & mem & -> & Hsl & Hrep & Hsub & [Hn Hnd]%NoDup_cons). cbn [mbind option_bind].
      eapply returns_weaken; [eapply (remove_admitted_spec (budgets p) _ foreign _ _ (p <| admitted := adm |> <| store := mem |>) key);
        [exact Hsl | exact Hrep]|].
      intros p2 (mem' & -> & Hsl' & Hrep'). exists (delete key adm), mem'. split; [done|]. split; [|split; [done|split; [set_solver | done]]].
      cbn in Hsl'.
      replace (active_requests p ∖ (list_to_set keys ∖ list_to_set l))
        with (active_requests p ∖ (list_to_set keys ∖ list_to_set (key :: l)) ∖ {[key]}); [done|].
      apply set_eq. intros k. cbn in Hsub |- *. rewrite !elem_of_difference, !elem_of_union, !elem_of_singleton, !elem_of_list_to_set.
      assert (key ∈ keys) by (apply (elem_of_list_to_set (C := gset (PluginId * Generation))), Hsub; set_solver).
      destruct (decide (k ∈ l)), (decide (k = key)) as [->|?]; tauto.
  - intros p' (adm & mem & -> & Hsl & Hrep & _). exists adm, mem. split; [done|]. split; [|done].
    replace (without (active_requests p) x) with (active_requests p ∖ (list_to_set keys ∖ list_to_set [])); [done|].
    apply set_eq. intros key. unfold without. rewrite elem_of_filter, !elem_of_difference, elem_of_list_to_set, Hkeys.
    cbn. destruct (decide (key.1 = x)); set_solver.
Qed.

Lemma lockstep_remove reg hs sup bud sched boundary x sched' boundary' :
  lockstep reg hs sup bud sched boundary ->
  (forall y, y ∈ sched' <-> y ∈ sched /\ y <> x) -> (forall y, y ∈ boundary' <-> y ∈ boundary /\ y <> x) ->
  lockstep (filter (fun r => r <> x) reg) (delete x hs) (delete x sup) (delete x bud) sched' boundary'.
Proof.
  intros [Hnd H1 H2 H3 H4 H5] Hs Hb.
  assert (Hdel : forall {V} (m : gmap PluginId V), (forall y, y ∈ reg <-> is_Some (m !! y)) ->
    forall y, y ∈ filter (fun r => r <> x) reg <-> is_Some (delete x m !! y)).
  { intros V m Hm y. rewrite list_elem_of_filter, Hm, lookup_delete.
    case_decide; [subst; split; [tauto | by intros []] | naive_solver]. }
  split; auto.
  - by apply NoDup_filter.
  - intros y. rewrite list_elem_of_filter, Hs, H4. tauto.
  - intros y. rewrite list_elem_of_filter, Hb, H5. tauto.
Qed.

Lemma slots_remove bud mem adm act foreign x :
  slots bud mem adm (without act x) foreign -> slots (delete x bud) mem adm (without act x) foreign.
Proof.
  intros [Hval Hinj Hfor Hsto Hgu Hac]. split; try done.
  - intros y h. rewrite lookup_delete. case_decide; [done | by apply Hval].
  - intros y z h. rewrite !lookup_delete. repeat case_decide; try done. by apply Hinj.
  - intros key g Hg. destruct (Hgu key g Hg) as (Ha & ? & ?). split; [done|]. split; [done|].
    apply elem_of_filter in Ha as [Hne _]. by rewrite lookup_delete_ne by done.
Qed.

(** The registries after an unregistration. *)
Lemma unregistered_pinv foreign p x adm mem :
  pinv ∅ foreign p -> slots (budgets p) mem adm (without (active_requests p) x) foreign ->
  reported (health_sync p) (MS.plugins (supervisor p)) (budgets p) mem ->
  pinv ∅ foreign (p <| admitted := adm |> <| store := mem |>
    <| active_requests ::= filter (fun key => key.1 <> x) |>
    <| unresolved_cancellations ::= filter (fun kv => kv.1.1 <> x) |>
    <| pending_completions ::= filter (fun kv => kv.1.1 <> x) |>
    <| pending_cancellations ::= filter (fun c => cancelled_plugin c <> x) |>
    <| pending_errors ::= List.filter (error_survives x) |>
    <| scheduler ::= fun s => (Scheduler.unregister_plugin s x).1 |>
    <| intake ::= fun q => (IQ.unregister q x).1 |>
    <| supervisor ::= fun s => (MS.unregister s x).1 |>
    <| aggregator ::= fun a => MA.remove_plugin_limits a x |>
    <| health_sync ::= delete x |> <| budgets ::= delete x |> <| registered ::= filter (fun r => r <> x) |>).
Proof.
  intros [Hsok Hl _ Hst _ Hv He Hu] Hsl Hrep.
  destruct (unregister_ok (scheduler p) x Hsok) as (S1 & S2 & S3 & S4).
  destruct (intake_unregister_ok (intake p) x (vo_qinv _ _ _ _ _ _ Hv)) as (Q1 & Q2 & Q3 & Q4).
  set (s' := (Scheduler.unregister_plugin (scheduler p) x).1) in *. set (q' := (IQ.unregister (intake p) x).1) in *.
  split.
  - exact S1.
  - apply (lockstep_remove _ _ _ _ _ _ x (plugin_order s') (IQ.order q') Hl S2 Q2).
  - by apply slots_remove.
  - destruct Hst as [T1 T2]. split; [|set_solver]. intros y g.
    change (g ∈ flights s' y <-> (y, g) ∈ filter (fun key => key.1 <> x) (active_requests p) \/ (y, g) ∈ (∅ : gset (PluginId * Generation))).
    rewrite S4, elem_of_filter. cbn [fst]. case_decide; [subst; split; [by intros ?%elem_of_nil | set_solver] | rewrite T1; set_solver].
  - destruct Hrep as [R1 R2]. split; cbn.
    + intros y sy r. rewrite !lookup_delete. case_decide; [done | by apply R1].
    + intros y sy h b k n. rewrite !lookup_delete. case_decide; [done | by apply R2].
  - apply (view_scheduler _ _ (scheduler p) s'); [|exact S3]. apply (view_intake _ _ _ (intake p) q'); [|done..].
    destruct Hv as [? ? Ha ? ? ? ?]. split; try done. apply (agg_step_inv _ (AggRemoveLimits x) Ha).
  - cbn. destruct He as [He1 He2]. split; [done|]. pose proof (len_list_filter (error_survives x) (pending_errors p)). lia.
  - cbn. intros key [u Hk]. apply map_lookup_filter_Some in Hk as [Hk Hne]. apply list_elem_of_filter. split; [done|].
    apply Hu. eauto.
Qed.

Lemma unregister_plugin_spec foreign p x :
  pinv ∅ foreign p ->
  returns (unregister_plugin iteration p x) (fun '(p', r) => pinv ∅ foreign p' /\ r = bool_decide (x ∈ registered p) /\
    rows p' = rows p /\ generation p' = generation p /\ (x ∉ registered p') /\
    (forall y, y <> x -> (y ∈ registered p' <-> y ∈ registered p)) /\
    (forall key, key ∈ active_requests p' <-> key ∈ active_requests p /\ key.1 <> x)).
Proof.
  intros Hp. unfold unregister_plugin.
  assert (Hreg : is_some (health_sync p !! x) = bool_decide (x ∈ registered p)).
  { apply eq_iff_eq_true. rewrite bool_decide_eq_true, (ls_health _ _ _ _ _ _ (pi_lock _ _ _ Hp)).
    destruct (health_sync p !! x); cbn; split; [eauto | done | done | by intros [? ?]]. }
  rewrite Hreg. clear Hreg. case_bool_decide as Hx; cbn [negb].
  2: { apply returns_some. split; [done|]. split; [done|]. split; [done|]. split; [done|]. split; [done|]. split; [done|].
       intros key. split; [|tauto]. intros Ha. split; [done|]. intros <-. by apply Hx, (active_registered ∅ foreign p). }
  eapply returns_bind; [by apply (drop_admitted_spec ∅ foreign)|]. intros p1 (adm & mem & -> & Hsl & Hrep).
  apply returns_some. split; [exact (unregistered_pinv foreign p x adm mem Hp Hsl Hrep)|].
  split; [done|]. split; [done|]. split; [done|]. split; [|split].
  - cbn. rewrite list_elem_of_filter. tauto.
  - intros y Hne. cbn. rewrite list_elem_of_filter. tauto.
  - intros key. cbn. rewrite elem_of_filter. tauto.
Qed.
End Unregistration.

(** * Other dispatch sites *)

Lemma foreign_acquire_spec gap foreign p h k :
  pinv gap foreign p ->
  returns (foreign_acquire p h k) (fun '(p', granted) =>
    pinv gap (if granted : bool then mkGuard h k :: foreign else foreign) p' /\
    exists mem, p' = p <| store := mem |>).
Proof.
  intros Hp. unfold foreign_acquire. destruct (store p !! h) as [b|] eqn:Hb.
  2: { apply returns_some. split; [done|]. exists (store p). by destruct p. }
  destruct Hp as [Hs Hl Hsl Hst Hrep Hv He Hu]. pose proof Hsl as [Hval Hinj Hfor Hsto Hgu Hac].
  destruct (try_acquire_spec b _ k (Hsto h b Hb)) as ([b' granted] & -> & Ha). cbn [mbind option_bind].
  apply returns_some. split; [|by eexists].
  assert (Hsome : forall h', is_Some (store p !! h') -> is_Some (<[h := b']> (store p) !! h')).
  { intros h' Hh. rewrite lookup_insert. case_decide; eauto. }
  assert (Hfor' : Forall (fun g => is_Some (<[h := b']> (store p) !! guard_budget g))
    (if granted then mkGuard h k :: foreign else foreign)).
  { assert (Forall (fun g => is_Some (<[h := b']> (store p) !! guard_budget g)) foreign).
    { eapply Forall_impl; [exact Hfor|]. auto. }
    destruct granted; [|done]. constructor; [|done]. cbn. rewrite lookup_insert_eq. eauto. }
  split; try done; cbn.
  - split; try done; [eauto|]. intros h' b0. rewrite lookup_insert. pose proof (aq_ok _ _ _ _ _ Ha) as Hok.
    assert (Hocc : forall k', occupancy (admitted p) (if granted then mkGuard h k :: foreign else foreign) h' k'
      = occupancy (admitted p) foreign h' k' + (if granted then holds h' k' (mkGuard h k) else 0) * 1).
    { intros k'. unfold occupancy, foreign_held. destruct granted; cbn; lia. }
    case_decide as E.
    + intros [= <-]. subst h'. eapply budget_ok_ext; [|exact Hok]. intros k'. rewrite Hocc. destruct granted; [|lia].
      rewrite holds_bump. cbn. by rewrite decide_True by done.
    + intros Hb0. eapply budget_ok_ext; [|by apply Hsto]. intros k'. rewrite Hocc. destruct granted; [|lia].
      rewrite holds_bump. cbn. by rewrite decide_False by done.
  - destruct Hrep as [R1 R2]. split; [done|]. intros x sy h' b0 k' n Hx Hh'. rewrite lookup_insert.
    case_decide as E; [|by apply (R2 x)]. intros [= <-] Hn. subst h'.
    rewrite (aq_refusals _ _ _ _ _ Ha) in Hn. destruct (Hsto h b Hb k') as (_ & r & _ & _ & _ & _ & Hr & [? ?]).
    rewrite Hr in Hn. pose proof (R2 x sy h b k' r Hx Hh' Hb Hr).
    destruct granted; [simplify_eq; lia|]. case_decide; cbn in Hn; simplify_eq; unfold saturating_add; lia.
Qed.

Lemma foreign_held_delete l i g h k :
  l !! i = Some g -> foreign_held (delete i l) h k = foreign_held l h k + holds h k g * -1.
Proof.
  intros Hi. rewrite (foreign_held_perm l (g :: delete i l) h k); [unfold foreign_held; cbn; lia|]. by apply delete_Permutation.
Qed.

Lemma foreign_release_spec gap foreign p i g :
  pinv gap foreign p -> foreign !! i = Some g ->
  returns (foreign_release p g) (fun p' => pinv gap (delete i foreign) p' /\ exists mem, p' = p <| store := mem |>).
Proof.
  intros [Hs Hl Hsl Hst Hrep Hv He Hu] Hi. unfold foreign_release, release.
  pose proof (sl_foreign _ _ _ _ _ Hsl) as Hfor. rewrite Forall_forall in Hfor.
  destruct (Hfor g) as [b Hb]; [by eapply list_elem_of_lookup_2|]. rewrite Hb. cbn [mbind option_bind].
  assert (Hocc : forall h k, occupancy (admitted p) (delete i foreign) h k
    = occupancy (admitted p) foreign h k + holds h k g * -1).
  { intros h k. unfold occupancy. rewrite (foreign_held_delete _ _ _ _ _ Hi). lia. }
  destruct (drop_guard_spec b (occupancy (admitted p) foreign (guard_budget g)) (guard_kind g)) as (b' & -> & _ & Href & Hok).
  - by apply (sl_store _ _ _ _ _ Hsl).
  - pose proof (Hocc (guard_budget g) (guard_kind g)) as H. unfold holds in H. rewrite decide_True in H by (by destruct g).
    assert (0 <= occupancy (admitted p) (delete i foreign) (guard_budget g) (guard_kind g)); [|lia].
    unfold occupancy. pose proof (map_sum_nonneg (holds (guard_budget g) (guard_kind g)) (admitted p) (holds_nonneg _ _)).
    pose proof (foreign_held_nonneg (delete i foreign) (guard_budget g) (guard_kind g)). lia.
  - cbn [mbind option_bind]. apply returns_some. split; [|by eexists]. split; try done; cbn.
    + eapply released_slots; [exact Hsl | exact Hb | exact Hocc | exact Hok | | |].
      * apply Forall_forall. intros x Hx. apply list_elem_of_In in Hx.
        assert (Hsub : delete i foreign ⊆ foreign) by (apply sublist_subseteq, sublist_delete). apply Hsub. by apply list_elem_of_In.
      * intros key g0 Hg. split; [by apply (sl_guards _ _ _ _ _ Hsl key g0) | done].
      * apply (sl_active _ _ _ _ _ Hsl).
    + eapply reported_store; [done | done | done|]. intros k n' Hn'. rewrite Href in Hn'. exists n'. split; [done | lia].
Qed.
