(* ===== verification/PipelineFacts.v ===== *)
(** Properties of the application's query pipeline, over every sequence of
    calls of the host and accesses of the other dispatch sites. *)

From S2P Require Import Prelude Text Generation Items View Debounce LegacyDispatch SchedulerTypes Scheduler.
From S2P Require Import SchedulerInv SchedulerQuery SchedulerTick SchedulerFacts SchedulerFlights Aggregator.
From S2P Require Import AggregatorFacts Intake IntakeInv IntakeDrain IntakeFacts Concurrency Supervisor Manifest.
From S2P Require Import Pipeline PipelineInv PipelineOps PipelineSteps PipelineView PipelineRegistry.

(** * Executions *)

Abbreviation Iteration := (list (PluginId * Generation) -> list (PluginId * Generation)) (only parsing).

(** A call of the host, or an access of another dispatch site. *)
Inductive HostCall : Type :=
| DoOverride (x : PluginId) (profile : SchedulingProfile)
| DoSetProfile (x : PluginId) (profile : SchedulingProfile)
| DoAllocate (c : ConcurrencySection)
| DoRegister (x : PluginId) (pol : PluginPolicy) (ip : IntakePolicy) (c : ConcurrencySection)
| DoRegisterBudget (x : PluginId) (pol : PluginPolicy) (ip : IntakePolicy) (h : nat)
| DoRegisterManifest (x : PluginId) (m : PluginModel.Manifest)
| DoRegisterManifestBudget (x : PluginId) (m : PluginModel.Manifest) (h : nat)
| DoUnregister (x : PluginId)
| DoKeystroke (t : text) (now : Millis)
| DoTick (now : Millis)
| DoDeliver (b : ResultBatch) (pr : BatchPriority) (now : Millis)
| DoComplete (x : PluginId) (g : Generation) (now : Millis)
| DoAbort (x : PluginId) (g : Generation) (now : Millis)
| DoPresent (now : Millis) (resolve : nat -> string -> string -> option IconImage)
| DoPresentDrained (now : Millis) (resolve : nat -> string -> string -> option IconImage)
| DoTakeEvents
| DoTakeErrors
| DoIcons
| DoHealth (x : PluginId)
| DoHealthReport
| DoForeignAcquire (h : nat) (k : BudgetKind)
| DoForeignRelease (i : nat).

(** The pipeline and the guards that other dispatch sites hold. *)
Definition PipelineWorld : Type := QueryPipeline * list OwnedBudgetGuard.

Definition begin_world (c : PipelineConfig) : PipelineWorld := (new_pipeline c, []).

Definition is_keystroke (a : HostCall) : bool := match a with DoKeystroke _ _ => true | _ => false end.

Section Executions.
Context (to_lowercase : text -> text) (compile : text -> result (text -> bool) text) (never : text -> bool).

(** One call; [it] is the order in which the hash maps happen to be iterated.
    A handle that points nowhere cannot be passed, nor a guard be dropped twice:
    such actions do nothing. *)
Definition perform (w : PipelineWorld) (it : Iteration) (a : HostCall) : option PipelineWorld :=
  let (p, foreign) := w in
  match a with
  | DoOverride x profile => Some (override_scheduling_profile p x profile, foreign)
  | DoSetProfile x profile => Some ((set_scheduling_profile to_lowercase p x profile).1, foreign)
  | DoAllocate c => Some ((allocate p (from_section c)).1, foreign)
  | DoRegister x pol ip c =>
      '(p, _) ← register_plugin_with_concurrency to_lowercase p x pol ip c; Some (p, foreign)
  | DoRegisterBudget x pol ip h =>
      if is_some (store p !! h) then
        '(p, _) ← register_plugin_with_budget to_lowercase p x pol ip h; Some (p, foreign)
      else Some w
  | DoRegisterManifest x m =>
      '(p, _) ← register_namespaced_manifest to_lowercase compile never p x m; Some (p, foreign)
  | DoRegisterManifestBudget x m h =>
      if is_some (store p !! h) then
        '(p, _) ← register_namespaced_manifest_with_budget to_lowercase compile never p x m h; Some (p, foreign)
      else Some w
  | DoUnregister x => '(p, _) ← unregister_plugin it p x; Some (p, foreign)
  | DoKeystroke t now => '(p, _) ← keystroke to_lowercase it p t now; Some (p, foreign)
  | DoTick now => '(p, _) ← tick it p now; Some (p, foreign)
  | DoDeliver b pr now => '(p, _) ← deliver_with_priority p b pr now; Some (p, foreign)
  | DoComplete x g now => '(p, _) ← complete p x g now; Some (p, foreign)
  | DoAbort x g now => '(p, _) ← abort_request p x g now; Some (p, foreign)
  | DoPresent now resolve => '(p, _) ← present it p now resolve; Some (p, foreign)
  | DoPresentDrained now resolve => '(p, _) ← present_drained it p now resolve; Some (p, foreign)
  | DoTakeEvents => Some ((take_intake_events p).1, foreign)
  | DoTakeErrors => Some ((take_errors p).1, foreign)
  | DoIcons => Some (set_plugin_icons p, foreign)
  | DoHealth x => '(p, _) ← health_report p x; Some (p, foreign)
  | DoHealthReport => '(p, _) ← plugin_health_report p; Some (p, foreign)
  | DoForeignAcquire h k =>
      '(p, granted) ← foreign_acquire p h k; Some (p, if granted : bool then mkGuard h k :: foreign else foreign)
  | DoForeignRelease i =>
      match foreign !! i with
      | None => Some w
      | Some g => p ← foreign_release p g; Some (p, delete i foreign)
      end
  end.

(** Numbers that the types of the arguments guarantee, and an iteration order
    that yields every key once. *)
Definition action_ok (it : Iteration) (a : HostCall) : Prop :=
  (forall l, it l ≡ₚ l) /\
  match a with
  | DoAllocate c => section_in_range c
  | DoRegister _ pol _ c => section_in_range c /\ 0 <= max_concurrent_requests pol
  | DoRegisterManifest _ m => manifest_in_range compile never m
  | _ => True
  end.

Definition config_ok (c : PipelineConfig) : Prop :=
  request_queue_capacity (c_scheduler c) <= usize_max /\ limits_in_range (c_intake_limits c) /\ limits_wf (c_limits c).

Fixpoint perform_all (w : PipelineWorld) (l : list (Iteration * HostCall)) : option PipelineWorld :=
  match l with
  | [] => Some w
  | (it, a) :: l' => w ← perform w it a; perform_all w l'
  end.

Lemma new_pipeline_inv c : config_ok c -> pinv ∅ [] (new_pipeline c).
Proof.
  intros (H1 & H2 & H3). unfold limits_in_range, in_range in H2.
  assert (Hdom : forall {V} (x : PluginId), x ∈ @nil PluginId <-> is_Some ((∅ : gmap PluginId V) !! x)).
  { intros V x. rewrite lookup_empty. split; [by intros ?%elem_of_nil | by intros []]. }
  split; cbn; try done.
  - split; [by apply new_inv | done | apply map_Forall_empty].
  - split; try done; [constructor | apply Hdom..].
  - split; [|set_solver]. intros x g. unfold flights. cbn. rewrite lookup_empty. cbn. set_solver.
  - split; try done; [|by apply new_agg_inv | by right]. apply new_qinv. unfold limits_in_range, in_range. cbn. pose proof usize_max_pos. lia.
  - unfold len. cbn. lia.
  - intros key. rewrite lookup_empty. by intros [].
Qed.

(** Every call returns and keeps the invariant; only a keystroke needs room in
    the generation counter. *)
Lemma perform_spec p foreign it a :
  pinv ∅ foreign p -> action_ok it a -> (is_keystroke a = true -> generation p < u64_max) ->
  returns (perform (p, foreign) it a) (fun w => pinv ∅ w.2 w.1).
Proof.
  intros Hp [Hit Hok] Hkey.
  assert (Hret : forall {B} (o : option (QueryPipeline * B)), returns o (fun '(p', _) => pinv ∅ foreign p') ->
    returns ('(p, _) ← o; Some (p, foreign)) (fun w => pinv ∅ w.2 w.1)).
  { intros B o Ho. eapply returns_bind; [exact Ho|]. intros [p' b] H. by apply returns_some. }
  assert (Hw : forall {B} (o : option (QueryPipeline * B)) (Q : QueryPipeline * B -> Prop),
    returns o Q -> (forall x, Q x -> pinv ∅ foreign x.1) -> returns o (fun '(p', _) => pinv ∅ foreign p')).
  { intros B o Q Ho HQ. eapply returns_weaken; [exact Ho|]. intros [p' b] H. exact (HQ _ H). }
  destruct a; cbn [perform].
  - apply returns_some. cbn. destruct Hp. by split.
  - apply returns_some. cbn [fst snd]. by apply set_profile_spec.
  - apply returns_some. cbn [fst snd]. apply (allocate_spec ∅ foreign p (from_section c) Hp). by apply from_section_ok.
  - destruct Hok. apply Hret. eapply Hw; [by apply register_with_concurrency_spec|]. by intros [p' r] (? & _).
  - destruct (store p !! h) eqn:Hh; cbn [is_some is_some_and map_or]; [|by apply returns_some].
    apply Hret. eapply Hw; [by apply (register_with_budget_spec to_lowercase ∅ foreign)|]. by intros [p' r] (? & _).
  - apply Hret. eapply Hw; [by apply (register_namespaced_spec to_lowercase compile never ∅ foreign)|]. by intros [p' r] ?.
  - destruct (store p !! h) eqn:Hh; cbn [is_some is_some_and map_or]; [|by apply returns_some].
    apply Hret. eapply Hw; [by apply (register_namespaced_budget_spec to_lowercase compile never ∅ foreign)|]. by intros [p' r] ?.
  - apply Hret. eapply Hw; [by apply (unregister_plugin_spec it Hit foreign)|]. by intros [p' r] (? & _).
  - apply Hret. eapply Hw; [by apply (keystroke_spec to_lowercase it Hit foreign); auto|]. by intros [p' r] (? & _).
  - apply Hret. eapply Hw; [by apply (pipeline_tick_spec it Hit foreign)|]. by intros [p' r] (? & _).
  - apply Hret. eapply Hw; [by apply (deliver_spec ∅ foreign)|]. by intros [p' r] (? & _).
  - apply Hret. eapply Hw; [by apply (pipeline_complete_spec foreign)|]. by intros [p' r] (? & _).
  - apply Hret. eapply Hw; [by apply (abort_request_spec foreign)|]. by intros [p' r] (? & _).
  - apply Hret. eapply Hw; [by apply (present_spec it Hit foreign)|]. by intros [p' r] (? & _).
  - apply Hret. eapply Hw; [by apply (present_drained_spec it Hit foreign)|]. by intros [p' r] (? & _).
  - apply returns_some. cbn. apply (submit_pinv ∅ foreign p); [done | apply take_events_qinv, Hp | by repeat split].
  - apply returns_some. cbn. by apply no_errors_pinv.
  - apply returns_some. cbn. destruct Hp. by split.
  - apply Hret. unfold health_report. eapply returns_bind; [by apply (sync_concurrency_spec ∅ foreign)|].
    intros p' (? & _). by apply returns_some.
  - apply Hret. eapply Hw; [by apply (health_reports_spec ∅ foreign)|]. by intros [p' r] (? & _).
  - eapply returns_bind; [by apply (foreign_acquire_spec ∅ foreign)|]. intros [p' granted] [Hp' _]. by apply returns_some.
  - destruct (foreign !! i) as [g|] eqn:Hi; [|by apply returns_some].
    eapply returns_bind; [by apply (foreign_release_spec ∅ foreign)|]. intros p' [Hp' _]. by apply returns_some.
Qed.

Lemma perform_some p foreign it a w :
  pinv ∅ foreign p -> action_ok it a -> perform (p, foreign) it a = Some w -> pinv ∅ w.2 w.1.
Proof.
  intros Hp Hok E. destruct (decide (is_keystroke a = true /\ u64_max <= generation p)) as [[Hk Hg]|Hn].
  - exfalso. destruct a; try done. cbn [perform] in E. unfold keystroke in E.
    destruct (Scheduler.submit_query to_lowercase (scheduler p) t now) as [[s g]|] eqn:Es; [|done].
    apply submit_Some in Es. rewrite (vo_generation _ _ _ _ _ _ (pi_view _ _ _ Hp)) in Hg. lia.
  - apply (returns_value (perform (p, foreign) it a) (fun w => pinv ∅ w.2 w.1) w); [|exact E].
    apply perform_spec; [done | done|]. intros Hk. apply Z.nle_gt. intros Hg. apply Hn. by split.
Qed.

Lemma perform_all_inv c l w :
  config_ok c -> Forall (fun ia => action_ok ia.1 ia.2) l -> perform_all (begin_world c) l = Some w -> pinv ∅ w.2 w.1.
Proof.
  intros Hc. assert (H : pinv ∅ (begin_world c).2 (begin_world c).1) by (by apply new_pipeline_inv).
  revert H. generalize (begin_world c). induction l as [|[it a] l IH]; intros w0 H Hl E.
  - cbn in E. by simplify_eq.
  - apply Forall_cons in Hl as [Ha Hl]. cbn [perform_all] in E. destruct w0 as [p foreign].
    destruct (perform (p, foreign) it a) as [w1|] eqn:E1; [|done]. cbn [mbind option_bind] in E.
    eapply IH; [|exact Hl | exact E]. by eapply perform_some.
Qed.

(** * What the pipeline promises *)

Section Promises.
Context (c : PipelineConfig) (l : list (Iteration * HostCall)) (w : PipelineWorld).
Hypothesis c_ok : config_ok c.
Hypothesis l_ok : Forall (fun ia => action_ok ia.1 ia.2) l.
Hypothesis reached : perform_all (begin_world c) l = Some w.

Let reached_inv : pinv ∅ w.2 w.1 := perform_all_inv c l w c_ok l_ok reached.

(** C17: after every sequence of calls, every further call returns: none of the
    pipeline's own [expect]s, nor any index or arithmetic of its components, can
    fail, whichever order the hash maps are iterated in and whatever other
    dispatch sites do with the shared budgets.  The exception is a keystroke
    when the generation counter is used up, which panics. *)
Theorem pipeline_never_panics it a :
  action_ok it a ->
  if is_keystroke a && (u64_max <=? generation w.1) then perform w it a = None
  else is_Some (perform w it a).
Proof.
  intros Ha. destruct w as [p foreign]. cbn [fst snd] in *.
  destruct (is_keystroke a) eqn:Hk, (Z.leb_spec u64_max (generation p)) as [Hg|Hg]; cbn [andb].
  - destruct a; try done. cbn [perform]. unfold keystroke.
    destruct (Scheduler.submit_query to_lowercase (scheduler p) t now) as [[s g]|] eqn:Es; [|done].
    apply submit_Some in Es. rewrite (vo_generation _ _ _ _ _ _ (pi_view _ _ _ reached_inv)) in Hg. lia.
  - destruct (perform_spec p foreign it a reached_inv Ha) as (w' & -> & _); [done | eauto].
  - destruct (perform_spec p foreign it a reached_inv Ha) as (w' & -> & _); [congruence | eauto].
  - destruct (perform_spec p foreign it a reached_inv Ha) as (w' & -> & _); [congruence | eauto].
Qed.

(** C2: one suggestion slot per running request.  At every moment the requests
    that the pipeline counts as active are the ones the scheduler has in flight,
    each of them holds one guard on the budget of its own plugin, and the
    occupancy of every budget and kind is the number of guards alive, the
    pipeline's and those of other dispatch sites, which is within the limit. *)
Theorem slots_match_scheduler :
  (forall x g, (x, g) ∈ active_requests w.1 <-> g ∈ flights (scheduler w.1) x) /\
  (forall key, key ∈ active_requests w.1 <-> exists h, budgets w.1 !! key.1 = Some h /\
     admitted w.1 !! key = Some (mkGuard h Suggestion)) /\
  (forall h b k, store w.1 !! h = Some b -> exists m, limit b k = Some m /\
     in_flight b k = Some (occupancy (admitted w.1) w.2 h k) /\ occupancy (admitted w.1) w.2 h k <= m).
Proof.
  destruct reached_inv as [_ _ Hsl [Hst _] _ _ _ _]. split; [|split].
  - intros x g. rewrite Hst. set_solver.
  - intros key. split.
    + intros Ha. destruct (sl_active _ _ _ _ _ Hsl key Ha) as [[h k] Hg].
      destruct (sl_guards _ _ _ _ _ Hsl key _ Hg) as (_ & Hk & Hb). cbn in Hk, Hb. subst k. by exists h.
    + intros (h & _ & Hg). by apply (sl_guards _ _ _ _ _ Hsl) in Hg as [? _].
  - intros h b k Hb. destruct (sl_store _ _ _ _ _ Hsl h b Hb k) as (m & r & Hm & _ & Hf & [_ ?] & _). by exists m.
Qed.

(** The registries agree.  A plugin is registered with the pipeline exactly
    when the scheduler, the intake boundary, the supervisor, the health records
    and the budgets know it, and no two plugins share a budget. *)
Theorem registries_agree x :
  (x ∈ registered w.1 <-> is_Some (Scheduler.plugin_policy (scheduler w.1) x)) /\
  (x ∈ registered w.1 <-> is_Some (IQ.producer_state (intake w.1) x)) /\
  (x ∈ registered w.1 <-> MS.contains (supervisor w.1) x = true) /\
  (x ∈ registered w.1 <-> is_Some (health_sync w.1 !! x)) /\
  (x ∈ registered w.1 <-> is_Some (budgets w.1 !! x)) /\
  (forall y h, budgets w.1 !! x = Some h -> budgets w.1 !! y = Some h -> x = y).
Proof.
  destruct reached_inv as [Hs [_ H1 H2 H3 H4 H5] Hsl _ _ Hv _ _].
  unfold Scheduler.plugin_policy, IQ.producer_state, MS.contains. rewrite !fmap_is_Some.
  split; [by rewrite H4, (ci_order_dom _ (proj1 (so_inv _ Hs)))|].
  split; [by rewrite H5, (bi_dom _ (proj1 (vo_qinv _ _ _ _ _ _ Hv)))|].
  split; [by rewrite is_some_true, H2|]. split; [apply H1|]. split; [apply H3|]. intros y h. apply (sl_inj _ _ _ _ _ Hsl).
Qed.

(** A keystroke starts from a clean slate.  The new generation is the next
    one, the rows of the previous query are gone from the screen and from the
    aggregator, and no batch of an older query waits at the boundary. *)
Theorem keystroke_clears it t now :
  (forall k, it k ≡ₚ k) -> generation w.1 < u64_max ->
  exists p', keystroke to_lowercase it w.1 t now = Some (p', generation w.1 + 1) /\
    generation p' = generation w.1 + 1 /\ query p' = t /\ visible_generation p' = Some (generation p') /\
    rows p' = [] /\ MA.items (aggregator p') = [] /\ depth_batches (IQ.depth (intake p')) = 0 /\
    registered p' = registered w.1.
Proof.
  intros Hit Hg. destruct (keystroke_spec to_lowercase it Hit w.2 w.1 t now reached_inv Hg)
    as ([p' g] & E & _ & -> & H1 & H2 & H3 & H4 & H5 & H6 & H7).
  exists p'. rewrite H1. split_and!; done.
Qed.

(** C9: results of requests that are not running never get in.  A delivery is
    admitted to the boundary only if its request is active and of the current
    generation, and then it is the last batch its plugin has waiting; otherwise
    every queue keeps its batches.  A batch of a registered plugin whose request
    is not active is refused as stale.  The screen and the aggregator are
    untouched. *)
Theorem late_results_refused b pr now :
  exists p' r, deliver_with_priority w.1 b pr now = Some (p', r) /\ delivered w.1 b pr now p' r.
Proof.
  destruct (deliver_spec ∅ w.2 w.1 b pr now reached_inv) as ([p' r] & E & _ & H). by exists p', r.
Qed.

(** A tick dispatches exactly the requests that get a slot.  Of what the
    scheduler dispatches, the tick hands out those whose plugin has a free
    suggestion slot, in order; each of them is active afterwards, and the others
    are withdrawn, so that nothing else became active. *)
Theorem tick_dispatches_hold_slots it now :
  (forall k, it k ≡ₚ k) ->
  exists p' t, tick it w.1 now = Some (p', t) /\ ticked it w.1 now p' t.
Proof.
  intros Hit. destruct (pipeline_tick_spec it Hit w.2 w.1 now reached_inv) as ([p' t] & E & _ & H). by exists p', t.
Qed.

(** C13: what is presented is the aggregator's list.  A frame belongs to the
    current generation and query, and its rows, icons apart, are the items
    retained for that generation, in order (provided that a frame may carry an
    update at all); before the first keystroke there is no frame. *)
Theorem presented_rows_exact it now resolve :
  (forall k, it k ≡ₚ k) ->
  exists p' frame, present it w.1 now resolve = Some (p', frame) /\
    generation p' = generation w.1 /\
    forall v, frame = Some v ->
      visible_generation w.1 = Some (generation w.1) /\ MA.active (aggregator p') = Some (v_generation v) /\
      v_generation v = generation w.1 /\ v_query v = query w.1 /\
      (1 <= max_ui_updates_per_frame (MA.limits (aggregator w.1)) -> shows (MA.items (aggregator p')) (v_rows v)).
Proof.
  intros Hit. destruct (present_spec it Hit w.2 w.1 now resolve reached_inv) as ([p' frame] & E & Hp' & Hf).
  exists p', frame. split; [done|]. destruct Hf as (H1 & H2 & H3 & _ & _ & _ & Hf). split; [done|]. intros v ->.
  destruct Hf as (F1 & F2 & F3 & F4). split; [done|]. split; [|done].
  pose proof (vo_active _ _ _ _ _ _ (pi_view _ _ _ Hp')) as [_ ->]. congruence.
Qed.

(** Every refusal is reported once.  Reading a registered plugin's health
    returns, for each kind, exactly the number of refusals its budget has
    counted, whoever was refused and however often health was read before. *)
Theorem refusals_reported_exactly x :
  x ∈ registered w.1 ->
  exists p' health h b, health_report w.1 x = Some (p', health) /\ budgets w.1 !! x = Some h /\
    store w.1 !! h = Some b /\ store p' = store w.1 /\
    forall k, refusals b k = Some (Refusals.of_kind (concurrency_refusals health) k).
Proof.
  intros Hx. destruct (registered_lookup ∅ w.2 w.1 x reached_inv Hx) as (sy & r & h & b & st & _ & _ & Hh & Hb & _).
  destruct (sync_concurrency_spec ∅ w.2 w.1 x reached_inv) as (p' & E & _ & (sup & hs & Eq) & Href).
  exists p', (MS.health_of (supervisor p') x), h, b. unfold health_report. rewrite E.
  split; [done|]. split; [done|]. split; [done|]. split; [by rewrite Eq|]. exact (Href h b Hh Hb).
Qed.

(** [present_drained] ends because there is nothing left to do: when it
    returns, the boundary is empty or its last round made no progress; the bound
    on its rounds is never what stops it. *)
Theorem present_drained_ends it now resolve :
  (forall k, it k ≡ₚ k) ->
  exists p' frame, present_drained it w.1 now resolve = Some (p', frame) /\ rounds_done it now resolve p' /\
    generation p' = generation w.1 /\ forall v, frame = Some v -> v_generation v = generation w.1.
Proof.
  intros Hit. destruct (present_drained_spec it Hit w.2 w.1 now resolve reached_inv)
    as ([p' frame] & E & _ & (Hg & _) & Hr & Hv). by exists p', frame.
Qed.

(** Aborting a request leaves no trace of it: no slot, no pending
    completion, no unresolved cancellation, and nothing of it in the scheduler;
    other requests, the boundary and the screen are untouched, and the answer is
    [false] only if there was nothing to abort. *)
Theorem abort_leaves_no_trace x g now :
  exists p' r, abort_request w.1 x g now = Some (p', r) /\
    forgotten p' (x, g) /\ (g ∉ flights (scheduler p') x) /\
    (forall key, key <> (x, g) -> (key ∈ active_requests p' <-> key ∈ active_requests w.1)) /\
    intake p' = intake w.1 /\ aggregator p' = aggregator w.1 /\ rows p' = rows w.1 /\ (r = false -> p' = w.1).
Proof.
  destruct (abort_request_spec w.2 w.1 x g now reached_inv) as ([p' r] & E & Hp' & Hs & Hi & Ha & Hoth & Hf & Hr).
  exists p', r. split; [done|]. split; [done|]. split.
  { rewrite (is_flights _ _ _ (pi_step _ _ _ Hp')). destruct Hf as (Hn & _). set_solver. }
  split; [done|]. split; [done|]. split; [done|]. split; [apply Hs | done].
Qed.

(** Registering and unregistering are exact.  A plugin is accepted with a
    budget exactly when it is not registered yet and no other plugin owns the
    budget; unregistering answers whether it was registered, takes its requests
    and their slots away and leaves every other plugin's. *)
Theorem registration_exact it x pol ip h :
  (forall k, it k ≡ₚ k) -> is_Some (store w.1 !! h) ->
  (exists p' r, register_plugin_with_budget to_lowercase w.1 x pol ip h = Some (p', r) /\
     registration w.1 x p' (is_ok r) /\
     (is_ok r = true <-> (x ∉ registered w.1) /\ forall y, budgets w.1 !! y <> Some h)) /\
  (exists p', unregister_plugin it w.1 x = Some (p', bool_decide (x ∈ registered w.1)) /\
     (x ∉ registered p') /\ (forall y, y <> x -> (y ∈ registered p' <-> y ∈ registered w.1)) /\
     (forall key, key ∈ active_requests p' <-> key ∈ active_requests w.1 /\ key.1 <> x) /\
     (forall key, is_Some (admitted p' !! key) <-> key ∈ active_requests p')).
Proof.
  intros Hit Hh. split.
  - destruct (register_with_budget_spec to_lowercase ∅ w.2 w.1 x pol ip h reached_inv Hh)
      as ([p' r] & E & _ & H1 & _ & H2). by exists p', r.
  - destruct (unregister_plugin_spec it Hit w.2 w.1 x reached_inv) as ([p' r] & E & Hp' & -> & _ & _ & H1 & H2 & H3).
    exists p'. split; [done|]. split; [done|]. split; [done|]. split; [done|]. intros key. split.
    + intros [g Hg]. by apply (sl_guards _ _ _ _ _ (pi_slots _ _ _ Hp')) in Hg as [? _].
    + apply (sl_active _ _ _ _ _ (pi_slots _ _ _ Hp')).
Qed.
End Promises.
End Executions.

(** * A concrete session *)

(** Two plugins with one suggestion slot each; another site takes the slot of
    the second, a query is typed, the first plugin is dispatched and answers. *)
Definition demo_lower (t : text) : text := map ascii_lower t.
Definition demo_compile (t : text) : result (text -> bool) text := Ok (fun _ => true).
Definition demo_never (t : text) : bool := false.
Definition demo_order (l : list (PluginId * Generation)) : list (PluginId * Generation) := l.
Definition demo_resolve (n : nat) (plugin reference : string) : option IconImage := None.
Definition demo_section : ConcurrencySection := mkSection (Some 1) None None None.

Definition demo_item : Item :=
  {| stable_id := "readme"; plugin_id := "files"; category := File; item_label := "README";
     item_description := ""; item_target := "/readme"; search_terms := []; icon_reference := None;
     argument_policy := ArgForbidden; hit_policy := HitRecorded; score_hint := 0; metadata := []; actions := [] |}.

Definition demo_batch : ResultBatch := mkResultBatch 1 "files" Partial [demo_item].

Definition demo_calls : list (Iteration * HostCall) :=
  map (pair demo_order)
    [DoRegister "files" legacy_strict (c_default_intake_policy default_pipeline_config) demo_section;
     DoRegister "web" legacy_strict (c_default_intake_policy default_pipeline_config) demo_section;
     DoForeignAcquire 1 Suggestion; DoKeystroke [97; 98] 0; DoTick 5; DoDeliver demo_batch High 6].

Definition demo : PipelineWorld :=
  default (begin_world default_pipeline_config)
    (perform_all demo_lower demo_compile demo_never (begin_world default_pipeline_config) demo_calls).

Lemma demo_order_ok l : demo_order l ≡ₚ l.
Proof. done. Qed.

Lemma demo_config_ok : config_ok default_pipeline_config.
Proof. unfold config_ok, limits_in_range, limits_wf, in_range. cbn. unfold usize_max, u64_max. lia. Qed.

Lemma demo_calls_ok : Forall (fun ia => action_ok demo_compile demo_never ia.1 ia.2) demo_calls.
Proof.
  assert (Hs : section_in_range demo_section) by (intros []; split; discriminate).
  repeat constructor; cbn; auto; try done; apply Hs.
Qed.

Lemma demo_runs :
  perform_all demo_lower demo_compile demo_never (begin_world default_pipeline_config) demo_calls = Some demo.
Proof. vm_compute. reflexivity. Qed.

Lemma pipeline_never_panics_witness :
  is_Some (perform demo_lower demo_compile demo_never demo demo_order (DoTick 9)).
Proof.
  exact (pipeline_never_panics demo_lower demo_compile demo_never _ _ demo demo_config_ok demo_calls_ok demo_runs
    demo_order (DoTick 9) (conj demo_order_ok I)).
Defined.

Lemma slots_match_scheduler_witness :
  (1 ∈ flights (scheduler demo.1) "files") /\ (1 ∉ flights (scheduler demo.1) "web") /\
  exists b, store demo.1 !! 1%nat = Some b /\ in_flight b Suggestion = Some 1.
Proof.
  destruct (slots_match_scheduler demo_lower demo_compile demo_never _ _ demo demo_config_ok demo_calls_ok demo_runs)
    as (H1 & _ & H3).
  split; [apply (H1 "files" 1); vm_compute; reflexivity|]. split.
  - intros Hf. apply H1 in Hf. revert Hf. vm_compute. intros Hf. discriminate Hf.
  - destruct (store demo.1 !! 1%nat) as [b|] eqn:E; [|vm_compute in E; discriminate E].
    exists b. split; [reflexivity|]. destruct (H3 _ b Suggestion E) as (m & _ & Hf & _). rewrite Hf. vm_compute. reflexivity.
Defined.

Lemma registries_agree_witness : is_Some (Scheduler.plugin_policy (scheduler demo.1) "web").
Proof.
  apply (registries_agree demo_lower demo_compile demo_never _ _ demo demo_config_ok demo_calls_ok demo_runs "web").
  apply (bool_decide_unpack ("web" ∈ registered demo.1)). vm_compute. exact I.
Defined.

Lemma keystroke_clears_witness :
  exists p', keystroke demo_lower demo_order demo.1 [97] 10 = Some (p', 2) /\ rows p' = [] /\
    depth_batches (IQ.depth (intake p')) = 0.
Proof.
  destruct (keystroke_clears demo_lower demo_compile demo_never _ _ demo demo_config_ok demo_calls_ok demo_runs
    demo_order [97] 10 demo_order_ok) as (p' & E & _ & _ & _ & H1 & _ & H2 & _); [vm_compute; reflexivity|].
  exists p'. split; [exact E | split; [exact H1 | exact H2]].
Defined.

Lemma late_results_refused_witness :
  exists p' r, deliver_with_priority demo.1 (mkResultBatch 1 "web" Partial []) High 7 = Some (p', r) /\
    delivered demo.1 (mkResultBatch 1 "web" Partial []) High 7 p' r.
Proof.
  exact (late_results_refused demo_lower demo_compile demo_never _ _ demo demo_config_ok demo_calls_ok demo_runs
    (mkResultBatch 1 "web" Partial []) High 7).
Defined.

Lemma tick_dispatches_hold_slots_witness :
  exists p' t, tick demo_order demo.1 9 = Some (p', t) /\ ticked demo_order demo.1 9 p' t.
Proof.
  exact (tick_dispatches_hold_slots demo_lower demo_compile demo_never _ _ demo demo_config_ok demo_calls_ok demo_runs
    demo_order 9 demo_order_ok).
Defined.

Lemma presented_rows_exact_witness :
  exists p' v, present demo_order demo.1 9 demo_resolve = Some (p', Some v) /\ shows [demo_item] (v_rows v).
Proof.
  destruct (presented_rows_exact demo_lower demo_compile demo_never _ _ demo demo_config_ok demo_calls_ok demo_runs
    demo_order 9 demo_resolve demo_order_ok) as (p' & frame & E & _ & H).
  destruct frame as [v|]; [|vm_compute in E; discriminate E].
  exists p', v. split; [exact E|]. destruct (H v eq_refl) as (_ & _ & _ & _ & Hs).
  assert (Hi : MA.items (aggregator p') = [demo_item]).
  { assert (Hv : (fun r => MA.items (aggregator r.1)) <$> present demo_order demo.1 9 demo_resolve = Some [demo_item])
      by (vm_compute; reflexivity).
    rewrite E in Hv. exact (f_equal (default []) Hv). }
  rewrite <- Hi. apply Hs. vm_compute. discriminate.
Defined.

Lemma refusals_reported_exactly_witness :
  exists p' health h b, health_report demo.1 "web" = Some (p', health) /\ budgets demo.1 !! "web" = Some h /\
    store demo.1 !! h = Some b /\ store p' = store demo.1 /\
    forall k, refusals b k = Some (Refusals.of_kind (concurrency_refusals health) k).
Proof.
  apply (refusals_reported_exactly demo_lower demo_compile demo_never _ _ demo demo_config_ok demo_calls_ok demo_runs "web").
  apply (bool_decide_unpack ("web" ∈ registered demo.1)). vm_compute. exact I.
Defined.

Lemma present_drained_ends_witness :
  exists p' frame, present_drained demo_order demo.1 9 demo_resolve = Some (p', frame) /\
    rounds_done demo_order 9 demo_resolve p' /\
    generation p' = generation demo.1 /\ forall v, frame = Some v -> v_generation v = generation demo.1.
Proof.
  exact (present_drained_ends demo_lower demo_compile demo_never _ _ demo demo_config_ok demo_calls_ok demo_runs
    demo_order 9 demo_resolve demo_order_ok).
Defined.

Lemma abort_leaves_no_trace_witness :
  exists p' r, abort_request demo.1 "files" 1 9 = Some (p', r) /\ forgotten p' ("files"%string, 1).
Proof.
  destruct (abort_leaves_no_trace demo_lower demo_compile demo_never _ _ demo demo_config_ok demo_calls_ok demo_runs
    "files" 1 9) as (p' & r & E & H & _).
  exists p', r. split; [exact E | exact H].
Defined.

Lemma registration_exact_witness :
  exists p' r, register_plugin_with_budget demo_lower demo.1 "mail" legacy_strict
      (c_default_intake_policy default_pipeline_config) 1 = Some (p', r) /\
    (is_ok r = true <-> ("mail"%string ∉ registered demo.1) /\ forall y, budgets demo.1 !! y <> Some 1%nat).
Proof.
  destruct (registration_exact demo_lower demo_compile demo_never _ _ demo demo_config_ok demo_calls_ok demo_runs
    demo_order "mail" legacy_strict (c_default_intake_policy default_pipeline_config) 1 demo_order_ok)
    as [(p' & r & E & _ & H) _]; [vm_compute; eexists; reflexivity|].
  exists p', r. split; [exact E | exact H].
Defined.
