(* ===== verification/PipelineGate.v ===== *)
(** Activation gates.  A manifest's policy has its own test of a query
    ([QueryPolicy::admits] of [crikey-plugin-model/src/scheduling.rs]); the
    pipeline hands the same policy to the scheduler, which normalises it and
    tests queries its own way ([gate_reason] of
    [crikey-input-scheduler/src/runtime.rs]).  For ASCII text the two agree. *)

From S2P Require Import Prelude Text Generation Items View Debounce LegacyDispatch SchedulerTypes Manifest ManifestFacts Pipeline.

(** * Case folding of ASCII text *)

Lemma ascii_lower_whitespace c : in_range 127 c -> is_whitespace (ascii_lower c) = is_whitespace c.
Proof.
  unfold in_range, ascii_lower. intros Hc. destruct ((65 <=? c) && (c <=? 90)) eqn:E; [|done]. reflect_bools.
  unfold is_whitespace. apply eq_iff_eq_true. rewrite !orb_true_iff, !andb_true_iff, !Z.leb_le, !Z.eqb_eq. lia.
Qed.

Lemma trim_start_lower t : is_ascii t -> trim_start (map ascii_lower t) = map ascii_lower (trim_start t).
Proof.
  induction 1 as [|c t Hc _ IH]; [done|]. cbn. rewrite ascii_lower_whitespace by done. by case_match.
Qed.

Lemma take_word_lower t : is_ascii t -> take_word (map ascii_lower t) = map ascii_lower (take_word t).
Proof.
  induction 1 as [|c t Hc _ IH]; [done|]. cbn. rewrite ascii_lower_whitespace by done. case_match; cbn; [done|].
  by rewrite IH.
Qed.

Lemma take_word_ascii t : is_ascii t -> is_ascii (take_word t).
Proof. induction 1 as [|c t Hc Ht IH]; [constructor|]. cbn. case_match; [constructor | by constructor]. Qed.

Lemma first_word_lower t :
  is_ascii t -> first_word (map ascii_lower t) = map ascii_lower <$> first_word t.
Proof.
  intros H. unfold first_word. rewrite trim_start_lower by done. pose proof (trim_start_ascii t H) as Ht.
  destruct (trim_start t) as [|c u]; [done|]. change (map ascii_lower (c :: u)) with (ascii_lower c :: map ascii_lower u).
  cbn [fmap option_fmap option_map]. f_equal. exact (take_word_lower (c :: u) Ht).
Qed.

Lemma starts_with_take t prefix :
  starts_with t prefix = bool_decide (length prefix <= length t /\ take (length prefix) t = prefix)%nat.
Proof.
  apply eq_iff_eq_true. rewrite starts_with_spec, bool_decide_eq_true. split.
  - intros [rest ->]. rewrite length_app, take_app_length. split; [lia | done].
  - intros [_ <-]. exists (drop (length prefix) t). by rewrite take_drop.
Qed.

(** The scheduler's prefix test on folded text is the manifest's. *)
Lemma starts_with_lower q prefix :
  is_ascii q -> is_ascii prefix ->
  starts_with (map ascii_lower q) (map ascii_lower prefix) = PluginModel.starts_with_ignore_ascii_case q prefix.
Proof.
  intros Hq Hp. unfold PluginModel.starts_with_ignore_ascii_case. rewrite !utf8_ascii by done.
  rewrite starts_with_take. rewrite !length_map. cbv zeta. destruct (Nat.leb_spec (length prefix) (length q)) as [Hle|Hlt].
  - unfold eq_ignore_ascii_case. apply bool_decide_ext. change (@map Z Z) with (@fmap list _ Z Z).
    rewrite <- fmap_take. tauto.
  - apply bool_decide_eq_false_2. lia.
Qed.

Lemma text_eqb_lower x y :
  is_ascii x -> is_ascii y -> text_eqb (map ascii_lower x) (map ascii_lower y) = eq_ignore_ascii_case (utf8 x) (utf8 y).
Proof. intros Hx Hy. by rewrite !utf8_ascii by done. Qed.

(** * Normalised terms *)

(** A declared term that normalisation only folds. *)
Definition tidy (t : text) : Prop := is_ascii t /\ trim t = t /\ t <> [].

Section Gate.
Context (to_lowercase : text -> text) (compile : text -> result (text -> bool) text) (never : text -> bool).
(** [str::to_lowercase] maps ASCII letters one by one. *)
Hypothesis lowercase_ascii : forall t, is_ascii t -> to_lowercase t = map ascii_lower t.

Lemma normalize_terms_tidy l : Forall tidy l -> normalize_terms to_lowercase l = map (map ascii_lower) l.
Proof.
  intros H. unfold normalize_terms. induction H as [|t l (Ha & Ht & Hne) _ IH]; [done|]. cbn. rewrite Ht.
  rewrite (lowercase_ascii t Ha). destruct t as [|c t]; [done|]. cbn. by rewrite IH.
Qed.

Lemma existsb_map_ext {A B} (h : A -> B) (f : B -> bool) (g : A -> bool) l :
  Forall (fun x => f (h x) = g x) l -> existsb f (map h l) = existsb g l.
Proof. induction 1 as [|x l Hx _ IH]; [done|]. cbn. by rewrite Hx, IH. Qed.

(** The plugin as the pipeline registers it from its manifest. *)
Definition registered_state (m : PluginModel.Manifest) : PluginState :=
  new_plugin_state (normalize_policy to_lowercase (plugin_policy_from_manifest compile never m)).

(** The three gates of a query that is not empty. *)
Lemma gates_agree q p k (pats : list ActivationPattern) :
  is_ascii q -> Forall tidy p -> Forall tidy k ->
  existsb (starts_with (map ascii_lower q)) (map (map ascii_lower) p)
    || is_some_and (first_word (map ascii_lower q)) (fun first => existsb (text_eqb first) (map (map ascii_lower) k))
    || existsb (fun pattern => is_match pattern (map ascii_lower q)) pats
  = existsb (PluginModel.starts_with_ignore_ascii_case q) p
    || is_some_and (first_word q) (fun first => existsb (fun k => eq_ignore_ascii_case (utf8 first) (utf8 k)) k)
    || existsb (fun pattern => is_match pattern (map ascii_lower q)) pats.
Proof.
  intros Hq Hp Hk. f_equal. f_equal.
  - apply existsb_map_ext. eapply Forall_impl; [exact Hp|]. intros t (Ht & _). by apply starts_with_lower.
  - rewrite first_word_lower by done. destruct (first_word q) as [f|] eqn:E; [|done]. cbn.
    assert (Hf : is_ascii f).
    { unfold first_word in E. pose proof (trim_start_ascii q Hq) as Ht. destruct (trim_start q) as [|c u]; [done|].
      injection E as <-. exact (take_word_ascii (c :: u) Ht). }
    apply existsb_map_ext. eapply Forall_impl; [exact Hk|]. intros t (Ht & _). by apply text_eqb_lower.
Qed.

(** What lets a query through, on either side. *)
Definition passes (empty_ok : bool) (n : text) (minimum : Z) (p k : list text) (pats : list ActivationPattern)
    (matches : bool) : Prop :=
  match n with
  | [] => empty_ok = true
  | _ => minimum <= len n /\ (p = [] /\ k = [] /\ pats = [] \/ matches = true)
  end.

Lemma passes_lower e q minimum p k pats b :
  passes e (map ascii_lower q) minimum (map (map ascii_lower) p) (map (map ascii_lower) k) pats b
  <-> passes e q minimum p k pats b.
Proof.
  unfold passes. destruct q as [|c q]; [done|]. change (map ascii_lower (c :: q)) with (ascii_lower c :: map ascii_lower q).
  rewrite !len_cons, len_map. destruct p, k; cbn; [done | | |]; (split; intros [? [(? & ? & ?)|?]]; (split; [done|]); first [done | by right]).
Qed.

Lemma gate_open st n :
  enabled st = true -> allows_host_gating (profile (policy st)) = true ->
  let a := activation (policy st) in
  gate_reason st n = None <->
  passes (supports_empty_query a) n (minimum_query_length (debounce (policy st))) (prefixes a) (keywords a) (patterns a)
    (existsb (starts_with n) (prefixes a)
     || is_some_and (first_word n) (fun first => existsb (text_eqb first) (keywords a))
     || existsb (fun pattern => is_match pattern n) (patterns a)).
Proof.
  intros He Hg a. unfold gate_reason. rewrite He, Hg. cbn [negb]. fold a. unfold passes. destruct n as [|c n].
  { by destruct (supports_empty_query a). }
  destruct (Z.ltb_spec (len (c :: n)) (minimum_query_length (debounce (policy st)))); [split; [done | lia]|].
  destruct (existsb (starts_with (c :: n)) (prefixes a) || _ || _);
    destruct (prefixes a), (keywords a), (patterns a); split; intros; try done; naive_solver.
Qed.

Lemma admits_true (p : PluginModel.QueryPolicy) q :
  PluginModel.admits to_lowercase p q = true <->
  passes (PluginModel.q_empty_query p) q (PluginModel.q_minimum_query_length p) (PluginModel.q_prefixes p)
    (PluginModel.q_keywords p) (PluginModel.q_patterns p)
    (existsb (PluginModel.starts_with_ignore_ascii_case q) (PluginModel.q_prefixes p)
     || is_some_and (first_word q)
          (fun first => existsb (fun k => eq_ignore_ascii_case (utf8 first) (utf8 k)) (PluginModel.q_keywords p))
     || existsb (fun pattern => is_match pattern (to_lowercase q)) (PluginModel.q_patterns p)).
Proof.
  unfold PluginModel.admits, passes. destruct q as [|c q]; [done|].
  destruct (Z.ltb_spec (len (c :: q)) (PluginModel.q_minimum_query_length p)); [split; [done | lia]|].
  destruct (existsb (PluginModel.starts_with_ignore_ascii_case (c :: q)) (PluginModel.q_prefixes p) || _ || _);
    destruct (PluginModel.q_prefixes p), (PluginModel.q_keywords p), (PluginModel.q_patterns p); split; intros; try done; naive_solver.
Qed.

(** C38: the scheduler gates a plugin as its manifest says.  For every manifest
    whose prefixes and keywords are ASCII words without surrounding blanks, and
    every ASCII query, the scheduler lets the query through to the plugin
    exactly when the manifest's own policy admits the trimmed query: empty
    queries, the minimum length, prefixes, keywords and patterns alike, under
    each of the three scheduling profiles. *)
Theorem scheduler_gate_matches_manifest m q :
  Forall tidy (PluginModel.prefixes (PluginModel.activation m)) ->
  Forall tidy (PluginModel.keywords (PluginModel.activation m)) -> is_ascii q ->
  gate_reason (registered_state m) (to_lowercase (trim q)) = None <->
  PluginModel.admits to_lowercase (PluginModel.query_policy compile never m) (trim q) = true.
Proof.
  intros Hp Hk Hq. apply trim_ascii in Hq. revert Hq. generalize (trim q). clear q. intros q Hq.
  rewrite (lowercase_ascii q Hq). unfold registered_state, plugin_policy_from_manifest, PluginModel.query_policy.
  destruct (decide (PluginModel.scheduling_profile m = PluginModel.LegacyStrict)) as [E|E].
  { cbn [PluginModel.q_profile]. rewrite E. unfold normalize_policy. cbn [scheduler_profile SchedulerTypes.profile].
    rewrite decide_True by done. split; [intros _|done]. unfold PluginModel.admits. destruct q; [done|].
    cbn [PluginModel.q_minimum_query_length]. rewrite (proj2 (Z.ltb_ge _ _)) by apply len_nonneg. done. }
  set (prof := scheduler_profile (PluginModel.scheduling_profile m)).
  assert (Hprof : prof <> LegacyStrict /\ allows_host_gating prof = true).
  { unfold prof. by destruct (PluginModel.scheduling_profile m). }
  destruct Hprof as [Hne Hgate]. cbn [PluginModel.q_profile]. fold prof. clearbody prof.
  unfold normalize_policy. cbn [SchedulerTypes.profile]. rewrite decide_False by done.
  rewrite admits_true. match goal with |- gate_reason (new_plugin_state ?pol) _ = None <-> _ =>
    rewrite (gate_open (new_plugin_state pol)) by (done || (case_match; exact Hgate)) end.
  cbn [policy new_plugin_state]. match goal with |- context [minimum_query_length (debounce ?pol)] => assert (Hpol :
    supports_empty_query (activation pol) = default false (PluginModel.empty_query (PluginModel.activation m)) /\
    minimum_query_length (debounce pol) = default 0 (PluginModel.minimum_query_length (PluginModel.activation m)) /\
    prefixes (activation pol) = normalize_terms to_lowercase (PluginModel.prefixes (PluginModel.activation m)) /\
    keywords (activation pol) = normalize_terms to_lowercase (PluginModel.keywords (PluginModel.activation m)) /\
    patterns (activation pol) = PluginModel.compiled_activation_patterns compile never m) by (case_match; done);
    destruct Hpol as (-> & -> & -> & -> & ->) end.
  rewrite !normalize_terms_tidy by done.
  rewrite passes_lower, (gates_agree q) by done. cbn [PluginModel.q_empty_query PluginModel.q_minimum_query_length
    PluginModel.q_prefixes PluginModel.q_keywords PluginModel.q_patterns]. by rewrite (lowercase_ascii q Hq).
Qed.
End Gate.

(** * A concrete manifest *)

(** A case folding that satisfies the hypothesis, and a query that the keyword
    lets through. *)
Lemma scheduler_gate_matches_manifest_witness :
  gate_reason (registered_state (map ascii_lower) sample_compile (fun _ => false) sample_manifest)
    (map ascii_lower (trim (ascii " GIT log "))) = None.
Proof.
  apply (scheduler_gate_matches_manifest (map ascii_lower) sample_compile (fun _ => false) (fun t _ => eq_refl)
    sample_manifest (ascii " GIT log ")).
  - constructor; [|constructor]. split; [|split; [vm_compute; reflexivity | discriminate]].
    unfold is_ascii. cbn. repeat (apply Forall_cons; split; [split; discriminate|]). constructor.
  - constructor; [|constructor]. split; [|split; [vm_compute; reflexivity | discriminate]].
    unfold is_ascii. cbn. repeat (apply Forall_cons; split; [split; discriminate|]). constructor.
  - unfold is_ascii. cbn. repeat (apply Forall_cons; split; [split; discriminate|]). constructor.
  - vm_compute. reflexivity.
Defined.
